(* ===== verification/_CoqProject ===== *)
-Q . S2P
Prelude.v
WaitGraph.v
LockTable.v
TableLocks.v
Advisory.v
LockSystem.v
RustM.v
Wire.v
WireFacts.v
CursorReply.v
Lex.v
Bson.v
Docs.v
Paths.v
BsonDoc.v
Numeric.v
NumericFacts.v
Order.v
SortKey.v
SortKeyNum.v
SortKeyFacts.v
SortKeyOrder.v
SortKeySplit.v
Diff.v
PathsFacts.v
DiffEdits.v
DiffWalk.v
DiffProps.v
PipelineDiff.v
PipelineProps.v
OplogDiff.v
OplogProps.v
CopyText.v
CopyProps.v
LikeMatch.v
LikeProps.v
Xids.v
XidProps.v
Decimal.v
Query.v
IndexKeys.v
ScanBounds.v
IndexScan.v
QueryFacts.v
QueryProps.v
ScanFacts.v
SpanFacts.v
ScanProps.v
Vec.v
Slice.v
Meth.v
Ssi.v
SsiWf.v
SsiInv.v
SsiLocks.v
SsiEnds.v
SsiStart.v
SsiSteps.v
SsiProps.v
PgQsort.v
PgQsortFacts.v
Heap.v
HeapFacts.v
RowLocks.v
RowLockSystem.v
RowLockProps.v
Fsm.v
FsmFacts.v
FsmProps.v
MongoLocks.v
MongoRounds.v
MongoProg.v
MongoSystem.v
MongoHeads.v
MongoLogic.v
MongoInv.v
MongoSpecs.v
MongoOrder.v
MongoLive.v
MongoProps.v
