(* ===== verification/Prelude.v ===== *)
(** * SecantusDB: a verification development

    SecantusDB is a database server in Rust that speaks two wire protocols,
    MongoDB's and PostgreSQL's, over one WiredTiger store.  This library models
    the parts of it whose correctness is a matter of algorithms and of
    interleavings - locks, conflict detection, key encodings, the free space map,
    framing, sorting - as executable definitions, and proves what the rest of the
    server relies on.

    ** The parts and how they meet

    PostgreSQL side ([secantus-pg], [secantus-storage], [secantus-pgplan]).  A
    session takes table locks ([table_locks.rs]), advisory locks ([advisory.rs])
    and row locks ([share_locks.rs] and the held-row sets of the storage crate,
    with [row_waits.rs]).  Every one of them that has to wait records its
    blockers in one wait-for graph ([lock_manager.rs]), which the deadlock search
    reads.  A serializable transaction also reports its reads and writes to
    [ssi.rs], which may refuse it.  An insert asks the free space map ([fsm.rs])
    for a page; [ORDER BY] sorts with [pg_qsort.rs].  Transaction ids and the
    snapshots sessions keep are counted by [xids.rs], whose horizon says what
    VACUUM may remove.  [COPY] reads its options and rows in [copy_opts.rs] and
    [copy_text.rs]; [LIKE] matches with [like_match.rs].

    MongoDB side ([secantus-wire], [secantus-core], [secantus-commands]).  A frame
    is parsed and checked by [secantus-wire]; the command takes its locks from the
    lock manager ([secantus-commands/src/lock_manager.rs]) before it runs; values
    are compared by [order.rs] over [numeric.rs] and keyed for indexes by
    [sortkey.rs].  A query reads the entries of an index between the bounds
    [scan_bounds.rs] puts on its predicate, if [secantus-storage/src/lib.rs] finds an
    index that leads with the field, and [query.rs] decides on each document read.
    Top-k sorting uses [heap.rs]; the reply is framed again, a
    cursor batch spliced in without being decoded.  A write is logged with what it
    changed, by path ([diff.rs] over [paths.rs]): change streams show the
    description, and recovery applies it to the old document.

    ** Files, and the code they model (paths under src/crates/)

    Shared:
    - [Prelude]: sorted id vectors, the notation [⌊ P ⌋], the hint database
      [secantus], tactics and list lemmas the files share.
    - [RustM]: outcomes ([Ok], [Err], [Panic]), fixed-width integers and
      byte encodings.  [Vec], [Slice]: vectors and [&mut] slices whose indexing
      panics out of range.  [Meth]: methods on [&mut self] that return [Result],
      with a total [wp].  [Lex]: byte-string order.

    PostgreSQL locks (secantus-pg/src):
    - [WaitGraph]: lock_manager.rs - [WaitGuard]'s [set], [record] and drop,
      [released], [blockers_of], [wait_kind], the search [deadlocked].
    - [LockTable]: the interface a lock table offers its waiters (a class), and
      the wait protocol [acquire] and [lock] share, proved against it once.
    - [TableLocks]: table_locks.rs.  [Advisory]: advisory.rs.  Both are instances
      of the interface.
    - [LockSystem]: the sessions that share both tables and the graph, as a
      transition system; an action is one critical section.

    Row locks:
    - [RowLocks]: secantus-storage/src/share_locks.rs, [note_row], [share_row],
      savepoints and [clear] of secantus-storage/src/lib.rs, row_waits.rs and
      [share_selected_rows] of secantus-pg.  [RowLockSystem]: the table's
      invariant, and transactions interleaved, their moves to new snapshots
      ([MoveGuard]) included.  [RowLockProps]: the guarantees.

    Serializable snapshot isolation (secantus-pg/src/ssi.rs):
    - [Ssi]: every method of [State], and [with] and [forget].
    - [SsiWf]: the structures that refer to each other by index, and that no
      method panics under them.  [SsiInv]: the whole invariant.
      [SsiLocks], [SsiEnds], [SsiStart], [SsiSteps]: its preservation, by group of
      methods.  [SsiProps]: the calls of the server
      and what holds in every state they reach.

    Free space map (secantus-pg/src/fsm.rs):
    - [Fsm]: pages, addresses, searches, recording, truncation, VACUUM.
      [FsmFacts]: one page, and the fork, refined to a map from heap
      blocks to categories.  [FsmProps]: the refinement of every operation.

    Transaction ids (secantus-pg/src/xids.rs, snapshots.rs and systypes.rs of
    secantus-pgplan):
    - [Xids]: the counter, its reservation in the store, the ids and snapshots of
      sessions, the horizon, the text of a snapshot and visibility over it.
      [XidProps]: runs of sessions and restarts, and the guarantees.

    COPY and LIKE (secantus-pgplan/src/copy_opts.rs, like_match.rs,
    secantus-pg/src/copy_text.rs):
    - [CopyText]: the options read and checked ([process]), a row written
      ([write_field], [copy_text_row]) and data read ([parse_text], [parse_csv]).
      [CopyProps]: both formats read back what they write.
    - [LikeMatch]: [match_text] and [like_match_bytes].  [LikeProps]: against the
      relation a pattern stands for.

    Sorting:
    - [PgQsort], [PgQsortFacts]: secantus-pgplan/src/pg_qsort.rs.
    - [Heap], [HeapFacts]: secantus-core/src/heap.rs, over the class [HeapLaws].

    BSON values and keys (secantus-core/src):
    - [Bson]: the value type and the carriers of bsondoc.rs.
    - [Numeric], [NumericFacts]: numeric.rs.  [Order]: order.rs.
    - [SortKey]: sortkey.rs.  [SortKeyNum], [SortKeyFacts]: byte
      order against value order, by type.  [SortKeyOrder]: the order theorems.
      [SortKeySplit]: splitting compound keys.

    Queries and index reads (secantus-core/src/query.rs, decimal.rs, index_keys.rs,
    secantus-storage/src/scan_bounds.rs, lib.rs):
    - [Decimal]: decimal.rs, parsing and conversion to integers, and what the matcher
      uses of doubles.  [Query]: query.rs, from [resolve_path] to [matches], over the
      class [Engines].  [IndexKeys]: the values and keys a document gives an index,
      sparse and multikey tests.  [ScanBounds]: scan_bounds.rs.  [IndexScan]: packed
      entries, [find_leading_field_index], [scan_spans] and [bounded_id_keys].
    - [QueryFacts]: comparison in the matcher against [order::cmp], and fuel.
      [QueryProps]: hashed lists, termination.  [ScanFacts]: an operator that holds
      has a key in its stretches.  [SpanFacts]: spans hold the stored bytes of what
      stretches cover, and the scan finds them.  [ScanProps]: paths, the keys of a
      document, and the guarantee end to end.

    Update descriptions (secantus-core/src):
    - [Docs]: what is used of the [bson] crate's documents.  [Paths]: paths.rs,
      reading, setting and removing by dotted path.  [BsonDoc]: the writer of
      bsondoc.rs, with the class [BsonCrate] of what it calls.
    - [Diff]: diff.rs - equality (with [py_eq] of expressions.rs), the walk over
      two documents, what the operators of an update touched, whole values, the
      description and [apply_update_description].  [PipelineDiff]: the comparison
      and description of a pipeline update.  [OplogDiff]: [oplog_diff], the
      difference an oplog entry shows.
    - [PathsFacts]: splitting and joining paths.  [DiffEdits]: a description as a
      list of edits, when edits turn one value into another, and reporting a whole
      value in place of what is below it.  [DiffWalk]: the edits
      the walk adds.  [DiffProps], [PipelineProps], [OplogProps]: the guarantees.

    Framing (secantus-wire/src/lib.rs):
    - [Wire], [WireFacts]: headers, [OP_MSG], [OP_QUERY], checksums, replies.
      [CursorReply]: the splice of a cursor batch.

    MongoDB lock manager (secantus-commands/src/lock_manager.rs, and its callers
    in lib.rs, session.rs, admin.rs and transactions.rs):
    - [MongoLocks]: modes, resources, heads, and each section under the mutex;
      [acquire] is cut at its wait.
    - [MongoRounds]: which locks a command takes ([classify], the chains, the
      rounds of a statement).
    - [MongoProg]: the functions of the file as programs over those sections and
      the thread's locals, up to the service of a connection.
    - [MongoSystem]: threads of such programs, interleaved.
    - [MongoHeads]: the sections' effect on holders and queues.  [MongoLogic]: a
      program logic for one thread, parametric in what the others do.  [MongoInv]:
      the global invariant.  [MongoSpecs]: the logic applied to every function.  [MongoOrder]: statements lock in one order.
      [MongoLive]: progress.  [MongoProps]: the guarantees.

    ** What the theorems show

    - Mutual exclusion under every interleaving: table and advisory locks
      ([locks_exclusive]), row locks ([row_locks_exclusive], where a move to a new
      snapshot may lose the key strength of a write: [move_loses_key_lock]), the
      MongoDB lock manager ([running_statements_compatible], [database_lock_covers]).
    - Deadlock: the search is exact and terminates ([deadlocked_iff_cycle]) and a
      session is told so only for a real cycle ([deadlock_real]); MongoDB
      statements of the kinds [served] lists never deadlock each other, from any
      reachable state they can all be served ([statements_complete]); two threads that
      wait for each other's holds do so until a budget runs out
      ([crossed_waits_stuck]), a state opposite renames and two index builds of one
      collection reach ([w_renames_cross], [w_builds_cross]).
    - Fairness: a queued request is not overtaken by one that conflicts with an
      earlier one of the queue ([no_overtaking]); an owner that holds the resource
      already waits outside the queue.
    - Serializable isolation: no method panics on a reachable state
      ([ssi_calls_total]); a dangerous structure whose out end has prepared is
      harmless ([prepared_structures_harmless]); reads lock what they cover,
      writes find every reader ([lock_tuple_covers], [conflict_in_records]);
      nothing leaks and the counts go back to zero ([ssi_no_leak]).
    - Refinement: the free space map implements a map of categories
      ([fsm_refines], [get_page_enough_space]); the heap is a priority queue
      ([heap_is_priority_queue]); [pg_qsort] sorts ([pg_qsort_sorts]).
    - Keys: the byte order of an encoded value is [order::cmp] ([sortkey_order],
      [compound_key_order]), compound keys split back
      ([split_directed_roundtrip]); a double's exact decimal value and the fast
      comparison are right ([exact_f64_parts_exact], [fast_cmp_agrees]).
    - Index reads: what the planner reads from an index between the bounds of a
      predicate holds every document the filter matches ([scan_reads_matches], whose
      comment lists the values, indexes and predicates it is about), in
      either direction, over arrays and in compound indexes; evaluating a filter
      returns if the engines it calls do ([matches_returns]); a hashed list is answered as its elements would
      be ([in_set_agrees]).
    - Replay: the description of an update, applied to the old document, gives the
      new one ([update_description_replays], [pipeline_description_replays]), up
      to the order of fields, for documents whose names have no dot and are not
      repeated and whose arrays are within the cap on growing a list; the difference shown in the oplog has array nodes
      where the document has arrays ([oplog_tree_typed]).
    - Transaction ids: what sessions are answered is never an id another transaction
      was given, while blocks are reserved
      ([xids_unique]); the horizon removes nothing a kept snapshot may still see
      ([horizon_safe]); the snapshot's text and visibility over it are exact
      ([current_snapshot_exact]).
    - Text formats: COPY's text and CSV formats read back the rows each can carry
      under the accepted options ([copy_text_roundtrip], [copy_csv_roundtrip]);
      LIKE, minding case, answers what its pattern means ([like_match_exact]).
    - Framing: [parse_op_msg] accepts exactly the grammar
      ([parse_op_msg_exact]), frames and checksums round-trip, the splice is the
      document it stands for ([encode_cursor_reply_spec]).
    - Corners where the code does not do what its comments say: a symbol in
      [order::cmp], undefined fields in keys, negative frame lengths, the edge an
      advisory release leaves, a refused upgrade of a row lock, the key strength a move
      loses, the MongoDB deadlocks, and replay: elements past the cap on growing a list
      ([long_array_not_replayed]), moved fields ([pipeline_reorder_lost]), a field
      removed inside an array ([unset_in_array_untyped]); a row of one empty
      column lost by COPY ([copy_text_empty_lost]), the error of a trailing
      escape missed over bytes ([like_bytes_misses_error]), and matches an index read
      loses: a [$type] of JavaScript with scope ([type_scan_loses_scope]), bounds a
      missing field meets on a sparse index ([sparse_scan_loses_missing]).

    ** Fuel and bounds

    Recursion that is not structural takes fuel, and a theorem shows that the
    fuel given is enough, so no result depends on it running out:
    - [deadlocked] takes one unit more than the edges of the graph: a pid is
      expanded once, so every edge is pushed and popped at most once.
    - [Ssi]: acquiring a lock recurses once per granularity, so three levels do;
      [clear_old] takes one more than the length of the finished list, which every
      round shortens or walks.  [ssi_calls_total] is stated with these bounds.
    - [Wire], [SortKey]: loops over a buffer take its length, of which every
      section, element or field uses at least one byte.
    - [PgQsort]: the length of the slice; every recursion is on a shorter one.
      [Heap]: the length of the vector.  [Fsm]: the node number a climb starts at,
      the nodes of a page, the three levels of the fork, and for a search the
      source's own limit of 10000 restarts times the levels.
    - [LikeMatch]: one more than the length of the pattern, of which every turn
      uses a character; [like_match_exact] shows it never runs out.
    - [Query]: the nesting of the filter; [matches_returns] shows it is enough.
    - [Order]: the deeper of the two values compared.  [Numeric]: the bits of a
      double's mantissa and the exponent range.

    Integers the code wraps or checks keep their width ([u8], [i32], [u32],
    [u64], [usize] with their bounds).  The MongoDB lock manager's owner and ticket
    counters wrap at 2^64; its theorems are about runs of fewer steps, in which
    they stay unique.  [Fsm.heap_blk] is unbounded: it leaves [u32] only for slots past
    the last block, which no call sets.  Sequence numbers of [ssi.rs] and transaction ids only grow
    by one and are kept unbounded.

    ** Parameters

    Code that is not in the repository is an argument: the [bson] crate's
    validation of a document, its encoder, its document equality and
    [Decimal128::to_string] (used through what its text is documented to be), the
    [icu] collator, Unicode lower-casing and [char::is_alphanumeric]; so is the table
    of encoding names.  The engines the matcher calls - regular expressions, geometry,
    [$expr], [$jsonSchema], the printers of messages - are the class [Engines] of
    [Query]; the read theorem asks of them that a regex with a literal prefix matches
    only strings that begin with it ([prefix_law]) and that a [$near] condition has
    only its own keys ([near_law]).  WiredTiger's cursor is the list of an index's
    entries in byte order, and what a partial filter implies is a function.
    Whether a write of the store succeeds is an input of the operation.  The
    clock, the kill flag and the condition variables are choices of the scheduler:
    every interleaving and every timeout is covered.

    ** Not modelled

    The storage engine calls the WiredTiger C library, whose exclusive row lock
    and snapshots are outside the model.  The SQL planner, the PostgreSQL
    catalog and the aggregation, expression and update evaluators are large
    translations from one tree to another and are only entered where a modelled
    part calls them.  Of the queries, the twins of the matcher over raw BSON, the
    look-ups that need no bounds (whole keys, compound prefixes, [_id], geometry) and
    the writing of index entries are left out: that a document's keys have entries is
    the hypothesis [indexed] of the read theorem.  Sockets, process set-up, Python
    bindings, SCRAM over third-party cryptography and the benchmarks are I/O or glue.  Inside modelled
    parts: the BSON image of a free space map, the rounding conversions of
    numeric.rs, the key encodings of earlier formats kept for tests, the reader of
    bsondoc.rs.  That an update that names elements of an array past its end
    leaves nulls between them is a hypothesis of the replay theorem ([padded]),
    since the update operators themselves are not modelled. *)

From stdpp Require Export base decidable list gmap relations sorting.
From Stdlib Require Export ZArith Lia.

(** ** Sorted, duplicate-free vectors of session ids

    [Vec::dedup] removes consecutive repeats; [sort_unstable] on integers can
    only produce the one ascending arrangement, so [merge_sort] stands for it. *)

Fixpoint dedup (l : list Z) : list Z :=
  match l with
  | [] => []
  | x :: l' =>
      match dedup l' with
      | [] => [x]
      | y :: r => if decide (x = y) then y :: r else x :: y :: r
      end
  end.

Definition sort_dedup (l : list Z) : list Z := dedup (merge_sort Z.le l).

Lemma elem_of_dedup x l : x ∈ dedup l ↔ x ∈ l.
Proof.
  induction l as [|y l IH]; [done|]. simpl.
  rewrite elem_of_cons, <- IH. destruct (dedup l) as [|z r] eqn:E.
  - set_solver.
  - case_decide; subst; set_solver.
Qed.

Lemma elem_of_sort_dedup x l : x ∈ sort_dedup l ↔ x ∈ l.
Proof. unfold sort_dedup. by rewrite elem_of_dedup, merge_sort_Permutation. Qed.

Lemma dedup_sorted l : StronglySorted Z.le l → StronglySorted Z.lt (dedup l).
Proof.
  induction 1 as [|x l Hs IH Hx]; [constructor|]. simpl.
  assert (Hx' : Forall (Z.le x) (dedup l)).
  { rewrite Forall_forall in Hx |- *. intros y Hy. apply Hx. by apply elem_of_dedup. }
  destruct (dedup l) as [|y r]; [repeat constructor|].
  case_decide; [done|]. constructor; [done|].
  inversion IH as [|? ? _ Hy]; inversion Hx'; subst.
  constructor; [lia|]. eapply Forall_impl; [exact Hy|]. simpl; lia.
Qed.

Lemma sort_dedup_sorted l : StronglySorted Z.lt (sort_dedup l).
Proof.
  apply dedup_sorted, StronglySorted_merge_sort. intros ???; lia.
  intros ??; lia.
Qed.

Lemma sort_dedup_nil l : sort_dedup l = [] ↔ l = [].
Proof.
  split; intros H; [|by subst].
  destruct l as [|x l]; [done|].
  assert (Hx : x ∈ sort_dedup (x :: l)) by (apply elem_of_sort_dedup; left).
  rewrite H in Hx. by apply not_elem_of_nil in Hx.
Qed.

(** ** Notation and automation of the development *)

Declare Scope secantus_scope.
Delimit Scope secantus_scope with sec.

(** The boolean of a decidable proposition, as the code's conditions are. *)
Notation "⌊ P ⌋" := (bool_decide P) (at level 0, P at level 200, format "⌊ P ⌋") : secantus_scope.

Create HintDb secantus.

(** Membership in the empty list. *)
Ltac elem_nil :=
  match goal with H : _ ∈ _ |- _ => solve [exfalso; exact (not_elem_of_nil _ H)] end.

Lemma elem_of_mid {A} (x : A) l l' : x ∈ l ++ x :: l'.
Proof. apply elem_of_app. right. left. Qed.

Lemma elem_of_app_l {A} (x : A) l l' : x ∈ l → x ∈ l ++ l'.
Proof. intros. apply elem_of_app. by left. Qed.

Lemma elem_of_app_r {A} (x : A) l l' : x ∈ l' → x ∈ l ++ l'.
Proof. intros. apply elem_of_app. by right. Qed.

#[export] Hint Resolve elem_of_mid elem_of_app_l elem_of_app_r list_elem_of_here list_elem_of_further : secantus.
#[export] Hint Extern 0 => elem_nil : secantus.

(** Case analysis on an index or key that may be the one just inserted. *)
Ltac insert_case i j :=
  destruct (decide (i = j)) as [->|?];
  [rewrite ?lookup_insert_eq in *|rewrite ?lookup_insert_ne in * by congruence].

(** [existsb] and [filter] in the vocabulary of list membership. *)

Lemma existsb_True {A} (f : A → bool) l : existsb f l = true ↔ ∃ x, x ∈ l ∧ f x = true.
Proof. rewrite existsb_exists. by setoid_rewrite list_elem_of_In. Qed.

Lemma existsb_False {A} (f : A → bool) l : existsb f l = false ↔ ∀ x, x ∈ l → f x = false.
Proof.
  rewrite <- not_true_iff_false, existsb_True. split.
  - intros H x Hx. apply not_true_iff_false. naive_solver.
  - intros H (x & Hx & E). specialize (H x Hx). congruence.
Qed.

Lemma list_filter_length_le {A} (P : A → Prop) `{∀ x, Decision (P x)} (l : list A) :
  length (filter P l) ≤ length l.
Proof. induction l as [|x l IH]; [done|]. rewrite filter_cons. case_decide; simpl; lia. Qed.

Lemma list_filter_id {A} (P : A → Prop) `{∀ x, Decision (P x)} (l : list A) :
  (∀ x, x ∈ l → P x) → filter P l = l.
Proof.
  induction l as [|x l IH]; intros Hl; [done|].
  rewrite filter_cons_True by (apply Hl; left). f_equal. apply IH. intros y Hy. apply Hl. by right.
Qed.

Lemma list_filter_ext_in {A} (P Q : A → Prop) `{∀ x, Decision (P x), ∀ x, Decision (Q x)} (l : list A) :
  (∀ x, x ∈ l → P x ↔ Q x) → filter P l = filter Q l.
Proof.
  induction l as [|x l IH]; intros Hl; [done|]. rewrite !filter_cons.
  assert (Hx : P x ↔ Q x) by (apply Hl; left).
  rewrite IH by (intros y Hy; apply Hl; by right). repeat case_decide; tauto.
Qed.

(** On a path whose last node has a successor, every node reached has one. *)
Lemma tc_nonterminal {A} (R : relation A) x y :
  tc R x y → (∃ z, R y z) → tc (λ a b, R a b ∧ ∃ c, R b c) x y.
Proof.
  induction 1 as [x y Hxy|x y z Hxy Hyz IH]; intros Hz; [by constructor|].
  eapply tc_l; [|by apply IH]. split; [done|]. destruct Hyz; eauto.
Qed.

Lemma tc_mono {A} (R S : relation A) x y :
  (∀ a b, R a b → S a b) → tc R x y → tc S x y.
Proof. intros HRS. induction 1; [constructor|eapply tc_l]; eauto. Qed.

(** Induction that looks two elements ahead. *)
Lemma list_pair_ind {A} (P : list A → Prop) :
  P [] → (∀ b, P [b]) → (∀ b c l, P l → P (c :: l) → P (b :: c :: l)) → ∀ l, P l.
Proof.
  intros H0 H1 H2 l. enough (P l ∧ ∀ b, P (b :: l)) by tauto. induction l as [|c l [IH1 IH2]]; [auto|]. split; [auto|]. intros b. auto.
Qed.

Lemma existsb_none {A} (f : A → bool) l : existsb f l = false → ∀ x, x ∈ l → f x = false.
Proof.
  intros He x Hx%list_elem_of_In. apply not_true_is_false. intros Hf.
  enough (existsb f l = true) by congruence. apply existsb_exists. eauto.
Qed.

Lemma tc_start {A} (R : relation A) x y : tc R x y → ∃ z, R x z.
Proof. destruct 1; eauto. Qed.
