(* ===== verification/WaitGraph.v ===== *)
(** The wait-for graph of the PostgreSQL server: [secantus-pg/src/lock_manager.rs].

    One process-wide vector of waits, each "session [pid] is blocked on every
    pid of [blockers]"; every lock kind records its waits here, and one
    depth-first search answers whether a wait closes a cycle. *)

From S2P Require Import Prelude.

Local Open Scope Z_scope.

Inductive WaitKind := Relation | TransactionId | Advisory.

#[export] Instance WaitKind_eq_dec : EqDecision WaitKind.
Proof. solve_decision. Defined.

Record Wait := mkWait { w_pid : Z; w_kind : WaitKind; w_blockers : list Z }.

Abbreviation Graph := (list Wait).

(** [deadlocked]'s closure [blockers]. *)
Definition edges_of (waits : Graph) (p : Z) : list Z :=
  flat_map w_blockers (filter (λ w, w_pid w = p) waits).

(** The [while let Some(p) = stack.pop()] loop of [deadlocked]: the stack's top
    is the last element of the vector, here the head of [stack], so [extend]
    prepends the reversed blockers. [None]: out of fuel. *)
Fixpoint deadlocked_loop (fuel : nat) (waits : Graph) (pid : Z)
    (seen stack : list Z) : option bool :=
  match fuel with
  | O => None
  | S fuel =>
      match stack with
      | [] => Some false
      | p :: stack =>
          if bool_decide (p = pid) then Some true
          else if bool_decide (p ∈ seen) then deadlocked_loop fuel waits pid seen stack
          else deadlocked_loop fuel waits pid (seen ++ [p]) (reverse (edges_of waits p) ++ stack)
      end
  end.

(** The edges of the whole graph: what the loop can ever push. *)
Definition edge_count (waits : Graph) : nat := length (flat_map w_blockers waits).

Definition deadlocked (waits : Graph) (pid : Z) : bool :=
  default false
    (deadlocked_loop (S (edge_count waits)) waits pid [pid] (reverse (edges_of waits pid))).

(** [WaitGuard::record] for the guard [(pid, kind)]. *)
Definition record (pid : Z) (kind : WaitKind) (waits : Graph) (blockers : list Z) : Graph :=
  let blockers := sort_dedup (filter (λ b, b ≠ pid) blockers) in
  let waits := filter (λ w, w_pid w ≠ pid) waits in
  if bool_decide (blockers = []) then waits else waits ++ [mkWait pid kind blockers].

Definition set (pid : Z) (kind : WaitKind) (blockers : list Z) (waits : Graph) : Graph :=
  record pid kind waits blockers.

(** [WaitGuard::set_with]: [holders] is read under the graph's lock, so it is
    a function of the state outside the graph at that instant. *)
Definition set_with (pid : Z) (kind : WaitKind) (holders : unit → list Z) (waits : Graph)
    : Graph * list Z :=
  let blockers := holders tt in
  (record pid kind waits blockers, blockers).

(** [Drop for WaitGuard]. *)
Definition drop_guard (pid : Z) (waits : Graph) : Graph := filter (λ w, w_pid w ≠ pid) waits.

Definition released (pid : Z) (kind : WaitKind) (waits : Graph) : Graph :=
  let waits :=
    map (λ w, if bool_decide (w_kind w = kind)
              then mkWait (w_pid w) (w_kind w) (filter (λ b, b ≠ pid) (w_blockers w))
              else w) waits in
  filter (λ w, w_blockers w ≠ []) waits.

Definition blockers_of (pid : Z) (waits : Graph) : list Z := sort_dedup (edges_of waits pid).

Definition wait_kind (pid : Z) (waits : Graph) : option WaitKind :=
  fmap w_kind (head (filter (λ w, w_pid w = pid) waits)).

Definition waits (g : Graph) : list (Z * WaitKind * list Z) :=
  map (λ w, (w_pid w, w_kind w, w_blockers w)) g.

(** ** The relation the graph stands for, and its well-formedness *)

(** [p] waits, directly, on [q]. *)
Definition waits_on (ws : Graph) (p q : Z) : Prop :=
  ∃ w, w ∈ ws ∧ w_pid w = p ∧ q ∈ w_blockers w.

(** One entry per session, each naming at least one other session, in
    ascending order without repeats. *)
Definition wf_wait (w : Wait) : Prop :=
  w_blockers w ≠ [] ∧ w_pid w ∉ w_blockers w ∧ StronglySorted Z.lt (w_blockers w).

Definition wf (ws : Graph) : Prop := NoDup (map w_pid ws) ∧ Forall wf_wait ws.

Lemma elem_of_edges_of ws p q : q ∈ edges_of ws p ↔ waits_on ws p q.
Proof.
  unfold edges_of, waits_on. rewrite list_elem_of_In, in_flat_map.
  setoid_rewrite <- list_elem_of_In. setoid_rewrite list_elem_of_filter. naive_solver.
Qed.

(** ** The search *)

Section search.
Context (ws : Graph) (pid : Z).

(** Edges of the sessions the search has not expanded yet. *)
Definition unseen_edges (seen : list Z) : nat :=
  length (flat_map w_blockers (filter (λ w, w_pid w ∉ seen) ws)).

Lemma unseen_edges_expand seen p :
  p ∉ seen →
  unseen_edges seen = (length (edges_of ws p) + unseen_edges (seen ++ [p]))%nat.
Proof.
  intros Hp. unfold unseen_edges, edges_of.
  induction ws as [|w l IH]; [done|]. rewrite !filter_cons.
  repeat case_decide; simpl; rewrite ?length_app, IH; set_solver by lia.
Qed.

Lemma edge_count_split :
  edge_count ws = (length (edges_of ws pid) + unseen_edges [pid])%nat.
Proof.
  change [pid] with ([] ++ [pid]). rewrite <- (unseen_edges_expand [] pid) by set_solver.
  unfold edge_count, unseen_edges. f_equal. f_equal.
  symmetry. apply list_filter_id. set_solver.
Qed.

Notation reach := (tc (waits_on ws)).

(** What the loop keeps true of [seen] and [stack]. *)
Record search_inv (seen stack : list Z) : Prop := {
  si_root : pid ∈ seen;
  si_seen : ∀ p, p ∈ seen → p = pid ∨ reach pid p;
  si_stack : ∀ p, p ∈ stack → reach pid p;
  si_closed : ∀ p q, p ∈ seen → waits_on ws p q →
                q ∈ stack ∨ (q ∈ seen ∧ q ≠ pid) }.

Lemma search_inv_init : search_inv [pid] (reverse (edges_of ws pid)).
Proof.
  split.
  - set_solver.
  - set_solver.
  - intros p. rewrite elem_of_reverse, elem_of_edges_of. by constructor.
  - intros p q ->%list_elem_of_singleton Hq. left. by rewrite elem_of_reverse, elem_of_edges_of.
Qed.

Lemma search_inv_skip seen p stack :
  p ≠ pid → p ∈ seen → search_inv seen (p :: stack) → search_inv seen stack.
Proof.
  intros Hne Hp [H1 H2 H3 H4]. split; [done..|set_solver|].
  intros a b Ha Hab. destruct (H4 a b Ha Hab) as [[->|?]%elem_of_cons|?]; auto.
Qed.

Lemma search_inv_expand seen p stack :
  p ≠ pid → search_inv seen (p :: stack) →
  search_inv (seen ++ [p]) (reverse (edges_of ws p) ++ stack).
Proof.
  intros Hne [H1 H2 H3 H4].
  assert (Hp : reach pid p) by (apply H3; left).
  split.
  - set_solver.
  - intros a [?| ->%list_elem_of_singleton]%elem_of_app; auto.
  - intros a [Ha|Ha]%elem_of_app; [|apply H3; by right].
    rewrite elem_of_reverse, elem_of_edges_of in Ha. by eapply tc_r.
  - intros a b [Ha| ->%list_elem_of_singleton]%elem_of_app Hab; rewrite !elem_of_app.
    + destruct (H4 a b Ha Hab) as [[->|?]%elem_of_cons|[??]]; set_solver.
    + left. left. by rewrite elem_of_reverse, elem_of_edges_of.
Qed.

(** With nothing left to visit, no path leads back. *)
Lemma search_inv_done seen : search_inv seen [] → ¬ reach pid pid.
Proof.
  intros [H1 _ _ H4] Hr.
  assert (Hgo : ∀ p q, reach p q → p ∈ seen → q ∈ seen ∧ q ≠ pid).
  { induction 1 as [p q Hpq|p q r Hpq _ IH]; intros Hp;
      destruct (H4 p q Hp Hpq) as [Hn|[Hq Hne]]; try (elem_nil);
      auto. }
  by destruct (Hgo pid pid Hr H1).
Qed.

Lemma deadlocked_loop_spec fuel seen stack :
  search_inv seen stack →
  (length stack + unseen_edges seen < fuel)%nat →
  ∃ b, deadlocked_loop fuel ws pid seen stack = Some b ∧ (b = true ↔ reach pid pid).
Proof.
  revert seen stack. induction fuel as [|fuel IH]; intros seen stack Hinv Hf; [lia|].
  destruct stack as [|p stack]; simpl in *.
  { exists false. split; [done|]. apply search_inv_done in Hinv. naive_solver. }
  repeat case_bool_decide; subst.
  - exists true. split; [done|]. split; [|done]. intros _.
    eapply si_stack; [done|]. left.
  - apply IH; [by eapply search_inv_skip|lia].
  - apply IH; [by apply search_inv_expand|].
    rewrite (unseen_edges_expand seen p) in Hf by done.
    rewrite length_app, length_reverse. lia.
Qed.
End search.

(** ** The operations keep the graph well-formed *)

Lemma elem_of_record pid kind ws bs w :
  w ∈ record pid kind ws bs ↔
    (w ∈ ws ∧ w_pid w ≠ pid) ∨
    (w = mkWait pid kind (sort_dedup (filter (λ b, b ≠ pid) bs)) ∧ w_blockers w ≠ []).
Proof.
  unfold record. case_bool_decide as E; rewrite ?elem_of_app, ?list_elem_of_singleton,
    list_elem_of_filter; split; try naive_solver.
  intros [?|[-> ?]]; naive_solver.
Qed.

Lemma elem_of_released pid kind ws w :
  w ∈ released pid kind ws ↔
    w_blockers w ≠ [] ∧ ∃ v, v ∈ ws ∧
      w = if bool_decide (w_kind v = kind)
          then mkWait (w_pid v) (w_kind v) (filter (λ b, b ≠ pid) (w_blockers v)) else v.
Proof. unfold released. rewrite list_elem_of_filter, list_elem_of_fmap. naive_solver. Qed.

Lemma NoDup_pids_filter (P : Wait → Prop) `{∀ w, Decision (P w)} (ws : Graph) :
  NoDup (map w_pid ws) → NoDup (map w_pid (filter P ws)).
Proof.
  intros Hnd. eapply sublist_NoDup; [done|]. apply fmap_sublist, sublist_filter.
Qed.

Lemma filter_sorted (P : Z → Prop) `{∀ x, Decision (P x)} (l : list Z) :
  StronglySorted Z.lt l → StronglySorted Z.lt (filter P l).
Proof.
  induction 1 as [|x l Hs IH Hx]; [constructor|].
  rewrite filter_cons. case_decide; [|done].
  constructor; [done|]. rewrite Forall_forall in Hx |- *.
  intros y [_ Hy]%list_elem_of_filter. auto.
Qed.

Lemma drop_guard_wf pid ws : wf ws → wf (drop_guard pid ws).
Proof.
  intros [H1 H2]. split; [by apply NoDup_pids_filter|].
  unfold drop_guard. apply Forall_forall. intros w [_ Hw]%list_elem_of_filter.
  by apply (proj1 (Forall_forall _ _) H2).
Qed.

Lemma record_wf pid kind ws bs : wf ws → wf (record pid kind ws bs).
Proof.
  intros Hwf. destruct (drop_guard_wf pid ws Hwf) as [H1 H2]. unfold record.
  change (filter _ ws) with (drop_guard pid ws).
  case_bool_decide as E; [done|]. split.
  - rewrite map_app. apply NoDup_app. split; [done|]. split; [|apply NoDup_singleton].
    intros p (w & -> & Hw)%list_elem_of_fmap. unfold drop_guard in Hw.
    apply list_elem_of_filter in Hw. set_solver.
  - apply Forall_app. split; [done|]. constructor; [|constructor].
    split; [done|]. simpl. split; [|apply sort_dedup_sorted].
    rewrite elem_of_sort_dedup, list_elem_of_filter. naive_solver.
Qed.

Lemma released_wf pid kind ws : wf ws → wf (released pid kind ws).
Proof.
  intros [H1 H2]. split.
  - unfold released. apply NoDup_pids_filter. rewrite map_map.
    erewrite map_ext; [exact H1|]. intros w. by case_bool_decide.
  - apply Forall_forall. intros w (Hne & v & Hv & ->)%elem_of_released.
    destruct (proj1 (Forall_forall _ _) H2 v Hv) as (Hv1 & Hv2 & Hv3).
    split; [done|]. case_bool_decide; simpl in *; [|done]. split.
    + rewrite list_elem_of_filter. naive_solver.
    + by apply filter_sorted.
Qed.

Lemma deadlocked_correct ws pid : deadlocked ws pid = true ↔ tc (waits_on ws) pid pid.
Proof.
  destruct (deadlocked_loop_spec ws pid (S (edge_count ws)) [pid] (reverse (edges_of ws pid)))
    as (b & Hb & Hiff).
  - apply search_inv_init.
  - rewrite length_reverse, (edge_count_split ws pid). lia.
  - unfold deadlocked. by rewrite Hb.
Qed.

(** A session is blocked exactly by the sessions its wait names. *)
Lemma elem_of_blockers_of ws p q : q ∈ blockers_of p ws ↔ waits_on ws p q.
Proof. unfold blockers_of. by rewrite elem_of_sort_dedup, elem_of_edges_of. Qed.

Lemma waits_on_record pid kind ws bs p q :
  waits_on (record pid kind ws bs) p q ↔
    (p ≠ pid ∧ waits_on ws p q) ∨ (p = pid ∧ q ∈ bs ∧ q ≠ pid).
Proof.
  unfold waits_on. setoid_rewrite elem_of_record. split.
  - intros (w & [[Hw Hne]|[-> Hne]] & <- & Hq); [naive_solver|].
    simpl in Hq. rewrite elem_of_sort_dedup, list_elem_of_filter in Hq. naive_solver.
  - intros [(Hne & w & Hw & <- & Hq)|(-> & Hq & Hne)]; [by exists w; auto|].
    exists (mkWait pid kind (sort_dedup (filter (λ b, b ≠ pid) bs))). simpl.
    rewrite elem_of_sort_dedup, list_elem_of_filter. split_and!; [|done..].
    right. split; [done|]. rewrite sort_dedup_nil. intros E.
    apply (not_elem_of_nil q). rewrite <- E. by apply list_elem_of_filter.
Qed.

Lemma waits_on_drop pid ws p q :
  waits_on (drop_guard pid ws) p q ↔ p ≠ pid ∧ waits_on ws p q.
Proof. unfold waits_on, drop_guard. setoid_rewrite list_elem_of_filter. naive_solver. Qed.

(** ** Properties *)

(** C2. The depth-first search of [deadlocked] always finishes within
    (number of edges + 1) iterations, and answers [true] exactly when the
    session lies on a cycle of the wait-for relation: no missed and no invented
    deadlock, whatever lock kinds the cycle runs through. *)
Theorem deadlocked_iff_cycle ws pid :
  (∃ b, deadlocked_loop (S (edge_count ws)) ws pid [pid] (reverse (edges_of ws pid)) = Some b
        ∧ deadlocked ws pid = b) ∧
  (deadlocked ws pid = true ↔ tc (waits_on ws) pid pid).
Proof.
  split; [|apply deadlocked_correct].
  destruct (deadlocked_loop_spec ws pid (S (edge_count ws)) [pid] (reverse (edges_of ws pid)))
    as (b & Hb & _).
  - apply search_inv_init.
  - rewrite length_reverse, (edge_count_split ws pid). lia.
  - exists b. split; [done|]. unfold deadlocked. by rewrite Hb.
Qed.

(** The operations on the process-wide graph. *)
Inductive graph_op :=
  | OpSet (pid : Z) (kind : WaitKind) (blockers : list Z)
  | OpSetWith (pid : Z) (kind : WaitKind) (holders : unit → list Z)
  | OpDrop (pid : Z)
  | OpReleased (pid : Z) (kind : WaitKind).

Definition run_op (o : graph_op) (ws : Graph) : Graph :=
  match o with
  | OpSet p k bs => set p k bs ws
  | OpSetWith p k h => (set_with p k h ws).1
  | OpDrop p => drop_guard p ws
  | OpReleased p k => released p k ws
  end.

(** Every sequence of operations from the empty graph leaves one entry per
    waiting session, each naming at least one blocker, never itself, in
    ascending order without repeats. *)
Theorem graph_ops_wf (ops : list graph_op) : wf (foldl (λ g o, run_op o g) [] ops).
Proof.
  enough (Hgo : ∀ g, wf g → wf (foldl (λ g o, run_op o g) g ops)).
  { apply Hgo. split; constructor. }
  induction ops as [|o ops IH]; intros g Hg; [done|]. simpl. apply IH.
  destruct o; simpl; [apply record_wf|apply record_wf|apply drop_guard_wf|apply released_wf]; done.
Qed.

(** A release of [pid]'s locks of one kind removes exactly the edges of
    that kind that lead to [pid]: no session waits on [pid] for such a lock any
    more, and every other edge stands. *)
Theorem released_exact pid kind ws p q :
  waits_on (released pid kind ws) p q ↔
    ∃ w, w ∈ ws ∧ w_pid w = p ∧ q ∈ w_blockers w ∧ (w_kind w = kind → q ≠ pid).
Proof.
  unfold waits_on. setoid_rewrite elem_of_released. split.
  - intros (w & (Hne & v & Hv & ->) & <- & Hq). exists v.
    case_bool_decide; simpl in *; [rewrite list_elem_of_filter in Hq|]; naive_solver.
  - intros (v & Hv & <- & Hq & Hk).
    exists (if bool_decide (w_kind v = kind)
            then mkWait (w_pid v) (w_kind v) (filter (λ b, b ≠ pid) (w_blockers v)) else v).
    assert (Hq' : q ∈ w_blockers (if bool_decide (w_kind v = kind)
            then mkWait (w_pid v) (w_kind v) (filter (λ b, b ≠ pid) (w_blockers v)) else v)).
    { case_bool_decide; simpl; [apply list_elem_of_filter|]; auto. }
    split; [split; [intros E; rewrite E in Hq'; elem_nil|by exists v]|].
    split; [by case_bool_decide|done].
Qed.
