(* ===== verification/LockTable.v ===== *)
(** What a process-wide lock table promises to the sessions that wait on it,
    and the wait protocol that [table_locks::acquire] and [advisory::lock]
    share: while another session's hold conflicts, record those sessions in the
    wait-for graph; otherwise take the hold and leave the graph. *)

From S2P Require Import Prelude WaitGraph.

Local Open Scope Z_scope.

(** [T]: the table's holds; [R]: a request. *)
Class LockTable (T R : Type) := {
  lt_kind : WaitKind;
  (** The other sessions whose holds a request conflicts with. *)
  lt_blockers : T → Z → R → list Z;
  (** The holds once the request is granted. *)
  lt_grant : T → Z → R → T;
  (** No two sessions hold conflicting locks. *)
  lt_exclusive : T → Prop }.

Class LockTableLaws (T R : Type) `{LockTable T R} := {
  lt_blockers_other t pid r : pid ∉ lt_blockers t pid r;
  lt_grant_exclusive t pid r :
    lt_blockers t pid r = [] → lt_exclusive t → lt_exclusive (lt_grant t pid r) }.

(** What one pass of a wait loop does, the table's mutex held. [check]: this
    pass is one that looks for a deadlock. *)
Inductive poll_result (T : Type) :=
  | Granted (t : T) (g : Graph)
  | Verdict (g : Graph)
  | Sleep (g : Graph).
Arguments Granted {T} _ _.
Arguments Verdict {T} _.
Arguments Sleep {T} _.

Section protocol.
Context {T R : Type} `{LockTable T R}.

Definition poll (check : bool) (t : T) (g : Graph) (pid : Z) (r : R) : poll_result T :=
  match lt_blockers t pid r with
  | [] => Granted (lt_grant t pid r) (drop_guard pid g)
  | bs =>
      let g := set pid lt_kind bs g in
      if check && deadlocked g pid then Verdict g else Sleep g
  end.

Lemma poll_Granted check t g pid r t' g' :
  poll check t g pid r = Granted t' g' →
  lt_blockers t pid r = [] ∧ t' = lt_grant t pid r ∧ g' = drop_guard pid g.
Proof.
  unfold poll. destruct (lt_blockers t pid r); [naive_solver|]. by destruct (_ && _).
Qed.

Lemma poll_blocked check t g pid r g' :
  poll check t g pid r = Verdict g' ∨ poll check t g pid r = Sleep g' →
  lt_blockers t pid r ≠ [] ∧ g' = set pid lt_kind (lt_blockers t pid r) g.
Proof.
  unfold poll. destruct (lt_blockers t pid r); [naive_solver|].
  destruct (_ && _); naive_solver.
Qed.

(** A verdict is a cycle through the waiting session. *)
Lemma poll_Verdict check t g pid r g' :
  poll check t g pid r = Verdict g' → tc (waits_on g') pid pid.
Proof.
  intros Hp. unfold poll in Hp. destruct (lt_blockers t pid r) as [|b bs]; [done|].
  destruct check; [|done]. simpl in Hp.
  destruct (deadlocked _ _) eqn:E; [|done]. apply deadlocked_correct in E. naive_solver.
Qed.

Context `{!LockTableLaws T R}.

(** The edges a pass records are the session's real blockers, all of them. *)
Lemma waits_on_poll t pid r g p q :
  waits_on (set pid lt_kind (lt_blockers t pid r) g) p q ↔
    (p ≠ pid ∧ waits_on g p q) ∨ (p = pid ∧ q ∈ lt_blockers t pid r).
Proof.
  unfold set. rewrite waits_on_record. split; intros [?|(-> & ? )]; [by left| |by left|];
    right; split_and?; try done; try tauto.
  intros ->. by eapply lt_blockers_other.
Qed.
End protocol.
