(* ===== verification/TableLocks.v ===== *)
(** Table locks of the PostgreSQL server: [secantus-pg/src/table_locks.rs].

    The holds every transaction keeps until it ends, PostgreSQL's eight modes
    and their conflict table, and the critical sections of [acquire] and
    [release]. *)

From stdpp Require Import strings.
From S2P Require Import Prelude WaitGraph LockTable.

Local Open Scope Z_scope.

Definition ACCESS_SHARE : Z := 1.
Definition ROW_SHARE : Z := 2.
Definition ROW_EXCLUSIVE : Z := 3.
Definition SHARE : Z := 5.
Definition ACCESS_EXCLUSIVE : Z := 8.

Record Hold := mkHold { h_table : string; h_pid : Z; h_mode : Z }.

#[export] Instance Hold_eq_dec : EqDecision Hold.
Proof. solve_decision. Defined.

(** [struct Table]; [released], the condition variable, is the scheduler's. *)
Record Table := mkTable {
  holds : list Hold;
  waiting : list (Z * string * Z);
  count : nat }.

Definition table0 : Table := mkTable [] [] 0.

Definition CONFLICTS : list (list Z) :=
  [ []; [8]; [7; 8]; [5; 6; 7; 8]; [4; 5; 6; 7; 8]; [3; 4; 6; 7; 8];
    [3; 4; 5; 6; 7; 8]; [2; 3; 4; 5; 6; 7; 8]; [1; 2; 3; 4; 5; 6; 7; 8] ].

(** [CONFLICTS.get(a as usize)]: a negative [i32] casts far past the end. *)
Definition modes_conflict (a b : Z) : bool :=
  match (if bool_decide (0 ≤ a < 9) then CONFLICTS !! Z.to_nat a else None) with
  | Some row => bool_decide (b ∈ row)
  | None => false
  end.

Definition hold_conflicts (table : string) (pid mode : Z) (h : Hold) : bool :=
  bool_decide (h_table h = table) && bool_decide (h_pid h ≠ pid) && modes_conflict mode (h_mode h).

Definition conflicts (hs : list Hold) (table : string) (pid mode : Z) : bool :=
  existsb (hold_conflicts table pid mode) hs.

Definition blockers (hs : list Hold) (table : string) (pid mode : Z) : list Z :=
  sort_dedup (map h_pid (filter (λ h, hold_conflicts table pid mode h = true) hs)).

Definition snapshot (t : Table) : list (string * Z * Z) :=
  map (λ h, (h_table h, h_pid h, h_mode h)) (holds t).

Definition waiting_rows (t : Table) : list (string * Z * Z) :=
  map (λ '(p, tb, m), (tb, p, m)) (waiting t).

Definition mode_name (mode : Z) : string :=
  match mode with
  | 1 => "AccessShareLock"
  | 2 => "RowShareLock"
  | 3 => "RowExclusiveLock"
  | 4 => "ShareUpdateExclusiveLock"
  | 5 => "ShareLock"
  | 6 => "ShareRowExclusiveLock"
  | 7 => "ExclusiveLock"
  | _ => "AccessExclusiveLock"
  end.

Definition any (t : Table) : bool := bool_decide (0 < count t)%nat.

(** The last statement of [acquire]: take the hold unless [take] is unset or
    the session has it at this mode already. *)
Definition take_hold (t : Table) (table : string) (pid mode : Z) (take : bool) : Table :=
  if take && negb (existsb (λ h, bool_decide (h = mkHold table pid mode)) (holds t))
  then let hs := holds t ++ [mkHold table pid mode] in mkTable hs (waiting t) (length hs)
  else t.

(** [acquire] up to the wait: [inl] its result, [inr tt] when it must wait. *)
Definition acquire_start (t : Table) (table : string) (pid mode : Z) (take nowait : bool)
    : Table * (bool + unit) :=
  if conflicts (holds t) table pid mode
  then if nowait then (t, inl false) else (t, inr tt)
  else (take_hold t table pid mode take, inl true).

(** The wait closure's first statement. *)
Definition enter_wait (t : Table) (table : string) (pid mode : Z) : Table :=
  mkTable (holds t) (waiting t ++ [(pid, table, mode)]) (count t).

(** The closure [unwait]. *)
Definition unwait (t : Table) (pid : Z) : Table :=
  mkTable (holds t) (filter (λ w, w.1.1 ≠ pid) (waiting t)) (count t).

(** One pass of the wait loop, from taking the [holds] mutex to giving it up.
    [polls = 20] is the one pass that looks for a deadlock; a granted wait
    leaves [waiting] and the graph and takes the hold. *)
Definition wait_pass (t : Table) (g : Graph) (table : string) (pid mode : Z) (take : bool)
    (polls : Z) : poll_result Table * Z :=
  if conflicts (holds t) table pid mode then
    let g := set pid Relation (blockers (holds t) table pid mode) g in
    if bool_decide (polls = 20) && deadlocked g pid
    then (Verdict g, polls)
    else (Sleep g, (polls + 1) mod 2 ^ 32)
  else (Granted (take_hold (unwait t pid) table pid mode take) (drop_guard pid g), polls).

(** [release] under the [holds] mutex: whether it changed anything. *)
Definition release_holds (t : Table) (pid : Z) : Table * bool :=
  let hs := filter (λ h, h_pid h ≠ pid) (holds t) in
  let changed := bool_decide (length hs ≠ length (holds t)) in
  (if changed then mkTable hs (waiting t) (length hs) else mkTable hs (waiting t) (count t), changed).

Definition release (t : Table) (g : Graph) (pid : Z) : Table * Graph :=
  let '(t, changed) := release_holds t pid in
  (t, if changed then released pid Relation g else g).

(** ** Lemmas *)

Lemma hold_conflicts_True table pid mode h :
  hold_conflicts table pid mode h = true ↔
    h_table h = table ∧ h_pid h ≠ pid ∧ modes_conflict mode (h_mode h) = true.
Proof. unfold hold_conflicts. rewrite !andb_true_iff, !bool_decide_eq_true. tauto. Qed.

Lemma elem_of_blockers hs table pid mode q :
  q ∈ blockers hs table pid mode ↔
    ∃ h, h ∈ hs ∧ h_pid h = q ∧ hold_conflicts table pid mode h = true.
Proof.
  unfold blockers. rewrite elem_of_sort_dedup, list_elem_of_fmap.
  setoid_rewrite list_elem_of_filter. naive_solver.
Qed.

Lemma conflicts_blockers hs table pid mode :
  conflicts hs table pid mode = true ↔ blockers hs table pid mode ≠ [].
Proof.
  unfold conflicts. rewrite existsb_True. split.
  - intros (h & Hh & Hc) E. apply (not_elem_of_nil (h_pid h)). rewrite <- E.
    apply elem_of_blockers. eauto.
  - destruct (blockers hs table pid mode) as [|q l] eqn:E; [done|]. intros _.
    assert (Hq : q ∈ blockers hs table pid mode) by (rewrite E; left).
    apply elem_of_blockers in Hq. naive_solver.
Qed.

Lemma conflicts_False hs table pid mode :
  conflicts hs table pid mode = false ↔ blockers hs table pid mode = [].
Proof.
  pose proof (conflicts_blockers hs table pid mode) as Hc.
  destruct (conflicts hs table pid mode), (blockers hs table pid mode); naive_solver.
Qed.

(** Outside the eight modes nothing conflicts. *)
Lemma modes_conflict_range a b : modes_conflict a b = true → 1 ≤ a ≤ 8 ∧ 1 ≤ b ≤ 8.
Proof.
  unfold modes_conflict. case_bool_decide as Ha; [|done].
  assert (Hcase : a = 0 ∨ a = 1 ∨ a = 2 ∨ a = 3 ∨ a = 4 ∨ a = 5 ∨ a = 6 ∨ a = 7 ∨ a = 8) by lia.
  intros E. cut (b ∈ [1; 2; 3; 4; 5; 6; 7; 8] ∧ a ≠ 0).
  { rewrite !elem_of_cons. pose proof (not_elem_of_nil b). naive_solver lia. }
  destruct_or? Hcase; subst a; simpl in E; try apply bool_decide_eq_true in E; set_solver.
Qed.

Definition all_modes : list Z := [1; 2; 3; 4; 5; 6; 7; 8].

Lemma mode_range_elem a : 1 ≤ a ≤ 8 → a ∈ all_modes.
Proof. intros. unfold all_modes. rewrite !elem_of_cons. lia. Qed.

Lemma modes_conflict_sym_all :
  forallb (λ a, forallb (λ b, eqb (modes_conflict a b) (modes_conflict b a)) all_modes)
    all_modes = true.
Proof. vm_compute. reflexivity. Qed.

Lemma modes_conflict_sym a b : modes_conflict a b = modes_conflict b a.
Proof.
  destruct (modes_conflict a b) eqn:E1, (modes_conflict b a) eqn:E2; try done;
    [apply modes_conflict_range in E1 as H|apply modes_conflict_range in E2 as H];
    pose proof modes_conflict_sym_all as Hall; rewrite forallb_forall in Hall;
    specialize (Hall a (proj1 (list_elem_of_In _ _) (mode_range_elem a ltac:(tauto))));
    rewrite forallb_forall in Hall;
    specialize (Hall b (proj1 (list_elem_of_In _ _) (mode_range_elem b ltac:(tauto))));
    apply eqb_prop in Hall; congruence.
Qed.

(** No two sessions hold conflicting modes on one table. *)
Definition exclusive (t : Table) : Prop :=
  ∀ h1 h2, h1 ∈ holds t → h2 ∈ holds t →
    h_table h1 = h_table h2 → h_pid h1 ≠ h_pid h2 → modes_conflict (h_mode h1) (h_mode h2) = false.

Lemma elem_of_take_hold t table pid mode take h :
  h ∈ holds (take_hold t table pid mode take) ↔
    h ∈ holds t ∨ (take = true ∧ h = mkHold table pid mode).
Proof.
  unfold take_hold. destruct take; simpl; [|naive_solver].
  destruct (existsb _ _) eqn:E; simpl.
  - apply existsb_True in E as (x & Hx & Ex). apply bool_decide_eq_true in Ex. naive_solver.
  - rewrite elem_of_app, list_elem_of_singleton. naive_solver.
Qed.

Lemma take_hold_waiting t table pid mode take :
  waiting (take_hold t table pid mode take) = waiting t.
Proof. unfold take_hold. by destruct (_ && _). Qed.

Lemma take_hold_exclusive t table pid mode take :
  conflicts (holds t) table pid mode = false → exclusive t →
  exclusive (take_hold t table pid mode take).
Proof.
  intros Hc Hex. unfold conflicts in Hc. rewrite existsb_False in Hc.
  assert (Hnew : ∀ h, h ∈ holds t → h_table h = table → h_pid h ≠ pid →
                   modes_conflict mode (h_mode h) = false).
  { intros h Hh Ht Hp. specialize (Hc h Hh). apply not_true_iff_false in Hc.
    apply not_true_iff_false. intros ?. apply Hc. by apply hold_conflicts_True. }
  intros h1 h2 [H1|[_ ->]]%elem_of_take_hold [H2|[_ ->]]%elem_of_take_hold Ht Hp; simpl in *.
  - by apply Hex.
  - rewrite modes_conflict_sym. apply Hnew; congruence.
  - apply Hnew; congruence.
  - congruence.
Qed.

(** The waits see the table through this interface; [wait_pass] is the shared
    protocol with [waiting] bookkeeping around it. *)
#[export] Instance table_locks_table : LockTable Table (string * Z * bool) := {
  lt_kind := Relation;
  lt_blockers t pid r := blockers (holds t) r.1.1 pid r.1.2;
  lt_grant t pid r := take_hold (unwait t pid) r.1.1 pid r.1.2 r.2;
  lt_exclusive := exclusive }.

#[export] Instance table_locks_laws : LockTableLaws Table (string * Z * bool).
Proof.
  split.
  - intros t pid [[table mode] take]. simpl.
    rewrite elem_of_blockers. intros (h & _ & Hp & Hc%hold_conflicts_True). naive_solver.
  - intros t pid [[table mode] take]. simpl. intros Hb Hex.
    apply take_hold_exclusive; [by apply conflicts_False|exact Hex].
Qed.

Lemma wait_pass_poll t g table pid mode take polls :
  (wait_pass t g table pid mode take polls).1 =
    poll (bool_decide (polls = 20)) t g pid (table, mode, take).
Proof.
  unfold wait_pass, poll. simpl. destruct (conflicts (holds t) table pid mode) eqn:E.
  - apply conflicts_blockers in E. destruct (blockers _ _ _ _); [done|].
    by destruct (_ && _).
  - apply conflicts_False in E. by rewrite E.
Qed.

Lemma elem_of_release_holds t pid h :
  h ∈ holds (release_holds t pid).1 ↔ h ∈ holds t ∧ h_pid h ≠ pid.
Proof.
  unfold release_holds. case_bool_decide; simpl; rewrite list_elem_of_filter; tauto.
Qed.

Lemma release_holds_exclusive t pid : exclusive t → exclusive (release_holds t pid).1.
Proof.
  intros Hex h1 h2 [H1 _]%elem_of_release_holds [H2 _]%elem_of_release_holds. by apply Hex.
Qed.

(** A release that changes nothing had nothing to let go of. *)
Lemma release_holds_unchanged t pid h :
  (release_holds t pid).2 = false → h ∈ holds t → h_pid h ≠ pid.
Proof.
  unfold release_holds. simpl. rewrite bool_decide_eq_false. intros Hlen Hh.
  apply dec_stable in Hlen. intros Hp.
  assert (Hlt : ∀ l : list Hold, h ∈ l →
            (length (filter (λ h, h_pid h ≠ pid) l) < length l)%nat).
  { induction l as [|x l IH]; intros Hl; [elem_nil|].
    rewrite filter_cons. pose proof (list_filter_length_le (λ h, h_pid h ≠ pid) l).
    apply elem_of_cons in Hl as [->|Hl]; case_decide; simpl; try lia; try done.
    specialize (IH Hl). lia. }
  specialize (Hlt _ Hh). lia.
Qed.

(** [count] is the number of holds. *)
Definition counted (t : Table) : Prop := count t = length (holds t).

Lemma take_hold_counted t table pid mode take :
  counted t → counted (take_hold t table pid mode take).
Proof. unfold counted, take_hold. by destruct (_ && _). Qed.

Lemma release_holds_counted t pid : counted t → counted (release_holds t pid).1.
Proof. unfold counted, release_holds. case_bool_decide as E; simpl; [done|]. lia. Qed.
