(* ===== verification/Advisory.v ===== *)
(** Advisory locks of the PostgreSQL server: [secantus-pg/src/advisory.rs].

    A hold per acquisition (a session that locks twice must unlock twice),
    shared or exclusive, session-scoped or transaction-scoped. *)

From S2P Require Import Prelude WaitGraph LockTable.

Local Open Scope Z_scope.

(** The argument form (0 bigint, 1 two int4s) and the value. *)
Abbreviation Key := (Z * Z)%type.

Record Hold := mkHold { h_key : Key; h_pid : Z; h_shared : bool; h_xact : bool }.

#[export] Instance Hold_eq_dec : EqDecision Hold.
Proof. solve_decision. Defined.

Abbreviation Holds := (list Hold).

(** One row per [(key, pid, shared)], in order of first acquisition. *)
Definition snapshot (hs : Holds) : list (Key * Z * bool) :=
  foldl (λ out h,
    let row := (h_key h, h_pid h, h_shared h) in
    if bool_decide (row ∈ out) then out else out ++ [row]) [] hs.

Definition hold_conflicts (key : Key) (pid : Z) (shared : bool) (h : Hold) : bool :=
  bool_decide (h_key h = key) && bool_decide (h_pid h ≠ pid) && (negb shared || negb (h_shared h)).

Definition blockers (hs : Holds) (key : Key) (pid : Z) (shared : bool) : list Z :=
  sort_dedup (map h_pid (filter (λ h, hold_conflicts key pid shared h = true) hs)).

Definition conflicts (hs : Holds) (key : Key) (pid : Z) (shared : bool) : bool :=
  negb (bool_decide (blockers hs key pid shared = [])).

(** One pass of [wait_and_take]'s loop, the [holds] mutex held. Whether this
    pass looks for a deadlock depends on the clock: [due] is
    [began.elapsed() >= next_check]. A granted wait takes the hold and gives the
    mutex up; its edges leave the graph after that, when the [WaitGuard] drops. *)
Definition wait_pass (due : bool) (hs : Holds) (g : Graph) (key : Key) (pid : Z)
    (shared xact : bool) : poll_result Holds :=
  if conflicts hs key pid shared then
    let g := set pid Advisory (blockers hs key pid shared) g in
    if due then if deadlocked g pid then Verdict g else Sleep g else Sleep g
  else Granted (hs ++ [mkHold key pid shared xact]) g.

Definition try_lock (hs : Holds) (key : Key) (pid : Z) (shared xact : bool) : Holds * bool :=
  if conflicts hs key pid shared then (hs, false)
  else (hs ++ [mkHold key pid shared xact], true).

(** [holds.iter().position(..)] then [holds.remove(i)]. *)
Fixpoint remove_first (P : Hold → bool) (hs : Holds) : option Holds :=
  match hs with
  | [] => None
  | h :: hs => if P h then Some hs else cons h <$> remove_first P hs
  end.

Definition session_hold (key : Key) (pid : Z) (shared : bool) (h : Hold) : bool :=
  bool_decide (h_key h = key) && bool_decide (h_pid h = pid) &&
  bool_decide (h_shared h = shared) && negb (h_xact h).

Definition unlock (hs : Holds) (key : Key) (pid : Z) (shared : bool) : Holds * bool :=
  match remove_first (session_hold key pid shared) hs with
  | Some hs' => (hs', true)
  | None => (hs, false)
  end.

Definition release (hs : Holds) (pid : Z) (which : Hold → bool) : Holds :=
  filter (λ h, negb (bool_decide (h_pid h = pid) && which h) = true) hs.

Definition unlock_all (hs : Holds) (pid : Z) : Holds := release hs pid (λ h, negb (h_xact h)).
Definition release_xact (hs : Holds) (pid : Z) : Holds := release hs pid h_xact.
Definition release_session (hs : Holds) (pid : Z) : Holds := release hs pid (λ _, true).

(** ** Lemmas *)

Lemma adv_hold_conflicts_True key pid shared h :
  hold_conflicts key pid shared h = true ↔
    h_key h = key ∧ h_pid h ≠ pid ∧ (shared = false ∨ h_shared h = false).
Proof.
  unfold hold_conflicts.
  rewrite !andb_true_iff, orb_true_iff, !negb_true_iff, !bool_decide_eq_true. tauto.
Qed.

Lemma adv_elem_of_blockers hs key pid shared q :
  q ∈ blockers hs key pid shared ↔
    ∃ h, h ∈ hs ∧ h_pid h = q ∧ hold_conflicts key pid shared h = true.
Proof.
  unfold blockers. rewrite elem_of_sort_dedup, list_elem_of_fmap.
  setoid_rewrite list_elem_of_filter. naive_solver.
Qed.

Lemma adv_conflicts_False hs key pid shared :
  conflicts hs key pid shared = false ↔ blockers hs key pid shared = [].
Proof. unfold conflicts. by rewrite negb_false_iff, bool_decide_eq_true. Qed.

(** An exclusive hold shares its key with no other session's hold. *)
Definition exclusive (hs : Holds) : Prop :=
  ∀ h1 h2, h1 ∈ hs → h2 ∈ hs → h_key h1 = h_key h2 → h_pid h1 ≠ h_pid h2 →
    h_shared h1 = true ∧ h_shared h2 = true.

Lemma grant_exclusive hs key pid shared xact :
  blockers hs key pid shared = [] → exclusive hs →
  exclusive (hs ++ [mkHold key pid shared xact]).
Proof.
  intros Hb Hex.
  assert (Hnew : ∀ h, h ∈ hs → h_key h = key → h_pid h ≠ pid → shared = true ∧ h_shared h = true).
  { intros h Hh Hk Hp. destruct shared eqn:Es, (h_shared h) eqn:Eh; try done; exfalso;
      apply (not_elem_of_nil (h_pid h)); rewrite <- Hb; apply adv_elem_of_blockers;
      exists h; split_and!; try done; apply adv_hold_conflicts_True; rewrite ?Eh; auto. }
  intros h1 h2 H1 H2 Hk Hp.
  rewrite elem_of_app, list_elem_of_singleton in H1, H2.
  destruct H1 as [H1| ->], H2 as [H2| ->]; simpl in *.
  - by apply Hex.
  - destruct (Hnew h1); auto.
  - destruct (Hnew h2); auto.
  - congruence.
Qed.

#[export] Instance advisory_table : LockTable Holds (Key * bool * bool) := {
  lt_kind := Advisory;
  lt_blockers hs pid r := blockers hs r.1.1 pid r.1.2;
  lt_grant hs pid r := hs ++ [mkHold r.1.1 pid r.1.2 r.2];
  lt_exclusive := exclusive }.

#[export] Instance advisory_laws : LockTableLaws Holds (Key * bool * bool).
Proof.
  split.
  - intros hs pid [[key shared] xact]. simpl.
    rewrite adv_elem_of_blockers. intros (h & _ & Hp & Hc%adv_hold_conflicts_True). naive_solver.
  - intros hs pid [[key shared] xact]. simpl. apply grant_exclusive.
Qed.

Lemma adv_wait_pass_poll due hs g key pid shared xact :
  wait_pass due hs g key pid shared xact =
    match poll due hs g pid (key, shared, xact) with Granted hs' _ => Granted hs' g | r => r end.
Proof.
  unfold wait_pass, poll. simpl. destruct (conflicts hs key pid shared) eqn:E.
  - unfold conflicts in E. apply negb_true_iff, bool_decide_eq_false in E.
    destruct (blockers _ _ _ _); [done|]. destruct due; [by destruct (deadlocked _ _)|done].
  - apply adv_conflicts_False in E. by rewrite E.
Qed.

Lemma remove_first_spec P hs :
  match remove_first P hs with
  | Some hs' => ∃ l1 h l2, hs = l1 ++ h :: l2 ∧ hs' = l1 ++ l2 ∧ P h = true ∧
                  ∀ x, x ∈ l1 → P x = false
  | None => ∀ x, x ∈ hs → P x = false
  end.
Proof.
  induction hs as [|h hs IH]; simpl; [intros x Hx; elem_nil|].
  destruct (P h) eqn:E.
  - exists [], h, hs. split_and!; [done..|]. intros x Hx. elem_nil.
  - destruct (remove_first P hs) as [hs'|]; simpl.
    + destruct IH as (l1 & x & l2 & -> & -> & Hx & Hl1).
      exists (h :: l1), x, l2. split_and!; [done..|]. set_solver.
    + set_solver.
Qed.

(** How many times a session holds a key at a strength and scope. *)
Definition hold_count (hs : Holds) (h : Hold) : nat := length (filter (λ x, x = h) hs).

Lemma hold_count_app l1 l2 h : hold_count (l1 ++ l2) h = (hold_count l1 h + hold_count l2 h)%nat.
Proof. unfold hold_count. by rewrite filter_app, length_app. Qed.

Lemma sublist_exclusive hs hs' : (∀ h, h ∈ hs' → h ∈ hs) → exclusive hs → exclusive hs'.
Proof. intros Hsub Hex h1 h2 H1 H2. apply Hex; auto. Qed.

Lemma unlock_subset hs key pid shared h : h ∈ (unlock hs key pid shared).1 → h ∈ hs.
Proof.
  unfold unlock. pose proof (remove_first_spec (session_hold key pid shared) hs) as Hr.
  destruct (remove_first _ _); simpl; [|done].
  destruct Hr as (l1 & x & l2 & -> & -> & _). rewrite !elem_of_app. set_solver.
Qed.

Lemma release_subset hs pid which h : h ∈ release hs pid which → h ∈ hs.
Proof. unfold release. rewrite list_elem_of_filter. tauto. Qed.

(** ** Properties *)

(** Reentrancy of session-level advisory locks. [unlock] succeeds exactly
    when the session holds the key at that strength outside a transaction
    scope; it then removes exactly one such hold and changes no other count, so
    a session that locked [n] times must unlock [n] times; otherwise the table
    is untouched. *)
Theorem unlock_one_hold hs key pid shared :
  let h0 := mkHold key pid shared false in
  let '(hs', ok) := unlock hs key pid shared in
  (ok = true ↔ h0 ∈ hs) ∧
  (ok = true → hold_count hs h0 = S (hold_count hs' h0)) ∧
  (ok = false → hs' = hs) ∧
  (∀ h, h ≠ h0 → hold_count hs' h = hold_count hs h).
Proof.
  simpl. unfold unlock.
  pose proof (remove_first_spec (session_hold key pid shared) hs) as Hr.
  assert (Hsh : ∀ h, session_hold key pid shared h = true ↔ h = mkHold key pid shared false).
  { intros [k p s x]. unfold session_hold. simpl.
    rewrite !andb_true_iff, !bool_decide_eq_true, negb_true_iff. naive_solver. }
  destruct (remove_first _ _) as [hs'|].
  - destruct Hr as (l1 & h & l2 & -> & -> & Hh%Hsh & Hl1). subst h. split_and!.
    + split; [intros _; set_solver|done].
    + intros _. rewrite !hold_count_app. unfold hold_count at 2.
      rewrite filter_cons_True by done. simpl. fold (hold_count l2 (mkHold key pid shared false)).
      lia.
    + done.
    + intros h Hne. rewrite !hold_count_app. unfold hold_count at 4.
      rewrite filter_cons_False by congruence. done.
  - split_and!; try done. split; [done|]. intros Hin. specialize (Hr _ Hin).
    rewrite (proj2 (Hsh _) eq_refl) in Hr. done.
Qed.
