(* ===== verification/LockSystem.v ===== *)
(** Sessions sharing the lock tables and the wait-for graph: the critical
    sections of [table_locks], [advisory], [row_waits] and [lock_manager] as
    the actions of a transition system, in any interleaving.

    Each action is one stretch of a session's code under the table's mutex (or
    the graph's). Where the source lets the mutex go between two effects - a
    blocked [acquire] before it registers its wait, a wait that ends with an
    error (an advisory wait also when it is granted) before it is unregistered, a
    [release] between the holds and the graph - the two effects are two actions and other sessions may act in
    between. *)

From stdpp Require Import strings.
From S2P Require Import Prelude WaitGraph LockTable TableLocks Advisory.

Local Open Scope Z_scope.

(** Where a session stands in the code. *)
Inductive phase :=
  | Idle
  | TWait (table : string) (mode : Z) (take : bool) (polls : Z)
  | TUnwind (table : string) (mode : Z)
  | TReleasing
  | AWait (key : Advisory.Key) (shared xact : bool)
  | AUnwind
  | RWait.

Record sys := mkSys {
  tl : TableLocks.Table;
  adv : Advisory.Holds;
  gr : Graph;
  ph : gmap Z phase }.

Definition sys0 : sys := mkSys TableLocks.table0 [] [] ∅.

Definition phase_of (s : sys) (p : Z) : phase := default Idle (ph s !! p).

Inductive action :=
  (* [table_locks::acquire] *)
  | Acquire (table : string) (mode : Z) (take nowait : bool)
  | TPass
  | TCancel
  | TEnd
  (* [table_locks::release] *)
  | Release
  | Released
  (* [advisory] *)
  | ALock (key : Advisory.Key) (shared xact : bool)
  | APass (due : bool)
  | ACancel
  | AEnd
  | ATryLock (key : Advisory.Key) (shared xact : bool)
  | AUnlock (key : Advisory.Key) (shared : bool)
  | AUnlockAll
  | AReleaseXact
  | AReleaseSession
  (* [row_waits]: the holders storage reports, whatever they are *)
  | RSet (holders : list Z)
  | REnd
  | RForget.

(** One action of session [p]; [None] when the session is not at that point. *)
Definition run (p : Z) (a : action) (s : sys) : option sys :=
  match a, phase_of s p with
  | Acquire table mode take nowait, Idle =>
      match TableLocks.acquire_start (tl s) table p mode take nowait with
      | (t, inl _) => Some (mkSys t (adv s) (gr s) (ph s))
      | (t, inr _) =>
          Some (mkSys (TableLocks.enter_wait t table p mode) (adv s) (gr s)
                  (<[p := TWait table mode take 0]> (ph s)))
      end
  | TPass, TWait table mode take polls =>
      match TableLocks.wait_pass (tl s) (gr s) table p mode take polls with
      | (Granted t g, _) => Some (mkSys t (adv s) g (<[p := Idle]> (ph s)))
      | (Verdict g, _) => Some (mkSys (tl s) (adv s) g (<[p := TUnwind table mode]> (ph s)))
      | (Sleep g, polls) =>
          Some (mkSys (tl s) (adv s) g (<[p := TWait table mode take polls]> (ph s)))
      end
  | TCancel, TWait table mode take polls =>
      Some (mkSys (tl s) (adv s) (gr s) (<[p := TUnwind table mode]> (ph s)))
  | TEnd, TUnwind table mode =>
      Some (mkSys (TableLocks.unwait (tl s) p) (adv s) (drop_guard p (gr s)) (<[p := Idle]> (ph s)))
  | Release, Idle =>
      let '(t, changed) := TableLocks.release_holds (tl s) p in
      Some (mkSys t (adv s) (gr s) (if changed then <[p := TReleasing]> (ph s) else ph s))
  | Released, TReleasing =>
      Some (mkSys (tl s) (adv s) (released p Relation (gr s)) (<[p := Idle]> (ph s)))
  | ALock key shared xact, Idle =>
      Some (mkSys (tl s) (adv s) (gr s) (<[p := AWait key shared xact]> (ph s)))
  | APass due, AWait key shared xact =>
      match Advisory.wait_pass due (adv s) (gr s) key p shared xact with
      | Granted h g => Some (mkSys (tl s) h g (<[p := AUnwind]> (ph s)))
      | Verdict g => Some (mkSys (tl s) (adv s) g (<[p := AUnwind]> (ph s)))
      | Sleep g => Some (mkSys (tl s) (adv s) g (ph s))
      end
  | ACancel, AWait _ _ _ => Some (mkSys (tl s) (adv s) (gr s) (<[p := AUnwind]> (ph s)))
  | AEnd, AUnwind => Some (mkSys (tl s) (adv s) (drop_guard p (gr s)) (<[p := Idle]> (ph s)))
  | ATryLock key shared xact, Idle =>
      Some (mkSys (tl s) (Advisory.try_lock (adv s) key p shared xact).1 (gr s) (ph s))
  | AUnlock key shared, Idle =>
      Some (mkSys (tl s) (Advisory.unlock (adv s) key p shared).1 (gr s) (ph s))
  | AUnlockAll, Idle => Some (mkSys (tl s) (Advisory.unlock_all (adv s) p) (gr s) (ph s))
  | AReleaseXact, Idle => Some (mkSys (tl s) (Advisory.release_xact (adv s) p) (gr s) (ph s))
  | AReleaseSession, Idle => Some (mkSys (tl s) (Advisory.release_session (adv s) p) (gr s) (ph s))
  | RSet holders, (Idle | RWait) =>
      Some (mkSys (tl s) (adv s) (set_with p TransactionId (λ _, holders) (gr s)).1
              (<[p := RWait]> (ph s)))
  | REnd, RWait => Some (mkSys (tl s) (adv s) (drop_guard p (gr s)) (<[p := Idle]> (ph s)))
  | RForget, Idle => Some (mkSys (tl s) (adv s) (released p TransactionId (gr s)) (ph s))
  | _, _ => None
  end.

Definition run_all (tr : list (Z * action)) (s : sys) : option sys :=
  foldl (λ o '(p, a), o ≫= run p a) (Some s) tr.

Inductive reachable : sys → Prop :=
  | reach_init : reachable sys0
  | reach_step s p a s' : reachable s → run p a s = Some s' → reachable s'.

Lemma run_all_reachable tr s : run_all tr sys0 = Some s → reachable s.
Proof.
  unfold run_all. enough (Hgo : ∀ o, (∀ s0, o = Some s0 → reachable s0) →
    foldl (λ o '(p, a), o ≫= run p a) o tr = Some s → reachable s).
  { apply Hgo. intros s0 [= <-]. constructor. }
  induction tr as [|[p a] tr IH]; intros o Ho; simpl; [auto|]. apply IH.
  destruct o as [s1|]; simpl; [|done]. intros s0 Hrun. eapply reach_step; eauto.
Qed.

(** ** The invariant *)

(** Session [p] is in (or leaving) a wait for [table] at [mode]. *)
Definition waits_for (s : sys) (p : Z) (table : string) (mode : Z) : Prop :=
  (∃ take polls, phase_of s p = TWait table mode take polls) ∨ phase_of s p = TUnwind table mode.

(** [b] holds a mode on [table] that [mode] conflicts with. *)
Definition holds_against (s : sys) (b : Z) (table : string) (mode : Z) : Prop :=
  ∃ m, TableLocks.mkHold table b m ∈ TableLocks.holds (tl s) ∧
       TableLocks.modes_conflict mode m = true.

Definition wait_ok (s : sys) (w : Wait) : Prop :=
  match w_kind w with
  | Relation =>
      ∃ table mode, waits_for s (w_pid w) table mode ∧
        ∀ b, b ∈ w_blockers w → holds_against s b table mode ∨ phase_of s b = TReleasing
  | Advisory => (∃ k sh x, phase_of s (w_pid w) = AWait k sh x) ∨ phase_of s (w_pid w) = AUnwind
  | TransactionId => phase_of s (w_pid w) = RWait
  end.

Record inv (s : sys) : Prop := {
  inv_tables : TableLocks.exclusive (tl s);
  inv_count : TableLocks.counted (tl s);
  inv_advisory : Advisory.exclusive (adv s);
  inv_wf : wf (gr s);
  inv_waits : ∀ w, w ∈ gr s → wait_ok s w }.

Lemma phase_of_insert t a g m p q x :
  phase_of (mkSys t a g (<[p := x]> m)) q = if decide (p = q) then x else default Idle (m !! q).
Proof. unfold phase_of. simpl. rewrite lookup_insert. by case_decide. Qed.

(** What an action of [p] may do without touching another session's wait. *)
Record frame (p : Z) (s s' : sys) : Prop := {
  fr_phase : ∀ q, q ≠ p → phase_of s' q = phase_of s q;
  fr_holds : ∀ b t m, holds_against s b t m →
               holds_against s' b t m ∨ (b = p ∧ phase_of s' p = TReleasing);
  fr_releasing : phase_of s p ≠ TReleasing }.

Lemma wait_ok_frame p s s' w :
  frame p s s' → w_pid w ≠ p → wait_ok s w → wait_ok s' w.
Proof.
  intros [Hph Hh Hr] Hne. unfold wait_ok. destruct (w_kind w).
  - intros (t & m & Hw & Hb). exists t, m. split.
    + unfold waits_for in *. by rewrite Hph.
    + intros b Hbw. destruct (decide (b = p)) as [->|Hbp].
      * destruct (Hb p Hbw) as [Ha|Ha]; [|done]. destruct (Hh _ _ _ Ha) as [?|[_ ?]]; auto.
      * destruct (Hb b Hbw) as [Ha|Ha].
        -- destruct (Hh _ _ _ Ha) as [?|[? _]]; naive_solver.
        -- right. by rewrite Hph.
  - by rewrite Hph.
  - by rewrite Hph.
Qed.

(** A session that waits for nothing has no entry in the graph. *)
Lemma not_waiting s p w :
  inv s → phase_of s p = Idle ∨ phase_of s p = TReleasing → w ∈ gr s → w_pid w ≠ p.
Proof.
  intros Hinv Hp Hw <-. pose proof (inv_waits s Hinv w Hw) as Hok.
  unfold wait_ok, waits_for in Hok. destruct (w_kind w).
  - destruct Hok as (? & ? & [(? & ? & ?)|?] & _); destruct Hp; congruence.
  - destruct Hp; congruence.
  - destruct Hok as [(? & ? & ? & ?)|?]; destruct Hp; congruence.
Qed.

Lemma holds_against_take s b t m table p mode take a g f tl' :
  TableLocks.holds tl' = TableLocks.holds (tl s) →
  holds_against s b t m →
  holds_against (mkSys (TableLocks.take_hold tl' table p mode take) a g f) b t m.
Proof.
  intros E (m' & Hin & Hc). exists m'. split; [|done]. simpl.
  apply TableLocks.elem_of_take_hold. left. by rewrite E.
Qed.

(** Actions of a session outside any wait: the graph keeps its entries. *)
Lemma inv_idle_step p s s' :
  inv s → phase_of s p = Idle → frame p s s' →
  TableLocks.exclusive (tl s') → TableLocks.counted (tl s') → Advisory.exclusive (adv s') →
  gr s' = gr s → inv s'.
Proof.
  intros Hinv Hp Hfr H1 H2 H3 Hg. split; try done; rewrite Hg; [apply Hinv|].
  intros w Hw. eapply wait_ok_frame; [done| |by apply Hinv]. eapply not_waiting; eauto.
Qed.

(** Actions that end a wait: the session's entry goes. *)
Lemma inv_drop_step p s s' :
  inv s → frame p s s' →
  TableLocks.exclusive (tl s') → TableLocks.counted (tl s') → Advisory.exclusive (adv s') →
  gr s' = drop_guard p (gr s) → inv s'.
Proof.
  intros Hinv Hfr H1 H2 H3 Hg. split; try done; rewrite Hg.
  - apply drop_guard_wf, Hinv.
  - unfold drop_guard. intros w [Hne Hw]%list_elem_of_filter.
    eapply wait_ok_frame; [done..|]. by apply Hinv.
Qed.

(** Actions that record a wait: the session's entry is replaced. *)
Lemma inv_record_step p kind bs s s' :
  inv s → frame p s s' →
  TableLocks.exclusive (tl s') → TableLocks.counted (tl s') → Advisory.exclusive (adv s') →
  gr s' = record p kind (gr s) bs →
  (∀ l, (∀ b, b ∈ l → b ∈ bs) → wait_ok s' (mkWait p kind l)) →
  inv s'.
Proof.
  intros Hinv Hfr H1 H2 H3 Hg Hnew. split; try done; rewrite Hg.
  - apply record_wf, Hinv.
  - intros w [[Hw Hne]|[-> _]]%elem_of_record.
    + eapply wait_ok_frame; [done..|]. by apply Hinv.
    + apply Hnew. intros b. rewrite elem_of_sort_dedup, list_elem_of_filter. tauto.
Qed.

(** Leaving a wait loop with an error: the entry stays until the guard drops. *)
Lemma inv_cancel_step p s s' :
  inv s → frame p s s' → tl s' = tl s → adv s' = adv s → gr s' = gr s →
  (∀ w, w ∈ gr s → w_pid w = p → wait_ok s w → wait_ok s' w) → inv s'.
Proof.
  intros Hinv Hfr H1 H2 H3 Hw. split; rewrite ?H1, ?H2, ?H3; try apply Hinv.
  intros w Hin. destruct (decide (w_pid w = p)) as [E|Hne].
  - apply Hw; [done..|]. by apply Hinv.
  - eapply wait_ok_frame; [done..|]. by apply Hinv.
Qed.

(** The frame of an action that leaves the table holds alone. *)
Lemma frame_holds p s a' g' t' x :
  phase_of s p ≠ TReleasing → TableLocks.holds t' = TableLocks.holds (tl s) →
  frame p s (mkSys t' a' g' (<[p := x]> (ph s))).
Proof.
  intros Hr Ht. split; [|intros b t m Hh; left|done].
  - intros q Hq. rewrite phase_of_insert. by case_decide.
  - destruct Hh as (m' & Hin & Hc). exists m'. simpl. by rewrite Ht.
Qed.

Lemma frame_same p s a' g' t' :
  phase_of s p ≠ TReleasing → TableLocks.holds t' = TableLocks.holds (tl s) →
  frame p s (mkSys t' a' g' (ph s)).
Proof.
  intros Hr Ht. split; [done| |done]. intros b t m (m' & Hin & Hc). left. exists m'.
  simpl. by rewrite Ht.
Qed.

Lemma frame_take p s a' g' f t' table mode take :
  phase_of s p ≠ TReleasing → TableLocks.holds t' = TableLocks.holds (tl s) →
  (f = ph s ∨ ∃ x, f = <[p := x]> (ph s)) →
  frame p s (mkSys (TableLocks.take_hold t' table p mode take) a' g' f).
Proof.
  intros Hr Ht Hf. split; [|intros b t m Hh; left; by apply (holds_against_take s)|done].
  intros q Hq. destruct Hf as [->|[x ->]]; [done|]. rewrite phase_of_insert. by case_decide.
Qed.

Lemma inv_tpass p s table mode take polls s' :
  inv s → phase_of s p = TWait table mode take polls →
  run p TPass s = Some s' → inv s'.
Proof.
  intros Hinv Hp Hrun. unfold run in Hrun. rewrite Hp in Hrun.
  pose proof (TableLocks.wait_pass_poll (tl s) (gr s) table p mode take polls) as Hpoll.
  destruct (TableLocks.wait_pass _ _ _ _ _ _ _) as [res polls'] eqn:Ew. simpl in Hpoll.
  assert (Hr : phase_of s p ≠ TReleasing) by congruence.
  assert (Hrec : ∀ s1, (∃ x, s1 = mkSys (tl s) (adv s)
              (set p Relation (TableLocks.blockers (TableLocks.holds (tl s)) table p mode) (gr s))
              (<[p := x]> (ph s)) ∧
              ((∃ tk pl, x = TWait table mode tk pl) ∨ x = TUnwind table mode)) → inv s1).
  { intros s1 (x & -> & Hx).
    eapply (inv_record_step p Relation); [done|by apply frame_holds|apply Hinv..|done|].
    intros l Hl. exists table, mode. split.
    - unfold waits_for. simpl. rewrite !phase_of_insert, decide_True by done. naive_solver.
    - simpl. intros b [h (Hin & <- & Hc)]%Hl%TableLocks.elem_of_blockers.
      apply TableLocks.hold_conflicts_True in Hc as (<- & _ & Hc).
      left. exists (TableLocks.h_mode h). by destruct h. }
  destruct res as [t g|g|g]; simplify_eq; symmetry in Hpoll.
  - apply poll_Granted in Hpoll as (Hb & -> & ->). simpl in *.
    apply TableLocks.conflicts_False in Hb.
    eapply (inv_drop_step p); [done| | | |by apply Hinv|done]; simpl.
    + apply frame_take; eauto.
    + apply TableLocks.take_hold_exclusive; [done|apply Hinv].
    + apply TableLocks.take_hold_counted. apply Hinv.
  - destruct (poll_blocked _ _ _ _ _ g (or_introl Hpoll)) as [_ ->]. apply Hrec. eauto.
  - destruct (poll_blocked _ _ _ _ _ g (or_intror Hpoll)) as [_ ->]. apply Hrec. eauto 10.
Qed.

(** The entry of an advisory wait that is over stays until its guard drops. *)
Lemma wait_ok_unwind p s hs w key shared xact :
  phase_of s p = AWait key shared xact → w_pid w = p → wait_ok s w →
  wait_ok (mkSys (tl s) hs (gr s) (<[p := AUnwind]> (ph s))) w.
Proof.
  intros Hp Hpw. unfold wait_ok, waits_for. rewrite Hpw, Hp. destruct (w_kind w); try naive_solver.
  intros _. right. by rewrite phase_of_insert, decide_True.
Qed.

Lemma inv_apass p s key shared xact due s' :
  inv s → phase_of s p = AWait key shared xact →
  run p (APass due) s = Some s' → inv s'.
Proof.
  intros Hinv Hp Hrun. unfold run in Hrun. rewrite Hp, Advisory.adv_wait_pass_poll in Hrun.
  assert (Hr : phase_of s p ≠ TReleasing) by congruence.
  destruct (poll _ _ _ _ _) as [h g|g|g] eqn:Hpoll; simplify_eq.
  - apply poll_Granted in Hpoll as (Hb & -> & _). simpl in *. split; simpl; try apply Hinv.
    + by apply Advisory.grant_exclusive; [|apply Hinv].
    + intros w Hw. pose proof (inv_waits s Hinv w Hw) as Hok. destruct (decide (w_pid w = p)) as [E|Hne].
      * by eapply wait_ok_unwind.
      * eapply wait_ok_frame; [by apply frame_holds|done..].
  - destruct (poll_blocked _ _ _ _ _ g (or_introl Hpoll)) as [_ ->].
    eapply (inv_record_step p Advisory); [done|by apply frame_holds|apply Hinv..|done|].
    intros l _. right. simpl. by rewrite phase_of_insert, decide_True.
  - destruct (poll_blocked _ _ _ _ _ g (or_intror Hpoll)) as [_ ->].
    eapply (inv_record_step p Advisory); [done|by apply frame_same|apply Hinv..|done|].
    intros l _. left. simpl. eauto.
Qed.

(** [release] under the table mutex: edges to the releaser may outlive its
    holds only while it is releasing. *)
Lemma inv_release p s s' :
  inv s → phase_of s p = Idle → run p Release s = Some s' → inv s'.
Proof.
  intros Hinv Hp Hrun. unfold run in Hrun. rewrite Hp in Hrun.
  destruct (TableLocks.release_holds (tl s) p) as [t changed] eqn:Er. simplify_eq.
  pose proof (TableLocks.release_holds_unchanged (tl s) p) as Hun.
  pose proof (TableLocks.elem_of_release_holds (tl s) p) as Hel.
  pose proof (TableLocks.release_holds_exclusive (tl s) p (inv_tables s Hinv)) as Hex.
  pose proof (TableLocks.release_holds_counted (tl s) p (inv_count s Hinv)) as Hct.
  rewrite Er in Hun, Hel, Hex, Hct. simpl in *.
  eapply (inv_idle_step p); [done..| |done|done|apply Hinv|done]. split; [| |congruence].
  - intros q Hq. destruct changed; [|done]. rewrite phase_of_insert. by case_decide.
  - intros b t' m (m' & Hin & Hc). destruct (decide (b = p)) as [->|Hne].
    + right. split; [done|]. destruct changed.
      * by rewrite phase_of_insert, decide_True.
      * by destruct (Hun _ eq_refl Hin).
    + left. exists m'. split; [|done]. simpl. by apply Hel.
Qed.

(** [lock_manager::released]: the releaser's incoming edges go. *)
Lemma inv_released p s s' :
  inv s → phase_of s p = TReleasing → run p Released s = Some s' → inv s'.
Proof.
  intros Hinv Hp Hrun. unfold run in Hrun. rewrite Hp in Hrun. simplify_eq.
  split; try apply Hinv; simpl; [apply released_wf, Hinv|].
  intros w (_ & v & Hv & ->)%elem_of_released.
  pose proof (not_waiting s p v Hinv (or_intror Hp) Hv) as Hne.
  pose proof (inv_waits s Hinv v Hv) as Hok.
  assert (Hph : ∀ q, q ≠ p → phase_of (mkSys (tl s) (adv s) (released p Relation (gr s))
                  (<[p := Idle]> (ph s))) q = phase_of s q).
  { intros q Hq. rewrite phase_of_insert. by case_decide. }
  unfold wait_ok in *. destruct (w_kind v) eqn:Ek; simpl in *; rewrite ?Ek; simpl.
  - destruct Hok as (t & m & Hw & Hb). exists t, m. split.
    + unfold waits_for in *. by rewrite Hph.
    + intros b [Hbp Hbv]%list_elem_of_filter. rewrite Hph by done. by apply Hb.
  - by rewrite Hph.
  - by rewrite Hph.
Qed.

Lemma inv_forget p s s' :
  inv s → phase_of s p = Idle → run p RForget s = Some s' → inv s'.
Proof.
  intros Hinv Hp Hrun. unfold run in Hrun. rewrite Hp in Hrun. simplify_eq.
  split; try apply Hinv; simpl; [apply released_wf, Hinv|].
  intros w (_ & v & Hv & ->)%elem_of_released. pose proof (inv_waits s Hinv v Hv) as Hok.
  unfold wait_ok in *. case_bool_decide as Ek; simpl; [|done]. by rewrite Ek in *.
Qed.

Lemma inv_acquire p table mode take nowait s s' :
  inv s → phase_of s p = Idle → run p (Acquire table mode take nowait) s = Some s' → inv s'.
Proof.
  intros Hinv Hp Hrun. unfold run in Hrun. rewrite Hp in Hrun.
  assert (Hr : phase_of s p ≠ TReleasing) by congruence.
  unfold TableLocks.acquire_start in Hrun.
  destruct (TableLocks.conflicts _ _ _ _) eqn:Ec; [destruct nowait|]; simplify_eq.
  - eapply (inv_idle_step p); [done|done|by apply frame_same|apply Hinv..|done].
  - eapply (inv_idle_step p); [done|done|by apply frame_holds|apply Hinv..|done].
  - eapply (inv_idle_step p); [done..|apply frame_take; auto| | |apply Hinv|done]; simpl.
    + by apply TableLocks.take_hold_exclusive; [|apply Hinv].
    + by apply TableLocks.take_hold_counted, Hinv.
Qed.

(** The advisory actions outside a wait only ever drop holds, or take one that
    conflicts with none. *)
Lemma inv_advisory_idle p s hs' :
  inv s → phase_of s p = Idle → Advisory.exclusive hs' → inv (mkSys (tl s) hs' (gr s) (ph s)).
Proof.
  intros Hinv Hp Hex.
  eapply (inv_idle_step p); [done..| |apply Hinv|apply Hinv|done|done].
  apply frame_same; [congruence|done].
Qed.

Lemma try_lock_exclusive hs key p shared xact :
  Advisory.exclusive hs → Advisory.exclusive (Advisory.try_lock hs key p shared xact).1.
Proof.
  intros Hex. unfold Advisory.try_lock. destruct (Advisory.conflicts _ _ _ _) eqn:E; [done|].
  apply Advisory.adv_conflicts_False in E. by apply Advisory.grant_exclusive.
Qed.

Lemma inv_run p a s s' : inv s → run p a s = Some s' → inv s'.
Proof.
  intros Hinv Hrun. pose proof Hrun as Hrun0. unfold run in Hrun.
  destruct a, (phase_of s p) eqn:Hp; try done.
  - by eapply inv_acquire.
  - by eapply inv_tpass.
  - simplify_eq. eapply (inv_cancel_step p);
      [done|apply frame_holds; [congruence|done]|done..|].
    intros w Hw Hpw. unfold wait_ok. destruct (w_kind w); rewrite ?Hpw, ?Hp; try naive_solver.
    intros (t & m & Hwf & Hb). exists t, m. split.
    + unfold waits_for in *. rewrite Hp in Hwf. rewrite phase_of_insert, decide_True by done.
      naive_solver.
    + intros b Hbw. destruct (Hb b Hbw) as [?|Hr]; [by left|]. right.
      rewrite phase_of_insert. case_decide; [congruence|done].
  - simplify_eq. eapply (inv_drop_step p);
      [done|apply frame_holds; [congruence|done]|apply Hinv..|done].
  - by eapply inv_release.
  - by eapply inv_released.
  - simplify_eq. eapply (inv_idle_step p);
      [done|done|apply frame_holds; [congruence|done]|apply Hinv..|done].
  - by eapply inv_apass.
  - simplify_eq. eapply (inv_cancel_step p);
      [done|apply frame_holds; [congruence|done]|done..|].
    intros w Hw Hpw. by eapply wait_ok_unwind.
  - simplify_eq. eapply (inv_drop_step p);
      [done|apply frame_holds; [congruence|done]|apply Hinv..|done].
  - simplify_eq. eapply inv_advisory_idle, try_lock_exclusive, Hinv; done.
  - simplify_eq. eapply inv_advisory_idle; [done..|].
    eapply Advisory.sublist_exclusive, Hinv. by apply Advisory.unlock_subset.
  - simplify_eq. eapply inv_advisory_idle; [done..|].
    eapply Advisory.sublist_exclusive, Hinv. apply Advisory.release_subset.
  - simplify_eq. eapply inv_advisory_idle; [done..|].
    eapply Advisory.sublist_exclusive, Hinv. apply Advisory.release_subset.
  - simplify_eq. eapply inv_advisory_idle; [done..|].
    eapply Advisory.sublist_exclusive, Hinv. apply Advisory.release_subset.
  - simplify_eq. eapply (inv_record_step p TransactionId);
      [done|apply frame_holds; [congruence|done]|apply Hinv..|done|].
    intros l _. unfold wait_ok. simpl. by rewrite phase_of_insert, decide_True.
  - simplify_eq. eapply (inv_record_step p TransactionId);
      [done|apply frame_holds; [congruence|done]|apply Hinv..|done|].
    intros l _. unfold wait_ok. simpl. by rewrite phase_of_insert, decide_True.
  - simplify_eq. eapply (inv_drop_step p);
      [done|apply frame_holds; [congruence|done]|apply Hinv..|done].
  - by eapply inv_forget.
Qed.

Lemma reachable_inv s : reachable s → inv s.
Proof.
  induction 1 as [|s p a s' _ IH Hrun]; [|by eapply inv_run].
  split; simpl; try by intros ? ? ?%not_elem_of_nil.
  - done.
  - split; constructor.
  - by intros w ?%not_elem_of_nil.
Qed.

(** ** Properties *)

(** C1. Mutual exclusion. In every interleaving of the sessions' critical
    sections, no two sessions hold conflicting modes on one table, an exclusive
    advisory hold shares its key with no other session, and the lock-free
    counter [any] reads tells whether a table lock is held. *)
Theorem locks_exclusive s :
  reachable s →
  (∀ h1 h2, h1 ∈ TableLocks.holds (tl s) → h2 ∈ TableLocks.holds (tl s) →
     TableLocks.h_table h1 = TableLocks.h_table h2 → TableLocks.h_pid h1 ≠ TableLocks.h_pid h2 →
     TableLocks.modes_conflict (TableLocks.h_mode h1) (TableLocks.h_mode h2) = false) ∧
  (∀ h1 h2, h1 ∈ adv s → h2 ∈ adv s → Advisory.h_key h1 = Advisory.h_key h2 →
     Advisory.h_pid h1 ≠ Advisory.h_pid h2 →
     Advisory.h_shared h1 = true ∧ Advisory.h_shared h2 = true) ∧
  (TableLocks.any (tl s) = true ↔ TableLocks.holds (tl s) ≠ []).
Proof.
  intros Hinv%reachable_inv. split; [apply (inv_tables s Hinv)|].
  split; [apply (inv_advisory s Hinv)|].
  unfold TableLocks.any. rewrite bool_decide_eq_true, (inv_count s Hinv).
  destruct (TableLocks.holds (tl s)); simpl; split; intros; try done; lia.
Qed.

(** An edge of the graph, together with the hold behind it when it is a
    table-lock wait. *)
Definition real_edge (s : sys) (a b : Z) : Prop :=
  ∃ w, w ∈ gr s ∧ w_pid w = a ∧ b ∈ w_blockers w ∧
    (w_kind w = Relation → ∃ table mode, waits_for s a table mode ∧ holds_against s b table mode).

Lemma real_edge_of s a b :
  inv s → waits_on (gr s) a b → (∃ c, waits_on (gr s) b c) → real_edge s a b.
Proof.
  intros Hinv (w & Hw & Hpid & Hb) (c & v & Hv & Hvb & _). exists w. split_and!; [done..|].
  intros Hk. pose proof (inv_waits s Hinv w Hw) as Hok. unfold wait_ok in Hok.
  rewrite Hk in Hok. destruct Hok as (t & m & Hwf & Hbl). exists t, m. rewrite <- Hpid.
  split; [done|]. destruct (Hbl b Hb) as [?|Hr]; [done|].
  by destruct (not_waiting s b v Hinv (or_intror Hr) Hv).
Qed.

(** No invented deadlock. Whenever the shared check answers "deadlock" for
    a session - at any moment, in any interleaving, also between a release's
    two halves - there is a cycle of waiting sessions through it in which every
    table-lock edge is a conflicting hold its target has at that moment. *)
Theorem deadlock_real s p :
  reachable s → deadlocked (gr s) p = true → tc (real_edge s) p p.
Proof.
  intros Hinv%reachable_inv Hd%deadlocked_correct.
  pose proof (tc_nonterminal _ _ _ Hd (tc_start _ _ _ Hd)) as Hcyc.
  eapply tc_mono; [|exact Hcyc]. intros a b [Hab Hbc]. by apply real_edge_of.
Qed.

(** What [pg_blocking_pids] reports of a table-lock wait. Every session the
    graph names as blocking a session's table-lock wait has a conflicting hold
    on that table, unless it is between the two halves of its own release; once
    a release has returned, nobody waits on the releaser for a table. *)
Theorem table_blockers_real s w b :
  reachable s → w ∈ gr s → w_kind w = Relation → b ∈ w_blockers w →
  phase_of s b ≠ TReleasing →
  ∃ table mode, waits_for s (w_pid w) table mode ∧ holds_against s b table mode.
Proof.
  intros Hinv%reachable_inv Hw Hk Hb Hr. pose proof (inv_waits s Hinv w Hw) as Hok.
  unfold wait_ok in Hok. rewrite Hk in Hok. destruct Hok as (t & m & Hwf & Hbl).
  exists t, m. destruct (Hbl b Hb); [auto|done].
Qed.

(** ** Scenarios *)

(** Two sessions lock two tables in opposite orders and wait for each other. *)
Definition crossed_tables : list (Z * action) :=
  [ (1, Acquire "a" TableLocks.ACCESS_EXCLUSIVE true false);
    (2, Acquire "b" TableLocks.SHARE true false);
    (1, Acquire "b" TableLocks.ROW_EXCLUSIVE true false); (1, TPass);
    (2, Acquire "a" TableLocks.ACCESS_SHARE true false); (2, TPass) ].

Definition crossed : sys := default sys0 (run_all crossed_tables sys0).

Lemma crossed_reachable : reachable crossed.
Proof. apply (run_all_reachable crossed_tables). vm_compute. reflexivity. Qed.

Lemma locks_exclusive_witness :
  reachable crossed ∧ TableLocks.any (tl crossed) = true ∧
  (∀ h1 h2, h1 ∈ TableLocks.holds (tl crossed) → h2 ∈ TableLocks.holds (tl crossed) →
     TableLocks.h_table h1 = TableLocks.h_table h2 → TableLocks.h_pid h1 ≠ TableLocks.h_pid h2 →
     TableLocks.modes_conflict (TableLocks.h_mode h1) (TableLocks.h_mode h2) = false).
Proof.
  split; [apply crossed_reachable|]. split; [vm_compute; reflexivity|].
  apply (locks_exclusive crossed crossed_reachable).
Defined.

Lemma deadlock_real_witness :
  reachable crossed ∧ deadlocked (gr crossed) 2 = true ∧ tc (real_edge crossed) 2 2.
Proof.
  split; [apply crossed_reachable|]. split; [vm_compute; reflexivity|].
  apply (deadlock_real crossed 2); [apply crossed_reachable|vm_compute; reflexivity].
Defined.

Lemma table_blockers_real_witness :
  mkWait 2 Relation [1] ∈ gr crossed ∧
  ∃ table mode, waits_for crossed 2 table mode ∧ holds_against crossed 1 table mode.
Proof.
  assert (Hin : mkWait 2 Relation [1] ∈ gr crossed) by (vm_compute; right; left).
  split; [exact Hin|].
  apply (table_blockers_real crossed (mkWait 2 Relation [1]) 1 crossed_reachable Hin);
    [reflexivity|left|vm_compute; discriminate].
Defined.

(** Session 2 takes an advisory lock, session 1 waits for it, session 2 unlocks
    and then waits for a table session 1 holds; session 1's wait has not made
    another pass. *)
Definition advisory_then_table : list (Z * action) :=
  [ (1, Acquire "a" TableLocks.ACCESS_EXCLUSIVE true false);
    (2, ATryLock (0, 7) false true);
    (1, ALock (0, 7) false false); (1, APass false);
    (2, AReleaseXact);
    (2, Acquire "a" TableLocks.ACCESS_SHARE true false) ] ++ replicate 20 (2, TPass).

Definition stale_advisory : sys := default sys0 (run_all advisory_then_table sys0).

(** Advisory locks are released without clearing the graph, unlike table
    and row locks: after session 2 has let go of its advisory lock the graph
    still names it as session 1's blocker, so a check made before session 1's
    next pass reports a deadlock although session 1 could take its lock. *)
Theorem advisory_release_leaves_edge :
  reachable stale_advisory ∧
  Advisory.blockers (adv stale_advisory) (0, 7) 1 false = [] ∧
  blockers_of 1 (gr stale_advisory) = [2] ∧
  deadlocked (gr stale_advisory) 2 = true ∧
  (∃ s', run 2 TPass stale_advisory = Some s' ∧ phase_of s' 2 = TUnwind "a" TableLocks.ACCESS_SHARE).
Proof.
  split; [apply (run_all_reachable advisory_then_table); vm_compute; reflexivity|].
  split; [vm_compute; reflexivity|]. split; [vm_compute; reflexivity|].
  split; [vm_compute; reflexivity|]. eexists. split; vm_compute; reflexivity.
Qed.
