(* ===== verification/RustM.v ===== *)
(** What the models use of Rust: outcomes of fallible code, indexing and
    slicing that can panic, fixed-width integers and their byte encodings. *)

From S2P Require Import Prelude.

Local Open Scope Z_scope.

(** ** Outcomes

    [Err]: the function's own error value. [Panic]: an out-of-range index or
    slice, or an arithmetic underflow the source does not guard. [NoFuel]: the
    model's loop bound was too small (proved impossible where it is used). *)

Inductive outcome (E A : Type) :=
  | Ok (a : A)
  | Err (e : E)
  | Panic
  | NoFuel.
Arguments Ok {E A} _.
Arguments Err {E A} _.
Arguments Panic {E A}.
Arguments NoFuel {E A}.

#[export] Instance outcome_ret {E} : MRet (outcome E) := λ A a, Ok a.
#[export] Instance outcome_bind {E} : MBind (outcome E) := λ A B f m,
  match m with Ok a => f a | Err e => Err e | Panic => Panic | NoFuel => NoFuel end.

(** The code returned: with a value or with its own error. *)
Definition returns {E A} (o : outcome E A) : Prop :=
  match o with Ok _ | Err _ => True | Panic | NoFuel => False end.

Definition ok_or {E A} (e : E) (o : option A) : outcome E A :=
  match o with Some a => Ok a | None => Err e end.

Lemma returns_bind {E A B} (f : A → outcome E B) (m : outcome E A) :
  returns m → (∀ a, m = Ok a → returns (f a)) → returns (m ≫= f).
Proof. destruct m; simpl; auto. Qed.

Lemma bind_Ok {E A B} (f : A → outcome E B) (m : outcome E A) b :
  m ≫= f = Ok b → ∃ a, m = Ok a ∧ f a = Ok b.
Proof. destruct m; simpl; naive_solver. Qed.

(** ** Bytes and slices; positions are [usize], as [Z] *)

Abbreviation bytes := (list Z).

Definition is_byte (b : Z) : Prop := 0 ≤ b < 256.
Definition all_bytes (l : bytes) : Prop := Forall is_byte l.

Definition blen (l : bytes) : Z := Z.of_nat (length l).

(** [l[at]] *)
Definition index {E} (l : bytes) (at_ : Z) : outcome E Z :=
  if bool_decide (0 ≤ at_) then
    match l !! Z.to_nat at_ with Some b => Ok b | None => Panic end
  else Panic.

(** [&l[a..b]] *)
Definition slice {E} (l : bytes) (a b : Z) : outcome E bytes :=
  if bool_decide (0 ≤ a ≤ b ∧ b ≤ blen l)
  then Ok (take (Z.to_nat (b - a)) (drop (Z.to_nat a) l))
  else Panic.

(** [l.get(a..b)] *)
Definition get_range (l : bytes) (a b : Z) : option bytes :=
  if bool_decide (0 ≤ a ≤ b ∧ b ≤ blen l)
  then Some (take (Z.to_nat (b - a)) (drop (Z.to_nat a) l))
  else None.

(** [l.iter().position(|&x| x == b)] *)
Fixpoint position (P : Z → bool) (l : bytes) : option Z :=
  match l with
  | [] => None
  | x :: l => if P x then Some 0 else Z.succ <$> position P l
  end.

(** [a - b] on [usize] *)
Definition usize_sub {E} (a b : Z) : outcome E Z := if a <? b then Panic else Ok (a - b).

(** ** Fixed-width integers *)

Definition wrap (w : Z) (z : Z) : Z := z mod 2 ^ w.

(** Two's complement reading of a [w]-bit pattern. *)
Definition signed (w : Z) (z : Z) : Z := if z <? 2 ^ (w - 1) then z else z - 2 ^ w.

Definition i32_ok (z : Z) : Prop := - 2 ^ 31 ≤ z < 2 ^ 31.
Definition u32_ok (z : Z) : Prop := 0 ≤ z < 2 ^ 32.
Definition i64_ok (z : Z) : Prop := - 2 ^ 63 ≤ z < 2 ^ 63.
Definition u64_ok (z : Z) : Prop := 0 ≤ z < 2 ^ 64.

(** [x as usize] for [x : i32], on a 64-bit target: sign extension. *)
Definition i32_as_usize (z : Z) : Z := wrap 64 z.
(** [x as i32] for [x : usize]. *)
Definition as_i32 (z : Z) : Z := signed 32 (wrap 32 z).

(** [to_le_bytes] of an [n]-byte integer, and its inverse. *)
Fixpoint le_bytes (n : nat) (z : Z) : bytes :=
  match n with
  | O => []
  | S n => z mod 256 :: le_bytes n (z / 256)
  end.

Fixpoint le_val (l : bytes) : Z :=
  match l with [] => 0 | b :: l => b + 256 * le_val l end.

Definition be_bytes (n : nat) (z : Z) : bytes := reverse (le_bytes n z).

Lemma length_le_bytes n z : length (le_bytes n z) = n.
Proof. revert z. induction n; intros z; simpl; [done|]. by rewrite IHn. Qed.

Lemma le_bytes_all n z : all_bytes (le_bytes n z).
Proof.
  revert z. induction n; intros z; simpl; constructor; [|apply IHn].
  unfold is_byte. apply Z.mod_pos_bound. lia.
Qed.

Lemma le_val_bytes n z : le_val (le_bytes n z) = z mod 256 ^ Z.of_nat n.
Proof.
  revert z. induction n; intros z; simpl le_bytes; simpl le_val.
  - by rewrite Z.pow_0_r, Z.mod_1_r.
  - rewrite IHn. rewrite Nat2Z.inj_succ, Z.pow_succ_r by lia.
    rewrite Z.rem_mul_r by lia. lia.
Qed.

Lemma le_val_range l : all_bytes l → 0 ≤ le_val l < 256 ^ blen l.
Proof.
  unfold all_bytes, is_byte, blen. induction 1 as [|b l Hb _ IH]; simpl length; simpl le_val.
  - rewrite Z.pow_0_r. lia.
  - rewrite Nat2Z.inj_succ, Z.pow_succ_r by lia. lia.
Qed.

Lemma le_bytes_val l : all_bytes l → le_bytes (length l) (le_val l) = l.
Proof.
  induction 1 as [|b l Hb _ IH]; simpl; [done|]. unfold is_byte in Hb. f_equal.
  - rewrite (Z.mul_comm 256), Z.mod_add by lia. by apply Z.mod_small.
  - rewrite (Z.add_comm b), (Z.mul_comm 256), Z.div_add_l, Z.div_small by lia.
    by rewrite Z.add_0_r.
Qed.

Lemma signed_wrap w z : 0 < w → - 2 ^ (w - 1) ≤ z < 2 ^ (w - 1) → signed w (wrap w z) = z.
Proof.
  intros Hw Hz. unfold signed, wrap.
  assert (H2 : 2 ^ w = 2 * 2 ^ (w - 1)) by (rewrite <- Z.pow_succ_r by lia; f_equal; lia).
  destruct (Z.leb_spec 0 z).
  - rewrite Z.mod_small by lia. destruct (Z.ltb_spec z (2 ^ (w - 1))); lia.
  - rewrite <- (Z.mod_add z 1) by lia. rewrite Z.mod_small by lia.
    destruct (Z.ltb_spec (z + 1 * 2 ^ w) (2 ^ (w - 1))); lia.
Qed.

Lemma wrap_range w z : 0 ≤ w → 0 ≤ wrap w z < 2 ^ w.
Proof. intros. unfold wrap. apply Z.mod_pos_bound. lia. Qed.

Lemma signed_range w z : 0 < w → 0 ≤ z < 2 ^ w → - 2 ^ (w - 1) ≤ signed w z < 2 ^ (w - 1).
Proof.
  intros Hw Hz. unfold signed.
  assert (H2 : 2 ^ w = 2 * 2 ^ (w - 1)) by (rewrite <- Z.pow_succ_r by lia; f_equal; lia).
  destruct (Z.ltb_spec z (2 ^ (w - 1))); lia.
Qed.

(** ** Reading at a position of a concatenation *)

Lemma blen_app l1 l2 : blen (l1 ++ l2) = blen l1 + blen l2.
Proof. unfold blen. rewrite length_app. lia. Qed.

Lemma blen_nonneg l : 0 ≤ blen l.
Proof. unfold blen. lia. Qed.

Lemma slice_app {E} pre d post a b :
  a = blen pre → b = blen pre + blen d → @slice E (pre ++ d ++ post) a b = Ok d.
Proof.
  intros -> ->. unfold slice, blen. rewrite !length_app.
  rewrite bool_decide_true by lia. f_equal.
  replace (Z.to_nat (Z.of_nat (length pre))) with (length pre) by lia.
  rewrite drop_app_length. apply take_app_length'. lia.
Qed.

Lemma slice_Ok {E} l a b d :
  @slice E l a b = Ok d →
  ∃ pre post, l = pre ++ d ++ post ∧ blen pre = a ∧ blen d = b - a.
Proof.
  unfold slice. case_bool_decide as Hb; [|done]. intros [= <-].
  exists (take (Z.to_nat a) l), (drop (Z.to_nat (b - a)) (drop (Z.to_nat a) l)).
  unfold blen in *. rewrite !take_drop. split; [done|].
  rewrite !length_take, length_drop. lia.
Qed.

Lemma slice_returns {E} l a b : 0 ≤ a ≤ b → b ≤ blen l → ∃ d, @slice E l a b = Ok d ∧ blen d = b - a.
Proof.
  intros Ha Hb. unfold slice. rewrite bool_decide_true by lia. eexists. split; [done|].
  unfold blen in *. rewrite length_take, length_drop. lia.
Qed.

Lemma index_app {E} pre b post a : a = blen pre → @index E (pre ++ b :: post) a = Ok b.
Proof.
  intros ->. unfold index, blen. rewrite bool_decide_true by lia.
  rewrite Nat2Z.id. by rewrite list_lookup_middle.
Qed.

Lemma index_returns {E} l a : 0 ≤ a < blen l → ∃ b, @index E l a = Ok b.
Proof.
  intros Ha. unfold index, blen in *. rewrite bool_decide_true by lia.
  destruct (l !! Z.to_nat a) eqn:Hl; [by eexists|]. apply lookup_ge_None in Hl. lia.
Qed.

Lemma all_bytes_app l1 l2 : all_bytes (l1 ++ l2) ↔ all_bytes l1 ∧ all_bytes l2.
Proof. apply Forall_app. Qed.

Lemma position_spec P l :
  match position P l with
  | Some i => ∃ l1 x l2, l = l1 ++ x :: l2 ∧ blen l1 = i ∧ P x = true ∧ Forall (λ y, P y = false) l1
  | None => Forall (λ y, P y = false) l
  end.
Proof.
  induction l as [|x l IH]; simpl; [constructor|]. destruct (P x) eqn:E.
  - exists [], x, l. by split_and!.
  - destruct (position P l) as [i|]; simpl.
    + destruct IH as (l1 & y & l2 & -> & Hi & Hy & Hl). exists (x :: l1), y, l2.
      split_and!; [done| |done|by constructor]. unfold blen in *. simpl. lia.
    + by constructor.
Qed.

Lemma position_app P l1 x l2 :
  Forall (λ y, P y = false) l1 → P x = true → position P (l1 ++ x :: l2) = Some (blen l1).
Proof.
  intros Hl Hx. induction Hl as [|y l1 Hy _ IH]; simpl; [by rewrite Hx|].
  rewrite Hy, IH. simpl. unfold blen. simpl. f_equal. lia.
Qed.

(** ** Splitting *)

(** [s.split(c)] *)
Fixpoint split_char (c : Z) (s : bytes) : list bytes :=
  match s with
  | [] => [[]]
  | b :: s =>
      if b =? c then [] :: split_char c s
      else match split_char c s with l :: ls => (b :: l) :: ls | [] => [[b]] end
  end.

Lemma split_char_line c l rest : c ∉ l → split_char c (l ++ c :: rest) = l :: split_char c rest.
Proof.
  induction l as [|b l IH]; cbn; [by rewrite Z.eqb_refl|]. rewrite not_elem_of_cons. intros [Hb Hl].
  rewrite (proj2 (Z.eqb_neq b c)) by done. by rewrite IH.
Qed.

(** ** Decimal text *)

(** The decimal digits of a non-negative number, least significant first. *)
Fixpoint digits_rev (fuel : nat) (z : Z) : list Z :=
  match fuel with
  | O => []
  | S fuel => if z <? 10 then [z] else z mod 10 :: digits_rev fuel (z / 10)
  end.

(** The digits of [z.to_string()] for [z >= 0]: at most one per binary digit. *)
Definition dec_digits (z : Z) : list Z := reverse (digits_rev (S (Z.to_nat (Z.log2 z))) z).

Definition dec_bytes (z : Z) : bytes := map (λ d, d + 48) (dec_digits z).

(** ** UTF-8, as [std::str::from_utf8] accepts it *)

Definition in_range (lo hi b : Z) : bool := (lo <=? b) && (b <=? hi).
Definition is_cont (b : Z) : bool := in_range 128 191 b.

Fixpoint is_utf8 (l : bytes) : bool :=
  match l with
  | [] => true
  | b0 :: l1 =>
      if b0 <? 128 then is_utf8 l1
      else match l1 with
      | [] => false
      | b1 :: l2 =>
          if in_range 194 223 b0 then is_cont b1 && is_utf8 l2
          else match l2 with
          | [] => false
          | b2 :: l3 =>
              if (bool_decide (b0 = 224) && in_range 160 191 b1)
                 || (in_range 225 236 b0 && is_cont b1)
                 || (bool_decide (b0 = 237) && in_range 128 159 b1)
                 || (in_range 238 239 b0 && is_cont b1)
              then is_cont b2 && is_utf8 l3
              else match l3 with
              | [] => false
              | b3 :: l4 =>
                  ((bool_decide (b0 = 240) && in_range 144 191 b1)
                   || (in_range 241 243 b0 && is_cont b1)
                   || (bool_decide (b0 = 244) && in_range 128 143 b1))
                  && is_cont b2 && is_cont b3 && is_utf8 l4
              end
          end
      end
  end.

(** ** The bytes of a range *)

Definition sub (l : bytes) (a b : Z) : bytes := take (Z.to_nat (b - a)) (drop (Z.to_nat a) l).

Lemma slice_sub {E} l a b : 0 ≤ a ≤ b → b ≤ blen l → @slice E l a b = Ok (sub l a b).
Proof. intros Ha Hb. unfold slice. by rewrite bool_decide_true by lia. Qed.

Lemma get_range_sub l a b : 0 ≤ a ≤ b → b ≤ blen l → get_range l a b = Some (sub l a b).
Proof. intros Ha Hb. unfold get_range. by rewrite bool_decide_true by lia. Qed.

Lemma get_range_Some l a b d :
  get_range l a b = Some d → d = sub l a b ∧ 0 ≤ a ≤ b ∧ b ≤ blen l.
Proof. unfold get_range. case_bool_decide; [|done]. intros [= <-]. split; [done|lia]. Qed.

Lemma blen_sub l a b : 0 ≤ a ≤ b → b ≤ blen l → blen (sub l a b) = b - a.
Proof.
  intros Ha Hb. unfold sub, blen in *. rewrite length_take, length_drop. lia.
Qed.

Lemma sub_split l a b c : 0 ≤ a ≤ b → b ≤ c → sub l a c = sub l a b ++ sub l b c.
Proof.
  intros Hab Hbc. unfold sub.
  replace (Z.to_nat (c - a)) with (Z.to_nat (b - a) + Z.to_nat (c - b))%nat by lia.
  rewrite <- take_take_drop, drop_drop. do 2 f_equal. f_equal. lia.
Qed.

Lemma sub_nil l a b : b ≤ a → sub l a b = [].
Proof. intros H. unfold sub. by replace (Z.to_nat (b - a)) with 0%nat by lia. Qed.

Lemma sub_full l : sub l 0 (blen l) = l.
Proof. unfold sub, blen. rewrite Z.sub_0_r, Nat2Z.id. simpl. by rewrite drop_0, firstn_all. Qed.

Lemma sub_all_bytes l a b : all_bytes l → all_bytes (sub l a b).
Proof. intros H. unfold sub. by apply Forall_take, Forall_drop. Qed.

(** A known prefix of a range, and what follows it. *)
Lemma sub_app_inv l a b d e :
  0 ≤ a ≤ b → b ≤ blen l → sub l a b = d ++ e →
  a + blen d ≤ b ∧ sub l a (a + blen d) = d ∧ sub l (a + blen d) b = e.
Proof.
  intros Ha Hb E. pose proof (blen_sub l a b Ha Hb) as Hlen.
  rewrite E, blen_app in Hlen. pose proof (blen_nonneg d). pose proof (blen_nonneg e).
  assert (Hle : a + blen d ≤ b) by lia. split; [done|].
  rewrite (sub_split l a (a + blen d) b) in E by lia.
  apply app_inj_1 in E; [done|].
  pose proof (blen_sub l a (a + blen d)) as Hd. unfold blen in *. lia.
Qed.

Lemma sub_sub l a b c d :
  0 ≤ a ≤ b → b ≤ blen l → 0 ≤ c ≤ d → a + d ≤ b → sub (sub l a b) c d = sub l (a + c) (a + d).
Proof.
  intros Ha Hb Hc Hd. unfold sub. rewrite skipn_firstn_comm, drop_drop, take_take.
  f_equal; [lia|]. f_equal. lia.
Qed.

Lemma index_sub {E} l a : 0 ≤ a < blen l → ∃ x, @index E l a = Ok x ∧ sub l a (a + 1) = [x].
Proof.
  intros Ha. destruct (@index_returns E l a Ha) as [x Hx]. exists x. split; [done|].
  unfold index in Hx. rewrite bool_decide_true in Hx by lia.
  destruct (l !! Z.to_nat a) as [y|] eqn:Hl; [|done]. simplify_eq.
  unfold sub. replace (Z.to_nat (a + 1 - a)) with 1%nat by lia.
  rewrite (drop_S _ _ _ Hl). done.
Qed.

#[global] Arguments sub : simpl never.
#[global] Arguments blen : simpl never.
#[global] Arguments le_bytes : simpl never.
#[global] Arguments le_val : simpl never.
#[global] Arguments signed : simpl never.
#[global] Arguments wrap : simpl never.

(** ** Bounds of bitwise operations *)

Lemma bits_bound n z : 0 ≤ n → (∀ i, n ≤ i → Z.testbit z i = false) → 0 ≤ z → z < 2 ^ n.
Proof.
  intros Hn Hb Hz. destruct (Z.eq_dec z 0) as [->|Hne]; [lia|].
  apply Z.log2_lt_pow2; [lia|]. destruct (Z.ltb_spec (Z.log2 z) n) as [|Hge]; [done|].
  specialize (Hb (Z.log2 z) Hge). rewrite Z.bit_log2 in Hb by lia. done.
Qed.

Lemma testbit_high n z i : 0 ≤ z < 2 ^ n → n ≤ i → Z.testbit z i = false.
Proof.
  intros Hz Hi. destruct (Z.leb_spec 0 n); [|rewrite Z.pow_neg_r in Hz by lia; lia].
  destruct (Z.eq_dec z 0) as [->|Hne]; [apply Z.testbit_0_l|].
  apply Z.bits_above_log2; [lia|]. enough (Z.log2 z < n) by lia. apply Z.log2_lt_pow2; lia.
Qed.

Lemma lxor_bound n a b : 0 ≤ n → 0 ≤ a < 2 ^ n → 0 ≤ b < 2 ^ n → 0 ≤ Z.lxor a b < 2 ^ n.
Proof.
  intros Hn Ha Hb. assert (0 ≤ Z.lxor a b) by (apply Z.lxor_nonneg; lia). split; [done|].
  apply bits_bound; [done| |done]. intros i Hi.
  by rewrite Z.lxor_spec, (testbit_high n a), (testbit_high n b).
Qed.

Lemma lor_bound n a b : 0 ≤ n → 0 ≤ a < 2 ^ n → 0 ≤ b < 2 ^ n → 0 ≤ Z.lor a b < 2 ^ n.
Proof.
  intros Hn Ha Hb. assert (0 ≤ Z.lor a b) by (apply Z.lor_nonneg; lia). split; [done|].
  apply bits_bound; [done| |done]. intros i Hi.
  by rewrite Z.lor_spec, (testbit_high n a), (testbit_high n b).
Qed.

Lemma shiftr_bound n k z : 0 ≤ k → 0 ≤ z < 2 ^ n → 0 ≤ Z.shiftr z k < 2 ^ n.
Proof.
  intros Hk Hz. rewrite Z.shiftr_div_pow2 by done.
  assert (0 < 2 ^ k) by lia. split; [apply Z.div_pos; lia|].
  eapply Z.le_lt_trans; [|apply Hz]. apply Z.div_le_upper_bound; nia.
Qed.
