(* ===== verification/Wire.v ===== *)
(** MongoDB wire-protocol framing: [secantus-wire/src/lib.rs].

    Every function of the crate's framing layer over a byte buffer; indexing
    and slicing that could go out of range is a [Panic] outcome, so "never
    panics" is a theorem and not an assumption. Error texts are kept as format
    string and arguments. *)

From stdpp Require Import strings.
From S2P Require Import Prelude RustM.

Local Open Scope Z_scope.

Definition OP_REPLY : Z := 1.
Definition OP_UPDATE : Z := 2001.
Definition OP_INSERT : Z := 2002.
Definition OP_QUERY : Z := 2004.
Definition OP_GET_MORE : Z := 2005.
Definition OP_DELETE : Z := 2006.
Definition OP_KILL_CURSORS : Z := 2007.
Definition OP_COMPRESSED : Z := 2012.
Definition OP_MSG : Z := 2013.

Definition OP_MSG_FLAG_CHECKSUM_PRESENT : Z := 1.
Definition OP_MSG_FLAG_MORE_TO_COME : Z := 2.
Definition OP_MSG_FLAG_EXHAUST_ALLOWED : Z := 65536.

Definition HEADER_SIZE : Z := 16.
Definition MAX_MESSAGE_SIZE : Z := 48000000.
Definition MIN_BSON_DOC_LEN : Z := 5.

(** A formatted message: its text with [{}] for each argument. *)
Definition msg : Type := string * list Z.

Inductive WireError :=
  | Protocol (m : msg)
  | MalformedBody (m : msg).

Definition is_recoverable (e : WireError) : bool :=
  match e with MalformedBody _ => true | Protocol _ => false end.

Abbreviation result := (outcome WireError).

(** ** Reading integers *)

Definition rd_u32 {E} (buf : bytes) (at_ : Z) : outcome E Z :=
  b0 ← index buf at_; b1 ← index buf (at_ + 1);
  b2 ← index buf (at_ + 2); b3 ← index buf (at_ + 3);
  Ok (le_val [b0; b1; b2; b3]).

Definition rd_i32 {E} (buf : bytes) (at_ : Z) : outcome E Z :=
  u ← rd_u32 buf at_; Ok (signed 32 u).

(** ** The header *)

Record Header := mkHeader {
  message_length : Z; request_id : Z; response_to : Z; op_code : Z }.

Definition unpack (buf : bytes) : result Header :=
  if blen buf <? HEADER_SIZE
  then Err (Protocol ("header needs {} bytes, got {}", [HEADER_SIZE; blen buf]))
  else
    ml ← rd_i32 buf 0; ri ← rd_i32 buf 4; rt ← rd_i32 buf 8; oc ← rd_i32 buf 12;
    Ok (mkHeader ml ri rt oc).

Definition pack (h : Header) : bytes :=
  le_bytes 4 (message_length h) ++ le_bytes 4 (request_id h) ++
  le_bytes 4 (response_to h) ++ le_bytes 4 (op_code h).

Definition body_len (h : Header) : result Z :=
  if i32_as_usize (message_length h) <? HEADER_SIZE
  then Err (Protocol ("message length {} < header size {}", [message_length h; HEADER_SIZE]))
  else if MAX_MESSAGE_SIZE <? message_length h
  then Err (Protocol ("message length {} exceeds max {}", [message_length h; MAX_MESSAGE_SIZE]))
  else usize_sub (i32_as_usize (message_length h)) HEADER_SIZE.

(** ** Requests *)

Record DocumentSequence := mkSeq { identifier : bytes; documents : list bytes }.

Record OpMsg := mkOpMsg { flags : Z; body : bytes; document_sequences : list DocumentSequence }.

Record OpQuery := mkOpQuery {
  q_flags : Z; full_collection_name : bytes; number_to_skip : Z; number_to_return : Z;
  query : bytes; return_fields_selector : option bytes }.

Inductive Op :=
  | Msg (m : OpMsg)
  | Query (q : OpQuery)
  | LegacyGetMore
  | Ignored (code : Z).

Definition check_doc_len (doc_len at_ end_ : Z) (where_ : string) : result unit :=
  if doc_len <? MIN_BSON_DOC_LEN
  then Err (MalformedBody
         (where_ +:+ ": declared BSON length {} below minimum {}", [doc_len; MIN_BSON_DOC_LEN]))
  else if end_ <? at_ + i32_as_usize doc_len
  then Err (MalformedBody
         (where_ +:+ ": declared BSON length {} would read past end (at={}, end={})",
          [doc_len; at_; end_]))
  else Ok tt.

Definition validate_bson (s : bytes) (where_ : string) : result unit :=
  if blen s <? 5
  then Err (MalformedBody (where_ +:+ ": BSON too short ({} bytes)", [blen s]))
  else
    declared ← rd_i32 s 0;
    if bool_decide (i32_as_usize declared ≠ blen s)
    then Err (MalformedBody
           (where_ +:+ ": BSON declared length {} != slice length {}", [declared; blen s]))
    else Ok tt.

Definition memchr0 {E} (buf : bytes) (start limit : Z) : outcome E (option Z) :=
  s ← slice buf start limit; Ok (Z.add start <$> position (λ b, b =? 0) s).

(** One length-prefixed document at [offset], within [end_]. *)
Definition read_doc (buf : bytes) (doc_len offset : Z) (where_ : string) : result bytes :=
  doc ← slice buf offset (offset + i32_as_usize doc_len);
  _ ← validate_bson doc where_;
  Ok doc.

(** The inner [while offset < section_end] of a kind-1 section. *)
Fixpoint parse_docs (fuel : nat) (buf : bytes) (section_end offset : Z) (docs : list bytes)
    : result (list bytes * Z) :=
  match fuel with
  | O => NoFuel
  | S fuel =>
      if offset <? section_end then
        if section_end <? offset + 4
        then Err (MalformedBody ("OP_MSG kind-1: truncated inner doc length", []))
        else
          doc_len ← rd_i32 buf offset;
          _ ← check_doc_len doc_len offset section_end "OP_MSG kind-1 inner";
          doc ← read_doc buf doc_len offset "OP_MSG kind-1 inner";
          parse_docs fuel buf section_end (offset + i32_as_usize doc_len) (docs ++ [doc])
      else Ok (docs, offset)
  end.

(** A kind-1 section, [offset] after its kind byte. *)
Definition parse_kind1 (fuel : nat) (buf : bytes) (end_ offset : Z)
    : result (DocumentSequence * Z) :=
  if end_ <? offset + 4
  then Err (MalformedBody ("OP_MSG kind-1 truncated before length", []))
  else
    section_len ← rd_i32 buf offset;
    if (section_len <? 4) || (end_ <? offset + i32_as_usize section_len)
    then Err (MalformedBody ("OP_MSG kind-1: declared section length {} invalid", [section_len]))
    else
      let section_end := offset + i32_as_usize section_len in
      let offset := offset + 4 in
      found ← memchr0 buf offset section_end;
      ident_end ← ok_or (MalformedBody ("OP_MSG kind-1: identifier missing null terminator", [])) found;
      ident ← slice buf offset ident_end;
      if negb (is_utf8 ident)
      then Err (MalformedBody ("OP_MSG kind-1: identifier is not valid UTF-8", []))
      else
        '(docs, offset) ← parse_docs fuel buf section_end (ident_end + 1) [];
        Ok (mkSeq ident docs, offset).

(** A kind-0 section, [offset] after its kind byte. *)
Definition parse_kind0 (buf : bytes) (end_ offset : Z) (have_body : bool) : result (bytes * Z) :=
  if end_ <? offset + 4
  then Err (MalformedBody ("OP_MSG kind-0 truncated before length", []))
  else
    doc_len ← rd_i32 buf offset;
    _ ← check_doc_len doc_len offset end_ "OP_MSG kind-0";
    if have_body
    then Err (MalformedBody ("OP_MSG has more than one kind-0 section", []))
    else
      doc ← read_doc buf doc_len offset "OP_MSG kind-0";
      Ok (doc, offset + i32_as_usize doc_len).

(** The section loop of [parse_op_msg]. *)
Fixpoint parse_sections (fuel : nat) (buf : bytes) (end_ offset : Z)
    (body : option bytes) (seqs : list DocumentSequence)
    : result (option bytes * list DocumentSequence) :=
  match fuel with
  | O => NoFuel
  | S fuel' =>
      if offset <? end_ then
        kind ← index buf offset;
        let offset := offset + 1 in
        if kind =? 0 then
          '(doc, offset) ← parse_kind0 buf end_ offset (bool_decide (is_Some body));
          parse_sections fuel' buf end_ offset (Some doc) seqs
        else if kind =? 1 then
          '(sq, offset) ← parse_kind1 fuel' buf end_ offset;
          parse_sections fuel' buf end_ offset body (seqs ++ [sq])
        else Err (Protocol ("unknown OP_MSG section kind {}", [kind]))
      else Ok (body, seqs)
  end.

Definition parse_op_msg (buf : bytes) : result OpMsg :=
  if blen buf <? 4
  then Err (Protocol ("OP_MSG body too short for flags", []))
  else
    fl ← rd_u32 buf 0;
    let has_checksum := negb (Z.land fl OP_MSG_FLAG_CHECKSUM_PRESENT =? 0) in
    end_ ← (if has_checksum then usize_sub (blen buf) 4 else Ok (blen buf));
    '(b, seqs) ← parse_sections (S (length buf)) buf end_ 4 None [];
    match b with
    | Some b => Ok (mkOpMsg fl b seqs)
    | None => Err (Protocol ("OP_MSG has no kind-0 body section", []))
    end.

Definition parse_op_query (buf : bytes) : result OpQuery :=
  if blen buf <? 4
  then Err (Protocol ("OP_QUERY body too short", []))
  else
    fl ← rd_u32 buf 0;
    found ← memchr0 buf 4 (blen buf);
    name_end ← ok_or (MalformedBody ("OP_QUERY: collection name missing null terminator", [])) found;
    name ← slice buf 4 name_end;
    if negb (is_utf8 name)
    then Err (MalformedBody ("OP_QUERY: collection name is not valid UTF-8", []))
    else
    let offset := name_end + 1 in
    if blen buf <? offset + 8
    then Err (MalformedBody ("OP_QUERY: truncated before skip/return", []))
    else
    skip ← rd_i32 buf offset;
    let offset := offset + 4 in
    ret ← rd_i32 buf offset;
    let offset := offset + 4 in
    if blen buf <? offset + 4
    then Err (MalformedBody ("OP_QUERY: truncated before query document", []))
    else
    query_len ← rd_i32 buf offset;
    _ ← check_doc_len query_len offset (blen buf) "OP_QUERY query";
    q ← read_doc buf query_len offset "OP_QUERY query";
    let offset := offset + i32_as_usize query_len in
    sel ← (if offset <? blen buf then
             if blen buf <? offset + 4
             then Err (MalformedBody ("OP_QUERY: truncated before field selector", []))
             else
               sel_len ← rd_i32 buf offset;
               _ ← check_doc_len sel_len offset (blen buf) "OP_QUERY selector";
               sel ← read_doc buf sel_len offset "OP_QUERY selector";
               Ok (Some sel)
           else Ok None);
    Ok (mkOpQuery fl name skip ret q sel).

Definition parse_body (code : Z) (buf : bytes) : result Op :=
  if code =? OP_MSG then m ← parse_op_msg buf; Ok (Msg m)
  else if code =? OP_QUERY then q ← parse_op_query buf; Ok (Query q)
  else if code =? OP_GET_MORE then
    (if blen buf <? 4
     then Err (Protocol ("OP_GET_MORE has no NUL-terminated namespace", []))
     else
       found ← memchr0 buf 4 (blen buf);
       match found with
       | None => Err (Protocol ("OP_GET_MORE has no NUL-terminated namespace", []))
       | Some _ => Ok LegacyGetMore
       end)
  else if (code =? OP_UPDATE) || (code =? OP_INSERT) || (code =? OP_DELETE)
          || (code =? OP_KILL_CURSORS) || (code =? OP_COMPRESSED)
  then Err (Protocol ("unsupported op_code {}", [code]))
  else if blen buf <? 4
  then Err (Protocol ("op_code {} with a {}-byte body", [code; blen buf]))
  else Ok (Ignored code).

(** ** CRC-32C and the frame checks *)

Definition u32_not (z : Z) : Z := Z.lxor z 4294967295.

(** One entry of the table: eight steps of the reflected polynomial. *)
Definition crc32c_step (c : Z) : Z :=
  if negb (Z.land c 1 =? 0) then Z.lxor 2197175160 (Z.shiftr c 1) else Z.shiftr c 1.

Definition crc32c_table : list Z := map (λ i, Nat.iter 8 crc32c_step (Z.of_nat i)) (seq 0 256).

Definition crc32c_update (state : Z) (data : bytes) : Z :=
  foldl (λ state b,
    Z.lxor (nth (Z.to_nat (Z.land (Z.lxor state b) 255)) crc32c_table 0) (Z.shiftr state 8))
    state data.

Definition crc32c (state : Z) (data : bytes) : Z := u32_not (crc32c_update state data).

Definition OP_MSG_REQUIRED_FLAG_BITS : Z := 65535.

Definition op_msg_frame_problem (h : Header) (buf : bytes) : result (option string) :=
  if blen buf <? 4 then Ok None
  else
    fl ← rd_u32 buf 0;
    let known := Z.lor OP_MSG_FLAG_CHECKSUM_PRESENT OP_MSG_FLAG_MORE_TO_COME in
    if negb (Z.land (Z.land fl OP_MSG_REQUIRED_FLAG_BITS) (u32_not known) =? 0)
    then Ok (Some "OP_MSG has an unknown required flag bit")
    else if negb (Z.land fl OP_MSG_FLAG_CHECKSUM_PRESENT =? 0) then
      if blen buf <? 8 then Ok (Some "OP_MSG too short for its checksum")
      else
        covered ← slice buf 0 (blen buf - 4);
        trailer ← slice buf (blen buf - 4) (blen buf);
        let head := le_bytes 4 (as_i32 (HEADER_SIZE + blen buf)) ++ le_bytes 4 (request_id h)
                    ++ le_bytes 4 (response_to h) ++ le_bytes 4 (op_code h) in
        let sum := crc32c (crc32c_update (u32_not 0) head) covered in
        sent ← rd_u32 trailer 0;
        if bool_decide (sum ≠ sent) then Ok (Some "OP_MSG checksum does not match") else Ok None
    else Ok None.

(** [out[start..start + d.len()].copy_from_slice(d)] *)
Definition write_at (out : bytes) (start : Z) (d : bytes) : bytes :=
  take (Z.to_nat start) out ++ d ++ drop (Z.to_nat start + length d) out.

Definition with_op_msg_checksum (frame : bytes) : result bytes :=
  if blen frame <? HEADER_SIZE + 4 then Ok frame
  else
    code ← rd_i32 frame 12;
    if negb (code =? OP_MSG) then Ok frame
    else
      let out := write_at frame 0 (le_bytes 4 (as_i32 (blen frame + 4))) in
      fl ← rd_u32 out HEADER_SIZE;
      let out := write_at out HEADER_SIZE (le_bytes 4 (Z.lor fl OP_MSG_FLAG_CHECKSUM_PRESENT)) in
      Ok (out ++ le_bytes 4 (crc32c (u32_not 0) out)).

(** ** Replies *)

Definition build_op_msg_reply (response_to request_id : Z) (body_bytes : bytes) (fl : Z) : bytes :=
  let payload_len := 4 + 1 + blen body_bytes in
  let header := mkHeader (as_i32 (HEADER_SIZE + payload_len)) request_id response_to OP_MSG in
  pack header ++ le_bytes 4 fl ++ [0] ++ body_bytes.

Definition build_op_reply (response_to request_id : Z) (docs : list bytes)
    (cursor_id starting_from response_flags : Z) : bytes :=
  let docs_len := foldr (λ d n, blen d + n) 0 docs in
  let payload_len := 4 + 8 + 4 + 4 + docs_len in
  let header := mkHeader (as_i32 (HEADER_SIZE + payload_len)) request_id response_to OP_REPLY in
  pack header ++ le_bytes 4 response_flags ++ le_bytes 8 cursor_id ++ le_bytes 4 starting_from
    ++ le_bytes 4 (as_i32 (Z.of_nat (length docs))) ++ concat docs.

(** ** Splicing a batch into a cursor reply

    The option-valued helpers of the source are outcomes with error [tt]. *)

Definition rd_i32_checked (b : bytes) (at_ : Z) : option Z :=
  (λ s, signed 32 (le_val s)) <$> get_range b at_ (at_ + 4).

Definition try {A} (o : option A) : outcome unit A := ok_or tt o.

(** [value_size]'s closure. *)
Definition len_at (rest : bytes) (at_ min : Z) : outcome unit Z :=
  n ← try (rd_i32_checked rest at_); if min <=? n then Ok n else Err tt.

Definition value_size (t : Z) (rest : bytes) : outcome unit Z :=
  size ←
    (if (t =? 1) || (t =? 9) || (t =? 17) || (t =? 18) then Ok 8
     else if (t =? 2) || (t =? 13) || (t =? 14) then n ← len_at rest 0 1; Ok (4 + n)
     else if (t =? 3) || (t =? 4) || (t =? 15) then len_at rest 0 5
     else if t =? 5 then n ← len_at rest 0 0; Ok (5 + n)
     else if (t =? 6) || (t =? 10) || (t =? 127) || (t =? 255) then Ok 0
     else if t =? 7 then Ok 12
     else if t =? 8 then Ok 1
     else if t =? 11 then
       p ← try (position (λ c, c =? 0) rest);
       rest' ← slice rest (p + 1) (blen rest);
       p' ← try (position (λ c, c =? 0) rest');
       Ok (p + 1 + p' + 1)
     else if t =? 12 then n ← len_at rest 0 1; Ok (4 + n + 12)
     else if t =? 16 then Ok 4
     else if t =? 19 then Ok 16
     else Err tt);
  if size <=? blen rest then Ok size else Err tt.

Record RawElement := mkElem { e_type : Z; e_key : bytes; e_value : bytes }.

Fixpoint raw_elements_loop (fuel : nat) (doc : bytes) (end_ i : Z) (out : list RawElement)
    : outcome unit (list RawElement) :=
  match fuel with
  | O => NoFuel
  | S fuel =>
      if i <? end_ then
        t ← index doc i;
        let i := i + 1 in
        s ← slice doc i end_;
        p ← try (position (λ c, c =? 0) s);
        let k_end := i + p in
        key ← slice doc i k_end;
        let i := k_end + 1 in
        rest ← slice doc i end_;
        size ← value_size t rest;
        value ← try (get_range doc i (i + size));
        raw_elements_loop fuel doc end_ (i + size) (out ++ [mkElem t key value])
      else if i =? end_ then Ok out else Err tt
  end.

Definition raw_elements (doc : bytes) : outcome unit (list RawElement) :=
  n ← try (rd_i32_checked doc 0);
  if n <? 0 then Err tt
  else if (n <? 5) || (blen doc <? n) then Err tt
  else
    last ← index doc (n - 1);
    if negb (last =? 0) then Err tt
    else raw_elements_loop (S (length doc)) doc (n - 1) 4 [].

Definition patch_len (out : bytes) (start : Z) : bytes :=
  write_at out start (le_bytes 4 (as_i32 (blen out - start))).

Definition internal {A} (m : string) : result A := Err (Protocol ("encode_cursor_reply: " +:+ m, [])).

(** The batch loop: [out] grows by one array element per document. *)
Fixpoint push_batch (i : Z) (batch : list bytes) (out : bytes) : result bytes :=
  match batch with
  | [] => Ok out
  | blob :: batch =>
      match get_range blob 0 4 with
      | None => internal "malformed batch document"
      | Some b =>
          let n := signed 32 (le_val b) in
          if (n <? 0) || negb ((5 <=? n) && (n <=? blen blob))
          then internal "malformed batch document"
          else
            d ← slice blob 0 n;
            push_batch (i + 1) batch (out ++ [3] ++ dec_bytes i ++ [0] ++ d)
      end
  end.

(** [b"cursor"] *)
Definition cursor_key : bytes := [99; 117; 114; 115; 111; 114].

Fixpoint splice_elements (els : list RawElement) (batch_field : bytes) (batch : list bytes)
    (out : bytes) (have_cursor : bool) : result (bytes * bool) :=
  match els with
  | [] => Ok (out, have_cursor)
  | e :: els =>
      let out := out ++ [e_type e] ++ e_key e ++ [0] in
      if negb (bool_decide (e_key e = cursor_key))
      then splice_elements els batch_field batch (out ++ e_value e) have_cursor
      else if negb (e_type e =? 3) then internal "reply `cursor` field is not a document"
      else
        let cursor_start := blen out in
        let out := out ++ [0; 0; 0; 0] ++ [4] ++ batch_field ++ [0] in
        let array_start := blen out in
        let out := out ++ [0; 0; 0; 0] in
        out ← push_batch 0 batch out;
        let out := patch_len (out ++ [0]) array_start in
        v ← slice (e_value e) 4 (blen (e_value e) - 1);
        let out := patch_len (out ++ v ++ [0]) cursor_start in
        splice_elements els batch_field batch out true
  end.

Definition encode_cursor_reply (envelope : bytes) (batch_field : bytes) (batch : list bytes)
    : result bytes :=
  match raw_elements envelope with
  | Ok els =>
      r ← splice_elements els batch_field batch [0; 0; 0; 0] false;
      if r.2 : bool then Ok (patch_len (r.1 ++ [0]) 0)
      else internal "reply has no `cursor` field"
  | Err tt => internal "malformed envelope"
  | Panic => Panic
  | NoFuel => NoFuel
  end.
