(* ===== verification/WireFacts.v ===== *)
(** What the framing layer of [Wire] guarantees: it never panics, it accepts
    exactly the [OP_MSG] grammar, its frames and checksums round-trip. *)

From stdpp Require Import strings.
From S2P Require Import Prelude RustM Wire.

Local Open Scope Z_scope.

(** ** Integer fields *)

Lemma rd_u32_sub {E} buf a :
  0 ≤ a → a + 4 ≤ blen buf → @rd_u32 E buf a = Ok (le_val (sub buf a (a + 4))).
Proof.
  intros Ha Hb. unfold rd_u32.
  destruct (@index_sub E buf a) as (x0 & -> & H0); [lia|].
  destruct (@index_sub E buf (a + 1)) as (x1 & -> & H1); [lia|].
  destruct (@index_sub E buf (a + 2)) as (x2 & -> & H2); [lia|].
  destruct (@index_sub E buf (a + 3)) as (x3 & -> & H3); [lia|].
  simpl. do 2 f_equal.
  rewrite (sub_split buf a (a + 1)), (sub_split buf (a + 1) (a + 2)),
    (sub_split buf (a + 2) (a + 3)) by lia.
  replace (a + 1 + 1) with (a + 2) in H1 by lia.
  replace (a + 2 + 1) with (a + 3) in H2 by lia.
  replace (a + 3 + 1) with (a + 4) in H3 by lia.
  by rewrite H0, H1, H2, H3.
Qed.

Lemma rd_i32_sub {E} buf a :
  0 ≤ a → a + 4 ≤ blen buf → @rd_i32 E buf a = Ok (signed 32 (le_val (sub buf a (a + 4)))).
Proof. intros Ha Hb. unfold rd_i32. by rewrite rd_u32_sub. Qed.

Lemma le_val_sub4 buf a :
  all_bytes buf → 0 ≤ a → a + 4 ≤ blen buf → u32_ok (le_val (sub buf a (a + 4))).
Proof.
  intros Hb Ha Hl. pose proof (le_val_range (sub buf a (a + 4)) (sub_all_bytes _ _ _ Hb)) as Hr.
  rewrite blen_sub in Hr by lia. replace (a + 4 - a) with 4 in Hr by lia. exact Hr.
Qed.

Lemma rd_i32_ok {E} buf a :
  all_bytes buf → 0 ≤ a → a + 4 ≤ blen buf →
  ∃ v, @rd_i32 E buf a = Ok v ∧ i32_ok v ∧ v = signed 32 (le_val (sub buf a (a + 4))).
Proof.
  intros Hb Ha Hl. rewrite rd_i32_sub by done. eexists. split; [done|]. split; [|done].
  apply (signed_range 32); [lia|]. by apply le_val_sub4.
Qed.

Lemma i32_as_usize_nonneg v : 0 ≤ v → i32_ok v → i32_as_usize v = v.
Proof. unfold i32_ok, i32_as_usize, wrap. intros. apply Z.mod_small. lia. Qed.

Lemma le_val4 v : i32_ok v → signed 32 (le_val (le_bytes 4 v)) = v.
Proof.
  intros Hv. rewrite le_val_bytes. change (256 ^ Z.of_nat 4) with (2 ^ 32).
  apply (signed_wrap 32); [lia|exact Hv].
Qed.

Lemma le_val4_u v : u32_ok v → le_val (le_bytes 4 v) = v.
Proof.
  intros Hv. rewrite le_val_bytes. change (256 ^ Z.of_nat 4) with (2 ^ 32).
  by apply Z.mod_small.
Qed.

(** ** Documents *)

(** A BSON document as the framing layer knows it: at least five bytes, and
    its own length in the first four. *)
Definition wf_doc (d : bytes) : Prop :=
  all_bytes d ∧ 5 ≤ blen d < 2 ^ 31 ∧ take 4 d = le_bytes 4 (blen d).

Lemma take4_sub d : 4 ≤ blen d → take 4 d = sub d 0 4.
Proof. intros. unfold sub. by rewrite drop_0. Qed.

Lemma wf_doc_alt d :
  all_bytes d → 5 ≤ blen d < 2 ^ 31 → signed 32 (le_val (sub d 0 4)) = blen d → wf_doc d.
Proof.
  intros Hb Hl Hv. split_and!; [done|lia|lia|]. rewrite take4_sub by lia.
  pose proof (le_val_sub4 d 0 Hb ltac:(lia) ltac:(lia)) as Hu. change (0 + 4) with 4 in Hu.
  assert (Hlen : length (sub d 0 4) = 4%nat).
  { pose proof (blen_sub d 0 4 ltac:(lia) ltac:(lia)) as H4. unfold blen in H4. lia. }
  pose proof (le_bytes_val (sub d 0 4) (sub_all_bytes _ _ _ Hb)) as Hinv.
  rewrite Hlen in Hinv. rewrite <- Hinv at 1. f_equal.
  unfold signed, u32_ok in *. change (2 ^ (32 - 1)) with (2 ^ 31) in *.
  destruct (Z.ltb_spec (le_val (sub d 0 4)) (2 ^ 31)); lia.
Qed.

Lemma check_doc_len_Ok v a e w :
  i32_ok v → check_doc_len v a e w = Ok tt ↔ 5 ≤ v ∧ a + v ≤ e.
Proof.
  intros Hv. unfold check_doc_len, MIN_BSON_DOC_LEN.
  destruct (Z.ltb_spec v 5); [split; [done|lia]|].
  rewrite i32_as_usize_nonneg by (done || lia).
  destruct (Z.ltb_spec e (a + v)); split; done || lia.
Qed.

Lemma check_doc_len_returns v a e w : returns (check_doc_len v a e w).
Proof. unfold check_doc_len. by repeat destruct (_ <? _). Qed.

Lemma validate_bson_returns s w : returns (validate_bson s w).
Proof.
  unfold validate_bson. destruct (Z.ltb_spec (blen s) 5); [done|].
  rewrite rd_i32_sub by lia. simpl. by case_bool_decide.
Qed.

Lemma validate_bson_Ok s w :
  all_bytes s → blen s < 2 ^ 31 → validate_bson s w = Ok tt ↔ wf_doc s.
Proof.
  intros Hb Hlt. unfold validate_bson. destruct (Z.ltb_spec (blen s) 5) as [?|Hge].
  { split; [done|]. unfold wf_doc. lia. }
  destruct (@rd_i32_ok WireError s 0 Hb) as (v & -> & Hv & Ev); [lia..|].
  change (0 + 4) with 4 in Ev. simpl.
  case_bool_decide as Hd; split; try done.
  - intros (_ & Hl & Ht). exfalso. apply Hd. rewrite take4_sub in Ht by lia.
    rewrite Ev, Ht, le_val4 by (unfold i32_ok; lia). apply i32_as_usize_nonneg; [lia|].
    unfold i32_ok; lia.
  - intros _. apply wf_doc_alt; [done|lia|]. rewrite <- Ev.
    unfold i32_as_usize, wrap in Hd. unfold i32_ok in Hv.
    destruct (Z.leb_spec 0 v); [rewrite Z.mod_small in Hd by lia; lia|].
    rewrite <- (Z.mod_add v 1) in Hd by lia. rewrite Z.mod_small in Hd by lia. lia.
Qed.

(** Reading one document: the value of [read_doc] after the length check. *)
Lemma read_doc_spec buf v a e w :
  all_bytes buf → i32_ok v → 0 ≤ a → e ≤ blen buf → 5 ≤ v → a + v ≤ e →
  returns (read_doc buf v a w) ∧
  (∀ d, read_doc buf v a w = Ok d ↔ d = sub buf a (a + v) ∧ wf_doc d).
Proof.
  intros Hb Hv Ha He H5 Hle. unfold read_doc.
  rewrite i32_as_usize_nonneg, slice_sub by lia || done. simpl.
  assert (Hlen : blen (sub buf a (a + v)) = v) by (rewrite blen_sub; lia).
  pose proof (validate_bson_returns (sub buf a (a + v)) w) as Hr.
  pose proof (validate_bson_Ok (sub buf a (a + v)) w (sub_all_bytes _ _ _ Hb)) as Hiff.
  unfold i32_ok in Hv. rewrite Hlen in Hiff. specialize (Hiff ltac:(lia)).
  destruct (validate_bson _ _) as [[]|?| |]; simpl in *; try done; (split; [done|]); intros d.
  - naive_solver.
  - split; [done|]. intros [-> Hd]. by apply Hiff in Hd.
Qed.

(** ** Document sequences *)

Lemma wf_doc_nonempty d : wf_doc d → d ≠ [].
Proof. intros (_ & Hl & _) ->. unfold blen in Hl. simpl in Hl. lia. Qed.

Lemma concat_docs_nil ds : Forall wf_doc ds → concat ds = [] → ds = [].
Proof.
  destruct 1 as [|d ds Hd _]; [done|]. simpl. intros [E _]%app_eq_nil.
  by apply wf_doc_nonempty in Hd.
Qed.

(** The length field at the front of a document. *)
Lemma wf_doc_field buf a d :
  0 ≤ a → a + blen d ≤ blen buf → sub buf a (a + blen d) = d → wf_doc d →
  signed 32 (le_val (sub buf a (a + 4))) = blen d ∧ a + 5 ≤ a + blen d.
Proof.
  intros Ha Hb Hs (_ & Hl & Ht). split; [|lia].
  replace (sub buf a (a + 4)) with (take 4 d).
  - rewrite Ht. apply le_val4. unfold i32_ok. lia.
  - rewrite take4_sub by lia. rewrite <- Hs at 1. rewrite sub_sub by lia. f_equal. lia.
Qed.

Lemma concat_docs_cons buf a e d ds :
  0 ≤ a ≤ e → e ≤ blen buf → wf_doc d → sub buf a e = concat (d :: ds) →
  signed 32 (le_val (sub buf a (a + 4))) = blen d ∧ 5 ≤ blen d ∧ a + blen d ≤ e ∧
  d = sub buf a (a + blen d) ∧ sub buf (a + blen d) e = concat ds.
Proof.
  intros Ha He Hd E. simpl in E. apply sub_app_inv in E as (Hle & Hs & Hr); [|lia..].
  destruct (wf_doc_field buf a d) as [Hv H5]; [lia..|done|done|].
  split_and!; try done. lia.
Qed.

Lemma parse_docs_spec buf se :
  all_bytes buf → se ≤ blen buf → ∀ fuel off docs,
  0 ≤ off ≤ se → (Z.to_nat (se - off) < fuel)%nat →
  returns (parse_docs fuel buf se off docs) ∧
  ∀ r, parse_docs fuel buf se off docs = Ok r ↔
    ∃ ds, r = (docs ++ ds, se) ∧ Forall wf_doc ds ∧ sub buf off se = concat ds.
Proof.
  intros Hb Hse. induction fuel as [|fuel IH]; intros off docs Hoff Hf; [lia|]. simpl.
  destruct (Z.ltb_spec off se) as [Hlt|Hge]; cycle 1.
  { assert (off = se) as -> by lia. split; [done|]. intros r. rewrite sub_nil by lia. split.
    - intros [= <-]. exists []. by rewrite app_nil_r.
    - intros (ds & -> & Hds & E). symmetry in E. apply concat_docs_nil in E as ->; [|done].
      by rewrite app_nil_r. }
  assert (Hne : ∀ ds, Forall wf_doc ds → sub buf off se = concat ds →
            ∃ d ds', ds = d :: ds' ∧ wf_doc d ∧ Forall wf_doc ds').
  { intros [|d ds] Hds E; [|inversion Hds; eauto].
    pose proof (blen_sub buf off se ltac:(lia) Hse) as Hl. rewrite E in Hl. unfold blen in Hl.
    simpl in Hl. lia. }
  destruct (Z.ltb_spec se (off + 4)) as [Hshort|Hlong].
  { split; [done|]. intros r. split; [done|]. intros (ds & _ & Hds & E).
    destruct (Hne ds Hds E) as (d & ds' & -> & Hd & _).
    apply concat_docs_cons in E; [lia|lia|lia|done]. }
  destruct (@rd_i32_ok WireError buf off Hb) as (v & -> & Hv & Ev); [lia..|]. cbn [mbind outcome_bind].
  pose proof (check_doc_len_returns v off se "OP_MSG kind-1 inner") as Hcr.
  pose proof (check_doc_len_Ok v off se "OP_MSG kind-1 inner" Hv) as Hck.
  destruct (check_doc_len _ _ _ _) as [[]|err| |]; simpl in Hcr; try done; cbn [mbind outcome_bind]; cycle 1.
  { split; [done|]. intros r. split; [done|]. intros (ds & _ & Hds & E).
    destruct (Hne ds Hds E) as (d & ds' & -> & Hd & _).
    apply concat_docs_cons in E as (E1 & H5 & Hle & _); [|lia|lia|done].
    rewrite <- E1, <- Ev in H5, Hle. discriminate (proj2 Hck (conj H5 Hle)). }
  destruct (proj1 Hck eq_refl) as [H5 Hle]. rewrite i32_as_usize_nonneg by (lia || done).
  destruct (read_doc_spec buf v off se "OP_MSG kind-1 inner" Hb Hv) as [Hrr Hrd]; [lia..|].
  destruct (read_doc _ _ _ _) as [d|err| |]; simpl in Hrr; try done; cbn [mbind outcome_bind].
  - destruct (proj1 (Hrd d) eq_refl) as [Ed Hd].
    destruct (IH (off + v) (docs ++ [d])) as [IHr IHo]; [lia|lia|]. split; [done|].
    intros r. rewrite IHo. split; intros (ds & -> & Hds & E).
    + exists (d :: ds). rewrite <- app_assoc. split; [done|]. split; [by constructor|]. simpl.
      rewrite (sub_split buf off (off + v) se) by lia. by rewrite <- Ed, E.
    + destruct (Hne ds Hds E) as (d' & ds' & -> & Hd' & Hds').
      apply concat_docs_cons in E as (E1 & _ & _ & E2 & E3); [|lia|lia|done].
      rewrite <- Ev in E1. rewrite <- E1 in E2, E3. exists ds'. rewrite <- app_assoc.
      split; [by rewrite E2, <- Ed|]. done.
  - split; [done|]. intros r. split; [done|]. intros (ds & _ & Hds & E).
    destruct (Hne ds Hds E) as (d & ds' & -> & Hd & _).
    apply concat_docs_cons in E as (E1 & _ & _ & E2 & _); [|lia|lia|done].
    rewrite <- Ev in E1. rewrite <- E1 in E2. discriminate (proj2 (Hrd d) (conj E2 Hd)).
Qed.

(** ** Sections *)

Lemma field_le buf a v :
  all_bytes buf → 0 ≤ a → a + 4 ≤ blen buf → 0 ≤ v < 2 ^ 31 →
  signed 32 (le_val (sub buf a (a + 4))) = v ↔ sub buf a (a + 4) = le_bytes 4 v.
Proof.
  intros Hb Ha Hl Hv. split; [|intros ->; apply le_val4; unfold i32_ok; lia].
  intros <-. pose proof (le_val_sub4 buf a Hb Ha Hl) as Hu.
  assert (Hlen : length (sub buf a (a + 4)) = 4%nat).
  { pose proof (blen_sub buf a (a + 4) ltac:(lia) Hl) as H4. unfold blen in H4. lia. }
  rewrite <- (le_bytes_val (sub buf a (a + 4)) (sub_all_bytes _ _ _ Hb)) at 1.
  rewrite Hlen. f_equal. unfold signed, u32_ok in *. change (2 ^ (32 - 1)) with (2 ^ 31) in *.
  destruct (Z.ltb_spec (le_val (sub buf a (a + 4))) (2 ^ 31)); lia.
Qed.

Inductive section :=
  | Kind0 (d : bytes)
  | Kind1 (s : DocumentSequence).

(** A kind-1 section's own length: it counts its four length bytes. *)
Definition kind1_len (s : DocumentSequence) : Z :=
  4 + blen (identifier s) + 1 + blen (concat (documents s)).

Definition kind1_bytes (s : DocumentSequence) : bytes :=
  le_bytes 4 (kind1_len s) ++ identifier s ++ 0 :: concat (documents s).

Definition section_bytes (s : section) : bytes :=
  match s with Kind0 d => 0 :: d | Kind1 s => 1 :: kind1_bytes s end.

Definition wf_seq (s : DocumentSequence) : Prop :=
  is_utf8 (identifier s) = true ∧ Forall (λ b, (b =? 0) = false) (identifier s) ∧
  Forall wf_doc (documents s) ∧ kind1_len s < 2 ^ 31.

Definition wf_section (s : section) : Prop :=
  match s with Kind0 d => wf_doc d | Kind1 s => wf_seq s end.

Lemma blen_cons b l : blen (b :: l) = 1 + blen l.
Proof. unfold blen. simpl. lia. Qed.

Lemma blen_le_bytes n z : blen (le_bytes n z) = Z.of_nat n.
Proof. unfold blen. by rewrite length_le_bytes. Qed.

Lemma blen_kind1 s : blen (kind1_bytes s) = kind1_len s.
Proof.
  unfold kind1_bytes, kind1_len. rewrite !blen_app, blen_cons, blen_le_bytes. lia.
Qed.

(** The identifier scan. *)
Lemma memchr0_spec buf a e :
  0 ≤ a ≤ e → e ≤ blen buf →
  match position (λ b, b =? 0) (sub buf a e) with
  | Some i => ∃ l1 l2, @memchr0 WireError buf a e = Ok (Some (a + i)) ∧ sub buf a e = l1 ++ 0 :: l2 ∧
                blen l1 = i ∧ Forall (λ b, (b =? 0) = false) l1 ∧
                slice (E := WireError) buf a (a + i) = Ok l1 ∧ a + i + 1 ≤ e ∧
                sub buf (a + i + 1) e = l2
  | None => @memchr0 WireError buf a e = Ok None ∧ Forall (λ b, (b =? 0) = false) (sub buf a e)
  end.
Proof.
  intros Ha He. unfold memchr0. rewrite slice_sub by done. simpl.
  pose proof (position_spec (λ b, b =? 0) (sub buf a e)) as Hp.
  destruct (position _ _) as [i|]; [|done].
  destruct Hp as (l1 & x & l2 & E & Hi & Hx & Hl). apply Z.eqb_eq in Hx as ->.
  apply sub_app_inv in E as E'; [|done..]. destruct E' as (H1 & H2 & H3).
  change (0 :: l2) with ([0] ++ l2) in H3.
  pose proof (blen_nonneg l1).
  apply sub_app_inv in H3 as (H4 & H5 & H6); [|lia..]. rewrite Hi in *.
  change (blen [0]) with 1 in *.
  exists l1, l2. rewrite slice_sub by lia. rewrite H2. by split_and!.
Qed.

(** Section [s] lies at [off], within [e]. *)
Definition kind1_at (buf : bytes) (e off : Z) (s : DocumentSequence) : Prop :=
  wf_seq s ∧ off + kind1_len s ≤ e ∧ sub buf off (off + kind1_len s) = kind1_bytes s.

Lemma kind1_len_ge s : 5 ≤ kind1_len s.
Proof.
  unfold kind1_len. pose proof (blen_nonneg (identifier s)).
  pose proof (blen_nonneg (concat (documents s))). lia.
Qed.

Section kind1.
Context (buf : bytes) (e off : Z).
Context (Hb : all_bytes buf) (Hoff : 0 ≤ off ≤ e) (He : e ≤ blen buf).

(** Its length field, and what follows it. *)
Lemma kind1_at_field s :
  kind1_at buf e off s →
  signed 32 (le_val (sub buf off (off + 4))) = kind1_len s ∧
  sub buf (off + 4) (off + kind1_len s) = identifier s ++ 0 :: concat (documents s).
Proof.
  intros ((_ & _ & _ & Hlt) & Hle & E). pose proof (kind1_len_ge s).
  apply sub_app_inv in E as (_ & E1 & E2); [|lia..]. rewrite blen_le_bytes in *.
  change (Z.of_nat 4) with 4 in *. split; [|done]. apply (field_le buf off); [done|lia..|done].
Qed.

Context (v : Z) (Hv : 0 ≤ v < 2 ^ 31) (Hlong : off + 4 ≤ off + v) (Hve : off + v ≤ e).
Context (Ev : v = signed 32 (le_val (sub buf off (off + 4)))).
Context (l1 l2 : bytes) (i : Z).
Context (Epos : position (λ b, b =? 0) (sub buf (off + 4) (off + v)) = Some i).
Context (Es : sub buf (off + 4) (off + v) = l1 ++ 0 :: l2) (Hi : blen l1 = i).

Lemma kind1_at_parts s :
  kind1_at buf e off s → v = kind1_len s ∧ identifier s = l1 ∧ concat (documents s) = l2.
Proof.
  intros Hs. destruct (kind1_at_field s Hs) as [E1 E2].
  assert (v = kind1_len s) as Hvs by congruence. rewrite <- Hvs in E2. split; [done|].
  rewrite E2 in Epos, Es. rewrite position_app in Epos by (done || apply Hs).
  injection Epos as Epos'. apply app_inj_1 in Es as [-> [= ->]]; [done|].
  unfold blen in *. lia.
Qed.

Lemma kind1_at_intro ds :
  is_utf8 l1 = true → Forall (λ b, (b =? 0) = false) l1 → Forall wf_doc ds → concat ds = l2 →
  kind1_len (mkSeq l1 ds) = v ∧ kind1_at buf e off (mkSeq l1 ds).
Proof.
  intros Hu Hz Hds El.
  assert (Hk : kind1_len (mkSeq l1 ds) = v).
  { unfold kind1_len. simpl. rewrite El.
    pose proof (blen_sub buf (off + 4) (off + v) ltac:(lia) ltac:(lia)) as Hl.
    rewrite Es, blen_app, blen_cons in Hl. lia. }
  split; [done|]. unfold kind1_at. rewrite Hk. split; [|split; [done|]].
  - split_and!; try done. lia.
  - unfold kind1_bytes. rewrite Hk. cbn [identifier documents]. rewrite El, <- Es.
    rewrite (sub_split buf off (off + 4)) by lia. f_equal. apply field_le; [done|lia..|done].
Qed.
End kind1.

Lemma parse_kind1_spec fuel buf e off :
  all_bytes buf → 0 ≤ off ≤ e → e ≤ blen buf → (Z.to_nat (e - off) < fuel)%nat →
  returns (parse_kind1 fuel buf e off) ∧
  ∀ r, parse_kind1 fuel buf e off = Ok r ↔
    ∃ s, r = (s, off + kind1_len s) ∧ kind1_at buf e off s.
Proof.
  intros Hb Hoff He Hf. unfold parse_kind1.
  destruct (Z.ltb_spec e (off + 4)) as [?|Hlong].
  { split; [done|]. intros r. split; [done|]. intros (s & _ & _ & Hle & _).
    pose proof (kind1_len_ge s). lia. }
  destruct (@rd_i32_ok WireError buf off Hb) as (v & -> & Hv & Ev); [lia..|]. cbn [mbind outcome_bind].
  unfold i32_ok in Hv.
  destruct ((v <? 4) || (e <? off + i32_as_usize v)) eqn:Eg.
  { split; [done|]. intros r. split; [done|]. intros (s & -> & Hs).
    destruct (kind1_at_field buf e off Hb Hoff He s Hs) as [Hvs _]. pose proof (kind1_len_ge s).
    destruct Hs as (_ & Hle & _).
    apply orb_true_iff in Eg as [Eg%Z.ltb_lt|Eg%Z.ltb_lt]; [lia|].
    rewrite i32_as_usize_nonneg in Eg by (lia || done). lia. }
  apply orb_false_iff in Eg as [Eg1%Z.ltb_ge Eg2%Z.ltb_ge].
  rewrite i32_as_usize_nonneg in * by (lia || done).
  pose proof (memchr0_spec buf (off + 4) (off + v)) as Hm.
  destruct (position _ _) as [i|] eqn:Epos; cycle 1.
  { destruct Hm as [-> Hz]; [lia..|]. cbn [mbind outcome_bind ok_or]. split; [done|]. intros r.
    split; [done|]. intros (s & _ & Hs). destruct (kind1_at_field buf e off Hb Hoff He s Hs) as [E1 E2].
    assert (v = kind1_len s) as -> by congruence.
    rewrite E2 in Epos. by rewrite position_app in Epos by (done || apply Hs). }
  destruct Hm as (l1 & l2 & Em & Es & Hi & Hz & Esl & Hend & Er); [lia..|].
  rewrite Em. cbn [mbind outcome_bind ok_or]. rewrite Esl. cbn [mbind outcome_bind].
  pose proof (kind1_at_parts buf e off Hb Hoff He v Ev l1 l2 i Epos Es Hi) as Hparts.
  pose proof (kind1_at_intro buf e off Hb Hoff He v ltac:(lia) ltac:(lia) Eg2 Ev l1 l2 Es) as Hintro.
  pose proof (blen_nonneg l1).
  destruct (is_utf8 l1) eqn:Eu; simpl; cycle 1.
  { split; [done|]. intros r. split; [done|]. intros (s & _ & Hs).
    destruct (Hparts s Hs) as (_ & El & _). destruct Hs as [(Hu & _) _]. congruence. }
  destruct (parse_docs_spec buf (off + v) Hb ltac:(lia) fuel (off + 4 + i + 1) []) as [Hr Ho]; [lia..|].
  rewrite Er in Ho.
  destruct (parse_docs _ _ _ _ _) as [[docs o]|err| |]; simpl in Hr; try done;
    cbn [mbind outcome_bind]; (split; [done|]); intros r.
  - destruct (proj1 (Ho _) eq_refl) as (ds & [= -> ->] & Hds & El).
    destruct (Hintro ds eq_refl Hz Hds (eq_sym El)) as (Hk & Hs). split.
    + intros [= <-]. exists (mkSeq l1 ds). by rewrite Hk.
    + intros ([l1' ds'] & -> & Hs'). destruct (Hparts _ Hs') as (Hv' & E1 & E2).
      simpl in E1, E2. rewrite <- Hv'. subst l1'. destruct Hs' as [(_ & _ & Hds' & _) _].
      injection (proj2 (Ho ([] ++ ds', off + v)) ltac:(by exists ds')) as ->. done.
  - split; [done|]. intros (s & -> & Hs). destruct (Hparts s Hs) as (_ & _ & E2).
    destruct Hs as [(_ & _ & Hds & _) _].
    discriminate (proj2 (Ho ([] ++ documents s, off + v)) ltac:(by exists (documents s))).
Qed.

Lemma parse_kind0_spec buf e off have :
  all_bytes buf → 0 ≤ off ≤ e → e ≤ blen buf →
  returns (parse_kind0 buf e off have) ∧
  ∀ r, parse_kind0 buf e off have = Ok r ↔
    have = false ∧ ∃ d, r = (d, off + blen d) ∧ wf_doc d ∧ off + blen d ≤ e ∧
      sub buf off (off + blen d) = d.
Proof.
  intros Hb Hoff He. unfold parse_kind0.
  destruct (Z.ltb_spec e (off + 4)) as [?|Hlong].
  { split; [done|]. intros r. split; [done|]. intros (_ & d & _ & (_ & ? & _) & ? & _). lia. }
  destruct (@rd_i32_ok WireError buf off Hb) as (v & -> & Hv & Ev); [lia..|]. cbn [mbind outcome_bind].
  assert (Hfield : ∀ d, wf_doc d → off + blen d ≤ e → sub buf off (off + blen d) = d →
            v = blen d ∧ 5 ≤ v ∧ off + v ≤ e).
  { intros d Hd Hle E. destruct (wf_doc_field buf off d) as [E1 H5]; [lia..|done|done|]. lia. }
  pose proof (check_doc_len_returns v off e "OP_MSG kind-0") as Hcr.
  pose proof (check_doc_len_Ok v off e "OP_MSG kind-0" Hv) as Hck.
  destruct (check_doc_len _ _ _ _) as [[]|err| |]; simpl in Hcr; try done; cbn [mbind outcome_bind]; cycle 1.
  { split; [done|]. intros r. split; [done|]. intros (_ & d & _ & Hd & Hle & E).
    destruct (Hfield d Hd Hle E) as (_ & H5). discriminate (proj2 Hck H5). }
  destruct (proj1 Hck eq_refl) as [H5 Hle]. destruct have.
  { split; [done|]. intros r. split; [done|]. by intros [? _]. }
  destruct (read_doc_spec buf v off e "OP_MSG kind-0" Hb Hv) as [Hrr Hrd]; [lia..|].
  rewrite i32_as_usize_nonneg by (lia || done).
  destruct (read_doc _ _ _ _) as [d|err| |]; simpl in Hrr; try done; cbn [mbind outcome_bind];
    (split; [done|]); intros r.
  - destruct (proj1 (Hrd d) eq_refl) as [Ed Hd].
    assert (Hbl : blen d = v) by (rewrite Ed, blen_sub; lia). split.
    + intros [= <-]. split; [done|]. exists d. rewrite Hbl. by split_and!.
    + intros (_ & d' & -> & Hd' & Hle' & E). destruct (Hfield d' Hd' Hle' E) as (Hv' & _).
      rewrite <- Hv' in *. by rewrite Ed, E.
  - split; [done|]. intros (_ & d & -> & Hd & Hle' & E).
    destruct (Hfield d Hd Hle' E) as (Hv' & _). rewrite <- Hv' in E.
    discriminate (proj2 (Hrd d) (conj (eq_sym E) Hd)).
Qed.

(** The bodies and the sequences of a list of sections. *)
Definition sec_bodies (secs : list section) : list bytes :=
  flat_map (λ s, match s with Kind0 d => [d] | Kind1 _ => [] end) secs.
Definition sec_seqs (secs : list section) : list DocumentSequence :=
  flat_map (λ s, match s with Kind0 _ => [] | Kind1 s => [s] end) secs.
Definition secs_bytes (secs : list section) : bytes := concat (map section_bytes secs).

Lemma secs_bytes_nonempty buf off e secs :
  0 ≤ off < e → e ≤ blen buf → sub buf off e = secs_bytes secs →
  ∃ s secs', secs = s :: secs'.
Proof.
  intros Ho He E. destruct secs as [|s secs]; [|eauto].
  pose proof (blen_sub buf off e ltac:(lia) He) as Hl. rewrite E in Hl. unfold blen in Hl.
  simpl in Hl. lia.
Qed.

Definition opt_list (o : option bytes) : list bytes := match o with Some d => [d] | None => [] end.

(** What [parse_sections] accepts from [off] to [e], starting with body [b]. *)
Definition sections_at (buf : bytes) (e off : Z) (b : option bytes) (seqs : list DocumentSequence)
    (r : option bytes * list DocumentSequence) : Prop :=
  ∃ secs, Forall wf_section secs ∧ sub buf off e = secs_bytes secs ∧
    opt_list r.1 = opt_list b ++ sec_bodies secs ∧ r.2 = seqs ++ sec_seqs secs.

Lemma sections_at_end buf e b seqs r :
  sections_at buf e e b seqs r ↔ r = (b, seqs).
Proof.
  unfold sections_at. rewrite sub_nil by lia. split.
  - intros (secs & Hw & E & H1 & H2). destruct secs as [|s secs].
    + simpl in *. rewrite app_nil_r in *. destruct r as [[]]; destruct b; naive_solver.
    + exfalso. destruct s; done.
  - intros ->. exists []. simpl. by rewrite !app_nil_r.
Qed.

(** One section peeled off the front. *)
Lemma sections_at_cons buf e off b seqs r k :
  0 ≤ off < e → e ≤ blen buf → sub buf off (off + 1) = [k] →
  sections_at buf e off b seqs r ↔
    (k = 0 ∧ b = None ∧ ∃ d, wf_doc d ∧ off + 1 + blen d ≤ e ∧
       sub buf (off + 1) (off + 1 + blen d) = d ∧
       sections_at buf e (off + 1 + blen d) (Some d) seqs r) ∨
    (k = 1 ∧ ∃ s, kind1_at buf e (off + 1) s ∧
       sections_at buf e (off + 1 + kind1_len s) b (seqs ++ [s]) r).
Proof.
  intros Ho He Hk. split.
  - intros (secs & Hw & E & H1 & H2).
    destruct (secs_bytes_nonempty _ _ _ _ Ho He E) as (s & secs' & ->).
    inversion Hw as [|? ? Hs Hw']; subst. destruct s as [d|s].
    + change (secs_bytes (Kind0 d :: secs')) with ([0] ++ d ++ secs_bytes secs') in E.
      apply sub_app_inv in E as (_ & E1 & E2); [|lia..]. change (blen [0]) with 1 in *.
      apply sub_app_inv in E2 as (Hle & E2 & E3); [|lia..]. left.
      split; [congruence|]. split; [by destruct b, r as [[]]|]. exists d. split_and!; [done..|].
      exists secs'. split_and!; try done. by destruct b, r as [[]].
    + change (secs_bytes (Kind1 s :: secs')) with ([1] ++ kind1_bytes s ++ secs_bytes secs') in E.
      apply sub_app_inv in E as (_ & E1 & E2); [|lia..]. change (blen [1]) with 1 in *.
      apply sub_app_inv in E2 as (Hle & E2 & E3); [|lia..]. rewrite blen_kind1 in *. right.
      split; [congruence|]. exists s. split; [done|].
      exists secs'. split_and!; try done. by rewrite <- app_assoc.
  - intros [(-> & -> & d & Hd & Hle & E & secs & Hw & E' & H1 & H2)
           |(-> & s & (Hs & Hle & E) & secs & Hw & E' & H1 & H2)].
    + exists (Kind0 d :: secs). split; [by constructor|]. pose proof (blen_nonneg d). split.
      * change (secs_bytes (Kind0 d :: secs)) with ([0] ++ d ++ secs_bytes secs).
        rewrite (sub_split buf off (off + 1)), (sub_split buf (off + 1) (off + 1 + blen d)) by lia.
        by rewrite Hk, E, E'.
      * by destruct r as [[]].
    + exists (Kind1 s :: secs). split; [by constructor|]. pose proof (kind1_len_ge s). split.
      * change (secs_bytes (Kind1 s :: secs)) with ([1] ++ kind1_bytes s ++ secs_bytes secs).
        rewrite (sub_split buf off (off + 1)), (sub_split buf (off + 1) (off + 1 + kind1_len s)) by lia.
        by rewrite Hk, E, E'.
      * split; [done|]. rewrite H2, <- app_assoc. done.
Qed.

Lemma parse_sections_spec buf e :
  all_bytes buf → e ≤ blen buf → ∀ fuel off b seqs,
  0 ≤ off → (Z.to_nat (e - off) < fuel)%nat → off ≤ e →
  returns (parse_sections fuel buf e off b seqs) ∧
  ∀ r, parse_sections fuel buf e off b seqs = Ok r ↔ sections_at buf e off b seqs r.
Proof.
  intros Hb He. induction fuel as [|fuel IH]; intros off b seqs Hoff Hf Hle; [lia|].
  cbn [parse_sections]. destruct (Z.ltb_spec off e) as [Hlt|Hge]; cycle 1.
  { assert (off = e) as -> by lia. split; [done|]. intros r. rewrite sections_at_end.
    split; [by intros [= <-]|by intros ->]. }
  destruct (@index_sub WireError buf off) as (k & Ek & Hk); [lia|]. rewrite Ek.
  cbn [mbind outcome_bind].
  pose proof (sections_at_cons buf e off b seqs) as Hcons.
  destruct (Z.eqb_spec k 0) as [->|Hk0]; [|destruct (Z.eqb_spec k 1) as [->|Hk1]].
  - destruct (parse_kind0_spec buf e (off + 1) (bool_decide (is_Some b)) Hb) as [Hr Ho]; [lia..|].
    destruct (parse_kind0 _ _ _ _) as [[d o]|err| |]; simpl in Hr; try done; cbn [mbind outcome_bind].
    + destruct (proj1 (Ho _) eq_refl) as (Hn & d' & [= <- ->] & Hd & Hde & E).
      pose proof (blen_nonneg d).
      destruct (IH (off + 1 + blen d) (Some d) seqs) as [IHr IHo]; [lia..|]. split; [done|].
      intros r. rewrite IHo, (Hcons r 0) by (done || lia). split.
      * intros Hs. left. split; [done|]. split; [by destruct b|]. eauto.
      * intros [(_ & _ & d' & Hd' & Hde' & E' & Hs)|(? & _)]; [|done].
        assert (Ho' := proj2 (Ho (d', off + 1 + blen d'))).
        injection (Ho' ltac:(split; [done|eauto])) as ->. done.
    + split; [done|]. intros r. rewrite (Hcons r 0) by (done || lia). split; [done|].
      intros [(_ & -> & d & Hd & Hde & E & _)|(? & _)]; [|done].
      discriminate (proj2 (Ho (d, off + 1 + blen d)) ltac:(split; [done|eauto])).
  - destruct (parse_kind1_spec fuel buf e (off + 1) Hb) as [Hr Ho]; [lia..|].
    destruct (parse_kind1 _ _ _ _) as [[s o]|err| |]; simpl in Hr; try done; cbn [mbind outcome_bind].
    + destruct (proj1 (Ho _) eq_refl) as (s' & [= <- ->] & Hs). pose proof (kind1_len_ge s).
      destruct Hs as (Hs1 & Hs2 & Hs3).
      destruct (IH (off + 1 + kind1_len s) b (seqs ++ [s])) as [IHr IHo]; [lia..|]. split; [done|].
      intros r. rewrite IHo, (Hcons r 1) by (done || lia). split.
      * intros Hs'. right. split; [done|]. exists s. split; [exact (conj Hs1 (conj Hs2 Hs3))|done].
      * intros [(? & _)|(_ & s' & Hs' & Hs'')]; [done|].
        injection (proj2 (Ho (s', off + 1 + kind1_len s')) ltac:(eauto)) as ->. done.
    + split; [done|]. intros r. rewrite (Hcons r 1) by (done || lia). split; [done|].
      intros [(? & _)|(_ & s & Hs & _)]; [done|].
      discriminate (proj2 (Ho (s, off + 1 + kind1_len s)) ltac:(eauto)).
  - split; [done|]. intros r. rewrite (Hcons r k) by (done || lia). split; [done|].
    by intros [(-> & _)|(-> & _)].
Qed.

(** ** Messages *)

Definition checksum_flag (fl : Z) : bool := negb (Z.land fl OP_MSG_FLAG_CHECKSUM_PRESENT =? 0).

(** An [OP_MSG] body: the flags word, the sections, and four trailing checksum
    bytes when the flags say so; exactly one section is a kind-0 body. *)
Definition op_msg_grammar (buf : bytes) (m : OpMsg) : Prop :=
  ∃ secs cks, buf = le_bytes 4 (flags m) ++ secs_bytes secs ++ cks ∧
    u32_ok (flags m) ∧ Forall wf_section secs ∧
    blen cks = (if checksum_flag (flags m) then 4 else 0) ∧
    sec_bodies secs = [body m] ∧ sec_seqs secs = document_sequences m.

Lemma parse_op_msg_returns buf : all_bytes buf → returns (parse_op_msg buf).
Proof.
  intros Hb. unfold parse_op_msg. destruct (Z.ltb_spec (blen buf) 4) as [?|Hl]; [done|].
  rewrite rd_u32_sub by lia. cbn [mbind outcome_bind]. unfold usize_sub.
  set (fl := le_val _). fold (checksum_flag fl).
  set (e := if checksum_flag fl then blen buf - 4 else blen buf).
  replace (if checksum_flag fl then _ else _) with (@Ok WireError Z e); cycle 1.
  { unfold e. destruct (checksum_flag fl); [|done].
    destruct (Z.ltb_spec (blen buf) 4); [lia|done]. }
  cbn [mbind outcome_bind].
  assert (Hret : returns (parse_sections (S (length buf)) buf e 4 None [])).
  { destruct (Z.leb_spec 4 e).
    - apply parse_sections_spec; try done; unfold e, blen in *; destruct (checksum_flag fl); lia.
    - simpl. destruct (Z.ltb_spec 4 e); [lia|done]. }
  destruct (parse_sections _ _ _ _ _ _) as [[[b|] sq]|err| |]; done.
Qed.

Lemma parse_op_msg_sections buf m :
  all_bytes buf →
  parse_op_msg buf = Ok m ↔
    4 ≤ blen buf ∧ flags m = le_val (sub buf 0 4) ∧
    let e := if checksum_flag (flags m) then blen buf - 4 else blen buf in
    4 ≤ e ∧ sections_at buf e 4 None [] (Some (body m), document_sequences m).
Proof.
  intros Hb. unfold parse_op_msg. destruct (Z.ltb_spec (blen buf) 4) as [?|Hl].
  { split; [done|lia]. }
  rewrite rd_u32_sub by lia. cbn [mbind outcome_bind]. change (0 + 4) with 4.
  fold (checksum_flag (le_val (sub buf 0 4))).
  set (fl := le_val (sub buf 0 4)). unfold usize_sub.
  set (e := if checksum_flag fl then blen buf - 4 else blen buf).
  replace (if checksum_flag fl then _ else _) with (@Ok WireError Z e); cycle 1.
  { unfold e. destruct (checksum_flag fl); [|done].
    destruct (Z.ltb_spec (blen buf) 4); [lia|done]. }
  cbn [mbind outcome_bind].
  destruct (Z.leb_spec 4 e) as [He|He]; cycle 1.
  { cbn [parse_sections]. destruct (Z.ltb_spec 4 e); [lia|]. split; [done|].
    intros (_ & -> & Hx & _). fold fl e in Hx. lia. }
  destruct (parse_sections_spec buf e Hb) with (fuel := S (length buf)) (off := 4)
    (b := @None bytes) (seqs := @nil DocumentSequence) as [Hr Ho];
    [unfold e, blen in *; destruct (checksum_flag fl); lia..|].
  split.
  - intros H. apply bind_Ok in H as ([b sq] & Hps & H). destruct b as [b|]; [|done].
    injection H as <-. cbn [flags body document_sequences]. fold e.
    split_and!; try done. by apply Ho.
  - intros (_ & Hfl & Hx). destruct m as [f b sq]. cbn [flags body document_sequences] in *.
    subst f. fold fl e in Hx. destruct Hx as [_ Hs]. apply Ho in Hs. by rewrite Hs.
Qed.

Lemma le_bytes_sub4 buf a :
  all_bytes buf → 0 ≤ a → a + 4 ≤ blen buf →
  le_bytes 4 (le_val (sub buf a (a + 4))) = sub buf a (a + 4).
Proof.
  intros Hb Ha Hl. pose proof (blen_sub buf a (a + 4) ltac:(lia) Hl) as H4.
  rewrite <- (le_bytes_val (sub buf a (a + 4)) (sub_all_bytes _ _ _ Hb)) at 2.
  f_equal. unfold blen in H4. lia.
Qed.

Lemma parse_op_msg_iff buf m :
  all_bytes buf → parse_op_msg buf = Ok m ↔ op_msg_grammar buf m.
Proof.
  intros Hb. rewrite parse_op_msg_sections by done. unfold op_msg_grammar. split.
  - intros (Hl & Hfl & He & secs & Hw & E & H1 & H2). cbn [fst snd opt_list app] in *.
    set (e := if checksum_flag (flags m) then blen buf - 4 else blen buf) in *.
    assert (Hele : e ≤ blen buf) by (unfold e; destruct (checksum_flag _); lia).
    exists secs, (sub buf e (blen buf)). split_and!; try done.
    + rewrite Hfl. pose proof (le_bytes_sub4 buf 0 Hb ltac:(lia) ltac:(lia)) as H4.
      change (0 + 4) with 4 in H4. rewrite H4, <- E. rewrite <- sub_split, <- sub_split by lia.
      by rewrite sub_full.
    + rewrite Hfl. by apply (le_val_sub4 buf 0).
    + rewrite blen_sub by lia. unfold e. destruct (checksum_flag _); lia.
  - intros (secs & cks & E & Hu & Hw & Hc & H1 & H2).
    assert (Hl : blen buf = 4 + blen (secs_bytes secs) + blen cks).
    { rewrite E, !blen_app, blen_le_bytes. lia. }
    pose proof (blen_nonneg (secs_bytes secs)). pose proof (blen_nonneg cks).
    rewrite <- (sub_full buf) in E. apply sub_app_inv in E as (_ & E1 & E2); [|lia..].
    rewrite blen_le_bytes in *. change (0 + Z.of_nat 4) with 4 in *.
    apply sub_app_inv in E2 as (_ & E2 & _); [|lia..].
    split; [lia|]. split; [by rewrite E1, le_val4_u|].
    assert (Ee : (if checksum_flag (flags m) then blen buf - 4 else blen buf)
                 = 4 + blen (secs_bytes secs)) by (destruct (checksum_flag _); lia).
    rewrite Ee. split; [lia|]. exists secs. cbn [fst snd opt_list app]. by rewrite H1.
Qed.

(** ** The other parsers return too *)

Lemma memchr0_returns buf a e :
  0 ≤ a ≤ e → e ≤ blen buf → ∃ o, @memchr0 WireError buf a e = Ok o ∧
    ∀ i, o = Some i → a ≤ i ∧ i + 1 ≤ e.
Proof.
  intros Ha He. pose proof (memchr0_spec buf a e Ha He) as Hm.
  destruct (position _ _) as [i|].
  - destruct Hm as (l1 & l2 & -> & _ & Hi & _ & _ & Hle & _). eexists. split; [done|].
    intros ? [= <-]. pose proof (blen_nonneg l1). lia.
  - destruct Hm as [-> _]. eexists. split; [done|]. done.
Qed.

(** A length-prefixed document read after its bounds check. *)
Lemma doc_read_returns {A} buf off w (k : Z → bytes → result A) :
  all_bytes buf → 0 ≤ off → off + 4 ≤ blen buf →
  (∀ n d, 5 ≤ n → i32_as_usize n = n → off + n ≤ blen buf → returns (k n d)) →
  returns (n ← rd_i32 buf off; _ ← check_doc_len n off (blen buf) w;
           d ← read_doc buf n off w; k n d).
Proof.
  intros Hb Ho Hl Hk. destruct (@rd_i32_ok WireError buf off Hb) as (v & -> & Hv & _); [lia..|].
  cbn [mbind outcome_bind]. pose proof (check_doc_len_returns v off (blen buf) w) as Hcr.
  pose proof (check_doc_len_Ok v off (blen buf) w Hv) as Hck.
  destruct (check_doc_len _ _ _ _) as [[]|err| |]; try done. cbn [mbind outcome_bind].
  destruct (proj1 Hck eq_refl) as [H5 Hle].
  destruct (read_doc_spec buf v off (blen buf) w Hb Hv) as [Hrr _]; [lia..|].
  apply returns_bind; [done|]. intros d _. apply Hk; [done| |done].
  apply i32_as_usize_nonneg; [lia|done].
Qed.

Lemma parse_op_query_returns buf : all_bytes buf → returns (parse_op_query buf).
Proof.
  intros Hb. unfold parse_op_query. destruct (Z.ltb_spec (blen buf) 4) as [?|Hl]; [done|].
  rewrite rd_u32_sub by lia. cbn [mbind outcome_bind].
  destruct (memchr0_returns buf 4 (blen buf)) as (o & -> & Ho); [lia..|]. cbn [mbind outcome_bind].
  destruct o as [i|]; cbn [ok_or mbind outcome_bind]; [|done]. destruct (Ho i eq_refl).
  rewrite slice_sub by lia. cbn [mbind outcome_bind]. destruct (negb _); [done|].
  destruct (Z.ltb_spec (blen buf) (i + 1 + 8)); [done|].
  rewrite (rd_i32_sub buf (i + 1)) by lia. cbn [mbind outcome_bind].
  rewrite (rd_i32_sub buf (i + 1 + 4)) by lia. cbn [mbind outcome_bind].
  destruct (Z.ltb_spec (blen buf) (i + 1 + 4 + 4 + 4)); [done|].
  apply (doc_read_returns buf _ _ (λ n d, _ ← _; Ok _)); [done|lia..|]. intros n d H5 Hn Hle.
  apply returns_bind; [|done]. rewrite Hn. destruct (Z.ltb_spec (i + 1 + 4 + 4 + n) (blen buf)); [|done].
  destruct (Z.ltb_spec (blen buf) (i + 1 + 4 + 4 + n + 4)); [done|].
  by apply (doc_read_returns buf _ _ (λ n d, Ok (Some d))); try lia.
Qed.

Lemma parse_body_returns code buf : all_bytes buf → returns (parse_body code buf).
Proof.
  intros Hb. unfold parse_body.
  destruct (code =? OP_MSG); [apply returns_bind; [by apply parse_op_msg_returns|done]|].
  destruct (code =? OP_QUERY); [apply returns_bind; [by apply parse_op_query_returns|done]|].
  destruct (code =? OP_GET_MORE); [|repeat case_match; done].
  destruct (Z.ltb_spec (blen buf) 4); [done|].
  destruct (memchr0_returns buf 4 (blen buf)) as (o & -> & _); [lia..|]. by destruct o.
Qed.

(** ** Headers *)

Definition header_ok (h : Header) : Prop :=
  i32_ok (message_length h) ∧ i32_ok (request_id h) ∧ i32_ok (response_to h) ∧ i32_ok (op_code h).

Lemma blen_pack h : blen (pack h) = 16.
Proof. unfold pack. by rewrite !blen_app, !blen_le_bytes. Qed.

(** The bytes [d] between [pre] and [post]. *)
Lemma sub_at pre d post a b :
  a = blen pre → b = blen pre + blen d → sub (pre ++ d ++ post) a b = d.
Proof.
  intros -> ->. pose proof (slice_app (E := unit) pre d post _ _ eq_refl eq_refl) as Hs.
  pose proof (blen_nonneg pre). pose proof (blen_nonneg d). pose proof (blen_nonneg post).
  rewrite slice_sub in Hs by (rewrite ?blen_app; lia). congruence.
Qed.

Lemma rd_u32_at {E} pre v post a :
  u32_ok v → a = blen pre → @rd_u32 E (pre ++ le_bytes 4 v ++ post) a = Ok v.
Proof.
  intros Hv ->. pose proof (blen_nonneg pre). pose proof (blen_nonneg post).
  rewrite rd_u32_sub by (rewrite ?blen_app, ?blen_le_bytes; lia).
  rewrite sub_at by (rewrite ?blen_le_bytes; done). by rewrite le_val4_u.
Qed.

Lemma rd_i32_at {E} pre v post a :
  i32_ok v → a = blen pre → @rd_i32 E (pre ++ le_bytes 4 v ++ post) a = Ok v.
Proof.
  intros Hv ->. pose proof (blen_nonneg pre). pose proof (blen_nonneg post).
  rewrite rd_i32_sub by (rewrite ?blen_app, ?blen_le_bytes; lia).
  rewrite sub_at by (rewrite ?blen_le_bytes; done). by rewrite le_val4.
Qed.

Lemma unpack_pack_app h rest : header_ok h → unpack (pack h ++ rest) = Ok h.
Proof.
  intros (H1 & H2 & H3 & H4). unfold unpack. pose proof (blen_nonneg rest).
  destruct (Z.ltb_spec (blen (pack h ++ rest)) HEADER_SIZE) as [Hlt|_].
  { rewrite blen_app, blen_pack in Hlt. unfold HEADER_SIZE in Hlt. lia. }
  unfold pack. rewrite <- !app_assoc. destruct h as [a b c d]. cbn [message_length request_id response_to op_code] in *.
  rewrite (rd_i32_at [] a _ 0 H1 eq_refl : rd_i32 (le_bytes 4 a ++ _) 0 = _).
  cbn [mbind outcome_bind].
  rewrite (rd_i32_at (le_bytes 4 a) b _ 4) by (done || by rewrite blen_le_bytes). cbn [mbind outcome_bind].
  rewrite (app_assoc (le_bytes 4 a)).
  rewrite (rd_i32_at (le_bytes 4 a ++ le_bytes 4 b) c _ 8) by (done || by rewrite blen_app, !blen_le_bytes).
  cbn [mbind outcome_bind]. rewrite (app_assoc (le_bytes 4 a ++ _)).
  by rewrite (rd_i32_at ((le_bytes 4 a ++ le_bytes 4 b) ++ le_bytes 4 c) d _ 12)
    by (done || by rewrite !blen_app, !blen_le_bytes).
Qed.

(** ** The checksum *)

Lemma crc32c_table_u32 : Forall u32_ok crc32c_table.
Proof.
  apply Forall_forall. intros z Hz%list_elem_of_In.
  assert (Hall : forallb (λ z, (0 <=? z) && (z <? 2 ^ 32)) crc32c_table = true) by (vm_compute; reflexivity).
  rewrite forallb_forall in Hall. specialize (Hall z Hz). unfold u32_ok. lia.
Qed.

Lemma crc32c_update_u32 state data : u32_ok state → u32_ok (crc32c_update state data).
Proof.
  unfold crc32c_update. revert state. induction data as [|b data IH]; intros state Hs; [done|].
  cbn [foldl]. apply IH. apply lxor_bound; [lia| |apply shiftr_bound; [lia|exact Hs]].
  destruct (nth_in_or_default (Z.to_nat (Z.land (Z.lxor state b) 255)) crc32c_table 0) as [Hin| ->].
  - apply list_elem_of_In in Hin. by apply (proj1 (Forall_forall _ _) crc32c_table_u32).
  - lia.
Qed.

Lemma u32_not_u32 z : u32_ok z → u32_ok (u32_not z).
Proof. intros Hz. apply lxor_bound; [lia|exact Hz|lia]. Qed.

Lemma crc32c_app state l1 l2 :
  crc32c state (l1 ++ l2) = crc32c (crc32c_update state l1) l2.
Proof. unfold crc32c, crc32c_update. by rewrite foldl_app. Qed.

Lemma write_at_app pre d d' post a :
  a = blen pre → length d' = length d → write_at (pre ++ d ++ post) a d' = pre ++ d' ++ post.
Proof.
  intros -> Hl. unfold write_at, blen. rewrite Nat2Z.id, take_app_length, Hl.
  f_equal. f_equal. rewrite <- drop_drop, drop_app_length. apply drop_app_length.
Qed.

Lemma as_i32_small z : 0 ≤ z < 2 ^ 31 → as_i32 z = z.
Proof. intros Hz. unfold as_i32. apply (signed_wrap 32); lia. Qed.

(** The bits of the required half other than the two known ones. *)
Definition unknown_required (fl : Z) : Z :=
  Z.land (Z.land fl OP_MSG_REQUIRED_FLAG_BITS)
    (u32_not (Z.lor OP_MSG_FLAG_CHECKSUM_PRESENT OP_MSG_FLAG_MORE_TO_COME)).

Lemma unknown_required_lor fl : unknown_required (Z.lor fl 1) = unknown_required fl.
Proof.
  unfold unknown_required. rewrite !Z.land_lor_distr_l.
  replace (Z.land (Z.land 1 _) _) with 0 by (vm_compute; reflexivity). apply Z.lor_0_r.
Qed.

Lemma checksum_flag_lor fl : checksum_flag (Z.lor fl 1) = true.
Proof.
  unfold checksum_flag, OP_MSG_FLAG_CHECKSUM_PRESENT. apply negb_true_iff, Z.eqb_neq.
  intros E. apply (f_equal (λ z, Z.testbit z 0)) in E.
  rewrite Z.land_spec, Z.lor_spec, Z.testbit_0_l, orb_true_r in E. done.
Qed.

(** What [with_op_msg_checksum] makes of a frame laid out by its fields. *)
Lemma with_checksum_layout h fl rest :
  header_ok h → op_code h = OP_MSG → u32_ok fl → blen rest + 24 < 2 ^ 31 →
  let h' := mkHeader (blen rest + 24) (request_id h) (response_to h) OP_MSG in
  let out := pack h' ++ le_bytes 4 (Z.lor fl 1) ++ rest in
  with_op_msg_checksum (pack h ++ le_bytes 4 fl ++ rest) =
    Ok (out ++ le_bytes 4 (crc32c (u32_not 0) out)).
Proof.
  intros Hh Hop Hfl Hlen h' out. pose proof (blen_nonneg rest). destruct Hh as (_ & _ & _ & H4).
  unfold with_op_msg_checksum.
  assert (Hbl : blen (pack h ++ le_bytes 4 fl ++ rest) = blen rest + 20).
  { rewrite !blen_app, blen_pack, blen_le_bytes. lia. }
  destruct (Z.ltb_spec (blen (pack h ++ le_bytes 4 fl ++ rest)) (HEADER_SIZE + 4)) as [Hlt|_].
  { unfold HEADER_SIZE in Hlt. lia. }
  assert (Ecode : rd_i32 (E := WireError) (pack h ++ le_bytes 4 fl ++ rest) 12 = Ok OP_MSG).
  { unfold pack. rewrite <- !app_assoc. rewrite (app_assoc (le_bytes 4 _)), (app_assoc (_ ++ _)).
    rewrite (rd_i32_at _ (op_code h)) by (done || by rewrite !blen_app, !blen_le_bytes). by rewrite Hop. }
  rewrite Ecode. cbn [mbind outcome_bind]. change (OP_MSG =? OP_MSG) with true. cbn [negb].
  rewrite Hbl, as_i32_small by lia. replace (blen rest + 20 + 4) with (blen rest + 24) by lia.
  assert (E1 : write_at (pack h ++ le_bytes 4 fl ++ rest) 0 (le_bytes 4 (blen rest + 24))
               = pack h' ++ le_bytes 4 fl ++ rest).
  { unfold pack at 1. rewrite <- !app_assoc.
    etrans; [apply (write_at_app [] (le_bytes 4 (message_length h))); [done|by rewrite !length_le_bytes]|].
    unfold pack, h'. cbn [message_length request_id response_to op_code]. rewrite Hop.
    by rewrite <- !app_assoc. }
  rewrite E1, (rd_u32_at (pack h')) by (done || by rewrite blen_pack).
  cbn [mbind outcome_bind].
  rewrite write_at_app by (by rewrite ?blen_pack, ?length_le_bytes). done.
Qed.

Lemma frame_problem_layout h fl mid sum :
  header_ok h → u32_ok fl → u32_ok sum → unknown_required fl = 0 → checksum_flag fl = true →
  message_length h = blen mid + 24 → 
  op_msg_frame_problem h (le_bytes 4 fl ++ mid ++ le_bytes 4 sum) =
    Ok (if bool_decide (crc32c (u32_not 0) (pack h ++ le_bytes 4 fl ++ mid) ≠ sum)
        then Some "OP_MSG checksum does not match" else None).
Proof.
  intros Hh Hfl Hsum Hun Hck Hml. unfold op_msg_frame_problem. pose proof (blen_nonneg mid).
  set (buf := le_bytes 4 fl ++ mid ++ le_bytes 4 sum).
  assert (Hbl : blen buf = blen mid + 8).
  { unfold buf. rewrite !blen_app, !blen_le_bytes. lia. }
  destruct (Z.ltb_spec (blen buf) 4); [lia|].
  rewrite (rd_u32_at [] fl _ 0 Hfl eq_refl : rd_u32 buf 0 = _). cbn [mbind outcome_bind].
  fold (unknown_required fl). rewrite Hun. cbn [Z.eqb negb].
  fold (checksum_flag fl). rewrite Hck. destruct (Z.ltb_spec (blen buf) 8); [lia|].
  rewrite (slice_sub buf 0) by lia. cbn [mbind outcome_bind].
  rewrite (slice_sub buf (blen buf - 4)) by lia. cbn [mbind outcome_bind].
  assert (Ec : sub buf 0 (blen buf - 4) = le_bytes 4 fl ++ mid).
  { unfold buf at 1. rewrite app_assoc. apply (sub_at [] (le_bytes 4 fl ++ mid)); [done|].
    rewrite Hbl, blen_app, blen_le_bytes. unfold blen at 2. simpl. lia. }
  assert (Et : sub buf (blen buf - 4) (blen buf) = le_bytes 4 sum).
  { unfold buf at 1. rewrite app_assoc. rewrite <- (app_nil_r (le_bytes 4 sum)) at 1.
    apply sub_at; rewrite Hbl, blen_app, ?blen_le_bytes; lia. }
  rewrite Ec, Et.
  rewrite <- (app_nil_r (le_bytes 4 sum)).
  rewrite (rd_u32_at [] sum [] 0 Hsum eq_refl : rd_u32 (le_bytes 4 sum ++ []) 0 = _).
  cbn [mbind outcome_bind]. rewrite <- crc32c_app.
  replace (as_i32 (HEADER_SIZE + blen buf)) with (message_length h); cycle 1.
  { rewrite as_i32_small; unfold HEADER_SIZE; [lia|]. destruct Hh as [Hh _]. unfold i32_ok in Hh. lia. }
  fold (pack h). by case_bool_decide.
Qed.

(** ** Properties *)

(** C7. [parse_op_msg] on any bytes returns (no index or slice out of range,
    no endless loop), and accepts exactly the [OP_MSG] grammar: a flags word,
    kind-0 and kind-1 sections filling the rest up to the announced checksum,
    exactly one kind-0 section; the body and the sequences it reports are those
    of the sections, in order. *)
Theorem parse_op_msg_exact buf :
  all_bytes buf →
  returns (parse_op_msg buf) ∧ ∀ m, parse_op_msg buf = Ok m ↔ op_msg_grammar buf m.
Proof. intros Hb. split; [by apply parse_op_msg_returns|]. intros m. by apply parse_op_msg_iff. Qed.

(** A message with one document sequence, and a frame cut short. *)
Definition sample_msg : bytes :=
  [0; 0; 0; 0] ++ [0; 5; 0; 0; 0; 0] ++ [1; 16; 0; 0; 0; 100; 0; 5; 0; 0; 0; 0; 5; 0; 0; 0; 0].

Lemma parse_op_msg_exact_witness :
  all_bytes sample_msg ∧
  op_msg_grammar sample_msg (mkOpMsg 0 [5; 0; 0; 0; 0] [mkSeq [100] [[5; 0; 0; 0; 0]; [5; 0; 0; 0; 0]]]).
Proof.
  assert (Hb : all_bytes sample_msg).
  { unfold sample_msg. repeat (constructor; [unfold is_byte; lia|]). constructor. }
  split; [exact Hb|]. apply (parse_op_msg_exact sample_msg Hb). vm_compute. reflexivity.
Defined.

(** For every opcode and every body the parser answers with a request or
    with a classified error: no panic and no divergence on hostile input. *)
Theorem parse_body_total code buf :
  all_bytes buf → (∃ o, parse_body code buf = Ok o) ∨ (∃ e, parse_body code buf = Err e).
Proof.
  intros Hb. pose proof (parse_body_returns code buf Hb) as Hr.
  destruct (parse_body code buf); naive_solver.
Qed.

Lemma parse_body_total_witness :
  (∃ o, parse_body OP_QUERY [0; 0; 0; 0; 97] = Ok o) ∨
  (∃ e, parse_body OP_QUERY [0; 0; 0; 0; 97] = Err e).
Proof.
  apply (parse_body_total OP_QUERY [0; 0; 0; 0; 97]).
  repeat (constructor; [unfold is_byte; lia|]). constructor.
Defined.

(** C34. The length check of a header lets every negative length through: the
    sign-extending cast makes it a [usize] near 2^64, above the floor, and the
    ceiling is compared as [i32]. Otherwise it accepts exactly the lengths from
    the header size to the maximum. *)
Theorem body_len_exact h n :
  i32_ok (message_length h) →
  body_len h = Ok n ↔
    (HEADER_SIZE ≤ message_length h ≤ MAX_MESSAGE_SIZE ∧ n = message_length h - HEADER_SIZE) ∨
    (message_length h < 0 ∧ n = 2 ^ 64 + message_length h - HEADER_SIZE).
Proof.
  intros Hm. unfold body_len, usize_sub, HEADER_SIZE, MAX_MESSAGE_SIZE. unfold i32_ok in Hm.
  assert (Hc : i32_as_usize (message_length h) =
    if message_length h <? 0 then 2 ^ 64 + message_length h else message_length h).
  { unfold i32_as_usize, wrap. destruct (Z.ltb_spec (message_length h) 0).
    - rewrite <- (Z.mod_add _ 1) by lia. rewrite Z.mod_small by lia. lia.
    - apply Z.mod_small. lia. }
  rewrite Hc. destruct (Z.ltb_spec (message_length h) 0) as [Hneg|Hpos].
  - destruct (Z.ltb_spec (2 ^ 64 + message_length h) 16); [lia|].
    destruct (Z.ltb_spec 48000000 (message_length h)); [lia|]. split.
    + intros [= <-]. lia.
    + intros [?|[_ ->]]; [lia|]. f_equal.
  - destruct (Z.ltb_spec (message_length h) 16); [split; [done|lia]|].
    destruct (Z.ltb_spec 48000000 (message_length h)); [split; [done|lia]|]. split.
    + intros [= <-]. lia.
    + intros [[_ ->]|?]; [done|lia].
Qed.

Lemma body_len_exact_witness :
  i32_ok (-1) ∧ body_len (mkHeader (-1) 0 0 OP_MSG) = Ok (2 ^ 64 - 17).
Proof.
  split; [vm_compute; split; congruence|].
  apply (body_len_exact (mkHeader (-1) 0 0 OP_MSG)); [vm_compute; split; congruence|].
  right. split; [simpl; lia|reflexivity].
Defined.

(** A reply frame reads back: the header the builder packs unpacks to
    itself, announces exactly the bytes that follow it, and the payload parses
    to the body it was given, with no document sequences. *)
Theorem op_msg_reply_roundtrip response_to request_id b fl :
  i32_ok response_to → i32_ok request_id → wf_doc b → u32_ok fl → checksum_flag fl = false →
  blen b + 21 ≤ MAX_MESSAGE_SIZE →
  let frame := build_op_msg_reply response_to request_id b fl in
  let h := mkHeader (blen frame) request_id response_to OP_MSG in
  unpack frame = Ok h ∧ body_len h = Ok (blen (drop 16 frame)) ∧
  parse_body OP_MSG (drop 16 frame) = Ok (Msg (mkOpMsg fl b [])).
Proof.
  intros Hr1 Hr2 Hb Hfl Hck Hlen frame h. unfold MAX_MESSAGE_SIZE in Hlen. pose proof (blen_nonneg b).
  set (payload := le_bytes 4 fl ++ [0] ++ b).
  assert (Hpl : blen payload = blen b + 5).
  { unfold payload. rewrite !blen_app, blen_le_bytes. change (blen [0]) with 1. lia. }
  assert (Hfl' : blen frame = blen b + 21).
  { unfold frame, build_op_msg_reply. rewrite !blen_app, blen_pack, blen_le_bytes.
    change (blen [0]) with 1. lia. }
  assert (Hframe : frame = pack h ++ payload).
  { unfold h. rewrite Hfl'. unfold frame, build_op_msg_reply, payload.
    rewrite as_i32_small by (unfold HEADER_SIZE; lia). unfold HEADER_SIZE.
    by replace (16 + (4 + 1 + blen b)) with (blen b + 21) by lia. }
  assert (Hdrop : drop 16 frame = payload).
  { rewrite Hframe. apply drop_app_length'. pose proof (blen_pack h) as Hp. unfold blen in Hp. lia. }
  assert (Hh : header_ok h).
  { unfold header_ok, h, i32_ok. cbn [message_length Wire.request_id Wire.response_to op_code].
    unfold OP_MSG. unfold i32_ok in *. lia. }
  rewrite Hdrop. split; [rewrite Hframe; by apply unpack_pack_app|]. split.
  - unfold body_len, usize_sub. cbn [h message_length]. rewrite Hfl'.
    rewrite i32_as_usize_nonneg by (unfold i32_ok; lia). unfold HEADER_SIZE, MAX_MESSAGE_SIZE.
    destruct (Z.ltb_spec (blen b + 21) 16); [lia|].
    destruct (Z.ltb_spec 48000000 (blen b + 21)); [lia|]. f_equal. lia.
  - unfold parse_body. change (OP_MSG =? OP_MSG) with true.
    assert (Hp : parse_op_msg payload = Ok (mkOpMsg fl b [])).
    { apply parse_op_msg_iff.
      - unfold payload. rewrite !all_bytes_app. split; [apply le_bytes_all|].
        split; [repeat constructor; unfold is_byte; lia|apply Hb].
      - exists [Kind0 b], []. cbn [flags body document_sequences]. rewrite Hck.
        split; [unfold payload, secs_bytes; cbn; by rewrite !app_nil_r|]. split; [done|].
        split; [by constructor|]. by split_and!. }
    by rewrite Hp.
Qed.

Lemma op_msg_reply_roundtrip_witness :
  parse_body OP_MSG (drop 16 (build_op_msg_reply 7 8 [5; 0; 0; 0; 0] 2)) =
    Ok (Msg (mkOpMsg 2 [5; 0; 0; 0; 0] [])).
Proof.
  apply (op_msg_reply_roundtrip 7 8 [5; 0; 0; 0; 0] 2).
  - unfold i32_ok; lia.
  - unfold i32_ok; lia.
  - split; [repeat (constructor; [unfold is_byte; lia|]); constructor|].
    split; vm_compute; [split|]; done.
  - unfold u32_ok; lia.
  - reflexivity.
  - vm_compute. discriminate.
Defined.

(** Checksums round-trip: the frame [with_op_msg_checksum] makes of a sound
    [OP_MSG] frame passes [op_msg_frame_problem], and a frame whose trailing
    checksum is any other value is refused. *)
Theorem checksum_roundtrip h fl rest :
  header_ok h → op_code h = OP_MSG → u32_ok fl → unknown_required fl = 0 →
  blen rest + 24 < 2 ^ 31 →
  let h' := mkHeader (blen rest + 24) (request_id h) (response_to h) OP_MSG in
  ∃ covered sum,
    with_op_msg_checksum (pack h ++ le_bytes 4 fl ++ rest) = Ok (pack h' ++ covered ++ le_bytes 4 sum) ∧
    op_msg_frame_problem h' (covered ++ le_bytes 4 sum) = Ok None ∧
    ∀ bad, u32_ok bad → bad ≠ sum →
      op_msg_frame_problem h' (covered ++ le_bytes 4 bad) = Ok (Some "OP_MSG checksum does not match").
Proof.
  intros Hh Hop Hfl Hun Hlen h'. pose proof (blen_nonneg rest).
  set (covered := le_bytes 4 (Z.lor fl 1) ++ rest).
  set (sum := crc32c (u32_not 0) (pack h' ++ covered)).
  assert (Hfl' : u32_ok (Z.lor fl 1)) by (apply lor_bound; [lia|exact Hfl|lia]).
  assert (Hsum : u32_ok sum).
  { apply u32_not_u32, crc32c_update_u32. unfold u32_ok. vm_compute. split; [discriminate|done]. }
  assert (Hh' : header_ok h').
  { destruct Hh as (_ & H2 & H3 & _). unfold header_ok, h', i32_ok, OP_MSG in *.
    cbn [message_length request_id response_to op_code] in *. lia. }
  assert (Hprob : ∀ s, u32_ok s → op_msg_frame_problem h' (covered ++ le_bytes 4 s) =
    Ok (if bool_decide (sum ≠ s) then Some "OP_MSG checksum does not match" else None)).
  { intros s Hs. unfold covered. rewrite <- app_assoc. rewrite frame_problem_layout; try done.
    - by rewrite unknown_required_lor.
    - apply checksum_flag_lor. }
  exists covered, sum. split_and!.
  - rewrite with_checksum_layout by done. fold h'. unfold sum, covered. by rewrite <- !app_assoc.
  - rewrite Hprob by done. by rewrite bool_decide_false by (intros ?; done).
  - intros bad Hbad Hne. rewrite Hprob by done. by rewrite bool_decide_true by congruence.
Qed.

Lemma checksum_roundtrip_witness :
  ∃ covered sum,
    with_op_msg_checksum (pack (mkHeader 26 8 7 OP_MSG) ++ le_bytes 4 2 ++ [0; 5; 0; 0; 0; 0]) =
      Ok (pack (mkHeader 30 8 7 OP_MSG) ++ covered ++ le_bytes 4 sum) ∧
    op_msg_frame_problem (mkHeader 30 8 7 OP_MSG) (covered ++ le_bytes 4 sum) = Ok None ∧
    ∀ bad, u32_ok bad → bad ≠ sum →
      op_msg_frame_problem (mkHeader 30 8 7 OP_MSG) (covered ++ le_bytes 4 bad) =
        Ok (Some "OP_MSG checksum does not match").
Proof.
  apply (checksum_roundtrip (mkHeader 26 8 7 OP_MSG) 2 [0; 5; 0; 0; 0; 0]).
  - unfold header_ok, i32_ok, OP_MSG. simpl. lia.
  - reflexivity.
  - unfold u32_ok. lia.
  - reflexivity.
  - vm_compute. reflexivity.
Defined.
