(* ===== verification/CursorReply.v ===== *)
(** The cursor-reply splice of [Wire]: reading a document's top-level elements
    and rebuilding it with the batch inside, as the owned document would
    serialise. *)

From stdpp Require Import strings.
From S2P Require Import Prelude RustM Wire WireFacts.

Local Open Scope Z_scope.

(** ** Encoded documents *)

Definition elem_bytes (e : RawElement) : bytes := e_type e :: e_key e ++ 0 :: e_value e.

Definition elems_bytes (els : list RawElement) : bytes := concat (map elem_bytes els).

(** A document around the bytes of its elements. *)
Definition wrap_doc (b : bytes) : bytes := le_bytes 4 (blen b + 5) ++ b ++ [0].

Definition doc_bytes (els : list RawElement) : bytes := wrap_doc (elems_bytes els).

(** An element the reader can delimit: a key without NUL, and a value whose
    size its type and first bytes tell, whatever follows. *)
Definition wf_elem (e : RawElement) : Prop :=
  Forall (λ b, (b =? 0) = false) (e_key e) ∧
  ∀ rest, value_size (e_type e) (e_value e ++ rest) = Ok (blen (e_value e)).

Lemma blen_wrap_doc b : blen (wrap_doc b) = blen b + 5.
Proof. unfold wrap_doc. rewrite !blen_app, blen_le_bytes. change (blen [0]) with 1. lia. Qed.

Lemma blen_elem e : blen (elem_bytes e) = 2 + blen (e_key e) + blen (e_value e).
Proof. unfold elem_bytes. rewrite blen_cons, blen_app, blen_cons. lia. Qed.

(** ** Reading elements *)

Lemma raw_elements_step doc end_ i e rest :
  wf_elem e → 0 ≤ i ≤ end_ → end_ ≤ blen doc → sub doc i end_ = elem_bytes e ++ rest →
  i + blen (elem_bytes e) ≤ end_ ∧ sub doc (i + blen (elem_bytes e)) end_ = rest ∧
  ∀ fuel out, raw_elements_loop (S fuel) doc end_ i out =
    raw_elements_loop fuel doc end_ (i + blen (elem_bytes e)) (out ++ [e]).
Proof.
  intros [Hkey Hval] Hi He E. destruct e as [t key value]. cbn [e_type e_key e_value] in *.
  set (el := elem_bytes _) in *. assert (Hel : blen el = 2 + blen key + blen value) by apply blen_elem.
  pose proof (blen_nonneg key). pose proof (blen_nonneg value).
  pose proof E as E0. apply sub_app_inv in E0 as (Hle & _ & Erest); [|done..].
  split; [done|]. split; [done|]. intros fuel out.
  change (el ++ rest) with ([t] ++ (key ++ 0 :: value) ++ rest) in E. rewrite <- app_assoc in E.
  apply sub_app_inv in E as (_ & E1 & E2); [|done..]. change (blen [t]) with 1 in *.
  pose proof E2 as E3. apply sub_app_inv in E3 as (_ & E3 & E4); [|lia..].
  change ((0 :: value) ++ rest) with ([0] ++ value ++ rest) in E4.
  apply sub_app_inv in E4 as (_ & _ & E4); [|lia..]. change (blen [0]) with 1 in *.
  pose proof E4 as E5. apply sub_app_inv in E5 as (_ & E5 & _); [|lia..].
  cbn [raw_elements_loop]. destruct (Z.ltb_spec i end_); [|lia].
  destruct (@index_sub unit doc i) as (x & -> & Hx); [lia|]. rewrite E1 in Hx. injection Hx as ->.
  cbn [mbind outcome_bind]. rewrite slice_sub by lia. cbn [mbind outcome_bind].
  rewrite E2. change (key ++ (0 :: value) ++ rest) with (key ++ 0 :: (value ++ rest)).
  rewrite position_app by done. cbn [try ok_or mbind outcome_bind].
  rewrite (slice_sub doc (i + 1)) by lia. cbn [mbind outcome_bind].
  rewrite slice_sub by lia. cbn [mbind outcome_bind]. rewrite E4, Hval. cbn [mbind outcome_bind].
  rewrite get_range_sub by lia. cbn [try ok_or mbind outcome_bind]. rewrite E3, E5. f_equal. lia.
Qed.

Lemma raw_elements_loop_doc doc end_ els :
  Forall wf_elem els → end_ ≤ blen doc → ∀ fuel i out,
  0 ≤ i ≤ end_ → sub doc i end_ = elems_bytes els → (length els < fuel)%nat →
  raw_elements_loop fuel doc end_ i out = Ok (out ++ els).
Proof.
  intros Hw He. induction Hw as [|e els Hw _ IH]; intros [|fuel] i out Hi E Hf; simpl in Hf; try lia.
  - pose proof (blen_sub doc i end_ ltac:(lia) He) as Hl. rewrite E in Hl.
    change (blen (elems_bytes [])) with 0 in Hl. cbn [raw_elements_loop].
    destruct (Z.ltb_spec i end_); [lia|]. destruct (Z.eqb_spec i end_); [|lia].
    by rewrite app_nil_r.
  - change (elems_bytes (e :: els)) with (elem_bytes e ++ elems_bytes els) in E.
    destruct (raw_elements_step doc end_ i e (elems_bytes els) Hw Hi He E) as (Hle & Er & Hstep).
    rewrite Hstep, IH; [|pose proof (blen_nonneg (elem_bytes e)); lia|done|lia].
    by rewrite <- app_assoc.
Qed.

Lemma elems_count els : Z.of_nat (length els) ≤ blen (elems_bytes els).
Proof.
  induction els as [|e els IH]; [done|].
  change (elems_bytes (e :: els)) with (elem_bytes e ++ elems_bytes els).
  rewrite blen_app, blen_elem. pose proof (blen_nonneg (e_key e)).
  pose proof (blen_nonneg (e_value e)). simpl length. lia.
Qed.

Lemma raw_elements_doc els :
  Forall wf_elem els → blen (doc_bytes els) < 2 ^ 31 → raw_elements (doc_bytes els) = Ok els.
Proof.
  intros Hw Hl. set (b := elems_bytes els).
  assert (Hbl : blen (doc_bytes els) = blen b + 5) by apply blen_wrap_doc.
  pose proof (blen_nonneg b). pose proof (elems_count els) as Hc. fold b in Hc.
  assert (Hn : rd_i32_checked (doc_bytes els) 0 = Some (blen b + 5)).
  { unfold rd_i32_checked. rewrite get_range_sub by lia.
    change (doc_bytes els) with ([] ++ le_bytes 4 (blen b + 5) ++ (b ++ [0])).
    rewrite sub_at by (done || by rewrite blen_le_bytes). simpl.
    rewrite le_val4 by (unfold i32_ok; lia). done. }
  unfold raw_elements. rewrite Hn. cbn [try ok_or mbind outcome_bind].
  destruct (Z.ltb_spec (blen b + 5) 0); [lia|].
  destruct (Z.ltb_spec (blen b + 5) 5); [lia|].
  destruct (Z.ltb_spec (blen (doc_bytes els)) (blen b + 5)); [lia|]. cbn [orb].
  assert (Ebody : sub (doc_bytes els) 4 (blen b + 5 - 1) = b).
  { unfold doc_bytes, wrap_doc. apply sub_at; rewrite blen_le_bytes; fold b; lia. }
  assert (Elast : @index unit (doc_bytes els) (blen b + 5 - 1) = Ok 0).
  { unfold doc_bytes, wrap_doc. rewrite app_assoc. apply index_app.
    rewrite blen_app, blen_le_bytes. fold b. lia. }
  rewrite Elast. cbn [mbind outcome_bind Z.eqb negb].
  apply (raw_elements_loop_doc (doc_bytes els) (blen b + 5 - 1) els Hw ltac:(lia) _ 4 []);
    [lia|done|]. unfold blen in *. lia.
Qed.

(** ** The reader never panics *)

Lemma value_size_returns t rest : returns (value_size t rest).
Proof.
  unfold value_size. assert (Hla : ∀ a m, returns (len_at rest a m)).
  { intros a m. unfold len_at. destruct (rd_i32_checked rest a); simpl; [|done]. by destruct (_ <=? _). }
  apply returns_bind; [|intros; by destruct (_ <=? _)].
  repeat first [case_match; [|]|apply returns_bind; [apply Hla|done]]; try done; try apply Hla.
  pose proof (position_spec (λ c, c =? 0) rest) as Hp.
  destruct (position _ rest) as [p|]; [|done]. cbn [try ok_or mbind outcome_bind].
  destruct Hp as (l1 & x & l2 & -> & <- & _). pose proof (blen_nonneg l1). pose proof (blen_nonneg l2).
  rewrite slice_sub by (rewrite ?blen_app, ?blen_cons; lia). cbn [mbind outcome_bind].
  by destruct (position _ _).
Qed.

Lemma value_size_doc rest n : value_size 3 rest = Ok n → 5 ≤ n.
Proof.
  unfold value_size. cbn [Z.eqb Pos.eqb orb]. intros (m & Hm & Hn)%bind_Ok.
  apply bind_Ok in Hm as (v & _ & Hv). destruct (Z.leb_spec 5 v); simplify_eq.
  destruct (Z.leb_spec m (blen rest)); naive_solver.
Qed.

Lemma value_size_bound t rest n : value_size t rest = Ok n → n ≤ blen rest.
Proof.
  unfold value_size. intros (m & _ & Hn)%bind_Ok. destruct (Z.leb_spec m (blen rest)); naive_solver.
Qed.

(** A document-typed element carries at least an empty document. *)
Definition doc_value_ok (e : RawElement) : Prop := e_type e = 3 → 5 ≤ blen (e_value e).

Lemma raw_elements_loop_returns doc end_ :
  0 ≤ end_ ≤ blen doc → ∀ fuel i out, 0 ≤ i → (Z.to_nat (end_ - i) < fuel)%nat →
  Forall doc_value_ok out →
  returns (raw_elements_loop fuel doc end_ i out) ∧
  ∀ els, raw_elements_loop fuel doc end_ i out = Ok els → Forall doc_value_ok els.
Proof.
  intros He. induction fuel as [|fuel IH]; intros i out Hi Hf Hout; [lia|]. cbn [raw_elements_loop].
  destruct (Z.ltb_spec i end_); [|destruct (i =? end_); (split; [done|]); naive_solver].
  destruct (@index_sub unit doc i) as (t & -> & _); [lia|]. cbn [mbind outcome_bind].
  rewrite slice_sub by lia. cbn [mbind outcome_bind].
  pose proof (position_spec (λ c, c =? 0) (sub doc (i + 1) end_)) as Hp.
  destruct (position _ _) as [p|]; [|done]. cbn [try ok_or mbind outcome_bind].
  destruct Hp as (l1 & x & l2 & Es & Hl1 & _).
  pose proof (blen_sub doc (i + 1) end_ ltac:(lia) ltac:(lia)) as Hlen.
  rewrite Es, blen_app, blen_cons in Hlen. pose proof (blen_nonneg l1). pose proof (blen_nonneg l2).
  rewrite slice_sub by lia. cbn [mbind outcome_bind]. rewrite slice_sub by lia.
  cbn [mbind outcome_bind].
  set (rest := sub doc (i + 1 + p + 1) end_). pose proof (value_size_returns t rest) as Hr.
  destruct (value_size t rest) as [n|?| |] eqn:Ev; try done. cbn [mbind outcome_bind].
  destruct (get_range _ _ _) as [v|] eqn:Eg; [|done]. cbn [try ok_or mbind outcome_bind].
  apply get_range_Some in Eg as (-> & Hn & Hb). apply IH; [lia|lia|].
  apply Forall_app. split; [done|]. constructor; [|constructor]. intros Ht. cbn in *. subst t.
  rewrite blen_sub by lia. apply value_size_doc in Ev. lia.
Qed.

Lemma raw_elements_returns doc :
  returns (raw_elements doc) ∧ ∀ els, raw_elements doc = Ok els → Forall doc_value_ok els.
Proof.
  unfold raw_elements. destruct (rd_i32_checked doc 0) as [n|]; [|done]. cbn [try ok_or mbind outcome_bind].
  destruct (Z.ltb_spec n 0); [done|]. destruct (Z.ltb_spec n 5); [done|].
  destruct (Z.ltb_spec (blen doc) n); [done|]. cbn [orb].
  destruct (@index_returns unit doc (n - 1)) as [x ->]; [lia|]. cbn [mbind outcome_bind].
  destruct (negb _); [done|]. apply raw_elements_loop_returns; [lia|lia| |constructor].
  unfold blen in *. lia.
Qed.

Lemma push_batch_returns batch : ∀ i out, returns (push_batch i batch out).
Proof.
  induction batch as [|blob batch IH]; intros i out; [done|]. cbn [push_batch].
  destruct (get_range blob 0 4) as [b|]; [|done]. set (n := signed 32 _).
  destruct (Z.ltb_spec n 0); [done|]. destruct (Z.leb_spec 5 n); [|done].
  destruct (Z.leb_spec n (blen blob)); [|done]. cbn [andb negb orb].
  rewrite slice_sub by lia. cbn [mbind outcome_bind]. apply IH.
Qed.

Lemma splice_returns els field batch :
  Forall doc_value_ok els → ∀ out have, returns (splice_elements els field batch out have).
Proof.
  induction 1 as [|e els He _ IH]; intros out have; [done|]. cbn [splice_elements].
  destruct (negb _); [apply IH|]. destruct (Z.eqb_spec (e_type e) 3) as [Ht|]; [|done]. cbn [negb].
  apply returns_bind; [apply push_batch_returns|]. intros out' _. specialize (He Ht).
  rewrite slice_sub by lia. cbn [mbind outcome_bind]. apply IH.
Qed.

Lemma encode_cursor_reply_returns envelope field batch :
  returns (encode_cursor_reply envelope field batch).
Proof.
  unfold encode_cursor_reply. destruct (raw_elements_returns envelope) as [Hr Hok].
  destruct (raw_elements envelope) as [els|[]| |]; try done.
  apply returns_bind; [apply splice_returns, Hok; done|]. intros [out have] _. by destruct have.
Qed.

(** ** What the splice writes *)

(** The batch as the elements of a BSON array: keys "0", "1", ... *)
Fixpoint batch_elems (i : Z) (batch : list bytes) : list RawElement :=
  match batch with
  | [] => []
  | d :: batch => mkElem 3 (dec_bytes i) d :: batch_elems (i + 1) batch
  end.

Lemma push_batch_Ok batch :
  Forall wf_doc batch → ∀ i out,
  push_batch i batch out = Ok (out ++ elems_bytes (batch_elems i batch)).
Proof.
  induction 1 as [|d batch Hd _ IH]; intros i out; cbn [push_batch batch_elems].
  { by rewrite app_nil_r. }
  destruct Hd as (_ & Hl & Ht). rewrite get_range_sub by lia.
  rewrite <- take4_sub, Ht, le_val4 by (unfold i32_ok; lia).
  destruct (Z.ltb_spec (blen d) 0); [lia|]. destruct (Z.leb_spec 5 (blen d)); [|lia].
  destruct (Z.leb_spec (blen d) (blen d)); [|lia]. cbn [andb orb negb].
  rewrite slice_sub by lia. cbn [mbind outcome_bind]. rewrite sub_full, IH. f_equal.
  change (elems_bytes (mkElem 3 (dec_bytes i) d :: batch_elems (i + 1) batch))
    with ((3 :: dec_bytes i ++ 0 :: d) ++ elems_bytes (batch_elems (i + 1) batch)).
  rewrite <- !app_assoc. simpl. by rewrite <- !app_assoc.
Qed.

Lemma patch_len_app pre b :
  blen b + 4 < 2 ^ 31 →
  patch_len (pre ++ [0; 0; 0; 0] ++ b) (blen pre) = pre ++ le_bytes 4 (blen b + 4) ++ b.
Proof.
  intros Hl. unfold patch_len. pose proof (blen_nonneg b).
  replace (blen (pre ++ [0; 0; 0; 0] ++ b) - blen pre) with (blen b + 4); cycle 1.
  { rewrite !blen_app. change (blen [0; 0; 0; 0]) with 4. lia. }
  rewrite as_i32_small by lia. by apply write_at_app.
Qed.

(** Elements other than the cursor are copied through. *)
Lemma splice_copy els field batch rest out have :
  Forall (λ e, e_key e ≠ cursor_key) els →
  splice_elements (els ++ rest) field batch out have =
    splice_elements rest field batch (out ++ elems_bytes els) have.
Proof.
  intros Hk. revert out. induction Hk as [|e els He _ IH]; intros out; simpl.
  { by rewrite app_nil_r. }
  rewrite bool_decide_false by done. cbn [negb]. rewrite IH. f_equal.
  change (elems_bytes (e :: els)) with (elem_bytes e ++ elems_bytes els).
  unfold elem_bytes. rewrite <- !app_assoc. simpl. by rewrite <- !app_assoc.
Qed.

Definition cursor_elem (els : list RawElement) : RawElement := mkElem 3 cursor_key (doc_bytes els).

(** The cursor sub-document with the batch array in front. *)
Definition batch_elem (field : bytes) (batch : list bytes) : RawElement :=
  mkElem 4 field (doc_bytes (batch_elems 0 batch)).

Lemma cursor_elem_bytes field batch inner :
  let arr := doc_bytes (batch_elems 0 batch) in
  elem_bytes (cursor_elem (batch_elem field batch :: inner)) =
    [3] ++ cursor_key ++ [0] ++
    le_bytes 4 (blen ([4] ++ field ++ [0] ++ arr ++ elems_bytes inner ++ [0]) + 4) ++
    [4] ++ field ++ [0] ++ arr ++ elems_bytes inner ++ [0].
Proof.
  intros arr. unfold elem_bytes at 1. cbn [cursor_elem e_type e_key e_value].
  unfold doc_bytes at 1, wrap_doc.
  change (elems_bytes (batch_elem field batch :: inner))
    with (elem_bytes (batch_elem field batch) ++ elems_bytes inner).
  unfold elem_bytes. cbn [batch_elem e_type e_key e_value]. fold arr.
  assert (E : ((4 :: field ++ 0 :: arr) ++ elems_bytes inner) ++ [0] =
              [4] ++ field ++ [0] ++ arr ++ elems_bytes inner ++ [0]).
  { simpl. rewrite <- !app_assoc. simpl. by rewrite <- app_assoc. }
  rewrite <- E, (blen_app _ [0]). change (blen [0]) with 1. rewrite <- Z.add_assoc.
  by change (1 + 4) with 5.
Qed.

Lemma splice_cursor inner field batch rest out have :
  Forall wf_doc batch → blen (doc_bytes (batch_elem field batch :: inner)) < 2 ^ 31 →
  splice_elements (cursor_elem inner :: rest) field batch out have =
    splice_elements rest field batch
      (out ++ elem_bytes (cursor_elem (batch_elem field batch :: inner))) true.
Proof.
  intros Hb Hl. cbn [splice_elements cursor_elem e_type e_key e_value].
  rewrite bool_decide_true by done. cbn [negb Z.eqb Pos.eqb].
  set (arr := elems_bytes (batch_elems 0 batch)). set (b := elems_bytes inner).
  assert (Harr : blen (doc_bytes (batch_elem field batch :: inner)) =
                 2 + blen field + (blen arr + 5) + blen b + 5).
  { unfold doc_bytes at 1. rewrite blen_wrap_doc.
    change (elems_bytes (batch_elem field batch :: inner))
      with (elem_bytes (batch_elem field batch) ++ b).
    rewrite blen_app, blen_elem. cbn [batch_elem e_key e_value]. unfold doc_bytes.
    rewrite blen_wrap_doc. fold arr. lia. }
  pose proof (blen_nonneg field). pose proof (blen_nonneg arr). pose proof (blen_nonneg b).
  rewrite push_batch_Ok by done. cbn [mbind outcome_bind]. fold arr.
  set (o1 := out ++ [3] ++ cursor_key ++ [0]).
  set (o2 := o1 ++ [0; 0; 0; 0] ++ [4] ++ field ++ [0]).
  assert (Einner : slice (E := WireError) (doc_bytes inner) 4 (blen (doc_bytes inner) - 1) = Ok b).
  { unfold doc_bytes. rewrite blen_wrap_doc. unfold wrap_doc. apply slice_app; rewrite blen_le_bytes; fold b; lia. }
  rewrite Einner. cbn [mbind outcome_bind].
  assert (E1 : patch_len (((o2 ++ [0; 0; 0; 0]) ++ arr) ++ [0]) (blen o2) = o2 ++ doc_bytes (batch_elems 0 batch)).
  { rewrite <- !app_assoc. rewrite patch_len_app.
    - unfold doc_bytes, wrap_doc. fold arr. rewrite blen_app. change (blen [0]) with 1. do 3 f_equal. lia.
    - rewrite blen_app. change (blen [0]) with 1. lia. }
  rewrite E1. f_equal. rewrite cursor_elem_bytes. fold b. unfold o2. rewrite <- !app_assoc.
  rewrite patch_len_app by (rewrite !blen_app; change (blen [4]) with 1; change (blen [0]) with 1;
    unfold doc_bytes; rewrite blen_wrap_doc; fold arr; lia).
  unfold o1. by rewrite <- !app_assoc.
Qed.

(** ** Properties *)

(** Splicing a batch into a cursor reply yields byte for byte the document
    that has the batch as an array in front of the cursor's own fields, every
    other field of the reply copied through in place. *)
Theorem encode_cursor_reply_spec pre inner post field batch :
  Forall wf_elem (pre ++ cursor_elem inner :: post) →
  Forall (λ e, e_key e ≠ cursor_key) (pre ++ post) →
  Forall wf_doc batch →
  blen (doc_bytes (pre ++ cursor_elem inner :: post)) < 2 ^ 31 →
  blen (doc_bytes (pre ++ cursor_elem (batch_elem field batch :: inner) :: post)) < 2 ^ 31 →
  encode_cursor_reply (doc_bytes (pre ++ cursor_elem inner :: post)) field batch =
    Ok (doc_bytes (pre ++ cursor_elem (batch_elem field batch :: inner) :: post)).
Proof.
  intros Hw Hk Hb Hl1 Hl2. apply Forall_app in Hk as [Hk1 Hk2].
  unfold encode_cursor_reply. rewrite raw_elements_doc by done.
  assert (Hel : ∀ els e els', elems_bytes (els ++ e :: els') =
            elems_bytes els ++ elem_bytes e ++ elems_bytes els').
  { intros. unfold elems_bytes. by rewrite map_app, concat_app. }
  unfold doc_bytes at 1 in Hl2. rewrite blen_wrap_doc, Hel, !blen_app, blen_elem in Hl2.
  cbn [cursor_elem e_key e_value] in Hl2.
  pose proof (blen_nonneg (elems_bytes pre)). pose proof (blen_nonneg (elems_bytes post)).
  pose proof (blen_nonneg cursor_key).
  rewrite splice_copy, splice_cursor by (done || lia).
  rewrite <- (app_nil_r post) at 1. rewrite splice_copy by done.
  cbn [splice_elements mbind outcome_bind fst snd]. f_equal.
  rewrite <- !app_assoc. etrans; [apply (patch_len_app [])|].
  - rewrite !blen_app, blen_elem. cbn [cursor_elem e_key e_value]. change (blen [0]) with 1. lia.
  - unfold doc_bytes, wrap_doc. rewrite Hel, <- !app_assoc. cbn [app]. f_equal. f_equal.
    rewrite !blen_app. change (blen [0]) with 1. lia.
Qed.

Lemma wf_elem_doc key d :
  Forall (λ b, (b =? 0) = false) key → wf_doc d → wf_elem (mkElem 3 key d).
Proof.
  intros Hk (Hb & Hl & Ht). split; [done|]. intros rest. cbn [e_type e_value].
  unfold value_size, len_at, rd_i32_checked. cbn [Z.eqb Pos.eqb orb].
  pose proof (blen_nonneg rest).
  rewrite get_range_sub by (rewrite ?blen_app; lia).
  assert (E : sub (d ++ rest) 0 (0 + 4) = take 4 d).
  { rewrite <- (take_drop 4 d) at 1. rewrite <- app_assoc.
    apply (sub_at [] (take 4 d)); [done|]. rewrite Ht, blen_le_bytes. done. }
  rewrite E, Ht. cbn [fmap option_fmap option_map try ok_or mbind outcome_bind].
  rewrite le_val4 by (unfold i32_ok; lia). destruct (Z.leb_spec 5 (blen d)); [|lia].
  cbn [mbind outcome_bind]. destruct (Z.leb_spec (blen d) (blen (d ++ rest))) as [|Hlt]; [done|].
  rewrite blen_app in Hlt. lia.
Qed.

Lemma value_size_null rest : value_size 10 rest = Ok 0.
Proof.
  unfold value_size. cbn [Z.eqb Pos.eqb orb mbind outcome_bind]. pose proof (blen_nonneg rest).
  by destruct (Z.leb_spec 0 (blen rest)); [|lia].
Qed.

Lemma wf_doc_empty : wf_doc [5; 0; 0; 0; 0].
Proof.
  split; [repeat (constructor; [unfold is_byte; lia|]); constructor|].
  split; vm_compute; [split|]; done.
Qed.

(** An empty cursor reply [{cursor: {}, ok: null}] and a batch of two. *)
Lemma encode_cursor_reply_spec_witness :
  encode_cursor_reply (doc_bytes ([] ++ cursor_elem [] :: [mkElem 10 [111; 107] []])) [98]
    [[5; 0; 0; 0; 0]; [5; 0; 0; 0; 0]] =
  Ok (doc_bytes ([] ++ cursor_elem (batch_elem [98] [[5; 0; 0; 0; 0]; [5; 0; 0; 0; 0]] :: [])
        :: [mkElem 10 [111; 107] []])).
Proof.
  apply (encode_cursor_reply_spec [] [] [mkElem 10 [111; 107] []] [98]
           [[5; 0; 0; 0; 0]; [5; 0; 0; 0; 0]]).
  - constructor; [|constructor; [|constructor]].
    + apply wf_elem_doc; [repeat constructor|apply wf_doc_empty].
    + split; [repeat constructor|]. intros rest. apply value_size_null.
  - by repeat constructor.
  - repeat (constructor; [apply wf_doc_empty|]). constructor.
  - vm_compute. done.
  - vm_compute. done.
Defined.

(** The reply builder returns for every envelope and batch, malformed ones
    included: no index or slice of the splice is out of range. *)
Theorem encode_cursor_reply_total envelope field batch :
  (∃ b, encode_cursor_reply envelope field batch = Ok b) ∨
  (∃ e, encode_cursor_reply envelope field batch = Err e).
Proof.
  pose proof (encode_cursor_reply_returns envelope field batch) as Hr.
  destruct (encode_cursor_reply envelope field batch); naive_solver.
Qed.
