(* ===== verification/Lex.v ===== *)
(** * Lexicographic comparison

    Rust's [Ord] on slices and strings compares byte by byte, the shorter one
    first on a tie; [Ordering::then] chains comparisons. The lemmas here say
    when the comparison of two concatenations is decided by their heads: a set
    of strings none of which is a strict prefix of another ([pfree]) composes. *)
From S2P Require Import Prelude RustM.
Open Scope Z_scope.

(** [Ordering::then] *)
Definition thn (c d : comparison) : comparison :=
  match c with Eq => d | _ => c end.

Fixpoint lex {A} (c : A → A → comparison) (l1 l2 : list A) : comparison :=
  match l1, l2 with
  | [], [] => Eq
  | [], _ :: _ => Lt
  | _ :: _, [] => Gt
  | x :: l1, y :: l2 => thn (c x y) (lex c l1 l2)
  end.

(** [<[u8]>::cmp] *)
Definition bcmp : bytes → bytes → comparison := lex Z.compare.

Lemma thn_Eq_r c : thn c Eq = c.
Proof. by destruct c. Qed.

Lemma thn_assoc a b c : thn (thn a b) c = thn a (thn b c).
Proof. by destruct a. Qed.

Lemma thn_opp a b : CompOpp (thn a b) = thn (CompOpp a) (CompOpp b).
Proof. by destruct a. Qed.

Lemma thn_Eq a b : thn a b = Eq ↔ a = Eq ∧ b = Eq.
Proof. destruct a, b; simpl; naive_solver. Qed.

Lemma bcmp_cons x y l1 l2 : bcmp (x :: l1) (y :: l2) = thn (x ?= y) (bcmp l1 l2).
Proof. done. Qed.

Lemma bcmp_refl l : bcmp l l = Eq.
Proof. induction l as [|x l IH]; [done|]. by rewrite bcmp_cons, Z.compare_refl. Qed.

Lemma bcmp_Eq l1 l2 : bcmp l1 l2 = Eq ↔ l1 = l2.
Proof.
  split; [|intros ->; apply bcmp_refl]. revert l2.
  induction l1 as [|x l1 IH]; intros [|y l2]; try done.
  rewrite bcmp_cons, thn_Eq. intros [->%Z.compare_eq ->%IH]. done.
Qed.

Lemma bcmp_antisym l1 l2 : bcmp l2 l1 = CompOpp (bcmp l1 l2).
Proof.
  revert l2. induction l1 as [|x l1 IH]; intros [|y l2]; try done.
  by rewrite !bcmp_cons, thn_opp, <- IH, <- Z.compare_antisym.
Qed.

Lemma bcmp_app_same l l1 l2 : bcmp (l ++ l1) (l ++ l2) = bcmp l1 l2.
Proof. induction l as [|x l IH]; [done|]. simpl. by rewrite bcmp_cons, Z.compare_refl. Qed.

Lemma bcmp_trans_lt l1 l2 l3 : bcmp l1 l2 = Lt → bcmp l2 l3 = Lt → bcmp l1 l3 = Lt.
Proof.
  revert l2 l3. induction l1 as [|x l1 IH]; intros [|y l2] [|z l3]; try done.
  rewrite !bcmp_cons. destruct (Z.compare_spec x y) as [->| |], (Z.compare_spec y z) as [->| |]; try done;
    simpl; intros; rewrite ?(proj2 (Z.compare_lt_iff _ _)) by lia; simpl; eauto.
Qed.

(** ** Strings that differ before either ends *)

Definition diverge (a b : bytes) : Prop :=
  ∃ p x y a' b', a = p ++ x :: a' ∧ b = p ++ y :: b' ∧ x ≠ y.

(** Neither is a strict prefix of the other. *)
Definition pfree (a b : bytes) : Prop := a = b ∨ diverge a b.

Lemma pfree_refl a : pfree a a.
Proof. by left. Qed.

Lemma pfree_cons x y a b : (x = y → pfree a b) → pfree (x :: a) (y :: b).
Proof.
  intros H. destruct (decide (x = y)) as [->|Hne].
  - destruct (H eq_refl) as [->|(p & u & v & a' & b' & -> & -> & Hn)]; [by left|].
    right. by exists (y :: p), u, v, a', b'.
  - right. by exists [], x, y, a, b.
Qed.

Lemma diverge_app a b ra rb : diverge a b → diverge (a ++ ra) (b ++ rb).
Proof.
  intros (p & x & y & a' & b' & -> & -> & Hn).
  exists p, x, y, (a' ++ ra), (b' ++ rb). by rewrite <- !app_assoc.
Qed.

Lemma pfree_app a b ra rb : pfree a b → (a = b → pfree ra rb) → pfree (a ++ ra) (b ++ rb).
Proof.
  intros [->|Hd] Hr.
  - destruct (Hr eq_refl) as [->|(p & x & y & a' & b' & -> & -> & Hn)]; [by left|].
    right. exists (b ++ p), x, y, a', b'. by rewrite !app_assoc.
  - right. by apply diverge_app.
Qed.

Lemma pfree_app_diff a b ra rb : pfree a b → a ≠ b → pfree (a ++ ra) (b ++ rb).
Proof. intros Hp Hn. by apply pfree_app. Qed.

Lemma pfree_same_length a b : length a = length b → pfree a b.
Proof.
  revert b. induction a as [|x a IH]; intros [|y b]; try done; [by left|].
  simpl. intros [= Hl]. apply pfree_cons. auto.
Qed.

Lemma bcmp_diverge p x y a b : x ≠ y → bcmp (p ++ x :: a) (p ++ y :: b) = (x ?= y).
Proof.
  intros Hn. rewrite bcmp_app_same, bcmp_cons. by destruct (Z.compare_spec x y).
Qed.

(** The heads decide unless they are equal. *)
Lemma bcmp_app a b ra rb : pfree a b → bcmp (a ++ ra) (b ++ rb) = thn (bcmp a b) (bcmp ra rb).
Proof.
  intros [->|(p & x & y & a' & b' & -> & -> & Hn)].
  - by rewrite bcmp_app_same, bcmp_refl.
  - rewrite <- !app_assoc. simpl. rewrite !bcmp_diverge by done. by destruct (Z.compare_spec x y).
Qed.

(** ** The byte-wise complement *)

Definition complement (l : bytes) : bytes := map (λ b, 255 - b) l.

Lemma complement_app a b : complement (a ++ b) = complement a ++ complement b.
Proof. apply map_app. Qed.

Lemma complement_involutive l : complement (complement l) = l.
Proof. unfold complement. rewrite map_map. rewrite <- (map_id l) at 2. apply map_ext. intros; lia. Qed.

Lemma complement_inj a b : complement a = complement b → a = b.
Proof. intros H. by rewrite <- (complement_involutive a), H, complement_involutive. Qed.

Lemma pfree_complement a b : pfree a b → pfree (complement a) (complement b).
Proof.
  intros [->|(p & x & y & a' & b' & -> & -> & Hn)]; [by left|]. right.
  exists (complement p), (255 - x), (255 - y), (complement a'), (complement b').
  rewrite !complement_app. split_and!; [done..|lia].
Qed.

(** Complementing reverses the order of strings that are not prefixes of each
    other; of a prefix pair it would not. *)
Lemma bcmp_complement a b : pfree a b → bcmp (complement a) (complement b) = CompOpp (bcmp a b).
Proof.
  intros [->|(p & x & y & a' & b' & -> & -> & Hn)]; [by rewrite !bcmp_refl|].
  rewrite !complement_app. simpl. rewrite !bcmp_diverge by lia.
  rewrite <- Z.compare_antisym. destruct (Z.compare_spec y x); [lia| |];
    [rewrite Z.compare_lt_iff|rewrite Z.compare_gt_iff]; lia.
Qed.
