(* ===== verification/Bson.v ===== *)
(** * BSON values

    The value type of the [bson] crate as the engine uses it, and the two
    carriers of [secantus-core/src/bsondoc.rs]: a string that is not UTF-8 and
    a text-carrying value that is not UTF-8 travel as one-field documents under
    a key no client can send.

    A string is the list of its UTF-8 bytes (Rust compares [str] by bytes); a
    double is its 64 bits ([f64::to_bits]); a regex's option string is the list
    of its characters, because [regex_sort_key] sorts it by character; a
    Decimal128 is its 16 bytes. A document is the list of its entries in
    insertion order. *)
From S2P Require Import Prelude RustM.
Open Scope Z_scope.

Inductive Bson :=
  | Double (bits : Z)
  | String (s : bytes)
  | Array (a : list Bson)
  | Document (d : list (bytes * Bson))
  | Boolean (b : bool)
  | Null
  | RegularExpression (pattern : bytes) (options : list Z)
  | JavaScriptCode (s : bytes)
  | JavaScriptCodeWithScope (code : bytes) (scope : list (bytes * Bson))
  | Int32 (n : Z)
  | Int64 (n : Z)
  | Timestamp (time increment : Z)
  | Binary (subtype : Z) (data : bytes)
  | ObjectId (oid : bytes)
  | DateTime (millis : Z)
  | Symbol (s : bytes)
  | Decimal128 (raw : bytes)
  | Undefined
  | MaxKey
  | MinKey
  | DbPointer (namespace : bytes) (id : bytes).

Abbreviation Doc := (list (bytes * Bson)).

(** Induction that reaches the values inside arrays, documents and scopes. *)
Section bson_ind.
Context (P : Bson → Prop).
Context (Harr : ∀ a, Forall P a → P (Array a)).
Context (Hdoc : ∀ d, Forall (λ e : bytes * Bson, P e.2) d → P (Document d)).
Context (Hcws : ∀ c d, Forall (λ e : bytes * Bson, P e.2) d → P (JavaScriptCodeWithScope c d)).
Context (Hother : ∀ v, match v with Array _ | Document _ | JavaScriptCodeWithScope _ _ => True
                       | _ => P v end).

Definition bson_ind_nested : ∀ v, P v :=
  fix go v :=
    let go_list := fix go_list (l : list Bson) : Forall P l :=
      match l with
      | [] => List.Forall_nil _
      | x :: l => @List.Forall_cons _ _ x l (go x) (go_list l)
      end in
    let go_doc := fix go_doc (l : Doc) : Forall (λ e : bytes * Bson, P e.2) l :=
      match l with
      | [] => List.Forall_nil _
      | x :: l => @List.Forall_cons _ _ x l (go x.2) (go_doc l)
      end in
    match v as v return P v with
    | Array a => Harr a (go_list a)
    | Document d => Hdoc d (go_doc d)
    | JavaScriptCodeWithScope c d => Hcws c d (go_doc d)
    | v => Hother v
    end.
End bson_ind.

(** ** UTF-8 *)

(** [char::encode_utf8] *)
Definition utf8_char (c : Z) : bytes :=
  if c <? 128 then [c]
  else if c <? 2048 then [192 + c / 64; 128 + c mod 64]
  else if c <? 65536 then [224 + c / 4096; 128 + (c / 64) mod 64; 128 + c mod 64]
  else [240 + c / 262144; 128 + (c / 4096) mod 64; 128 + (c / 64) mod 64; 128 + c mod 64].

Definition utf8 (cs : list Z) : bytes := concat (map utf8_char cs).

(** [String::from_utf8_lossy]: each maximal invalid sequence becomes U+FFFD. *)
Fixpoint utf8_lossy (fuel : nat) (l : bytes) : bytes :=
  match fuel with
  | O => []
  | S fuel =>
    match l with
    | [] => []
    | b0 :: l1 =>
      if b0 <? 128 then b0 :: utf8_lossy fuel l1
      else if in_range 194 223 b0 then
        match l1 with
        | b1 :: l2 => if is_cont b1 then b0 :: b1 :: utf8_lossy fuel l2
                      else [239; 191; 189] ++ utf8_lossy fuel l1
        | [] => [239; 191; 189]
        end
      else if in_range 224 239 b0 then
        let second b1 := if b0 =? 224 then in_range 160 191 b1
                         else if b0 =? 237 then in_range 128 159 b1 else is_cont b1 in
        match l1 with
        | b1 :: l2 =>
          if second b1 then
            match l2 with
            | b2 :: l3 => if is_cont b2 then b0 :: b1 :: b2 :: utf8_lossy fuel l3
                          else [239; 191; 189] ++ utf8_lossy fuel l2
            | [] => [239; 191; 189]
            end
          else [239; 191; 189] ++ utf8_lossy fuel l1
        | [] => [239; 191; 189]
        end
      else if in_range 240 244 b0 then
        let second b1 := if b0 =? 240 then in_range 144 191 b1
                         else if b0 =? 244 then in_range 128 143 b1 else is_cont b1 in
        match l1 with
        | b1 :: l2 =>
          if second b1 then
            match l2 with
            | b2 :: l3 =>
              if is_cont b2 then
                match l3 with
                | b3 :: l4 => if is_cont b3 then b0 :: b1 :: b2 :: b3 :: utf8_lossy fuel l4
                              else [239; 191; 189] ++ utf8_lossy fuel l3
                | [] => [239; 191; 189]
                end
              else [239; 191; 189] ++ utf8_lossy fuel l2
            | [] => [239; 191; 189]
            end
          else [239; 191; 189] ++ utf8_lossy fuel l1
        | [] => [239; 191; 189]
        end
      else [239; 191; 189] ++ utf8_lossy fuel l1
    end
  end.

Definition from_utf8_lossy (l : bytes) : bytes := utf8_lossy (length l) l.

(** [regexutil::regex_sort_key]: the pattern, and the option characters sorted
    and without repeats. *)
Definition regex_sort_key (pattern : bytes) (options : list Z) : bytes * bytes :=
  (pattern, utf8 (sort_dedup options)).

(** ** Carriers *)

(** [format!("\0{t:02x}")] for the five text-carrying types. *)
Definition raw_text_key (t : Z) : bytes := [0; 48; 87 + t].

Definition raw_text (t : Z) (value : bytes) : Bson := Document [(raw_text_key t, Binary 0 value)].

Definition as_raw_text (v : Bson) : option (Z * bytes) :=
  match v with
  | Document [(k, x)] =>
      t ← head (filter (λ t, k = raw_text_key t) [11; 12; 13; 14; 15]);
      match x with
      | Binary subtype data => if subtype =? 0 then Some (t, data) else None
      | _ => None
      end
  | _ => None
  end.

Definition raw_text_bytes (t : Z) (value : bytes) : bytes :=
  if ((t =? 13) || (t =? 14)) && (5 <=? blen value)
  then sub value 4 (blen value - 1) else value.

Definition INVALID_UTF8_KEY : bytes := [0].

Definition invalid_utf8 (data : bytes) : Bson := Document [(INVALID_UTF8_KEY, Binary 0 data)].

Definition carrier_bytes (d : Doc) : option bytes :=
  match d with
  | [(k, Binary subtype data)] =>
      if bool_decide (k = INVALID_UTF8_KEY) && (subtype =? 0) then Some data else None
  | _ => None
  end.

Definition as_invalid_utf8 (v : Bson) : option bytes :=
  match v with Document d => carrier_bytes d | _ => None end.

Definition str_bytes (v : Bson) : option bytes :=
  match v with String s => Some s | _ => as_invalid_utf8 v end.

Definition carrier_pair (a b : Bson) : option (bytes * bytes) :=
  match a, b with
  | String _, String _ => None
  | _, _ => x ← str_bytes a; y ← str_bytes b; Some (x, y)
  end.

Definition is_string (v : Bson) : bool :=
  match v with String _ => true | _ => bool_decide (is_Some (as_invalid_utf8 v)) end.

(** A carrier is read back as what it carries, and never as the other kind. *)
Lemma as_raw_text_raw_text t value :
  11 ≤ t ≤ 15 → as_raw_text (raw_text t value) = Some (t, value) ∧ as_invalid_utf8 (raw_text t value) = None.
Proof.
  intros Ht. assert (t = 11 ∨ t = 12 ∨ t = 13 ∨ t = 14 ∨ t = 15) as Hc by lia.
  destruct Hc as [->|[->|[->|[->| ->]]]]; done.
Qed.

Lemma as_invalid_utf8_carrier data :
  as_invalid_utf8 (invalid_utf8 data) = Some data ∧ as_raw_text (invalid_utf8 data) = None.
Proof. done. Qed.
