(* ===== verification/Docs.v ===== *)
(** * Documents

    What the engine uses of [bson::Document], a map that keeps the order its
    fields were inserted in: a document is the list of its entries. The [bson]
    crate keeps its keys distinct; [wf] says so of every document inside a value. *)
From stdpp Require Import strings.
From S2P Require Import Prelude RustM Bson.
Local Open Scope Z_scope.
Local Open Scope secantus_scope.

(** A string literal of the source. *)
Definition lit (s : string) : bytes :=
  (λ a, Z.of_N (Ascii.N_of_ascii a)) <$> Stdlib.Strings.String.list_ascii_of_string s.

Fixpoint doc_get {A} (doc : list (bytes * A)) (key : bytes) : option A :=
  match doc with
  | [] => None
  | (k, v) :: doc => if ⌊k = key⌋ then Some v else doc_get doc key
  end.

Definition get_str (doc : Doc) (key : bytes) : option bytes :=
  match doc_get doc key with Some (String s) => Some s | _ => None end.

Definition get_document (doc : Doc) (key : bytes) : option Doc :=
  match doc_get doc key with Some (Document d) => Some d | _ => None end.

Definition get_array (doc : Doc) (key : bytes) : option (list Bson) :=
  match doc_get doc key with Some (Array a) => Some a | _ => None end.

Definition get_i32 (doc : Doc) (key : bytes) : option Z :=
  match doc_get doc key with Some (Int32 n) => Some n | _ => None end.

Definition get_i64 (doc : Doc) (key : bytes) : option Z :=
  match doc_get doc key with Some (Int64 n) => Some n | _ => None end.

Definition as_document (v : Bson) : option Doc :=
  match v with Document d => Some d | _ => None end.

Definition contains_key (doc : Doc) (key : bytes) : bool :=
  match doc_get doc key with Some _ => true | None => false end.

Definition keys (doc : Doc) : list bytes := fst <$> doc.

(** [Document::insert]: the value of a key already there is replaced in place. *)
Fixpoint doc_insert (d : Doc) (k : bytes) (v : Bson) : Doc :=
  match d with
  | [] => [(k, v)]
  | (k', v') :: d => if ⌊k' = k⌋ then (k, v) :: d else (k', v') :: doc_insert d k v
  end.

(** [Document::remove] keeps the order of the other fields. *)
Fixpoint doc_remove (d : Doc) (k : bytes) : Doc :=
  match d with
  | [] => []
  | (k', v) :: d => if ⌊k' = k⌋ then d else (k', v) :: doc_remove d k
  end.

Definition container (v : Bson) : bool := match v with Document _ | Array _ => true | _ => false end.

(** Induction on the documents and arrays inside a value. *)
Lemma bson_tree_ind (P : Bson → Prop) :
  (∀ a, Forall P a → P (Array a)) → (∀ d, Forall (λ e : bytes * Bson, P e.2) d → P (Document d)) →
  (∀ v, container v = false → P v) → ∀ v, P v.
Proof.
  intros Ha Hd Hl. apply bson_ind_nested; [done|done|auto|]. intros []; try done; by apply Hl.
Qed.

(** ** Lookup after an update *)

Lemma doc_get_insert d k v key :
  doc_get (doc_insert d k v) key = if ⌊k = key⌋ then Some v else doc_get d key.
Proof.
  induction d as [|[k' v'] d IH]; cbn; [done|].
  destruct (bool_decide_reflect (k' = k)) as [->|Hne]; cbn; [by destruct (bool_decide _)|].
  rewrite IH. repeat case_bool_decide; congruence.
Qed.

Lemma doc_get_elem (d : Doc) k v : doc_get d k = Some v → (k, v) ∈ d.
Proof.
  induction d as [|[k' v'] d IH]; cbn; [done|]. case_bool_decide as E; [subst|].
  - intros [= ->]. left.
  - intros H. right. by apply IH.
Qed.

Lemma doc_get_key (d : Doc) k : is_Some (doc_get d k) ↔ k ∈ keys d.
Proof.
  unfold keys. induction d as [|[k' v'] d IH]; cbn.
  - split; [by intros []|intros ?; elem_nil].
  - rewrite elem_of_cons, <- IH. case_bool_decide as E; [subst; split; eauto|].
    split; [auto|intros [?|?]; [congruence|done]].
Qed.

Lemma doc_get_None (d : Doc) k : doc_get d k = None ↔ k ∉ keys d.
Proof. rewrite <- doc_get_key, <- eq_None_not_Some. done. Qed.

Lemma elem_doc_get (d : Doc) k v : NoDup (keys d) → (k, v) ∈ d → doc_get d k = Some v.
Proof.
  unfold keys. induction d as [|[k' v'] d IH]; cbn; [intros _ ?; elem_nil|].
  intros [Hni Hnd]%NoDup_cons [[= <- <-]|Hin]%elem_of_cons; [by rewrite bool_decide_true|].
  rewrite bool_decide_false; [by apply IH|]. intros ->. apply Hni. by apply (list_elem_of_fmap_2 fst d (k, v)).
Qed.

Lemma elem_of_keys (d : Doc) k v : (k, v) ∈ d → k ∈ keys d.
Proof. intros H. by apply (list_elem_of_fmap_2 fst d (k, v)). Qed.

Lemma doc_get_remove d k key :
  NoDup (keys d) → doc_get (doc_remove d k) key = if ⌊k = key⌋ then None else doc_get d key.
Proof.
  unfold keys. induction d as [|[k' v'] d IH]; cbn; [by destruct (bool_decide _)|].
  intros [Hni Hnd]%NoDup_cons. destruct (bool_decide_reflect (k' = k)) as [->|Hne]; cbn.
  - case_bool_decide as E; [subst|done]. by apply doc_get_None.
  - rewrite IH by done. repeat case_bool_decide; congruence.
Qed.

Lemma keys_insert d k v : keys (doc_insert d k v) = if ⌊k ∈ keys d⌋ then keys d else keys d ++ [k].
Proof.
  unfold keys. induction d as [|[k' v'] d IH]; [done|]. cbn [doc_insert fmap list_fmap fst].
  destruct (bool_decide_reflect (k' = k)) as [->|Hne]; cbn [fmap list_fmap fst].
  - by rewrite bool_decide_true by left.
  - rewrite IH. rewrite (bool_decide_ext (k ∈ k' :: (fst <$> d)) (k ∈ fst <$> d)).
    + by destruct (bool_decide (k ∈ fst <$> d)).
    + rewrite elem_of_cons. split; [intros [?|?]; congruence|auto].
Qed.

Lemma insert_fresh d k v : k ∉ keys d → doc_insert d k v = d ++ [(k, v)].
Proof.
  unfold keys. induction d as [|[k' v'] d IH]; [done|]. cbn. rewrite not_elem_of_cons. intros [Hne Hni].
  rewrite bool_decide_false by congruence. by rewrite IH.
Qed.

Lemma insert_same d k v : doc_get d k = Some v → doc_insert d k v = d.
Proof.
  induction d as [|[k' v'] d IH]; [done|]. cbn. case_bool_decide as E; [subst; by intros [= ->]|].
  intros H. by rewrite IH.
Qed.

Lemma NoDup_keys_insert d k v : NoDup (keys d) → NoDup (keys (doc_insert d k v)).
Proof.
  intros Hn. rewrite keys_insert. case_bool_decide; [done|]. apply NoDup_app. split_and!; [done| |apply NoDup_singleton].
  intros x Hx ->%list_elem_of_singleton. done.
Qed.

Lemma keys_remove_subseteq d k : keys (doc_remove d k) `sublist_of` keys d.
Proof.
  unfold keys. induction d as [|[k' v'] d IH]; [done|]. cbn. destruct (bool_decide _); cbn.
  - by apply sublist_cons.
  - by apply sublist_skip.
Qed.

Lemma NoDup_keys_remove d k : NoDup (keys d) → NoDup (keys (doc_remove d k)).
Proof. intros Hn. eapply sublist_NoDup; [done|apply keys_remove_subseteq]. Qed.

#[export] Hint Resolve NoDup_keys_insert NoDup_keys_remove : secantus.
