(* ===== verification/Paths.v ===== *)
(** * Dotted paths: secantus-core/src/paths.rs

    Reading, writing and removing the value a dotted path names, through
    documents and, by a numeric part, arrays. A part is the bytes between two
    dots; a path has at least one. *)
From stdpp Require Import strings.
From S2P Require Import Prelude RustM Bson Docs.
Local Open Scope Z_scope.
Local Open Scope secantus_scope.

Definition DOT : Z := 46.

(** [path.split('.')]: never empty. *)
Fixpoint split_dot (path : bytes) : list bytes :=
  match path with
  | [] => [[]]
  | c :: path =>
      if c =? DOT then [] :: split_dot path
      else match split_dot path with
           | [] => [[c]]
           | p :: ps => (c :: p) :: ps
           end
  end.

(** [parts.join(".")] *)
Fixpoint join_dot (parts : list bytes) : bytes :=
  match parts with
  | [] => []
  | [p] => p
  | p :: ps => p ++ DOT :: join_dot ps
  end.

Definition is_digit (b : Z) : bool := in_range 48 57 b.

Definition is_digits (s : bytes) : bool := ⌊s ≠ []⌋ && forallb is_digit s.

Definition USIZE_MAX : Z := 2 ^ 64 - 1.

(** [s.parse::<usize>()]: digits after an optional [+], and no overflow. *)
Definition digits_value (s : bytes) : Z := foldl (λ n b, n * 10 + (b - 48)) 0 s.

Definition parse_usize (s : bytes) : option Z :=
  let s := match s with 43 :: t => t | _ => s end in
  if is_digits s && (digits_value s <=? USIZE_MAX) then Some (digits_value s) else None.

(** The element of an array at an index read from a path. *)
Definition item (arr : list Bson) (idx : Z) : option Bson :=
  if idx <? Z.of_nat (length arr) then arr !! Z.to_nat idx else None.

(** ** Reading *)

Fixpoint get_in_bson (cur : Bson) (parts : list bytes) : option Bson :=
  match parts with
  | [] => Some cur
  | head :: rest =>
      match cur with
      | Document d => child ← doc_get d head; get_in_bson child rest
      | Array arr =>
          if is_digits head then
            idx ← parse_usize head; child ← item arr idx; get_in_bson child rest
          else None
      | _ => None
      end
  end.

Definition get_path (doc : Doc) (path : bytes) : option Bson := get_in_bson (Document doc) (split_dot path).

Definition has_path (doc : Doc) (path : bytes) : bool := ⌊is_Some (get_path doc path)⌋.

(** Canonical digits only: [00] names no index. *)
Definition index_component (part : bytes) : option Z :=
  if negb (is_digits part) || ((1 <? blen part) && ⌊head part = Some 48⌋) then None
  else parse_usize part.

(** One step of the walk of [get_path_values]: what a part finds below each
    value, and whether an array was walked. *)
Definition value_step (part : bytes) (cur : Bson) : list Bson * bool :=
  match cur with
  | Document d => (option_list (doc_get d part), false)
  | Array arr =>
      ((if is_digits part then option_list (idx ← parse_usize part; item arr idx) else [])
         ++ omap (λ e, match e with Document d => doc_get d part | _ => None end) arr, true)
  | _ => ([], false)
  end.

Fixpoint value_steps (parts : list bytes) (current : list Bson) (descended : bool) : list Bson * bool :=
  match parts with
  | [] => (current, descended)
  | part :: parts =>
      let found := value_step part <$> current in
      value_steps parts (concat (found.*1)) (descended || existsb snd found)
  end.

Definition get_path_values (doc : Doc) (path : bytes) : list Bson * bool :=
  match split_dot path with
  | [] => ([], false)
  | first :: parts => value_steps parts (option_list (doc_get doc first)) false
  end.

(** One step of the walk of [sort_path_values]; the flag is whether the part
    was read as an index. An element without the field sorts as null. *)
Definition sort_element (part : bytes) (e : Bson) : list (Bson * bool) :=
  let named := negb (is_digits part) in
  match e with
  | Document d =>
      match doc_get d part with
      | Some v => [(v, false)]
      | None => if named then [(Null, false)] else []
      end
  | _ => if named then [(Null, false)] else []
  end.

Definition sort_step (part : bytes) (cur : Bson) : list (Bson * bool) :=
  match cur with
  | Document d => (λ v, (v, false)) <$> option_list (doc_get d part)
  | Array arr =>
      (if is_digits part then (λ v, (v, true)) <$> option_list (idx ← parse_usize part; item arr idx) else [])
        ++ concat (sort_element part <$> arr)
  | _ => []
  end.

Definition sort_path_values (doc : Doc) (path : bytes) : list (Bson * bool) :=
  match split_dot path with
  | [] => []
  | first :: parts =>
      foldl (λ current part, concat ((λ c : Bson * bool, sort_step part c.1) <$> current))
            ((λ v, (v, false)) <$> option_list (doc_get doc first)) parts
  end.

(** The part of a sort path that is both an index of the array it meets and a
    field of one of its elements. *)
Definition find_map {A B} (f : A → option B) : list A → option B :=
  foldr (λ x r, match f x with Some y => Some y | None => r end) None.

Fixpoint ambiguity_walk (current : Bson) (rest : list bytes) : option (bytes * list Bson) :=
  match rest with
  | [] => None
  | part :: tail =>
      match current with
      | Document d => v ← doc_get d part; ambiguity_walk v tail
      | Array items =>
          let index := i ← index_component part; if i <? Z.of_nat (length items) then Some i else None in
          let named := omap (λ e, match e with Document d => doc_get d part | _ => None end) items in
          if ⌊is_Some index⌋ && ⌊named ≠ []⌋ then Some (part, items)
          else
            match i ← index; v ← item items i; ambiguity_walk v tail with
            | Some hit => Some hit
            | None => find_map (λ v, ambiguity_walk v tail) named
            end
      | _ => None
      end
  end.

Definition ambiguous_sort_path (doc : Doc) (path : bytes) : option (bytes * list Bson) :=
  match split_dot path with
  | [] => None
  | first :: rest => v ← doc_get doc first; ambiguity_walk v rest
  end.

(** What stops a path from being created: the container's key and value, and
    the part that cannot be created below it. *)
Fixpoint path_block_loop (last_key : bytes) (cur : Bson) (parts : list bytes) : option (option bytes * Bson * bytes) :=
  match parts with
  | [] => None
  | part :: rest =>
      match cur with
      | Document d =>
          match doc_get d part with
          | Some v => if ⌊rest = []⌋ then None else path_block_loop part v rest
          | None => None
          end
      | Array a =>
          if is_digits part then
            match parse_usize part with
            | None => Some (Some last_key, cur, part)
            | Some idx =>
                match item a idx with
                | Some v => if ⌊rest = []⌋ then None else path_block_loop part v rest
                | None => None
                end
            end
          else Some (Some last_key, cur, part)
      | _ => Some (Some last_key, cur, part)
      end
  end.

Definition path_block (doc : Doc) (path : bytes) : option (option bytes * Bson * bytes) :=
  match split_dot path with
  | [] => None
  | first :: rest =>
      match doc_get doc first with
      | Some v => if ⌊rest = []⌋ then None else path_block_loop first v rest
      | None => None
      end
  end.

(** ** Writing *)

Definition MAX_LIST_GROW_INDEX : Z := 100000.

(** [while arr.len() <= idx { arr.push(Null) }; arr[idx] = value] *)
Definition grow_set (arr : list Bson) (idx : Z) (value : Bson) : list Bson :=
  <[Z.to_nat idx := value]> (arr ++ replicate (S (Z.to_nat idx) - length arr) Null).

(** [set_in_doc] and [set_in_array], over what they do below. *)
Definition set_field (below : Bson → outcome () Bson) (d : Doc) (head : bytes) (last : bool) (value : Bson)
    : outcome () Doc :=
  if last then Ok (doc_insert d head value)
  else
    let d := if contains_key d head then d else doc_insert d head (Document []) in
    match doc_get d head with
    | Some cur => cur ← below cur; Ok (doc_insert d head cur)
    | None => Panic
    end.

Definition set_item (below : Bson → outcome () Bson) (arr : list Bson) (head : bytes) (last : bool) (value : Bson)
    : outcome () (list Bson) :=
  if is_digits head then
    idx ← ok_or () (parse_usize head);
    if last then
      if MAX_LIST_GROW_INDEX <? idx then Err () else Ok (grow_set arr idx value)
    else
      match item arr idx with
      | Some cur => cur ← below cur; Ok (<[Z.to_nat idx := cur]> arr)
      | None => Ok arr
      end
  else Ok arr.

Fixpoint set_in_bson (cur : Bson) (parts : list bytes) (value : Bson) : outcome () Bson :=
  match parts with
  | [] => Panic
  | head :: rest =>
      let below c := set_in_bson c rest value in
      match cur with
      | Document d => d ← set_field below d head ⌊rest = []⌋ value; Ok (Document d)
      | Array arr => arr ← set_item below arr head ⌊rest = []⌋ value; Ok (Array arr)
      | _ => Ok cur
      end
  end.

Definition set_in_doc (d : Doc) (parts : list bytes) (value : Bson) : outcome () Doc :=
  match parts with
  | [] => Panic
  | head :: rest => set_field (λ c, set_in_bson c rest value) d head ⌊rest = []⌋ value
  end.

Definition set_path (doc : Doc) (path : bytes) (value : Bson) : outcome () Doc :=
  set_in_doc doc (split_dot path) value.

(** ** Removing *)

Definition unset_field (below : Bson → Bson) (d : Doc) (head : bytes) (last : bool) : Doc :=
  if last then doc_remove d head
  else match doc_get d head with
       | Some child => doc_insert d head (below child)
       | None => d
       end.

Definition unset_item (below : Bson → Bson) (arr : list Bson) (head : bytes) (last : bool) : list Bson :=
  if is_digits head then
    match parse_usize head with
    | Some idx =>
        match item arr idx with
        | Some child => <[Z.to_nat idx := if last then Null else below child]> arr
        | None => arr
        end
    | None => arr
    end
  else arr.

Fixpoint unset_in_bson (cur : Bson) (parts : list bytes) : Bson :=
  match parts with
  | [] => cur
  | head :: rest =>
      let below c := unset_in_bson c rest in
      match cur with
      | Document d => Document (unset_field below d head ⌊rest = []⌋)
      | Array arr => Array (unset_item below arr head ⌊rest = []⌋)
      | _ => cur
      end
  end.

Definition unset_in_doc (d : Doc) (parts : list bytes) : Doc :=
  match parts with
  | [] => d
  | head :: rest => unset_field (λ c, unset_in_bson c rest) d head ⌊rest = []⌋
  end.

Definition unset_path (doc : Doc) (path : bytes) : Doc := unset_in_doc doc (split_dot path).
