(* ===== verification/BsonDoc.v ===== *)
(** * Encoding documents: secantus-core/src/bsondoc.rs

    [write] hands a document to the [bson] crate's encoder, and when that refuses
    a key that holds a NUL - a carrier, or an escaped field name - writes the
    bytes those stand for itself.  The crate's encoder is a parameter: what it
    wrote, and the error it stopped at. *)
From stdpp Require Import strings.
From S2P Require Import Prelude RustM Bson Docs.
Local Open Scope Z_scope.
Local Open Scope secantus_scope.

Inductive SerError := InvalidCString (key : bytes) | OtherSer.

(** What was written, or the error and what was written before it. *)
Abbreviation W := (outcome (bytes * SerError) bytes).

Definition wseq (a b : W) : W :=
  x ← a; match b with Err (p, e) => Err (x ++ p, e) | Ok y => Ok (x ++ y) | o => o end.

(** ** Field names *)

Definition hex_digit (n : Z) : Z := if n <? 10 then 48 + n else 87 + n.

(** [format!("\0{b:02x}")] *)
Definition escape_byte (b : Z) : bytes := [0; hex_digit (b / 16); hex_digit (b mod 16)].

(** The bytes of the longest valid character, or of the longest invalid
    sequence, at the start ([utf8_chunks]). *)
Definition utf8_unit (l : bytes) : bool * nat :=
  match l with
  | [] => (true, 0%nat)
  | b0 :: l1 =>
    if b0 <? 128 then (true, 1%nat)
    else if in_range 194 223 b0 then
      match l1 with b1 :: _ => if is_cont b1 then (true, 2%nat) else (false, 1%nat) | [] => (false, 1%nat) end
    else if in_range 224 239 b0 then
      let second b1 := if b0 =? 224 then in_range 160 191 b1
                       else if b0 =? 237 then in_range 128 159 b1 else is_cont b1 in
      match l1 with
      | b1 :: l2 =>
          if second b1 then
            match l2 with b2 :: _ => if is_cont b2 then (true, 3%nat) else (false, 2%nat) | [] => (false, 2%nat) end
          else (false, 1%nat)
      | [] => (false, 1%nat)
      end
    else if in_range 240 244 b0 then
      let second b1 := if b0 =? 240 then in_range 144 191 b1
                       else if b0 =? 244 then in_range 128 143 b1 else is_cont b1 in
      match l1 with
      | b1 :: l2 =>
          if second b1 then
            match l2 with
            | b2 :: l3 =>
                if is_cont b2 then
                  match l3 with b3 :: _ => if is_cont b3 then (true, 4%nat) else (false, 3%nat) | [] => (false, 3%nat) end
                else (false, 2%nat)
            | [] => (false, 2%nat)
            end
          else (false, 1%nat)
      | [] => (false, 1%nat)
      end
    else (false, 1%nat)
  end.

Fixpoint escape_loop (fuel : nat) (l : bytes) : bytes :=
  match fuel, l with
  | O, _ | _, [] => []
  | S fuel, _ =>
      let '(valid, n) := utf8_unit l in
      (if valid then take n l else concat (escape_byte <$> take n l)) ++ escape_loop fuel (drop n l)
  end.

Definition escape_key (key : bytes) : bytes := escape_loop (length key) key.

(** [u8::from_str_radix(hex, 16)] on two bytes: a sign is accepted before a
    single digit. *)
Definition hex_value (c : Z) : option Z :=
  if in_range 48 57 c then Some (c - 48)
  else if in_range 97 102 c then Some (c - 87)
  else if in_range 65 70 c then Some (c - 55) else None.

Definition hex_byte (h l : Z) : option Z :=
  if h =? 43 then hex_value l else x ← hex_value h; y ← hex_value l; Some (16 * x + y).

Fixpoint unescape (key : bytes) : option bytes :=
  match key with
  | [] => Some []
  | b :: rest =>
      if b =? 0 then
        match rest with
        | h :: l :: rest => x ← hex_byte h l; out ← unescape rest; Some (x :: out)
        | _ => None
        end
      else out ← unescape rest; Some (b :: out)
  end.

Definition key_bytes (key : bytes) : option bytes :=
  if ⌊0 ∈ key⌋ then
    out ← unescape key; if ⌊escape_key out = key⌋ then Some out else None
  else Some key.

(** ** Writing *)

(** What the engine calls of the [bson] crate: the text of a Decimal128, the
    equality of documents, [Document::to_writer], and [to_vec] of a document
    that holds one value under an empty key. *)
Class BsonCrate := {
  dec_to_string : bytes → bytes;
  doc_eq : Doc → Doc → bool;
  to_writer : Doc → W;
  to_vec_one : Bson → outcome SerError bytes;
}.

Section write.
Context `{BsonCrate}.

Definition head_bytes (t : Z) (key : bytes) : bytes := t :: key ++ [0].

(** [start .. patch_len]: a length, the elements, a NUL. *)
Definition framed (body : W) : W :=
  match body with
  | Ok b => Ok (le_bytes 4 (as_i32 (blen b + 5)) ++ b ++ [0])
  | Err (p, e) => Err (le_bytes 4 0 ++ p, e)
  | o => o
  end.

Definition write_string (s : bytes) : bytes := le_bytes 4 (as_i32 (blen s + 1)) ++ s ++ [0].

(** Any other value, through the crate's encoder under an empty key. *)
Definition write_other (key : bytes) (v : Bson) : W :=
  match to_vec_one v with
  | Ok b =>
      match index (E := bytes * SerError) b 4, slice (E := bytes * SerError) b 6 (blen b - 1) with
      | Ok t, Ok value => Ok (head_bytes t key ++ value)
      | _, _ => Panic
      end
  | Err e => Err ([], e)
  | Panic => Panic
  | NoFuel => NoFuel
  end.

Fixpoint write_element (key : bytes) (v : Bson) {struct v} : W :=
  match as_raw_text v with
  | Some (t, raw) => Ok (head_bytes t key ++ raw)
  | None =>
    match as_invalid_utf8 v with
    | Some data => Ok (head_bytes 2 key ++ write_string data)
    | None =>
      let elements := fix go (d : Doc) : W :=
        match d with
        | [] => Ok []
        | (k, x) :: d =>
            match key_bytes k with
            | Some kb => wseq (write_element kb x) (go d)
            | None => Err ([], InvalidCString k)
            end
        end in
      let items := fix go (i : Z) (a : list Bson) : W :=
        match a with
        | [] => Ok []
        | x :: a => wseq (write_element (dec_bytes i) x) (go (i + 1) a)
        end in
      match v with
      | Document d => wseq (Ok (head_bytes 3 key)) (framed (elements d))
      | Array a => wseq (Ok (head_bytes 4 key)) (framed (items 0 a))
      | JavaScriptCodeWithScope code scope =>
          match framed (elements scope) with
          | Ok s => let body := write_string code ++ s in
                    Ok (head_bytes 15 key ++ le_bytes 4 (as_i32 (blen body + 4)) ++ body)
          | Err (p, e) => Err (head_bytes 15 key ++ le_bytes 4 0 ++ write_string code ++ p, e)
          | o => o
          end
      | other => write_other key other
      end
    end
  end.

Fixpoint write_elements (d : Doc) : W :=
  match d with
  | [] => Ok []
  | (k, x) :: d =>
      match key_bytes k with
      | Some kb => wseq (write_element kb x) (write_elements d)
      | None => Err ([], InvalidCString k)
      end
  end.

Definition write_doc (d : Doc) : W := framed (write_elements d).

Definition write (d : Doc) : W :=
  match to_writer d with
  | Err (_, InvalidCString _) => write_doc d
  | o => o
  end.
End write.
