(* ===== verification/Numeric.v ===== *)
(** * The unified numeric type: secantus-core/src/numeric.rs

    int32, int64, double and Decimal128 are reduced to a sign, a normalised
    string of decimal digits and a power of ten, and compared there; int and
    double pairs take an allocation-free path.

    A double is its 64 bits. What Rust's float operations compute on them is
    written out over [f64_units], the exact value in units of 2^-1074 (every
    finite double is a whole number of them). [Decimal128::to_string] is code of
    the [bson] crate: the text is a parameter of the definitions that use it.
    Text is the list of its bytes and is read as ASCII, which is all the
    [Display] of a Decimal128 writes. *)
From S2P Require Import Prelude RustM Bson Lex.
Open Scope Z_scope.

(** ** f64 *)

Definition f64_raw_exp (bits : Z) : Z := Z.land (Z.shiftr bits 52) 2047.
Definition f64_frac (bits : Z) : Z := Z.land bits (2 ^ 52 - 1).
Definition f64_negative (bits : Z) : bool := Z.shiftr bits 63 =? 1.

Definition f64_is_nan (bits : Z) : bool :=
  (f64_raw_exp bits =? 2047) && negb (f64_frac bits =? 0).
Definition f64_is_infinite (bits : Z) : bool :=
  (f64_raw_exp bits =? 2047) && (f64_frac bits =? 0).

Definition f64_sgn (bits : Z) : Z := if f64_negative bits then -1 else 1.

(** A finite double's value times 2^1074. *)
Definition f64_units (bits : Z) : Z :=
  f64_sgn bits *
  (if f64_raw_exp bits =? 0 then f64_frac bits
   else (f64_frac bits + 2 ^ 52) * 2 ^ (f64_raw_exp bits - 1)).

(** Position among the doubles that are not NaN: the infinities lie beyond
    every finite value. *)
Definition f64_order (bits : Z) : Z :=
  if f64_is_infinite bits then f64_sgn bits * 2 ^ 2100 else f64_units bits.

(** [f64::partial_cmp] *)
Definition f64_partial_cmp (x y : Z) : option comparison :=
  if f64_is_nan x || f64_is_nan y then None else Some (f64_order x ?= f64_order y).

(** ** Values *)

Inductive NumVal :=
  | Nan
  | Inf (sign : Z)
  | Zero
  | Finite (sign : Z) (digits : list Z) (exp : Z).

Fixpoint strip_leading (digits : list Z) : list Z :=
  match digits with
  | d :: ds => if d =? 0 then strip_leading ds else digits
  | [] => []
  end.

(** [while digits.last() == Some(&0) { digits.pop(); *exp += 1 }], on the
    reversed digits. *)
Fixpoint strip_trailing (rev_digits : list Z) (exp : Z) : list Z * Z :=
  match rev_digits with
  | d :: ds => if d =? 0 then strip_trailing ds (exp + 1) else (rev_digits, exp)
  | [] => ([], exp)
  end.

Definition normalize (digits : list Z) (exp : Z) : list Z * Z :=
  let r := strip_trailing (reverse (strip_leading digits)) exp in (reverse r.1, r.2).

Definition from_int (n : Z) : NumVal :=
  if n =? 0 then Zero else
  let sign := if n <? 0 then -1 else 1 in
  let mag := if n <? 0 then - n else n in
  let r := normalize (dec_digits mag) 0 in
  Finite sign r.1 r.2.

(** ** The exact decimal value of a double *)

Definition LIMB : Z := 1000000000.

(** [u64::trailing_zeros] of a nonzero value. *)
Fixpoint trailing_zeros (fuel : nat) (m : Z) : Z :=
  match fuel with
  | O => 0
  | S fuel => if Z.even m then 1 + trailing_zeros fuel (Z.shiftr m 1) else 0
  end.

(** [while limbs.len() > 1 && *limbs.last().unwrap() == 0 { limbs.pop(); }] on
    the reversed limbs. *)
Fixpoint pop_zero_limbs (rev_limbs : list Z) : list Z :=
  match rev_limbs with
  | l :: (_ :: _) as rest => if l =? 0 then pop_zero_limbs rest else rev_limbs
  | _ => rev_limbs
  end.

Definition limbs_of (m : Z) : list Z :=
  reverse (pop_zero_limbs (reverse [m mod LIMB; (m / LIMB) mod LIMB; m / (LIMB * LIMB)])).

(** [while carry > 0 { limbs.push(carry % LIMB); carry /= LIMB; }] *)
Fixpoint push_carry (fuel : nat) (carry : Z) : list Z :=
  match fuel with
  | O => []
  | S fuel => if 0 <? carry then carry mod LIMB :: push_carry fuel (carry / LIMB) else []
  end.

(** The closure [mul], [u64] arithmetic. *)
Fixpoint mul_loop (limbs : list Z) (by_ carry : Z) : list Z :=
  match limbs with
  | [] => push_carry 3 carry
  | l :: limbs => let v := wrap 64 (l * by_ + carry) in v mod LIMB :: mul_loop limbs by_ (v / LIMB)
  end.

Definition mul (limbs : list Z) (by_ : Z) : list Z := mul_loop limbs by_ 0.

(** [while left > 0 { step = left.min(max); mul(base^step); left -= step; }] *)
Fixpoint scale (fuel : nat) (base max left : Z) (limbs : list Z) : list Z :=
  match fuel with
  | O => limbs
  | S fuel =>
      if 0 <? left then
        let step := Z.min left max in
        scale fuel base max (left - step) (mul limbs (base ^ step))
      else limbs
  end.

(** [format!("{l:09}")] *)
Definition pad9 (l : Z) : list Z := replicate (9 - length (dec_digits l)) 0 ++ dec_digits l.

Definition limb_digits (limbs : list Z) : list Z :=
  match reverse limbs with
  | [] => []
  | top :: rest => dec_digits top ++ concat (map pad9 rest)
  end.

Definition exact_f64_parts (d : Z) : Z * list Z * Z :=
  let sign := f64_sgn d in
  let raw_exp := f64_raw_exp d in
  let frac := f64_frac d in
  let m0 := if raw_exp =? 0 then frac else Z.lor frac (Z.shiftl 1 52) in
  let e0 := if raw_exp =? 0 then -1074 else raw_exp - 1075 in
  let tz := trailing_zeros 64 m0 in
  let m := Z.shiftr m0 tz in
  let e := e0 + tz in
  let limbs := limbs_of m in
  let limbs := if 0 <=? e then scale (Z.to_nat e) 2 29 e limbs
               else scale (Z.to_nat (- e)) 5 13 (- e) limbs in
  let exp10 := if 0 <=? e then 0 else e in
  let r := normalize (limb_digits limbs) exp10 in
  (sign, r.1, r.2).

Definition from_f64 (d : Z) : NumVal :=
  if f64_is_nan d then Nan
  else if f64_is_infinite d then Inf (if f64_order d >? 0 then 1 else -1)
  else if f64_order d =? 0 then Zero
  else let '(sign, digits, exp) := exact_f64_parts d in Finite sign digits exp.

(** ** Decimal text *)

Definition to_lowercase (s : bytes) : bytes := map (λ c, if in_range 65 90 c then c + 32 else c) s.

Fixpoint starts_with (s pre : bytes) : bool :=
  match pre, s with
  | [], _ => true
  | _ :: _, [] => false
  | p :: pre, c :: s => (c =? p) && starts_with s pre
  end.

Fixpoint contains (s pat : bytes) : bool :=
  starts_with s pat || match s with [] => false | _ :: s => contains s pat end.

Definition is_space (c : Z) : bool := in_range 9 13 c || (c =? 32).

Fixpoint trim_start (s : bytes) : bytes :=
  match s with c :: s' => if is_space c then trim_start s' else s | [] => [] end.

Definition trim (s : bytes) : bytes := reverse (trim_start (reverse (trim_start s))).

Definition strip_prefix1 (c : Z) (s : bytes) : option bytes :=
  match s with x :: s => if x =? c then Some s else None | [] => None end.

Fixpoint split_once (sep : Z → bool) (s : bytes) : option (bytes * bytes) :=
  match s with
  | [] => None
  | c :: s => if sep c then Some ([], s) else
      match split_once sep s with Some (a, b) => Some (c :: a, b) | None => None end
  end.

Definition is_exp_char (c : Z) : bool := (c =? 101) || (c =? 69).
Definition is_dot (c : Z) : bool := c =? 46.

(** [char::to_digit(10)] *)
Definition to_digit (c : Z) : option Z := if in_range 48 57 c then Some (c - 48) else None.

Definition digits_val (ds : list Z) : Z := fold_left (λ a d, a * 10 + d) ds 0.

(** [str::parse::<i64>] *)
Definition parse_i64 (s : bytes) : option Z :=
  let '(neg, body) := match s with
    | c :: s' => if c =? 45 then (true, s') else if c =? 43 then (false, s') else (false, s)
    | [] => (false, s)
    end in
  if bool_decide (body = []) then None else
  ds ← mapM to_digit body;
  let v := if neg then - digits_val ds else digits_val ds in
  if in_range (- 2 ^ 63) (2 ^ 63 - 1) v then Some v else None.

Definition unsign (s : bytes) : Z * bytes :=
  match strip_prefix1 45 s with
  | Some r => (-1, r)
  | None => (1, default s (strip_prefix1 43 s))
  end.

Definition from_decimal_str (s : bytes) : NumVal :=
  let low := to_lowercase s in
  if contains low [110; 97; 110] then Nan
  else if contains low [105; 110; 102] then Inf (if starts_with (trim_start s) [45] then -1 else 1)
  else
    let '(sign, rest) := unsign (trim s) in
    let '(mantissa, exp_extra) := match split_once is_exp_char rest with
      | Some (m, e) => (m, default 0 (parse_i64 e))
      | None => (rest, 0)
      end in
    let '(int_part, frac_part) := match split_once is_dot mantissa with
      | Some (i, f) => (i, f)
      | None => (mantissa, [])
      end in
    let digits := omap to_digit (int_part ++ frac_part) in
    let r := normalize digits (exp_extra - blen frac_part) in
    if bool_decide (r.1 = []) then Zero else Finite sign r.1 r.2.

(** ** Comparison *)

Definition eq (a b : NumVal) : bool :=
  match a, b with
  | Nan, _ | _, Nan => false
  | Inf x, Inf y => x =? y
  | Inf _, _ | _, Inf _ => false
  | Zero, Zero => true
  | Zero, Finite _ _ _ | Finite _ _ _, Zero => false
  | Finite s1 d1 e1, Finite s2 d2 e2 => (s1 =? s2) && bool_decide (d1 = d2) && (e1 =? e2)
  end.

Definition cmp_magnitude (d1 : list Z) (e1 : Z) (d2 : list Z) (e2 : Z) : comparison :=
  thn (e1 + blen d1 - 1 ?= e2 + blen d2 - 1) (bcmp d1 d2).

Definition cmp (a b : NumVal) : option comparison :=
  match a, b with
  | Nan, _ | _, Nan => None
  | Inf x, Inf y => Some (x ?= y)
  | Inf x, _ => Some (if x =? 1 then Gt else Lt)
  | _, Inf y => Some (if y =? 1 then Lt else Gt)
  | Zero, Zero => Some Eq
  | Zero, Finite sign _ _ => Some (if 0 <? sign then Lt else Gt)
  | Finite sign _ _, Zero => Some (if 0 <? sign then Gt else Lt)
  | Finite s1 d1 e1, Finite s2 d2 e2 =>
      Some (if negb (s1 =? s2) then s1 ?= s2 else
            let mag := cmp_magnitude d1 e1 d2 e2 in
            if 0 <? s1 then mag else CompOpp mag)
  end.

(** [f.trunc() as i64] inside [-2^63, 2^63), and the sign of [f - t as f64]: the
    difference is nonzero exactly when the values differ (doubles underflow
    gradually), so its sign is that of the exact difference. *)
Definition f64_trunc (f : Z) : Z := Z.quot (f64_units f) (2 ^ 1074).
Definition f64_minus_int (f t : Z) : Z := f64_units f - t * 2 ^ 1074.

Definition cmp_i64_f64 (i f : Z) : option comparison :=
  if f64_is_nan f then None
  else if f64_is_infinite f && negb (f64_negative f) then Some Lt
  else if f64_is_infinite f && f64_negative f then Some Gt
  else if 2 ^ 63 * 2 ^ 1074 <=? f64_order f then Some Lt
  else if f64_order f <? - (2 ^ 63 * 2 ^ 1074) then Some Gt
  else
    let t := f64_trunc f in
    Some (match i ?= t with
          | Eq => let frac := f64_minus_int f t in
                  if 0 <? frac then Lt else if frac <? 0 then Gt else Eq
          | other => other
          end).

Definition fast_cmp (a b : Bson) : option (option comparison) :=
  match a, b with
  | Int32 x, Int32 y | Int64 x, Int64 y | Int32 x, Int64 y | Int64 x, Int32 y => Some (Some (x ?= y))
  | Double x, Double y => Some (f64_partial_cmp x y)
  | Int32 x, Double y | Int64 x, Double y => Some (cmp_i64_f64 x y)
  | Double x, Int32 y | Double x, Int64 y => Some (option_map CompOpp (cmp_i64_f64 y x))
  | _, _ => None
  end.

Definition fast_eq (a b : Bson) : option bool :=
  option_map (λ o, bool_decide (o = Some Eq)) (fast_cmp a b).

(** ** Integers back to BSON *)

Definition as_int_like (b : Bson) : option Z :=
  match b with
  | Int32 n | Int64 n => Some n
  | Boolean v => Some (if v then 1 else 0)
  | _ => None
  end.

Definition fits_i32 (r : Z) : bool := in_range (- 2 ^ 31) (2 ^ 31 - 1) r.
Definition fits_i64 (r : Z) : bool := in_range (- 2 ^ 63) (2 ^ 63 - 1) r.

Definition int_to_bson (r : Z) : option Bson :=
  if fits_i32 r then Some (Int32 r) else if fits_i64 r then Some (Int64 r) else None.

Definition is_int64 (b : Bson) : bool := match b with Int64 _ => true | _ => false end.

Definition int_promoted_to_bson (r : Z) (operand_wide : bool) : option Bson :=
  if negb (fits_i64 r) then None
  else if operand_wide || negb (fits_i32 r) then Some (Int64 r) else Some (Int32 r).

Definition is_numberish (b : Bson) : bool :=
  match b with Int32 _ | Int64 _ | Double _ | Boolean _ => true | _ => false end.

Definition widen (v : Bson) : option Bson :=
  match v with Boolean x => Some (Int32 (if x then 1 else 0)) | _ => None end.

Definition fast_cmp_numberish (a b : Bson) : option (option comparison) :=
  match widen a, widen b with
  | None, None => fast_cmp a b
  | Some wa, None => fast_cmp wa b
  | None, Some wb => fast_cmp a wb
  | Some wa, Some wb => fast_cmp wa wb
  end.

Section classify.
Context (dec_to_string : bytes → bytes).

Definition classify (b : Bson) : option NumVal :=
  match b with
  | Int32 n | Int64 n => Some (from_int n)
  | Double d => Some (from_f64 d)
  | Decimal128 d => Some (from_decimal_str (dec_to_string d))
  | _ => None
  end.

(** [query::is_nan_bson] *)
Definition is_nan_bson (b : Bson) : bool :=
  match b with
  | Double d => f64_is_nan d
  | Decimal128 d =>
      let s := to_lowercase (dec_to_string d) in
      bool_decide (s = [110; 97; 110]) || bool_decide (s = [45; 110; 97; 110])
  | _ => false
  end.
End classify.

(** 0.1, whose exact value has 55 digits; -2^63; the smallest double. *)
Example exact_tenth : (exact_f64_parts 0x3FB999999999999A).2 = -55 ∧
  digits_val (exact_f64_parts 0x3FB999999999999A).1.2 = 1000000000000000055511151231257827021181583404541015625.
Proof. vm_compute. done. Qed.

Example exact_min : (exact_f64_parts 1).2 = -1074 ∧ length (exact_f64_parts 1).1.2 = 751%nat.
Proof. vm_compute. done. Qed.
