(* ===== verification/NumericFacts.v ===== *)
(** * The unified numeric type: correctness

    [exact_f64_parts] yields the exact value of its double; [cmp] orders
    normalised values as the rational numbers they stand for; the
    allocation-free [fast_cmp] gives the same verdict as [classify] and [cmp]. *)
From S2P Require Import Prelude RustM Bson Lex Numeric.
Open Scope Z_scope.

(** ** Digit strings *)

Lemma compare_mul_r p n m : 0 < p → (n * p ?= m * p) = (n ?= m).
Proof. intros. symmetry. apply Zmult_compare_compat_r. lia. Qed.

Definition is_digit (d : Z) : Prop := 0 ≤ d < 10.

Lemma digits_val_acc ds a :
  fold_left (λ a d, a * 10 + d) ds a = a * 10 ^ blen ds + digits_val ds.
Proof.
  unfold digits_val. revert a. induction ds as [|d ds IH]; intros a.
  { unfold blen. simpl. lia. }
  cbn [fold_left]. rewrite (IH (a * 10 + d)), (IH (0 * 10 + d)). replace (blen (d :: ds)) with (Z.succ (blen ds)) by (unfold blen; simpl; lia).
  rewrite Z.pow_succ_r by apply blen_nonneg. lia.
Qed.

Lemma digits_val_cons d ds : digits_val (d :: ds) = d * 10 ^ blen ds + digits_val ds.
Proof. unfold digits_val at 1. simpl. by rewrite digits_val_acc. Qed.

Lemma digits_val_app a b : digits_val (a ++ b) = digits_val a * 10 ^ blen b + digits_val b.
Proof. unfold digits_val at 1. rewrite fold_left_app. by rewrite digits_val_acc. Qed.

Lemma blen_cons' (x : Z) l : blen (x :: l) = blen l + 1.
Proof. unfold blen. simpl. lia. Qed.

Lemma pow10_pos n : 0 ≤ n → 0 < 10 ^ n.
Proof. intros. by apply Z.pow_pos_nonneg. Qed.

Lemma digits_val_range ds : Forall is_digit ds → 0 ≤ digits_val ds < 10 ^ blen ds.
Proof.
  unfold is_digit. induction 1 as [|d ds Hd Hds IH]; [done|].
  rewrite digits_val_cons, blen_cons', Z.pow_add_r by (try apply blen_nonneg; lia).
  pose proof (pow10_pos (blen ds) (blen_nonneg _)). nia.
Qed.

Lemma digits_val_pos ds : Forall is_digit ds → ds ≠ [] → last ds ≠ Some 0 → 0 < digits_val ds.
Proof.
  intros Hds Hne Hl. destruct ds as [|d ds _] using rev_ind; [done|].
  rewrite last_snoc in Hl. apply Forall_app in Hds as [Hds Hd]. apply Forall_cons in Hd as [Hd _].
  rewrite digits_val_app. pose proof (digits_val_range ds Hds).
  change (digits_val [d]) with d. unfold is_digit in Hd. change (10 ^ blen [d]) with 10.
  assert (d ≠ 0) by congruence. lia.
Qed.

Lemma digits_val_lead ds :
  Forall is_digit ds → ds ≠ [] → head ds ≠ Some 0 → 10 ^ (blen ds - 1) ≤ digits_val ds.
Proof.
  intros Hds Hne Hh. destruct ds as [|d ds]; [done|]. simpl in Hh.
  apply Forall_cons in Hds as [Hd Hds]. rewrite digits_val_cons, blen_cons'.
  replace (blen ds + 1 - 1) with (blen ds) by lia.
  pose proof (digits_val_range ds Hds). pose proof (pow10_pos (blen ds) (blen_nonneg _)).
  unfold is_digit in Hd. assert (d ≠ 0) by congruence. nia.
Qed.

Lemma last_cons_Some0 (x : Z) l : last (x :: l) ≠ Some 0 → last l ≠ Some 0.
Proof. destruct l; [done|]. done. Qed.

(** Byte order of digit strings is the order of the fractions they spell. *)
Lemma bcmp_digits l1 l2 :
  Forall is_digit l1 → Forall is_digit l2 → last l1 ≠ Some 0 → last l2 ≠ Some 0 →
  bcmp l1 l2 = (digits_val l1 * 10 ^ blen l2 ?= digits_val l2 * 10 ^ blen l1).
Proof.
  intros H1. revert l2. induction H1 as [|x l1 Hx H1 IH]; intros l2 H2 Hl1 Hl2.
  { destruct H2 as [|y l2 Hy H2]; [done|].
    pose proof (digits_val_pos (y :: l2) ltac:(by constructor) ltac:(done) Hl2).
    symmetry. apply Z.compare_lt_iff. change (blen []) with 0. change (digits_val []) with 0. lia. }
  destruct H2 as [|y l2 Hy H2].
  { pose proof (digits_val_pos (x :: l1) ltac:(by constructor) ltac:(done) Hl1).
    symmetry. apply Z.compare_gt_iff. change (blen []) with 0. change (digits_val []) with 0. lia. }
  rewrite bcmp_cons, IH by eauto using last_cons_Some0.
  rewrite !digits_val_cons, !blen_cons', !Z.pow_add_r by (try apply blen_nonneg; lia).
  pose proof (digits_val_range l1 H1). pose proof (digits_val_range l2 H2).
  pose proof (pow10_pos (blen l1) (blen_nonneg _)). pose proof (pow10_pos (blen l2) (blen_nonneg _)).
  set (p1 := 10 ^ blen l1) in *. set (p2 := 10 ^ blen l2) in *.
  set (v1 := digits_val l1) in *. set (v2 := digits_val l2) in *.
  destruct (Z.compare_spec x y) as [->|Hxy|Hxy]; simpl.
  - destruct (Z.compare_spec (v1 * p2) (v2 * p1)) as [E|L|G]; symmetry;
      [apply Z.compare_eq_iff|apply Z.compare_lt_iff|apply Z.compare_gt_iff]; nia.
  - symmetry. apply Z.compare_lt_iff.
    assert (v1 * p2 < p1 * p2 ∧ 0 ≤ v2 * p1 ∧ (x + 1) * (p1 * p2) ≤ y * (p1 * p2)) by nia. lia.
  - symmetry. apply Z.compare_gt_iff.
    assert (v2 * p1 < p2 * p1 ∧ 0 ≤ v1 * p2 ∧ (y + 1) * (p1 * p2) ≤ x * (p1 * p2)) by nia. lia.
Qed.

(** ** [to_string] of an integer *)

Lemma digits_rev_spec fuel z :
  0 ≤ z < 2 ^ Z.of_nat fuel → fuel ≠ O →
  digits_val (reverse (digits_rev fuel z)) = z ∧ Forall is_digit (digits_rev fuel z) ∧
  digits_rev fuel z ≠ [].
Proof.
  revert z. induction fuel as [|fuel IH]; [done|]. intros z Hz _. simpl digits_rev.
  unfold is_digit in *. destruct (Z.ltb_spec z 10).
  { split_and!; [done|constructor; [lia|constructor]|done]. }
  assert (0 ≤ z / 10 < 2 ^ Z.of_nat fuel).
  { rewrite Nat2Z.inj_succ, Z.pow_succ_r in Hz by lia. split; [apply Z.div_pos; lia|].
    apply Z.div_lt_upper_bound; lia. }
  assert (fuel ≠ O).
  { intros ->. simpl in Hz. lia. }
  destruct (IH (z / 10)) as (Hv & Hd & Hn); [done..|].
  split_and!; [|constructor; [apply Z.mod_pos_bound; lia|done]|done].
  rewrite reverse_cons, digits_val_app, Hv. change (digits_val [z mod 10]) with (z mod 10).
  change (10 ^ blen [z mod 10]) with 10. pose proof (Z.div_mod z 10). lia.
Qed.

Lemma dec_digits_spec z :
  0 ≤ z → digits_val (dec_digits z) = z ∧ Forall is_digit (dec_digits z) ∧ dec_digits z ≠ [].
Proof.
  intros Hz. unfold dec_digits.
  destruct (digits_rev_spec (S (Z.to_nat (Z.log2 z))) z) as (Hv & Hd & Hn); [|done|].
  - rewrite Nat2Z.inj_succ, Z2Nat.id by apply Z.log2_nonneg.
    destruct (Z.eq_dec z 0) as [->|]; [simpl; lia|]. pose proof (Z.log2_spec z). lia.
  - split_and!; [done|by apply Forall_reverse|]. intros E. apply Hn.
    by rewrite <- (reverse_involutive (digits_rev _ _)), E.
Qed.

Lemma digits_rev_length fuel z k :
  0 ≤ z < 10 ^ Z.of_nat k → k ≠ O → (length (digits_rev fuel z) ≤ k)%nat.
Proof.
  revert z k. induction fuel as [|fuel IH]; intros z k Hz Hk; simpl; [lia|].
  destruct (Z.ltb_spec z 10); simpl; [lia|]. destruct k as [|k]; [done|].
  rewrite Nat2Z.inj_succ, Z.pow_succ_r in Hz by lia.
  apply le_n_S, IH.
  - split; [apply Z.div_pos; lia|]. apply Z.div_lt_upper_bound; lia.
  - intros ->. simpl in Hz. lia.
Qed.

Lemma dec_digits_length z k : 0 ≤ z < 10 ^ Z.of_nat k → k ≠ O → (length (dec_digits z) ≤ k)%nat.
Proof. intros. unfold dec_digits. rewrite length_reverse. by apply digits_rev_length. Qed.

(** ** Normalisation *)

(** What [normalize] leaves: no leading and no trailing zero. *)
Definition normal (ds : list Z) : Prop :=
  Forall is_digit ds ∧ head ds ≠ Some 0 ∧ last ds ≠ Some 0.

Lemma strip_leading_spec ds :
  Forall is_digit ds →
  digits_val (strip_leading ds) = digits_val ds ∧ Forall is_digit (strip_leading ds) ∧
  head (strip_leading ds) ≠ Some 0.
Proof.
  induction 1 as [|d ds Hd Hds IH]; [done|]. simpl.
  destruct (Z.eqb_spec d 0) as [->|Hn].
  - by rewrite digits_val_cons.
  - split_and!; [done|by constructor|]. simpl. congruence.
Qed.

Lemma strip_trailing_spec rds e :
  Forall is_digit rds →
  let r := strip_trailing rds e in
  e ≤ r.2 ∧ digits_val (reverse rds) = digits_val (reverse r.1) * 10 ^ (r.2 - e) ∧
  Forall is_digit r.1 ∧ head r.1 ≠ Some 0 ∧ (last rds ≠ Some 0 → last r.1 ≠ Some 0).
Proof.
  intros Hd. revert e. induction Hd as [|d ds Hd Hds IH]; intros e; simpl.
  { split_and!; try done; try lia. }
  destruct (Z.eqb_spec d 0) as [->|Hn]; simpl.
  - destruct (IH (e + 1)) as (He & Hv & Hf & Hh & Hl). split_and!; try done; [lia| |].
    + rewrite reverse_cons, digits_val_app, Hv.
      change (digits_val [0]) with 0. change (10 ^ blen [0]) with (10 ^ 1).
      set (r := strip_trailing ds (e + 1)) in *.
      replace (r.2 - e) with (r.2 - (e + 1) + 1) by lia. rewrite Z.pow_add_r by lia. lia.
    + intros Hlast. apply Hl. by apply last_cons_Some0 in Hlast.
  - rewrite Z.sub_diag, Z.mul_1_r. split_and!; try done; [by constructor|congruence].
Qed.

Lemma normalize_spec ds e :
  Forall is_digit ds →
  let r := normalize ds e in
  e ≤ r.2 ∧ digits_val ds = digits_val r.1 * 10 ^ (r.2 - e) ∧ normal r.1.
Proof.
  intros Hd. unfold normalize. simpl.
  destruct (strip_leading_spec ds Hd) as (Hv & Hd' & Hh).
  destruct (strip_trailing_spec (reverse (strip_leading ds)) e) as (He & Hv' & Hf & Hh' & Hl).
  { by apply Forall_reverse. }
  rewrite reverse_involutive, Hv in Hv'. split_and!; [done..|].
  split_and!; [by apply Forall_reverse| |by rewrite last_reverse].
  rewrite head_reverse. apply Hl. by rewrite last_reverse.
Qed.

Lemma normal_nil_val ds : normal ds → digits_val ds = 0 → ds = [].
Proof.
  intros (Hd & _ & Hl) Hv. destruct ds as [|d ds]; [done|].
  pose proof (digits_val_pos (d :: ds) Hd ltac:(done) Hl). lia.
Qed.

(** ** Comparison of normalised values *)

(** A finite value's sign, digits and exponent stand for
    [sign * digits * 10^exp]; over a common denominator [10^s] that is this
    integer. *)
Definition scaled (s sign : Z) (ds : list Z) (e : Z) : Z := sign * digits_val ds * 10 ^ (e + s).

Lemma cmp_magnitude_spec s d1 e1 d2 e2 :
  normal d1 → normal d2 → d1 ≠ [] → d2 ≠ [] → 0 ≤ e1 + s → 0 ≤ e2 + s →
  cmp_magnitude d1 e1 d2 e2 = (digits_val d1 * 10 ^ (e1 + s) ?= digits_val d2 * 10 ^ (e2 + s)).
Proof.
  intros (Hd1 & Hh1 & Hl1) (Hd2 & Hh2 & Hl2) Hn1 Hn2 He1 He2. unfold cmp_magnitude.
  pose proof (digits_val_range d1 Hd1). pose proof (digits_val_range d2 Hd2).
  pose proof (digits_val_lead d1 Hd1 Hn1 Hh1). pose proof (digits_val_lead d2 Hd2 Hn2 Hh2).
  assert (1 ≤ blen d1) by (destruct d1; [done|rewrite blen_cons'; pose proof (blen_nonneg d1); lia]).
  assert (1 ≤ blen d2) by (destruct d2; [done|rewrite blen_cons'; pose proof (blen_nonneg d2); lia]).
  pose proof (pow10_pos (e1 + s) He1). pose proof (pow10_pos (e2 + s) He2).
  assert (∀ a b, 1 ≤ a → 0 ≤ b → 10 ^ (a - 1) * 10 ^ b = 10 ^ (a + b - 1)) as Hpow.
  { intros. rewrite <- Z.pow_add_r by lia. f_equal. lia. }
  pose proof (Hpow (blen d1) (e1 + s) ltac:(done) He1). pose proof (Hpow (blen d2) (e2 + s) ltac:(done) He2).
  destruct (Z.compare_spec (e1 + blen d1 - 1) (e2 + blen d2 - 1)) as [E|L|G]; simpl.
  - rewrite bcmp_digits by done.
    destruct (Z.le_ge_cases (blen d1) (blen d2)) as [Hle|Hle].
    + replace (e1 + s) with ((blen d2 - blen d1) + (e2 + s)) by lia.
      replace (10 ^ blen d2) with (10 ^ (blen d2 - blen d1) * 10 ^ blen d1).
      2: { rewrite <- Z.pow_add_r by lia. f_equal. lia. }
      rewrite (Z.pow_add_r _ (blen d2 - blen d1)) by lia.
      rewrite !Z.mul_assoc, !compare_mul_r by (try done; apply pow10_pos; lia). done.
    + replace (e2 + s) with ((blen d1 - blen d2) + (e1 + s)) by lia.
      replace (10 ^ blen d1) with (10 ^ (blen d1 - blen d2) * 10 ^ blen d2).
      2: { rewrite <- Z.pow_add_r by lia. f_equal. lia. }
      rewrite (Z.pow_add_r _ (blen d1 - blen d2)) by lia.
      rewrite !Z.mul_assoc, !compare_mul_r by (try done; apply pow10_pos; lia). done.
  - symmetry. apply Z.compare_lt_iff.
    assert (10 ^ (blen d1 + (e1 + s)) ≤ 10 ^ (blen d2 + (e2 + s) - 1)) by (apply Z.pow_le_mono_r; lia).
    rewrite Z.pow_add_r in * by lia. nia.
  - symmetry. apply Z.compare_gt_iff.
    assert (10 ^ (blen d2 + (e2 + s)) ≤ 10 ^ (blen d1 + (e1 + s) - 1)) by (apply Z.pow_le_mono_r; lia).
    rewrite Z.pow_add_r in * by lia. nia.
Qed.

(** ** Limbs *)

Fixpoint limbs_val (l : list Z) : Z :=
  match l with [] => 0 | x :: l => x + LIMB * limbs_val l end.

Definition is_limb (x : Z) : Prop := 0 ≤ x < LIMB.

Lemma limbs_val_app a b : limbs_val (a ++ b) = limbs_val a + LIMB ^ blen a * limbs_val b.
Proof.
  induction a as [|x a IH]; simpl limbs_val; [unfold blen; simpl; lia|].
  rewrite IH, blen_cons', Z.pow_add_r by (try apply blen_nonneg; lia). lia.
Qed.

Lemma limbs_val_nonneg l : Forall is_limb l → 0 ≤ limbs_val l.
Proof. unfold is_limb, LIMB. induction 1 as [|x l Hx Hl IH]; simpl; unfold LIMB; lia. Qed.

Lemma push_carry_spec fuel c :
  0 ≤ c < LIMB ^ Z.of_nat fuel → limbs_val (push_carry fuel c) = c ∧ Forall is_limb (push_carry fuel c).
Proof.
  revert c. induction fuel as [|fuel IH]; intros c Hc; simpl push_carry.
  { simpl in Hc. split; [simpl; lia|constructor]. }
  destruct (Z.ltb_spec 0 c); [|split; [simpl; lia|constructor]].
  rewrite Nat2Z.inj_succ, Z.pow_succ_r in Hc by lia.
  destruct (IH (c / LIMB)) as [Hv Hl].
  { split; [apply Z.div_pos; unfold LIMB; lia|]. apply Z.div_lt_upper_bound; [done|lia]. }
  simpl limbs_val. rewrite Hv. split.
  - pose proof (Z.div_mod c LIMB ltac:(done)). lia.
  - constructor; [|done]. by apply Z.mod_pos_bound.
Qed.

(** No [u64] product overflows: a limb times 5^13 plus a carry fits. *)
Lemma mul_loop_spec limbs by_ c :
  Forall is_limb limbs → 0 ≤ c ≤ by_ → by_ ≤ 5 ^ 13 →
  limbs_val (mul_loop limbs by_ c) = limbs_val limbs * by_ + c ∧ Forall is_limb (mul_loop limbs by_ c).
Proof.
  intros Hl. revert c. induction Hl as [|l limbs Hl Hls IH]; intros c Hc Hby; cbn [mul_loop].
  { cbn [limbs_val]. rewrite Z.add_0_l. apply push_carry_spec. change (LIMB ^ Z.of_nat 3) with (10 ^ 27). change (5 ^ 13) with 1220703125 in Hby. lia. }
  unfold is_limb, LIMB in Hl.
  assert (0 ≤ l * by_ + c ≤ LIMB * by_) as Hv by (unfold LIMB; nia).
  unfold wrap. rewrite (Z.mod_small _ (2 ^ 64)) by (unfold LIMB in Hv; change (5 ^ 13) with 1220703125 in Hby; lia).
  destruct (IH ((l * by_ + c) / LIMB)) as [Hval Hlim]; [|done|].
  { split; [apply Z.div_pos; unfold LIMB; lia|]. apply Z.div_le_upper_bound; [done|lia]. }
  simpl limbs_val. rewrite Hval. split.
  - pose proof (Z.div_mod (l * by_ + c) LIMB ltac:(done)). lia.
  - constructor; [|done]. by apply Z.mod_pos_bound.
Qed.

Lemma scale_spec fuel base max left limbs :
  Forall is_limb limbs → 0 < max → 1 < base → base ^ max ≤ 5 ^ 13 →
  0 ≤ left ≤ Z.of_nat fuel →
  limbs_val (scale fuel base max left limbs) = limbs_val limbs * base ^ left ∧
  Forall is_limb (scale fuel base max left limbs).
Proof.
  intros Hl Hmax Hbase Hpow. revert left limbs Hl.
  induction fuel as [|fuel IH]; intros left limbs Hl Hleft; simpl scale.
  { replace left with 0 by lia. split; [lia|done]. }
  destruct (Z.ltb_spec 0 left); [|replace left with 0 by lia; split; [lia|done]].
  destruct (mul_loop_spec limbs (base ^ Z.min left max) 0) as [Hv Hf]; [done| | |].
  - pose proof (Z.pow_pos_nonneg base (Z.min left max)). lia.
  - pose proof (Z.pow_le_mono_r base (Z.min left max) max). lia.
  - destruct (IH (left - Z.min left max) (mul limbs (base ^ Z.min left max)) Hf) as [Hv' Hf']; [lia|].
    split; [|done]. rewrite Hv'. unfold mul. rewrite Hv, Z.add_0_r, <- Z.mul_assoc, <- Z.pow_add_r by lia.
    do 2 f_equal. lia.
Qed.

Lemma pop_zero_limbs_spec l :
  limbs_val (reverse (pop_zero_limbs l)) = limbs_val (reverse l) ∧
  (Forall is_limb l → Forall is_limb (pop_zero_limbs l)).
Proof.
  induction l as [|x [|y l] IH]; [done..|].
  change (pop_zero_limbs (x :: y :: l)) with (if x =? 0 then pop_zero_limbs (y :: l) else x :: y :: l).
  destruct (Z.eqb_spec x 0) as [->|]; [|done]. destruct IH as [IHv IHf]. split.
  - rewrite IHv, (reverse_cons (y :: l)), limbs_val_app. simpl. lia.
  - intros H%Forall_cons. apply IHf, H.
Qed.

Lemma limbs_of_spec m :
  0 ≤ m < 2 ^ 64 → limbs_val (limbs_of m) = m ∧ Forall is_limb (limbs_of m).
Proof.
  intros Hm. unfold limbs_of.
  destruct (pop_zero_limbs_spec (reverse [m mod LIMB; (m / LIMB) mod LIMB; m / (LIMB * LIMB)])) as [Hv Hf].
  rewrite reverse_involutive in Hv. split.
  - rewrite Hv. simpl limbs_val. rewrite <- Z.div_div by done.
    pose proof (Z.div_mod m LIMB ltac:(done)). pose proof (Z.div_mod (m / LIMB) LIMB ltac:(done)). lia.
  - apply Forall_reverse, Hf, Forall_reverse. unfold is_limb.
    repeat constructor; try (by apply Z.mod_pos_bound).
    + apply Z.div_pos; unfold LIMB; lia.
    + apply Z.div_lt_upper_bound; [done|]. change (LIMB * LIMB * LIMB) with (10 ^ 27). lia.
Qed.

Lemma pad9_spec l : is_limb l → digits_val (pad9 l) = l ∧ Forall is_digit (pad9 l) ∧ blen (pad9 l) = 9.
Proof.
  unfold is_limb, LIMB. intros Hl. unfold pad9.
  destruct (dec_digits_spec l) as (Hv & Hd & _); [lia|].
  pose proof (dec_digits_length l 9 ltac:(simpl; lia) ltac:(done)).
  split_and!.
  - rewrite digits_val_app, Hv. assert (∀ n, digits_val (replicate n 0) = 0) as ->; [|lia].
    induction n as [|n IH]; [done|]. simpl replicate. rewrite digits_val_cons, IH. lia.
  - apply Forall_app. split; [|done]. apply Forall_replicate. done.
  - unfold blen. rewrite length_app, length_replicate. lia.
Qed.

Lemma concat_pad9_spec rest :
  Forall is_limb rest →
  digits_val (concat (map pad9 rest)) = limbs_val (reverse rest) ∧
  Forall is_digit (concat (map pad9 rest)) ∧ blen (concat (map pad9 rest)) = 9 * blen rest.
Proof.
  induction 1 as [|l rest Hl Hrest (IHv & IHd & IHb)]; [done|]. simpl.
  destruct (pad9_spec l Hl) as (Hv & Hd & Hb). split_and!.
  - rewrite digits_val_app, Hv, IHv, IHb, reverse_cons, limbs_val_app. simpl limbs_val.
    assert (blen (reverse rest) = blen rest) as -> by (unfold blen; by rewrite length_reverse).
    rewrite (Z.pow_mul_r 10 9) by (try apply blen_nonneg; lia). change (10 ^ 9) with LIMB. lia.
  - by apply Forall_app.
  - rewrite blen_app, Hb, IHb, blen_cons'. lia.
Qed.

Lemma limb_digits_spec limbs :
  Forall is_limb limbs → digits_val (limb_digits limbs) = limbs_val limbs ∧ Forall is_digit (limb_digits limbs).
Proof.
  intros Hl. unfold limb_digits. rewrite <- (reverse_involutive limbs) at 2.
  apply Forall_reverse in Hl. destruct Hl as [|top rest Ht Hr]; [done|].
  destruct (concat_pad9_spec rest Hr) as (Hv & Hd & Hb).
  destruct (dec_digits_spec top) as (Htv & Htd & _); [apply Ht|]. split.
  - rewrite digits_val_app, Htv, Hv, Hb, reverse_cons, limbs_val_app. simpl limbs_val.
    assert (blen (reverse rest) = blen rest) as -> by (unfold blen; by rewrite length_reverse).
    rewrite (Z.pow_mul_r 10 9) by (try apply blen_nonneg; lia). change (10 ^ 9) with LIMB. lia.
  - by apply Forall_app.
Qed.

(** ** The exact value of a double *)

Lemma f64_frac_range d : 0 ≤ f64_frac d < 2 ^ 52.
Proof.
  unfold f64_frac. change (2 ^ 52 - 1) with (Z.ones 52). rewrite Z.land_ones by lia.
  by apply Z.mod_pos_bound.
Qed.

Lemma f64_raw_exp_range d : 0 ≤ f64_raw_exp d < 2048.
Proof.
  unfold f64_raw_exp. change 2047 with (Z.ones 11). rewrite Z.land_ones by lia.
  by apply Z.mod_pos_bound.
Qed.

Lemma lor_bit52 x : 0 ≤ x < 2 ^ 52 → Z.lor x (Z.shiftl 1 52) = x + 2 ^ 52.
Proof.
  intros Hx. change (Z.shiftl 1 52) with (2 ^ 52).
  assert (Z.land x (2 ^ 52) = 0) as Hl.
  { apply Z.bits_inj'. intros i Hi. rewrite Z.land_spec, Z.bits_0, Z.pow2_bits_eqb by lia.
    destruct (Z.eqb_spec 52 i) as [<-|]; [|by rewrite andb_false_r].
    by rewrite (testbit_high 52) by lia. }
  by rewrite <- Z.lxor_lor, <- Z.add_nocarry_lxor.
Qed.

Lemma trailing_zeros_spec fuel m :
  let k := trailing_zeros fuel m in 0 ≤ k ∧ m = Z.shiftr m k * 2 ^ k.
Proof.
  revert m. induction fuel as [|fuel IH]; intros m; cbn [trailing_zeros]; cbv zeta.
  { split; [lia|]. rewrite Z.shiftr_0_r. lia. }
  destruct (Z.even m) eqn:E; [|split; [lia|]; rewrite Z.shiftr_0_r; lia].
  destruct (IH (Z.shiftr m 1)) as [Hk Hm]. set (k := trailing_zeros fuel (Z.shiftr m 1)) in *.
  split; [lia|]. rewrite Z.shiftr_shiftr in Hm by done.
  rewrite (Z.pow_add_r 2 1 k) by lia. apply Z.even_spec in E as [h ->].
  rewrite (Z.shiftr_div_pow2 (2 * h) 1), Z.mul_comm, Z.div_mul in Hm by lia.
  rewrite (Z.mul_comm h 2) in Hm. lia.
Qed.

(** The mantissa and exponent [exact_f64_parts] starts from. *)
Lemma f64_units_parts d :
  let m0 := if f64_raw_exp d =? 0 then f64_frac d else Z.lor (f64_frac d) (Z.shiftl 1 52) in
  let e0 := if f64_raw_exp d =? 0 then -1074 else f64_raw_exp d - 1075 in
  f64_units d = f64_sgn d * (m0 * 2 ^ (e0 + 1074)) ∧ 0 ≤ m0 < 2 ^ 53 ∧ -1074 ≤ e0.
Proof.
  pose proof (f64_frac_range d). pose proof (f64_raw_exp_range d). unfold f64_units.
  destruct (Z.eqb_spec (f64_raw_exp d) 0); cbv zeta.
  - split_and!; [|lia..]. replace (-1074 + 1074) with 0 by lia. lia.
  - rewrite lor_bit52 by done. split_and!; [|lia..].
    by replace (f64_raw_exp d - 1075 + 1074) with (f64_raw_exp d - 1) by lia.
Qed.

Lemma exact_f64_parts_value d :
  f64_units d ≠ 0 →
  ∃ ds e, exact_f64_parts d = (f64_sgn d, ds, e) ∧ normal ds ∧ ds ≠ [] ∧ -1074 ≤ e ∧
    scaled 1074 (f64_sgn d) ds e = f64_units d * 5 ^ 1074.
Proof.
  intros Hnz. destruct (f64_units_parts d) as (Hu & Hm0 & He0). unfold exact_f64_parts.
  set (m0 := if f64_raw_exp d =? 0 then _ else _) in *.
  set (e0 := if f64_raw_exp d =? 0 then _ else f64_raw_exp d - 1075) in *. cbv zeta.
  destruct (trailing_zeros_spec 64 m0) as [Htz Hm]. set (tz := trailing_zeros 64 m0) in *.
  set (m := Z.shiftr m0 tz) in *. clearbody tz.
  assert (0 ≤ m < 2 ^ 64) as Hmr by (split; [apply Z.shiftr_nonneg|pose proof (shiftr_bound 53 tz m0)]; lia).
  destruct (limbs_of_spec m Hmr) as [Hlv Hlf].
  set (limbs := if 0 <=? e0 + tz then _ else _).
  set (exp10 := if 0 <=? e0 + tz then 0 else e0 + tz).
  assert (limbs_val limbs * 10 ^ (exp10 + 1074) = m * 2 ^ (e0 + tz + 1074) * 5 ^ 1074 ∧
          Forall is_limb limbs ∧ -1074 ≤ exp10) as (Hval & Hlimbs & He10).
  { unfold limbs, exp10. clear limbs exp10. destruct (Z.leb_spec 0 (e0 + tz)).
    - destruct (scale_spec (Z.to_nat (e0 + tz)) 2 29 (e0 + tz) (limbs_of m)) as [Hs Hf]; [done|done|done|done|lia|].
      split_and!; [|done|lia]. rewrite Hs, Hlv, (Z.pow_add_r 2 (e0 + tz) 1074) by lia.
      change 10 with (2 * 5). rewrite Z.pow_mul_l, Z.add_0_l. generalize (2 ^ 1074) (5 ^ 1074). intros; lia.
    - destruct (scale_spec (Z.to_nat (- (e0 + tz))) 5 13 (- (e0 + tz)) (limbs_of m)) as [Hs Hf]; [done|done|done|done|lia|].
      split_and!; [|done|lia]. rewrite Hs, Hlv. change 10 with (2 * 5). rewrite Z.pow_mul_l.
      replace (5 ^ 1074) with (5 ^ (- (e0 + tz)) * 5 ^ (e0 + tz + 1074)); [lia|].
      rewrite <- Z.pow_add_r by lia. f_equal. lia. }
  clearbody limbs exp10. destruct (limb_digits_spec limbs Hlimbs) as [Hdv Hdd].
  destruct (normalize_spec (limb_digits limbs) exp10 Hdd) as (Hle & Hnv & Hnorm).
  set (r := normalize (limb_digits limbs) exp10) in *.
  assert (scaled 1074 (f64_sgn d) r.1 r.2 = f64_units d * 5 ^ 1074) as Hsc.
  { unfold scaled. rewrite Hu, Hm.
    replace (r.2 + 1074) with ((r.2 - exp10) + (exp10 + 1074)) by lia.
    rewrite Z.pow_add_r, Z.mul_assoc, <- (Z.mul_assoc (f64_sgn d)), <- Hnv, Hdv, <- Z.mul_assoc, Hval by lia.
    replace (e0 + tz + 1074) with (tz + (e0 + 1074)) by lia. rewrite (Z.pow_add_r 2 tz) by lia.
    generalize (2 ^ tz) (2 ^ (e0 + 1074)) (5 ^ 1074). intros; lia. }
  exists r.1, r.2. split_and!; [done|done| |lia|done].
  intros E. unfold scaled in Hsc. rewrite E in Hsc. change (digits_val []) with 0 in Hsc.
  assert (0 < 5 ^ 1074) by done. nia.
Qed.

(** ** Values of classified numbers *)

(** A well-formed value with exponents no lower than [-s]. *)
Definition num_ok (s : Z) (v : NumVal) : Prop :=
  match v with
  | Nan | Zero => True
  | Inf x => x = 1 ∨ x = -1
  | Finite x ds e => (x = 1 ∨ x = -1) ∧ normal ds ∧ ds ≠ [] ∧ 0 ≤ e + s
  end.

Definition num_finite (v : NumVal) : Prop :=
  match v with Zero | Finite _ _ _ => True | _ => False end.

(** A finite value times [10^s]. *)
Definition num_val (s : Z) (v : NumVal) : Z :=
  match v with Finite x ds e => scaled s x ds e | _ => 0 end.

Lemma scaled_pos s ds e : normal ds → ds ≠ [] → 0 ≤ e + s → 0 < digits_val ds * 10 ^ (e + s).
Proof.
  intros (Hd & _ & Hl) Hn He. pose proof (digits_val_pos ds Hd Hn Hl).
  pose proof (pow10_pos (e + s) He). nia.
Qed.

Lemma cmp_finite s a b :
  num_ok s a → num_ok s b → num_finite a → num_finite b →
  cmp a b = Some (num_val s a ?= num_val s b).
Proof.
  destruct a as [| | |s1 d1 e1], b as [| | |s2 d2 e2]; try done; cbn -[Z.mul Z.add Z.pow Z.compare]; unfold scaled.
  - intros _ (Hs & Hn & Hne & He) _ _. f_equal. pose proof (scaled_pos s d2 e2 Hn Hne He).
    destruct Hs as [-> | ->]; cbn -[Z.mul Z.add Z.pow Z.compare]; symmetry; [apply Z.compare_lt_iff|apply Z.compare_gt_iff]; lia.
  - intros (Hs & Hn & Hne & He) _ _ _. f_equal. pose proof (scaled_pos s d1 e1 Hn Hne He).
    destruct Hs as [-> | ->]; cbn -[Z.mul Z.add Z.pow Z.compare]; symmetry; [apply Z.compare_gt_iff|apply Z.compare_lt_iff]; lia.
  - intros (Hs1 & Hn1 & Hne1 & He1) (Hs2 & Hn2 & Hne2 & He2) _ _. f_equal.
    pose proof (scaled_pos s d1 e1 Hn1 Hne1 He1). pose proof (scaled_pos s d2 e2 Hn2 Hne2 He2).
    rewrite (cmp_magnitude_spec s) by done. rewrite <- !Z.mul_assoc.
    destruct Hs1 as [-> | ->], Hs2 as [-> | ->]; cbn -[Z.mul Z.add Z.pow Z.compare cmp_magnitude]; symmetry.
    + by rewrite !Z.mul_1_l.
    + apply Z.compare_gt_iff. lia.
    + apply Z.compare_lt_iff. lia.
    + rewrite <- Z.compare_antisym. set (u := _ * _) in *. set (v := digits_val d2 * _) in *.
      destruct (Z.compare_spec v u); [apply Z.compare_eq_iff|apply Z.compare_lt_iff|apply Z.compare_gt_iff]; lia.
Qed.

Lemma from_int_spec n :
  num_ok 0 (from_int n) ∧ num_finite (from_int n) ∧ num_val 1074 (from_int n) = n * 10 ^ 1074.
Proof.
  unfold from_int. destruct (Z.eqb_spec n 0) as [->|Hn]; [done|].
  set (mag := if n <? 0 then - n else n). set (sign := if n <? 0 then -1 else 1).
  assert (sign * mag = n ∧ 0 < mag ∧ (sign = 1 ∨ sign = -1)) as (Hs & Hm & Hsg)
    by (unfold sign, mag; destruct (Z.ltb_spec n 0); lia).
  destruct (dec_digits_spec mag) as (Hv & Hd & _); [lia|].
  destruct (normalize_spec (dec_digits mag) 0 Hd) as (He & Hnv & Hnorm).
  set (r := normalize (dec_digits mag) 0) in *. rewrite Hv, Z.sub_0_r in Hnv.
  split_and!; [|done|].
  - split_and!; [done|done| |lia]. intros E. rewrite E in Hnv. change (digits_val []) with 0 in Hnv. lia.
  - cbn [num_val]. unfold scaled. rewrite (Z.pow_add_r 10 r.2), <- Hs by lia. rewrite Hnv.
    generalize (10 ^ 1074). intros; lia.
Qed.

Lemma f64_sgn_cases d : f64_sgn d = 1 ∨ f64_sgn d = -1.
Proof. unfold f64_sgn. destruct (f64_negative d); auto. Qed.

Lemma f64_units_bound d : f64_raw_exp d ≠ 2047 → - 2 ^ 2100 < f64_units d < 2 ^ 2100.
Proof.
  intros He. pose proof (f64_frac_range d). pose proof (f64_raw_exp_range d). unfold f64_units.
  assert (0 ≤ (if f64_raw_exp d =? 0 then f64_frac d
     else (f64_frac d + 2 ^ 52) * 2 ^ (f64_raw_exp d - 1)) < 2 ^ 2100).
  { destruct (Z.eqb_spec (f64_raw_exp d) 0); [split; [lia|]; apply Z.lt_trans with (2 ^ 52); [lia|done]|].
    assert (2 ^ (f64_raw_exp d - 1) ≤ 2 ^ 2045) by (apply Z.pow_le_mono_r; lia).
    assert (0 < 2 ^ (f64_raw_exp d - 1)) by (apply Z.pow_pos_nonneg; lia).
    replace (2 ^ 2100) with (2 ^ 55 * 2 ^ 2045) by (by rewrite <- Z.pow_add_r).
    generalize dependent (2 ^ 2045). intros. nia. }
  destruct (f64_sgn_cases d) as [-> | ->]; lia.
Qed.

(** A double that is not NaN: an infinity, or a finite value that [from_f64]
    represents exactly. *)
Lemma from_f64_spec d :
  f64_is_nan d = false →
  (f64_is_infinite d = true ∧ from_f64 d = Inf (f64_sgn d) ∧ f64_order d = f64_sgn d * 2 ^ 2100) ∨
  (f64_is_infinite d = false ∧ num_finite (from_f64 d) ∧ num_ok 1074 (from_f64 d) ∧
   num_val 1074 (from_f64 d) = f64_units d * 5 ^ 1074 ∧ f64_order d = f64_units d ∧
   - 2 ^ 2100 < f64_units d < 2 ^ 2100).
Proof.
  intros Hn. unfold from_f64, f64_order. rewrite Hn. destruct (f64_is_infinite d) eqn:Hi.
  - left. split_and!; [done| |done]. destruct (f64_sgn_cases d) as [-> | ->]; done.
  - right. assert (f64_raw_exp d ≠ 2047) as He.
    { intros E. unfold f64_is_nan in Hn. unfold f64_is_infinite in Hi. rewrite E in Hn, Hi. simpl in *.
      by destruct (f64_frac d =? 0). }
    pose proof (f64_units_bound d He). destruct (Z.eqb_spec (f64_units d) 0) as [E|Hnz].
    + rewrite E. done.
    + destruct (exact_f64_parts_value d Hnz) as (ds & e & -> & Hnorm & Hne & Hge & Hv).
      split_and!; try done; try lia. simpl. split_and!; [apply f64_sgn_cases|done..|lia].
Qed.

Lemma num_ok_mono s s' v : s ≤ s' → num_ok s v → num_ok s' v.
Proof. destruct v; simpl; try done. intros ? (? & ? & ? & ?). split_and!; try done. lia. Qed.

Lemma from_int_ok s n : 0 ≤ s → num_ok s (from_int n).
Proof. intros. apply (num_ok_mono 0); [done|]. apply from_int_spec. Qed.

(** ** The allocation-free comparison *)

Lemma cmp_i64_f64_exact i f :
  i64_ok i → f64_is_nan f = false → f64_is_infinite f = false → f64_order f = f64_units f →
  cmp_i64_f64 i f = Some (i * 2 ^ 1074 ?= f64_units f).
Proof.
  unfold i64_ok, cmp_i64_f64. intros Hi -> -> ->. cbn [andb]. unfold f64_trunc, f64_minus_int.
  assert (0 < 2 ^ 1074) as HP by done. generalize dependent (2 ^ 1074). intros P HP.
  set (u := f64_units f). clearbody u. cbv zeta.
  destruct (Z.leb_spec (2 ^ 63 * P) u).
  { f_equal. symmetry. apply Z.compare_lt_iff. nia. }
  destruct (Z.ltb_spec u (- (2 ^ 63 * P))).
  { f_equal. symmetry. apply Z.compare_gt_iff. nia. }
  pose proof (Z.quot_rem' u P) as Hq. pose proof (Z.rem_bound_abs u P ltac:(lia)) as Hr.
  set (t := Z.quot u P) in *. set (r := Z.rem u P) in *. clearbody t r. f_equal.
  destruct (Z.compare_spec i t) as [->|Hlt|Hgt].
  - replace (u - t * P) with r by lia. destruct (Z.ltb_spec 0 r), (Z.ltb_spec r 0); try lia; symmetry;
      [apply Z.compare_lt_iff|apply Z.compare_gt_iff|apply Z.compare_eq_iff]; lia.
  - symmetry. apply Z.compare_lt_iff. assert ((i + 1) * P ≤ t * P) by nia. lia.
  - symmetry. apply Z.compare_gt_iff. assert ((t + 1) * P ≤ i * P) by nia. lia.
Qed.

Lemma int_double_cmp i f :
  i64_ok i → cmp_i64_f64 i f = cmp (from_int i) (from_f64 f).
Proof.
  intros Hi. destruct (f64_is_nan f) eqn:Hn.
  { unfold cmp_i64_f64, from_f64. rewrite Hn. by destruct (from_int i). }
  destruct (from_int_spec i) as (Hok & Hfin & Hval).
  destruct (from_f64_spec f Hn) as [(Hinf & -> & Ho)|(Hinf & Hffin & Hfok & Hfval & Ho & _)].
  - unfold cmp_i64_f64. rewrite Hn, Hinf. unfold f64_sgn.
    destruct (f64_negative f), (from_int i); done.
  - rewrite (cmp_i64_f64_exact i f Hi Hn Hinf Ho),
      (cmp_finite 1074 _ _ (from_int_ok 1074 i ltac:(lia)) Hfok Hfin Hffin).
    f_equal. rewrite Hval, Hfval. change 10 with (2 * 5). rewrite Z.pow_mul_l, Z.mul_assoc.
    symmetry. apply compare_mul_r. done.
Qed.

Lemma double_double_cmp x y : f64_partial_cmp x y = cmp (from_f64 x) (from_f64 y).
Proof.
  unfold f64_partial_cmp. destruct (f64_is_nan x) eqn:Hx.
  { unfold from_f64 at 1. by rewrite Hx. }
  destruct (f64_is_nan y) eqn:Hy.
  { unfold from_f64 at 2. rewrite Hy. by destruct (from_f64 x). }
  cbn [orb]. assert (0 < 2 ^ 2100) as HP by done.
  destruct (from_f64_spec x Hx) as [(_ & -> & ->)|(_ & Hxf & Hxok & Hxv & -> & Hxb)],
    (from_f64_spec y Hy) as [(_ & -> & ->)|(_ & Hyf & Hyok & Hyv & -> & Hyb)];
    generalize dependent (2 ^ 2100); intros P HP; intros.
  - destruct (f64_sgn_cases x) as [-> | ->], (f64_sgn_cases y) as [-> | ->]; cbn [cmp]; f_equal;
      [apply Z.compare_eq_iff|apply Z.compare_gt_iff|apply Z.compare_lt_iff|apply Z.compare_eq_iff]; lia.
  - clear Hyv. destruct (f64_sgn_cases x) as [-> | ->], (from_f64 y); try contradiction; cbn [cmp]; f_equal;
      first [apply Z.compare_gt_iff; lia|apply Z.compare_lt_iff; lia].
  - clear Hxv. destruct (f64_sgn_cases y) as [-> | ->], (from_f64 x); try contradiction; cbn [cmp]; f_equal;
      first [apply Z.compare_gt_iff; lia|apply Z.compare_lt_iff; lia].
  - rewrite (cmp_finite 1074 _ _ Hxok Hyok Hxf Hyf), Hxv, Hyv. f_equal. symmetry. apply compare_mul_r. done.
Qed.

(** [cmp] is antisymmetric. *)
Lemma cmp_antisym s a b : num_ok s a → num_ok s b → cmp b a = option_map CompOpp (cmp a b).
Proof.
  destruct a as [|x| |s1 d1 e1], b as [|y| |s2 d2 e2]; try done; simpl.
  - intros _ _. by rewrite <- Z.compare_antisym.
  - intros _ _. by destruct (x =? 1).
  - intros _ _. by destruct (x =? 1).
  - intros _ _. by destruct (y =? 1).
  - intros _ _. by destruct (0 <? s2).
  - intros _ _. by destruct (y =? 1).
  - intros _ _. by destruct (0 <? s1).
  - intros Ha Hb. etransitivity; [exact (cmp_finite s (Finite s2 d2 e2) (Finite s1 d1 e1) Hb Ha I I)|].
    etransitivity; [|symmetry; exact (f_equal (option_map CompOpp)
      (cmp_finite s (Finite s1 d1 e1) (Finite s2 d2 e2) Ha Hb I I))].
    cbn [option_map]. by rewrite <- Z.compare_antisym.
Qed.

Lemma from_f64_ok d : num_ok 1074 (from_f64 d).
Proof.
  destruct (f64_is_nan d) eqn:Hn; [unfold from_f64; by rewrite Hn|].
  destruct (from_f64_spec d Hn) as [(_ & -> & _)|(_ & _ & ? & _)]; [apply f64_sgn_cases|done].
Qed.

(** [eq] holds exactly of the pairs [cmp] calls equal. *)
Lemma eq_cmp s a b : num_ok s a → num_ok s b → Numeric.eq a b = bool_decide (cmp a b = Some Eq).
Proof.
  destruct a as [|x| |s1 d1 e1], b as [|y| |s2 d2 e2]; try done; simpl.
  - intros _ _. apply eq_true_iff_eq. rewrite bool_decide_eq_true, Z.eqb_eq, <- Z.compare_eq_iff. split; [by intros ->|by intros [=]].
  - intros [-> | ->] _; done.
  - intros [-> | ->] _; done.
  - intros _ [-> | ->]; done.
  - intros _ ([-> | ->] & _); done.
  - intros _ [-> | ->]; done.
  - intros ([-> | ->] & _) _; done.
  - intros (H1 & _) (H2 & _). apply eq_true_iff_eq. rewrite bool_decide_eq_true, !andb_true_iff, bool_decide_eq_true, !Z.eqb_eq.
    unfold cmp_magnitude.
    destruct H1 as [-> | ->], H2 as [-> | ->]; cbn -[Z.add Z.sub Z.compare thn]; [split|split; [intros [[[=] _] _]|discriminate]|split; [intros [[[=] _] _]|discriminate]|split].
    + intros [[_ ->] ->]. by rewrite Z.compare_refl, bcmp_refl.
    + intros [= [E%Z.compare_eq Hb%bcmp_Eq]%thn_Eq]. subst. split; [done|lia].
    + intros [[_ ->] ->]. by rewrite Z.compare_refl, bcmp_refl.
    + intros [= H]. rewrite thn_opp, thn_Eq in H. destruct H as [E Hb].
      assert (∀ c, CompOpp c = Eq → c = Eq) as Hopp by (by intros []).
      apply Hopp, Z.compare_eq in E. apply Hopp, bcmp_Eq in Hb. subst. split; [done|lia].
Qed.

(** ** Properties *)

(** Integer operands have the width their type says. *)
Definition int_wf (v : Bson) : Prop :=
  match v with Int32 n => i32_ok n | Int64 n => i64_ok n | _ => True end.

Lemma int_wf_i64 v n : int_wf v → v = Int32 n ∨ v = Int64 n → i64_ok n.
Proof. unfold int_wf, i32_ok, i64_ok. intros Hw [-> | ->]; lia. Qed.

Lemma int_int_cmp x y : Some (x ?= y) = cmp (from_int x) (from_int y).
Proof.
  destruct (from_int_spec x) as (Hx & Hxf & Hxv), (from_int_spec y) as (Hy & Hyf & Hyv).
  rewrite (cmp_finite 1074 _ _ (from_int_ok 1074 x ltac:(lia)) (from_int_ok 1074 y ltac:(lia)) Hxf Hyf), Hxv, Hyv.
  f_equal. symmetry. apply compare_mul_r. done.
Qed.

Local Opaque cmp from_f64 from_int f64_partial_cmp cmp_i64_f64 num_ok.

Lemma fast_cmp_classify dec a b r :
  int_wf a → int_wf b → fast_cmp a b = Some r →
  ∃ na nb, classify dec a = Some na ∧ classify dec b = Some nb ∧
    num_ok 1074 na ∧ num_ok 1074 nb ∧ cmp na nb = r.
Proof.
  assert (0 ≤ 1074) as H0 by lia. intros Ha Hb Hf.
  destruct a, b; try discriminate Hf; injection Hf as <-; eexists _, _;
    (split; [reflexivity|]); (split; [reflexivity|]);
    (split; [first [apply from_f64_ok|by apply from_int_ok]|]);
    (split; [first [apply from_f64_ok|by apply from_int_ok]|]); symmetry;
    try apply int_int_cmp; try apply double_double_cmp;
    try (apply int_double_cmp; eauto using int_wf_i64).
  all: rewrite int_double_cmp by eauto using int_wf_i64.
  all: symmetry; apply (cmp_antisym 1074); [by apply from_int_ok|apply from_f64_ok].
Qed.

Local Transparent cmp from_f64 from_int f64_partial_cmp cmp_i64_f64 num_ok.

(** The digits and the power of ten [exact_f64_parts] returns are exactly
    the double's value: with [sign * digits * 10^e] and the double both taken
    over the denominator [10^1074], they are the same integer, and the digits
    have no leading and no trailing zero. In particular no [u64] product of the
    limb loop overflows. *)
Theorem exact_f64_parts_exact d :
  f64_units d ≠ 0 →
  ∃ ds e, exact_f64_parts d = (f64_sgn d, ds, e) ∧ normal ds ∧ ds ≠ [] ∧ -1074 ≤ e ∧
    f64_sgn d * digits_val ds * 10 ^ (e + 1074) = f64_units d * 5 ^ 1074.
Proof. intros Hnz. exact (exact_f64_parts_value d Hnz). Qed.

Lemma exact_f64_parts_exact_witness :
  ∃ ds e, exact_f64_parts 0x3FB999999999999A = (1, ds, e) ∧ normal ds ∧ ds ≠ [] ∧ -1074 ≤ e ∧
    1 * digits_val ds * 10 ^ (e + 1074) = f64_units 0x3FB999999999999A * 5 ^ 1074.
Proof. apply (exact_f64_parts_exact 0x3FB999999999999A). vm_compute. discriminate. Defined.

(** On int32, int64 and double operands the allocation-free [fast_cmp]
    gives the verdict of [classify] and [cmp], NaN pairs included, and
    [fast_eq] that of [eq]; Decimal128 and non-numbers are left to them. *)
Theorem fast_cmp_agrees dec a b :
  int_wf a → int_wf b →
  match fast_cmp a b with
  | Some r => ∃ na nb, classify dec a = Some na ∧ classify dec b = Some nb ∧ cmp na nb = r ∧
                fast_eq a b = Some (Numeric.eq na nb)
  | None => fast_eq a b = None ∧
      (is_numberish a = true → a = Boolean true ∨ a = Boolean false ∨
       (is_numberish b = true → b = Boolean true ∨ b = Boolean false))
  end.
Proof.
  intros Ha Hb. unfold fast_eq. destruct (fast_cmp a b) as [r|] eqn:Hf.
  - destruct (fast_cmp_classify dec a b r Ha Hb Hf) as (na & nb & Hna & Hnb & Hoka & Hokb & Hc).
    exists na, nb. split_and!; [done..|]. cbn [option_map]. by rewrite (eq_cmp 1074), Hc.
  - split; [done|]. intros Hn. destruct a as [| | | |[]| | | | | | | | | | | | | | | |]; try discriminate Hn; auto;
      right; right; intros Hm; destruct b as [| | | |[]| | | | | | | | | | | | | | | |];
      try discriminate Hm; try discriminate Hf; auto.
Qed.

Lemma fast_cmp_agrees_witness :
  int_wf (Int64 (2 ^ 62 + 46)) ∧ int_wf (Double 0x43D0000000000000) ∧
  match fast_cmp (Int64 (2 ^ 62 + 46)) (Double 0x43D0000000000000) with
  | Some r => ∃ na nb, classify id (Int64 (2 ^ 62 + 46)) = Some na ∧
      classify id (Double 0x43D0000000000000) = Some nb ∧ cmp na nb = r ∧
      fast_eq (Int64 (2 ^ 62 + 46)) (Double 0x43D0000000000000) = Some (Numeric.eq na nb)
  | None => False
  end.
Proof.
  split; [unfold int_wf, i64_ok; lia|]. split; [exact I|].
  exact (fast_cmp_agrees id (Int64 (2 ^ 62 + 46)) (Double 0x43D0000000000000)
           ltac:(unfold int_wf, i64_ok; lia) I).
Defined.
