(* ===== verification/Order.v ===== *)
(** * BSON sort order: secantus-core/src/order.rs

    The cross-type comparator of [$sort], [$min]/[$max] and the comparison
    operators. The thread's BinData order is an argument; the active collation
    is [None] or the comparison of its collator (the [icu] crate), applied to
    the text. [Decimal128::to_string] is a parameter, as in Numeric.v. *)
From S2P Require Import Prelude RustM Bson Lex Numeric.
Open Scope Z_scope.

Definition EMPTY_ARRAY_SORT_MARKER : Bson := Undefined.

Inductive BinDataOrder := Mongod | Bytes | Format4.

#[export] Instance BinDataOrder_eq_dec : EqDecision BinDataOrder.
Proof. solve_decision. Defined.

Definition type_rank (v : Bson) : Z :=
  match as_raw_text v with
  | Some (t, _) =>
      if t =? 11 then 120 else if t =? 12 then 122 else if t =? 13 then 125
      else if t =? 14 then 40 else 127
  | None =>
      if bool_decide (is_Some (as_invalid_utf8 v)) then 40 else
      match v with
      | MinKey => 10
      | Undefined => 15
      | Null => 20
      | Int32 _ | Int64 _ | Double _ | Decimal128 _ => 30
      | String _ => 40
      | Document _ => 50
      | Array _ => 60
      | Binary _ _ => 70
      | ObjectId _ => 80
      | Boolean _ => 90
      | DateTime _ => 100
      | Timestamp _ _ => 110
      | RegularExpression _ _ => 120
      | JavaScriptCode _ => 125
      | JavaScriptCodeWithScope _ _ => 127
      | MaxKey => 130
      | Symbol _ | DbPointer _ _ => 50
      end
  end.

Fixpoint is_comparable (v : Bson) : bool :=
  match v with
  | DbPointer _ _ => false
  | Document d => forallb (λ e : bytes * Bson, is_comparable e.2) d
  | Array a => forallb is_comparable a
  | _ => true
  end.

Definition is_sortable (v : Bson) : bool := is_comparable v.

Definition bindata_cmp (bo : BinDataOrder) (st1 : Z) (b1 : bytes) (st2 : Z) (b2 : bytes) : comparison :=
  match bo with
  | Mongod | Format4 => thn (blen b1 ?= blen b2) (thn (st1 ?= st2) (bcmp b1 b2))
  | Bytes => thn (bcmp b1 b2) (st1 ?= st2)
  end.

(** The text bytes of a text-carrying value. *)
Definition text_of (v : Bson) : option bytes :=
  match as_raw_text v with
  | Some (t, raw) => Some (raw_text_bytes t raw)
  | None =>
      match v with
      | JavaScriptCode s | Symbol s => Some s
      | JavaScriptCodeWithScope code _ => Some code
      | RegularExpression pattern _ => Some pattern
      | _ => str_bytes v
      end
  end.

Definition raw_text_cmp (a b : Bson) : option comparison :=
  match as_raw_text a, as_raw_text b with
  | None, None => None
  | _, _ => x ← text_of a; y ← text_of b; Some (bcmp x y)
  end.

Definition bool_cmp (x y : bool) : comparison :=
  match x, y with false, true => Lt | true, false => Gt | _, _ => Eq end.

Section docs.
Context (cmp : Bson → Bson → comparison).

Fixpoint doc_cmp_with (a b : Doc) : comparison :=
  match a, b with
  | (ak, av) :: a', (bk, bv) :: b' =>
      match type_rank av ?= type_rank bv with
      | Eq => if bool_decide (ak ≠ bk) then bcmp ak bk
              else match cmp av bv with Eq => doc_cmp_with a' b' | c => c end
      | r => r
      end
  | [], [] => Eq
  | [], _ :: _ => Lt
  | _ :: _, [] => Gt
  end.

Fixpoint array_cmp_with (a b : list Bson) : comparison :=
  match a, b with
  | av :: a', bv :: b' => match cmp av bv with Eq => array_cmp_with a' b' | c => c end
  | [], [] => Eq
  | [], _ :: _ => Lt
  | _ :: _, [] => Gt
  end.
End docs.

Section order.
Context (dec_to_string : bytes → bytes).
Context (bo : BinDataOrder).
Context (active : option (bytes → bytes → comparison)).

Definition active_compare (a b : bytes) : comparison :=
  match active with Some collate => collate a b | None => bcmp a b end.

Definition active_compare_bytes (a b : bytes) : comparison :=
  match active with
  | Some collate => collate (from_utf8_lossy a) (from_utf8_lossy b)
  | None => bcmp a b
  end.

(** The two last arms of [cmp]'s match: NaN below every number, then the
    unified numeric order. *)
Definition number_cmp (a b : Bson) : comparison :=
  match is_nan_bson dec_to_string a, is_nan_bson dec_to_string b with
  | true, true => Eq
  | true, false => Lt
  | false, true => Gt
  | false, false =>
      match fast_cmp a b with
      | Some r => default Eq r
      | None =>
          match classify dec_to_string a, classify dec_to_string b with
          | Some na, Some nb => default Eq (Numeric.cmp na nb)
          | _, _ => Eq
          end
      end
  end.

Fixpoint cmp (a b : Bson) {struct a} : comparison :=
  if negb (type_rank a =? type_rank b) then type_rank a ?= type_rank b else
  match carrier_pair a b with
  | Some (x, y) => active_compare_bytes x y
  | None =>
    match raw_text_cmp a b with
    | Some o => o
    | None =>
      match a, b with
      | Null, _ | MinKey, _ | MaxKey, _ => Eq
      | String x, String y => active_compare x y
      | Boolean x, Boolean y => bool_cmp x y
      | DateTime x, DateTime y => x ?= y
      | Timestamp t1 i1, Timestamp t2 i2 => thn (t1 ?= t2) (i1 ?= i2)
      | ObjectId x, ObjectId y => bcmp x y
      | Binary s1 b1, Binary s2 b2 => bindata_cmp bo s1 b1 s2 b2
      | RegularExpression p1 o1, RegularExpression p2 o2 =>
          let k1 := regex_sort_key p1 o1 in let k2 := regex_sort_key p2 o2 in
          thn (bcmp k1.1 k2.1) (bcmp k1.2 k2.2)
      | Document x, Document y => doc_cmp_with cmp x y
      | Array x, Array y => array_cmp_with cmp x y
      | JavaScriptCode x, JavaScriptCode y => bcmp x y
      | JavaScriptCodeWithScope c1 s1, JavaScriptCodeWithScope c2 s2 =>
          thn (bcmp c1 c2) (doc_cmp_with cmp s1 s2)
      | _, _ => number_cmp a b
      end
    end
  end.

Definition doc_cmp : Doc → Doc → comparison := doc_cmp_with cmp.
Definition array_cmp : list Bson → list Bson → comparison := array_cmp_with cmp.

(** ** Array sort values *)

Definition take_item (reverse : bool) (item cur : Bson) : bool :=
  match cmp item cur with Gt => reverse | Lt => negb reverse | Eq => false end.

Fixpoint array_best (reverse : bool) (best : option Bson) (items : list Bson) : option Bson :=
  match items with
  | [] => Some (default Null best)
  | item :: items =>
      if negb (is_sortable item) then None
      else array_best reverse (Some (match best with
             | None => item
             | Some cur => if take_item reverse item cur then item else cur
             end)) items
  end.

Definition array_sort_value (v : Bson) (reverse : bool) : option Bson :=
  match v with
  | Array [] => Some EMPTY_ARRAY_SORT_MARKER
  | Array items => array_best reverse None items
  | _ => Some v
  end.

Definition sort_repr (v : Bson) (descending : bool) : Bson :=
  match v with
  | Array _ =>
      match array_sort_value v descending with
      | Some Undefined => MinKey
      | Some r => r
      | None => v
      end
  | _ => v
  end.

(** ** [bson_lt] *)

Definition lt_rank (v : Bson) : Z :=
  match v with
  | Symbol _ => type_rank (String [])
  | Undefined => type_rank Null
  | _ => type_rank v
  end.

Definition lt_text (v : Bson) : option bytes :=
  match v with
  | String s | Symbol s => Some s
  | JavaScriptCode s => Some s
  | JavaScriptCodeWithScope code _ => Some code
  | _ => None
  end.

(** A DBPointer's value as BSON stores it. *)
Definition db_pointer_value (namespace id : bytes) : bytes :=
  le_bytes 4 (blen namespace + 1) ++ namespace ++ [0] ++ id.

Definition is_lt (c : comparison) : bool := match c with Lt => true | _ => false end.

Definition DB_POINTER_RANK : Z := 122.

Section lists.
Context (lt : Bson → Bson → option bool).

Fixpoint doc_lt_with (x y : Doc) : option bool :=
  match x, y with
  | (ak, av) :: x', (bk, bv) :: y' =>
      if negb (lt_rank av =? lt_rank bv) then Some (lt_rank av <? lt_rank bv)
      else if bool_decide (ak ≠ bk) then Some (is_lt (bcmp ak bk))
      else
        r ← lt av bv;
        if r : bool then Some true else
        r ← lt bv av;
        if r : bool then Some false else doc_lt_with x' y'
  | _, [] => Some false
  | [], _ :: _ => Some true
  end.

Fixpoint array_lt_with (x y : list Bson) : option bool :=
  match x, y with
  | av :: x', bv :: y' =>
      r ← lt av bv;
      if r : bool then Some true else
      r ← lt bv av;
      if r : bool then Some false else array_lt_with x' y'
  | _, [] => Some false
  | [], _ :: _ => Some true
  end.
End lists.

(** [bson_lt]'s last arm. *)
Definition scalar_lt (a b : Bson) : option bool :=
  match a, b with
  | String x, String y => Some (is_lt (active_compare x y))
  | _, _ =>
      match lt_text a with
      | Some x => y ← lt_text b; Some (is_lt (bcmp x y))
      | None =>
          let a_nan := is_nan_bson dec_to_string a in
          let b_nan := is_nan_bson dec_to_string b in
          if a_nan || b_nan then Some (a_nan && negb b_nan)
          else match fast_cmp a b with
          | Some r => Some (bool_decide (r = Some Lt))
          | None =>
              match classify dec_to_string a, classify dec_to_string b with
              | Some na, Some nb => Some (bool_decide (Numeric.cmp na nb = Some Lt))
              | _, _ => None
              end
          end
      end
  end.

Definition is_nullish (v : Bson) : bool := match v with Null | Undefined => true | _ => false end.

(** The recursion compares the elements both ways round, so it runs on fuel; the
    nesting depth is enough. *)
Fixpoint bson_lt_fuel (fuel : nat) (a b : Bson) : option bool :=
  match fuel with
  | O => None
  | S fuel =>
    match a, b with
    | DbPointer n1 i1, DbPointer n2 i2 =>
        let x := db_pointer_value n1 i1 in let y := db_pointer_value n2 i2 in
        Some (is_lt (thn (blen x ?= blen y) (bcmp x y)))
    | DbPointer _ _, other => Some (DB_POINTER_RANK <? lt_rank other)
    | other, DbPointer _ _ => Some (lt_rank other <? DB_POINTER_RANK)
    | _, _ =>
      if negb (lt_rank a =? lt_rank b) then Some (lt_rank a <? lt_rank b)
      else if is_nullish a || is_nullish b then Some false
      else match carrier_pair a b with
      | Some (x, y) => Some (is_lt (active_compare_bytes x y))
      | None =>
        match a, b with
        | Boolean x, Boolean y => Some (is_lt (bool_cmp x y))
        | DateTime x, DateTime y => Some (x <? y)
        | Timestamp t1 i1, Timestamp t2 i2 => Some (is_lt (thn (t1 ?= t2) (i1 ?= i2)))
        | ObjectId x, ObjectId y => Some (is_lt (bcmp x y))
        | Binary s1 b1, Binary s2 b2 => Some (is_lt (bindata_cmp bo s1 b1 s2 b2))
        | JavaScriptCodeWithScope c1 s1, JavaScriptCodeWithScope c2 s2 =>
            Some (is_lt (thn (bcmp c1 c2) (doc_cmp s1 s2)))
        | RegularExpression p1 o1, RegularExpression p2 o2 =>
            let k1 := regex_sort_key p1 o1 in let k2 := regex_sort_key p2 o2 in
            Some (is_lt (thn (bcmp k1.1 k2.1) (bcmp k1.2 k2.2)))
        | MinKey, MinKey | MaxKey, MaxKey => Some false
        | Document x, Document y => doc_lt_with (bson_lt_fuel fuel) x y
        | Array x, Array y => array_lt_with (bson_lt_fuel fuel) x y
        | _, _ => scalar_lt a b
        end
      end
    end
  end.

Fixpoint depth (v : Bson) : nat :=
  match v with
  | Array a => S (fold_right (λ x n, max (depth x) n) O a)
  | Document d => S (fold_right (λ (e : bytes * Bson) n, max (depth e.2) n) O d)
  | JavaScriptCodeWithScope _ d => S (fold_right (λ (e : bytes * Bson) n, max (depth e.2) n) O d)
  | _ => 1%nat
  end.

Definition bson_lt (a b : Bson) : option bool := bson_lt_fuel (max (depth a) (depth b)) a b.
End order.
