(* ===== verification/SortKey.v ===== *)
(** * Byte-sortable keys: secantus-core/src/sortkey.rs

    The encoder of index keys, whose byte order is the BSON sort order, and the
    readers that split a compound key back into its fields.

    A collation is the function [normalize_index_bytes(_, c)] it folds strings
    with; the thread's BinData order is an argument, and
    [Decimal128::to_string] a parameter, as in Order.v. The two test hooks that
    reproduce earlier key formats ([with_number_key_format_1],
    [with_id_key_format_1]) are off. *)
From S2P Require Import Prelude RustM Bson Lex Numeric Order.
Open Scope Z_scope.

Definition RANK_MINKEY : Z := 1.
Definition RANK_NULL : Z := 2.
Definition RANK_NUMBER : Z := 3.
Definition RANK_STRING : Z := 4.
Definition RANK_DOCUMENT : Z := 5.
Definition RANK_ARRAY : Z := 6.
Definition RANK_BINDATA : Z := 7.
Definition RANK_OBJECTID : Z := 8.
Definition RANK_BOOL : Z := 9.
Definition RANK_DATE : Z := 10.
Definition RANK_TIMESTAMP : Z := 11.
Definition RANK_REGEX : Z := 12.
Definition RANK_JAVASCRIPT : Z := 13.
Definition RANK_JAVASCRIPT_SCOPE : Z := 14.
Definition RANK_MAXKEY : Z := 15.
Definition FORMAT_4_RANK_MAXKEY : Z := 14.

Definition NUM_NAN : Z := 0x00.
Definition NUM_NEG_INF : Z := 0x20.
Definition NUM_NEG : Z := 0x41.
Definition NUM_ZERO : Z := 0x80.
Definition NUM_POS : Z := 0xC1.
Definition NUM_POS_INF : Z := 0xFF.

Definition COMPOUND_SEP : bytes := [0; 0].
Definition UNDEFINED_TAIL : Z := 0x80.
Definition DESC_END : bytes := [0xff; 0xff].
Definition ELEMENTS_END : Z := 0.

Inductive UnsupportedValue :=
  | UnsupportedDbPointer
  | UnsupportedCollation
  | UnsupportedUndefined
  | UnsupportedOther (v : Bson).

Abbreviation key_result := (outcome UnsupportedValue bytes).

Fixpoint escape (data : bytes) : bytes :=
  match data with
  | [] => []
  | b :: data => if b =? 0 then b :: 0xff :: escape data else b :: escape data
  end.

(** ** Numbers *)

Record DecimalParts := { dp_sign : Z; dp_digits : list Z; dp_exp : Z }.

Definition parse_decimal_str (s : bytes) : option DecimalParts :=
  let '(sign, rest) := unsign (trim s) in
  '(mantissa, exp_extra) ← match split_once is_exp_char rest with
    | Some (m, e) => x ← parse_i64 e; Some (m, x)
    | None => Some (rest, 0)
    end;
  let '(int_part, frac_part) := match split_once is_dot mantissa with
    | Some (i, f) => (i, f)
    | None => (mantissa, [])
    end in
  digits ← mapM to_digit (int_part ++ frac_part);
  let r := normalize digits (exp_extra - blen frac_part) in
  if bool_decide (r.1 = []) then None
  else Some {| dp_sign := sign; dp_digits := r.1; dp_exp := r.2 |}.

Definition parts_from_int (n : Z) : option DecimalParts :=
  if n =? 0 then None else
  let sign := if n <? 0 then -1 else 1 in
  let n := if n <? 0 then - n else n in
  let r := normalize (dec_digits n) 0 in
  Some {| dp_sign := sign; dp_digits := r.1; dp_exp := r.2 |}.

Definition is_format1_number_key (key : bytes) : bool :=
  match key with
  | r :: m :: _ => (r =? RANK_NUMBER) && ((m =? 0x40) || (m =? 0xC0))
  | _ => false
  end.

(** [digits.as_chunks::<2>().0], each pair as its byte. *)
Fixpoint digit_pairs (f : Z → Z) (digits : list Z) : bytes :=
  match digits with
  | p0 :: p1 :: rest => f (p0 * 10 + p1 + 1) :: digit_pairs f rest
  | _ => []
  end.

Definition encode_number_from_parts (p : DecimalParts) : bytes :=
  let sci_exp := dp_exp p + blen (dp_digits p) - 1 in
  let biased := Z.max 0 (Z.min 0xFFFF (0x8000 + sci_exp)) in
  let e := if dp_sign p <? 0 then 0xFFFF - biased else biased in
  let digits := if blen (dp_digits p) mod 2 =? 1 then dp_digits p ++ [0] else dp_digits p in
  (if 0 <? dp_sign p then NUM_POS else NUM_NEG) :: be_bytes 2 e ++
  digit_pairs (λ b, if dp_sign p <? 0 then 0x64 - b else b) digits ++
  [if 0 <? dp_sign p then 0x00 else 0xff].

(** [(n as u64 ^ 0x8000_0000_0000_0000).to_be_bytes()] *)
Definition signed_int64_sortable (n : Z) : bytes := be_bytes 8 (Z.lxor (wrap 64 n) (2 ^ 63)).

Section encode_number.
Context (dec_to_string : bytes → bytes).

Definition parts_key (parts : option DecimalParts) : bytes :=
  match parts with None => [NUM_ZERO] | Some p => encode_number_from_parts p end.

Definition encode_number (b : Bson) : key_result :=
  match b with
  | Int32 n | Int64 n => Ok (parts_key (parts_from_int n))
  | Double d =>
      if f64_is_nan d then Ok [NUM_NAN]
      else if f64_is_infinite d then Ok [if f64_order d >? 0 then NUM_POS_INF else NUM_NEG_INF]
      else if f64_order d =? 0 then Ok (parts_key None)
      else
        let '(sign, digits, exp) := exact_f64_parts d in
        Ok (parts_key (Some {| dp_sign := sign; dp_digits := digits; dp_exp := exp |}))
  | Decimal128 d =>
      let s := dec_to_string d in
      let low := to_lowercase s in
      if contains low [110; 97; 110] then Ok [NUM_NAN]
      else if contains low [105; 110; 102] then
        Ok [if starts_with s [45] then NUM_NEG_INF else NUM_POS_INF]
      else Ok (parts_key (parse_decimal_str s))
  | _ => Panic
  end.
End encode_number.

(** ** Values *)

Section elements.
Context (enc : Bson → key_result).

(** [element_value]: [key[0]], and [key[1..]] escaped and terminated. *)
Definition element_value_with (v : Bson) : outcome UnsupportedValue (Z * bytes) :=
  key ← enc v;
  rank ← index key 0;
  rest ← slice key 1 (blen key);
  mret (rank, escape rest ++ COMPOUND_SEP).

Fixpoint encode_doc_with (d : Doc) : key_result :=
  match d with
  | [] => Ok [ELEMENTS_END]
  | (name, v) :: d =>
      r ← element_value_with v;
      rest ← encode_doc_with d;
      Ok (r.1 :: escape name ++ COMPOUND_SEP ++ r.2 ++ rest)
  end.

Fixpoint encode_array_with (a : list Bson) : key_result :=
  match a with
  | [] => Ok [ELEMENTS_END]
  | v :: a =>
      r ← element_value_with v;
      rest ← encode_array_with a;
      Ok (r.1 :: r.2 ++ rest)
  end.
End elements.

Section encode.
Context (dec_to_string : bytes → bytes).
Context (bo : BinDataOrder).

Definition string_key (coll : option (bytes → option bytes)) (s : bytes) : key_result :=
  match coll with
  | Some fold => match fold s with
      | Some folded => Ok (RANK_STRING :: escape folded)
      | None => Err UnsupportedCollation
      end
  | None => Ok (RANK_STRING :: escape s)
  end.

Definition bindata_key (subtype : Z) (data : bytes) : bytes :=
  match bo with
  | Mongod => be_bytes 4 (wrap 32 (blen data)) ++ [subtype] ++ escape data
  | Format4 => be_bytes 4 (wrap 32 (blen data)) ++ escape data
  | Bytes => escape data ++ COMPOUND_SEP ++ [subtype]
  end.

Fixpoint encode_value (coll : option (bytes → option bytes)) (v : Bson) {struct v} : key_result :=
  match as_raw_text v with
  | Some (t, raw) =>
      if t =? 11 then Ok (RANK_REGEX :: escape (raw_text_bytes t raw))
      else if t =? 13 then Ok (RANK_JAVASCRIPT :: escape (raw_text_bytes t raw))
      else if t =? 14 then Ok (RANK_STRING :: escape (raw_text_bytes t raw))
      else if t =? 15 then Ok (RANK_JAVASCRIPT_SCOPE :: escape (raw_text_bytes t raw))
      else Err UnsupportedDbPointer
  | None =>
    match as_invalid_utf8 v with
    | Some data =>
        match coll with
        | Some _ => string_key coll (from_utf8_lossy data)
        | None => string_key None data
        end
    | None =>
      match v with
      | MinKey => Ok [RANK_MINKEY]
      | Undefined => Ok [RANK_MINKEY; UNDEFINED_TAIL]
      | Null => Ok [RANK_NULL]
      | MaxKey => Ok [if bool_decide (bo = Format4) then FORMAT_4_RANK_MAXKEY else RANK_MAXKEY]
      | Int32 _ | Int64 _ | Double _ | Decimal128 _ =>
          k ← encode_number dec_to_string v; Ok (RANK_NUMBER :: k)
      | String s => string_key coll s
      | JavaScriptCode s => Ok (RANK_JAVASCRIPT :: escape s)
      | JavaScriptCodeWithScope code scope =>
          if bool_decide (bo = Format4) then Ok (RANK_JAVASCRIPT :: escape code)
          else
            k ← encode_doc_with (encode_value None) scope;
            Ok (RANK_JAVASCRIPT_SCOPE :: escape code ++ COMPOUND_SEP ++ k)
      | Document d => k ← encode_doc_with (encode_value coll) d; Ok (RANK_DOCUMENT :: k)
      | Array a => k ← encode_array_with (encode_value coll) a; Ok (RANK_ARRAY :: k)
      | Binary subtype data => Ok (RANK_BINDATA :: bindata_key subtype data)
      | ObjectId oid => Ok (RANK_OBJECTID :: oid)
      | Boolean b => Ok [RANK_BOOL; if b then 1 else 0]
      | DateTime dt => Ok (RANK_DATE :: signed_int64_sortable dt)
      | Timestamp time increment => Ok (RANK_TIMESTAMP :: be_bytes 4 time ++ be_bytes 4 increment)
      | RegularExpression pattern options =>
          let options := (regex_sort_key pattern options).2 in
          Ok (RANK_REGEX :: escape pattern ++ COMPOUND_SEP ++ escape options)
      | Symbol _ | DbPointer _ _ => Err (UnsupportedOther v)
      end
    end
  end.

Definition element_value (coll : option (bytes → option bytes)) := element_value_with (encode_value coll).
Definition encode_doc (coll : option (bytes → option bytes)) := encode_doc_with (encode_value coll).
Definition encode_array (coll : option (bytes → option bytes)) := encode_array_with (encode_value coll).

Definition invert_bytes (b : bytes) : bytes := map (λ x, Z.lxor x 0xFF) b.

Definition encode_value_directed (coll : option (bytes → option bytes)) (v : Bson) (direction : Z) : key_result :=
  e ← encode_value coll v;
  Ok (if direction =? -1 then invert_bytes e ++ DESC_END else e).
End encode.

(** ** [_id] keys *)

Definition may_be_format1_id_key (key : bytes) : bool :=
  match key with
  | r :: _ => bool_decide (r ∈ [RANK_DOCUMENT; RANK_ARRAY; RANK_BINDATA; RANK_JAVASCRIPT; RANK_JAVASCRIPT_SCOPE])
  | [] => false
  end.

Definition encode_id_key (dec_to_string : bytes → bytes) (v : Bson) : key_result :=
  match v with
  | Undefined => Err UnsupportedUndefined
  | _ => encode_value dec_to_string Mongod None v
  end.

(** ** Splitting compound keys *)

Definition strip_sep (l : bytes) : option bytes :=
  match l with x :: y :: l => if (x =? 0) && (y =? 0) then Some l else None | _ => None end.

(** [body.get(at..)] *)
Definition get_from (l : bytes) (at_ : nat) : option bytes :=
  if bool_decide (at_ ≤ length l)%nat then Some (drop at_ l) else None.

(** Position of the next [00 00], or the end. *)
Fixpoint escaped_len (body : bytes) : nat :=
  match body with
  | x :: (y :: _) as rest => if (x =? 0) && (y =? 0) then O else S (escaped_len rest)
  | [_] => 1
  | [] => O
  end.

Fixpoint position_of (b : Z) (l : bytes) : option nat :=
  match l with [] => None | x :: l => if x =? b then Some O else S <$> position_of b l end.

Definition number_len (body : bytes) : option nat :=
  b ← head body;
  if (b =? NUM_NAN) || (b =? NUM_NEG_INF) || (b =? NUM_ZERO) || (b =? NUM_POS_INF) then Some 1%nat
  else if b =? NUM_POS then
    rest ← get_from body 3; p ← position_of 0x00 rest; Some (3 + p + 1)%nat
  else if b =? NUM_NEG then
    rest ← get_from body 3; p ← position_of 0xff rest; Some (3 + p + 1)%nat
  else None.

Fixpoint elements_len_loop (fuel : nat) (body : bytes) (named : bool) (at_ : nat) : option nat :=
  match fuel with
  | O => None
  | S fuel =>
      rank ← body !! at_;
      let at_ := (at_ + 1)%nat in
      if rank =? ELEMENTS_END then Some at_ else
      at_ ← (if named : bool
             then rest ← get_from body at_; Some (at_ + escaped_len rest + 2)%nat
             else Some at_);
      rest ← get_from body at_;
      let at_ := (at_ + escaped_len rest + 2)%nat in
      if bool_decide (length body < at_)%nat then None
      else elements_len_loop fuel body named at_
  end.

(** Every round moves past its rank byte, so the length bounds the rounds. *)
Definition elements_len (body : bytes) (named : bool) : option nat :=
  elements_len_loop (S (length body)) body named O.

(** [for _ in 0..n { at += if body.get(at)? == 0 { 2 } else { 1 } }], from [at]. *)
Fixpoint skip_escaped (n : Z) (l : bytes) : option nat :=
  if n <=? 0 then Some O else
  match l with
  | [] => None
  | b :: l =>
      if b =? 0 then match l with [] => None | _ :: l => (λ m, S (S m)) <$> skip_escaped (n - 1) l end
      else S <$> skip_escaped (n - 1) l
  end.

Definition value_len (key : bytes) : option nat :=
  rank ← head key;
  let body := drop 1 key in
  len ←
    (if (rank =? RANK_MINKEY) && bool_decide (head body = Some UNDEFINED_TAIL) then Some 1%nat
     else if (rank =? RANK_MINKEY) || (rank =? RANK_NULL) || (rank =? RANK_MAXKEY) then Some O
     else if rank =? RANK_NUMBER then number_len body
     else if (rank =? RANK_STRING) || (rank =? RANK_JAVASCRIPT) then Some (escaped_len body)
     else if rank =? RANK_JAVASCRIPT_SCOPE then
       let code := escaped_len body in
       rest ← get_from body code;
       rest ← strip_sep rest;
       n ← elements_len rest true;
       Some (code + 2 + n)%nat
     else if rank =? RANK_DOCUMENT then elements_len body true
     else if rank =? RANK_ARRAY then elements_len body false
     else if rank =? RANK_BINDATA then
       (n ← (if bool_decide (4 ≤ length body)%nat then Some (le_val (reverse (take 4 body))) else None);
        rest ← get_from body 5;
        m ← skip_escaped n rest;
        Some (5 + m)%nat)
     else if rank =? RANK_OBJECTID then Some 12%nat
     else if rank =? RANK_BOOL then Some 1%nat
     else if (rank =? RANK_DATE) || (rank =? RANK_TIMESTAMP) then Some 8%nat
     else if rank =? RANK_REGEX then
       let pattern := escaped_len body in
       rest ← get_from body pattern;
       rest ← strip_sep rest;
       Some (pattern + 2 + escaped_len rest)%nat
     else None);
  if bool_decide (len ≤ length body)%nat then Some (1 + len)%nat else None.

Definition ascending_part (part : bytes) (direction : Z) : bytes :=
  if direction =? -1 then
    invert_bytes (if bool_decide (2 ≤ length part ∧ drop (length part - 2) part = DESC_END)%nat
                  then take (length part - 2) part else part)
  else part.

Definition directed_len (key : bytes) (direction : Z) : option nat :=
  if negb (direction =? -1) then value_len key
  else
    n ← value_len (invert_bytes key);
    if bool_decide (n + 2 ≤ length key)%nat then
      if bool_decide (take 2 (drop n key) = DESC_END) then Some (n + 2)%nat else None
    else None.

(** The shared loop: the length of each field's key, a separator between. *)
Fixpoint split_with {D} (len : D → bytes → option nat) (fields : list D) (rest : bytes) : option (list bytes) :=
  match fields with
  | [] => if bool_decide (rest = []) then Some [] else None
  | dir :: fields =>
      n ← len dir rest;
      let part := take n rest in
      let rest := drop n rest in
      rest ← match fields with [] => Some rest | _ :: _ => strip_sep rest end;
      out ← split_with len fields rest;
      Some (part :: out)
  end.

Definition split_directed (key : bytes) (directions : list Z) : option (list bytes) :=
  split_with (λ dir rest, directed_len rest dir) directions key.

Definition split_compound (key : bytes) (fields : nat) : option (list bytes) :=
  split_with (λ _ rest, value_len rest) (replicate fields tt) key.
