(* ===== verification/SortKeyNum.v ===== *)
(** * Sort keys: strings and numbers

    The order of escaped strings and of number keys. [key_rel] is what the
    encoding of every value satisfies: the bytes compare as the values do, also
    when a separator and anything else follows.

    [encode_number] and [numeric::classify] read a number in two separate
    places, a Decimal128's text with two separate parsers. On the text
    [Decimal128::to_string] writes they agree, so the key of a number is a
    function of its value. *)
From S2P Require Import Prelude RustM Bson Lex Numeric NumericFacts Order SortKey.
Open Scope Z_scope.

Definition nonneg (l : bytes) : Prop := Forall (λ b, 0 ≤ b) l.

Lemma all_bytes_nonneg l : all_bytes l → nonneg l.
Proof. intros H. eapply Forall_impl; [exact H|]. unfold is_byte. simpl. intros; lia. Qed.

(** ** Escaped strings *)

Lemma escape_cons b l : escape (b :: l) = (if b =? 0 then [0; 0xff] else [b]) ++ escape l.
Proof. simpl. destruct (Z.eqb_spec b 0) as [->|]; done. Qed.

Lemma escape_nonneg l : nonneg l → nonneg (escape l).
Proof.
  induction 1 as [|b l Hb Hl IH]; [constructor|]. rewrite escape_cons. apply Forall_app. split; [|done].
  destruct (b =? 0); repeat constructor; lia.
Qed.

Lemma escape_all_bytes l : all_bytes l → all_bytes (escape l).
Proof.
  induction 1 as [|b l Hb Hl IH]; [constructor|]. rewrite escape_cons. apply all_bytes_app. split; [|done].
  unfold all_bytes, is_byte in *. destruct (b =? 0); repeat constructor; lia.
Qed.

(** A terminated escaped string is never a prefix of another. *)
Lemma escape_sep_pfree a b :
  nonneg a → nonneg b → pfree (escape a ++ COMPOUND_SEP) (escape b ++ COMPOUND_SEP).
Proof.
  intros Ha. revert b. induction Ha as [|x a Hx Ha IH]; intros b Hb; destruct Hb as [|y b Hy Hb].
  - apply pfree_refl.
  - rewrite escape_cons, <- app_assoc. destruct (Z.eqb_spec y 0); simpl; apply pfree_cons; intros E; [|lia].
    apply pfree_cons. intros; lia.
  - rewrite escape_cons, <- app_assoc. destruct (Z.eqb_spec x 0); simpl; apply pfree_cons; intros E; [|lia].
    apply pfree_cons. intros; lia.
  - rewrite !escape_cons, <- !app_assoc. destruct (Z.eqb_spec x 0), (Z.eqb_spec y 0); simpl;
      repeat (apply pfree_cons; intros); try lia; auto.
Qed.

Lemma escape_cmp a b ra rb :
  nonneg a → nonneg b → (ra = [] ∧ rb = [] ∨ ra = COMPOUND_SEP ∧ rb = COMPOUND_SEP) →
  bcmp (escape a ++ ra) (escape b ++ rb) = bcmp a b.
Proof.
  intros Ha. revert b. induction Ha as [|x a Hx Ha IH]; intros b Hb Hr; destruct Hb as [|y b Hy Hb].
  - destruct Hr as [[-> ->]|[-> ->]]; done.
  - rewrite escape_cons, <- app_assoc. destruct Hr as [[-> ->]|[-> ->]]; destruct (Z.eqb_spec y 0); try done.
    unfold COMPOUND_SEP. cbn [escape app]. rewrite bcmp_cons. replace (0 ?= y) with Lt; [done|]. symmetry. apply Z.compare_lt_iff. lia.
  - rewrite escape_cons, <- app_assoc. destruct Hr as [[-> ->]|[-> ->]]; destruct (Z.eqb_spec x 0); try done.
    unfold COMPOUND_SEP. cbn [escape app]. rewrite bcmp_cons. replace (x ?= 0) with Gt; [done|]. symmetry. apply Z.compare_gt_iff. lia.
  - rewrite !escape_cons, <- !app_assoc. specialize (IH b Hb Hr).
    destruct (Z.eqb_spec x 0) as [->|], (Z.eqb_spec y 0) as [->|]; cbn [app]; rewrite ?bcmp_cons, ?IH; try done.
    + destruct (Z.compare_spec 0 y); [lia|done|lia].
    + destruct (Z.compare_spec x 0); [lia|lia|done].
Qed.

(** ** Keys *)

(** Keys [ka] and [kb] compare as [c], alone and with a separator after them;
    with the separator neither is a prefix of the other, so what follows the
    separator only matters for equal keys. *)
Definition key_rel (ka kb : bytes) (c : comparison) : Prop :=
  bcmp ka kb = c ∧ bcmp (ka ++ COMPOUND_SEP) (kb ++ COMPOUND_SEP) = c ∧
  pfree (ka ++ COMPOUND_SEP) (kb ++ COMPOUND_SEP).

Lemma key_rel_pfree ka kb : pfree ka kb → key_rel ka kb (bcmp ka kb).
Proof.
  intros Hp. split_and!; [done| |].
  - rewrite bcmp_app by done. by rewrite bcmp_refl, thn_Eq_r.
  - apply pfree_app; [done|]. intros _. apply pfree_refl.
Qed.

Lemma key_rel_app pa pb ka kb c :
  pfree pa pb → key_rel ka kb c → key_rel (pa ++ ka) (pb ++ kb) (thn (bcmp pa pb) c).
Proof.
  intros Hp (H1 & H2 & H3). unfold key_rel. rewrite <- !app_assoc, !bcmp_app by done.
  rewrite H1, H2. split_and!; [done..|]. by apply pfree_app.
Qed.

Lemma key_rel_cons x y ka kb c : key_rel ka kb c → key_rel (x :: ka) (y :: kb) (thn (x ?= y) c).
Proof.
  intros H. pose proof (key_rel_app [x] [y] ka kb c (pfree_same_length [x] [y] eq_refl) H) as H'.
  rewrite bcmp_cons, thn_Eq_r in H'. exact H'.
Qed.

Lemma key_rel_escape a b : nonneg a → nonneg b → key_rel (escape a) (escape b) (bcmp a b).
Proof.
  intros Ha Hb. split_and!.
  - rewrite <- (app_nil_r (escape a)), <- (app_nil_r (escape b)). apply escape_cmp; auto.
  - apply escape_cmp; auto.
  - by apply escape_sep_pfree.
Qed.

Lemma key_rel_eq ka kb c d : c = d → key_rel ka kb c → key_rel ka kb d.
Proof. by intros ->. Qed.

(** ** Big-endian integers *)

Lemma be_bytes_S n z : be_bytes (S n) z = be_bytes n (z / 256) ++ [z mod 256].
Proof. unfold be_bytes. change (le_bytes (S n) z) with (z mod 256 :: le_bytes n (z / 256)). by rewrite reverse_cons. Qed.

Lemma be_bytes_length n z : length (be_bytes n z) = n.
Proof. unfold be_bytes. by rewrite length_reverse, length_le_bytes. Qed.

Lemma be_bytes_all n z : all_bytes (be_bytes n z).
Proof. apply Forall_reverse, le_bytes_all. Qed.

Lemma be_bytes_cmp n x y :
  0 ≤ x < 256 ^ Z.of_nat n → 0 ≤ y < 256 ^ Z.of_nat n → bcmp (be_bytes n x) (be_bytes n y) = (x ?= y).
Proof.
  revert x y. induction n as [|n IH]; intros x y Hx Hy.
  { simpl in Hx, Hy. assert (x = y) as -> by lia. by rewrite bcmp_refl, Z.compare_refl. }
  rewrite Nat2Z.inj_succ, Z.pow_succ_r in Hx, Hy by lia.
  rewrite !be_bytes_S, bcmp_app by (apply pfree_same_length; by rewrite !be_bytes_length).
  assert (∀ z, 0 ≤ z < 256 * 256 ^ Z.of_nat n → 0 ≤ z / 256 < 256 ^ Z.of_nat n) as Hd.
  { intros z Hz. split; [apply Z.div_pos; lia|]. apply Z.div_lt_upper_bound; lia. }
  rewrite IH, bcmp_cons, thn_Eq_r by auto.
  pose proof (Z.div_mod x 256 ltac:(done)) as E1. pose proof (Z.div_mod y 256 ltac:(done)) as E2.
  pose proof (Z.mod_pos_bound x 256 ltac:(done)). pose proof (Z.mod_pos_bound y 256 ltac:(done)).
  destruct (Z.compare_spec (x / 256) (y / 256)) as [E|L|G]; simpl.
  - destruct (Z.compare_spec (x mod 256) (y mod 256)); symmetry;
      [apply Z.compare_eq_iff|apply Z.compare_lt_iff|apply Z.compare_gt_iff]; lia.
  - symmetry. apply Z.compare_lt_iff. lia.
  - symmetry. apply Z.compare_gt_iff. lia.
Qed.

(** ** Digit pairs *)

Fixpoint pairs (f : Z → Z) (d : list Z) : bytes :=
  match d with
  | [] => []
  | [x] => [f (x * 10 + 0 + 1)]
  | x :: y :: d => f (x * 10 + y + 1) :: pairs f d
  end.

Lemma digit_pairs_padded f d :
  digit_pairs f (if blen d mod 2 =? 1 then d ++ [0] else d) = pairs f d.
Proof.
  enough (∀ n d, (length d < n)%nat →
    digit_pairs f (if blen d mod 2 =? 1 then d ++ [0] else d) = pairs f d) as H by (apply (H (S (length d))); lia).
  intros n. induction n as [|n IH]; [lia|]. clear d. intros [|x [|y d]] Hn; [done..|].
  simpl in Hn. specialize (IH d ltac:(lia)). cbn [pairs]. rewrite <- IH.
  replace (blen (x :: y :: d) mod 2) with (blen d mod 2).
  - by destruct (blen d mod 2 =? 1).
  - rewrite !blen_cons'. replace (blen d + 1 + 1) with (blen d + 1 * 2) by lia. by rewrite Z.mod_add.
Qed.

(** A nonempty digit string as its first pair and the rest. *)
Definition pair_view (d : list Z) : Z * Z * list Z :=
  match d with [] => (0, 0, []) | [x] => (x, 0, []) | x :: y :: r => (x, y, r) end.

Lemma pair_view_spec d :
  Forall is_digit d → d ≠ [] → last d ≠ Some 0 →
  let '(x, y, r) := pair_view d in
  is_digit x ∧ is_digit y ∧ Forall is_digit r ∧ last r ≠ Some 0 ∧ (length r < length d)%nat ∧
  ∀ f, pairs f d = f (x * 10 + y + 1) :: pairs f r.
Proof.
  intros Hd Hn Hl. destruct Hd as [|x d Hx [|y r Hy Hr]]; [done|..]; simpl.
  - repeat split; try done; apply Hx || lia.
  - split; [done|]. split; [done|]. split; [done|]. split; [|split; [lia|done]]. do 2 apply last_cons_Some0 in Hl. done.
Qed.

Lemma bcmp_pair_view d1 d2 :
  Forall is_digit d1 → Forall is_digit d2 → d1 ≠ [] → d2 ≠ [] → last d1 ≠ Some 0 → last d2 ≠ Some 0 →
  let '(x1, y1, r1) := pair_view d1 in
  let '(x2, y2, r2) := pair_view d2 in
  bcmp d1 d2 = thn (x1 * 10 + y1 + 1 ?= x2 * 10 + y2 + 1) (bcmp r1 r2).
Proof.
  assert (∀ x1 y1 x2 y2, is_digit y1 → is_digit y2 →
    (x1 * 10 + y1 + 1 ?= x2 * 10 + y2 + 1) = thn (x1 ?= x2) (y1 ?= y2)) as Hpair.
  { unfold is_digit. intros. destruct (Z.compare_spec x1 x2) as [->|L|G]; simpl.
    - destruct (Z.compare_spec y1 y2); [apply Z.compare_eq_iff|apply Z.compare_lt_iff|apply Z.compare_gt_iff]; lia.
    - apply Z.compare_lt_iff. lia.
    - apply Z.compare_gt_iff. lia. }
  assert (is_digit 0) as H0 by done.
  intros Hd1 Hd2 Hn1 Hn2 Hl1 Hl2.
  destruct Hd1 as [|x1 d1 Hx1 [|y1 r1 Hy1 Hr1]]; [done|..];
    (destruct Hd2 as [|x2 d2 Hx2 [|y2 r2 Hy2 Hr2]]; [done|..]); simpl pair_view; cbv iota beta;
    rewrite Hpair, thn_assoc by done; rewrite ?bcmp_cons; f_equal; try done.
  - unfold is_digit in Hy2. destruct (Z.compare_spec 0 y2) as [<-| |]; [|done|lia]. destruct r2; [by destruct Hl2|done].
  - unfold is_digit in Hy1. destruct (Z.compare_spec y1 0) as [->| |]; [|lia|done]. destruct r1; [by destruct Hl1|done].
Qed.

Section pair_order.
Context (f : Z → Z) (sg : comparison → comparison) (t : Z).
Context (Hf : ∀ b b', 1 ≤ b ≤ 100 → 1 ≤ b' ≤ 100 → (f b ?= f b') = sg (b ?= b')).
Context (Ht : ∀ b, 1 ≤ b ≤ 100 → (t ?= f b) = sg Lt ∧ (f b ?= t) = sg Gt).
Context (Hsg : sg = id ∨ sg = CompOpp).

Lemma sg_thn a b : sg (thn a b) = thn (sg a) (sg b).
Proof. destruct Hsg as [-> | ->]; [done|]. apply thn_opp. Qed.

Lemma sg_Eq : sg Eq = Eq.
Proof. by destruct Hsg as [-> | ->]. Qed.

Lemma thn_sg_ne c d : c ≠ Eq → thn (sg c) d = sg c.
Proof. destruct Hsg as [-> | ->]; by destruct c. Qed.

Lemma sg_ne_Eq c : c ≠ Eq → sg c ≠ Eq.
Proof. destruct Hsg as [-> | ->]; by destruct c. Qed.

Lemma compare_ne x y c : (x ?= y) = c → c ≠ Eq → x ≠ y.
Proof. intros H Hc ->. apply Hc. by rewrite <- H, Z.compare_refl. Qed.

Lemma pairs_rel n d1 d2 :
  (length d1 < n)%nat → Forall is_digit d1 → Forall is_digit d2 → last d1 ≠ Some 0 → last d2 ≠ Some 0 →
  bcmp (pairs f d1 ++ [t]) (pairs f d2 ++ [t]) = sg (bcmp d1 d2) ∧
  pfree (pairs f d1 ++ [t]) (pairs f d2 ++ [t]).
Proof.
  revert d1 d2. induction n as [|n IH]; [lia|]. intros d1 d2 Hlen Hd1 Hd2 Hl1 Hl2.
  destruct (decide (d1 = [])) as [->|Hn1], (decide (d2 = [])) as [->|Hn2].
  - split; [by rewrite !bcmp_refl, sg_Eq|apply pfree_refl].
  - pose proof (pair_view_spec d2 Hd2 Hn2 Hl2) as H. destruct (pair_view d2) as [[x y] r].
    destruct H as (Hx & Hy & _ & _ & _ & ->). unfold is_digit in *. simpl app. rewrite bcmp_cons.
    destruct (Ht (x * 10 + y + 1) ltac:(lia)) as [H _]. rewrite H, thn_sg_ne by done.
    split; [by destruct d2|]. apply pfree_cons. intros E. by eapply compare_ne in E; [|exact H|apply sg_ne_Eq].
  - pose proof (pair_view_spec d1 Hd1 Hn1 Hl1) as H. destruct (pair_view d1) as [[x y] r].
    destruct H as (Hx & Hy & _ & _ & _ & ->). unfold is_digit in *. simpl app. rewrite bcmp_cons.
    destruct (Ht (x * 10 + y + 1) ltac:(lia)) as [_ H]. rewrite H, thn_sg_ne by done.
    split; [by destruct d1|]. apply pfree_cons. intros E. by eapply compare_ne in E; [|exact H|apply sg_ne_Eq].
  - pose proof (bcmp_pair_view d1 d2 Hd1 Hd2 Hn1 Hn2 Hl1 Hl2) as Hc.
    pose proof (pair_view_spec d1 Hd1 Hn1 Hl1) as H1. pose proof (pair_view_spec d2 Hd2 Hn2 Hl2) as H2.
    destruct (pair_view d1) as [[x1 y1] r1], (pair_view d2) as [[x2 y2] r2].
    destruct H1 as (Hx1 & Hy1 & Hr1 & Hlr1 & Hle1 & ->). destruct H2 as (Hx2 & Hy2 & Hr2 & Hlr2 & _ & ->).
    unfold is_digit in Hx1, Hy1, Hx2, Hy2. destruct (IH r1 r2) as [IHc IHp]; [lia|done..|].
    simpl app. rewrite bcmp_cons, Hc, sg_thn, Hf, IHc by lia. split; [done|]. by apply pfree_cons.
Qed.
End pair_order.

(** ** Number keys *)

(** The two exponent bytes hold the scientific exponent. *)
Definition exp_ok (v : NumVal) : Prop :=
  match v with Finite _ ds e => - 0x8000 ≤ e + blen ds - 1 ≤ 0x7FFF | _ => True end.

Definition num_key (v : NumVal) : bytes :=
  match v with
  | Nan => [NUM_NAN]
  | Inf x => [if x =? 1 then NUM_POS_INF else NUM_NEG_INF]
  | Zero => [NUM_ZERO]
  | Finite s ds e => encode_number_from_parts {| dp_sign := s; dp_digits := ds; dp_exp := e |}
  end.

(** NaN below everything, then the numeric order. *)
Definition num_total_cmp (a b : NumVal) : comparison :=
  match a, b with
  | Nan, Nan => Eq
  | Nan, _ => Lt
  | _, Nan => Gt
  | _, _ => default Eq (Numeric.cmp a b)
  end.

(** A finite number's key: sign byte, exponent, digit pairs, terminator. *)
Lemma finite_key_shape s ds e :
  s = 1 ∨ s = -1 → exp_ok (Finite s ds e) →
  num_key (Finite s ds e) =
    if s =? 1
    then NUM_POS :: be_bytes 2 (0x8000 + (e + blen ds - 1)) ++ pairs (λ b, b) ds ++ [0]
    else NUM_NEG :: be_bytes 2 (0x7FFF - (e + blen ds - 1)) ++ pairs (λ b, 100 - b) ds ++ [0xff].
Proof.
  unfold exp_ok. intros Hs He. cbn [num_key]. unfold encode_number_from_parts. cbn [dp_sign dp_digits dp_exp].
  rewrite digit_pairs_padded, Z.min_r, Z.max_r by lia.
  destruct Hs as [-> | ->]; cbn -[be_bytes Z.add Z.sub pairs]; do 3 f_equal; lia.
Qed.

Lemma finite_key_rel s d1 e1 d2 e2 :
  num_ok s (Finite 1 d1 e1) → num_ok s (Finite 1 d2 e2) →
  exp_ok (Finite 1 d1 e1) → exp_ok (Finite 1 d2 e2) →
  (bcmp (num_key (Finite 1 d1 e1)) (num_key (Finite 1 d2 e2)) = cmp_magnitude d1 e1 d2 e2 ∧
   pfree (num_key (Finite 1 d1 e1)) (num_key (Finite 1 d2 e2))) ∧
  (bcmp (num_key (Finite (-1) d1 e1)) (num_key (Finite (-1) d2 e2)) = CompOpp (cmp_magnitude d1 e1 d2 e2) ∧
   pfree (num_key (Finite (-1) d1 e1)) (num_key (Finite (-1) d2 e2))).
Proof.
  intros (_ & (Hd1 & _ & Hl1) & _) (_ & (Hd2 & _ & Hl2) & _) He1 He2. unfold exp_ok in *.
  rewrite !finite_key_shape by (auto; done). cbn [Z.eqb Pos.eqb]. unfold cmp_magnitude.
  assert (∀ x y, pfree (be_bytes 2 x) (be_bytes 2 y)) as Hpf.
  { intros. apply pfree_same_length. by rewrite !be_bytes_length. }
  split.
  - destruct (pairs_rel (λ b, b) id 0 ltac:(done) ltac:(intros b Hb; split; [apply Z.compare_lt_iff|apply Z.compare_gt_iff]; lia)
      ltac:(auto) (S (length d1)) d1 d2) as [Hc Hp]; [lia|done..|].
    rewrite bcmp_cons, Z.compare_refl. cbn [thn]. rewrite bcmp_app, be_bytes_cmp, Hc by (done || simpl; lia).
    split; [|apply pfree_cons; intros _; by apply pfree_app].
    f_equal. set (p := e1 + blen d1 - 1). set (q := e2 + blen d2 - 1).
    destruct (Z.compare_spec p q); [apply Z.compare_eq_iff|apply Z.compare_lt_iff|apply Z.compare_gt_iff]; lia.
  - assert (∀ x y, (100 - x ?= 100 - y) = CompOpp (x ?= y)) as Hopp.
    { intros x y. rewrite <- Z.compare_antisym.
      destruct (Z.compare_spec y x); [apply Z.compare_eq_iff|apply Z.compare_lt_iff|apply Z.compare_gt_iff]; lia. }
    destruct (pairs_rel (λ b, 100 - b) CompOpp 0xff ltac:(intros; apply Hopp)
      ltac:(intros b Hb; split; [apply Z.compare_gt_iff|apply Z.compare_lt_iff]; lia)
      ltac:(auto) (S (length d1)) d1 d2) as [Hc Hp]; [lia|done..|].
    rewrite bcmp_cons, Z.compare_refl. cbn [thn]. rewrite bcmp_app, be_bytes_cmp, Hc by (done || simpl; lia).
    split; [|apply pfree_cons; intros _; by apply pfree_app].
    rewrite thn_opp. f_equal. set (p := e1 + blen d1 - 1). set (q := e2 + blen d2 - 1).
    rewrite <- Z.compare_antisym.
    destruct (Z.compare_spec q p); [apply Z.compare_eq_iff|apply Z.compare_lt_iff|apply Z.compare_gt_iff]; lia.
Qed.

Lemma num_key_rel s a b :
  num_ok s a → num_ok s b → exp_ok a → exp_ok b →
  bcmp (num_key a) (num_key b) = num_total_cmp a b ∧ pfree (num_key a) (num_key b).
Proof.
  destruct a as [|x| |s1 d1 e1], b as [|y| |s2 d2 e2]; intros Ha Hb He1 He2;
    try (destruct Ha as [-> | ->]); try (destruct Hb as [-> | ->]);
    try (split; [reflexivity|first [apply pfree_refl|apply pfree_cons; done]]).
  all: try (destruct Ha as (Hs1 & Ha); assert (s1 = 1 ∨ s1 = -1) as Hs1' by done; destruct Hs1 as [-> | ->]).
  all: try (destruct Hb as (Hs2 & Hb); assert (s2 = 1 ∨ s2 = -1) as Hs2' by done; destruct Hs2 as [-> | ->]).
  all: try (rewrite finite_key_shape by done; split; [reflexivity|apply pfree_cons; done]).
  all: try (rewrite !finite_key_shape by done; split; [reflexivity|apply pfree_cons; done]).
  - destruct (finite_key_rel s d1 e1 d2 e2) as [[Hc Hp] _]; [split; auto..|done|done|].
    rewrite Hc. split; done.
  - destruct (finite_key_rel s d1 e1 d2 e2) as [_ [Hc Hp]]; [split; auto..|done|done|].
    rewrite Hc. split; done.
Qed.

(** ** Scientific exponents *)

Lemma strip_leading_length ds : blen (strip_leading ds) ≤ blen ds.
Proof. induction ds as [|d ds IH]; simpl; [done|]. destruct (d =? 0); rewrite ?blen_cons'; lia. Qed.

Lemma strip_trailing_length rds e :
  let r := strip_trailing rds e in blen r.1 + (r.2 - e) = blen rds.
Proof.
  revert e. induction rds as [|d ds IH]; intros e; simpl; [unfold blen; simpl; lia|].
  destruct (d =? 0); simpl; [|lia]. specialize (IH (e + 1)). cbv zeta in IH. rewrite blen_cons'. lia.
Qed.

Lemma blen_reverse l : blen (reverse l) = blen l.
Proof. unfold blen. by rewrite length_reverse. Qed.

Lemma normalize_length ds e : let r := normalize ds e in blen r.1 + (r.2 - e) ≤ blen ds.
Proof.
  unfold normalize. cbv zeta. cbn [fst snd]. rewrite blen_reverse.
  pose proof (strip_trailing_length (reverse (strip_leading ds)) e) as H. cbv zeta in H.
  rewrite blen_reverse in H. pose proof (strip_leading_length ds). lia.
Qed.

Lemma normalize_exp_ok sign ds e :
  Forall is_digit ds → (normalize ds e).1 ≠ [] → - 0x8000 ≤ e → e + blen ds ≤ 0x8000 →
  exp_ok (Finite sign (normalize ds e).1 (normalize ds e).2).
Proof.
  intros Hd Hn Hlo Hhi. destruct (normalize_spec ds e Hd) as (Hle & _ & _).
  pose proof (normalize_length ds e) as Hlen. cbv zeta in *. unfold exp_ok.
  assert (1 ≤ blen (normalize ds e).1).
  { destruct (normalize ds e).1; [done|]. rewrite blen_cons'. pose proof (blen_nonneg l). lia. }
  lia.
Qed.

Lemma from_int_exp_ok n : i64_ok n → exp_ok (from_int n).
Proof.
  unfold i64_ok, from_int. intros Hn. destruct (Z.eqb_spec n 0); [done|].
  set (mag := if n <? 0 then - n else n).
  assert (0 < mag < 10 ^ 20) by (unfold mag; destruct (Z.ltb_spec n 0); lia).
  destruct (dec_digits_spec mag) as (Hv & Hd & _); [lia|].
  pose proof (dec_digits_length mag 20 ltac:(simpl; lia) ltac:(done)).
  apply normalize_exp_ok; [done| |lia|unfold blen; lia].
  intros E. destruct (normalize_spec (dec_digits mag) 0 Hd) as (_ & Hnv & _).
  rewrite E in Hnv. change (digits_val []) with 0 in Hnv. lia.
Qed.

Lemma from_f64_exp_ok d : exp_ok (from_f64 d).
Proof.
  destruct (f64_is_nan d) eqn:Hn; [unfold from_f64; by rewrite Hn|].
  destruct (from_f64_spec d Hn) as [(_ & -> & _)|(_ & _ & Hok & Hv & _ & Hb)]; [done|].
  destruct (from_f64 d) as [| | |s ds e]; try done.
  destruct Hok as (Hs & Hnorm & Hne & He). pose proof Hnorm as (Hd & Hh & _).
  pose proof (digits_val_lead ds Hd Hne Hh) as Hlead. cbn [num_val] in Hv. unfold scaled in Hv.
  assert (1 ≤ blen ds) by (destruct ds; [done|rewrite blen_cons'; pose proof (blen_nonneg ds); lia]).
  assert (10 ^ (blen ds - 1 + (e + 1074)) < 10 ^ 3174) as Hlt.
  { rewrite Z.pow_add_r by lia. pose proof (pow10_pos (e + 1074) He).
    apply Z.le_lt_trans with (digits_val ds * 10 ^ (e + 1074)); [nia|].
    apply Z.lt_trans with (2 ^ 2100 * 5 ^ 1074); [|vm_compute; reflexivity].
    assert (0 < 5 ^ 1074) as HP by done. generalize dependent (5 ^ 1074). generalize dependent (2 ^ 2100).
    intros. destruct Hs as [-> | ->]; nia. }
  unfold exp_ok. apply Z.pow_lt_mono_r_iff in Hlt; lia.
Qed.

(** ** Sort keys: every number is keyed by its classified value *)

(** ** The text of a Decimal128 *)

Definition is_digit_char (c : Z) : Prop := 48 ≤ c ≤ 57.

(** [-]int[.frac][E exp], as [Display] writes a finite Decimal128: the exponent
    a signed decimal number. Sizes are far beyond the type's 34 digits and
    exponents of about 6176. *)
Definition dec_finite_text (neg : bool) (int frac exp : bytes) : bytes :=
  (if neg then [45] else []) ++ int ++
  (match frac with [] => [] | _ => 46 :: frac end) ++
  (match exp with [] => [] | _ => 69 :: exp end).

Record dec_finite (neg : bool) (int frac exp : bytes) (x : Z) : Prop := {
  df_int : int ≠ [] ∧ Forall is_digit_char int;
  df_frac : Forall is_digit_char frac;
  df_exp : (exp = [] ∧ x = 0) ∨
           (exp ≠ [] ∧ parse_i64 exp = Some x ∧ Forall (λ c, is_digit_char c ∨ c = 43 ∨ c = 45) exp);
  df_size : blen int + blen frac ≤ 5000 ∧ -20000 ≤ x ≤ 20000 }.

Definition NAN_TEXT : bytes := [78; 97; 78].
Definition INF_TEXT : bytes := [73; 110; 102; 105; 110; 105; 116; 121].

(** What the [bson] crate documents of [Decimal128::to_string]. *)
Definition dec_text_ok (s : bytes) : Prop :=
  s = NAN_TEXT ∨ s = 45 :: NAN_TEXT ∨ s = INF_TEXT ∨ s = 45 :: INF_TEXT ∨
  ∃ neg int frac exp x, dec_finite neg int frac exp x ∧ s = dec_finite_text neg int frac exp.

(** ** Text operations *)

Lemma contains_no_head s c p : c ∉ s → contains s (c :: p) = false.
Proof.
  induction s as [|x s IH]; [done|]. intros Hn. simpl.
  destruct (Z.eqb_spec x c) as [->|]; [set_solver|]. apply IH. set_solver.
Qed.

Lemma trim_start_id s : (∀ c, head s = Some c → is_space c = false) → trim_start s = s.
Proof. destruct s as [|c s]; [done|]. intros H. simpl. by rewrite (H c). Qed.

Lemma trim_id s : Forall (λ c, is_space c = false) s → trim s = s.
Proof.
  intros Hs. unfold trim. rewrite (trim_start_id s).
  - rewrite trim_start_id; [apply reverse_involutive|].
    intros c Hc%head_Some_elem_of. rewrite elem_of_reverse in Hc. rewrite Forall_forall in Hs. by apply Hs.
  - intros c Hc%head_Some_elem_of. rewrite Forall_forall in Hs. by apply Hs.
Qed.

Lemma split_once_none sep s : Forall (λ c, sep c = false) s → split_once sep s = None.
Proof. induction 1 as [|c s Hc Hs IH]; [done|]. simpl. by rewrite Hc, IH. Qed.

Lemma split_once_some sep s c s' :
  Forall (λ c, sep c = false) s → sep c = true → split_once sep (s ++ c :: s') = Some (s, s').
Proof. intros Hs Hc. induction Hs as [|x s Hx Hs IH]; simpl; [by rewrite Hc|]. by rewrite Hx, IH. Qed.

Lemma to_digit_char c : is_digit_char c → to_digit c = Some (c - 48).
Proof.
  unfold is_digit_char, to_digit, in_range. intros Hc.
  by rewrite (proj2 (Z.leb_le 48 c)), (proj2 (Z.leb_le c 57)) by lia.
Qed.

Lemma mapM_to_digit s : Forall is_digit_char s → mapM to_digit s = Some (map (λ c, c - 48) s).
Proof. induction 1 as [|c s Hc Hs IH]; [done|]. simpl. by rewrite to_digit_char, IH. Qed.

Lemma omap_to_digit s : Forall is_digit_char s → omap to_digit s = map (λ c, c - 48) s.
Proof. induction 1 as [|c s Hc Hs IH]; [done|]. simpl. rewrite to_digit_char by done. simpl. by f_equal. Qed.

Lemma digit_chars_digits s : Forall is_digit_char s → Forall is_digit (map (λ c, c - 48) s).
Proof. induction 1 as [|c s Hc Hs IH]; constructor; [|done]. unfold is_digit, is_digit_char in *. lia. Qed.

(** ** Both parsers on finite text *)

Definition dec_chars (c : Z) : Prop := is_digit_char c ∨ c = 43 ∨ c = 45 ∨ c = 46 ∨ c = 69.

Lemma dec_finite_chars neg int frac exp x :
  dec_finite neg int frac exp x → Forall dec_chars (dec_finite_text neg int frac exp).
Proof.
  intros [[_ Hi] Hf He _]. unfold dec_finite_text, dec_chars.
  repeat apply Forall_app_2.
  - destruct neg; repeat constructor; tauto.
  - eapply Forall_impl; [exact Hi|tauto].
  - destruct frac; [constructor|]. constructor; [tauto|]. eapply Forall_impl; [exact Hf|tauto].
  - destruct He as [[-> _]|(_ & _ & He)]; [constructor|]. destruct exp; [constructor|].
    constructor; [tauto|]. eapply Forall_impl; [exact He|simpl; tauto].
Qed.

Lemma dec_chars_lower c : dec_chars c → (if in_range 65 90 c then c + 32 else c) ≠ 110 ∧
  (if in_range 65 90 c then c + 32 else c) ≠ 105 ∧ is_space c = false.
Proof.
  unfold dec_chars, is_digit_char, is_space, in_range.
  intros [Hc|[-> |[-> |[-> | ->]]]]; try (vm_compute; split_and!; done).
  destruct (Z.leb_spec 65 c), (Z.leb_spec c 90), (Z.leb_spec 9 c), (Z.leb_spec c 13), (Z.eqb_spec c 32); simpl;
    split_and!; lia.
Qed.

(** A finite text holds neither "nan" nor "inf", and no blank. *)
Lemma dec_chars_finite s :
  Forall dec_chars s →
  contains (to_lowercase s) [110; 97; 110] = false ∧ contains (to_lowercase s) [105; 110; 102] = false ∧
  trim s = s.
Proof.
  intros Hs. assert (∀ c, c ∈ to_lowercase s → c ≠ 110 ∧ c ≠ 105) as Hl.
  { unfold to_lowercase. intros c (c0 & -> & Hc)%list_elem_of_fmap.
    rewrite Forall_forall in Hs. destruct (dec_chars_lower c0 (Hs c0 Hc)) as (? & ? & _). done. }
  split_and!.
  - apply contains_no_head. intros H. by apply Hl in H as [H _].
  - apply contains_no_head. intros H. by apply Hl in H as [_ H].
  - apply trim_id. eapply Forall_impl; [exact Hs|]. intros c Hc. by apply dec_chars_lower.
Qed.

Lemma digit_char_not c : is_digit_char c → is_exp_char c = false ∧ is_dot c = false.
Proof. unfold is_digit_char, is_exp_char, is_dot. intros. split; [apply orb_false_iff; split|]; apply Z.eqb_neq; lia. Qed.

(** The pieces both parsers cut a finite text into. *)
Lemma dec_finite_pieces neg int frac exp x :
  dec_finite neg int frac exp x →
  ∃ rest m,
    unsign (dec_finite_text neg int frac exp) = (if neg then -1 else 1, rest) ∧
    ((split_once is_exp_char rest = None ∧ rest = m ∧ x = 0) ∨
     (∃ e, split_once is_exp_char rest = Some (m, e) ∧ parse_i64 e = Some x)) ∧
    ((split_once is_dot m = None ∧ m = int ∧ frac = []) ∨ split_once is_dot m = Some (int, frac)).
Proof.
  intros [[Hne Hi] Hf He _].
  set (m := int ++ match frac with [] => [] | _ => 46 :: frac end).
  exists (m ++ match exp with [] => [] | _ => 69 :: exp end), m. split_and!.
  - unfold dec_finite_text, m. rewrite <- app_assoc. destruct neg; [done|].
    destruct Hi as [|c int Hc Hi]; [done|]. unfold is_digit_char in Hc. unfold unsign. simpl.
    by rewrite (proj2 (Z.eqb_neq c 45)), (proj2 (Z.eqb_neq c 43)) by lia.
  - assert (Forall (λ c, is_exp_char c = false) m) as Hm.
    { apply Forall_app_2; [eapply Forall_impl; [exact Hi|]; intros; by apply digit_char_not|].
      destruct frac; constructor; [done|]. eapply Forall_impl; [exact Hf|]. intros; by apply digit_char_not. }
    destruct He as [[-> ->]|(Hexp & Hp & _)].
    + left. rewrite app_nil_r. split_and!; [by apply split_once_none|done..].
    + right. exists exp. split; [|done]. destruct exp; [done|]. by apply split_once_some.
  - assert (Forall (λ c, is_dot c = false) int) as Hm.
    { eapply Forall_impl; [exact Hi|]. intros; by apply digit_char_not. }
    unfold m. destruct frac as [|f frac]; [left|right; by apply split_once_some].
    rewrite app_nil_r. split_and!; [by apply split_once_none|done..].
Qed.

Lemma dec_finite_parse neg int frac exp x s :
  dec_finite neg int frac exp x → s = dec_finite_text neg int frac exp →
  let sign := if neg then -1 else 1 in
  let r := normalize (map (λ c, c - 48) (int ++ frac)) (x - blen frac) in
  from_decimal_str s = (if bool_decide (r.1 = []) then Zero else Finite sign r.1 r.2) ∧
  parse_decimal_str s = (if bool_decide (r.1 = []) then None
                         else Some {| dp_sign := sign; dp_digits := r.1; dp_exp := r.2 |}).
Proof.
  intros Hd ->. pose proof (dec_finite_chars _ _ _ _ _ Hd) as Hc.
  destruct (dec_chars_finite _ Hc) as (Hnan & Hinf & Htrim).
  destruct (dec_finite_pieces _ _ _ _ _ Hd) as (rest & m & Hu & Hexp & Hdot).
  destruct Hd as [[_ Hi] Hf _ _]. pose proof (Forall_app_2 _ _ _ Hi Hf) as Hif.
  unfold from_decimal_str, parse_decimal_str. rewrite Hnan, Hinf, Htrim, Hu. cbv zeta.
  assert (match split_once is_dot m with Some (i, f) => (i, f) | None => (m, []) end = (int, frac)) as Hd'.
  { destruct Hdot as [(-> & -> & ->)| ->]; done. }
  destruct Hexp as [(He & -> & ->)|(e & He & Hp)]; rewrite He; cbn [mbind option_bind].
  - rewrite Hd', mapM_to_digit, omap_to_digit by done. done.
  - rewrite Hp. cbn [mbind option_bind default]. rewrite Hd', mapM_to_digit, omap_to_digit by done. done.
Qed.

(** ** Keys of numbers *)

Definition number_wf (dec : bytes → bytes) (v : Bson) : Prop :=
  match v with
  | Int32 n => i32_ok n
  | Int64 n => i64_ok n
  | Double _ => True
  | Decimal128 d => dec_text_ok (dec d)
  | _ => False
  end.

Definition is_nan_num (n : NumVal) : bool := match n with Nan => true | _ => false end.

Lemma parts_from_int_key n : parts_key (parts_from_int n) = num_key (from_int n).
Proof. unfold parts_from_int, from_int. by destruct (n =? 0). Qed.

Lemma f64_key d :
  encode_number id (Double d) = Ok (num_key (from_f64 d)) ∧ f64_is_nan d = is_nan_num (from_f64 d).
Proof.
  unfold from_f64, encode_number. destruct (f64_is_nan d); [done|].
  destruct (f64_is_infinite d); [by destruct (f64_order d >? 0)|].
  destruct (f64_order d =? 0); [done|]. by destruct (exact_f64_parts d) as [[s ds] e].
Qed.

(** A finite Decimal128. *)
Lemma dec_finite_key neg int frac exp x s :
  dec_finite neg int frac exp x → s = dec_finite_text neg int frac exp →
  parts_key (parse_decimal_str s) = num_key (from_decimal_str s) ∧
  num_ok 25000 (from_decimal_str s) ∧ exp_ok (from_decimal_str s) ∧ is_nan_num (from_decimal_str s) = false.
Proof.
  intros Hd Hs. destruct (dec_finite_parse _ _ _ _ _ _ Hd Hs) as [-> ->]. cbv zeta.
  destruct Hd as [[_ Hi] Hf _ [Hlen Hx]]. pose proof (digit_chars_digits _ (Forall_app_2 _ _ _ Hi Hf)) as Hds.
  destruct (normalize_spec _ (x - blen frac) Hds) as (Hle & _ & Hnorm). cbv zeta in Hle, Hnorm.
  pose proof (blen_nonneg frac). pose proof (blen_nonneg int).
  assert (blen (map (λ c, c - 48) (int ++ frac)) = blen int + blen frac) as Hb.
  { unfold blen. rewrite length_map, length_app. lia. }
  case_bool_decide as E; [done|]. split_and!; [done| |apply normalize_exp_ok; try done; lia|done].
  cbn [num_ok]. split_and!; [destruct neg; auto|done|done|lia].
Qed.

Lemma encode_number_classify dec v n :
  number_wf dec v → classify dec v = Some n →
  encode_number dec v = Ok (num_key n) ∧ num_ok 25000 n ∧ exp_ok n ∧ is_nan_bson dec v = is_nan_num n.
Proof.
  intros Hw Hc. destruct v; try done; injection Hc as <-.
  - destruct (f64_key bits) as [H1 H2]. split_and!; [exact H1| |apply from_f64_exp_ok|exact H2].
    apply (num_ok_mono 1074); [lia|apply from_f64_ok].
  - split_and!; [cbn [encode_number]; by rewrite parts_from_int_key|by apply from_int_ok| |].
    + apply from_int_exp_ok. unfold i64_ok. unfold number_wf, i32_ok in Hw. lia.
    + unfold from_int. by destruct (n0 =? 0).
  - split_and!; [cbn [encode_number]; by rewrite parts_from_int_key|by apply from_int_ok|by apply from_int_exp_ok|].
    unfold from_int. by destruct (n0 =? 0).
  - cbn [number_wf] in Hw. cbn [encode_number is_nan_bson].
    destruct Hw as [-> |[-> |[-> |[-> |(neg & int & frac & exp & x & Hd & Hs)]]]];
      [by repeat split|by repeat split|split_and!; [done|by left|done|done]|split_and!; [done|by right|done|done]|].
    destruct (dec_finite_key _ _ _ _ _ _ Hd Hs) as (Hk & Hok & Hexp & Hn).
    pose proof (dec_finite_chars _ _ _ _ _ Hd) as Hch. rewrite <- Hs in Hch.
    destruct (dec_chars_finite _ Hch) as (Hnan & Hinf & _). rewrite Hnan, Hinf, Hk, Hn. split_and!; try done.
    apply orb_false_iff. split; apply bool_decide_eq_false; intros E; rewrite E in Hnan; done.
Qed.

Lemma num_total_cmp_some a b c : Numeric.cmp a b = Some c → num_total_cmp a b = c.
Proof. destruct a, b; try done; simpl; by intros [= ->]. Qed.

Lemma classify_number dec v : number_wf dec v → ∃ n, classify dec v = Some n.
Proof. destruct v; try done; eauto. Qed.

(** The fast path, the NaN arm and the digit comparison together compare the
    classified values, NaN lowest. *)
Lemma number_cmp_classify dec a b na nb :
  number_wf dec a → number_wf dec b → classify dec a = Some na → classify dec b = Some nb →
  number_cmp dec a b = num_total_cmp na nb.
Proof.
  intros Ha Hb Hna Hnb. unfold number_cmp.
  destruct (encode_number_classify dec a na Ha Hna) as (_ & _ & _ & ->).
  destruct (encode_number_classify dec b nb Hb Hnb) as (_ & _ & _ & ->).
  destruct (is_nan_num na) eqn:Ea, (is_nan_num nb) eqn:Eb; try (destruct na, nb; done).
  destruct (fast_cmp a b) as [r|] eqn:Hf.
  - assert (int_wf a ∧ int_wf b) as [Hia Hib] by (destruct a, b; done).
    destruct (fast_cmp_classify dec a b r Hia Hib Hf) as (na' & nb' & Hna' & Hnb' & _ & _ & <-).
    assert (na' = na ∧ nb' = nb) as [-> ->] by (split; congruence). destruct na, nb; done.
  - rewrite Hna, Hnb. destruct na, nb; done.
Qed.

(** Numbers: keys compare as the values do. *)
Lemma number_key_rel dec a b :
  number_wf dec a → number_wf dec b →
  ∃ ka kb, encode_number dec a = Ok ka ∧ encode_number dec b = Ok kb ∧
    bcmp ka kb = number_cmp dec a b ∧ pfree ka kb.
Proof.
  intros Ha Hb. destruct (classify_number dec a Ha) as [na Hna], (classify_number dec b Hb) as [nb Hnb].
  destruct (encode_number_classify dec a na Ha Hna) as (-> & Hoka & Hea & _).
  destruct (encode_number_classify dec b nb Hb Hnb) as (-> & Hokb & Heb & _).
  destruct (num_key_rel 25000 na nb Hoka Hokb Hea Heb) as [Hc Hp].
  exists (num_key na), (num_key nb). split_and!; [done..| |done].
  by rewrite Hc, (number_cmp_classify dec a b na nb).
Qed.

(** ** Number keys are bytes *)

Lemma pairs_all_bytes f d :
  (∀ b, 1 ≤ b ≤ 100 → is_byte (f b)) → Forall is_digit d → all_bytes (pairs f d).
Proof.
  intros Hf Hd. enough (∀ n d, (length d < n)%nat → Forall is_digit d → all_bytes (pairs f d)) as H
    by (apply (H (S (length d))); [lia|done]).
  clear d Hd. intros n. induction n as [|n IH]; [lia|]. intros d Hlen Hd.
  destruct Hd as [|x d Hx [|y r Hy Hr]]; [constructor|..]; unfold is_digit in *; cbn [pairs]; constructor.
  - apply Hf. lia.
  - constructor.
  - apply Hf. lia.
  - simpl in Hlen. apply IH; [lia|done].
Qed.

Lemma num_key_all_bytes s n : num_ok s n → exp_ok n → all_bytes (num_key n).
Proof.
  destruct n as [|x| |sg ds e]; intros Hok He.
  - by repeat constructor.
  - destruct Hok as [-> | ->]; by repeat constructor.
  - by repeat constructor.
  - destruct Hok as (Hs & (Hd & _) & _). rewrite finite_key_shape by done. unfold all_bytes.
    destruct Hs as [-> | ->]; cbn [Z.eqb Pos.eqb]; (constructor; [done|]);
      (apply all_bytes_app; split; [apply be_bytes_all|]; apply all_bytes_app; split; [|by repeat constructor]);
      apply pairs_all_bytes; try done; unfold is_byte; intros; lia.
Qed.

Lemma encode_number_all_bytes dec v k : number_wf dec v → encode_number dec v = Ok k → all_bytes k.
Proof.
  intros Hw Hk. destruct (classify_number dec v Hw) as [n Hn].
  destruct (encode_number_classify dec v n Hw Hn) as (Hk' & Hok & He & _).
  rewrite Hk' in Hk. injection Hk as <-. by apply (num_key_all_bytes 25000).
Qed.
