(* ===== verification/SortKeyFacts.v ===== *)
(** * Sort keys: byte order is the BSON order

    The bytes [encode_value] writes compare as [order::cmp] compares the values,
    alone and inside a compound key; a descending field's bytes compare the
    other way round. *)
From S2P Require Import Prelude RustM Bson Lex Numeric NumericFacts Order SortKey SortKeyNum.
Open Scope Z_scope.

Lemma Ok_inj {E A} (x y : A) : @Ok E A x = Ok y → x = y.
Proof. by intros [= ->]. Qed.

Section keys.
Context (dec : bytes → bytes) (bo : BinDataOrder) (Hbo : bo ≠ Format4).

Local Abbreviation cmp := (Order.cmp dec bo None).
Local Abbreviation enc := (encode_value dec bo None).

(** ** The values an index keys

    Sizes as BSON has them. Left out are the values without a key (symbols,
    DBPointers), carriers of text that is not UTF-8 other than strings, and
    [undefined] as the value of a document's field, whose key is out of order
    (see [undefined_field_key_order]). *)
Inductive keyable : Bson → Prop :=
  | k_double d : keyable (Double d)
  | k_string s : all_bytes s → keyable (String s)
  | k_array a : Forall keyable a → keyable (Array a)
  | k_document d :
      as_raw_text (Document d) = None →
      Forall (λ e : bytes * Bson, all_bytes e.1 ∧ e.2 ≠ Undefined ∧ keyable e.2) d → keyable (Document d)
  | k_boolean b : keyable (Boolean b)
  | k_null : keyable Null
  | k_regex p o : all_bytes p → Forall (λ c, 0 ≤ c < 0x110000) o → keyable (RegularExpression p o)
  | k_code s : all_bytes s → keyable (JavaScriptCode s)
  | k_scope c d :
      all_bytes c → Forall (λ e : bytes * Bson, all_bytes e.1 ∧ e.2 ≠ Undefined ∧ keyable e.2) d →
      keyable (JavaScriptCodeWithScope c d)
  | k_int32 n : i32_ok n → keyable (Int32 n)
  | k_int64 n : i64_ok n → keyable (Int64 n)
  | k_timestamp t i : u32_ok t → u32_ok i → keyable (Timestamp t i)
  | k_binary s b : is_byte s → all_bytes b → blen b < 2 ^ 32 → keyable (Binary s b)
  | k_oid b : length b = 12%nat → all_bytes b → keyable (ObjectId b)
  | k_date n : i64_ok n → keyable (DateTime n)
  | k_decimal d : dec_text_ok (dec d) → keyable (Decimal128 d)
  | k_undefined : keyable Undefined
  | k_maxkey : keyable MaxKey
  | k_minkey : keyable MinKey.

Definition key_order_at (a : Bson) : Prop :=
  ∀ b ka kb, keyable a → keyable b → enc a = Ok ka → enc b = Ok kb → key_rel ka kb (cmp a b).

Lemma keyable_raw v : keyable v → as_raw_text v = None.
Proof. by destruct 1. Qed.

(** ** Keys begin with the rank *)

Definition ranks : list (Z * Z) :=
  [(10, 1); (15, 1); (20, 2); (30, 3); (40, 4); (50, 5); (60, 6); (70, 7); (80, 8); (90, 9); (100, 10);
   (110, 11); (120, 12); (125, 13); (127, 14); (130, 15)].

Definition has_rank (r b : Z) : Prop := (r, b) ∈ ranks.

Lemma string_key_Ok s k : string_key None s = Ok k → k = RANK_STRING :: escape s.
Proof. by intros [= <-]. Qed.

Lemma bo_Format4 : bool_decide (bo = Format4) = false.
Proof. by apply bool_decide_eq_false. Qed.

(** A string of either form. *)
Lemma enc_string v s :
  as_raw_text v = None → str_bytes v = Some s → enc v = Ok (RANK_STRING :: escape s) ∧ type_rank v = 40.
Proof.
  destruct v; try done; intros Hr Hs.
  - by injection Hs as <-.
  - simpl in Hs. unfold type_rank. cbn [encode_value]. rewrite Hr. cbn [as_invalid_utf8]. rewrite Hs. done.
Qed.

Lemma enc_document d :
  as_raw_text (Document d) = None → str_bytes (Document d) = None →
  enc (Document d) = (k ← encode_doc_with enc d; Ok (RANK_DOCUMENT :: k)) ∧ type_rank (Document d) = 50.
Proof.
  intros Hr Hs. simpl in Hs. unfold type_rank. cbn [encode_value]. rewrite Hr. cbn [as_invalid_utf8].
  by rewrite Hs.
Qed.

Lemma enc_rank v k : keyable v → enc v = Ok k → ∃ b body, k = b :: body ∧ has_rank (type_rank v) b.
Proof.
  intros Hk He. unfold has_rank. destruct (str_bytes v) as [s|] eqn:Hs.
  { destruct (enc_string v s (keyable_raw v Hk) Hs) as [E ->]. rewrite E in He. injection He as <-.
    eexists _, _. split; [done|]. set_solver. }
  destruct Hk; try discriminate He.
  all: try (injection He as <-; eexists _, _; split; [done|]; simpl; set_solver).
  all: try (apply bind_Ok in He as (k' & _ & [= <-]); eexists _, _; split; [done|]; simpl; set_solver).
  - destruct (enc_document d ltac:(done) Hs) as [E ->]. rewrite E in He.
    apply bind_Ok in He as (k' & _ & [= <-]). eexists _, _. split; [done|]. set_solver.
  - cbn [encode_value as_raw_text as_invalid_utf8] in He. rewrite bo_Format4 in He.
    apply bind_Ok in He as (k' & _ & [= <-]). eexists _, _. split; [done|]. simpl. set_solver.
  - cbn [encode_value as_raw_text as_invalid_utf8] in He. rewrite bo_Format4 in He.
    injection He as <-. eexists _, _. split; [done|]. simpl. set_solver.
Qed.

Lemma has_rank_cmp r1 b1 r2 b2 :
  has_rank r1 b1 → has_rank r2 b2 → r1 = r2 ∨ (r1 ≠ 15 ∧ r2 ≠ 15) ∨ (r1 ≠ 10 ∧ r2 ≠ 10) →
  (b1 ?= b2) = (r1 ?= r2).
Proof.
  assert (forallb (λ p, forallb (λ q, bool_decide ((p.1 ≠ q.1 ∧ (p.1 = 15 ∨ q.1 = 15) ∧ (p.1 = 10 ∨ q.1 = 10))
    ∨ (p.2 ?= q.2) = (p.1 ?= q.1))) ranks) ranks = true) as H by (vm_compute; done).
  unfold has_rank. intros H1 H2 Hc. rewrite forallb_forall in H.
  specialize (H (r1, b1) ltac:(by apply list_elem_of_In)). rewrite forallb_forall in H.
  specialize (H (r2, b2) ltac:(by apply list_elem_of_In)). apply bool_decide_eq_true in H. simpl in H. destruct H as [H|H]; [lia|done].
Qed.

Lemma has_rank_pos r b : has_rank r b → 1 ≤ b ≤ 15.
Proof.
  assert (forallb (λ p, bool_decide (1 ≤ p.2 ≤ 15)) ranks = true) as H by (vm_compute; done).
  intros Hr. rewrite forallb_forall in H. specialize (H (r, b) ltac:(by apply list_elem_of_In)).
  by apply bool_decide_eq_true in H.
Qed.

Lemma document_rank d : as_raw_text (Document d) = None → type_rank (Document d) = 40 ∨ type_rank (Document d) = 50.
Proof. intros Hr. unfold type_rank. rewrite Hr. case_bool_decide; auto. Qed.

Lemma keyable_rank_15 v : keyable v → type_rank v = 15 → v = Undefined.
Proof.
  intros Hk Hr. destruct Hk; try done. destruct (document_rank d) as [E|E]; [done|..]; congruence.
Qed.

Lemma keyable_rank_10 v : keyable v → type_rank v = 10 → v = MinKey.
Proof.
  intros Hk Hr. destruct Hk; try done. destruct (document_rank d) as [E|E]; [done|..]; congruence.
Qed.

Lemma keyable_rank_40 v : keyable v → type_rank v = 40 → ∃ s, str_bytes v = Some s.
Proof.
  intros Hk Hr. destruct Hk; try done; [eauto|]. unfold type_rank in Hr. rewrite H in Hr.
  case_bool_decide as E; [|done]. destruct E as [x E]. exists x. exact E.
Qed.

Lemma cmp_rank_ne a b : type_rank a ≠ type_rank b → cmp a b = (type_rank a ?= type_rank b).
Proof. intros Hn. destruct a; cbn [Order.cmp]; by rewrite (proj2 (Z.eqb_neq _ _) Hn). Qed.

(** Values of different ranks. *)
Lemma key_order_ranks a b ka kb :
  keyable a → keyable b → enc a = Ok ka → enc b = Ok kb → type_rank a ≠ type_rank b →
  key_rel ka kb (cmp a b).
Proof.
  intros Ha Hb Hea Heb Hn. rewrite cmp_rank_ne by done.
  destruct (decide ((type_rank a ≠ 15 ∧ type_rank b ≠ 15) ∨ (type_rank a ≠ 10 ∧ type_rank b ≠ 10))) as [Hd|Hd].
  - destruct (enc_rank a ka Ha Hea) as (x & ra & -> & Hra), (enc_rank b kb Hb Heb) as (y & rb & -> & Hrb).
    rewrite <- (has_rank_cmp _ x _ y Hra Hrb) by auto.
    assert (x ≠ y) as Hxy.
    { intros ->. pose proof (has_rank_cmp _ y _ y Hra Hrb (or_intror Hd)) as E.
      rewrite Z.compare_refl in E. symmetry in E. by apply Z.compare_eq in E. }
    pose proof (key_rel_pfree (x :: ra) (y :: rb)) as Hp. rewrite bcmp_cons in Hp.
    replace (x ?= y) with (thn (x ?= y) (bcmp ra rb)); [apply Hp; by apply pfree_cons|].
    by destruct (Z.compare_spec x y).
  - assert ((a = Undefined ∧ b = MinKey) ∨ (a = MinKey ∧ b = Undefined)) as Hc.
    { destruct (decide (type_rank a = 15)), (decide (type_rank a = 10)); try lia.
      - left. split; [by apply keyable_rank_15|]. apply keyable_rank_10; [done|lia].
      - right. split; [by apply keyable_rank_10|]. apply keyable_rank_15; [done|lia]. }
    destruct Hc as [[-> ->]|[-> ->]]; injection Hea as <-; injection Heb as <-.
    + split_and!; [done..|]. apply pfree_cons. intros _. by apply pfree_cons.
    + split_and!; [done..|]. apply pfree_cons. intros _. by apply pfree_cons.
Qed.

(** Strings of either form. *)
Lemma cmp_strings a b x y :
  as_raw_text a = None → as_raw_text b = None → str_bytes a = Some x → str_bytes b = Some y →
  cmp a b = bcmp x y.
Proof.
  intros Hra Hrb Hx Hy. destruct (enc_string a x Hra Hx) as [_ Ta], (enc_string b y Hrb Hy) as [_ Tb].
  destruct a; try done; cbn [Order.cmp]; rewrite Ta, Tb; cbn [Z.eqb Pos.eqb negb].
  - destruct b; try done; unfold carrier_pair; cbn [str_bytes] in *.
    + by simplify_eq.
    + injection Hx as ->. cbn [mbind option_bind]. rewrite Hy. reflexivity.
  - unfold carrier_pair. rewrite Hx, Hy. done.
Qed.

Lemma str_bytes_all v s : keyable v → str_bytes v = Some s → all_bytes s.
Proof.
  intros Hk Hs. destruct Hk; try done; [by injection Hs as <-|]. cbn in Hs.
  destruct d as [|[k v] [|]]; try done; destruct v; try done. cbn in Hs.
  destruct (bool_decide (k = INVALID_UTF8_KEY) && (subtype =? 0)); [|done]. injection Hs as <-.
  apply Forall_cons in H0 as [(_ & _ & Hb) _]. by inversion Hb.
Qed.

Lemma key_order_strings a b ka kb x :
  keyable a → keyable b → enc a = Ok ka → enc b = Ok kb → type_rank a = type_rank b →
  str_bytes a = Some x → key_rel ka kb (cmp a b).
Proof.
  intros Ha Hb Hea Heb Hr Hx.
  destruct (enc_string a x (keyable_raw a Ha) Hx) as [Ea Ta].
  destruct (keyable_rank_40 b Hb ltac:(congruence)) as [y Hy].
  destruct (enc_string b y (keyable_raw b Hb) Hy) as [Eb _].
  rewrite (cmp_strings a b x y) by eauto using keyable_raw. rewrite Ea in Hea. rewrite Eb in Heb. simplify_eq.
  apply (key_rel_eq _ _ (thn (RANK_STRING ?= RANK_STRING) (bcmp x y))); [done|].
  apply key_rel_cons, key_rel_escape; eauto using all_bytes_nonneg, str_bytes_all.
Qed.

(** ** Elements *)

Lemma element_Ok v r :
  keyable v → element_value_with enc v = Ok r →
  ∃ b body, enc v = Ok (b :: body) ∧ r = (b, escape body ++ COMPOUND_SEP) ∧ has_rank (type_rank v) b.
Proof.
  intros Hk He. unfold element_value_with in He. apply bind_Ok in He as (k & Hk' & He).
  destruct (enc_rank v k Hk Hk') as (b & body & -> & Hr). exists b, body. split_and!; [done| |done].
  cbn in He. assert (slice (b :: body) 1 (blen (b :: body)) = @Ok UnsupportedValue _ body) as E.
  { rewrite slice_sub by (rewrite ?blen_cons'; pose proof (blen_nonneg body); lia).
    f_equal. unfold sub. rewrite blen_cons'. simpl. unfold blen.
    replace (Z.to_nat (Z.of_nat (length body) + 1 - 1)) with (length body) by lia. apply firstn_all. }
  rewrite E in He. by injection He as <-.
Qed.

Definition field_ok (e : bytes * Bson) : Prop := all_bytes e.1 ∧ e.2 ≠ Undefined ∧ keyable e.2.

Lemma keyable_fields d : keyable (Document d) → Forall field_ok d.
Proof. by inversion 1. Qed.

Lemma keyable_scope c d : keyable (JavaScriptCodeWithScope c d) → all_bytes c ∧ Forall field_ok d.
Proof. by inversion 1. Qed.

Lemma keyable_items a : keyable (Array a) → Forall keyable a.
Proof. by inversion 1. Qed.

(** The keys of documents and arrays, element by element. *)
Lemma encode_doc_cons n v d k :
  keyable v → encode_doc_with enc ((n, v) :: d) = Ok k →
  ∃ b body rest, enc v = Ok (b :: body) ∧ has_rank (type_rank v) b ∧ encode_doc_with enc d = Ok rest ∧
    k = b :: (escape n ++ COMPOUND_SEP) ++ (escape body ++ COMPOUND_SEP) ++ rest.
Proof.
  intros Hv He. apply bind_Ok in He as (r & Hr & He). apply bind_Ok in He as (rest & Hrest & [= <-]).
  destruct (element_Ok v r Hv Hr) as (b & body & Ev & -> & Hrk). exists b, body, rest.
  split_and!; try done. cbn [fst snd]. by rewrite <- !app_assoc.
Qed.

Lemma encode_array_cons v a k :
  keyable v → encode_array_with enc (v :: a) = Ok k →
  ∃ b body rest, enc v = Ok (b :: body) ∧ has_rank (type_rank v) b ∧ encode_array_with enc a = Ok rest ∧
    k = b :: (escape body ++ COMPOUND_SEP) ++ rest.
Proof.
  intros Hv He. apply bind_Ok in He as (r & Hr & He). apply bind_Ok in He as (rest & Hrest & [= <-]).
  destruct (element_Ok v r Hv Hr) as (b & body & Ev & -> & Hrk). by exists b, body, rest.
Qed.

Definition bytes_at (v : Bson) : Prop := ∀ k, keyable v → enc v = Ok k → all_bytes k.

Lemma sep_all_bytes : all_bytes COMPOUND_SEP.
Proof. by repeat constructor. Qed.

Hint Resolve escape_all_bytes sep_all_bytes be_bytes_all : core.

Lemma encode_doc_all_bytes d k :
  Forall (λ e : bytes * Bson, bytes_at e.2) d → Forall field_ok d → encode_doc_with enc d = Ok k → all_bytes k.
Proof.
  intros IH. revert k. induction IH as [|[n v] d IHv IHd IH]; intros k Hf He.
  { injection He as <-. by repeat constructor. }
  apply Forall_cons in Hf as [(Hn & _ & Hv) Hf].
  destruct (encode_doc_cons n v d k Hv He) as (b & body & rest & Ev & _ & Hrest & ->).
  apply (IHv _ Hv), Forall_cons in Ev as [Hb Hbody]. apply Forall_cons. split; [done|].
  repeat (apply all_bytes_app; split); auto.
Qed.

Lemma encode_array_all_bytes a k :
  Forall bytes_at a → Forall keyable a → encode_array_with enc a = Ok k → all_bytes k.
Proof.
  intros IH. revert k. induction IH as [|v a IHv IHd IH]; intros k Hf He.
  { injection He as <-. by repeat constructor. }
  apply Forall_cons in Hf as [Hv Hf].
  destruct (encode_array_cons v a k Hv He) as (b & body & rest & Ev & _ & Hrest & ->).
  apply (IHv _ Hv), Forall_cons in Ev as [Hb Hbody]. apply Forall_cons. split; [done|].
  repeat (apply all_bytes_app; split); auto.
Qed.

Lemma utf8_all_bytes o : Forall (λ c, 0 ≤ c < 0x110000) o → all_bytes (utf8 o).
Proof.
  induction 1 as [|c o Hc Ho IH]; [constructor|]. apply all_bytes_app. split; [|done].
  assert (∀ x, is_byte (128 + x mod 64)) as Hm.
  { intros x. pose proof (Z.mod_pos_bound x 64). unfold is_byte. lia. }
  unfold utf8_char. destruct (Z.ltb_spec c 128); [|destruct (Z.ltb_spec c 2048); [|destruct (Z.ltb_spec c 65536)]];
    repeat constructor; auto; clear Hm IH Ho; Z.to_euclidean_division_equations; lia.
Qed.

Lemma regex_options_all_bytes p o : Forall (λ c, 0 ≤ c < 0x110000) o → all_bytes (regex_sort_key p o).2.
Proof.
  intros Ho. apply utf8_all_bytes. rewrite Forall_forall in *. intros c Hc.
  by apply Ho, elem_of_sort_dedup.
Qed.

Lemma bindata_all_bytes s b : is_byte s → all_bytes b → all_bytes (bindata_key bo s b).
Proof.
  intros Hs Hb. assert (all_bytes [s]) by (by apply Forall_singleton).
  unfold bindata_key. destruct bo; repeat (apply all_bytes_app; split); auto.
Qed.

Lemma keyable_number v :
  keyable v → type_rank v = 30 →
  number_wf dec v ∧ enc v = (k ← encode_number dec v; Ok (RANK_NUMBER :: k)).
Proof.
  intros Hk Hr. destruct Hk; try done. destruct (document_rank d) as [E|E]; [done|..]; congruence.
Qed.

Lemma enc_all_bytes v k : keyable v → enc v = Ok k → all_bytes k.
Proof.
  assert (∀ (b : Z) l, is_byte b → all_bytes l → all_bytes (b :: l)) as Hcons by (intros; by apply Forall_cons).
  revert k. pattern v. change (bytes_at v). apply bson_ind_nested; clear v.
  - intros a IH k Hk He. apply bind_Ok in He as (k' & He & [= <-]).
    apply Hcons; [done|]. eauto using encode_array_all_bytes, keyable_items.
  - intros d IH k Hk He. destruct (str_bytes (Document d)) as [s|] eqn:Hs.
    + destruct (enc_string _ s (keyable_raw _ Hk) Hs) as [E _]. rewrite E in He. injection He as <-.
      apply Hcons; [done|]. eauto using str_bytes_all.
    + destruct (enc_document d (keyable_raw _ Hk) Hs) as [E _]. rewrite E in He.
      apply bind_Ok in He as (k' & He & [= <-]). apply Hcons; [done|].
      eauto using encode_doc_all_bytes, keyable_fields.
  - intros c d IH k Hk He. apply keyable_scope in Hk as [Hc Hd].
    cbn [encode_value as_raw_text as_invalid_utf8] in He. rewrite bo_Format4 in He.
    apply bind_Ok in He as (k' & He & [= <-]). apply Hcons; [done|].
    apply all_bytes_app. split; [auto|]. do 2 (apply Hcons; [done|]). exact (encode_doc_all_bytes d k' IH Hd He).
  - intros v. destruct (decide (type_rank v = 30)) as [Hr|Hr].
    { enough (bytes_at v) by (by destruct v). intros k Hk He.
      destruct (keyable_number v Hk Hr) as [Hw E]. rewrite E in He.
      apply bind_Ok in He as (k' & He & [= <-]). apply Hcons; [done|]. by apply (encode_number_all_bytes dec v). }
    destruct v; try exact I; try done; intros k Hk He; inversion Hk; subst; apply Ok_inj in He as <-;
      repeat (apply Hcons; [done|]); auto; try done; try (by constructor).
    + apply Forall_singleton. by destruct b.
    + do 2 (apply all_bytes_app; split; [auto|]). apply escape_all_bytes. by apply (regex_options_all_bytes pattern).
    + apply all_bytes_app; auto.
    + by apply bindata_all_bytes.
    + apply be_bytes_all.
    + rewrite bo_Format4. by apply Forall_singleton.
Qed.

(** ** Order of documents and arrays *)

Lemma esc_sep_cmp x y : all_bytes x → all_bytes y →
  bcmp (escape x ++ COMPOUND_SEP) (escape y ++ COMPOUND_SEP) = bcmp x y ∧
  pfree (escape x ++ COMPOUND_SEP) (escape y ++ COMPOUND_SEP).
Proof.
  intros Hx%all_bytes_nonneg Hy%all_bytes_nonneg. split; [apply escape_cmp; auto|by apply escape_sep_pfree].
Qed.

Lemma elements_end_rel b k : 1 ≤ b ≤ 15 →
  bcmp [ELEMENTS_END] (b :: k) = Lt ∧ bcmp (b :: k) [ELEMENTS_END] = Gt ∧
  pfree [ELEMENTS_END] (b :: k) ∧ pfree (b :: k) [ELEMENTS_END].
Proof.
  unfold ELEMENTS_END. intros Hb. rewrite !bcmp_cons, (proj2 (Z.compare_lt_iff 0 b)), (proj2 (Z.compare_gt_iff b 0)) by lia.
  split_and!; [done..| |]; apply pfree_cons; lia.
Qed.

Lemma body_cmp v1 v2 b1 body1 b2 body2 :
  key_order_at v1 → keyable v1 → keyable v2 → enc v1 = Ok (b1 :: body1) → enc v2 = Ok (b2 :: body2) →
  all_bytes body1 ∧ all_bytes body2 ∧ thn (b1 ?= b2) (bcmp body1 body2) = cmp v1 v2.
Proof.
  intros IH Hk1 Hk2 E1 E2. destruct (IH v2 _ _ Hk1 Hk2 E1 E2) as (Hc & _ & _). rewrite bcmp_cons in Hc.
  apply (enc_all_bytes v1 _ Hk1), Forall_cons in E1 as [_ ?].
  apply (enc_all_bytes v2 _ Hk2), Forall_cons in E2 as [_ ?]. done.
Qed.

Lemma field_rank_cmp v1 v2 b1 b2 :
  keyable v1 → keyable v2 → v1 ≠ Undefined → v2 ≠ Undefined →
  has_rank (type_rank v1) b1 → has_rank (type_rank v2) b2 → (b1 ?= b2) = (type_rank v1 ?= type_rank v2).
Proof.
  intros Hk1 Hk2 Hu1 Hu2 Hr1 Hr2. apply has_rank_cmp; [done..|]. right. left.
  split; intros E; [by apply Hu1, keyable_rank_15|by apply Hu2, keyable_rank_15].
Qed.

Lemma encode_doc_rel d1 :
  Forall (λ e : bytes * Bson, key_order_at e.2) d1 → ∀ d2 k1 k2,
  Forall field_ok d1 → Forall field_ok d2 → encode_doc_with enc d1 = Ok k1 → encode_doc_with enc d2 = Ok k2 →
  bcmp k1 k2 = doc_cmp_with cmp d1 d2 ∧ pfree k1 k2.
Proof.
  induction 1 as [|[n1 v1] d1 IHv _ IH]; intros [|[n2 v2] d2] k1 k2 Hf1 Hf2 He1 He2.
  - apply Ok_inj in He1 as <-. apply Ok_inj in He2 as <-. split; [done|apply pfree_refl].
  - apply Ok_inj in He1 as <-. apply Forall_cons in Hf2 as [(_ & _ & Hv) _].
    destruct (encode_doc_cons n2 v2 d2 k2 Hv He2) as (b & body & rest & _ & Hr%has_rank_pos & _ & ->).
    by destruct (elements_end_rel b ((escape n2 ++ COMPOUND_SEP) ++ (escape body ++ COMPOUND_SEP) ++ rest) Hr) as (? & _ & ? & _).
  - apply Ok_inj in He2 as <-. apply Forall_cons in Hf1 as [(_ & _ & Hv) _].
    destruct (encode_doc_cons n1 v1 d1 k1 Hv He1) as (b & body & rest & _ & Hr%has_rank_pos & _ & ->).
    by destruct (elements_end_rel b ((escape n1 ++ COMPOUND_SEP) ++ (escape body ++ COMPOUND_SEP) ++ rest) Hr) as (_ & ? & _ & ?).
  - apply Forall_cons in Hf1 as [(Hn1 & Hu1 & Hv1) Hf1]. apply Forall_cons in Hf2 as [(Hn2 & Hu2 & Hv2) Hf2].
    destruct (encode_doc_cons n1 v1 d1 k1 Hv1 He1) as (b1 & body1 & rest1 & E1 & Hr1 & Hrest1 & ->).
    destruct (encode_doc_cons n2 v2 d2 k2 Hv2 He2) as (b2 & body2 & rest2 & E2 & Hr2 & Hrest2 & ->).
    destruct (body_cmp v1 v2 _ _ _ _ IHv Hv1 Hv2 E1 E2) as (Hb1 & Hb2 & Hc).
    destruct (IH d2 rest1 rest2 Hf1 Hf2 Hrest1 Hrest2) as [IHc IHp].
    destruct (esc_sep_cmp n1 n2 Hn1 Hn2) as [Hnc Hnp]. destruct (esc_sep_cmp body1 body2 Hb1 Hb2) as [Hbc Hbp].
    split; [|apply pfree_cons; intros _; apply pfree_app; [done|intros _]; by apply pfree_app].
    rewrite bcmp_cons, (bcmp_app _ _ _ _ Hnp), (bcmp_app _ _ _ _ Hbp), Hnc, Hbc, IHc. cbn [doc_cmp_with]. rewrite <- Hc.
    rewrite (field_rank_cmp v1 v2 b1 b2) by done.
    destruct (type_rank v1 ?= type_rank v2); cbn [thn]; try done.
    case_bool_decide as En; [|rewrite (proj2 (bcmp_Eq n1 n2)); [cbn [thn]; by destruct (bcmp body1 body2)|]].
    + destruct (bcmp n1 n2) eqn:E; try done. by apply bcmp_Eq in E.
    + by destruct (decide (n1 = n2)).
Qed.

Lemma encode_array_rel a1 :
  Forall key_order_at a1 → ∀ a2 k1 k2,
  Forall keyable a1 → Forall keyable a2 → encode_array_with enc a1 = Ok k1 → encode_array_with enc a2 = Ok k2 →
  bcmp k1 k2 = array_cmp_with cmp a1 a2 ∧ pfree k1 k2.
Proof.
  induction 1 as [|v1 a1 IHv _ IH]; intros [|v2 a2] k1 k2 Hf1 Hf2 He1 He2.
  - apply Ok_inj in He1 as <-. apply Ok_inj in He2 as <-. split; [done|apply pfree_refl].
  - apply Ok_inj in He1 as <-. apply Forall_cons in Hf2 as [Hv _].
    destruct (encode_array_cons v2 a2 k2 Hv He2) as (b & body & rest & _ & Hr%has_rank_pos & _ & ->).
    by destruct (elements_end_rel b ((escape body ++ COMPOUND_SEP) ++ rest) Hr) as (? & _ & ? & _).
  - apply Ok_inj in He2 as <-. apply Forall_cons in Hf1 as [Hv _].
    destruct (encode_array_cons v1 a1 k1 Hv He1) as (b & body & rest & _ & Hr%has_rank_pos & _ & ->).
    by destruct (elements_end_rel b ((escape body ++ COMPOUND_SEP) ++ rest) Hr) as (_ & ? & _ & ?).
  - apply Forall_cons in Hf1 as [Hv1 Hf1]. apply Forall_cons in Hf2 as [Hv2 Hf2].
    destruct (encode_array_cons v1 a1 k1 Hv1 He1) as (b1 & body1 & rest1 & E1 & _ & Hrest1 & ->).
    destruct (encode_array_cons v2 a2 k2 Hv2 He2) as (b2 & body2 & rest2 & E2 & _ & Hrest2 & ->).
    destruct (body_cmp v1 v2 _ _ _ _ IHv Hv1 Hv2 E1 E2) as (Hb1 & Hb2 & Hc).
    destruct (IH a2 rest1 rest2 Hf1 Hf2 Hrest1 Hrest2) as [IHc IHp].
    destruct (esc_sep_cmp body1 body2 Hb1 Hb2) as [Hbc Hbp].
    split; [|apply pfree_cons; intros _; by apply pfree_app].
    rewrite bcmp_cons, (bcmp_app _ _ _ _ Hbp), Hbc, IHc. cbn [array_cmp_with]. rewrite <- Hc.
    by destruct (b1 ?= b2), (bcmp body1 body2).
Qed.

(** ** Order of the other values *)

Lemma cmp_documents d1 d2 :
  as_raw_text (Document d1) = None → as_raw_text (Document d2) = None →
  str_bytes (Document d1) = None → str_bytes (Document d2) = None →
  cmp (Document d1) (Document d2) = doc_cmp_with cmp d1 d2.
Proof.
  intros Hr1 Hr2 Hs1 Hs2. destruct (enc_document d1 Hr1 Hs1) as [_ T1], (enc_document d2 Hr2 Hs2) as [_ T2].
  cbn [Order.cmp]. rewrite T1, T2. cbn [Z.eqb Pos.eqb negb]. unfold carrier_pair, raw_text_cmp.
  rewrite Hs1, Hr1, Hr2. done.
Qed.

Lemma bindata_key_rel s1 b1 s2 b2 :
  is_byte s1 → is_byte s2 → all_bytes b1 → all_bytes b2 → blen b1 < 2 ^ 32 → blen b2 < 2 ^ 32 →
  key_rel (bindata_key bo s1 b1) (bindata_key bo s2 b2) (bindata_cmp bo s1 b1 s2 b2).
Proof.
  intros Hs1 Hs2 Hb1 Hb2 Hl1 Hl2. unfold bindata_key, bindata_cmp. destruct bo; [| |done].
  - unfold wrap. rewrite !Z.mod_small by (split; [apply blen_nonneg|done]).
    rewrite <- (be_bytes_cmp 4 (blen b1) (blen b2)) by (split; [apply blen_nonneg|done]).
    apply key_rel_app; [apply pfree_same_length; by rewrite !be_bytes_length|].
    apply (key_rel_cons s1 s2), key_rel_escape; by apply all_bytes_nonneg.
  - destruct (esc_sep_cmp b1 b2 Hb1 Hb2) as [Hc Hp]. rewrite !app_assoc. rewrite <- Hc.
    apply key_rel_app; [done|]. apply (key_rel_eq _ _ (bcmp [s1] [s2])); [by rewrite bcmp_cons, thn_Eq_r|].
    apply key_rel_pfree, pfree_same_length. done.
Qed.

Lemma signed_int64_sortable_val n : i64_ok n → Z.lxor (wrap 64 n) (2 ^ 63) = n + 2 ^ 63.
Proof.
  unfold i64_ok. intros Hn. unfold wrap.
  assert (∀ x, 0 ≤ x < 2 ^ 63 → Z.lxor x (2 ^ 63) = x + 2 ^ 63) as Hlow.
  { intros x Hx. symmetry. apply Z.add_nocarry_lxor. apply Z.bits_inj'. intros i Hi.
    rewrite Z.land_spec, Z.bits_0, Z.pow2_bits_eqb by lia.
    destruct (Z.eqb_spec 63 i) as [<-|]; [|by rewrite andb_false_r]. by rewrite (testbit_high 63) by lia. }
  destruct (Z.le_gt_cases 0 n).
  - rewrite Z.mod_small by lia. apply Hlow. lia.
  - replace n with (n + 2 ^ 64 + (-1) * 2 ^ 64) at 1 by lia. rewrite Z.mod_add, Z.mod_small by lia.
    replace (n + 2 ^ 64) with ((n + 2 ^ 63) + 2 ^ 63) by lia. rewrite <- (Hlow (n + 2 ^ 63)) by lia.
    by rewrite Z.lxor_assoc, Z.lxor_nilpotent, Z.lxor_0_r.
Qed.

Lemma date_key_rel m n :
  i64_ok m → i64_ok n → key_rel (signed_int64_sortable m) (signed_int64_sortable n) (m ?= n).
Proof.
  intros Hm Hn. unfold signed_int64_sortable. rewrite !signed_int64_sortable_val by done. unfold i64_ok in *.
  replace (m ?= n) with (bcmp (be_bytes 8 (m + 2 ^ 63)) (be_bytes 8 (n + 2 ^ 63))).
  - apply key_rel_pfree, pfree_same_length. by rewrite !be_bytes_length.
  - rewrite be_bytes_cmp by (change (256 ^ Z.of_nat 8) with (2 ^ 64); lia).
    destruct (Z.compare_spec m n); [apply Z.compare_eq_iff|apply Z.compare_lt_iff|apply Z.compare_gt_iff]; lia.
Qed.

(** Two values of one rank, neither a string nor a number: the same
    constructor. *)
Lemma same_rank_leaf a b ka kb :
  keyable a → keyable b → enc a = Ok ka → enc b = Ok kb → type_rank a = type_rank b →
  str_bytes a = None → type_rank a ≠ 30 →
  match a with Array _ | Document _ | JavaScriptCodeWithScope _ _ => True | _ => key_rel ka kb (cmp a b) end.
Proof.
  intros Ha Hb Hea Heb Hr Hs Hn.
  assert (str_bytes b = None) as Hsb.
  { destruct (str_bytes b) as [y|] eqn:Hy; [|done].
    destruct (enc_string b y (keyable_raw b Hb) Hy) as [_ T]. rewrite T in Hr.
    by destruct (keyable_rank_40 a Ha Hr) as [? [=]]; simplify_eq. }
  assert (type_rank b = match b with Document _ => 50 | _ => type_rank b end) as Hb50.
  { destruct b; try done. by destruct (enc_document d (keyable_raw _ Hb) Hsb). }
  rewrite Hb50 in Hr.
  destruct a; try exact I; try done; destruct b; try discriminate Hr; inversion Ha; subst; inversion Hb; subst;
    apply Ok_inj in Hea as <-; apply Ok_inj in Heb as <-.
  - replace (cmp _ _) with (bcmp [RANK_BOOL; if b0 then 1 else 0] [RANK_BOOL; if b then 1 else 0]) by (by destruct b0, b).
    by apply key_rel_pfree, pfree_same_length.
  - apply (key_rel_pfree [RANK_NULL] [RANK_NULL]), pfree_refl.
  - apply (key_rel_cons RANK_REGEX RANK_REGEX _ _ (thn (bcmp pattern pattern0)
      (bcmp (regex_sort_key pattern options).2 (regex_sort_key pattern0 options0).2))).
    destruct (esc_sep_cmp pattern pattern0) as [Hc Hp]; [done..|]. rewrite !app_assoc, <- Hc. apply key_rel_app; [done|].
    apply key_rel_escape; by apply all_bytes_nonneg, (regex_options_all_bytes pattern).
  - apply (key_rel_cons RANK_JAVASCRIPT RANK_JAVASCRIPT), key_rel_escape; by apply all_bytes_nonneg.
  - apply (key_rel_cons RANK_TIMESTAMP RANK_TIMESTAMP _ _ (thn (time ?= time0) (increment ?= increment0))). unfold u32_ok in *.
    rewrite <- (be_bytes_cmp 4 time time0), <- (be_bytes_cmp 4 increment increment0) by done.
    apply key_rel_app; [apply pfree_same_length; by rewrite !be_bytes_length|].
    apply key_rel_pfree, pfree_same_length. by rewrite !be_bytes_length.
  - apply (key_rel_cons RANK_BINDATA RANK_BINDATA). by apply bindata_key_rel.
  - apply (key_rel_cons RANK_OBJECTID RANK_OBJECTID), key_rel_pfree, pfree_same_length. congruence.
  - apply (key_rel_cons RANK_DATE RANK_DATE). by apply date_key_rel.
  - apply (key_rel_pfree [RANK_MINKEY; UNDEFINED_TAIL] [RANK_MINKEY; UNDEFINED_TAIL]), pfree_refl.
  - cbn. rewrite bo_Format4. apply (key_rel_pfree [RANK_MAXKEY] [RANK_MAXKEY]), pfree_refl.
  - apply (key_rel_pfree [RANK_MINKEY] [RANK_MINKEY]), pfree_refl.
Qed.

Lemma key_order_numbers a b ka kb :
  keyable a → keyable b → enc a = Ok ka → enc b = Ok kb → type_rank a = 30 → type_rank b = 30 →
  key_rel ka kb (cmp a b).
Proof.
  intros Ha Hb Hea Heb Ra Rb. destruct (keyable_number a Ha Ra) as [Wa Ea], (keyable_number b Hb Rb) as [Wb Eb].
  destruct (number_key_rel dec a b Wa Wb) as (na & nb & Hna & Hnb & Hc & Hp).
  rewrite Ea, Hna in Hea. rewrite Eb, Hnb in Heb. apply Ok_inj in Hea as <-. apply Ok_inj in Heb as <-.
  assert (cmp a b = number_cmp dec a b) as ->.
  { destruct a; try done; destruct b; done. }
  rewrite <- Hc. by apply (key_rel_cons RANK_NUMBER RANK_NUMBER), key_rel_pfree.
Qed.

(** Every keyable value: by induction on the value. *)
Lemma key_order a : key_order_at a.
Proof.
  assert (∀ a, (∀ b ka kb, keyable a → keyable b → enc a = Ok ka → enc b = Ok kb → type_rank a = type_rank b →
    str_bytes a = None → type_rank a ≠ 30 → key_rel ka kb (cmp a b)) → key_order_at a) as Hwlog.
  { clear a. intros a H b ka kb Ha Hb Hea Heb. destruct (decide (type_rank a = type_rank b)) as [Hr|Hr];
      [|by apply key_order_ranks].
    destruct (str_bytes a) as [x|] eqn:Hx; [by apply (key_order_strings a b ka kb x)|].
    destruct (decide (type_rank a = 30)); [apply key_order_numbers; congruence|by apply H]. }
  apply bson_ind_nested; clear a.
  - intros a IH. apply Hwlog. intros b ka kb Ha Hb Hea Heb Hr _ _. destruct Hb; try discriminate Hr;
      [|destruct (document_rank d) as [E|E]; [done|..]; by rewrite E in Hr].
    apply bind_Ok in Hea as (k1 & H1 & <-%Ok_inj). apply bind_Ok in Heb as (k2 & H2 & <-%Ok_inj).
    destruct (encode_array_rel a IH a0 k1 k2) as [Hc Hp]; [by apply keyable_items|done..|].
    change (cmp (Array a) (Array a0)) with (array_cmp_with cmp a a0). rewrite <- Hc.
    by apply (key_rel_cons RANK_ARRAY RANK_ARRAY), key_rel_pfree.
  - intros d IH. apply Hwlog. intros b ka kb Ha Hb Hea Heb Hr Hs _.
    destruct (enc_document d (keyable_raw _ Ha) Hs) as [Ea Ta]. rewrite Ta in Hr.
    destruct Hb; try discriminate Hr. destruct (str_bytes (Document d0)) as [y|] eqn:Hy.
    { destruct (enc_string _ y H Hy) as [_ T]. by rewrite T in Hr. }
    destruct (enc_document d0 H Hy) as [Eb _]. rewrite Ea in Hea. rewrite Eb in Heb.
    apply bind_Ok in Hea as (k1 & H1 & <-%Ok_inj). apply bind_Ok in Heb as (k2 & H2 & <-%Ok_inj).
    destruct (encode_doc_rel d IH d0 k1 k2) as [Hc Hp]; [by apply keyable_fields|done..|].
    rewrite cmp_documents by (done || by apply keyable_raw). rewrite <- Hc.
    by apply (key_rel_cons RANK_DOCUMENT RANK_DOCUMENT), key_rel_pfree.
  - intros c d IH. apply Hwlog. intros b ka kb Ha Hb Hea Heb Hr _ _. apply keyable_scope in Ha as [Hc Hd].
    destruct Hb as [| | |d0| | | | |c0 d0 Hc0 Hd0| | | | | | | | | |]; try discriminate Hr;
      [destruct (document_rank d0) as [E|E]; [done|..]; by rewrite E in Hr|].
    cbn [encode_value as_raw_text as_invalid_utf8] in Hea, Heb. rewrite bo_Format4 in Hea, Heb.
    apply bind_Ok in Hea as (k1 & H1 & <-%Ok_inj). apply bind_Ok in Heb as (k2 & H2 & <-%Ok_inj).
    destruct (encode_doc_rel d IH d0 k1 k2) as [Hdc Hp]; [done..|].
    destruct (esc_sep_cmp c c0) as [Hcc Hcp]; [done..|]. rewrite !app_assoc.
    change (cmp (JavaScriptCodeWithScope c d) (JavaScriptCodeWithScope c0 d0))
      with (thn (bcmp c c0) (doc_cmp_with cmp d d0)). rewrite <- Hdc, <- Hcc.
    apply (key_rel_cons RANK_JAVASCRIPT_SCOPE RANK_JAVASCRIPT_SCOPE), key_rel_app; [done|]. by apply key_rel_pfree.
  - intros v. enough (match v with Array _ | Document _ | JavaScriptCodeWithScope _ _ => True | _ => key_order_at v end)
      by done. destruct v; try exact I; apply Hwlog; intros w ka kb Ha Hb Hea Heb Hr Hs Hn;
      exact (same_rank_leaf _ w ka kb Ha Hb Hea Heb Hr Hs Hn).
Qed.

(** ** Every keyable value has a key *)

Lemma element_total v :
  keyable v → (∃ k, enc v = Ok k) → ∃ r, element_value_with enc v = Ok r.
Proof.
  intros Hk [k He]. destruct (enc_rank v k Hk He) as (b & body & -> & _).
  unfold element_value_with. rewrite He. cbn -[slice].
  destruct (@slice_returns UnsupportedValue (b :: body) 1 (blen (b :: body))) as (d & -> & _).
  - rewrite blen_cons'. pose proof (blen_nonneg body). lia.
  - lia.
  - eexists. reflexivity.
Qed.

Lemma encode_doc_total d :
  Forall (λ e : bytes * Bson, keyable e.2 → ∃ k, enc e.2 = Ok k) d → Forall field_ok d →
  ∃ k, encode_doc_with enc d = Ok k.
Proof.
  induction 1 as [|[n v] d Hv _ IH]; intros Hf; [by eexists|].
  apply Forall_cons in Hf as [(_ & _ & Hk) Hf]. destruct (element_total v Hk (Hv Hk)) as [r Hr].
  destruct (IH Hf) as [k Hk']. cbn [encode_doc_with]. rewrite Hr. cbn. rewrite Hk'. by eexists.
Qed.

Lemma enc_total v : keyable v → ∃ k, enc v = Ok k.
Proof.
  pattern v. apply bson_ind_nested; clear v.
  - intros a IH Ha%keyable_items. enough (∃ k, encode_array_with enc a = Ok k) as [k E].
    { exists (RANK_ARRAY :: k). cbn [encode_value as_raw_text as_invalid_utf8]. by rewrite E. }
    induction IH as [|v a Hv _ IH]; [by eexists|]. apply Forall_cons in Ha as [Hk Ha].
    destruct (element_total v Hk (Hv Hk)) as [r Hr]. destruct (IH Ha) as [k E].
    cbn [encode_array_with]. rewrite Hr. cbn. rewrite E. by eexists.
  - intros d IH Hk. destruct (str_bytes (Document d)) as [s|] eqn:Hs.
    + eexists. apply (enc_string _ s (keyable_raw _ Hk) Hs).
    + destruct (enc_document d (keyable_raw _ Hk) Hs) as [-> _].
      destruct (encode_doc_total d IH (keyable_fields d Hk)) as [k ->]. by eexists.
  - intros c d IH [_ Hd]%keyable_scope. destruct (encode_doc_total d IH Hd) as [k E].
    cbn [encode_value as_raw_text as_invalid_utf8]. rewrite bo_Format4, E. by eexists.
  - intros v. destruct (decide (type_rank v = 30)) as [Hr|Hr].
    { enough (keyable v → ∃ k, enc v = Ok k) by (by destruct v). intros Hk.
      destruct (keyable_number v Hk Hr) as [Hw ->].
      destruct (number_key_rel dec v v Hw Hw) as (ka & _ & -> & _). by eexists. }
    destruct v; try exact I; try done; intros Hk; try (by eexists); by inversion Hk.
Qed.
End keys.
