(* ===== verification/SortKeyOrder.v ===== *)
(** * Sort keys: what an index relies on

    Properties of the key encoder: byte order is BSON order for one value and
    for a compound key of any directions, and [order::cmp] is a total preorder
    on the values it keys; the two corners where [cmp] and the keys part. *)
From S2P Require Import Prelude RustM Bson Lex Numeric NumericFacts Order SortKey SortKeyNum SortKeyFacts.
Open Scope Z_scope.

(** ** Directed fields *)

Lemma lxor_255 x : is_byte x → Z.lxor x 255 = 255 - x.
Proof.
  unfold is_byte. intros Hx.
  assert (forallb (λ n, Z.lxor (Z.of_nat n) 255 =? 255 - Z.of_nat n) (seq 0 256) = true) as H by (vm_compute; done).
  rewrite forallb_forall in H. specialize (H (Z.to_nat x) ltac:(apply in_seq; lia)).
  rewrite Z2Nat.id in H by lia. by apply Z.eqb_eq.
Qed.

Lemma invert_bytes_complement l : all_bytes l → invert_bytes l = complement l.
Proof.
  induction 1 as [|x l Hx Hl IH]; [done|].
  change (invert_bytes (x :: l)) with (Z.lxor x 255 :: invert_bytes l).
  by rewrite lxor_255, IH.
Qed.

Section directed.
Context (dec : bytes → bytes) (bo : BinDataOrder) (Hbo : bo ≠ Format4).

Local Abbreviation cmp := (Order.cmp dec bo None).
Local Abbreviation enc := (encode_value dec bo None).
Local Abbreviation encd := (encode_value_directed dec bo None).
Local Abbreviation keyable := (SortKeyFacts.keyable dec).

(** The order an index field of direction [dir] promises. *)
Definition dir_cmp (dir : Z) (a b : Bson) : comparison :=
  if dir =? -1 then CompOpp (cmp a b) else cmp a b.

(** A descending key is the complement of the ascending key and its separator. *)
Lemma encd_desc v k : keyable v → encd v (-1) = Ok k → ∃ e, enc v = Ok e ∧ k = complement (e ++ COMPOUND_SEP).
Proof.
  intros Hk He. apply bind_Ok in He as (e & He & <-%Ok_inj). exists e. split; [done|].
  cbn [Z.eqb Pos.eqb]. rewrite invert_bytes_complement by (by eapply enc_all_bytes).
  by rewrite complement_app.
Qed.

Lemma encd_asc v dir k : dir ≠ -1 → encd v dir = Ok k → enc v = Ok k.
Proof.
  intros Hd He. apply bind_Ok in He as (e & He & <-%Ok_inj). by rewrite (proj2 (Z.eqb_neq dir (-1))).
Qed.

Lemma encd_rel dir a b ka kb :
  keyable a → keyable b → encd a dir = Ok ka → encd b dir = Ok kb → key_rel ka kb (dir_cmp dir a b).
Proof.
  intros Ha Hb Hea Heb. unfold dir_cmp. destruct (Z.eqb_spec dir (-1)) as [->|Hd].
  - destruct (encd_desc a ka Ha Hea) as (ea & Ea & ->), (encd_desc b kb Hb Heb) as (eb & Eb & ->).
    destruct (key_order dec bo Hbo a b ea eb Ha Hb Ea Eb) as (_ & <- & Hp).
    rewrite <- (bcmp_complement _ _ Hp). by apply key_rel_pfree, pfree_complement.
  - apply (key_order dec bo Hbo); eauto using encd_asc.
Qed.

Lemma encd_total dir v : keyable v → ∃ k, encd v dir = Ok k.
Proof.
  intros Hk. destruct (enc_total dec bo Hbo v Hk) as [e He]. unfold encode_value_directed. rewrite He.
  by eexists.
Qed.

(** ** Compound keys *)

(** The per-field keys joined by the separator, as storage writes an entry. *)
Fixpoint join_keys (ks : list bytes) : bytes :=
  match ks with
  | [] => []
  | [k] => k
  | k :: ks => k ++ COMPOUND_SEP ++ join_keys ks
  end.

Inductive keys_of : list Z → list Bson → list bytes → Prop :=
  | keys_nil : keys_of [] [] []
  | keys_cons dir v k dirs vs ks :
      keyable v → encd v dir = Ok k → keys_of dirs vs ks → keys_of (dir :: dirs) (v :: vs) (k :: ks).

Fixpoint lex_cmp (dirs : list Z) (a b : list Bson) : comparison :=
  match dirs, a, b with
  | dir :: dirs, x :: a, y :: b => thn (dir_cmp dir x y) (lex_cmp dirs a b)
  | _, _, _ => Eq
  end.

Lemma keys_of_total dirs vs : Forall keyable vs → length dirs = length vs → ∃ ks, keys_of dirs vs ks.
Proof.
  intros Hv. revert dirs. induction Hv as [|v vs Hv _ IH]; intros [|dir dirs] Hl; try done.
  - exists []. constructor.
  - injection Hl as Hl. destruct (IH dirs Hl) as [ks Hks], (encd_total dir v Hv) as [k Hk].
    exists (k :: ks). by constructor.
Qed.

Lemma join_keys_cons k ks : ks ≠ [] → join_keys (k :: ks) = (k ++ COMPOUND_SEP) ++ join_keys ks.
Proof. destruct ks; [done|]. intros _. by rewrite <- app_assoc. Qed.

Lemma keys_of_cmp dirs a b ka kb :
  keys_of dirs a ka → keys_of dirs b kb → bcmp (join_keys ka) (join_keys kb) = lex_cmp dirs a b.
Proof.
  intros Ha. revert b kb. induction Ha as [|dir v k dirs vs ks Hv Hk Hks IH]; intros b kb Hb.
  { by inversion Hb. }
  inversion Hb as [|dir' w l dirs' ws ls Hw Hl Hls]; subst. cbn [lex_cmp].
  destruct (encd_rel dir v w k l Hv Hw Hk Hl) as (H1 & H2 & H3).
  destruct Hks as [|dir2 v2 k2 dirs vs ks Hv2 Hk2 Hks].
  - inversion Hls; subst. simpl. by rewrite thn_Eq_r.
  - inversion Hls as [|dir2' w2 l2 dirs2 ws2 ls2 Hw2 Hl2 Hls2]; subst.
    rewrite (join_keys_cons k), (join_keys_cons l) by done. rewrite (bcmp_app _ _ _ _ H3), H2. f_equal. by apply IH.
Qed.
End directed.

(** ** Properties *)

(** C8. Index keys sort like values: for any two keyable values the encoder
    returns keys, and comparing the keys byte by byte gives the verdict of
    [order::cmp] under the same BinData order -- across types, and for numbers of
    every width, strings of either form, documents and arrays of any depth. So
    walking an index and sorting in memory give the same answer. *)
Theorem sortkey_order dec bo a b :
  bo ≠ Format4 → keyable dec a → keyable dec b →
  ∃ ka kb, encode_value dec bo None a = Ok ka ∧ encode_value dec bo None b = Ok kb ∧
    bcmp ka kb = Order.cmp dec bo None a b.
Proof.
  intros Hbo Ha Hb. destruct (enc_total dec bo Hbo a Ha) as [ka Hka], (enc_total dec bo Hbo b Hb) as [kb Hkb].
  exists ka, kb. split_and!; [done..|]. by apply (key_order dec bo Hbo a b ka kb Ha Hb Hka Hkb).
Qed.

Definition sample_doc (n : Z) : Bson :=
  Document [([97], Array [Int32 n; Double 0x3FB999999999999A]); ([98], String [0; 65])].

Lemma sample_doc_keyable n : i32_ok n → keyable id (sample_doc n).
Proof.
  intros Hn. apply k_document; [done|]. repeat apply Forall_cons_2; try apply Forall_nil_2;
    split_and!; try done; try (by repeat constructor); constructor.
  repeat constructor; apply Hn.
Qed.

Lemma sortkey_order_witness :
  ∃ ka kb, encode_value id Mongod None (sample_doc 3) = Ok ka ∧
    encode_value id Mongod None (sample_doc 2) = Ok kb ∧ bcmp ka kb = Gt.
Proof.
  apply (sortkey_order id Mongod (sample_doc 3) (sample_doc 2)); [done|apply sample_doc_keyable; done..].
Defined.

(** C23. A compound key of any directions: the joined per-field keys of two
    rows compare as the rows do field by field, each field in its own direction.
    In particular a descending field is exactly the reverse of the ascending
    order, prefixes included. *)
Theorem compound_key_order dec bo dirs a b :
  bo ≠ Format4 → Forall (keyable dec) a → Forall (keyable dec) b →
  length dirs = length a → length dirs = length b →
  ∃ ka kb, keys_of dec bo dirs a ka ∧ keys_of dec bo dirs b kb ∧
    bcmp (join_keys ka) (join_keys kb) = lex_cmp dec bo dirs a b.
Proof.
  intros Hbo Ha Hb Hla Hlb.
  destruct (keys_of_total dec bo Hbo dirs a Ha Hla) as [ka Hka], (keys_of_total dec bo Hbo dirs b Hb Hlb) as [kb Hkb].
  exists ka, kb. split_and!; [done..|]. by apply (keys_of_cmp dec bo Hbo).
Qed.

Lemma compound_key_order_witness :
  ∃ ka kb, keys_of id Mongod [-1; 1] [String [97]; Int32 5] ka ∧
    keys_of id Mongod [-1; 1] [String [97; 98]; Int32 4] kb ∧
    bcmp (join_keys ka) (join_keys kb) = Gt.
Proof.
  apply (compound_key_order id Mongod [-1; 1] [String [97]; Int32 5] [String [97; 98]; Int32 4]);
    [done|repeat constructor; unfold is_byte, i32_ok; done..|done|done].
Defined.

(** [order::cmp] is a total preorder on keyable values: swapping the
    operands reverses the verdict, and "not greater" is transitive. Rust's sort
    may panic on a comparator without this. *)
Theorem cmp_total_preorder dec bo a b c :
  bo ≠ Format4 → keyable dec a → keyable dec b → keyable dec c →
  Order.cmp dec bo None a a = Eq ∧
  Order.cmp dec bo None b a = CompOpp (Order.cmp dec bo None a b) ∧
  (Order.cmp dec bo None a b ≠ Gt → Order.cmp dec bo None b c ≠ Gt → Order.cmp dec bo None a c ≠ Gt).
Proof.
  intros Hbo Ha Hb Hc.
  destruct (enc_total dec bo Hbo a Ha) as [ka Ea], (enc_total dec bo Hbo b Hb) as [kb Eb], (enc_total dec bo Hbo c Hc) as [kc Ec].
  assert (∀ x y kx ky, keyable dec x → keyable dec y → encode_value dec bo None x = Ok kx →
    encode_value dec bo None y = Ok ky → Order.cmp dec bo None x y = bcmp kx ky) as E.
  { intros x y kx ky Hx Hy Ex Ey. symmetry. apply (key_order dec bo Hbo x y kx ky Hx Hy Ex Ey). }
  rewrite (E a a ka ka), (E b a kb ka), (E a b ka kb), (E b c kb kc), (E a c ka kc) by done.
  split_and!; [apply bcmp_refl|apply bcmp_antisym|].
  intros H1 H2. destruct (bcmp ka kb) eqn:E1; [by apply bcmp_Eq in E1 as ->| |done].
  destruct (bcmp kb kc) eqn:E2; [by apply bcmp_Eq in E2 as <-; rewrite E1| |done].
  by rewrite (bcmp_trans_lt ka kb kc).
Qed.

Lemma cmp_total_preorder_witness :
  Order.cmp id Mongod None (Int32 1) (Int32 1) = Eq ∧
  Order.cmp id Mongod None (sample_doc 2) (Int32 1) = Gt ∧
  (Lt ≠ Gt → Lt ≠ Gt → Lt ≠ Gt).
Proof.
  apply (cmp_total_preorder id Mongod (Int32 1) (sample_doc 2) (sample_doc 3)); [done|by constructor|
    apply sample_doc_keyable; done..].
Defined.

(** C35. Keyed by one rank byte, [undefined] and MinKey are told apart by the
    byte after it; inside a document the field name comes between. So whatever
    follows in them, a document that starts with an [undefined] field and one
    that starts with a MinKey field of a later name have keys in the opposite
    order of [order::cmp]: an index returns them in another order than an
    in-memory sort. *)
Theorem undefined_field_key_order dec bo n1 n2 r1 r2 k1 k2 :
  all_bytes n1 → all_bytes n2 → bcmp n1 n2 = Lt →
  encode_value dec bo None (Document ((n1, Undefined) :: r1)) = Ok k1 →
  encode_value dec bo None (Document ((n2, MinKey) :: r2)) = Ok k2 →
  bcmp k1 k2 = Lt ∧ Order.cmp dec bo None (Document ((n1, Undefined) :: r1)) (Document ((n2, MinKey) :: r2)) = Gt.
Proof.
  intros Hn1 Hn2 Hlt E1 E2.
  assert (Hplain : ∀ n v r, v = Undefined ∨ v = MinKey →
    as_raw_text (Document ((n, v) :: r)) = None ∧ as_invalid_utf8 (Document ((n, v) :: r)) = None).
  { intros n v r [->| ->]; destruct r; cbn; (split; [|done]); try done;
      destruct (head _); cbn; done. }
  destruct (Hplain n1 Undefined r1 (or_introl eq_refl)) as [R1 U1].
  destruct (Hplain n2 MinKey r2 (or_intror eq_refl)) as [R2 U2].
  assert (Hk : ∀ n v r k, as_raw_text (Document ((n, v) :: r)) = None → as_invalid_utf8 (Document ((n, v) :: r)) = None →
    v = Undefined ∨ v = MinKey → encode_value dec bo None (Document ((n, v) :: r)) = Ok k →
    ∃ tail, k = [RANK_DOCUMENT; RANK_MINKEY] ++ (escape n ++ COMPOUND_SEP) ++ tail).
  { intros n v r k R U Hv E. cbn [encode_value] in E. rewrite R, U in E. apply bind_Ok in E as (kd & E & <-%Ok_inj).
    cbn [encode_doc_with] in E. apply bind_Ok in E as (e & Ee & E). apply bind_Ok in E as (rest & Er & <-%Ok_inj).
    assert (e.1 = RANK_MINKEY) as -> by (by destruct Hv as [->| ->]; vm_compute in Ee; injection Ee as <-).
    exists (e.2 ++ rest). by rewrite <- !app_assoc. }
  destruct (Hk _ _ _ _ R1 U1 (or_introl eq_refl) E1) as (t1 & ->). destruct (Hk _ _ _ _ R2 U2 (or_intror eq_refl) E2) as (t2 & ->).
  destruct (esc_sep_cmp n1 n2 Hn1 Hn2) as [Hc Hp]. split.
  - rewrite bcmp_app_same, bcmp_app, Hc, Hlt by done. done.
  - assert (Ht : ∀ n v r, as_raw_text (Document ((n, v) :: r)) = None → as_invalid_utf8 (Document ((n, v) :: r)) = None →
      type_rank (Document ((n, v) :: r)) = 50 ∧ str_bytes (Document ((n, v) :: r)) = None).
    { intros n v r R U. unfold type_rank, str_bytes. by rewrite R, U. }
    destruct (Ht _ _ _ R1 U1) as [T1 S1]. destruct (Ht _ _ _ R2 U2) as [T2 S2].
    cbn [Order.cmp]. rewrite T1, T2. cbn [negb Z.eqb Pos.eqb].
    assert (carrier_pair (Document ((n1, Undefined) :: r1)) (Document ((n2, MinKey) :: r2)) = None) as -> by (unfold carrier_pair; by rewrite S1).
    unfold raw_text_cmp. by rewrite R1, R2.
Qed.

(** The smallest case: [{a: undefined}] and [{b: MinKey}]. *)
Lemma undefined_field_key_order_witness :
  bcmp [5; 1; 97; 0; 0; 128; 0; 0; 0] [5; 1; 98; 0; 0; 0; 0; 0] = Lt ∧
  Order.cmp id Mongod None (Document [([97], Undefined)]) (Document [([98], MinKey)]) = Gt.
Proof.
  apply (undefined_field_key_order id Mongod [97] [98] [] []);
    [apply Forall_singleton; unfold is_byte; lia..|done|vm_compute; reflexivity|vm_compute; reflexivity].
Defined.

(** A symbol passes [is_sortable] but [cmp] gives it the rank of a
    document and calls it equal to every document, while documents differ among
    themselves: on these values [cmp] is not transitive, so it is no order that
    Rust's sort accepts. *)
Theorem symbol_cmp_not_transitive :
  let s := Symbol [120] in
  let d1 := Document [([97], Int32 1)] in
  let d2 := Document [([97], Int32 2)] in
  is_sortable s = true ∧ is_sortable d1 = true ∧ is_sortable d2 = true ∧
  Order.cmp id Mongod None d2 s = Eq ∧ Order.cmp id Mongod None s d1 = Eq ∧
  Order.cmp id Mongod None d2 d1 = Gt ∧
  bson_lt id Mongod None s d1 = Some true.
Proof. repeat split. Qed.
