(* ===== verification/SortKeySplit.v ===== *)
(** * Sort keys: splitting compound keys

    Every key is self-delimiting: [value_len] finds the end of a key written in
    mongod's BinData order whatever follows its separator, so [split_directed]
    and [split_compound] cut a compound key back into the keys it was joined
    from. *)
From S2P Require Import Prelude RustM Bson Lex Numeric NumericFacts Order SortKey SortKeyNum SortKeyFacts.
From S2P Require Import SortKeyOrder.
Open Scope Z_scope.

(** What may follow a key: nothing, or a separator. *)
Definition tail_ok (r : bytes) : Prop := r = [] ∨ ∃ r', r = COMPOUND_SEP ++ r'.

Lemma escaped_len_cons x l :
  escaped_len (x :: l) = if (x =? 0) && bool_decide (head l = Some 0) then O else S (escaped_len l).
Proof.
  destruct l as [|y l]; cbn [escaped_len head].
  - by rewrite bool_decide_false, andb_false_r.
  - replace (y =? 0) with (bool_decide (Some y = Some 0)); [done|].
    destruct (Z.eqb_spec y 0) as [->|]; [by apply bool_decide_true|]. apply bool_decide_false. congruence.
Qed.

Lemma escape_not_zero_head l b : head (escape l) = Some b → b = 0 → ∃ l', escape l = 0 :: 255 :: l'.
Proof.
  destruct l as [|x l]; [done|]. rewrite escape_cons. destruct (Z.eqb_spec x 0); simpl.
  - eauto.
  - by intros [= ->].
Qed.

Lemma escaped_len_escape s r : tail_ok r → escaped_len (escape s ++ r) = length (escape s).
Proof.
  intros Hr. induction s as [|x s IH].
  { destruct Hr as [-> |[r' ->]]; done. }
  rewrite escape_cons, <- app_assoc, length_app. destruct (Z.eqb_spec x 0) as [->|Hx]; simpl app.
  - rewrite !escaped_len_cons. simpl. by rewrite IH.
  - rewrite escaped_len_cons, (proj2 (Z.eqb_neq x 0)) by done. simpl. by rewrite IH.
Qed.

Lemma get_from_app a b : get_from (a ++ b) (length a) = Some b.
Proof. unfold get_from. rewrite bool_decide_true by (rewrite length_app; lia). by rewrite drop_app_length. Qed.

Lemma get_from_drop l n : (n ≤ length l)%nat → get_from l n = Some (drop n l).
Proof. intros. unfold get_from. by rewrite bool_decide_true. Qed.

Lemma position_of_app b l r : b ∉ l → position_of b (l ++ b :: r) = Some (length l).
Proof.
  induction l as [|x l IH]; simpl; [by rewrite Z.eqb_refl|]. intros Hn.
  rewrite (proj2 (Z.eqb_neq x b)) by set_solver. rewrite IH by set_solver. done.
Qed.

Lemma skip_escaped_escape data r n :
  n = blen data → skip_escaped n (escape data ++ r) = Some (length (escape data)).
Proof.
  revert n. induction data as [|x data IH]; intros n ->.
  { by destruct r. }
  rewrite escape_cons, <- app_assoc, length_app, blen_cons'. pose proof (blen_nonneg data).
  destruct (Z.eqb_spec x 0) as [->|Hx]; cbn [app skip_escaped];
    rewrite (proj2 (Z.leb_gt (blen data + 1) 0)) by lia.
  - cbn [Z.eqb]. rewrite (IH (blen data + 1 - 1)) by lia. done.
  - rewrite (proj2 (Z.eqb_neq x 0)) by done. rewrite (IH (blen data + 1 - 1)) by lia. done.
Qed.

(** ** Numbers *)

Lemma pairs_elem f d c : Forall is_digit d → c ∈ pairs f d → ∃ b, 1 ≤ b ≤ 100 ∧ c = f b.
Proof.
  intros Hd. enough (∀ n d, (length d < n)%nat → Forall is_digit d → c ∈ pairs f d → ∃ b, 1 ≤ b ≤ 100 ∧ c = f b) as H
    by (intros; by apply (H (S (length d)) d); [lia|..]).
  clear d Hd. intros n. induction n as [|n IH]; [lia|]. intros d Hlen Hd.
  destruct Hd as [|x d Hx [|y r Hy Hr]]; unfold is_digit in *; cbn [pairs].
  - by intros ?%not_elem_of_nil.
  - intros ->%list_elem_of_singleton. eexists. split; [|done]. lia.
  - intros [-> |Hc]%elem_of_cons; [eexists; split; [|done]; lia|]. simpl in Hlen. by apply (IH r); [lia|..].
Qed.

Lemma number_len_finite s ds e r :
  s = 1 ∨ s = -1 → normal ds → exp_ok (Finite s ds e) →
  number_len (num_key (Finite s ds e) ++ r) = Some (length (num_key (Finite s ds e))).
Proof.
  intros Hs (Hd & _ & _) He. rewrite finite_key_shape by done. destruct Hs as [-> | ->]; cbn [Z.eqb Pos.eqb];
    unfold number_len; cbn -[be_bytes pairs app length drop get_from].
  - set (x := 0x8000 + _). change (?h :: ?k) with ([h] ++ k). rewrite <- !app_assoc. rewrite (app_assoc [_]).
    rewrite <- (be_bytes_length 2 x) at 1.
    replace 3%nat with (length ([NUM_POS] ++ be_bytes 2 x)) by (rewrite length_app, be_bytes_length; done).
    rewrite get_from_app. cbn [mbind option_bind app].
    rewrite position_of_app.
    + cbn. f_equal. rewrite !length_app, be_bytes_length. simpl. lia.
    + intros Hin. destruct (pairs_elem _ _ _ Hd Hin) as (b & Hb & E). lia.
  - set (x := 0x7FFF - _). change (?h :: ?k) with ([h] ++ k). rewrite <- !app_assoc. rewrite (app_assoc [_]).
    replace 3%nat with (length ([NUM_NEG] ++ be_bytes 2 x)) by (rewrite length_app, be_bytes_length; done).
    rewrite get_from_app. cbn [mbind option_bind app].
    rewrite position_of_app.
    + cbn. f_equal. rewrite !length_app, be_bytes_length. simpl. lia.
    + intros Hin. destruct (pairs_elem _ _ _ Hd Hin) as (b & Hb & E). lia.
Qed.

Lemma number_len_key s n r : num_ok s n → exp_ok n → number_len (num_key n ++ r) = Some (length (num_key n)).
Proof.
  destruct n as [|x| |sg ds e]; intros Hok He; [done|by destruct Hok as [-> | ->]|done|].
  destruct Hok as (Hs & Hn & _). by apply number_len_finite.
Qed.

Section split.
Context (dec : bytes → bytes).

Local Abbreviation enc := (encode_value dec Mongod None).
Local Abbreviation keyable := (SortKeyFacts.keyable dec).

Lemma Mongod_not_Format4 : Mongod ≠ Format4.
Proof. done. Qed.

(** ** Elements *)

Lemma lookup_middle (pre : bytes) x l : (pre ++ x :: l) !! length pre = Some x.
Proof. by apply list_lookup_middle. Qed.

Lemma elements_len_doc d : ∀ k pre r fuel,
  Forall (field_ok dec) d → encode_doc_with enc d = Ok k → (length d < fuel)%nat →
  elements_len_loop fuel (pre ++ k ++ r) true (length pre) = Some (length pre + length k)%nat.
Proof.
  induction d as [|[n v] d IH]; intros k pre r fuel Hf He Hfuel; (destruct fuel as [|fuel]; [lia|]).
  - apply Ok_inj in He as <-. cbn [elements_len_loop app]. rewrite lookup_middle. done.
  - apply Forall_cons in Hf as [(Hn & _ & Hv) Hf].
    destruct (encode_doc_cons dec Mongod Mongod_not_Format4 n v d k Hv He) as (b & body & rest & _ & Hr%has_rank_pos & Hrest & ->).
    cbn [elements_len_loop app]. rewrite lookup_middle. cbn [mbind option_bind].
    unfold ELEMENTS_END. rewrite (proj2 (Z.eqb_neq b 0)) by lia.
    set (p1 := pre ++ [b]). set (p2 := p1 ++ escape n ++ COMPOUND_SEP). set (p3 := p2 ++ escape body ++ COMPOUND_SEP).
    assert (pre ++ b :: ((escape n ++ COMPOUND_SEP) ++ (escape body ++ COMPOUND_SEP) ++ rest) ++ r =
      p1 ++ escape n ++ COMPOUND_SEP ++ escape body ++ COMPOUND_SEP ++ rest ++ r) as E1
      by (unfold p1; by rewrite <- !app_assoc).
    assert (p1 ++ escape n ++ COMPOUND_SEP ++ escape body ++ COMPOUND_SEP ++ rest ++ r =
      p2 ++ escape body ++ COMPOUND_SEP ++ rest ++ r) as E2 by (unfold p2; by rewrite <- !app_assoc).
    assert (p2 ++ escape body ++ COMPOUND_SEP ++ rest ++ r = p3 ++ rest ++ r) as E3
      by (unfold p3; by rewrite <- !app_assoc).
    rewrite E1. replace (length pre + 1)%nat with (length p1) by (unfold p1; rewrite length_app; done).
    rewrite get_from_app. cbn [mbind option_bind]. rewrite escaped_len_escape by (right; eauto).
    replace (length p1 + length (escape n) + 2)%nat with (length p2) by (unfold p2; rewrite !length_app; simpl; lia).
    rewrite E2, get_from_app. cbn [mbind option_bind]. rewrite escaped_len_escape by (right; eauto).
    replace (length p2 + length (escape body) + 2)%nat with (length p3) by (unfold p3; rewrite !length_app; simpl; lia).
    rewrite E3, bool_decide_false by (rewrite length_app; lia).
    rewrite (IH rest p3 r fuel Hf Hrest) by (simpl in Hfuel; lia).
    f_equal. unfold p3, p2, p1. rewrite !length_app. simpl. rewrite !length_app. simpl. lia.
Qed.

Lemma elements_len_array a : ∀ k pre r fuel,
  Forall keyable a → encode_array_with enc a = Ok k → (length a < fuel)%nat →
  elements_len_loop fuel (pre ++ k ++ r) false (length pre) = Some (length pre + length k)%nat.
Proof.
  induction a as [|v a IH]; intros k pre r fuel Hf He Hfuel; (destruct fuel as [|fuel]; [lia|]).
  - apply Ok_inj in He as <-. cbn [elements_len_loop app]. rewrite lookup_middle. done.
  - apply Forall_cons in Hf as [Hv Hf].
    destruct (encode_array_cons dec Mongod Mongod_not_Format4 v a k Hv He) as (b & body & rest & _ & Hr%has_rank_pos & Hrest & ->).
    cbn [elements_len_loop app]. rewrite lookup_middle. cbn [mbind option_bind].
    unfold ELEMENTS_END. rewrite (proj2 (Z.eqb_neq b 0)) by lia.
    set (p1 := pre ++ [b]). set (p3 := p1 ++ escape body ++ COMPOUND_SEP).
    assert (pre ++ b :: ((escape body ++ COMPOUND_SEP) ++ rest) ++ r =
      p1 ++ escape body ++ COMPOUND_SEP ++ rest ++ r) as E1 by (unfold p1; by rewrite <- !app_assoc).
    assert (p1 ++ escape body ++ COMPOUND_SEP ++ rest ++ r = p3 ++ rest ++ r) as E3
      by (unfold p3; by rewrite <- !app_assoc).
    rewrite E1. replace (length pre + 1)%nat with (length p1) by (unfold p1; rewrite length_app; done).
    rewrite get_from_app. cbn [mbind option_bind]. rewrite escaped_len_escape by (right; eauto).
    replace (length p1 + length (escape body) + 2)%nat with (length p3) by (unfold p3; rewrite !length_app; simpl; lia).
    rewrite E3, bool_decide_false by (rewrite length_app; lia).
    rewrite (IH rest p3 r fuel Hf Hrest) by (simpl in Hfuel; lia).
    f_equal. unfold p3, p1. rewrite !length_app. simpl. rewrite !length_app. simpl. lia.
Qed.

Lemma encode_doc_length d k :
  Forall (field_ok dec) d → encode_doc_with enc d = Ok k → (length d < length k)%nat.
Proof.
  revert k. induction d as [|[n v] d IH]; intros k Hf He; [apply Ok_inj in He as <-; simpl; lia|].
  apply Forall_cons in Hf as [(_ & _ & Hv) Hf].
  destruct (encode_doc_cons dec Mongod Mongod_not_Format4 n v d k Hv He) as (b & body & rest & _ & _ & Hrest & ->).
  specialize (IH rest Hf Hrest). simpl. rewrite !length_app. lia.
Qed.

Lemma encode_array_length a k :
  Forall keyable a → encode_array_with enc a = Ok k → (length a < length k)%nat.
Proof.
  revert k. induction a as [|v a IH]; intros k Hf He; [apply Ok_inj in He as <-; simpl; lia|].
  apply Forall_cons in Hf as [Hv Hf].
  destruct (encode_array_cons dec Mongod Mongod_not_Format4 v a k Hv He) as (b & body & rest & _ & _ & Hrest & ->).
  specialize (IH rest Hf Hrest). simpl. rewrite !length_app. lia.
Qed.

Lemma elements_len_doc_key d k r :
  Forall (field_ok dec) d → encode_doc_with enc d = Ok k → elements_len (k ++ r) true = Some (length k).
Proof.
  intros Hf He. apply (elements_len_doc d k [] r); [done..|].
  pose proof (encode_doc_length d k Hf He). rewrite length_app. lia.
Qed.

Lemma elements_len_array_key a k r :
  Forall keyable a → encode_array_with enc a = Ok k → elements_len (k ++ r) false = Some (length k).
Proof.
  intros Hf He. apply (elements_len_array a k [] r); [done..|].
  pose proof (encode_array_length a k Hf He). rewrite length_app. lia.
Qed.

(** ** One key at the start of a longer one *)

(** The body length [value_len] finds is checked against what is there. *)
Lemma value_len_body rank body r n :
  (let key := rank :: body ++ r in value_len key = (if bool_decide (n ≤ length (body ++ r))%nat then Some (1 + n)%nat else None)) →
  n = length body → value_len ((rank :: body) ++ r) = Some (length (rank :: body)).
Proof. cbv zeta. intros H ->. simpl app. rewrite H, bool_decide_true by (rewrite length_app; lia). done. Qed.

Lemma tail_ok_head r b : tail_ok r → b ≠ 0 → head r ≠ Some b.
Proof. intros [-> |[r' ->]] Hb; [done|]. simpl. congruence. Qed.

Lemma value_len_regex p o r :
  tail_ok r →
  value_len ((RANK_REGEX :: escape p ++ COMPOUND_SEP ++ escape o) ++ r) =
  Some (length (RANK_REGEX :: escape p ++ COMPOUND_SEP ++ escape o)).
Proof.
  intros Hr. eapply value_len_body; [|reflexivity]. cbv zeta. unfold value_len. cbn -[escaped_len get_from app length COMPOUND_SEP].
  rewrite ?drop_0, <- !app_assoc, escaped_len_escape by (right; eauto). rewrite get_from_app. cbn [mbind option_bind app strip_sep COMPOUND_SEP].
  cbn [Z.eqb andb mbind option_bind]. rewrite escaped_len_escape by done. cbn -[length].
  replace (length (escape p) + 2 + length (escape o))%nat with (length (escape p ++ [0; 0] ++ escape o)); [done|].
  rewrite !length_app. simpl. lia.
Qed.

Lemma value_len_scope c d k r :
  Forall (field_ok dec) d → encode_doc_with enc d = Ok k →
  value_len ((RANK_JAVASCRIPT_SCOPE :: escape c ++ COMPOUND_SEP ++ k) ++ r) =
  Some (length (RANK_JAVASCRIPT_SCOPE :: escape c ++ COMPOUND_SEP ++ k)).
Proof.
  intros Hf He. eapply value_len_body; [|reflexivity]. cbv zeta. unfold value_len. cbn -[escaped_len get_from app length COMPOUND_SEP elements_len].
  rewrite ?drop_0, <- !app_assoc, escaped_len_escape by (right; eauto). rewrite get_from_app. cbn [mbind option_bind app strip_sep COMPOUND_SEP].
  cbn [Z.eqb andb mbind option_bind]. rewrite (elements_len_doc_key d k r Hf He). cbn -[length].
  replace (length (escape c) + 2 + length k)%nat with (length (escape c ++ [0; 0] ++ k)); [done|].
  rewrite !length_app. simpl. lia.
Qed.

Lemma value_len_bindata st b r :
  blen b < 2 ^ 32 →
  value_len ((RANK_BINDATA :: bindata_key Mongod st b) ++ r) = Some (length (RANK_BINDATA :: bindata_key Mongod st b)).
Proof.
  intros Hb. eapply value_len_body; [|reflexivity]. cbv zeta. unfold value_len, bindata_key.
  cbn -[escaped_len get_from app length be_bytes le_val take skip_escaped].
  rewrite ?drop_0. set (n := wrap 32 (blen b)).
  rewrite bool_decide_true by (rewrite !length_app, be_bytes_length; lia). cbn [mbind option_bind].
  rewrite <- !app_assoc. rewrite take_app_length' by (by rewrite be_bytes_length).
  assert (le_val (reverse (be_bytes 4 n)) = blen b) as ->.
  { unfold be_bytes. rewrite reverse_involutive, le_val_bytes. change (256 ^ Z.of_nat 4) with (2 ^ 32).
    unfold n, wrap. rewrite Z.mod_mod by done. apply Z.mod_small. split; [apply blen_nonneg|done]. }
  rewrite (app_assoc (be_bytes 4 n) [st]).
  replace 5%nat with (length (be_bytes 4 n ++ [st])) at 1 by (by rewrite length_app, be_bytes_length).
  rewrite get_from_app. cbn [mbind option_bind]. rewrite skip_escaped_escape by done. cbn [mbind option_bind].
  replace (5 + length (escape b))%nat with (length (be_bytes 4 n ++ [st] ++ escape b)); [done|].
  rewrite !length_app, be_bytes_length. simpl. lia.
Qed.

Lemma value_len_key v k r :
  keyable v → enc v = Ok k → tail_ok r → value_len (k ++ r) = Some (length k).
Proof.
  intros Hk He Hr. destruct (str_bytes v) as [s|] eqn:Hs.
  { destruct (enc_string dec Mongod v s (keyable_raw dec v Hk) Hs) as [E _]. rewrite E in He.
    apply Ok_inj in He as <-. eapply value_len_body; [reflexivity|]. by apply escaped_len_escape. }
  destruct (decide (type_rank v = 30)) as [Hn|Hn].
  { destruct (keyable_number dec Mongod v Hk Hn) as [Hw E]. destruct (classify_number dec v Hw) as [n Hc].
    destruct (encode_number_classify dec v n Hw Hc) as (En & Hok & Hex & _). rewrite E, En in He.
    apply Ok_inj in He as <-. eapply value_len_body; [|reflexivity]. cbv zeta. unfold value_len.
    cbn -[number_len app length num_key]. rewrite ?drop_0. by rewrite (number_len_key 25000). }
  destruct Hk; try done.
  - apply bind_Ok in He as (k' & He & <-%Ok_inj). eapply value_len_body; [|reflexivity]. cbv zeta. unfold value_len.
    cbn -[elements_len app length]. rewrite ?drop_0. by rewrite (elements_len_array_key a k' r).
  - destruct (enc_document dec Mongod d ltac:(done) Hs) as [E _]. rewrite E in He.
    apply bind_Ok in He as (k' & He & <-%Ok_inj). eapply value_len_body; [|reflexivity]. cbv zeta. unfold value_len.
    cbn -[elements_len app length]. rewrite ?drop_0. by rewrite (elements_len_doc_key d k' r).
  - by apply Ok_inj in He as <-.
  - by apply Ok_inj in He as <-.
  - apply Ok_inj in He as <-. by apply value_len_regex.
  - apply Ok_inj in He as <-. eapply value_len_body; [reflexivity|]. by apply escaped_len_escape.
  - apply bind_Ok in He as (k' & He & <-%Ok_inj). by apply (value_len_scope c d k' r).
  - apply Ok_inj in He as <-. apply (value_len_body _ _ _ 8); [reflexivity|]. by rewrite length_app, !be_bytes_length.
  - apply Ok_inj in He as <-. by apply value_len_bindata.
  - apply Ok_inj in He as <-. apply (value_len_body _ _ _ 12); [reflexivity|]. done.
  - apply Ok_inj in He as <-. apply (value_len_body _ _ _ 8); [reflexivity|]. unfold signed_int64_sortable. by rewrite be_bytes_length.
  - by apply Ok_inj in He as <-.
  - by apply Ok_inj in He as <-.
  - apply Ok_inj in He as <-. unfold value_len. cbn -[bool_decide].
    rewrite bool_decide_false by (by apply tail_ok_head). done.
Qed.

(** ** Joined keys *)

Local Abbreviation keys_of := (SortKeyOrder.keys_of dec Mongod).

Lemma complement_all_bytes l : all_bytes l → all_bytes (complement l).
Proof. unfold all_bytes, is_byte. induction 1 as [|x l Hx Hl IH]; constructor; [lia|done]. Qed.

Lemma invert_complement l : all_bytes l → invert_bytes (complement l) = l.
Proof. intros Hl. by rewrite invert_bytes_complement, complement_involutive by (by apply complement_all_bytes). Qed.

Lemma invert_bytes_app a b : invert_bytes (a ++ b) = invert_bytes a ++ invert_bytes b.
Proof. apply map_app. Qed.

(** One field's key at the start of a joined key. *)
Lemma directed_len_key v dir k r :
  keyable v → encode_value_directed dec Mongod None v dir = Ok k → tail_ok r →
  directed_len (k ++ r) dir = Some (length k).
Proof.
  intros Hv He Hr. unfold directed_len. destruct (Z.eqb_spec dir (-1)) as [->|Hd].
  - destruct (encd_desc dec Mongod Mongod_not_Format4 v k Hv He) as (e & Ee & ->). cbn [negb].
    pose proof (enc_all_bytes dec Mongod Mongod_not_Format4 v e Hv Ee) as Hb.
    rewrite invert_bytes_app, invert_complement by (apply all_bytes_app; split; [done|apply sep_all_bytes]).
    rewrite <- app_assoc, (value_len_key v e) by (done || (right; eauto)). cbn [mbind option_bind].
    rewrite complement_app, <- app_assoc.
    assert (length (complement e) = length e) as Hl by apply length_map.
    rewrite bool_decide_true by (rewrite !length_app, Hl; simpl; lia).
    rewrite <- Hl, drop_app_length. rewrite bool_decide_true by done. f_equal. rewrite length_app. done.
  - cbn [negb]. apply (value_len_key v k r Hv); [by apply (encd_asc dec Mongod v dir)|done].
Qed.

Lemma ascending_part_key v dir k :
  keyable v → encode_value_directed dec Mongod None v dir = Ok k → enc v = Ok (ascending_part k dir).
Proof.
  intros Hv He. unfold ascending_part. destruct (Z.eqb_spec dir (-1)) as [->|Hd].
  - destruct (encd_desc dec Mongod Mongod_not_Format4 v k Hv He) as (e & Ee & ->).
    pose proof (enc_all_bytes dec Mongod Mongod_not_Format4 v e Hv Ee) as Hb.
    rewrite complement_app, length_app. change (length (complement COMPOUND_SEP)) with 2%nat.
    replace (length (complement e) + 2 - 2)%nat with (length (complement e)) by lia.
    rewrite drop_app_length, take_app_length, bool_decide_true by (split; [lia|done]).
    by rewrite invert_complement.
  - by apply (encd_asc dec Mongod v dir).
Qed.

Lemma split_join (dirs : list Z) vs ks :
  keys_of dirs vs ks → split_directed (join_keys ks) dirs = Some ks.
Proof.
  unfold split_directed. induction 1 as [|dir v k dirs vs ks Hv Hk Hks IH]; [done|]. cbn [split_with].
  destruct Hks as [|dir2 v2 k2 dirs vs ks Hv2 Hk2 Hks].
  - cbn [join_keys]. pose proof (directed_len_key v dir k [] Hv Hk ltac:(by left)) as E.
    rewrite app_nil_r in E. rewrite E. cbn [mbind option_bind].
    rewrite take_ge, drop_ge by lia. done.
  - rewrite join_keys_cons, <- app_assoc by done.
    rewrite (directed_len_key v dir k) by (done || (right; eauto)). cbn [mbind option_bind].
    rewrite take_app_length, drop_app_length. cbn [strip_sep COMPOUND_SEP app Z.eqb andb mbind option_bind].
    rewrite IH. done.
Qed.

Lemma split_compound_directed key n :
  split_compound key n = split_directed key (replicate n 1).
Proof.
  unfold split_compound, split_directed. revert key. induction n as [|n IH]; intros key; [done|].
  cbn [replicate split_with]. change (directed_len key 1) with (value_len key).
  destruct (value_len key) as [m|]; [|done]. cbn [mbind option_bind].
  destruct n; [done|]. cbn [replicate]. destruct (strip_sep (drop m key)) as [rest|]; [|done].
  cbn [mbind option_bind]. cbn [replicate] in IH. by rewrite IH.
Qed.
End split.

(** ** Properties *)

(** C26. A compound key of any directions splits back into exactly the stored
    keys of its fields, and each of those gives back the ascending key of the
    value it was written for. *)
Theorem split_directed_roundtrip dec dirs vs ks :
  keys_of dec Mongod dirs vs ks →
  split_directed (join_keys ks) dirs = Some ks ∧
  Forall3 (λ dir v k, encode_value dec Mongod None v = Ok (ascending_part k dir)) dirs vs ks.
Proof.
  intros Hk. split; [by apply (split_join dec dirs vs)|].
  induction Hk; constructor; [by apply ascending_part_key|done].
Qed.

Lemma split_directed_roundtrip_witness :
  ∃ ks, keys_of id Mongod [1; -1] [Int64 (-99); String [97; 0]] ks ∧
    split_directed (join_keys ks) [1; -1] = Some ks ∧
    Forall3 (λ dir v k, encode_value id Mongod None v = Ok (ascending_part k dir)) [1; -1] [Int64 (-99); String [97; 0]] ks.
Proof.
  assert (keys_of id Mongod [1; -1] [Int64 (-99); String [97; 0]]
    [[3; 65; 127; 254; 0; 255]; [251; 158; 255; 0; 255; 255]]) as H.
  { repeat apply keys_cons; try apply keys_nil; try reflexivity; constructor; repeat constructor; done. }
  eexists. split; [exact H|]. apply (split_directed_roundtrip _ _ _ _ H).
Defined.

(** Every key delimits itself: with anything after a separator behind it,
    or nothing, [value_len] returns its length -- also for a negative number,
    whose digit pairs may hold the separator's bytes. *)
Theorem value_len_exact dec v k r :
  keyable dec v → encode_value dec Mongod None v = Ok k → (r = [] ∨ ∃ r', r = COMPOUND_SEP ++ r') →
  value_len (k ++ r) = Some (length k) ∧ directed_len (k ++ r) 1 = Some (length k) ∧
  split_compound k 1 = Some [k].
Proof.
  intros Hv He Hr. pose proof (value_len_key dec v k r Hv He Hr) as E. split_and!; [done..|].
  rewrite split_compound_directed. apply (split_join dec [1] [v] [k]). constructor; [done| |constructor].
  unfold encode_value_directed. by rewrite He.
Qed.

Lemma value_len_exact_witness :
  value_len ([3; 65; 127; 254; 0; 255] ++ [0; 0; 2]) = Some 6%nat ∧
  directed_len ([3; 65; 127; 254; 0; 255] ++ [0; 0; 2]) 1 = Some 6%nat ∧
  split_compound [3; 65; 127; 254; 0; 255] 1 = Some [[3; 65; 127; 254; 0; 255]].
Proof.
  apply (value_len_exact id (Int64 (-99)) [3; 65; 127; 254; 0; 255] [0; 0; 2]);
    [constructor; done|reflexivity|right; exists [2]; reflexivity].
Defined.
