(* ===== verification/Diff.v ===== *)
(** * Update descriptions: secantus-core/src/diff.rs

    What an update changed, as the [updateDescription] of a change event and the
    diff of an oplog entry: the fields set, the fields removed and the arrays cut
    short, by dotted path; and its inverse, which rolls a document forward.

    The recursion is on the new value; what it does at a sub-document's fields or
    an array's elements is kept with them ([walker]), so that they can be looked
    up as the source looks them up.  The [bson] crate is a parameter. *)
From stdpp Require Import strings.
From S2P Require Import Prelude RustM Lex Bson Docs BsonDoc Numeric Order Paths.
Local Open Scope Z_scope.
Local Open Scope secantus_scope.

Inductive Fallback := Defer.
Abbreviation R := (outcome Fallback).
Abbreviation ElementPaths := (gmap bytes (option (gset Z))).

(** [elementwise]: the array paths the update touched by element, with the
    indices past the old end it may report ([None]: any). *)
Record Acc := mkAcc {
  updated : Doc;
  removed : list Bson;
  truncated : list Bson;
  elementwise : option ElementPaths;
  disambiguated : Doc;
  push_targets : list bytes;
}.

Definition set_updated (d : Doc) (acc : Acc) : Acc :=
  mkAcc d (removed acc) (truncated acc) (elementwise acc) (disambiguated acc) (push_targets acc).
Definition set_removed (l : list Bson) (acc : Acc) : Acc :=
  mkAcc (updated acc) l (truncated acc) (elementwise acc) (disambiguated acc) (push_targets acc).
Definition set_truncated (l : list Bson) (acc : Acc) : Acc :=
  mkAcc (updated acc) (removed acc) l (elementwise acc) (disambiguated acc) (push_targets acc).
Definition set_disambiguated (d : Doc) (acc : Acc) : Acc :=
  mkAcc (updated acc) (removed acc) (truncated acc) (elementwise acc) d (push_targets acc).

(** A field name a reader could take for an index. *)
Definition ambiguous (s : Bson) : bool := match s with String k => is_digits k | _ => false end.

Definition record_ambiguous (path : bytes) (segments : list Bson) (acc : Acc) : Acc :=
  if existsb ambiguous segments
  then set_disambiguated (doc_insert (disambiguated acc) path (Array segments)) acc else acc.

(** ** Equality *)

Section equality.
Context `{BsonCrate}.

Definition is_exotic (b : Bson) : bool :=
  match b with
  | JavaScriptCode _ | JavaScriptCodeWithScope _ _ | Symbol _ | DbPointer _ _ | Undefined => true
  | _ => false
  end.

Definition is_js (v : Bson) : bool :=
  match v with JavaScriptCode _ | JavaScriptCodeWithScope _ _ => true | _ => false end.
Definition is_decimal (v : Bson) : bool := match v with Decimal128 _ => true | _ => false end.
Definition is_boolean (v : Bson) : bool := match v with Boolean _ => true | _ => false end.

(** The tests of [py_eq] before it looks inside the values. *)
Definition guarded_eq (a b : Bson) (inside : R bool) : R bool :=
  if is_js a || is_js b then Ok false
  else if is_decimal a || is_decimal b then
    if is_exotic a || is_exotic b then Err Defer
    else
      match classify dec_to_string a, classify dec_to_string b with
      | Some na, Some nb =>
          if is_nan_bson dec_to_string a || is_nan_bson dec_to_string b
          then Ok (is_nan_bson dec_to_string a && is_nan_bson dec_to_string b)
          else Ok ⌊Numeric.cmp na nb = Some Eq⌋
      | _, _ => Ok false
      end
  else if is_exotic a || is_exotic b then Err Defer
  else if negb (eqb (is_boolean a) (is_boolean b)) then Ok false
  else if is_nan_bson dec_to_string a || is_nan_bson dec_to_string b
  then Ok (is_nan_bson dec_to_string a && is_nan_bson dec_to_string b)
  else
    match fast_cmp_numberish a b with
    | Some r => Ok ⌊r = Some Eq⌋
    | None => if negb (eqb (is_numberish a) (is_numberish b)) then Ok false else inside
    end.

(** [expressions::py_eq] under the collation [active]. *)
Fixpoint py_eq (active : option (bytes → bytes → comparison)) (a b : Bson) {struct a} : R bool :=
  match a, b with
  | Symbol x, Symbol y => Ok ⌊x = y⌋
  | JavaScriptCode x, JavaScriptCode y => Ok ⌊x = y⌋
  | JavaScriptCodeWithScope x sx, JavaScriptCodeWithScope y sy => Ok (⌊x = y⌋ && doc_eq sx sy)
  | _, _ =>
    guarded_eq a b
      match a, b with
      | Null, Null | MinKey, MinKey | MaxKey, MaxKey => Ok true
      | String x, String y => Ok (⌊x = y⌋ || ⌊active_compare active x y = Eq⌋)
      | ObjectId x, ObjectId y => Ok ⌊x = y⌋
      | DateTime x, DateTime y => Ok (x =? y)
      | Timestamp x i, Timestamp y j => Ok ((x =? y) && (i =? j))
      | Binary s x, Binary t y => Ok ((s =? t) && ⌊x = y⌋)
      | RegularExpression p o, RegularExpression q o' => Ok (⌊p = q⌋ && ⌊o = o'⌋)
      | Array x, Array y =>
          if ⌊length x = length y⌋ then
            (fix go (x : list Bson) (y : list Bson) : R bool :=
               match x, y with
               | xe :: x, ye :: y => e ← py_eq active xe ye; if (e : bool) then go x y else Ok false
               | _, _ => Ok true
               end) x y
          else Ok false
      | Document x, Document y =>
          if ⌊length x = length y⌋ then
            (fix go (x : Doc) (y : Doc) : R bool :=
               match x, y with
               | (xk, xv) :: x, (yk, yv) :: y =>
                   if ⌊xk = yk⌋ then e ← py_eq active xv yv; if (e : bool) then go x y else Ok false
                   else Ok false
               | _, _ => Ok true
               end) x y
          else Ok false
      | _, _ => Ok false
      end
  end.

(** [==] of the [bson] crate on the variants [same_encoding] leaves to it. *)
Definition bson_eq (a b : Bson) : bool :=
  match a, b with
  | String x, String y | Symbol x, Symbol y | JavaScriptCode x, JavaScriptCode y => ⌊x = y⌋
  | Boolean x, Boolean y => eqb x y
  | Null, Null | Undefined, Undefined | MaxKey, MaxKey | MinKey, MinKey => true
  | RegularExpression p o, RegularExpression q o' => ⌊p = q⌋ && ⌊o = o'⌋
  | JavaScriptCodeWithScope c s, JavaScriptCodeWithScope c' s' => ⌊c = c'⌋ && doc_eq s s'
  | Int32 x, Int32 y | Int64 x, Int64 y | DateTime x, DateTime y => x =? y
  | Timestamp x i, Timestamp y j => (x =? y) && (i =? j)
  | Binary s x, Binary t y => (s =? t) && ⌊x = y⌋
  | ObjectId x, ObjectId y | Decimal128 x, Decimal128 y => ⌊x = y⌋
  | DbPointer x i, DbPointer y j => ⌊x = y⌋ && ⌊i = j⌋
  | _, _ => false
  end.

(** [a.iter().zip(b).all(..)] *)
Fixpoint same_encoding (a b : Bson) {struct a} : bool :=
  match a, b with
  | Double x, Double y => x =? y
  | Array x, Array y =>
      ⌊length x = length y⌋ &&
      (fix go (x y : list Bson) : bool :=
         match x, y with p :: x, q :: y => same_encoding p q && go x y | _, _ => true end) x y
  | Document x, Document y =>
      ⌊length x = length y⌋ &&
      (fix go (x y : Doc) : bool :=
         match x, y with
         | (k1, v1) :: x, (k2, v2) :: y => ⌊k1 = k2⌋ && same_encoding v1 v2 && go x y
         | _, _ => true
         end) x y
  | _, _ => bson_eq a b
  end.

Definition is_dbpointer (v : Bson) : bool := match v with DbPointer _ _ => true | _ => false end.

(** [eq] turns the collation off. *)
Definition eq (a b : Bson) : R bool := py_eq None a b.

Definition same_stored_value (a b : Bson) : R bool :=
  if same_encoding a b then Ok true
  else if is_dbpointer a || is_dbpointer b then Ok false
  else e ← eq a b; if (e : bool) then Ok (same_encoding a b) else Ok false.

Definition doc_changed (new old : Doc) : bool := negb (same_encoding (Document new) (Document old)).

(** ** The walk *)

Definition child_path (path key : bytes) : bytes := if ⌊path = []⌋ then key else path ++ DOT :: key.

(** [BTreeSet<&String>]: the keys in byte order, without repeats. *)
Definition bytes_le (a b : bytes) : Prop := bcmp a b ≠ Gt.
#[local] Instance bytes_le_dec : RelDecision bytes_le.
Proof. intros a b. unfold bytes_le. apply _. Defined.
Fixpoint dedup_keys (l : list bytes) : list bytes :=
  match l with
  | [] => []
  | x :: l => match dedup_keys l with
              | [] => [x]
              | y :: r => if ⌊x = y⌋ then y :: r else x :: y :: r
              end
  end.
Definition key_set (l : list bytes) : list bytes := dedup_keys (merge_sort bytes_le l).

(** A path is set to a value, a field is removed, an array is cut short. *)
Definition note_set (path : bytes) (segments : list Bson) (v : Bson) (acc : Acc) : Acc :=
  record_ambiguous path segments (set_updated (doc_insert (updated acc) path v) acc).
Definition note_removed (path : bytes) (segments : list Bson) (acc : Acc) : Acc :=
  record_ambiguous path segments (set_removed (removed acc ++ [String path]) acc).
Definition note_truncated (path : bytes) (segments : list Bson) (len : nat) (acc : Acc) : Acc :=
  record_ambiguous path segments
    (set_truncated (truncated acc ++ [Document [(lit "field", String path);
                                                (lit "newSize", Int32 (as_i32 (Z.of_nat len)))]]) acc).

(** What the walk does below a new value [post]: [walk pre post path segments acc]. *)
Record walker := mkWalker { new_value : Bson; walk_from : Bson → bytes → list Bson → Acc → R Acc }.

Definition walk_key (a : Doc) (b : list (bytes * walker)) (path : bytes) (segments : list Bson)
    (acc : Acc) (key : bytes) : R Acc :=
  let cp := child_path path key in
  let cs := segments ++ [String key] in
  match doc_get a key, doc_get b key with
  | Some _, None => Ok (note_removed cp cs acc)
  | None, Some bv => Ok (note_set cp cs (new_value bv) acc)
  | Some av, Some bv => walk_from bv av cp cs acc
  | None, None => Panic
  end.

Fixpoint fold_R {E A B} (f : B → A → outcome E B) (l : list A) (b : B) : outcome E B :=
  match l with [] => Ok b | x :: l => b ← f b x; fold_R f l b end.

Definition walk_docs_with (a : Doc) (b : list (bytes * walker)) (path : bytes) (segments : list Bson)
    (acc : Acc) : R Acc :=
  fold_R (walk_key a b path segments) (key_set (keys a ++ b.*1)) acc.

(** One element of the loops over an array; [allowed] is the indices past the
    old end that may be reported. *)
Definition walk_element (a : list Bson) (path : bytes) (segments : list Bson) (allowed : option (gset Z))
    (acc : Acc) (ib : nat * walker) : R Acc :=
  let '(i, bv) := ib in
  let cp := child_path path (dec_bytes (Z.of_nat i)) in
  let cs := segments ++ [Int32 (as_i32 (Z.of_nat i))] in
  match a !! i with
  | None =>
      if match allowed with Some named => ⌊Z.of_nat i ∈ named⌋ | None => true end
      then Ok (note_set cp cs (new_value bv) acc) else Ok acc
  | Some av => walk_from bv av cp cs acc
  end.

Definition walk_arrays_with (a : list Bson) (b : list walker) (post : Bson) (path : bytes)
    (segments : list Bson) (acc : Acc) : R Acc :=
  match elementwise acc with
  | None =>
      acc ← fold_R (walk_element a path segments None) (imap pair b) acc;
      if ⌊(length b < length a)%nat⌋ then Ok (note_truncated path segments (length b) acc) else Ok acc
  | Some ew =>
      match ew !! path with
      | None => Ok (note_set path segments post acc)
      | Some allowed =>
          if ⌊(length b < length a)%nat⌋ || (⌊a = []⌋ && ⌊path ∈ push_targets acc⌋)
          then Ok (note_set path segments post acc)
          else fold_R (walk_element a path segments allowed) (imap pair b) acc
      end
  end.

Definition walk_leaf (pre post : Bson) (path : bytes) (segments : list Bson) (acc : Acc) : R Acc :=
  same ← same_stored_value pre post;
  if (same : bool) then Ok acc else Ok (note_set path segments post acc).

Fixpoint walk_to (post : Bson) : Bson → bytes → list Bson → Acc → R Acc :=
  match post with
  | Document b =>
      let b := (fix go (b : Doc) : list (bytes * walker) :=
                  match b with [] => [] | (k, v) :: b => (k, mkWalker v (walk_to v)) :: go b end) b in
      λ pre path segments acc,
        match pre with
        | Document a => walk_docs_with a b path segments acc
        | _ => walk_leaf pre post path segments acc
        end
  | Array b =>
      let b := (fix go (b : list Bson) : list walker :=
                  match b with [] => [] | v :: b => mkWalker v (walk_to v) :: go b end) b in
      λ pre path segments acc,
        match pre with
        | Array a =>
            same ← same_stored_value pre post;
            if (same : bool) then Ok acc else walk_arrays_with a b post path segments acc
        | _ => walk_leaf pre post path segments acc
        end
  | _ => λ pre path segments acc, walk_leaf pre post path segments acc
  end.

Definition walk (pre post : Bson) (path : bytes) (segments : list Bson) (acc : Acc) : R Acc :=
  walk_to post pre path segments acc.

Definition walk_docs (a b : Doc) (path : bytes) (segments : list Bson) (acc : Acc) : R Acc :=
  walk_docs_with a ((λ e : bytes * Bson, (e.1, mkWalker e.2 (walk_to e.2))) <$> b) path segments acc.

(** ** What an operator update touched *)

Definition starts_with_dollar (s : bytes) : bool := ⌊head s = Some 36⌋.

Definition APPEND_OPS : list bytes := lit <$> ["$push"; "$addToSet"]%string.
Definition NON_APPEND_MODIFIERS : list bytes := lit <$> ["$slice"; "$sort"; "$position"]%string.
Definition PATH_WRITE_OPS : list bytes :=
  lit <$> ["$set"; "$unset"; "$inc"; "$mul"; "$min"; "$max"; "$currentDate"; "$bit"]%string.

(** [part.parse::<i64>()] of a part that is digits only. *)
Definition parse_index (part : bytes) : option Z :=
  if is_digits part && (digits_value part <? 2 ^ 63) then Some (digits_value part) else None.

Definition append_path (paths : ElementPaths) (e : bytes * Bson) : ElementPaths :=
  if match e.2 with Document d => existsb (contains_key d) NON_APPEND_MODIFIERS | _ => false end
  then paths else <[e.1 := None]> paths.

(** The parts of one written path; [before] is the parts already passed. *)
Fixpoint write_parts (before parts : list bytes) (paths : ElementPaths) : ElementPaths :=
  match parts with
  | [] => paths
  | part :: parts =>
      let prefix := join_dot before in
      let paths :=
        if ⌊before ≠ []⌋ && starts_with_dollar part then <[prefix := None]> paths
        else if ⌊before = []⌋ || negb (forallb is_digit part) then paths
        else match paths !! prefix with
             | Some None => paths
             | o => let set := match o with Some (Some set) => set | _ => ∅ end in
                    <[prefix := Some (match parse_index part with Some n => {[n]} ∪ set | None => set end)]> paths
             end in
      write_parts (before ++ [part]) parts paths
  end.

Definition op_paths (paths : ElementPaths) (op : bytes * Bson) : ElementPaths :=
  match op.2 with
  | Document spec =>
      if ⌊op.1 ∈ APPEND_OPS⌋ then foldl append_path paths spec
      else if ⌊op.1 ∈ PATH_WRITE_OPS⌋
      then foldl (λ paths field, write_parts [] (split_dot field) paths) paths (keys spec)
      else paths
  | _ => paths
  end.

Definition elementwise_array_paths (update : Doc) : ElementPaths := foldl op_paths ∅ update.

Definition push_targets_of (update : Doc) : list bytes :=
  match doc_get update (lit "$push") with Some (Document d) => keys d | _ => [] end.

(** ** Whole values *)

Definition one_field (v : Bson) : Doc := [([], v)].

Definition binary_equal (a b : Bson) : bool :=
  match write (one_field a), write (one_field b) with
  | Ok ba, Ok bb => ⌊ba = bb⌋
  | _, _ => false
  end.

Definition written (w : W) : bytes := match w with Ok b => b | Err (p, _) => p | _ => [] end.

Definition bson_size (v : Bson) : Z := Z.max 0 (blen (written (write (one_field v))) - 7).

(** The path before the first all-positional part. *)
Definition starts_with (pre s : bytes) : bool := ⌊take (length pre) s = pre⌋.

Definition all_positional_prefix (path : bytes) : option bytes :=
  let parts := split_dot path in
  '(at_, _) ← list_find (λ p, starts_with (lit "$[") p = true) parts;
  if ⌊at_ = 0%nat⌋ || existsb starts_with_dollar (take at_ parts) then None
  else Some (join_dot (take at_ parts)).

Definition changed_elements (pre post : Doc) (path : bytes) : nat :=
  match get_path pre path, get_path post path with
  | Some (Array a), Some (Array b) =>
      length (filter (λ i, match a !! i, b !! i with Some x, Some y => binary_equal x y | _, _ => false end = false)
                     (seq 0 (Nat.max (length a) (length b))))
  | _, _ => 0%nat
  end.

(** The segments of a path, an Int32 where the parent is an array. *)
Fixpoint typed_loop (node : option Bson) (parts : list bytes) : list Bson :=
  match parts with
  | [] => []
  | part :: parts =>
      match node with
      | Some (Array items) =>
          if is_digits part then
            let idx := default USIZE_MAX (parse_usize part) in
            Int32 (as_i32 idx) :: typed_loop (item items idx) parts
          else String part :: typed_loop None parts
      | Some (Document d) => String part :: typed_loop (doc_get d part) parts
      | _ => String part :: typed_loop None parts
      end
  end.

Definition typed_segments (doc : Doc) (path : bytes) : list Bson :=
  typed_loop (Some (Document doc)) (split_dot path).

(** At the path or below it. *)
Definition below (path p : bytes) : bool := ⌊p = path⌋ || starts_with (path ++ [DOT]) p.

Definition whole_targets_of (pre post : Doc) (op : bytes * Bson) : list (bytes * bool) :=
  match op.2 with
  | Document fields =>
      omap (λ path, prefix ← all_positional_prefix path;
                    if ⌊(1 < changed_elements pre post prefix)%nat⌋ then Some (prefix, false) else None) (keys fields)
      ++ (if ⌊op.1 = lit "$set"⌋ then
            (λ path, (path, false)) <$>
              filter (λ path, existsb starts_with_dollar (split_dot path) = false) (keys fields)
          else if ⌊op.1 = lit "$rename"⌋ then
            omap (λ e : bytes * Bson, match e.2 with String to => Some (to, true) | _ => None end) fields
          else [])
  | _ => []
  end.

Definition whole_targets (update pre post : Doc) : list (bytes * bool) :=
  concat (whole_targets_of pre post <$> update).

Definition is_below (path : bytes) (r : Bson) : bool := match r with String p => below path p | _ => false end.
Definition field_below (path : bytes) (t : Bson) : bool :=
  match t with Document d => match get_str d (lit "field") with Some f => below path f | None => false end | _ => false end.

(** The [retain]s on what was removed and cut short. *)
Definition drop_below (path : bytes) (acc : Acc) : Acc :=
  set_removed (filter (λ r, is_below path r = false) (removed acc))
    (set_truncated (filter (λ t, field_below path t = false) (truncated acc)) acc).

(** One entry for the path, in place of those at and below it. *)
Definition whole_entry (post : Doc) (path : bytes) (value : Bson) (acc : Acc) : Acc :=
  let keep := filter (λ e : bytes * Bson, below path e.1 = false) (updated acc) in
  record_ambiguous path (typed_segments post path)
    (set_updated (doc_insert keep path value)
       (set_disambiguated (filter (λ e : bytes * Bson, below path e.1 = false) (disambiguated acc)) (drop_below path acc))).

Definition report_whole (post : Doc) (acc : Acc) (target : bytes * bool) : Acc :=
  let '(path, always) := target in
  match get_path post path with
  | None => acc
  | Some value =>
      let touched := existsb (below path) (keys (updated acc))
                     || existsb (is_below path) (removed acc) || existsb (field_below path) (truncated acc) in
      if touched || always then whole_entry post path value acc else drop_below path acc
  end.

Definition report_whole_values (update pre post : Doc) (acc : Acc) : Acc :=
  foldl (report_whole post) acc (whole_targets update pre post).

(** ** The description, and its application *)

Definition description (acc : Acc) : Doc :=
  [(lit "updatedFields", Document (updated acc)); (lit "removedFields", Array (removed acc));
   (lit "truncatedArrays", Array (truncated acc))]
  ++ match disambiguated acc with [] => [] | d => [(lit "disambiguatedPaths", Document d)] end.

Definition acc_new (update : option Doc) : Acc :=
  mkAcc [] [] [] (elementwise_array_paths <$> update) [] (match update with Some u => push_targets_of u | None => [] end).

Definition compute_update_description_for (pre post : Doc) (update : option Doc) : R Doc :=
  acc ← walk_docs pre post [] [] (acc_new update);
  Ok (description (match update with Some u => report_whole_values u pre post acc | None => acc end)).

Definition compute_update_description (pre post : Doc) : R Doc := compute_update_description_for pre post None.

Definition deferred {A} (o : outcome () A) : R A :=
  match o with Ok a => Ok a | Err _ => Err Defer | Panic => Panic | NoFuel => NoFuel end.

Definition apply_set (doc : Doc) (e : bytes * Bson) : R Doc := deferred (set_path doc e.1 e.2).

Definition apply_removed (doc : Doc) (p : Bson) : Doc :=
  match p with String path => unset_path doc path | _ => doc end.

(** [n as usize] of an i32 or i64. *)
Definition new_size (e : Doc) : option Z :=
  match get_i32 e (lit "newSize") with
  | Some n => Some (wrap 64 n)
  | None => wrap 64 <$> get_i64 e (lit "newSize")
  end.

Definition apply_truncated (doc : Doc) (entry : Bson) : R Doc :=
  match entry with
  | Document e =>
      match get_str e (lit "field"), new_size e with
      | Some field, Some size =>
          match get_path doc field with
          | Some (Array arr) =>
              if size <? Z.of_nat (length arr)
              then deferred (set_path doc field (Array (take (Z.to_nat size) arr))) else Ok doc
          | _ => Ok doc
          end
      | _, _ => Ok doc
      end
  | _ => Ok doc
  end.

Definition apply_update_description (doc diff : Doc) : R Doc :=
  doc ← match get_document diff (lit "updatedFields") with
        | Some updated => fold_R apply_set updated doc | None => Ok doc end;
  let doc := match get_array diff (lit "removedFields") with
             | Some removed => foldl apply_removed doc removed | None => doc end in
  match get_array diff (lit "truncatedArrays") with
  | Some truncated => fold_R apply_truncated truncated doc
  | None => Ok doc
  end.
End equality.
