(* ===== verification/PathsFacts.v ===== *)
(** * Dotted paths: splitting and indices

    A path made of parts without dots splits back into them, "at or below a
    path" is a prefix of parts, and the decimal text of an index is the one
    canonical part that names it. *)
From S2P Require Import Prelude RustM Lex Bson Docs Numeric Order BsonDoc Paths Diff.
Local Open Scope Z_scope.
Local Open Scope secantus_scope.

(** ** Splitting *)

(** A field name without a dot, and not empty. *)
Definition plain (k : bytes) : Prop := k ≠ [] ∧ DOT ∉ k.

Lemma split_dot_cons path : ∃ p ps, split_dot path = p :: ps.
Proof.
  destruct path as [|c path]; cbn; [eauto|]. destruct (c =? DOT); [eauto|].
  destruct (split_dot path); eauto.
Qed.

Lemma split_dot_app p rest :
  DOT ∉ p → split_dot (p ++ DOT :: rest) = p :: split_dot rest.
Proof.
  induction p as [|c p IH]; [done|]. intros Hp. cbn [app split_dot].
  rewrite IH by (intros ?; apply Hp; by right).
  destruct (Z.eqb_spec c DOT) as [->|]; [|done]. destruct Hp. by left.
Qed.

Lemma split_dot_single p : DOT ∉ p → split_dot p = [p].
Proof.
  induction p as [|c p IH]; [done|]. intros Hp. cbn [split_dot].
  rewrite IH by (intros ?; apply Hp; by right).
  destruct (Z.eqb_spec c DOT) as [->|]; [|done]. destruct Hp. by left.
Qed.

Lemma join_dot_cons p q ps : join_dot (p :: q :: ps) = p ++ DOT :: join_dot (q :: ps).
Proof. done. Qed.

Lemma split_dot_join parts : parts ≠ [] → Forall (λ p, DOT ∉ p) parts → split_dot (join_dot parts) = parts.
Proof.
  intros Hne Hp. induction Hp as [|p [|q ps] Hp1 Hp2 IH]; [done|by apply split_dot_single|].
  rewrite join_dot_cons, split_dot_app by done. by rewrite IH.
Qed.

Lemma join_split path : join_dot (split_dot path) = path.
Proof.
  induction path as [|c path IH]; [done|]. cbn [split_dot].
  destruct (split_dot_cons path) as (p & ps & E). rewrite E in *.
  destruct (Z.eqb_spec c DOT) as [->|]; [by rewrite join_dot_cons, IH|].
  destruct ps; cbn in *; congruence.
Qed.

Lemma split_dot_inj a b : split_dot a = split_dot b → a = b.
Proof. intros E. by rewrite <- (join_split a), <- (join_split b), E. Qed.

Lemma split_dot_parts path : Forall (λ p, DOT ∉ p) (split_dot path).
Proof.
  induction path as [|c path IH]; cbn [split_dot]; [constructor; [apply not_elem_of_nil|done]|].
  destruct (Z.eqb_spec c DOT) as [->|Hc]; [constructor; [apply not_elem_of_nil|done]|].
  destruct (split_dot path) as [|p ps]; inversion IH; subst; repeat constructor; try done.
  - rewrite list_elem_of_singleton. congruence.
  - rewrite elem_of_cons. intros [?|?]; congruence.
Qed.

Lemma join_dot_nil parts : Forall plain parts → join_dot parts = [] → parts = [].
Proof.
  intros Hp. destruct Hp as [|p [|q ps] [Hp _] _]; cbn; [done|done|]. by destruct p.
Qed.

Lemma child_path_join parts key :
  Forall plain parts → child_path (join_dot parts) key = join_dot (parts ++ [key]).
Proof.
  intros Hp. unfold child_path. case_bool_decide as E.
  - by rewrite (join_dot_nil _ Hp E).
  - assert (Hne : parts ≠ []) by (by intros ->). clear E Hp.
    induction parts as [|p [|q ps] IH]; [done|done|].
    rewrite join_dot_cons, <- app_assoc. cbn [app]. by rewrite IH.
Qed.

(** ** At or below a path *)

Lemma starts_with_split p path rest :
  split_dot (p ++ DOT :: rest) = split_dot p ++ split_dot rest ∧ (path = p ++ DOT :: rest → starts_with (p ++ [DOT]) path = true).
Proof.
  split.
  - induction p as [|c p IH]; [done|]. cbn [app split_dot]. rewrite IH.
    destruct (c =? DOT); [done|]. by destruct (split_dot_cons p) as (? & ? & ->).
  - intros ->. unfold starts_with. apply bool_decide_true.
    change (p ++ DOT :: rest) with (p ++ [DOT] ++ rest). rewrite app_assoc, take_app_length. done.
Qed.

Lemma below_prefix path p : below path p = true ↔ split_dot path `prefix_of` split_dot p.
Proof.
  unfold below. rewrite orb_true_iff, bool_decide_eq_true. split.
  - intros [->|H]; [done|]. unfold starts_with in H. apply bool_decide_eq_true in H.
    rewrite <- (take_drop (length (path ++ [DOT])) p), H, <- app_assoc. cbn [app].
    rewrite (proj1 (starts_with_split path [] _)). by exists (split_dot (drop (length (path ++ [DOT])) p)).
  - intros [rest E]. destruct rest as [|q qs].
    + left. rewrite app_nil_r in E. by apply split_dot_inj.
    + right. apply (proj2 (starts_with_split path p (join_dot (q :: qs)))).
      apply split_dot_inj. rewrite (proj1 (starts_with_split path [] _)), E. f_equal. symmetry. apply split_dot_join; [done|].
      assert (Hall := split_dot_parts p). rewrite E in Hall. by apply Forall_app in Hall as [_ ?].
Qed.

(** ** Indices *)

Lemma digits_rev_value fuel z :
  0 ≤ z → (Z.to_nat (Z.log2 z) < fuel)%nat →
  Forall (λ d, 0 ≤ d < 10) (digits_rev fuel z) ∧ digits_rev fuel z ≠ [] ∧
  foldr (λ d n, n * 10 + d) 0 (digits_rev fuel z) = z.
Proof.
  revert z. induction fuel as [|fuel IH]; intros z Hz Hf; [lia|]. cbn.
  destruct (Z.ltb_spec z 10) as [Hlt|Hge].
  - split_and!; [by repeat constructor|done|]. cbn. lia.
  - destruct (IH (z / 10)) as (Ha & Hb & Hc).
    + apply Z.div_pos; lia.
    + assert (Hl : Z.log2 (z / 10) < Z.log2 z).
      { apply Z.lt_le_trans with (1 + Z.log2 (z / 10)); [lia|]. rewrite Z.add_1_l.
        rewrite <- Z.log2_double by (apply Z.div_str_pos; lia). apply Z.log2_le_mono.
        pose proof (Z.mul_div_le z 10). lia. }
      pose proof (Z.log2_nonneg (z / 10)). lia.
    + split_and!; [constructor; [apply Z.mod_pos_bound; lia|done]|done|]. cbn. rewrite Hc.
      pose proof (Z.div_mod z 10). lia.
Qed.

Lemma foldr_reverse_foldl (l : list Z) n :
  foldl (λ n b, n * 10 + (b - 48)) n (map (λ d, d + 48) l) = foldl (λ n d, n * 10 + d) n l.
Proof. revert n. induction l as [|d l IH]; intros n; cbn; [done|]. rewrite IH. f_equal. lia. Qed.

Lemma foldl_reverse {A} (f : A → Z → A) (l : list Z) n :
  foldl f n (reverse l) = foldr (λ d n, f n d) n l.
Proof. revert n. induction l as [|d l IH]; intros n; [done|]. rewrite reverse_cons, foldl_app. cbn. by rewrite IH. Qed.

Lemma digits_value_dec z : 0 ≤ z → digits_value (dec_bytes z) = z ∧ is_digits (dec_bytes z) = true.
Proof.
  intros Hz. destruct (digits_rev_value (S (Z.to_nat (Z.log2 z))) z Hz) as (Hd & Hne & Hv); [lia|].
  unfold digits_value, dec_bytes, dec_digits. split.
  - rewrite foldr_reverse_foldl, foldl_reverse. exact Hv.
  - unfold is_digits. apply andb_true_iff. split.
    + apply bool_decide_true. intros E%map_eq_nil. apply Hne. by apply (f_equal reverse) in E; rewrite reverse_involutive in E.
    + apply forallb_forall. intros b Hb. apply list_elem_of_In, list_elem_of_fmap in Hb as (d & -> & Hin).
      rewrite elem_of_reverse in Hin. rewrite Forall_forall in Hd. specialize (Hd d Hin).
      unfold is_digit, in_range. lia.
Qed.

Lemma parse_digits s :
  is_digits s = true → parse_usize s = if digits_value s <=? USIZE_MAX then Some (digits_value s) else None.
Proof.
  intros Hd. unfold parse_usize.
  assert (E : match s with 43 :: t => t | _ => s end = s).
  { unfold is_digits in Hd. destruct s as [|b t]; [done|]. cbn in Hd.
    destruct b as [|p|p]; try done. do 6 (destruct p; try done). }
  rewrite E, Hd. done.
Qed.

(** An array shorter than 2^64 elements: its indices parse back. *)
Lemma parse_dec z : 0 ≤ z ≤ USIZE_MAX → parse_usize (dec_bytes z) = Some z.
Proof.
  intros Hz. destruct (digits_value_dec z) as [Hv Hd]; [lia|]. rewrite parse_digits by done.
  by rewrite Hv, (proj2 (Z.leb_le _ _)) by lia.
Qed.

Lemma parse_dec_value z idx : 0 ≤ z → parse_usize (dec_bytes z) = Some idx → idx = z.
Proof.
  intros Hz. destruct (digits_value_dec z Hz) as [Hv Hd]. rewrite parse_digits, Hv by done.
  destruct (_ <=? _); congruence.
Qed.

Lemma dec_bytes_inj i j : 0 ≤ i → 0 ≤ j → dec_bytes i = dec_bytes j → i = j.
Proof.
  intros Hi Hj E. destruct (digits_value_dec i Hi) as [<- _]. rewrite E. by apply digits_value_dec.
Qed.

Lemma dec_bytes_plain z : 0 ≤ z → plain (dec_bytes z).
Proof.
  intros Hz. destruct (digits_value_dec z Hz) as [_ Hd]. unfold is_digits in Hd.
  apply andb_true_iff in Hd as [Hne%bool_decide_eq_true Hall]. split; [done|].
  rewrite forallb_forall in Hall. intros Hin%list_elem_of_In%Hall. done.
Qed.
