(* ===== verification/DiffEdits.v ===== *)
(** * Update descriptions: edits, unchanged values, and whole values

    A description is a list of edits of a value: set, remove or cut short what a
    path names.  [describes E v w] says that the edits [E] turn [v] into [w]:
    below each field and index there are exactly the edits that turn the old value
    there into the new one.  It is what the walk of [Diff] establishes and what
    applying the edits one after another needs.

    A value with the same encoding needs no edit.  Reporting the whole new value
    at a path, in place of the edits at and below it, keeps a description right. *)
From S2P Require Import Prelude RustM Lex Bson Docs Numeric Order BsonDoc Paths Diff PathsFacts.
Local Open Scope Z_scope.
Local Open Scope secantus_scope.

Inductive op := Set_ (v : Bson) | Unset | Cut (n : nat).
Abbreviation edit := (list bytes * op)%type.

Definition cut (n : nat) (v : Bson) : Bson := match v with Array a => Array (take n a) | _ => v end.

(** An edit at or below a value, as [apply_update_description] makes it. *)
Definition act (cur : Bson) (e : edit) : outcome () Bson :=
  match e.2 with
  | Set_ v => set_in_bson cur e.1 v
  | Unset => Ok (unset_in_bson cur e.1)
  | Cut n =>
      match get_in_bson cur e.1 with
      | Some (Array arr) =>
          if (Z.of_nat n <? Z.of_nat (length arr)) then set_in_bson cur e.1 (Array (take n arr)) else Ok cur
      | _ => Ok cur
      end
  end.

(** The same for what may not be there. *)
Definition act_opt (ov : option Bson) (e : edit) : outcome () (option Bson) :=
  match e with
  | ([], Set_ v) => Ok (Some v)
  | ([], Unset) => Ok None
  | ([], Cut n) => Ok (cut n <$> ov)
  | _ => match ov with Some cur => cur ← act cur e; Ok (Some cur) | None => Err () end
  end.

(** The edits below a field or an index. *)
Definition tail_of (k : bytes) (e : edit) : option edit :=
  match e.1 with h :: r => if ⌊h = k⌋ then Some (r, e.2) else None | [] => None end.
Definition tails (k : bytes) (E : list edit) : list edit := omap (tail_of k) E.

(** ** One edit of a document or an array *)

Lemma act_opt_cons v h r o w :
  act_opt (Some v) (h :: r, o) = Ok (Some w) ↔ act v (h :: r, o) = Ok w.
Proof. cbn. destruct (act v (h :: r, o)); cbn; split; congruence. Qed.

Lemma act_opt_below ov r o ov' : r ≠ [] → act_opt ov (r, o) = Ok ov' →
  ∃ v w, ov = Some v ∧ ov' = Some w ∧ act v (r, o) = Ok w.
Proof.
  destruct r as [|h r]; [done|]. intros _. destruct ov as [v|]; [|done]. cbn.
  destruct (act v (h :: r, o)) as [w| | |] eqn:E; cbn; [intros [= <-]; eauto|done..].
Qed.

Lemma cut_short n a : (length a ≤ n)%nat → cut n (Array a) = Array a.
Proof. intros H. cbn. by rewrite take_ge. Qed.

Lemma contains_get d k v : doc_get d k = Some v → contains_key d k = true.
Proof. unfold contains_key. by intros ->. Qed.

Lemma act_doc d h r o ov' :
  NoDup (keys d) → act_opt (doc_get d h) (r, o) = Ok ov' →
  ∃ d', act (Document d) (h :: r, o) = Ok (Document d') ∧ NoDup (keys d') ∧
    ∀ k, doc_get d' k = if ⌊h = k⌋ then ov' else doc_get d k.
Proof.
  intros Hn Hstep. destruct (decide (r = [])) as [->|Hr].
  - destruct o as [v| |n]; cbn in Hstep; injection Hstep as <-.
    + exists (doc_insert d h v). split_and!; [done|auto with secantus|]. intros k. apply doc_get_insert.
    + exists (doc_remove d h). split_and!; [done|auto with secantus|]. intros k. by apply doc_get_remove.
    + destruct (doc_get d h) as [v|] eqn:Eh.
      * assert (Hsame : cut n v = v ∨ ∃ a, v = Array a ∧ (n < length a)%nat).
        { destruct v as [| |a| | | | | | | | | | | | | | | | | | ]; auto. destruct (decide (n < length a)%nat); [eauto|].
          left. apply cut_short. lia. }
        destruct Hsame as [Hsame|(a & -> & Hlt)].
        -- exists d. split_and!; [|done|].
           ++ cbn. rewrite Eh. cbn. destruct v as [| |a| | | | | | | | | | | | | | | | | | ]; try done. cbn in Hsame. injection Hsame as Hs.
              destruct (Z.ltb_spec (Z.of_nat n) (Z.of_nat (length a))) as [Hl|]; [|done]. exfalso.
              apply (f_equal length) in Hs. rewrite length_take in Hs. lia.
           ++ intros k. case_bool_decide; [subst|done]. cbn [fmap option_fmap option_map]. by rewrite Hsame.
        -- exists (doc_insert d h (Array (take n a))). split_and!; [|auto with secantus|].
           ++ cbn. rewrite Eh. cbn. by rewrite (proj2 (Z.ltb_lt _ _)) by lia.
           ++ intros k. apply doc_get_insert.
      * exists d. split_and!; [cbn; by rewrite Eh|done|]. intros k. case_bool_decide; [by subst|done].
  - apply act_opt_below in Hstep as (v & w & Eh & -> & Hact); [|done].
    assert (Hlast : ⌊r = []⌋ = false) by (by apply bool_decide_false).
    exists (doc_insert d h w). split_and!; [|auto with secantus|intros k; apply doc_get_insert].
    destruct o as [x| |n]; cbn in Hact |- *; unfold set_field, unset_field; rewrite ?Hlast, ?Eh.
    + rewrite (contains_get _ _ _ Eh), Eh. cbn. by rewrite Hact.
    + by injection Hact as <-.
    + cbn. destruct (get_in_bson v r) as [[]|]; try (injection Hact as <-; by rewrite insert_same).
      destruct (_ <? _); [|injection Hact as <-; by rewrite insert_same].
      rewrite (contains_get _ _ _ Eh), Eh. cbn. by rewrite Hact.
Qed.

(** What an element is meant to be, and what is in the array: a slot that only
    pads the array is null. *)
Definition slot (g x : option Bson) : Prop :=
  match g with Some v => x = Some v | None => x = None ∨ x = Some Null end.

(** How one edit of an element changes an array. *)
Record element_step (i : nat) (a a' : list Bson) : Prop := {
  es_other : ∀ j, j ≠ i → a' !! j = a !! j ∨ a !! j = None ∧ a' !! j = Some Null;
  es_grows : (length a ≤ length a')%nat;
  es_bound : (length a' ≤ Nat.max (length a) (S i))%nat;
}.

Lemma element_step_refl i a : element_step i a a.
Proof. split; [auto|lia..]. Qed.

Lemma element_step_insert i a v : element_step i a (<[i := v]> a).
Proof. split; [|rewrite length_insert; lia..]. intros j Hj. left. by apply list_lookup_insert_ne. Qed.

Lemma grow_set_step i a v :
  element_step i a (grow_set a (Z.of_nat i) v) ∧ grow_set a (Z.of_nat i) v !! i = Some v.
Proof.
  unfold grow_set. rewrite Nat2Z.id. set (pad := replicate (S i - length a) Null).
  assert (Hlen : length (a ++ pad) = Nat.max (length a) (S i)).
  { unfold pad. rewrite length_app, length_replicate. lia. }
  split; [split|].
  - intros j Hj. rewrite list_lookup_insert_ne by done. destruct (decide (j < length a)%nat) as [Hl|Hl].
    + left. by apply lookup_app_l.
    + rewrite (lookup_ge_None_2 a) by lia. rewrite lookup_app_r by lia.
      destruct (pad !! (j - length a)%nat) as [x|] eqn:E; [right|by left].
      apply lookup_replicate in E as [-> _]. done.
  - rewrite length_insert, Hlen. lia.
  - rewrite length_insert, Hlen. lia.
  - apply list_lookup_insert_eq. rewrite Hlen. lia.
Qed.

Section index.
Context (i : nat) (Hi : Z.of_nat i ≤ MAX_LIST_GROW_INDEX).

Lemma index_digits : is_digits (dec_bytes (Z.of_nat i)) = true ∧ parse_usize (dec_bytes (Z.of_nat i)) = Some (Z.of_nat i).
Proof. split; [apply digits_value_dec; lia|apply parse_dec; unfold USIZE_MAX, MAX_LIST_GROW_INDEX in *; lia]. Qed.

Lemma item_nat a : item a (Z.of_nat i) = a !! i.
Proof.
  unfold item. rewrite Nat2Z.id. destruct (Z.ltb_spec (Z.of_nat i) (Z.of_nat (length a))); [done|].
  symmetry. apply lookup_ge_None_2. lia.
Qed.

Lemma set_index a r v :
  set_in_bson (Array a) (dec_bytes (Z.of_nat i) :: r) v =
    if ⌊r = []⌋ then Ok (Array (grow_set a (Z.of_nat i) v))
    else match a !! i with
         | Some cur => cur ← set_in_bson cur r v; Ok (Array (<[i := cur]> a))
         | None => Ok (Array a)
         end.
Proof.
  destruct index_digits as [Hd Hp]. cbn [set_in_bson]. unfold set_item. rewrite Hd, Hp. cbn [ok_or mbind outcome_bind]. rewrite item_nat.
  case_bool_decide.
  - by rewrite (proj2 (Z.ltb_ge _ _)) by lia.
  - destruct (a !! i) as [cur|]; [|done]. cbn. rewrite Nat2Z.id. by destruct (set_in_bson cur r v).
Qed.

Lemma get_index a r :
  get_in_bson (Array a) (dec_bytes (Z.of_nat i) :: r) = child ← a !! i; get_in_bson child r.
Proof. destruct index_digits as [Hd Hp]. cbn [get_in_bson]. rewrite Hd, Hp. cbn [mbind option_bind]. by rewrite item_nat. Qed.

Lemma unset_index a r :
  unset_in_bson (Array a) (dec_bytes (Z.of_nat i) :: r) =
    Array match a !! i with
          | Some child => <[i := if ⌊r = []⌋ then Null else unset_in_bson child r]> a
          | None => a
          end.
Proof.
  destruct index_digits as [Hd Hp]. cbn [unset_in_bson]. unfold unset_item. by rewrite Hd, Hp, item_nat, Nat2Z.id.
Qed.

Lemma act_arr a r o g g' :
  slot g (a !! i) → act_opt g (r, o) = Ok g' →
  ∃ a', act (Array a) (dec_bytes (Z.of_nat i) :: r, o) = Ok (Array a') ∧ slot g' (a' !! i) ∧
    element_step i a a' ∧ (r = [] → (∃ v, o = Set_ v) → (i < length a')%nat).
Proof.
  intros Hs Hstep. destruct (decide (r = [])) as [->|Hr].
  - destruct o as [v| |n]; cbn in Hstep; injection Hstep as <-.
    + destruct (grow_set_step i a v) as [Hst Hv]. exists (grow_set a (Z.of_nat i) v).
      split_and!; [|done|done|intros _ _; by eapply lookup_lt_Some]. unfold act. cbn [fst snd]. by rewrite set_index.
    + eexists. unfold act. cbn [fst snd]. rewrite unset_index. split; [done|]. split_and!; [| |by intros _ []].
      * destruct (a !! i) as [x|] eqn:E; [|by left]. right. apply list_lookup_insert_eq. by eapply lookup_lt_Some.
      * destruct (a !! i); [apply element_step_insert|apply element_step_refl].
    + unfold act. cbn [fst snd]. rewrite get_index. destruct g as [v|].
      * cbn in Hs. rewrite Hs. cbn [mbind option_bind get_in_bson fmap option_fmap option_map].
        destruct v as [| |l| | | | | | | | | | | | | | | | | | ];
          try (eexists; split_and!; [done|exact Hs|apply element_step_refl|by intros _ []]).
        destruct (Z.ltb_spec (Z.of_nat n) (Z.of_nat (length l))).
        -- rewrite set_index. destruct (grow_set_step i a (Array (take n l))) as [Hst Hv]. eexists.
           split_and!; [done|exact Hv|done|by intros _ []].
        -- eexists. split_and!; [done| |apply element_step_refl|by intros _ []]. rewrite cut_short by lia. exact Hs.
      * exists a. split_and!; [|exact Hs|apply element_step_refl|by intros _ []].
        destruct Hs as [-> | ->]; done.
  - apply act_opt_below in Hstep as (v & w & -> & -> & Hact); [|done]. cbn in Hs.
    assert (Hlast : ⌊r = []⌋ = false) by (by apply bool_decide_false).
    assert (Hw : slot (Some w) (<[i := w]> a !! i)).
    { apply list_lookup_insert_eq. by eapply lookup_lt_Some. }
    exists (<[i := w]> a). split_and!; [|done|apply element_step_insert|done].
    unfold act in *. destruct o as [x| |n]; cbn [fst snd] in *.
    + rewrite set_index, Hlast, Hs, Hact. done.
    + rewrite unset_index, Hs, Hlast. congruence.
    + rewrite get_index, Hs. cbn [mbind option_bind].
      destruct (get_in_bson v r) as [[]|]; try (injection Hact as <-; by rewrite list_insert_id).
      destruct (_ <? _); [|injection Hact as <-; by rewrite list_insert_id].
      rewrite set_index, Hlast, Hs, Hact. done.
Qed.
End index.

(** ** Several edits *)

Lemma tails_cons k h r o E :
  tails k ((h :: r, o) :: E) = if ⌊h = k⌋ then (r, o) :: tails k E else tails k E.
Proof. unfold tails. cbn. by destruct (bool_decide (h = k)). Qed.

Lemma tails_top k o E : tails k (([], o) :: E) = tails k E.
Proof. done. Qed.

Lemma tails_app k E F : tails k (E ++ F) = tails k E ++ tails k F.
Proof. unfold tails. by rewrite omap_app. Qed.

Lemma fold_R_app {X A B} (f : B → A → outcome X B) l l' b : fold_R f (l ++ l') b = b ← fold_R f l b; fold_R f l' b.
Proof. revert b. induction l as [|x l IH]; intros b; [done|]. cbn. destruct (f b x); cbn; auto. Qed.

Lemma acts_doc E d f :
  Forall (λ e : edit, e.1 ≠ []) E → NoDup (keys d) →
  (∀ k, fold_R act_opt (tails k E) (doc_get d k) = Ok (f k)) →
  ∃ d', fold_R act_opt E (Some (Document d)) = Ok (Some (Document d')) ∧ NoDup (keys d') ∧ ∀ k, doc_get d' k = f k.
Proof.
  revert d. induction E as [|[[|h r] o] E IH]; intros d HE Hn Hf.
  - exists d. split_and!; [done|done|]. intros k. specialize (Hf k). cbn in Hf. congruence.
  - by inversion HE.
  - apply Forall_cons in HE as [_ HE]. pose proof (Hf h) as Hh. rewrite tails_cons, bool_decide_true in Hh by done.
    cbn [fold_R] in Hh. apply bind_Ok in Hh as (ov & Hstep & Hh).
    destruct (act_doc d h r o ov Hn Hstep) as (d1 & Hact & Hn1 & Hg).
    destruct (IH d1 HE Hn1) as (d' & Hd' & Hn' & Hf').
    { intros k. specialize (Hf k). rewrite tails_cons in Hf. rewrite Hg. case_bool_decide; [by subst|done]. }
    exists d'. split_and!; [|done|done]. cbn [fold_R]. rewrite (proj2 (act_opt_cons _ _ _ _ _) Hact). exact Hd'.
Qed.

(** The edits of an array that is to have [n] elements. *)
Definition arr_edit (n : nat) (e : edit) : Prop :=
  e = ([], Cut n) ∨ ∃ i r, (i < n)%nat ∧ e.1 = dec_bytes (Z.of_nat i) :: r.

Definition short (n : nat) : Prop := Z.of_nat n ≤ MAX_LIST_GROW_INDEX + 1.

Definition slots (n : nat) (g : nat → option Bson) (a : list Bson) : Prop := ∀ i, (i < n)%nat → slot (g i) (a !! i).

Lemma slots_step n i a a' g g' :
  slots n g a → element_step i a a' → slot g' (a' !! i) → slots n (λ j, if ⌊j = i⌋ then g' else g j) a'.
Proof.
  intros Hs He Hi j Hj. case_bool_decide; [by subst|]. specialize (Hs j Hj).
  destruct (es_other _ _ _ He j) as [-> |[E1 E2]]; [done|done|]. rewrite E1 in Hs. rewrite E2. destruct (g j); [done|by right].
Qed.

Lemma dec_nat_inj i j : dec_bytes (Z.of_nat i) = dec_bytes (Z.of_nat j) → i = j.
Proof. intros E. apply Nat2Z.inj, dec_bytes_inj; [lia|lia|done]. Qed.

(** How long the array is in the end. *)
Record lengths (n : nat) (E : list edit) (a a' : list Bson) : Prop := {
  ln_keeps : (Nat.min (length a) n ≤ length a')%nat;
  ln_fits : (length a ≤ n)%nat ∨ ([], Cut n) ∈ E → (length a' ≤ n)%nat;
  ln_last : (∃ v, (0 < n)%nat ∧ ([dec_bytes (Z.of_nat (n - 1))], Set_ v) ∈ E) → (n ≤ length a')%nat;
}.

Lemma acts_arr n E a g f :
  short n → Forall (arr_edit n) E → slots n g a →
  (∀ i, (i < n)%nat → fold_R act_opt (tails (dec_bytes (Z.of_nat i)) E) (g i) = Ok (f i)) →
  ∃ a', fold_R act_opt E (Some (Array a)) = Ok (Some (Array a')) ∧ slots n f a' ∧ lengths n E a a'.
Proof.
  intros Hn. revert a g. induction E as [|e E IH]; intros a g HE Hs Hf.
  { exists a. split_and!; [done| |].
    - intros i Hi. specialize (Hf i Hi). cbn in Hf. injection Hf as <-. by apply Hs.
    - split; [lia| |].
      + intros [?|?]; [done|elem_nil].
      + intros (v & _ & ?). elem_nil. }
  apply Forall_cons in HE as [[->|(i & r & Hi & Er)] HE].
  - destruct (IH (take n a) g HE) as (a' & Ha' & Hs' & L).
    { intros j Hj. rewrite lookup_take. case_decide; [by apply Hs|lia]. }
    { intros j Hj. by rewrite <- (Hf j Hj), tails_top. }
    exists a'. split_and!; [exact Ha'|done|]. destruct L as [L1 L2 L3]. rewrite length_take in L1, L2. split; [lia| |].
    + intros _. apply L2. left. lia.
    + intros (v & H0 & [[=]|Hin]%elem_of_cons). apply L3. eauto.
  - destruct e as [p o]. cbn [fst] in Er. subst p. pose proof (Hf i Hi) as Hh. rewrite tails_cons, bool_decide_true in Hh by done.
    cbn [fold_R] in Hh. apply bind_Ok in Hh as (g' & Hstep & Hh).
    destruct (act_arr i ltac:(unfold short in Hn; lia) a r o (g i) g' (Hs i Hi) Hstep) as (a1 & Hact & Hslot & He & Hset).
    destruct (IH a1 (λ j, if ⌊j = i⌋ then g' else g j) HE) as (a' & Ha' & Hs' & L).
    { by eapply slots_step. }
    { intros j Hj. specialize (Hf j Hj). rewrite tails_cons in Hf. case_bool_decide as E1; case_bool_decide as E2.
      - by subst.
      - destruct E2. by apply dec_nat_inj in E1.
      - by subst.
      - done. }
    exists a'. split_and!; [|done|].
    { cbn [fold_R].
      rewrite (proj2 (act_opt_cons _ _ _ _ _) Hact). exact Ha'. }
    destruct L as [L1 L2 L3], He as [_ G1 G2]. split; [lia| |].
    + intros Hc. apply L2. destruct Hc as [Hc|[[=]|Hc]%elem_of_cons]; [left; lia|by right].
    + intros (v & H0 & [[= Ei <- Hv]|Hin]%elem_of_cons); [|apply L3; eauto].
      apply dec_nat_inj in Ei. specialize (Hset eq_refl ltac:(eauto)). lia.
Qed.

(** ** Values up to the order of fields *)

Section describes.
Context (leaf : Bson → Bson → Prop).

(** Equal but for the order of fields in documents, and for what [leaf] identifies. *)
Inductive same_by : Bson → Bson → Prop :=
  | same_refl v : same_by v v
  | same_array a b : Forall2 same_by a b → same_by (Array a) (Array b)
  | same_document a b : (∀ k, option_Forall2 same_by (doc_get a k) (doc_get b k)) → same_by (Document a) (Document b)
  | same_leaf v w : leaf v w → same_by v w.

#[export] Instance same_reflexive : Reflexive same_by.
Proof. exact same_refl. Qed.

(** An edit that sets what is already there. *)
Definition stable (v : Bson) (e : edit) : Prop := (∃ w, e.2 = Set_ w) ∧ act_opt (Some v) e = Ok (Some v).

Inductive describes_by : list edit → option Bson → option Bson → Prop :=
  | ds_set E v ov : Forall (stable v) E → describes_by (([], Set_ v) :: E) ov (Some v)
  | ds_unset v : describes_by [([], Unset)] (Some v) None
  | ds_none : describes_by [] None None
  | ds_leaf v w : leaf v w → describes_by [] (Some v) (Some w)
  | ds_doc E a b : Forall (λ e : edit, e.1 ≠ []) E → NoDup (keys a) →
      (∀ k, describes_by (tails k E) (doc_get a k) (doc_get b k)) →
      describes_by E (Some (Document a)) (Some (Document b))
  | ds_arr E a b (skip : nat → bool) : short (length b) → Forall (arr_edit (length b)) E →
      ((length b < length a)%nat → ([], Cut (length b)) ∈ E) →
      ((length a < length b)%nat → ∃ v, ([dec_bytes (Z.of_nat (length b - 1))], Set_ v) ∈ E) →
      (∀ i x, b !! i = Some x → skip i = true →
         a !! i = None ∧ x = Null ∧ tails (dec_bytes (Z.of_nat i)) E = []) →
      (∀ i x, b !! i = Some x → skip i = false →
         describes_by (tails (dec_bytes (Z.of_nat i)) E) (a !! i) (Some x)) →
      describes_by E (Some (Array a)) (Some (Array b)).

Definition result_of {X} (o : outcome () (option X)) : option X := match o with Ok x => x | _ => None end.

Lemma stable_fold v E : Forall (stable v) E → fold_R act_opt E (Some v) = Ok (Some v).
Proof. induction 1 as [|e E [_ He] _ IH]; [done|]. cbn [fold_R]. by rewrite He. Qed.

(** Applying the edits, one after another, gives the new value. *)
Lemma describes_applies E ov ow :
  describes_by E ov ow → ∃ r, fold_R act_opt E ov = Ok r ∧ option_Forall2 same_by r ow.
Proof.
  induction 1 as [E v ov HE|v| |v w Hs|E a b HE Hn _ IH|E a b skip Hsh HE Hcut Hlast Hskip _ IH].
  - exists (Some v). cbn. rewrite stable_fold by done. split; [done|]. by constructor.
  - exists None. split; [done|constructor].
  - exists None. split; [done|constructor].
  - exists (Some v). split; [done|]. constructor. by apply same_leaf.
  - set (f k := result_of (fold_R act_opt (tails k E) (doc_get a k))).
    destruct (acts_doc E a f HE Hn) as (d' & Hd' & _ & Hf).
    { intros k. unfold f. destruct (IH k) as (r & -> & _). done. }
    exists (Some (Document d')). split; [done|]. constructor. constructor. intros k. rewrite Hf. unfold f.
    by destruct (IH k) as (r & -> & ?).
  - set (n := length b) in *. set (f i := result_of (fold_R act_opt (tails (dec_bytes (Z.of_nat i)) E) (a !! i))).
    assert (Hel : ∀ i, (i < n)%nat → ∃ x, b !! i = Some x ∧
      fold_R act_opt (tails (dec_bytes (Z.of_nat i)) E) (a !! i) = Ok (f i) ∧
      match f i with Some v => same_by v x | None => x = Null end).
    { intros i [x Hx]%lookup_lt_is_Some_2. exists x. split; [done|]. unfold f. destruct (skip i) eqn:Es.
      - destruct (Hskip i x Hx Es) as (-> & -> & ->). done.
      - destruct (IH i x Hx Es) as (r & -> & Hr). split; [done|]. by inversion Hr; subst. }
    destruct (acts_arr n E a (λ i, a !! i) f Hsh HE) as (a' & Ha' & Hs & [L1 L2 L3]).
    { intros i _. unfold slot. destruct (a !! i); [done|by left]. }
    { intros i Hi. by destruct (Hel i Hi) as (x & _ & ? & _). }
    assert (Hlen : length a' = n).
    { destruct (lt_eq_lt_dec (length a) n) as [[Hlt|Heq]|Hgt].
      - destruct (Hlast Hlt) as [v Hv]. pose proof (L2 ltac:(left; lia)).
        pose proof (L3 ltac:(exists v; split; [lia|done])). lia.
      - pose proof (L2 ltac:(left; lia)). lia.
      - pose proof (L2 ltac:(right; by apply Hcut)). lia. }
    exists (Some (Array a')). split; [done|]. constructor. constructor. apply Forall2_same_length_lookup_2; [done|].
    intros i y x Hy Hx. assert (Hi : (i < n)%nat) by (by eapply lookup_lt_Some).
    destruct (Hel i Hi) as (x' & Hx' & _ & Hsame). rewrite Hx in Hx'. injection Hx' as <-.
    specialize (Hs i Hi). unfold slot in Hs. rewrite Hy in Hs. destruct (f i); [congruence|].
    destruct Hs as [|[= ->]]; [done|]. by subst.
Qed.
End describes.
#[global] Arguments ds_set {leaf}.
#[global] Arguments ds_leaf {leaf}.
#[global] Arguments ds_doc {leaf}.
#[global] Arguments ds_arr {leaf}.
#[global] Arguments describes_applies {leaf}.

(** A value that is not a container as it was; a JavaScript scope is compared as
    the [bson] crate compares documents. *)
Definition scoped `{BsonCrate} (v w : Bson) : Prop :=
  container w = false ∧
  (v = w ∨ ∃ c s s', v = JavaScriptCodeWithScope c s ∧ w = JavaScriptCodeWithScope c s' ∧ doc_eq s s' = true).

Abbreviation same := (same_by scoped).
Abbreviation describes := (describes_by scoped).

(** ** Update descriptions: unchanged values, and whole values *)

#[export] Instance plain_dec k : Decision (plain k).
Proof. unfold plain. apply _. Defined.

(** Distinct field names without dots, and arrays no longer than an index the
    shared setter accepts. *)
Fixpoint wf (v : Bson) : bool :=
  match v with
  | Document d => ⌊NoDup (keys d)⌋ && forallb (λ e : bytes * Bson, ⌊plain e.1⌋ && wf e.2) d
  | Array a => (Z.of_nat (length a) <=? MAX_LIST_GROW_INDEX + 1) && forallb wf a
  | _ => true
  end.

Lemma wf_doc d : wf (Document d) = true ↔
  NoDup (keys d) ∧ ∀ k v, doc_get d k = Some v → plain k ∧ wf v = true.
Proof.
  cbn [wf]. rewrite andb_true_iff, bool_decide_eq_true, forallb_forall. split; intros [Hn Hd]; (split; [done|]).
  - intros k v Hk%doc_get_elem. specialize (Hd (k, v) (proj1 (list_elem_of_In _ _) Hk)).
    by apply andb_true_iff in Hd as [?%bool_decide_eq_true ?].
  - intros [k v] Hin%list_elem_of_In. destruct (Hd k v) as [? ?]; [by apply elem_doc_get|]. cbn.
    rewrite bool_decide_true by done. done.
Qed.

Lemma wf_array a : wf (Array a) = true ↔ short (length a) ∧ ∀ i v, a !! i = Some v → wf v = true.
Proof.
  cbn [wf]. rewrite andb_true_iff, Z.leb_le, forallb_forall. split; intros [Hs Ha]; (split; [done|]).
  - intros i v Hi. apply Ha, list_elem_of_In. by eapply list_elem_of_lookup_2.
  - intros v (i & Hi)%list_elem_of_In%list_elem_of_lookup. by eapply Ha.
Qed.

Section whole.
Context `{BsonCrate}.

(** ** The same encoding *)

Lemma same_encoding_array a b : same_encoding (Array a) (Array b) = true ↔ Forall2 (λ x y, same_encoding x y = true) a b.
Proof.
  cbn [same_encoding]. rewrite andb_true_iff, bool_decide_eq_true. revert b.
  induction a as [|x a IH]; intros [|y b]; (split; [intros [Hl Hs]|intros Hs; inversion Hs; subst]); try done.
  - apply andb_true_iff in Hs as [? ?]. constructor; [done|]. apply IH. split; [by injection Hl|done].
  - destruct (proj2 (IH b)) as [Hl Hs']; [done|]. split; [cbn; congruence|]. apply andb_true_iff. done.
Qed.

Lemma same_encoding_document a b :
  same_encoding (Document a) (Document b) = true ↔
  Forall2 (λ x y : bytes * Bson, x.1 = y.1 ∧ same_encoding x.2 y.2 = true) a b.
Proof.
  cbn [same_encoding]. rewrite andb_true_iff, bool_decide_eq_true. revert b.
  induction a as [|[k x] a IH]; intros [|[k' y] b]; (split; [intros [Hl Hs]|intros Hs; inversion Hs; subst]); try done.
  - rewrite !andb_true_iff in Hs. destruct Hs as [[?%bool_decide_eq_true ?] ?].
    constructor; [done|]. apply IH. split; [by injection Hl|done].
  - destruct (proj2 (IH b)) as [Hl Hs']; [done|]. cbn in *. split; [congruence|].
    rewrite bool_decide_true by tauto. apply andb_true_iff. split; [|done]. cbn. tauto.
Qed.

Lemma doc_get_Forall2 {A} (P : A → A → Prop) (a b : list (bytes * A)) k :
  Forall2 (λ x y, x.1 = y.1 ∧ P x.2 y.2) a b → option_Forall2 P (doc_get a k) (doc_get b k).
Proof.
  induction 1 as [|[k1 x] [k2 y] a b [Hk Hp] _ IH]; cbn; [constructor|]. cbn in Hk. subst k2.
  destruct (bool_decide _); [by constructor|done].
Qed.

Lemma same_encoding_leaf a b : same_encoding a b = true → container b = false → scoped a b ∧ container a = false.
Proof.
  assert (Hlit : bson_eq a b = true → container b = false → scoped a b).
  { unfold bson_eq. destruct a, b; try done; rewrite ?andb_true_iff, ?bool_decide_eq_true, ?Z.eqb_eq, ?eqb_true_iff;
      intros E Hc; repeat match goal with H : _ ∧ _ |- _ => destruct H end; subst; (split; [done|]); [..|by left]; eauto 10. }
  destruct a, b; cbn; try done; intros E _; (split; [|done]); try (by apply Hlit).
  apply Z.eqb_eq in E as ->. split; [done|by left].
Qed.

Lemma same_encoding_describes a b :
  wf a = true → wf b = true → same_encoding a b = true → describes [] (Some a) (Some b).
Proof.
  revert b. induction a as [a IH|a IH|a Hc] using bson_tree_ind; intros b Ha Hb He.
  - destruct b as [| |b| | | | | | | | | | | | | | | | | | ]; try done. apply same_encoding_array in He.
    pose proof (Forall2_length _ _ _ He) as Hlen. apply wf_array in Ha as [_ Ha], Hb as [Hsh Hb].
    apply (ds_arr [] a b (λ _, false)); [done|constructor|lia|lia|done|].
    intros i y Hy _. destruct (Forall2_lookup_r _ _ _ _ _ He Hy) as (x & Hx & Hxy). rewrite Hx.
    rewrite Forall_forall in IH. apply IH; [by eapply list_elem_of_lookup_2|by eapply Ha|by eapply Hb|done].
  - destruct b as [| | |b| | | | | | | | | | | | | | | | | ]; try done. apply same_encoding_document in He.
    apply wf_doc in Ha as [Hn Ha], Hb as [_ Hb]. apply ds_doc; [constructor|done|]. intros k.
    pose proof (doc_get_Forall2 (λ x y, same_encoding x y = true) _ _ k He) as Hk. destruct (doc_get a k) as [x|] eqn:Ex; inversion Hk as [? y Hxy E1 E2|]; subst; [|constructor].
    rewrite Forall_forall in IH. apply (IH (k, x)); [by apply doc_get_elem|by eapply Ha|by eapply Hb|done].
  - destruct (container b) eqn:Hb'; [by destruct a, b|]. apply ds_leaf. by apply same_encoding_leaf.
Qed.

(** ** Setting what is already there *)

(** A part that is a number is the index's own decimal text. *)
Definition canonical (h : bytes) : Prop := is_digits h = true → ∃ i : nat, h = dec_bytes (Z.of_nat i).

Lemma get_array_index a h r w :
  short (length a) → canonical h → get_in_bson (Array a) (h :: r) = Some w →
  ∃ i x, h = dec_bytes (Z.of_nat i) ∧ a !! i = Some x ∧ Z.of_nat i ≤ MAX_LIST_GROW_INDEX ∧ get_in_bson x r = Some w.
Proof.
  intros Hs Hc Hg. cbn [get_in_bson] in Hg. destruct (is_digits h) eqn:Hd; [|done]. destruct (Hc Hd) as [i ->].
  destruct (parse_usize (dec_bytes (Z.of_nat i))) as [idx|] eqn:Hp; [|done]. cbn [mbind option_bind] in Hg.
  assert (idx = Z.of_nat i) as ->.
  { eapply parse_dec_value; [lia|done]. }
  rewrite item_nat in Hg. destruct (a !! i) as [x|] eqn:Hx; [|done]. exists i, x. split_and!; try done.
  apply lookup_lt_Some in Hx. unfold short in Hs. lia.
Qed.

Lemma get_stable v p w :
  wf v = true → Forall canonical p → get_in_bson v p = Some w → stable v (p, Set_ w).
Proof.
  intros Hv Hp Hg. split; [by eexists|]. revert v Hv Hg.
  induction Hp as [|h r Hh _ IH]; intros v Hv Hg; [by injection Hg as ->|]. apply act_opt_cons.
  destruct v as [| |a|d| | | | | | | | | | | | | | | | | ]; try done.
  - apply wf_array in Hv as [Hs Ha]. destruct (get_array_index _ _ _ _ Hs Hh Hg) as (i & x & -> & Hx & Hi & Hr).
    unfold act. cbn [fst snd]. rewrite set_index by done. case_bool_decide as E.
    + subst r. cbn in Hr. injection Hr as ->. unfold grow_set. rewrite Nat2Z.id.
      replace (S i - length a)%nat with 0%nat by (apply lookup_lt_Some in Hx; lia). cbn [replicate].
      rewrite app_nil_r. by rewrite list_insert_id.
    + rewrite Hx. specialize (IH x (Ha _ _ Hx) Hr). destruct r as [|h' r]; [done|]. apply act_opt_cons in IH.
      unfold act in IH. cbn [fst snd] in IH. rewrite IH. cbn. by rewrite list_insert_id.
  - apply wf_doc in Hv as [Hn Hd]. cbn in Hg. destruct (doc_get d h) as [x|] eqn:Hx; [|done]. cbn in Hg.
    unfold act. cbn. unfold set_field. case_bool_decide as E.
    + subst r. cbn in Hg. injection Hg as ->. cbn. by rewrite insert_same.
    + rewrite (contains_get _ _ _ Hx), Hx. cbn. specialize (IH x (proj2 (Hd _ _ Hx)) Hg).
      destruct r as [|h' r]; [done|]. apply act_opt_cons in IH. unfold act in IH. cbn [fst snd] in IH. rewrite IH. cbn.
      by rewrite insert_same.
Qed.

(** ** One entry for a whole value *)

Definition is_set (e : edit) : bool := match e.2 with Set_ _ => true | _ => false end.
Definition part (b : bool) (E : list edit) : list edit := filter (λ e, is_set e = b) E.
Definition kept (p : list bytes) (b : bool) (E : list edit) : list edit :=
  filter (λ e : edit, is_set e = b ∧ ¬ p `prefix_of` e.1) E.

(** The edits of a description: what it sets, then the rest. *)
Definition phased (E : list edit) : Prop := E = part true E ++ part false E.

Definition collapse (p : list bytes) (w : Bson) (E : list edit) : list edit :=
  kept p true E ++ (p, Set_ w) :: kept p false E.

Lemma tails_part k b E : tails k (part b E) = part b (tails k E).
Proof.
  unfold part. induction E as [|[[|h r] o] E IH]; [done|..]; rewrite filter_cons, ?tails_top, ?tails_cons.
  - case_decide; rewrite ?tails_top; exact IH.
  - case_decide as E2; rewrite ?tails_cons; destruct (bool_decide (h = k)); rewrite ?filter_cons; try exact IH.
    + rewrite decide_True by done. f_equal. exact IH.
    + rewrite decide_False by done. exact IH.
Qed.

Lemma tails_kept_same h p b E : tails h (kept (h :: p) b E) = kept p b (tails h E).
Proof.
  unfold kept. induction E as [|[[|h' r] o] E IH]; [done|..]; rewrite filter_cons, ?tails_top, ?tails_cons.
  - case_decide; rewrite ?tails_top; exact IH.
  - destruct (bool_decide_reflect (h' = h)) as [->|Hne].
    + rewrite filter_cons. cbn [fst]. case_decide as E1; case_decide as E2; rewrite ?tails_cons.
      * rewrite bool_decide_true by done. f_equal. exact IH.
      * destruct E2. split; [apply E1|]. intros Hp. apply E1. by apply prefix_cons.
      * destruct E1. split; [apply E2|]. intros Hp. apply E2. by eapply prefix_cons_inv_2.
      * exact IH.
    + case_decide; [rewrite tails_cons, bool_decide_false by done|]; exact IH.
Qed.

Lemma tails_kept_other h k p b E : h ≠ k → tails k (kept (h :: p) b E) = part b (tails k E).
Proof.
  intros Hhk. rewrite <- tails_part. unfold kept, part.
  induction E as [|[[|h' r] o] E IH]; [done|..]; rewrite !filter_cons; cbn [fst].
  - case_decide as E1; case_decide as E2; rewrite ?tails_top; try exact IH; naive_solver.
  - case_decide as E1; case_decide as E2; rewrite ?tails_cons.
    + destruct (bool_decide _); [f_equal|]; exact IH.
    + naive_solver.
    + rewrite bool_decide_false; [exact IH|]. intros ->. destruct E1. split; [done|].
      intros Hp%prefix_cons_inv_1. done.
    + exact IH.
Qed.

Lemma phased_tails k E : phased E → phased (tails k E).
Proof. unfold phased. intros E1. rewrite E1 at 1. by rewrite tails_app, !tails_part. Qed.

Lemma kept_nil b E : kept [] b E = [].
Proof.
  unfold kept. induction E as [|e E IH]; [done|]. rewrite filter_cons, decide_False; [done|].
  intros [_ Hp]. apply Hp, prefix_nil.
Qed.

Lemma elem_of_kept_edits p b E e : e ∈ kept p b E ↔ is_set e = b ∧ ¬ p `prefix_of` e.1 ∧ e ∈ E.
Proof. unfold kept. rewrite list_elem_of_filter. tauto. Qed.

Lemma elem_of_collapse p w E e : e ∈ collapse p w E ↔ e = (p, Set_ w) ∨ (e ∈ E ∧ ¬ p `prefix_of` e.1).
Proof.
  unfold collapse. rewrite elem_of_app, elem_of_cons, !elem_of_kept_edits. destruct (is_set e); naive_solver.
Qed.

Lemma kept_sets p v E : Forall (stable v) E → kept p false E = [].
Proof.
  intros HE. unfold kept. induction HE as [|e E [[w Hw] _] _ IH]; [done|]. rewrite filter_cons, decide_False; [done|].
  unfold is_set. rewrite Hw. by intros [? _].
Qed.

Lemma tails_collapse_same h p w E : tails h (collapse (h :: p) w E) = collapse p w (tails h E).
Proof.
  unfold collapse. rewrite tails_app, tails_cons, bool_decide_true by done. by rewrite !tails_kept_same.
Qed.

Lemma tails_collapse_other h k p w E : h ≠ k → phased E → tails k (collapse (h :: p) w E) = tails k E.
Proof.
  intros Hhk HE. unfold collapse. rewrite tails_app, tails_cons, bool_decide_false by done.
  rewrite !tails_kept_other by done. symmetry. by apply phased_tails.
Qed.

Lemma collapse_heads P h p w E :
  P (h :: p, Set_ w) → Forall P E → Forall P (collapse (h :: p) w E).
Proof.
  rewrite !Forall_forall. intros Hp HE e [->|[Hin _]]%elem_of_collapse; auto.
Qed.

Lemma collapse_set h p w v E :
  Forall (stable v) E → collapse (h :: p) w (([], Set_ v) :: E) = ([], Set_ v) :: kept (h :: p) true E ++ [(h :: p, Set_ w)].
Proof.
  intros HE. unfold collapse. rewrite <- (kept_sets (h :: p) v E HE). unfold kept. rewrite !filter_cons, decide_True, decide_False.
  - done.
  - by intros [? _].
  - split; [done|]. apply prefix_nil_not.
Qed.

(** Reporting the new value at [p] for all that is at and below [p]. *)
Lemma collapse_describes p w E ov v :
  wf v = true → Forall canonical p → get_in_bson v p = Some w → phased E →
  describes E ov (Some v) → describes (collapse p w E) ov (Some v).
Proof.
  intros Hv Hp. revert w E ov v Hv. induction Hp as [|h p Hh Hp IH]; intros w E ov v Hv Hg Hph Hd.
  { injection Hg as ->. unfold collapse. rewrite !kept_nil. by apply ds_set. }
  inversion Hd as [E0 v0 ov0 HE| | |v0 w0 [Hc _]|E0 a b HE Hn Hk|E0 a b skip Hsh HE Hcut Hlast Hskip Hk]; subst.
  - rewrite collapse_set by done. apply ds_set. apply Forall_app. split; [|constructor; [|constructor]].
    + rewrite Forall_forall in HE |- *. intros e (_ & _ & He)%elem_of_kept_edits. auto.
    + apply get_stable; [done|by constructor|done].
  - by destruct v.
  - apply wf_doc in Hv as [_ Hb]. cbn in Hg. destruct (doc_get b h) as [x|] eqn:Hx; [|done]. cbn in Hg.
    apply ds_doc; [by apply collapse_heads|done|]. intros k. destruct (decide (h = k)) as [<-|Hne].
    + rewrite tails_collapse_same, Hx. apply IH; [by eapply Hb|done|by apply phased_tails|].
      rewrite <- Hx. apply Hk.
    + by rewrite tails_collapse_other.
  - apply wf_array in Hv as [_ Hb]. destruct (get_array_index _ _ _ _ Hsh Hh Hg) as (i & x & -> & Hx & Hi & Hr).
    apply (ds_arr _ _ _ (λ j, skip j && negb ⌊j = i⌋)); [done| | | | |].
    + apply collapse_heads; [|done]. right. exists i, p. split; [by eapply lookup_lt_Some|done].
    + intros Hlt. apply elem_of_collapse. right. split; [by apply Hcut|]. apply prefix_nil_not.
    + intros Hlt. destruct (Hlast Hlt) as [u Hu].
      destruct (decide ((dec_bytes (Z.of_nat i) :: p) `prefix_of` [dec_bytes (Z.of_nat (length b - 1))])) as [Hpre|Hpre].
      * pose proof (prefix_cons_inv_1 _ _ _ _ Hpre) as E1. apply prefix_cons_inv_2, prefix_nil_inv in Hpre as ->.
        exists w. apply elem_of_collapse. left. by rewrite E1.
      * exists u. apply elem_of_collapse. by right.
    + intros j y Hy [Hs Hj]%andb_true_iff. apply negb_true_iff, bool_decide_eq_false in Hj.
      rewrite tails_collapse_other; [by apply Hskip| |done]. intros E1%dec_nat_inj. congruence.
    + intros j y Hy Hs. destruct (decide (j = i)) as [->|Hj].
      * rewrite Hx in Hy. injection Hy as <-. rewrite tails_collapse_same. destruct (skip i) eqn:Es.
        -- destruct (Hskip i x Hx Es) as (_ & -> & ->). destruct p; [|done]. injection Hr as <-. by apply ds_set.
        -- apply IH; [by eapply Hb|done|by apply phased_tails|by apply Hk].
      * rewrite bool_decide_false, andb_true_r in Hs by done.
        rewrite tails_collapse_other; [by apply Hk| |done]. intros E1%dec_nat_inj. congruence.
Qed.
End whole.
