(* ===== verification/DiffWalk.v ===== *)
(** * Update descriptions: the walk

    What [walk] adds to its accumulator is a description of the change below the
    path it is at. *)
From stdpp Require Import strings.
From S2P Require Import Prelude RustM Lex Bson Docs Numeric Order BsonDoc Paths Diff PathsFacts DiffEdits.
Local Open Scope Z_scope.
Local Open Scope secantus_scope.

(** ** The keys of two documents *)

#[local] Instance bytes_le_total : Total bytes_le.
Proof. intros a b. unfold bytes_le. rewrite (bcmp_antisym a b). destruct (bcmp a b); cbn; auto; (left + right); done. Qed.

Lemma bytes_le_antisym a b : bytes_le a b → bytes_le b a → a = b.
Proof.
  unfold bytes_le. rewrite (bcmp_antisym a b). intros H1 H2. apply bcmp_Eq. by destruct (bcmp a b).
Qed.

#[local] Instance bytes_le_trans : Transitive bytes_le.
Proof.
  intros a b c Hab Hbc. destruct (decide (bcmp a b = Eq)) as [->%bcmp_Eq|Hn1]; [done|].
  destruct (decide (bcmp b c = Eq)) as [<-%bcmp_Eq|Hn2]; [done|]. unfold bytes_le in *.
  rewrite (bcmp_trans_lt a b c); [done|..]; [by destruct (bcmp a b)|by destruct (bcmp b c)].
Qed.

Lemma elem_of_dedup_keys k l : k ∈ dedup_keys l ↔ k ∈ l.
Proof.
  induction l as [|x l IH]; [done|]. cbn. rewrite elem_of_cons, <- IH. destruct (dedup_keys l) as [|y r].
  - rewrite list_elem_of_singleton, elem_of_nil. tauto.
  - case_bool_decide; subst; rewrite !elem_of_cons; tauto.
Qed.

Lemma dedup_keys_NoDup l : StronglySorted bytes_le l → NoDup (dedup_keys l) ∧ StronglySorted bytes_le (dedup_keys l).
Proof.
  induction 1 as [|x l _ [IHn IHs] Hx]; [split; constructor|]. cbn.
  assert (Hx' : Forall (bytes_le x) (dedup_keys l)).
  { rewrite Forall_forall in Hx |- *. intros y Hy. apply Hx. by apply elem_of_dedup_keys. }
  destruct (dedup_keys l) as [|y r]; [split; repeat constructor; apply not_elem_of_nil|].
  case_bool_decide as E; [done|]. split; [|by constructor]. constructor; [|done].
  intros [->|Hr]%elem_of_cons; [done|]. apply E. inversion IHs as [|? ? _ Hy]; subst. inversion Hx'; subst.
  rewrite Forall_forall in Hy. apply bytes_le_antisym; [done|]. by apply Hy.
Qed.

Lemma key_set_spec l : NoDup (key_set l) ∧ ∀ k, k ∈ key_set l ↔ k ∈ l.
Proof.
  unfold key_set. split.
  - apply dedup_keys_NoDup, StronglySorted_merge_sort; apply _.
  - intros k. by rewrite elem_of_dedup_keys, merge_sort_Permutation.
Qed.

(** ** Edits by kind *)

Section kinds.
Context {A : Type}.
Implicit Types (S : list (list bytes * A)).

Definition tl (k : bytes) S : list (list bytes * A) :=
  omap (λ e : list bytes * A, match e.1 with h :: r => if ⌊h = k⌋ then Some (r, e.2) else None | [] => None end) S.
Definition under (k : bytes) S : list (list bytes * A) := (λ e : list bytes * A, (k :: e.1, e.2)) <$> S.

Lemma tl_app k S T : tl k (S ++ T) = tl k S ++ tl k T.
Proof. unfold tl. apply omap_app. Qed.

Lemma tl_under k S : tl k (under k S) = S.
Proof.
  unfold tl, under. induction S as [|[p x] S IH]; [done|]. rewrite fmap_cons. cbn. rewrite bool_decide_true by done.
  f_equal. exact IH.
Qed.

Lemma tl_under_ne k h S : h ≠ k → tl k (under h S) = [].
Proof.
  intros Hne. unfold tl, under. induction S as [|[p x] S IH]; [done|]. rewrite fmap_cons. cbn.
  rewrite bool_decide_false by done. exact IH.
Qed.
End kinds.

Definition edits (S : list (list bytes * Bson)) (U : list (list bytes * ())) (C : list (list bytes * nat)) : list edit :=
  ((λ e : list bytes * Bson, (e.1, Set_ e.2)) <$> S) ++ ((λ e : list bytes * (), (e.1, Unset)) <$> U)
    ++ ((λ e : list bytes * nat, (e.1, Cut e.2)) <$> C).

Lemma tails_fmap {A} (f : A → op) k (S : list (list bytes * A)) :
  tails k ((λ e : list bytes * A, (e.1, f e.2)) <$> S) = (λ e : list bytes * A, (e.1, f e.2)) <$> tl k S.
Proof.
  unfold tl. induction S as [|[[|h r] x] S IH]; [done|..]; rewrite fmap_cons; cbn [fst snd].
  - rewrite tails_top. exact IH.
  - rewrite tails_cons. cbn. destruct (bool_decide _); cbn; [f_equal|]; exact IH.
Qed.

Lemma tails_edits k S U C : tails k (edits S U C) = edits (tl k S) (tl k U) (tl k C).
Proof. unfold edits. by rewrite !tails_app, (tails_fmap Set_), (tails_fmap (λ _, Unset)), (tails_fmap Cut). Qed.

Lemma part_sets {A} (f : A → op) b (S : list (list bytes * A)) :
  (∀ x, is_set ([], f x) = b) →
  part b ((λ e : list bytes * A, (e.1, f e.2)) <$> S) = (λ e : list bytes * A, (e.1, f e.2)) <$> S ∧
  part (negb b) ((λ e : list bytes * A, (e.1, f e.2)) <$> S) = [].
Proof.
  intros Hf. unfold part. induction S as [|[p x] S [IH1 IH2]]; [done|]. rewrite fmap_cons, !filter_cons. cbn [fst snd].
  rewrite decide_True, decide_False by (specialize (Hf x); unfold is_set in *; cbn in *; rewrite Hf; by destruct b).
  by rewrite IH1.
Qed.

Lemma edits_phased S U C : phased (edits S U C).
Proof.
  unfold phased, edits.
  destruct (part_sets Set_ true S) as [E0 E1]; [done|]. destruct (part_sets (λ _, Unset) false U) as [E2 E3]; [done|].
  destruct (part_sets Cut false C) as [E4 E5]; [done|]. unfold part in *. cbn [negb] in *.
  rewrite !filter_app, E0, E1, E2, E3, E4, E5. by rewrite !app_nil_r.
Qed.

(** ** What the walk adds *)

Definition cut_entry (path : bytes) (n : nat) : Bson :=
  Document [(lit "field", String path); (lit "newSize", Int32 (as_i32 (Z.of_nat n)))].

Record delta (parts : list bytes) S U C (acc acc' : Acc) : Prop := {
  dl_updated : updated acc' = updated acc ++ ((λ e : list bytes * Bson, (join_dot (parts ++ e.1), e.2)) <$> S);
  dl_removed : removed acc' = removed acc ++ ((λ e : list bytes * (), String (join_dot (parts ++ e.1))) <$> U);
  dl_truncated : truncated acc' = truncated acc ++ ((λ e : list bytes * nat, cut_entry (join_dot (parts ++ e.1)) e.2) <$> C);
  dl_elementwise : elementwise acc' = elementwise acc;
  dl_push : push_targets acc' = push_targets acc;
  dl_plain : Forall (λ e : edit, Forall plain e.1) (edits S U C);
  dl_short : Forall (λ e : list bytes * nat, short e.2) C;
}.

(** No entry of the accumulator is at or below the path. *)
Definition fresh (parts : list bytes) (acc : Acc) : Prop :=
  ∀ key, key ∈ keys (updated acc) → ¬ parts `prefix_of` split_dot key.

Lemma delta_refl parts acc : delta parts [] [] [] acc acc.
Proof. by split; cbn; rewrite ?app_nil_r. Qed.

Lemma record_ambiguous_frame path segments acc :
  updated (record_ambiguous path segments acc) = updated acc ∧
  removed (record_ambiguous path segments acc) = removed acc ∧
  truncated (record_ambiguous path segments acc) = truncated acc ∧
  elementwise (record_ambiguous path segments acc) = elementwise acc ∧
  push_targets (record_ambiguous path segments acc) = push_targets acc.
Proof. unfold record_ambiguous. by destruct (existsb _ _). Qed.

Section notes.
Context (parts : list bytes) (segments : list Bson) (acc : Acc) (Hp : Forall plain parts) (Hne : parts ≠ []).

Lemma split_plain p : Forall plain p → p ≠ [] → split_dot (join_dot p) = p.
Proof. intros Hpl Hpn. apply split_dot_join; [done|]. eapply Forall_impl; [exact Hpl|]. by intros ? []. Qed.

Lemma delta_note_set v : fresh parts acc → delta parts [([], v)] [] [] acc (note_set (join_dot parts) segments v acc).
Proof.
  intros Hf. unfold note_set.
  destruct (record_ambiguous_frame (join_dot parts) segments (set_updated (doc_insert (updated acc) (join_dot parts) v) acc))
    as (E1 & E2 & E3 & E4 & E5).
  split; rewrite ?E1, ?E2, ?E3, ?E4, ?E5; cbn; rewrite ?app_nil_r; try done; [|repeat constructor].
  apply insert_fresh. intros Hin. apply (Hf _ Hin). by rewrite split_plain.
Qed.

Lemma delta_note_removed : delta parts [] [([], tt)] [] acc (note_removed (join_dot parts) segments acc).
Proof.
  unfold note_removed.
  destruct (record_ambiguous_frame (join_dot parts) segments (set_removed (removed acc ++ [String (join_dot parts)]) acc))
    as (E1 & E2 & E3 & E4 & E5).
  split; rewrite ?E1, ?E2, ?E3, ?E4, ?E5; cbn; rewrite ?app_nil_r; try done. repeat constructor.
Qed.

Lemma delta_note_truncated S U C acc' n :
  short n → delta parts S U C acc acc' →
  delta parts S U (C ++ [([], n)]) acc (note_truncated (join_dot parts) segments n acc').
Proof.
  intros Hn [D1 D2 D3 D4 D5 D6 D7]. unfold note_truncated. fold (cut_entry (join_dot parts) n).
  destruct (record_ambiguous_frame (join_dot parts) segments
    (set_truncated (truncated acc' ++ [cut_entry (join_dot parts) n]) acc')) as (E1 & E2 & E3 & E4 & E5).
  split; rewrite ?E1, ?E2, ?E3, ?E4, ?E5; try done.
  - cbn [truncated set_truncated]. rewrite D3, fmap_app, app_assoc. cbn. by rewrite app_nil_r.
  - unfold edits in *. rewrite fmap_app, !app_assoc. rewrite !app_assoc in D6. apply Forall_app. split; [done|]. repeat constructor.
  - apply Forall_app. split; [done|]. by repeat constructor.
Qed.
End notes.

Lemma edits_under k S U C : edits (under k S) (under k U) (under k C) = (λ e : edit, (k :: e.1, e.2)) <$> edits S U C.
Proof. unfold edits, under. by rewrite !fmap_app, <- !list_fmap_compose. Qed.

Lemma edits_app S U C S' U' C' e :
  e ∈ edits (S ++ S') (U ++ U') (C ++ C') ↔ e ∈ edits S U C ∨ e ∈ edits S' U' C'.
Proof. unfold edits. rewrite !fmap_app, !elem_of_app. tauto. Qed.

Lemma delta_cons parts k S U C S' U' C' acc acc1 acc2 :
  plain k → delta (parts ++ [k]) S U C acc acc1 → delta parts S' U' C' acc1 acc2 →
  delta parts (under k S ++ S') (under k U ++ U') (under k C ++ C') acc acc2.
Proof.
  intros Hk [D1 D2 D3 D4 D5 D6 D7] [F1 F2 F3 F4 F5 F6 F7].
  assert (Hj : ∀ p, (parts ++ [k]) ++ p = parts ++ k :: p) by (intros p; by rewrite <- app_assoc).
  split; [..|congruence|congruence| |].
  - rewrite F1, D1, <- app_assoc, fmap_app. do 2 f_equal. unfold under. rewrite <- list_fmap_compose.
    apply list_fmap_ext. intros ? [p x] _. cbn. by rewrite Hj.
  - rewrite F2, D2, <- app_assoc, fmap_app. do 2 f_equal. unfold under. rewrite <- list_fmap_compose.
    apply list_fmap_ext. intros ? [p x] _. cbn. by rewrite Hj.
  - rewrite F3, D3, <- app_assoc, fmap_app. do 2 f_equal. unfold under. rewrite <- list_fmap_compose.
    apply list_fmap_ext. intros ? [p x] _. cbn. by rewrite Hj.
  - rewrite Forall_forall in D6, F6 |- *. intros e [He|He]%edits_app; [|by apply F6].
    rewrite edits_under in He. apply list_elem_of_fmap in He as (e' & -> & He'). constructor; [done|]. by apply D6.
  - apply Forall_app. split; [|done]. unfold under. apply Forall_fmap. exact D7.
Qed.

(** Entries below one part are not below another. *)
Lemma fresh_sibling parts k j S U C acc acc1 :
  Forall plain parts → plain k → k ≠ j → fresh (parts ++ [j]) acc → delta (parts ++ [k]) S U C acc acc1 →
  fresh (parts ++ [j]) acc1.
Proof.
  intros Hp Hk Hne Hf [D1 _ _ _ _ D6 _] key. rewrite D1. unfold keys. rewrite fmap_app, elem_of_app.
  intros [Hin|Hin] Hpre; [by eapply Hf|].
  rewrite <- list_fmap_compose in Hin. apply list_elem_of_fmap in Hin as ([p x] & -> & Hin). cbn in Hpre.
  rewrite split_plain in Hpre.
  - rewrite <- app_assoc in Hpre. apply prefix_app_inv in Hpre. by apply prefix_cons_inv_1 in Hpre.
  - apply Forall_app. split; [by apply Forall_app; auto|]. rewrite Forall_forall in D6. apply (D6 (p, Set_ x)).
    unfold edits. apply elem_of_app. left. apply list_elem_of_fmap. by exists (p, x).
  - by destruct parts.
Qed.

(** ** Loops *)

(** A loop whose step for [x] works below the part [key x], each part once. *)
Section loop.
Context {X : Type} (key : X → bytes) (f : Acc → X → R Acc) (P : X → list edit → Prop).
Context (parts : list bytes) (Hparts : Forall plain parts).
Context (ew : option ElementPaths) (pt : list bytes).

Definition steps_below (l : list X) : Prop := ∀ x acc acc', x ∈ l →
  elementwise acc = ew → push_targets acc = pt → fresh (parts ++ [key x]) acc → f acc x = Ok acc' →
  ∃ S U C, delta (parts ++ [key x]) S U C acc acc' ∧ P x (edits S U C).

Lemma fold_delta l acc acc' :
  NoDup (key <$> l) → Forall (λ x, plain (key x)) l → steps_below l →
  elementwise acc = ew → push_targets acc = pt → (∀ x, x ∈ l → fresh (parts ++ [key x]) acc) →
  fold_R f l acc = Ok acc' →
  ∃ S U C, delta parts S U C acc acc' ∧
    Forall (λ e : edit, ∃ x r, x ∈ l ∧ e.1 = key x :: r) (edits S U C) ∧
    (∀ x, x ∈ l → P x (tails (key x) (edits S U C))) ∧
    ∀ k, k ∉ key <$> l → tails k (edits S U C) = [].
Proof.
  revert acc. induction l as [|x l IH]; intros acc Hn Hpl Hstep He Hpt Hfr Hfold.
  { injection Hfold as <-. exists [], [], []. split_and!; [apply delta_refl|constructor|intros; elem_nil|done]. }
  cbn [fold_R] in Hfold. apply bind_Ok in Hfold as (acc1 & Hx & Hfold).
  rewrite fmap_cons in Hn. apply NoDup_cons in Hn as [Hni Hn]. apply Forall_cons in Hpl as [Hkx Hpl].
  destruct (Hstep x acc acc1) as (S1 & U1 & C1 & D1 & P1); [by left|done|done|by apply Hfr; left|done|].
  assert (Hkey : ∀ y, y ∈ l → key x ≠ key y).
  { intros y Hy E. apply Hni. rewrite E. by apply list_elem_of_fmap_2. }
  destruct (IH acc1) as (S2 & U2 & C2 & D2 & Hh & P2 & Hout); [done|done| | | | |done|].
  { intros y acc2 acc3 Hy. apply Hstep. by right. }
  { by rewrite (dl_elementwise _ _ _ _ _ _ D1). }
  { by rewrite (dl_push _ _ _ _ _ _ D1). }
  { intros y Hy. eapply fresh_sibling; [done|exact Hkx|by apply Hkey|by apply Hfr; right|done]. }
  exists (under (key x) S1 ++ S2), (under (key x) U1 ++ U2), (under (key x) C1 ++ C2).
  split_and!.
  - by eapply delta_cons.
  - rewrite Forall_forall in Hh |- *. intros e [He'|He']%edits_app.
    + rewrite edits_under in He'. apply list_elem_of_fmap in He' as (e' & -> & _). exists x, e'.1. split; [by left|done].
    + destruct (Hh e He') as (y & r & Hy & E). exists y, r. split; [by right|done].
  - intros y Hy. rewrite tails_edits, !tl_app. destruct (decide (key y = key x)) as [E|E].
    + assert (y = x) as ->.
      { apply elem_of_cons in Hy as [?|Hy]; [done|]. exfalso. by apply (Hkey y Hy). }
      rewrite !tl_under. specialize (Hout (key x) Hni). rewrite tails_edits in Hout. unfold edits in Hout.
      apply app_eq_nil in Hout as [->%fmap_nil_inv [->%fmap_nil_inv ->%fmap_nil_inv]%app_eq_nil].
      by rewrite !app_nil_r.
    + apply elem_of_cons in Hy as [->|Hy]; [done|]. rewrite !tl_under_ne by done. cbn [app]. rewrite <- tails_edits. by apply P2.
  - intros k Hk. rewrite fmap_cons, not_elem_of_cons in Hk. destruct Hk as [Hk1 Hk2].
    rewrite tails_edits, !tl_app, !tl_under_ne by done. cbn [app]. rewrite <- tails_edits. by apply Hout.
Qed.
End loop.

Lemma elem_of_tails k E e : e ∈ tails k E ↔ (k :: e.1, e.2) ∈ E.
Proof.
  unfold tails. rewrite list_elem_of_omap. split.
  - intros ([p o] & Hin & Ht). unfold tail_of in Ht. cbn in Ht. destruct p as [|h r]; [done|].
    case_bool_decide; [|done]. injection Ht as <-. by subst.
  - intros Hin. exists (k :: e.1, e.2). split; [done|]. unfold tail_of. cbn. rewrite bool_decide_true by done. by destruct e.
Qed.

(** ** The walk *)

Section equations.
Context `{BsonCrate}.

Lemma walk_to_array b pre path segments acc :
  walk_to (Array b) pre path segments acc =
    match pre with
    | Array a =>
        same ← same_stored_value pre (Array b);
        if (same : bool) then Ok acc
        else walk_arrays_with a ((λ v, mkWalker v (walk_to v)) <$> b) (Array b) path segments acc
    | _ => walk_leaf pre (Array b) path segments acc
    end.
Proof.
  cbn [walk_to].
  assert (Hbw : (fix go (b : list Bson) : list walker :=
                   match b with [] => [] | v :: b => mkWalker v (walk_to v) :: go b end) b
                = (λ v, mkWalker v (walk_to v)) <$> b).
  { induction b as [|v b IH]; [done|]. by rewrite fmap_cons, <- IH. }
  by rewrite Hbw.
Qed.

Lemma walk_to_document b pre path segments acc :
  walk_to (Document b) pre path segments acc =
    match pre with
    | Document a => walk_docs a b path segments acc
    | _ => walk_leaf pre (Document b) path segments acc
    end.
Proof.
  cbn [walk_to]. unfold walk_docs.
  assert (Hbw : (fix go (b : Doc) : list (bytes * walker) :=
                   match b with [] => [] | (k, v) :: b => (k, mkWalker v (walk_to v)) :: go b end) b
                = (λ e : bytes * Bson, (e.1, mkWalker e.2 (walk_to e.2))) <$> b).
  { induction b as [|[k v] b IH]; [done|]. by rewrite fmap_cons, <- IH. }
  by rewrite Hbw.
Qed.

End equations.

Lemma index_keys_NoDup {A} (l : list A) : NoDup ((λ ib : nat * A, dec_bytes (Z.of_nat ib.1)) <$> imap pair l).
Proof.
  rewrite fmap_imap. rewrite (imap_ext _ (λ i _, dec_bytes (Z.of_nat i))) by done.
  apply NoDup_alt. intros i j k. rewrite !list_lookup_imap. intros Hi Hj.
  destruct (_ !! i); [|done]. destruct (_ !! j); [|done]. injection Hi as Hi. injection Hj as Hj. apply dec_nat_inj. congruence.
Qed.

Lemma elem_of_indexed {A B} (g : A → B) (b : list A) i w : (i, w) ∈ imap pair (g <$> b) ↔ ∃ x, b !! i = Some x ∧ w = g x.
Proof.
  rewrite elem_of_lookup_imap. split.
  - intros (j & y & [= <- <-] & Hy). rewrite list_lookup_fmap in Hy. destruct (b !! i) as [x|] eqn:Ex; [|done]. exists x.
    cbn in Hy. by injection Hy as <-.
  - intros (x & Hx & ->). exists i, (g x). by rewrite list_lookup_fmap, Hx.
Qed.

(** The edits of an array, from those of its elements.  [reported] is the indices
    past the old end that have one. *)
Lemma describes_elements leaf (a b : list Bson) (reported : nat → bool) E E' :
  let n := length b in
  short n → (∀ e, e ∈ E → ∃ i r, (i < n)%nat ∧ e.1 = dec_bytes (Z.of_nat i) :: r) →
  (∀ e, e ∈ E' ↔ e ∈ E ∨ (e = ([], Cut n) ∧ (n < length a)%nat)) → (∀ k, tails k E' = tails k E) →
  ((length a < n)%nat → reported (n - 1)%nat = true ∧
     ∀ i x, (length a ≤ i)%nat → b !! i = Some x → reported i = false → x = Null) →
  (∀ i x, b !! i = Some x →
     match a !! i with
     | None => tails (dec_bytes (Z.of_nat i)) E = if reported i then [([], Set_ x)] else []
     | Some av => describes_by leaf (tails (dec_bytes (Z.of_nat i)) E) (Some av) (Some x)
     end) →
  describes_by leaf E' (Some (Array a)) (Some (Array b)).
Proof.
  intros n Hsh Hh HE' Htl Hal Hval. apply (ds_arr _ _ _ (λ i, ⌊a !! i = None⌋ && negb (reported i))).
  - done.
  - rewrite Forall_forall. intros e [He'|[-> _]]%HE'; [|by left]. right. by apply Hh.
  - intros Hlt. apply HE'. by right.
  - intros Hlt. destruct (lookup_lt_is_Some_2 b (n - 1)) as [x Hx]; [unfold n; lia|]. exists x. apply HE'. left.
    specialize (Hval _ _ Hx). rewrite (lookup_ge_None_2 a), (proj1 (Hal Hlt)) in Hval by (unfold n; lia).
    apply (elem_of_tails _ _ ([], Set_ x)). fold n. rewrite Hval. by left.
  - intros i x Hx [Hnone%bool_decide_eq_true Hr%negb_true_iff]%andb_true_iff. specialize (Hval _ _ Hx).
    rewrite Hnone, Hr in Hval. rewrite Htl. split_and!; [done| |done].
    apply lookup_ge_None in Hnone. eapply Hal; [|exact Hnone|exact Hx|done]. apply lookup_lt_Some in Hx. unfold n. lia.
  - intros i x Hx Hskip. specialize (Hval _ _ Hx). rewrite Htl.
    destruct (a !! i) as [av|] eqn:Eav; [done|]. rewrite bool_decide_true in Hskip by done. cbn in Hskip.
    apply negb_false_iff in Hskip. rewrite Hskip in Hval. rewrite Hval. by apply ds_set.
Qed.

Section walk.
Context `{BsonCrate} (pre0 post0 : Doc) (ew : option ElementPaths) (pt : list bytes).

(** What an update leaves past the end of an array it names by index: the
    elements it does not name are null, and the last one it names. *)
Definition padded : Prop := ∀ paths path named a b,
  ew = Some paths → paths !! path = Some (Some named) →
  get_path pre0 path = Some (Array a) → get_path post0 path = Some (Array b) → (length a < length b)%nat →
  Z.of_nat (length b - 1) ∈ named ∧
  ∀ i x, (length a ≤ i)%nat → b !! i = Some x → Z.of_nat i ∉ named → x = Null.

Context (Hpad : padded).

Definition walked (post : Bson) : Prop := ∀ pre parts segments acc acc',
  wf pre = true → wf post = true → Forall plain parts → parts ≠ [] →
  get_in_bson (Document pre0) parts = Some pre → get_in_bson (Document post0) parts = Some post →
  elementwise acc = ew → push_targets acc = pt → fresh parts acc →
  walk_to post pre (join_dot parts) segments acc = Ok acc' →
  ∃ S U C, delta parts S U C acc acc' ∧ describes (edits S U C) (Some pre) (Some post).

Lemma get_snoc v parts k : get_in_bson v (parts ++ [k]) = x ← get_in_bson v parts; get_in_bson x [k].
Proof.
  revert v. induction parts as [|h parts IH]; intros v; [done|]. cbn [app get_in_bson].
  destruct v; try done.
  - destruct (is_digits h); [|done]. destruct (parse_usize h); [|done]. cbn. destruct (item a z); [|done]. cbn. apply IH.
  - destruct (doc_get d h); [|done]. cbn. apply IH.
Qed.

Lemma walk_leaf_spec pre post parts segments acc acc' :
  wf pre = true → wf post = true → Forall plain parts → parts ≠ [] → fresh parts acc →
  walk_leaf pre post (join_dot parts) segments acc = Ok acc' →
  ∃ S U C, delta parts S U C acc acc' ∧ describes (edits S U C) (Some pre) (Some post).
Proof.
  intros Hpre Hpost Hp Hne Hf. unfold walk_leaf, same_stored_value. destruct (same_encoding pre post) eqn:Es.
  { intros [= <-]. exists [], [], []. split; [apply delta_refl|by apply same_encoding_describes]. }
  intros Hw. assert (acc' = note_set (join_dot parts) segments post acc) as ->.
  { destruct (_ || _); cbn in Hw; [congruence|]. destruct (eq pre post) as [[]| | |]; cbn in Hw; congruence. }
  exists [([], post)], [], []. split; [by apply delta_note_set|]. by apply ds_set.
Qed.

(** The fields of two documents. *)
Lemma walk_docs_spec a b parts segments acc acc' :
  Forall (λ e : bytes * Bson, walked e.2) b → wf (Document a) = true → wf (Document b) = true → Forall plain parts →
  get_in_bson (Document pre0) parts = Some (Document a) → get_in_bson (Document post0) parts = Some (Document b) →
  elementwise acc = ew → push_targets acc = pt → fresh parts acc →
  walk_docs a b (join_dot parts) segments acc = Ok acc' →
  ∃ S U C, delta parts S U C acc acc' ∧ describes (edits S U C) (Some (Document a)) (Some (Document b)) ∧
    Forall (λ e : edit, e.1 ≠ []) (edits S U C).
Proof.
  intros Hb Ha Hwb Hp Gpre Gpost He Hpt Hf Hw. unfold walk_docs, walk_docs_with in Hw.
  set (bw := (λ e : bytes * Bson, (e.1, mkWalker e.2 (walk_to e.2))) <$> b) in Hw.
  assert (Hbw : ∀ k, doc_get bw k = (λ v, mkWalker v (walk_to v)) <$> doc_get b k).
  { intros k. unfold bw. clear. induction b as [|[k' v] b IH]; [done|]. cbn. by destruct (bool_decide _). }
  assert (Hkeys : bw.*1 = keys b) by (unfold bw, keys; by rewrite <- list_fmap_compose).
  rewrite Hkeys in Hw. destruct (key_set_spec (keys a ++ keys b)) as [Hn Hin].
  pose proof (proj1 (wf_doc a) Ha) as [Hna Hwa]. pose proof (proj1 (wf_doc b) Hwb) as [Hnb Hwb'].
  destruct (fold_delta (λ k, k) (walk_key a bw (join_dot parts) segments)
    (λ k E, describes E (doc_get a k) (doc_get b k)) parts Hp ew pt (key_set (keys a ++ keys b)) acc acc')
    as (S & U & C & D & Hh & HP & Hout).
  - by rewrite list_fmap_id.
  - rewrite Forall_forall. intros k [Hk|Hk]%Hin%elem_of_app; apply doc_get_key in Hk as [v Hk];
      [by eapply Hwa|by eapply Hwb'].
  - intros k acc1 acc2 Hk He1 Hpt1 Hf1. unfold walk_key. rewrite child_path_join, Hbw by done.
    assert (Hkp : plain k).
    { apply Hin, elem_of_app in Hk as [Hk|Hk]; apply doc_get_key in Hk as [v Hk]; [by eapply Hwa|by eapply Hwb']. }
    assert (Hpk : Forall plain (parts ++ [k])) by (apply Forall_app; auto).
    assert (Hnk : parts ++ [k] ≠ []) by (by destruct parts).
    destruct (doc_get a k) as [av|] eqn:Eav, (doc_get b k) as [bv|] eqn:Ebv; cbn [fmap option_fmap option_map new_value walk_from].
    + intros Hwk. rewrite Forall_forall in Hb. eapply (Hb (k, bv)); [by apply doc_get_elem|by eapply Hwa|by eapply Hwb'|done|done| | |done|done|done|exact Hwk].
      * rewrite get_snoc, Gpre. cbn. by rewrite Eav.
      * rewrite get_snoc, Gpost. cbn. by rewrite Ebv.
    + intros [= <-]. exists [], [([], tt)], []. split; [by apply delta_note_removed|]. apply ds_unset.
    + intros [= <-]. exists [([], bv)], [], []. split; [by apply delta_note_set|]. by apply ds_set.
    + done.
  - done.
  - done.
  - intros k _ key Hk Hpre. apply (Hf key Hk). etrans; [|exact Hpre]. by apply prefix_app_r.
  - exact Hw.
  - assert (Hheads : Forall (λ e : edit, e.1 ≠ []) (edits S U C)).
    { eapply Forall_impl; [exact Hh|]. intros e (x & r & _ & ->). done. }
    exists S, U, C. split; [done|]. split; [|done]. apply ds_doc; [done|done|].
    + intros k. destruct (decide (k ∈ key_set (keys a ++ keys b))) as [Hk|Hk]; [by apply HP|].
      rewrite Hout by (by rewrite list_fmap_id). rewrite Hin, elem_of_app in Hk.
      rewrite (proj2 (doc_get_None a k)), (proj2 (doc_get_None b k)) by tauto. apply ds_none.
Qed.

(** The elements of two arrays. *)
Definition reports (allowed : option (gset Z)) (i : nat) : bool :=
  match allowed with Some named => ⌊Z.of_nat i ∈ named⌋ | None => true end.

Section elements.
Context (a b : list Bson) (parts : list bytes) (segments : list Bson) (allowed : option (gset Z)).
Context (Hb : Forall walked b) (Ha : wf (Array a) = true) (Hwb : wf (Array b) = true).
Context (Hp : Forall plain parts) (Hne : parts ≠ []).
Context (Gpre : get_in_bson (Document pre0) parts = Some (Array a)).
Context (Gpost : get_in_bson (Document post0) parts = Some (Array b)).
Context (Hal : (length a < length b)%nat → reports allowed (length b - 1) = true ∧
  ∀ i x, (length a ≤ i)%nat → b !! i = Some x → reports allowed i = false → x = Null).
Let n := length b.

Definition element_edits (ib : nat * walker) (E : list edit) : Prop :=
  let '(i, bv) := ib in
  match a !! i with
  | None => E = if reports allowed i then [([], Set_ (new_value bv))] else []
  | Some av => describes E (Some av) (Some (new_value bv))
  end.

Lemma get_element v l i x : wf (Array l) = true → get_in_bson v parts = Some (Array l) → l !! i = Some x →
  get_in_bson v (parts ++ [dec_bytes (Z.of_nat i)]) = Some x.
Proof.
  intros Hl G Hx. rewrite get_snoc, G. cbn [mbind option_bind]. rewrite get_index.
  - by rewrite Hx.
  - apply wf_array in Hl as [Hs _]. apply lookup_lt_Some in Hx. unfold short in Hs. lia.
Qed.

Lemma walk_elements_spec acc acc' :
  elementwise acc = ew → push_targets acc = pt → fresh parts acc →
  fold_R (walk_element a (join_dot parts) segments allowed) (imap pair ((λ v, mkWalker v (walk_to v)) <$> b)) acc = Ok acc' →
  ∃ S U C, delta parts S U C acc acc' ∧
    describes (edits S U (C ++ if ⌊(n < length a)%nat⌋ then [([], n)] else [])) (Some (Array a)) (Some (Array b)).
Proof.
  intros He Hpt Hf Hw. set (bw := imap pair _) in Hw.
  assert (Hel : ∀ i w, (i, w) ∈ bw ↔ ∃ x, b !! i = Some x ∧ w = mkWalker x (walk_to x)).
  { intros i w. apply (elem_of_indexed (λ v, mkWalker v (walk_to v))). }
  destruct (fold_delta (λ ib : nat * walker, dec_bytes (Z.of_nat ib.1))
    (walk_element a (join_dot parts) segments allowed) element_edits parts Hp ew pt bw acc acc')
    as (S & U & C & D & Hh & HP & Hout).
  - apply index_keys_NoDup.
  - rewrite Forall_forall. intros [i w] _. apply dec_bytes_plain. cbn. lia.
  - intros [i w] acc1 acc2 (x & Hx & ->)%Hel He1 Hpt1 Hf1. unfold walk_element. cbn [fst] in Hf1 |- *.
    rewrite child_path_join by done. assert (Hpi : plain (dec_bytes (Z.of_nat i))) by (apply dec_bytes_plain; lia).
    assert (Hpk : Forall plain (parts ++ [dec_bytes (Z.of_nat i)])) by (apply Forall_app; auto).
    assert (Hnk : parts ++ [dec_bytes (Z.of_nat i)] ≠ []) by (by destruct parts). unfold element_edits.
    destruct (a !! i) as [av|] eqn:Eav; cbn [walk_from new_value].
    + rewrite Forall_forall in Hb. eapply (Hb x); [by eapply list_elem_of_lookup_2| | |done|done| | |done|done|done].
      * apply wf_array in Ha as [_ Ha']. by eapply Ha'.
      * apply wf_array in Hwb as [_ Hwb']. by eapply Hwb'.
      * eapply get_element; [exact Ha|exact Gpre|exact Eav].
      * eapply get_element; [exact Hwb|exact Gpost|exact Hx].
    + fold (reports allowed i). destruct (reports allowed i); intros [= <-].
      * exists [([], x)], [], []. split; [by apply delta_note_set|done].
      * exists [], [], []. split; [apply delta_refl|done].
  - done.
  - done.
  - intros k _ key Hk Hpre. apply (Hf key Hk). etrans; [|exact Hpre]. by apply prefix_app_r.
  - exact Hw.
  - exists S, U, C. split; [done|]. set (C' := if ⌊(n < length a)%nat⌋ then [([], n)] else []).
    assert (Htl : ∀ k, tails k (edits S U (C ++ C')) = tails k (edits S U C)).
    { intros k. rewrite !tails_edits, tl_app. unfold C'. destruct (bool_decide _); by rewrite app_nil_r. }
    assert (HC' : ∀ e, e ∈ edits S U (C ++ C') ↔ e ∈ edits S U C ∨ (e = ([], Cut n) ∧ (n < length a)%nat)).
    { intros e. rewrite <- (app_nil_r S), <- (app_nil_r U), edits_app, !app_nil_r. unfold C'.
      case_bool_decide; cbn; rewrite ?list_elem_of_singleton, ?elem_of_nil; naive_solver. }
    apply (describes_elements _ a b (reports allowed) (edits S U C)); [|..|exact HC'|exact Htl|exact Hal|].
    + by apply wf_array in Hwb as [? _].
    + rewrite Forall_forall in Hh. intros e He'.
      destruct (Hh e He') as ([i w] & r & (x & Hx & ->)%Hel & E1). exists i, r. split; [by eapply lookup_lt_Some|done].
    + intros i x Hx. apply (HP (i, mkWalker x (walk_to x))). apply Hel. eauto.
Qed.
End elements.

Lemma walk_arrays_spec a b parts segments acc acc' :
  Forall walked b → wf (Array a) = true → wf (Array b) = true → Forall plain parts → parts ≠ [] →
  get_in_bson (Document pre0) parts = Some (Array a) → get_in_bson (Document post0) parts = Some (Array b) →
  elementwise acc = ew → push_targets acc = pt → fresh parts acc →
  walk_arrays_with a ((λ v, mkWalker v (walk_to v)) <$> b) (Array b) (join_dot parts) segments acc = Ok acc' →
  ∃ S U C, delta parts S U C acc acc' ∧ describes (edits S U C) (Some (Array a)) (Some (Array b)).
Proof.
  intros Hb Ha Hwb Hp Hne Gpre Gpost He Hpt Hf. unfold walk_arrays_with. rewrite length_fmap.
  assert (Hwhole : Ok (E := Fallback) (note_set (join_dot parts) segments (Array b) acc) = Ok acc' →
    ∃ S U C, delta parts S U C acc acc' ∧ describes (edits S U C) (Some (Array a)) (Some (Array b))).
  { intros [= <-]. exists [([], Array b)], [], []. split; [by apply delta_note_set|]. by apply ds_set. }
  destruct (elementwise acc) as [paths|] eqn:Eew.
  - destruct (paths !! join_dot parts) as [allowed|] eqn:Eal; [|done].
    destruct (_ || _) eqn:Ewhole; [done|]. apply orb_false_iff in Ewhole as [Hlen%bool_decide_eq_false _]. intros Hw.
    destruct (walk_elements_spec a b parts segments allowed Hb Ha Hwb Hp Hne Gpre Gpost) with (acc := acc) (acc' := acc')
      as (S & U & C & D & Hd); [|by rewrite Eew|done|done|exact Hw|].
    + intros Hlt. unfold reports. destruct allowed as [named|]; [|done].
      destruct (Hpad paths (join_dot parts) named a b) as [Hl Hx]; [congruence|done| | |done|].
      1,2: unfold get_path; by rewrite split_plain.
      rewrite bool_decide_true by done. split; [done|]. intros i x Hi Hbi Hr%bool_decide_eq_false. by eapply Hx.
    + rewrite bool_decide_false in Hd by done. rewrite app_nil_r in Hd. eauto.
  - intros (acc1 & Hw & Hcut)%bind_Ok.
    destruct (walk_elements_spec a b parts segments None Hb Ha Hwb Hp Hne Gpre Gpost) with (acc := acc) (acc' := acc1)
      as (S & U & C & D & Hd); [done|by rewrite Eew|done|done|exact Hw|].
    case_bool_decide; injection Hcut as <-.
    + eexists _, _, _. split; [apply delta_note_truncated; [|done]|done]. by apply wf_array in Hwb as [? _].
    + rewrite app_nil_r in Hd. eauto.
Qed.

Lemma walk_to_spec post : walked post.
Proof.
  induction post as [b IH|b IH|post Hc] using bson_tree_ind;
    intros pre parts segments acc acc' Hpre Hpost Hp Hne Gpre Gpost He Hpt Hf Hw.
  - pose proof (walk_leaf_spec pre (Array b) parts segments acc acc' Hpre Hpost Hp Hne Hf) as Hleaf. rewrite walk_to_array in Hw.
    destruct pre as [| |a| | | | | | | | | | | | | | | | | | ]; try (by apply Hleaf).
    apply bind_Ok in Hw as (same & Hs & Hw). destruct same; [|by eapply walk_arrays_spec].
    injection Hw as <-. exists [], [], []. split; [apply delta_refl|]. apply same_encoding_describes; [done|done|].
    unfold same_stored_value in Hs. destruct (same_encoding (Array a) (Array b)) eqn:E; [done|].
    destruct (_ || _); [done|]. apply bind_Ok in Hs as (e & _ & Hs). by destruct e.
  - pose proof (walk_leaf_spec pre (Document b) parts segments acc acc' Hpre Hpost Hp Hne Hf) as Hleaf. rewrite walk_to_document in Hw.
    destruct pre as [| | |a| | | | | | | | | | | | | | | | | ]; try (by apply Hleaf).
    destruct (walk_docs_spec a b parts segments acc acc') as (S & U & C & D & Hd & _); eauto.
  - assert (Hleaf : walk_leaf pre post (join_dot parts) segments acc = Ok acc') by (by destruct post).
    by eapply walk_leaf_spec.
Qed.
End walk.
