(* ===== verification/DiffProps.v ===== *)
(** * Update descriptions: replay gives back the document

    Applying a description to the old document gives the new one, up to the order
    of fields: what point-in-time recovery and the post-images of change streams
    rely on. *)
From stdpp Require Import strings.
From S2P Require Import Prelude RustM Lex Bson Docs Numeric Order BsonDoc Paths Diff PathsFacts DiffEdits.
From S2P Require Import DiffWalk.
Local Open Scope Z_scope.
Local Open Scope secantus_scope.

(** ** The edits an accumulator stands for *)

Definition path_edits {A} (f : A → op) (l : list (bytes * A)) : list edit :=
  (λ e : bytes * A, (split_dot e.1, f e.2)) <$> l.

(** [us] is the paths removed, [cs] the arrays cut short. *)
Record acc_edits (acc : Acc) (us : list (bytes * ())) (cs : list (bytes * nat)) : Prop := {
  ae_removed : removed acc = (λ u : bytes * (), String u.1) <$> us;
  ae_truncated : truncated acc = (λ c : bytes * nat, cut_entry c.1 c.2) <$> cs;
  ae_short : Forall (λ c : bytes * nat, short c.2) cs;
}.

Definition all_edits (acc : Acc) (us : list (bytes * ())) (cs : list (bytes * nat)) : list edit :=
  path_edits Set_ (updated acc) ++ path_edits (λ _, Unset) us ++ path_edits Cut cs.

Lemma path_edits_split {A} (f : A → op) l : ∀ e, e ∈ path_edits f l → e.1 ≠ [].
Proof.
  intros e (x & -> & _)%list_elem_of_fmap. cbn. by destruct (split_dot_cons x.1) as (? & ? & ->).
Qed.

Section replay.
Context `{BsonCrate}.

(** ** Applying a description *)

Lemma act_document d parts o v :
  parts ≠ [] → act_opt (Some (Document d)) (parts, o) = Ok v →
  ∃ d', v = Some (Document d') ∧ act (Document d) (parts, o) = Ok (Document d').
Proof.
  destruct parts as [|h r]; [done|]. intros _ Hact.
  assert (Hdoc : ∀ x w, set_in_bson (Document d) (h :: r) x = Ok w → ∃ d', w = Document d').
  { intros x w. cbn. destruct (set_field _ _ _ _ _); [intros [= <-]; eauto|done..]. }
  cbn in Hact. destruct (act (Document d) (h :: r, o)) as [w| | |] eqn:E; try done. injection Hact as <-.
  enough (∃ d', w = Document d') as [d' ->] by eauto. unfold act in E. cbn [fst snd] in E.
  destruct o as [x| |n]; [by eapply Hdoc|injection E as <-; eauto|].
  destruct (get_in_bson (Document d) (h :: r)) as [[]|]; try (injection E as <-; eauto).
  destruct (_ <? _); [by eapply Hdoc|injection E as <-; eauto].
Qed.

(** A fold of edits of a document, one kind of entry at a time. *)
Lemma fold_entries {A X} (f : A → op) (l : list (bytes * A)) (entry : bytes * A → X) (step : Doc → X → R Doc) d v :
  (∀ d d' x, x ∈ l → act (Document d) (split_dot x.1, f x.2) = Ok (Document d') → step d (entry x) = Ok d') →
  fold_R act_opt (path_edits f l) (Some (Document d)) = Ok v →
  ∃ d', v = Some (Document d') ∧ fold_R step (entry <$> l) d = Ok d'.
Proof.
  revert d. induction l as [|x l IH]; intros d Hstep Hf; [injection Hf as <-; eauto|].
  unfold path_edits in Hf. rewrite fmap_cons in Hf. cbn [fold_R] in Hf. apply bind_Ok in Hf as (v1 & Hx & Hf).
  apply act_document in Hx as (d1 & -> & Hact); [|by destruct (split_dot_cons x.1) as (? & ? & ->)].
  destruct (IH d1) as (d' & -> & Hd'); [intros ????; apply Hstep; by right|exact Hf|].
  exists d'. split; [done|]. rewrite fmap_cons. cbn [fold_R]. by rewrite (Hstep _ _ _ ltac:(left) Hact).
Qed.

Lemma set_in_document d parts v d' :
  set_in_bson (Document d) parts v = Ok (Document d') → set_in_doc d parts v = Ok d'.
Proof.
  destruct parts as [|h r]; [done|]. cbn. destruct (set_field _ _ _ _ _); cbn; congruence.
Qed.

Lemma new_size_entry path n :
  short n → get_str [(lit "field", String path); (lit "newSize", Int32 (as_i32 (Z.of_nat n)))] (lit "field") = Some path ∧
  new_size [(lit "field", String path); (lit "newSize", Int32 (as_i32 (Z.of_nat n)))] = Some (Z.of_nat n).
Proof.
  intros Hn. unfold short, MAX_LIST_GROW_INDEX in Hn.
  assert (E : as_i32 (Z.of_nat n) = Z.of_nat n).
  { unfold as_i32, signed, wrap. rewrite Z.mod_small by lia. by rewrite (proj2 (Z.ltb_lt _ _)) by lia. }
  split; [done|]. rewrite E. change (Some (wrap 64 (Z.of_nat n)) = Some (Z.of_nat n)).
  unfold wrap. by rewrite Z.mod_small by lia.
Qed.

Lemma apply_description acc us cs d v :
  acc_edits acc us cs → fold_R act_opt (all_edits acc us cs) (Some (Document d)) = Ok v →
  ∃ d', v = Some (Document d') ∧ apply_update_description d (description acc) = Ok d'.
Proof.
  intros [Er Et Hs] Hf. unfold all_edits in Hf. rewrite fold_R_app in Hf. apply bind_Ok in Hf as (v1 & H1 & Hf).
  rewrite fold_R_app in Hf. apply bind_Ok in Hf as (v2 & H2 & H3).
  apply (fold_entries Set_ _ id apply_set) in H1 as (d1 & -> & E1).
  2: { intros d0 d0' [p x] _ Hact. unfold act in Hact. unfold apply_set, set_path, id. cbn [fst snd] in *. by rewrite (set_in_document _ _ _ _ Hact). }
  apply (fold_entries (λ _, Unset) _ (λ u : bytes * (), String u.1) (λ d p, Ok (apply_removed d p))) in H2 as (d2 & -> & E2).
  2: { intros d0 d0' [p []] _ Hact. cbn in Hact |- *. unfold unset_path, unset_in_doc.
       destruct (split_dot_cons p) as (h & r & E). rewrite E in *. cbn in Hact. congruence. }
  apply (fold_entries Cut _ (λ c : bytes * nat, cut_entry c.1 c.2) apply_truncated) in H3 as (d3 & -> & E3).
  2: { intros d0 d0' [p n] Hin Hact. rewrite Forall_forall in Hs. destruct (new_size_entry p n (Hs _ Hin)) as [Ef En].
       unfold cut_entry, apply_truncated. cbn [fst snd]. rewrite Ef, En. unfold act, get_path, set_path in *. cbn [fst snd] in Hact.
       destruct (get_in_bson (Document d0) (split_dot p)) as [[]|]; try congruence.
       destruct (_ <? _); [|congruence]. rewrite Nat2Z.id. by rewrite (set_in_document _ _ _ _ Hact). }
  exists d3. split; [done|]. rewrite list_fmap_id in E1. rewrite <- Er in E2. rewrite <- Et in E3.
  assert (E2' : foldl apply_removed d1 (removed acc) = d2).
  { clear -E2. revert d1 E2. induction (removed acc) as [|p l IH]; intros d1 E2; [by injection E2|]. by apply IH. }
  unfold apply_update_description.
  change (get_document (description acc) (lit "updatedFields")) with (Some (updated acc)).
  change (get_array (description acc) (lit "removedFields")) with (Some (removed acc)).
  change (get_array (description acc) (lit "truncatedArrays")) with (Some (truncated acc)).
  cbv beta iota zeta. rewrite E1. cbn [mbind outcome_bind]. by rewrite E2'.
Qed.

(** ** Reporting whole values *)

Lemma filter_id {A} (P : A → Prop) `{∀ x, Decision (P x)} (l : list A) : (∀ x, x ∈ l → P x) → filter P l = l.
Proof.
  induction l as [|x l IH]; intros Hl; [done|]. rewrite filter_cons, decide_True by (apply Hl; left).
  f_equal. apply IH. intros y Hy. apply Hl. by right.
Qed.

Lemma filter_map {A B} (g : A → B) (P : B → Prop) (Q : A → Prop) `{∀ x, Decision (P x)} `{∀ x, Decision (Q x)} (l : list A) :
  (∀ x, P (g x) ↔ Q x) → filter P (g <$> l) = g <$> filter Q l.
Proof.
  intros HPQ. induction l as [|x l IH]; [done|]. rewrite fmap_cons, !filter_cons.
  destruct (decide (P (g x))) as [HP|HP], (decide (Q x)) as [HQ|HQ]; try (by destruct HP; apply HPQ); try (by destruct HQ; apply HPQ).
  - by rewrite fmap_cons, IH.
  - exact IH.
Qed.

Definition clear_of {A} (path : bytes) (l : list (bytes * A)) : list (bytes * A) :=
  filter (λ e : bytes * A, below path e.1 = false) l.

Lemma kept_path_edits {A} (f : A → op) path b (l : list (bytes * A)) :
  (∀ x, is_set ([], f x) = b) →
  kept (split_dot path) b (path_edits f l) = path_edits f (clear_of path l) ∧ kept (split_dot path) (negb b) (path_edits f l) = [].
Proof.
  intros Hf. unfold kept, path_edits, clear_of. split.
  - apply (filter_map (λ e : bytes * A, (split_dot e.1, f e.2))). intros [k x]. cbn [fst snd].
    rewrite <- below_prefix, not_true_iff_false. specialize (Hf x). unfold is_set in *. cbn in *. tauto.
  - induction l as [|[k x] l IH]; [done|]. rewrite fmap_cons, filter_cons, decide_False; [done|].
    intros [Hs _]. specialize (Hf x). unfold is_set in *. cbn in *. rewrite Hf in Hs. by destruct b.
Qed.

Lemma collapse_all_edits path w acc us cs :
  collapse (split_dot path) w (all_edits acc us cs) =
  path_edits Set_ (clear_of path (updated acc) ++ [(path, w)])
    ++ path_edits (λ _, Unset) (clear_of path us) ++ path_edits Cut (clear_of path cs).
Proof.
  unfold collapse, all_edits, kept at 1 2. rewrite !filter_app.
  destruct (kept_path_edits Set_ path true (updated acc)) as [E1 E2]; [done|].
  destruct (kept_path_edits (λ _ : (), Unset) path false us) as [E3 E4]; [done|].
  destruct (kept_path_edits Cut path false cs) as [E5 E6]; [done|]. unfold kept in *. cbn [negb] in *.
  rewrite E1, E2, E3, E4, E5, E6. unfold path_edits at 4. rewrite fmap_app, <- !app_assoc. done.
Qed.

Lemma field_below_cut path c : field_below path (cut_entry c.1 c.2) = below path c.1.
Proof. done. Qed.

Lemma whole_entry_edits post acc path w :
  updated (whole_entry post path w acc) = clear_of path (updated acc) ++ [(path, w)] ∧
  removed (whole_entry post path w acc) = filter (λ r, is_below path r = false) (removed acc) ∧
  truncated (whole_entry post path w acc) = filter (λ t, field_below path t = false) (truncated acc).
Proof.
  unfold whole_entry. match goal with |- context [record_ambiguous ?p ?s ?a] =>
    destruct (record_ambiguous_frame p s a) as (-> & -> & -> & _) end.
  split; [|done]. apply insert_fresh. unfold keys. intros (x & -> & [Hx _]%list_elem_of_filter)%list_elem_of_fmap.
  unfold below in Hx. by rewrite bool_decide_true in Hx by done.
Qed.

Lemma report_whole_edits post acc us cs path always :
  acc_edits acc us cs →
  ∃ us' cs', acc_edits (report_whole post acc (path, always)) us' cs' ∧
    (all_edits (report_whole post acc (path, always)) us' cs' = all_edits acc us cs ∨
     ∃ w, get_path post path = Some w ∧
       all_edits (report_whole post acc (path, always)) us' cs' = collapse (split_dot path) w (all_edits acc us cs)).
Proof.
  intros [Er Et Hs]. unfold report_whole. destruct (get_path post path) as [w|] eqn:Ew; [|exists us, cs; auto using Build_acc_edits].
  assert (Fr : filter (λ r, is_below path r = false) (removed acc) = (λ u : bytes * (), String u.1) <$> clear_of path us).
  { rewrite Er. by apply (filter_map (λ u : bytes * (), String u.1)). }
  assert (Ft : filter (λ t, field_below path t = false) (truncated acc) = (λ c : bytes * nat, cut_entry c.1 c.2) <$> clear_of path cs).
  { rewrite Et. apply (filter_map (λ c : bytes * nat, cut_entry c.1 c.2)). intros c. by rewrite field_below_cut. }
  assert (Fs : Forall (λ c : bytes * nat, short c.2) (clear_of path cs)).
  { rewrite Forall_forall in Hs |- *. intros c [_ Hc]%list_elem_of_filter. auto. }
  destruct (whole_entry_edits post acc path w) as (R1 & R2 & R3). destruct (_ || always) eqn:Etouch.
  { exists (clear_of path us), (clear_of path cs). split; [split; [by rewrite R2|by rewrite R3|done]|].
    right. exists w. split; [done|]. rewrite collapse_all_edits. unfold all_edits. by rewrite R1. }
  apply orb_false_iff in Etouch as [Etouch _].
  apply orb_false_iff in Etouch as [[E1 E2]%orb_false_iff E3].
  assert (Cu : clear_of path us = us).
  { apply filter_id. intros u Hu. apply (existsb_none _ _ E2 (String u.1)). rewrite Er. by apply (list_elem_of_fmap_2 (λ u : bytes * (), String u.1)). }
  assert (Cc : clear_of path cs = cs).
  { apply filter_id. intros c Hc. rewrite <- field_below_cut. apply (existsb_none _ _ E3). rewrite Et.
    by apply (list_elem_of_fmap_2 (λ c : bytes * nat, cut_entry c.1 c.2)). }
  exists us, cs. rewrite Cu in Fr. rewrite Cc in Ft. split; [split; [exact Fr|exact Ft|done]|]. by left.
Qed.

Lemma all_edits_phased acc us cs : phased (all_edits acc us cs).
Proof.
  assert (E : ∀ A (g : A → op) l, path_edits g l = (λ e : list bytes * A, (e.1, g e.2)) <$> ((λ e : bytes * A, (split_dot e.1, e.2)) <$> l)).
  { intros A g l. by rewrite <- list_fmap_compose. }
  unfold all_edits. rewrite !E. apply (edits_phased _ ((λ e : bytes * (), (split_dot e.1, e.2)) <$> us) _).
Qed.

Definition canonical_path (path : bytes) : Prop := Forall canonical (split_dot path).

Lemma report_all post targets acc us cs ov :
  wf (Document post) = true → Forall (λ t : bytes * bool, canonical_path t.1) targets → acc_edits acc us cs →
  describes (all_edits acc us cs) ov (Some (Document post)) →
  ∃ us' cs', acc_edits (foldl (report_whole post) acc targets) us' cs' ∧
    describes (all_edits (foldl (report_whole post) acc targets) us' cs') ov (Some (Document post)).
Proof.
  intros Hpost Ht. revert acc us cs. induction Ht as [|[path always] targets Hp _ IH]; intros acc us cs Ha Hd; [eauto|].
  cbn [foldl]. destruct (report_whole_edits post acc us cs path always Ha) as (us1 & cs1 & Ha1 & HE).
  eapply IH; [exact Ha1|]. destruct HE as [->|(w & Hw & ->)]; [done|].
  apply collapse_describes; [done|exact Hp|exact Hw|apply all_edits_phased|done].
Qed.

(** ** The outcome of a comparison and of a walk *)

(** No symbol, no undefined, no DBPointer at any depth. *)
Fixpoint comparable (v : Bson) : bool :=
  match v with
  | Symbol _ | Undefined | DbPointer _ _ => false
  | Array a => forallb comparable a
  | Document d => forallb (λ e : bytes * Bson, comparable e.2) d
  | _ => true
  end.

(** The code returns, and defers only when [c] does not hold. *)
Definition decides {A} (c : bool) (o : R A) : Prop :=
  match o with Ok _ => True | Err Defer => c = false | _ => False end.

Lemma decides_bind {A B} c (m : R A) (f : A → R B) :
  decides c m → (∀ a, m = Ok a → decides c (f a)) → decides c (m ≫= f).
Proof. destruct m as [a|[]| |]; cbn; auto. Qed.

Lemma decides_fold {A B} c (f : B → A → R B) l b :
  (∀ b x, x ∈ l → decides c (f b x)) → decides c (fold_R f l b).
Proof.
  revert b. induction l as [|x l IH]; intros b Hf; [done|]. cbn [fold_R]. apply decides_bind; [apply Hf; left|].
  intros b' _. apply IH. intros b0 y Hy. apply Hf. by right.
Qed.

Lemma decides_weaken {A} c c' (o : R A) : decides c o → (c' = true → c = true) → decides c' o.
Proof. destruct o as [|[]| |]; cbn; [done| |done..]. destruct c, c'; auto. intros _ Hc. by specialize (Hc eq_refl). Qed.

Lemma guarded_eq_decides c a b inside :
  decides c inside → (is_js a || is_js b = false → is_exotic a || is_exotic b = true → c = false) →
  decides c (guarded_eq a b inside).
Proof.
  intros Hin Hex. unfold guarded_eq. destruct (is_js a || is_js b); [done|]. specialize (Hex eq_refl).
  destruct (is_decimal a || is_decimal b).
  - destruct (is_exotic a || is_exotic b); [by apply Hex|].
    destruct (classify dec_to_string a), (classify dec_to_string b); try done. by destruct (_ || _).
  - destruct (is_exotic a || is_exotic b); [by apply Hex|]. destruct (negb _); [done|].
    destruct (_ || _); [done|]. destruct (fast_cmp_numberish a b); [done|]. by destruct (negb _).
Qed.

Lemma exotic_incomparable a b :
  is_js a || is_js b = false → is_exotic a || is_exotic b = true → comparable a && comparable b = false.
Proof.
  assert (Hone : ∀ v, is_js v = false → is_exotic v = true → comparable v = false) by (intros []; done).
  intros [Ja Jb]%orb_false_iff [E|E]%orb_true_iff; apply andb_false_iff; [left|right]; auto.
Qed.

Lemma py_eq_array a b :
  Forall (λ x, ∀ y, decides (comparable x && comparable y) (py_eq None x y)) a →
  decides (comparable (Array a) && comparable (Array b)) (py_eq None (Array a) (Array b)).
Proof.
  intros IH. cbn [py_eq]. apply guarded_eq_decides; [|apply exotic_incomparable]. case_bool_decide as Hl; [|done]. clear Hl.
  revert b. induction IH as [|x a Hx _ IHa]; intros [|y b]; try done.
  apply decides_bind; [eapply decides_weaken; [apply Hx|cbn; rewrite !andb_true_iff; tauto]|]. intros [] _; [|done].
  eapply decides_weaken; [apply IHa|cbn; rewrite !andb_true_iff; tauto].
Qed.

Lemma py_eq_document a b :
  Forall (λ e : bytes * Bson, ∀ y, decides (comparable e.2 && comparable y) (py_eq None e.2 y)) a →
  decides (comparable (Document a) && comparable (Document b)) (py_eq None (Document a) (Document b)).
Proof.
  intros IH. cbn [py_eq]. apply guarded_eq_decides; [|apply exotic_incomparable]. case_bool_decide as Hl; [|done]. clear Hl.
  revert b. induction IH as [|[k x] a Hx _ IHa]; intros [|[k' y] b]; try done. case_bool_decide; [|done].
  apply decides_bind; [eapply decides_weaken; [apply Hx|cbn; rewrite !andb_true_iff; tauto]|]. intros [] _; [|done].
  eapply decides_weaken; [apply IHa|cbn; rewrite !andb_true_iff; tauto].
Qed.

Lemma py_eq_decides a b : decides (comparable a && comparable b) (py_eq None a b).
Proof.
  revert b. induction a as [a IH|a IH|a Hc] using bson_tree_ind; intros b.
  - destruct b; lazymatch goal with
    | |- decides _ (py_eq _ _ (Array _)) => by apply py_eq_array
    | _ => cbn [py_eq]; apply guarded_eq_decides; [exact I|apply exotic_incomparable]
    end.
  - destruct b; lazymatch goal with
    | |- decides _ (py_eq _ _ (Document _)) => by apply py_eq_document
    | _ => cbn [py_eq]; apply guarded_eq_decides; [exact I|apply exotic_incomparable]
    end.
  - destruct a; try discriminate Hc; destruct b; cbn [py_eq];
      lazymatch goal with
      | |- decides _ (guarded_eq _ _ _) => apply guarded_eq_decides; [exact I|apply exotic_incomparable]
      | _ => exact I
      end.
Qed.

Lemma same_stored_value_decides a b : decides (comparable a && comparable b) (same_stored_value a b).
Proof.
  unfold same_stored_value. destruct (same_encoding a b); [done|]. destruct (_ || _); [done|].
  apply decides_bind; [apply py_eq_decides|]. by intros [] _.
Qed.

Lemma walk_leaf_decides pre post path segments acc :
  decides (comparable pre && comparable post) (walk_leaf pre post path segments acc).
Proof. unfold walk_leaf. apply decides_bind; [apply same_stored_value_decides|]. by intros [] _. Qed.

Lemma comparable_field d k v : comparable (Document d) = true → doc_get d k = Some v → comparable v = true.
Proof.
  cbn. rewrite forallb_forall. intros Hd Hk%doc_get_elem%list_elem_of_In. by apply (Hd (k, v)).
Qed.

Lemma comparable_item a i v : comparable (Array a) = true → a !! i = Some v → comparable v = true.
Proof.
  cbn. rewrite forallb_forall. intros Ha Hi%list_elem_of_lookup_2%list_elem_of_In. by apply Ha.
Qed.

Definition walk_decides (post : Bson) : Prop := ∀ pre path segments acc,
  decides (comparable pre && comparable post) (walk_to post pre path segments acc).

Lemma walk_docs_decides a b path segments acc :
  Forall (λ e : bytes * Bson, walk_decides e.2) b →
  decides (comparable (Document a) && comparable (Document b)) (walk_docs a b path segments acc).
Proof.
  intros IH. unfold walk_docs, walk_docs_with. apply decides_fold. intros acc1 k Hk. unfold walk_key.
  set (bw := _ <$> b) in *.
  assert (Hbw : ∀ k, doc_get bw k = (λ v, mkWalker v (walk_to v)) <$> doc_get b k).
  { intros j. unfold bw. clear. induction b as [|[k' v] b IH]; [done|]. cbn. by destruct (bool_decide _). }
  rewrite Hbw. destruct (doc_get a k) as [av|] eqn:Ea, (doc_get b k) as [bv|] eqn:Eb; cbn [fmap option_fmap option_map walk_from]; try done.
  - rewrite Forall_forall in IH. eapply decides_weaken; [apply (IH (k, bv)); by apply doc_get_elem|].
    intros [Ha Hb]%andb_true_iff. apply andb_true_iff. split; [by eapply (comparable_field a)|by eapply (comparable_field b)].
  - apply key_set_spec, elem_of_app in Hk as [Hk|Hk].
    + apply doc_get_key in Hk as [? Hk]. congruence.
    + assert (Hk' : k ∈ keys b).
      { assert (Eb' : bw.*1 = keys b) by (unfold bw, keys; by rewrite <- list_fmap_compose). by rewrite <- Eb'. }
      apply doc_get_key in Hk' as [? Hk']. congruence.
Qed.

Lemma walk_arrays_decides a b post path segments acc :
  Forall walk_decides b →
  decides (comparable (Array a) && comparable (Array b))
    (walk_arrays_with a ((λ v, mkWalker v (walk_to v)) <$> b) post path segments acc).
Proof.
  intros IH. assert (Hel : ∀ allowed acc0, decides (comparable (Array a) && comparable (Array b))
    (fold_R (walk_element a path segments allowed) (imap pair ((λ v, mkWalker v (walk_to v)) <$> b)) acc0)).
  { intros allowed acc0. apply decides_fold. intros acc1 [i w] (j & y & [= <- <-] & Hy)%elem_of_lookup_imap.
    rewrite list_lookup_fmap in Hy. destruct (b !! i) as [x|] eqn:Ex; [|done]. cbn in Hy. injection Hy as <-.
    unfold walk_element. destruct (a !! i) as [av|] eqn:Ea; cbn [walk_from]; [|by destruct allowed; [case_bool_decide|]].
    rewrite Forall_forall in IH. eapply decides_weaken; [apply (IH x); by eapply list_elem_of_lookup_2|].
    intros [Ha Hb]%andb_true_iff. apply andb_true_iff. split; [by eapply (comparable_item a)|by eapply (comparable_item b)]. }
  unfold walk_arrays_with. destruct (elementwise acc) as [paths|].
  - destruct (paths !! path); [|done]. destruct (_ || _); [done|apply Hel].
  - apply decides_bind; [apply Hel|]. intros acc1 _. by destruct (bool_decide _).
Qed.

Lemma walk_to_decides post : walk_decides post.
Proof.
  induction post as [b IH|b IH|post Hc] using bson_tree_ind; intros pre path segments acc.
  - pose proof (walk_leaf_decides pre (Array b) path segments acc) as Hleaf. rewrite walk_to_array.
    destruct pre as [| |a| | | | | | | | | | | | | | | | | | ]; try exact Hleaf.
    apply decides_bind; [apply same_stored_value_decides|]. intros [] _; [done|]. by apply walk_arrays_decides.
  - pose proof (walk_leaf_decides pre (Document b) path segments acc) as Hleaf. rewrite walk_to_document.
    destruct pre as [| | |a| | | | | | | | | | | | | | | | | ]; try exact Hleaf. by apply walk_docs_decides.
  - pose proof (walk_leaf_decides pre post path segments acc). by destruct post.
Qed.

(** ** Replay *)

(** A walk from nothing leaves the edits it added. *)
Lemma delta_edits S U C acc0 acc :
  updated acc0 = [] → removed acc0 = [] → truncated acc0 = [] →
  delta [] S U C acc0 acc → Forall (λ e : edit, e.1 ≠ []) (edits S U C) →
  ∃ us cs, acc_edits acc us cs ∧ all_edits acc us cs = edits S U C.
Proof.
  intros E1 E2 E3 [D1 D2 D3 _ _ D6 D7] Hne. rewrite E1 in D1. rewrite E2 in D2. rewrite E3 in D3.
  exists ((λ e : list bytes * (), (join_dot e.1, tt)) <$> U), ((λ e : list bytes * nat, (join_dot e.1, e.2)) <$> C).
  cbn [app] in D1, D2, D3. split; [split|].
  - rewrite D2, <- list_fmap_compose. done.
  - rewrite D3, <- list_fmap_compose. done.
  - by apply Forall_fmap.
  - assert (Hsplit : ∀ e, e ∈ edits S U C → split_dot (join_dot e.1) = e.1).
    { intros e He. rewrite Forall_forall in D6, Hne. apply split_plain; auto. }
    unfold all_edits, path_edits, edits in *. rewrite D1, <- !list_fmap_compose.
    f_equal; [|f_equal]; apply list_fmap_ext; intros i [p x] Hin%list_elem_of_lookup_2; cbn; f_equal.
    + apply (Hsplit (p, Set_ x)), elem_of_app. left. by apply (list_elem_of_fmap_2 (λ e : list bytes * Bson, (e.1, Set_ e.2)) S (p, x)).
    + apply (Hsplit (p, Unset)), elem_of_app. right. apply elem_of_app. left.
      by apply (list_elem_of_fmap_2 (λ e : list bytes * (), (e.1, Unset)) U (p, x)).
    + apply (Hsplit (p, Cut x)), elem_of_app. right. apply elem_of_app. right.
      by apply (list_elem_of_fmap_2 (λ e : list bytes * nat, (e.1, Cut e.2)) C (p, x)).
Qed.

Lemma walk_docs_edits pre post update acc :
  wf (Document pre) = true → wf (Document post) = true → padded pre post (elementwise_array_paths <$> update) →
  walk_docs pre post [] [] (acc_new update) = Ok acc →
  ∃ us cs, acc_edits acc us cs ∧ describes (all_edits acc us cs) (Some (Document pre)) (Some (Document post)).
Proof.
  intros Hpre Hpost Hpad Hw.
  destruct (walk_docs_spec pre post (elementwise_array_paths <$> update) (push_targets (acc_new update))
    pre post [] [] (acc_new update) acc) as (S & U & C & D & Hd & Hne); try done.
  - apply Forall_forall. intros e _. by apply walk_to_spec.
  - intros key Hin. elem_nil.
  - destruct (delta_edits S U C (acc_new update) acc) as (us & cs & Ha & E); [done..|].
    exists us, cs. split; [done|]. by rewrite E.
Qed.

Lemma described_applies leaf acc us cs pre post :
  acc_edits acc us cs → describes_by leaf (all_edits acc us cs) (Some (Document pre)) (Some (Document post)) →
  ∃ doc, apply_update_description pre (description acc) = Ok doc ∧ same_by leaf (Document doc) (Document post).
Proof.
  intros Ha Hd. destruct (describes_applies _ _ _ Hd) as (r & Hr & Hsame).
  destruct (apply_description _ _ _ _ _ Ha Hr) as (doc & -> & Hdoc). exists doc. split; [done|]. by inversion Hsame.
Qed.

End replay.


(** ** Long arrays *)

Section long.
Context `{BsonCrate}.

Lemma same_stored_comparable a b :
  comparable a = true → comparable b = true → same_encoding a b = false → same_stored_value a b = Ok false.
Proof.
  intros Ha Hb Hs. pose proof (same_stored_value_decides a b) as Hd. rewrite Ha, Hb in Hd.
  unfold same_stored_value in *. rewrite Hs in *. destruct (_ || _); [done|].
  by destruct (eq a b) as [[]|[]| |].
Qed.

Definition ints (l : list Z) : Bson := Array (Int32 <$> l).

Lemma ints_differ l l' i x y :
  l !! i = Some x → l' !! i = Some y → x ≠ y → same_stored_value (ints l) (ints l') = Ok false.
Proof.
  intros Hx Hy Hne. assert (Hc : ∀ l, comparable (ints l) = true).
  { intros k. cbn. apply forallb_forall. intros v (z & <- & _)%in_map_iff. done. }
  apply same_stored_comparable; [done|done|]. apply not_true_is_false. intros Hs.
  apply same_encoding_array in Hs. apply Hne, Z.eqb_eq.
  apply (Forall2_lookup_lr _ _ _ i (Int32 x) (Int32 y) Hs); by rewrite list_lookup_fmap, ?Hx, ?Hy.
Qed.

Definition int_walker (x : Z) : walker := mkWalker (Int32 x) (walk_to (Int32 x)).

Lemma walk_int a path segments acc i x y :
  a !! i = Some x →
  walk_element (Int32 <$> a) path segments None acc (i, int_walker y) =
    Ok (if x =? y then acc
        else note_set (child_path path (dec_bytes (Z.of_nat i))) (segments ++ [Int32 (as_i32 (Z.of_nat i))]) (Int32 y) acc).
Proof.
  intros Hx. unfold walk_element. rewrite list_lookup_fmap, Hx. cbn. unfold walk_leaf.
  destruct (Z.eqb_spec x y) as [->|Hne]; [unfold same_stored_value; cbn; by rewrite Z.eqb_refl|].
  rewrite same_stored_comparable; [done|done|done|]. by apply Z.eqb_neq.
Qed.

(** Elements that are as they were leave no trace. *)
Lemma walk_equal (a l : list Z) k path segments acc :
  (∀ j x, l !! j = Some x → a !! (k + j)%nat = Some x) →
  fold_R (walk_element (Int32 <$> a) path segments None) (imap (λ j w, ((k + j)%nat, w)) (int_walker <$> l)) acc = Ok acc.
Proof.
  revert k. induction l as [|x l IH]; intros k Ha; [done|]. rewrite fmap_cons. cbn [imap fold_R].
  rewrite (walk_int _ _ _ _ _ _ _ (Ha 0%nat x eq_refl)), Z.eqb_refl. cbn [mbind outcome_bind].
  etrans; [|apply (IH (S k))]; [|intros j y Hj; rewrite <- (Ha (S j) y Hj); f_equal; lia].
  f_equal. apply imap_ext. intros j w _. cbn. f_equal. lia.
Qed.

Lemma walk_changed (a : list Z) i x y path segments acc :
  a !! i = Some x → x ≠ y →
  fold_R (walk_element (Int32 <$> a) path segments None) (imap pair (int_walker <$> <[i := y]> a)) acc =
    Ok (note_set (child_path path (dec_bytes (Z.of_nat i))) (segments ++ [Int32 (as_i32 (Z.of_nat i))]) (Int32 y) acc).
Proof.
  intros Hx Hne. pose proof (lookup_lt_Some _ _ _ Hx) as Hlt.
  rewrite insert_take_drop by done. rewrite fmap_app, fmap_cons, imap_app, fold_R_app.
  rewrite (walk_equal a (take i a) 0) by (intros j z Hj; apply lookup_take_Some in Hj as [? _]; done).
  cbn [mbind outcome_bind imap fold_R]. rewrite length_fmap, length_take, Nat.min_l, Nat.add_0_r by lia.
  rewrite (walk_int _ _ _ _ _ _ _ Hx), (proj2 (Z.eqb_neq _ _)) by done. cbn [mbind outcome_bind].
  etrans; [|apply (walk_equal a (drop (S i) a) (S i))]; [|intros j z; by rewrite lookup_drop].
  f_equal. apply imap_ext. intros j w _. cbn. f_equal. lia.
Qed.

(** Setting an element past the cap is refused, whether or not it is there. *)
Lemma set_past_cap a i v :
  MAX_LIST_GROW_INDEX < Z.of_nat i ≤ USIZE_MAX → set_in_bson (Array a) [dec_bytes (Z.of_nat i)] v = Err ().
Proof.
  intros Hi. cbn [set_in_bson]. unfold set_item. rewrite (proj2 (digits_value_dec (Z.of_nat i) ltac:(lia))), parse_dec by lia.
  cbn. by rewrite (proj2 (Z.ltb_lt _ _)) by lia.
Qed.

(** C37. The cap on the growth of a list also stops a replay: a changed element
    past index 100000 of an array that already has it is described, and the
    description cannot be applied to the document it was computed from. *)
Theorem long_array_not_replayed (l : list Z) i x y :
  l !! i = Some x → x ≠ y → MAX_LIST_GROW_INDEX < Z.of_nat i ≤ USIZE_MAX →
  let pre := [(lit "a", ints l)] in
  let post := [(lit "a", ints (<[i := y]> l))] in
  ∃ diff, compute_update_description pre post = Ok diff ∧ apply_update_description pre diff = Err Defer.
Proof.
  intros Hx Hne Hi pre post. pose proof (lookup_lt_Some _ _ _ Hx) as Hlt.
  set (path := child_path (lit "a") (dec_bytes (Z.of_nat i))).
  assert (Hw : walk_docs pre post [] [] (acc_new None) =
    Ok (note_set path [String (lit "a"); Int32 (as_i32 (Z.of_nat i))] (Int32 y) (acc_new None))).
  { unfold walk_docs, walk_docs_with.
    change (key_set _) with [lit "a"]. cbn [fold_R]. unfold walk_key, post. cbn [fmap list_fmap doc_get].
    change (doc_get pre (lit "a")) with (Some (ints l)). rewrite bool_decide_true by done. cbn [walk_from fst snd].
    unfold ints. rewrite walk_to_array. fold (ints l) (ints (<[i := y]> l)).
    rewrite (ints_differ _ _ i x y Hx) by (try done; by apply list_lookup_insert_eq).
    cbn [mbind outcome_bind]. unfold walk_arrays_with. cbn [elementwise acc_new].
    rewrite <- list_fmap_compose, (walk_changed l i x y) by done. cbn [mbind outcome_bind].
    rewrite !length_fmap, length_insert, bool_decide_false by lia. done. }
  eexists. split; [unfold compute_update_description, compute_update_description_for; by rewrite Hw|].
  unfold apply_update_description, description, note_set. cbn [existsb ambiguous record_ambiguous].
  change (is_digits (lit "a")) with false.
  assert (Hset : apply_set pre (path, Int32 y) = Err Defer).
  { unfold apply_set, set_path. cbn [fst snd].
    change path with (join_dot [lit "a"; dec_bytes (Z.of_nat i)]). rewrite split_plain; [|apply Forall_cons; split; [exact (bool_decide_eq_true_1 (plain (lit "a")) eq_refl)|apply Forall_singleton, dec_bytes_plain; lia]|done].
    cbn [set_in_doc]. unfold set_field. change (doc_get _ (lit "a")) with (Some (ints l)).
    rewrite bool_decide_false by done. unfold ints. by rewrite set_past_cap by lia. }
  change (get_document _ _) with (Some [(path, Int32 y)]). cbn [fold_R]. by rewrite Hset.
Qed.
End long.

(** ** An update with holes *)

(** [{$set: {"a.1.x": 5, "a.3": 7, "d.e": true}, $unset: {"b": ""}}] on
    [{a: [{x: 1}, {x: 2}], b: "old", c: 1}]. *)
#[local] Instance plain_crate : BsonCrate := {|
  dec_to_string b := b; doc_eq a b := match a, b with [], [] => true | _, _ => false end; to_writer d := Ok []; to_vec_one v := Ok [] |}.

Definition set_pre : Doc :=
  [(lit "a", Array [Document [(lit "x", Int32 1)]; Document [(lit "x", Int32 2)]]); (lit "b", String (lit "old"));
   (lit "c", Int32 1)].
Definition set_post : Doc :=
  [(lit "a", Array [Document [(lit "x", Int32 1)]; Document [(lit "x", Int32 5)]; Null; Int32 7]); (lit "c", Int32 1);
   (lit "d", Document [(lit "e", Boolean true)])].
Definition set_update : Doc :=
  [(lit "$set", Document [(lit "a.1.x", Int32 5); (lit "a.3", Int32 7); (lit "d.e", Boolean true)]);
   (lit "$unset", Document [(lit "b", String [])])].

Lemma set_padded : padded set_pre set_post (elementwise_array_paths <$> Some set_update).
Proof.
  assert (E : elementwise_array_paths set_update = {[ lit "a" := Some {[ 1; 3 ]} ]}) by (vm_compute; reflexivity).
  intros paths path named a b [= <-] Hp Ha Hb Hl. rewrite E in Hp.
  apply lookup_singleton_Some in Hp as [<- [= <-]].
  vm_compute in Ha, Hb. injection Ha as <-. injection Hb as <-. split; [set_solver|].
  intros i x Hi Hx Hn. cbn in Hi. do 3 (destruct i as [|i]; [lia || by injection Hx as <-|]).
  destruct i as [|i]; [|done]. destruct Hn. set_solver.
Qed.


Lemma long_array_not_replayed_witness :
  let l := replicate (Z.to_nat 100002) 0 in
  let pre := [(lit "a", ints l)] in
  let post := [(lit "a", ints (<[Z.to_nat 100001 := 1]> l))] in
  ∃ diff, compute_update_description pre post = Ok diff ∧ apply_update_description pre diff = Err Defer.
Proof.
  apply (long_array_not_replayed (replicate (Z.to_nat 100002) 0) (Z.to_nat 100001) 0 1).
  - apply lookup_replicate. split; [reflexivity|lia].
  - discriminate.
  - unfold MAX_LIST_GROW_INDEX, USIZE_MAX. lia.
Defined.
