(* ===== verification/PipelineDiff.v ===== *)
(** * Update descriptions of pipeline updates: secantus-core/src/diff.rs

    A pipeline update has no operators: the two documents are compared field by
    field into a tree of differences ([Node]), which is logged when it is clearly
    smaller than the new document, and described as the update of an operator is.
    The recursion is on the new value, as in [Diff]. *)
From stdpp Require Import strings.
From S2P Require Import Prelude RustM Lex Bson Docs BsonDoc Numeric Order Paths Diff.
Local Open Scope Z_scope.
Local Open Scope secantus_scope.

(** ** Differences *)

Record DocDiff (N : Type) := mkDocDiff {
  deletes : list bytes;
  updates : Doc;
  inserts : Doc;
  subs : list (bytes * N);
}.
Arguments mkDocDiff {N}.
Arguments deletes {N}.
Arguments updates {N}.
Arguments inserts {N}.
Arguments subs {N}.

Inductive ArrEntry (N : Type) := Update (v : Bson) | Sub (n : N).
Arguments Update {N}.
Arguments Sub {N}.

Record ArrDiff (N : Type) := mkArrDiff {
  new_len : option nat;
  entries : list (nat * ArrEntry N);
}.
Arguments mkArrDiff {N}.
Arguments new_len {N}.
Arguments entries {N}.

Inductive Node := NDoc (d : DocDiff Node) | NArr (a : ArrDiff Node).

(** ** The serialized form and its size *)

Definition insert_all (l out : Doc) : Doc := foldl (λ o (e : bytes * Bson), doc_insert o e.1 e.2) out l.

(** A section that is left out when it is empty. *)
Definition section (name : bytes) (l out : Doc) : Doc :=
  if ⌊length l = 0%nat⌋ then out else doc_insert out name (Document (insert_all l [])).

Fixpoint serialize (n : Node) : Doc :=
  match n with
  | NDoc d =>
      let out := section (lit "d") ((λ f, (f, Boolean false)) <$> deletes d) [] in
      let out := section (lit "i") (inserts d) (section (lit "u") (updates d) out) in
      (fix go (l : list (bytes * Node)) (out : Doc) : Doc :=
         match l with
         | [] => out
         | (f, sub) :: l => go l (doc_insert out (lit "s" ++ f) (Document (serialize sub)))
         end) (subs d) out
  | NArr a =>
      let out := doc_insert [] (lit "a") (Boolean true) in
      let out := match new_len a with Some n => doc_insert out (lit "l") (Int32 (as_i32 (Z.of_nat n))) | None => out end in
      (fix go (l : list (nat * ArrEntry Node)) (out : Doc) : Doc :=
         match l with
         | [] => out
         | (i, Update v) :: l => go l (doc_insert out (lit "u" ++ dec_bytes (Z.of_nat i)) v)
         | (i, Sub sub) :: l => go l (doc_insert out (lit "s" ++ dec_bytes (Z.of_nat i)) (Document (serialize sub)))
         end) (entries a) out
  end.

Section pipeline.
Context `{BsonCrate}.

Definition size (n : Node) : Z := bson_size (Document (serialize n)).

(** ** The comparison *)

(** A new value and its difference from an old one. *)
Record differ := mkDiffer { value : Bson; diff_from : Bson → option Node }.

Definition changed_value (pre : Bson) (post : differ) : Node + Bson :=
  match diff_from post pre with
  | Some node => if size node <? bson_size (value post) then inl node else inr (value post)
  | None => inr (value post)
  end.

Definition docdiff_new : DocDiff Node := mkDocDiff [] [] [] [].
Definition arrdiff_new : ArrDiff Node := mkArrDiff None [].

Definition push_change (name : bytes) (c : Node + Bson) (d : DocDiff Node) : DocDiff Node :=
  match c with
  | inl node => mkDocDiff (deletes d) (updates d) (inserts d) (subs d ++ [(name, node)])
  | inr v => mkDocDiff (deletes d) (updates d ++ [(name, v)]) (inserts d) (subs d)
  end.

(** The loop over the fields whose names line up; what is left of both. *)
Fixpoint lockstep (pre : Doc) (post : list (bytes * differ)) (d : DocDiff Node)
    : DocDiff Node * Doc * list (bytes * differ) :=
  match pre, post with
  | (name, a) :: pre', (name', b) :: post' =>
      if ⌊name = name'⌋ then
        lockstep pre' post' (if binary_equal a (value b) then d else push_change name (changed_value a b) d)
      else (d, pre, post)
  | _, _ => (d, pre, post)
  end.

Definition is_empty (d : DocDiff Node) : bool :=
  ⌊length (deletes d) = 0%nat⌋ && ⌊length (updates d) = 0%nat⌋ && ⌊length (inserts d) = 0%nat⌋ && ⌊length (subs d) = 0%nat⌋.

(** What is left of [post] is inserted; what it no longer has is deleted. *)
Definition doc_changes (pre : Doc) (post : list (bytes * differ)) : DocDiff Node :=
  let '(d, pre_rest, post_rest) := lockstep pre post docdiff_new in
  mkDocDiff (filter (λ name, doc_get post name = None) (keys pre_rest)) (updates d)
    ((λ e : bytes * differ, (e.1, value e.2)) <$> post_rest) (subs d).

Definition diff_doc_with (pre : Doc) (post : list (bytes * differ)) : option (DocDiff Node) :=
  let d := doc_changes pre post in if is_empty d then None else Some d.

Definition diff_entry (pre : list Bson) (ib : nat * differ) : list (nat * ArrEntry Node) :=
  let '(i, b) := ib in
  match pre !! i with
  | Some p =>
      if binary_equal p (value b) then []
      else [(i, match changed_value p b with inl node => Sub node | inr v => Update v end)]
  | None => [(i, Update (value b))]
  end.

Definition arr_changes (pre : list Bson) (post : list differ) : ArrDiff Node :=
  mkArrDiff (if ⌊(length post < length pre)%nat⌋ then Some (length post) else None)
    (concat (diff_entry pre <$> imap pair post)).

Definition diff_arr_with (pre : list Bson) (post : list differ) : option (ArrDiff Node) :=
  let a := arr_changes pre post in
  if ⌊new_len a ≠ None⌋ || ⌊length (entries a) ≠ 0%nat⌋ then Some a else None.

(** The [sub] of [changed_value]. *)
Fixpoint diff_to (post : Bson) : Bson → option Node :=
  match post with
  | Document b =>
      let b := (fix go (b : Doc) : list (bytes * differ) :=
                  match b with [] => [] | (k, v) :: b => (k, mkDiffer v (diff_to v)) :: go b end) b in
      λ pre, match pre with Document a => NDoc <$> diff_doc_with a b | _ => None end
  | Array b =>
      let b := (fix go (b : list Bson) : list differ :=
                  match b with [] => [] | v :: b => mkDiffer v (diff_to v) :: go b end) b in
      λ pre, match pre with Array a => NArr <$> diff_arr_with a b | _ => None end
  | _ => λ _, None
  end.

Definition differ_of (v : Bson) : differ := mkDiffer v (diff_to v).

Definition diff_doc (pre post : Doc) : option (DocDiff Node) :=
  diff_doc_with pre ((λ e : bytes * Bson, (e.1, differ_of e.2)) <$> post).
Definition diff_arr (pre post : list Bson) : option (ArrDiff Node) := diff_arr_with pre (differ_of <$> post).

(** ** The description *)

Definition describe_set (prefix : bytes) (segs : list Bson) (part : bytes) (seg : Bson) (v : Bson) (acc : Acc) : Acc :=
  let acc := record_ambiguous (child_path prefix part) (segs ++ [seg]) acc in
  set_updated (doc_insert (updated acc) (child_path prefix part) v) acc.

Definition describe_delete (prefix : bytes) (segs : list Bson) (acc : Acc) (f : bytes) : Acc :=
  let acc := record_ambiguous (child_path prefix f) (segs ++ [String f]) acc in
  set_removed (removed acc ++ [String (child_path prefix f)]) acc.

Definition describe_field (prefix : bytes) (segs : list Bson) (acc : Acc) (e : bytes * Bson) : Acc :=
  describe_set prefix segs e.1 (String e.1) e.2 acc.

Definition describe_cut (prefix : bytes) (n : option nat) (acc : Acc) : Acc :=
  match n with
  | Some n => set_truncated (truncated acc ++ [Document [(lit "field", String prefix);
                                                        (lit "newSize", Int32 (as_i32 (Z.of_nat n)))]]) acc
  | None => acc
  end.

Definition index_seg (i : nat) : Bson := Int32 (as_i32 (Z.of_nat i)).
Definition index_part (i : nat) : bytes := dec_bytes (Z.of_nat i).

Fixpoint describe (node : Node) (prefix : bytes) (segs : list Bson) (acc : Acc) : Acc :=
  match node with
  | NDoc d =>
      let acc := foldl (describe_delete prefix segs) acc (deletes d) in
      let acc := foldl (describe_field prefix segs) acc (updates d ++ inserts d) in
      (fix go (l : list (bytes * Node)) (acc : Acc) : Acc :=
         match l with
         | [] => acc
         | (f, sub) :: l => go l (describe sub (child_path prefix f) (segs ++ [String f]) acc)
         end) (subs d) acc
  | NArr a =>
      let acc := describe_cut prefix (new_len a) acc in
      (fix go (l : list (nat * ArrEntry Node)) (acc : Acc) : Acc :=
         match l with
         | [] => acc
         | (i, Update v) :: l => go l (describe_set prefix segs (index_part i) (index_seg i) v acc)
         | (i, Sub sub) :: l => go l (describe sub (child_path prefix (index_part i)) (segs ++ [index_seg i]) acc)
         end) (entries a) acc
  end.

Definition DELTA_OPLOG_OVERHEAD : Z := 15.

Definition too_large (node : Node) (post : Doc) : bool :=
  bson_size (Document post) <=? size node + DELTA_OPLOG_OVERHEAD.

Definition pipeline_update_description (pre post : Doc) : option Doc :=
  match diff_doc pre post with
  | Some d =>
      if too_large (NDoc d) post then None else Some (description (describe (NDoc d) [] [] (acc_new None)))
  | None => Some (description (acc_new None))
  end.

Definition pipeline_oplog_diff (pre post : Doc) : option Doc :=
  let node := NDoc (default docdiff_new (diff_doc pre post)) in
  if too_large node post then None else Some (serialize node).
End pipeline.
