(* ===== verification/PipelineProps.v ===== *)
(** * Update descriptions of pipeline updates: replay gives back the document

    The description of a pipeline update, applied to the old document, gives the
    new one: every value is there with the bytes it is stored with, but fields
    that were moved stay where they were. *)
From stdpp Require Import strings.
From S2P Require Import Prelude RustM Lex Bson Docs Numeric Order BsonDoc Paths Diff PathsFacts DiffEdits.
From S2P Require Import DiffWalk DiffProps.
From S2P Require Import PipelineDiff.
Local Open Scope Z_scope.
Local Open Scope secantus_scope.

Section pipeline.
Context `{BsonCrate}.

(** Stored with the same bytes. *)
Definition encoded (v w : Bson) : Prop := binary_equal v w = true.

(** ** A description as one loop *)

Inductive change := Deleted (f : bytes) | Put (f : bytes) (v : Bson) | Below (f : bytes) (n : Node).

Definition change_key (c : change) : bytes := match c with Deleted f | Put f _ | Below f _ => f end.

Definition describe_change (prefix : bytes) (segs : list Bson) (acc : Acc) (c : change) : Acc :=
  match c with
  | Deleted f => describe_delete prefix segs acc f
  | Put f v => describe_field prefix segs acc (f, v)
  | Below f n => describe n (child_path prefix f) (segs ++ [String f]) acc
  end.

Definition changes (d : DocDiff Node) : list change :=
  (Deleted <$> deletes d) ++ ((λ e : bytes * Bson, Put e.1 e.2) <$> updates d ++ inserts d)
    ++ ((λ e : bytes * Node, Below e.1 e.2) <$> subs d).

Lemma foldl_fmap {A B C} (f : C → B → C) (g : A → B) l c : foldl f c (g <$> l) = foldl (λ c a, f c (g a)) c l.
Proof. revert c. induction l as [|a l IH]; intros c; [done|]. apply IH. Qed.

Lemma describe_doc d prefix segs acc :
  describe (NDoc d) prefix segs acc = foldl (describe_change prefix segs) acc (changes d).
Proof.
  unfold changes. rewrite !foldl_app, !foldl_fmap.
  assert (E : ∀ l acc0, foldl (λ c (a : bytes * Bson), describe_change prefix segs c (Put a.1 a.2)) acc0 l
                        = foldl (describe_field prefix segs) acc0 l).
  { induction l as [|[f v] l IH]; intros acc0; [done|]. apply IH. }
  rewrite E. cbn [describe]. change (foldl (λ c a, describe_change prefix segs c (Deleted a))) with (foldl (describe_delete prefix segs)).
  generalize (foldl (describe_field prefix segs) (foldl (describe_delete prefix segs) acc (deletes d)) (updates d ++ inserts d)).
  clear E. induction (subs d) as [|[f n] l IH]; intros acc0; [done|]. apply IH.
Qed.

Definition describe_entry (prefix : bytes) (segs : list Bson) (acc : Acc) (e : nat * ArrEntry Node) : Acc :=
  match e with
  | (i, Update v) => describe_set prefix segs (index_part i) (index_seg i) v acc
  | (i, Sub n) => describe n (child_path prefix (index_part i)) (segs ++ [index_seg i]) acc
  end.

Lemma describe_arr a prefix segs acc :
  describe (NArr a) prefix segs acc = foldl (describe_entry prefix segs) (describe_cut prefix (new_len a) acc) (entries a).
Proof.
  cbn [describe]. generalize (describe_cut prefix (new_len a) acc).
  induction (entries a) as [|[i [v|n]] l IH]; intros acc0; [done|..]; apply IH.
Qed.

Lemma fold_R_Ok {E A B} (f : B → A → B) l b : fold_R (λ b a, Ok (E := E) (f b a)) l b = Ok (foldl f b l).
Proof. revert b. induction l as [|a l IH]; intros b; [done|]. apply IH. Qed.

Lemma foldl_concat {A B C} (f : C → B → C) (g : A → list B) l c :
  foldl f c (concat (g <$> l)) = foldl (λ c a, foldl f c (g a)) c l.
Proof. revert c. induction l as [|a l IH]; intros c; [done|]. rewrite fmap_cons. cbn. by rewrite foldl_app, IH. Qed.

(** ** The fields whose names line up *)

Inductive compared : Doc → list (bytes * differ) → Doc → list (bytes * Node) → Prop :=
  | cp_nil : compared [] [] [] []
  | cp_equal k a b pa pb us ns : binary_equal a (value b) = true → compared pa pb us ns →
      compared ((k, a) :: pa) ((k, b) :: pb) us ns
  | cp_update k a b pa pb us ns : compared pa pb us ns →
      compared ((k, a) :: pa) ((k, b) :: pb) ((k, value b) :: us) ns
  | cp_sub k a b n pa pb us ns : diff_from b a = Some n → compared pa pb us ns →
      compared ((k, a) :: pa) ((k, b) :: pb) us ((k, n) :: ns).

Lemma lockstep_compared pre post d : ∃ pa ra pb rb us ns,
  lockstep pre post d = (mkDocDiff (deletes d) (updates d ++ us) (inserts d) (subs d ++ ns), ra, rb) ∧
  pre = pa ++ ra ∧ post = pb ++ rb ∧ compared pa pb us ns.
Proof.
  revert post d. induction pre as [|[k a] pre IH]; intros post d.
  { exists [], [], [], post, [], []. cbn. rewrite !app_nil_r. destruct d. split_and!; [done..|constructor]. }
  destruct post as [|[k' b] post]; cbn [lockstep].
  { exists [], ((k, a) :: pre), [], [], [], []. cbn. rewrite !app_nil_r. destruct d. split_and!; [done..|constructor]. }
  case_bool_decide as Ek; cycle 1.
  { exists [], ((k, a) :: pre), [], ((k', b) :: post), [], []. cbn. rewrite !app_nil_r. destruct d. split_and!; [done..|constructor]. }
  subst k'.
  destruct (binary_equal a (value b)) eqn:Eb; [|destruct (changed_value a b) as [n|v] eqn:Ec].
  - destruct (IH post d) as (pa & ra & pb & rb & us & ns & -> & -> & -> & Hc).
    exists ((k, a) :: pa), ra, ((k, b) :: pb), rb, us, ns. split_and!; [done..|]. by constructor.
  - destruct (IH post (push_change k (inl n) d)) as (pa & ra & pb & rb & us & ns & -> & -> & -> & Hc).
    exists ((k, a) :: pa), ra, ((k, b) :: pb), rb, us, ((k, n) :: ns). cbn. rewrite <- app_assoc. split_and!; [done..|].
    constructor; [|done]. unfold changed_value in Ec. destruct (diff_from b a) as [m|]; [|done].
    destruct (_ <? _); [by injection Ec as ->|done].
  - destruct (IH post (push_change k (inr v) d)) as (pa & ra & pb & rb & us & ns & -> & -> & -> & Hc).
    exists ((k, a) :: pa), ra, ((k, b) :: pb), rb, ((k, v) :: us), ns. cbn. rewrite <- app_assoc. split_and!; [done..|].
    assert (v = value b) as ->; [|by constructor]. unfold changed_value in Ec. destruct (diff_from b a) as [m|]; [|congruence].
    destruct (_ <? _); [done|congruence].
Qed.

Lemma compared_keys pa pb us ns : compared pa pb us ns →
  pb.*1 = keys pa ∧ (∀ k, k ∈ keys us → k ∈ keys pa) ∧ (∀ k, k ∈ ns.*1 → k ∈ keys pa) ∧
  (NoDup (keys pa) → NoDup (keys us) ∧ NoDup (ns.*1) ∧ ∀ k, k ∈ keys us → k ∉ ns.*1).
Proof.
  unfold keys. induction 1 as [|k a b pa pb us ns _ _ (E & Hu & Hn & Hd)|k a b pa pb us ns _ (E & Hu & Hn & Hd)
    |k a b n pa pb us ns _ _ (E & Hu & Hn & Hd)]; rewrite ?fmap_cons; cbn [fst].
  - split_and!; [done..|]. intros _. split_and!; [constructor|constructor|]. intros k Hk. elem_nil.
  - rewrite E. split_and!; [done|set_solver|set_solver|]. rewrite NoDup_cons. intros [_ ?]. by apply Hd.
  - rewrite E. split_and!; [done|set_solver|set_solver|]. rewrite !NoDup_cons. intros [Hk Hp]. destruct (Hd Hp) as (? & ? & Hx).
    split_and!; [set_solver|done|done|]. intros k' [->|?]%elem_of_cons; [set_solver|by apply Hx].
  - rewrite E. split_and!; [done|set_solver|set_solver|]. rewrite !NoDup_cons. intros [Hk Hp]. destruct (Hd Hp) as (? & ? & Hx).
    split_and!; [done|set_solver|done|]. intros k' Hk'. rewrite not_elem_of_cons. split; [set_solver|by apply Hx].
Qed.

Lemma compared_fields pa pb us ns : compared pa pb us ns →
  (∀ k v, (k, v) ∈ us → ∃ b, (k, b) ∈ pb ∧ v = value b) ∧
  (∀ k n, (k, n) ∈ ns → ∃ a b, (k, a) ∈ pa ∧ (k, b) ∈ pb ∧ diff_from b a = Some n) ∧
  (∀ k, k ∈ keys pa → k ∉ keys us → k ∉ ns.*1 → ∃ a b, (k, a) ∈ pa ∧ (k, b) ∈ pb ∧ binary_equal a (value b) = true).
Proof.
  unfold keys. induction 1 as [|k a b pa pb us ns Hb _ (Hu & Hn & He)|k a b pa pb us ns _ (Hu & Hn & He)
    |k a b n pa pb us ns Hb _ (Hu & Hn & He)]; rewrite ?fmap_cons; cbn [fst].
  - split_and!; intros; elem_nil.
  - split_and!.
    + intros k' v (b' & ? & ?)%Hu. exists b'. split; [by right|done].
    + intros k' m (a' & b' & ? & ? & ?)%Hn. exists a', b'. split_and!; [by right|by right|done].
    + intros k' [->|Hk]%elem_of_cons H1 H2; [exists a, b; split_and!; [by left|by left|done]|].
      destruct (He k' Hk H1 H2) as (a' & b' & ? & ? & ?). exists a', b'. split_and!; [by right|by right|done].
  - split_and!.
    + intros k' v [[= -> ->]|(b' & ? & ?)%Hu]%elem_of_cons; [exists b; split; [by left|done]|]. exists b'. split; [by right|done].
    + intros k' m (a' & b' & ? & ? & ?)%Hn. exists a', b'. split_and!; [by right|by right|done].
    + intros k' Hk H1 H2. apply not_elem_of_cons in H1 as [Hne H1]. apply elem_of_cons in Hk as [->|Hk]; [done|].
      destruct (He k' Hk H1 H2) as (a' & b' & ? & ? & ?). exists a', b'. split_and!; [by right|by right|done].
  - split_and!.
    + intros k' v (b' & ? & ?)%Hu. exists b'. split; [by right|done].
    + intros k' m [[= -> ->]|(a' & b' & ? & ? & ?)%Hn]%elem_of_cons; [exists a, b; split_and!; [by left|by left|done]|].
      exists a', b'. split_and!; [by right|by right|done].
    + intros k' Hk H1 H2. apply not_elem_of_cons in H2 as [Hne H2]. apply elem_of_cons in Hk as [->|Hk]; [done|].
      destruct (He k' Hk H1 H2) as (a' & b' & ? & ? & ?). exists a', b'. split_and!; [by right|by right|done].
Qed.

(** ** The changes of a document *)

Section fields.
Context (pre post : Doc) (Hpre : NoDup (keys pre)) (Hpost : NoDup (keys post)).
Let posts : list (bytes * differ) := (λ e : bytes * Bson, (e.1, differ_of e.2)) <$> post.

Definition change_ok (c : change) : Prop :=
  match c with
  | Deleted f => is_Some (doc_get pre f) ∧ doc_get post f = None
  | Put f v => doc_get post f = Some v
  | Below f n => ∃ a b, doc_get pre f = Some a ∧ doc_get post f = Some b ∧ diff_to b a = Some n
  end.

Lemma posts_get k : doc_get posts k = differ_of <$> doc_get post k.
Proof. unfold posts. clear. induction post as [|[k' v] b IH]; [done|]. cbn. by destruct (bool_decide _). Qed.

Lemma posts_elem k b : (k, b) ∈ posts → doc_get post k = Some (value b) ∧ b = differ_of (value b).
Proof. intros ([k' v] & [= -> ->] & Hin)%list_elem_of_fmap. split; [by apply elem_doc_get|done]. Qed.

Section split.
Context (pa ra : Doc) (pb rb : list (bytes * differ)) (us : Doc) (ns : list (bytes * Node)).
Context (Epre : pre = pa ++ ra) (Epost : posts = pb ++ rb) (Hc : compared pa pb us ns).

Let cs : list change :=
  changes (mkDocDiff (filter (λ name, doc_get posts name = None) (keys ra)) us
             ((λ e : bytes * differ, (e.1, value e.2)) <$> rb) ns).

Lemma change_keys :
  change_key <$> cs = filter (λ name, doc_get posts name = None) (keys ra) ++ (keys us ++ rb.*1) ++ ns.*1.
Proof. unfold cs, changes, keys. cbn. rewrite !fmap_app, <- !list_fmap_compose. f_equal. apply list_fmap_id. Qed.

Lemma post_keys : keys post = keys pa ++ rb.*1.
Proof.
  rewrite <- (proj1 (compared_keys _ _ _ _ Hc)), <- fmap_app, <- Epost. unfold posts, keys. by rewrite <- list_fmap_compose.
Qed.

Lemma not_in_post k : doc_get posts k = None ↔ k ∉ keys pa ∧ k ∉ rb.*1.
Proof. rewrite posts_get, fmap_None, doc_get_None, post_keys, not_elem_of_app. done. Qed.

Lemma changes_NoDup : NoDup (change_key <$> cs).
Proof.
  destruct (compared_keys _ _ _ _ Hc) as (_ & Hus & Hns & Hdis).
  pose proof Hpre as Hn. rewrite Epre in Hn. unfold keys in Hn. rewrite fmap_app in Hn. apply NoDup_app in Hn as (Hpa & _ & Hra).
  pose proof Hpost as Hn. rewrite post_keys in Hn. apply NoDup_app in Hn as (_ & Hpb & Hrb). destruct (Hdis Hpa) as (Nu & Nn & Hun).
  rewrite change_keys. apply NoDup_app. split_and!; [by apply NoDup_filter| |].
  - intros k [[H1 H2]%not_in_post _]%list_elem_of_filter. set_solver.
  - apply NoDup_app. split_and!; [|set_solver|done]. apply NoDup_app. split_and!; [done|set_solver|done].
Qed.

Lemma changes_ok c : c ∈ cs → change_ok c.
Proof.
  destruct (compared_fields _ _ _ _ Hc) as (Fu & Fn & _).
  assert (Hpb : ∀ k b, (k, b) ∈ pb ∨ (k, b) ∈ rb → doc_get post k = Some (value b) ∧ b = differ_of (value b)).
  { intros k b Hin. apply posts_elem. rewrite Epost. by apply elem_of_app. }
  unfold cs, changes. cbn [deletes updates inserts subs]. rewrite !elem_of_app.
  intros [(f & -> & Hf)%list_elem_of_fmap|[([f v] & -> & Hf)%list_elem_of_fmap|([f n] & -> & Hf)%list_elem_of_fmap]]; cbn [change_ok fst snd].
  - apply list_elem_of_filter in Hf as [Hnone Hf]. rewrite posts_get, fmap_None in Hnone. split; [|done].
    apply doc_get_key. rewrite Epre. unfold keys. rewrite fmap_app. apply elem_of_app. by right.
  - apply elem_of_app in Hf as [(b & Hb & ->)%Fu|([k b] & [= -> ->] & Hb)%list_elem_of_fmap]; apply Hpb; auto.
  - apply Fn in Hf as (a & b & Ha & Hb & Hd). exists a, (value b). destruct (Hpb f b ltac:(auto)) as [Eb Edb].
    split_and!; [|done|by rewrite Edb in Hd]. apply elem_doc_get; [done|]. rewrite Epre. apply elem_of_app. by left.
Qed.

Lemma changes_out k : k ∉ change_key <$> cs →
  doc_get pre k = None ∧ doc_get post k = None ∨
  ∃ a b, doc_get pre k = Some a ∧ doc_get post k = Some b ∧ encoded a b.
Proof.
  destruct (compared_fields _ _ _ _ Hc) as (_ & _ & Fe). rewrite change_keys, !not_elem_of_app. intros (H1 & [H2 H3] & H4).
  destruct (decide (k ∈ keys pa)) as [Hk|Hk].
  - right. destruct (Fe k Hk H2 H4) as (a & b & Ha & Hb & He). exists a, (value b).
    split_and!; [apply elem_doc_get; [done|]; rewrite Epre; apply elem_of_app; by left| |done].
    apply posts_elem. rewrite Epost. apply elem_of_app. by left.
  - left. assert (Hn : doc_get posts k = None) by (by apply not_in_post).
    split; [|by rewrite posts_get, fmap_None in Hn]. apply doc_get_None. rewrite Epre. unfold keys. rewrite fmap_app, not_elem_of_app.
    split; [done|]. intros Hra. apply H1, list_elem_of_filter. done.
Qed.
End split.

Lemma changes_spec :
  let cs := changes (doc_changes pre posts) in
  NoDup (change_key <$> cs) ∧ (∀ c, c ∈ cs → change_ok c) ∧
  ∀ k, k ∉ change_key <$> cs →
    doc_get pre k = None ∧ doc_get post k = None ∨
    ∃ a b, doc_get pre k = Some a ∧ doc_get post k = Some b ∧ encoded a b.
Proof.
  unfold doc_changes. destruct (lockstep_compared pre posts docdiff_new) as (pa & ra & pb & rb & us & ns & -> & Epre & Epost & Hc).
  cbn [updates subs docdiff_new app]. split_and!.
  - by eapply changes_NoDup.
  - by eapply changes_ok.
  - by eapply changes_out.
Qed.
End fields.

(** ** What a description adds *)

Lemma describe_set_note prefix segs part seg v acc :
  describe_set prefix segs part seg v acc = note_set (child_path prefix part) (segs ++ [seg]) v acc.
Proof. unfold describe_set, note_set, record_ambiguous. by destruct (existsb _ _). Qed.

Lemma describe_delete_note prefix segs f acc :
  describe_delete prefix segs acc f = note_removed (child_path prefix f) (segs ++ [String f]) acc.
Proof. unfold describe_delete, note_removed, record_ambiguous. by destruct (existsb _ _). Qed.

Definition diffed (post : Bson) : Prop := ∀ pre node parts segs acc,
  wf pre = true → wf post = true → Forall plain parts → fresh parts acc → diff_to post pre = Some node →
  ∃ S U C, delta parts S U C acc (describe node (join_dot parts) segs acc) ∧
    describes_by encoded (edits S U C) (Some pre) (Some post).

Lemma fresh_below parts k acc : fresh parts acc → fresh (parts ++ [k]) acc.
Proof. intros Hf key Hk Hpre. apply (Hf key Hk). etrans; [|exact Hpre]. by apply prefix_app_r. Qed.

Lemma describe_doc_spec pre post parts segs acc :
  Forall (λ e : bytes * Bson, diffed e.2) post → wf (Document pre) = true → wf (Document post) = true →
  Forall plain parts → fresh parts acc →
  let d := doc_changes pre ((λ e : bytes * Bson, (e.1, differ_of e.2)) <$> post) in
  ∃ S U C, delta parts S U C acc (describe (NDoc d) (join_dot parts) segs acc) ∧
    describes_by encoded (edits S U C) (Some (Document pre)) (Some (Document post)) ∧
    Forall (λ e : edit, e.1 ≠ []) (edits S U C).
Proof.
  intros Hdiff Hpre Hpost Hp Hf d. pose proof (proj1 (wf_doc _) Hpre) as [Hna Hwa]. pose proof (proj1 (wf_doc _) Hpost) as [Hnb Hwb].
  destruct (changes_spec pre post Hna Hnb) as (Hnd & Hok & Hout0). fold d in Hnd, Hok, Hout0. rewrite describe_doc.
  assert (Hplain : ∀ c, change_ok pre post c → plain (change_key c)).
  { intros [f|f v|f n]; cbn; [intros [[v Hv] _]; by eapply Hwa|by apply Hwb|intros (a & b & Ha & _); by eapply Hwa]. }
  destruct (fold_delta change_key (λ acc c, Ok (describe_change (join_dot parts) segs acc c))
    (λ c E, describes_by encoded E (doc_get pre (change_key c)) (doc_get post (change_key c))) parts Hp
    (elementwise acc) (push_targets acc) (changes d) acc (foldl (describe_change (join_dot parts) segs) acc (changes d)))
    as (S & U & C & D & Hh & HP & Hout).
  - done.
  - apply Forall_forall. auto.
  - intros c acc1 acc2 Hc _ _ Hf1 [= <-]. specialize (Hok c Hc). specialize (Hplain c Hok).
    assert (Hpk : Forall plain (parts ++ [change_key c])) by (apply Forall_app; auto).
    assert (Hnk : parts ++ [change_key c] ≠ []) by (by destruct parts).
    destruct c as [f|f v|f n]; cbn [change_key describe_change change_ok] in *.
    + destruct Hok as [[v Hv] ->]. rewrite Hv, describe_delete_note, child_path_join by done.
      exists [], [([], tt)], []. split; [by apply delta_note_removed|]. apply ds_unset.
    + unfold describe_field. cbn [fst snd]. rewrite describe_set_note, child_path_join, Hok by done.
      exists [([], v)], [], []. split; [by apply delta_note_set|]. by apply ds_set.
    + destruct Hok as (a & b & Ha & Hb & Hn). rewrite Ha, Hb, child_path_join by done. rewrite Forall_forall in Hdiff.
      eapply (Hdiff (f, b)); [by apply doc_get_elem|by eapply Hwa|by eapply Hwb|done..].
  - done.
  - done.
  - intros c _. by apply fresh_below.
  - apply fold_R_Ok.
  - assert (Hheads : Forall (λ e : edit, e.1 ≠ []) (edits S U C)).
    { eapply Forall_impl; [exact Hh|]. intros e (x & r & _ & ->). done. }
    exists S, U, C. split; [done|]. split; [|done]. apply ds_doc; [done|done|]. intros k.
    destruct (decide (k ∈ change_key <$> changes d)) as [Hk|Hk].
    + apply list_elem_of_fmap in Hk as (c & -> & Hc). by apply HP.
    + rewrite Hout by done. destruct (Hout0 k Hk) as [[-> ->]|(a & b & -> & -> & He)]; [constructor|by apply ds_leaf].
Qed.
(** What is pushed about the array itself comes before what is said of its elements. *)
Lemma delta_cut_first parts S U C acc acc' n :
  short n → delta parts S U C (describe_cut (join_dot parts) (Some n) acc) acc' → delta parts S U (([], n) :: C) acc acc'.
Proof.
  intros Hn [D1 D2 D3 D4 D5 D6 D7]. split; try done.
  - rewrite D3. cbn [describe_cut set_truncated truncated]. rewrite fmap_cons, <- app_assoc. cbn. by rewrite app_nil_r.
  - rewrite Forall_forall in D6 |- *. intros e He. change (([], n) :: C) with ([([], n)] ++ C) in He.
    apply (edits_app [] [] [([], n)] S U C) in He as [He|He]; [|by apply D6].
    unfold edits in He. cbn in He. apply list_elem_of_singleton in He as ->. constructor.
  - by constructor.
Qed.

Definition entry_edits (pre : list Bson) (ib : nat * differ) (E : list edit) : Prop :=
  match pre !! ib.1 with
  | None => E = [([], Set_ (value ib.2))]
  | Some av => describes_by encoded E (Some av) (Some (value ib.2))
  end.

Lemma describe_entry_spec pre i x parts segs acc :
  let part := dec_bytes (Z.of_nat i) in
  diffed x → (∀ v, pre !! i = Some v → wf v = true) → wf x = true → Forall plain parts → fresh (parts ++ [part]) acc →
  ∃ S U C, delta (parts ++ [part]) S U C acc
      (foldl (describe_entry (join_dot parts) segs) acc (diff_entry pre (i, differ_of x))) ∧
    entry_edits pre (i, differ_of x) (edits S U C).
Proof.
  intros part Hdiff Hwa Hwx Hp Hf. assert (Hpk : Forall plain (parts ++ [part])).
  { apply Forall_app; split; [done|]. apply Forall_singleton, dec_bytes_plain. lia. }
  assert (Hnk : parts ++ [part] ≠ []) by (by destruct parts).
  assert (Hset : delta (parts ++ [part]) [([], x)] [] [] acc (describe_entry (join_dot parts) segs acc (i, Update x))).
  { cbn [describe_entry]. unfold index_part. rewrite describe_set_note, child_path_join by done. by apply delta_note_set. }
  unfold entry_edits, diff_entry. cbn [fst snd value differ_of]. destruct (pre !! i) as [av|] eqn:Eav; [|by exists [([], x)], [], []].
  destruct (binary_equal av x) eqn:Eb.
  { exists [], [], []. split; [apply delta_refl|]. by apply ds_leaf. }
  destruct (changed_value av (differ_of x)) as [n|v] eqn:Ec; unfold changed_value in Ec; cbn [diff_from value differ_of] in Ec.
  - destruct (diff_to x av) as [m|] eqn:Ed; [|done]. destruct (_ <? _); [injection Ec as ->|done]. cbn [foldl describe_entry].
    unfold index_part. rewrite child_path_join by done. eapply Hdiff; [by apply Hwa|done..].
  - assert (v = x) as ->. { destruct (diff_to x av); [destruct (_ <? _)|]; congruence. }
    exists [([], x)], [], []. split; [exact Hset|]. by apply ds_set.
Qed.

(** The cut of an array and the edits of its elements. *)
Lemma cut_edits S U C n (b : bool) :
  let E' := edits S U ((if b then [([], n)] else []) ++ C) in
  (∀ e, e ∈ E' ↔ e ∈ edits S U C ∨ (e = ([], Cut n) ∧ b = true)) ∧ ∀ k, tails k E' = tails k (edits S U C).
Proof.
  intros E'. split.
  - intros e. unfold E'. rewrite (edits_app [] [] _ S U C). destruct b; cbn; rewrite ?list_elem_of_singleton, ?elem_of_nil; naive_solver.
  - intros k. unfold E'. rewrite !tails_edits, tl_app. by destruct b.
Qed.

Lemma describe_arr_spec pre post parts segs acc :
  Forall diffed post → wf (Array pre) = true → wf (Array post) = true → Forall plain parts → fresh parts acc →
  let a := arr_changes pre (differ_of <$> post) in
  ∃ S U C, delta parts S U C acc (describe (NArr a) (join_dot parts) segs acc) ∧
    describes_by encoded (edits S U C) (Some (Array pre)) (Some (Array post)).
Proof.
  intros Hdiff Hpre Hpost Hp Hf a. apply wf_array in Hpre as [_ Hwa], Hpost as [Hsh Hwb]. rewrite describe_arr.
  set (acc0 := describe_cut _ _ _). assert (Hf0 : fresh parts acc0) by (unfold acc0; by destruct (new_len a)).
  unfold a. cbn [entries arr_changes]. rewrite foldl_concat. set (acc' := foldl _ acc0 (imap pair _)).
  destruct (fold_delta (λ ib : nat * differ, dec_bytes (Z.of_nat ib.1))
    (λ acc ib, Ok (foldl (describe_entry (join_dot parts) segs) acc (diff_entry pre ib)))
    (entry_edits pre) parts Hp (elementwise acc0) (push_targets acc0) (imap pair (differ_of <$> post)) acc0
    acc' (index_keys_NoDup _)) as (S & U & C & D & Hh & HP & _); [| |done|done| |apply fold_R_Ok|].
  - rewrite Forall_forall. intros [i w] _. apply dec_bytes_plain. cbn. lia.
  - intros [i w] acc1 acc2 (x & Hx & ->)%elem_of_indexed _ _ Hf1 [= <-]. rewrite Forall_forall in Hdiff.
    apply describe_entry_spec; [by eapply Hdiff, list_elem_of_lookup_2|apply Hwa|by eapply Hwb|done|done].
  - intros c _. by apply fresh_below.
  - set (b := ⌊(length post < length pre)%nat⌋). destruct (cut_edits S U C (length post) b) as [HE' Htl].
    exists S, U, ((if b then [([], length post)] else []) ++ C). split.
    + unfold acc0, a in D. cbn [new_len arr_changes] in D. rewrite length_fmap in D. fold b in D.
      destruct b; [by apply delta_cut_first|exact D].
    + apply (describes_elements encoded pre post (λ _, true) (edits S U C)); [done| | |exact Htl|done|].
      * rewrite Forall_forall in Hh. intros e He. destruct (Hh e He) as ([i w] & r & (x & Hx & ->)%elem_of_indexed & E1).
        exists i, r. split; [by eapply lookup_lt_Some|done].
      * intros e. rewrite HE'. unfold b. by rewrite bool_decide_eq_true.
      * intros i x Hx. apply (HP (i, differ_of x)), elem_of_indexed. eauto.
Qed.

Lemma diff_to_document b pre :
  diff_to (Document b) pre = match pre with Document a => NDoc <$> diff_doc a b | _ => None end.
Proof.
  cbn [diff_to]. unfold diff_doc.
  assert (E : (fix go (b : Doc) : list (bytes * differ) :=
                 match b with [] => [] | (k, v) :: b => (k, mkDiffer v (diff_to v)) :: go b end) b
              = (λ e : bytes * Bson, (e.1, differ_of e.2)) <$> b).
  { induction b as [|[k v] b IH]; [done|]. by rewrite fmap_cons, <- IH. }
  by rewrite E.
Qed.

Lemma diff_to_array b pre : diff_to (Array b) pre = match pre with Array a => NArr <$> diff_arr a b | _ => None end.
Proof.
  cbn [diff_to]. unfold diff_arr.
  assert (E : (fix go (b : list Bson) : list differ :=
                 match b with [] => [] | v :: b => mkDiffer v (diff_to v) :: go b end) b = differ_of <$> b).
  { induction b as [|v b IH]; [done|]. by rewrite fmap_cons, <- IH. }
  by rewrite E.
Qed.

Lemma diff_to_spec post : diffed post.
Proof.
  induction post as [b IH|b IH|post Hc] using bson_tree_ind; intros pre node parts segs acc Hpre Hpost Hp Hf Hn.
  - rewrite diff_to_array in Hn. destruct pre as [| |a| | | | | | | | | | | | | | | | | | ]; try done.
    unfold diff_arr, diff_arr_with in Hn. destruct (_ || _); [injection Hn as <-|done]. by apply describe_arr_spec.
  - rewrite diff_to_document in Hn. destruct pre as [| | |a| | | | | | | | | | | | | | | | | ]; try done.
    unfold diff_doc, diff_doc_with in Hn. destruct (is_empty _); [done|injection Hn as <-].
    destruct (describe_doc_spec a b parts segs acc) as (S & U & C & D & Hd & _); eauto.
  - by destruct post.
Qed.

(** No change, nothing to say. *)
Lemma describe_empty d prefix segs acc : is_empty d = true → describe (NDoc d) prefix segs acc = acc.
Proof.
  destruct d as [ds us ins ns]. unfold is_empty. rewrite !andb_true_iff, !bool_decide_eq_true. cbn.
  intros [[[->%nil_length_inv ->%nil_length_inv] ->%nil_length_inv] ->%nil_length_inv]. done.
Qed.


(** The stored difference and the described one are made by the same
    decision when something changed: either both are there or the update is
    logged as a replacement.  When nothing changed the description is there and
    empty, yet the difference is left out of the entry of every document at most
    15 bytes larger than the empty one. *)
Theorem pipeline_decisions pre post :
  match diff_doc pre post with
  | Some _ => is_Some (pipeline_oplog_diff pre post) ↔ is_Some (pipeline_update_description pre post)
  | None => pipeline_update_description pre post = Some (description (acc_new None)) ∧
            (pipeline_oplog_diff pre post = None ↔ bson_size (Document post) ≤ bson_size (Document []) + 15)
  end.
Proof.
  unfold pipeline_oplog_diff, pipeline_update_description. destruct (diff_doc pre post) as [d|]; cbn [default].
  - destruct (too_large _ _); split; intros [? ?]; eauto; done.
  - split; [done|]. unfold too_large, size. change (serialize (NDoc docdiff_new)) with (@nil (bytes * Bson)).
    unfold DELTA_OPLOG_OVERHEAD. destruct (Z.leb_spec (bson_size (Document post)) (bson_size (Document []) + 15)); split; try done; lia.
Qed.
End pipeline.

(** ** A pipeline that moves a field *)

(** The crate's encoding of the values below. *)
Definition scalar_bytes (v : Bson) : bytes :=
  match v with
  | Int32 n => 16 :: 0 :: le_bytes 4 n
  | String s => 2 :: 0 :: write_string s
  | _ => [10; 0]
  end.
Definition scalar_crate : BsonCrate := {|
  dec_to_string b := b; doc_eq a b := match a, b with [], [] => true | _, _ => false end; to_writer d := Ok [];
  to_vec_one v := let b := scalar_bytes v in Ok (le_bytes 4 (blen b + 5) ++ b ++ [0]) |}.
#[local] Instance writer_crate : BsonCrate := {|
  dec_to_string := @dec_to_string scalar_crate; doc_eq := @doc_eq scalar_crate; to_writer := @write_doc scalar_crate;
  to_vec_one := @to_vec_one scalar_crate |}.

Definition text : Bson := String (lit "the quick brown fox jumps over the lazy dog, then rests").
Definition moved_pre : Doc := [(lit "x", text); (lit "c", Array [Int32 1; Int32 2; Int32 3]); (lit "a", Int32 1); (lit "b", Int32 2)].
Definition moved_post : Doc := [(lit "x", text); (lit "c", Array [Int32 1; Int32 2; Int32 3]); (lit "b", Int32 2); (lit "a", Int32 1)].
Definition cut_post : Doc := [(lit "x", text); (lit "c", Array [Int32 1; Int32 5]); (lit "b", Int32 2)].


(** Replay does not move fields: a pipeline update that swaps two fields is
    logged as a difference, and the document replayed from it is the old one,
    whose bytes are not those of the new one. *)
Theorem pipeline_reorder_lost :
  ∃ diff, pipeline_update_description moved_pre moved_post = Some diff ∧
    apply_update_description moved_pre diff = Ok moved_pre ∧
    binary_equal (Document moved_pre) (Document moved_post) = false.
Proof.
  refine (ex_intro _ (default [] (pipeline_update_description moved_pre moved_post)) (conj _ (conj _ _))); vm_compute; reflexivity.
Qed.
