(* ===== verification/OplogDiff.v ===== *)
(** * The stored difference of an update: secantus-core/src/diff.rs

    [oplog_diff] reads a description back as the [$v: 2] difference an oplog entry
    shows: a tree whose nodes are documents (fields deleted, updated, inserted, and
    sub-differences) or arrays (a new length, elements, and sub-differences).  A
    [BTreeMap] is the list of its entries in key order. *)
From stdpp Require Import strings.
From S2P Require Import Prelude RustM Lex Bson Docs BsonDoc Numeric Order Paths Diff PipelineDiff.
Local Open Scope Z_scope.
Local Open Scope secantus_scope.

(** ** Ordered maps *)

(** [*m.entry(k)] changed by [f], which is given what is there. *)
Fixpoint bt_alter {K V} (cmp : K → K → comparison) (k : K) (f : option V → V) (m : list (K * V)) : list (K * V) :=
  match m with
  | [] => [(k, f None)]
  | (k', v) :: m' =>
      match cmp k k' with
      | Lt => (k, f None) :: m
      | Eq => (k', f (Some v)) :: m'
      | Gt => (k', v) :: bt_alter cmp k f m'
      end
  end.
Definition bt_insert {K V} (cmp : K → K → comparison) (k : K) (v : V) (m : list (K * V)) : list (K * V) :=
  bt_alter cmp k (λ _, v) m.

(** ** Parts of a path *)

Inductive OpPart := Field (f : bytes) | Index (i : Z).

Definition part_name (part : OpPart) : bytes := match part with Field f => f | Index i => dec_bytes i end.
Definition part_index (part : OpPart) : Z := match part with Index i => i | Field f => default 0 (parse_usize f) end.

Definition step (here : option Bson) (part : OpPart) : option Bson :=
  match here, part with
  | Some (Document d), _ => doc_get d (part_name part)
  | Some (Array a), Index i => item a i
  | _, _ => None
  end.

Fixpoint resolve_loop (here : option Bson) (parts : list bytes) : list OpPart :=
  match parts with
  | [] => []
  | p :: parts =>
      match here with
      | Some (Array items) =>
          match parse_usize p with
          | Some i => Index i :: resolve_loop (item items i) parts
          | None => Field p :: resolve_loop None parts
          end
      | Some (Document d) => Field p :: resolve_loop (doc_get d p) parts
      | _ => Field p :: resolve_loop None parts
      end
  end.
Definition resolve_parts (doc : Doc) (path : bytes) : list OpPart := resolve_loop (Some (Document doc)) (split_dot path).

(** ** The tree *)

Record OpDocDiff (N : Type) := mkOpDoc { od_d : list (bytes * ()); od_u : Doc; od_i : Doc; od_s : list (bytes * N) }.
Arguments mkOpDoc {N}.
Arguments od_d {N}.
Arguments od_u {N}.
Arguments od_i {N}.
Arguments od_s {N}.
Record OpArrDiff (N : Type) := mkOpArr { oa_l : option Z; oa_u : list (Z * Bson); oa_s : list (Z * N) }.
Arguments mkOpArr {N}.
Arguments oa_l {N}.
Arguments oa_u {N}.
Arguments oa_s {N}.

Inductive OpNode := ODoc (d : OpDocDiff OpNode) | OArr (a : OpArrDiff OpNode).

Definition new_doc : OpNode := ODoc (mkOpDoc [] [] [] []).
Definition new_arr : OpNode := OArr (mkOpArr None [] []).

Definition insert_d (name : bytes) (d : OpDocDiff OpNode) : OpNode :=
  ODoc (mkOpDoc (bt_insert bcmp name () (od_d d)) (od_u d) (od_i d) (od_s d)).
Definition insert_u (name : bytes) (v : Bson) (d : OpDocDiff OpNode) : OpNode :=
  ODoc (mkOpDoc (od_d d) (bt_insert bcmp name v (od_u d)) (od_i d) (od_s d)).
Definition insert_i (name : bytes) (v : Bson) (d : OpDocDiff OpNode) : OpNode :=
  ODoc (mkOpDoc (od_d d) (od_u d) (bt_insert bcmp name v (od_i d)) (od_s d)).
Definition insert_at (i : Z) (v : Bson) (a : OpArrDiff OpNode) : OpNode :=
  OArr (mkOpArr (oa_l a) (bt_insert Z.compare i v (oa_u a)) (oa_s a)).

Definition fresh_child (pre_child : option Bson) : OpNode :=
  match pre_child with Some (Array _) => new_arr | _ => new_doc end.

(** [f] on [self.child(part, pre_child)]. *)
Definition on_child (part : OpPart) (pre_child : option Bson) (f : OpNode → OpNode) (node : OpNode) : OpNode :=
  let g o := f (default (fresh_child pre_child) o) in
  match node with
  | ODoc d => ODoc (mkOpDoc (od_d d) (od_u d) (od_i d) (bt_alter bcmp (part_name part) g (od_s d)))
  | OArr a => OArr (mkOpArr (oa_l a) (oa_u a) (bt_alter Z.compare (part_index part) g (oa_s a)))
  end.

Fixpoint set_in (parts : list OpPart) (pre : option Bson) (v : Bson) (node : OpNode) : OpNode :=
  match parts with
  | [] => node
  | first :: rest =>
      let pre_child := step pre first in
      match rest, pre_child with
      | [], Some _ => match node with ODoc d => insert_u (part_name first) v d | OArr a => insert_at (part_index first) v a end
      | [], None => match node with ODoc d => insert_i (part_name first) v d | OArr a => insert_at (part_index first) v a end
      | _, None =>
          let built := foldr (λ part b, Document [(part_name part, b)]) v rest in
          match node with ODoc d => insert_i (part_name first) built d | OArr a => insert_at (part_index first) built a end
      | _, Some _ => on_child first pre_child (set_in rest pre_child v) node
      end
  end.

Fixpoint remove (parts : list OpPart) (node : OpNode) : OpNode :=
  match parts with
  | [] => node
  | first :: rest =>
      match rest, node with
      | [], ODoc d => insert_d (part_name first) d
      | [], OArr _ => node
      | _, _ => on_child first None (remove rest) node
      end
  end.

Fixpoint truncate (parts : list OpPart) (len : Z) (node : OpNode) : OpNode :=
  match parts with
  | [] => match node with OArr a => OArr (mkOpArr (Some len) (oa_u a) (oa_s a)) | ODoc _ => node end
  | part :: rest => on_child part (Some (Array [])) (truncate rest len) node
  end.

(** ** The rendered form *)

(** [i32::try_from], or the i64 itself. *)
Definition render_len (l : Z) : Bson := if in_range (- 2 ^ 31) (2 ^ 31 - 1) l then Int32 l else Int64 l.

Fixpoint render (node : OpNode) : Doc :=
  match node with
  | ODoc d =>
      let out := section (lit "d") ((λ e : bytes * (), (e.1, Boolean false)) <$> od_d d) [] in
      let out := section (lit "i") (od_i d) (section (lit "u") (od_u d) out) in
      (fix go (l : list (bytes * OpNode)) (out : Doc) : Doc :=
         match l with [] => out | (k, n) :: l => go l (doc_insert out (lit "s" ++ k) (Document (render n))) end) (od_s d) out
  | OArr a =>
      let out := [(lit "a", Boolean true)] in
      let out := match oa_l a with Some l => doc_insert out (lit "l") (render_len l) | None => out end in
      let entries := foldl (λ m (e : Z * Bson), bt_insert Z.compare e.1 (lit "u" ++ dec_bytes e.1, e.2) m) [] (oa_u a) in
      let entries :=
        (fix go (l : list (Z * OpNode)) (m : list (Z * (bytes * Bson))) : list (Z * (bytes * Bson)) :=
           match l with
           | [] => m
           | (i, n) :: l => go l (bt_insert Z.compare i (lit "s" ++ dec_bytes i, Document (render n)) m)
           end) (oa_s a) entries in
      foldl (λ o (e : Z * (bytes * Bson)), doc_insert o e.2.1 e.2.2) out entries
  end.

(** ** Reading a description back *)

Definition int_of (v : Bson) : option Z := match v with Int64 n | Int32 n => Some n | _ => None end.

Definition typed_part (p : Bson) : OpPart :=
  match p with String s => Field s | other => Index (wrap 64 (default 0 (int_of other))) end.

Definition parts_of (desc pre : Doc) (path : bytes) : list OpPart :=
  match t ← get_document desc (lit "disambiguatedPaths"); get_array t path with
  | Some parts => typed_part <$> parts
  | None => resolve_parts pre path
  end.

Definition read_updated (desc pre : Doc) (root : OpNode) (e : bytes * Bson) : OpNode :=
  set_in (parts_of desc pre e.1) (Some (Document pre)) e.2 root.

Definition read_removed (desc pre : Doc) (root : OpNode) (p : Bson) : OpNode :=
  match p with String path => remove (parts_of desc pre path) root | _ => root end.

Definition read_truncated (desc pre : Doc) (root : OpNode) (t : Bson) : OpNode :=
  match t with
  | Document t =>
      match get_str t (lit "field"), v ← doc_get t (lit "newSize"); int_of v with
      | Some field, Some len => truncate (parts_of desc pre field) len root
      | _, _ => root
      end
  | _ => root
  end.

Definition oplog_tree (desc pre : Doc) : OpNode :=
  let root := foldl (read_updated desc pre) new_doc (default [] (get_document desc (lit "updatedFields"))) in
  let root := foldl (read_removed desc pre) root (default [] (get_array desc (lit "removedFields"))) in
  foldl (read_truncated desc pre) root (default [] (get_array desc (lit "truncatedArrays"))).

Definition oplog_diff (desc pre : Doc) : Doc :=
  match oplog_tree desc pre with ODoc d => render (ODoc d) | OArr _ => [] end.
