(* ===== verification/OplogProps.v ===== *)
(** * The stored difference of an update: arrays where the document has arrays

    A node of the tree is an array difference exactly where the old document holds
    an array.  Reading what was updated keeps this; reading what was removed keeps
    it as long as no path goes through an array. *)
From stdpp Require Import strings.
From S2P Require Import Prelude RustM Lex Bson Docs Numeric Order BsonDoc Paths Diff PathsFacts DiffEdits.
From S2P Require Import DiffWalk DiffProps.
From S2P Require Import PipelineDiff OplogDiff.
Local Open Scope Z_scope.
Local Open Scope secantus_scope.

Definition not_array (v : option Bson) : Prop := ∀ a, v ≠ Some (Array a).

Inductive node_typed : OpNode → option Bson → Prop :=
  | nt_doc d v : not_array v → (∀ k n, (k, n) ∈ od_s d → node_typed n (step v (Field k))) → node_typed (ODoc d) v
  | nt_arr a l : (∀ i n, (i, n) ∈ oa_s a → node_typed n (item l i)) → node_typed (OArr a) (Some (Array l)).

Lemma new_doc_typed v : not_array v → node_typed new_doc v.
Proof. intros Hv. constructor; [done|]. intros k n Hin. elem_nil. Qed.

Lemma fresh_typed v : node_typed (fresh_child v) v.
Proof.
  destruct v as [[]|]; try (apply new_doc_typed; intros l; congruence). constructor. intros i n Hin. elem_nil.
Qed.

Lemma step_name v part : not_array v → step v (Field (part_name part)) = step v part.
Proof. intros Hv. destruct v as [[]|]; try done. by destruct (Hv a). Qed.

Definition doc_children (node : OpNode) : list (bytes * OpNode) := match node with ODoc d => od_s d | OArr _ => [] end.

Lemma typed_child node v k n : node_typed node v → (k, n) ∈ doc_children node → node_typed n (step v (Field k)).
Proof. destruct 1 as [d v _ Hd|]; [apply Hd|intros ?; elem_nil]. Qed.

Lemma bt_alter_elem {K V} (cmp : K → K → comparison) k (f : option V → V) m k' v :
  (∀ x y, cmp x y = Eq → x = y) → (k', v) ∈ bt_alter cmp k f m →
  (k', v) ∈ m ∨ k' = k ∧ (v = f None ∨ ∃ w, (k, w) ∈ m ∧ v = f (Some w)).
Proof.
  intros Hc. induction m as [|[k0 v0] m IH]; cbn [bt_alter].
  - intros [= -> ->]%list_elem_of_singleton. auto.
  - destruct (cmp k k0) eqn:E.
    + apply Hc in E as ->. intros [[= -> ->]|?]%elem_of_cons; [|left; by right]. right. split; [done|]. right. exists v0. split; [by left|done].
    + intros [[= -> ->]|?]%elem_of_cons; auto.
    + intros [[= -> ->]|[?|[-> [?|(w & ? & ?)]]]%IH]%elem_of_cons; [left; by left|left; by right|auto|].
      right. split; [done|]. right. exists w. split; [by right|done].
Qed.

(** A change of one child. *)
Lemma on_child_typed node v part pre_child f :
  node_typed node v → (not_array v ∨ ∃ i, part = Index i) →
  node_typed (fresh_child pre_child) (step v part) →
  (∀ c, node_typed c (step v part) → node_typed (f c) (step v part)) →
  node_typed (on_child part pre_child f node) v.
Proof.
  intros Hn Hv Hfresh Hf. destruct Hn as [d v Hna Hd|a l Ha]; cbn [on_child].
  - constructor; [done|]. intros k n [Hin|[-> [->|(w & Hw & ->)]]]%bt_alter_elem; [auto|..|intros ??; apply bcmp_Eq];
      cbn [default]; rewrite step_name by done; apply Hf; [done|]. rewrite <- step_name by done. by apply Hd.
  - destruct Hv as [Hv|[i ->]]; [by destruct (Hv l)|]. constructor. cbn [part_index].
    intros j n [Hin|[-> [->|(w & Hw & ->)]]]%bt_alter_elem; [auto|..|intros ??; apply Z.compare_eq]; apply Hf; [done|]. by apply Ha.
Qed.

Lemma insert_typed node v (f : OpDocDiff OpNode → OpNode) g :
  node_typed node v → (∀ d, ∃ d', f d = ODoc d' ∧ od_s d' = od_s d) → (∀ a, ∃ a', g a = OArr a' ∧ oa_s a' = oa_s a) →
  node_typed (match node with ODoc d => f d | OArr a => g a end) v.
Proof.
  intros Hn Hf Hg. destruct Hn as [d v Hna Hd|a l Ha].
  - destruct (Hf d) as (d' & -> & E). constructor; [done|]. by rewrite E.
  - destruct (Hg a) as (a' & -> & E). constructor. by rewrite E.
Qed.

Lemma set_in_typed parts v x node : node_typed node v → node_typed (set_in parts v x node) v.
Proof.
  revert v node. induction parts as [|p rest IH]; intros v node Hn; [done|]. cbn [set_in].
  destruct rest as [|q rest]; [|destruct (step v p) as [c|] eqn:Es].
  - destruct (step v p); apply insert_typed; try done; intros; eexists; done.
  - rewrite <- Es. apply on_child_typed; [done| |rewrite Es; apply fresh_typed|intros n; apply IH].
    destruct v as [[]|]; try (left; intros l; congruence). destruct p; [done|]. eauto.
  - apply insert_typed; [done|intros; eexists; done..].
Qed.

(** No part of the path is read in an array. *)
Fixpoint through_documents (v : option Bson) (parts : list OpPart) : Prop :=
  match parts with
  | p :: rest => not_array v ∧ through_documents (step v p) rest
  | [] => True
  end.

Lemma remove_typed parts v node : through_documents v parts → node_typed node v → node_typed (remove parts node) v.
Proof.
  revert v node. induction parts as [|p rest IH]; intros v node Ht Hn; [done|]. destruct Ht as [Hv Ht]. cbn [remove].
  destruct rest as [|q rest].
  - destruct Hn as [d v Hna Hd|a l _]; [by constructor|by destruct (Hv l)].
  - apply on_child_typed; [done|by left| |intros n; by apply IH]. destruct Ht as [Hs _]. by apply new_doc_typed.
Qed.

(** C12. The difference an oplog entry shows has an array node exactly where the
    old document holds an array, provided nothing is removed inside an array and
    no array is cut short. *)
Theorem oplog_tree_typed desc pre :
  get_array desc (lit "truncatedArrays") = Some [] →
  (∀ path, String path ∈ default [] (get_array desc (lit "removedFields")) →
     through_documents (Some (Document pre)) (parts_of desc pre path)) →
  node_typed (oplog_tree desc pre) (Some (Document pre)).
Proof.
  intros Ht Hr. unfold oplog_tree. rewrite Ht. cbn [default foldl].
  assert (Hroot : node_typed (foldl (read_updated desc pre) new_doc (default [] (get_document desc (lit "updatedFields")))) (Some (Document pre))).
  { assert (H0 : node_typed new_doc (Some (Document pre))) by (apply new_doc_typed; done). revert H0. generalize new_doc.
    induction (default [] (get_document desc (lit "updatedFields"))) as [|e l IH]; intros node Hn; [done|].
    apply IH. unfold read_updated. by apply set_in_typed. }
  revert Hroot Hr. generalize (foldl (read_updated desc pre) new_doc (default [] (get_document desc (lit "updatedFields")))).
  induction (default [] (get_array desc (lit "removedFields"))) as [|p l IH]; intros node Hn Hr; [done|].
  apply IH; [|intros path Hp; apply Hr; by right]. destruct p; try exact Hn. apply remove_typed; [|done]. apply Hr. by left.
Qed.

(** ** An element's field removed *)

(** [{$unset: {"arr.0.x": ""}}] on [{arr: [{x: 1}]}]. *)
#[local] Existing Instance plain_crate.

Definition unset_pre : Doc := [(lit "arr", Array [Document [(lit "x", Int32 1)]]); (lit "y", Int32 1)].
Definition unset_post : Doc := [(lit "arr", Array [Document []]); (lit "y", Int32 1)].
Definition unset_update : Doc := [(lit "$unset", Document [(lit "arr.0.x", String [])])].
Definition inc_post : Doc := [(lit "arr", Array [Document [(lit "x", Int32 2)]]); (lit "z", Int32 5)].
Definition inc_desc : Doc :=
  [(lit "updatedFields", Document [(lit "arr.0.x", Int32 2); (lit "z", Int32 5)]); (lit "removedFields", Array [String (lit "y")]);
   (lit "truncatedArrays", Array [])].

Lemma oplog_tree_typed_witness :
  compute_update_description unset_pre inc_post = Ok inc_desc ∧ node_typed (oplog_tree inc_desc unset_pre) (Some (Document unset_pre)).
Proof.
  split; [vm_compute; reflexivity|]. apply (oplog_tree_typed inc_desc unset_pre); [reflexivity|].
  intros path Hin. cbn in Hin. apply list_elem_of_singleton in Hin. injection Hin as ->.
  vm_compute. split; [intros a [=]|exact I].
Defined.

(** A field removed inside an array's element is shown as if the array were a
    document: the difference of the update has no array marker at [arr], and an
    array node is missing from its tree. *)
Theorem unset_in_array_untyped :
  ∃ desc, compute_update_description_for unset_pre unset_post (Some unset_update) = Ok desc ∧
    oplog_diff desc unset_pre =
      [(lit "sarr", Document [(lit "s0", Document [(lit "d", Document [(lit "x", Boolean false)])])])] ∧
    ¬ node_typed (oplog_tree desc unset_pre) (Some (Document unset_pre)).
Proof.
  exists [(lit "updatedFields", Document []); (lit "removedFields", Array [String (lit "arr.0.x")]); (lit "truncatedArrays", Array [])].
  split; [vm_compute; reflexivity|]. split; [vm_compute; reflexivity|].
  intros Ht. apply (typed_child _ _ (lit "arr") (remove [Index 0; Field (lit "x")] new_doc)) in Ht; [|vm_compute; left].
  vm_compute in Ht. inversion Ht as [? ? Hna|]. by eapply Hna.
Qed.
