(* ===== verification/CopyText.v ===== *)
(** * COPY: secantus-pgplan/src/copy_opts.rs and secantus-pg/src/copy_text.rs

    The options of a COPY statement, read and checked, and the text and CSV
    formats under them: a row written, and data read back into rows.

    A string is its UTF-8 bytes.  The characters the formats look for (delimiter,
    quote, escape, controls, backslash) are one byte below 128 each, so a loop over
    characters is one over bytes, and every slice of a line that is taken begins
    and ends beside such a byte.  A position in a line is what is before it and
    what is after it. *)
From stdpp Require Import strings.
From S2P Require Import Prelude RustM Docs BsonDoc.
Local Open Scope Z_scope.
Local Open Scope secantus_scope.

(** ** Options *)

Inductive ForceQuote := ForceNone | ForceAll | ForceColumns (cols : list bytes).
Inductive CopyFormat := Text | Csv | Binary_.

#[export] Instance CopyFormat_eq_dec : EqDecision CopyFormat.
Proof. solve_decision. Defined.

Record CopyOptions := mkCopyOptions {
  delimiter : Z;
  null : bytes;
  quote : Z;
  escape : Z;
  force_quote : ForceQuote;
  force_not_null : list bytes;
  force_null : list bytes;
  freeze : bool;
  encoding : option bytes;
}.

Definition DQUOTE : Z := 34.
Definition BACKSLASH : Z := 92.
Definition TAB : Z := 9.
Definition NL : Z := 10.
Definition CR : Z := 13.
Definition default_options : CopyOptions :=
  mkCopyOptions TAB [BACKSLASH; 78] DQUOTE DQUOTE ForceNone [] [] false None.

Inductive PlanError := Sqlstate (code message : bytes) | Unsupported (message : bytes).
Abbreviation PR := (outcome PlanError).

Definition redundant : PlanError := Sqlstate (lit "42601") (lit "conflicting or redundant options").
Definition unsupported (m : string) : PlanError := Sqlstate (lit "0A000") (lit m).
Definition invalid (m : bytes) : PlanError := Sqlstate (lit "22023") m.
Definition quoted (s : bytes) : bytes := [DQUOTE] ++ s ++ [DQUOTE].

(** What the grammar makes of an option's argument, as far as it is read. *)
Inductive Val := Sval (s : bytes) | Ival (i : Z) | Fval (f : bytes) | Boolval (b : bool) | Bsval (b : bytes).
Inductive Node :=
  | NString (s : bytes) | NInteger (i : Z) | NFloat (f : bytes) | NBoolean (b : bool)
  | NAConst (val : option Val) | NAStar | NList (items : list (option Node)) | NOther.

Record DefElem := mkDefElem { defname : bytes; arg : option Node }.

(** [i.to_string()] *)
Definition int_text (i : Z) : bytes := if i <? 0 then 45 :: dec_bytes (- i) else dec_bytes i.
Definition bool_text (b : bool) : bytes := if b then lit "true" else lit "false".

Definition string_arg (d : DefElem) : option bytes :=
  n ← arg d;
  match n with
  | NString s => Some s
  | NInteger i => Some (int_text i)
  | NFloat f => Some f
  | NBoolean b => Some (bool_text b)
  | NAConst c =>
      v ← c;
      Some match v with
           | Sval s => s
           | Ival i => int_text i
           | Fval f => f
           | Boolval b => bool_text b
           | Bsval b => b
           end
  | _ => None
  end.

Definition lower_byte (b : Z) : Z := if in_range 65 90 b then b + 32 else b.
Definition to_ascii_lowercase (s : bytes) : bytes := lower_byte <$> s.

Definition is_true (v : bytes) : bool := ⌊v ∈ lit <$> ["true"; "on"; "1"]%string⌋.
Definition is_false (v : bytes) : bool := ⌊v ∈ lit <$> ["false"; "off"; "0"]%string⌋.

Definition bool_arg (d : DefElem) : PR bool :=
  match string_arg d with
  | None => Ok true
  | Some v =>
      let v := to_ascii_lowercase v in
      if is_true v then Ok true else if is_false v then Ok false
      else Err (Sqlstate (lit "42601") (defname d ++ lit " requires a Boolean value"))
  end.

Definition not_list (d : DefElem) : PlanError :=
  Sqlstate (lit "22023") (lit "argument to option " ++ quoted (defname d) ++ lit " must be a list of column names").

Fixpoint names (d : DefElem) (items : list (option Node)) : PR (list bytes) :=
  match items with
  | [] => Ok []
  | Some (NString s) :: items => l ← names d items; Ok (s :: l)
  | _ :: _ => Err (not_list d)
  end.

(** [Ok None] for [*]. *)
Definition column_list (d : DefElem) (star_ok : bool) : PR (option (list bytes)) :=
  match arg d with
  | Some NAStar => if star_ok then Ok None else Err (not_list d)
  | Some (NList l) => cols ← names d l; Ok (Some cols)
  | _ => Err (not_list d)
  end.

(** The options met so far. *)
Record Slots := mkSlots {
  s_format : option CopyFormat;
  s_header : option bool;
  s_delimiter : option bytes;
  s_null : option bytes;
  s_quote : option bytes;
  s_escape : option bytes;
  s_force_quote : option ForceQuote;
  s_force_not_null : option (list bytes);
  s_force_null : option (list bytes);
  s_freeze : option bool;
  s_encoding : option bytes;
}.
Definition no_slots : Slots := mkSlots None None None None None None None None None None None.

(** A slot may be filled once. *)
Definition once {A} (slot : option A) : PR () := match slot with Some _ => Err redundant | None => Ok () end.

Definition set_str (d : DefElem) (slot : option bytes) : PR (option bytes) :=
  _ ← once slot; Ok (Some (default [] (string_arg d))).

Section options.
(** [builtins_text::encoding_by_name] *)
Context (encoding_by_name : bytes → option bytes).

Definition read_format (d : DefElem) : PR CopyFormat :=
  let v := default [] (string_arg d) in
  let l := to_ascii_lowercase v in
  if ⌊l = lit "text"⌋ then Ok Text else if ⌊l = lit "csv"⌋ then Ok Csv else if ⌊l = lit "binary"⌋ then Ok Binary_
  else Err (invalid (lit "COPY format " ++ quoted v ++ lit " not recognized")).

Definition read_header (d : DefElem) : PR bool :=
  match to_ascii_lowercase <$> string_arg d with
  | None => Ok true
  | Some v =>
      if ⌊v = lit "match"⌋ then Err (Unsupported (lit "COPY ... HEADER MATCH"))
      else if is_true v then Ok true else if is_false v then Ok false
      else Err (Sqlstate (lit "42601") (defname d ++ lit " requires a Boolean value or " ++ quoted (lit "match")))
  end.

Definition read_encoding (d : DefElem) : PR bytes :=
  match encoding_by_name (default [] (string_arg d)) with
  | Some canonical => Ok canonical
  | None => Err (invalid (lit "argument to option " ++ quoted (defname d) ++ lit " must be a valid encoding name"))
  end.

Definition read_option (s : Slots) (d : DefElem) : PR Slots :=
  let '(mkSlots f h dl nu q e fq fnn fn fr en) := s in
  let named n := ⌊defname d = lit n⌋ in
  if named "format" then _ ← once f; v ← read_format d; Ok (mkSlots (Some v) h dl nu q e fq fnn fn fr en)
  else if named "freeze" then _ ← once fr; v ← bool_arg d; Ok (mkSlots f h dl nu q e fq fnn fn (Some v) en)
  else if named "delimiter" then v ← set_str d dl; Ok (mkSlots f h v nu q e fq fnn fn fr en)
  else if named "null" then v ← set_str d nu; Ok (mkSlots f h dl v q e fq fnn fn fr en)
  else if named "header" then _ ← once h; v ← read_header d; Ok (mkSlots f (Some v) dl nu q e fq fnn fn fr en)
  else if named "quote" then v ← set_str d q; Ok (mkSlots f h dl nu v e fq fnn fn fr en)
  else if named "escape" then v ← set_str d e; Ok (mkSlots f h dl nu q v fq fnn fn fr en)
  else if named "force_quote" then
    _ ← once fq; v ← column_list d true;
    Ok (mkSlots f h dl nu q e (Some (match v with None => ForceAll | Some cols => ForceColumns cols end)) fnn fn fr en)
  else if named "force_not_null" then _ ← once fnn; v ← column_list d false; Ok (mkSlots f h dl nu q e fq v fn fr en)
  else if named "force_null" then _ ← once fn; v ← column_list d false; Ok (mkSlots f h dl nu q e fq fnn v fr en)
  else if named "encoding" then _ ← once en; v ← read_encoding d; Ok (mkSlots f h dl nu q e fq fnn fn fr (Some v))
  else Err (Sqlstate (lit "42601") (lit "option " ++ quoted (defname d) ++ lit " not recognized")).

Fixpoint read_options (s : Slots) (l : list DefElem) : PR Slots :=
  match l with [] => Ok s | d :: l => s ← read_option s d; read_options s l end.
End options.

(** ** The checks *)

Definition refuse (b : bool) (e : PlanError) : PR () := if b then Err e else Ok ().

Definition contains_any (s : bytes) (l : list Z) : bool := existsb (λ c, ⌊c ∈ l⌋) s.

(** [s.contains(t)] of a one-byte [t]. *)
Definition contains_one (s t : bytes) : bool := match t with [c] => ⌊c ∈ s⌋ | _ => false end.

Definition UNSAFE_DELIMITERS : bytes := [BACKSLASH; 46] ++ lit "abcdefghijklmnopqrstuvwxyz0123456789".

(** [referenced]: each column of a FORCE_ list is one the COPY reads or writes. *)
Fixpoint referenced (columns : list bytes) (relation : option (bytes * list bytes)) (list : list bytes) (option : string) : PR () :=
  match list with
  | [] => Ok ()
  | name :: list =>
      let known := match relation with Some (_, all) => ⌊name ∈ all⌋ | None => ⌊name ∈ columns⌋ end in
      _ ← refuse (negb known)
            (Sqlstate (lit "42703")
               match relation with
               | Some (rel, _) => lit "column " ++ quoted name ++ lit " of relation " ++ quoted rel ++ lit " does not exist"
               | None => lit "column " ++ quoted name ++ lit " does not exist"
               end);
      _ ← refuse (negb ⌊name ∈ columns⌋)
            (Sqlstate (lit "42P10") (lit option ++ lit " column " ++ quoted name ++ lit " not referenced by COPY"));
      referenced columns relation list option
  end.

Record Parsed := mkParsed { format : CopyFormat; header : bool; options : CopyOptions }.

Definition is_some {A} (o : option A) : bool := match o with Some _ => true | None => false end.

(** [s.chars().next()] of a string that was checked to be one byte. *)
Definition one (s : bytes) : PR Z := match s with c :: _ => Ok c | [] => Panic end.

(** The checks of [process] on DELIMITER and NULL. *)
Definition check_separators (csv : bool) (delimiter null : bytes) : PR () :=
  _ ← refuse (negb ⌊length delimiter = 1%nat⌋) (unsupported "COPY delimiter must be a single one-byte character");
  _ ← refuse (contains_any delimiter [CR; NL]) (invalid (lit "COPY delimiter cannot be newline or carriage return"));
  _ ← refuse (contains_any null [CR; NL]) (invalid (lit "COPY null representation cannot use newline or carriage return"));
  refuse (negb csv && contains_one UNSAFE_DELIMITERS delimiter) (invalid (lit "COPY delimiter cannot be " ++ quoted delimiter)).

(** Those on QUOTE, ESCAPE and the FORCE_ options, which are for CSV. *)
Definition check_csv (csv is_from : bool) (s : Slots) (delimiter quote escape : bytes) : PR () :=
  _ ← refuse (negb csv && is_some (s_quote s)) (unsupported "COPY quote available only in CSV mode");
  _ ← refuse (csv && negb ⌊length quote = 1%nat⌋) (unsupported "COPY quote must be a single one-byte character");
  _ ← refuse (csv && ⌊delimiter = quote⌋) (invalid (lit "COPY delimiter and quote must be different"));
  _ ← refuse (negb csv && is_some (s_escape s)) (unsupported "COPY escape available only in CSV mode");
  _ ← refuse (csv && negb ⌊length escape = 1%nat⌋) (unsupported "COPY escape must be a single one-byte character");
  _ ← refuse (negb csv && is_some (s_force_quote s)) (unsupported "COPY force quote available only in CSV mode");
  _ ← refuse (is_some (s_force_quote s) && is_from) (unsupported "COPY force quote only available using COPY TO");
  _ ← refuse (negb csv && is_some (s_force_not_null s)) (unsupported "COPY force not null available only in CSV mode");
  _ ← refuse (is_some (s_force_not_null s) && negb is_from) (unsupported "COPY force not null only available using COPY FROM");
  _ ← refuse (negb csv && is_some (s_force_null s)) (unsupported "COPY force null available only in CSV mode");
  refuse (is_some (s_force_null s) && negb is_from) (unsupported "COPY force null only available using COPY FROM").

Definition check_columns (columns : list bytes) (relation : option (bytes * list bytes)) (s : Slots) : PR () :=
  _ ← match s_force_quote s with Some (ForceColumns cols) => referenced columns relation cols "FORCE_QUOTE" | _ => Ok () end;
  _ ← match s_force_not_null s with Some cols => referenced columns relation cols "FORCE_NOT_NULL" | None => Ok () end;
  match s_force_null s with Some cols => referenced columns relation cols "FORCE_NULL" | None => Ok () end.

Section process.
Context (encoding_by_name : bytes → option bytes).

Definition process (opts : list DefElem) (is_from : bool) (columns : list bytes) (relation : option (bytes * list bytes))
    : PR Parsed :=
  s ← read_options encoding_by_name no_slots opts;
  let fmt := default Text (s_format s) in
  let csv := ⌊fmt = Csv⌋ in
  let binary := ⌊fmt = Binary_⌋ in
  _ ← refuse (binary && is_some (s_delimiter s)) (Sqlstate (lit "42601") (lit "cannot specify DELIMITER in BINARY mode"));
  _ ← refuse (binary && is_some (s_null s)) (Sqlstate (lit "42601") (lit "cannot specify NULL in BINARY mode"));
  let delimiter := default (if csv then lit "," else [TAB]) (s_delimiter s) in
  let null := default (if csv then [] else [BACKSLASH; 78]) (s_null s) in
  _ ← check_separators csv delimiter null;
  let header := default false (s_header s) in
  _ ← refuse (binary && header) (unsupported "cannot specify HEADER in BINARY mode");
  let quote := default [DQUOTE] (s_quote s) in
  let escape := default quote (s_escape s) in
  _ ← check_csv csv is_from s delimiter quote escape;
  _ ← refuse (contains_one null delimiter) (unsupported "COPY delimiter must not appear in the NULL specification");
  _ ← refuse (csv && contains_one null quote) (unsupported "CSV quote character must not appear in the NULL specification");
  _ ← check_columns columns relation s;
  d ← one delimiter; q ← one quote; e ← one escape;
  Ok (mkParsed fmt header
        (mkCopyOptions d null q e (default ForceNone (s_force_quote s)) (default [] (s_force_not_null s))
           (default [] (s_force_null s)) (default false (s_freeze s)) (s_encoding s))).
End process.

(** ** Writing *)

Definition text_escape (delim c : Z) : bytes :=
  if c =? 8 then [BACKSLASH; 98]
  else if c =? 12 then [BACKSLASH; 102]
  else if c =? NL then [BACKSLASH; 110]
  else if c =? CR then [BACKSLASH; 114]
  else if (c =? TAB) && negb (delim =? TAB) then [BACKSLASH; 116]
  else if c =? 11 then [BACKSLASH; 118]
  else if c =? BACKSLASH then [BACKSLASH; BACKSLASH]
  else if c =? delim then [BACKSLASH; if c =? TAB then 116 else c]
  else [c].

Definition csv_escape (quote escape c : Z) : bytes := if (c =? quote) || (c =? escape) then [escape; c] else [c].

Definition use_quote (opts : CopyOptions) (force single : bool) (text : bytes) : bool :=
  force || ⌊text = null opts⌋ || (single && ⌊text = [BACKSLASH; 46]⌋)
  || existsb (λ c, (c =? delimiter opts) || (c =? quote opts) || (c =? NL) || (c =? CR)) text.

(** What [write_field] appends. *)
Definition write_field (value : option bytes) (csv : bool) (opts : CopyOptions) (force single : bool) : bytes :=
  match value with
  | None => null opts
  | Some text =>
      if csv then
        if use_quote opts force single text
        then [quote opts] ++ concat (csv_escape (quote opts) (escape opts) <$> text) ++ [quote opts]
        else text
      else concat (text_escape (delimiter opts) <$> text)
  end.

Definition forced (flags : list bool) (i : nat) : bool := default false (flags !! i).

(** [copy_text_row] of a row whose values are rendered. *)
Fixpoint row_fields (row : list (option bytes)) (i : nat) (csv : bool) (opts : CopyOptions) (force_quote : list bool) (single : bool)
    : bytes :=
  match row with
  | [] => []
  | v :: row =>
      (if ⌊(0 < i)%nat⌋ then [delimiter opts] else [])
      ++ write_field v csv opts (match v with Some _ => forced force_quote i | None => false end) single
      ++ row_fields row (S i) csv opts force_quote single
  end.

Definition copy_text_row (row : list (option bytes)) (csv : bool) (opts : CopyOptions) (force_quote : list bool) : bytes :=
  row_fields row 0 csv opts force_quote ⌊length row = 1%nat⌋ ++ [NL].

(** ** Reading text *)

Abbreviation Row := (list (option bytes)).

(** [s.trim_end_matches('\r')] *)
Fixpoint drop_cr (l : bytes) : bytes := match l with c :: t => if c =? CR then drop_cr t else l | [] => [] end.
Definition trim_cr (s : bytes) : bytes := reverse (drop_cr (reverse s)).

Definition is_octal (b : Z) : bool := in_range 48 55 b.
Definition is_hex (b : Z) : bool := in_range 48 57 b || in_range 97 102 b || in_range 65 70 b.
Definition hex (b : Z) : Z := default 0 (hex_value b).

Fixpoint unescape_bytes (s : bytes) : bytes :=
  match s with
  | [] => []
  | b :: s =>
      if negb (b =? BACKSLASH) then b :: unescape_bytes s
      else
        match s with
        | [] => [BACKSLASH]
        | c :: s1 =>
            if c =? 98 then 8 :: unescape_bytes s1
            else if c =? 102 then 12 :: unescape_bytes s1
            else if c =? 110 then NL :: unescape_bytes s1
            else if c =? 114 then CR :: unescape_bytes s1
            else if c =? 116 then TAB :: unescape_bytes s1
            else if c =? 118 then 11 :: unescape_bytes s1
            else if is_octal c then
              let v1 := c - 48 in
              match s1 with
              | d :: s2 =>
                  if is_octal d then
                    let v2 := v1 * 8 + (d - 48) in
                    match s2 with
                    | e :: s3 => if is_octal e then Z.land (v2 * 8 + (e - 48)) 255 :: unescape_bytes s3
                                 else Z.land v2 255 :: unescape_bytes s2
                    | [] => [Z.land v2 255]
                    end
                  else Z.land v1 255 :: unescape_bytes s1
              | [] => [Z.land v1 255]
              end
            else
              match s1 with
              | h :: s2 =>
                  if (c =? 120) && is_hex h then
                    match s2 with
                    | l :: s3 => if is_hex l then Z.land (hex h * 16 + hex l) 255 :: unescape_bytes s3
                                 else Z.land (hex h) 255 :: unescape_bytes s2
                    | [] => [Z.land (hex h) 255]
                    end
                  else c :: unescape_bytes s1
              | [] => [c]
              end
        end
  end.

(** [String::from_utf8_lossy] *)
Fixpoint lossy_loop (fuel : nat) (l : bytes) : bytes :=
  match fuel, l with
  | O, _ | _, [] => []
  | S fuel, _ => let '(valid, n) := utf8_unit l in
                 (if valid then take n l else [239; 191; 189]) ++ lossy_loop fuel (drop n l)
  end.
Definition from_utf8_lossy (l : bytes) : bytes := lossy_loop (length l) l.

Definition unescape_copy_text (field : bytes) : bytes := from_utf8_lossy (unescape_bytes field).

(** The fields of a line, not read yet; [raw] is what of the field is passed. *)
Fixpoint raw_fields (delim : Z) (raw rest : bytes) : list bytes :=
  match rest with
  | [] => [raw]
  | b :: rest1 =>
      if b =? delim then raw :: raw_fields delim [] rest1
      else if b =? BACKSLASH then
        match rest1 with
        | c :: rest2 => raw_fields delim (raw ++ [b; c]) rest2
        | [] => [raw ++ [b]]
        end
      else raw_fields delim (raw ++ [b]) rest1
  end.

Definition read_field (opts : CopyOptions) (raw : bytes) : option bytes :=
  if ⌊raw = null opts⌋ then None else Some (unescape_copy_text raw).

Fixpoint text_lines (opts : CopyOptions) (lines : list bytes) : list (Row * bytes) :=
  match lines with
  | [] => []
  | line :: lines =>
      if ⌊length line = 0%nat⌋ then text_lines opts lines
      else if ⌊line = [BACKSLASH; 46]⌋ then []
      else (read_field opts <$> raw_fields (delimiter opts) [] line, trim_cr line) :: text_lines opts lines
  end.

Definition parse_text (text : bytes) (opts : CopyOptions) : list (Row * bytes) := text_lines opts (split_char NL text).

(** ** Reading CSV *)

(** [cs_line] is the text of the row being read, from [row_start] on. *)
Record CsvState := mkCsv {
  cs_rows : list (Row * bytes);
  cs_row : Row;
  cs_field : bytes;
  cs_in_quote : bool;
  cs_saw_quote : bool;
  cs_line_start : bool;
  cs_line : bytes;
}.
Definition csv_start : CsvState := mkCsv [] [] [] false false true [].

Definition finish (opts : CopyOptions) (st : CsvState) : option bytes :=
  if negb (cs_saw_quote st) && ⌊cs_field st = null opts⌋ then None else Some (cs_field st).

Definition push_field (opts : CopyOptions) (st : CsvState) : CsvState :=
  mkCsv (cs_rows st) (cs_row st ++ [finish opts st]) [] (cs_in_quote st) false (cs_line_start st) (cs_line st).

Definition push_row (st : CsvState) : CsvState :=
  mkCsv (cs_rows st ++ [(cs_row st, trim_cr (cs_line st))]) [] (cs_field st) (cs_in_quote st) (cs_saw_quote st) true [].

(** [c]s are passed and, if [push], are in the field. *)
Definition pass (line field : bytes) (in_quote : bool) (st : CsvState) : CsvState :=
  mkCsv (cs_rows st) (cs_row st) (cs_field st ++ field) in_quote (cs_saw_quote st) (cs_line_start st) (cs_line st ++ line).

(** A character outside quotes. *)
Definition plain_char (opts : CopyOptions) (c : Z) (st : CsvState) : CsvState :=
  let st := mkCsv (cs_rows st) (cs_row st) (cs_field st) (cs_in_quote st) (cs_saw_quote st) false (cs_line st) in
  if c =? quote opts then mkCsv (cs_rows st) (cs_row st) (cs_field st) true true (cs_line_start st) (cs_line st ++ [c])
  else if c =? delimiter opts then push_field opts (pass [c] [] false st)
  else if c =? NL then push_row (push_field opts st)
  else if c =? CR then pass [c] [] false st
  else pass [c] [c] false st.

(** [\.] alone on the line. *)
Definition ends_data (c : Z) (rest : bytes) : bool :=
  (c =? BACKSLASH)
  && match rest with
     | 46 :: rest => match rest with [] => true | d :: _ => (d =? NL) || (d =? CR) end
     | _ => false
     end.

Fixpoint csv_loop (opts : CopyOptions) (st : CsvState) (chars : bytes) : CsvState :=
  match chars with
  | [] => st
  | c :: rest =>
      if cs_in_quote st then
        match rest with
        | next :: rest' =>
            if (c =? escape opts) && negb (escape opts =? quote opts) && ((next =? quote opts) || (next =? escape opts))
            then csv_loop opts (pass [c; next] [next] true st) rest'
            else if c =? quote opts then
              if (escape opts =? quote opts) && (next =? quote opts)
              then csv_loop opts (pass [c; next] [quote opts] true st) rest'
              else csv_loop opts (pass [c] [] false st) rest
            else csv_loop opts (pass [c] [c] true st) rest
        | [] => if c =? quote opts then csv_loop opts (pass [c] [] false st) rest
                else csv_loop opts (pass [c] [c] true st) rest
        end
      else if cs_line_start st && ends_data c rest then pass chars [] false st
      else csv_loop opts (plain_char opts c st) rest
  end.

Definition parse_csv (text : bytes) (opts : CopyOptions) : list (Row * bytes) :=
  let st := csv_loop opts csv_start text in
  if negb ⌊length (cs_field st) = 0%nat⌋ || cs_saw_quote st || negb ⌊length (cs_row st) = 0%nat⌋
  then cs_rows (push_row (push_field opts st)) else cs_rows st.

(** ** Both formats *)

Definition force_field (opts : CopyOptions) (not_null to_null : list bool) (i : nat) (field : option bytes) : option bytes :=
  match field with
  | None => if forced not_null i then Some (null opts) else
              if forced to_null i && ⌊field = Some (null opts)⌋ then None else field
  | Some _ => if forced to_null i && ⌊field = Some (null opts)⌋ then None else field
  end.

Definition parse_lines (text : bytes) (csv : bool) (opts : CopyOptions) (not_null to_null : list bool) : list (Row * bytes) :=
  if csv then (λ rl : Row * bytes, (imap (force_field opts not_null to_null) rl.1, rl.2)) <$> parse_csv text opts
  else parse_text text opts.

Definition parse (text : bytes) (csv : bool) (opts : CopyOptions) (not_null to_null : list bool) : list Row :=
  fst <$> parse_lines text csv opts not_null to_null.
