(* ===== verification/CopyProps.v ===== *)
(** * COPY: what is written reads back

    Under the options [process] accepts, rows written in the text or the CSV format
    read back as they were, but for the corners the theorems name. *)
From stdpp Require Import strings.
From S2P Require Import Prelude RustM Docs BsonDoc CopyText.
Local Open Scope Z_scope.
Local Open Scope secantus_scope.

(** A closed decidable goal. *)
Ltac decided := match goal with |- ?P => exact (bool_decide_eq_true_1 P eq_refl) end.

(** ** The options [process] accepts *)

Record sane (csv : bool) (o : CopyOptions) : Prop := {
  sn_delim : delimiter o ≠ CR ∧ delimiter o ≠ NL;
  sn_null : (CR ∉ null o) ∧ (NL ∉ null o);
  sn_apart : delimiter o ∉ null o;
  sn_text : csv = false → delimiter o ∉ UNSAFE_DELIMITERS;
  sn_csv : csv = true → delimiter o ≠ quote o ∧ quote o ∉ null o;
}.

Lemma refuse_Ok b e u : refuse b e = Ok u → b = false.
Proof. by destruct b. Qed.

Lemma contains_any_false s l : contains_any s l = false → ∀ c, c ∈ s → c ∉ l.
Proof.
  unfold contains_any. induction s as [|x s IH]; cbn; [intros _ c Hc; elem_nil|].
  intros [Hx%bool_decide_eq_false Hs]%orb_false_iff c [->|Hc]%elem_of_cons; [done|]. by apply IH.
Qed.

Lemma process_sane enc ds is_from cols rel p :
  process enc ds is_from cols rel = Ok p → sane ⌊format p = Csv⌋ (options p).
Proof.
  unfold process. intros (s & _ & H)%bind_Ok. apply bind_Ok in H as (_ & _ & H). apply bind_Ok in H as (_ & _ & H).
  set (csv := ⌊default Text (s_format s) = Csv⌋) in H. set (d := default _ (s_delimiter s)) in H. set (n := default _ (s_null s)) in H.
  apply bind_Ok in H as (? & Hsep & H). apply bind_Ok in H as (_ & _ & H).
  set (q := default _ (s_quote s)) in H. set (e := default q (s_escape s)) in H.
  apply bind_Ok in H as (? & Hcsv & H). apply bind_Ok in H as (? & Hdn%refuse_Ok & H). apply bind_Ok in H as (? & Hqn%refuse_Ok & H).
  apply bind_Ok in H as (_ & _ & H).
  unfold check_separators in Hsep. apply bind_Ok in Hsep as (? & Hlen%refuse_Ok & Hsep). apply bind_Ok in Hsep as (? & Hdl%refuse_Ok & Hsep).
  apply bind_Ok in Hsep as (? & Hnl%refuse_Ok & Hun%refuse_Ok).
  unfold check_csv in Hcsv. apply bind_Ok in Hcsv as (_ & _ & Hcsv). apply bind_Ok in Hcsv as (? & Hql%refuse_Ok & Hcsv).
  apply bind_Ok in Hcsv as (? & Hdq%refuse_Ok & _). 
  apply negb_false_iff, bool_decide_eq_true in Hlen. destruct d as [|d0 [|]] eqn:Ed; try discriminate Hlen.
  cbn [one mbind outcome_bind] in H. apply bind_Ok in H as (q0 & Hq & H). apply bind_Ok in H as (e0 & _ & H). injection H as <-.
  cbn [format options]. fold csv. split; cbn [delimiter null quote].
  - pose proof (contains_any_false _ _ Hdl d0 ltac:(left)). set_solver.
  - split; intros Hin; by apply (contains_any_false _ _ Hnl _ Hin); set_solver.
  - by apply bool_decide_eq_false in Hdn.
  - intros Hc. rewrite Hc in Hun. by apply bool_decide_eq_false in Hun.
  - intros Hc. rewrite Hc in *. cbn in Hql, Hdq, Hqn. apply negb_false_iff, bool_decide_eq_true in Hql.
    destruct q as [|q1 [|]]; try discriminate Hql. injection Hq as <-. apply bool_decide_eq_false in Hdq, Hqn. split; [congruence|done].
Qed.

(** ** Rows as fields between delimiters *)

Definition written (row : Row) (i : nat) (csv : bool) (o : CopyOptions) (fq : list bool) (single : bool) : list bytes :=
  imap (λ j v, write_field v csv o (match v with Some _ => forced fq (i + j) | None => false end) single) row.

Definition between (d : Z) (fs : list bytes) : bytes := concat ((λ f, d :: f) <$> fs).

Definition joined (d : Z) (fs : list bytes) : bytes := match fs with [] => [] | f :: fs => f ++ between d fs end.

Lemma row_fields_between row i csv o fq single :
  row_fields row (S i) csv o fq single = between (delimiter o) (written row (S i) csv o fq single).
Proof.
  revert i. induction row as [|v row IH]; intros i; [done|]. cbn [row_fields]. rewrite bool_decide_true by lia.
  unfold written, between. cbn [imap]. rewrite fmap_cons. cbn [concat app]. rewrite Nat.add_0_r, IH. do 2 f_equal.
  unfold between, written. do 2 f_equal. apply imap_ext. intros j w _. cbn. by rewrite Nat.add_succ_r.
Qed.

Lemma row_fields_joined row csv o fq single :
  row_fields row 0 csv o fq single = joined (delimiter o) (written row 0 csv o fq single).
Proof.
  destruct row as [|v row]; [done|]. cbn [row_fields]. rewrite bool_decide_false by lia. cbn [app].
  rewrite row_fields_between. unfold joined, written. cbn [imap]. do 2 f_equal.
Qed.

Definition row_line (row : Row) (csv : bool) (o : CopyOptions) (fq : list bool) : bytes :=
  joined (delimiter o) (written row 0 csv o fq ⌊length row = 1%nat⌋).

Lemma copy_text_row_line row csv o fq : copy_text_row row csv o fq = row_line row csv o fq ++ [NL].
Proof. unfold copy_text_row. by rewrite row_fields_joined. Qed.

(** ** Lines and raw fields *)

(** A field whose backslashes each take a byte, with no delimiter outside them. *)
Fixpoint closed (delim : Z) (f : bytes) : bool :=
  match f with
  | [] => true
  | b :: f => if b =? BACKSLASH then match f with _ :: f => closed delim f | [] => false end
              else negb (b =? delim) && closed delim f
  end.

Lemma raw_plain delim raw b rest :
  b ≠ BACKSLASH → (b =? delim) = false → raw_fields delim raw (b :: rest) = raw_fields delim (raw ++ [b]) rest.
Proof. intros Hb Hd. cbn [raw_fields]. by rewrite Hd, (proj2 (Z.eqb_neq _ _)) by done. Qed.

Lemma raw_escape delim raw c rest :
  delim ≠ BACKSLASH → raw_fields delim raw (BACKSLASH :: c :: rest) = raw_fields delim (raw ++ [BACKSLASH; c]) rest.
Proof. intros Hd. cbn [raw_fields]. by rewrite (proj2 (Z.eqb_neq BACKSLASH delim)) by done. Qed.

Lemma raw_fields_closed delim f raw rest :
  delim ≠ BACKSLASH → closed delim f = true → raw_fields delim raw (f ++ rest) = raw_fields delim (raw ++ f) rest.
Proof.
  intros Hd. revert raw. induction f as [|b|b c f IH1 IH2] using list_pair_ind; intros raw.
  - by rewrite app_nil_r.
  - cbn [closed]. destruct (Z.eqb_spec b BACKSLASH) as [->|Hb]; [done|]. rewrite andb_true_r, negb_true_iff. intros Hbd. by apply raw_plain.
  - destruct (Z.eqb_spec b BACKSLASH) as [->|Hb].
    + intros Hf. cbn [app]. rewrite raw_escape, IH1 by done. by rewrite <- app_assoc.
    + cbn [closed]. rewrite (proj2 (Z.eqb_neq b _)), andb_true_iff, negb_true_iff by done. intros [Hbd Hf].
      change ((b :: c :: f) ++ rest) with (b :: (c :: f) ++ rest). rewrite raw_plain, IH2 by done. by rewrite <- app_assoc.
Qed.

Lemma raw_fields_joined delim fs :
  delim ≠ BACKSLASH → fs ≠ [] → Forall (λ f, closed delim f = true) fs → raw_fields delim [] (joined delim fs) = fs.
Proof.
  intros Hd Hne Hfs. destruct fs as [|f fs]; [done|]. clear Hne. apply Forall_cons in Hfs as [Hf Hfs]. cbn [joined].
  rewrite raw_fields_closed by done. cbn [app]. revert f Hf. induction Hfs as [|g fs Hg _ IH]; intros f Hf; [done|].
  unfold between. rewrite fmap_cons. cbn [concat app raw_fields]. rewrite Z.eqb_refl. f_equal.
  rewrite raw_fields_closed by done. by apply IH.
Qed.

(** ** Escapes *)

Definition special (c : Z) : Prop := c ∈ [8; 12; NL; CR; TAB; 11; BACKSLASH].

Section escapes.
Context (delim : Z) (Hdelim : delim ∉ UNSAFE_DELIMITERS) (Hnl : delim ≠ NL) (Hcr : delim ≠ CR).

Lemma delim_backslash : delim ≠ BACKSLASH.
Proof. intros ->. apply Hdelim. by left. Qed.

Lemma text_escape_cases c :
  (∃ x, text_escape delim c = [BACKSLASH; x] ∧ x ≠ NL ∧ x ≠ CR ∧ unescape_bytes [BACKSLASH; x] = [c] ∧
        ∀ rest, unescape_bytes (BACKSLASH :: x :: rest) = c :: unescape_bytes rest) ∨
  (text_escape delim c = [c] ∧ c ≠ BACKSLASH ∧ c ≠ delim ∧ c ≠ NL ∧ c ≠ CR).
Proof.
  unfold text_escape.
  destruct (Z.eqb_spec c 8) as [->|]; [left; eexists; by split_and!|].
  destruct (Z.eqb_spec c 12) as [->|]; [left; eexists; by split_and!|].
  destruct (Z.eqb_spec c NL) as [->|]; [left; eexists; by split_and!|].
  destruct (Z.eqb_spec c CR) as [->|]; [left; eexists; by split_and!|].
  destruct ((c =? TAB) && _) eqn:Et; [apply andb_true_iff in Et as [->%Z.eqb_eq _]; left; eexists; by split_and!|].
  destruct (Z.eqb_spec c 11) as [->|]; [left; eexists; by split_and!|].
  destruct (Z.eqb_spec c BACKSLASH) as [->|]; [left; eexists; split_and!; [done..|]; by intros []|].
  destruct (Z.eqb_spec c delim) as [->|]; [|by right].
  destruct (Z.eqb_spec delim TAB) as [->|]; [left; eexists; by split_and!|].
  left. exists delim.
  assert (Hu : ∀ rest, unescape_bytes (BACKSLASH :: delim :: rest) = delim :: unescape_bytes rest).
  { intros rest. cbn [unescape_bytes]. unfold is_octal, in_range. rewrite Z.eqb_refl. cbn [negb].
    assert (Hne : ∀ x, x ∈ UNSAFE_DELIMITERS → delim ≠ x) by (intros x Hx ->; done).
    repeat (rewrite (proj2 (Z.eqb_neq delim _)); [|apply Hne; decided]).
    destruct (Z.leb_spec 48 delim), (Z.leb_spec delim 55); cbn [andb].
    { exfalso. assert (Ho : delim = 48 ∨ delim = 49 ∨ delim = 50 ∨ delim = 51 ∨ delim = 52 ∨ delim = 53 ∨ delim = 54 ∨ delim = 55) by lia.
      apply Hdelim. repeat destruct Ho as [->|Ho]; try subst; decided. }
    all: destruct rest as [|h rest]; done. }
  split_and!; [done|done|done|apply (Hu [])|exact Hu].
Qed.

Lemma unescape_escaped t : unescape_bytes (concat (text_escape delim <$> t)) = t.
Proof.
  induction t as [|c t IH]; [done|]. rewrite fmap_cons. cbn [concat].
  destruct (text_escape_cases c) as [(x & -> & _ & _ & _ & Hu)|(-> & Hb & _)]; cbn [app].
  - by rewrite Hu, IH.
  - cbn [unescape_bytes]. rewrite (proj2 (Z.eqb_neq c BACKSLASH)) by done. cbn [negb]. by rewrite IH.
Qed.

Lemma closed_app f g : closed delim f = true → closed delim (f ++ g) = closed delim g.
Proof.
  induction f as [|b|b c f IH1 IH2] using list_pair_ind; [done|..].
  - cbn. destruct (b =? BACKSLASH); [done|]. rewrite andb_true_r. by intros ->.
  - cbn [closed app]. destruct (b =? BACKSLASH); [done|]. intros [-> Hf]%andb_true_iff. by apply IH2.
Qed.

Lemma escaped_line t : closed delim (concat (text_escape delim <$> t)) = true ∧ NL ∉ concat (text_escape delim <$> t).
Proof.
  induction t as [|c t [IH1 IH2]]; [split; [done|]; intros ?; elem_nil|]. rewrite fmap_cons. cbn [concat].
  destruct (text_escape_cases c) as [(x & -> & Hx & _ & _ & _)|(-> & Hb & Hd & Hn & _)].
  - split; [|rewrite not_elem_of_app; split; [|done]; rewrite !not_elem_of_cons; split_and!; [done|done|]; intros ?; elem_nil].
    by rewrite closed_app.
  - split; [|rewrite not_elem_of_app; split; [|done]; rewrite !not_elem_of_cons; split_and!; [done|]; intros ?; elem_nil].
    rewrite closed_app; [done|]. cbn. rewrite (proj2 (Z.eqb_neq c BACKSLASH)), (proj2 (Z.eqb_neq c delim)) by done. done.
Qed.
End escapes.

(** ** Valid UTF-8 is kept *)

Lemma utf8_unit_valid b l : is_utf8 (b :: l) = true →
  ∃ n, utf8_unit (b :: l) = (true, S n) ∧ is_utf8 (drop (S n) (b :: l)) = true.
Proof.
  intros Hu. cbn [is_utf8] in Hu. unfold utf8_unit.
  destruct (b <? 128) eqn:E0; [by exists 0%nat|]. destruct l as [|b1 l]; [done|].
  destruct (in_range 194 223 b) eqn:E1; [apply andb_true_iff in Hu as [-> Hu]; by exists 1%nat|].
  destruct l as [|b2 l]; [done|]. unfold is_cont in *.
  destruct (_ || _ || _ || _) eqn:E2.
  - apply andb_true_iff in Hu as [Hc Hu]. exists 2%nat.
    assert (E3 : in_range 224 239 b = true).
    { unfold in_range in *. repeat (apply orb_true_iff in E2 as [E2|E2]); apply andb_true_iff in E2 as [E2 _];
        try apply bool_decide_eq_true in E2; lia. }
    rewrite E3, Hc. unfold in_range in *.
    repeat (apply orb_true_iff in E2 as [E2|E2]); apply andb_true_iff in E2 as [E2 E4]; try apply bool_decide_eq_true in E2;
      destruct (Z.eqb_spec b 224), (Z.eqb_spec b 237); try lia; rewrite ?E4; (split; [|done]);
      repeat match goal with |- context [if ?c then _ else _] => replace c with true by lia end; done.
  - destruct l as [|b3 l]; [done|]. apply andb_true_iff in Hu as [[[E3 Hc2]%andb_true_iff Hc3]%andb_true_iff Hu]. exists 3%nat.
    assert (E4 : in_range 224 239 b = false ∧ in_range 240 244 b = true).
    { unfold in_range in *. repeat (apply orb_true_iff in E3 as [E3|E3]); apply andb_true_iff in E3 as [E3 _];
        try apply bool_decide_eq_true in E3; lia. }
    destruct E4 as [-> ->]. rewrite Hc2, Hc3. unfold in_range in *.
    repeat (apply orb_true_iff in E3 as [E3|E3]); apply andb_true_iff in E3 as [E3 E4]; try apply bool_decide_eq_true in E3;
      destruct (Z.eqb_spec b 240), (Z.eqb_spec b 244); try lia; (split; [|done]);
      repeat match goal with |- context [if ?c then _ else _] => replace c with true by lia end; done.
Qed.

Lemma from_utf8_lossy_valid l : is_utf8 l = true → from_utf8_lossy l = l.
Proof.
  unfold from_utf8_lossy. assert (Hn : (length l ≤ length l)%nat) by lia. revert Hn. generalize (length l) at 2 3.
  intros n. revert l. induction n as [|n IH]; intros [|b l] Hn Hu; try done; [cbn in Hn; lia|]. cbn [lossy_loop].
  destruct (utf8_unit_valid b l Hu) as (m & -> & Hd). rewrite IH; [by rewrite take_drop| |done].
  rewrite length_drop. cbn [length] in *. lia.
Qed.

(** ** The text format *)

(** What the text format can carry: a row of at least one column, whose line is
    neither empty nor the end marker, and in which no value is spelled as NULL. *)
Record text_row_ok (o : CopyOptions) (row : Row) : Prop := {
  tr_columns : row ≠ [];
  tr_line : row_line row false o [] ≠ [] ∧ row_line row false o [] ≠ [BACKSLASH; 46];
  tr_values : Forall (λ v, ∀ t, v = Some t → is_utf8 t = true ∧ write_field v false o false false ≠ null o) row;
}.

Section text.
Context (o : CopyOptions) (Ho : sane false o) (Hnull : closed (delimiter o) (null o) = true).

Lemma text_field v force single : closed (delimiter o) (write_field v false o force single) = true ∧ NL ∉ write_field v false o force single.
Proof.
  destruct Ho as [[Hcr Hnl] [_ Hn] _ Hd _]. destruct v as [t|]; [|done]. apply escaped_line; auto.
Qed.

Lemma written_text row i fq single : written row i false o fq single = (λ v, write_field v false o false false) <$> row.
Proof.
  revert i. unfold written. induction row as [|v row IH]; intros i; [done|]. cbn [imap]. rewrite fmap_cons. apply (f_equal2 cons); [by destruct v|].
  rewrite <- (IH (S i)). apply imap_ext. intros j w _. cbn. by rewrite Nat.add_succ_r.
Qed.

Lemma text_line row fq : row_line row false o fq = joined (delimiter o) ((λ v, write_field v false o false false) <$> row).
Proof. unfold row_line. by rewrite written_text. Qed.

Lemma joined_no_newline (d : Z) fs : d ≠ NL → Forall (λ f, NL ∉ f) fs → NL ∉ joined d fs.
Proof.
  intros Hd Hfs. destruct Hfs as [|f fs Hf Hfs]; [intros ?; elem_nil|]. cbn. rewrite not_elem_of_app. split; [done|].
  unfold between. induction Hfs as [|g fs Hg _ IH]; [intros ?; elem_nil|]. rewrite fmap_cons. cbn.
  rewrite not_elem_of_cons, not_elem_of_app. done.
Qed.

Lemma read_text_row row : text_row_ok o row → read_field o <$> raw_fields (delimiter o) [] (row_line row false o []) = row.
Proof.
  intros [Hne _ Hv]. rewrite text_line, raw_fields_joined.
  - rewrite <- list_fmap_compose. rewrite <- (list_fmap_id row) at 2. apply list_fmap_ext. intros i v Hi.
    apply list_elem_of_lookup_2 in Hi. rewrite Forall_forall in Hv. specialize (Hv v Hi).
    change (read_field o (write_field v false o false false) = v). unfold read_field.
    destruct v as [t|]; [|by rewrite bool_decide_true]. destruct (Hv t eq_refl) as [Hu Hn]. rewrite bool_decide_false by done.
    cbn [write_field]. unfold unescape_copy_text. rewrite unescape_escaped; [|by apply Ho..]. by rewrite from_utf8_lossy_valid.
  - apply delim_backslash; by apply Ho.
  - by destruct row.
  - apply Forall_fmap, Forall_forall. intros v _. apply text_field.
Qed.

Lemma text_lines_rows rows fq :
  Forall (text_row_ok o) rows →
  text_lines o (split_char NL (concat ((λ r, copy_text_row r false o fq) <$> rows))) =
    (λ r, (r, trim_cr (row_line r false o []))) <$> rows.
Proof.
  induction 1 as [|row rows Hr _ IH]; [done|]. rewrite !fmap_cons. cbn [concat].
  assert (E : ∀ fq, row_line row false o fq = row_line row false o []) by (intros fq'; by rewrite !text_line).
  rewrite copy_text_row_line, E, <- app_assoc. cbn [app]. rewrite split_char_line.
  - cbn [text_lines]. destruct (tr_line _ _ Hr) as [H1 H2]. rewrite !bool_decide_false by (try done; intros ?%nil_length_inv; done).
    by rewrite IH, read_text_row.
  - rewrite text_line. apply joined_no_newline; [by apply Ho|]. apply Forall_fmap, Forall_forall. intros v _. apply text_field.
Qed.
End text.

(** C15. Text round trip: under any options [process] accepts for COPY in the text
    format whose NULL string has no delimiter outside an escape and does not end in the
    middle of one, rows of at least one column and of valid UTF-8 written one after
    another read back exactly, provided no row is written as an empty line (see
    [copy_text_empty_lost]) or as the end marker and no value is spelled as NULL. *)
Theorem copy_text_roundtrip enc ds is_from cols rel p rows fq nn tn :
  process enc ds is_from cols rel = Ok p → format p = Text → closed (delimiter (options p)) (null (options p)) = true →
  Forall (text_row_ok (options p)) rows →
  parse (concat ((λ r, copy_text_row r false (options p) fq) <$> rows)) false (options p) nn tn = rows.
Proof.
  intros Hp Hf Hn Hr. apply process_sane in Hp. rewrite Hf in Hp. unfold parse, parse_lines, parse_text.
  rewrite text_lines_rows by done. rewrite <- list_fmap_compose. apply list_fmap_id.
Qed.

(** C38. A row of one empty string is written as an empty line, which the reader
    skips: under any options the row is lost. *)
Theorem copy_text_empty_lost o fq nn tn rows :
  parse (copy_text_row [Some []] false o fq ++ rows) false o nn tn = parse rows false o nn tn.
Proof. done. Qed.

(** ** The CSV format *)

Section csv.
Context (o : CopyOptions) (Ho : sane true o).
Context (Hquote : quote o ∉ [NL; CR; BACKSLASH; 46]).

Definition ordinary (c : Z) : Prop := c ≠ delimiter o ∧ c ≠ quote o ∧ c ≠ NL ∧ c ≠ CR.

(** A run of characters outside quotes. *)
Lemma plain_step rows row f sq ls line c rest :
  ordinary c → (ls = true → ends_data c rest = false) →
  csv_loop o (mkCsv rows row f false sq ls line) (c :: rest) = csv_loop o (mkCsv rows row (f ++ [c]) false sq false (line ++ [c])) rest.
Proof.
  intros (Hd & Hq & Hn & Hr) He. cbn [csv_loop cs_in_quote cs_line_start].
  assert (ls && ends_data c rest = false) as -> by (destruct ls; [by apply He|done]).
  unfold plain_char. cbn [cs_rows cs_row cs_field cs_in_quote cs_saw_quote cs_line].
  by rewrite !(proj2 (Z.eqb_neq c _)) by done.
Qed.

Lemma plain_run rows row f sq line t rest :
  Forall ordinary t →
  csv_loop o (mkCsv rows row f false sq false line) (t ++ rest) = csv_loop o (mkCsv rows row (f ++ t) false sq false (line ++ t)) rest.
Proof.
  intros Ht. revert f line. induction Ht as [|c t Hc _ IH]; intros f line; [by rewrite !app_nil_r|].
  cbn [app]. rewrite plain_step by done. rewrite IH. by rewrite <- !app_assoc.
Qed.

(** Inside quotes: an escaped character, any other one, and the closing quote. *)
Lemma quoted_pair rows row f line c rest :
  c = quote o ∨ c = escape o →
  csv_loop o (mkCsv rows row f true true false line) (escape o :: c :: rest) =
  csv_loop o (mkCsv rows row (f ++ [c]) true true false (line ++ [escape o; c])) rest.
Proof.
  intros Hc. cbn [csv_loop cs_in_quote]. rewrite Z.eqb_refl. cbn [andb].
  destruct (Z.eqb_spec (escape o) (quote o)) as [E|E]; cbn [negb andb].
  - assert (c = quote o) as -> by (rewrite E in Hc; tauto). by rewrite Z.eqb_refl.
  - assert ((c =? quote o) || (c =? escape o) = true) as -> by (rewrite orb_true_iff, !Z.eqb_eq; done). done.
Qed.

Lemma quoted_char rows row f line c rest :
  c ≠ quote o → c ≠ escape o →
  csv_loop o (mkCsv rows row f true true false line) (c :: rest) =
  csv_loop o (mkCsv rows row (f ++ [c]) true true false (line ++ [c])) rest.
Proof. intros Hq He. cbn [csv_loop cs_in_quote]. rewrite !(proj2 (Z.eqb_neq c _)) by done. by destruct rest. Qed.

Lemma quoted_end rows row f line d rest :
  d ≠ quote o →
  csv_loop o (mkCsv rows row f true true false line) (quote o :: d :: rest) =
  csv_loop o (mkCsv rows row f false true false (line ++ [quote o])) (d :: rest).
Proof.
  intros Hd. change (csv_loop o (mkCsv rows row f true true false line) (quote o :: d :: rest)) with
    (if (quote o =? escape o) && negb (escape o =? quote o) && ((d =? quote o) || (d =? escape o))
     then csv_loop o (pass [quote o; d] [d] true (mkCsv rows row f true true false line)) rest
     else if quote o =? quote o then
       if (escape o =? quote o) && (d =? quote o)
       then csv_loop o (pass [quote o; d] [quote o] true (mkCsv rows row f true true false line)) rest
       else csv_loop o (pass [quote o] [] false (mkCsv rows row f true true false line)) (d :: rest)
     else csv_loop o (pass [quote o] [quote o] true (mkCsv rows row f true true false line)) (d :: rest)).
  rewrite (proj2 (Z.eqb_neq d _)), Z.eqb_refl, andb_false_r, (Z.eqb_sym (escape o)) by done.
  destruct (quote o =? escape o); cbn [negb andb]; unfold pass; cbn; by rewrite app_nil_r.
Qed.

(** The characters of a quoted value, and the closing quote. *)
Lemma quoted_run rows row f line t d rest :
  d ≠ quote o →
  csv_loop o (mkCsv rows row f true true false line) (concat (csv_escape (quote o) (escape o) <$> t) ++ quote o :: d :: rest) =
  csv_loop o (mkCsv rows row (f ++ t) false true false (line ++ concat (csv_escape (quote o) (escape o) <$> t) ++ [quote o])) (d :: rest).
Proof.
  intros Hd. revert f line. induction t as [|c t IH]; intros f line.
  - rewrite app_nil_r. by apply quoted_end.
  - rewrite fmap_cons. cbn [concat]. unfold csv_escape at 1 3. rewrite <- !app_assoc.
    destruct ((c =? quote o) || (c =? escape o)) eqn:Ec; cbn [app].
    + rewrite quoted_pair, IH by (apply orb_true_iff in Ec; rewrite !Z.eqb_eq in Ec; done). by rewrite <- !app_assoc.
    + apply orb_false_iff in Ec as [Hq%Z.eqb_neq He%Z.eqb_neq]. rewrite quoted_char, IH by done. by rewrite <- !app_assoc.
Qed.

(** ** One field *)

Lemma quoted_or_ordinary force single t :
  use_quote o force single t = true ∨ use_quote o force single t = false ∧ t ≠ null o ∧ Forall ordinary t.
Proof.
  destruct (use_quote o force single t) eqn:E; [by left|]. right. split; [done|]. unfold use_quote in E.
  apply orb_false_iff in E as [[[_ Hn%bool_decide_eq_false]%orb_false_iff _]%orb_false_iff E]. split; [done|].
  apply Forall_forall. intros c Hc. pose proof (existsb_none _ _ E c Hc) as Hx. cbn in Hx.
  rewrite !orb_false_iff, !Z.eqb_neq in Hx. unfold ordinary. tauto.
Qed.

Lemma null_ordinary : Forall ordinary (null o).
Proof.
  destruct Ho as [_ [Hcr Hnl] Hd _ Hq]. apply Forall_forall. intros c Hc. split_and!; intros ->; try done. by apply Hq.
Qed.

(** A value written outside quotes. *)
Lemma bare_field rows row ls line t d rest :
  Forall ordinary t → (ls = true → ∀ c r, t ++ d :: rest = c :: r → ends_data c r = false) →
  csv_loop o (mkCsv rows row [] false false ls line) (t ++ d :: rest) =
  csv_loop o (mkCsv rows row t false false (ls && ⌊t = []⌋) (line ++ t)) (d :: rest).
Proof.
  intros Ht He. destruct Ht as [|c t Hc Ht]; [by rewrite app_nil_r, andb_true_r|].
  cbn [app] in *. rewrite plain_step; [|done|intros Hl; by apply He]. rewrite plain_run by done. cbn [app].
  rewrite <- app_assoc, bool_decide_false, andb_false_r by done. done.
Qed.

Lemma csv_field v force single rows row ls line d rest :
  let w := write_field v true o force single in
  d ≠ quote o → (ls = true → ∀ c r, w ++ d :: rest = c :: r → ends_data c r = false) →
  ∃ f sq, csv_loop o (mkCsv rows row [] false false ls line) (w ++ d :: rest) =
    csv_loop o (mkCsv rows row f false sq (ls && ⌊w = []⌋) (line ++ w)) (d :: rest) ∧
    (if negb sq && ⌊f = null o⌋ then None else Some f) = v.
Proof.
  intros w Hd He. destruct v as [t|]; cbn [write_field] in w.
  - destruct (quoted_or_ordinary force single t) as [Eq|(Eq & Hn & Ht)]; unfold w in *; rewrite Eq in *.
    + exists t, true. split; [|done]. rewrite <- !app_assoc in He |- *. cbn [app] in He |- *.
      rewrite bool_decide_false, andb_false_r by done.
      transitivity (csv_loop o (mkCsv rows row [] true true false (line ++ [quote o]))
                      (concat (csv_escape (quote o) (escape o) <$> t) ++ quote o :: d :: rest)).
      * cbn [csv_loop cs_in_quote cs_line_start].
        assert (ls && ends_data (quote o) _ = false) as -> by (destruct ls; [by eapply He|done]).
        unfold plain_char. cbn. by rewrite Z.eqb_refl.
      * rewrite quoted_run by done. by rewrite <- app_assoc.
    + exists t, false. split; [by apply bare_field|]. by rewrite bool_decide_false.
  - exists (null o), false. split; [apply bare_field; [apply null_ordinary|done]|]. by rewrite bool_decide_true.
Qed.

(** ** One row *)

Lemma csv_delim rows row f sq ls line rest :
  (ls = true → ends_data (delimiter o) rest = false) →
  csv_loop o (mkCsv rows row f false sq ls line) (delimiter o :: rest) =
  csv_loop o (mkCsv rows (row ++ [if negb sq && ⌊f = null o⌋ then None else Some f]) [] false false false (line ++ [delimiter o])) rest.
Proof.
  intros He. cbn [csv_loop cs_in_quote cs_line_start]. assert (ls && ends_data (delimiter o) rest = false) as -> by (destruct ls; auto).
  unfold plain_char. cbn. rewrite (proj2 (Z.eqb_neq (delimiter o) _)), Z.eqb_refl by (by apply Ho).
  unfold push_field, pass, finish. cbn. by rewrite app_nil_r.
Qed.

Lemma csv_newline rows row f sq ls line rest :
  csv_loop o (mkCsv rows row f false sq ls line) (NL :: rest) =
  csv_loop o (mkCsv (rows ++ [(row ++ [if negb sq && ⌊f = null o⌋ then None else Some f], trim_cr line)]) [] [] false false true []) rest.
Proof.
  cbn [csv_loop cs_in_quote cs_line_start]. change (ends_data NL rest) with false. rewrite andb_false_r.
  unfold plain_char. cbn [cs_rows cs_row cs_field cs_in_quote cs_saw_quote cs_line cs_line_start]. destruct Ho as [[_ Hnl] _ _ _ _].
  rewrite (proj2 (Z.eqb_neq NL (quote o))), (proj2 (Z.eqb_neq NL (delimiter o))) by (set_solver || done). done.
Qed.

Lemma between_head fs rest : ∃ d r, d ≠ quote o ∧ between (delimiter o) fs ++ NL :: rest = d :: r.
Proof. destruct fs as [|g fs]; [exists NL, rest; set_solver|]. eexists (delimiter o), _. split; [by apply Ho|done]. Qed.

Definition fields_of (vs : Row) (fs : list bytes) : Prop := Forall2 (λ v w, ∃ force single, w = write_field v true o force single) vs fs.

(** The fields after the first, to the end of the line. *)
Lemma csv_rest vs fs rows row f sq ls line rest :
  fields_of vs fs → (ls = true → ∀ c r, between (delimiter o) fs ++ NL :: rest = c :: r → ends_data c r = false) →
  csv_loop o (mkCsv rows row f false sq ls line) (between (delimiter o) fs ++ NL :: rest) =
  csv_loop o (mkCsv (rows ++ [(row ++ [if negb sq && ⌊f = null o⌋ then None else Some f] ++ vs,
                              trim_cr (line ++ between (delimiter o) fs))]) [] [] false false true []) rest.
Proof.
  intros Hf. revert row f sq ls line. induction Hf as [|v w vs fs (force & single & ->) _ IH]; intros row f sq ls line He.
  - cbn [between fmap list_fmap concat app]. rewrite app_nil_r, csv_newline. done.
  - unfold between in He |- *. rewrite fmap_cons in He |- *. cbn [concat app] in He |- *. fold (between (delimiter o) fs) in He |- *.
    rewrite <- !app_assoc in He |- *. rewrite csv_delim by (intros Hl; by apply He).
    destruct (between_head fs rest) as (d & r & Hd & E). rewrite E.
    destruct (csv_field v force single rows (row ++ [if negb sq && ⌊f = null o⌋ then None else Some f]) false (line ++ [delimiter o]) d r Hd)
      as (f' & sq' & -> & Hv); [done|]. rewrite <- E, IH, Hv by done. by rewrite <- !app_assoc.
Qed.

(** Outside quotes, up to the first quote, there is no end of line. *)
Fixpoint calm (l : bytes) : bool :=
  match l with [] => true | c :: l => (c =? quote o) || (negb ((c =? NL) || (c =? CR)) && calm l) end.

Lemma calm_bare t l : Forall ordinary t → calm (t ++ l) = calm l.
Proof.
  induction 1 as [|c t (_ & Hq & Hn & Hr) _ IH]; [done|]. cbn. by rewrite !(proj2 (Z.eqb_neq c _)) by done.
Qed.

Lemma calm_field v force single l : calm l = true → calm (write_field v true o force single ++ l) = true.
Proof.
  intros Hl. destruct v as [t|]; cbn [write_field]; [|by rewrite calm_bare by apply null_ordinary].
  destruct (quoted_or_ordinary force single t) as [->|(-> & _ & Ht)]; [|by rewrite calm_bare].
  cbn. by rewrite Z.eqb_refl.
Qed.

Lemma calm_between vs fs :
  fields_of vs fs → calm (between (delimiter o) fs) = true.
Proof.
  induction 1 as [|v w vs fs (force & single & ->) _ IH]; [done|]. unfold between. rewrite fmap_cons. cbn [concat app].
  fold (between (delimiter o) fs). cbn [calm]. destruct Ho as [[Hcr Hnl] _ _ _ Hq].
  rewrite !(proj2 (Z.eqb_neq (delimiter o) _)) by (done || by apply Hq). cbn [negb orb andb]. by apply calm_field.
Qed.

Lemma not_end_marker line rest c r :
  calm line = true → line ≠ [BACKSLASH; 46] → line ++ NL :: rest = c :: r → ends_data c r = false.
Proof.
  intros Hc Hne E. unfold ends_data. destruct (Z.eqb_spec c BACKSLASH) as [->|]; [|done]. cbn [andb].
  destruct line as [|c0 line]; [done|]. injection E as -> <-. destruct line as [|c1 line]; [done|]. cbn [app].
  destruct (decide (c1 = 46)) as [->|Hd]; [|by destruct c1 as [|q|]; repeat (destruct q as [q|q|]; try done)].
  destruct line as [|c2 line]; [done|]. cbn [app]. cbn [calm] in Hc.
  rewrite (proj2 (Z.eqb_neq BACKSLASH (quote o))), (proj2 (Z.eqb_neq 46 (quote o))) in Hc by set_solver.
  change (negb ((BACKSLASH =? NL) || (BACKSLASH =? CR))) with true in Hc. change (negb ((46 =? NL) || (46 =? CR))) with true in Hc.
  cbn [orb andb] in Hc.
  apply orb_true_iff in Hc as [->%Z.eqb_eq|[Hc _]%andb_true_iff]; [|by apply negb_true_iff].
  rewrite !(proj2 (Z.eqb_neq (quote o) _)) by set_solver. done.
Qed.

(** A row of at least one column that is not written as the end marker. *)
Definition csv_row_ok (fq : list bool) (row : Row) : Prop := row ≠ [] ∧ row_line row true o fq ≠ [BACKSLASH; 46].

Lemma written_fields row i fq single : fields_of row (written row i true o fq single).
Proof.
  apply Forall2_same_length_lookup_2; [by unfold written; rewrite length_imap|].
  intros j v w Hv Hw. unfold written in Hw. rewrite list_lookup_imap, Hv in Hw. cbn in Hw. injection Hw as <-. eauto.
Qed.

Lemma csv_row fq row rows rest :
  csv_row_ok fq row →
  csv_loop o (mkCsv rows [] [] false false true []) (copy_text_row row true o fq ++ rest) =
  csv_loop o (mkCsv (rows ++ [(row, trim_cr (row_line row true o fq))]) [] [] false false true []) rest.
Proof.
  intros [Hne Hm]. rewrite copy_text_row_line, <- app_assoc. cbn [app].
  pose proof (written_fields row 0 fq ⌊length row = 1%nat⌋) as Hw. unfold row_line in *.
  destruct row as [|v row]; [done|]. set (ws := written _ _ _ _ _ _) in *.
  destruct ws as [|w ws]; [by apply Forall2_cons_nil_inv in Hw|]. apply Forall2_cons in Hw as [(force & single & ->) Hw].
  cbn [joined] in *. set (w := write_field v true o force single) in *.
  assert (Hcalm : calm (w ++ between (delimiter o) ws) = true) by (by eapply calm_field, calm_between).
  assert (He : ∀ c r, w ++ between (delimiter o) ws ++ NL :: rest = c :: r → ends_data c r = false).
  { intros c r. rewrite app_assoc. by apply not_end_marker. }
  rewrite <- app_assoc. destruct (between_head ws rest) as (d & r & Hd & E). rewrite E in He |- *.
  destruct (csv_field v force single rows [] true [] d r Hd) as (f & sq & E1 & Hv); [intros _; apply He|]. fold w in E1. rewrite E1, <- E.
  rewrite (csv_rest row ws), Hv; [done|done|]. intros Hl. apply bool_decide_eq_true in Hl. rewrite E. rewrite Hl in He. exact He.
Qed.

Lemma csv_rows fq rows0 rows :
  Forall (csv_row_ok fq) rows →
  csv_loop o (mkCsv rows0 [] [] false false true []) (concat ((λ r, copy_text_row r true o fq) <$> rows)) =
  mkCsv (rows0 ++ ((λ r, (r, trim_cr (row_line r true o fq))) <$> rows)) [] [] false false true [].
Proof.
  intros Hr. revert rows0. induction Hr as [|row rows Hrow _ IH]; intros rows0; [by rewrite app_nil_r|].
  rewrite !fmap_cons. cbn [concat]. rewrite csv_row, IH by done. by rewrite <- app_assoc.
Qed.
End csv.

(** C16. CSV round trip: under any options [process] accepts for COPY in the CSV
    format whose quote is not a backslash, a dot or an end of line, rows written one
    after another, whichever columns are quoted by force, read back exactly up to
    FORCE_NOT_NULL and FORCE_NULL, which the reader then applies, provided each has a
    column and none is written as the end marker. *)
Theorem copy_csv_roundtrip enc ds is_from cols rel p rows fq nn tn :
  process enc ds is_from cols rel = Ok p → format p = Csv → quote (options p) ∉ [NL; CR; BACKSLASH; 46] →
  Forall (csv_row_ok (options p) fq) rows →
  parse (concat ((λ r, copy_text_row r true (options p) fq) <$> rows)) true (options p) nn tn =
    imap (force_field (options p) nn tn) <$> rows.
Proof.
  intros Hp Hf Hq Hr. apply process_sane in Hp. rewrite Hf in Hp. unfold parse, parse_lines, parse_csv, csv_start.
  rewrite (csv_rows (options p) Hp Hq fq [] rows) by done.
  cbn [cs_rows cs_row cs_field cs_saw_quote length]. rewrite !bool_decide_true by done. cbn [negb orb app].
  rewrite <- !list_fmap_compose. done.
Qed.

(** ** The statements at work *)

Definition no_encoding : bytes → option bytes := λ _, None.

Definition text_parsed : Parsed := mkParsed Text false (mkCopyOptions 44 [BACKSLASH; 78] DQUOTE DQUOTE ForceNone [] [] false None).
Definition text_rows : list Row := [[Some (lit "a,b"); None]; [Some [BACKSLASH; NL; 195; 169]; Some []]].

Lemma copy_text_roundtrip_witness :
  process no_encoding [mkDefElem (lit "delimiter") (Some (NString (lit ",")))] false [] None = Ok text_parsed ∧
  parse (concat ((λ r, copy_text_row r false (options text_parsed) []) <$> text_rows)) false (options text_parsed) [] [] = text_rows.
Proof.
  split; [vm_compute; reflexivity|].
  apply (copy_text_roundtrip no_encoding [mkDefElem (lit "delimiter") (Some (NString (lit ",")))] false [] None text_parsed);
    [vm_compute; reflexivity|reflexivity|reflexivity|].
  repeat (apply Forall_cons_2); try apply Forall_nil_2; (split; [discriminate|split; vm_compute; discriminate|]);
    repeat (apply Forall_cons_2); try apply Forall_nil_2; intros t [= <-]; split; vm_compute; congruence.
Defined.

Definition csv_parsed : Parsed := mkParsed Csv true (mkCopyOptions 59 (lit "x") 124 33 ForceNone [] [] false None).
Definition csv_defs : list DefElem :=
  [mkDefElem (lit "format") (Some (NString (lit "CSV"))); mkDefElem (lit "header") None;
   mkDefElem (lit "delimiter") (Some (NString (lit ";"))); mkDefElem (lit "null") (Some (NString (lit "x")));
   mkDefElem (lit "quote") (Some (NString [124])); mkDefElem (lit "escape") (Some (NString [33]))].
Definition csv_table : list Row := [[Some (lit "x"); None; Some [124; NL; 33]]; [Some []; Some (lit "a;b"); Some (lit "c")]].

Lemma copy_csv_roundtrip_witness :
  process no_encoding csv_defs false [] None = Ok csv_parsed ∧
  parse (concat ((λ r, copy_text_row r true (options csv_parsed) [false; false; true]) <$> csv_table)) true (options csv_parsed) [] [] =
    imap (force_field (options csv_parsed) [] []) <$> csv_table.
Proof.
  split; [vm_compute; reflexivity|].
  apply (copy_csv_roundtrip no_encoding csv_defs false [] None csv_parsed);
    [vm_compute; reflexivity|reflexivity|exact (bool_decide_eq_true_1 (124 ∉ [NL; CR; BACKSLASH; 46]) eq_refl)|].
  repeat (apply Forall_cons_2); try apply Forall_nil_2; split; vm_compute; discriminate.
Defined.
