(* ===== verification/LikeMatch.v ===== *)
(** * LIKE: secantus-pgplan/src/like_match.rs

    PostgreSQL's matcher, used for a pattern that may end in its escape character,
    and the matcher of byte strings.  A string is the list of its characters; the
    lower-casing of ILIKE is a parameter, since it is Unicode data. *)
From stdpp Require Import strings.
From S2P Require Import Prelude RustM.
Local Open Scope Z_scope.
Local Open Scope secantus_scope.

Abbreviation chars := (list Z).

Definition PERCENT : Z := 37.
Definition UNDERSCORE : Z := 95.

Inductive Outcome := True_ | False_ | Abort_.

(** [22025 LIKE pattern must not end with escape character] *)
Inductive Error := trailing_escape.
Abbreviation Result := (outcome Error).

(** ** Looking at the pattern *)

Fixpoint dangling (esc : Z) (pattern : chars) : bool :=
  match pattern with
  | [] => false
  | c :: rest =>
      if c =? esc then match rest with [] => true | _ :: rest' => dangling esc rest' end else dangling esc rest
  end.
Definition ends_in_escape (pattern : chars) (escape : option Z) : bool :=
  match escape with Some esc => dangling esc pattern | None => false end.

Fixpoint has_wildcard (pattern : chars) (escape : option Z) : bool :=
  match pattern with
  | [] => false
  | c :: rest =>
      if ⌊Some c = escape⌋ then match rest with [] => false | _ :: rest' => has_wildcard rest' escape end
      else (c =? PERCENT) || (c =? UNDERSCORE) || has_wildcard rest escape
  end.

(** ** Text *)

(** The wildcards after a [%]; [None] when the text runs out. *)
Fixpoint skip_wild (t p : chars) : option (chars * chars) :=
  match p with
  | c :: p' =>
      if c =? PERCENT then skip_wild t p'
      else if c =? UNDERSCORE then match t with [] => None | _ :: t' => skip_wild t' p' end
      else Some (t, p)
  | [] => Some (t, p)
  end.

Fixpoint strip_percent (p : chars) : chars :=
  match p with c :: p' => if c =? PERCENT then strip_percent p' else p | [] => [] end.

(** The character the rest of a pattern after [%] begins with. *)
Definition first_of (esc : option Z) (p : chars) : Result Z :=
  match p with
  | c :: p' => if ⌊Some c = esc⌋ then match p' with lit :: _ => Ok lit | [] => Err trailing_escape end else Ok c
  | [] => Panic
  end.

(** The loop over the text after a [%]. *)
Fixpoint scan (rematch : chars → Result Outcome) (first : Z) (t : chars) : Result Outcome :=
  match t with
  | [] => Ok Abort_
  | c :: t' =>
      if c =? first then
        m ← rematch t;
        match m with False_ => scan rematch first t' | m => Ok m end
      else scan rematch first t'
  end.

(** The loop of [match_text]; each turn uses a character of the pattern, and the
    fuel is its length. *)
Fixpoint match_loop (fuel : nat) (esc : option Z) (t p : chars) : Result Outcome :=
  match fuel with
  | O => NoFuel
  | S fuel =>
    match t, p with
    | t0 :: t', p0 :: p' =>
        if ⌊Some p0 = esc⌋ then
          match p' with
          | [] => Err trailing_escape
          | lit :: p'' => if negb (lit =? t0) then Ok False_ else match_loop fuel esc t' p''
          end
        else if p0 =? PERCENT then
          match skip_wild t p' with
          | None => Ok Abort_
          | Some (t1, p1) =>
              if ⌊p1 = []⌋ then Ok True_
              else
                first ← first_of esc p1;
                scan (λ s, if ⌊p1 = [PERCENT]⌋ then Ok True_ else match_loop fuel esc s p1) first t1
          end
        else if p0 =? UNDERSCORE then match_loop fuel esc t' p'
        else if negb (p0 =? t0) then Ok False_ else match_loop fuel esc t' p'
    | _ :: _, [] => Ok False_
    | [], _ => Ok (if ⌊strip_percent p = []⌋ then True_ else Abort_)
    end
  end.

Definition match_text (t p : chars) (esc : option Z) : Result Outcome :=
  if ⌊p = [PERCENT]⌋ then Ok True_ else match_loop (S (length p)) esc t p.

Section like.
Context (to_lowercase : chars → chars) (char_lowercase : Z → Z).

Definition like_match (subject pattern : chars) (escape : option Z) (insensitive : bool) : Result bool :=
  let fold s := if insensitive then to_lowercase s else s in
  let esc := if insensitive then char_lowercase <$> escape else escape in
  m ← match_text (fold subject) (fold pattern) esc;
  Ok (match m with True_ => true | _ => false end).
End like.

(** ** Bytes *)

(** [f] at every suffix, the longest first, up to the first that does not fail. *)
Fixpoint tries (f : chars → Result bool) (s : chars) : Result bool :=
  m ← f s;
  if (m : bool) then Ok true else match s with [] => Ok false | _ :: s' => tries f s' end.

Definition step_one (f : chars → Result bool) (ok : Z → bool) (subject : chars) : Result bool :=
  match subject with b :: tail => if ok b then f tail else Ok false | [] => Ok false end.

Fixpoint like_match_bytes (escape : option Z) (pattern subject : chars) : Result bool :=
  match pattern with
  | [] => Ok ⌊subject = []⌋
  | first :: rest =>
      if ⌊Some first = escape⌋ then
        match rest with
        | [] => if ⌊subject = []⌋ then Ok false else Err trailing_escape
        | literal :: rest' => step_one (like_match_bytes escape rest') (Z.eqb literal) subject
        end
      else if first =? PERCENT then tries (like_match_bytes escape rest) subject
      else if first =? UNDERSCORE then step_one (like_match_bytes escape rest) (λ _, true) subject
      else step_one (like_match_bytes escape rest) (Z.eqb first) subject
  end.
