(* ===== verification/LikeProps.v ===== *)
(** * LIKE: both matchers decide the same relation

    PostgreSQL's matcher gives up early ([Abort_]) and looks only at positions where
    the next character of the pattern is; the byte matcher tries every position.
    Both are what the pattern means. *)
From stdpp Require Import strings.
From S2P Require Import Prelude RustM LikeMatch.
Local Open Scope Z_scope.
Local Open Scope secantus_scope.

(** ** What a pattern means *)

Section meaning.
Context (esc : option Z).

Inductive likes : chars → chars → Prop :=
  | lk_nil : likes [] []
  | lk_any u v p : Some PERCENT ≠ esc → likes v p → likes (u ++ v) (PERCENT :: p)
  | lk_one c t p : Some UNDERSCORE ≠ esc → likes t p → likes (c :: t) (UNDERSCORE :: p)
  | lk_char c t p : Some c ≠ esc → c ≠ PERCENT → c ≠ UNDERSCORE → likes t p → likes (c :: t) (c :: p)
  | lk_escaped e c t p : Some e = esc → likes t p → likes (c :: t) (e :: c :: p).

Abbreviation B := (like_match_bytes esc).
Abbreviation open_ p := (ends_in_escape p esc).

Lemma tries_exact f s : (∀ v, ∃ b, f v = Ok b) → ∃ b, tries f s = Ok b ∧ (b = true ↔ ∃ u v, s = u ++ v ∧ f v = Ok true).
Proof.
  intros Hf. induction s as [|c s (b & Hb & IH)]; cbn [tries].
  - destruct (Hf []) as [[] E]; rewrite E; cbn; eexists; (split; [done|]).
    + split; [|done]. intros _. by exists [], [].
    + split; [done|]. intros (u & v & Eu & Hv). symmetry in Eu. apply app_nil in Eu as [-> ->]. congruence.
  - destruct (Hf (c :: s)) as [[] E]; rewrite E; cbn.
    + exists true. split; [done|]. split; [|done]. intros _. by exists [], (c :: s).
    + exists b. split; [done|]. rewrite IH. split.
      * intros (u & v & -> & Hv). by exists (c :: u), v.
      * intros ([|c' u] & v & Eu & Hv); [cbn in Eu; congruence|]. injection Eu as -> ->. eauto.
Qed.

Lemma tries_false f s : tries f s = Ok false ↔ ∀ u v, s = u ++ v → f v = Ok false.
Proof.
  induction s as [|c s IH]; cbn [tries]; split.
  - intros (m & Hm & H)%bind_Ok. destruct m; [done|]. intros u v E. symmetry in E. apply app_nil in E as [-> ->]. exact Hm.
  - intros Hf. by rewrite (Hf [] [] eq_refl).
  - intros (m & Hm & H)%bind_Ok. destruct m; [done|]. intros [|c' u] v E; cbn in E; [by subst|]. injection E as -> E. by eapply IH.
  - intros Hf. rewrite (Hf [] (c :: s) eq_refl). cbn. apply IH. intros u v ->. by apply (Hf (c :: u)).
Qed.

(** What a byte match of a pattern that ends in its escape can answer. *)
Definition never (o : Result bool) : Prop := o = Ok false ∨ o = Err trailing_escape.

Lemma tries_never f s : (∀ v, never (f v)) → never (tries f s).
Proof.
  intros Hf. induction s as [|c s IH]; cbn [tries]; [destruct (Hf []) as [-> | ->]|destruct (Hf (c :: s)) as [-> | ->]]; cbn;
    [by left|by right|done|by right].
Qed.

Lemma step_one_never f ok s : (∀ v, never (f v)) → never (step_one f ok s).
Proof. intros Hf. destruct s as [|c s]; cbn; [by left|]. destruct (ok c); [done|by left]. Qed.

(** A byte match is exact, unless the pattern ends in its escape: then nothing
    matches it. *)
Definition exact (p : chars) : Prop := ∀ s,
  if open_ p then never (B p s) ∧ ¬ likes s p else ∃ b, B p s = Ok b ∧ (b = true ↔ likes s p).

Lemma open_cons c p : Some c ≠ esc → open_ (c :: p) = open_ p.
Proof. unfold ends_in_escape. destruct esc as [e|]; [|done]. intros Hc. cbn. by rewrite (proj2 (Z.eqb_neq c e)) by congruence. Qed.

Lemma open_escaped e c p : Some e = esc → open_ (e :: c :: p) = open_ p.
Proof. unfold ends_in_escape. intros <-. cbn. by rewrite Z.eqb_refl. Qed.

Lemma exact_nil : exact [].
Proof.
  intros s. unfold ends_in_escape. destruct esc; cbn; eexists; (split; [done|]); rewrite bool_decide_eq_true;
    (split; [intros ->; constructor|by inversion 1]).
Qed.

(** One character of the text for one of the pattern. *)
Lemma exact_step p ok s (q : chars) :
  exact p → open_ q = open_ p → B q s = step_one (B p) ok s →
  (∀ c t, likes (c :: t) q ↔ ok c = true ∧ likes t p) → ¬ likes [] q →
  if open_ q then never (B q s) ∧ ¬ likes s q else ∃ b, B q s = Ok b ∧ (b = true ↔ likes s q).
Proof.
  intros Hp -> -> Hq H0. destruct s as [|c t]; cbn [step_one].
  - destruct (open_ p); [split; [by left|done]|]. exists false. split; [done|]. split; done.
  - specialize (Hp t). specialize (Hq c t). destruct (open_ p), (ok c).
    + split; [by apply Hp|]. naive_solver.
    + split; [by left|]. naive_solver.
    + destruct Hp as (b & -> & Hb). exists b. split; [done|]. naive_solver.
    + exists false. split; [done|]. naive_solver.
Qed.

Ltac likes_inv := inversion 1; subst; try done; try discriminate; try congruence.

Lemma exact_cons c p : Some c ≠ esc → exact p → exact (c :: p).
Proof.
  intros Hc Hp s. destruct (decide (c = PERCENT)) as [->|H1]; [|destruct (decide (c = UNDERSCORE)) as [->|H2]].
  - cbn [like_match_bytes]. rewrite bool_decide_false, Z.eqb_refl, open_cons by done.
    assert (Hl : likes s (PERCENT :: p) ↔ ∃ u v, s = u ++ v ∧ likes v p).
    { split; [likes_inv; eauto|]. intros (u & v & -> & Hv). by constructor. }
    unfold exact in Hp. destruct (open_ p).
    + split; [apply tries_never; intros v; apply Hp|]. rewrite Hl. intros (u & v & _ & Hv). by apply (Hp v).
    + destruct (tries_exact (B p) s) as (b & Hb & Hx); [intros v; destruct (Hp v) as (b & ? & _); eauto|].
      exists b. split; [done|]. rewrite Hx, Hl. split; intros (u & v & -> & Hv); exists u, v; (split; [done|]);
        destruct (Hp v) as (b' & E & Hb'); [apply Hb'; congruence|]. rewrite E. f_equal. by apply Hb'.
  - eapply (exact_step p (λ _, true)); [done|by apply open_cons| | |likes_inv].
    + cbn [like_match_bytes]. by rewrite bool_decide_false by done.
    + intros c t. split; [likes_inv|intros [_ ?]; by constructor].
  - eapply (exact_step p (Z.eqb c)); [done|by apply open_cons| | |likes_inv].
    + cbn [like_match_bytes]. by rewrite bool_decide_false, !(proj2 (Z.eqb_neq c _)) by done.
    + intros c' t. rewrite Z.eqb_eq. split; [likes_inv|intros [<- ?]; by constructor].
Qed.

Lemma exact_escaped e c p : Some e = esc → exact p → exact (e :: c :: p).
Proof.
  intros He Hp s. eapply (exact_step p (Z.eqb c)); [done|by apply open_escaped| | |likes_inv].
  - cbn [like_match_bytes]. by rewrite bool_decide_true by done.
  - intros c' t. rewrite Z.eqb_eq. split; [likes_inv|intros [<- ?]; by constructor].
Qed.

Lemma exact_dangling e : Some e = esc → exact [e].
Proof.
  intros He s. assert (open_ [e] = true) as -> by (unfold ends_in_escape; rewrite <- He; cbn; by rewrite Z.eqb_refl).
  split; [|likes_inv]. cbn [like_match_bytes]. rewrite bool_decide_true by done. unfold never. destruct (bool_decide (s = [])); auto.
Qed.

Lemma bytes_exact p : exact p.
Proof.
  induction p as [|c|c c1 p IHp IHc] using list_pair_ind; [apply exact_nil|..]; destruct (decide (Some c = esc)).
  - by apply exact_dangling.
  - apply exact_cons; [done|apply exact_nil].
  - by apply exact_escaped.
  - by apply exact_cons.
Qed.
End meaning.

(** ** The loop *)

Section loop.
Context (esc : option Z) (H1 : Some PERCENT ≠ esc) (H2 : Some UNDERSCORE ≠ esc).
Abbreviation B := (like_match_bytes esc).
Abbreviation open_ p := (ends_in_escape p esc).

(** What an outcome says of the text, and, for [Abort_], of what is left of it. *)
Definition agrees (o : Result Outcome) (t p : chars) : Prop :=
  match o with
  | Ok True_ => B p t = Ok true
  | Ok False_ => B p t = Ok false
  | Ok Abort_ => ∀ u v, t = u ++ v → B p v = Ok false
  | Err _ => open_ p = true
  | _ => False
  end.

Lemma tries_tries f g s : (∀ v, g v = tries f v) → tries g s = tries f s.
Proof.
  intros Hg. induction s as [|c s IH]; cbn [tries]; rewrite Hg; cbn [tries].
  - by destruct (f []) as [[]| | |].
  - destruct (f (c :: s)) as [[]| | |]; cbn; [done| |done..]. rewrite IH. by destruct (tries f s) as [[]| | |].
Qed.

Lemma tries_one f s c : tries (step_one f (λ _, true)) (c :: s) = tries f s.
Proof.
  revert c. induction s as [|d s IH]; intros c; [done|].
  change (tries (step_one f (λ _, true)) (c :: d :: s)) with
    (m ← f (d :: s); if (m : bool) then Ok true else tries (step_one f (λ _, true)) (d :: s)). by rewrite IH.
Qed.

Lemma bytes_percent p t : B (PERCENT :: p) t = tries (B p) t.
Proof. cbn [like_match_bytes]. by rewrite bool_decide_false by done. Qed.

Lemma bytes_underscore p t : B (UNDERSCORE :: p) t = step_one (B p) (λ _, true) t.
Proof. cbn [like_match_bytes]. by rewrite bool_decide_false by done. Qed.

Definition literal (p : chars) : Prop := match p with c :: _ => c ≠ PERCENT ∧ c ≠ UNDERSCORE | [] => True end.

(** Skipping wildcards does not change where the rest can begin. *)
Lemma skip_wild_spec t p :
  match skip_wild t p with
  | Some (t1, p1) => tries (B p) t = tries (B p1) t1 ∧ open_ p = open_ p1 ∧ (length p1 ≤ length p)%nat ∧ literal p1
  | None => tries (B p) t = Ok false
  end.
Proof.
  revert t. induction p as [|c p IH]; intros t; [done|]. cbn [skip_wild].
  destruct (Z.eqb_spec c PERCENT) as [->|Hp]; [|destruct (Z.eqb_spec c UNDERSCORE) as [->|Hu]].
  - specialize (IH t). rewrite (tries_tries (B p)) by apply bytes_percent.
    destruct (skip_wild t p) as [[t1 p1]|]; [|done]. rewrite open_cons by done. cbn [length]. naive_solver lia.
  - assert (Ht : ∀ s, tries (B (UNDERSCORE :: p)) s = tries (step_one (B p) (λ _, true)) s).
    { induction s as [|d s IHs]; cbn [tries]; rewrite bytes_underscore; [done|]. by rewrite IHs. }
    rewrite Ht. destruct t as [|d t]; [done|]. rewrite tries_one. specialize (IH t).
    destruct (skip_wild t p) as [[t1 p1]|]; [|done]. rewrite open_cons by done. cbn [length]. naive_solver lia.
  - done.
Qed.

(** A pattern that begins with a character. *)
Lemma first_of_spec p first : literal p → first_of esc p = Ok first →
  B p [] = Ok false ∧ ∀ c t, c ≠ first → B p (c :: t) = Ok false.
Proof.
  destruct p as [|c p]; [done|]. intros [Hp Hu]. cbn [first_of like_match_bytes]. case_bool_decide.
  - destruct p as [|l p]; [done|]. intros [= <-]. split; [done|]. intros c' t Hc. cbn. by rewrite (proj2 (Z.eqb_neq l c')) by done.
  - intros [= <-]. rewrite !(proj2 (Z.eqb_neq c _)) by done. split; [done|]. intros c' t Hc. cbn. by rewrite (proj2 (Z.eqb_neq c c')) by done.
Qed.

Lemma first_of_Err p : literal p → p ≠ [] → match first_of esc p with Ok _ => True | Err _ => open_ p = true | _ => False end.
Proof.
  destruct p as [|c p]; [done|]. intros _ _. cbn [first_of]. case_bool_decide as E; [|done]. destruct p as [|l p]; [|done].
  unfold ends_in_escape. rewrite <- E. cbn. by rewrite Z.eqb_refl.
Qed.

(** The positions that are looked at decide. *)
Lemma scan_spec p first rematch t :
  literal p → first_of esc p = Ok first → (∀ s, agrees (rematch s) s p) →
  match scan rematch first t with
  | Ok True_ => tries (B p) t = Ok true
  | Ok Abort_ => tries (B p) t = Ok false
  | Err _ => open_ p = true
  | _ => False
  end.
Proof.
  intros Hl Hfirst Hr. destruct (first_of_spec p first Hl Hfirst) as [H0 Hc]. induction t as [|c t IH]; cbn [scan].
  - cbn. by rewrite H0.
  - destruct (Z.eqb_spec c first) as [->|Hne].
    + specialize (Hr (first :: t)). destruct (rematch (first :: t)) as [[]|[]| |]; cbn [mbind outcome_bind agrees] in *; try done.
      * cbn [tries]. by rewrite Hr.
      * cbn [tries]. rewrite Hr. exact IH.
      * by apply tries_false.
    + cbn [tries]. rewrite (Hc c t Hne). exact IH.
Qed.

(** A turn that uses one character of the text. *)
Lemma agrees_step o t0 t p q ok :
  agrees o t p → open_ q = open_ p → ok t0 = true → (∀ s, B q s = step_one (B p) ok s) → agrees o (t0 :: t) q.
Proof.
  intros Ha Ho Hok Hq. destruct o as [[]|[]| |]; cbn [agrees] in *; try done.
  - by rewrite Hq, <- Ha; cbn; rewrite Hok.
  - by rewrite Hq, <- Ha; cbn; rewrite Hok.
  - intros u v E. rewrite Hq. destruct v as [|c v]; [done|]. cbn [step_one]. destruct (ok c); [|done].
    destruct u as [|c' u]; cbn in E; injection E as -> E; [by apply (Ha [])|]. apply (Ha (u ++ [c])). by rewrite <- app_assoc.
  - by rewrite Ho.
Qed.

Lemma stripped p : match strip_percent p with [] => B p [] = Ok true | _ => B p [] = Ok false end.
Proof.
  induction p as [|c p IH]; [done|]. cbn [strip_percent]. destruct (Z.eqb_spec c PERCENT) as [->|Hc].
  - rewrite bytes_percent. cbn [tries]. destruct (strip_percent p); by rewrite IH.
  - cbn [like_match_bytes]. rewrite (proj2 (Z.eqb_neq c PERCENT)) by done. case_bool_decide; [by destruct p|].
    by destruct (c =? UNDERSCORE).
Qed.

Lemma loop_agrees fuel t p : (length p < fuel)%nat → agrees (match_loop fuel esc t p) t p.
Proof.
  revert t p. induction fuel as [|fuel IH]; intros t p Hf; [lia|]. cbn [match_loop].
  destruct t as [|t0 t].
  { pose proof (stripped p) as Hs. destruct (strip_percent p) eqn:E; [by rewrite bool_decide_true|].
    rewrite bool_decide_false by done. cbn [agrees]. intros u v Ev. symmetry in Ev. by apply app_nil in Ev as [_ ->]. }
  destruct p as [|p0 p]; [done|]. cbn [length] in Hf. case_bool_decide as He.
  { destruct p as [|l p]; [unfold agrees, ends_in_escape; rewrite <- He; cbn; by rewrite Z.eqb_refl|].
    assert (Hq : ∀ s, B (p0 :: l :: p) s = step_one (B p) (Z.eqb l) s) by (intros s; cbn [like_match_bytes]; by rewrite bool_decide_true).
    destruct (Z.eqb_spec l t0) as [->|Hl]; cbn [negb].
    - eapply agrees_step; [apply IH; cbn in Hf; lia|by apply open_escaped|apply Z.eqb_refl|exact Hq].
    - cbn [agrees]. rewrite Hq. cbn. by rewrite (proj2 (Z.eqb_neq l t0)) by done. }
  destruct (Z.eqb_spec p0 PERCENT) as [->|Hp].
  { pose proof (skip_wild_spec (t0 :: t) p) as Hw. destruct (skip_wild (t0 :: t) p) as [[t1 p1]|].
    - destruct Hw as (Ht & Ho & Hlen & Hl). case_bool_decide as E0.
      + subst p1. cbn [agrees]. rewrite bytes_percent, Ht. clear. induction t1 as [|c t1 IH]; [done|exact IH].
      + pose proof (first_of_Err p1 Hl E0) as Hfe. destruct (first_of esc p1) as [first|[]| |] eqn:Ef; cbn [mbind outcome_bind]; try done.
        * assert (Hr : ∀ s, agrees (if ⌊p1 = [PERCENT]⌋ then Ok True_ else match_loop fuel esc s p1) s p1).
          { intros s. case_bool_decide as E1; [subst p1; by destruct Hl|]. apply IH. lia. }
          pose proof (scan_spec p1 first _ t1 Hl Ef Hr) as Hs. destruct (scan _ first t1) as [[]|[]| |]; cbn [agrees]; try done.
          -- by rewrite bytes_percent, Ht.
          -- intros u v E. rewrite bytes_percent. rewrite <- Ht in Hs. apply tries_false. intros u' v' ->.
             eapply tries_false; [exact Hs|]. rewrite E. by rewrite app_assoc.
          -- rewrite open_cons by done. congruence.
        * cbn [agrees]. rewrite open_cons by done. congruence.
    - cbn [agrees]. intros u v E. rewrite bytes_percent. apply tries_false. intros u' v' ->.
      eapply tries_false; [exact Hw|]. rewrite E. by rewrite app_assoc. }
  destruct (Z.eqb_spec p0 UNDERSCORE) as [->|Hu].
  { eapply (agrees_step _ _ _ p _ (λ _, true)); [apply IH; lia|by apply open_cons|done|apply bytes_underscore]. }
  assert (Hq : ∀ s, B (p0 :: p) s = step_one (B p) (Z.eqb p0) s).
  { intros s. cbn [like_match_bytes]. by rewrite bool_decide_false, !(proj2 (Z.eqb_neq p0 _)) by done. }
  destruct (Z.eqb_spec p0 t0) as [->|Hl]; cbn [negb].
  - eapply agrees_step; [apply IH; lia|by apply open_cons|apply Z.eqb_refl|exact Hq].
  - cbn [agrees]. rewrite Hq. cbn. by rewrite (proj2 (Z.eqb_neq p0 t0)) by done.
Qed.

Lemma match_text_agrees t p : agrees (match_text t p esc) t p.
Proof.
  unfold match_text. case_bool_decide as E; [|apply loop_agrees; lia]. subst p. cbn [agrees]. rewrite bytes_percent.
  induction t as [|c t IH]; [done|exact IH].
Qed.
End loop.

(** C17. LIKE means what its pattern says: for an escape that is not a wildcard the
    matcher that minds case returns; it answers true exactly when the pattern, read as characters,
    escaped characters, [_] for one and [%] for any number, covers the text; and it
    raises its error only for a pattern that ends in its escape, which nothing
    matches.  The byte matcher agrees whenever the text matcher answers. *)
Theorem like_match_exact lower lower_char t p esc :
  Some PERCENT ≠ esc → Some UNDERSCORE ≠ esc →
  match like_match lower lower_char t p esc false with
  | Ok b => (b = true ↔ likes esc t p) ∧ like_match_bytes esc p t = Ok b
  | Err trailing_escape => ends_in_escape p esc = true ∧ ¬ likes esc t p
  | _ => False
  end.
Proof.
  intros H1 H2. unfold like_match. pose proof (match_text_agrees esc H1 H2 t p) as Ha. pose proof (bytes_exact esc p t) as He.
  destruct (match_text t p esc) as [m|[]| |]; cbn [mbind outcome_bind agrees] in *; [|rewrite Ha in He; naive_solver|done..].
  assert (Hb : like_match_bytes esc p t = Ok match m with True_ => true | _ => false end) by (destruct m; [done|done|by apply (Ha [])]).
  split; [|done]. rewrite Hb in He. destruct (ends_in_escape p esc).
  - destruct He as [[[= E]|[=]] Hn]. rewrite E. split; done.
  - destruct He as (b & [= ->] & He). exact He.
Qed.

Lemma like_match_exact_witness :
  let esc := Some 92 in
  match like_match (λ s, s) (λ c, c) [97; 98; 37; 99] [97; 37; 92; 37; 95] esc false with
  | Ok b => (b = true ↔ likes esc [97; 98; 37; 99] [97; 37; 92; 37; 95]) ∧ like_match_bytes esc [97; 37; 92; 37; 95] [97; 98; 37; 99] = Ok b
  | Err trailing_escape => ends_in_escape [97; 37; 92; 37; 95] esc = true ∧ ¬ likes esc [97; 98; 37; 99] [97; 37; 92; 37; 95]
  | _ => False
  end.
Proof. apply (like_match_exact (λ s, s) (λ c, c) [97; 98; 37; 99] [97; 37; 92; 37; 95] (Some 92)); discriminate. Defined.

(** The two matchers part where a pattern ends in its escape behind a wildcard
    that uses up the text: the text matcher, as PostgreSQL, raises its error for
    ['a' LIKE '%_\'], the byte matcher answers false. *)
Theorem like_bytes_misses_error lower lower_char (c : Z) :
  let pattern := [PERCENT; UNDERSCORE; 92] in
  like_match lower lower_char [c] pattern (Some 92) false = Err trailing_escape ∧ like_match_bytes (Some 92) pattern [c] = Ok false.
Proof. done. Qed.
