(* ===== verification/Xids.v ===== *)
(** * Transaction ids: secantus-pg/src/xids.rs, secantus-pgplan/src/snapshots.rs

    The counter of a store, the ids its sessions hold, the snapshots they keep,
    and the text of a snapshot with the functions that read it.

    [clusters] is a table by store whose operations look one entry up; the model
    is of one store's entry, which is absent until it is installed ([CURRENT] is
    the store of the session).  The ids only grow by one from below 2^63 and are
    kept unbounded.  The collection [__sql_xid__] is the document in it, if any;
    whether a read or a write of the store succeeds, and whether it is still open,
    are inputs of the operation. *)
From stdpp Require Import strings.
From S2P Require Import Prelude RustM Bson Docs Paths.
Local Open Scope Z_scope.
Local Open Scope secantus_scope.

Definition FROZEN_XID : Z := 722.
Definition BLOCK : Z := 8192.
Definition I64_MAX : Z := 2 ^ 63 - 1.

Record Cluster := mkCluster {
  next : Z;
  reserved : Z;
  latest_completed : Z;
  running : gmap Z Z;
  commands : gmap Z (Z * bool);
  snapshots : gmap Z Z;
}.

(** The document [next] of the collection. *)
Abbreviation Store := (option Doc).

(** ** The counter *)

(** Upsert of [$set: { reserved: upto }]. *)
Definition reserve (write_ok : bool) (st : Store) (upto : Z) : option Store :=
  if I64_MAX <? upto then None
  else if write_ok then Some (Some (doc_insert (default [(lit "_id", String (lit "next"))] st) (lit "reserved") (Int64 upto)))
  else None.

Definition resume (st : Store) : Z :=
  match st with
  | Some doc =>
      Z.max match doc_get doc (lit "reserved") with
            | Some (Int64 n) | Some (Int32 n) => if n <? 0 then 0 else n
            | _ => 0
            end (FROZEN_XID + 1)
  | None => FROZEN_XID + 1
  end.

Definition install (find_ok write_ok : bool) (st : Store) : option (Cluster * Store) :=
  if find_ok then
    let next := resume st in
    st' ← reserve write_ok st (next + BLOCK);
    Some (mkCluster next (next + BLOCK) (next - 1) ∅ ∅ ∅, st')
  else None.

(** What the store does when a block is used up: [alive], it is still open, and
    [write_ok], it takes the write. *)
Record Io := mkIo { alive : bool; write_ok : bool }.

Definition take (io : Io) (c : Cluster) (st : Store) : Cluster * Store * Z :=
  let xid := next c in
  let c := mkCluster (next c + 1) (reserved c) (latest_completed c) (running c) (commands c) (snapshots c) in
  if (reserved c <=? xid) && alive io then
    match reserve (write_ok io) st (xid + BLOCK) with
    | Some st => (mkCluster (next c) (xid + BLOCK) (latest_completed c) (running c) (commands c) (snapshots c), st, xid)
    | None => (c, st, xid)
    end
  else (c, st, xid).

(** ** Sessions *)

Inductive XidOp := Assign | IfAssigned | Snapshot | Stable.

Definition set_running (c : Cluster) (m : gmap Z Z) : Cluster :=
  mkCluster (next c) (reserved c) (latest_completed c) m (commands c) (snapshots c).

(** The id of [pid]'s transaction, taken if it has none. *)
Definition assign (io : Io) (c : Cluster) (st : Store) (pid : Z) : Cluster * Store * Z :=
  match running c !! pid with
  | Some x => (c, st, x)
  | None => let '(c, st, xid) := take io c st in (set_running c (<[pid := xid]> (running c)), st, xid)
  end.

Definition values (m : gmap Z Z) : list Z := snd <$> map_to_list m.
Definition others (m : gmap Z Z) (pid : Z) : list (Z * Z) := filter (λ px, px.1 ≠ pid) (map_to_list m).
Definition minimum (l : list Z) : option Z :=
  match l with [] => None | x :: l => Some (foldl Z.min x l) end.

Definition taken (c : Cluster) (pid : Z) : Z * Z * list Z :=
  let xmax := latest_completed c + 1 in
  let xip := merge_sort Z.le (snd <$> filter (λ px, px.2 < xmax) (others (running c) pid)) in
  (default xmax (head xip), xmax, xip).

Definition snapshot_of (entry : option Cluster) (pid : Z) : Z * Z * list Z :=
  match entry with Some c => taken c pid | None => (0, 0, []) end.

Fixpoint join (sep : Z) (parts : list bytes) : bytes :=
  match parts with [] => [] | [p] => p | p :: ps => p ++ sep :: join sep ps end.

Definition COLON : Z := 58.
Definition COMMA : Z := 44.
Definition snapshot_text (s : Z * Z * list Z) : bytes :=
  let '(xmin, xmax, xip) := s in
  dec_bytes xmin ++ COLON :: dec_bytes xmax ++ COLON :: join COMMA (dec_bytes <$> xip).

Definition answer (io : Io) (entry : option Cluster) (st : Store) (pid : Z) (op : XidOp)
    : option Cluster * Store * option bytes :=
  match entry with
  | None => (None, st, None)
  | Some c =>
      match op with
      | Assign => let '(c, st, xid) := assign io c st pid in (Some c, st, Some (dec_bytes xid))
      | IfAssigned => (Some c, st, dec_bytes <$> running c !! pid)
      | Stable => (Some c, st, Some (dec_bytes (default (next c) (running c !! pid))))
      | Snapshot => (Some c, st, Some (snapshot_text (taken c pid)))
      end
  end.

Definition end_one (c : Cluster) (pid : Z) : Cluster :=
  let c := match running c !! pid with
           | Some xid => mkCluster (next c) (reserved c) (Z.max (latest_completed c) xid) (delete pid (running c))
                           (commands c) (snapshots c)
           | None => c
           end in
  mkCluster (next c) (reserved c) (latest_completed c) (running c) (delete pid (commands c)) (delete pid (snapshots c)).
Definition end_ (entry : option Cluster) (pid : Z) : option Cluster := (λ c, end_one c pid) <$> entry.

(** [running()]: sorted by pid. *)
Definition by_pid (a b : Z * Z) : Prop := a.1 < b.1 ∨ a.1 = b.1 ∧ a.2 ≤ b.2.
#[export] Instance by_pid_dec a b : Decision (by_pid a b).
Proof. unfold by_pid. apply _. Defined.
Definition running_of (entry : option Cluster) : list (Z * Z) :=
  match entry with Some c => merge_sort by_pid (map_to_list (running c)) | None => [] end.

Definition set_snapshots (c : Cluster) (m : gmap Z Z) : Cluster :=
  mkCluster (next c) (reserved c) (latest_completed c) (running c) (commands c) m.
Definition hold_one (c : Cluster) (pid : Z) : Cluster :=
  let xmin := default (latest_completed c + 1) (minimum (snd <$> others (running c) pid)) in
  match snapshots c !! pid with
  | Some _ => c
  | None => set_snapshots c (<[pid := xmin]> (snapshots c))
  end.
Definition hold_snapshot (entry : option Cluster) (pid : Z) : option Cluster := (λ c, hold_one c pid) <$> entry.

(** [rehold_snapshot] takes the lock twice; other sessions may run in between. *)
Definition rehold_drop (entry : option Cluster) (pid : Z) : option Cluster :=
  (λ c, set_snapshots c (delete pid (snapshots c))) <$> entry.
Definition rehold_snapshot (entry : option Cluster) (pid : Z) : option Cluster :=
  hold_snapshot (rehold_drop entry pid) pid.

Definition horizon (entry : option Cluster) : Z :=
  match entry with
  | None => FROZEN_XID + 1
  | Some c =>
      let xmax := latest_completed c + 1 in
      Z.min (default xmax (minimum (values (running c) ++ values (snapshots c)))) xmax
  end.

Definition set_commands (c : Cluster) (m : gmap Z (Z * bool)) : Cluster :=
  mkCluster (next c) (reserved c) (latest_completed c) (running c) m (snapshots c).

(** The id and the command id a row write stamps. *)
Definition writer (io : Io) (entry : option Cluster) (st : Store) (pid : Z)
    : option Cluster * Store * (option Z * Z) :=
  match entry with
  | None => (None, st, (None, 0))
  | Some c =>
      let '(c, st, xid) := assign io c st pid in
      let '(cid, _) := default (0, false) (commands c !! pid) in
      (Some (set_commands c (<[pid := (cid, true)]> (commands c))), st, (Some xid, cid))
  end.

Definition advance_command (entry : option Cluster) (pid n : Z) : option Cluster :=
  if n =? 0 then entry
  else (λ c, set_commands c (<[pid := (wrap 32 ((default (0, false) (commands c !! pid)).1 + n), false)]> (commands c))) <$> entry.

Definition next_xid (entry : option Cluster) : Z := match entry with Some c => next c | None => 0 end.
Definition xid_of (entry : option Cluster) (pid : Z) : option Z := c ← entry; running c !! pid.

(** ** The text of a snapshot: systypes.rs, snapshots.rs *)

(** The text before the first [c], and what is after it. *)
Fixpoint cut (c : Z) (s : bytes) : bytes * option bytes :=
  match s with
  | [] => ([], None)
  | b :: s => if b =? c then ([], Some s) else let '(l, r) := cut c s in (b :: l, r)
  end.
(** [s.splitn(3, c)] *)
Definition splitn3 (c : Z) (s : bytes) : bytes * option bytes * option bytes :=
  let '(a, r) := cut c s in
  match r with
  | None => (a, None, None)
  | Some r => let '(b, r) := cut c r in (a, Some b, r)
  end.

Definition num (s : option bytes) : option Z := s ← s; if is_digits s then parse_usize s else None.

(** [xips] is the list read so far, reversed. *)
Fixpoint read_xips (xmin xmax : Z) (xips : list Z) (l : list bytes) : option (list Z) :=
  match l with
  | [] => Some (reverse xips)
  | x :: l =>
      v ← num (Some x);
      if (v <? xmin) || (xmax <=? v) || match head xips with Some y => v <? y | None => false end then None
      else read_xips xmin xmax (if ⌊head xips = Some v⌋ then xips else v :: xips) l
  end.

(** [None] is the error [invalid input syntax for type pg_snapshot]. *)
Definition parse_snapshot (input : bytes) : option bytes :=
  let '(a, b, rest) := splitn3 COLON input in
  xmin ← num (Some a);
  xmax ← num b;
  rest ← rest;
  if (xmin =? 0) || (xmax =? 0) || (xmax <? xmin) then None
  else
    xips ← (if ⌊rest = []⌋ then Some [] else read_xips xmin xmax [] (split_char COMMA rest));
    Some (snapshot_text (xmin, xmax, xips)).

Definition parts (value : bytes) : option (Z * Z * list Z) :=
  canonical ← parse_snapshot value;
  let '(a, b, rest) := splitn3 COLON canonical in
  let num (s : option bytes) := default 0 (s ← s; parse_usize s) in
  Some (num (Some a), num b,
        omap parse_usize (filter (λ s, s ≠ []) (split_char COMMA (default [] rest)))).

(** The test of [pg_visible_in_snapshot]. *)
Definition visible (xid : Z) (s : Z * Z * list Z) : bool :=
  let '(xmin, xmax, xip) := s in
  if xid <? xmin then true else if xmax <=? xid then false else negb ⌊xid ∈ xip⌋.
Definition pg_visible_in_snapshot (xid : Z) (snapshot : bytes) : option bool := visible xid <$> parts snapshot.

(** [now] is the answer to [Stable]. *)
Definition xid_age (now : option Z) (xid : Z) : Z :=
  if xid <? 3 then 2 ^ 31 - 1 else signed 32 (wrap 32 (wrap 32 (default 3 now) - xid)).
