(* ===== verification/XidProps.v ===== *)
(** * Transaction ids: what the counter promises

    Runs of the operations of [Xids] over one store, restarts included, with two
    ghosts: the ids returned so far to transactions that had none, and the
    snapshot each session keeps. An act is one section under the lock of the
    clusters: [Rehold] is the first one of [rehold_snapshot], [Hold] its second. *)
From stdpp Require Import strings.
From S2P Require Import Prelude RustM Bson Docs Paths PathsFacts Xids.
Local Open Scope Z_scope.
Local Open Scope secantus_scope.

(** ** Runs *)

Inductive Act :=
  | Ask (io : Io) (pid : Z) (op : XidOp)
  | End (pid : Z)
  | Hold (pid : Z)
  | Rehold (pid : Z)
  | Write (io : Io) (pid : Z)
  | Advance (pid n : Z)
  | Restart (find_ok write_ok : bool).

Record Sys := mkSys {
  entry : option Cluster;
  store : Store;
  issued : list Z;
  seen : gmap Z (Z * Z * list Z);
}.
Definition fresh_store : Sys := mkSys None None [] ∅.

(** The id a call gave [pid]'s transaction: what it returned, unless the
    transaction had its id before. *)
Definition new_ids (before : option Cluster) (pid : Z) (returned : option Z) : list Z :=
  match xid_of before pid, returned with None, Some x => [x] | _, _ => [] end.
(** The id in the answer to [Assign]; the other questions give none. *)
Definition answered (op : XidOp) (text : option bytes) : option Z :=
  match op with Assign => text ≫= parse_usize | _ => None end.

Definition act (s : Sys) (a : Act) : Sys :=
  let '(mkSys e st ids sn) := s in
  match a with
  | Ask io pid op => let '(e', st', text) := answer io e st pid op in
      mkSys e' st' (ids ++ new_ids e pid (answered op text)) sn
  | End pid => mkSys (end_ e pid) st ids (delete pid sn)
  | Hold pid => mkSys (hold_snapshot e pid) st ids
                  (match sn !! pid with Some _ => sn | None => <[pid := snapshot_of e pid]> sn end)
  | Rehold pid => mkSys (rehold_drop e pid) st ids (delete pid sn)
  | Write io pid => let '(e', st', w) := writer io e st pid in
      mkSys e' st' (ids ++ new_ids e pid w.1) sn
  | Advance pid n => mkSys (advance_command e pid n) st ids sn
  | Restart f w => match install f w st with
                   | Some (c, st') => mkSys (Some c) st' ids ∅
                   | None => mkSys None st ids ∅
                   end
  end.
Definition run (s : Sys) (l : list Act) : Sys := foldl act s l.

(** ** Minimum *)

Lemma foldl_min_le l x y : foldl Z.min x l ≤ y ↔ x ≤ y ∨ ∃ z, z ∈ l ∧ z ≤ y.
Proof.
  revert x. induction l as [|z l IH]; intros x; cbn.
  - split; [by left|]. intros [|(z & Hz & _)]; [done|elem_nil].
  - rewrite IH. setoid_rewrite elem_of_cons. split.
    + intros [|(w & ? & ?)]; [destruct (Z.min_spec x z) as [[? E]|[? E]]; rewrite E in *; eauto|eauto].
    + intros [|(w & [->|?] & ?)]; [left; lia|left; lia|eauto].
Qed.

(** The least of a list and a bound. *)
Definition low (l : list Z) (b : Z) : Z := Z.min (default b (minimum l)) b.

Lemma low_le l b y : low l b ≤ y ↔ b ≤ y ∨ ∃ z, z ∈ l ∧ z ≤ y.
Proof.
  unfold low. destruct l as [|x l]; cbn.
  - split; [left; lia|]. intros [|(z & Hz & _)]; [lia|elem_nil].
  - rewrite Z.min_le_iff, foldl_min_le. setoid_rewrite elem_of_cons. split; [|intros [|(z & [->|] & ?)]; eauto].
    intros [[|(z & ? & ?)]|]; eauto.
Qed.

Lemma low_mono l b l' b' : b ≤ b' → (∀ z, z ∈ l' → low l b ≤ z) → low l b ≤ low l' b'.
Proof.
  intros Hb Hl. destruct (proj1 (low_le l' b' (low l' b')) (Z.le_refl _)) as [?|(z & Hz & ?)].
  - etrans; [|done]. apply low_le. by left.
  - etrans; [by apply Hl|done].
Qed.

Lemma minimum_spec l x : minimum l = Some x → x ∈ l ∧ ∀ y, y ∈ l → x ≤ y.
Proof.
  destruct l as [|z l]; [done|]. cbn. intros [= <-]. split.
  - destruct (proj1 (foldl_min_le l z (foldl Z.min z l)) (Z.le_refl _)) as [?|(w & Hw & ?)].
    + assert (foldl Z.min z l ≤ z) by (apply foldl_min_le; left; lia). assert (foldl Z.min z l = z) as -> by lia. left.
    + assert (foldl Z.min z l ≤ w) by (apply foldl_min_le; eauto with lia). assert (foldl Z.min z l = w) as -> by lia. by right.
  - intros y [->|Hy]%elem_of_cons; apply foldl_min_le; [left; lia|right; eauto with lia].
Qed.

Lemma minimum_None l : minimum l = None → l = [].
Proof. by destruct l. Qed.

Lemma elem_of_values m x : x ∈ values m ↔ ∃ p, m !! p = Some x.
Proof.
  unfold values. rewrite list_elem_of_fmap. split.
  - intros ([p y] & -> & H%elem_of_map_to_list). eauto.
  - intros (p & H). exists (p, x). split; [done|]. by apply elem_of_map_to_list.
Qed.

Lemma elem_of_others m pid x : x ∈ (others m pid).*2 ↔ ∃ p, p ≠ pid ∧ m !! p = Some x.
Proof.
  unfold others. rewrite list_elem_of_fmap. split.
  - intros ([p y] & -> & [? H%elem_of_map_to_list]%list_elem_of_filter). eauto.
  - intros (p & Hp & H). exists (p, x). split; [done|]. apply list_elem_of_filter. by rewrite elem_of_map_to_list.
Qed.

(** ** The invariant *)

(** Every id of the run that is not completed is held by one session, and the ids
    past the latest completed are all held. *)
Record wf (c : Cluster) : Prop := {
  wf_latest : FROZEN_XID ≤ latest_completed c < next c;
  wf_running p x : running c !! p = Some x → FROZEN_XID < x < next c;
  wf_inj p q x : running c !! p = Some x → running c !! q = Some x → p = q;
  wf_held x : latest_completed c < x < next c → ∃ p, running c !! p = Some x;
}.

Lemma take_spec io c st c' st' x :
  take io c st = (c', st', x) →
  x = next c ∧ next c' = next c + 1 ∧ latest_completed c' = latest_completed c ∧ running c' = running c ∧
  snapshots c' = snapshots c.
Proof.
  unfold take. cbn. destruct (_ && _); [destruct (reserve _ _ _)|]; intros [= <- <- <-]; auto.
Qed.

Lemma resume_ge st : FROZEN_XID < resume st.
Proof. destruct st; cbn [resume]; lia. Qed.

Lemma install_wf f w st c st' : install f w st = Some (c, st') → wf c ∧ snapshots c = ∅ ∧ next c = resume st.
Proof.
  unfold install. destruct f; [|done]. intros (s & _ & [= <- <-])%bind_Some. pose proof (resume_ge st).
  split; [|done]. split; cbn [latest_completed next running]; try (intros *; rewrite lookup_empty; done); lia.
Qed.

(** The ways an entry changes, the command counters apart: nothing, an id taken, a
    transaction ended, a snapshot kept or given up. *)
Inductive moves (c : Cluster) : Cluster → Prop :=
  | m_same c' : next c' = next c → latest_completed c' = latest_completed c → running c' = running c →
      snapshots c' = snapshots c → moves c c'
  | m_take pid c' : running c !! pid = None → next c' = next c + 1 → latest_completed c' = latest_completed c →
      running c' = <[pid := next c]> (running c) → snapshots c' = snapshots c → moves c c'
  | m_end pid : moves c (end_one c pid)
  | m_hold pid : moves c (hold_one c pid)
  | m_drop pid : moves c (set_snapshots c (delete pid (snapshots c))).

Lemma assign_moves io c st pid c' st' x :
  assign io c st pid = (c', st', x) → moves c c' ∧ running c' !! pid = Some x.
Proof.
  unfold assign. destruct (running c !! pid) as [y|] eqn:E.
  - intros [= <- <- <-]. split; [by apply m_same|done].
  - destruct (take io c st) as [[c1 st1] x1] eqn:T. intros [= <- <- <-].
    destruct (take_spec _ _ _ _ _ _ T) as (-> & Hn & Hl & Hr & Hs).
    cbn [set_running next running]. rewrite lookup_insert_eq.
    split; [|done]. by apply (m_take c pid); cbn; rewrite ?Hr.
Qed.

Lemma moves_wf c c' : wf c → moves c c' → wf c'.
Proof.
  intros [Hl Hr Hi Hh]. destruct 1 as [c' En El Er Es|pid c' Ep En El Er Es|pid|pid|pid].
  - split; rewrite ?En, ?El, ?Er; auto.
  - split; rewrite ?En, ?El, ?Er.
    + lia.
    + intros p x. insert_case p pid; [intros [= <-]; lia|]. intros ?%Hr. lia.
    + intros p q x. insert_case p pid; insert_case q pid; intros; simplify_eq; eauto.
      * assert (FROZEN_XID < next c < next c) by eauto. lia.
      * assert (FROZEN_XID < next c < next c) by eauto. lia.
    + intros x Hx. destruct (decide (x = next c)) as [->|].
      * exists pid. apply lookup_insert_eq.
      * destruct (Hh x) as (p & Hp); [lia|]. exists p. rewrite lookup_insert_ne; [done|congruence].
  - unfold end_one. destruct (running c !! pid) as [y|] eqn:E; cbn; [|by split].
    assert (Hy := Hr _ _ E). split; cbn.
    + lia.
    + intros p x [_ ?%Hr]%lookup_delete_Some. done.
    + intros p q x [_ ?]%lookup_delete_Some [_ ?]%lookup_delete_Some. eauto.
    + intros x Hx. destruct (Hh x) as (p & Hp); [lia|]. exists p. apply lookup_delete_Some.
      split; [|done]. intros <-. simplify_eq. lia.
  - unfold hold_one. destruct (snapshots c !! pid); by split.
  - by split.
Qed.

Lemma horizon_low c : horizon (Some c) = low (values (running c) ++ values (snapshots c)) (latest_completed c + 1).
Proof. done. Qed.

Lemma horizon_below c :
  horizon (Some c) ≤ latest_completed c + 1 ∧
  (∀ p x, running c !! p = Some x → horizon (Some c) ≤ x) ∧ (∀ p x, snapshots c !! p = Some x → horizon (Some c) ≤ x).
Proof.
  rewrite horizon_low. split_and!; intros; apply low_le; [left; lia| |]; right; exists x;
    rewrite elem_of_app, !elem_of_values; eauto with lia.
Qed.

(** The xmin a session keeps: no session's id but its own is below. *)
Lemma hold_xmin c pid :
  let xmin := default (latest_completed c + 1) (minimum (others (running c) pid).*2) in
  horizon (Some c) ≤ xmin ∧ ∀ p x, p ≠ pid → running c !! p = Some x → xmin ≤ x ∨ latest_completed c < x.
Proof.
  intros xmin. destruct (horizon_below c) as (Hb & Hr & _). subst xmin.
  destruct (minimum _) as [m|] eqn:E; cbn.
  - apply minimum_spec in E as [Hm Hle]. apply elem_of_others in Hm as (q & _ & Hq). split; [eauto|].
    intros p x Hp Hx. left. apply Hle, elem_of_others. eauto.
  - split; [done|]. intros p x Hp Hx. exfalso. assert (Hin : x ∈ (others (running c) pid).*2) by (apply elem_of_others; eauto).
    rewrite (minimum_None _ E) in Hin. elem_nil.
Qed.

Lemma moves_horizon c c' : wf c → moves c c' → horizon (Some c) ≤ horizon (Some c').
Proof.
  intros Hwf Hm. destruct (horizon_below c) as (Hb & Hr & Hs). pose proof (wf_latest c Hwf).
  rewrite (horizon_low c'), (horizon_low c) in *. apply low_mono.
  - destruct Hm as [c' En El Er Es|pid c' Ep En El Er Es|pid|pid|pid]; rewrite ?El; try reflexivity.
    + unfold end_one. destruct (running c !! pid); cbn; lia.
    + unfold hold_one. by destruct (snapshots c !! pid).
  - intros z. rewrite elem_of_app, !elem_of_values. destruct Hm as [c' En El Er Es|pid c' Ep En El Er Es|pid|pid|pid].
    + rewrite Er, Es. intros [(p & Hp)|(p & Hp)]; eauto.
    + rewrite Er, Es. intros [(p & Hp)|(p & Hp)]; [|eauto]. insert_case p pid; [|eauto]. injection Hp as <-. lia.
    + unfold end_one. destruct (running c !! pid); cbn; intros [(p & Hp)|(p & Hp)];
        try apply lookup_delete_Some in Hp as [_ Hp]; eauto.
    + unfold hold_one. destruct (snapshots c !! pid); cbn; intros [(p & Hp)|(p & Hp)]; eauto.
      insert_case p pid; [|eauto]. injection Hp as <-. apply hold_xmin.
    + cbn. intros [(p & Hp)|(p & [_ Hp]%lookup_delete_Some)]; eauto.
Qed.

(** ** Runs and the invariant *)

Definition is_restart (a : Act) : bool := match a with Restart _ _ => true | _ => false end.

Lemma writer_moves io c st pid e' st' r :
  writer io (Some c) st pid = (e', st', r) →
  ∃ c1 c' x, assign io c st pid = (c1, st', x) ∧ r.1 = Some x ∧ e' = Some c' ∧ next c' = next c1 ∧ reserved c' = reserved c1 ∧
    latest_completed c' = latest_completed c1 ∧ running c' = running c1 ∧ snapshots c' = snapshots c1.
Proof.
  unfold writer. destruct (assign io c st pid) as [[c1 st1] x] eqn:E.
  destruct (default _ _) as [cid b]. intros [= <- <- <-]. naive_solver.
Qed.

Lemma act_moves s a c :
  entry s = Some c → is_restart a = false → ∃ c', entry (act s a) = Some c' ∧ rtc moves c c'.
Proof.
  destruct s as [e st ids sn]. cbn. intros -> Ha. destruct a as [io pid op|pid|pid|pid|io pid|pid n|]; [..|done].
  - destruct op; cbn; try (exists c; by split; [done|apply rtc_refl]).
    destruct (assign io c st pid) as [[c1 st1] x] eqn:E. exists c1. split; [done|]. by eapply rtc_once, assign_moves.
  - eexists. split; [done|]. apply rtc_once, m_end.
  - eexists. split; [done|]. apply rtc_once, m_hold.
  - eexists. split; [done|]. apply rtc_once, (m_drop c pid).
  - cbn [act]. destruct (writer io (Some c) st pid) as [[e' st'] r] eqn:E. cbn [entry].
    apply writer_moves in E as (c1 & c' & x & E & _ & -> & Hn & _ & Hl & Hr & Hs). exists c'. split; [done|].
    eapply rtc_l; [by eapply assign_moves|]. by apply rtc_once, m_same.
  - cbn. unfold advance_command. destruct (n =? 0); cbn; [exists c; by split; [done|apply rtc_refl]|].
    eexists. split; [done|]. by apply rtc_once, m_same.
Qed.

Lemma rtc_moves_wf c c' : rtc moves c c' → wf c → wf c' ∧ horizon (Some c) ≤ horizon (Some c').
Proof.
  induction 1 as [c|c c1 c2 H _ IH]; intros Hwf; [by split|].
  assert (Hwf1 := moves_wf _ _ Hwf H). destruct (IH Hwf1). split; [done|]. etrans; [by apply moves_horizon|done].
Qed.

(** What holds back a snapshot a session keeps: its xmin, and while that is past
    the snapshot's xmax, the session's own id. *)
Definition kept (c : Cluster) (pid : Z) (snap : Z * Z * list Z) : Prop :=
  ∃ h, snapshots c !! pid = Some h ∧ (∀ x, x ∈ snap.2 → h ≤ x) ∧
    (h ≤ snap.1.2 ∨ ∃ own, running c !! pid = Some own ∧ own ≤ snap.1.2).
Definition keeps (c : Cluster) (sn : gmap Z (Z * Z * list Z)) : Prop :=
  ∀ pid, match sn !! pid with Some snap => kept c pid snap | None => snapshots c !! pid = None end.

Lemma keeps_same c c' sn :
  (∀ p x, running c !! p = Some x → running c' !! p = Some x) → snapshots c' = snapshots c → keeps c sn → keeps c' sn.
Proof.
  intros Hr Hs H pid. specialize (H pid). destruct (sn !! pid) as [snap|]; [|by rewrite Hs].
  destruct H as (h & Hh & Hx & Ho). exists h. rewrite Hs. split_and!; [done|done|]. destruct Ho as [|(own & ? & ?)]; eauto.
Qed.

Lemma elem_of_xip c pid x :
  x ∈ (taken c pid).2 ↔ x ≤ latest_completed c ∧ ∃ p, p ≠ pid ∧ running c !! p = Some x.
Proof.
  unfold taken. cbn [snd]. rewrite merge_sort_Permutation, list_elem_of_fmap. split.
  - intros ([p y] & -> & [Hlt [Hp H%elem_of_map_to_list]%list_elem_of_filter]%list_elem_of_filter). cbn in *.
    split; [lia|eauto].
  - intros (Hle & p & Hp & H). exists (p, x). split; [done|]. apply list_elem_of_filter. cbn. split; [lia|].
    apply list_elem_of_filter. by rewrite elem_of_map_to_list.
Qed.

Lemma hold_kept c pid :
  wf c → snapshots c !! pid = None → kept (hold_one c pid) pid (taken c pid).
Proof.
  intros Hwf Hn. unfold hold_one. rewrite Hn. unfold kept. cbn [set_snapshots snapshots running].
  rewrite lookup_insert_eq. destruct (hold_xmin c pid) as [_ Hx].
  eexists. split; [done|]. split.
  - intros x (Hle & p & Hp & H)%elem_of_xip. destruct (Hx p x Hp H); [done|lia].
  - change ((taken c pid).1.2) with (latest_completed c + 1). destruct (minimum _) as [m|] eqn:E; cbn; [|by left].
    apply minimum_spec in E as [(q & Hq & Hm)%elem_of_others Hle].
    destruct (Z.le_gt_cases m (latest_completed c + 1)) as [|Hgt]; [by left|right].
    destruct (wf_held c Hwf (latest_completed c + 1)) as (p & Hp).
    { pose proof (wf_running c Hwf _ _ Hm). lia. }
    exists (latest_completed c + 1). split; [|lia]. destruct (decide (p = pid)) as [<-|Hne]; [done|].
    assert (m ≤ latest_completed c + 1) by (apply Hle, elem_of_others; eauto). lia.
Qed.

Lemma hold_keeps c sn pid :
  wf c → keeps c sn →
  keeps (hold_one c pid) (match sn !! pid with Some _ => sn | None => <[pid := taken c pid]> sn end).
Proof.
  intros Hwf H. assert (Hp := H pid). destruct (sn !! pid) as [snap|] eqn:E.
  - destruct Hp as (h & Hh & _). unfold hold_one. by rewrite Hh.
  - assert (Hk := hold_kept c pid Hwf Hp). intros p. specialize (H p). insert_case p pid; [done|].
    unfold hold_one in *. rewrite Hp in *. destruct (sn !! p); unfold kept in *; cbn in *; by rewrite lookup_insert_ne.
Qed.

Definition inv (s : Sys) : Prop := ∀ c, entry s = Some c → wf c ∧ keeps c (seen s).

Lemma assign_keeps io c st pid c' st' x sn : assign io c st pid = (c', st', x) → keeps c sn → keeps c' sn.
Proof.
  unfold assign. destruct (running c !! pid) as [y|] eqn:E; [by intros [= <- _ _]|].
  destruct (take io c st) as [[c1 st1] x1] eqn:T. intros [= <- <- <-].
  destruct (take_spec _ _ _ _ _ _ T) as (-> & _ & _ & Hr & Hs). apply keeps_same; [|done].
  cbn [set_running running]. rewrite Hr. intros p z Hz. rewrite lookup_insert_ne; [done|congruence].
Qed.

Lemma end_keeps c pid sn : keeps c sn → keeps (end_one c pid) (delete pid sn).
Proof.
  intros H p. specialize (H p). rewrite lookup_delete. case_decide as E.
  - unfold end_one. destruct (running c !! pid); cbn; apply lookup_delete_None; auto.
  - assert (Hs : snapshots (end_one c pid) !! p = snapshots c !! p).
    { unfold end_one. destruct (running c !! pid); cbn; by rewrite lookup_delete_ne. }
    assert (Hr : running (end_one c pid) !! p = running c !! p).
    { unfold end_one. destruct (running c !! pid); cbn; [by rewrite lookup_delete_ne|done]. }
    destruct (sn !! p); unfold kept in *; by rewrite ?Hs, ?Hr.
Qed.

Lemma drop_keeps c pid sn : keeps c sn → keeps (set_snapshots c (delete pid (snapshots c))) (delete pid sn).
Proof.
  intros H p. specialize (H p). rewrite lookup_delete. case_decide as E; cbn.
  - apply lookup_delete_None. auto.
  - unfold kept in *. cbn. rewrite lookup_delete_ne by done. done.
Qed.

Lemma act_keeps s a c c' :
  entry s = Some c → wf c → keeps c (seen s) → is_restart a = false → entry (act s a) = Some c' → keeps c' (seen (act s a)).
Proof.
  destruct s as [e st ids sn]. cbn [entry seen]. intros -> Hwf Hk Ha Hc'.
  destruct a as [io pid op|pid|pid|pid|io pid|pid n|]; [..|done]; cbn [act] in *.
  - destruct op; cbn in *; try (by injection Hc' as <-).
    destruct (assign io c st pid) as [[c1 st1] x] eqn:E. cbn in *. injection Hc' as ->. by eapply assign_keeps.
  - injection Hc' as <-. by apply end_keeps.
  - injection Hc' as <-. by apply hold_keeps.
  - injection Hc' as <-. by apply drop_keeps.
  - destruct (writer io (Some c) st pid) as [[e' st'] r] eqn:E. cbn [entry seen] in *.
    apply writer_moves in E as (c1 & c2 & x & E & _ & -> & _ & _ & _ & Hr & Hs). injection Hc' as ->.
    apply (keeps_same c1); [by rewrite Hr|done|]. by eapply assign_keeps.
  - unfold advance_command in *. destruct (n =? 0); injection Hc' as <-; [done|]. by apply (keeps_same c).
Qed.

Lemma restart_inv s f w : inv (act s (Restart f w)).
Proof.
  destruct s as [e st ids sn]. cbn. destruct (install f w st) as [[c' st']|] eqn:E; [|done]. intros ? [= <-].
  destruct (install_wf _ _ _ _ _ E) as (? & Hs & _). split; [done|]. intros pid. cbn. by rewrite lookup_empty, Hs.
Qed.

Lemma act_none s a : entry s = None → is_restart a = false → entry (act s a) = None.
Proof.
  destruct s as [e st ids sn]. cbn [entry]. intros -> Ha. destruct a as [| | | | |pid n|]; try done.
  cbn. unfold advance_command. by destruct (n =? 0).
Qed.

Lemma act_inv s a : inv s → inv (act s a).
Proof.
  intros Hi. destruct (is_restart a) eqn:Ha; [destruct a; try done; apply restart_inv|]. intros c' Hc'.
  destruct (entry s) as [c|] eqn:E; [|by rewrite (act_none s a E Ha) in Hc'].
  destruct (Hi c E) as [Hwf Hk]. split; [|by eapply act_keeps].
  destruct (act_moves s a c E Ha) as (c1 & E1 & Hm). rewrite Hc' in E1. injection E1 as ->. by apply (rtc_moves_wf c).
Qed.

Lemma xid_run_inv s l : inv s → inv (run s l).
Proof. revert s. induction l as [|a l IH]; intros s Hi; [done|]. by apply IH, act_inv. Qed.

Lemma fresh_inv : inv fresh_store.
Proof. done. Qed.

(** ** The removal horizon *)

Lemma kept_visible c pid snap x :
  kept c pid snap → x < horizon (Some c) → visible x snap = true.
Proof.
  destruct snap as [[xmin xmax] xip]. intros (h & Hh & Hx & Ho) Hlt. cbn [fst snd visible] in *.
  destruct (horizon_below c) as (_ & Hr & Hs). assert (Hle := Hs _ _ Hh).
  destruct (Z.ltb_spec x xmin); [done|]. destruct (Z.leb_spec xmax x).
  - exfalso. destruct Ho as [|(own & Hown & ?)]; [lia|]. specialize (Hr _ _ Hown). lia.
  - rewrite bool_decide_false; [done|]. intros Hin. specialize (Hx _ Hin). lia.
Qed.

(** C13. Whatever the sessions of a store did, restarts and failed writes included,
    an id below the removal horizon is complete for every snapshot a session still
    keeps: it is below the snapshot's xmax and not among the ids that were running
    when it was taken, and no session runs it now. So a row deleted by it is
    deleted for all of them. *)
Theorem horizon_safe (l : list Act) (c : Cluster) (x : Z) :
  entry (run fresh_store l) = Some c → x < horizon (Some c) →
  (∀ pid snap, seen (run fresh_store l) !! pid = Some snap → visible x snap = true) ∧
  (∀ pid, running c !! pid ≠ Some x).
Proof.
  intros E Hx. destruct (xid_run_inv fresh_store l fresh_inv c E) as [Hwf Hk]. split.
  - intros pid snap Hs. specialize (Hk pid). rewrite Hs in Hk. by eapply kept_visible.
  - intros pid Hr. destruct (horizon_below c) as (_ & Hb & _). specialize (Hb _ _ Hr). lia.
Qed.

(** Session 1 keeps a snapshot while session 2 runs 723; 724 completes, so the
    horizon stays at 723 until session 2 ends, and then at the kept xmin. *)
Definition kept_run : list Act :=
  let io := mkIo true true in
  [Restart true true; Ask io 2 Assign; Ask io 3 Assign; Hold 1; End 3; Hold 4; End 2].
Lemma horizon_safe_witness :
  (∀ pid snap, seen (run fresh_store kept_run) !! pid = Some snap → visible 722 snap = true) ∧
  seen (run fresh_store kept_run) !! 1 = Some (723, 723, []) ∧ seen (run fresh_store kept_run) !! 4 = Some (723, 725, [723]).
Proof.
  assert (E : ∃ c, entry (run fresh_store kept_run) = Some c ∧ horizon (Some c) = 723) by (eexists; split; vm_compute; reflexivity).
  split; [|split; vm_compute; reflexivity]. destruct E as (c & E & Eh).
  apply (horizon_safe kept_run c 722 E). rewrite Eh. reflexivity.
Defined.

(** ** Ids are handed out once *)

Definition io_ok (a : Act) : bool :=
  match a with Ask io _ _ | Write io _ => alive io && write_ok io | _ => true end.

Lemma reserve_resume w st upto st' :
  reserve w st upto = Some st' → FROZEN_XID < upto → resume st' = upto.
Proof.
  unfold reserve. destruct (_ <? _); [done|]. destruct w; [|done]. intros [= <-] H. cbn [resume].
  rewrite doc_get_insert, bool_decide_true by done. rewrite (proj2 (Z.ltb_ge upto 0)) by (unfold FROZEN_XID in *; lia). lia.
Qed.

Lemma reserve_room st upto : upto ≤ I64_MAX → is_Some (reserve true st upto).
Proof. intros H. unfold reserve. rewrite (proj2 (Z.ltb_ge _ _)) by done. eauto. Qed.

(** The ids handed out ascend and lie below the counter, and the store has
    reserved past the counter: up to [hi] at most. *)
Definition durable (hi : Z) (s : Sys) : Prop :=
  StronglySorted Z.lt (issued s) ∧ FROZEN_XID < resume (store s) ≤ hi ∧
  match entry s with
  | Some c => FROZEN_XID < next c ≤ resume (store s) ∧ reserved c = resume (store s) ∧ Forall (λ x, x < next c) (issued s)
  | None => Forall (λ x, x < resume (store s)) (issued s)
  end.

Lemma take_durable hi io c st ids sn c' st' x :
  take io c st = (c', st', x) → alive io && write_ok io = true → hi + BLOCK ≤ I64_MAX →
  durable hi (mkSys (Some c) st ids sn) →
  x = next c ∧ durable (hi + BLOCK) (mkSys (Some c') st' (ids ++ [x]) sn).
Proof.
  intros T Hio Hhi (Hs & Hhi' & Hn & Hr & Hall). cbn in *.
  assert (Hs' : StronglySorted Z.lt (ids ++ [next c])).
  { apply StronglySorted_app_2; [|done|by repeat constructor].
    intros y z Hy ->%list_elem_of_singleton. rewrite Forall_forall in Hall. by apply Hall. }
  assert (Ha : Forall (λ y, y < next c + 1) (ids ++ [next c])).
  { apply Forall_app. split; [eapply Forall_impl; [done|]; cbn; lia|repeat constructor; lia]. }
  unfold take in T. cbn in T. apply andb_true_iff in Hio as [Hal Hw]. rewrite Hal, andb_true_r, Hw, Hr in T. unfold BLOCK in *.
  destruct (Z.leb_spec (resume st) (next c)) as [Hle|Hgt].
  - destruct (reserve_room st (next c + 8192)) as [st1 E]; [lia|]. rewrite E in T. injection T as <- <- <-.
    assert (Er := reserve_resume _ _ _ _ E). unfold durable. cbn. rewrite Er by lia. split_and!; try done; lia.
  - injection T as <- <- <-. unfold durable. cbn. split_and!; try done; lia.
Qed.

Lemma durable_more hi hi' s : hi ≤ hi' → durable hi s → durable hi' s.
Proof. intros ? (? & ? & ?). split_and!; [done|lia|lia|done]. Qed.

Lemma durable_same hi c c' st ids sn sn' :
  next c' = next c → reserved c' = reserved c → durable hi (mkSys (Some c) st ids sn) → durable hi (mkSys (Some c') st ids sn').
Proof. intros En Er (? & ? & ? & ? & ?). unfold durable. cbn in *. rewrite En, Er. done. Qed.

Lemma assign_durable hi io c st pid ids sn c' st' x :
  assign io c st pid = (c', st', x) → alive io && write_ok io = true → hi + BLOCK ≤ I64_MAX →
  durable hi (mkSys (Some c) st ids sn) →
  durable (hi + BLOCK) (mkSys (Some c') st' (ids ++ new_ids (Some c) pid (Some x)) sn).
Proof.
  intros E Hio Hhi Hd. unfold assign in E. unfold new_ids. cbn [xid_of mbind option_bind].
  destruct (running c !! pid) as [y|].
  - injection E as <- <- <-. rewrite app_nil_r. eapply durable_more; [|done]. unfold BLOCK. lia.
  - destruct (take io c st) as [[c1 st1] x1] eqn:T. injection E as <- <- <-.
    destruct (take_durable _ _ _ _ _ _ _ _ _ T Hio Hhi Hd) as [_ H]. by eapply durable_same; [..|exact H].
Qed.

(** The text of an id that was just taken reads back as it. *)
Lemma answered_assign hi io c st pid ids sn c' st' x :
  assign io c st pid = (c', st', x) → hi ≤ I64_MAX → durable hi (mkSys (Some c) st ids sn) →
  new_ids (Some c) pid (answered Assign (Some (dec_bytes x))) = new_ids (Some c) pid (Some x).
Proof.
  intros E Hhi (_ & Hres & Hn & _). unfold assign, new_ids in *. cbn [xid_of mbind option_bind answered entry store] in *.
  destruct (running c !! pid) as [y|]; [done|]. destruct (take io c st) as [[c1 st1] x1] eqn:T. injection E as <- <- <-.
  destruct (take_spec _ _ _ _ _ _ T) as (-> & _). rewrite parse_dec; [done|].
  unfold FROZEN_XID, I64_MAX, USIZE_MAX in *. lia.
Qed.

Lemma restart_durable hi s f w :
  hi + BLOCK ≤ I64_MAX → durable hi s → durable (hi + BLOCK) (act s (Restart f w)).
Proof.
  destruct s as [e st ids sn]. intros Hhi (Hs & Hhi' & Hall). cbn [entry issued store] in *.
  assert (Hlt : Forall (λ x, x < resume st) ids).
  { destruct e as [c|]; [|done]. destruct Hall as (? & _ & Hall). eapply Forall_impl; [done|]. cbn. lia. }
  cbn [act]. destruct (install f w st) as [[c st']|] eqn:E.
  - unfold install in E. destruct f; [|done]. apply bind_Some in E as (st1 & E & [= <- <-]).
    assert (Er := reserve_resume _ _ _ _ E). unfold durable, BLOCK in *. cbn. rewrite Er by lia. split_and!; try done; lia.
  - unfold durable, BLOCK in *. cbn. split_and!; try done; lia.
Qed.

Lemma act_durable hi s a :
  io_ok a = true → hi + BLOCK ≤ I64_MAX → durable hi s → durable (hi + BLOCK) (act s a).
Proof.
  intros Hio Hhi Hd. destruct (is_restart a) eqn:Ha; [destruct a; try done; by apply restart_durable|].
  assert (Hd' : durable (hi + BLOCK) s) by (eapply durable_more; [|done]; unfold BLOCK; lia).
  destruct s as [[c|] st ids sn]; cycle 1.
  { destruct a as [io pid op| | | | |pid n|]; try done; cbn.
    - destruct op; cbn; by rewrite app_nil_r.
    - by rewrite app_nil_r.
    - unfold advance_command. by destruct (n =? 0). }
  destruct a as [io pid op|pid|pid|pid|io pid|pid n|]; [..|done]; cbn [act].
  - destruct op; cbn [answer]; try (unfold new_ids; cbn [answered]; destruct (xid_of _ _); rewrite app_nil_r; done).
    destruct (assign io c st pid) as [[c1 st1] x] eqn:E.
    rewrite (answered_assign hi _ _ _ _ _ _ _ _ _ E) by (done || unfold BLOCK in *; lia). by eapply assign_durable.
  - eapply durable_same; [..|done]; unfold end_one; by destruct (running c !! pid).
  - eapply durable_same; [..|done]; unfold hold_one; by destruct (snapshots c !! pid).
  - by eapply durable_same; [..|done].
  - destruct (writer io (Some c) st pid) as [[e' st'] r] eqn:E.
    apply writer_moves in E as (c1 & c2 & x & E & -> & -> & En & Er & _).
    eapply durable_same; [exact En|exact Er|]. by eapply assign_durable.
  - unfold advance_command. destruct (n =? 0); [done|]. by eapply durable_same; [..|exact Hd'].
Qed.

Lemma run_durable hi s l :
  forallb io_ok l = true → hi + BLOCK * Z.of_nat (length l) ≤ I64_MAX → durable hi s →
  durable (hi + BLOCK * Z.of_nat (length l)) (run s l).
Proof.
  revert hi s. induction l as [|a l IH]; intros hi s Hio Hhi Hd; cbn [run foldl length] in *.
  - by replace (hi + _) with hi by lia.
  - apply andb_true_iff in Hio as [Ha Hl]. unfold BLOCK in *.
    replace (hi + 8192 * Z.of_nat (S (length l))) with (hi + 8192 + 8192 * Z.of_nat (length l)) by lia.
    apply IH; [done|lia|]. apply act_durable; [done|unfold BLOCK; lia|done].
Qed.

(** C14. While every block the counter asks the store for is reserved, the ids
    that [Assign] answers and [writer] returns to transactions that had none are
    all different, however often the server is restarted, whether or not a
    restart succeeds: they ascend strictly over the whole life of the store, and
    the counter stays within what is reserved. The bound on the length of the run
    keeps the reservation within an [i64]. *)
Theorem xids_unique (l : list Act) :
  forallb io_ok l = true → FROZEN_XID + 1 + BLOCK * Z.of_nat (length l) ≤ I64_MAX →
  let s := run fresh_store l in
  StronglySorted Z.lt (issued s) ∧ (∀ c, entry s = Some c → next c ≤ resume (store s)).
Proof.
  intros Hio Hlen s. destruct (run_durable (FROZEN_XID + 1) fresh_store l) as (Hs & _ & Hc); [done|done| |].
  - unfold durable. cbn. split_and!; try lia; constructor.
  - split; [done|]. intros c E. fold s in Hc. rewrite E in Hc. lia.
Qed.

(** Two runs of a server: the second resumes past the block of the first. *)
Definition two_runs : list Act :=
  let io := mkIo true true in
  [Restart true true; Ask io 1 Assign; Write io 2; Restart true false; Restart true true; Write io 1].
Lemma xids_unique_witness :
  StronglySorted Z.lt (issued (run fresh_store two_runs)) ∧ issued (run fresh_store two_runs) = [723; 724; 8915].
Proof. split; [apply (xids_unique two_runs); [reflexivity|vm_compute; discriminate]|vm_compute; reflexivity]. Defined.

(** ** Snapshots and their text *)

Lemma cut_app c l r : c ∉ l → cut c (l ++ c :: r) = (l, Some r).
Proof.
  induction l as [|b l IH]; cbn; [by rewrite Z.eqb_refl|]. rewrite not_elem_of_cons. intros [Hb Hl].
  rewrite (proj2 (Z.eqb_neq b c)) by done. by rewrite IH.
Qed.

Lemma dec_bytes_digits z b : 0 ≤ z → b ∈ dec_bytes z → 48 ≤ b ≤ 57.
Proof.
  intros Hz Hb. destruct (digits_value_dec z Hz) as [_ H]. unfold is_digits in H. apply andb_true_iff in H as [_ H].
  rewrite forallb_forall in H. specialize (H b). rewrite <- list_elem_of_In in H. specialize (H Hb).
  unfold is_digit, in_range in H. lia.
Qed.

Lemma dec_bytes_free c z : 0 ≤ z → ¬ 48 ≤ c ≤ 57 → c ∉ dec_bytes z.
Proof. intros Hz Hc H%dec_bytes_digits; [done|done]. Qed.

Lemma dec_bytes_nonempty z : 0 ≤ z → dec_bytes z ≠ [].
Proof. intros Hz E. destruct (digits_value_dec z Hz) as [_ H]. by rewrite E in H. Qed.

Lemma num_dec z : 0 ≤ z ≤ USIZE_MAX → num (Some (dec_bytes z)) = Some z.
Proof.
  intros Hz. change (num (Some (dec_bytes z))) with (if is_digits (dec_bytes z) then parse_usize (dec_bytes z) else None).
  rewrite (proj2 (digits_value_dec z (proj1 Hz))). by apply parse_dec.
Qed.

Lemma splitn3_text xmin xmax xip :
  0 ≤ xmin → 0 ≤ xmax →
  splitn3 COLON (snapshot_text (xmin, xmax, xip)) =
  (dec_bytes xmin, Some (dec_bytes xmax), Some (join COMMA (dec_bytes <$> xip))).
Proof.
  intros Ha Hb. unfold splitn3, snapshot_text. rewrite cut_app by (apply dec_bytes_free; unfold COLON; lia).
  by rewrite cut_app by (apply dec_bytes_free; unfold COLON; lia).
Qed.

Lemma split_char_join c ps :
  ps ≠ [] → Forall (λ p, c ∉ p) ps → split_char c (join c ps) = ps.
Proof.
  intros Hne H. induction H as [|p [|q ps] Hp _ IH]; [done| |].
  - clear IH Hne. cbn [join]. induction p as [|b p IH]; [done|]. apply not_elem_of_cons in Hp as [Hb Hp].
    cbn [split_char]. rewrite (proj2 (Z.eqb_neq b c)) by done. by rewrite IH.
  - cbn [join] in *. rewrite split_char_line by done. by rewrite IH.
Qed.

(** A snapshot as PostgreSQL has it. *)
Definition snapshot_wf (s : Z * Z * list Z) : Prop :=
  let '(xmin, xmax, xip) := s in
  0 < xmin ≤ xmax ∧ xmax ≤ USIZE_MAX ∧ Forall (λ x, xmin ≤ x < xmax) xip ∧ StronglySorted Z.lt xip.

Lemma read_xips_text xmin xmax acc l :
  0 ≤ xmin → xmax ≤ USIZE_MAX → Forall (λ x, xmin ≤ x < xmax) l → StronglySorted Z.lt l →
  (∀ y x, head acc = Some y → x ∈ l → y < x) →
  read_xips xmin xmax acc (dec_bytes <$> l) = Some (reverse acc ++ l).
Proof.
  intros Hm HM Hl. revert acc. induction Hl as [|x l Hx Hl IH]; intros acc Hs Hacc; cbn [fmap list_fmap read_xips].
  - by rewrite app_nil_r.
  - inversion Hs as [|? ? Hs' Hlt]; subst. rewrite num_dec by lia. cbn [mbind option_bind].
    rewrite (proj2 (Z.ltb_ge x xmin)), (proj2 (Z.leb_gt xmax x)) by lia. cbn [orb].
    assert (Hh : match head acc with Some y => x <? y | None => false end = false).
    { destruct (head acc) as [y|] eqn:E; [|done]. apply Z.ltb_ge. specialize (Hacc y x eq_refl ltac:(left)). lia. }
    rewrite Hh, bool_decide_false. 2: { intros E. specialize (Hacc x x E ltac:(left)). lia. }
    rewrite IH by (try done; cbn; intros y z [= <-] Hz; rewrite Forall_forall in Hlt; by apply Hlt).
    rewrite reverse_cons, <- app_assoc. done.
Qed.

Lemma omap_parse_dec l xmax :
  xmax ≤ USIZE_MAX → Forall (λ x, 0 ≤ x < xmax) l → omap parse_usize (dec_bytes <$> l) = l.
Proof.
  intros HM H. induction H as [|x l Hx _ IH]; [done|]. cbn [fmap list_fmap omap list_omap].
  rewrite parse_dec by lia. by f_equal.
Qed.

Lemma join_nonempty c p ps : p ≠ [] → join c (p :: ps) ≠ [].
Proof. intros Hp. destruct ps; cbn [join]; [done|]. by destruct p. Qed.

(** The text of a snapshot reads back as it. *)
Lemma parts_text s : snapshot_wf s → parts (snapshot_text s) = Some s.
Proof.
  destruct s as [[xmin xmax] xip]. intros (Hm & HM & Hx & Hs).
  assert (Hne : ∀ x l, xip = x :: l → join COMMA (dec_bytes <$> xip) ≠ []).
  { intros x l ->. inversion Hx; subst. apply join_nonempty, dec_bytes_nonempty. lia. }
  assert (Hsp : xip ≠ [] → split_char COMMA (join COMMA (dec_bytes <$> xip)) = dec_bytes <$> xip).
  { intros Hn. apply split_char_join; [by destruct xip|]. apply Forall_fmap. eapply Forall_impl; [done|]. cbn. intros x ?.
    apply dec_bytes_free; unfold COMMA; lia. }
  assert (Hp : parse_snapshot (snapshot_text (xmin, xmax, xip)) = Some (snapshot_text (xmin, xmax, xip))).
  { unfold parse_snapshot. rewrite splitn3_text by lia. rewrite !num_dec by lia. cbn [mbind option_bind].
    rewrite (proj2 (Z.eqb_neq xmin 0)), (proj2 (Z.eqb_neq xmax 0)), (proj2 (Z.ltb_ge xmax xmin)) by lia. cbn [orb].
    destruct xip as [|x l]; [done|]. rewrite bool_decide_false by eauto. rewrite Hsp by done.
    by rewrite read_xips_text by (done || lia). }
  unfold parts. rewrite Hp. cbn [mbind option_bind]. rewrite splitn3_text by lia. cbn [mbind option_bind default].
  rewrite !parse_dec by lia. cbn [from_option id]. do 2 f_equal.
  destruct (decide (xip = [])) as [->|Hn]; [done|]. rewrite Hsp by done. rewrite list_filter_id.
  - apply (omap_parse_dec _ xmax); [done|]. eapply Forall_impl; [done|]. cbn. lia.
  - intros b (z & -> & Hz)%list_elem_of_fmap. rewrite Forall_forall in Hx. specialize (Hx z Hz).
    apply dec_bytes_nonempty. lia.
Qed.

Lemma sorted_nodup_lt (l : list Z) : StronglySorted Z.le l → NoDup l → StronglySorted Z.lt l.
Proof.
  induction 1 as [|x l Hs IH Hx]; [constructor|]. intros [Hnin Hnd]%NoDup_cons. constructor; [auto|].
  rewrite Forall_forall in *. intros y Hy. specialize (Hx y Hy). assert (x ≠ y) by congruence. lia.
Qed.

Lemma NoDup_others c pid (P : Z * Z → Prop) `{∀ px, Decision (P px)} : wf c → NoDup (filter P (others (running c) pid)).*2.
Proof.
  intros Hwf. apply NoDup_fmap_2_strong.
  - intros [p x] [q y] [_ [_ Hp%elem_of_map_to_list]%list_elem_of_filter]%list_elem_of_filter
      [_ [_ Hq%elem_of_map_to_list]%list_elem_of_filter]%list_elem_of_filter. cbn. intros <-.
    f_equal. by eapply wf_inj.
  - apply NoDup_filter, NoDup_filter, NoDup_map_to_list.
Qed.

Lemma taken_wf c pid : wf c → next c ≤ USIZE_MAX → snapshot_wf (taken c pid).
Proof.
  intros Hwf Hn. assert (He := elem_of_xip c pid). unfold taken, snapshot_wf in *. cbn [snd] in He.
  set (l := merge_sort _ _) in *. pose proof (wf_latest c Hwf) as Hlat. unfold FROZEN_XID in Hlat.
  assert (Hs : StronglySorted Z.lt l).
  { apply sorted_nodup_lt; [apply StronglySorted_merge_sort; intros ?; lia|]. unfold l.
    rewrite merge_sort_Permutation. by apply NoDup_others. }
  assert (Hb : ∀ x, x ∈ l → 0 < x < latest_completed c + 1).
  { intros x (? & p & _ & Hx%(wf_running c Hwf))%He. unfold FROZEN_XID in Hx. lia. }
  clearbody l. destruct l as [|x l]; cbn.
  - split_and!; try lia; constructor.
  - assert (0 < x < latest_completed c + 1) by (apply Hb; left). inversion Hs as [|? ? _ Hlt]; subst.
    split_and!; try lia; [|done]. constructor; [lia|]. rewrite Forall_forall in *. intros y Hy. specialize (Hlt y Hy).
    specialize (Hb y ltac:(by right)). lia.
Qed.

Lemma visible_spec x xmin xmax xip :
  snapshot_wf (xmin, xmax, xip) → visible x (xmin, xmax, xip) = true ↔ x < xmax ∧ x ∉ xip.
Proof.
  intros (Hm & _ & Hx & _). rewrite Forall_forall in Hx. unfold visible.
  destruct (Z.ltb_spec x xmin); [split; [|done]|].
  - intros _. split; [lia|]. intros Hin%Hx. lia.
  - destruct (Z.leb_spec xmax x); [split; [done|lia]|]. rewrite negb_true_iff, bool_decide_eq_false. naive_solver.
Qed.

(** C18. End to end: in every state the sessions of a store can reach, the text the
    server answers for [pg_current_snapshot] is accepted by the reader of snapshots,
    and [pg_visible_in_snapshot] answers over it, for every id handed out by the
    run, whether the id is complete: no other session runs it, and if the session
    itself runs it, an id past it has completed. *)
Theorem current_snapshot_exact (l : list Act) (c : Cluster) (io : Io) (pid x : Z) :
  entry (run fresh_store l) = Some c → next c ≤ USIZE_MAX → x < next c →
  ∃ text b, answer io (Some c) (store (run fresh_store l)) pid Snapshot = (Some c, store (run fresh_store l), Some text) ∧
    pg_visible_in_snapshot x text = Some b ∧
    (b = true ↔ (∀ p, p ≠ pid → running c !! p ≠ Some x) ∧ (running c !! pid = Some x → x ≤ latest_completed c)).
Proof.
  intros E Hn Hx. destruct (xid_run_inv fresh_store l fresh_inv c E) as [Hwf _].
  assert (Hs := taken_wf c pid Hwf Hn). exists (snapshot_text (taken c pid)), (visible x (taken c pid)). split; [done|].
  unfold pg_visible_in_snapshot. rewrite parts_text by done. split; [done|].
  assert (He := elem_of_xip c pid x). destruct (taken c pid) as [[xmin xmax] xip] eqn:T.
  assert (xmax = latest_completed c + 1) as -> by (unfold taken in T; congruence). cbn [snd] in He.
  rewrite visible_spec, He by done. split.
  - intros [Hlt Hnot]. split; [|lia]. intros p Hp Hr. apply Hnot. split; [lia|eauto].
  - intros [Hoth Hown]. destruct (Z.le_gt_cases x (latest_completed c)) as [Hle|Hgt].
    + split; [lia|]. intros (_ & p & Hp & Hr). by apply (Hoth p).
    + exfalso. destruct (wf_held c Hwf x) as (p & Hp); [lia|]. destruct (decide (p = pid)) as [->|]; [|by apply (Hoth p)].
      specialize (Hown Hp). lia.
Qed.

(** Session 2 runs 723 and 724 is complete: session 1's snapshot is [723:725:723]. *)
Definition snap_run : list Act :=
  let io := mkIo true true in [Restart true true; Ask io 2 Assign; Ask io 3 Assign; End 3].
Definition snap_cluster : Cluster :=
  match entry (run fresh_store snap_run) with Some c => c | None => mkCluster 0 0 0 ∅ ∅ ∅ end.
Lemma current_snapshot_exact_witness :
  (answer (mkIo true true) (Some snap_cluster) (store (run fresh_store snap_run)) 1 Snapshot).2 = Some (lit "723:725:723") ∧
  ∃ text b, answer (mkIo true true) (Some snap_cluster) (store (run fresh_store snap_run)) 1 Snapshot =
              (Some snap_cluster, store (run fresh_store snap_run), Some text) ∧
    pg_visible_in_snapshot 724 text = Some b ∧
    (b = true ↔ (∀ p, p ≠ 1 → running snap_cluster !! p ≠ Some 724) ∧
                (running snap_cluster !! 1 = Some 724 → 724 ≤ latest_completed snap_cluster)).
Proof.
  split; [vm_compute; reflexivity|].
  apply (current_snapshot_exact snap_run snap_cluster (mkIo true true) 1 724); vm_compute; [reflexivity|discriminate|reflexivity].
Defined.
