(* ===== verification/Decimal.v ===== *)
(** * Decimals and doubles as arguments: secantus-core/src/decimal.rs

    The part of decimal.rs the query operators use: a Decimal128's text read into
    sign, digits and exponent, whether it is whole, and its integer.  With it, the
    conversions of Rust between text, integers and [f64], which round to the
    nearest double, ties to even. *)
From S2P Require Import Prelude RustM Bson Numeric.
Local Open Scope Z_scope.
Local Open Scope secantus_scope.

Inductive Dec := DNan | DInf (sign : Z) | Fin (sign : Z) (coeff : list Z) (exp : Z).

Definition is_zero (d : Dec) : bool :=
  match d with Fin _ coeff _ => forallb (λ x, x =? 0) coeff | _ => false end.

(** [s.parse::<i32>()] *)
Definition parse_i32 (s : bytes) : option Z := n ← parse_i64 s; if fits_i32 n then Some n else None.

Fixpoint drop_zeros (coeff : list Z) : list Z :=
  match coeff with
  | d :: (_ :: _) as rest => if d =? 0 then drop_zeros rest else coeff
  | _ => coeff
  end.

Definition parse (s : bytes) : option Dec :=
  let t := trim s in
  let low := to_lowercase t in
  if contains low [110; 97; 110] then Some DNan
  else if contains low [105; 110; 102] then Some (DInf (if starts_with t [45] then -1 else 1))
  else
    let '(sign, rest) := unsign t in
    '(mantissa, exp_extra) ← match split_once is_exp_char rest with
      | Some (m, e) => x ← parse_i32 e; Some (m, x)
      | None => Some (rest, 0)
      end;
    let '(int_part, frac_part) := match split_once is_dot mantissa with
      | Some (i, f) => (i, f)
      | None => (mantissa, [])
      end in
    if ⌊int_part = []⌋ && ⌊frac_part = []⌋ then None
    else
      coeff ← mapM to_digit (int_part ++ frac_part);
      let exp := exp_extra - blen frac_part in
      if fits_i32 exp then Some (Fin sign (drop_zeros coeff) exp) else None.

Definition is_integral (d : Dec) : bool :=
  match d with
  | Fin _ coeff exp =>
      (0 <=? exp) || forallb (λ x, x =? 0) (drop (length coeff - Z.to_nat (- exp)) coeff)
  | _ => false
  end.

(** [acc.checked_mul(10)?.checked_add(digit)?] over the digits. *)
Fixpoint checked_digits (acc : Z) (digits : list Z) : option Z :=
  match digits with
  | [] => Some acc
  | d :: digits =>
      if fits_i64 (acc * 10) && fits_i64 (acc * 10 + d) then checked_digits (acc * 10 + d) digits else None
  end.

Definition trunc_to_i64 (d : Dec) : option Z :=
  match d with
  | Fin sign coeff exp =>
      if 19 <? exp then None
      else if exp <? 0 then
        let cut := Z.to_nat (- exp) in
        if ⌊(length coeff ≤ cut)%nat⌋ then Some 0
        else acc ← checked_digits 0 (take (length coeff - cut) coeff); Some (acc * sign)
      else acc ← checked_digits 0 (coeff ++ replicate (Z.to_nat exp) 0); Some (acc * sign)
  | _ => None
  end.

Section exact.
Context (dec_to_string : bytes → bytes).

(** [from_bson] of a Decimal128. *)
Definition from_decimal128 (b : Bson) : option Dec :=
  match b with Decimal128 d => parse (dec_to_string d) | _ => None end.

(** [decimal_to_i64_exact] of a Decimal128. *)
Definition decimal_to_i64_exact (b : Bson) : option Z :=
  d ← from_decimal128 b;
  if is_zero d then Some 0
  else if negb (is_integral d) then None
  else trunc_to_i64 d.
End exact.

(** ** To [f64] *)

Definition F64_NAN : Z := 0x7FF8000000000000.
Definition F64_INF : Z := 0x7FF0000000000000.
Definition sign_bit (neg : bool) : Z := if neg then 2 ^ 63 else 0.

(** The bits of [units] times 2^-1074, when a double has that value. *)
Definition f64_of_units (units : Z) : Z :=
  if units <? 2 ^ 52 then units
  else
    let k := Z.log2 units in
    if 2047 <=? k - 51 then F64_INF else (k - 51) * 2 ^ 52 + (Z.shiftr units (k - 52) - 2 ^ 52).

(** The double nearest to [p / q], for [0 <= p], [0 < q]. *)
Definition round_f64 (neg : bool) (p q : Z) : Z :=
  let p := p * 2 ^ 1074 in
  let u := p / q in
  let shift := Z.max 0 (Z.log2 u - 52) in
  let d := q * 2 ^ shift in
  let m := p / d in
  let r := p mod d in
  let m := if (d <? 2 * r) || ((2 * r =? d) && Z.odd m) then m + 1 else m in
  sign_bit neg + f64_of_units (m * 2 ^ shift).

(** [n as f64] *)
Definition f64_of_int (n : Z) : Z := round_f64 (n <? 0) (Z.abs n) 1.

(** [text.parse::<f64>()] of a Decimal128's text. *)
Definition parse_f64 (s : bytes) : option Z :=
  d ← parse s;
  Some match d with
       | DNan => F64_NAN
       | DInf sign => sign_bit (sign <? 0) + F64_INF
       | Fin sign coeff exp =>
           let n := digits_val coeff in
           if 0 <=? exp then round_f64 (sign <? 0) (n * 10 ^ exp) 1 else round_f64 (sign <? 0) n (10 ^ (- exp))
       end.

Definition f64_eq (x y : Z) : bool := ⌊f64_partial_cmp x y = Some Eq⌋.
Definition f64_is_finite (d : Z) : bool := negb (f64_is_nan d) && negb (f64_is_infinite d).

(** [d.fract() == 0.0] of a finite double, [d >= i64::MIN as f64 && d < i64::MAX as f64]. *)
Definition f64_is_whole (d : Z) : bool := f64_minus_int d (f64_trunc d) =? 0.
Definition f64_in_i64 (d : Z) : bool :=
  (- (2 ^ 63 * 2 ^ 1074) <=? f64_order d) && (f64_order d <? 2 ^ 63 * 2 ^ 1074).

(** [d as i64]: truncated and saturated, NaN is 0. *)
Definition f64_as_i64 (d : Z) : Z :=
  if f64_is_nan d then 0
  else if f64_is_infinite d then (if f64_negative d then - 2 ^ 63 else 2 ^ 63 - 1)
  else Z.max (- 2 ^ 63) (Z.min (2 ^ 63 - 1) (f64_trunc d)).

(** Some values: 1.0, 0.1, the largest finite double, and 2^53 + 1 to even. *)
Example f64_rounding :
  map f64_of_int [1; -2; 2 ^ 53 + 1] = [0x3FF0000000000000; 0xC000000000000000; 0x4340000000000000] ∧
  parse_f64 [48; 46; 49] = Some 0x3FB999999999999A ∧
  parse_f64 [49; 69; 43; 52; 48; 48] = Some F64_INF ∧ parse_f64 [53; 69; 45; 51; 50; 52] = Some 1.
Proof. by vm_compute. Qed.
