(* ===== verification/Query.v ===== *)
(** * Query matching: secantus-core/src/query.rs

    The matcher of a filter over a document: the document-level operators, the
    walk of a dotted path, and every field-level operator.

    What the matcher calls and this file does not hold is in [Engines]: the regex
    crates, the geometry of geo.rs and geoshape.rs, the evaluator behind [$expr]
    and [$jsonSchema], and the printers of values in messages.  A collation is the
    three verdicts the code asks of it.  [Thread] is what the code keeps in
    thread-locals: the active collation, and whether the scan hashed the [$in] lists
    of its filter; the code finds a hashed list by its address in that filter, the
    model by being a list of that filter. *)
From stdpp Require Import strings.
From S2P Require Import Prelude RustM Bson Lex Docs Paths Numeric Order SortKey Decimal.
Local Open Scope Z_scope.
Local Open Scope secantus_scope.

Inductive Fallback := Defer | Mongo (code : Z) (message : bytes).
Abbreviation R := (outcome Fallback).

Definition mongo {A} (code : Z) (message : bytes) : R A := Err (Mongo code message).

(** [for x in l { if !f(x)? { return Ok(false) } } Ok(true)], and its dual. *)
Fixpoint all_ok {A} (f : A → R bool) (l : list A) : R bool :=
  match l with [] => Ok true | x :: l => b ← f x; if b : bool then all_ok f l else Ok false end.
Fixpoint any_ok {A} (f : A → R bool) (l : list A) : R bool :=
  match l with [] => Ok false | x :: l => b ← f x; if b : bool then Ok true else any_ok f l end.

(** [l[i]] *)
Definition element {A} (l : list A) (i : nat) : R A := match l !! i with Some x => Ok x | None => Panic end.

Definition negate (r : R bool) : R bool := b ← r; Ok (negb b).

Definition dollar (s : bytes) : bool := ⌊head s = Some 36⌋.
Definition is_one_of (key : bytes) (names : list string) : bool := ⌊key ∈ lit <$> names⌋.

(** ** Candidates *)

(** A value a path reached, or that it reached nothing; [expandable] is whether
    the one implicit step into an array applies to it. *)
Record Cand := mkCand { value : option Bson; expandable : bool }.
Definition plain (v : option Bson) : Cand := mkCand v true.
Definition positional (v : option Bson) : Cand := mkCand v false.

Definition elements (c : Cand) (descend : bool) : option (list Bson) :=
  match descend && expandable c, value c with
  | true, Some (Array a) => Some a
  | _, _ => None
  end.

Definition is_array_index (part : bytes) : bool :=
  is_digits part && (⌊part = [48]⌋ || negb ⌊head part = Some 48⌋).

(** One step of the walk. *)
Definition resolve_step (part : bytes) (last : bool) (c : Cand) : list Cand :=
  match value c with
  | Some (Document d) => [plain (doc_get d part)]
  | Some (Array arr) =>
      if ⌊part = []⌋ && last then [plain (Some (Array arr))]
      else (if is_array_index part then [positional (i ← parse_usize part; item arr i)] else [])
           ++ omap (λ e, match e with Document ed => Some (plain (doc_get ed part)) | _ => None end) arr
  | _ => [plain None]
  end.

Fixpoint resolve_steps (current : list Cand) (parts : list bytes) : list Cand :=
  match parts with
  | [] => current
  | part :: parts => resolve_steps (concat (resolve_step part ⌊parts = []⌋ <$> current)) parts
  end.

Definition resolve_path (doc : Doc) (path : bytes) : list Cand :=
  match split_dot path with
  | [] => []
  | first :: parts => resolve_steps [plain (doc_get doc first)] parts
  end.

(** ** Names *)

Definition is_operator_dict (d : Doc) : bool :=
  match d with
  | (k, _) :: _ => dollar k && negb (is_one_of k ["$ref"; "$id"; "$db"])
  | [] => false
  end.

Definition KNOWN_TOP_LEVEL_OPERATORS : list string :=
  ["$and"; "$or"; "$nor"; "$expr"; "$jsonSchema"; "$where"; "$comment"; "$text"; "$alwaysTrue"; "$alwaysFalse";
   "$sampleRate"].

Definition KNOWN_FIELD_OPERATORS : list string :=
  ["$eq"; "$ne"; "$gt"; "$gte"; "$lt"; "$lte"; "$in"; "$nin"; "$exists"; "$not"; "$type"; "$size"; "$all"; "$mod";
   "$elemMatch"; "$regex"; "$options"; "$bitsAllSet"; "$bitsAnySet"; "$bitsAllClear"; "$bitsAnyClear"; "$geoWithin";
   "$within"; "$geoIntersects"; "$near"; "$nearSphere"; "$maxDistance"; "$minDistance"; "$comment"].

Definition unknown_top_level_operator (key : bytes) : Fallback :=
  Mongo 2 (lit "unknown top level operator: " ++ key
           ++ lit ". If you have a field name that starts with a '$' symbol, consider using $getField or $setField.").

Definition unknown_operator (op : bytes) : Fallback := Mongo 2 (lit "unknown operator: " ++ op).
Definition undefined_operand : Fallback := Mongo 2 (lit "cannot compare to undefined").

Definition where_refusal (cond : Bson) : Fallback :=
  match cond with
  | String _ | JavaScriptCode _ | JavaScriptCodeWithScope _ _ =>
      Mongo 6108304 (lit "no globalScriptEngine in $where parsing")
  | _ => Mongo 2 (lit "$where got bad type")
  end.

Definition doc_op_array (key : bytes) (cond : Bson) : R (list Bson) :=
  match cond with
  | Array [] => mongo 2 (key ++ lit " argument must be a non-empty array")
  | Array arr => Ok arr
  | _ => mongo 2 (key ++ lit " argument must be an array")
  end.

Definition as_doc_entry (key : bytes) (b : Bson) : R Doc :=
  match b with Document d => Ok d | _ => mongo 2 (key ++ lit " argument's entries must be objects") end.

(** ** Operands *)

Definition is_exotic (b : Bson) : bool :=
  match b with
  | JavaScriptCode _ | JavaScriptCodeWithScope _ _ | Symbol _ | DbPointer _ _ | Undefined => true
  | _ => false
  end.

(** [is_nan_bound] is the same test as [is_nan_bson]. *)
Definition is_nan_bound (dec : bytes → bytes) (v : Bson) : bool := is_nan_bson dec v.

Definition regex_flags_ok (flags : list Z) : R () :=
  match head (filter (λ c, c ∉ [105; 109; 115; 120; 117]) flags) with
  | Some bad => mongo 51108 (lit " invalid flag in regex options: " ++ utf8_char bad)
  | None => Ok ()
  end.

(** The characters of a string. *)
Fixpoint chars_fuel (fuel : nat) (s : bytes) : list Z :=
  match fuel, s with
  | O, _ | _, [] => []
  | S fuel, b0 :: s1 =>
      let cont n k := foldl (λ c b, c * 64 + (b - 128)) n (take k s1) :: chars_fuel fuel (drop k s1) in
      if b0 <? 128 then b0 :: chars_fuel fuel s1
      else if b0 <? 224 then cont (b0 - 192) 1%nat
      else if b0 <? 240 then cont (b0 - 224) 2%nat
      else cont (b0 - 240) 3%nat
  end.
Definition chars (s : bytes) : list Z := chars_fuel (length s) s.

Definition regex_options_ok (arg : Bson) : R () :=
  match arg with String s => regex_flags_ok (chars s) | _ => mongo 2 (lit "$options has to be a string") end.

Definition in_elements_ok (arr : list Bson) : R () :=
  if existsb (λ e, match e with Document d => is_operator_dict d | _ => false end) arr
  then mongo 2 (lit "cannot nest $ under $in") else Ok ().

Definition plain_scalar (v : Bson) : bool :=
  match v with
  | Int32 _ | Int64 _ | Double _ | String _ | ObjectId _ | DateTime _ | Boolean _ | Decimal128 _ => true
  | _ => false
  end.
Definition IN_SET_MIN : nat := 16.

(** ** What the matcher calls *)

Record Collation := mkCollation {
  collate : bytes → bytes → comparison;
  coll_equal : bytes → bytes → option bool;
  coll_compare : bytes → bytes → option comparison;
}.

Class Engines := {
  compile : Bson → option Bson → option (bytes → bool);
  pcre_compile_error : bytes → option bytes;
  pcre2_utf8_error : bytes → option bytes;
  geo_near : Doc → R (option (Bson → bool));
  geo_within : list Cand → Bson → bytes → R bool;
  geo_intersects : list Cand → Bson → R bool;
  evaluate_truthy : option Collation → Doc → Bson → Doc → R bool;
  json_schema : Bson → Doc → R bool;
  random : Z;
  scope_eq : Doc → Doc → bool;
  value_repr : Bson → bytes;
  double_repr : Z → bytes;
  g_repr : Z → bytes;
}.

Record Thread := mkThread { active : option Collation; in_sets : bool }.

Section matcher.
Context (dec : bytes → bytes) (bo : BinDataOrder) `{Engines}.

Definition order_cmp (th : Thread) : Bson → Bson → comparison := Order.cmp dec bo (collate <$> active th).
Definition order_lt (th : Thread) : Bson → Bson → option bool := Order.bson_lt dec bo (collate <$> active th).

(** [o.ok_or(Fallback::Defer)] *)
Definition or_defer {A} (o : option A) : R A := ok_or Defer o.

(** ** Equality *)

Section lists.
Context (eq : Bson → Bson → R bool).

Fixpoint array_eq_with (a b : list Bson) {struct b} : R bool :=
  match a, b with
  | x :: a, y :: b => r ← eq x y; if r : bool then array_eq_with a b else Ok false
  | _, _ => Ok true
  end.

Fixpoint doc_eq_with (a b : Doc) {struct b} : R bool :=
  match a, b with
  | (ka, va) :: a, (kb, vb) :: b =>
      if ⌊ka ≠ kb⌋ then Ok false else r ← eq va vb; if r : bool then doc_eq_with a b else Ok false
  | _, _ => Ok true
  end.
End lists.

Definition text_eq (coll : option Collation) (x y : bytes) : R bool :=
  match coll with Some c => or_defer (coll_equal c x y) | None => Ok ⌊x = y⌋ end.

Definition text_cmp (coll : option Collation) (x y : bytes) : R (option comparison) :=
  match coll with Some c => o ← or_defer (coll_compare c x y); Ok (Some o) | None => Ok (Some (bcmp x y)) end.

(** [regexutil::regex_eq] *)
Definition regex_eq (p1 : bytes) (o1 : list Z) (p2 : bytes) (o2 : list Z) : bool :=
  ⌊p1 = p2⌋ && ⌊sort_dedup o1 = sort_dedup o2⌋.

(** [eq_scalar] once neither side is an array, a document, code or a symbol to be
    told apart first. *)
Definition eq_other (coll : option Collation) (v expected : Bson) : R bool :=
  match v, expected with
  | String a, String b => text_eq coll a b
  | Null, Null | MinKey, MinKey | MaxKey, MaxKey => Ok true
  | ObjectId a, ObjectId b => Ok ⌊a = b⌋
  | DateTime a, DateTime b => Ok (a =? b)
  | Timestamp t1 i1, Timestamp t2 i2 => Ok ((t1 =? t2) && (i1 =? i2))
  | Binary s1 b1, Binary s2 b2 => Ok ((s1 =? s2) && ⌊b1 = b2⌋)
  | _, _ => Ok false
  end.

Definition eq_number (coll : option Collation) (v expected : Bson) : R bool :=
  if is_nan_bson dec v && is_nan_bson dec expected then Ok true
  else match fast_eq v expected, classify dec v, classify dec expected with
  | Some r, _, _ => Ok r
  | None, Some na, Some nb => Ok (Numeric.eq na nb)
  | None, _, _ => eq_other coll v expected
  end.

Definition eq_plain (coll : option Collation) (v expected : Bson) : R bool :=
  match v, expected with
  | Boolean a, Boolean b => Ok (Bool.eqb a b)
  | Boolean _, _ | _, Boolean _ => Ok false
  | _, _ => eq_number coll v expected
  end.

Fixpoint eq_scalar (coll : option Collation) (v expected : Bson) {struct expected} : R bool :=
  match expected with
  | Array exp =>
      match v with
      | Array val => if ⌊length val ≠ length exp⌋ then Ok false else array_eq_with (eq_scalar coll) val exp
      | _ => Ok false
      end
  | Document exp =>
      match v with
      | Document val => if ⌊length val ≠ length exp⌋ then Ok false else doc_eq_with (eq_scalar coll) val exp
      | _ => Ok false
      end
  | _ =>
      match v, expected with
      | Symbol a, Symbol b | JavaScriptCode a, JavaScriptCode b => Ok ⌊a = b⌋
      | JavaScriptCodeWithScope c1 s1, JavaScriptCodeWithScope c2 s2 => Ok (⌊c1 = c2⌋ && scope_eq s1 s2)
      | Symbol x, String y | String x, Symbol y => text_eq coll x y
      | _, JavaScriptCode _ | _, JavaScriptCodeWithScope _ _ | _, Symbol _ => Ok false
      | RegularExpression p1 o1, RegularExpression p2 o2 => Ok (regex_eq p1 o1 p2 o2)
      | _, RegularExpression _ _ => Ok false
      | _, _ => if is_exotic expected then Err Defer else eq_plain coll v expected
      end
  end.

Definition is_null (v : Bson) : bool := match v with Null => true | _ => false end.

Definition eq_with_array (values : list Cand) (expected : Bson) (coll : option Collation) (descend : bool) : R bool :=
  any_ok (λ c,
    match value c with
    | None => Ok (is_null expected)
    | Some val =>
        b ← eq_scalar coll val expected;
        if b : bool then Ok true
        else any_ok (λ e, eq_scalar coll e expected) (default [] (elements c descend))
    end) values.

(** ** Comparison *)

(** [Less] when [bson_lt(a, b)], [Greater] when [bson_lt(b, a)]. *)
Definition order_of (th : Thread) (a b : Bson) : R comparison :=
  lt ← or_defer (order_lt th a b);
  if lt : bool then Ok Lt
  else gt ← or_defer (order_lt th b a); Ok (if gt : bool then Gt else Eq).

Fixpoint array_order (th : Thread) (xs ys : list Bson) : R comparison :=
  match xs, ys with
  | x :: xs, y :: ys => o ← order_of th x y; match o with Eq => array_order th xs ys | _ => Ok o end
  | _, _ => Ok (Nat.compare (length xs) (length ys))
  end.

Definition string_text (v : Bson) : option bytes := match v with String s | Symbol s => Some s | _ => None end.

(** The exotic types: each kind of JavaScript with itself, a symbol as a string. *)
Definition compare_exotic (th : Thread) (coll : option Collation) (a b : Bson) : R (option comparison) :=
  match a, b with
  | JavaScriptCode x, JavaScriptCode y => Ok (Some (bcmp x y))
  | JavaScriptCodeWithScope _ _, JavaScriptCodeWithScope _ _ => Ok (Some (order_cmp th a b))
  | (JavaScriptCode _ | JavaScriptCodeWithScope _ _), _ | _, (JavaScriptCode _ | JavaScriptCodeWithScope _ _) => Ok None
  | _, _ =>
      match string_text a, string_text b with
      | Some x, Some y => text_cmp coll x y
      | _, _ => Ok None
      end
  end.

(** [compare_values], from its structural arms back to its first. *)
Definition compare_structural (th : Thread) (coll : option Collation) (a b : Bson) : R (option comparison) :=
  match a, b with
  | Document _, Document _ => o ← order_of th a b; Ok (Some o)
  | Document _, _ | _, Document _ => Ok None
  | Array xs, Array ys => o ← array_order th xs ys; Ok (Some o)
  | Array _, _ | _, Array _ => Ok None
  | _, _ =>
      if is_exotic a || is_exotic b then compare_exotic th coll a b
      else match a, b with
      | String x, String y => Ok (Some (bcmp x y))
      | DateTime x, DateTime y => Ok (Some (x ?= y))
      | Timestamp t1 i1, Timestamp t2 i2 => Ok (Some (thn (t1 ?= t2) (i1 ?= i2)))
      | ObjectId x, ObjectId y => Ok (Some (bcmp x y))
      | Binary s1 b1, Binary s2 b2 => Ok (Some (bindata_cmp bo s1 b1 s2 b2))
      | _, _ => Ok None
      end
  end.

Definition compare_text (th : Thread) (coll : option Collation) (a b : Bson) : R (option comparison) :=
  match carrier_pair a b with
  | Some (x, y) =>
      match coll with
      | Some c => o ← or_defer (coll_compare c (from_utf8_lossy x) (from_utf8_lossy y)); Ok (Some o)
      | None => Ok (Some (bcmp x y))
      end
  | None => compare_structural th coll a b
  end.

Definition compare_numbers (th : Thread) (coll : option Collation) (a b : Bson) : R (option comparison) :=
  match fast_cmp a b, classify dec a, classify dec b with
  | Some r, _, _ => Ok r
  | None, Some na, Some nb => Ok (Numeric.cmp na nb)
  | None, _, _ =>
      match coll, a, b with
      | Some c, String x, String y => o ← or_defer (coll_compare c x y); Ok (Some o)
      | _, _, _ => compare_text th coll a b
      end
  end.

Definition compare_values (th : Thread) (coll : option Collation) (a b : Bson) : R (option comparison) :=
  match a, b with
  | _, MinKey | _, MaxKey => o ← order_of th a b; Ok (Some o)
  | Boolean x, Boolean y => Ok (Some (bool_cmp x y))
  | Boolean _, _ | _, Boolean _ => Ok None
  | _, _ => compare_numbers th coll a b
  end.

Definition cmp_op (th : Thread) (values : list Cand) (target : Bson) (coll : option Collation)
    (pred : comparison → bool) (descend : bool) : R bool :=
  let holds v := o ← compare_values th coll v target; Ok (match o with Some o => pred o | None => false end) in
  any_ok (λ c,
    b ← holds (default Null (value c));
    if b : bool then Ok true else any_ok holds (default [] (elements c descend))) values.

(** ** [$exists], [$type] *)

Definition truthy (arg : Bson) : bool :=
  match arg with
  | Boolean b => b
  | Int32 n | Int64 n => negb (n =? 0)
  | Double d => negb (f64_eq d 0)
  | Null => false
  | Decimal128 d =>
      is_nan_bson dec arg || match parse_f64 (dec d) with Some f => negb (f64_eq f 0) | None => false end
  | _ => true
  end.

(** [d.fract() == 0.0], false of NaN and the infinities. *)
Definition fract_is_zero (d : Z) : bool := f64_is_finite d && f64_is_whole d.

Definition type_code (spec : Bson) : option Z :=
  match spec with
  | Int32 n | Int64 n => Some n
  | Double d => if fract_is_zero d then Some (f64_as_i64 d) else None
  | Decimal128 _ => decimal_to_i64_exact dec spec
  | _ => None
  end.

(** [bsondoc::raw_text_type_name] *)
Definition raw_text_type_name (t : Z) : string :=
  if t =? 11 then "regex" else if t =? 12 then "dbPointer" else if t =? 13 then "javascript"
  else if t =? 14 then "symbol" else "javascriptWithScope".

Definition type_is (spec : Bson) (name : string) (codes : list Z) (hit : bool) : bool :=
  hit && (match spec with String s => ⌊s = lit name⌋ | _ => false end
          || match type_code spec with Some c => ⌊c ∈ codes⌋ | None => false end).

Definition is_number (v : Bson) : bool :=
  match v with Int32 _ | Int64 _ | Double _ | Decimal128 _ => true | _ => false end.

Definition matches_type (v spec : Bson) : bool :=
  let has := type_is spec in
  has "double" [1] (match v with Double _ => true | _ => false end)
  || has "string" [2] (is_string v)
  || has "object" [3] (match v with Document _ => true | _ => false end && negb (is_string v) && ⌊as_raw_text v = None⌋)
  || match as_raw_text v with Some (t, _) => has (raw_text_type_name t) [t] true | None => false end
  || has "array" [4] (match v with Array _ => true | _ => false end)
  || has "binData" [5] (match v with Binary _ _ => true | _ => false end)
  || has "objectId" [7] (match v with ObjectId _ => true | _ => false end)
  || has "bool" [8] (match v with Boolean _ => true | _ => false end)
  || has "date" [9] (match v with DateTime _ => true | _ => false end)
  || has "null" [10] (is_null v)
  || has "regex" [11] (match v with RegularExpression _ _ => true | _ => false end)
  || has "int" [16] (match v with Int32 _ => true | _ => false end)
  || has "long" [18] (match v with Int64 _ => true | _ => false end)
  || has "decimal" [19] (match v with Decimal128 _ => true | _ => false end)
  || has "undefined" [6] (match v with Undefined => true | _ => false end)
  || has "dbPointer" [12] (match v with DbPointer _ _ => true | _ => false end)
  || has "javascript" [13] (match v with JavaScriptCode _ => true | _ => false end)
  || has "symbol" [14] (match v with Symbol _ => true | _ => false end)
  || has "javascriptWithScope" [15] (match v with JavaScriptCodeWithScope _ _ => true | _ => false end)
  || has "timestamp" [17] (match v with Timestamp _ _ => true | _ => false end)
  || has "minKey" [-1] (match v with MinKey => true | _ => false end)
  || has "maxKey" [127] (match v with MaxKey => true | _ => false end)
  || has "number" [] (is_number v).

Definition ALIASES : list string :=
  ["double"; "string"; "object"; "array"; "binData"; "undefined"; "objectId"; "bool"; "date"; "null"; "regex";
   "dbPointer"; "javascript"; "symbol"; "javascriptWithScope"; "int"; "timestamp"; "long"; "decimal"; "minKey";
   "maxKey"; "number"].

Definition invalid_type_code (rendered suffix : bytes) : R () :=
  mongo 2 (lit "Invalid numerical type code: " ++ rendered ++ suffix).

(** The text of a Decimal128 as a whole [i64], told by comparing as doubles. *)
Definition whole_decimal (text : bytes) : option Z :=
  d ← parse text; n ← trunc_to_i64 d; f ← parse_f64 text; if f64_eq f (f64_of_int n) then Some n else None.

Definition type_spec_valid (spec : Bson) : R () :=
  let check code rendered :=
    if (code =? -1) || (code =? 127) || in_range 1 19 code then Ok ()
    else invalid_type_code rendered (if code =? 0 then lit ". Instead use {$exists:false}." else []) in
  match spec with
  | String s => if is_one_of s ALIASES then Ok () else mongo 2 (lit "Unknown type name alias: " ++ s)
  | Double d =>
      if fract_is_zero d then check (f64_as_i64 d) (g_repr d) else invalid_type_code (g_repr d) []
  | Int32 n | Int64 n => check n (g_repr (f64_of_int n))
  | Decimal128 d =>
      let shown := g_repr (default F64_NAN (parse_f64 (dec d))) in
      match whole_decimal (dec d) with
      | Some n => check n shown
      | None => invalid_type_code shown []
      end
  | _ => mongo 14 (lit "type must be represented as a number or a string")
  end.

(** [for x in l { f(x)?; } Ok(())] *)
Fixpoint each_ok {A} (f : A → R ()) (l : list A) : R () :=
  match l with [] => Ok () | x :: l => _ ← f x; each_ok f l end.

(** A value reached, or an element of it. *)
Definition any_value (test : Bson → bool) (descend : bool) (values : list Cand) : bool :=
  existsb (λ c, match value c with Some v => test v | None => false end
                || existsb test (default [] (elements c descend))) values.

Definition op_type (values : list Cand) (spec : Bson) (field : bytes) (descend : bool) : R bool :=
  let specs := match spec with Array a => a | _ => [spec] end in
  match spec with
  | Array [] => mongo 9 (field ++ lit " must match at least one type")
  | _ =>
      _ ← each_ok type_spec_valid specs;
      Ok (any_value (λ v, existsb (matches_type v) specs) descend values)
  end.

(** ** [$regex] *)

Definition invalid_regex (pattern : Bson) : Fallback :=
  match match pattern with
        | String s | RegularExpression s _ => pcre_compile_error s
        | _ => None
        end with
  | Some msg => Mongo 51091 (lit "Regular expression is invalid: " ++ msg)
  | None => Defer
  end.

(** The regex a pattern and its options denote. *)
Definition want_regex (pattern : Bson) (options : option Bson) : option (bytes * list Z) :=
  match pattern, options with
  | RegularExpression p o, None => Some (p, o)
  | RegularExpression p o, Some (String o') => Some (p, o ++ chars o')
  | String p, None => Some (p, [])
  | String p, Some (String o) => Some (p, chars o)
  | _, _ => None
  end.

Definition regex_hit (is_match : bytes → bool) (want : option (bytes * list Z)) (e : Bson) : bool :=
  match e with
  | String s | Symbol s => is_match s
  | RegularExpression p o => match want with Some (wp, wo) => regex_eq p o wp wo | None => false end
  | _ => false
  end.

Definition op_regex (values : list Cand) (pattern : Bson) (options : option Bson) (descend : bool) : R bool :=
  match as_invalid_utf8 pattern with
  | Some b =>
      mongo 51091 (lit "Regular expression is invalid: " ++ default (lit "UTF-8 error") (pcre2_utf8_error b))
  | None =>
      match pattern with
      | String text | RegularExpression text _ =>
          if ⌊0 ∈ text⌋ then mongo 2 (lit "Regular expression cannot contain an embedded null byte")
          else match compile pattern options with
          | None => Err (invalid_regex pattern)
          | Some re => Ok (any_value (regex_hit re (want_regex pattern options)) descend values)
          end
      | _ => mongo 2 (lit "$regex has to be a string")
      end
  end.

(** ** [$in] *)

(** The keys of a list [InSets::prepare] hashes. *)
Definition hashed_keys (arr : list Bson) : option (list bytes) :=
  if ⌊(IN_SET_MIN ≤ length arr)%nat⌋ && forallb plain_scalar arr then
    match mapM (encode_value dec bo None) arr with Ok keys => Some keys | _ => None end
  else None.

Fixpoint set_hits (set : list bytes) (hit : bool) (values : list Cand) : option bool :=
  match values with
  | [] => Some hit
  | c :: values =>
      match value c with
      | None => set_hits set hit values
      | Some v =>
          if plain_scalar v then
            match encode_value dec bo None v with
            | Ok k => set_hits set (hit || ⌊k ∈ set⌋) values
            | _ => None
            end
          else None
      end
  end.

Definition in_set_lookup (th : Thread) (arr : list Bson) (values : list Cand) (coll : option Collation) : option bool :=
  match coll with
  | Some _ => None
  | None => if in_sets th then set ← hashed_keys arr; set_hits set false values else None
  end.

Definition in_candidate_matches (values : list Cand) (cand : Bson) (coll : option Collation) (descend : bool) : R bool :=
  match cand with
  | RegularExpression _ _ => op_regex values cand None descend
  | _ => eq_with_array values cand coll descend
  end.

(** [$in] by the list itself. *)
Definition in_by_element (values : list Cand) (arr : list Bson) (coll : option Collation) (descend : bool) : R bool :=
  _ ← in_elements_ok arr;
  any_ok (λ cand, in_candidate_matches values cand coll descend) arr.

Definition op_in (th : Thread) (values : list Cand) (arr : list Bson) (coll : option Collation) (descend : bool) : R bool :=
  match in_set_lookup th arr values coll with
  | Some hit => Ok hit
  | None => in_by_element values arr coll descend
  end.

(** ** Integer arguments: [$size], [$mod] and the bit tests *)

Definition coerce_int64_argument (value : Bson) (label : bytes) : option (R Z) :=
  let bad msg := Some (mongo 9 msg) in
  match value with
  | Int32 n | Int64 n => Some (Ok n)
  | Double d =>
      if f64_is_nan d then bad (lit "Expected an integer, but found NaN in: " ++ label ++ lit ": nan")
      else if negb (f64_is_finite d) || negb (f64_in_i64 d) then
        bad (lit "Cannot represent as a 64-bit integer: " ++ label ++ lit ": " ++ double_repr d)
      else if negb (fract_is_zero d) then bad (lit "Expected an integer: " ++ label ++ lit ": " ++ double_repr d)
      else Some (Ok (f64_as_i64 d))
  | Decimal128 d =>
      match whole_decimal (dec d) with
      | Some n => Some (Ok n)
      | None => bad (lit "Cannot represent as a 64-bit integer: " ++ label ++ lit ": " ++ dec d)
      end
  | _ => None
  end.

Definition shown (v : Bson) : bytes := match v with Double d => double_repr d | _ => value_repr v end.

Definition size_argument (size : Bson) : R Z :=
  let fail msg := mongo 2 (lit "Failed to parse $size. " ++ msg) in
  n ← match coerce_int64_argument size (lit "$size") with
      | None => fail (lit "Expected a number in: $size: " ++ value_repr size)
      | Some (Err (Mongo _ message)) => fail message
      | Some r => r
      end;
  if negb (fits_i32 n) then fail (lit "Cannot represent $size: " ++ shown size ++ lit " in an int")
  else if n <? 0 then fail (lit "Expected a non-negative number in: $size: " ++ value_repr size)
  else Ok n.

Definition op_size (values : list Cand) (size : Bson) : R bool :=
  n ← size_argument size;
  Ok (existsb (λ c, match value c with Some (Array arr) => Z.of_nat (length arr) =? n | _ => false end) values).

Definition mod_int (val : Bson) : option Z :=
  match val with
  | Int32 n | Int64 n => Some n
  | Double d => if f64_is_finite d && fits_i64 (f64_trunc d) then Some (f64_trunc d) else None
  | Decimal128 d => p ← parse (dec d); trunc_to_i64 p
  | _ => None
  end.

Definition mod_argument (v : Bson) (which : bytes) : R Z :=
  let invalid why := Mongo 2 (lit "malformed mod, " ++ which ++ lit " value is invalid :: caused by :: " ++ lit why) in
  let nan_inf := invalid "Unable to coerce NaN/Inf to integral type" in
  let bounds := invalid "Out of bounds coercing to integral value" in
  match v with
  | Int32 n | Int64 n => Ok n
  | Double d =>
      if negb (f64_is_finite d) then Err nan_inf
      else if fits_i64 (f64_trunc d) then Ok (f64_trunc d) else Err bounds
  | Decimal128 _ =>
      match from_decimal128 dec v with
      | Some (Fin _ _ _ as d) => ok_or bounds (trunc_to_i64 d)
      | _ => Err nan_inf
      end
  | _ => mongo 2 (lit "malformed mod, " ++ which ++ lit " not a number")
  end.

(** [iv.wrapping_rem(div)]: the dividend's sign, and a panic when [div] is zero. *)
Definition wrapping_rem (iv div : Z) : R Z := if div =? 0 then Panic else Ok (Z.rem iv div).

Definition mod_check (div rem : Z) (val : Bson) : R bool :=
  match mod_int val with Some iv => m ← wrapping_rem iv div; Ok (m =? rem) | None => Ok false end.

Definition op_mod (values : list Cand) (spec : Bson) (descend : bool) : R bool :=
  match spec with
  | Array arr =>
      if ⌊(length arr < 2)%nat⌋ then mongo 2 (lit "malformed mod, not enough elements")
      else
        d ← element arr 0;
        if negb (is_number d) then mongo 2 (lit "malformed mod, divisor not a number")
        else
          r ← element arr 1;
          if negb (is_number r) then mongo 2 (lit "malformed mod, remainder not a number")
          else if ⌊(2 < length arr)%nat⌋ then mongo 2 (lit "malformed mod, too many elements")
          else
            div ← mod_argument d (lit "divisor");
            rem ← mod_argument r (lit "remainder");
            if div =? 0 then mongo 2 (lit "divisor cannot be 0")
            else any_ok (λ c,
              match value c with
              | None => Ok false
              | Some val =>
                  b ← mod_check div rem val;
                  if b : bool then Ok true else any_ok (mod_check div rem) (default [] (elements c descend))
              end) values
  | _ => mongo 2 (lit "malformed mod, needs to be an array")
  end.

Inductive Bits := BitsNum (v : Z) | BitsBytes (b : bytes) | BitsPositions (p : list Z).

Definition bit (bits : Bits) (i : Z) : bool :=
  match bits with
  | BitsNum v => if i <? 127 then Z.testbit v i else v <? 0
  | BitsBytes b => match b !! Z.to_nat (i / 8) with Some byte => Z.testbit byte (i mod 8) | None => false end
  | BitsPositions p => ⌊i ∈ p⌋
  end.

Definition set_positions (bits : Bits) : list Z :=
  match bits with
  | BitsNum v => filter (λ i, Z.testbit v i) (seqZ 0 127)
  | BitsBytes b => filter (λ i, bit bits i) (seqZ 0 (blen b * 8))
  | BitsPositions p => p
  end.

Definition bit_source (value : Bson) : option Bits :=
  match value with
  | Int32 n | Int64 n => Some (BitsNum n)
  | Double d => if fract_is_zero d && f64_in_i64 d then Some (BitsNum (f64_trunc d)) else None
  | Decimal128 _ => BitsNum <$> decimal_to_i64_exact dec value
  | Binary _ data => Some (BitsBytes data)
  | _ => None
  end.

Definition bit_position (i : nat) (b : Bson) : R Z :=
  let fail msg := mongo 2 (lit "Failed to parse bit position. " ++ msg) in
  let label := dec_bytes (Z.of_nat i) in
  n ← match coerce_int64_argument b label with
      | None => fail (lit "Expected a number in: " ++ label ++ lit ": " ++ value_repr b)
      | Some (Err (Mongo _ message)) => fail message
      | Some (Err Defer) => fail []
      | Some r => r
      end;
  if n <? 0 then fail (lit "Expected a non-negative number in: " ++ label ++ lit ": " ++ shown b)
  else if 2 ^ 31 - 1 <? n then fail (lit "Cannot represent " ++ label ++ lit ": " ++ shown b ++ lit " in an int")
  else Ok n.

Fixpoint bit_positions (i : nat) (a : list Bson) : R (list Z) :=
  match a with
  | [] => Ok []
  | b :: a => n ← bit_position i b; out ← bit_positions (S i) a; Ok (n :: out)
  end.

Definition resolve_bitmask (arg : Bson) (op field : bytes) : R Bits :=
  match arg with
  | Binary _ data => Ok (BitsBytes data)
  | Array a => p ← bit_positions 0 a; Ok (BitsPositions p)
  | _ =>
      mask ← match coerce_int64_argument arg op with
             | None => mongo 2 (field ++ lit " takes an Array, a number, or a BinData but received: " ++ op ++ lit ": "
                                ++ value_repr arg)
             | Some r => r
             end;
      if mask <? 0 then mongo 9 (lit "Expected a non-negative number in: " ++ op ++ lit ": " ++ value_repr arg)
      else Ok (BitsNum mask)
  end.

Definition op_bits (values : list Cand) (arg : Bson) (want all : bool) (op field : bytes) (descend : bool) : R bool :=
  mask ← resolve_bitmask arg op field;
  let test v :=
    match bit_source v with
    | Some bits =>
        let holds i := Bool.eqb (bit bits i) want in
        if all then forallb holds (set_positions mask) else existsb holds (set_positions mask)
    | None => false
    end in
  Ok (any_value test descend values).

(** ** Conditions *)

Definition near_matches (near : Bson → bool) (values : list Cand) : bool :=
  existsb (λ c, match value c with Some v => near v | None => false end) values.

(** What is refused of [$elemMatch]'s object form before any element is tried. *)
Fixpoint elem_match_object_check (cond : Bson) : R () :=
  match cond with
  | Document d =>
      each_ok (λ e : bytes * Bson,
        if is_one_of e.1 ["$expr"; "$where"; "$text"] then
          mongo 2 (e.1 ++ lit " can only be applied to the top-level document")
        else if is_one_of e.1 ["$and"; "$or"; "$nor"] then
          match e.2 with
          | Array [] => mongo 2 (e.1 ++ lit " argument must be a non-empty array")
          | Array arr =>
              each_ok (λ entry, match entry with
                                | Document _ => elem_match_object_check entry
                                | _ => mongo 2 (e.1 ++ lit " argument's entries must be objects")
                                end) arr
          | _ => mongo 2 (e.1 ++ lit " argument must be an array")
          end
        else Ok ()) d
  | _ => Ok ()
  end.

Definition first_key (d : Doc) : bytes := match d with (k, _) :: _ => k | [] => [] end.

(** An array element as the document it is stored as. *)
Definition array_as_doc (ea : list Bson) : Doc := imap (λ i e, (dec_bytes (Z.of_nat i), e)) ea.

Definition is_elemmatch (e : Bson) : bool :=
  match e with Document ((k, _) :: _) => ⌊k = lit "$elemMatch"⌋ | _ => false end.

Definition has_undefined (arr : list Bson) : bool :=
  existsb (λ e, match e with Undefined => true | _ => false end) arr.

(** Evaluation is recursive through [$not], [$elemMatch], [$all] and the logical
    operators; [field_rec] and [matches_rec] are the recursive calls. *)
Section conditions.
Context (field_rec : Thread → list Cand → Bson → option Collation → bytes → bool → R bool).
Context (matches_rec : Thread → Doc → Doc → Doc → option Collation → R bool).

Definition scalar_form (condd : Doc) : bool :=
  is_operator_dict condd && negb (is_one_of (first_key condd) KNOWN_TOP_LEVEL_OPERATORS).

Definition elem_match_one (th : Thread) (condd : Doc) (field : bytes) (elem : Bson) : R bool :=
  let coll := active th in
  if scalar_form condd then field_rec th [plain (Some elem)] (Document condd) coll field false
  else match elem with
  | Document ed => matches_rec th ed condd [] coll
  | Array ea => matches_rec th (array_as_doc ea) condd [] coll
  | _ => Ok false
  end.

Definition op_elem_match (th : Thread) (values : list Cand) (cond : Bson) (field : bytes) : R bool :=
  match cond with
  | Document condd =>
      _ ← (if scalar_form condd then Ok () else elem_match_object_check cond);
      any_ok (λ c, match value c with
                   | Some (Array arr) => any_ok (elem_match_one th condd field) arr
                   | _ => Ok false
                   end) values
  | _ => Ok false
  end.

Definition all_consistent (required : list Bson) : R () :=
  each_ok (λ r, match r with
                | Document d =>
                    if negb (is_elemmatch r) then mongo 2 (lit "$all/$elemMatch has to be consistent")
                    else match doc_get d (lit "$elemMatch") with
                    | Some (Document _) => Ok ()
                    | _ => mongo 2 (lit "$elemMatch needs an Object")
                    end
                | _ => mongo 2 (lit "$all/$elemMatch has to be consistent")
                end) required.

Definition all_holds (th : Thread) (values : list Cand) (coll : option Collation) (field : bytes) (descend : bool)
    (r : Bson) : R bool :=
  match r with
  | Document d =>
      if is_elemmatch r then op_elem_match th values (default Null (doc_get d (lit "$elemMatch"))) field
      else eq_with_array values r coll descend
  | RegularExpression _ _ => op_regex values r None descend
  | _ => eq_with_array values r coll descend
  end.

Definition op_all (th : Thread) (values : list Cand) (required : Bson) (coll : option Collation) (field : bytes)
    (descend : bool) : R bool :=
  match required with
  | Array required =>
      if ⌊required = []⌋ then Ok false
      else
        first ← element required 0;
        _ ← (if is_elemmatch first then all_consistent required
             else if existsb (λ r, match r with Document d => is_operator_dict d | _ => false end) required
             then mongo 2 (lit "no $ expressions in $all")
             else if has_undefined required then Err undefined_operand
             else Ok ());
        all_ok (all_holds th values coll field descend) required
  | _ => mongo 2 (lit "$all needs an array")
  end.

Definition op_is (op : bytes) (name : string) : bool := ⌊op = lit name⌋.

(** The refusals made before any operator is evaluated. *)
Definition operand_ok (op : bytes) (arg : Bson) (field : bytes) : R () :=
  match arg with
  | RegularExpression _ _ =>
      if is_one_of op ["$gt"; "$gte"; "$lt"; "$lte"] then
        mongo 2 (lit "Can't have RegEx as arg to non-equality predicate over field '" ++ field ++ lit "'.")
      else if op_is op "$ne" then mongo 2 (lit "Can't have regex as arg to $ne.")
      else Ok ()
  | Undefined =>
      if is_one_of op ["$eq"; "$ne"; "$gt"; "$gte"; "$lt"; "$lte"] then Err undefined_operand else Ok ()
  | Array a =>
      if is_one_of op ["$in"; "$nin"] && has_undefined a then mongo 2 (lit "Cannot insert undefined into InListData")
      else Ok ()
  | _ => Ok ()
  end.

Definition not_argument_ok (arg : Bson) : R () :=
  match arg with
  | RegularExpression _ _ => Ok ()
  | Document [] => mongo 2 (lit "$not argument must be a non-empty object")
  | Document d =>
      each_ok (λ e : bytes * Bson,
        if is_one_of e.1 KNOWN_FIELD_OPERATORS then Ok () else Err (unknown_operator e.1)) d
  | _ => mongo 2 (lit "$not argument must be a regex or an object")
  end.

Definition is_gt (o : comparison) : bool := match o with Gt => true | _ => false end.

Definition op_matches (th : Thread) (values : list Cand) (op : bytes) (arg : Bson) (coll : option Collation)
    (field : bytes) (descend : bool) : R bool :=
  _ ← operand_ok op arg field;
  let equal := eq_with_array values arg coll descend in
  let compare pred := cmp_op th values arg coll pred descend in
  if op_is op "$eq" then equal
  else if op_is op "$ne" then negate equal
  else if op_is op "$gt" then compare is_gt
  else if op_is op "$gte" then
    if is_nan_bound dec arg || is_null arg then equal else compare (λ o, negb (is_lt o))
  else if op_is op "$lt" then compare is_lt
  else if op_is op "$lte" then
    if is_nan_bound dec arg || is_null arg then equal else compare (λ o, negb (is_gt o))
  else if op_is op "$in" then
    match arg with Array arr => op_in th values arr coll descend | _ => mongo 2 (lit "$in needs an array") end
  else if op_is op "$nin" then
    match arg with
    | Array arr => negate (op_in th values arr coll descend)
    | _ => mongo 2 (lit "$nin needs an array")
    end
  else if op_is op "$exists" then
    Ok (Bool.eqb (existsb (λ c, ⌊is_Some (value c)⌋) values) (truthy arg))
  else if op_is op "$not" then _ ← not_argument_ok arg; negate (field_rec th values arg coll field descend)
  else if op_is op "$type" then op_type values arg field descend
  else if op_is op "$size" then op_size values arg
  else if op_is op "$all" then op_all th values arg coll field descend
  else if op_is op "$elemMatch" then
    match arg with
    | Document _ => op_elem_match th values arg field
    | _ => mongo 2 (lit "$elemMatch needs an Object")
    end
  else if op_is op "$mod" then op_mod values arg descend
  else if op_is op "$bitsAllSet" then op_bits values arg true true op field descend
  else if op_is op "$bitsAnySet" then op_bits values arg true false op field descend
  else if op_is op "$bitsAllClear" then op_bits values arg false true op field descend
  else if op_is op "$bitsAnyClear" then op_bits values arg false false op field descend
  else if is_one_of op ["$geoWithin"; "$within"] then geo_within values arg op
  else if op_is op "$geoIntersects" then geo_intersects values arg
  else if is_one_of op ["$near"; "$nearSphere"; "$geoNear"] then
    near ← geo_near [(op, arg)];
    Ok (match near with Some near => near_matches near values | None => false end)
  else if negb (is_one_of op KNOWN_FIELD_OPERATORS) then Err (unknown_operator op)
  else if is_one_of op ["$comment"; "$maxDistance"; "$minDistance"; "$sampleRate"] then Err (unknown_operator op)
  else Err Defer.

(** The [$regex] / [$options] pair, checked up front. *)
Definition regex_pair_ok (d : Doc) : R () :=
  let pattern := doc_get d (lit "$regex") in
  _ ← match doc_get d (lit "$options") with
      | Some opts =>
          if negb ⌊is_Some pattern⌋ then mongo 2 (lit "$options needs a $regex")
          else
            _ ← regex_options_ok opts;
            match pattern with
            | Some (RegularExpression _ (_ :: _)) => mongo 51075 (lit "options set in both $regex and $options")
            | _ => Ok ()
            end
      | None => Ok ()
      end;
  match pattern with Some (RegularExpression _ options) => regex_flags_ok options | _ => Ok () end.

(** [field_matches_descend] *)
Definition field_matches_with (th : Thread) (values : list Cand) (cond : Bson) (coll : option Collation)
    (field : bytes) (descend : bool) : R bool :=
  match cond with
  | Undefined => Err undefined_operand
  | RegularExpression _ options => _ ← regex_flags_ok options; op_regex values cond None descend
  | Document d =>
      if is_operator_dict d then
        _ ← regex_pair_ok d;
        near ← geo_near d;
        match near with
        | Some near => Ok (near_matches near values)
        | None =>
            all_ok (λ e : bytes * Bson,
              if op_is e.1 "$options" then Ok true
              else if op_is e.1 "$regex" then op_regex values e.2 (doc_get d (lit "$options")) descend
              else op_matches th values e.1 e.2 coll field descend) d
        end
      else eq_with_array values cond coll descend
  | _ => eq_with_array values cond coll descend
  end.

(** ** Documents *)

Definition ROOT_PREFIX : bytes := lit "$$ROOT.".

(** The field path of a [$in] that mongod also checks by value. *)
Definition by_value_path (path : bytes) : option bytes :=
  if starts_with path ROOT_PREFIX then Some (drop (length ROOT_PREFIX) path)
  else p ← strip_prefix1 36 path; if dollar p then None else Some p.

Definition by_value_list (list_ : Bson) : option (list Bson) :=
  match list_ with
  | Array a => Some a
  | Document [(k, v)] => if ⌊k = lit "$literal"⌋ then match v with Array a => Some a | _ => None end else None
  | _ => None
  end.

Definition by_value_constant (v : Bson) : bool :=
  match v with Array _ | Document _ => false | String s => negb (dollar s) | _ => true end.

(** [expr_in_by_value], the conjuncts of a [$and] one by one. *)
Fixpoint expr_in_by_value (doc : Doc) (expr : Bson) (vars : Doc) (coll : option Collation) : R bool :=
  match coll, expr with
  | Some _, Document e =>
      match (fix get (d : Doc) : option (R bool) :=
               match d with
               | [] => None
               | (k, v) :: d =>
                   if ⌊k = lit "$and"⌋ then
                     match v with
                     | Array parts => Some (all_ok (λ p, expr_in_by_value doc p vars coll) parts)
                     | _ => None
                     end
                   else get d
               end) e with
      | Some r => r
      | None =>
          match e with
          | [(k, Array [String path; list_])] =>
              if ⌊k = lit "$in"⌋ then
                match by_value_list list_ with
                | None => Ok true
                | Some items =>
                    match by_value_path path with
                    | Some path =>
                        if forallb by_value_constant items
                        then matches_rec (mkThread None false) doc [(path, Document [(lit "$in", Array items)])] vars None
                        else Ok true
                    | None => Ok true
                    end
                end
              else Ok true
          | _ => Ok true
          end
      end
  | _, _ => Ok true
  end.

Definition sample_rate (cond : Bson) : option Z :=
  match cond with
  | Decimal128 d => parse_f64 (dec d)
  | Double d => Some d
  | Int32 n | Int64 n => Some (f64_of_int n)
  | _ => None
  end.

Definition F64_ONE : Z := 0x3FF0000000000000.
Definition f64_le (x y : Z) : bool := match f64_partial_cmp x y with Some Lt | Some Eq => true | _ => false end.

Definition is_one (cond : Bson) : bool :=
  match cond with
  | Int32 n | Int64 n => n =? 1
  | Double d => f64_eq d F64_ONE
  | Decimal128 _ => ⌊decimal_to_i64_exact dec cond = Some 1⌋
  | _ => false
  end.

Definition match_clause (th : Thread) (doc : Doc) (key : bytes) (cond : Bson) (vars : Doc) (coll : option Collation) :
    R bool :=
  let branch c := d ← as_doc_entry key c; matches_rec th doc d vars coll in
  if op_is key "$and" then arr ← doc_op_array key cond; all_ok branch arr
  else if op_is key "$or" then arr ← doc_op_array key cond; any_ok branch arr
  else if op_is key "$nor" then arr ← doc_op_array key cond; negate (any_ok branch arr)
  else if op_is key "$comment" then Ok true
  else if op_is key "$expr" then
    let on := match coll with Some _ => coll | None => active th end in
    b ← evaluate_truthy on doc cond vars;
    if b : bool then expr_in_by_value doc cond vars coll else Ok false
  else if op_is key "$jsonSchema" then json_schema cond doc
  else if op_is key "$sampleRate" then
    match sample_rate cond with
    | None => mongo 2 (lit "argument to $sampleRate must be a numeric type")
    | Some p =>
        if f64_le 0 p && f64_le p F64_ONE then Ok ⌊f64_partial_cmp random p = Some Lt⌋
        else mongo 2 (lit "numeric argument to $sampleRate must be in [0, 1]")
    end
  else if is_one_of key ["$alwaysTrue"; "$alwaysFalse"] then
    if is_one cond then Ok (op_is key "$alwaysTrue") else mongo 9 (key ++ lit " must be an integer value of 1")
  else if op_is key "$where" then Err (where_refusal cond)
  else if dollar key && negb (is_one_of key KNOWN_TOP_LEVEL_OPERATORS) then Err (unknown_top_level_operator key)
  else if dollar key then Err Defer
  else field_rec th (resolve_path doc key) cond coll key true.

Definition matches_with (th : Thread) (doc query vars : Doc) (coll : option Collation) : R bool :=
  let coll := match coll with Some _ => coll | None => active th end in
  all_ok (λ e : bytes * Bson, match_clause th doc e.1 e.2 vars coll) query.
End conditions.

(** The recursion, on fuel; the nesting of the condition is enough. *)
Fixpoint field_fuel (n : nat) (th : Thread) (values : list Cand) (cond : Bson) (coll : option Collation)
    (field : bytes) (descend : bool) : R bool :=
  match n with
  | O => NoFuel
  | S n => field_matches_with (field_fuel n) (matches_fuel n) th values cond coll field descend
  end
with matches_fuel (n : nat) (th : Thread) (doc query vars : Doc) (coll : option Collation) : R bool :=
  match n with
  | O => NoFuel
  | S n => matches_with (field_fuel n) (matches_fuel n) th doc query vars coll
  end.

Definition field_matches_descend (th : Thread) (values : list Cand) (cond : Bson) (coll : option Collation)
    (field : bytes) (descend : bool) : R bool :=
  field_fuel (depth cond) th values cond coll field descend.

Definition field_matches (th : Thread) (values : list Cand) (cond : Bson) (coll : option Collation) (field : bytes) :
    R bool :=
  field_matches_descend th values cond coll field true.

Definition matches (th : Thread) (doc query vars : Doc) (coll : option Collation) : R bool :=
  matches_fuel (depth (Document query)) th doc query vars coll.
End matcher.

(** ** Names a parser knows *)

Definition KNOWN_FIELD_OPS : list string :=
  ["$eq"; "$ne"; "$gt"; "$gte"; "$lt"; "$lte"; "$in"; "$nin"; "$exists"; "$not"; "$type"; "$size"; "$all";
   "$elemMatch"; "$mod"; "$bitsAllSet"; "$bitsAnySet"; "$bitsAllClear"; "$bitsAnyClear"; "$geoWithin"; "$within";
   "$geoIntersects"; "$near"; "$nearSphere"; "$regex"; "$options"; "$geometry"; "$center"; "$centerSphere"; "$box";
   "$polygon"; "$minDistance"; "$maxDistance"].

(** Both walk the branches of [$and] / [$or] / [$nor] and stop at the first name. *)
Fixpoint unknown_top_level_refusal (filter : Bson) : option Fallback :=
  match filter with
  | Document d =>
      find_map (λ e : bytes * Bson,
        if is_one_of e.1 ["$and"; "$or"; "$nor"] then
          match e.2 with Array branches => find_map unknown_top_level_refusal branches | _ => None end
        else if dollar e.1 && negb (is_one_of e.1 KNOWN_TOP_LEVEL_OPERATORS)
        then Some (unknown_top_level_operator e.1) else None) d
  | _ => None
  end.

Fixpoint first_unknown_operator (filter : Bson) : option bytes :=
  match filter with
  | Document d =>
      find_map (λ e : bytes * Bson,
        if is_one_of e.1 ["$and"; "$or"; "$nor"] then
          match e.2 with Array arr => find_map first_unknown_operator arr | _ => None end
        else if dollar e.1 then None
        else match e.2 with
        | Document ops =>
            if is_operator_dict ops
            then find_map (λ op : bytes * Bson, if is_one_of op.1 KNOWN_FIELD_OPS then None else Some op.1) ops
            else None
        | _ => None
        end) d
  | _ => None
  end.

(** Some filters, with no engines. *)
Definition no_engines : Engines := {|
  compile _ _ := None; pcre_compile_error _ := None; pcre2_utf8_error _ := None;
  geo_near _ := Ok None; geo_within _ _ _ := Err Defer; geo_intersects _ _ := Err Defer;
  evaluate_truthy _ _ _ _ := Err Defer; json_schema _ _ := Err Defer; random := 0; scope_eq _ _ := false;
  value_repr _ := []; double_repr _ := []; g_repr _ := [] |}.

Example matches_samples :
  let run doc query := @matches (λ x, x) Mongod no_engines (mkThread None false) doc query [] None in
  let x v := [(lit "x", v)] in
  run (x (Array [Int32 1; Int32 7])) (x (Document [(lit "$gt", Int64 5)])) = Ok true ∧
  run (x (Array [Int32 1; Int32 7])) (x (Document [(lit "$elemMatch", Document [(lit "$gt", Int32 1); (lit "$lt", Int32 7)])]))
    = Ok false ∧
  run (x (Document [(lit "y", Null)])) [(lit "x.y", Null); (lit "$nor", Array [Document [(lit "z", Int32 1)]])] = Ok true ∧
  run [] (x (Document [(lit "$gt", MinKey)])) = Ok true ∧
  run [] (x (Document [(lit "$gt", Int32 1); (lit "b", Int32 2)])) = Ok false ∧
  run (x (Int32 3)) (x (Document [(lit "$gt", Int32 1); (lit "b", Int32 2)])) = Err (unknown_operator (lit "b")).
Proof. vm_compute. repeat split. Qed.
