(* ===== verification/IndexKeys.v ===== *)
(** * The values a document gives an index: secantus-core/src/index_keys.rs

    mongod's keys for an indexed path, the whole arrays this store keys besides,
    and secantus-storage/src/lib.rs's question whether a predicate can match a
    document that lacks the path. *)
From stdpp Require Import strings.
From S2P Require Import Prelude RustM Bson Docs Paths Numeric Order SortKey SortKeyOrder Decimal Query.
Local Open Scope Z_scope.
Local Open Scope secantus_scope.

Record FieldKeys := mkFieldKeys { mongod : list Bson; whole_arrays : list Bson; multikey : bool }.

(** Whether the path passes through an array one of whose elements does not reach
    the leaf. *)
Fixpoint element_lacks_leaf (value : Bson) (parts : list bytes) (in_array : bool) {struct parts} : bool :=
  match parts with
  | [] => false
  | first :: rest =>
      let in_document (d : Doc) (in_array : bool) :=
        match doc_get d first with Some next => element_lacks_leaf next rest in_array | None => in_array end in
      match value with
      | Document d => in_document d in_array
      | Array items => existsb (λ item, match item with Document d => in_document d true | _ => true end) items
      | _ => in_array
      end
  end.

Definition leaf_keys (v : Bson) : list Bson :=
  match v with Array [] => [Undefined] | Array items => items | _ => [v] end.

Definition is_array (v : Bson) : bool := match v with Array _ => true | _ => false end.

Definition field_keys (doc : Doc) (path : bytes) (sparse : bool) : FieldKeys :=
  let '(values, descended) := get_path_values doc path in
  let keys := concat (leaf_keys <$> values) in
  let nulls :=
    if ⌊keys = []⌋ then [Null]
    else if negb sparse && element_lacks_leaf (Document doc) (split_dot path) false then [Null] else [] in
  {| mongod := keys ++ nulls;
     whole_arrays := filter (λ v, is_array v) values;
     multikey := descended || existsb is_array values |}.

Definition index_field_values (doc : Doc) (field : bytes) (sparse : bool) : list Bson * bool :=
  let keys := field_keys doc field sparse in
  (mongod keys ++ whole_arrays keys, multikey keys).

(** ** Predicates a missing field can satisfy *)

Definition NULL_COMPARABLE_OPS : list string := ["$eq"; "$lte"; "$gte"; "$lt"; "$gt"].

Definition bson_truthy_exists (v : Bson) : bool :=
  match v with
  | Boolean b => b
  | Null => false
  | Int32 n | Int64 n => negb (n =? 0)
  | Double d => negb (f64_eq d 0)
  | _ => true
  end.

Definition operator_may_match_missing (op : bytes) (arg : Bson) : bool :=
  (is_one_of op NULL_COMPARABLE_OPS && is_null arg)
  || (is_one_of op ["$in"; "$all"] && match arg with Array arr => existsb is_null arr | _ => false end)
  || (op_is op "$exists" && negb (bson_truthy_exists arg))
  || is_one_of op ["$ne"; "$nin"; "$not"].

Definition predicate_may_match_missing (clause : option Bson) : bool :=
  match clause with
  | None | Some Null => true
  | Some (Document d) =>
      existsb (λ e : bytes * Bson, dollar e.1) d
      && existsb (λ e : bytes * Bson, operator_may_match_missing e.1 e.2) d
  | Some _ => false
  end.

Definition index_field_exists (doc : Doc) (field : bytes) : bool := ⌊(get_path_values doc field).1 ≠ []⌋.

Definition sparse_covers (doc key_spec : Doc) : bool := existsb (index_field_exists doc) (keys key_spec).

Definition sparse_index_usable (key_spec filter : Doc) : bool :=
  existsb (λ field, negb (predicate_may_match_missing (doc_get filter field))) (keys key_spec).

Definition doc_makes_multikey (doc key_spec : Doc) : bool :=
  existsb (λ f, (index_field_values doc f false).2) (keys key_spec).

(** ** The keys of a document's entries *)

(** [d as i32] *)
Definition f64_as_i32 (d : Z) : Z := Z.max (- 2 ^ 31) (Z.min (2 ^ 31 - 1) (f64_as_i64 d)).

Definition direction_of (v : Bson) : option Z :=
  match v with Int32 i => Some i | Int64 i => Some (as_i32 i) | Double d => Some (f64_as_i32 d) | _ => None end.

Definition MAX_COMPOUND_KEYS : nat := 10000.

Section variants.
Context (dec : bytes → bytes) (bo : BinDataOrder).

Definition enc_dir_c (coll : option (bytes → option bytes)) (v : Bson) (direction : Z) : outcome () bytes :=
  match encode_value_directed dec bo coll v direction with Ok k => Ok k | Panic => Panic | NoFuel => NoFuel | Err _ => Err () end.

(** What is kept of [items]: those whose key was not seen before. *)
Fixpoint unseen {A} (enc : A → outcome () bytes) (seen : list bytes) (items : list A) : outcome () (list (A * bytes)) :=
  match items with
  | [] => Ok []
  | x :: items =>
      k ← enc x;
      if ⌊k ∈ seen⌋ then unseen enc seen items
      else rest ← unseen enc (k :: seen) items; Ok ((x, k) :: rest)
  end.

Definition field_candidates (doc : Doc) (sparse : bool) (coll : option (bytes → option bytes)) (f : bytes * Z) :
    outcome () (list Bson) :=
  match (index_field_values doc f.1 sparse).1 with
  | [cand] => Ok [cand]
  | cands => uniq ← unseen (λ v, enc_dir_c coll v f.2) [] cands; Ok (uniq.*1)
  end.

(** The product, in order and capped. *)
Definition extend_combos (combos : list (list Bson)) (cand : list Bson) : list (list Bson) :=
  take MAX_COMPOUND_KEYS (concat ((λ combo, (λ v, combo ++ [v]) <$> cand) <$> combos)).

Definition combo_key (coll : option (bytes → option bytes)) (fields : list (bytes * Z)) (combo : list Bson) :
    outcome () bytes :=
  parts ← mapM (λ vf : Bson * (bytes * Z), enc_dir_c coll vf.1 vf.2.2) (zip combo fields);
  Ok (join_keys parts).

Definition index_key_variants_c (doc key_spec : Doc) (sparse : bool) (coll : option (bytes → option bytes)) :
    outcome () (list bytes) :=
  let fields := (λ e : bytes * Bson, (e.1, default 1 (direction_of e.2))) <$> key_spec in
  if sparse && negb (sparse_covers doc key_spec) then Ok []
  else
    per_field ← mapM (field_candidates doc sparse coll) fields;
    match fields, per_field with
    | [(_, d)], [cands] => keys ← unseen (λ v, enc_dir_c coll v d) [] cands; Ok (keys.*2)
    | _, _ =>
        keys ← unseen (combo_key coll fields) [] (foldl extend_combos [[]] per_field);
        Ok (keys.*2)
    end.
End variants.

(** The shapes mongod was measured on. *)
Example mongod_keys_for_awkward_shapes :
  let keys d path sparse := mongod (field_keys [(lit "a", d)] (lit path) sparse) in
  let b v := Document [(lit "b", v)] in
  keys (Array []) "a" false = [Undefined] ∧ keys (Array []) "a.b" false = [Null] ∧
  keys (Array [Int32 1]) "a.b" false = [Null] ∧ keys (Array [Array [b (Int32 1)]]) "a.b" false = [Null] ∧
  keys (Array [b (Array [])]) "a.b" false = [Undefined] ∧
  keys (Array [Document [(lit "c", Int32 1)]; b (Int32 3)]) "a.b" false = [Int32 3; Null] ∧
  keys (Array [Document [(lit "c", Int32 1)]; b (Int32 3)]) "a.b" true = [Int32 3] ∧
  keys (Array [b (Array [Array []])]) "a.b" false = [Array []].
Proof. vm_compute. repeat split. Qed.
