(* ===== verification/ScanBounds.v ===== *)
(** * Index scan bounds: secantus-storage/src/scan_bounds.rs

    Which stretches of an index a predicate is read between, as ranges of ascending
    keys, and the spans of stored bytes they become.  [char::is_alphanumeric] is a
    parameter: its tables are the standard library's. *)
From stdpp Require Import strings.
From S2P Require Import Prelude RustM Bson Lex Docs Paths Numeric Order SortKey Decimal Query IndexKeys.
Local Open Scope Z_scope.
Local Open Scope secantus_scope.

Definition blt (a b : bytes) : bool := is_lt (bcmp a b).

Inductive End := Floor (r : Z) | Key (k : bytes).

#[export] Instance End_eq_dec : EqDecision End.
Proof. solve_decision. Defined.

(** ** Stretches *)

Module Stretch.
Record t := mk { lo : option End; hi : option End }.

Definition all : t := mk None None.
Definition point (key : bytes) : t := mk (Some (Key key)) (Some (Key key)).
Definition bracket (rank : Z) : t := mk (Some (Floor rank)) (Some (Floor (rank + 1))).

Definition as_point (s : t) : option bytes :=
  match lo s, hi s with
  | Some (Key a), Some (Key b) => if ⌊a = b⌋ then Some a else None
  | _, _ => None
  end.

Definition lo_pos (s : t) : bytes :=
  match lo s with None => [] | Some (Floor r) => [r] | Some (Key k) => k end.

Definition hi_pos (s : t) : option bytes :=
  match hi s with None => None | Some (Floor r) => Some [r] | Some (Key k) => Some (k ++ [0xFF]) end.

Definition is_empty (s : t) : bool :=
  match hi_pos s with Some hi => negb (blt (lo_pos s) hi) | None => false end.

Definition intersect (s other : t) : option t :=
  let l := if negb (blt (lo_pos s) (lo_pos other)) then lo s else lo other in
  let h := match hi_pos s, hi_pos other with
           | None, _ => hi other
           | _, None => hi s
           | Some a, Some b => if negb (blt b a) then hi s else hi other
           end in
  let out := mk l h in
  if is_empty out then None else Some out.
End Stretch.
Abbreviation stretch := Stretch.t.

Record Bounds := mkBounds { stretches : list stretch; broad : bool }.

(** The stretches an operator gives, and whether reading them is a wide read. *)
Abbreviation reading := (list stretch * bool)%type.

Section bounds.
Context (dec : bytes → bytes) (bo : BinDataOrder) (is_alphanumeric : Z → bool).

Definition key (v : Bson) : option bytes := match encode_value dec bo None v with Ok k => Some k | _ => None end.

Definition rank (v : Bson) : Z := match key v with Some (r :: _) => r | _ => 0 end.

Definition rank_number : Z := rank (Int32 0).
Definition rank_string : Z := rank (String []).
Definition rank_doc : Z := rank (Document []).
Definition rank_array : Z := rank (Array []).
Definition rank_regex : Z := rank (RegularExpression [] []).
Definition rank_js : Z := rank (JavaScriptCode []).

Definition scalar_points (b : Bounds) : bool :=
  ⌊stretches b ≠ []⌋
  && forallb (λ s, match Stretch.as_point s with
                   | Some (r :: _) => negb ((r =? rank Null) || (r =? rank_doc) || (r =? rank_array))
                   | Some [] => true
                   | None => false
                   end) (stretches b).

Definition widen_lo (ranks : list Z) (e : option End) : option End :=
  match e with Some (Key (r :: _)) => if ⌊r ∈ ranks⌋ then Some (Floor r) else e | _ => e end.
Definition widen_hi (ranks : list Z) (e : option End) : option End :=
  match e with Some (Key (r :: _)) => if ⌊r ∈ ranks⌋ then Some (Floor (r + 1)) else e | _ => e end.

Definition widen_ranks (b : Bounds) (ranks : list Z) : Bounds :=
  mkBounds ((λ s, Stretch.mk (widen_lo ranks (Stretch.lo s)) (widen_hi ranks (Stretch.hi s))) <$> stretches b) (broad b).

Definition open_ended_rank (r : Z) : bool := (r =? rank_string) || (r =? rank_js) || (r =? rank_regex).

Definition is_nan (v : Bson) : bool :=
  match v with
  | Double d => f64_is_nan d
  | Decimal128 d => contains (to_lowercase (dec d)) [110; 97; 110]
  | _ => false
  end.

Definition trusted_end (v : Bson) (desc : bool) : bool :=
  ⌊is_Some (key v)⌋
  && match v with
     | String s | JavaScriptCode s | JavaScriptCodeWithScope s _ => negb ⌊0 ∈ s⌋ && negb desc
     | RegularExpression _ _ => negb desc
     | Symbol _ | Undefined | DbPointer _ _ => false
     | _ => true
     end.

Definition is_lower (op : bytes) : bool := is_one_of op ["$gt"; "$gte"].

Definition range_of (op : bytes) (v : Bson) (desc : bool) : option (list stretch) :=
  k ← key v;
  r ← head k;
  let lower := is_lower op in
  let e := if trusted_end v desc then Key k else if lower then Floor r else Floor (r + 1) in
  Some [if lower then Stretch.mk (Some e) (Some (Floor (r + 1))) else Stretch.mk (Some (Floor r)) (Some e)].

Definition range (op : bytes) (v : Bson) (desc : bool) : option (list stretch) :=
  match v with
  | MinKey | MaxKey => Some [Stretch.all]
  | Null => k ← key v; Some [Stretch.point k]
  | Array _ | RegularExpression _ _ | Undefined | Symbol _ | DbPointer _ _ => None
  | _ => range_of op v desc
  end.

(** ** Regexes *)

Definition SPECIAL : list Z := lit ".*+?|()[]{}^$" ++ [0].

(** The literal a regex must continue with, and what follows it. *)
Definition next_literal (cs : list Z) : option (Z * list Z) :=
  match cs with
  | [] => None
  | c :: cs =>
      if c =? 92 then
        match cs with
        | n :: cs => if negb (is_alphanumeric n) && negb (n =? 0) then Some (n, cs) else None
        | [] => None
        end
      else if ⌊c ∈ SPECIAL⌋ then None else Some (c, cs)
  end.

Definition quantified (cs : list Z) : bool := match head cs with Some c => ⌊c ∈ lit "*?{"⌋ | None => false end.

Fixpoint literal_prefix (fuel : nat) (cs : list Z) : list Z :=
  match fuel with
  | O => []
  | S fuel =>
      match next_literal cs with
      | Some (literal, cs) => if quantified cs then [] else literal :: literal_prefix fuel cs
      | None => []
      end
  end.

Definition regex_prefix (pattern : bytes) (options : list Z) : option (list Z) :=
  if ⌊options ≠ []⌋ || ⌊124 ∈ pattern⌋ then None
  else
    rest ← strip_prefix1 94 pattern;
    let cs := chars rest in
    let prefix := literal_prefix (length cs) cs in
    if ⌊prefix = []⌋ then None else Some prefix.

(** The next [char]: the surrogates are not. *)
Definition next_char (c : Z) : option Z :=
  if in_range 0xD7FF 0xDFFE c then Some 0xE000 else if c <? 0x10FFFF then Some (c + 1) else None.

Definition prefix_stretch (prefix : list Z) (desc : bool) : option stretch :=
  last ← last prefix;
  b ← next_char last;
  let lo := String (utf8 prefix) in
  let hi := String (utf8 (removelast prefix ++ [b])) in
  if trusted_end lo desc && trusted_end hi desc
  then kl ← key lo; kh ← key hi; Some (Stretch.mk (Some (Key kl)) (Some (Key kh)))
  else None.

Definition regex (pattern : bytes) (options : list Z) (desc : bool) : option reading :=
  k ← key (RegularExpression pattern options);
  let bracket := (Stretch.bracket rank_string, true) in
  let '(text, broad) :=
    match regex_prefix pattern options with
    | Some prefix => match prefix_stretch prefix desc with Some s => (s, false) | None => bracket end
    | None => bracket
    end in
  Some ([text; Stretch.point k], broad).

(** ** Operators *)

Definition equality (v : Bson) (desc : bool) : option reading :=
  match v with
  | RegularExpression p o => regex p o desc
  | Array [] => k ← key v; Some ([Stretch.point k], false)
  | Array (first :: _) => k ← key v; f ← key first; Some ([Stretch.point k; Stretch.point f], false)
  | Undefined | Symbol _ | DbPointer _ _ => None
  | _ => k ← key v; Some ([Stretch.point k], false)
  end.

Definition not_range_of (op : bytes) (v : Bson) (desc : bool) : option (list stretch) :=
  k ← key v;
  r ← head k;
  let lower := is_lower op in
  let e := if trusted_end v desc then Key k else if lower then Floor (r + 1) else Floor r in
  nan ← key (Double F64_NAN);
  Some ((if lower
         then [Stretch.mk None (Some e); Stretch.mk (Some (Floor (r + 1))) None]
         else [Stretch.mk None (Some (Floor r)); Stretch.mk (Some e) None])
        ++ if r =? rank_number then [Stretch.point nan] else []).

Definition not_range (op : bytes) (v : Bson) (desc : bool) : option (list stretch) :=
  if is_nan v || negb (trusted_end v false) then None
  else match v with
  | Null | MinKey | MaxKey | Array _ | RegularExpression _ _ | JavaScriptCode _ | JavaScriptCodeWithScope _ _ => None
  | _ => not_range_of op v desc
  end.

Definition alias_code (s : bytes) : option Z :=
  if is_one_of s ["double"; "int"; "long"; "decimal"; "number"] then Some 1
  else if op_is s "string" then Some 2
  else if op_is s "object" then Some 3
  else if op_is s "array" then Some 4
  else if op_is s "binData" then Some 5
  else if op_is s "objectId" then Some 7
  else if op_is s "bool" then Some 8
  else if op_is s "date" then Some 9
  else if op_is s "null" then Some 10
  else if op_is s "regex" then Some 11
  else if is_one_of s ["javascript"; "javascriptWithScope"] then Some 13
  else if op_is s "timestamp" then Some 17
  else if op_is s "minKey" then Some (-1)
  else if op_is s "maxKey" then Some 127
  else None.

Definition item_code (item : Bson) : option Z :=
  match item with
  | String s => alias_code s
  | Int32 n | Int64 n => Some n
  | Double d => if fract_is_zero d then Some (f64_as_i64 d) else None
  | _ => None
  end.

(** A type's stretch, but for arrays, whose elements are keyed under any rank. *)
Definition code_stretch (code : Z) : option stretch :=
  let one v := Some (Stretch.bracket (rank v)) in
  let at_ v := k ← key v; Some (Stretch.point k) in
  if ⌊code ∈ [1; 16; 18; 19]⌋ then one (Int32 0)
  else if code =? 2 then one (String [])
  else if code =? 3 then one (Document [])
  else if code =? 5 then one (Binary 0 [])
  else if code =? 7 then one (ObjectId (replicate 12 0))
  else if code =? 8 then one (Boolean false)
  else if code =? 9 then one (DateTime 0)
  else if code =? 10 then at_ Null
  else if code =? 11 then Some (Stretch.bracket rank_regex)
  else if ⌊code ∈ [13; 15]⌋ then Some (Stretch.bracket rank_js)
  else if code =? 17 then one (Timestamp 0 0)
  else if code =? -1 then at_ MinKey
  else if code =? 127 then at_ MaxKey
  else None.

Fixpoint type_items (items : list Bson) (out : list stretch) : option (list stretch) :=
  match items with
  | [] => if ⌊out = []⌋ then None else Some out
  | item :: items =>
      code ← item_code item;
      if code =? 4 then Some [Stretch.all]
      else s ← code_stretch code; type_items items (out ++ [s])
  end.

Definition type_ranks (spec : Bson) : option (list stretch) :=
  type_items (match spec with Array a => a | _ => [spec] end) [].

Definition intersect (a b : list stretch) : list stretch :=
  concat ((λ x, omap (Stretch.intersect x) b) <$> a).

Fixpoint in_items (items : list Bson) (desc : bool) (out : reading) : option reading :=
  match items with
  | [] => Some out
  | item :: items => r ← equality item desc; in_items items desc (out.1 ++ r.1, out.2 || r.2)
  end.

Definition everything : option reading := Some ([Stretch.all], true).

Definition not_operator (arg : Bson) (desc : bool) : option reading :=
  match arg with
  | Document [(iop, iv)] =>
      if is_one_of iop ["$gt"; "$gte"; "$lt"; "$lte"]
      then Some (default [Stretch.all] (not_range iop iv desc), true) else everything
  | _ => everything
  end.

Definition regex_operator (arg : Bson) (whole : Doc) (desc : bool) : option reading :=
  '(pattern, options) ← match arg with
    | String s => Some (s, [])
    | RegularExpression p o => Some (p, o)
    | _ => None
    end;
  regex pattern (match get_str whole (lit "$options") with Some o => chars o | None => options end) desc.

Section operators.
Context (elem_operators : Doc → bool → bool → option reading).

Definition operator (op : bytes) (arg : Bson) (whole : Doc) (desc : bool) : option reading :=
  if op_is op "$eq" then equality arg desc
  else if is_one_of op ["$gt"; "$gte"; "$lt"; "$lte"] then s ← range op arg desc; Some (s, false)
  else if op_is op "$in" then match arg with Array items => in_items items desc ([], false) | _ => None end
  else if is_one_of op ["$ne"; "$nin"] then everything
  else if op_is op "$not" then not_operator arg desc
  else if op_is op "$exists" then
    if bson_truthy_exists arg then everything else k ← key Null; Some ([Stretch.point k], false)
  else if op_is op "$type" then s ← type_ranks arg; Some (s, true)
  else if op_is op "$mod" then Some ([Stretch.bracket rank_number], true)
  else if op_is op "$regex" then regex_operator arg whole desc
  else if op_is op "$all" then
    match arg with
    | Array (Document d :: _) => if existsb dollar (keys d) then None else equality (Document d) desc
    | Array (first :: _) => equality first desc
    | _ => None
    end
  else if op_is op "$elemMatch" then
    match arg with
    | Document inner =>
        if ⌊inner = []⌋ || existsb (λ k, negb (dollar k)) (keys inner) || contains_key inner (lit "$elemMatch")
        then None else elem_operators inner false desc
    | _ => None
    end
  else None.

(** One more operator's reading on what is picked so far. *)
Definition pick (multikey : bool) (picked : option reading) (r : reading) : reading :=
  match picked with
  | None => r
  | Some have =>
      if multikey then (if have.2 && negb r.2 then r else have)
      else (intersect have.1 r.1, have.2 && r.2)
  end.

Definition operators_with (d : Doc) (multikey desc : bool) : option reading :=
  foldl (λ picked e,
    if op_is e.1 "$options" then picked
    else match operator e.1 e.2 d desc with Some r => Some (pick multikey picked r) | None => picked end) None d.
End operators.

(** A [$elemMatch] inside a [$elemMatch] bounds nothing, so two levels are all. *)
Definition operators : Doc → bool → bool → option reading := operators_with (operators_with (λ _ _ _, None)).

Definition for_predicate (pred : Bson) (multikey desc : bool) : option Bounds :=
  r ← match pred with
      | Document ((_ :: _) as d) =>
          if forallb dollar (keys d) then operators d multikey desc
          else if existsb dollar (keys d) then None else equality pred desc
      | _ => equality pred desc
      end;
  Some (mkBounds (filter (λ s, negb (Stretch.is_empty s)) r.1) r.2).
End bounds.

(** ** Spans of stored bytes *)

Record Span := mkSpan { lo : option bytes; hi : option bytes }.

Section spans.
Context (dir : Z) (escape : bytes → bytes).

Definition floor (r : Z) : bytes := if dir =? -1 then [0xFF - r + 1] else [r].

Definition key_bytes (k : bytes) : bytes :=
  if dir =? -1 then escape (invert_bytes k ++ DESC_END) else escape k.

Definition low (e : End) : bytes := match e with Floor r => floor r | Key k => key_bytes k end.
Definition high (e : End) : bytes := match e with Floor r => floor r | Key k => key_bytes k ++ [0xFF] end.

Definition span_of (s : stretch) : Span :=
  if dir =? -1
  then mkSpan (low <$> Stretch.hi s) (high <$> Stretch.lo s)
  else mkSpan (low <$> Stretch.lo s) (high <$> Stretch.hi s).

Definition inhabited_span (s : Span) : bool :=
  match lo s, hi s with Some l, Some h => blt l h | _, _ => true end.

(** [a.lo <= b.lo], [None] first. *)
Definition lo_le (a b : Span) : bool :=
  match lo a, lo b with None, _ => true | Some _, None => false | Some x, Some y => negb (blt y x) end.

Fixpoint insert_span (s : Span) (l : list Span) : list Span :=
  match l with
  | [] => [s]
  | t :: l => if lo_le s t then s :: t :: l else t :: insert_span s l
  end.

Definition sort_spans (l : list Span) : list Span := foldr insert_span [] l.

Definition touches (last s : Span) : bool :=
  match hi last, lo s with Some h, Some l => negb (blt h l) | _, _ => true end.

Definition max_hi (a b : option bytes) : option bytes :=
  match a, b with Some x, Some y => Some (if blt y x then x else y) | _, _ => None end.

Fixpoint merge_spans (last : Span) (spans : list Span) : list Span :=
  match spans with
  | [] => [last]
  | s :: spans =>
      if touches last s then merge_spans (mkSpan (lo last) (max_hi (hi last) (hi s))) spans
      else last :: merge_spans s spans
  end.

Definition to_spans (bounds : Bounds) : list Span :=
  match sort_spans (filter (λ s, inhabited_span s) (span_of <$> stretches bounds)) with
  | [] => []
  | s :: spans => merge_spans s spans
  end.
End spans.
