(* ===== verification/IndexScan.v ===== *)
(** * Reading an index between bounds: secantus-storage/src/lib.rs

    Packed index entries, the choice of an index that leads with a field, and the
    scan of the entries between a predicate's bounds.  WiredTiger's cursor is the
    list of an index's packed entries in byte order; [expired n] is the verdict of
    the [n]-th look at the deadline; what a partial filter implies is a parameter. *)
From stdpp Require Import strings.
From S2P Require Import Prelude RustM Bson Lex Docs Paths Numeric Order SortKey SortKeyOrder Decimal Query.
From S2P Require Import IndexKeys ScanBounds.
Local Open Scope Z_scope.
Local Open Scope secantus_scope.

(** ** Packed entries *)

Definition ENTRY_SEP : bytes := [0; 0].

Fixpoint escape_kb (kb : bytes) : bytes :=
  match kb with
  | [] => []
  | b :: kb => b :: (if b =? 0 then 0xff :: escape_kb kb else escape_kb kb)
  end.

Fixpoint unescape_kb (esc : bytes) : bytes :=
  match esc with
  | [] => []
  | b :: ((c :: rest) as tail) => b :: unescape_kb (if (b =? 0) && (c =? 0xff) then rest else tail)
  | [b] => [b]
  end.

Definition pack_entry (kb : bytes) (recordid : Z) : bytes := escape_kb kb ++ ENTRY_SEP ++ be_bytes 8 recordid.

(** [packed.windows(2).position(|w| w == ENTRY_SEP)] *)
Fixpoint sep_position (packed : bytes) : option nat :=
  match packed with
  | x :: ((y :: _) as rest) => if (x =? 0) && (y =? 0) then Some O else S <$> sep_position rest
  | _ => None
  end.

Definition unpack_entry (packed : bytes) : bytes * option Z :=
  match sep_position packed with
  | Some i =>
      let tail := drop (i + 2) packed in
      (take i packed, if ⌊length tail = 8%nat⌋ then Some (signed 64 (le_val (reverse tail))) else None)
  | None => (packed, None)
  end.

Definition is_whole_array_key (escaped_key : bytes) (idx_dir : Z) : bool :=
  match escaped_key with
  | [] => false
  | first :: _ => first =? (if 0 <=? idx_dir then RANK_ARRAY else 0xFF - RANK_ARRAY)
  end.

(** ** The scan *)

Inductive StorageError := MaxTimeExpired.

Section scan.
Context (dec : bytes → bytes) (bo : BinDataOrder) (is_alphanumeric : Z → bool) (expired : nat → bool).

(** One span's rows: how often the deadline was read, what was found and whether it
    is in the order of the values. *)
Fixpoint scan_rows (rows : list bytes) (hi : bytes) (skip : nat) (dir : Z) (checks : nat) (found : list Z * bool) :
    outcome StorageError (nat * (list Z * bool)) :=
  match rows with
  | [] => Ok (checks, found)
  | packed :: rows =>
      if expired checks then Err MaxTimeExpired
      else
        let '(row_esc, row_id) := unpack_entry packed in
        if negb (blt row_esc hi) then Ok (S checks, found)
        else
          let in_order :=
            if found.2 && (dir =? -1)
            then match row_esc !! skip with Some b => negb (open_ended_rank dec bo (0xFF - b)) | None => true end
            else true in
          scan_rows rows hi skip dir (S checks) (found.1 ++ option_list row_id, found.2 && in_order)
  end.

(** [search_near], and [next] from what is before. *)
Fixpoint seek (rows : list bytes) (from : bytes) : list bytes :=
  match rows with
  | [] => []
  | packed :: rest => if blt packed from then seek rest from else rows
  end.

Fixpoint scan_each (rows : list bytes) (spans : list Span) (prefix : bytes) (dir : Z) (checks : nat) (found : list Z * bool) :
    outcome StorageError (list Z * bool) :=
  match spans with
  | [] => Ok found
  | span :: spans =>
      let lo := prefix ++ default [] (lo span) in
      let hi := prefix ++ default [0xFF] (hi span) in
      r ← scan_rows (seek rows lo) hi (length prefix) dir checks found;
      scan_each rows spans prefix dir r.1 r.2
  end.

Definition scan_spans (rows : list bytes) (spans : list Span) (prefix : bytes) (dir : Z) : outcome StorageError (list Z * bool) :=
  scan_each rows spans prefix dir 0 ([], true).
End scan.

(** ** Indexes *)

Module IndexDesc.
Record t := mk { name : bytes; key_spec : Doc; sparse : bool; partial : option Doc; multikey : bool }.
End IndexDesc.
Abbreviation index_desc := IndexDesc.t.

Definition flagged_multikey (indexes : list index_desc) (name : bytes) : bool :=
  existsb (λ d, ⌊IndexDesc.name d = name⌋ && IndexDesc.multikey d) indexes.

Definition has_descending_column (indexes : list index_desc) (name : bytes) : bool :=
  existsb (λ d, ⌊IndexDesc.name d = name⌋
                && existsb (λ e : bytes * Bson, ⌊direction_of e.2 = Some (-1)⌋) (IndexDesc.key_spec d)) indexes.

(** A predicate a missing value satisfies, on a dotted field of a multikey index, is
    not read from its entries. *)
Definition holds_missing_leaves (indexes : list index_desc) (desc : index_desc) (filter : Doc) : bool :=
  let at_risk :=
    existsb (λ field, ⌊DOT ∈ field⌋ && ⌊field ∈ keys filter⌋ && predicate_may_match_missing (doc_get filter field))
            (keys (IndexDesc.key_spec desc)) in
  negb at_risk || negb (flagged_multikey indexes (IndexDesc.name desc)).

Section planner.
Context (query_implies_partial : Doc → Doc → bool).

(** What [find_leading_field_index] asks of an index; its direction and whether it has
    more columns. *)
Definition leads_with (indexes : list index_desc) (field : bytes) (query : Doc) (desc : index_desc) : option (Z * bool) :=
  if match IndexDesc.partial desc with Some pf => negb (query_implies_partial query pf) | None => false end then None
  else if IndexDesc.sparse desc && negb (sparse_index_usable (IndexDesc.key_spec desc) query) then None
  else if negb (holds_missing_leaves indexes desc query) then None
  else if negb ⌊head (keys (IndexDesc.key_spec desc)) = Some field⌋ then None
  else if negb (forallb (λ e : bytes * Bson, ⌊direction_of e.2 = Some 1⌋ || ⌊direction_of e.2 = Some (-1)⌋) (IndexDesc.key_spec desc))
  then None
  else v ← doc_get (IndexDesc.key_spec desc) field; d ← direction_of v; Some (d, negb ⌊length (IndexDesc.key_spec desc) = 1%nat⌋).

(** The first single-column index, else the first compound one. *)
Fixpoint find_leading (indexes descs : list index_desc) (field : bytes) (query : Doc) (fallback : option (bytes * Z * bool)) :
    option (bytes * Z * bool) :=
  match descs with
  | [] => fallback
  | desc :: descs =>
      match leads_with indexes field query desc with
      | None => find_leading indexes descs field query fallback
      | Some (d, false) => Some (IndexDesc.name desc, d, false)
      | Some (d, true) =>
          find_leading indexes descs field query
            (match fallback with None => Some (IndexDesc.name desc, d, true) | Some f => Some f end)
      end
  end.

Definition find_leading_field_index (indexes : list index_desc) (field : bytes) (query : Doc) : option (bytes * Z * bool) :=
  find_leading indexes indexes field query None.
End planner.

Definition wide_read_allowed (wide_ok broad : bool) : bool := negb broad || wide_ok.

Section bounded.
Context (dec : bytes → bytes) (bo : BinDataOrder) (is_alphanumeric : Z → bool) (expired : nat → bool).

(** The RecordIds and whether they are in order; [None] when the predicate bounds
    nothing or only widely. *)
Definition bounded_id_keys (indexes : list index_desc) (entries : bytes → list bytes) (wide_ok : bool)
    (idx : bytes * Z * bool) (pred : Bson) : outcome StorageError (option (list Z * bool)) :=
  let '(name, dir, is_compound) := idx in
  let multikey := flagged_multikey indexes name in
  match for_predicate dec bo is_alphanumeric pred multikey (dir =? -1) with
  | None => Ok None
  | Some bounds =>
      if negb (wide_read_allowed wide_ok (broad bounds)) then Ok None
      else
        let spans := to_spans dir escape_kb bounds in
        r ← scan_spans dec bo expired (entries name) spans [] dir;
        let ordered := r.2 && negb (multikey && negb (scalar_points dec bo bounds))
                       && negb (is_compound && has_descending_column indexes name) in
        Ok (Some (r.1, ordered))
  end.
End bounded.
