(* ===== verification/QueryFacts.v ===== *)
(** * The matcher's verdicts and the sort order

    What the query operators find equal or ordered is so in [order::cmp], hence in
    the bytes of the keys; the evaluation always returns. *)
From stdpp Require Import strings.
From S2P Require Import Prelude RustM Bson Lex Docs Paths Numeric NumericFacts Order SortKey SortKeyNum.
From S2P Require Import SortKeyFacts Decimal Query.
Local Open Scope Z_scope.
Local Open Scope secantus_scope.

(** ** Outcomes of the loops *)

Lemma any_ok_true {A} (f : A → R bool) l : any_ok f l = Ok true → ∃ x, x ∈ l ∧ f x = Ok true.
Proof.
  induction l as [|x l IH]; [done|]. cbn [any_ok]. intros ([|] & Hx & H)%bind_Ok.
  - exists x. split; [left|done].
  - destruct (IH H) as (y & ? & ?). exists y. split; [by right|done].
Qed.

Lemma any_ok_false {A} (f : A → R bool) l : any_ok f l = Ok false → ∀ x, x ∈ l → f x = Ok false.
Proof.
  induction l as [|x l IH]; [set_solver|]. cbn [any_ok]. intros ([|] & Hx & H)%bind_Ok; [done|].
  intros y [->|Hy]%elem_of_cons; [done|auto].
Qed.

Lemma all_ok_true {A} (f : A → R bool) l : all_ok f l = Ok true → ∀ x, x ∈ l → f x = Ok true.
Proof.
  induction l as [|x l IH]; [set_solver|]. cbn [all_ok]. intros ([|] & Hx & H)%bind_Ok; [|done].
  intros y [->|Hy]%elem_of_cons; [done|auto].
Qed.

Lemma any_ok_ext {A} (f : A → bool) (h : A → R bool) l :
  (∀ x, x ∈ l → h x = Ok (f x)) → any_ok h l = Ok (existsb f l).
Proof.
  induction l as [|x l IH]; [done|]. intros Hf. cbn [any_ok existsb]. rewrite (Hf x) by left. simpl.
  destruct (f x); [done|]. apply IH. intros y Hy. apply Hf. by right.
Qed.

Section facts.
Context (dec : bytes → bytes) (bo : BinDataOrder) (Hbo : bo ≠ Format4) `{Engines}.

Local Abbreviation cmp := (Order.cmp dec bo None).
Local Abbreviation enc := (encode_value dec bo None).
Local Abbreviation keyable := (SortKeyFacts.keyable dec).

(** ** Values without [undefined], scopes and text that is not UTF-8 *)

Fixpoint simple (v : Bson) : bool :=
  match v with
  | Undefined | JavaScriptCodeWithScope _ _ => false
  | Array a => forallb simple a
  | Document d => ⌊as_invalid_utf8 v = None⌋ && forallb (λ e : bytes * Bson, simple e.2) d
  | _ => true
  end.

Definition clean (v : Bson) : Prop := keyable v ∧ simple v = true.

Lemma clean_item a e : clean (Array a) → e ∈ a → clean e.
Proof.
  intros [Hk Hs] He. apply keyable_items in Hk. rewrite Forall_forall in Hk. simpl in Hs.
  rewrite forallb_forall in Hs. split; [by apply Hk|]. by apply Hs, list_elem_of_In.
Qed.

Lemma clean_field d e : clean (Document d) → e ∈ d → clean e.2.
Proof.
  intros [Hk Hs] He. apply keyable_fields in Hk. rewrite Forall_forall in Hk.
  cbn [simple] in Hs. apply andb_true_iff in Hs as [_ Hs].
  rewrite forallb_forall in Hs. split; [by apply Hk|]. by apply Hs, list_elem_of_In.
Qed.

Lemma clean_utf8 v : clean v → as_invalid_utf8 v = None.
Proof. intros [_ Hs]. destruct v; try done. cbn [simple] in Hs. apply andb_true_iff in Hs as [Hs _]. by apply bool_decide_eq_true in Hs. Qed.

Lemma cmp_opp a b : keyable a → keyable b → cmp b a = CompOpp (cmp a b).
Proof.
  intros Ha Hb. destruct (enc_total dec bo Hbo a Ha) as [ka Ea], (enc_total dec bo Hbo b Hb) as [kb Eb].
  destruct (key_order dec bo Hbo a b ka kb Ha Hb Ea Eb) as (<- & _).
  destruct (key_order dec bo Hbo b a kb ka Hb Ha Eb Ea) as (<- & _). apply bcmp_antisym.
Qed.

(** ** [bson_lt] is [cmp] being [Less] *)

Lemma lt_rank_clean v : clean v → lt_rank v = type_rank v.
Proof. intros [Hk Hs]. by destruct Hk. Qed.

Section lists.
Context (lt : Bson → Bson → option bool) (P : Bson → Prop).
Context (Hlt : ∀ a b, P a → P b → lt a b = Some (is_lt (cmp a b))).
Context (HP : ∀ a, P a → clean a).

Lemma lt_both a b {A} (k : option A) (f g : A) :
  P a → P b →
  (x ← lt a b; if x : bool then Some f else y ← lt b a; if y : bool then Some g else k) =
  match cmp a b with Lt => Some f | Gt => Some g | Eq => k end.
Proof.
  intros Ha Hb. rewrite (Hlt a b), (Hlt b a) by done. cbn [mbind option_bind].
  rewrite (cmp_opp a b) by (by apply HP). by destruct (cmp a b).
Qed.

Lemma doc_lt_cmp (x y : Doc) :
  Forall (λ e, P e.2) x → Forall (λ e, P e.2) y → doc_lt_with lt x y = Some (is_lt (doc_cmp_with cmp x y)).
Proof.
  intros Hx. revert y. induction Hx as [|[ak av] x Ha Hx IH]; intros y Hy; [by destruct Hy|].
  destruct Hy as [|[bk bv] y Hb Hy]; [done|]. cbn [doc_lt_with doc_cmp_with]. simpl in Ha, Hb.
  rewrite !lt_rank_clean by (by apply HP).
  destruct (Z.compare_spec (type_rank av) (type_rank bv)) as [E|E|E].
  - rewrite E, Z.eqb_refl. cbn [negb]. case_bool_decide; [done|].
    rewrite lt_both by done. destruct (cmp av bv); [|done..]. by apply IH.
  - rewrite (proj2 (Z.eqb_neq _ _)) by lia. cbn [negb]. by rewrite (proj2 (Z.ltb_lt _ _)).
  - rewrite (proj2 (Z.eqb_neq _ _)) by lia. cbn [negb]. by rewrite (proj2 (Z.ltb_ge _ _)) by lia.
Qed.

Lemma array_lt_cmp (x y : list Bson) :
  Forall P x → Forall P y → array_lt_with lt x y = Some (is_lt (array_cmp_with cmp x y)).
Proof.
  intros Hx. revert y. induction Hx as [|av x Ha Hx IH]; intros y Hy; [by destruct Hy|].
  destruct Hy as [|bv y Hb Hy]; [done|]. cbn [array_lt_with array_cmp_with].
  rewrite lt_both by done. destruct (cmp av bv); [|done..]. by apply IH.
Qed.
End lists.

Lemma depth_item (x : Bson) a : x ∈ a → (depth x ≤ fold_right (λ x n, max (depth x) n) O a)%nat.
Proof. induction 1; simpl; lia. Qed.

Lemma depth_field (x : bytes * Bson) d :
  x ∈ d → (depth x.2 ≤ fold_right (λ (e : bytes * Bson) n, max (depth e.2) n) O d)%nat.
Proof. induction 1; simpl; lia. Qed.

Definition within (n : nat) (v : Bson) : Prop := clean v ∧ (depth v ≤ n)%nat.

Lemma within_items n a : within (S n) (Array a) → Forall (within n) a.
Proof.
  intros [Hc Hd]. apply Forall_forall. intros x Hx. split; [by eapply clean_item|].
  simpl in Hd. pose proof (depth_item x a Hx). lia.
Qed.

Lemma within_fields n d : within (S n) (Document d) → Forall (λ e : bytes * Bson, within n e.2) d.
Proof.
  intros [Hc Hd]. apply Forall_forall. intros x Hx. split; [by eapply clean_field|].
  simpl in Hd. pose proof (depth_field x d Hx). lia.
Qed.

(** Two values of one rank: strings of either form, numbers, arrays, documents, or
    one leaf constructor. *)
Definition leaf_pair (a b : Bson) : Prop :=
  match a, b with
  | Boolean _, Boolean _ | Null, Null | RegularExpression _ _, RegularExpression _ _ | JavaScriptCode _, JavaScriptCode _
  | Timestamp _ _, Timestamp _ _ | Binary _ _, Binary _ _ | ObjectId _, ObjectId _ | DateTime _, DateTime _
  | MaxKey, MaxKey | MinKey, MinKey => True
  | _, _ => False
  end.

Inductive same_kind : Bson → Bson → Prop :=
  | sk_strings a b x y : str_bytes a = Some x → str_bytes b = Some y → same_kind a b
  | sk_numbers a b : type_rank a = 30 → type_rank b = 30 → same_kind a b
  | sk_arrays x y : same_kind (Array x) (Array y)
  | sk_documents x y :
      str_bytes (Document x) = None → str_bytes (Document y) = None → same_kind (Document x) (Document y)
  | sk_leaves a b : leaf_pair a b → same_kind a b.

Lemma document_kind d : keyable (Document d) → str_bytes (Document d) = None → type_rank (Document d) = 50.
Proof. intros Hk Hs. by destruct (enc_document dec bo d (keyable_raw _ _ Hk) Hs). Qed.

Lemma same_rank_kind a b : clean a → clean b → type_rank a = type_rank b → same_kind a b.
Proof.
  intros [Ha Sa] [Hb Sb] Hr.
  destruct (str_bytes a) as [x|] eqn:Hx.
  { destruct (enc_string dec bo a x (keyable_raw _ a Ha) Hx) as [_ T]. rewrite T in Hr.
    destruct (keyable_rank_40 dec b Hb) as [y Hy]; [done|]. by apply (sk_strings a b x y). }
  destruct (str_bytes b) as [y|] eqn:Hy.
  { destruct (enc_string dec bo b y (keyable_raw _ b Hb) Hy) as [_ T]. rewrite T in Hr.
    destruct (keyable_rank_40 dec a Ha Hr) as [x' Hx']. congruence. }
  assert (∀ d, a = Document d → type_rank a = 50) as Ta by (intros d ->; by apply document_kind).
  assert (∀ d, b = Document d → type_rank b = 50) as Tb by (intros d ->; by apply document_kind).
  destruct a; try discriminate Sa; try discriminate Hx; try (by inversion Ha).
  all: destruct b; try discriminate Sb; try discriminate Hy; try (by inversion Hb).
  all: try (by apply sk_leaves); try (by apply sk_numbers); try (by constructor).
  all: exfalso; try (specialize (Ta _ eq_refl)); try (specialize (Tb _ eq_refl)); rewrite ?Ta, ?Tb in Hr; done.
Qed.

Lemma rank_number_wf a : keyable a → type_rank a = 30 → number_wf dec a.
Proof. intros Ha Hr. by destruct (keyable_number dec bo a Ha Hr). Qed.

Lemma cmp_numbers a b : type_rank a = 30 → type_rank b = 30 → keyable a → keyable b → cmp a b = number_cmp dec a b.
Proof.
  intros Ra Rb Ha Hb. pose proof (rank_number_wf a Ha Ra). pose proof (rank_number_wf b Hb Rb).
  destruct a; try done; destruct b; done.
Qed.

Lemma number_lt a b :
  number_wf dec a → number_wf dec b → scalar_lt dec None a b = Some (is_lt (number_cmp dec a b)).
Proof.
  intros Ha Hb. destruct (classify_number dec a Ha) as [na Hna], (classify_number dec b Hb) as [nb Hnb].
  assert (scalar_lt dec None a b =
    if is_nan_bson dec a || is_nan_bson dec b then Some (is_nan_bson dec a && negb (is_nan_bson dec b))
    else match fast_cmp a b with
         | Some r => Some ⌊r = Some Lt⌋
         | None => match classify dec a, classify dec b with
                   | Some na, Some nb => Some ⌊Numeric.cmp na nb = Some Lt⌋
                   | _, _ => None
                   end
         end) as -> by (destruct a, b; done).
  unfold number_cmp. rewrite Hna, Hnb.
  destruct (is_nan_bson dec a), (is_nan_bson dec b); try done. cbn [orb].
  destruct (fast_cmp a b) as [[[]|]|]; try done. by destruct (Numeric.cmp na nb) as [[]|].
Qed.

Definition is_pointer (v : Bson) : bool := match v with DbPointer _ _ => true | _ => false end.

(** The arms of [bson_lt] on values of one rank. *)
Definition lt_same (lt : Bson → Bson → option bool) (a b : Bson) : option bool :=
  match a, b with
  | Boolean x, Boolean y => Some (is_lt (bool_cmp x y))
  | DateTime x, DateTime y => Some (x <? y)
  | Timestamp t1 i1, Timestamp t2 i2 => Some (is_lt (thn (t1 ?= t2) (i1 ?= i2)))
  | ObjectId x, ObjectId y => Some (is_lt (bcmp x y))
  | Binary s1 b1, Binary s2 b2 => Some (is_lt (bindata_cmp bo s1 b1 s2 b2))
  | JavaScriptCodeWithScope c1 s1, JavaScriptCodeWithScope c2 s2 =>
      Some (is_lt (thn (bcmp c1 c2) (doc_cmp dec bo None s1 s2)))
  | RegularExpression p1 o1, RegularExpression p2 o2 =>
      let k1 := regex_sort_key p1 o1 in let k2 := regex_sort_key p2 o2 in
      Some (is_lt (thn (bcmp k1.1 k2.1) (bcmp k1.2 k2.2)))
  | MinKey, MinKey | MaxKey, MaxKey => Some false
  | Document x, Document y => doc_lt_with lt x y
  | Array x, Array y => array_lt_with lt x y
  | _, _ => scalar_lt dec None a b
  end.

Lemma bson_lt_S n a b :
  is_pointer a = false → is_pointer b = false →
  bson_lt_fuel dec bo None (S n) a b =
  if negb (lt_rank a =? lt_rank b) then Some (lt_rank a <? lt_rank b)
  else if is_nullish a || is_nullish b then Some false
  else match carrier_pair a b with
       | Some (x, y) => Some (is_lt (bcmp x y))
       | None => lt_same (bson_lt_fuel dec bo None n) a b
       end.
Proof. intros Ha Hb. destruct a; try discriminate Ha; destruct b; try discriminate Hb; reflexivity. Qed.

Lemma clean_not_pointer a : clean a → is_pointer a = false.
Proof. intros [Hk _]. by destruct Hk. Qed.

Lemma number_lt_same lt a b :
  keyable a → keyable b → type_rank a = 30 → type_rank b = 30 →
  is_nullish a || is_nullish b = false ∧ carrier_pair a b = None ∧ lt_same lt a b = scalar_lt dec None a b.
Proof.
  intros Ha Hb Ra Rb. pose proof (rank_number_wf a Ha Ra) as Wa. pose proof (rank_number_wf b Hb Rb) as Wb.
  destruct a; try done; destruct b; done.
Qed.

Lemma leaf_lt_same lt a b :
  leaf_pair a b → (if is_nullish a || is_nullish b then Some false else lt_same lt a b) = Some (is_lt (cmp a b)) ∧
  carrier_pair a b = None.
Proof. intros Hl. destruct a; try done; destruct b; done. Qed.

Lemma bson_lt_cmp n a b : within n a → within n b → bson_lt_fuel dec bo None n a b = Some (is_lt (cmp a b)).
Proof.
  revert a b. induction n as [|n IH]; intros a b Ha Hb.
  { destruct Ha as [_ Hd]. by destruct a; simpl in Hd; lia. }
  pose proof Ha as [Hca _]. pose proof Hb as [Hcb _]. pose proof Hca as [Hka _]. pose proof Hcb as [Hkb _].
  rewrite bson_lt_S, !lt_rank_clean by (by eauto using clean_not_pointer).
  destruct (Z.eqb_spec (type_rank a) (type_rank b)) as [E|E]; cbn [negb].
  2: { rewrite cmp_rank_ne by done.
       by destruct (Z.compare_spec (type_rank a) (type_rank b)), (Z.ltb_spec (type_rank a) (type_rank b)); try lia. }
  destruct (same_rank_kind a b Hca Hcb E) as [a b x y Hx Hy|a b Ra Rb|x y|x y Hx Hy|a b Hl].
  - rewrite (cmp_strings dec bo a b x y) by eauto using keyable_raw.
    destruct a; try discriminate Hx; destruct b; try discriminate Hy; cbn [is_nullish orb carrier_pair]; simplify_eq.
    all: try (cbn [str_bytes] in Hx, Hy; simplify_eq; reflexivity).
    all: rewrite ?Hx, ?Hy; cbn [str_bytes] in Hx, Hy |- *; simplify_eq; rewrite ?Hy; reflexivity.
  - rewrite cmp_numbers by done. rewrite <- number_lt by (by apply rank_number_wf).
    destruct (number_lt_same (bson_lt_fuel dec bo None n) a b Hka Hkb Ra Rb) as (-> & -> & ->). done.
  - apply (array_lt_cmp (bson_lt_fuel dec bo None n) (within n)); [done| |by apply within_items..]. by intros ? [].
  - rewrite cmp_documents by eauto using keyable_raw. cbn [is_nullish orb carrier_pair]. rewrite Hx.
    apply (doc_lt_cmp (bson_lt_fuel dec bo None n) (within n)); [done| |by apply within_fields..]. by intros ? [].
  - destruct (leaf_lt_same (bson_lt_fuel dec bo None n) a b Hl) as [<- ->]. done.
Qed.

Lemma order_of_cmp th a b :
  active th = None → clean a → clean b → order_of dec bo th a b = Ok (cmp a b).
Proof.
  intros Ht Ha Hb. unfold order_of, order_lt, bson_lt. rewrite Ht. cbn [fmap option_fmap option_map].
  rewrite !bson_lt_cmp by (split; [done|lia]). cbn [or_defer ok_or mbind outcome_bind].
  rewrite (cmp_opp a b) by (by destruct Ha, Hb). by destruct (cmp a b).
Qed.

(** ** Numbers *)

Lemma fast_numbers a b na nb :
  number_wf dec a → number_wf dec b → classify dec a = Some na → classify dec b = Some nb →
  ∀ r, fast_cmp a b = Some r → r = Numeric.cmp na nb.
Proof.
  intros Ha Hb Hna Hnb r Hf. assert (int_wf a ∧ int_wf b) as [Wa Wb] by (destruct a, b; done).
  destruct (fast_cmp_classify dec a b r Wa Wb Hf) as (? & ? & ? & ? & _ & _ & <-). congruence.
Qed.

Lemma num_cmp_eq na nb :
  is_nan_num na && is_nan_num nb = false → (Numeric.cmp na nb = Some Eq ↔ num_total_cmp na nb = Eq).
Proof.
  intros Hn. split; [apply num_total_cmp_some|]. intros Ht.
  assert (∃ c, Numeric.cmp na nb = Some c) as [c Hc].
  { destruct na, nb; try done; unfold Numeric.cmp; repeat case_match; eauto. }
  rewrite (num_total_cmp_some na nb c Hc) in Ht. by subst.
Qed.

(** The matcher finds two numbers equal exactly when their keys are. *)
Lemma eq_numbers a b :
  number_wf dec a → number_wf dec b → eq_number dec None a b = Ok ⌊number_cmp dec a b = Eq⌋.
Proof.
  intros Ha Hb. destruct (classify_number dec a Ha) as [na Hna], (classify_number dec b Hb) as [nb Hnb].
  rewrite (number_cmp_classify dec a b na nb) by done. unfold eq_number.
  destruct (encode_number_classify dec a na Ha Hna) as (_ & Oa & _ & ->).
  destruct (encode_number_classify dec b nb Hb Hnb) as (_ & Ob & _ & ->).
  destruct (is_nan_num na && is_nan_num nb) eqn:Hn; [by destruct na, nb|].
  assert (⌊Numeric.cmp na nb = Some Eq⌋ = ⌊num_total_cmp na nb = Eq⌋) as <-.
  { apply bool_decide_ext. by apply num_cmp_eq. }
  unfold fast_eq. destruct (fast_cmp a b) as [r|] eqn:Hf.
  - cbn [option_map]. by rewrite (fast_numbers a b na nb Ha Hb Hna Hnb r Hf).
  - cbn [option_map]. rewrite Hna, Hnb. by rewrite (eq_cmp 25000 na nb Oa Ob).
Qed.

Lemma compare_two_numbers th a b na nb :
  number_wf dec a → number_wf dec b → classify dec a = Some na → classify dec b = Some nb →
  compare_numbers dec bo th None a b = Ok (Numeric.cmp na nb).
Proof.
  intros Ha Hb Hna Hnb. unfold compare_numbers. rewrite Hna, Hnb.
  destruct (fast_cmp a b) as [r|] eqn:Hf; [|done]. by rewrite (fast_numbers a b na nb Ha Hb Hna Hnb r Hf).
Qed.

(** ** Equality *)

Lemma array_eq_cmp val exp :
  Forall (λ e, ∀ v, clean v → clean e → eq_scalar dec None v e = Ok true → cmp v e = Eq) exp →
  Forall clean val → Forall clean exp → length val = length exp →
  array_eq_with (eq_scalar dec None) val exp = Ok true → array_cmp_with cmp val exp = Eq.
Proof.
  intros IH Hv He. revert val Hv. induction IH as [|e exp He1 IH IHl]; intros [|v val] Hv Hl; try done.
  apply Forall_cons in Hv as [Hv1 Hv]. apply Forall_cons in He as [He0 He]. injection Hl as Hl.
  cbn [array_eq_with array_cmp_with]. intros ([|] & H1 & H2)%bind_Ok; [|done].
  rewrite (He1 v) by done. by apply IHl.
Qed.

Lemma cmp_eq_rank a b : cmp a b = Eq → type_rank a = type_rank b.
Proof.
  intros E. destruct (decide (type_rank a = type_rank b)) as [|Hn]; [done|].
  rewrite cmp_rank_ne in E by done. by apply Z.compare_eq in E.
Qed.

Lemma doc_eq_cmp (val exp : Doc) :
  Forall (λ e : bytes * Bson, ∀ v, clean v → clean e.2 → eq_scalar dec None v e.2 = Ok true → cmp v e.2 = Eq) exp →
  Forall (λ e : bytes * Bson, clean e.2) val → Forall (λ e : bytes * Bson, clean e.2) exp → length val = length exp →
  doc_eq_with (eq_scalar dec None) val exp = Ok true → doc_cmp_with cmp val exp = Eq.
Proof.
  intros IH Hv He. revert val Hv. induction IH as [|[ke e] exp He1 IH IHl]; intros [|[kv v] val] Hv Hl; try done.
  apply Forall_cons in Hv as [Hv1 Hv]. apply Forall_cons in He as [He0 He]. injection Hl as Hl.
  cbn [doc_eq_with doc_cmp_with]. case_bool_decide as Hk; [done|]. simpl in *.
  intros ([|] & H1 & H2)%bind_Ok; [|done]. pose proof (He1 v Hv1 He0 H1) as E.
  rewrite (cmp_eq_rank v e E), Z.compare_refl. rewrite E. by apply IHl.
Qed.

(** A carried string is one field, a binary. *)
Lemma str_bytes_document d x : str_bytes (Document d) = Some x → d = [(INVALID_UTF8_KEY, Binary 0 x)].
Proof.
  cbn. intros Hs. destruct d as [|[k v] [|]]; try done; destruct v; try done. cbn in Hs.
  case_bool_decide; [|done]. destruct (Z.eqb_spec subtype 0); [|done]. simplify_eq/=. done.
Qed.

(** Neither side a number: what is left of the plain comparison. *)
Lemma eq_number_other coll v e :
  is_number v && is_number e = false → eq_number dec coll v e = eq_other coll v e.
Proof.
  intros Hn. unfold eq_number.
  assert (is_nan_bson dec v && is_nan_bson dec e = false) as ->.
  { destruct v; try done; destruct e; try done; cbn; by rewrite ?andb_false_r. }
  by destruct v; try done; destruct e.
Qed.

Lemma eq_binary v s b : eq_scalar dec None v (Binary s b) = Ok true → v = Binary s b.
Proof.
  intros E. destruct v; try discriminate E; cbn -[eq_number] in E; rewrite eq_number_other in E by done; try discriminate E.
  apply Ok_inj, andb_true_iff in E as [->%Z.eqb_eq ->%bool_decide_eq_true]. done.
Qed.

Lemma binary_eq e s b : eq_scalar dec None (Binary s b) e = Ok true → e = Binary s b.
Proof.
  intros E. destruct e; try discriminate E; cbn -[eq_number] in E; rewrite eq_number_other in E by done; try discriminate E.
  apply Ok_inj, andb_true_iff in E as [->%Z.eqb_eq ->%bool_decide_eq_true]. done.
Qed.

Lemma doc_eq_carrier val exp :
  length val = length exp → doc_eq_with (eq_scalar dec None) val exp = Ok true →
  (is_Some (str_bytes (Document val)) ∨ is_Some (str_bytes (Document exp))) → val = exp.
Proof.
  intros Hl He [[x Hx%str_bytes_document]|[x Hx%str_bytes_document]]; subst.
  - destruct exp as [|[k e] [|]]; try done. cbn [doc_eq_with] in He. case_bool_decide as Hk; [done|].
    subst k. apply bind_Ok in He as ([|] & He & H'); [|discriminate H']. by apply binary_eq in He as ->.
  - destruct val as [|[k e] [|]]; try done. cbn [doc_eq_with] in He. case_bool_decide as Hk; [done|].
    subst k. apply bind_Ok in He as ([|] & He & H'); [|discriminate H']. by apply eq_binary in He as ->.
Qed.

Lemma cmp_refl a : keyable a → cmp a a = Eq.
Proof.
  intros Ha. destruct (enc_total dec bo Hbo a Ha) as [k Ek].
  destruct (key_order dec bo Hbo a a k k Ha Ha Ek Ek) as (<- & _). apply bcmp_refl.
Qed.

Lemma clean_items a : clean (Array a) → Forall clean a.
Proof. intros Hc. apply Forall_forall. intros e. by apply clean_item. Qed.

Lemma clean_fields d : clean (Document d) → Forall (λ e : bytes * Bson, clean e.2) d.
Proof. intros Hc. apply Forall_forall. intros e. by apply clean_field. Qed.

Definition is_compound (v : Bson) : bool := match v with Array _ | Document _ => true | _ => false end.

(** A leaf operand. *)
Lemma eq_leaf_cmp v e :
  clean v → clean e → is_compound e = false → eq_scalar dec None v e = Ok true → cmp v e = Eq.
Proof.
  intros [Hv Sv] [He Se] Hc Heq.
  destruct (is_number v && is_number e) eqn:Hn.
  - apply andb_true_iff in Hn as [Nv Ne].
    assert (type_rank v = 30 ∧ type_rank e = 30) as [Rv Re] by (split; [by destruct v|by destruct e]).
    assert (eq_scalar dec None v e = eq_number dec None v e) as E by (by destruct e; try done; destruct v).
    rewrite cmp_numbers by done. rewrite E, eq_numbers in Heq by (by apply rank_number_wf).
    by apply Ok_inj, bool_decide_eq_true in Heq.
  - destruct e; try discriminate Hc; try discriminate Se; try (by inversion He); destruct v; try discriminate Sv;
      try discriminate Heq; try (by inversion Hv).
    all: cbn -[eq_number] in Heq; rewrite ?eq_number_other in Heq by done; try discriminate Heq; apply Ok_inj in Heq.
    + apply bool_decide_eq_true in Heq as ->. by apply cmp_refl.
    + apply Bool.eqb_prop in Heq as ->. by apply cmp_refl.
    + apply andb_true_iff in Heq as [->%bool_decide_eq_true Ho%bool_decide_eq_true].
      change (thn (bcmp pattern pattern) (bcmp (regex_sort_key pattern options0).2 (regex_sort_key pattern options).2) = Eq).
      rewrite bcmp_refl. unfold regex_sort_key. cbn [snd thn]. rewrite Ho. apply bcmp_refl.
    + apply bool_decide_eq_true in Heq as ->. by apply cmp_refl.
    + apply andb_true_iff in Heq as [->%Z.eqb_eq ->%Z.eqb_eq]. by apply cmp_refl.
    + apply andb_true_iff in Heq as [->%Z.eqb_eq ->%bool_decide_eq_true]. by apply cmp_refl.
    + apply bool_decide_eq_true in Heq as ->. by apply cmp_refl.
    + apply Z.eqb_eq in Heq as ->. by apply cmp_refl.
Qed.

(** What the matcher finds equal has equal keys. *)
Lemma eq_scalar_cmp v e : clean v → clean e → eq_scalar dec None v e = Ok true → cmp v e = Eq.
Proof.
  revert e v. apply (bson_ind_nested (λ e, ∀ v, clean v → clean e → eq_scalar dec None v e = Ok true → cmp v e = Eq)).
  - intros exp IH v Hv He Heq. destruct v as [| |val| | | | | | | | | | | | | | | | | |]; try discriminate Heq. cbn [eq_scalar] in Heq.
    case_bool_decide as Hl; [done|]. apply (array_eq_cmp val exp IH); eauto using clean_items.
  - intros exp IH v Hv He Heq. destruct v as [| | |val| | | | | | | | | | | | | | | | |]; try discriminate Heq. cbn [eq_scalar] in Heq.
    case_bool_decide as Hl; [done|].
    destruct (decide (is_Some (str_bytes (Document val)) ∨ is_Some (str_bytes (Document exp)))) as [Hc|Hc].
    { rewrite (doc_eq_carrier val exp) by done. by apply cmp_refl; destruct He. }
    assert (str_bytes (Document val) = None ∧ str_bytes (Document exp) = None) as [Hsv Hse].
    { rewrite !eq_None_not_Some. tauto. }
    rewrite cmp_documents by (done || by eapply keyable_raw; destruct Hv, He).
    apply (doc_eq_cmp val exp IH); eauto using clean_fields.
  - by intros c d IH v Hv [].
  - intros e. destruct e; try exact I; intros v Hv He Heq; by apply eq_leaf_cmp.
Qed.

(** ** Comparison *)

(** The matcher's order of two values of one rank, but for NaN, is [cmp]'s; it
    orders none of two ranks. [target] is no bound of the cross-type order. *)
Definition range_bound (t : Bson) : bool :=
  match t with
  | MinKey | MaxKey | Null | Array _ | RegularExpression _ _ => false
  | _ => true
  end.

Lemma compare_other th v t :
  is_number v && is_number t = false → as_invalid_utf8 v = None → as_invalid_utf8 t = None →
  compare_numbers dec bo th None v t = compare_structural dec bo th None v t.
Proof.
  intros Hn Hv Ht. unfold compare_numbers, compare_text.
  assert (fast_cmp v t = None ∧ (classify dec v = None ∨ classify dec t = None)) as (-> & Hc).
  { destruct v; try (split; [|left]; done); destruct t; (split; [done|]); try discriminate Hn; by right. }
  assert (carrier_pair v t = None) as Hp.
  { destruct v, t; try done; cbn in *; rewrite ?Hv, ?Ht; done. }
  rewrite Hp. by destruct (classify dec v), (classify dec t); destruct Hc.
Qed.

Definition is_boolean (v : Bson) : bool := match v with Boolean _ => true | _ => false end.

Lemma compare_not_boolean th coll v t :
  range_bound t = true → is_boolean v || is_boolean t = false →
  compare_values dec bo th coll v t = compare_numbers dec bo th coll v t.
Proof. intros Hb Hn. destruct t; try discriminate Hb; destruct v; try discriminate Hn; reflexivity. Qed.

Lemma compare_ranks th v t :
  clean v → clean t → range_bound t = true → type_rank v ≠ type_rank t → compare_values dec bo th None v t = Ok None.
Proof.
  intros Hv Ht Hb Hr. pose proof (clean_utf8 v Hv) as Uv. pose proof (clean_utf8 t Ht) as Ut.
  assert (is_number v && is_number t = false) as Hn.
  { apply not_true_is_false. intros [Nv Nt]%andb_true_iff. apply Hr. destruct v; try done; by destruct t. }
  assert (∀ d d', v = Document d → t = Document d' → False) as Hd.
  { intros d d' -> ->. apply Hr. destruct Hv, Ht. by rewrite !document_kind. }
  destruct Hv as [Kv Sv], Ht as [Kt St].
  destruct (is_boolean v || is_boolean t) eqn:Hbool.
  { destruct t; try discriminate Hb; destruct v; try discriminate Hbool; try reflexivity. by destruct Hr. }
  rewrite compare_not_boolean, compare_other by done.
  destruct t; try discriminate Hb; try discriminate St; try (by inversion Kt);
    destruct v; try discriminate Sv; try (by inversion Kv); try discriminate Hn; try (by destruct Hr);
    try (by destruct (Hd _ _ eq_refl eq_refl)); reflexivity.
Qed.

Lemma compare_same th v t :
  active th = None → clean v → clean t → range_bound t = true → type_rank v = type_rank t →
  compare_values dec bo th None v t = Ok (Some (cmp v t)) ∨
  (compare_values dec bo th None v t = Ok None ∧ is_nan_bson dec v || is_nan_bson dec t = true).
Proof.
  intros Hth Hv Ht Hb Hr. pose proof (clean_utf8 v Hv) as Uv. pose proof (clean_utf8 t Ht) as Ut.
  destruct (same_rank_kind v t Hv Ht Hr) as [v t x y Hx Hy|v t Rv Rt|x y|x y Hx Hy|v t Hl]; try discriminate Hb.
  - left. rewrite (cmp_strings dec bo v t x y) by (done || by eapply keyable_raw; destruct Hv, Ht).
    destruct v; try discriminate Hx; destruct t; try discriminate Hy; cbn in Hx, Hy, Uv, Ut; simplify_eq; reflexivity.
  - destruct Hv as [Kv _], Ht as [Kt _]. pose proof (rank_number_wf v Kv Rv) as Wv. pose proof (rank_number_wf t Kt Rt) as Wt.
    destruct (classify_number dec v Wv) as [nv Hnv], (classify_number dec t Wt) as [nt Hnt].
    assert (compare_values dec bo th None v t = compare_numbers dec bo th None v t) as -> by (destruct v; try done; by destruct t).
    rewrite (compare_two_numbers th v t nv nt), cmp_numbers, (number_cmp_classify dec v t nv nt) by done.
    destruct (encode_number_classify dec v nv Wv Hnv) as (_ & _ & _ & ->).
    destruct (encode_number_classify dec t nt Wt Hnt) as (_ & _ & _ & ->).
    destruct (Numeric.cmp nv nt) as [c|] eqn:Hc; [left; by rewrite (num_total_cmp_some nv nt c Hc)|].
    right. split; [done|]. destruct nv, nt; try done; unfold Numeric.cmp in Hc; repeat case_match; done.
  - left. transitivity (o ← order_of dec bo th (Document x) (Document y); Ok (Some o) : R _).
    + change (compare_numbers dec bo th None (Document x) (Document y) = o ← order_of dec bo th (Document x) (Document y); Ok (Some o)).
      by rewrite compare_other.
    + by rewrite order_of_cmp.
  - left. destruct v; try done; destruct t; try done.
Qed.

(** ** Evaluation returns *)

End facts.

Section total.
Context (dec : bytes → bytes) (bo : BinDataOrder) `{Engines}.
Context (Hnear : ∀ d, returns (geo_near d)) (Hwithin : ∀ c a o, returns (geo_within c a o)).
Context (Hinter : ∀ c a, returns (geo_intersects c a)) (Hexpr : ∀ c d e v, returns (evaluate_truthy c d e v)).
Context (Hschema : ∀ c d, returns (json_schema c d)).

Lemma any_ok_returns {A} (f : A → R bool) l : (∀ x, x ∈ l → returns (f x)) → returns (any_ok f l).
Proof.
  induction l as [|x l IH]; intros Hf; [done|]. apply returns_bind; [apply Hf; left|]. intros [|] _; [done|].
  apply IH. intros y Hy. apply Hf. by right.
Qed.

Lemma all_ok_returns {A} (f : A → R bool) l : (∀ x, x ∈ l → returns (f x)) → returns (all_ok f l).
Proof.
  induction l as [|x l IH]; intros Hf; [done|]. apply returns_bind; [apply Hf; left|]. intros [|] _; [|done].
  apply IH. intros y Hy. apply Hf. by right.
Qed.

Lemma each_ok_returns {A} (f : A → R ()) l : (∀ x, x ∈ l → returns (f x)) → returns (each_ok f l).
Proof.
  induction l as [|x l IH]; intros Hf; [done|]. apply returns_bind; [apply Hf; left|]. intros _ _.
  apply IH. intros y Hy. apply Hf. by right.
Qed.

(** Close a goal that is a value or an error as it stands. *)
Ltac ret := lazymatch goal with
  | |- True => exact I
  | |- returns (Ok _) => exact I
  | |- returns (Err _) => exact I
  | |- returns (mongo _ _) => exact I
  end.

Lemma or_defer_returns {A} (o : option A) : returns (or_defer o).
Proof. by destruct o. Qed.

Lemma text_eq_returns coll x y : returns (text_eq coll x y).
Proof. destruct coll; [apply or_defer_returns|done]. Qed.

Lemma eq_plain_returns coll v e : returns (eq_plain dec coll v e).
Proof.
  assert (returns (eq_other coll v e)) as Ho.
  { destruct v; destruct e; cbn [eq_other]; first [ret|apply text_eq_returns]. }
  assert (returns (eq_number dec coll v e)) as Hn by (unfold eq_number; repeat case_match; first [ret|exact Ho]).
  destruct v; destruct e; cbn [eq_plain]; first [ret|exact Hn].
Qed.

Lemma eq_scalar_returns coll v e : returns (eq_scalar dec coll v e).
Proof.
  revert e v. apply (bson_ind_nested (λ e, ∀ v, returns (eq_scalar dec coll v e))).
  - intros exp IH v. destruct v as [| |val| | | | | | | | | | | | | | | | | |]; try exact I. cbn [eq_scalar].
    case_bool_decide; [exact I|]. clear -IH. revert val. induction IH as [|e exp He IH IHl]; intros [|v val]; try exact I.
    cbn [array_eq_with]. apply returns_bind; [apply He|]. intros [|] _; [apply IHl|exact I].
  - intros exp IH v. destruct v as [| | |val| | | | | | | | | | | | | | | | |]; try exact I. cbn [eq_scalar].
    case_bool_decide; [exact I|]. clear -IH. revert val. induction IH as [|[ke e] exp He IH IHl]; intros [|[kv v] val]; try exact I.
    cbn [doc_eq_with]. case_bool_decide; [exact I|]. apply returns_bind; [apply He|]. intros [|] _; [apply IHl|exact I].
  - intros c d _ v. by destruct v.
  - intros e. destruct e; try exact I; intros v; destruct v; cbn [eq_scalar is_exotic];
      
      lazymatch goal with
      | |- returns (eq_plain _ _ _ _) => apply eq_plain_returns
      | |- returns (text_eq _ _ _) => apply text_eq_returns
      | |- _ => ret
      end.
Qed.

Lemma eq_with_array_returns values e coll descend : returns (eq_with_array dec values e coll descend).
Proof.
  apply any_ok_returns. intros c _. case_match; [|exact I]. apply returns_bind; [apply eq_scalar_returns|].
  intros [|] _; [exact I|]. apply any_ok_returns. intros x _. apply eq_scalar_returns.
Qed.

Lemma order_of_returns th a b : returns (order_of dec bo th a b).
Proof.
  apply returns_bind; [apply or_defer_returns|]. intros [|] _; [exact I|].
  apply returns_bind; [apply or_defer_returns|]. intros; exact I.
Qed.

Lemma array_order_returns th xs ys : returns (array_order dec bo th xs ys).
Proof.
  revert ys. induction xs as [|x xs IH]; intros [|y ys]; try exact I. cbn [array_order].
  apply returns_bind; [apply order_of_returns|]. intros [] _; [apply IH|exact I..].
Qed.

Lemma text_cmp_returns coll x y : returns (text_cmp coll x y).
Proof. destruct coll; [|exact I]. apply returns_bind; [apply or_defer_returns|]. intros; exact I. Qed.

Lemma compare_structural_returns th coll a b : returns (compare_structural dec bo th coll a b).
Proof.
  assert (returns (compare_exotic dec bo th coll a b)) as He.
  { assert (returns (match string_text a, string_text b with Some x, Some y => text_cmp coll x y | _, _ => Ok None end)) as Ht.
    { repeat case_match; first [ret|apply text_cmp_returns]. }
    destruct a; destruct b; cbn [compare_exotic]; first [ret|exact Ht]. }
  destruct a; destruct b; cbn [compare_structural is_exotic orb];
    lazymatch goal with
    | |- returns (Ok _) => exact I
    | |- returns (compare_exotic _ _ _ _ _ _) => exact He
    | |- _ => idtac
    end.
  - apply returns_bind; [apply array_order_returns|]. intros; ret.
  - apply returns_bind; [apply order_of_returns|]. intros; ret.
Qed.

Lemma compare_values_returns th coll a b : returns (compare_values dec bo th coll a b).
Proof.
  assert (returns (o ← order_of dec bo th a b; Ok (Some o) : R (option comparison))) as Ho.
  { apply returns_bind; [apply order_of_returns|]. intros; ret. }
  assert (∀ (o : option comparison), returns (o ← or_defer o; Ok (Some o) : R (option comparison))) as Hd by (by intros []).
  assert (returns (compare_text dec bo th coll a b)) as Ht.
  { unfold compare_text. repeat case_match; first [ret|apply Hd|apply compare_structural_returns]. }
  assert (returns (compare_numbers dec bo th coll a b)) as Hn.
  { unfold compare_numbers. repeat case_match;
      lazymatch goal with
      | |- returns (compare_text _ _ _ _ _ _) => exact Ht
      | |- returns (Ok _) => exact I
      | |- _ => apply Hd
      end. }
  destruct a; destruct b; cbn [compare_values];
    lazymatch goal with
    | |- returns (compare_numbers _ _ _ _ _ _) => exact Hn
    | |- returns (Ok _) => exact I
    | |- _ => exact Ho
    end.
Qed.

Lemma cmp_op_returns th values target coll pred descend : returns (cmp_op dec bo th values target coll pred descend).
Proof.
  assert (∀ v, returns (o ← compare_values dec bo th coll v target; Ok (match o with Some o => pred o | None => false end) : R bool)) as Hh.
  { intros v. apply returns_bind; [apply compare_values_returns|]. intros; exact I. }
  apply any_ok_returns. intros c _. apply returns_bind; [exact (Hh _)|]. intros [|] _; [ret|].
  apply any_ok_returns. intros x _. exact (Hh x).
Qed.

Lemma op_type_returns values spec field descend : returns (op_type dec values spec field descend).
Proof.
  assert (∀ s, returns (type_spec_valid dec s)) as Hs.
  { intros s. unfold type_spec_valid, invalid_type_code. repeat case_match; ret. }
  assert (∀ l, returns (_ ← each_ok (type_spec_valid dec) l;
    Ok (any_value (λ v, existsb (matches_type dec v) l) descend values) : R bool)) as Hl.
  { intros l. apply returns_bind; [by apply each_ok_returns|]. intros; ret. }
  unfold op_type. repeat case_match; first [ret|apply Hl].
Qed.

Lemma op_regex_returns values pattern options descend : returns (op_regex values pattern options descend).
Proof. unfold op_regex, mongo. repeat case_match; exact I. Qed.

Lemma op_in_returns th values arr coll descend : returns (op_in dec bo th values arr coll descend).
Proof.
  unfold op_in. case_match; [exact I|]. apply returns_bind; [unfold in_elements_ok, mongo; by case_match|].
  intros _ _. apply any_ok_returns. intros x _. unfold in_candidate_matches.
  destruct x; try apply eq_with_array_returns. apply op_regex_returns.
Qed.

Lemma coerce_returns v label : match coerce_int64_argument dec v label with Some r => returns r | None => True end.
Proof. unfold coerce_int64_argument, mongo. repeat case_match; simplify_eq; exact I. Qed.

Lemma op_size_returns values size : returns (op_size dec values size).
Proof.
  apply returns_bind; [|intros; exact I]. apply returns_bind.
  - pose proof (coerce_returns size (lit "$size")) as Hc. unfold mongo. by repeat case_match.
  - intros n _. unfold mongo. repeat case_match; exact I.
Qed.

Lemma element_in_range {A} (l : list A) i : (i < length l)%nat → ∃ x, element l i = Ok x.
Proof. intros [x Hx]%lookup_lt_is_Some_2. exists x. unfold element. by rewrite Hx. Qed.

Lemma mod_check_returns div rem v : div ≠ 0 → returns (mod_check dec div rem v).
Proof. intros Hd%Z.eqb_neq. unfold mod_check, wrapping_rem. rewrite Hd. case_match; exact I. Qed.

Lemma op_mod_returns values spec descend : returns (op_mod dec values spec descend).
Proof.
  assert (∀ v w, returns (mod_argument dec v w)) as Hm.
  { intros v w. unfold mod_argument, ok_or, mongo. repeat case_match; exact I. }
  unfold op_mod, mongo. destruct spec as [| |arr| | | | | | | | | | | | | | | | | |]; try exact I.
  destruct (bool_decide_reflect (length arr < 2)%nat) as [|Hl]; [exact I|].
  destruct (element_in_range arr 0) as [d ->]; [lia|]. destruct (element_in_range arr 1) as [r Hr]; [lia|].
  cbn [mbind outcome_bind]. case_match; [exact I|]. rewrite Hr. cbn [mbind outcome_bind]. do 2 (case_match; [exact I|]).
  apply returns_bind; [apply Hm|]. intros div _. apply returns_bind; [apply Hm|]. intros rem _.
  destruct (Z.eqb_spec div 0) as [|Hd]; [exact I|]. apply any_ok_returns. intros c _.
  destruct (value c) as [v|]; [|exact I]. apply returns_bind; [by apply mod_check_returns|]. intros b _. destruct b; [exact I|].
  apply any_ok_returns. intros e _. by apply mod_check_returns.
Qed.

Lemma op_bits_returns values arg want all op field descend : returns (op_bits dec values arg want all op field descend).
Proof.
  assert (∀ a i, returns (bit_positions dec i a)) as Hp.
  { induction a as [|b a IH]; intros i; [exact I|]. apply returns_bind.
    - apply returns_bind.
      + pose proof (coerce_returns b (dec_bytes (Z.of_nat i))) as Hc. unfold mongo. by repeat case_match.
      + intros n _. unfold mongo. repeat case_match; exact I.
    - intros n _. apply returns_bind; [apply IH|]. intros; exact I. }
  apply returns_bind; [|intros; exact I]. unfold resolve_bitmask.
  assert (returns (mask ← match coerce_int64_argument dec arg op with
             | None => mongo 2 (field ++ lit " takes an Array, a number, or a BinData but received: " ++ op ++ lit ": "
                                ++ value_repr arg)
             | Some r => r
             end;
      if mask <? 0 then mongo 9 (lit "Expected a non-negative number in: " ++ op ++ lit ": " ++ value_repr arg)
      else Ok (BitsNum mask))) as Hn.
  { apply returns_bind.
    - pose proof (coerce_returns arg op) as Hc. by case_match.
    - intros n _. unfold mongo. case_match; exact I. }
  destruct arg; try exact Hn; try exact I. apply returns_bind; [apply Hp|]. intros; exact I.
Qed.

Lemma depth_field_lt (e : bytes * Bson) d : e ∈ d → (depth e.2 < depth (Document d))%nat.
Proof. intros He. pose proof (depth_field e d He). simpl. lia. Qed.

Lemma depth_item_lt (e : Bson) a : e ∈ a → (depth e < depth (Array a))%nat.
Proof. intros He. pose proof (depth_item e a He). simpl. lia. Qed.

Lemma elem_check_returns cond : returns (elem_match_object_check cond).
Proof.
  remember (depth cond) as n eqn:Hn. assert (depth cond ≤ n)%nat as Hd by lia. clear Hn.
  revert cond Hd. induction n as [|n IH]; intros cond Hd; [destruct cond; simpl in Hd; lia|].
  destruct cond as [| | |d| | | | | | | | | | | | | | | | |]; try exact I. cbn [elem_match_object_check].
  apply each_ok_returns. intros [k v] He. pose proof (depth_field_lt _ _ He) as Hlt. cbn [fst snd] in *.
  case_match; [ret|]. case_match; [|ret].
  destruct v as [| |arr| | | | | | | | | | | | | | | | | |]; try ret. destruct arr as [|x arr]; [ret|].
  apply each_ok_returns. intros entry Hx%depth_item_lt. destruct entry; try ret. apply IH. lia.
Qed.

Lemma negate_returns r : returns r → returns (negate r).
Proof. intros Hr. apply returns_bind; [done|]. intros; ret. Qed.

Section conditions.
Context (n : nat) (field_rec : Thread → list Cand → Bson → option Collation → bytes → bool → R bool).
Context (matches_rec : Thread → Doc → Doc → Doc → option Collation → R bool).
Context (Hfield : ∀ th values cond coll field descend,
  (depth cond ≤ n)%nat → returns (field_rec th values cond coll field descend)).
Context (Hmatches : ∀ th doc query vars coll,
  (depth (Document query) ≤ n)%nat → returns (matches_rec th doc query vars coll)).

Lemma op_elem_match_returns th values cond field :
  (depth cond ≤ n)%nat → returns (op_elem_match field_rec matches_rec th values cond field).
Proof.
  intros Hd. destruct cond as [| | |condd| | | | | | | | | | | | | | | | |]; try exact I. unfold op_elem_match.
  apply returns_bind; [case_match; [ret|apply elem_check_returns]|]. intros _ _.
  apply any_ok_returns. intros c _. repeat case_match; try ret. apply any_ok_returns. intros elem _.
  unfold elem_match_one. case_match; [by apply Hfield|]. destruct elem; try ret; by apply Hmatches.
Qed.

Lemma op_all_returns th values required coll field descend :
  (depth required ≤ n)%nat → returns (op_all dec field_rec matches_rec th values required coll field descend).
Proof.
  intros Hd. destruct required as [| |arr| | | | | | | | | | | | | | | | | |]; try exact I.
  unfold op_all. destruct (bool_decide_reflect (arr = [])) as [|Hne]; [exact I|].
  destruct (element_in_range arr 0) as [first ->]; [destruct arr; [done|cbn; lia]|]. cbn [mbind outcome_bind]. apply returns_bind.
  - repeat case_match; try ret. apply each_ok_returns. intros r _. repeat case_match; ret.
  - intros _ _. apply all_ok_returns. intros r Hr%depth_item_lt. unfold all_holds.
    destruct r as [| | |d| | | | | | | | | | | | | | | | |]; try apply eq_with_array_returns; [|apply op_regex_returns].
    case_match; [|apply eq_with_array_returns].
    destruct (doc_get d (lit "$elemMatch")) as [v|] eqn:Hg; [|exact I]. cbn [default from_option id].
    apply op_elem_match_returns. apply doc_get_elem, depth_field_lt in Hg. cbn [snd] in Hg. lia.
Qed.

Lemma op_matches_returns th values op arg coll field descend :
  (depth arg ≤ n)%nat → returns (op_matches dec bo field_rec matches_rec th values op arg coll field descend).
Proof.
  intros Hd. unfold op_matches. apply returns_bind; [unfold operand_ok; repeat case_match; ret|]. intros _ _.
  repeat (case_match; [|]); lazymatch goal with
    | |- returns (Ok _) => exact I
    | |- returns (Err _) => exact I
    | |- returns (mongo _ _) => exact I
    | |- returns (eq_with_array _ _ _ _ _) => apply eq_with_array_returns
    | |- returns (cmp_op _ _ _ _ _ _ _ _) => apply cmp_op_returns
    | |- returns (op_type _ _ _ _ _) => apply op_type_returns
    | |- returns (op_size _ _ _) => apply op_size_returns
    | |- returns (op_mod _ _ _ _) => apply op_mod_returns
    | |- returns (op_bits _ _ _ _ _ _ _ _) => apply op_bits_returns
    | |- returns (op_all _ _ _ _ _ _ _ _ _) => by apply op_all_returns
    | |- returns (negate (eq_with_array _ _ _ _ _)) => apply negate_returns, eq_with_array_returns
    | |- _ => idtac
    end.
  - destruct arg; try ret. apply op_in_returns.
  - destruct arg; try ret. apply negate_returns, op_in_returns.
  - apply returns_bind; [unfold not_argument_ok; repeat case_match; try ret|].
    + apply each_ok_returns. intros e _. case_match; ret.
    + intros _ _. by apply negate_returns, Hfield.
  - destruct arg; try ret. by apply op_elem_match_returns.
  - apply Hwithin.
  - apply Hinter.
  - apply returns_bind; [apply Hnear|]. intros; ret.
Qed.

Lemma regex_pair_returns d : returns (regex_pair_ok d).
Proof.
  assert (∀ l, returns (regex_flags_ok l)) as Hf by (intros l; unfold regex_flags_ok; case_match; ret).
  apply returns_bind.
  - case_match; [|ret]. case_match; [ret|]. apply returns_bind; [unfold regex_options_ok; case_match; first [ret|apply Hf]|].
    intros _ _. repeat case_match; ret.
  - intros _ _. repeat case_match; first [ret|apply Hf].
Qed.

Lemma field_with_returns th values cond coll field descend :
  (depth cond ≤ S n)%nat → returns (field_matches_with dec bo field_rec matches_rec th values cond coll field descend).
Proof.
  intros Hd. destruct cond as [| | |d| | |p o| | | | | | | | | | | | | |]; try apply eq_with_array_returns.
  - cbn [field_matches_with]. case_match; [|apply eq_with_array_returns].
    apply returns_bind; [apply regex_pair_returns|]. intros _ _. apply returns_bind; [apply Hnear|].
    intros [near|] _; [ret|]. apply all_ok_returns. intros [op arg] He%depth_field_lt. cbn [fst snd] in *.
    case_match; [ret|]. case_match; [apply op_regex_returns|]. apply op_matches_returns. lia.
  - cbn [field_matches_with]. apply returns_bind; [unfold regex_flags_ok; case_match; ret|].
    intros _ _. apply op_regex_returns.
  - exact I.
Qed.

Lemma by_value_depth list_ items : by_value_list list_ = Some items → (depth (Array items) ≤ depth list_)%nat.
Proof.
  unfold by_value_list. intros Hv. repeat case_match; simplify_eq; [lia|]. simpl. lia.
Qed.

Lemma expr_by_value_returns doc expr vars coll :
  (depth expr ≤ n)%nat → returns (expr_in_by_value matches_rec doc expr vars coll).
Proof.
  remember (depth expr) as m eqn:Hm. assert (depth expr ≤ m)%nat as Hd by lia. intros Hn. clear Hm. 
  revert expr Hd. induction m as [|m IH]; intros expr Hd; [destruct expr; simpl in Hd; lia|].
  destruct expr as [| | |e| | | | | | | | | | | | | | | | |]; try (destruct coll; exact I). destruct coll as [c|]; [|exact I].
  cbn [expr_in_by_value].
  set (get := fix get (d : Doc) : option (R bool) := _).
  assert (∀ d, Forall (λ x : bytes * Bson, (depth x.2 ≤ m)%nat) d → match get d with Some r => returns r | None => True end) as Hget.
  { intros d Hds. induction Hds as [|[k v] d Hv Hds IHd]; [exact I|]. cbn [get]. case_bool_decide; [|exact IHd].
    destruct v as [| |parts| | | | | | | | | | | | | | | | | |]; try exact I.
    apply all_ok_returns. intros p Hp%depth_item_lt. cbn [snd] in Hv. apply IH; lia. }
  specialize (Hget e). destruct (get e) as [r|].
  { apply Hget. apply Forall_forall. intros x Hx%depth_field_lt. lia. }
  clear Hget get IH. unfold by_value_path. repeat case_match; try ret.
  all: apply Hmatches; match goal with Hb : by_value_list _ = Some _ |- _ => apply by_value_depth in Hb end.
  all: simpl in *; lia.
Qed.

Lemma match_clause_returns th doc key cond vars coll :
  (depth cond ≤ n)%nat → returns (match_clause dec field_rec matches_rec th doc key cond vars coll).
Proof.
  intros Hd.
  assert (∀ arr x, doc_op_array key cond = Ok arr → x ∈ arr →
    returns (d ← as_doc_entry key x; matches_rec th doc d vars coll)) as Hb.
  { intros arr x Ha Hx. destruct cond as [| |a| | | | | | | | | | | | | | | | | |]; try discriminate Ha.
    assert (a = arr) as -> by (destruct a; by simplify_eq/=). apply depth_item_lt in Hx.
    destruct x; try exact I. apply Hmatches. lia. }
  assert (returns (doc_op_array key cond)) as Ha by (unfold doc_op_array; repeat case_match; ret).
  unfold match_clause. repeat (case_match; [|]); lazymatch goal with
    | |- returns (Ok _) => exact I
    | |- returns (Err _) => exact I
    | |- returns (mongo _ _) => exact I
    | |- _ => idtac
    end.
  - apply returns_bind; [done|]. intros arr Harr. apply all_ok_returns. eauto.
  - apply returns_bind; [done|]. intros arr Harr. apply any_ok_returns. eauto.
  - apply returns_bind; [done|]. intros arr Harr. apply negate_returns, any_ok_returns. eauto.
  - apply returns_bind; [apply Hexpr|]. intros [|] _; [by apply expr_by_value_returns|ret].
  - apply returns_bind; [apply Hexpr|]. intros [|] _; [by apply expr_by_value_returns|ret].
  - apply Hschema.
  - by apply Hfield.
Qed.
End conditions.

Lemma fuel_returns n :
  (∀ th values cond coll field descend,
    (depth cond ≤ n)%nat → returns (field_fuel dec bo n th values cond coll field descend)) ∧
  (∀ th doc query vars coll,
    (depth (Document query) ≤ n)%nat → returns (matches_fuel dec bo n th doc query vars coll)).
Proof.
  induction n as [|n [IHf IHm]].
  { split; [intros ? ? c ? ? ? Hd; destruct c; simpl in Hd; lia|intros; simpl in *; lia]. }
  split.
  - intros th values cond coll field descend Hd. by apply (field_with_returns n).
  - intros th doc query vars coll Hd. apply all_ok_returns. intros e He%depth_field_lt.
    apply (match_clause_returns n); [done|done|lia].
Qed.
End total.
