(* ===== verification/QueryProps.v ===== *)
(** * Properties of the matcher

    Evaluation of any filter over any document returns; a [$in] list answered from
    its hashed keys is answered as its elements would be. *)
From stdpp Require Import strings.
From S2P Require Import Prelude RustM Bson Lex Docs Paths Numeric NumericFacts Order SortKey SortKeyNum.
From S2P Require Import SortKeyFacts Decimal Query QueryFacts.
Local Open Scope Z_scope.
Local Open Scope secantus_scope.

(** ** Hashed lists *)

Section hashed.
Context (dec : bytes → bytes) (bo : BinDataOrder) (Hbo : bo ≠ Format4) `{Engines}.

Local Abbreviation cmp := (Order.cmp dec bo None).
Local Abbreviation enc := (encode_value dec bo None).
Local Abbreviation keyable := (SortKeyFacts.keyable dec).

Lemma bcmp_eq_decide x y : ⌊x = y⌋ = ⌊bcmp x y = Eq⌋.
Proof. apply bool_decide_ext. symmetry. apply bcmp_Eq. Qed.

(** On the types a list is hashed for, the matcher's equality is the order's. *)
Lemma eq_plain_scalar v e :
  keyable v → keyable e → plain_scalar v = true → plain_scalar e = true →
  eq_scalar dec None v e = Ok ⌊cmp v e = Eq⌋.
Proof.
  intros Kv Ke Pv Pe. destruct (is_number v && is_number e) eqn:Hn.
  - apply andb_true_iff in Hn as [Nv Ne].
    assert (type_rank v = 30 ∧ type_rank e = 30) as [Rv Re] by (split; [by destruct v|by destruct e]).
    assert (eq_scalar dec None v e = eq_number dec None v e) as -> by (by destruct e; try done; destruct v).
    rewrite cmp_numbers by done. apply eq_numbers; by eapply rank_number_wf.
  - destruct e; try discriminate Pe; destruct v; try discriminate Pv; try discriminate Hn.
    all: cbn [eq_scalar is_exotic eq_plain]; rewrite ?eq_number_other by done; try reflexivity; cbn [eq_other text_eq]; f_equal.
    + apply bcmp_eq_decide.
    + by destruct b, b0.
    + apply bcmp_eq_decide.
    + change (⌊cmp (DateTime millis0) (DateTime millis) = Eq⌋) with (⌊(millis0 ?= millis) = Eq⌋).
      by destruct (Z.compare_spec millis0 millis), (Z.eqb_spec millis0 millis); try lia.
Qed.

Lemma eq_keys v e k k' :
  keyable v → keyable e → plain_scalar v = true → plain_scalar e = true → enc v = Ok k → enc e = Ok k' →
  eq_scalar dec None v e = Ok ⌊k = k'⌋.
Proof.
  intros Kv Ke Pv Pe Ev Ee. rewrite eq_plain_scalar by done. f_equal. rewrite bcmp_eq_decide.
  by destruct (key_order dec bo Hbo v e k k' Kv Ke Ev Ee) as (-> & _).
Qed.

(** What one candidate says of one element. *)
Definition cand_hits (e : Bson) (c : Cand) : bool :=
  match value c with
  | Some v => match enc v, enc e with Ok k, Ok k' => ⌊k = k'⌋ | _, _ => false end
  | None => false
  end.

Definition scalar_cand (c : Cand) : Prop := ∀ v, value c = Some v → plain_scalar v = true ∧ keyable v.

Lemma eq_scalar_cands values e descend :
  Forall scalar_cand values → keyable e → plain_scalar e = true →
  in_candidate_matches dec values e None descend = Ok (existsb (cand_hits e) values).
Proof.
  intros Hv Ke Pe.
  assert (in_candidate_matches dec values e None descend = eq_with_array dec values e None descend) as -> by (by destruct e).
  apply any_ok_ext. intros c Hc. rewrite Forall_forall in Hv. specialize (Hv c Hc). unfold cand_hits.
  destruct (value c) as [v|] eqn:Ev; [|by destruct e]. destruct (Hv v Ev) as [Pv Kv].
  destruct (enc_total dec bo Hbo v Kv) as [k Ek], (enc_total dec bo Hbo e Ke) as [k' Ek'].
  rewrite (eq_keys v e k k') by done. rewrite Ek, Ek'. cbn [mbind outcome_bind].
  assert (elements c descend = None) as Hel.
  { unfold elements. rewrite Ev. destruct (descend && expandable c), v; done. }
  rewrite Hel. cbn [from_option default any_ok]. by case_bool_decide.
Qed.

Lemma hashed_spec arr set :
  hashed_keys dec bo arr = Some set → forallb plain_scalar arr = true ∧ Forall2 (λ e k, enc e = Ok k) arr set.
Proof.
  unfold hashed_keys. destruct (forallb plain_scalar arr) eqn:Hp; [|by rewrite andb_false_r].
  case_bool_decide; [|done]. cbn [andb]. destruct (mapM _ arr) as [keys| | |] eqn:Hm; try done. intros [= ->]. split; [done|].
  revert set Hm. clear. induction arr as [|e arr IH]; intros set Hm; [injection Hm as <-; constructor|].
  apply bind_Ok in Hm as (k & Hk & Hm). apply bind_Ok in Hm as (ks & Hks & Hm). injection Hm as <-.
  constructor; [done|by apply IH].
Qed.

Lemma set_hits_spec set hit0 values hit :
  set_hits dec bo set hit0 values = Some hit →
  (∀ c v, c ∈ values → value c = Some v → plain_scalar v = true) ∧
  (hit = true ↔ hit0 = true ∨ ∃ c v k, c ∈ values ∧ value c = Some v ∧ enc v = Ok k ∧ k ∈ set).
Proof.
  revert hit0. induction values as [|c values IH]; intros hit0 Hs; cbn [set_hits] in Hs.
  { injection Hs as <-. split; [set_solver|]. split; [auto|]. intros [|(? & ? & ? & ? & _)]; [done|set_solver]. }
  destruct (value c) as [v|] eqn:Hc.
  - destruct (plain_scalar v) eqn:Hp; [|done]. destruct (enc v) as [k| | |] eqn:Ek; try done.
    destruct (IH _ Hs) as [Hall Hhit]. split.
    { intros c' v' [->|Hin]%elem_of_cons Hv'; [congruence|eauto]. }
    rewrite Hhit, orb_true_iff, bool_decide_eq_true. split.
    + intros [[Hh|Hk]|(c' & v' & k' & ? & ? & ? & ?)]; [by left| |]; right.
      * exists c, v, k. split; [left|done].
      * exists c', v', k'. split; [by right|done].
    + intros [Hh|(c' & v' & k' & Hin & Hv' & Hk' & Hin')]; [auto|].
      apply elem_of_cons in Hin as [->|Hin]; [left; right; congruence|]. right. by exists c', v', k'.
  - destruct (IH _ Hs) as [Hall Hhit]. split.
    { intros c' v' [->|Hin]%elem_of_cons Hv'; [congruence|eauto]. }
    rewrite Hhit. split; (intros [Hh|(c' & v' & k' & Hin & Hv' & ? & ?)]; [by left|right]).
    + exists c', v', k'. split; [by right|done].
    + apply elem_of_cons in Hin as [->|Hin]; [congruence|]. by exists c', v', k'.
Qed.
End hashed.

Lemma hashed_agrees dec bo `{Engines} th arr values descend hit :
  bo ≠ Format4 → Forall (keyable dec) arr → (∀ c v, c ∈ values → value c = Some v → keyable dec v) →
  in_set_lookup dec bo th arr values None = Some hit →
  in_by_element dec values arr None descend = Ok hit.
Proof.
  intros Hbo Ka Kv Hl. unfold in_set_lookup in Hl. destruct (in_sets th); [|done].
  apply bind_Some in Hl as (set & Hs & Hl). destruct (hashed_spec dec bo arr set Hs) as [Hp Hkeys].
  destruct (set_hits_spec dec bo Hbo set false values hit Hl) as [Hpv Hhit].
  rewrite forallb_forall in Hp. rewrite Forall_forall in Ka.
  assert (in_elements_ok arr = Ok ()) as Hok.
  { unfold in_elements_ok. case_match eqn:Hd; [|done]. apply existsb_exists in Hd as (e & He & Hd).
    specialize (Hp e He). by destruct e. }
  unfold in_by_element. rewrite Hok. cbn [mbind outcome_bind].
  rewrite (any_ok_ext (λ e, existsb (cand_hits dec bo e) values)).
  2: { intros e He. apply (eq_scalar_cands dec bo Hbo); [|by apply Ka|by apply Hp, list_elem_of_In].
       apply Forall_forall. intros c Hc v Hv. eauto. }
  f_equal. apply eq_true_iff_eq. rewrite Hhit, existsb_exists. split.
  - intros (e & He & (c & Hc & Hh)%existsb_exists). right. apply list_elem_of_In in He. apply list_elem_of_In in Hc.
    unfold cand_hits in Hh. destruct (value c) as [v|] eqn:Hv; [|done].
    apply list_elem_of_lookup in He as [i Hi]. destruct (Forall2_lookup_l _ _ _ _ _ Hkeys Hi) as (k & Hk & Ek).
    rewrite Ek in Hh. destruct (encode_value dec bo None v) as [k'| | |] eqn:Ev; try done. apply bool_decide_eq_true in Hh as ->.
    exists c, v, k. split_and!; [done..|by eapply list_elem_of_lookup_2].
  - intros [|(c & v & k & Hc & Hv & Ek & Hk)]; [done|].
    apply list_elem_of_lookup in Hk as [i Hi]. destruct (Forall2_lookup_r _ _ _ _ _ Hkeys Hi) as (e & He & Ee).
    exists e. split; [apply list_elem_of_In; by eapply list_elem_of_lookup_2|]. apply existsb_exists. exists c.
    split; [by apply list_elem_of_In|]. unfold cand_hits. rewrite Hv, Ek, Ee. by apply bool_decide_eq_true.
Qed.

(** C22. A list of a filter that the scan hashed is answered as its elements
    would be, one by one: when the lookup of the sort keys gives an answer at all,
    evaluating the elements against the candidates gives the same, whatever the
    path reached and whether arrays are stepped into. *)
Theorem in_set_agrees dec bo `{Engines} th arr values descend hit :
  bo ≠ Format4 → Forall (keyable dec) arr → (∀ c v, c ∈ values → value c = Some v → keyable dec v) →
  in_set_lookup dec bo th arr values None = Some hit →
  in_by_element dec values arr None descend = Ok hit.
Proof. apply hashed_agrees. Qed.

(** C21. Evaluation returns: for any filter over any document the model's fuel,
    the nesting of the filter, is enough, the elements [$mod] and [$all] take by index
    are there and the remainder of [$mod] is never by zero, given that the engines
    behind [$expr], [$jsonSchema] and the geometry operators return.  The recursion through [$and], [$not], [$elemMatch], [$all] and the
    by-value check of [$expr] always goes to something nested less deeply. *)
Theorem matches_returns dec bo `{Engines} th doc query vars coll :
  (∀ d, returns (geo_near d)) → (∀ c a o, returns (geo_within c a o)) → (∀ c a, returns (geo_intersects c a)) →
  (∀ c d e v, returns (evaluate_truthy c d e v)) → (∀ c d, returns (json_schema c d)) →
  returns (matches dec bo th doc query vars coll) ∧
  (∀ n, (depth (Document query) ≤ n)%nat → returns (matches_fuel dec bo n th doc query vars coll)).
Proof.
  intros H1 H2 H3 H4 H5. assert (∀ n, (depth (Document query) ≤ n)%nat → returns (matches_fuel dec bo n th doc query vars coll)) as Hf.
  { intros n. by apply (fuel_returns dec bo H1 H2 H3 H4 H5 n). }
  split; [by apply Hf|done].
Qed.

(** ** At concrete inputs *)

Definition sixteen : list Bson := Int32 <$> seqZ 0 16.

Lemma in_set_agrees_witness :
  in_set_lookup id Mongod (mkThread None true) sixteen [plain (Some (Double 0x4008000000000000)); plain None] None = Some true ∧
  @in_by_element id no_engines [plain (Some (Double 0x4008000000000000)); plain None] sixteen None true = Ok true.
Proof.
  split; [by vm_compute|].
  apply (@in_set_agrees id Mongod no_engines (mkThread None true)); [done| | |by vm_compute].
  - apply Forall_fmap, Forall_forall. intros n Hn%elem_of_seqZ. constructor. unfold i32_ok. lia.
  - intros c v Hc Hv. apply elem_of_cons in Hc as [->|Hc]; [injection Hv as <-; constructor|].
    apply list_elem_of_singleton in Hc as ->. done.
Defined.

Lemma matches_returns_witness :
  returns (@matches id Mongod no_engines (mkThread None false) [] [(lit "x", Document [(lit "$not", Document [(lit "$gt", Int32 1)])])] [] None).
Proof.
  refine (proj1 (@matches_returns id Mongod no_engines (mkThread None false) [] _ [] None _ _ _ _ _)); intros; exact I.
Defined.
