(* ===== verification/ScanFacts.v ===== *)
(** * Scan bounds hold every match: operators

    What it is for a stretch to cover a key, and that each operator's stretches
    cover the key of an indexed value whenever the matcher says the operator holds. *)
From stdpp Require Import strings.
From S2P Require Import Prelude RustM Bson Lex Docs Paths Numeric NumericFacts Order SortKey SortKeyNum.
From S2P Require Import SortKeyFacts Decimal Query QueryFacts QueryProps IndexKeys ScanBounds.
Local Open Scope Z_scope.
Local Open Scope secantus_scope.

(** ** Stretches and keys *)

Definition at_or_above (e : option End) (k : bytes) : Prop :=
  match e with
  | None => True
  | Some (Floor r) => ∃ b body, k = b :: body ∧ r ≤ b
  | Some (Key l) => all_bytes l ∧ ∃ c, key_rel l k c ∧ c ≠ Gt
  end.

Definition at_or_below (e : option End) (k : bytes) : Prop :=
  match e with
  | None => True
  | Some (Floor r) => ∃ b body, k = b :: body ∧ b < r
  | Some (Key h) => all_bytes h ∧ ∃ c, key_rel k h c ∧ c ≠ Gt
  end.

(** A stretch covers an ascending key. *)
Definition covers (s : stretch) (k : bytes) : Prop := at_or_above (Stretch.lo s) k ∧ at_or_below (Stretch.hi s) k.

Lemma bcmp_le_lt a b c : bcmp a b ≠ Gt → bcmp b c = Lt → bcmp a c = Lt.
Proof.
  intros H1 H2. destruct (bcmp a b) eqn:E; [by apply bcmp_Eq in E as ->|by eapply bcmp_trans_lt|done].
Qed.

Lemma bcmp_app_lt k x l : bcmp k (k ++ x :: l) = Lt.
Proof. rewrite <- (app_nil_r k) at 1. by rewrite bcmp_app_same. Qed.

Lemma lo_pos_le s k : at_or_above (Stretch.lo s) k → bcmp (Stretch.lo_pos s) k ≠ Gt.
Proof.
  unfold at_or_above, Stretch.lo_pos. destruct (Stretch.lo s) as [[r|l]|].
  - intros (b & body & -> & Hr). rewrite bcmp_cons. destruct (Z.compare_spec r b); [by destruct body|done|lia].
  - intros (_ & c & (<- & _) & Hc). done.
  - by destruct k.
Qed.

Lemma lt_hi_pos s k hi : at_or_below (Stretch.hi s) k → Stretch.hi_pos s = Some hi → bcmp k hi = Lt.
Proof.
  unfold at_or_below, Stretch.hi_pos. destruct (Stretch.hi s) as [[r|h]|]; [| |done].
  - intros (b & body & -> & Hr) [= <-]. rewrite bcmp_cons. by destruct (Z.compare_spec b r); [lia| |lia].
  - intros (_ & c & (<- & _) & Hc) [= <-]. eapply bcmp_le_lt; [done|]. apply bcmp_app_lt.
Qed.

Lemma covers_nonempty s k : covers s k → Stretch.is_empty s = false.
Proof.
  intros [Hl Hh]. unfold Stretch.is_empty. destruct (Stretch.hi_pos s) as [hi|] eqn:E; [|done].
  unfold blt. rewrite (bcmp_le_lt _ k); [done|by apply lo_pos_le|by apply (lt_hi_pos s)].
Qed.

Lemma intersect_covers a b k :
  covers a k → covers b k → ∃ s, Stretch.intersect a b = Some s ∧ covers s k.
Proof.
  intros [La Ha] [Lb Hb]. unfold Stretch.intersect.
  set (s := Stretch.mk _ _). assert (covers s k) as Hs.
  { split; cbn [Stretch.lo Stretch.hi s]; [by case_match|]. repeat case_match; done. }
  rewrite (covers_nonempty s k Hs). by exists s.
Qed.

Lemma intersect_lists a b k :
  (∃ s, s ∈ a ∧ covers s k) → (∃ s, s ∈ b ∧ covers s k) → ∃ s, s ∈ intersect a b ∧ covers s k.
Proof.
  intros (s & Hs & Cs) (t & Ht & Ct). destruct (intersect_covers s t k Cs Ct) as (u & Hu & Cu).
  exists u. split; [|done]. apply list_elem_of_In, in_concat. exists (omap (Stretch.intersect s) b). split; apply list_elem_of_In.
  - apply list_elem_of_fmap. by exists s.
  - apply list_elem_of_omap. by exists t.
Qed.

Lemma key_rel_refl k : key_rel k k Eq.
Proof. rewrite <- (bcmp_refl k). apply key_rel_pfree, pfree_refl. Qed.

Lemma covers_point k : all_bytes k → covers (Stretch.point k) k.
Proof. intros Hk. split; (split; [done|exists Eq; split; [apply key_rel_refl|done]]). Qed.

Lemma covers_all k : covers Stretch.all k.
Proof. done. Qed.

Section scan.
Context (dec : bytes → bytes) (bo : BinDataOrder) (Hbo : bo ≠ Format4) (alnum : Z → bool) `{Engines}.

Local Abbreviation cmp := (Order.cmp dec bo None).
Local Abbreviation enc := (encode_value dec bo None).
Local Abbreviation keyable := (SortKeyFacts.keyable dec).
Local Abbreviation clean := (QueryFacts.clean dec).
Local Abbreviation key := (ScanBounds.key dec bo).
Local Abbreviation rank := (ScanBounds.rank dec bo).

Lemma key_enc v k : key v = Some k ↔ enc v = Ok k.
Proof. unfold ScanBounds.key. destruct (enc v); naive_solver. Qed.

Lemma key_total v : keyable v → ∃ k, key v = Some k.
Proof. intros Hk. destruct (enc_total dec bo Hbo v Hk) as [k Ek]. exists k. by apply key_enc. Qed.

Lemma key_rank v k : keyable v → key v = Some k → ∃ body, k = rank v :: body ∧ has_rank (type_rank v) (rank v).
Proof.
  intros Hk Ek. destruct (enc_rank dec bo Hbo v k Hk) as (b & body & -> & Hr); [by apply key_enc|].
  unfold ScanBounds.rank. rewrite Ek. eauto.
Qed.

Lemma has_rank_fun r b b' : has_rank r b → has_rank r b' → b = b'.
Proof. intros H1 H2. apply Z.compare_eq. rewrite (has_rank_cmp r b r b') by auto. apply Z.compare_refl. Qed.

Lemma rank_eq v w : keyable v → keyable w → type_rank v = type_rank w → rank v = rank w.
Proof.
  intros Hv Hw E. destruct (key_total v Hv) as [k Ek], (key_total w Hw) as [k' Ek'].
  destruct (key_rank v k Hv Ek) as (? & _ & R1), (key_rank w k' Hw Ek') as (? & _ & R2). rewrite E in R1.
  by eapply has_rank_fun.
Qed.

Lemma key_bytes_all v k : keyable v → key v = Some k → all_bytes k.
Proof. intros Hv Hk. eapply (enc_all_bytes dec bo Hbo); [done|by apply key_enc]. Qed.

(** The key of an indexed value is at one of the stretches. *)
Definition found (ss : list stretch) (idx : list Bson) : Prop :=
  ∃ x k s, x ∈ idx ∧ key x = Some k ∧ s ∈ ss ∧ covers s k.

Lemma found_at x k s ss idx : x ∈ idx → key x = Some k → s ∈ ss → covers s k → found ss idx.
Proof. intros. by exists x, k, s. Qed.

Lemma found_bracket x v ss idx :
  x ∈ idx → keyable x → keyable v → type_rank x = type_rank v → Stretch.bracket (rank v) ∈ ss → found ss idx.
Proof.
  intros Hx Kx Kv E Hs. destruct (key_total x Kx) as [k Ek]. destruct (key_rank x k Kx Ek) as (body & -> & _).
  apply (found_at x (rank x :: body) (Stretch.bracket (rank v))); [done..|]. rewrite (rank_eq x v) by done.
  split; eexists _, _; (split; [done|]); lia.
Qed.

Lemma found_point x v k ss idx :
  x ∈ idx → keyable x → keyable v → cmp x v = Eq → key v = Some k → Stretch.point k ∈ ss → found ss idx.
Proof.
  intros Hx Kx Kv E Hk Hs. destruct (key_total x Kx) as [k' Ek'].
  apply (found_at x k' (Stretch.point k)); [done..|].
  destruct (key_order dec bo Hbo x v k' k Kx Kv) as (Hc & _); [by apply key_enc..|].
  rewrite E in Hc. apply bcmp_Eq in Hc as ->. by eapply covers_point, key_bytes_all.
Qed.

Lemma found_all idx : idx ≠ [] → Forall keyable idx → found [Stretch.all] idx.
Proof.
  intros Hn Hk. destruct idx as [|x idx]; [done|]. apply Forall_cons in Hk as [Kx _].
  destruct (key_total x Kx) as [k Ek]. apply (found_at x k Stretch.all); [left|done|left|apply covers_all].
Qed.

(** ** Ends made of a value *)

Lemma cmp_keys v w kv kw : keyable v → keyable w → key v = Some kv → key w = Some kw → key_rel kv kw (cmp v w).
Proof. intros Hv Hw Ev Ew. apply (key_order dec bo Hbo); [done..| |]; by apply key_enc. Qed.

Lemma above_value x v kx kv :
  keyable x → keyable v → key x = Some kx → key v = Some kv → cmp x v ≠ Lt → at_or_above (Some (Key kv)) kx.
Proof.
  intros Kx Kv Ex Ev Hc. split; [by eapply key_bytes_all|]. exists (cmp v x). split; [by apply cmp_keys|].
  rewrite (cmp_opp dec bo Hbo x v) by done. by destruct (cmp x v).
Qed.

Lemma below_value x v kx kv :
  keyable x → keyable v → key x = Some kx → key v = Some kv → cmp x v ≠ Gt → at_or_below (Some (Key kv)) kx.
Proof. intros Kx Kv Ex Ev Hc. split; [by eapply key_bytes_all|]. exists (cmp x v). split; [by apply cmp_keys|done]. Qed.

(** The stretch of a range operator. *)
Lemma range_of_found op v x ss idx desc :
  x ∈ idx → keyable x → keyable v → type_rank x = type_rank v →
  (if is_lower op then cmp x v ≠ Lt else cmp x v ≠ Gt) →
  range_of dec bo op v desc = Some ss → found ss idx.
Proof.
  intros Hx Kx Kv E Hc Hr. unfold range_of in Hr. destruct (key_total x Kx) as [kx Ex].
  apply bind_Some in Hr as (kv & Ev & Hr). destruct (key_rank v kv Kv Ev) as (body & -> & _).
  destruct (key_rank x kx Kx Ex) as (bx & -> & _). rewrite (rank_eq x v) in Ex by done.
  cbn [head mbind option_bind] in Hr. injection Hr as <-.
  eapply (found_at x _ _ [_]); [done|exact Ex|left|]. destruct (is_lower op) eqn:Hop; rewrite ?Hop in Hc; split; cbn [Stretch.lo Stretch.hi].
  - case_match; [by apply (above_value x v)|]. eexists _, _. split; [done|lia].
  - eexists _, _. split; [done|lia].
  - eexists _, _. split; [done|lia].
  - case_match; [by apply (below_value x v)|]. eexists _, _. split; [done|lia].
Qed.

(** ** What the candidates are to the indexed values *)

Record reach (values : list Cand) (descend : bool) (idx : list Bson) (missing deep : bool) : Prop := mkReach {
  r_value : ∀ c v, c ∈ values → value c = Some v → v ∈ idx ∧ clean v;
  r_elem : ∀ c arr e, c ∈ values → elements c descend = Some arr → e ∈ arr → e ∈ idx ∧ clean e;
  r_item : deep = true → ∀ c arr e, c ∈ values → value c = Some (Array arr) → e ∈ arr → e ∈ idx ∧ clean e;
  r_missing : missing = true → values ≠ [] ∧ ∀ c, c ∈ values → value c = None → Null ∈ idx;
  r_some : idx ≠ [];
  r_keyable : Forall keyable idx;
}.

Section reach.
Context (values : list Cand) (descend : bool) (idx : list Bson) (missing deep : bool).
Context (Hreach : reach values descend idx missing deep).

Lemma reach_eq e :
  clean e → (is_null e = true → missing = true) → eq_with_array dec values e None descend = Ok true →
  ∃ x, x ∈ idx ∧ keyable x ∧ cmp x e = Eq.
Proof.
  intros He Hm (c & Hc & Heq)%any_ok_true. destruct (value c) as [v|] eqn:Hv.
  - apply bind_Ok in Heq as ([|] & Heq & Hrest).
    + destruct (r_value _ _ _ _ _ Hreach c v Hc Hv) as [Hi Cv]. exists v. split_and!; [done|by destruct Cv|].
      by apply (eq_scalar_cmp dec bo Hbo).
    + apply any_ok_true in Hrest as (x & Hx & Hxe). destruct (elements c descend) as [arr|] eqn:Hel; [|set_solver].
      destruct (r_elem _ _ _ _ _ Hreach c arr x Hc Hel Hx) as [Hi Cx]. exists x. split_and!; [done|by destruct Cx|].
      by apply (eq_scalar_cmp dec bo Hbo).
  - apply Ok_inj in Heq. destruct (r_missing _ _ _ _ _ Hreach (Hm Heq)) as [_ Hn]. exists Null.
    split_and!; [by eapply Hn|constructor|]. by destruct e.
Qed.

Lemma reach_cmp th t pred :
  active th = None → clean t → range_bound t = true → cmp_op dec bo th values t None pred descend = Ok true →
  ∃ x, x ∈ idx ∧ keyable x ∧ type_rank x = type_rank t ∧ pred (cmp x t) = true.
Proof.
  intros Hth Ht Hb (c & Hc & Hh)%any_ok_true.
  assert (∀ v, clean v →
    (o ← compare_values dec bo th None v t; Ok (match o with Some o => pred o | None => false end) : R bool) = Ok true →
    type_rank v = type_rank t ∧ pred (cmp v t) = true) as Hv.
  { intros v Cv (o & Ho & Hp%Ok_inj)%bind_Ok. destruct (decide (type_rank v = type_rank t)) as [E|E].
    - destruct (compare_same dec bo Hbo th v t Hth Cv Ht Hb E) as [Hs|[Hs _]]; rewrite Hs in Ho; by simplify_eq.
    - rewrite (compare_ranks dec bo th v t Cv Ht Hb E) in Ho. by simplify_eq. }
  apply bind_Ok in Hh as ([|] & Hh & Hrest).
  - destruct (value c) as [v|] eqn:Hvc; cbn [default from_option id] in Hh.
    + destruct (r_value _ _ _ _ _ Hreach c v Hc Hvc) as [Hi Cv]. exists v. destruct (Hv v Cv Hh). by destruct Cv.
    + exfalso. destruct (Hv Null) as [E _]; [by split; [constructor|]|done|].
      destruct Ht as [Kt St]. by destruct Kt.
  - apply any_ok_true in Hrest as (x & Hx & Hxe). destruct (elements c descend) as [arr|] eqn:Hel; [|set_solver].
    destruct (r_elem _ _ _ _ _ Hreach c arr x Hc Hel Hx) as [Hi Cx]. exists x. destruct (Hv x Cx Hxe). by destruct Cx.
Qed.

Lemma reach_any test : any_value test descend values = true → ∃ x, x ∈ idx ∧ clean x ∧ test x = true.
Proof.
  intros (c & Hc%list_elem_of_In & [Ht|Ht]%orb_true_iff)%existsb_exists.
  - destruct (value c) as [v|] eqn:Hv; [|done]. destruct (r_value _ _ _ _ _ Hreach c v Hc Hv). by exists v.
  - apply existsb_exists in Ht as (x & Hx%list_elem_of_In & Ht). destruct (elements c descend) as [arr|] eqn:Hel; [|set_solver].
    destruct (r_elem _ _ _ _ _ Hreach c arr x Hc Hel Hx). by exists x.
Qed.
End reach.

(** ** Strings a literal prefix admits *)

Lemma utf8_char_lt c d r r' :
  0 ≤ c < d → d < 0x110000 → bcmp (utf8_char c ++ r) (utf8_char d ++ r') = Lt.
Proof.
  intros Hc Hd. unfold utf8_char.
  destruct (Z.ltb_spec c 128), (Z.ltb_spec d 128), (Z.ltb_spec c 2048), (Z.ltb_spec d 2048), (Z.ltb_spec c 65536),
    (Z.ltb_spec d 65536); try lia; cbn [app]; rewrite !bcmp_cons.
  all: repeat match goal with
       | |- thn (?x ?= ?y) _ = Lt => destruct (Z.compare_spec x y); cbn [thn]; [|reflexivity|]
       | |- _ => exfalso; Z.div_mod_to_equations; lia
       end.
Qed.

Lemma utf8_app a b : utf8 (a ++ b) = utf8 a ++ utf8 b.
Proof. unfold utf8. by rewrite map_app, concat_app. Qed.

Lemma next_char_spec c b : next_char c = Some b → c < b < 0x110000.
Proof.
  unfold next_char, in_range. intros Hn.
  destruct (Z.leb_spec 0xD7FF c), (Z.leb_spec c 0xDFFE); cbn [andb] in Hn; simplify_eq; try lia.
  all: destruct (Z.ltb_spec c 0x10FFFF); simplify_eq; lia.
Qed.

Lemma last_split {A} (l : list A) x : last l = Some x → l = removelast l ++ [x].
Proof.
  intros Hl. destruct (decide (l = [])) as [->|Hn]; [done|]. rewrite (app_removelast_last x Hn) at 1. f_equal.
  f_equal. revert Hl Hn. induction l as [|y [|z l] IH]; intros Hl Hn; [done|by injection Hl as ->|]. by apply IH.
Qed.

(** A string that begins with the prefix is between the two ends. *)
Lemma prefix_between p s b last_ :
  last p = Some last_ → next_char last_ = Some b → all_bytes (utf8 p ++ s) →
  bcmp (utf8 p) (utf8 p ++ s) ≠ Gt ∧ bcmp (utf8 p ++ s) (utf8 (removelast p ++ [b])) = Lt ∧
  all_bytes (utf8 p) ∧ all_bytes (utf8 (removelast p ++ [b])).
Proof.
  intros Hl Hb Hs. pose proof (next_char_spec _ _ Hb) as Hr. apply Forall_app in Hs as [Hp _].
  pose proof (last_split p last_ Hl) as E. assert (0 ≤ last_) as H0.
  { rewrite E, utf8_app in Hp. apply Forall_app in Hp as [_ Hp]. unfold utf8 in Hp. cbn [map concat] in Hp.
    rewrite app_nil_r in Hp. destruct (Z.le_gt_cases 0 last_) as [|Hneg]; [done|].
    unfold utf8_char in Hp. rewrite (proj2 (Z.ltb_lt _ _)) in Hp by lia. apply Forall_cons in Hp as [[? ?] _]. lia. }
  assert (utf8 p = utf8 (removelast p) ++ utf8_char last_) as Eu.
  { rewrite E at 1. rewrite utf8_app. unfold utf8 at 2. cbn [map concat]. by rewrite app_nil_r. }
  assert (utf8 (removelast p ++ [b]) = utf8 (removelast p) ++ utf8_char b ++ []) as Eb by (by rewrite utf8_app).
  split_and!.
  - destruct s; [rewrite app_nil_r, bcmp_refl|rewrite bcmp_app_lt]; done.
  - rewrite Eb, Eu, <- app_assoc, bcmp_app_same. apply utf8_char_lt; lia.
  - done.
  - rewrite utf8_app. apply Forall_app. split; [rewrite Eu in Hp; by apply Forall_app in Hp as [? _]|].
    apply (utf8_all_bytes dec). constructor; [lia|constructor].
Qed.

(** A regex engine that knows its anchors: what follows a [^] literally, up to the
    first special character, begins every string the regex matches. *)
Definition prefix_law : Prop := ∀ pattern options re w o p s,
  compile pattern options = Some re → want_regex pattern options = Some (w, o) →
  regex_prefix alnum w o = Some p → re s = true → ∃ rest, s = utf8 p ++ rest.

Context (Hprefix : prefix_law).

Lemma prefix_stretch_covers p s rest desc st k :
  prefix_stretch dec bo p desc = Some st → s = utf8 p ++ rest → all_bytes s → key (String s) = Some k → covers st k.
Proof.
  intros Hp -> Hs Hk. unfold prefix_stretch in Hp. apply bind_Some in Hp as (last_ & Hl & Hp).
  apply bind_Some in Hp as (b & Hb & Hp). destruct (prefix_between p rest b last_ Hl Hb Hs) as (Hlo & Hhi & Al & Ah).
  destruct (trusted_end _ _ _ _ && trusted_end _ _ _ _); [|done].
  apply bind_Some in Hp as (kl & Ekl & Hp). apply bind_Some in Hp as (kh & Ekh & [= <-]). split.
  - apply (above_value (String (utf8 p ++ rest)) (String (utf8 p))); [by constructor..|done|done|].
    change (bcmp (utf8 p ++ rest) (utf8 p) ≠ Lt). rewrite bcmp_antisym. by destruct (bcmp (utf8 p) (utf8 p ++ rest)).
  - apply (below_value (String (utf8 p ++ rest)) (String (utf8 (removelast p ++ [b])))); [by constructor..|done|done|].
    change (bcmp (utf8 p ++ rest) (utf8 (removelast p ++ [b])) ≠ Gt). by rewrite Hhi.
Qed.

Lemma keyable_empty_string : keyable (String []).
Proof. apply k_string. constructor. Qed.

(** A value the regex hits is at the regex's stretches. *)
Lemma regex_found pattern options re w o x idx desc r :
  x ∈ idx → clean x → compile pattern options = Some re → want_regex pattern options = Some (w, o) →
  all_bytes w → Forall (λ c, 0 ≤ c < 0x110000) o → regex_hit re (Some (w, o)) x = true →
  regex dec bo alnum w o desc = Some r → found r.1 idx.
Proof.
  intros Hx [Kx Sx] Hre Hw Aw Ao Hhit Hr. unfold regex in Hr. apply bind_Some in Hr as (kr & Ekr & Hr).
  destruct (key_total x Kx) as [k Ek].
  assert (∃ s, x = String s ∧ re s = true ∨ ∃ p' o', x = RegularExpression p' o' ∧ regex_eq p' o' w o = true) as [s Hcase].
  { destruct x; try done; [exists s; by left|exists []; right; eauto]. }
  destruct Hcase as [[-> Hs]|(p' & o' & -> & He)].
  - assert (all_bytes s) as As by (by inversion Kx).
    assert (∀ br st, Some ([st; Stretch.point kr], br) = Some r → covers st k → found r.1 idx) as Hfin.
    { intros br st [= <-] Hc. apply (found_at (String s) k st); [done|done|left|done]. }
    assert (covers (Stretch.bracket (rank_string dec bo)) k) as Hbr.
    { destruct (key_rank _ k Kx Ek) as (body & -> & _).
      rewrite (rank_eq (String s) (String [])) by (done || apply keyable_empty_string).
      unfold rank_string. split; eexists _, _; (split; [reflexivity|]); lia. }
    destruct (regex_prefix alnum w o) as [p|] eqn:Hp; [|by eapply Hfin].
    destruct (prefix_stretch dec bo p desc) as [st|] eqn:Hst; [|by eapply Hfin].
    destruct (Hprefix pattern options re w o p s Hre Hw Hp Hs) as [rest Hrest].
    eapply Hfin; [done|]. by eapply prefix_stretch_covers.
  - apply andb_true_iff in He as [->%bool_decide_eq_true Ho%bool_decide_eq_true].
    apply (found_point (RegularExpression w o') (RegularExpression w o) kr); [done|done|by constructor| |done|].
    + change (thn (bcmp w w) (bcmp (regex_sort_key w o').2 (regex_sort_key w o).2) = Eq).
      rewrite bcmp_refl. unfold regex_sort_key. cbn [snd thn]. rewrite Ho. apply bcmp_refl.
    + destruct (match regex_prefix alnum w o with Some prefix => _ | None => _ end) as [text br]. injection Hr as <-.
      right. left.
Qed.

(** ** Names *)

Lemma is_one_of_lit k l : is_one_of k l = true → ∃ a, a ∈ l ∧ k = lit a.
Proof. intros Hk%bool_decide_eq_true. apply list_elem_of_fmap in Hk as (a & -> & Ha). eauto. Qed.

Lemma op_is_true k a : op_is k a = true → k = lit a.
Proof. apply bool_decide_eq_true. Qed.

Lemma flags_in_range flags : regex_flags_ok flags = Ok () → Forall (λ c, 0 ≤ c < 0x110000) flags.
Proof.
  unfold regex_flags_ok. destruct (head (filter _ flags)) as [c|] eqn:Hh; [done|]. intros _.
  apply Forall_forall. intros c Hc. destruct (decide (c ∈ [105; 109; 115; 120; 117])) as [Hin|Hin]; [set_solver by lia|].
  exfalso. assert (c ∈ filter (λ c, c ∉ [105; 109; 115; 120; 117]) flags) as Hf by (by apply list_elem_of_filter).
  destruct (filter _ flags); [set_solver|done].
Qed.

(** ** Operators *)

Section operators.
Context (values : list Cand) (descend : bool) (idx : list Bson) (missing deep : bool).
Context (Hreach : reach values descend idx missing deep) (th : Thread) (Hth : active th = None).

Lemma everything_found r : everything = Some r → found r.1 idx.
Proof.
  intros [= <-]. apply found_all; [by eapply r_some|by eapply r_keyable].
Qed.

Lemma clean_regex p o : clean (RegularExpression p o) → all_bytes p ∧ Forall (λ c, 0 ≤ c < 0x110000) o.
Proof. intros [Hk _]. by inversion Hk. Qed.

Lemma op_regex_found pattern options w o desc r :
  want_regex pattern options = Some (w, o) → all_bytes w → Forall (λ c, 0 ≤ c < 0x110000) o →
  op_regex values pattern options descend = Ok true → regex dec bo alnum w o desc = Some r → found r.1 idx.
Proof.
  intros Hw Aw Ao Hop Hr. unfold op_regex in Hop. destruct (as_invalid_utf8 pattern); [done|].
  assert (∃ re, compile pattern options = Some re ∧ any_value (regex_hit re (want_regex pattern options)) descend values = true)
    as (re & Hre & Ha).
  { repeat case_match; try done; apply Ok_inj in Hop; eauto. }
  rewrite Hw in Ha. destruct (reach_any values descend idx missing deep Hreach _ Ha) as (x & Hx & Cx & Hhit).
  by eapply (regex_found pattern options re w o x).
Qed.

Lemma equality_point v desc r :
  equality dec bo alnum v desc = Some r → ∃ k, key v = Some k ∧ Stretch.point k ∈ r.1.
Proof.
  assert (∀ k rest br, Some (Stretch.point k :: rest, br) = Some r → key v = Some k →
    ∃ k, key v = Some k ∧ Stretch.point k ∈ r.1) as Hfin.
  { intros k rest br [= <-] Hk. exists k. split; [done|left]. }
  intros He. destruct v as [| |a| | | |p o| | | | | | | | | | | | | |]; cbn [equality] in He; try discriminate He.
  all: try (apply bind_Some in He as (k & Hk & He); by eapply Hfin).
  - destruct a as [|first a]; apply bind_Some in He as (k & Hk & He); [by eapply Hfin|].
    apply bind_Some in He as (f & Hf & He). by eapply Hfin.
  - unfold regex in He. apply bind_Some in He as (k & Hk & He).
    destruct (match regex_prefix alnum p o with Some prefix => _ | None => _ end) as [text br]. injection He as <-.
    exists k. split; [done|right; left].
Qed.

Lemma equality_found v desc r :
  clean v → (is_null v = true → missing = true) → eq_with_array dec values v None descend = Ok true →
  equality dec bo alnum v desc = Some r → found r.1 idx.
Proof.
  intros Cv Hm Heq Hr. destruct (equality_point v desc r Hr) as (k & Hk & Hs).
  destruct (reach_eq values descend idx missing deep Hreach v Cv Hm Heq) as (x & Hx & Kx & Hc).
  eapply (found_point x v k); try done. by destruct Cv.
Qed.

(** An element of [$in] or [$all]: a regex matches as a pattern. *)
Lemma candidate_found v desc r :
  clean v → (is_null v = true → missing = true) → in_candidate_matches dec values v None descend = Ok true →
  equality dec bo alnum v desc = Some r → found r.1 idx.
Proof.
  intros Cv Hm Hc Hr. destruct v as [| | | | | |p o| | | | | | | | | | | | | |]; try (by eapply equality_found).
  destruct (clean_regex p o Cv). by eapply (op_regex_found (RegularExpression p o) None p o).
Qed.

Lemma found_mono ss ss' : (∀ s, s ∈ ss → s ∈ ss') → found ss idx → found ss' idx.
Proof. intros Hsub (x & k & s & ? & ? & ? & ?). exists x, k, s. auto. Qed.

Lemma in_items_spec items desc out r :
  in_items dec bo alnum items desc out = Some r →
  (∀ s, s ∈ out.1 → s ∈ r.1) ∧
  ∀ v, v ∈ items → ∃ rv, equality dec bo alnum v desc = Some rv ∧ ∀ s, s ∈ rv.1 → s ∈ r.1.
Proof.
  revert out. induction items as [|v items IH]; intros out Hr; cbn [in_items] in Hr.
  { injection Hr as ->. split; [done|set_solver]. }
  apply bind_Some in Hr as (rv & Hv & Hr). destruct (IH _ Hr) as [Ho Hi]. cbn [fst] in Ho. split.
  - intros s Hs. apply Ho. set_solver.
  - intros w [->|Hw]%elem_of_cons; [|by apply Hi]. exists rv. split; [done|]. intros s Hs. apply Ho. set_solver.
Qed.

Lemma clean_keyable v : clean v → keyable v.
Proof. by intros []. Qed.

Lemma in_found items desc r :
  clean (Array items) → (existsb is_null items = true → missing = true) →
  op_in dec bo th values items None descend = Ok true →
  in_items dec bo alnum items desc ([], false) = Some r → found r.1 idx.
Proof.
  intros Ci Hm Hop Hr. destruct (in_items_spec items desc _ r Hr) as [_ Hi].
  assert (in_by_element dec values items None descend = Ok true) as He.
  { unfold op_in in Hop. case_match eqn:Hl; [|done]. apply Ok_inj in Hop as ->.
    eapply hashed_agrees; [done| | |exact Hl].
    - apply Forall_forall. intros v Hv. by eapply clean_keyable, clean_item.
    - intros c v Hc Hv. by destruct (r_value _ _ _ _ _ Hreach c v Hc Hv) as [_ [? _]]. }
  apply bind_Ok in He as (_ & _ & He). apply any_ok_true in He as (v & Hv & He).
  destruct (Hi v Hv) as (rv & Hrv & Hsub). apply (found_mono rv.1); [done|].
  eapply (candidate_found v desc rv); [by eapply clean_item| |done|done].
  intros Hn. apply Hm, existsb_exists. exists v. split; [by apply list_elem_of_In|done].
Qed.

(** *** Ranges *)

Definition RANGE_OPS : list string := ["$gt"; "$gte"; "$lt"; "$lte"].

Definition range_pred (op : bytes) (o : comparison) : bool :=
  if op_is op "$gt" then is_gt o else if op_is op "$gte" then negb (is_lt o)
  else if op_is op "$lt" then is_lt o else negb (is_gt o).

(** [op_matches] of a range operator. *)
Definition range_verdict (op : bytes) (v : Bson) : R bool :=
  if is_one_of op ["$gte"; "$lte"] && (is_nan_bound dec v || is_null v) then eq_with_array dec values v None descend
  else cmp_op dec bo th values v None (range_pred op) descend.

Lemma range_pred_cmp op o : range_pred op o = true → if is_lower op then o ≠ Lt else o ≠ Gt.
Proof.
  unfold range_pred, is_lower, is_one_of, op_is. cbn [fmap list_fmap].
  rewrite (bool_decide_ext (op ∈ [lit "$gt"; lit "$gte"]) (op = lit "$gt" ∨ op = lit "$gte")) by set_solver.
  repeat case_bool_decide; destruct o; naive_solver.
Qed.

Lemma compare_null v : clean v → compare_values dec bo th None v Null = Ok None.
Proof.
  intros Cv. pose proof (clean_utf8 dec v Cv) as Uv. destruct Cv as [Kv Sv].
  assert (is_boolean v = true ∨ compare_values dec bo th None v Null = compare_numbers dec bo th None v Null) as [Hb| -> ].
  { destruct v; auto. }
  { by destruct v. }
  rewrite compare_other by (done || by rewrite andb_false_r). destruct v; try reflexivity; by inversion Kv.
Qed.

Lemma cmp_op_null pred : cmp_op dec bo th values Null None pred descend ≠ Ok true.
Proof.
  intros (c & Hc & Hh)%any_ok_true.
  assert (∀ v, clean v →
    (o ← compare_values dec bo th None v Null; Ok (match o with Some o => pred o | None => false end) : R bool) ≠ Ok true) as Hv.
  { intros v Cv. by rewrite compare_null. }
  apply bind_Ok in Hh as ([|] & Hh & Hrest).
  - destruct (value c) as [v|] eqn:Hvc; cbn [default from_option id] in Hh.
    + destruct (r_value _ _ _ _ _ Hreach c v Hc Hvc) as [_ Cv]. by apply (Hv v Cv).
    + eapply Hv, Hh. by split; [constructor|].
  - apply any_ok_true in Hrest as (x & Hx & Hxe). destruct (elements c descend) as [arr|] eqn:Hel; [|set_solver].
    destruct (r_elem _ _ _ _ _ Hreach c arr x Hc Hel Hx) as [_ Cx]. by apply (Hv x Cx).
Qed.

Lemma range_found op v desc ss :
  clean v → (is_null v = true → missing = true) → range_verdict op v = Ok true →
  range dec bo op v desc = Some ss → found ss idx.
Proof.
  intros Cv Hm Hop Hr. pose proof (clean_keyable v Cv) as Kv.
  assert (∀ x, x ∈ idx → keyable x → cmp x v = Eq → range_of dec bo op v desc = Some ss → found ss idx) as Heq.
  { intros x Hx Kx Hc. apply (range_of_found op v x ss idx desc); [done..|by apply (cmp_eq_rank dec bo)|].
    rewrite Hc. by case_match. }
  destruct (range_bound v) eqn:Hb.
  - assert (range_of dec bo op v desc = Some ss) as Hr'.
    { destruct v; try discriminate Hb; try discriminate Hr; try exact Hr. }
    unfold range_verdict in Hop. case_match.
    + destruct (reach_eq values descend idx missing deep Hreach v Cv Hm Hop) as (x & Hx & Kx & Hc). by eapply Heq.
    + destruct (reach_cmp values descend idx missing deep Hreach th v _ Hth Cv Hb Hop) as (x & Hx & Kx & E & Hc%range_pred_cmp).
      by eapply (range_of_found op v x).
  - destruct v; try discriminate Hb; try discriminate Hr.
    + unfold range_verdict in Hop. cbn [is_null] in Hop. rewrite orb_true_r, andb_true_r in Hop. case_match.
      * apply bind_Some in Hr as (k & Hk & [= <-]).
        destruct (reach_eq values descend idx missing deep Hreach Null Cv Hm Hop) as (x & Hx & Kx & Hc).
        eapply (found_point x Null k); try done. left.
      * by destruct (cmp_op_null _ Hop).
    + injection Hr as <-. by apply (everything_found ([Stretch.all], true)).
    + injection Hr as <-. by apply (everything_found ([Stretch.all], true)).
Qed.

(** *** Negated ranges *)

Lemma is_nan_sound v : is_nan dec v = false → is_nan_bson dec v = false.
Proof.
  destruct v; try done. cbn [is_nan is_nan_bson]. intros Hn. apply orb_false_iff.
  split; apply bool_decide_eq_false; intros E; by rewrite E in Hn.
Qed.

Lemma rank_compare x v :
  clean x → clean v → type_rank x ≠ type_rank v → (rank x ?= rank v) = (type_rank x ?= type_rank v).
Proof.
  intros [Kx Sx] [Kv Sv] Hn. destruct (key_total x Kx) as [kx Ex], (key_total v Kv) as [kv Ev].
  destruct (key_rank x kx Kx Ex) as (? & _ & R1), (key_rank v kv Kv Ev) as (? & _ & R2).
  apply has_rank_cmp; [done..|]. right. left. split; intros E.
  - apply (keyable_rank_15 dec) in E as ->; done.
  - apply (keyable_rank_15 dec) in E as ->; done.
Qed.

(** A value the range does not hold of is in the complement. *)
Lemma complement_covers op v x kx desc ss :
  clean x → clean v → key x = Some kx →
  (type_rank x = type_rank v → (if is_lower op then cmp x v ≠ Gt else cmp x v ≠ Lt) ∨ is_nan_bson dec x = true) →
  not_range_of dec bo op v desc = Some ss → ∃ s, s ∈ ss ∧ covers s kx.
Proof.
  intros Cx Cv Ex Hc Hr. pose proof (clean_keyable x Cx) as Kx. pose proof (clean_keyable v Cv) as Kv.
  unfold not_range_of in Hr. apply bind_Some in Hr as (kv & Ev & Hr).
  destruct (key_rank v kv Kv Ev) as (body & -> & _), (key_rank x kx Kx Ex) as (bx & -> & _).
  cbn [head mbind option_bind] in Hr. apply bind_Some in Hr as (nan & Enan & [= <-]).
  destruct (decide (type_rank x = type_rank v)) as [E|E].
  - pose proof (rank_eq x v Kx Kv E) as Er. destruct (Hc E) as [Hcmp|Hnan].
    + destruct (is_lower op) eqn:Hop; eexists; (split; [apply elem_of_app; left|]).
      * left.
      * split; [done|]. cbn [Stretch.hi]. case_match; [by apply (below_value x v)|]. eexists _, _. split; [done|lia].
      * right. left.
      * split; [|done]. cbn [Stretch.lo]. case_match; [by apply (above_value x v)|]. eexists _, _. split; [done|lia].
    + assert (type_rank x = 30) as Rx by (by destruct x).
      assert (rank v = rank_number dec bo) as Hrn.
      { apply rank_eq; [done|by constructor|]. by rewrite <- E. }
      rewrite Hrn, Z.eqb_refl. exists (Stretch.point nan). split; [apply elem_of_app; right; left|].
      assert (cmp x (Double F64_NAN) = Eq) as Hx.
      { rewrite (cmp_numbers dec bo) by (done || constructor). unfold number_cmp. rewrite Hnan. done. }
      destruct (cmp_keys x (Double F64_NAN) (rank x :: bx) nan Kx) as (Hb & _); [constructor|done|done|].
      rewrite Hx in Hb. apply bcmp_Eq in Hb as ->. eapply covers_point, key_bytes_all; [|exact Enan]. constructor.
  - pose proof (rank_compare x v Cx Cv E) as Hrk. pose proof (cmp_rank_ne dec bo x v E) as Hcmp.
    assert (rank x < rank v ∧ cmp x v = Lt ∨ rank v < rank x ∧ cmp x v = Gt) as [[Hlt Hne]|[Hgt Hne]].
    { rewrite Hcmp. destruct (Z.compare_spec (type_rank x) (type_rank v)); [done|left|right];
        (split; [|done]); [by apply Z.compare_lt_iff|by apply Z.compare_gt_iff]. }
    + destruct (is_lower op); eexists; (split; [apply elem_of_app; left; left|]); (split; [done|]).
      * cbn [Stretch.hi]. case_match; [apply (below_value x v); try done; by rewrite Hne|]. eexists _, _. split; [done|lia].
      * eexists _, _. split; [done|lia].
    + destruct (is_lower op); eexists; (split; [apply elem_of_app; left; right; left|]); (split; [|done]).
      * eexists _, _. split; [done|lia].
      * cbn [Stretch.lo]. case_match; [apply (above_value x v); try done; by rewrite Hne|]. eexists _, _. split; [done|lia].
Qed.

Lemma range_pred_false op o :
  is_one_of op RANGE_OPS = true → range_pred op o = false → if is_lower op then o ≠ Gt else o ≠ Lt.
Proof.
  intros (a & Ha & ->)%is_one_of_lit. repeat (apply elem_of_cons in Ha as [->|Ha]; [by destruct o; vm_compute|]).
  by apply not_elem_of_nil in Ha.
Qed.

Lemma not_found op v desc :
  is_one_of op RANGE_OPS = true → clean v → missing = true → range_verdict op v = Ok false →
  found (default [Stretch.all] (not_range dec bo op v desc)) idx.
Proof.
  intros Hop Cv Hm Hv. assert (found [Stretch.all] idx) as Hall by (by apply (everything_found ([Stretch.all], true))).
  destruct (not_range dec bo op v desc) as [ss|] eqn:Hr; [cbn [default from_option id]|done].
  unfold not_range in Hr. destruct (is_nan dec v) eqn:Hnan; [done|].
  destruct (trusted_end dec bo v false) eqn:Htr; [|done]. cbn [orb negb] in Hr.
  assert (not_range_of dec bo op v desc = Some ss ∧ range_bound v = true ∧ is_null v = false) as (Hr' & Hb & Hnull).
  { destruct Cv as [Kv Sv]. destruct v; try discriminate Hr; try discriminate Sv; try done; by inversion Kv. }
  unfold range_verdict in Hv. unfold is_nan_bound in Hv. rewrite (is_nan_sound v Hnan), Hnull in Hv. rewrite andb_false_r in Hv.
  destruct (r_missing _ _ _ _ _ Hreach Hm) as [Hne Hmiss].
  assert (∃ c, c ∈ values) as [c Hin] by (clear -Hne; destruct values as [|c cs]; [done|exists c; left]).
  pose proof (any_ok_false _ _ Hv c Hin) as Hc. cbv beta in Hc.
  apply bind_Ok in Hc as ([|] & Hc & Hn); [discriminate Hn|clear Hn].
  assert (∃ x, default Null (value c) = x ∧ x ∈ idx ∧ clean x) as (x & Hxv & Hx & Cx).
  { destruct (value c) as [x|] eqn:Hvc.
    - exists x. split; [done|]. by apply (r_value _ _ _ _ _ Hreach c x).
    - exists Null. split_and!; [done|by apply (Hmiss c)|]. by split; [constructor|]. }
  rewrite Hxv in Hc. apply bind_Ok in Hc as (o & Ho & Hp%Ok_inj). destruct (key_total x (clean_keyable x Cx)) as [kx Ex].
  destruct (complement_covers op v x kx desc ss Cx Cv Ex) as (s & Hs & Hcov); [|done|by apply (found_at x kx s)].
  intros E. destruct (compare_same dec bo Hbo th x v Hth Cx Cv Hb E) as [Hs|[Hs Hn]]; rewrite Hs in Ho; injection Ho as <-.
  - left. by apply range_pred_false.
  - right. by rewrite (is_nan_sound v Hnan), orb_false_r in Hn.
Qed.

(** *** Types *)

Lemma type_items_spec items out ss :
  type_items dec bo items out = Some ss →
  ss = [Stretch.all] ∨
  (∀ s, s ∈ out → s ∈ ss) ∧
  ∀ item, item ∈ items → ∃ code s, item_code item = Some code ∧ code_stretch dec bo code = Some s ∧ s ∈ ss.
Proof.
  revert out. induction items as [|item items IH]; intros out Hs; cbn [type_items] in Hs.
  { case_bool_decide; [done|]. injection Hs as ->. right. split; [done|set_solver]. }
  apply bind_Some in Hs as (code & Hc & Hs). destruct (code =? 4); [left; by injection Hs as <-|].
  apply bind_Some in Hs as (s & Hcs & Hs). destruct (IH _ Hs) as [->|[Ho Hi]]; [by left|right]. split.
  - intros s' Hs'. apply Ho. set_solver.
  - intros it [->|Hit]%elem_of_cons; [|by apply Hi]. exists code, s. split_and!; [done..|]. apply Ho. set_solver.
Qed.

Lemma type_is_code spec name codes hit code :
  type_is dec spec name codes hit = true → item_code spec = Some code →
  hit = true ∧ (alias_code (lit name) = Some code ∨ code ∈ codes).
Proof.
  intros [Hh Hs]%andb_true_iff Hc. split; [done|]. apply orb_true_iff in Hs as [Hs|Hs].
  - left. destruct spec; try done. by apply bool_decide_eq_true in Hs as ->.
  - right. destruct (type_code dec spec) as [c|] eqn:Ht; [|done]. apply bool_decide_eq_true in Hs.
    assert (Some code = Some c) as [= ->]; [|done]. rewrite <- Hc, <- Ht. by destruct spec.
Qed.

Ltac keyable_sample := solve [repeat (constructor; try done; try (vm_compute; done))].

(** Close a type's case: [v] is the value whose rank is read. *)
Ltac close_type Hbr Hs v :=
  apply (Hbr v); [keyable_sample|reflexivity|exact Hs].

(** The values of a type are keyed in its bracket. *)
Lemma type_covers x item code s :
  clean x → matches_type dec x item = true → item_code item = Some code → code_stretch dec bo code = Some s →
  found [s] [x].
Proof.
  intros Cx Hm Hc Hs. pose proof (clean_keyable x Cx) as Kx.
  assert (∀ v, keyable v → type_rank x = type_rank v → Some (Stretch.bracket (rank v)) = Some s → found [s] [x]) as Hbr.
  { intros v Kv E [= <-]. apply (found_bracket x v); try done; left. }
  assert (∀ v k, keyable v → x = v → key v = Some k → s = Stretch.point k → found [s] [x]) as Hpt.
  { intros v k Kv -> Ek ->. apply (found_point v v k); try done; [left| |left]. by apply (cmp_refl dec bo Hbo). }
  assert (as_raw_text x = None) as Hraw by (by eapply keyable_raw).
  unfold matches_type in Hm. cbv zeta in Hm. rewrite Hraw, orb_false_r in Hm.
  repeat (apply orb_true_iff in Hm as [Hm|Hm]).
  all: destruct (type_is_code _ _ _ _ _ Hm Hc) as [Hh Hcode]; clear Hm Hc.
  all: destruct Hcode as [Hcode|Hcode];
    [vm_compute in Hcode; first [discriminate Hcode|injection Hcode as <-]
    |first [apply list_elem_of_singleton in Hcode as -> |by apply not_elem_of_nil in Hcode]].
  all: first [change (None = Some s) in Hs; discriminate Hs|idtac].
  all: destruct x; try discriminate Hh.
  all: try (by destruct Cx as [Kx' Sx']; first [discriminate Sx'|inversion Kx']).
  all: first
    [ by close_type Hbr Hs (Int32 0) | by close_type Hbr Hs (String []) | by close_type Hbr Hs (Document [])
    | by close_type Hbr Hs (Binary 0 []) | by close_type Hbr Hs (ObjectId (replicate 12 0))
    | by close_type Hbr Hs (Boolean false) | by close_type Hbr Hs (DateTime 0)
    | by close_type Hbr Hs (RegularExpression [] []) | by close_type Hbr Hs (JavaScriptCode [])
    | by close_type Hbr Hs (Timestamp 0 0)
    | apply bind_Some in Hs as (k & Hk & [= <-]); by eapply Hpt
    | idtac ].
  all: pose proof (clean_utf8 dec _ Cx) as Hu.
  1, 2: cbn [is_string] in Hh; by rewrite Hu in Hh.
  all: apply (Hbr (Document [])); [apply k_document; [done|constructor]| |exact Hs].
  all: rewrite (document_kind dec bo) by done; done.
Qed.

Lemma type_found spec field ss :
  op_type dec values spec field descend = Ok true → type_ranks dec bo spec = Some ss → found ss idx.
Proof.
  intros Hop Hr. unfold op_type in Hop. unfold type_ranks in Hr. set (specs := match spec with Array a => a | _ => [spec] end) in *.
  assert (any_value (λ v, existsb (matches_type dec v) specs) descend values = true) as Ha.
  { destruct spec as [| |a| | | | | | | | | | | | | | | | | |]; try destruct a; try discriminate Hop.
    all: by apply bind_Ok in Hop as (_ & _ & Hop%Ok_inj). }
  destruct (reach_any values descend idx missing deep Hreach _ Ha) as (x & Hx & Cx & (item & Hi & Hm)%existsb_exists).
  destruct (type_items_spec specs [] ss Hr) as [->|[_ Hit]]; [by apply (everything_found ([Stretch.all], true))|].
  destruct (Hit item) as (code & s & Hc & Hs & Hin); [by apply list_elem_of_In|].
  destruct (type_covers x item code s Cx Hm Hc Hs) as (x' & k & s' & Hx'%list_elem_of_singleton & Hk & Hs'%list_elem_of_singleton & Hcov).
  subst. by apply (found_at x k s).
Qed.

(** *** The rest *)

Lemma mod_hits div rem :
  any_ok (λ c, match value c with
               | None => Ok false
               | Some val => b ← mod_check dec div rem val;
                             if b : bool then Ok true else any_ok (mod_check dec div rem) (default [] (elements c descend))
               end) values = Ok true →
  any_value (λ v, ⌊is_Some (mod_int dec v)⌋) descend values = true.
Proof.
  intros Ha. apply any_ok_true in Ha as (c & Hc & Hb). apply existsb_exists. exists c. split; [by apply list_elem_of_In|].
  assert (∀ v, mod_check dec div rem v = Ok true → ⌊is_Some (mod_int dec v)⌋ = true) as Hv.
  { intros v Hv. unfold mod_check in Hv. destruct (mod_int dec v) as [iv|]; [|done]. by apply bool_decide_eq_true. }
  destruct (value c) as [v|]; [|done]. apply bind_Ok in Hb as (b & Hm & Hb). destruct b; [by rewrite Hv|].
  apply any_ok_true in Hb as (e & He & Hm'). apply orb_true_iff. right. apply existsb_exists. exists e.
  split; [by apply list_elem_of_In|auto].
Qed.

Lemma mod_found spec ss :
  op_mod dec values spec descend = Ok true → ss = [Stretch.bracket (rank_number dec bo)] → found ss idx.
Proof.
  intros Hop ->. assert (any_value (λ v, ⌊is_Some (mod_int dec v)⌋) descend values = true) as Ha.
  { unfold op_mod in Hop. destruct spec; try done. case_match; [done|]. apply bind_Ok in Hop as (d & _ & Hop).
    case_match; [done|]. apply bind_Ok in Hop as (r & _ & Hop). do 2 (case_match; [done|]).
    apply bind_Ok in Hop as (div & _ & Hop). apply bind_Ok in Hop as (rem & _ & Hop). case_match; [done|].
    by eapply mod_hits. }
  destruct (reach_any values descend idx missing deep Hreach _ Ha) as (x & Hx & Cx & Hm%bool_decide_eq_true).
  apply (found_bracket x (Int32 0)); [done|by apply clean_keyable|by constructor| |left]. destruct x; try done; by destruct Hm.
Qed.

Lemma exists_found arg k :
  (bson_truthy_exists arg = false → missing = true) → bson_truthy_exists arg = false →
  Bool.eqb (existsb (λ c, ⌊is_Some (value c)⌋) values) (truthy dec arg) = true → key Null = Some k →
  found [Stretch.point k] idx.
Proof.
  intros Hm Hf He Hk. assert (truthy dec arg = false) as Ht by (by destruct arg). rewrite Ht in He.
  apply Bool.eqb_prop in He. destruct (r_missing _ _ _ _ _ Hreach (Hm Hf)) as [Hne Hmiss].
  assert (∃ c, c ∈ values) as [c Hin] by (clear -Hne; destruct values as [|c cs]; [done|exists c; left]).
  assert (value c = None) as Hv.
  { apply eq_None_not_Some. intros Hs. apply (not_true_iff_false _) in He. apply He, existsb_exists.
    exists c. split; [by apply list_elem_of_In|by apply bool_decide_eq_true]. }
  eapply (found_point Null Null k); [by apply (Hmiss c)|constructor|constructor|done|done|left].
Qed.

(** Evaluate the tests of an operator's name. *)
Ltac eval_names Hop :=
  repeat match type of Hop with
  | context [op_is (lit ?a) ?b] =>
      let r := eval vm_compute in (op_is (lit a) b) in change (op_is (lit a) b) with r in Hop; cbv iota in Hop
  | context [is_one_of (lit ?a) ?b] =>
      let r := eval vm_compute in (is_one_of (lit a) b) in change (is_one_of (lit a) b) with r in Hop; cbv iota in Hop
  end.

Ltac eval_op Hop :=
  unfold op_matches in Hop; apply bind_Ok in Hop as (_ & _ & Hop); cbv zeta in Hop; eval_names Hop.

Context (field_rec : Thread → list Cand → Bson → option Collation → bytes → bool → R bool).
Context (matches_rec : Thread → Doc → Doc → Doc → option Collation → R bool).
Context (field : bytes).

Lemma op_matches_range op v b :
  is_one_of op RANGE_OPS = true →
  op_matches dec bo field_rec matches_rec th values op v None field descend = Ok b → range_verdict op v = Ok b.
Proof.
  intros (a & Ha & ->)%is_one_of_lit Hop. unfold range_verdict, range_pred.
  repeat (apply elem_of_cons in Ha as [->|Ha]; [eval_op Hop; exact Hop|]). by apply not_elem_of_nil in Ha.
Qed.

Context (Hnot : ∀ op v b, is_one_of op RANGE_OPS = true →
  field_rec th values (Document [(op, v)]) None field descend = Ok b → range_verdict op v = Ok b).

Lemma negate_true r : negate r = Ok true → r = Ok false.
Proof. intros (b & -> & Hb%Ok_inj)%bind_Ok. by destruct b. Qed.

Lemma clean_single k v : clean (Document [(k, v)]) → clean v.
Proof. intros Hc. apply (clean_field dec _ (k, v) Hc). left. Qed.

Lemma not_operator_found arg desc r :
  clean arg → missing = true → negate (field_rec th values arg None field descend) = Ok true →
  not_operator dec bo arg desc = Some r → found r.1 idx.
Proof.
  intros Ca Hm Hop%negate_true Hr. unfold not_operator in Hr.
  destruct arg as [| | |[|[iop iv] [|]]| | | | | | | | | | | | | | | | |]; try (by apply everything_found).
  destruct (is_one_of iop ["$gt"; "$gte"; "$lt"; "$lte"]) eqn:Hi; [|by apply everything_found].
  injection Hr as <-. cbn [fst]. apply not_found; [done|by eapply clean_single|done|]. by apply Hnot.
Qed.

Lemma all_found arg desc first rest r :
  arg = Array (first :: rest) → clean arg → (existsb is_null (first :: rest) = true → missing = true) →
  (∀ d, first = Document d → existsb dollar (keys d) = false) →
  op_all dec field_rec matches_rec th values arg None field descend = Ok true →
  equality dec bo alnum first desc = Some r → found r.1 idx.
Proof.
  intros -> Ca Hm Hd Hop Hr. unfold op_all in Hop. rewrite bool_decide_false in Hop by done.
  apply bind_Ok in Hop as (lead & Hlead & Hop). apply bind_Ok in Hop as (u & Hu & Hop). clear u Hu lead Hlead.
  pose proof (all_ok_true _ _ Hop first ltac:(left)) as Hf. cbv beta in Hf.
  apply (candidate_found first desc r); [eapply clean_item; [done|left]| | |done].
  - intros Hn. apply Hm. cbn [existsb]. by rewrite Hn.
  - unfold all_holds in Hf. destruct first as [| | |d| | | | | | | | | | | | | | | | |]; try exact Hf.
    destruct (is_elemmatch (Document d)) eqn:He; [|exact Hf]. exfalso. specialize (Hd d eq_refl).
    destruct d as [|[k v] d]; [done|]. cbn in He. apply bool_decide_eq_true in He as ->.
    by vm_compute in Hd.
Qed.

(** Each operator the scan reads: what it holds of is at its stretches. *)
Lemma op_found elem_operators op arg whole desc r :
  clean arg → (operator_may_match_missing op arg = true → missing = true) → op_is op "$regex" = false →
  (∀ inner, arg = Document inner → inner ≠ [] → existsb (λ k, negb (dollar k)) (keys inner) = false →
    op_elem_match field_rec matches_rec th values arg field = Ok true → elem_operators inner false desc = Some r →
    found r.1 idx) →
  op_matches dec bo field_rec matches_rec th values op arg None field descend = Ok true →
  operator dec bo alnum elem_operators op arg whole desc = Some r → found r.1 idx.
Proof.
  intros Ca Hm Hnr Hel Hop Hr. unfold operator in Hr. unfold operator_may_match_missing in Hm.
  destruct (op_is op "$eq") eqn:E1.
  { apply op_is_true in E1 as ->. eval_op Hop. eval_names Hm. eapply equality_found; [done| |done|done].
    intros Hn. apply Hm. by rewrite Hn. }
  destruct (is_one_of op ["$gt"; "$gte"; "$lt"; "$lte"]) eqn:E2.
  { apply bind_Some in Hr as (ss & Hs & [= <-]). cbn [fst].
    eapply range_found; [done| |by eapply op_matches_range|done].
    intros Hn. apply Hm. apply is_one_of_lit in E2 as (a & Ha & ->).
    rewrite Hn. repeat (apply elem_of_cons in Ha as [->|Ha]; [by vm_compute|]). by apply not_elem_of_nil in Ha. }
  destruct (op_is op "$in") eqn:E3.
  { apply op_is_true in E3 as ->. eval_op Hop. eval_names Hm. destruct arg; try discriminate Hr.
    eapply in_found; [done| |done|done]. intros Hn. apply Hm. by rewrite Hn. }
  destruct (is_one_of op ["$ne"; "$nin"]) eqn:E4; [by apply everything_found|].
  destruct (op_is op "$not") eqn:E5.
  { apply op_is_true in E5 as ->. eval_op Hop. apply bind_Ok in Hop as (_ & _ & Hop).
    eapply not_operator_found; [done| |done|done]. apply Hm. by vm_compute. }
  destruct (op_is op "$exists") eqn:E6.
  { apply op_is_true in E6 as ->. eval_op Hop. eval_names Hm. apply Ok_inj in Hop.
    destruct (bson_truthy_exists arg) eqn:Ht; [by apply everything_found|].
    apply bind_Some in Hr as (k & Hk & [= <-]). cbn [fst]. eapply exists_found; [|done..]. intros _. apply Hm. done. }
  destruct (op_is op "$type") eqn:E7.
  { apply op_is_true in E7 as ->. eval_op Hop. apply bind_Some in Hr as (ss & Hs & [= <-]). by eapply type_found. }
  destruct (op_is op "$mod") eqn:E8.
  { apply op_is_true in E8 as ->. eval_op Hop. injection Hr as <-. by eapply mod_found. }
  rewrite Hnr in Hr.
  destruct (op_is op "$all") eqn:E9.
  { apply op_is_true in E9 as ->. eval_op Hop. eval_names Hm. destruct arg as [| |a| | | | | | | | | | | | | | | | | |]; try discriminate Hr.
    destruct a as [|first rest]; [discriminate Hr|].
    assert (equality dec bo alnum first desc = Some r ∧ ∀ d, first = Document d → existsb dollar (keys d) = false) as [He Hd].
    { destruct first; try (split; [exact Hr|done]). case_match; [done|]. split; [done|]. by intros d' [= <-]. }
    eapply (all_found (Array (first :: rest))); [done|done| |done|done|done]. intros Hn. apply Hm. by rewrite Hn. }
  destruct (op_is op "$elemMatch") eqn:E10; [|done].
  apply op_is_true in E10 as ->. eval_op Hop. destruct arg as [| | |inner| | | | | | | | | | | | | | | | |]; try discriminate Hr.
  destruct (bool_decide_reflect (inner = [])); [done|].
  destruct (existsb (λ k, negb (dollar k)) (keys inner)) eqn:Hk; [done|]. cbn [orb] in Hr.
  destruct (contains_key inner (lit "$elemMatch")); [done|]. by eapply Hel.
Qed.

(** *** [$regex] and its options *)

Lemma regex_operator_found d arg desc r :
  NoDup (keys d) → (lit "$regex", arg) ∈ d → clean arg → regex_pair_ok d = Ok () →
  op_regex values arg (doc_get d (lit "$options")) descend = Ok true →
  regex_operator dec bo alnum arg d desc = Some r → found r.1 idx.
Proof.
  intros Hnd Hin Ca Hpair Hop Hr. pose proof (elem_doc_get d _ _ Hnd Hin) as Hg.
  unfold regex_pair_ok in Hpair. rewrite Hg in Hpair. apply bind_Ok in Hpair as (u & Hopt & Hflags).
  unfold regex_operator, get_str in Hr.
  assert (∀ w o, want_regex arg (doc_get d (lit "$options")) = Some (w, o) → all_bytes w →
    Forall (λ c, 0 ≤ c < 0x110000) o → regex dec bo alnum w o desc = Some r → found r.1 idx) as Hfin.
  { intros w o Hw Aw Ao. by eapply op_regex_found. }
  destruct (doc_get d (lit "$options")) as [opts|].
  - rewrite bool_decide_true in Hopt by eauto. cbn [negb] in Hopt. apply bind_Ok in Hopt as (u' & Hok & Hboth). destruct u'.
    destruct opts; try discriminate Hok. pose proof (flags_in_range _ Hok) as Ao.
    destruct arg; try discriminate Hr; cbn [mbind option_bind] in Hr.
    + eapply Hfin; [done| |done|done]. by destruct Ca as [Ka _]; inversion Ka.
    + destruct (clean_regex _ _ Ca). destruct options; [|done]. by eapply Hfin.
  - destruct arg; try discriminate Hr; cbn [mbind option_bind] in Hr.
    + eapply Hfin; [done| |constructor|done]. by destruct Ca as [Ka _]; inversion Ka.
    + destruct (clean_regex _ _ Ca). by eapply Hfin.
Qed.

(** *** A document of operators *)

Definition unique (l : list Bson) : Prop := ∀ x y, x ∈ l → y ∈ l → x = y.

Lemma found_intersect a b : unique idx → found a idx → found b idx → found (intersect a b) idx.
Proof.
  intros Hu (x & k & s & Hx & Hk & Hs & Hc) (y & k' & t & Hy & Hk' & Ht & Hc'). rewrite (Hu y x Hy Hx) in Hk'. simplify_eq.
  destruct (intersect_lists a b k) as (u & Hin & Hcov); [by exists s|by exists t|]. by apply (found_at x k u).
Qed.

Lemma operators_found elem_operators d multikey desc r :
  (multikey = true ∨ unique idx) →
  (∀ e r, e ∈ d → op_is e.1 "$options" = false → operator dec bo alnum elem_operators e.1 e.2 d desc = Some r → found r.1 idx) →
  operators_with dec bo alnum elem_operators d multikey desc = Some r → found r.1 idx.
Proof.
  intros Hmk Hd. unfold operators_with.
  assert (∀ l picked, (∀ e, e ∈ l → e ∈ d) → (∀ r, picked = Some r → found r.1 idx) →
    foldl (λ picked e, if op_is e.1 "$options" then picked
      else match operator dec bo alnum elem_operators e.1 e.2 d desc with
           | Some r => Some (pick multikey picked r) | None => picked end) picked l = Some r → found r.1 idx) as Hfold.
  { induction l as [|e l IH]; intros picked Hsub Hp Hr; [by apply Hp|]. cbn [foldl] in Hr.
    eapply IH; [|clear Hr|exact Hr]; [intros; apply Hsub; by right|]. intros r' Hr'.
    destruct (op_is e.1 "$options") eqn:Ho; [by apply Hp|].
    destruct (operator dec bo alnum elem_operators e.1 e.2 d desc) as [re|] eqn:Hop; [|by apply Hp].
    pose proof (Hd e re (Hsub e ltac:(left)) Ho Hop) as Hre. injection Hr' as <-. unfold pick.
    destruct picked as [have|]; [|done]. specialize (Hp have eq_refl).
    destruct multikey; [by case_match|]. destruct Hmk as [|Hu]; [done|]. by apply found_intersect. }
  apply Hfold; [done|]. by intros.
Qed.
End operators.

(** ** A near query has its condition to itself *)

Definition NEAR_KEYS : list string := ["$near"; "$nearSphere"; "$geoNear"; "$maxDistance"; "$minDistance"; "$uniqueDocs"].

Definition near_law : Prop :=
  ∀ d near, geo_near d = Ok (Some near) → ∀ k, k ∈ keys d → is_one_of k NEAR_KEYS = true.

Context (Hgeo : near_law).

Lemma operators_none elem_operators d multikey desc names :
  (∀ k arg, is_one_of k names = true → operator dec bo alnum elem_operators k arg d desc = None) →
  (∀ k, k ∈ keys d → is_one_of k names = true) → operators_with dec bo alnum elem_operators d multikey desc = None.
Proof.
  intros Hn Hk. unfold operators_with.
  assert (∀ l, (∀ e : bytes * Bson, e ∈ l → e ∈ d) →
    foldl (λ picked e, if op_is e.1 "$options" then picked
      else match operator dec bo alnum elem_operators e.1 e.2 d desc with
           | Some r => Some (pick multikey picked r) | None => picked end) None l = None) as Hfold; [|by apply Hfold].
  induction l as [|[k arg] l IH]; intros Hsub; [done|]. cbn [foldl fst snd].
  rewrite (Hn k arg) by (apply Hk; eapply elem_of_keys, Hsub; left).
  destruct (op_is k "$options"); apply IH; intros e He; apply Hsub; by right.
Qed.

Lemma operator_none elem_operators names k arg d desc :
  names = NEAR_KEYS ∨ names = KNOWN_TOP_LEVEL_OPERATORS → is_one_of k names = true →
  operator dec bo alnum elem_operators k arg d desc = None.
Proof.
  intros Hn (a & Ha & ->)%is_one_of_lit. destruct Hn as [->| ->].
  all: repeat (apply elem_of_cons in Ha as [->|Ha]; [reflexivity|]); by apply not_elem_of_nil in Ha.
Qed.

(** ** Conditions *)

Fixpoint distinct (v : Bson) : bool :=
  match v with
  | Array a => forallb distinct a
  | Document d => ⌊NoDup (keys d)⌋ && forallb (λ e : bytes * Bson, distinct e.2) d
  | _ => true
  end.

Lemma distinct_field d e : distinct (Document d) = true → e ∈ d → NoDup (keys d) ∧ distinct e.2 = true.
Proof.
  intros [Hn Hd]%andb_true_iff He. apply bool_decide_eq_true in Hn. rewrite forallb_forall in Hd.
  split; [done|]. by apply Hd, list_elem_of_In.
Qed.

Lemma operator_dict_fuel m th values d coll field descend b :
  is_operator_dict d = true → field_fuel dec bo m th values (Document d) coll field descend = Ok b →
  ∃ m', m = S m' ∧ regex_pair_ok d = Ok () ∧ ∃ near, geo_near d = Ok near ∧
  match near with
  | Some near => near_matches near values = b
  | None => all_ok (λ e : bytes * Bson,
              if op_is e.1 "$options" then Ok true
              else if op_is e.1 "$regex" then op_regex values e.2 (doc_get d (lit "$options")) descend
              else op_matches dec bo (field_fuel dec bo m') (matches_fuel dec bo m') th values e.1 e.2 coll field descend) d = Ok b
  end.
Proof.
  intros Hd Hf. destruct m as [|m]; [done|]. exists m. split; [done|]. cbn [field_fuel field_matches_with] in Hf.
  rewrite Hd in Hf. apply bind_Ok in Hf as (u & Hp & Hf). destruct u. split; [done|].
  apply bind_Ok in Hf as (near & Hg & Hf). exists near. split; [done|]. destruct near; [by apply Ok_inj in Hf|done].
Qed.

Lemma range_fuel th values descend m op v b field :
  is_one_of op RANGE_OPS = true → field_fuel dec bo m th values (Document [(op, v)]) None field descend = Ok b →
  range_verdict values descend th op v = Ok b.
Proof.
  intros Hop Hf. pose proof Hop as (a & Ha & ->)%is_one_of_lit.
  assert (is_operator_dict [(lit a, v)] = true ∧ op_is (lit a) "$options" = false ∧ op_is (lit a) "$regex" = false ∧
    is_one_of (lit a) NEAR_KEYS = false) as (Hd & Ho & Hr & Hn).
  { clear -Ha. repeat (apply elem_of_cons in Ha as [->|Ha]; [by vm_compute|]). by apply not_elem_of_nil in Ha. }
  destruct (operator_dict_fuel m th values _ None field descend b Hd Hf) as (m' & -> & _ & [near|] & Hg & Hall).
  { pose proof (Hgeo _ _ Hg (lit a) ltac:(left)) as Hk. by rewrite Hn in Hk. }
  cbn [all_ok fst snd] in Hall. rewrite Ho, Hr in Hall. apply bind_Ok in Hall as (b' & Hop' & Hb).
  assert (b' = b) as -> by (destruct b'; cbn in Hb; by injection Hb). by eapply op_matches_range.
Qed.

(** Operators on one field: the elements' own operators by [Hel]. *)
Lemma document_found values descend idx missing deep th m d field elem_operators multikey desc r :
  reach values descend idx missing deep → active th = None → clean (Document d) → NoDup (keys d) → is_operator_dict d = true →
  (∀ e, e ∈ d → operator_may_match_missing e.1 e.2 = true → missing = true) → (multikey = true ∨ unique idx) →
  (∀ m e inner r, e ∈ d → e.2 = Document inner → inner ≠ [] → existsb (λ k, negb (dollar k)) (keys inner) = false →
    op_elem_match (field_fuel dec bo m) (matches_fuel dec bo m) th values e.2 field = Ok true →
    elem_operators inner false desc = Some r → found r.1 idx) →
  field_fuel dec bo m th values (Document d) None field descend = Ok true →
  operators_with dec bo alnum elem_operators d multikey desc = Some r → found r.1 idx.
Proof.
  intros Hreach Hth Cd Hnd Hd Hm Hmk Hel Hf Hr.
  destruct (operator_dict_fuel m th values d None field descend true Hd Hf) as (m' & -> & Hpair & [near|] & Hg & Hall).
  { rewrite (operators_none elem_operators d multikey desc NEAR_KEYS) in Hr; [done|intros; apply (operator_none _ NEAR_KEYS); auto|].
    exact (Hgeo d near Hg). }
  eapply operators_found; [done| |exact Hr].
  intros [op arg] re He Ho Hop. pose proof (all_ok_true _ _ Hall _ He) as Hv. cbn [fst snd] in *. rewrite Ho in Hv.
  pose proof (clean_field dec d _ Cd He) as Ca. cbn [snd] in Ca.
  destruct (op_is op "$regex") eqn:Hre.
  - apply op_is_true in Hre as ->. assert (regex_operator dec bo alnum arg d desc = Some re) as Hop' by exact Hop.
    by eapply regex_operator_found.
  - eapply (op_found values descend idx missing deep Hreach th Hth (field_fuel dec bo m') (matches_fuel dec bo m') field);
      [|done| | | |exact Hv|exact Hop]; [|by apply (Hm (op, arg))|done|].
    + intros op' v b Hrange. by apply range_fuel.
    + intros inner -> Hne Hk Hem Heo. by eapply (Hel m' (op, Document inner)).
Qed.

Lemma unknown_clause fr mr th doc key cond vars coll :
  dollar key = true → is_one_of key KNOWN_TOP_LEVEL_OPERATORS = false →
  match_clause dec fr mr th doc key cond vars coll = Err (unknown_top_level_operator key).
Proof.
  intros Hd Hk.
  assert (∀ a, a ∈ KNOWN_TOP_LEVEL_OPERATORS → op_is key a = false) as Hn.
  { intros a Ha. apply not_true_iff_false. intros ->%op_is_true. apply not_true_iff_false in Hk. apply Hk.
    apply bool_decide_eq_true. apply list_elem_of_fmap. by exists a. }
  assert (is_one_of key ["$alwaysTrue"; "$alwaysFalse"] = false) as Ha.
  { apply not_true_iff_false. intros (a & Ha & ->)%is_one_of_lit.
    assert (op_is (lit a) a = false) as Hf by (apply Hn; set_solver). by apply bool_decide_eq_false in Hf. }
  unfold match_clause. rewrite !Hn by set_solver. rewrite Ha, Hd, Hk. done.
Qed.

Lemma elem_reach e : clean e → reach [plain (Some e)] false [e] true false.
Proof.
  intros Ce. apply mkReach.
  - intros c v ->%list_elem_of_singleton [= <-]. split; [left|done].
  - intros c arr x ->%list_elem_of_singleton He. discriminate He.
  - intros [=].
  - intros _. split; [done|]. intros c ->%list_elem_of_singleton [=].
  - done.
  - constructor; [by destruct Ce|constructor].
Qed.

Lemma found_sub ss idx idx' : (∀ x, x ∈ idx → x ∈ idx') → found ss idx → found ss idx'.
Proof. intros Hs (x & k & s & ? & ? & ? & ?). exists x, k, s. auto. Qed.

(** [$elemMatch]: the operators hold of one element, which is indexed. *)
Lemma elem_found values descend idx missing th m inner field desc r :
  reach values descend idx missing true → active th = None → clean (Document inner) → NoDup (keys inner) → inner ≠ [] →
  existsb (λ k, negb (dollar k)) (keys inner) = false →
  op_elem_match (field_fuel dec bo m) (matches_fuel dec bo m) th values (Document inner) field = Ok true →
  operators_with dec bo alnum (λ _ _ _, None) inner false desc = Some r → found r.1 idx.
Proof.
  intros Hreach Hth Ci Hnd Hne Hk Hop Hr. apply bind_Ok in Hop as (u & _ & Hop).
  apply any_ok_true in Hop as (c & Hc & Hop). destruct (value c) as [[]|] eqn:Hv; try discriminate Hop.
  apply any_ok_true in Hop as (e & He & Hop). destruct (r_item _ _ _ _ _ Hreach eq_refl c a e Hc Hv He) as [Hi Ce].
  unfold elem_match_one in Hop. rewrite Hth in Hop. destruct (scalar_form inner) eqn:Hsf.
  - apply (found_sub r.1 [e]); [by intros x ->%list_elem_of_singleton|]. apply andb_true_iff in Hsf as [Hd _].
    eapply (document_found [plain (Some e)] false [e] true false); [by apply elem_reach|done|done|done|done|done| | |exact Hop|exact Hr].
    + right. intros x y Hx%list_elem_of_singleton Hy%list_elem_of_singleton. congruence.
    + done.
  - exfalso. assert (∃ doc, matches_fuel dec bo m th doc inner [] None = Ok true) as [doc Hm] by (destruct e; eauto; done).
    destruct m as [|m]; [done|]. cbn [matches_fuel] in Hm. unfold matches_with in Hm. rewrite Hth in Hm.
    rewrite (operators_none _ inner false desc KNOWN_TOP_LEVEL_OPERATORS) in Hr; [done| |].
    { intros k arg. apply operator_none. by right. }
    intros k Hin. destruct (is_one_of k KNOWN_TOP_LEVEL_OPERATORS) eqn:Hkn; [done|].
    assert (dollar k = true) as Hdk.
    { apply not_false_iff_true. intros Hf. apply not_true_iff_false in Hk. apply Hk, existsb_exists. exists k.
      split; [by apply list_elem_of_In|by rewrite Hf]. }
    apply list_elem_of_fmap in Hin as (e' & -> & Hin). pose proof (all_ok_true _ _ Hm e' Hin) as Hcl. cbv beta in Hcl.
    by rewrite unknown_clause in Hcl.
Qed.

(** One field's condition. *)
Lemma field_found values idx missing th m pred field multikey desc b :
  reach values true idx missing true → active th = None → clean pred → distinct pred = true →
  (predicate_may_match_missing (Some pred) = true → missing = true) → (multikey = true ∨ unique idx) →
  (∀ d, pred = Document d → forallb dollar (keys d) = true → d ≠ [] → is_operator_dict d = true) →
  field_fuel dec bo m th values pred None field true = Ok true →
  for_predicate dec bo alnum pred multikey desc = Some b → found (stretches b) idx.
Proof.
  intros Hreach Hth Cp Hdist Hm Hmk Hdict Hf Hb. unfold for_predicate in Hb. apply bind_Some in Hb as (r & Hr & [= <-]).
  cbn [stretches]. enough (found r.1 idx) as (x & k & s & Hx & Hk & Hs & Hc).
  { apply (found_at x k s); [done..| |done]. apply list_elem_of_filter. by rewrite (covers_nonempty s k Hc). }
  assert (is_null pred = true → missing = true) as Hnull by (by destruct pred).
  assert ((∀ d, pred = Document d → is_operator_dict d = false) → equality dec bo alnum pred desc = Some r → found r.1 idx) as Heq.
  { intros Hnd He. destruct m as [|m]; [done|]. cbn [field_fuel] in Hf.
    eapply candidate_found; [exact Hreach|done|done| |done].
    unfold field_matches_with in Hf. destruct pred; try exact Hf; try discriminate Hf.
    - by rewrite (Hnd d eq_refl) in Hf.
    - by apply bind_Ok in Hf as (_ & _ & Hf). }
  destruct pred as [| | |d| | | | | | | | | | | | | | | | |]; try (by apply Heq).
  destruct d as [|kv d]; [by apply Heq; [by intros d [= <-]|]|]. set (dd := kv :: d) in *.
  destruct (forallb dollar (keys dd)) eqn:Hall.
  - destruct (distinct_field dd kv Hdist ltac:(left)) as [Hnd _].
    eapply (document_found values true idx missing true); [done|done|done|done|by apply Hdict| |done| |exact Hf|exact Hr].
    + intros e He Hme. apply Hm. cbn [predicate_may_match_missing]. apply andb_true_iff. split; apply existsb_exists.
      * exists e. split; [by apply list_elem_of_In|]. rewrite forallb_forall in Hall. apply Hall, list_elem_of_In.
        by apply list_elem_of_fmap_2.
      * exists e. split; [by apply list_elem_of_In|done].
    + intros m' e inner r' He Hinner Hne Hk Hop Hop'. rewrite Hinner in Hop.
      destruct (distinct_field dd e Hdist He) as [_ Hde]. rewrite Hinner in Hde.
      pose proof (clean_field dec dd e Cp He) as Ce. rewrite Hinner in Ce.
      eapply elem_found; [done|done|done| |done|done|exact Hop|exact Hop'].
      destruct inner as [|kv' inner]; [done|]. by apply (distinct_field _ kv' Hde ltac:(left)).
  - destruct (existsb dollar (keys dd)) eqn:Hex; [done|]. apply Heq; [|done]. intros d' [= <-].
    destruct kv as [k v]. cbn in Hex. cbn. apply orb_false_iff in Hex as [-> _]. done.
Qed.
End scan.
