(* ===== verification/SpanFacts.v ===== *)
(** * Spans hold the entries of what the stretches cover

    From ascending keys to the bytes an index stores: directions, escaping, the
    filter of empty spans, the merge of those that touch, and the scan. *)
From stdpp Require Import strings.
From S2P Require Import Prelude RustM Bson Lex Docs Paths Numeric NumericFacts Order SortKey SortKeyNum.
From S2P Require Import SortKeyFacts SortKeyOrder Decimal Query QueryFacts IndexKeys ScanBounds IndexScan.
From S2P Require Import ScanFacts.
Local Open Scope Z_scope.
Local Open Scope secantus_scope.

(** ** Escaping *)

Lemma escape_kb_escape kb : escape_kb kb = escape kb.
Proof. induction kb as [|b kb IH]; [done|]. cbn [escape_kb escape]. rewrite IH. by destruct (b =? 0). Qed.

Lemma escape_app a b : escape (a ++ b) = escape a ++ escape b.
Proof.
  induction a as [|x a IH]; [done|]. change ((x :: a) ++ b) with (x :: (a ++ b)).
  by rewrite !escape_cons, IH, <- app_assoc.
Qed.

Lemma bcmp_escape a b : all_bytes a → all_bytes b → bcmp (escape a) (escape b) = bcmp a b.
Proof.
  intros Ha%all_bytes_nonneg Hb%all_bytes_nonneg. rewrite <- (app_nil_r (escape a)), <- (app_nil_r (escape b)).
  by apply escape_cmp; [..|left].
Qed.

Lemma bcmp_le_app a b r : bcmp a b ≠ Gt → bcmp a (b ++ r) ≠ Gt.
Proof.
  intros Hab. destruct r as [|x r]; [by rewrite app_nil_r|].
  by rewrite (bcmp_le_lt a b (b ++ x :: r) Hab (bcmp_app_lt b x r)).
Qed.

Lemma bcmp_lt_app a b r : bcmp a b = Lt → bcmp a (b ++ r) = Lt.
Proof.
  intros Hab. destruct r as [|x r]; [by rewrite app_nil_r|]. eapply bcmp_trans_lt; [exact Hab|apply bcmp_app_lt].
Qed.

(** What follows a column's key in an entry. *)
Inductive rest_of : bytes → Prop :=
  | rest_nil : rest_of []
  | rest_sep t : all_bytes t → rest_of (COMPOUND_SEP ++ t).

Lemma rest_all_bytes t : rest_of t → all_bytes t.
Proof. intros [|u Hu]; [constructor|]. apply all_bytes_app. split; [apply sep_all_bytes|done]. Qed.

Lemma rest_below t : rest_of t → bcmp (escape t) [0xFF] = Lt.
Proof. by intros []. Qed.

(** An entry is below a key end when its key is at or before the end's. *)
Lemma below_high a b c t :
  all_bytes a → all_bytes b → rest_of t → key_rel a b c → c ≠ Gt → bcmp (escape (a ++ t)) (escape b ++ [0xFF]) = Lt.
Proof.
  intros Ha Hb Ht (H1 & H2 & H3) Hc. destruct c; [|clear Hc|done].
  - apply bcmp_Eq in H1 as ->. rewrite escape_app, bcmp_app_same. by apply rest_below.
  - destruct Ht as [|u Hu].
    + rewrite app_nil_r. apply bcmp_lt_app. by rewrite bcmp_escape.
    + assert (bcmp (escape (a ++ COMPOUND_SEP ++ u)) (escape (b ++ COMPOUND_SEP)) = Lt) as Hlt.
      { rewrite bcmp_escape; [|rewrite !all_bytes_app; auto using sep_all_bytes..].
        rewrite app_assoc, <- (app_nil_r (b ++ _)), bcmp_app by done. by rewrite H2. }
      eapply bcmp_trans_lt; [exact Hlt|]. by rewrite escape_app, bcmp_app_same.
Qed.

Lemma above_low a b c t :
  all_bytes a → all_bytes b → key_rel a b c → c ≠ Gt → bcmp (escape a) (escape (b ++ t)) ≠ Gt.
Proof. intros Ha Hb (<- & _) Hc. rewrite escape_app. apply bcmp_le_app. by rewrite bcmp_escape. Qed.

(** ** Ends *)

(** A stored key of direction [dir], and the ascending key it is of. *)
Definition stored (dir : Z) (k : bytes) : bytes := if dir =? -1 then complement (k ++ COMPOUND_SEP) else k.

Lemma complement_bytes l : all_bytes l → all_bytes (complement l).
Proof. unfold all_bytes, is_byte. induction 1 as [|b l Hb _ IH]; constructor; [cbv beta; lia|done]. Qed.

Lemma stored_all_bytes dir k : all_bytes k → all_bytes (stored dir k).
Proof.
  intros Hk. unfold stored. destruct (dir =? -1); [|done]. apply complement_bytes, all_bytes_app. split; [done|apply sep_all_bytes].
Qed.

Lemma key_bytes_stored dir k : all_bytes k → key_bytes dir escape_kb k = escape (stored dir k).
Proof.
  intros Hk. unfold key_bytes, stored. destruct (dir =? -1); rewrite escape_kb_escape; [|done].
  by rewrite invert_bytes_complement, complement_app by done.
Qed.

Lemma stored_rel dir a b c : key_rel a b c → key_rel (stored dir a) (stored dir b) (if dir =? -1 then CompOpp c else c).
Proof.
  intros Hr. unfold stored. destruct (dir =? -1); [|done]. destruct Hr as (_ & <- & Hp).
  rewrite <- (bcmp_complement _ _ Hp). by apply key_rel_pfree, pfree_complement.
Qed.

Lemma key_rel_sym a b c : key_rel a b c → key_rel b a (CompOpp c).
Proof.
  intros (<- & H2 & H3). split_and!; [apply bcmp_antisym|by rewrite bcmp_antisym, H2|].
  destruct H3 as [H3|(p & x & y & l1 & l2 & E1 & E2 & Hxy)]; [by left|right]. exists p, y, x, l2, l1. auto.
Qed.

(** The first byte of a stored key. *)
Lemma stored_first dir b body t : 1 ≤ b ≤ 15 →
  ∃ rest, escape (stored dir (b :: body) ++ t) = (if dir =? -1 then 255 - b else b) :: rest.
Proof.
  intros Hb. unfold stored. destruct (dir =? -1); eexists.
  - change (complement ((b :: body) ++ COMPOUND_SEP) ++ t) with ((255 - b) :: (complement (body ++ COMPOUND_SEP) ++ t)).
    rewrite escape_cons. destruct (Z.eqb_spec (255 - b) 0); [lia|done].
  - change ((b :: body) ++ t) with (b :: (body ++ t)). rewrite escape_cons. destruct (Z.eqb_spec b 0); [lia|done].
Qed.

(** An entry in a span, and the order the scan asks for it. *)
Definition in_span (s : Span) (e : bytes) : Prop :=
  bcmp (default [] (lo s)) e ≠ Gt ∧ bcmp e [0xFF] = Lt ∧ ∀ h, hi s = Some h → bcmp e h = Lt.

Section entry.
Context (dir : Z) (k t : bytes) (Hall : all_bytes k) (Ht : rest_of t).
Context (b : Z) (body : bytes) (Hk : k = b :: body) (Hb : 1 ≤ b ≤ 15).

Local Abbreviation entry := (escape (stored dir k ++ t)).

Lemma first_low x l : x ≤ (if dir =? -1 then 255 - b else b) → entry = (if dir =? -1 then 255 - b else b) :: l →
  bcmp [x] entry ≠ Gt.
Proof.
  intros Hx ->. rewrite bcmp_cons. destruct (Z.compare_spec x (if dir =? -1 then 255 - b else b)); [by destruct l|done|lia].
Qed.

Lemma first_high x l : (if dir =? -1 then 255 - b else b) < x → entry = (if dir =? -1 then 255 - b else b) :: l →
  bcmp entry [x] = Lt.
Proof.
  intros Hx ->. rewrite bcmp_cons. by destruct (Z.compare_spec (if dir =? -1 then 255 - b else b) x); [lia| |lia].
Qed.

(** The stored order of two ends is the ascending one, or its reverse. *)
Lemma stored_dir a b' c : key_rel a b' c →
  if dir =? -1 then key_rel (stored dir b') (stored dir a) c else key_rel (stored dir a) (stored dir b') c.
Proof.
  intros Hr. pose proof (stored_rel dir a b' c Hr) as Hs. destruct (dir =? -1); [|done].
  apply key_rel_sym in Hs. by destruct c.
Qed.

Lemma floor_first r : floor dir r = [if dir =? -1 then 0xFF - r + 1 else r].
Proof. unfold floor. by destruct (dir =? -1). Qed.

Lemma low_end_le e :
  (if dir =? -1 then at_or_below (Some e) k else at_or_above (Some e) k) → bcmp (low dir escape_kb e) entry ≠ Gt.
Proof.
  intros He. destruct (stored_first dir b body t Hb) as [l Hl1]. rewrite <- Hk in Hl1.
  destruct e as [r|h]; cbn [low at_or_above at_or_below] in *.
  - rewrite floor_first. apply (first_low _ l); [|done].
    destruct (dir =? -1); destruct He as (b' & body' & E & Hr); rewrite Hk in E; injection E as E _; lia.
  - assert (all_bytes h ∧ ∃ c, key_rel (stored dir h) (stored dir k) c ∧ c ≠ Gt) as (Ah & c & Hr & Hc).
    { destruct (dir =? -1) eqn:Ed; destruct He as (Ah & c & Hr & Hc); apply stored_dir in Hr; rewrite Ed in Hr; eauto. }
    rewrite key_bytes_stored by done. by apply (above_low _ _ c); [apply stored_all_bytes..| |].
Qed.

Lemma high_end_lt e :
  (if dir =? -1 then at_or_above (Some e) k else at_or_below (Some e) k) → bcmp entry (high dir escape_kb e) = Lt.
Proof.
  intros He. destruct (stored_first dir b body t Hb) as [l Hl1]. rewrite <- Hk in Hl1.
  destruct e as [r|h]; cbn [high at_or_above at_or_below] in *.
  - rewrite floor_first. apply (first_high _ l); [|done].
    destruct (dir =? -1); destruct He as (b' & body' & E & Hr); rewrite Hk in E; injection E as E _; lia.
  - assert (all_bytes h ∧ ∃ c, key_rel (stored dir k) (stored dir h) c ∧ c ≠ Gt) as (Ah & c & Hr & Hc).
    { destruct (dir =? -1) eqn:Ed; destruct He as (Ah & c & Hr & Hc); apply stored_dir in Hr; rewrite Ed in Hr; eauto. }
    rewrite key_bytes_stored by done. by apply (below_high _ _ c); [apply stored_all_bytes..| | |].
Qed.

Lemma covered_in_span s : covers s k → in_span (span_of dir escape_kb s) entry.
Proof.
  intros [Hl Hh]. destruct (stored_first dir b body t Hb) as [l Hl1]. rewrite <- Hk in Hl1.
  assert (bcmp [] entry ≠ Gt) as Hnil by (by rewrite Hl1).
  assert (bcmp entry [0xFF] = Lt) as Hff by (apply (first_high _ l); [case_match; lia|done]).
  pose proof low_end_le as Hlow. pose proof high_end_lt as Hhigh. revert Hlow Hhigh.
  unfold span_of, in_span. destruct (dir =? -1); intros Hlow Hhigh; cbn [lo hi];
    destruct (Stretch.lo s) as [el|], (Stretch.hi s) as [eh|]; (split_and!; [first [exact Hnil|by apply Hlow]|done|]);
    intros h Hh'; first [discriminate Hh'|injection Hh' as <-; by apply Hhigh].
Qed.
End entry.

(** ** Sorting and merging *)

(** A span that holds an entry has its ends in order. *)
Lemma in_span_inhabited s e : in_span s e → inhabited_span s = true.
Proof.
  intros (Hl & _ & Hh). unfold inhabited_span. destruct (lo s) as [l|], (hi s) as [h|]; try done.
  unfold blt. by rewrite (bcmp_le_lt l e h Hl (Hh h eq_refl)).
Qed.

Lemma bcmp_trans_le a b c : bcmp a b ≠ Gt → bcmp b c ≠ Gt → bcmp a c ≠ Gt.
Proof.
  intros H1 H2. destruct (bcmp b c) eqn:E; [by apply bcmp_Eq in E as <-| |done]. by rewrite (bcmp_le_lt a b c).
Qed.

Lemma blt_false a b : blt a b = false ↔ bcmp b a ≠ Gt.
Proof. unfold blt. rewrite (bcmp_antisym a b). by destruct (bcmp a b). Qed.

Lemma lo_le_iff a b : lo_le a b = true ↔ bcmp (default [] (lo a)) (default [] (lo b)) ≠ Gt ∧ (lo b = None → lo a = None).
Proof.
  unfold lo_le. destruct (lo a) as [x|], (lo b) as [y|]; cbn [default from_option id].
  - rewrite negb_true_iff, blt_false. naive_solver.
  - split; [done|]. intros [_ H]. by discriminate H.
  - split; [|done]. intros _. split; [by destruct y|done].
  - done.
Qed.

Lemma insert_span_in s l x : x ∈ insert_span s l ↔ x = s ∨ x ∈ l.
Proof.
  induction l as [|y l IH]; cbn [insert_span]; [by rewrite list_elem_of_singleton, elem_of_nil; naive_solver|].
  destruct (lo_le s y); rewrite ?elem_of_cons, ?IH; naive_solver.
Qed.

Lemma sort_spans_in l x : x ∈ sort_spans l ↔ x ∈ l.
Proof.
  induction l as [|s l IH]; [done|]. change (sort_spans (s :: l)) with (insert_span s (sort_spans l)).
  by rewrite insert_span_in, IH, elem_of_cons.
Qed.

Local Abbreviation ascending := (StronglySorted (λ a b, lo_le a b = true)).

Lemma lo_le_trans a b c : lo_le a b = true → lo_le b c = true → lo_le a c = true.
Proof. rewrite !lo_le_iff. intros [H1 H1'] [H2 H2']. split; [by eapply bcmp_trans_le|auto]. Qed.

Lemma lo_le_total a b : lo_le a b = false → lo_le b a = true.
Proof.
  unfold lo_le. destruct (lo a), (lo b); try done. intros H%negb_false_iff. apply negb_true_iff, blt_false. unfold blt in H.
  by destruct (bcmp _ _).
Qed.

Lemma insert_span_ascending s l : ascending l → ascending (insert_span s l).
Proof.
  induction 1 as [|y l Hl IH Hy]; cbn [insert_span]; [repeat constructor|]. destruct (lo_le s y) eqn:E.
  - constructor; [by constructor|]. constructor; [done|]. eapply Forall_impl; [exact Hy|]. intros x. by apply lo_le_trans.
  - constructor; [done|]. apply Forall_forall. intros x [->|Hx]%insert_span_in; [by apply lo_le_total|].
    by rewrite Forall_forall in Hy; apply Hy.
Qed.

Lemma sort_spans_ascending l : ascending (sort_spans l).
Proof. induction l; [constructor|]. by apply insert_span_ascending. Qed.

(** What a merged span takes in. *)
Lemma merged_holds last s e :
  lo_le last s = true → in_span last e ∨ in_span s e → in_span (mkSpan (lo last) (max_hi (hi last) (hi s))) e.
Proof.
  intros [Hle _]%lo_le_iff Hin. assert (bcmp (default [] (lo last)) e ≠ Gt ∧ bcmp e [0xFF] = Lt) as [Hl Hff].
  { destruct Hin as [(Hl & Hff & _)|(Hl & Hff & _)]; (split; [|done]); [done|by eapply bcmp_trans_le]. }
  split_and!; [done|done|]. cbn [hi]. intros h Hh. unfold max_hi in Hh.
  destruct (hi last) as [x|] eqn:Ex, (hi s) as [y|] eqn:Ey; try done. injection Hh as <-.
  destruct (blt y x) eqn:Eb.
  - unfold blt in Eb. assert (bcmp y x = Lt) as Hyx by (by destruct (bcmp y x)).
    destruct Hin as [(_ & _ & Hh)|(_ & _ & Hh)]; [by apply Hh|]. eapply bcmp_trans_lt; [by apply Hh|done].
  - apply blt_false in Eb. destruct Hin as [(_ & _ & Hh)|(_ & _ & Hh)]; [|by apply Hh].
    specialize (Hh x Ex). destruct (bcmp x y) eqn:Exy; [by apply bcmp_Eq in Exy as <-|by apply (bcmp_trans_lt e x y)|done].
Qed.

Lemma merge_spans_holds last spans e :
  ascending (last :: spans) → (in_span last e ∨ ∃ s, s ∈ spans ∧ in_span s e) → ∃ s, s ∈ merge_spans last spans ∧ in_span s e.
Proof.
  revert last. induction spans as [|s spans IH]; intros last Hs He; cbn [merge_spans].
  - destruct He as [He|(s & Hs' & _)]; [|by apply not_elem_of_nil in Hs']. exists last. split; [left|done].
  - apply StronglySorted_inv in Hs as [Hs Hlast]. apply Forall_cons in Hlast as [Hls Hlast].
    destruct (touches last s).
    + apply IH.
      * apply StronglySorted_inv in Hs as [Hs _]. constructor; [done|]. done.
      * destruct He as [He|(x & [->|Hx]%elem_of_cons & He)]; [left; by apply merged_holds; [|left]|left; by apply merged_holds; [|right]|].
        right. by exists x.
    + destruct He as [He|(x & [->|Hx]%elem_of_cons & He)]; [exists last; split; [left|done]| |].
      * destruct (IH s Hs (or_introl He)) as (y & Hy & Hye). exists y. split; [by right|done].
      * destruct (IH s Hs) as (y & Hy & Hye); [right; by exists x|]. exists y. split; [by right|done].
Qed.

(** The spans hold the entry of every key the stretches cover. *)
Lemma to_spans_holds dir bounds s k b body t :
  all_bytes k → rest_of t → k = b :: body → 1 ≤ b ≤ 15 → s ∈ stretches bounds → covers s k →
  ∃ sp, sp ∈ to_spans dir escape_kb bounds ∧ in_span sp (escape (stored dir k ++ t)).
Proof.
  intros Hk Ht E Hb Hs Hc. pose proof (covered_in_span dir k t Hk Ht b body E Hb s Hc) as Hin. unfold to_spans.
  assert (span_of dir escape_kb s ∈ sort_spans (filter (λ s, inhabited_span s) (span_of dir escape_kb <$> stretches bounds))) as Hin'.
  { apply sort_spans_in, list_elem_of_filter. rewrite (in_span_inhabited _ _ Hin). split; [done|]. by apply list_elem_of_fmap_2. }
  pose proof (sort_spans_ascending (filter (λ s, inhabited_span s) (span_of dir escape_kb <$> stretches bounds))) as Ha.
  destruct (sort_spans _) as [|x spans]; [by apply not_elem_of_nil in Hin'|]. apply merge_spans_holds; [done|].
  apply elem_of_cons in Hin' as [<-|Hin']; [by left|right]. eauto.
Qed.

(** ** Packed entries and the scan *)

Lemma sep_position_escape kb r : sep_position (escape kb ++ 0 :: 0 :: r) = Some (length (escape kb)).
Proof.
  assert (∀ x l, l ≠ [] → x ≠ 0 → sep_position (x :: l) = S <$> sep_position l) as Hne.
  { intros x [|y l] Hl Hx; [done|]. cbn [sep_position]. by rewrite (proj2 (Z.eqb_neq x 0)). }
  induction kb as [|b kb IH]; [done|]. rewrite escape_cons. destruct (Z.eqb_spec b 0) as [->|Hb].
  - cbn [app]. change (sep_position (0 :: 0xff :: (escape kb ++ 0 :: 0 :: r))) with (S <$> sep_position (0xff :: (escape kb ++ 0 :: 0 :: r))).
    rewrite Hne by (done || by destruct (escape kb)). by rewrite IH.
  - cbn [app]. rewrite Hne by (done || by destruct (escape kb)). by rewrite IH.
Qed.

Lemma unpack_pack kb rid : i64_ok rid → unpack_entry (pack_entry kb rid) = (escape kb, Some rid).
Proof.
  intros Hr. unfold pack_entry, unpack_entry, ENTRY_SEP. rewrite escape_kb_escape. cbn [app]. rewrite sep_position_escape.
  rewrite take_app_length. rewrite drop_app_add' by done. change (drop 2 (0 :: 0 :: be_bytes 8 rid)) with (be_bytes 8 rid).
  rewrite bool_decide_true by (apply be_bytes_length).
  unfold be_bytes. rewrite reverse_involutive, le_val_bytes. do 2 f_equal. unfold signed.
  change (256 ^ Z.of_nat 8) with (2 ^ 64). unfold i64_ok in Hr. destruct (Z.ltb_spec (rid mod 2 ^ 64) (2 ^ (64 - 1)));
    change (2 ^ (64 - 1)) with (2 ^ 63) in *; Z.div_mod_to_equations; lia.
Qed.

Lemma unescape_escape kb : unescape_kb (escape kb) = kb.
Proof.
  induction kb as [|b kb IH]; [done|]. rewrite escape_cons. destruct (Z.eqb_spec b 0) as [->|Hb].
  - change (unescape_kb (0 :: 0xff :: escape kb) = 0 :: kb). change (0 :: unescape_kb (escape kb) = 0 :: kb). by rewrite IH.
  - cbn [app]. destruct (escape kb) as [|c l] eqn:E; [by rewrite <- IH|].
    change (b :: unescape_kb (if (b =? 0) && (c =? 0xff) then l else c :: l) = b :: kb).
    rewrite (proj2 (Z.eqb_neq b 0) Hb). cbn [andb]. by rewrite IH.
Qed.

Lemma pack_le kb kb' rid rid' :
  all_bytes kb → all_bytes kb' → bcmp (pack_entry kb rid) (pack_entry kb' rid') ≠ Gt → bcmp (escape kb) (escape kb') ≠ Gt.
Proof.
  intros Ha Hb. unfold pack_entry. rewrite !escape_kb_escape, bcmp_escape by done. change ENTRY_SEP with COMPOUND_SEP.
  destruct (esc_sep_cmp kb kb' Ha Hb) as [Hc Hp]. rewrite !(app_assoc _ COMPOUND_SEP), bcmp_app by done. rewrite Hc.
  by destruct (bcmp kb kb').
Qed.

(** An index's entries: packed, in byte order. *)
Record entries_ok (rows : list bytes) : Prop := mkEntries {
  e_sorted : StronglySorted (λ a b, bcmp a b ≠ Gt) rows;
  e_packed : Forall (λ e, ∃ kb rid, e = pack_entry kb rid ∧ all_bytes kb ∧ i64_ok rid) rows;
}.

Lemma entries_ok_tail e rows : entries_ok (e :: rows) → entries_ok rows.
Proof. intros [Hs Hp]. split; [by apply StronglySorted_inv in Hs as []|by apply Forall_cons in Hp as []]. Qed.

Lemma seek_ok rows from : entries_ok rows → entries_ok (seek rows from).
Proof. induction rows as [|e rows IH]; intros Hr; cbn [seek]; [done|]. case_match; [|done]. by eapply IH, entries_ok_tail. Qed.

Lemma seek_in rows from e : e ∈ rows → bcmp from e ≠ Gt → e ∈ seek rows from.
Proof.
  induction rows as [|x rows IH]; intros He Hf; cbn [seek]; [done|]. destruct (blt x from) eqn:E; [|done].
  apply elem_of_cons in He as [->|He]; [|by apply IH]. exfalso. by apply blt_false in Hf; rewrite Hf in E.
Qed.

Section scanning.
Context (dec : bytes → bytes) (bo : BinDataOrder) (expired : nat → bool) (Hexp : ∀ n, expired n = false).

Lemma scan_rows_keeps rows hi skip dir n f :
  ∃ n' f', scan_rows dec bo expired rows hi skip dir n f = Ok (n', f') ∧ ∀ rid, rid ∈ f.1 → rid ∈ f'.1.
Proof.
  revert n f. induction rows as [|packed rows IH]; intros n f; cbn [scan_rows]; [by eexists _, _|]. rewrite Hexp.
  destruct (unpack_entry packed) as [esc rid]. destruct (negb (blt esc hi)); [by eexists _, _|].
  edestruct (IH (S n)) as (n' & f' & E & Hin). exists n', f'. split; [exact E|].
  intros r Hr. apply Hin. cbn [fst]. apply elem_of_app. by left.
Qed.

Lemma scan_rows_finds rows hi skip dir n f kb rid :
  entries_ok rows → all_bytes kb → i64_ok rid → pack_entry kb rid ∈ rows → bcmp (escape kb) hi = Lt →
  ∃ n' f', scan_rows dec bo expired rows hi skip dir n f = Ok (n', f') ∧ rid ∈ f'.1.
Proof.
  intros Hr Hkb Hrid Hin Hhi. revert n f. induction rows as [|packed rows IH]; intros n f; [by apply not_elem_of_nil in Hin|].
  cbn [scan_rows]. rewrite Hexp. destruct Hr as [Hs Hp]. pose proof (entries_ok_tail _ _ (mkEntries _ Hs Hp)) as Hr.
  apply StronglySorted_inv in Hs as [_ Hs]. apply Forall_cons in Hp as [(kb' & rid' & -> & Hkb' & Hrid') _].
  rewrite unpack_pack by done. apply elem_of_cons in Hin as [Heq|Hin].
  - assert ((escape kb, Some rid) = (escape kb', Some rid')) as E by (by rewrite <- !unpack_pack, Heq).
    injection E as E ->. rewrite <- E. unfold blt at 1. rewrite Hhi. cbn [is_lt negb].
    edestruct (scan_rows_keeps rows hi skip dir (S n)) as (n' & f' & E' & Hk). exists n', f'. split; [exact E'|].
    apply Hk. cbn [fst]. apply elem_of_app. right. left.
  - rewrite Forall_forall in Hs. specialize (Hs _ Hin). apply pack_le in Hs; [|done|done].
    unfold blt at 1. rewrite (bcmp_le_lt _ _ _ Hs Hhi). cbn [is_lt negb]. by apply IH.
Qed.

Lemma scan_each_keeps rows spans prefix dir n f :
  ∃ f', scan_each dec bo expired rows spans prefix dir n f = Ok f' ∧ ∀ rid, rid ∈ f.1 → rid ∈ f'.1.
Proof.
  revert n f. induction spans as [|s spans IH]; intros n f; cbn [scan_each]; [by exists f|].
  edestruct scan_rows_keeps as (n' & f' & -> & Hk). cbn [mbind outcome_bind fst snd].
  destruct (IH n' f') as (f'' & -> & Hk'). exists f''. split; [done|]. auto.
Qed.

(** A scan returns the record of every entry in one of its spans. *)
Lemma scan_finds rows spans dir sp kb rid :
  entries_ok rows → all_bytes kb → i64_ok rid → pack_entry kb rid ∈ rows → sp ∈ spans → in_span sp (escape kb) →
  ∃ f, scan_spans dec bo expired rows spans [] dir = Ok f ∧ rid ∈ f.1.
Proof.
  intros Hr Hkb Hrid Hin Hsp (Hlo & Hff & Hhi). unfold scan_spans. generalize 0%nat, ([] : list Z, true).
  induction spans as [|s spans IH]; intros n f; [by apply not_elem_of_nil in Hsp|]. cbn [scan_each app].
  apply elem_of_cons in Hsp as [->|Hsp].
  - destruct (scan_rows_finds (seek rows (default [] (lo s))) (default [0xFF] (hi s)) 0 dir n f kb rid) as (n' & f' & E & Hf); try done.
    + by apply seek_ok.
    + apply seek_in; [done|]. unfold pack_entry. rewrite escape_kb_escape. by apply bcmp_le_app.
    + destruct (hi s) as [h|]; [by apply Hhi|done].
    + cbn [length]. rewrite E. cbn [mbind outcome_bind fst snd]. destruct (scan_each_keeps rows spans [] dir n' f') as (f'' & E' & Hk).
      exists f''. split; [done|]. by apply Hk.
  - edestruct scan_rows_keeps as (n' & f' & -> & _). cbn [mbind outcome_bind fst snd]. by apply IH.
Qed.

(** What a scan returns is the record of an entry that is below the end of a span. *)
Lemma scan_rows_from rows hi skip dir n f n' f' rid :
  scan_rows dec bo expired rows hi skip dir n f = Ok (n', f') → rid ∈ f'.1 →
  rid ∈ f.1 ∨ ∃ e, e ∈ rows ∧ (unpack_entry e).2 = Some rid ∧ blt (unpack_entry e).1 hi = true.
Proof.
  revert n f. induction rows as [|packed rows IH]; intros n f; cbn [scan_rows]; [intros [= <- <-]; by left|]. rewrite Hexp.
  destruct (unpack_entry packed) as [esc id] eqn:Eu. destruct (blt esc hi) eqn:Eb; cbn [negb]; [|intros [= <- <-]; by left].
  intros Hs Hr. destruct (IH _ _ Hs Hr) as [Hin|(e & He & Hrest)].
  - cbn [fst] in Hin. apply elem_of_app in Hin as [Hin|Hin]; [by left|]. right. exists packed. rewrite Eu.
    destruct id as [id|]; [|by apply not_elem_of_nil in Hin]. apply list_elem_of_singleton in Hin as ->. by split; [left|].
  - right. exists e. by split; [right|].
Qed.

Lemma seek_sub rows from e : e ∈ seek rows from → e ∈ rows.
Proof. induction rows as [|x rows IH]; cbn [seek]; [done|]. case_match; [|done]. intros He. right. auto. Qed.

Lemma scan_from rows spans dir f rid :
  scan_spans dec bo expired rows spans [] dir = Ok f → rid ∈ f.1 →
  ∃ e sp, e ∈ rows ∧ (unpack_entry e).2 = Some rid ∧ sp ∈ spans ∧ blt (unpack_entry e).1 (default [0xFF] (hi sp)) = true.
Proof.
  intros Hs Hr. unfold scan_spans in Hs.
  assert (∀ n g, scan_each dec bo expired rows spans [] dir n g = Ok f →
    rid ∈ g.1 ∨ ∃ e sp, e ∈ rows ∧ (unpack_entry e).2 = Some rid ∧ sp ∈ spans ∧ blt (unpack_entry e).1 (default [0xFF] (hi sp)) = true)
    as Hall; [|destruct (Hall _ _ Hs) as [Hin|]; [by apply not_elem_of_nil in Hin|done]].
  clear Hs. induction spans as [|s spans IH]; intros n g; cbn [scan_each app]; [intros [= ->]; by left|].
  intros ([n' f'] & Hrows & He)%bind_Ok. destruct (IH _ _ He) as [Hin|(e & sp & ? & ? & Hsp & ?)].
  - destruct (scan_rows_from _ _ _ _ _ _ _ _ _ Hrows Hin) as [?|(e & He' & ? & ?)]; [by left|].
    right. exists e, s. split_and!; [by eapply seek_sub|done|left|done].
  - right. exists e, sp. split_and!; [done|done|by right|done].
Qed.

Lemma scan_returns rows spans dir : ∃ f, scan_spans dec bo expired rows spans [] dir = Ok f.
Proof. destruct (scan_each_keeps rows spans [] dir 0 ([], true)) as (f & Hf & _). by exists f. Qed.
End scanning.
