(* ===== verification/ScanProps.v ===== *)
(** * Scan bounds hold every match: documents and stored bytes

    The values a document gives an index hold every value the matcher reaches on
    the path, and the spans of stored bytes hold the entries of what the stretches
    cover; so a document that matches is read. *)
From stdpp Require Import strings.
From S2P Require Import Prelude RustM Bson Lex Docs Paths PathsFacts Numeric NumericFacts Order SortKey.
From S2P Require Import SortKeyNum SortKeyFacts SortKeyOrder Decimal Query QueryFacts IndexKeys ScanBounds.
From S2P Require Import IndexScan ScanFacts SpanFacts.
Local Open Scope Z_scope.
Local Open Scope secantus_scope.

(** ** Paths *)

Section paths.
Context (dec : bytes → bytes).
Local Abbreviation clean := (QueryFacts.clean dec).

(** What the matcher's walk reaches, the index's walk reaches. *)
Lemma resolve_step_in part last c c' v :
  (part ≠ [] ∨ last = false) → c' ∈ resolve_step part last c → value c' = Some v →
  ∃ w, value c = Some w ∧ v ∈ (value_step part w).1.
Proof.
  intros Hp Hc Hv. unfold resolve_step in Hc. destruct (value c) as [w|]; [|by apply list_elem_of_singleton in Hc as ->].
  exists w. split; [done|]. destruct w as [| |arr|d| | | | | | | | | | | | | | | | |];
    try (by apply list_elem_of_singleton in Hc as ->; discriminate Hv).
  - cbn [value_step fst]. assert (⌊part = []⌋ && last = false) as E.
    { destruct Hp as [Hp| ->]; [by rewrite bool_decide_false|by rewrite andb_false_r]. }
    rewrite E in Hc. apply elem_of_app in Hc as [Hc|Hc]; apply elem_of_app.
    + left. destruct (is_array_index part) eqn:Hi; [|by apply not_elem_of_nil in Hc].
      apply list_elem_of_singleton in Hc as ->. apply andb_true_iff in Hi as [-> _]. cbn [positional value] in Hv.
      rewrite Hv. left.
    + right. apply list_elem_of_omap in Hc as (e & He & Hc). destruct e; try discriminate Hc. injection Hc as <-.
      apply list_elem_of_omap. exists (Document d). by split.
  - apply list_elem_of_singleton in Hc as ->. cbn [plain value] in Hv. cbn [value_step fst]. rewrite Hv. left.
Qed.

Lemma value_step_clean part w v : clean w → v ∈ (value_step part w).1 → clean v.
Proof.
  intros Cw Hv. destruct w as [| |arr|d| | | | | | | | | | | | | | | | |]; cbn [value_step fst] in Hv;
    try (by apply not_elem_of_nil in Hv).
  - apply elem_of_app in Hv as [Hv|Hv].
    + case_match; [|by apply not_elem_of_nil in Hv]. destruct (parse_usize part) as [i|]; [|by apply not_elem_of_nil in Hv].
      cbn [mbind option_bind] in Hv. destruct (item arr i) as [x|] eqn:Hx; [|by apply not_elem_of_nil in Hv].
      apply list_elem_of_singleton in Hv as ->. eapply clean_item; [done|]. unfold item in Hx.
      case_match; [|done]. by eapply list_elem_of_lookup_2.
    + apply list_elem_of_omap in Hv as (e & He & Hv). destruct e; try discriminate Hv.
      apply (clean_field dec d (part, v)); [by eapply clean_item|by apply doc_get_elem].
  - destruct (doc_get d part) as [x|] eqn:Hx; [|by apply not_elem_of_nil in Hv].
    apply list_elem_of_singleton in Hv as ->. apply (clean_field dec d (part, x)); [done|by apply doc_get_elem].
Qed.

Lemma walk_in parts cands vals flag :
  (∀ part, last parts = Some part → part ≠ []) →
  (∀ c v, c ∈ cands → value c = Some v → v ∈ vals) → (∀ v, v ∈ vals → clean v) →
  (∀ c v, c ∈ resolve_steps cands parts → value c = Some v → v ∈ (value_steps parts vals flag).1) ∧
  (∀ v, v ∈ (value_steps parts vals flag).1 → clean v).
Proof.
  revert cands vals flag. induction parts as [|part parts IH]; intros cands vals flag Hl Hc Hv; [done|].
  cbn [resolve_steps value_steps]. apply IH.
  - intros p Hp. apply Hl. destruct parts; [done|]. by rewrite last_cons_cons.
  - intros c' v Hc' Hv'. apply list_elem_of_In, in_concat in Hc' as (l & Hl' & Hc'). apply list_elem_of_In in Hl', Hc'.
    apply list_elem_of_fmap in Hl' as (c & -> & Hin).
    assert (part ≠ [] ∨ ⌊parts = []⌋ = false) as Hne.
    { destruct parts; [left; by apply Hl|right; by apply bool_decide_eq_false]. }
    destruct (resolve_step_in part _ c c' v Hne Hc' Hv') as (w & Hw & Hin'). specialize (Hc c w Hin Hw).
    apply list_elem_of_In, in_concat. exists (value_step part w).1. split; apply list_elem_of_In; [|done].
    apply list_elem_of_fmap. exists (value_step part w). split; [done|]. by apply list_elem_of_fmap_2.
  - intros v Hin. apply list_elem_of_In, in_concat in Hin as (l & Hl' & Hin). apply list_elem_of_In in Hl', Hin.
    apply list_elem_of_fmap in Hl' as (p & -> & Hp). apply list_elem_of_fmap in Hp as (w & -> & Hw).
    eapply value_step_clean; [by apply Hv|done].
Qed.

(** A walk that meets no array goes one way. *)
Lemma flat_walk parts o flag :
  (value_steps parts (option_list o) flag).2 = false →
  flag = false ∧ ∃ o', resolve_steps [plain o] parts = [plain o'] ∧ (value_steps parts (option_list o) flag).1 = option_list o'.
Proof.
  revert o flag. induction parts as [|part parts IH]; intros o flag Hf; [split; [done|by exists o]|].
  cbn [value_steps resolve_steps] in *.
  assert (∃ o', concat (resolve_step part ⌊parts = []⌋ <$> [plain o]) = [plain o'] ∧
    concat ((value_step part <$> option_list o).*1) = option_list o' ∧
    flag || existsb snd (value_step part <$> option_list o) = flag ∨
    flag || existsb snd (value_step part <$> option_list o) = true) as Hstep.
  { destruct o as [w|]; [|exists None; left; split_and!; try done; by rewrite orb_false_r].
    destruct w as [| |arr|d| | | | | | | | | | | | | | | | |];
      try (exists None; left; split_and!; try done; by rewrite orb_false_r).
    - exists None. right. cbn. by rewrite orb_true_r.
    - exists (doc_get d part). left. cbn. rewrite app_nil_r. by rewrite orb_false_r. }
  destruct Hstep as (o' & [(Hc & Hv & Hflag)|Hflag]).
  - rewrite Hc, Hv, Hflag in *. by apply IH.
  - rewrite Hflag in Hf. exfalso. revert Hf. generalize (concat ((value_step part <$> option_list o).*1)). clear.
    intros l. enough (∀ l, (value_steps parts l true).2 = true) as -> by done. clear.
    induction parts as [|part parts IH]; intros l; [done|]. cbn [value_steps orb]. apply IH.
Qed.

Lemma lacks_leaf_flat parts v flag :
  (value_steps parts [v] flag).2 = false → element_lacks_leaf v parts false = false.
Proof.
  assert (∀ parts l, (value_steps parts l true).2 = true) as Htrue.
  { clear. induction parts as [|part parts IH]; intros l; [done|]. cbn [value_steps orb]. apply IH. }
  revert v flag. induction parts as [|part parts IH]; intros v flag Hf; [done|]. cbn [value_steps] in Hf.
  destruct v as [| |arr|d| | | | | | | | | | | | | | | | |]; try done.
  - cbn [fmap list_fmap existsb value_step snd orb] in Hf. rewrite orb_true_r, Htrue in Hf. done.
  - cbn [element_lacks_leaf]. cbn in Hf. rewrite app_nil_r, orb_false_r in Hf.
    destruct (doc_get d part) as [next|]; [|done]. by eapply IH.
Qed.

Lemma leaf_keys_in v : is_array v = false → leaf_keys v = [v].
Proof. by destruct v. Qed.

Lemma leaf_keys_item arr e : e ∈ arr → e ∈ leaf_keys (Array arr).
Proof. by destruct arr; [intros H%not_elem_of_nil|]. Qed.

Lemma leaf_keys_keyable v x : clean v → x ∈ leaf_keys v → keyable dec x.
Proof.
  intros Cv Hx. destruct (is_array v) eqn:Ha.
  - destruct v as [| |arr| | | | | | | | | | | | | | | | | |]; try discriminate Ha. destruct arr as [|y arr].
    + apply list_elem_of_singleton in Hx as ->. constructor.
    + by destruct (clean_item dec (y :: arr) x Cv Hx).
  - rewrite leaf_keys_in in Hx by done. apply list_elem_of_singleton in Hx as ->. by destruct Cv.
Qed.

Lemma concat_in {A B} (f : A → list B) l x y : x ∈ l → y ∈ f x → y ∈ concat (f <$> l).
Proof.
  intros Hx Hy. apply list_elem_of_In, in_concat. exists (f x). split; apply list_elem_of_In; [|done].
  by apply list_elem_of_fmap_2.
Qed.

Lemma concat_of {A B} (f : A → list B) l y : y ∈ concat (f <$> l) → ∃ x, x ∈ l ∧ y ∈ f x.
Proof.
  intros (l' & Hl%list_elem_of_In & Hy%list_elem_of_In)%list_elem_of_In%in_concat.
  apply list_elem_of_fmap in Hl as (x & -> & Hx). by exists x.
Qed.

(** The values of a path, one by one. *)
Lemma value_indexed doc path sparse v :
  v ∈ (get_path_values doc path).1 → v ∈ (index_field_values doc path sparse).1.
Proof.
  intros Hv. unfold index_field_values, field_keys. destruct (get_path_values doc path) as [V fl]. cbn [fst mongod whole_arrays] in *.
  destruct (is_array v) eqn:Ha.
  - apply elem_of_app. right. by apply list_elem_of_filter; rewrite Ha.
  - do 2 (apply elem_of_app; left). eapply concat_in; [done|]. rewrite leaf_keys_in by done. left.
Qed.

Lemma item_indexed doc path sparse arr e :
  Array arr ∈ (get_path_values doc path).1 → e ∈ arr → e ∈ (index_field_values doc path sparse).1.
Proof.
  intros Hv He. unfold index_field_values, field_keys. destruct (get_path_values doc path) as [V fl]. cbn [fst mongod whole_arrays] in *.
  do 2 (apply elem_of_app; left). eapply concat_in; [done|]. by apply leaf_keys_item.
Qed.

Lemma null_indexed doc path sparse : (get_path_values doc path).1 = [] → Null ∈ (index_field_values doc path sparse).1.
Proof.
  unfold index_field_values, field_keys. destruct (get_path_values doc path) as [V fl]. cbn [fst]. intros ->. left.
Qed.

Lemma indexed_some doc path sparse : (index_field_values doc path sparse).1 ≠ [].
Proof.
  destruct (get_path_values doc path).1 as [|v V] eqn:E.
  - pose proof (null_indexed doc path sparse E) as Hn. intros E'. by rewrite E' in Hn; apply not_elem_of_nil in Hn.
  - assert (v ∈ (index_field_values doc path sparse).1) as Hn by (apply value_indexed; rewrite E; left).
    intros E'. by rewrite E' in Hn; apply not_elem_of_nil in Hn.
Qed.

Lemma indexed_keyable doc path sparse :
  (∀ v, v ∈ (get_path_values doc path).1 → clean v) → Forall (keyable dec) (index_field_values doc path sparse).1.
Proof.
  intros Hc. unfold index_field_values, field_keys. destruct (get_path_values doc path) as [V fl]. cbn [fst mongod whole_arrays] in *.
  apply Forall_app. split; [apply Forall_app; split|].
  - apply Forall_forall. intros x (v & Hv & Hx)%concat_of. eapply leaf_keys_keyable; [by apply Hc|done].
  - repeat case_match; repeat constructor.
  - apply Forall_forall. intros x [_ Hx]%list_elem_of_filter. by destruct (Hc x Hx).
Qed.

(** A path that meets no array has one candidate and one value, or none. *)
Lemma flat_path doc path sparse :
  (index_field_values doc path sparse).2 = false ∨ split_dot path = [path] →
  ∃ o, resolve_path doc path = [plain o] ∧ (get_path_values doc path).1 = option_list o.
Proof.
  unfold resolve_path, get_path_values. intros [Hf| ->]; [|exists (doc_get doc path); split; done].
  unfold index_field_values, field_keys, get_path_values in Hf.
  destruct (split_dot_cons path) as (first & parts & E). rewrite E in *.
  destruct (value_steps parts (option_list (doc_get doc first)) false) as [V fl] eqn:Ev. cbn [snd multikey] in Hf.
  apply orb_false_iff in Hf as [-> _].
  destruct (flat_walk parts (doc_get doc first) false) as (_ & o & Hr & Hv); [by rewrite Ev|]. exists o. by rewrite Ev in Hv.
Qed.

Lemma flat_unique doc path sparse : (index_field_values doc path sparse).2 = false → unique (index_field_values doc path sparse).1.
Proof.
  intros Hf. destruct (flat_path doc path sparse (or_introl Hf)) as (o & _ & Hv).
  assert (element_lacks_leaf (Document doc) (split_dot path) false = false) as Hl.
  { apply (lacks_leaf_flat _ _ false). destruct (split_dot_cons path) as (first & parts & E).
    unfold index_field_values, field_keys, get_path_values in Hf. rewrite E in *. cbn [value_steps fmap list_fmap value_step existsb snd].
    cbn. rewrite app_nil_r. destruct (value_steps parts _ false) as [V fl]. cbn in Hf. by apply orb_false_iff in Hf as [-> _]. }
  unfold index_field_values, field_keys in *. rewrite Hl, andb_false_r. destruct (get_path_values doc path) as [V fl].
  cbn [fst snd mongod whole_arrays multikey] in *. subst V. apply orb_false_iff in Hf as [_ Ha].
  assert (∀ x y : Bson, x ∈ [y] → x = y) as Hs by (intros x y; apply list_elem_of_singleton).
  destruct o as [v|]; cbn [option_list] in *.
  - cbn in Ha. rewrite orb_false_r in Ha. change (option_list (Some v)) with [v]. change (concat (leaf_keys <$> [v])) with (leaf_keys v ++ []). rewrite leaf_keys_in by done. cbn [app].
    rewrite (bool_decide_false ([v] = [])) by done. assert (filter (λ v0 : Bson, is_array v0) [v] = []) as -> by (cbn; by rewrite Ha).
    intros x y Hx Hy. cbn in Hx, Hy. apply Hs in Hx, Hy. congruence.
  - intros x y Hx Hy. cbn in Hx, Hy. apply Hs in Hx, Hy. congruence.
Qed.

Lemma path_reach doc path sparse missing :
  clean (Document doc) → last (split_dot path) ≠ Some [] →
  (missing = true → (index_field_values doc path sparse).2 = false ∨ split_dot path = [path]) →
  reach dec (resolve_path doc path) true (index_field_values doc path sparse).1 missing true.
Proof.
  intros Cd Hlast Hm.
  assert ((∀ c v, c ∈ resolve_path doc path → value c = Some v → v ∈ (get_path_values doc path).1) ∧
    (∀ v, v ∈ (get_path_values doc path).1 → clean v)) as [Hin Hcl].
  { unfold resolve_path, get_path_values. destruct (split_dot_cons path) as (first & parts & E). rewrite E in *. apply walk_in.
    - intros part Hp ->. apply Hlast. destruct parts; [done|]. by rewrite last_cons_cons.
    - intros c v ->%list_elem_of_singleton Hv. cbn [value plain] in Hv. rewrite Hv. left.
    - intros v Hv. destruct (doc_get doc first) as [w|] eqn:Hw; [|by apply not_elem_of_nil in Hv].
      apply list_elem_of_singleton in Hv as ->. apply (clean_field dec doc (first, w) Cd). by apply doc_get_elem. }
  assert (∀ c arr e, c ∈ resolve_path doc path → value c = Some (Array arr) → e ∈ arr →
    e ∈ (index_field_values doc path sparse).1 ∧ clean e) as Hitem.
  { intros c arr e Hc Hv He. specialize (Hin c _ Hc Hv). split; [by eapply item_indexed|]. by eapply clean_item; [apply Hcl|]. }
  split.
  - intros c v Hc Hv. specialize (Hin c v Hc Hv). split; [by apply value_indexed|by apply Hcl].
  - intros c arr e Hc Hel. unfold elements in Hel. apply (Hitem c); [done|]. by repeat case_match; simplify_eq.
  - intros _. apply Hitem.
  - intros ->. destruct (flat_path doc path sparse (Hm eq_refl)) as (o & -> & Hv). split; [done|].
    intros c ->%list_elem_of_singleton Hn. cbn [value plain] in Hn. subst o. by apply null_indexed.
  - apply indexed_some.
  - by apply indexed_keyable.
Qed.
End paths.

(** ** The keys of a document *)

Lemma unseen_all {A} (enc : A → outcome () bytes) seen items out x :
  unseen enc seen items = Ok out → x ∈ items →
  ∃ k, enc x = Ok k ∧ (k ∈ seen ∨ ∃ x', (x', k) ∈ out ∧ x' ∈ items ∧ enc x' = Ok k).
Proof.
  revert seen out. induction items as [|y items IH]; intros seen out Hu Hx; [by apply not_elem_of_nil in Hx|].
  cbn [unseen] in Hu. apply bind_Ok in Hu as (k & Hk & Hu).
  assert (∀ out', unseen enc (if ⌊k ∈ seen⌋ then seen else k :: seen) items = Ok out' →
    (∀ p, p ∈ out' → p ∈ out) → (k ∈ seen ∨ (y, k) ∈ out) →
    ∃ k, enc x = Ok k ∧ (k ∈ seen ∨ ∃ x', (x', k) ∈ out ∧ x' ∈ y :: items ∧ enc x' = Ok k)) as Hfin.
  { intros out' Hu' Hsub Hy. apply elem_of_cons in Hx as [->|Hx].
    - exists k. split; [done|]. destruct Hy as [Hy|Hy]; [by left|right]. exists y. split_and!; [done|left|done].
    - destruct (IH _ _ Hu' Hx) as (kx & Hkx & Hor). exists kx. split; [done|].
      destruct Hor as [Hs|(x' & Hin & Hitem & He)].
      + case_bool_decide; [by left|]. apply elem_of_cons in Hs as [->|Hs]; [|by left].
        destruct Hy as [Hy|Hy]; [by left|right]. exists y. split_and!; [done|left|done].
      + right. exists x'. split_and!; [by apply Hsub|by right|done]. }
  case_bool_decide.
  - by apply (Hfin out); [..|left].
  - apply bind_Ok in Hu as (rest & Hr & <-%Ok_inj). apply (Hfin rest); [done|by right|right; left].
Qed.

Lemma unseen_length {A} (enc : A → outcome () bytes) seen items out : unseen enc seen items = Ok out → (length out ≤ length items)%nat.
Proof.
  revert seen out. induction items as [|y items IH]; intros seen out Hu; [by injection Hu as <-|].
  cbn [unseen] in Hu. apply bind_Ok in Hu as (k & Hk & Hu). case_bool_decide; [specialize (IH _ _ Hu); cbn; lia|].
  apply bind_Ok in Hu as (rest & Hr & <-%Ok_inj). specialize (IH _ _ Hr). cbn. lia.
Qed.

Section variants.
Context (dec : bytes → bytes) (bo : BinDataOrder).

Local Abbreviation encd v d := (enc_dir_c dec bo None v d).

Lemma candidates_keep doc sparse f cands x :
  field_candidates dec bo doc sparse None f = Ok cands → x ∈ (index_field_values doc f.1 sparse).1 →
  (length cands ≤ length (index_field_values doc f.1 sparse).1)%nat ∧
  ∃ x', x' ∈ cands ∧ encd x' f.2 = encd x f.2.
Proof.
  unfold field_candidates. intros Hc Hx.
  assert ((uniq ← unseen (λ v, encd v f.2) [] (index_field_values doc f.1 sparse).1; Ok (uniq.*1)) = Ok cands →
    (length cands ≤ length (index_field_values doc f.1 sparse).1)%nat ∧ ∃ x', x' ∈ cands ∧ encd x' f.2 = encd x f.2) as Hu.
  { intros (uniq & Hu & <-%Ok_inj)%bind_Ok. split; [rewrite length_fmap; by eapply unseen_length|].
    destruct (unseen_all _ _ _ _ x Hu Hx) as (k & Hk & [Hs|(x' & Hin & _ & He)]); [by apply not_elem_of_nil in Hs|].
    exists x'. split; [|by rewrite Hk, He]. by apply (list_elem_of_fmap_2 fst) in Hin. }
  destruct (index_field_values doc f.1 sparse).1 as [|c [|c' cs]]; [naive_solver| |naive_solver].
  injection Hc as <-. split; [done|]. by exists x.
Qed.

Definition product (lists : list (list Bson)) : nat := foldr (λ l n, (length l * n)%nat) 1%nat lists.

Lemma extend_length combos (cand : list Bson) :
  length (concat ((λ combo : list Bson, (λ v, combo ++ [v]) <$> cand) <$> combos)) = (length combos * length cand)%nat.
Proof.
  induction combos as [|c combos IH]; [done|]. cbn [fmap list_fmap concat]. rewrite length_app.
  change (list_fmap _ _ (λ combo : list Bson, (λ v, combo ++ [v]) <$> cand) combos) with ((λ combo : list Bson, (λ v, combo ++ [v]) <$> cand) <$> combos).
  rewrite IH, length_fmap. cbn. lia.
Qed.

Lemma product_pos lists : Forall (λ l, l ≠ []) lists → (1 ≤ product lists)%nat.
Proof. unfold product. induction 1 as [|x xs Hx _ IH]; [done|]. cbn. destruct x; [done|]. cbn [length]. lia. Qed.

(** A product the cap does not cut holds a combination for every start. *)
Lemma combos_keep lists acc c :
  c ∈ acc → Forall (λ l, l ≠ []) lists → (length acc * product lists ≤ MAX_COMPOUND_KEYS)%nat →
  ∃ c', c ++ c' ∈ foldl extend_combos acc lists ∧ length c' = length lists.
Proof.
  revert acc c. induction lists as [|l lists IH]; intros acc c Hc Hne Hmax; [exists []; by rewrite app_nil_r|].
  apply Forall_cons in Hne as [Hl Hne]. destruct l as [|v l]; [done|]. set (cand := v :: l) in *.
  cbn [foldl product foldr] in *. pose proof (product_pos lists Hne) as Hp.
  assert (extend_combos acc cand = concat ((λ combo : list Bson, (λ v, combo ++ [v]) <$> cand) <$> acc)) as E.
  { unfold extend_combos. apply take_ge. rewrite extend_length. unfold product in *. nia. }
  destruct (IH (extend_combos acc cand) (c ++ [v])) as (c' & Hin & Hlen).
  - rewrite E. eapply concat_in; [exact Hc|]. left.
  - done.
  - rewrite E, extend_length. unfold product in *. nia.
  - exists (v :: c'). split; [|cbn; lia]. by rewrite <- app_assoc in Hin.
Qed.

Lemma mapM_Ok {E A B} (f : A → outcome E B) l out : mapM f l = Ok out → Forall2 (λ x y, f x = Ok y) l out.
Proof.
  revert out. induction l as [|x l IH]; intros out Hm; [injection Hm as <-; constructor|].
  apply bind_Ok in Hm as (y & Hy & Hm). apply bind_Ok in Hm as (ys & Hys & <-%Ok_inj). constructor; [done|by apply IH].
Qed.

Definition field_of (e : bytes * Bson) : bytes * Z := (e.1, default 1 (direction_of e.2)).

(** The values an index has for each of its columns. *)
Definition columns (doc spec : Doc) (sparse : bool) : list (list Bson) :=
  (λ e : bytes * Bson, (index_field_values doc e.1 sparse).1) <$> spec.

Lemma columns_keep doc spec sparse per_field :
  Forall2 (λ f cands, field_candidates dec bo doc sparse None f = Ok cands) (field_of <$> spec) per_field →
  Forall (λ l, l ≠ []) per_field ∧ (product per_field ≤ product (columns doc spec sparse))%nat.
Proof.
  revert per_field. induction spec as [|e spec IH]; intros per_field Hf; [by inversion Hf|].
  apply Forall2_cons_inv_l in Hf as (cands & per' & Hc & Hf & ->). destruct (IH per' Hf) as [Hne Hp].
  destruct (index_field_values doc e.1 sparse).1 as [|x l] eqn:El; [by apply indexed_some in El|].
  destruct (candidates_keep doc sparse (field_of e) cands x Hc) as [Hlen (x' & Hx' & _)]; [cbn [field_of fst]; rewrite El; left|].
  split; [constructor; [|done]; by intros ->; apply not_elem_of_nil in Hx'|].
  cbn [columns fmap list_fmap product foldr]. unfold columns, product in *. cbn [field_of fst] in Hlen. by apply Nat.mul_le_mono.
Qed.

Lemma join_lead k ks : ∃ t, join_keys (k :: ks) = k ++ t ∧ (t = [] ∨ ∃ u, t = COMPOUND_SEP ++ u).
Proof.
  destruct ks as [|k' ks]; [exists []; rewrite app_nil_r; eauto|]. exists (COMPOUND_SEP ++ join_keys (k' :: ks)). eauto.
Qed.

(** Every value of the leading column leads one of the document's keys. *)
Lemma variants_lead doc e spec sparse ks x :
  index_key_variants_c dec bo doc (e :: spec) sparse None = Ok ks →
  (sparse = true → sparse_covers doc (e :: spec) = true) →
  (spec = [] ∨ (product (columns doc (e :: spec) sparse) ≤ MAX_COMPOUND_KEYS)%nat) →
  x ∈ (index_field_values doc e.1 sparse).1 →
  ∃ kd t, encd x (field_of e).2 = Ok kd ∧ (t = [] ∨ ∃ u, t = COMPOUND_SEP ++ u) ∧ kd ++ t ∈ ks.
Proof.
  intros Hk Hsp Hmax Hx. unfold index_key_variants_c in Hk.
  assert (sparse && negb (sparse_covers doc (e :: spec)) = false) as Es.
  { destruct sparse; [|done]. by rewrite Hsp. }
  rewrite Es in Hk. clear Es. apply bind_Ok in Hk as (per_field & Hper & Hk). apply mapM_Ok in Hper.
  change (Forall2 (λ f cands, field_candidates dec bo doc sparse None f = Ok cands) (field_of <$> e :: spec) per_field) in Hper.
  pose proof (columns_keep doc (e :: spec) sparse per_field Hper) as [Hne Hprod].
  apply Forall2_cons_inv_l in Hper as (cands & others & Hc & Hper & ->).
  destruct (candidates_keep doc sparse (field_of e) cands x Hc Hx) as [Hlen (x' & Hx' & Hee)].
  assert (length others = length spec) as Hlo by (rewrite <- (Forall2_length _ _ _ Hper); apply (length_fmap field_of)).
  destruct spec as [|e' spec].
  - destruct others; [|done]. cbn [fmap list_fmap] in Hk. apply bind_Ok in Hk as (keys & Hu & <-%Ok_inj).
    destruct (unseen_all _ _ _ _ x' Hu Hx') as (k & Hk & [Hs|(x2 & Hin & _ & _)]); [by apply not_elem_of_nil in Hs|].
    exists k, []. rewrite app_nil_r. split_and!; [by rewrite <- Hee|by left|]. by apply (list_elem_of_fmap_2 snd) in Hin.
  - destruct Hmax as [Hmax|Hmax]; [done|]. destruct others as [|o others]; [done|].
    change ((keys ← unseen (combo_key dec bo None (field_of <$> e :: e' :: spec)) [] (foldl extend_combos [[]] (cands :: o :: others));
             Ok (keys.*2)) = Ok ks) in Hk.
    apply bind_Ok in Hk as (keys & Hu & <-%Ok_inj). apply Forall_cons in Hne as [_ Hne].
    change (product (cands :: o :: others)) with (length cands * product (o :: others))%nat in Hprod.
    pose proof (product_pos _ Hne) as Hpos.
    destruct (combos_keep (o :: others) (extend_combos [[]] cands) [x']) as (c' & Hin & Hlc).
    { unfold extend_combos. rewrite take_ge; [|rewrite extend_length; cbn [length]; nia].
      eapply concat_in; [left|]. apply (list_elem_of_fmap_2 (λ v, [] ++ [v])). done. }
    { done. }
    { unfold extend_combos. rewrite length_take, extend_length. cbn [length]. nia. }
    destruct (unseen_all _ _ _ _ _ Hu Hin) as (k & Hkey & [Hs|(x2 & Hin2 & _ & _)]); [by apply not_elem_of_nil in Hs|].
    unfold combo_key in Hkey. apply bind_Ok in Hkey as (parts & Hm & <-%Ok_inj). apply mapM_Ok in Hm.
    cbn [app fmap list_fmap zip zip_with] in Hm. apply Forall2_cons_inv_l in Hm as (kd & parts' & Hkd & _ & ->).
    destruct (join_lead kd parts') as (t & Et & Ht). exists kd, t. split_and!; [by rewrite <- Hee|done|].
    rewrite <- Et. by apply (list_elem_of_fmap_2 snd) in Hin2.
Qed.
End variants.

(** ** The index a query is read through *)

Section planned.
Context (query_implies_partial : Doc → Doc → bool).

Lemma find_leading_in indexes descs field query fallback n d c :
  find_leading query_implies_partial indexes descs field query fallback = Some (n, d, c) →
  fallback = Some (n, d, c) ∨
  ∃ desc, desc ∈ descs ∧ IndexDesc.name desc = n ∧ leads_with query_implies_partial indexes field query desc = Some (d, c).
Proof.
  revert fallback. induction descs as [|desc descs IH]; intros fallback Hf; [by left|]. cbn [find_leading] in Hf.
  assert (∀ fb, find_leading query_implies_partial indexes descs field query fb = Some (n, d, c) →
    (fb = Some (n, d, c) → fallback = Some (n, d, c) ∨
      IndexDesc.name desc = n ∧ leads_with query_implies_partial indexes field query desc = Some (d, c)) →
    fallback = Some (n, d, c) ∨
    ∃ desc0, desc0 ∈ desc :: descs ∧ IndexDesc.name desc0 = n ∧
      leads_with query_implies_partial indexes field query desc0 = Some (d, c)) as Hrec.
  { intros fb Hfb Hcase. destruct (IH fb Hfb) as [E|(desc0 & Hin & Hrest)]; [|right; exists desc0; split; [by right|done]].
    destruct (Hcase E) as [?|?]; [by left|right]. exists desc. split; [left|done]. }
  destruct (leads_with query_implies_partial indexes field query desc) as [[d' [|]]|] eqn:El.
  - apply (Hrec _ Hf). intros E. destruct fallback as [f|]; [by left|right]. by injection E as -> -> ->.
  - injection Hf as <- -> <-. right. exists desc. split_and!; [left|done|done].
  - apply (Hrec _ Hf). by left.
Qed.

(** What an index the planner picks is known to be. *)
Lemma leads_with_spec indexes field query desc d c pred :
  leads_with query_implies_partial indexes field query desc = Some (d, c) → doc_get query field = Some pred →
  (∀ pf, IndexDesc.partial desc = Some pf → query_implies_partial query pf = true) ∧
  (predicate_may_match_missing (Some pred) = true →
     DOT ∉ field ∨ flagged_multikey indexes (IndexDesc.name desc) = false) ∧
  ∃ e spec, IndexDesc.key_spec desc = e :: spec ∧ field_of e = (field, d).
Proof.
  intros Hl Hq. unfold leads_with in Hl.
  destruct (match IndexDesc.partial desc with Some pf => _ | None => _ end) eqn:Hp in Hl; [done|].
  destruct (IndexDesc.sparse desc && _) in Hl; [done|].
  destruct (holds_missing_leaves indexes desc query) eqn:Hh in Hl; [|done].
  destruct (bool_decide (head (keys (IndexDesc.key_spec desc)) = Some field)) eqn:Hhead in Hl; [|done].
  cbn [negb] in Hl. destruct (negb (forallb _ _)) in Hl; [done|].
  apply bind_Some in Hl as (v & Hv & Hl). apply bind_Some in Hl as (d' & Hd & [= -> _]).
  apply bool_decide_eq_true in Hhead. destruct (IndexDesc.key_spec desc) as [|[f w] spec] eqn:Espec; [done|].
  cbn in Hhead. injection Hhead as ->. cbn in Hv. rewrite bool_decide_true in Hv by done. injection Hv as ->. split_and!.
  - intros pf Hpf. rewrite Hpf in Hp. by apply negb_false_iff in Hp.
  - intros Hm. destruct (decide (DOT ∈ field)) as [Hdot|]; [right|by left]. unfold holds_missing_leaves in Hh.
    rewrite Espec in Hh. cbn [keys fmap list_fmap existsb fst] in Hh. rewrite Hq, Hm in Hh.
    rewrite (bool_decide_true (DOT ∈ field)) in Hh by done.
    rewrite bool_decide_true in Hh by (apply doc_get_elem in Hq; by apply (list_elem_of_fmap_2 fst) in Hq).
    cbn in Hh. by apply negb_true_iff in Hh.
  - exists (field, v), spec. split; [done|]. unfold field_of. cbn. by rewrite Hd.
Qed.
End planned.

(** ** What a filter's field asks *)

Lemma op_is_dollar key a : dollar key = false → dollar (lit a) = true → op_is key a = false.
Proof. intros Hk Ha. destruct (op_is key a) eqn:E; [|done]. apply op_is_true in E. congruence. Qed.

Lemma one_of_dollar key names : dollar key = false → forallb (λ a, dollar (lit a)) names = true → is_one_of key names = false.
Proof.
  intros Hk Hn. destruct (is_one_of key names) eqn:E; [|done]. apply is_one_of_lit in E as (a & Ha & ->).
  rewrite forallb_forall in Hn. rewrite (Hn a) in Hk; [done|]. by apply list_elem_of_In.
Qed.

Lemma matches_field dec bo `{Engines} th doc query field pred vars :
  active th = None → dollar field = false → (field, pred) ∈ query → matches dec bo th doc query vars None = Ok true →
  ∃ m, field_fuel dec bo m th (resolve_path doc field) pred None field true = Ok true.
Proof.
  intros Hth Hd Hin Hm. unfold matches in Hm. destruct (depth (Document query)) as [|m]; [done|].
  change (matches_with dec (field_fuel dec bo m) (matches_fuel dec bo m) th doc query vars None = Ok true) in Hm.
  unfold matches_with in Hm. rewrite Hth in Hm. pose proof (all_ok_true _ _ Hm _ Hin) as Hc.
  exists m. cbn [fst snd] in Hc. unfold match_clause in Hc.
  rewrite !(op_is_dollar field) in Hc by done. rewrite (one_of_dollar field) in Hc by done. rewrite Hd in Hc. done.
Qed.

(** ** The store *)

(** Record [rid] of [doc] is in the indexes a query that implies their partial filters
    may be read through: an entry for each of the document's keys, and the index
    flagged multikey if the document makes it so. *)
Record indexed (dec : bytes → bytes) (bo : BinDataOrder) (implied : Doc → bool) (indexes : list index_desc)
    (entries : bytes → list bytes) (doc : Doc) (rid : Z) : Prop := mkIndexed {
  i_rid : i64_ok rid;
  i_rows : ∀ name, entries_ok (entries name);
  i_keys : ∀ desc, desc ∈ indexes → (∀ pf, IndexDesc.partial desc = Some pf → implied pf = true) →
    ∃ ks, index_key_variants_c dec bo doc (IndexDesc.key_spec desc) (IndexDesc.sparse desc) None = Ok ks ∧
          ∀ k, k ∈ ks → pack_entry k rid ∈ entries (IndexDesc.name desc);
  i_multikey : ∀ desc, desc ∈ indexes → (∀ pf, IndexDesc.partial desc = Some pf → implied pf = true) →
    doc_makes_multikey doc (IndexDesc.key_spec desc) = true → flagged_multikey indexes (IndexDesc.name desc) = true;
}.

Lemma pack_inj kb kb' rid rid' : i64_ok rid → i64_ok rid' → pack_entry kb rid = pack_entry kb' rid' → kb = kb'.
Proof.
  intros H1 H2 E. pose proof (unpack_pack kb rid H1) as Hu. rewrite E, unpack_pack in Hu by done.
  injection Hu as Hu _. by rewrite <- (unescape_escape kb), <- Hu, unescape_escape.
Qed.

Section read.
Context (dec : bytes → bytes) (bo : BinDataOrder) (Hbo : bo ≠ Format4) (alnum : Z → bool) `{Engines}.
Context (Hprefix : prefix_law alnum) (Hnear : near_law) (expired : nat → bool) (Hexp : ∀ n, expired n = false).

Lemma enc_dir_stored x dir k kd : keyable dec x → key dec bo x = Some k → enc_dir_c dec bo None x dir = Ok kd → kd = stored dir k.
Proof.
  intros Kx Hk Hd. apply key_enc in Hk; [|done]. assert (encode_value_directed dec bo None x dir = Ok kd) as Hd'.
  { unfold enc_dir_c in Hd. by destruct (encode_value_directed dec bo None x dir); simplify_eq. }
  unfold stored. destruct (Z.eqb_spec dir (-1)) as [->|Hne].
  - destruct (encd_desc dec bo Hbo x kd Kx Hd') as (e & He & ->). rewrite Hk in He. by injection He as <-.
  - apply encd_asc in Hd'; [|done]. congruence.
Qed.

(** The entry of a key a stretch covers is read. *)
Lemma covered_read rows bounds s x k dir kd t rid :
  entries_ok rows → i64_ok rid → keyable dec x → key dec bo x = Some k → s ∈ stretches bounds → covers s k →
  enc_dir_c dec bo None x dir = Ok kd → (t = [] ∨ ∃ u, t = COMPOUND_SEP ++ u) → pack_entry (kd ++ t) rid ∈ rows →
  ∃ f, scan_spans dec bo expired rows (to_spans dir escape_kb bounds) [] dir = Ok f ∧ rid ∈ f.1.
Proof.
  intros Hrows Hrid Kx Hk Hs Hc Hd Ht Hin. rewrite (enc_dir_stored x dir k kd Kx Hk Hd) in Hin.
  assert (all_bytes (stored dir k ++ t)) as Hall.
  { destruct Hrows as [_ Hp]. rewrite Forall_forall in Hp. destruct (Hp _ Hin) as (kb & r & E & Ha & Hr).
    by apply pack_inj in E as ->. }
  assert (rest_of t) as Hrest.
  { apply all_bytes_app in Hall as [_ Hall]. destruct Ht as [->|[u ->]]; [constructor|]. apply all_bytes_app in Hall as [_ Hu]. by constructor. }
  destruct (key_rank dec bo Hbo x k Kx Hk) as (body & E & Hr). apply has_rank_pos in Hr.
  destruct (to_spans_holds dir bounds s k (rank dec bo x) body t) as (sp & Hsp & Hin'); try done; [by eapply key_bytes_all|].
  by eapply (scan_finds dec bo expired Hexp rows _ dir sp (stored dir k ++ t)).
Qed.

Lemma field_read indexes entries doc rid th m query field pred b desc dir c
    (query_implies_partial : Doc → Doc → bool) :
  indexed dec bo (query_implies_partial query) indexes entries doc rid →
  clean dec (Document doc) → clean dec pred → distinct pred = true → active th = None → last (split_dot field) ≠ Some [] →
  (∀ d, pred = Document d → forallb dollar (keys d) = true → d ≠ [] → is_operator_dict d = true) →
  doc_get query field = Some pred → desc ∈ indexes →
  leads_with query_implies_partial indexes field query desc = Some (dir, c) →
  (IndexDesc.sparse desc = true → sparse_covers doc (IndexDesc.key_spec desc) = true) →
  (length (IndexDesc.key_spec desc) = 1%nat ∨ (product (columns doc (IndexDesc.key_spec desc) (IndexDesc.sparse desc)) ≤ MAX_COMPOUND_KEYS)%nat) →
  field_fuel dec bo m th (resolve_path doc field) pred None field true = Ok true →
  for_predicate dec bo alnum pred (flagged_multikey indexes (IndexDesc.name desc)) (dir =? -1) = Some b →
  ∃ f, scan_spans dec bo expired (entries (IndexDesc.name desc)) (to_spans dir escape_kb b) [] dir = Ok f ∧ rid ∈ f.1.
Proof.
  intros Hix Cd Cp Hdist Hth Hlast Hdict Hq Hdesc Hleads Hsp Hcap Hm Hb.
  destruct (leads_with_spec _ _ _ _ _ _ _ _ Hleads Hq) as (Hpart & Hmiss & e & spec & Espec & Ef).
  destruct (i_keys _ _ _ _ _ _ _ Hix desc Hdesc Hpart) as (ks & Hks & Hent).
  pose proof (i_multikey _ _ _ _ _ _ _ Hix desc Hdesc Hpart) as Hmk. set (sparse := IndexDesc.sparse desc) in *.
  assert (flagged_multikey indexes (IndexDesc.name desc) = false → (index_field_values doc field sparse).2 = false) as Hflat.
  { intros Hfl. rewrite Hfl in Hmk. destruct (index_field_values doc field sparse).2 eqn:E; [|done]. symmetry. apply Hmk. rewrite Espec.
    unfold doc_makes_multikey. cbn [keys fmap list_fmap existsb]. replace e.1 with field by (by injection Ef).
    change (index_field_values doc field false).2 with (multikey (field_keys doc field false)).
    assert (multikey (field_keys doc field false) = (index_field_values doc field sparse).2) as -> by
      (unfold index_field_values, field_keys; by destruct (get_path_values doc field)). by rewrite E. }
  destruct (field_found dec bo Hbo alnum Hprefix Hnear (resolve_path doc field) (index_field_values doc field sparse).1
    (predicate_may_match_missing (Some pred)) th m pred field (flagged_multikey indexes (IndexDesc.name desc)) (dir =? -1) b)
    as (x & k & s & Hx & Hk & Hs & Hc); try done.
  - apply path_reach; [done|done|]. intros Hpm. destruct (Hmiss Hpm) as [Hdot|Hfl]; [right; by apply split_dot_single|left; auto].
  - destruct (flagged_multikey _ _) eqn:E; [by left|right]. apply flat_unique; auto.
  - rewrite Espec in *. destruct (variants_lead dec bo doc e spec sparse ks x Hks Hsp) as (kd & t & Hd & Ht & Hkt).
    + destruct Hcap as [Hcap|Hcap]; [left; by destruct spec|by right].
    + replace e.1 with field by (by injection Ef). done.
    + rewrite Ef in Hd. cbn [snd] in Hd. eapply (covered_read _ b s x k dir kd t rid); try done; [by eapply i_rows|by eapply i_rid| |by apply Hent].
      pose proof (path_reach dec doc field sparse false Cd Hlast ltac:(done)) as Hr. apply r_keyable in Hr. rewrite Forall_forall in Hr. auto.
Qed.
End read.


(** ** At a concrete input *)

(** [{x: [1, 7]}] under an index on [x] descending, for [{x: {$gt: 5}}]. *)
Definition sample : Doc := [(lit "x", Array [Int32 1; Int32 7])].
Definition sample_index : index_desc := IndexDesc.mk (lit "x_-1") [(lit "x", Int32 (-1))] false None true.
Definition sample_pred : Bson := Document [(lit "$gt", Int32 5)].
Definition sample_keys : list bytes :=
  match index_key_variants_c id Mongod sample (IndexDesc.key_spec sample_index) false None with
  | Ok [one; seven; whole] => [whole; seven; one]
  | _ => []
  end.
Definition sample_entries (name : bytes) : list bytes :=
  if ⌊name = lit "x_-1"⌋ then (λ k, pack_entry k 42) <$> sample_keys else [].

Lemma lit_all_bytes l : forallb (λ c, (0 <=? c) && (c <? 256)) l = true → all_bytes l.
Proof.
  intros Hl. apply Forall_forall. intros c Hc. rewrite forallb_forall in Hl. apply list_elem_of_In in Hc.
  apply Hl in Hc. unfold is_byte. lia.
Qed.

Lemma sample_clean : clean id (Document sample) ∧ clean id sample_pred.
Proof.
  split; (split; [|done]); (apply k_document; [done|]); (apply Forall_cons_2; [|apply Forall_nil_2]);
    (split_and!; [by apply lit_all_bytes|done|]).
  - apply k_array. repeat constructor; done.
  - by constructor.
Qed.

Lemma sample_entries_ok name : entries_ok (sample_entries name).
Proof.
  unfold sample_entries. case_bool_decide; [|by repeat constructor]. split.
  - repeat constructor; by vm_compute.
  - apply Forall_fmap. eapply (Forall_impl (λ k, forallb (λ c, (0 <=? c) && (c <? 256)) k = true)).
    + vm_compute. repeat constructor.
    + intros k Hk. exists k, 42. split_and!; [done|by apply lit_all_bytes|done].
Qed.

Lemma sample_indexed : indexed id Mongod (λ _, false) [sample_index] sample_entries sample 42.
Proof.
  split; [done|apply sample_entries_ok| |].
  - intros desc ->%list_elem_of_singleton _. eexists. split; [vm_compute; reflexivity|].
    intros k Hk. vm_compute in Hk. repeat (apply elem_of_cons in Hk as [->|Hk]; [vm_compute; set_solver|]).
    by apply not_elem_of_nil in Hk.
  - by intros desc ->%list_elem_of_singleton _ _.
Qed.


(** ** Where a match is not read *)

(** The entries of record [rid] in an index are those of the document's keys. *)
Definition own_entries (dec : bytes → bytes) (bo : BinDataOrder) (doc : Doc) (desc : index_desc) (rid : Z) (rows : list bytes) : Prop :=
  ∃ ks, index_key_variants_c dec bo doc (IndexDesc.key_spec desc) (IndexDesc.sparse desc) None = Ok ks ∧
        ∀ e, e ∈ rows → (unpack_entry e).2 = Some rid → ∃ k, k ∈ ks ∧ e = pack_entry k rid.

(** A filter of one operator on one field, by the operator. *)
Lemma matches_one dec bo `{Engines} th doc field op arg vars :
  dollar field = false → DOT ∉ field → is_operator_dict [(op, arg)] = true → op_is op "$options" = false → op_is op "$regex" = false →
  geo_near [(op, arg)] = Ok None →
  (∀ field_rec matches_rec,
     op_matches dec bo field_rec matches_rec th [plain (doc_get doc field)] op arg (active th) field true = Ok true) →
  matches dec bo th doc [(field, Document [(op, arg)])] vars None = Ok true.
Proof.
  intros Hd Hdot Hop Ho Hr Hg Hm. unfold matches. cbn [depth fold_right snd Nat.max].
  cbn [matches_fuel matches_with all_ok fst snd]. unfold match_clause.
  rewrite !(op_is_dollar field) by done. rewrite (one_of_dollar field) by done. rewrite Hd. cbn [andb].
  assert (resolve_path doc field = [plain (doc_get doc field)]) as -> by (unfold resolve_path; by rewrite split_dot_single).
  cbn [field_fuel field_matches_with]. rewrite Hop. assert (regex_pair_ok [(op, arg)] = Ok ()) as ->.
  { unfold op_is in Ho, Hr. apply bool_decide_eq_false in Ho, Hr. unfold regex_pair_ok.
    cbn [doc_get]. by rewrite !bool_decide_false by congruence. }
  cbn [mbind outcome_bind]. rewrite Hg. cbn [mbind outcome_bind all_ok fst snd]. rewrite Ho, Hr, Hm. done.
Qed.

(** An index on the field alone, the first of the list, is picked. *)
Lemma picks_first implies name field sparse multikey rest pred :
  DOT ∉ field → (sparse = true → predicate_may_match_missing (Some pred) = false) →
  let desc := IndexDesc.mk name [(field, Int32 1)] sparse None multikey in
  find_leading_field_index implies (desc :: rest) field [(field, pred)] = Some (name, 1, false).
Proof.
  intros Hdot Hsp desc. unfold find_leading_field_index. cbn [find_leading].
  assert (leads_with implies (desc :: rest) field [(field, pred)] desc = Some (1, false)) as ->; [|done].
  unfold leads_with. cbn [IndexDesc.partial IndexDesc.sparse IndexDesc.key_spec desc].
  assert (sparse && negb (sparse_index_usable [(field, Int32 1)] [(field, pred)]) = false) as ->.
  { destruct sparse; [|done]. unfold sparse_index_usable. cbn [keys fmap list_fmap existsb fst doc_get].
    rewrite bool_decide_true by done. by rewrite Hsp. }
  unfold holds_missing_leaves. cbn [IndexDesc.key_spec desc keys fmap list_fmap existsb fst].
  rewrite (bool_decide_false (DOT ∈ field)) by done. cbn [andb orb negb head doc_get].
  rewrite (bool_decide_true (Some field = Some field)), (bool_decide_true (field = field)) by done. done.
Qed.

(** A read whose bounds hold no entry of a record does not return the record. *)
Lemma unread dec bo alnum expired indexes entries name dir compound pred b rid :
  (∀ n, expired n = false) → for_predicate dec bo alnum pred (flagged_multikey indexes name) (dir =? -1) = Some b →
  (∀ e sp, e ∈ entries name → (unpack_entry e).2 = Some rid → sp ∈ to_spans dir escape_kb b →
           blt (unpack_entry e).1 (default [0xFF] (hi sp)) = false) →
  ∃ ids ordered, bounded_id_keys dec bo alnum expired indexes entries true (name, dir, compound) pred = Ok (Some (ids, ordered)) ∧
                 rid ∉ ids.
Proof.
  intros Hexp Hb Hno. unfold bounded_id_keys. rewrite Hb. unfold wide_read_allowed. rewrite orb_true_r. cbn [negb].
  destruct (scan_returns dec bo expired Hexp (entries name) (to_spans dir escape_kb b) dir) as [f Hf]. rewrite Hf.
  cbn [mbind outcome_bind]. eexists _, _. split; [done|]. intros Hin.
  destruct (scan_from dec bo expired Hexp _ _ _ _ _ Hf Hin) as (e & sp & He & Hid & Hsp & Hlt).
  by rewrite (Hno e sp) in Hlt.
Qed.

(** Bytes that begin with at least the byte a span ends with are not below its end. *)
Lemma first_not_below x y l : y ≤ x → blt (x :: l) [y] = false.
Proof. intros Hxy. unfold blt. cbn. destruct (Z.compare_spec x y); [|lia|done]. by destruct l. Qed.

(** The keys of JavaScript with scope begin with its own rank. *)
Lemma scope_keys dec bo doc field code scope multikey name ks k :
  bo ≠ Format4 → DOT ∉ field → doc_get doc field = Some (JavaScriptCodeWithScope code scope) →
  index_key_variants_c dec bo doc (IndexDesc.key_spec (IndexDesc.mk name [(field, Int32 1)] false None multikey)) false None = Ok ks →
  k ∈ ks → ∃ body, k = RANK_JAVASCRIPT_SCOPE :: body.
Proof.
  intros Hbo Hdot Hv Hks Hk. unfold index_key_variants_c in Hks. cbn [IndexDesc.key_spec andb fmap list_fmap fst snd] in Hks.
  apply bind_Ok in Hks as (per & Hper & Hks). apply mapM_Ok in Hper.
  apply Forall2_cons_inv_l in Hper as (cands & per' & Hc & ->%Forall2_nil_inv_l & ->).
  assert (cands = [JavaScriptCodeWithScope code scope]) as ->.
  { unfold field_candidates, index_field_values, field_keys, get_path_values in Hc. cbn [fst] in Hc.
    rewrite split_dot_single in Hc by done. cbn [value_steps] in Hc. rewrite Hv in Hc.
    cbn [option_list fmap list_fmap leaf_keys concat app element_lacks_leaf] in Hc. rewrite Hv in Hc.
    cbn in Hc. by injection Hc. }
  apply bind_Ok in Hks as (keys & Hu & <-%Ok_inj). cbn [unseen] in Hu. apply bind_Ok in Hu as (k' & Hk' & Hu).
  rewrite bool_decide_false in Hu by apply not_elem_of_nil. injection Hu as <-. apply list_elem_of_singleton in Hk as ->.
  unfold enc_dir_c, encode_value_directed in Hk'. cbn in Hk'.
  rewrite bool_decide_false in Hk' by done. destruct (encode_doc_with _ scope) as [ke| | |]; try done.
  injection Hk' as <-. by eexists.
Qed.

(** The ways [$type] asks for JavaScript with scope. *)
Definition SCOPE_TYPES : list Bson := [Int32 15; Int64 15; Double 0x402E000000000000; String (lit "javascriptWithScope")].

(** They are read between the bounds of JavaScript without scope. *)
Lemma scope_type_bounds dec bo alnum spec multikey desc :
  spec ∈ SCOPE_TYPES →
  for_predicate dec bo alnum (Document [(lit "$type", spec)]) multikey desc
    = Some (mkBounds [Stretch.bracket RANK_JAVASCRIPT] true).
Proof. unfold SCOPE_TYPES. rewrite !elem_of_cons, elem_of_nil. intros [->|[->|[->|[->|[]]]]]; reflexivity. Qed.

(** C39. A [$type] that asks for JavaScript with scope, by number or by name, does not read
    what it matches: for every document that holds such a value at [field] (a name
    without a dot, not an operator), the filter matches, an index on [field] ascending
    that is first in the list is the planner's pick, and the scan between the bounds
    returns without the document's record, whatever else the index holds: the bounds
    are those of JavaScript without scope, whose rank is lower. *)
Theorem type_scan_loses_scope dec bo alnum `{Engines} implies expired th vars doc rid field code scope spec name multikey rest entries :
  let pred := Document [(lit "$type", spec)] in
  let desc := IndexDesc.mk name [(field, Int32 1)] false None multikey in
  bo ≠ Format4 → (∀ n, expired n = false) → i64_ok rid → dollar field = false → DOT ∉ field →
  geo_near [(lit "$type", spec)] = Ok None →
  spec ∈ SCOPE_TYPES → doc_get doc field = Some (JavaScriptCodeWithScope code scope) →
  own_entries dec bo doc desc rid (entries name) →
  matches dec bo th doc [(field, pred)] vars None = Ok true ∧
  find_leading_field_index implies (desc :: rest) field [(field, pred)] = Some (name, 1, false) ∧
  ∃ ids ordered,
    bounded_id_keys dec bo alnum expired (desc :: rest) entries true (name, 1, false) pred = Ok (Some (ids, ordered)) ∧
    rid ∉ ids.
Proof.
  intros pred desc Hbo Hexp Hrid Hd Hdot Hg Hspec Hv (ks & Hks & Hown). split_and!.
  - apply matches_one; try done. intros fr mr. rewrite Hv. unfold SCOPE_TYPES in Hspec.
    rewrite !elem_of_cons, elem_of_nil in Hspec. destruct Hspec as [->|[->|[->|[->|[]]]]]; reflexivity.
  - by apply picks_first.
  - eapply unread; [done|by apply scope_type_bounds|]. intros e sp He Hid Hsp.
    destruct (Hown e He Hid) as (k & Hk & ->). rewrite unpack_pack by done. cbn [fst].
    destruct (scope_keys dec bo doc field code scope multikey name ks k Hbo Hdot Hv Hks Hk) as [body ->].
    apply list_elem_of_singleton in Hsp as ->. by apply first_not_below.
Qed.

(** The predicates a missing field satisfies and that are thought not to hold of one. *)
Inductive loses_missing (dec : bytes → bytes) : bytes → Bson → Prop :=
  | loses_gt : loses_missing dec (lit "$gt") MinKey
  | loses_lt : loses_missing dec (lit "$lt") MaxKey
  | loses_exists arg : truthy dec arg = false → bson_truthy_exists arg = true → loses_missing dec (lit "$exists") arg.

(** C40. [{$gt: MinKey}], [{$lt: MaxKey}] and a [$exists] whose argument only the matcher
    reads as false (a Decimal128 zero) do not read the documents without the field
    through a sparse index on it: for every document that has no [field], the filter
    matches and the planner picks the sparse index when it is the first of the list;
    the document has no key in it, so the scan returns without its record. *)
Theorem sparse_scan_loses_missing dec bo alnum `{Engines} implies expired th vars doc rid field op arg name multikey rest entries :
  let pred := Document [(op, arg)] in
  let desc := IndexDesc.mk name [(field, Int32 1)] true None multikey in
  (∀ n, expired n = false) → dollar field = false → DOT ∉ field → geo_near [(op, arg)] = Ok None →
  loses_missing dec op arg → doc_get doc field = None →
  own_entries dec bo doc desc rid (entries name) →
  matches dec bo th doc [(field, pred)] vars None = Ok true ∧
  find_leading_field_index implies (desc :: rest) field [(field, pred)] = Some (name, 1, false) ∧
  index_key_variants_c dec bo doc (IndexDesc.key_spec desc) true None = Ok [] ∧
  ∃ ids ordered,
    bounded_id_keys dec bo alnum expired (desc :: rest) entries true (name, 1, false) pred = Ok (Some (ids, ordered)) ∧
    rid ∉ ids.
Proof.
  intros pred desc Hexp Hd Hdot Hg Hlose Hv (ks & Hks & Hown).
  assert (index_key_variants_c dec bo doc (IndexDesc.key_spec desc) true None = Ok []) as Hnone.
  { unfold index_key_variants_c, sparse_covers, index_field_exists, get_path_values. cbn [desc IndexDesc.key_spec keys fmap list_fmap existsb fst].
    rewrite split_dot_single by done. cbn [value_steps fst]. by rewrite Hv. }
  cbn [IndexDesc.sparse desc] in Hks. rewrite Hnone in Hks. injection Hks as <-. split_and!; [| |done|].
  - apply matches_one; try done; [by destruct Hlose..|]. intros fr mr. rewrite Hv. destruct Hlose as [| |arg Ht Hb]; [reflexivity..|].
    assert (operand_ok (lit "$exists") arg field = Ok ()) as Hok by (by destruct arg).
    unfold op_matches. rewrite Hok. change (Ok (E := Fallback) (Bool.eqb false (truthy dec arg)) = Ok true). by rewrite Ht.
  - apply picks_first; [done|]. intros _. destruct Hlose as [| |arg Ht Hb]; [done..|]. unfold pred, predicate_may_match_missing.
    cbn [existsb fst snd]. unfold operator_may_match_missing. by rewrite Hb.
  - assert (∃ b, for_predicate dec bo alnum pred (flagged_multikey (desc :: rest) name) (1 =? -1) = Some b) as [b Hb].
    { unfold pred. destruct Hlose as [| |arg Ht Hb]; [by eexists..|]. eexists. unfold for_predicate, operators, operators_with.
      cbn [forallb keys fmap list_fmap fst snd foldl]. unfold operator. rewrite Hb. reflexivity. }
    eapply unread; [done|exact Hb|]. intros e sp He Hid _. destruct (Hown e He Hid) as (k & Hk & _). by apply not_elem_of_nil in Hk.
Qed.

Lemma type_scan_loses_scope_witness :
  let doc := [(lit "x", JavaScriptCodeWithScope (lit "f()") [])] in
  let pred := Document [(lit "$type", Int32 15)] in
  let desc := IndexDesc.mk (lit "x_1") [(lit "x", Int32 1)] false None false in
  let entries (_ : bytes) := [pack_entry (RANK_JAVASCRIPT_SCOPE :: escape (lit "f()") ++ [0; 0; 0]) 42] in
  own_entries id Mongod doc desc 42 (entries (lit "x_1")) ∧
  @matches id Mongod no_engines (mkThread None false) doc [(lit "x", pred)] [] None = Ok true ∧
  ∃ ids ordered,
    bounded_id_keys id Mongod (λ _, false) (λ _, false) [desc] entries true (lit "x_1", 1, false) pred = Ok (Some (ids, ordered)) ∧
    42 ∉ ids.
Proof.
  intros doc pred desc entries. assert (own_entries id Mongod doc desc 42 (entries (lit "x_1"))) as Hown.
  { eexists. split; [vm_compute; reflexivity|]. intros e ->%list_elem_of_singleton _. eexists. split; [left|vm_compute; reflexivity]. }
  split; [exact Hown|].
  destruct (@type_scan_loses_scope id Mongod (λ _, false) no_engines (λ _ _, false) (λ _, false) (mkThread None false) [] doc 42
    (lit "x") (lit "f()") [] (Int32 15) (lit "x_1") false [] entries) as (Hm & _ & Hr);
    [done|done|by vm_compute|done|by vm_compute; set_solver|done|left|done|exact Hown|]. by split.
Defined.

Lemma sparse_scan_loses_missing_witness :
  let doc := [(lit "y", Int32 1)] in
  let desc := IndexDesc.mk (lit "x_1") [(lit "x", Int32 1)] true None false in
  let zero := Decimal128 [0; 0; 0; 0; 0; 0; 0; 0; 0; 0; 0; 0; 0; 0; 64; 48] in
  loses_missing (λ _, lit "0") (lit "$exists") zero ∧
  @matches (λ _, lit "0") Mongod no_engines (mkThread None false) doc [(lit "x", Document [(lit "$exists", zero)])] [] None = Ok true ∧
  ∃ ids ordered,
    bounded_id_keys (λ _, lit "0") Mongod (λ _, false) (λ _, false) [desc] (λ _, []) true (lit "x_1", 1, false)
      (Document [(lit "$exists", zero)]) = Ok (Some (ids, ordered)) ∧ 42 ∉ ids.
Proof.
  intros doc desc zero. assert (loses_missing (λ _, lit "0") (lit "$exists") zero) as Hl by (by constructor; vm_compute).
  split; [exact Hl|].
  destruct (@sparse_scan_loses_missing (λ _, lit "0") Mongod (λ _, false) no_engines (λ _ _, false) (λ _, false) (mkThread None false) []
    doc 42 (lit "x") (lit "$exists") zero (lit "x_1") false [] (λ _, [])) as (Hm & _ & _ & Hr);
    [done|done|by vm_compute; set_solver|done|exact Hl|done| |by split].
  eexists. split; [vm_compute; reflexivity|]. by intros e ?%not_elem_of_nil.
Defined.
