(* ===== verification/Vec.v ===== *)
(** * Vectors updated in place

    [v[i] = x] panics outside the vector; [at_or0] is the value at an index, 0
    outside, used to state invariants. *)
From S2P Require Import Prelude RustM.
Open Scope Z_scope.

(** The result of code that has no error value of its own. *)
Abbreviation run A := (outcome Empty_set A).

(** [l[i] = v] *)
Definition store {E} (l : bytes) (i v : Z) : outcome E bytes :=
  if bool_decide (0 ≤ i < blen l) then Ok (<[Z.to_nat i := v]> l) else Panic.

Definition at_or0 (l : bytes) (i : Z) : Z :=
  if bool_decide (0 ≤ i) then default 0 (l !! Z.to_nat i) else 0.

Definition upd (l : bytes) (i v : Z) : bytes := <[Z.to_nat i := v]> l.

Lemma index_at {E} l i : 0 ≤ i < blen l → @index E l i = Ok (at_or0 l i).
Proof.
  intros Hi. unfold index, at_or0. rewrite !bool_decide_true by lia.
  destruct (l !! Z.to_nat i) eqn:E1; [done|]. apply lookup_ge_None in E1. unfold blen in Hi. lia.
Qed.

Lemma store_at {E} l i v : 0 ≤ i < blen l → @store E l i v = Ok (upd l i v).
Proof. intros Hi. unfold store. by rewrite bool_decide_true. Qed.

Lemma blen_upd l i v : blen (upd l i v) = blen l.
Proof. unfold blen, upd. by rewrite length_insert. Qed.

Lemma at_upd l i v j : 0 ≤ i < blen l → 0 ≤ j → at_or0 (upd l i v) j = if j =? i then v else at_or0 l j.
Proof.
  intros Hi Hj. unfold at_or0, upd. rewrite bool_decide_true by done. unfold blen in Hi.
  destruct (Z.eqb_spec j i) as [->|Hn].
  - by rewrite list_lookup_insert_eq by lia.
  - by rewrite list_lookup_insert_ne by lia.
Qed.

Lemma at_upd_eq l i v : 0 ≤ i < blen l → at_or0 (upd l i v) i = v.
Proof. intros Hi. rewrite at_upd by lia. by rewrite Z.eqb_refl. Qed.

Lemma at_upd_ne l i v j : 0 ≤ i < blen l → 0 ≤ j → j ≠ i → at_or0 (upd l i v) j = at_or0 l j.
Proof. intros Hi Hj Hn. rewrite at_upd by lia. by rewrite (proj2 (Z.eqb_neq j i)). Qed.

Lemma at_out l i : blen l ≤ i → at_or0 l i = 0.
Proof.
  intros Hi. unfold at_or0. case_bool_decide; [|done]. rewrite lookup_ge_None_2; [done|].
  unfold blen in Hi. lia.
Qed.

Lemma at_range l i (P : Z → Prop) : P 0 → Forall P l → P (at_or0 l i).
Proof.
  intros H0 Hl. unfold at_or0. case_bool_decide; [|done].
  destruct (l !! Z.to_nat i) eqn:E; [|done]. by eapply Forall_lookup_1.
Qed.

Lemma upd_Forall l i v (P : Z → Prop) : P v → Forall P l → Forall P (upd l i v).
Proof. intros. by apply Forall_insert. Qed.

Lemma at_replicate n i : at_or0 (replicate n 0) i = 0.
Proof. apply (at_range _ _ (λ x, x = 0)); [done|]. by apply Forall_replicate. Qed.
