(* ===== verification/Slice.v ===== *)
(** * Slices of any element type, mutated in place

    [&mut [T]] as a list: indexing and [swap] panic outside the slice, and a
    sub-slice [&mut s[a..b]] is taken out, changed and put back. Positions are
    [usize] values that stay below a slice's length, as [nat]; a subtraction is
    written only where the code has just tested that it does not underflow. *)
From S2P Require Import Prelude RustM Vec.
Open Scope nat_scope.

Section slices.
Context {A : Type}.
Implicit Types s : list A.

(** [s[i]] *)
Definition get s i : run A := match s !! i with Some x => Ok x | None => Panic end.

(** [s.swap(i, j)] *)
Definition swap s i j : run (list A) :=
  x ← get s i; y ← get s j; Ok (<[i := y]> (<[j := x]> s)).

(** [&mut s[a..b]], and the slice after the sub-slice became [t] *)
Definition sub s a b : run (list A) :=
  if (a <=? b) && (b <=? length s) then Ok (take (b - a) (drop a s)) else Panic.
Definition put s a b t : list A := take a s ++ t ++ drop b s.

Lemma get_Some s i x : s !! i = Some x → get s i = Ok x.
Proof. unfold get. by intros ->. Qed.

Lemma get_lt s i : i < length s → ∃ x, s !! i = Some x ∧ get s i = Ok x.
Proof. intros (x & Hx)%lookup_lt_is_Some. eauto using get_Some. Qed.

(** [t] is [s] with the elements at [i] and [j] exchanged. *)
Definition swapped s i j t : Prop :=
  length t = length s ∧ t ≡ₚ s ∧
  ∀ k, t !! k = if decide (k = i) then s !! j else if decide (k = j) then s !! i else s !! k.

Lemma swap_spec s i j : i < length s → j < length s → ∃ t, swap s i j = Ok t ∧ swapped s i j t.
Proof.
  intros Hi Hj. destruct (get_lt s i Hi) as (x & Hx & Gx). destruct (get_lt s j Hj) as (y & Hy & Gy).
  unfold swap. rewrite Gx. cbn. rewrite Gy. cbn. eexists. split; [done|]. split_and!.
  - by rewrite !length_insert.
  - by apply Permutation_insert_swap.
  - intros k. case_decide as E1; [subst k|].
    { by rewrite list_lookup_insert_eq by (by rewrite length_insert). }
    rewrite list_lookup_insert_ne by done. case_decide as E2; [subst k|].
    + by rewrite list_lookup_insert_eq by done.
    + by rewrite list_lookup_insert_ne.
Qed.

Lemma swapped_length s i j t : swapped s i j t → length t = length s.
Proof. by intros (? & _). Qed.
Lemma swapped_perm s i j t : swapped s i j t → t ≡ₚ s.
Proof. by intros (_ & ? & _). Qed.
Lemma swapped_at s i j t k : swapped s i j t →
  t !! k = if decide (k = i) then s !! j else if decide (k = j) then s !! i else s !! k.
Proof. intros (_ & _ & H). apply H. Qed.

Lemma sub_ok s a b : a ≤ b → b ≤ length s → sub s a b = Ok (take (b - a) (drop a s)).
Proof. intros Ha Hb. unfold sub. by rewrite (proj2 (Nat.leb_le _ _) Ha), (proj2 (Nat.leb_le _ _) Hb). Qed.

(** Slices seen as three consecutive pieces. *)
Lemma sub_app x y z : sub (x ++ y ++ z) (length x) (length x + length y) = Ok y.
Proof.
  rewrite sub_ok; [|lia|rewrite !length_app; lia]. f_equal.
  rewrite drop_app_length. replace (length x + length y - length x) with (length y) by lia.
  apply take_app_length.
Qed.

Lemma put_app x y z t : put (x ++ y ++ z) (length x) (length x + length y) t = x ++ t ++ z.
Proof.
  unfold put. rewrite take_app_length, <- drop_drop, drop_app_length, drop_app_length. done.
Qed.

End slices.
