(* ===== verification/Meth.v ===== *)
(** * Methods on a mutable state that can fail

    [fn f(&mut self, ..) -> Result<A, E>] as a function from the state to the
    state it leaves and its result. An early [return Err] or [?] keeps the
    changes made so far, as in the source; an [expect] on [None] or an index out
    of range is a panic. [wp] is total: the method returns, and its
    postcondition holds of the result and the new state. *)
From S2P Require Import Prelude RustM Vec.

Definition meth (S E A : Type) : Type := S → run (S * (E + A)).

#[export] Instance meth_ret {S E} : MRet (meth S E) := λ A a st, Ok (st, inr a).
#[export] Instance meth_bind {S E} : MBind (meth S E) := λ A B f m st,
  match m st with
  | Ok (st, inr a) => f a st
  | Ok (st, inl e) => Ok (st, inl e)
  | Err e => Err e
  | Panic => Panic
  | NoFuel => NoFuel
  end.

Section meth.
Context {S E : Type}.

(** [&self], [self.field = ..], [return Err(e)] *)
Definition self : meth S E S := λ st, Ok (st, inr st).
Definition modify (f : S → S) : meth S E () := λ st, Ok (f st, inr ()).
Definition fail {A} (e : E) : meth S E A := λ st, Ok (st, inl e).

(** [o.expect(..)], [v[i]] *)
Definition expect {A} (o : option A) : meth S E A :=
  λ st, match o with Some a => Ok (st, inr a) | None => Panic end.

(** [for x in l { f(x)?; }] *)
Fixpoint for_each {A} (l : list A) (f : A → meth S E ()) : meth S E () :=
  match l with
  | [] => mret ()
  | x :: l => _ ← f x; for_each l f
  end.

(** [l.iter().any(f)], and a loop that sets a flag and breaks *)
Fixpoint any_of {A} (l : list A) (f : A → meth S E bool) : meth S E bool :=
  match l with
  | [] => mret false
  | x :: l => b ← f x; if (b : bool) then mret true else any_of l f
  end.

Definition wp {A} (m : meth S E A) (Q : E + A → S → Prop) (st : S) : Prop :=
  ∃ st' r, m st = Ok (st', r) ∧ Q r st'.

(** A postcondition on success, with [I] also kept on failure. *)
Definition on_ok {A} (I : S → Prop) (Q : A → S → Prop) : E + A → S → Prop :=
  λ r st, match r with inl _ => I st | inr a => Q a st end.

Lemma wp_ret {A} (a : A) Q st : Q (inr a) st → wp (mret a) Q st.
Proof. intros H. by exists st, (inr a). Qed.

Lemma wp_bind {A B} (m : meth S E A) (f : A → meth S E B) Q st :
  wp m (λ r st, match r with inl e => Q (inl e) st | inr a => wp (f a) Q st end) st →
  wp (m ≫= f) Q st.
Proof.
  intros (st' & r & Hm & Hr). unfold wp, mbind, meth_bind. rewrite Hm. destruct r as [e|a].
  - by exists st', (inl e).
  - destruct Hr as (st'' & r' & Hf & HQ). by exists st'', r'.
Qed.

Lemma wp_mono {A} (m : meth S E A) (Q Q' : E + A → S → Prop) st :
  wp m Q st → (∀ r st, Q r st → Q' r st) → wp m Q' st.
Proof. intros (st' & r & Hm & Hr) H. exists st', r. auto. Qed.

Lemma wp_self Q st : Q (inr st) st → wp self Q st.
Proof. intros H. by exists st, (inr st). Qed.

Lemma wp_modify f Q st : Q (inr ()) (f st) → wp (modify f) Q st.
Proof. intros H. by exists (f st), (inr ()). Qed.

Lemma wp_fail {A} e (Q : E + A → S → Prop) st : Q (inl e) st → wp (fail e) Q st.
Proof. intros H. by exists st, (inl e). Qed.

Lemma wp_expect {A} (o : option A) a Q st : o = Some a → Q (inr a) st → wp (expect o) Q st.
Proof. intros -> H. by exists st, (inr a). Qed.

(** A loop with an invariant over what is left to visit. *)
Lemma wp_for_each {A} (l : list A) (f : A → meth S E ()) (I : list A → S → Prop) Q st :
  I l st →
  (∀ x l st, I (x :: l) st → wp (f x) (on_ok (λ st, ∀ e, Q (inl e) st) (λ _, I l)) st) →
  (∀ st, I [] st → Q (inr ()) st) →
  wp (for_each l f) Q st.
Proof.
  intros HI Hf HQ. revert st HI. induction l as [|x l IH]; intros st HI; cbn [for_each].
  - apply wp_ret, HQ, HI.
  - apply wp_bind. eapply wp_mono; [by apply Hf|]. intros [e|[]] st' Hr; [apply Hr|by apply IH].
Qed.

(** A search that only reads: [f] answers [p] of each element. *)
Lemma wp_any_of {A} (l : list A) (f : A → meth S E bool) (p : A → bool) Q st :
  (∀ x, x ∈ l → f x st = Ok (st, inr (p x))) → Q (inr (existsb p l)) st → wp (any_of l f) Q st.
Proof.
  intros Hf HQ. exists st, (inr (existsb p l)). split; [|done]. clear HQ.
  induction l as [|x l IH]; [done|]. cbn [any_of existsb]. unfold mbind, meth_bind.
  rewrite (Hf x) by left. destruct (p x); [done|]. apply IH. intros y Hy. apply Hf. by right.
Qed.

End meth.

(** Symbolic execution of the plain steps of a method. *)
Ltac wp_pure :=
  repeat first
    [ apply wp_bind | apply wp_ret | apply wp_self | apply wp_modify | apply wp_fail
    | progress cbn [mbind] ].
