(* ===== verification/Ssi.v ===== *)
(** * Serializable snapshot isolation (secantus-pg/src/ssi.rs)

    PostgreSQL's [predicate.c] as the server transcribes it: SIREAD locks on
    relations, pages and tuples, rw-conflicts between serializable
    transactions, and the two checks that cancel a transaction before a
    dangerous structure commits. One [State] per cluster; transactions and
    conflicts are indices into vectors whose freed slots are reused.

    A method of [impl State] is a [meth State Failure]: [sx], [sx_mut] and
    [conflict] panic on a freed slot, as the source's [expect] does. Sequence
    numbers and counts are u64 values that only ever grow by one, and are kept
    as [Z]. *)
From S2P Require Import Prelude RustM Vec Bson Meth.
Local Open Scope Z_scope.

(** ** Data *)

Definition FLAG_COMMITTED : Z := 0x01.
Definition FLAG_PREPARED : Z := 0x02.
Definition FLAG_ROLLED_BACK : Z := 0x04.
Definition FLAG_DOOMED : Z := 0x08.
Definition FLAG_CONFLICT_OUT : Z := 0x10.
Definition FLAG_READ_ONLY : Z := 0x20.
Definition FLAG_DEFERRABLE_WAITING : Z := 0x40.
Definition FLAG_RO_SAFE : Z := 0x80.
Definition FLAG_RO_UNSAFE : Z := 0x100.
Definition FLAG_SUMMARY_CONFLICT_IN : Z := 0x200.
Definition FLAG_SUMMARY_CONFLICT_OUT : Z := 0x400.

Definition INVALID_SEQ : Z := 2 ^ 64 - 1.
Definition FIRST_NORMAL_SEQ : Z := 2.

Definition MAX_PRED_LOCKS_PER_XACT : Z := 64.
Definition MAX_PRED_LOCKS_PER_RELATION : Z := -2.
Definition MAX_PRED_LOCKS_PER_PAGE : Z := 2.

Inductive Target :=
  | TRelation (db rel : Z)
  | TPage (db rel blk : Z)
  | TTuple (db rel blk off : Z).

#[export] Instance Target_eq_dec : EqDecision Target.
Proof. solve_decision. Defined.

#[export] Instance Target_countable : Countable Target.
Proof.
  refine (inj_countable'
    (λ t, match t with
          | TRelation d r => (d, r, None)
          | TPage d r b => (d, r, Some (b, None))
          | TTuple d r b o => (d, r, Some (b, Some o))
          end)
    (λ e, match e with
          | (d, r, None) => TRelation d r
          | (d, r, Some (b, None)) => TPage d r b
          | (d, r, Some (b, Some o)) => TTuple d r b o
          end) _).
  by intros [].
Defined.

(** [GetParentPredicateLockTag] *)
Definition parent (t : Target) : option Target :=
  match t with
  | TRelation _ _ => None
  | TPage db rel _ => Some (TRelation db rel)
  | TTuple db rel blk _ => Some (TPage db rel blk)
  end.

Definition rel_of (t : Target) : Z * Z :=
  match t with TRelation db rel | TPage db rel _ | TTuple db rel _ _ => (db, rel) end.

(** [TargetTagIsCoveredBy] *)
Definition covered_by (t covering : Target) : bool :=
  match t, covering with
  | (TPage db rel _ | TTuple db rel _ _), TRelation d r => (db =? d) && (rel =? r)
  | TTuple db rel blk _, TPage d r b => (db =? d) && (rel =? r) && (blk =? b)
  | _, _ => false
  end.

(** [MaxPredicateChildLocks] *)
Definition max_children (t : Target) : Z :=
  match t with
  | TRelation _ _ =>
      if MAX_PRED_LOCKS_PER_RELATION <? 0
      then Z.quot MAX_PRED_LOCKS_PER_XACT (- MAX_PRED_LOCKS_PER_RELATION) - 1
      else MAX_PRED_LOCKS_PER_RELATION
  | TPage _ _ _ => MAX_PRED_LOCKS_PER_PAGE
  | TTuple _ _ _ _ => 0
  end.

Definition is_tuple (t : Target) : bool := match t with TTuple _ _ _ _ => true | _ => false end.

(** [((ctid / 65536) as u32, (ctid % 65536) as u16)] *)
Definition ctid_target (db rel ctid : Z) : Target :=
  TTuple db rel (wrap 32 (Z.quot ctid 65536)) (wrap 16 (Z.rem ctid 65536)).

(** The derived [Ord] of [Target]: the variant, then the fields. *)
Definition target_fields (t : Target) : list Z :=
  match t with
  | TRelation db rel => [0; db; rel]
  | TPage db rel blk => [1; db; rel; blk]
  | TTuple db rel blk off => [2; db; rel; blk; off]
  end.
Fixpoint fields_le (a b : list Z) : bool :=
  match a, b with
  | [], _ => true
  | _ :: _, [] => false
  | x :: a, y :: b => (x <? y) || ((x =? y) && fields_le a b)
  end.
Definition target_le (a b : Target) : Prop := fields_le (target_fields a) (target_fields b) = true.
#[export] Instance target_le_dec a b : Decision (target_le a b).
Proof. unfold target_le. apply _. Defined.

Record Snap := { xmin : Z; xmax : Z; xip : list Z }.

(** The reason codes of the 40001s. *)
Inductive Failure :=
  | PivotConflictOut                  (** "... pivot, during conflict out checking." *)
  | ConflictOutToOldPivot             (** "Canceled on conflict out to old pivot." *)
  | PivotConflictIn                   (** "... pivot, during conflict in checking." *)
  | PivotWrite                        (** "... pivot, during write." *)
  | ConflictOutToPivot (xid : Z)      (** "... to pivot {xid}, during read." *)
  | PivotCommit                       (** "... pivot, during commit attempt." *)
  | PreparedPivot.                    (** "... conflict in from prepared pivot." *)

Record LocalLock := { held : bool; child_locks : Z }.

Record Sxact := MkSxact {
  last_commit_before_snapshot : Z;
  earliest_out_conflict_commit : Z;
  prepare_seq : Z;
  commit_seq : Z;
  top_xid : option Z;
  finished_before : Z;
  snap : Snap;
  flags : Z;
  out_conflicts : list nat;
  in_conflicts : list nat;
  possible_unsafe : list nat;
  locks : list Target;
  local : gmap Target LocalLock;
  did_write : bool;
  finished : bool }.

(** [out] reads before [in_] writes. *)
Record Conflict := MkConflict { out : nat; in_ : nat }.

Record Version := { v_xmin : option Z; v_xmax : option Z; v_doc : option Doc }.

Record State := MkState {
  sxacts : list (option Sxact);
  active : list nat;
  conflicts : list (option Conflict);
  free_conflicts : list nat;
  targets : gmap Target (list nat);
  xids : gmap Z nat;
  last_commit_seq : Z;
  can_partial_clear_through : Z;
  have_partial_cleared_through : Z;
  global_xmin : option Z;
  global_xmin_count : Z;
  writable_count : Z;
  finished_list : list nat;
  versions : gmap (Z * Z) (gmap Z Version);
  by_pid : gmap Z nat;
  next_xid : Z }.

(** [let st = State { last_commit_seq: FIRST_NORMAL_SEQ - 1, ..Default::default() }] *)
Definition new_state : State :=
  MkState [] [] [] [] ∅ ∅ (FIRST_NORMAL_SEQ - 1) 0 0 None 0 0 [] ∅ ∅ 0.

(** Assignments to one field. *)
Definition set_last_commit_before_snapshot v (x : Sxact) : Sxact := MkSxact v (earliest_out_conflict_commit x) (prepare_seq x) (commit_seq x) (top_xid x) (finished_before x) (snap x) (flags x) (out_conflicts x) (in_conflicts x) (possible_unsafe x) (locks x) (local x) (did_write x) (finished x).
Definition set_earliest_out_conflict_commit v (x : Sxact) : Sxact := MkSxact (last_commit_before_snapshot x) v (prepare_seq x) (commit_seq x) (top_xid x) (finished_before x) (snap x) (flags x) (out_conflicts x) (in_conflicts x) (possible_unsafe x) (locks x) (local x) (did_write x) (finished x).
Definition set_prepare_seq v (x : Sxact) : Sxact := MkSxact (last_commit_before_snapshot x) (earliest_out_conflict_commit x) v (commit_seq x) (top_xid x) (finished_before x) (snap x) (flags x) (out_conflicts x) (in_conflicts x) (possible_unsafe x) (locks x) (local x) (did_write x) (finished x).
Definition set_commit_seq v (x : Sxact) : Sxact := MkSxact (last_commit_before_snapshot x) (earliest_out_conflict_commit x) (prepare_seq x) v (top_xid x) (finished_before x) (snap x) (flags x) (out_conflicts x) (in_conflicts x) (possible_unsafe x) (locks x) (local x) (did_write x) (finished x).
Definition set_top_xid v (x : Sxact) : Sxact := MkSxact (last_commit_before_snapshot x) (earliest_out_conflict_commit x) (prepare_seq x) (commit_seq x) v (finished_before x) (snap x) (flags x) (out_conflicts x) (in_conflicts x) (possible_unsafe x) (locks x) (local x) (did_write x) (finished x).
Definition set_finished_before v (x : Sxact) : Sxact := MkSxact (last_commit_before_snapshot x) (earliest_out_conflict_commit x) (prepare_seq x) (commit_seq x) (top_xid x) v (snap x) (flags x) (out_conflicts x) (in_conflicts x) (possible_unsafe x) (locks x) (local x) (did_write x) (finished x).
Definition set_snap v (x : Sxact) : Sxact := MkSxact (last_commit_before_snapshot x) (earliest_out_conflict_commit x) (prepare_seq x) (commit_seq x) (top_xid x) (finished_before x) v (flags x) (out_conflicts x) (in_conflicts x) (possible_unsafe x) (locks x) (local x) (did_write x) (finished x).
Definition set_flags v (x : Sxact) : Sxact := MkSxact (last_commit_before_snapshot x) (earliest_out_conflict_commit x) (prepare_seq x) (commit_seq x) (top_xid x) (finished_before x) (snap x) v (out_conflicts x) (in_conflicts x) (possible_unsafe x) (locks x) (local x) (did_write x) (finished x).
Definition set_out_conflicts v (x : Sxact) : Sxact := MkSxact (last_commit_before_snapshot x) (earliest_out_conflict_commit x) (prepare_seq x) (commit_seq x) (top_xid x) (finished_before x) (snap x) (flags x) v (in_conflicts x) (possible_unsafe x) (locks x) (local x) (did_write x) (finished x).
Definition set_in_conflicts v (x : Sxact) : Sxact := MkSxact (last_commit_before_snapshot x) (earliest_out_conflict_commit x) (prepare_seq x) (commit_seq x) (top_xid x) (finished_before x) (snap x) (flags x) (out_conflicts x) v (possible_unsafe x) (locks x) (local x) (did_write x) (finished x).
Definition set_possible_unsafe v (x : Sxact) : Sxact := MkSxact (last_commit_before_snapshot x) (earliest_out_conflict_commit x) (prepare_seq x) (commit_seq x) (top_xid x) (finished_before x) (snap x) (flags x) (out_conflicts x) (in_conflicts x) v (locks x) (local x) (did_write x) (finished x).
Definition set_locks v (x : Sxact) : Sxact := MkSxact (last_commit_before_snapshot x) (earliest_out_conflict_commit x) (prepare_seq x) (commit_seq x) (top_xid x) (finished_before x) (snap x) (flags x) (out_conflicts x) (in_conflicts x) (possible_unsafe x) v (local x) (did_write x) (finished x).
Definition set_local v (x : Sxact) : Sxact := MkSxact (last_commit_before_snapshot x) (earliest_out_conflict_commit x) (prepare_seq x) (commit_seq x) (top_xid x) (finished_before x) (snap x) (flags x) (out_conflicts x) (in_conflicts x) (possible_unsafe x) (locks x) v (did_write x) (finished x).
Definition set_did_write v (x : Sxact) : Sxact := MkSxact (last_commit_before_snapshot x) (earliest_out_conflict_commit x) (prepare_seq x) (commit_seq x) (top_xid x) (finished_before x) (snap x) (flags x) (out_conflicts x) (in_conflicts x) (possible_unsafe x) (locks x) (local x) v (finished x).
Definition set_finished v (x : Sxact) : Sxact := MkSxact (last_commit_before_snapshot x) (earliest_out_conflict_commit x) (prepare_seq x) (commit_seq x) (top_xid x) (finished_before x) (snap x) (flags x) (out_conflicts x) (in_conflicts x) (possible_unsafe x) (locks x) (local x) (did_write x) v.

Definition set_sxacts v (x : State) : State := MkState v (active x) (conflicts x) (free_conflicts x) (targets x) (xids x) (last_commit_seq x) (can_partial_clear_through x) (have_partial_cleared_through x) (global_xmin x) (global_xmin_count x) (writable_count x) (finished_list x) (versions x) (by_pid x) (next_xid x).
Definition set_active v (x : State) : State := MkState (sxacts x) v (conflicts x) (free_conflicts x) (targets x) (xids x) (last_commit_seq x) (can_partial_clear_through x) (have_partial_cleared_through x) (global_xmin x) (global_xmin_count x) (writable_count x) (finished_list x) (versions x) (by_pid x) (next_xid x).
Definition set_conflicts v (x : State) : State := MkState (sxacts x) (active x) v (free_conflicts x) (targets x) (xids x) (last_commit_seq x) (can_partial_clear_through x) (have_partial_cleared_through x) (global_xmin x) (global_xmin_count x) (writable_count x) (finished_list x) (versions x) (by_pid x) (next_xid x).
Definition set_free_conflicts v (x : State) : State := MkState (sxacts x) (active x) (conflicts x) v (targets x) (xids x) (last_commit_seq x) (can_partial_clear_through x) (have_partial_cleared_through x) (global_xmin x) (global_xmin_count x) (writable_count x) (finished_list x) (versions x) (by_pid x) (next_xid x).
Definition set_targets v (x : State) : State := MkState (sxacts x) (active x) (conflicts x) (free_conflicts x) v (xids x) (last_commit_seq x) (can_partial_clear_through x) (have_partial_cleared_through x) (global_xmin x) (global_xmin_count x) (writable_count x) (finished_list x) (versions x) (by_pid x) (next_xid x).
Definition set_xids v (x : State) : State := MkState (sxacts x) (active x) (conflicts x) (free_conflicts x) (targets x) v (last_commit_seq x) (can_partial_clear_through x) (have_partial_cleared_through x) (global_xmin x) (global_xmin_count x) (writable_count x) (finished_list x) (versions x) (by_pid x) (next_xid x).
Definition set_last_commit_seq v (x : State) : State := MkState (sxacts x) (active x) (conflicts x) (free_conflicts x) (targets x) (xids x) v (can_partial_clear_through x) (have_partial_cleared_through x) (global_xmin x) (global_xmin_count x) (writable_count x) (finished_list x) (versions x) (by_pid x) (next_xid x).
Definition set_can_partial_clear_through v (x : State) : State := MkState (sxacts x) (active x) (conflicts x) (free_conflicts x) (targets x) (xids x) (last_commit_seq x) v (have_partial_cleared_through x) (global_xmin x) (global_xmin_count x) (writable_count x) (finished_list x) (versions x) (by_pid x) (next_xid x).
Definition set_have_partial_cleared_through v (x : State) : State := MkState (sxacts x) (active x) (conflicts x) (free_conflicts x) (targets x) (xids x) (last_commit_seq x) (can_partial_clear_through x) v (global_xmin x) (global_xmin_count x) (writable_count x) (finished_list x) (versions x) (by_pid x) (next_xid x).
Definition set_global_xmin v (x : State) : State := MkState (sxacts x) (active x) (conflicts x) (free_conflicts x) (targets x) (xids x) (last_commit_seq x) (can_partial_clear_through x) (have_partial_cleared_through x) v (global_xmin_count x) (writable_count x) (finished_list x) (versions x) (by_pid x) (next_xid x).
Definition set_global_xmin_count v (x : State) : State := MkState (sxacts x) (active x) (conflicts x) (free_conflicts x) (targets x) (xids x) (last_commit_seq x) (can_partial_clear_through x) (have_partial_cleared_through x) (global_xmin x) v (writable_count x) (finished_list x) (versions x) (by_pid x) (next_xid x).
Definition set_writable_count v (x : State) : State := MkState (sxacts x) (active x) (conflicts x) (free_conflicts x) (targets x) (xids x) (last_commit_seq x) (can_partial_clear_through x) (have_partial_cleared_through x) (global_xmin x) (global_xmin_count x) v (finished_list x) (versions x) (by_pid x) (next_xid x).
Definition set_finished_list v (x : State) : State := MkState (sxacts x) (active x) (conflicts x) (free_conflicts x) (targets x) (xids x) (last_commit_seq x) (can_partial_clear_through x) (have_partial_cleared_through x) (global_xmin x) (global_xmin_count x) (writable_count x) v (versions x) (by_pid x) (next_xid x).
Definition set_versions v (x : State) : State := MkState (sxacts x) (active x) (conflicts x) (free_conflicts x) (targets x) (xids x) (last_commit_seq x) (can_partial_clear_through x) (have_partial_cleared_through x) (global_xmin x) (global_xmin_count x) (writable_count x) (finished_list x) v (by_pid x) (next_xid x).
Definition set_by_pid v (x : State) : State := MkState (sxacts x) (active x) (conflicts x) (free_conflicts x) (targets x) (xids x) (last_commit_seq x) (can_partial_clear_through x) (have_partial_cleared_through x) (global_xmin x) (global_xmin_count x) (writable_count x) (finished_list x) (versions x) v (next_xid x).
Definition set_next_xid v (x : State) : State := MkState (sxacts x) (active x) (conflicts x) (free_conflicts x) (targets x) (xids x) (last_commit_seq x) (can_partial_clear_through x) (have_partial_cleared_through x) (global_xmin x) (global_xmin_count x) (writable_count x) (finished_list x) (versions x) (by_pid x) v.

Abbreviation ssi := (meth State Failure).

(** [Sxact::is] *)
Definition is_ (x : Sxact) (f : Z) : bool := negb (Z.land (flags x) f =? 0).
Definition raise (f : Z) (x : Sxact) : Sxact := set_flags (Z.lor (flags x) f) x.
Definition lower (f : Z) (x : Sxact) : Sxact := set_flags (Z.land (flags x) (Z.lnot f)) x.

(** [sxacts[i]], when the slot is in use *)
Definition sxact (st : State) (i : nat) : option Sxact := sxacts st !! i ≫= id.
Definition conflict_at (st : State) (c : nat) : option Conflict := conflicts st !! c ≫= id.

Definition put_sxact (i : nat) (x : option Sxact) (st : State) : State :=
  set_sxacts (<[i := x]> (sxacts st)) st.

(** [self.sx(i)], [self.sx_mut(i)], [self.conflict(c)] *)
Definition sx (i : nat) : ssi Sxact := st ← self; expect (sxact st i).
Definition sx_mut (i : nat) (f : Sxact → Sxact) : ssi () :=
  x ← sx i; modify (put_sxact i (Some (f x))).
Definition conflict (c : nat) : ssi Conflict := st ← self; expect (conflict_at st c).

(** [if let Some(Some(x)) = self.sxacts.get_mut(i) { .. }] *)
Definition if_live (i : nat) (f : Sxact → Sxact) (st : State) : State :=
  match sxact st i with Some x => put_sxact i (Some (f x)) st | None => st end.

Definition mine (pid : Z) (st : State) : option nat := by_pid st !! pid.

(** ** Lists *)

Definition conflict_exists (reader writer : nat) : ssi bool :=
  r ← sx reader; w ← sx writer;
  if is_ r FLAG_DOOMED || is_ w FLAG_DOOMED || bool_decide (out_conflicts r = []) ||
     bool_decide (in_conflicts w = [])
  then mret false
  else any_of (out_conflicts r) (λ c, cf ← conflict c; mret (bool_decide (in_ cf = writer))).

(** [Vec::pop] on the free slots, else a slot at the end. *)
Definition new_conflict (o i : nat) : ssi nat :=
  st ← self;
  match last (free_conflicts st) with
  | Some k =>
      _ ← modify (set_free_conflicts (take (length (free_conflicts st) - 1) (free_conflicts st)));
      _ ← expect (conflicts st !! k);
      _ ← modify (λ st, set_conflicts (<[k := Some (MkConflict o i)]> (conflicts st)) st);
      mret k
  | None =>
      _ ← modify (λ st, set_conflicts (conflicts st ++ [Some (MkConflict o i)]) st);
      mret (length (conflicts st))
  end.

Definition push_out (c : nat) (x : Sxact) : Sxact := set_out_conflicts (out_conflicts x ++ [c]) x.
Definition push_in (c : nat) (x : Sxact) : Sxact := set_in_conflicts (in_conflicts x ++ [c]) x.
Definition push_possible (c : nat) (x : Sxact) : Sxact := set_possible_unsafe (possible_unsafe x ++ [c]) x.

Definition set_conflict (reader writer : nat) : ssi () :=
  c ← new_conflict reader writer;
  _ ← sx_mut reader (push_out c);
  sx_mut writer (push_in c).

Definition set_possible (ro act : nat) : ssi () :=
  c ← new_conflict act ro;
  _ ← sx_mut act (push_possible c);
  sx_mut ro (push_possible c).

Definition drop_conflict (c : nat) (x : Sxact) : Sxact :=
  set_possible_unsafe (filter (λ y, y ≠ c) (possible_unsafe x))
    (set_in_conflicts (filter (λ y, y ≠ c) (in_conflicts x))
       (set_out_conflicts (filter (λ y, y ≠ c) (out_conflicts x)) x)).

Definition release_conflict (c : nat) : ssi () :=
  cf ← conflict c;
  _ ← modify (if_live (out cf) (drop_conflict c));
  _ ← modify (if_live (in_ cf) (drop_conflict c));
  _ ← modify (λ st, set_conflicts (<[c := None]> (conflicts st)) st);
  modify (λ st, set_free_conflicts (free_conflicts st ++ [c]) st).

Definition flag_unsafe (i : nat) : ssi () :=
  _ ← sx_mut i (raise FLAG_RO_UNSAFE);
  x ← sx i;
  for_each (possible_unsafe x) release_conflict.

(** ** Ends of transactions *)

(** [if let Some(h) = self.targets.get_mut(&t) { h.retain(..); .. }] *)
Definition unhold (i : nat) (t : Target) (st : State) : State :=
  match targets st !! t with
  | None => st
  | Some h =>
      let h' := filter (λ x, x ≠ i) h in
      set_targets (match h' with [] => delete t (targets st) | _ => <[t := h']> (targets st) end) st
  end.

(** The [retain] over the tracked versions when a transaction is forgotten. *)
Definition forget_version (xid : Z) (rolled_back : bool) (v : Version) : option Version :=
  if bool_decide (v_xmin v = Some xid) && rolled_back then None
  else
    let mn := if decide (v_xmin v = Some xid) then None else v_xmin v in
    let mx := if decide (v_xmax v = Some xid) then None else v_xmax v in
    if bool_decide (is_Some mn) || bool_decide (is_Some mx)
    then Some {| v_xmin := mn; v_xmax := mx; v_doc := v_doc v |} else None.

Definition forget_versions (xid : Z) (rolled_back : bool) (vs : gmap (Z * Z) (gmap Z Version)) :
    gmap (Z * Z) (gmap Z Version) :=
  filter (λ e, e.2 ≠ ∅) ((λ m : gmap Z Version, omap (forget_version xid rolled_back) m) <$> vs).

(** [ReleaseOneSerializableXact] *)
Definition release_one (i : nat) (partial : bool) : ssi () :=
  x ← sx i;
  _ ← sx_mut i (set_locks []);
  _ ← modify (λ st, foldl (λ st t, unhold i t st) st (locks x));
  _ ← sx_mut i (set_local ∅);
  _ ← (if partial then mret ()
       else x ← sx i; for_each (out_conflicts x) release_conflict);
  x ← sx i;
  _ ← for_each (in_conflicts x) release_conflict;
  if partial then mret ()
  else
    x ← sx i;
    _ ← modify (put_sxact i None);
    _ ← modify (λ st, set_active (filter (λ y, y ≠ i) (active st)) st);
    _ ← for_each (possible_unsafe x) (λ c,
          st ← self;
          slot ← expect (conflicts st !! c);
          match slot with Some _ => release_conflict c | None => mret () end);
    match top_xid x with
    | None => mret ()
    | Some xid =>
        _ ← modify (λ st, set_xids (delete xid (xids st)) st);
        modify (λ st, set_versions (forget_versions xid (is_ x FLAG_ROLLED_BACK) (versions st)) st)
    end.

(** [SetNewSxactGlobalXmin] *)
Definition new_global_xmin : ssi () :=
  _ ← modify (λ st, set_global_xmin_count 0 (set_global_xmin None st));
  st ← self;
  for_each (active st) (λ i,
    s ← sx i;
    if is_ s FLAG_ROLLED_BACK || is_ s FLAG_COMMITTED then mret ()
    else modify (λ st,
      match global_xmin st with
      | Some x =>
          if x <? xmin (snap s) then st
          else if xmin (snap s) =? x then set_global_xmin_count (global_xmin_count st + 1) st
          else set_global_xmin_count 1 (set_global_xmin (Some (xmin (snap s))) st)
      | None => set_global_xmin_count 1 (set_global_xmin (Some (xmin (snap s))) st)
      end)).

(** [ClearOldPredicateLocks]'s loop, at position [i] of the finished list. *)
Fixpoint clear_old_loop (fuel : nat) (i : nat) : ssi () :=
  match fuel with
  | O => λ _, NoFuel
  | S fuel =>
      st ← self;
      match finished_list st !! i with
      | None => mret ()
      | Some f =>
          s ← sx f;
          let gone :=
            _ ← modify (λ st, set_finished_list (delete i (finished_list st)) st);
            _ ← sx_mut f (set_finished false);
            release_one f false in
          if match global_xmin st with None => true | Some x => finished_before s <=? x end then
            _ ← gone; clear_old_loop fuel i
          else if (have_partial_cleared_through st <? commit_seq s) &&
                  (commit_seq s <=? can_partial_clear_through st) then
            i ← (if is_ s FLAG_READ_ONLY then _ ← gone; mret i
                 else _ ← release_one f true; mret (i + 1)%nat);
            _ ← modify (set_have_partial_cleared_through (commit_seq s));
            clear_old_loop fuel i
          else mret ()
      end
  end.

Definition clear_old : ssi () := st ← self; clear_old_loop (S (length (finished_list st))) 0.

(** The parts of [ReleasePredicateLocks] ([release_at]), in order. *)
Definition mark_ended (me : nat) (is_commit write : bool) (next : Z) : ssi () :=
  _ ← sx_mut me (set_finished_before next);
  if is_commit then
    _ ← modify (λ st, set_last_commit_seq (last_commit_seq st + 1) st);
    st ← self;
    sx_mut me (λ s,
      let s := set_commit_seq (last_commit_seq st) (raise FLAG_COMMITTED s) in
      if write then s else raise FLAG_READ_ONLY s)
  else
    sx_mut me (λ s, lower FLAG_PREPARED (raise (Z.lor FLAG_DOOMED FLAG_ROLLED_BACK) s)).

Definition end_counts (me : nat) (declared_read_only : bool) : ssi () :=
  if declared_read_only then
    x ← sx me; for_each (possible_unsafe x) release_conflict
  else
    _ ← modify (λ st, set_writable_count (Z.max 0 (writable_count st - 1)) st);
    modify (λ st, if writable_count st =? 0
                  then set_can_partial_clear_through (last_commit_seq st) st else st).

(** Conflicts out to committed transactions are kept as a flag. *)
Definition note_out_conflict (w_prepare : Z) (s : Sxact) : Sxact :=
  let s := if negb (is_ s FLAG_CONFLICT_OUT) || (w_prepare <? earliest_out_conflict_commit s)
           then set_earliest_out_conflict_commit w_prepare s else s in
  raise FLAG_CONFLICT_OUT s.

Definition end_out_conflicts (me : nat) (is_commit read_only_now : bool) : ssi () :=
  x ← sx me;
  for_each (out_conflicts x) (λ c,
    cf ← conflict c;
    w ← sx (in_ cf);
    _ ← (if is_commit && negb read_only_now && is_ w FLAG_COMMITTED
         then sx_mut me (note_out_conflict (prepare_seq w)) else mret ());
    st ← self;
    if negb is_commit || is_ w FLAG_COMMITTED || (last_commit_seq st <=? last_commit_before_snapshot w)
    then release_conflict c else mret ()).

Definition end_in_conflicts (me : nat) (is_commit : bool) : ssi () :=
  x ← sx me;
  for_each (in_conflicts x) (λ c,
    cf ← conflict c;
    r ← sx (out cf);
    if negb is_commit || is_ r FLAG_COMMITTED || is_ r FLAG_READ_ONLY
    then release_conflict c else mret ()).

(** Off the concurrent read-only transactions' lists, flagging them unsafe
    when this one has a conflict out to an earlier commit. *)
Definition end_possible (me : nat) (is_commit write : bool) : ssi () :=
  x ← sx me;
  for_each (possible_unsafe x) (λ c,
    st ← self;
    slot ← expect (conflicts st !! c);
    match slot with
    | None => mret ()
    | Some _ =>
        cf ← conflict c;
        m ← sx me;
        bad ← (if is_commit && write && is_ m FLAG_CONFLICT_OUT
              then y ← sx (in_ cf);
                   mret (earliest_out_conflict_commit m <=? last_commit_before_snapshot y)
              else mret false);
        if (bad : bool) then flag_unsafe (in_ cf)
        else
          _ ← release_conflict c;
          y ← sx (in_ cf);
          if bool_decide (possible_unsafe y = []) then sx_mut (in_ cf) (raise FLAG_RO_SAFE)
          else mret ()
    end).

(** Whether the oldest snapshot ended with this transaction. *)
Definition end_xmin (me : nat) : ssi bool :=
  x ← sx me; st ← self;
  if bool_decide (global_xmin st = Some (xmin (snap x))) then
    _ ← modify (λ st, set_global_xmin_count (Z.max 0 (global_xmin_count st - 1)) st);
    st ← self;
    if global_xmin_count st =? 0 then _ ← new_global_xmin; mret true else mret false
  else mret false.

Definition release_at (pid : Z) (is_commit ro_safe : bool) (next : Z) : ssi () :=
  st ← self;
  match mine pid st with
  | None => mret ()
  | Some me =>
      _ ← modify (λ st, set_by_pid (delete pid (by_pid st)) st);
      x ← sx me;
      let declared_read_only := is_ x FLAG_READ_ONLY in
      let write := did_write x in
      _ ← mark_ended me is_commit write next;
      _ ← end_counts me declared_read_only;
      x ← sx me;
      let read_only_now := is_ x FLAG_READ_ONLY in
      _ ← (if is_commit && negb read_only_now && is_ x FLAG_SUMMARY_CONFLICT_OUT
           then sx_mut me (λ s, raise FLAG_CONFLICT_OUT (set_earliest_out_conflict_commit FIRST_NORMAL_SEQ s))
           else mret ());
      _ ← end_out_conflicts me is_commit read_only_now;
      _ ← end_in_conflicts me is_commit;
      _ ← (if declared_read_only then mret () else end_possible me is_commit write);
      need_to_clear ← end_xmin me;
      _ ← (if is_commit then
             _ ← sx_mut me (set_finished true);
             modify (λ st, set_finished_list (finished_list st ++ [me]) st)
           else release_one me false);
      if (need_to_clear : bool) then clear_old else mret ()
  end.

Definition release (pid : Z) (is_commit ro_safe : bool) : ssi () :=
  st ← self; release_at pid is_commit ro_safe (next_xid st).

(** ** Snapshots *)

Fixpoint first_none {A} (l : list (option A)) : option nat :=
  match l with
  | [] => None
  | None :: _ => Some O
  | Some _ :: l => S <$> first_none l
  end.

Definition new_sxact (last_seq : Z) (s : Snap) : Sxact :=
  MkSxact last_seq 0 INVALID_SEQ INVALID_SEQ None 0 s 0 [] [] [] [] ∅ false false.

Definition alloc_sxact (x : Sxact) : ssi nat :=
  st ← self;
  match first_none (sxacts st) with
  | Some i => _ ← modify (put_sxact i (Some x)); mret i
  | None =>
      _ ← modify (λ st, set_sxacts (sxacts st ++ [Some x]) st);
      mret (length (sxacts st))
  end.

(** A read-only transaction against every concurrent read/write one. *)
Definition watch_writers (id : nat) : ssi () :=
  st ← self;
  for_each (active st) (λ other,
    if decide (other = id) then mret ()
    else
      o ← sx other;
      if negb (is_ o FLAG_COMMITTED) && negb (is_ o FLAG_DOOMED) && negb (is_ o FLAG_READ_ONLY)
      then set_possible id other else mret ()).

(** [GetSerializableTransactionSnapshotInt] *)
Definition register (pid : Z) (s : Snap) (read_only : bool) : ssi (option nat) :=
  st ← self;
  match mine pid st with
  | Some i => mret (Some i)
  | None =>
      if read_only && (writable_count st =? 0) then mret None
      else
        id ← alloc_sxact (new_sxact (last_commit_seq st) s);
        _ ← modify (λ st, set_active (active st ++ [id]) st);
        opt_out ← (if read_only then
                     _ ← sx_mut id (raise FLAG_READ_ONLY);
                     _ ← watch_writers id;
                     x ← sx id;
                     if bool_decide (possible_unsafe x = []) then
                       _ ← modify (λ st, set_active (filter (λ y, y ≠ id) (active st)) st);
                       _ ← modify (put_sxact id None);
                       mret true
                     else mret false
                   else
                     _ ← modify (λ st, set_writable_count (writable_count st + 1) st);
                     mret false);
        if (opt_out : bool) then mret None
        else
          _ ← modify (λ st,
                match global_xmin st with
                | None => set_global_xmin_count 1 (set_global_xmin (Some (xmin s)) st)
                | Some x => if x =? xmin s then set_global_xmin_count (global_xmin_count st + 1) st else st
                end);
          _ ← modify (λ st, set_by_pid (<[pid := id]> (by_pid st)) st);
          mret (Some id)
  end.

(** [RegisterPredicateLockingXid] *)
Definition set_xid (i : nat) (xid : Z) : ssi () :=
  x ← sx i;
  match top_xid x with
  | Some _ => mret ()
  | None =>
      _ ← sx_mut i (set_top_xid (Some xid));
      modify (λ st, set_xids (<[xid := i]> (xids st)) st)
  end.

(** ** Locking *)

(** [SerializationNeededForRead] *)
Definition needed_for_read (pid : Z) : ssi (option nat) :=
  st ← self;
  match mine pid st with
  | None => mret None
  | Some i =>
      x ← sx i;
      if is_ x FLAG_RO_SAFE then _ ← release pid false true; mret None
      else mret (Some i)
  end.

Definition is_held (x : Sxact) (t : Target) : bool :=
  match local x !! t with Some l => held l | None => false end.

Definition lock_exists (i : nat) (t : Target) : ssi bool := x ← sx i; mret (is_held x t).

(** The targets above one, nearest first: what [while let Some(p) = t.parent()]
    visits. *)
Definition ancestors (t : Target) : list Target :=
  match t with
  | TRelation _ _ => []
  | TPage db rel _ => [TRelation db rel]
  | TTuple db rel blk _ => [TPage db rel blk; TRelation db rel]
  end.

(** [CoarserLockCovers] *)
Definition coarser_covers (i : nat) (t : Target) : ssi bool := any_of (ancestors t) (lock_exists i).

(** [CreatePredicateLock] *)
Definition create_lock (i : nat) (t : Target) : ssi () :=
  st ← self;
  let holders := default [] (targets st !! t) in
  if decide (i ∈ holders) then modify (λ st, set_targets (<[t := holders]> (targets st)) st)
  else
    _ ← modify (λ st, set_targets (<[t := holders ++ [i]]> (targets st)) st);
    sx_mut i (λ s, set_locks (locks s ++ [t]) s).

Definition drop_lock (t : Target) (x : Sxact) : Sxact := set_locks (filter (λ y, y ≠ t) (locks x)) x.

Definition remove_lock (i : nat) (t : Target) : ssi () :=
  modify (λ st, if_live i (drop_lock t) (unhold i t st)).

(** [DecrementParentLocks], one ancestor. *)
Definition dec_child (t : Target) (s : Sxact) : Sxact :=
  match local s !! t with
  | None => s
  | Some l =>
      let n := Z.max 0 (child_locks l - 1) in
      if (n =? 0) && negb (held l) then set_local (delete t (local s)) s
      else set_local (<[t := {| held := held l; child_locks := n |}]> (local s)) s
  end.

Definition decrement_parents (i : nat) (t : Target) : ssi () :=
  for_each (ancestors t) (λ p, sx_mut i (dec_child p)).

Definition drop_local (t : Target) (s : Sxact) : Sxact := set_local (delete t (local s)) s.

(** [DeleteChildTargetLocks] *)
Definition delete_children (i : nat) (t : Target) : ssi () :=
  x ← sx i;
  for_each (locks x) (λ old,
    if covered_by old t then
      _ ← remove_lock i old;
      _ ← sx_mut i (drop_local old);
      decrement_parents i old
    else mret ()).

Definition inc_child (t : Target) (s : Sxact) : Sxact :=
  let l := default {| held := false; child_locks := 0 |} (local s !! t) in
  set_local (<[t := {| held := held l; child_locks := child_locks l + 1 |}]> (local s)) s.

Definition child_count (t : Target) (s : Sxact) : Z :=
  match local s !! t with Some l => child_locks l | None => 0 end.

(** [CheckAndPromotePredicateLockRequest]'s loop: the coarsest ancestor with
    too many children. *)
Fixpoint count_children (i : nat) (ts : list Target) (promotion : option Target) : ssi (option Target) :=
  match ts with
  | [] => mret promotion
  | t :: ts =>
      _ ← sx_mut i (inc_child t);
      x ← sx i;
      count_children i ts (if max_children t <? child_count t x then Some t else promotion)
  end.

Definition hold_local (t : Target) (s : Sxact) : Sxact :=
  let n := match local s !! t with Some l => child_locks l | None => 0 end in
  set_local (<[t := {| held := true; child_locks := n |}]> (local s)) s.

(** [PredicateLockAcquire], and [CheckAndPromotePredicateLockRequest] in it:
    each call is for a coarser target, so three levels are enough. *)
Fixpoint acquire_fuel (fuel : nat) (i : nat) (t : Target) : ssi () :=
  match fuel with
  | O => λ _, NoFuel
  | S fuel =>
      b ← lock_exists i t;
      c ← (if (b : bool) then mret true else coarser_covers i t);
      if (c : bool) then mret ()
      else
        _ ← sx_mut i (hold_local t);
        _ ← create_lock i t;
        promotion ← count_children i (ancestors t) None;
        match promotion with
        | Some p => acquire_fuel fuel i p
        | None => if is_tuple t then mret () else delete_children i t
        end
  end.
Definition acquire (i : nat) (t : Target) : ssi () := acquire_fuel 3 i t.

Definition lock_relation (pid db rel : Z) : ssi () :=
  o ← needed_for_read pid;
  match o with Some i => acquire i (TRelation db rel) | None => mret () end.

Definition lock_page (pid db rel blk : Z) : ssi () :=
  o ← needed_for_read pid;
  match o with Some i => acquire i (TPage db rel blk) | None => mret () end.

Definition lock_tuple (pid db rel ctid : Z) (writer : option Z) : ssi () :=
  o ← needed_for_read pid;
  match o with
  | None => mret ()
  | Some i =>
      x ← sx i;
      if bool_decide (is_Some writer) && bool_decide (writer = top_xid x) then mret ()
      else
        b ← lock_exists i (TRelation db rel);
        if (b : bool) then mret () else acquire i (ctid_target db rel ctid)
  end.

(** ** The check *)

(** A committed-first [t2] the writer has a conflict out to. *)
Definition out_danger (r w t2 : Sxact) : bool :=
  is_ t2 FLAG_PREPARED &&
  (negb (is_ r FLAG_COMMITTED) || (prepare_seq t2 <=? commit_seq r)) &&
  (negb (is_ w FLAG_COMMITTED) || (prepare_seq t2 <=? commit_seq w)) &&
  (negb (is_ r FLAG_READ_ONLY) || (prepare_seq t2 <=? last_commit_before_snapshot r)).

(** A [t0] with a conflict out to the reader that the writer committed before. *)
Definition in_danger (w t0 : Sxact) : bool :=
  negb (is_ t0 FLAG_DOOMED) &&
  (negb (is_ t0 FLAG_COMMITTED) || (prepare_seq w <=? commit_seq t0)) &&
  (negb (is_ t0 FLAG_READ_ONLY) || (prepare_seq w <=? last_commit_before_snapshot t0)).

(** [OnConflict_CheckForSerializationFailure] *)
Definition check_failure (reader writer me : nat) : ssi () :=
  w ← sx writer;
  failure ← (if is_ w FLAG_COMMITTED && (is_ w FLAG_CONFLICT_OUT || is_ w FLAG_SUMMARY_CONFLICT_OUT)
             then mret true
             else if is_ w FLAG_SUMMARY_CONFLICT_OUT then mret true
             else
               r ← sx reader;
               any_of (out_conflicts w) (λ c,
                 cf ← conflict c; t2 ← sx (in_ cf); mret (out_danger r w t2)));
  r ← sx reader;
  failure ← (if negb failure && is_ w FLAG_PREPARED && negb (is_ r FLAG_READ_ONLY) then
               if is_ r FLAG_SUMMARY_CONFLICT_IN then mret true
               else any_of (in_conflicts r) (λ c,
                      cf ← conflict c; t0 ← sx (out cf); mret (in_danger w t0))
             else mret failure);
  if (failure : bool) then
    if decide (me = writer) then fail PivotWrite
    else
      w ← sx writer;
      if is_ w FLAG_PREPARED
      then fail (ConflictOutToPivot (Z.land (default 0 (top_xid w)) 0xFFFFFFFF))
      else sx_mut writer (raise FLAG_DOOMED)
  else mret ().

(** [FlagRWConflict] *)
Definition flag_conflict (reader writer me : nat) : ssi () :=
  _ ← check_failure reader writer me;
  set_conflict reader writer.

(** [PreCommit_CheckForSerializationFailure], one pivot. *)
Fixpoint doom_pivot (me pivot : nat) (fars : list nat) : ssi () :=
  match fars with
  | [] => mret ()
  | far :: fars =>
      cf ← conflict far;
      t ← sx (out cf);
      if bool_decide (out cf = me) ||
         (negb (is_ t FLAG_COMMITTED) && negb (is_ t FLAG_READ_ONLY) && negb (is_ t FLAG_DOOMED))
      then
        p ← sx pivot;
        if is_ p FLAG_PREPARED then fail PreparedPivot
        else sx_mut pivot (raise FLAG_DOOMED)
      else doom_pivot me pivot fars
  end.

Definition pre_commit (pid : Z) : ssi () :=
  st ← self;
  match mine pid st with
  | None => mret ()
  | Some me =>
      x ← sx me;
      if is_ x FLAG_DOOMED then fail PivotCommit
      else
        _ ← for_each (in_conflicts x) (λ near,
              cf ← conflict near;
              p ← sx (out cf);
              if is_ p FLAG_COMMITTED || is_ p FLAG_DOOMED then mret ()
              else doom_pivot me (out cf) (in_conflicts p));
        _ ← modify (λ st, set_last_commit_seq (last_commit_seq st + 1) st);
        st ← self;
        sx_mut me (λ s, raise FLAG_PREPARED (set_prepare_seq (last_commit_seq st) s))
  end.

(** ** Conflicts out *)

Definition conflict_out_needed (pid : Z) : ssi (option nat) :=
  o ← needed_for_read pid;
  match o with
  | None => mret None
  | Some i => x ← sx i; if is_ x FLAG_DOOMED then fail PivotConflictOut else mret (Some i)
  end.

(** [XidIsConcurrent] *)
Definition in_snapshot_future (s : Snap) (xid : Z) : bool :=
  if xid <? xmin s then false else if xmax s <=? xid then true else bool_decide (xid ∈ xip s).
Definition concurrent (i : nat) (xid : Z) : ssi bool := x ← sx i; mret (in_snapshot_future (snap x) xid).

(** [CheckForSerializableConflictOut] *)
Definition conflict_out (me : nat) (xid : Z) : ssi () :=
  m ← sx me;
  if is_ m FLAG_DOOMED then fail PivotConflictOut
  else if decide (Some xid = top_xid m) then mret ()
  else
    st ← self;
    match xids st !! xid with
    | None => mret ()
    | Some other =>
        if decide (other = me) then mret ()
        else
          o ← sx other;
          if is_ o FLAG_DOOMED then mret ()
          else if is_ o FLAG_SUMMARY_CONFLICT_OUT then
            if negb (is_ o FLAG_PREPARED) then sx_mut other (raise FLAG_DOOMED)
            else fail ConflictOutToOldPivot
          else if is_ m FLAG_READ_ONLY && is_ o FLAG_COMMITTED && negb (is_ o FLAG_SUMMARY_CONFLICT_OUT) &&
                  (negb (is_ o FLAG_CONFLICT_OUT) ||
                   (last_commit_before_snapshot m <? earliest_out_conflict_commit o))
          then mret ()
          else
            c ← concurrent me xid;
            if negb c then mret ()
            else
              e ← conflict_exists me other;
              if (e : bool) then mret () else flag_conflict me other me
    end.

(** [Some committed] for a tracked writer, [None] for an untracked one. *)
Definition writer_state (x : Z) : ssi (option bool) :=
  st ← self;
  match xids st !! x with
  | None => mret None
  | Some i => s ← sx i; mret (Some (is_ s FLAG_COMMITTED))
  end.

Definition visible_xid (me : nat) (my_xid x : option Z) : ssi bool :=
  match x with
  | None => mret true
  | Some x =>
      if decide (Some x = my_xid) then mret true
      else
        s ← writer_state x;
        match s with
        | None => mret true
        | Some committed => if (committed : bool) then c ← concurrent me x; mret (negb c) else mret false
        end
  end.

(** The writer a reader has a conflict out to because of one version, if any
    ([HeapCheckForSerializableConflictOut]). *)
Definition version_writer (me : nat) (v : Version) : ssi (option Z) :=
  m ← sx me;
  let my_xid := top_xid m in
  in_progress ← match v_xmin v with
                | None => mret false
                | Some x =>
                    if decide (Some x = my_xid) then mret true
                    else s ← writer_state x; mret (bool_decide (s = Some false))
                end;
  inserted_visible ← visible_xid me my_xid (v_xmin v);
  deleted_visible ← (if bool_decide (is_Some (v_xmax v)) then visible_xid me my_xid (v_xmax v)
                     else mret false);
  let visible := inserted_visible && negb deleted_visible in
  let txn_xmin := xmin (snap m) in
  if (in_progress : bool) then mret (v_xmin v)
  else
    match v_xmax v with
    | None => mret (if visible then None else v_xmin v)
    | Some mx =>
        s ← (if decide (Some mx = my_xid) then mret (Some false) else writer_state mx);
        if bool_decide (s ≠ Some false) && (mx <? txn_xmin) then mret None
        else
          let x := if visible then Some mx else v_xmin v in
          mret (match x with Some x => if x <? txn_xmin then None else Some x | None => None end)
    end.

Definition check_version (me : nat) (v : Version) : ssi () :=
  m ← sx me;
  o ← version_writer me v;
  match o with
  | None => mret ()
  | Some xid =>
      if bool_decide (Some xid = top_xid m) || (xid <? xmin (snap m)) then mret ()
      else conflict_out me xid
  end.

(** A relation's tracked versions in ctid order (a [BTreeMap]'s). *)
Definition ctid_le (a b : Z * Version) : Prop := a.1 ≤ b.1.
#[export] Instance ctid_le_dec a b : Decision (ctid_le a b).
Proof. unfold ctid_le. apply _. Defined.
Definition versions_of (st : State) (db rel : Z) : list (Z * Version) :=
  merge_sort ctid_le (map_to_list (default ∅ (versions st !! (db, rel)))).

Definition scan_conflicts_out (pid db rel : Z) (examined : Z → option Doc → bool) (tuples : bool) : ssi () :=
  if negb tuples then mret ()
  else
    o ← conflict_out_needed pid;
    match o with
    | None => mret ()
    | Some me =>
        st ← self;
        for_each (snd <$> filter (λ e, examined e.1 (v_doc e.2) = true) (versions_of st db rel))
          (check_version me)
    end.

Definition has_versions (db rel : Z) (examined : Z → option Doc → bool) (st : State) : bool :=
  existsb (λ e, examined e.1 (v_doc e.2)) (versions_of st db rel).

(** ** Conflicts in *)

(** [CheckTargetForConflictsIn] *)
Definition target_conflicts_in (me : nat) (t : Target) : ssi () :=
  st ← self;
  match targets st !! t with
  | None => mret ()
  | Some holders =>
      m ← sx me;
      let my_xmin := xmin (snap m) in
      _ ← for_each holders (λ i,
            if decide (i = me) then mret ()
            else
              o ← sx i;
              if negb (is_ o FLAG_DOOMED) &&
                 (negb (is_ o FLAG_COMMITTED) || (my_xmin <? finished_before o))
              then
                e ← conflict_exists i me;
                if (e : bool) then mret () else flag_conflict i me me
              else mret ());
      if is_tuple t && bool_decide (me ∈ holders) then
        _ ← remove_lock me t;
        _ ← sx_mut me (drop_local t);
        decrement_parents me t
      else mret ()
  end.

(** [CheckForSerializableConflictIn] *)
Definition conflict_in (pid db rel : Z) (ctid blk : option Z) : ssi () :=
  st ← self;
  match mine pid st with
  | None => mret ()
  | Some me =>
      x ← sx me;
      if is_ x FLAG_DOOMED then fail PivotConflictIn
      else
        _ ← sx_mut me (set_did_write true);
        _ ← match ctid with Some c => target_conflicts_in me (ctid_target db rel c) | None => mret () end;
        _ ← match blk with Some b => target_conflicts_in me (TPage db rel b) | None => mret () end;
        target_conflicts_in me (TRelation db rel)
  end.

(** [CheckTableForSerializableConflictIn] *)
Definition table_conflict_in (pid db rel : Z) : ssi () :=
  st ← self;
  match global_xmin st, mine pid st with
  | Some _, Some me =>
      _ ← sx_mut me (set_did_write true);
      let ts := merge_sort target_le (filter (λ t, rel_of t = (db, rel)) (map_to_list (targets st)).*1) in
      for_each ts (λ t,
        st ← self;
        for_each (default [] (targets st !! t)) (λ i,
          if decide (i = me) then mret ()
          else
            e ← conflict_exists i me;
            if (e : bool) then mret () else flag_conflict i me me))
  | _, _ => mret ()
  end.

Definition note_version (pid db rel ctid : Z) (inserted : bool) (doc : option Doc) : ssi () :=
  st ← self;
  match mine pid st with
  | None => mret ()
  | Some me =>
      x ← sx me;
      match top_xid x with
      | None => mret ()
      | Some xid =>
          modify (λ st,
            let m := default ∅ (versions st !! (db, rel)) in
            let v := default {| v_xmin := None; v_xmax := None; v_doc := None |} (m !! ctid) in
            let v := {| v_xmin := if inserted then Some xid else v_xmin v;
                        v_xmax := if inserted then v_xmax v else Some xid;
                        v_doc := match v_doc v with None => doc | d => d end |} in
            set_versions (<[(db, rel) := <[ctid := v]> m]> (versions st)) st)
      end
  end.

(** [PredicateLockPageSplit] *)
Definition page_split (db rel old new : Z) : ssi () :=
  st ← self;
  match global_xmin st with
  | None => mret ()
  | Some _ =>
      for_each (default [] (targets st !! TPage db rel old)) (λ i, create_lock i (TPage db rel new))
  end.

(** ** Queries *)

Definition deferrable_state (pid : Z) : ssi (option (bool * bool)) :=
  st ← self;
  match mine pid st with
  | None => mret None
  | Some i => s ← sx i; mret (Some (bool_decide (possible_unsafe s = []), is_ s FLAG_RO_UNSAFE))
  end.

(** The backend of a transaction ([by_pid] has one at most). *)
Definition pid_of (st : State) (i : nat) : option Z :=
  fst <$> head (filter (λ e, e.2 = i) (map_to_list (by_pid st))).

Fixpoint blocking_pids (cs : list nat) (acc : list Z) : ssi (list Z) :=
  match cs with
  | [] => mret acc
  | c :: cs =>
      cf ← conflict c;
      st ← self;
      blocking_pids cs
        match pid_of st (out cf) with
        | Some p => if decide (p ∈ acc) then acc else acc ++ [p]
        | None => acc
        end
  end.

Definition safe_snapshot_blocking_pids (pid : Z) : ssi (list Z) :=
  st ← self;
  match mine pid st with
  | None => mret []
  | Some i =>
      s ← sx i;
      if negb (is_ s FLAG_DEFERRABLE_WAITING) then mret [] else blocking_pids (possible_unsafe s) []
  end.

Definition set_deferrable_waiting (pid : Z) (on : bool) : ssi () :=
  st ← self;
  match mine pid st with
  | None => mret ()
  | Some i => sx_mut i (if on then raise FLAG_DEFERRABLE_WAITING else lower FLAG_DEFERRABLE_WAITING)
  end.

Definition tracking (pid : Z) (st : State) : bool := bool_decide (is_Some (mine pid st)).
