(* ===== verification/SsiWf.v ===== *)
(** * Serializable snapshot isolation: the structures

    The transactions, conflicts, locks and registries refer to each other by
    index. [graph_ok], [locks_ok] and [registry_ok] say that every reference is
    to a slot in use and is known at both ends; under them no method panics. *)
From S2P Require Import Prelude RustM Vec Bson Meth Ssi.
Local Open Scope Z_scope.

(** ** Slots *)

Lemma sxact_lookup st i x : sxact st i = Some x ↔ sxacts st !! i = Some (Some x).
Proof. unfold sxact. destruct (sxacts st !! i) as [[y|]|]; cbn; naive_solver. Qed.

Lemma conflict_lookup st c cf : conflict_at st c = Some cf ↔ conflicts st !! c = Some (Some cf).
Proof. unfold conflict_at. destruct (conflicts st !! c) as [[y|]|]; cbn; naive_solver. Qed.

Lemma sxact_put st i o j : is_Some (sxacts st !! i) →
  sxact (put_sxact i o st) j = if decide (j = i) then o else sxact st j.
Proof.
  intros [y Hy]%lookup_lt_is_Some_1%lookup_lt_is_Some_2. unfold sxact, put_sxact. cbn.
  case_decide as E; [subst|by rewrite list_lookup_insert_ne].
  rewrite list_lookup_insert_eq; [done|]. by apply lookup_lt_Some in Hy.
Qed.

Lemma sxact_slot st i x : sxact st i = Some x → is_Some (sxacts st !! i).
Proof. rewrite sxact_lookup. intros ->. by eexists. Qed.

Lemma sxact_if_live st i f j :
  sxact (if_live i f st) j = if decide (j = i) then f <$> sxact st i else sxact st j.
Proof.
  unfold if_live. destruct (sxact st i) as [x|] eqn:E.
  - rewrite sxact_put by (by eapply sxact_slot). by case_decide.
  - case_decide; [by subst|done].
Qed.

(** What a step leaves alone: everything but the transactions and conflicts. *)
Definition rest (st : State) :=
  (active st, targets st, xids st, last_commit_seq st, (can_partial_clear_through st,
   have_partial_cleared_through st, global_xmin st, global_xmin_count st), (writable_count st,
   finished_list st, versions st, by_pid st, next_xid st)).

(** ** Plain steps *)

Lemma wp_sx i x (Q : Failure + Sxact → State → Prop) st :
  sxact st i = Some x → Q (inr x) st → wp (sx i) Q st.
Proof. intros Hx HQ. unfold sx. apply wp_bind, wp_self. by eapply wp_expect. Qed.

Lemma wp_conflict c cf (Q : Failure + Conflict → State → Prop) st :
  conflict_at st c = Some cf → Q (inr cf) st → wp (conflict c) Q st.
Proof. intros Hx HQ. unfold conflict. apply wp_bind, wp_self. by eapply wp_expect. Qed.

Lemma wp_sx_mut i x f (Q : Failure + () → State → Prop) st :
  sxact st i = Some x → Q (inr ()) (put_sxact i (Some (f x)) st) → wp (sx_mut i f) Q st.
Proof. intros Hx HQ. unfold sx_mut. apply wp_bind. eapply wp_sx; [done|]. by apply wp_modify. Qed.

(** The conflict lists of a transaction, and its locks. *)
Definition lists (x : Sxact) : list nat * list nat * list nat :=
  (out_conflicts x, in_conflicts x, possible_unsafe x).

(** ** The conflict graph *)

Record graph_ok (st : State) : Prop := {
  g_out i x c : sxact st i = Some x → c ∈ out_conflicts x → ∃ cf y, conflict_at st c = Some cf ∧
    out cf = i ∧ in_ cf ≠ i ∧ sxact st (in_ cf) = Some y ∧ c ∈ in_conflicts y;
  g_in i x c : sxact st i = Some x → c ∈ in_conflicts x → ∃ cf y, conflict_at st c = Some cf ∧
    in_ cf = i ∧ out cf ≠ i ∧ sxact st (out cf) = Some y ∧ c ∈ out_conflicts y;
  g_pos i x c : sxact st i = Some x → c ∈ possible_unsafe x → ∃ cf j y, conflict_at st c = Some cf ∧
    ((out cf = i ∧ in_ cf = j) ∨ (in_ cf = i ∧ out cf = j)) ∧ j ≠ i ∧
    sxact st j = Some y ∧ c ∈ possible_unsafe y;
  g_used c cf : conflict_at st c = Some cf → ∃ x y, sxact st (out cf) = Some x ∧
    sxact st (in_ cf) = Some y ∧ out cf ≠ in_ cf ∧
    ((c ∈ out_conflicts x ∧ c ∈ in_conflicts y) ∨ (c ∈ possible_unsafe x ∧ c ∈ possible_unsafe y));
  g_nodup i x : sxact st i = Some x →
    NoDup (out_conflicts x) ∧ NoDup (in_conflicts x) ∧ NoDup (possible_unsafe x);
  g_free c : c ∈ free_conflicts st → conflicts st !! c = Some None;
  g_free_nodup : NoDup (free_conflicts st) }.

(** The graph depends only on the lists, the conflicts and the free slots. *)
Lemma graph_ok_frame st st' : graph_ok st → conflicts st' = conflicts st →
  free_conflicts st' = free_conflicts st →
  (∀ i, lists <$> sxact st' i = lists <$> sxact st i) → graph_ok st'.
Proof.
  intros [H1 H2 H3 H3' H4 H5 H6] Hc Hf Hl.
  assert (Hx : ∀ i x', sxact st' i = Some x' → ∃ x, sxact st i = Some x ∧ lists x' = lists x).
  { intros i x' E. specialize (Hl i). rewrite E in Hl. destruct (sxact st i) as [x|]; [|done].
    exists x. split; [done|]. cbn in Hl. congruence. }
  assert (Hy : ∀ i x, sxact st i = Some x → ∃ x', sxact st' i = Some x' ∧ lists x' = lists x).
  { intros i x E. specialize (Hl i). rewrite E in Hl. destruct (sxact st' i) as [x'|]; [|done].
    exists x'. split; [done|]. cbn in Hl. congruence. }
  assert (Hca : ∀ c, conflict_at st' c = conflict_at st c) by (intros; unfold conflict_at; by rewrite Hc).
  unfold lists in *. split.
  - intros i x' c (x & Ex & [= Ho Hi Hp])%Hx. rewrite Ho. intros Hin.
    destruct (H1 i x c Ex Hin) as (cf & y & E1 & E2 & E3 & (y' & Ey & [= _ Hi' _])%Hy & E5).
    exists cf, y'. rewrite Hca, Hi'. done.
  - intros i x' c (x & Ex & [= Ho Hi Hp])%Hx. rewrite Hi. intros Hin.
    destruct (H2 i x c Ex Hin) as (cf & y & E1 & E2 & E3 & (y' & Ey & [= Ho' _ _])%Hy & E5).
    exists cf, y'. rewrite Hca, Ho'. done.
  - intros i x' c (x & Ex & [= Ho Hi Hp])%Hx. rewrite Hp. intros Hin.
    destruct (H3 i x c Ex Hin) as (cf & j & y & E1 & E2 & E3 & (y' & Ey & [= _ _ Hp'])%Hy & E5).
    exists cf, j, y'. rewrite Hca, Hp'. done.
  - intros c cf. rewrite Hca. intros (x & y & Ex & Ey & Hn & Hin)%H3'.
    destruct (Hy _ _ Ex) as (x' & Ex' & [= Ho _ Hp]). destruct (Hy _ _ Ey) as (y' & Ey' & [= _ Hi' Hp']).
    exists x', y'. rewrite Ho, Hp, Hi', Hp'. done.
  - intros i x' (x & Ex & [= -> -> ->])%Hx. by apply H4 in Ex.
  - intros c. rewrite Hf, Hc. apply H5.
  - by rewrite Hf.
Qed.

(** Only the two ends of a conflict have it in their lists. *)
Lemma graph_ends st i x c cf : graph_ok st → sxact st i = Some x → conflict_at st c = Some cf →
  c ∈ out_conflicts x ∨ c ∈ in_conflicts x ∨ c ∈ possible_unsafe x → i = out cf ∨ i = in_ cf.
Proof.
  intros [H1 H2 H3 _ _ _ _] Hx Hc [Hin|[Hin|Hin]].
  - destruct (H1 _ _ _ Hx Hin) as (cf' & y & E & ? & _). left. congruence.
  - destruct (H2 _ _ _ Hx Hin) as (cf' & y & E & ? & _). right. congruence.
  - destruct (H3 _ _ _ Hx Hin) as (cf' & j & y & E & [[? _]|[? _]] & _); [left|right]; congruence.
Qed.

Lemma drop_conflict_id c x : c ∉ out_conflicts x → c ∉ in_conflicts x → c ∉ possible_unsafe x →
  drop_conflict c x = x.
Proof.
  intros H1 H2 H3. unfold drop_conflict. cbn.
  rewrite !list_filter_id by (intros y Hy ->; done). by destruct x.
Qed.

(** [release_conflict] frees slots that are in use and takes them off every list. *)
Definition drop_all (cs : list nat) (x : Sxact) : Sxact :=
  set_possible_unsafe (filter (λ y, y ∉ cs) (possible_unsafe x))
    (set_in_conflicts (filter (λ y, y ∉ cs) (in_conflicts x))
       (set_out_conflicts (filter (λ y, y ∉ cs) (out_conflicts x)) x)).

Record released (cs : list nat) (st st' : State) : Prop := {
  r_sxact i : sxact st' i = drop_all cs <$> sxact st i;
  r_conf c : conflict_at st' c = if decide (c ∈ cs) then None else conflict_at st c;
  r_len : length (conflicts st') = length (conflicts st);
  r_rest : rest st' = rest st;
  r_graph : graph_ok st' }.

Lemma drop_all_nil x : drop_all [] x = x.
Proof.
  unfold drop_all. rewrite !list_filter_id by (intros y _; apply not_elem_of_nil). by destruct x.
Qed.

Lemma drop_all_drop_all cs cs' x : drop_all cs' (drop_all cs x) = drop_all (cs ++ cs') x.
Proof.
  assert (Hf : ∀ l : list nat, filter (λ y, y ∉ cs') (filter (λ y, y ∉ cs) l) = filter (λ y, y ∉ cs ++ cs') l).
  { intros l. rewrite list_filter_filter. apply list_filter_iff. intros y. rewrite not_elem_of_app. tauto. }
  unfold drop_all. cbn. by rewrite !Hf.
Qed.

Lemma drop_all_one c x : drop_all [c] x = drop_conflict c x.
Proof.
  assert (Hf : ∀ l : list nat, filter (λ y, y ∉ [c]) l = filter (λ y, y ≠ c) l).
  { intros l. apply list_filter_iff. intros y. by rewrite list_elem_of_singleton. }
  unfold drop_all, drop_conflict. by rewrite !Hf.
Qed.

Lemma released_nil st : graph_ok st → released [] st st.
Proof.
  intros Hg. split; [|by intros c; rewrite decide_False by apply not_elem_of_nil|done..].
  intros i. destruct (sxact st i) as [x|]; [|done]. cbn. by rewrite drop_all_nil.
Qed.

Lemma released_trans cs cs' st st1 st2 :
  released cs st st1 → released cs' st1 st2 → released (cs ++ cs') st st2.
Proof.
  intros [A1 A2 A3 A4 A5] [B1 B2 B3 B4 B5]. split; [| |congruence..|done].
  - intros i. rewrite B1, A1. destruct (sxact st i); [|done]. cbn. by rewrite drop_all_drop_all.
  - intros c. rewrite B2, A2. repeat case_decide; set_solver.
Qed.

(** Taking one slot off every list keeps the graph. *)
Lemma released_graph st st' c cf : graph_ok st → conflict_at st c = Some cf →
  (∀ i, sxact st' i = drop_conflict c <$> sxact st i) →
  conflicts st' = <[c := None]> (conflicts st) → free_conflicts st' = free_conflicts st ++ [c] →
  graph_ok st'.
Proof.
  intros Hg Hcf Hs Hc Hf. pose proof (proj1 (conflict_lookup _ _ _) Hcf) as Hl.
  assert (Hca : ∀ k, conflict_at st' k = if decide (k = c) then None else conflict_at st k).
  { intros k. unfold conflict_at. rewrite Hc. case_decide as E; [subst|by rewrite list_lookup_insert_ne].
    rewrite list_lookup_insert_eq; [done|]. by apply lookup_lt_Some in Hl. }
  assert (Hx : ∀ i x', sxact st' i = Some x' → ∃ x, sxact st i = Some x ∧ x' = drop_conflict c x).
  { intros i x'. rewrite Hs. intros (x & -> & ->)%fmap_Some. eauto. }
  assert (Hy : ∀ i x, sxact st i = Some x → sxact st' i = Some (drop_conflict c x)).
  { intros i x E. by rewrite Hs, E. }
  destruct Hg as [H1 H2 H3 H3' H4 H5 H6]. split.
  - intros i x' k (x & Ex & ->)%Hx. cbn. intros [Hk Hin]%list_elem_of_filter.
    destruct (H1 i x k Ex Hin) as (f & y & E1 & E2 & E3 & E4%Hy & E5).
    exists f, (drop_conflict c y). rewrite Hca, decide_False by done. split_and!; [done..|].
    cbn. by apply list_elem_of_filter.
  - intros i x' k (x & Ex & ->)%Hx. cbn. intros [Hk Hin]%list_elem_of_filter.
    destruct (H2 i x k Ex Hin) as (f & y & E1 & E2 & E3 & E4%Hy & E5).
    exists f, (drop_conflict c y). rewrite Hca, decide_False by done. split_and!; [done..|].
    cbn. by apply list_elem_of_filter.
  - intros i x' k (x & Ex & ->)%Hx. cbn. intros [Hk Hin]%list_elem_of_filter.
    destruct (H3 i x k Ex Hin) as (f & j & y & E1 & E2 & E3 & E4%Hy & E5).
    exists f, j, (drop_conflict c y). rewrite Hca, decide_False by done. split_and!; [done..|].
    cbn. by apply list_elem_of_filter.
  - intros k f. rewrite Hca. case_decide as Hk; [done|]. intros (x & y & Ex%Hy & Ey%Hy & Hn & Hin)%H3'.
    exists (drop_conflict c x), (drop_conflict c y). split_and!; [done..|]. cbn.
    rewrite !list_elem_of_filter. naive_solver.
  - intros i x' (x & Ex & ->)%Hx. destruct (H4 i x Ex) as (? & ? & ?). cbn.
    split_and!; by apply NoDup_filter.
  - intros k. rewrite Hf, Hc, elem_of_app, list_elem_of_singleton. intros [Hk| ->].
    + destruct (decide (k = c)) as [->|Hn]; [|rewrite list_lookup_insert_ne by done; by apply H5].
      rewrite (H5 c Hk) in Hl. done.
    + rewrite list_lookup_insert_eq; [done|]. by apply lookup_lt_Some in Hl.
  - rewrite Hf. apply NoDup_app. split_and!; [done| |apply NoDup_singleton].
    intros k Hk ->%list_elem_of_singleton. rewrite (H5 c Hk) in Hl. done.
Qed.

Lemma wp_release_conflict st c cf (Q : Failure + () → State → Prop) : graph_ok st →
  conflict_at st c = Some cf → (∀ st', released [c] st st' → Q (inr ()) st') →
  wp (release_conflict c) Q st.
Proof.
  intros Hg Hcf HQ. unfold release_conflict. apply wp_bind. eapply wp_conflict; [done|].
  do 3 (apply wp_bind, wp_modify). apply wp_modify. apply HQ.
  set (st' := set_free_conflicts _ _).
  assert (Hs : ∀ i, sxact st' i = drop_conflict c <$> sxact st i).
  { intros i. change (sxact st' i) with (sxact (if_live (in_ cf) (drop_conflict c) (if_live (out cf) (drop_conflict c) st)) i).
    rewrite !sxact_if_live.
    assert (Hid : ∀ x, sxact st i = Some x → i ≠ out cf → i ≠ in_ cf → drop_conflict c x = x).
    { intros x Ex Ho Hi. apply drop_conflict_id; intros Hin;
        destruct (graph_ends st i x c cf Hg Ex Hcf); tauto. }
    destruct (g_used _ Hg c cf Hcf) as (_ & _ & _ & _ & Hne & _).
    repeat case_decide; subst; try done; destruct (sxact st i) eqn:Ei; try done; cbn.
    by rewrite Hid. }
  assert (Hco : conflicts st' = <[c := None]> (conflicts st)).
  { unfold st'. cbn. unfold if_live. by destruct (sxact _ _), (sxact _ _). }
  assert (Hfr : free_conflicts st' = free_conflicts st ++ [c]).
  { unfold st'. cbn. unfold if_live. by destruct (sxact _ _), (sxact _ _). }
  pose proof (proj1 (conflict_lookup _ _ _) Hcf) as Hl.
  split.
  - intros i. rewrite Hs. destruct (sxact st i); [|done]. cbn. by rewrite drop_all_one.
  - intros k. unfold conflict_at. rewrite Hco. case_decide as Hk.
    + apply list_elem_of_singleton in Hk as ->. rewrite list_lookup_insert_eq; [done|].
      by apply lookup_lt_Some in Hl.
    + rewrite list_elem_of_singleton in Hk. by rewrite list_lookup_insert_ne.
  - by rewrite Hco, length_insert.
  - unfold st', rest, if_live. cbn. by destruct (sxact _ _), (sxact _ _).
  - by eapply released_graph.
Qed.

(** Releasing a list of conflicts, each still in use. *)
Lemma wp_release_all st cs (Q : Failure + () → State → Prop) : graph_ok st → NoDup cs →
  (∀ c, c ∈ cs → is_Some (conflict_at st c)) → (∀ st', released cs st st' → Q (inr ()) st') →
  wp (for_each cs release_conflict) Q st.
Proof.
  intros Hg Hnd Hlive HQ.
  apply (wp_for_each _ _ (λ l st', ∃ l', cs = l' ++ l ∧ released l' st st')).
  - exists []. split; [done|]. by apply released_nil.
  - intros c l st1 (l' & -> & Hr). assert (Hc : is_Some (conflict_at st c)) by (apply Hlive; set_solver).
    destruct Hc as [cf Hcf]. eapply (wp_release_conflict st1 c cf); [apply Hr| |].
    + rewrite (r_conf _ _ _ Hr), decide_False; [done|]. apply NoDup_app in Hnd as (_ & Hd & _).
      intros Hin. apply (Hd c Hin). by left.
    + intros st2 Hr2. exists (l' ++ [c]). split; [by rewrite <- app_assoc|]. by eapply released_trans.
  - intros st' (l' & E & Hr). rewrite app_nil_r in E. subst. by apply HQ.
Qed.

(** ** New conflicts *)

Record allocated (c o i : nat) (st st' : State) : Prop := {
  al_fresh : conflict_at st c = None;
  al_conf k : conflict_at st' k = if decide (k = c) then Some (MkConflict o i) else conflict_at st k;
  al_free k : k ∈ free_conflicts st' → conflicts st' !! k = Some None;
  al_nodup : NoDup (free_conflicts st');
  al_sxacts : sxacts st' = sxacts st;
  al_rest : rest st' = rest st }.

Lemma wp_new_conflict st o i (Q : Failure + nat → State → Prop) : graph_ok st →
  (∀ c st', allocated c o i st st' → Q (inr c) st') → wp (new_conflict o i) Q st.
Proof.
  intros Hg HQ. unfold new_conflict. apply wp_bind, wp_self.
  pose proof (g_free_nodup _ Hg) as Hnd. pose proof (g_free _ Hg) as Hfree.
  destruct (last (free_conflicts st)) as [k|] eqn:E.
  - apply last_Some in E as [l El]. rewrite El in *.
    assert (Hk : conflicts st !! k = Some None) by (apply Hfree; set_solver).
    apply wp_bind, wp_modify, wp_bind. eapply wp_expect; [done|].
    apply wp_bind, wp_modify, wp_ret, HQ. rewrite length_app. cbn [length].
    replace (length l + 1 - 1)%nat with (length l) by lia. rewrite take_app_length.
    apply NoDup_app in Hnd as (Hnd & Hdis & _).
    split; cbn; [|intros j|intros j Hj|done|done|done].
    + unfold conflict_at. by rewrite Hk.
    + unfold conflict_at. cbn. case_decide as Ej; [subst|by rewrite list_lookup_insert_ne].
      rewrite list_lookup_insert_eq; [done|]. by apply lookup_lt_Some in Hk.
    + rewrite list_lookup_insert_ne; [apply Hfree; set_solver|]. intros <-. apply (Hdis k Hj). set_solver.
  - apply last_None in E. apply wp_bind, wp_modify, wp_ret, HQ.
    assert (Hlen : conflict_at st (length (conflicts st)) = None).
    { unfold conflict_at. by rewrite lookup_ge_None_2. }
    split; cbn; [done|intros j|rewrite E; intros j Hj; elem_nil|rewrite E; constructor|done..].
    unfold conflict_at. cbn. case_decide as Ej; [subst; by rewrite list_lookup_middle|].
    destruct (decide (j < length (conflicts st))%nat); [by rewrite lookup_app_l|].
    rewrite (lookup_ge_None_2 (conflicts st)) by lia. rewrite lookup_ge_None_2; [done|].
    rewrite length_app. cbn. lia.
Qed.

(** A conflict between [o] and [i], entered in one list of each end. *)
Record linked (fo fi : nat → Sxact → Sxact) (c o i : nat) (st st' : State) : Prop := {
  lk_fresh : conflict_at st c = None;
  lk_conf k : conflict_at st' k = if decide (k = c) then Some (MkConflict o i) else conflict_at st k;
  lk_sxact j : sxact st' j = if decide (j = o) then fo c <$> sxact st o
                             else if decide (j = i) then fi c <$> sxact st i else sxact st j;
  lk_rest : rest st' = rest st;
  lk_graph : graph_ok st' }.

Lemma fresh_not_in st c i x : graph_ok st → conflict_at st c = None → sxact st i = Some x →
  c ∉ out_conflicts x ∧ c ∉ in_conflicts x ∧ c ∉ possible_unsafe x.
Proof.
  intros [H1 H2 H3 _ _ _ _] Hc Hx. split_and!; intros Hin.
  - destruct (H1 _ _ _ Hx Hin) as (? & ? & ? & _). congruence.
  - destruct (H2 _ _ _ Hx Hin) as (? & ? & ? & _). congruence.
  - destruct (H3 _ _ _ Hx Hin) as (? & ? & ? & ? & _). congruence.
Qed.

Lemma NoDup_snoc (l : list nat) c : NoDup l → c ∉ l → NoDup (l ++ [c]).
Proof.
  intros Hl Hc. apply NoDup_app. split_and!; [done| |apply NoDup_singleton].
  intros k Hk ->%list_elem_of_singleton. done.
Qed.

(** What a new slot does to the old references. *)
Section link.
Context (st st' : State) (c o i : nat) (xo xi : Sxact) (fo fi : nat → Sxact → Sxact).
Hypothesis Hg : graph_ok st.
Hypothesis Hno : o ≠ i.
Hypothesis Ho : sxact st o = Some xo.
Hypothesis Hi : sxact st i = Some xi.
Hypothesis Hfresh : conflict_at st c = None.
Hypothesis Hconf : ∀ k, conflict_at st' k = if decide (k = c) then Some (MkConflict o i) else conflict_at st k.
Hypothesis Hsx : ∀ j, sxact st' j = if decide (j = o) then Some (fo c xo)
                                     else if decide (j = i) then Some (fi c xi) else sxact st j.

Lemma link_new j x' : sxact st' j = Some x' →
  (j = o ∧ x' = fo c xo) ∨ (j = i ∧ x' = fi c xi) ∨ (j ≠ o ∧ j ≠ i ∧ sxact st j = Some x').
Proof. rewrite Hsx. repeat case_decide; naive_solver. Qed.

Lemma link_old_conf k cf : conflict_at st k = Some cf → conflict_at st' k = Some cf.
Proof. intros E. rewrite Hconf, decide_False; [done|]. intros ->. congruence. Qed.

Hypothesis Hmono : ∀ f x, f = fo ∨ f = fi →
  out_conflicts x ⊆ out_conflicts (f c x) ∧ in_conflicts x ⊆ in_conflicts (f c x) ∧
  possible_unsafe x ⊆ possible_unsafe (f c x).

Lemma link_old j x : sxact st j = Some x → ∃ x', sxact st' j = Some x' ∧
  out_conflicts x ⊆ out_conflicts x' ∧ in_conflicts x ⊆ in_conflicts x' ∧ possible_unsafe x ⊆ possible_unsafe x'.
Proof.
  intros E. rewrite Hsx. repeat case_decide; subst; simplify_eq; eexists; (split; [done|]); auto.
Qed.
End link.

Lemma rw_graph st st' c o i xo xi : graph_ok st → o ≠ i → sxact st o = Some xo → sxact st i = Some xi →
  conflict_at st c = None →
  (∀ k, conflict_at st' k = if decide (k = c) then Some (MkConflict o i) else conflict_at st k) →
  (∀ k, k ∈ free_conflicts st' → conflicts st' !! k = Some None) → NoDup (free_conflicts st') →
  (∀ j, sxact st' j = if decide (j = o) then Some (push_out c xo)
                      else if decide (j = i) then Some (push_in c xi) else sxact st j) →
  graph_ok st'.
Proof.
  intros Hg Hn Ho Hi Hfr Hc Hf Hfn Hs.
  pose proof (link_new st st' c o i xo xi push_out push_in Hs) as Hnew.
  pose proof (link_old_conf st st' c o i Hfr Hc) as Hoc.
  pose proof (link_old st st' c o i xo xi push_out push_in Ho Hi Hs) as Hold.
  assert (Hold' : ∀ j x, sxact st j = Some x → ∃ x', sxact st' j = Some x' ∧
    out_conflicts x ⊆ out_conflicts x' ∧ in_conflicts x ⊆ in_conflicts x' ∧ possible_unsafe x ⊆ possible_unsafe x').
  { intros j x. apply Hold. intros f y [-> | ->]; cbn; set_solver. }
  clear Hold. assert (Hco : conflict_at st' c = Some (MkConflict o i)) by (by rewrite Hc, decide_True).
  assert (Hso : sxact st' o = Some (push_out c xo)) by (by rewrite Hs, decide_True).
  assert (Hsi : sxact st' i = Some (push_in c xi)) by (by rewrite Hs, decide_False, decide_True).
  pose proof Hg as [H1 H2 H3 H3' H4 _ _].
  assert (A1 : ∀ j x k, sxact st j = Some x → k ∈ out_conflicts x → ∃ cf y, conflict_at st' k = Some cf ∧
    out cf = j ∧ in_ cf ≠ j ∧ sxact st' (in_ cf) = Some y ∧ k ∈ in_conflicts y).
  { intros j x k Ex Hk. destruct (H1 j x k Ex Hk) as (cf & y & E1%Hoc & E2 & E3 & E4 & E5).
    destruct (Hold' _ _ E4) as (y' & Ey & _ & Hin & _). exists cf, y'. auto 10. }
  assert (A2 : ∀ j x k, sxact st j = Some x → k ∈ in_conflicts x → ∃ cf y, conflict_at st' k = Some cf ∧
    in_ cf = j ∧ out cf ≠ j ∧ sxact st' (out cf) = Some y ∧ k ∈ out_conflicts y).
  { intros j x k Ex Hk. destruct (H2 j x k Ex Hk) as (cf & y & E1%Hoc & E2 & E3 & E4 & E5).
    destruct (Hold' _ _ E4) as (y' & Ey & Hin & _ & _). exists cf, y'. auto 10. }
  split.
  - intros j x' k [(-> & ->)|[(-> & ->)|(? & ? & Ex)]]%Hnew; [|by apply (A1 i xi)|by apply (A1 j x')].
    cbn. rewrite elem_of_app, list_elem_of_singleton. intros [Hk| ->]; [by apply (A1 o xo)|].
    exists (MkConflict o i), (push_in c xi). cbn. split_and!; [done..|set_solver].
  - intros j x' k [(-> & ->)|[(-> & ->)|(? & ? & Ex)]]%Hnew; [by apply (A2 o xo)| |by apply (A2 j x')].
    cbn. rewrite elem_of_app, list_elem_of_singleton. intros [Hk| ->]; [by apply (A2 i xi)|].
    exists (MkConflict o i), (push_out c xo). cbn. split_and!; [done..|set_solver].
  - intros j x' k Hx' Hk. assert (Hx : ∃ x, sxact st j = Some x ∧ k ∈ possible_unsafe x).
    { destruct (Hnew _ _ Hx') as [(-> & ->)|[(-> & ->)|(? & ? & Ex)]]; eauto. }
    destruct Hx as (x & Ex & Hin). destruct (H3 j x k Ex Hin) as (cf & j' & y & E1%Hoc & E2 & E3 & E4 & E5).
    destruct (Hold' _ _ E4) as (y' & Ey & _ & _ & Hp). exists cf, j', y'. auto 10.
  - intros k cf. rewrite Hc. case_decide as Hk.
    + intros [= <-]. subst k. exists (push_out c xo), (push_in c xi). cbn. split_and!; [done..|].
      left. set_solver.
    + intros (x & y & Ex & Ey & Hne & Hin)%H3'. destruct (Hold' _ _ Ex) as (x' & Ex' & A & _ & A').
      destruct (Hold' _ _ Ey) as (y' & Ey' & _ & B & B'). exists x', y'. split_and!; [done..|].
      destruct Hin as [[? ?]|[? ?]]; [left|right]; auto.
  - intros j x' Hx'. pose proof (λ j x, fresh_not_in st c j x Hg Hfr) as Hnot.
    destruct (Hnew _ _ Hx') as [(-> & ->)|[(-> & ->)|(? & ? & Ex)]]; cbn; [| |by apply (H4 j)].
    + destruct (H4 o xo Ho) as (? & ? & ?). destruct (Hnot _ _ Ho) as (? & ? & ?).
      split_and!; [by apply NoDup_snoc|done|done].
    + destruct (H4 i xi Hi) as (? & ? & ?). destruct (Hnot _ _ Hi) as (? & ? & ?).
      split_and!; [done|by apply NoDup_snoc|done].
  - done.
  - done.
Qed.

Lemma possible_graph st st' c o i xo xi : graph_ok st → o ≠ i → sxact st o = Some xo → sxact st i = Some xi →
  conflict_at st c = None →
  (∀ k, conflict_at st' k = if decide (k = c) then Some (MkConflict o i) else conflict_at st k) →
  (∀ k, k ∈ free_conflicts st' → conflicts st' !! k = Some None) → NoDup (free_conflicts st') →
  (∀ j, sxact st' j = if decide (j = o) then Some (push_possible c xo)
                      else if decide (j = i) then Some (push_possible c xi) else sxact st j) →
  graph_ok st'.
Proof.
  intros Hg Hn Ho Hi Hfr Hc Hf Hfn Hs.
  pose proof (link_new st st' c o i xo xi push_possible push_possible Hs) as Hnew.
  pose proof (link_old_conf st st' c o i Hfr Hc) as Hoc.
  pose proof (link_old st st' c o i xo xi push_possible push_possible Ho Hi Hs) as Hold.
  assert (Hold' : ∀ j x, sxact st j = Some x → ∃ x', sxact st' j = Some x' ∧
    out_conflicts x ⊆ out_conflicts x' ∧ in_conflicts x ⊆ in_conflicts x' ∧ possible_unsafe x ⊆ possible_unsafe x').
  { intros j x. apply Hold. intros f y [-> | ->]; cbn; set_solver. }
  clear Hold. assert (Hco : conflict_at st' c = Some (MkConflict o i)) by (by rewrite Hc, decide_True).
  assert (Hso : sxact st' o = Some (push_possible c xo)) by (by rewrite Hs, decide_True).
  assert (Hsi : sxact st' i = Some (push_possible c xi)) by (by rewrite Hs, decide_False, decide_True).
  pose proof Hg as [H1 H2 H3 H3' H4 _ _].
  split.
  - intros j x' k Hx' Hk. assert (Hx : ∃ x, sxact st j = Some x ∧ k ∈ out_conflicts x).
    { destruct (Hnew _ _ Hx') as [(-> & ->)|[(-> & ->)|(? & ? & Ex)]]; eauto. }
    destruct Hx as (x & Ex & Hin). destruct (H1 j x k Ex Hin) as (cf & y & E1%Hoc & E2 & E3 & E4 & E5).
    destruct (Hold' _ _ E4) as (y' & Ey & _ & Hp & _). exists cf, y'. auto 10.
  - intros j x' k Hx' Hk. assert (Hx : ∃ x, sxact st j = Some x ∧ k ∈ in_conflicts x).
    { destruct (Hnew _ _ Hx') as [(-> & ->)|[(-> & ->)|(? & ? & Ex)]]; eauto. }
    destruct Hx as (x & Ex & Hin). destruct (H2 j x k Ex Hin) as (cf & y & E1%Hoc & E2 & E3 & E4 & E5).
    destruct (Hold' _ _ E4) as (y' & Ey & Hp & _). exists cf, y'. auto 10.
  - intros j x' k Hx' Hk.
    assert (Hx : (k = c ∧ (j = o ∨ j = i)) ∨ ∃ x, sxact st j = Some x ∧ k ∈ possible_unsafe x).
    { destruct (Hnew _ _ Hx') as [(-> & ->)|[(-> & ->)|(? & ? & Ex)]]; cbn in Hk; [| |eauto];
        (apply elem_of_app in Hk as [Hk| ->%list_elem_of_singleton]; [right; eauto|left; auto]). }
    destruct Hx as [[-> Hj]|(x & Ex & Hin)].
    + exists (MkConflict o i). cbn. destruct Hj as [-> | ->].
      * exists i, (push_possible c xi). cbn. split_and!; [done|by left|done..|set_solver].
      * exists o, (push_possible c xo). cbn. split_and!; [done|by right|done..|set_solver].
    + destruct (H3 j x k Ex Hin) as (cf & j' & y & E1%Hoc & E2 & E3 & E4 & E5).
      destruct (Hold' _ _ E4) as (y' & Ey & _ & _ & Hp). exists cf, j', y'. auto 10.
  - intros k cf. rewrite Hc. case_decide as Hk.
    + intros [= <-]. subst k. exists (push_possible c xo), (push_possible c xi). cbn. split_and!; [done..|].
      right. set_solver.
    + intros (x & y & Ex & Ey & Hne & Hin)%H3'. destruct (Hold' _ _ Ex) as (x' & Ex' & A & _ & A').
      destruct (Hold' _ _ Ey) as (y' & Ey' & _ & B & B'). exists x', y'. split_and!; [done..|].
      destruct Hin as [[? ?]|[? ?]]; [left|right]; auto.
  - intros j x' Hx'. pose proof (λ j x, fresh_not_in st c j x Hg Hfr) as Hnot.
    destruct (Hnew _ _ Hx') as [(-> & ->)|[(-> & ->)|(? & ? & Ex)]]; cbn; [| |by apply (H4 j)].
    + destruct (H4 o xo Ho) as (? & ? & ?). destruct (Hnot _ _ Ho) as (? & ? & ?).
      split_and!; [done|done|by apply NoDup_snoc].
    + destruct (H4 i xi Hi) as (? & ? & ?). destruct (Hnot _ _ Hi) as (? & ? & ?).
      split_and!; [done|done|by apply NoDup_snoc].
  - done.
  - done.
Qed.

(** Both halves of an entry: a slot, then each end's list. *)
Lemma wp_link fo fi st o i xo xi (Q : Failure + () → State → Prop) : graph_ok st → o ≠ i →
  sxact st o = Some xo → sxact st i = Some xi →
  (∀ c st', allocated c o i st st' → graph_ok (put_sxact i (Some (fi c xi)) (put_sxact o (Some (fo c xo)) st'))) →
  (∀ c st', linked fo fi c o i st st' → Q (inr ()) st') →
  wp (c ← new_conflict o i; _ ← sx_mut o (fo c); sx_mut i (fi c)) Q st.
Proof.
  intros Hg Hn Ho Hi Hgr HQ. apply wp_bind. apply wp_new_conflict; [done|]. intros c st1 Hal.
  assert (Hs1 : ∀ j, sxact st1 j = sxact st j) by (intros; unfold sxact; by rewrite (al_sxacts _ _ _ _ _ Hal)).
  apply wp_bind. eapply wp_sx_mut; [by rewrite Hs1|]. 
  assert (Hsl : is_Some (sxacts st1 !! o)) by (eapply (sxact_slot _ _ xo); by rewrite Hs1).
  eapply (wp_sx_mut i xi); [by rewrite sxact_put, decide_False, Hs1 by done|].
  apply (HQ c). split.
  - apply Hal.
  - intros k. apply (al_conf _ _ _ _ _ Hal k).
  - intros j. rewrite sxact_put; [|eapply (sxact_slot _ _ xi); by rewrite sxact_put, decide_False, Hs1 by done].
    rewrite sxact_put by done. rewrite Hs1, Ho, Hi. repeat case_decide; subst; done.
  - rewrite <- (al_rest _ _ _ _ _ Hal). done.
  - by apply Hgr.
Qed.

Lemma put_put st o i xo xi yo yi j : o ≠ i → sxact st o = Some xo → sxact st i = Some xi →
  sxact (put_sxact i (Some yi) (put_sxact o (Some yo) st)) j =
    if decide (j = o) then Some yo else if decide (j = i) then Some yi else sxact st j.
Proof.
  intros Hn Ho Hi. assert (Hso : is_Some (sxacts st !! o)) by (by eapply sxact_slot).
  rewrite sxact_put; [|eapply (sxact_slot _ _ xi); by rewrite sxact_put, decide_False by done].
  rewrite sxact_put by done. repeat case_decide; subst; done.
Qed.

Lemma wp_set_conflict st r w xr xw (Q : Failure + () → State → Prop) : graph_ok st → r ≠ w →
  sxact st r = Some xr → sxact st w = Some xw →
  (∀ c st', linked push_out push_in c r w st st' → Q (inr ()) st') → wp (set_conflict r w) Q st.
Proof.
  intros Hg Hn Hr Hw HQ. eapply wp_link; [done..| |done]. intros c st1 Hal.
  assert (Hs1 : ∀ j, sxact st1 j = sxact st j) by (intros; unfold sxact; by rewrite (al_sxacts _ _ _ _ _ Hal)).
  eapply (rw_graph st); [done|done|exact Hr|exact Hw|apply Hal|apply Hal|apply Hal|apply Hal|].
  intros j. rewrite (put_put _ _ _ xr xw) by (done || by rewrite Hs1). by rewrite Hs1.
Qed.

Lemma wp_set_possible st ro act xr xa (Q : Failure + () → State → Prop) : graph_ok st → ro ≠ act →
  sxact st ro = Some xr → sxact st act = Some xa →
  (∀ c st', linked push_possible push_possible c act ro st st' → Q (inr ()) st') →
  wp (set_possible ro act) Q st.
Proof.
  intros Hg Hn Hr Hw HQ. eapply wp_link; [done|done|done|done| |done]. intros c st1 Hal.
  assert (Hs1 : ∀ j, sxact st1 j = sxact st j) by (intros; unfold sxact; by rewrite (al_sxacts _ _ _ _ _ Hal)).
  eapply (possible_graph st); [done| |exact Hw|exact Hr|apply Hal|apply Hal|apply Hal|apply Hal|]; [done|].
  intros j. rewrite (put_put _ _ _ xa xr) by (done || by rewrite Hs1). by rewrite Hs1.
Qed.

(** ** Flags *)

Lemma is_raise f g x : Z.land f g = 0 → is_ (raise f x) g = is_ x g.
Proof. intros H. unfold is_, raise. cbn. by rewrite Z.land_lor_distr_l, H, Z.lor_0_r. Qed.

Lemma is_raise_eq f g x : Z.land f g = g → g ≠ 0 → is_ (raise f x) g = true.
Proof.
  intros H Hg. unfold is_, raise. cbn. rewrite Z.land_lor_distr_l, H. apply negb_true_iff, Z.eqb_neq.
  intros E%Z.lor_eq_0_iff. tauto.
Qed.

Lemma is_lower f g x : Z.land f g = 0 → is_ (lower f x) g = is_ x g.
Proof.
  intros H. unfold is_, lower. cbn. rewrite <- Z.land_assoc.
  replace (Z.land (Z.lnot f) g) with g; [done|]. apply Z.bits_inj'. intros n Hn.
  rewrite Z.land_spec, Z.lnot_spec by done. apply (f_equal (λ z, Z.testbit z n)) in H.
  rewrite Z.land_spec, Z.bits_0 in H. by destruct (Z.testbit f n), (Z.testbit g n).
Qed.

Lemma is_lower_eq f g x : Z.land f g = g → is_ (lower f x) g = false.
Proof.
  intros H. unfold is_, lower. cbn. rewrite <- Z.land_assoc.
  replace (Z.land (Z.lnot f) g) with 0; [by rewrite Z.land_0_r|]. apply Z.bits_inj'. intros n Hn.
  rewrite Z.land_spec, Z.lnot_spec, Z.bits_0 by done. apply (f_equal (λ z, Z.testbit z n)) in H.
  rewrite Z.land_spec in H. by destruct (Z.testbit f n), (Z.testbit g n).
Qed.

(** Assignments to other fields. *)
Lemma is_commit_seq n x f : is_ (set_commit_seq n x) f = is_ x f.
Proof. done. Qed.
Lemma is_prepare_seq n x f : is_ (set_prepare_seq n x) f = is_ x f.
Proof. done. Qed.
Lemma is_finished_before n x f : is_ (set_finished_before n x) f = is_ x f.
Proof. done. Qed.
Lemma is_earliest n x f : is_ (set_earliest_out_conflict_commit n x) f = is_ x f.
Proof. done. Qed.
#[export] Hint Rewrite is_commit_seq is_prepare_seq is_finished_before is_earliest : ssi_flags.

(** Flags of a transaction after assignments to its fields. *)
Ltac flags :=
  repeat first
    [ progress autorewrite with ssi_flags
    | rewrite is_raise by reflexivity | rewrite is_raise_eq by (reflexivity || discriminate)
    | rewrite is_lower by reflexivity | rewrite is_lower_eq by reflexivity ].
