(* ===== verification/SsiInv.v ===== *)
(** * Serializable snapshot isolation: the invariant

    Locks, registries, the count of the oldest snapshot, the flags and the
    dangerous structures. Within [register] and [release_at] one transaction is
    between two states; the invariant takes the phase it is in. *)
From S2P Require Import Prelude RustM Vec Bson Meth Ssi SsiWf.
Local Open Scope Z_scope.

Record locks_ok (st : State) : Prop := {
  l_targets t h : targets st !! t = Some h → h ≠ [] ∧ NoDup h ∧
    ∀ i, i ∈ h → ∃ x, sxact st i = Some x ∧ t ∈ locks x;
  l_locks i x : sxact st i = Some x → NoDup (locks x) ∧
    ∀ t, t ∈ locks x → ∃ h, targets st !! t = Some h ∧ i ∈ h;
  l_held i x t : sxact st i = Some x → is_held x t = true → t ∈ locks x }.

(** The transaction a call is starting or ending: registered but not yet
    counted, ended but still counted in [global_xmin_count], or ended and
    neither counted nor on the finished list. *)
Inductive phase := Idle | Starting (i : nat) | Ending (i : nat) | Ended (i : nat).
Definition subject (ph : phase) : option nat :=
  match ph with Idle => None | Starting i | Ending i | Ended i => Some i end.
Definition counts (ph : phase) (i : nat) (run : bool) : bool :=
  match ph with
  | Idle | Ended _ => run
  | Starting j => run && negb (bool_decide (i = j))
  | Ending j => run || bool_decide (i = j)
  end.

(** Neither committed nor rolled back. *)
Definition runs (x : Sxact) : bool := negb (is_ x FLAG_COMMITTED) && negb (is_ x FLAG_ROLLED_BACK).

Record registry_ok (ph : phase) (st : State) : Prop := {
  rg_active : NoDup (active st) ∧ ∀ i, i ∈ active st ↔ is_Some (sxact st i);
  rg_pid p i : by_pid st !! p = Some i → Some i ≠ subject ph ∧ ∃ x, sxact st i = Some x ∧ runs x = true;
  rg_inj p q i : by_pid st !! p = Some i → by_pid st !! q = Some i → p = q;
  rg_fin_nodup : NoDup (finished_list st);
  rg_fin i : i ∈ finished_list st → Some i ≠ subject ph ∧ ∃ x, sxact st i = Some x ∧ is_ x FLAG_COMMITTED = true;
  rg_live i x : sxact st i = Some x → i ∈ finished_list st ∨ (∃ p, by_pid st !! p = Some i) ∨ Some i = subject ph;
  rg_xids v i : xids st !! v = Some i → ∃ x, sxact st i = Some x ∧ top_xid x = Some v;
  rg_versions k m : versions st !! k = Some m → m ≠ ∅ ∧
    ∀ c v, m !! c = Some v → (is_Some (v_xmin v) ∨ is_Some (v_xmax v)) ∧
      ∀ w, v_xmin v = Some w ∨ v_xmax v = Some w → ∃ i x, sxact st i = Some x ∧ top_xid x = Some w;
  rg_quiet i x : sxact st i = Some x → Some i ≠ subject ph → runs x = false → possible_unsafe x = [] }.

(** The running transactions with the oldest snapshot are counted. *)
Definition runs_at (ph : phase) (st : State) (g : Z) (i : nat) : bool :=
  match sxact st i with Some x => counts ph i (runs x) && (xmin (snap x) =? g) | None => false end.
Definition cnt (ph : phase) (st : State) (g : Z) (l : list nat) : Z :=
  Z.of_nat (length (List.filter (runs_at ph st g) l)).

Definition xmin_ok (ph : phase) (st : State) : Prop :=
  match global_xmin st with
  | None => ∀ i x, sxact st i = Some x → counts ph i (runs x) = false
  | Some g => global_xmin_count st = cnt ph st g (active st) ∧ 0 < global_xmin_count st
  end.

Record flags_ok (ph : phase) (st : State) : Prop := {
  fl_prepared i x : sxact st i = Some x → is_ x FLAG_PREPARED = true →
    is_ x FLAG_DOOMED = false ∧ prepare_seq x ≤ last_commit_seq st;
  fl_committed i x : sxact st i = Some x → is_ x FLAG_COMMITTED = true →
    is_ x FLAG_PREPARED = true ∧ prepare_seq x < commit_seq x ≤ last_commit_seq st;
  fl_snapshot i x : sxact st i = Some x → last_commit_before_snapshot x ≤ last_commit_seq st;
  fl_rolled i x : sxact st i = Some x → Some i ≠ subject ph → is_ x FLAG_ROLLED_BACK = false;
  fl_summary i x : sxact st i = Some x →
    is_ x FLAG_SUMMARY_CONFLICT_IN = false ∧ is_ x FLAG_SUMMARY_CONFLICT_OUT = false }.

(** [a] reads before [b] writes, and the conflict is still recorded. *)
Definition edge (st : State) (a b : nat) : Prop :=
  ∃ x c cf, sxact st a = Some x ∧ c ∈ out_conflicts x ∧ conflict_at st c = Some cf ∧ in_ cf = b.

(** [a -> b -> c] with [c] prepared is not a dangerous structure: [a] or [b] is
    doomed, or committed before [c] prepared, or [a] is read-only with an older
    snapshot than [c]'s commit (and a read-only [b] has no conflict in). *)
Definition harmless (xa xb xc : Sxact) : Prop :=
  is_ xa FLAG_DOOMED = true ∨ is_ xb FLAG_DOOMED = true ∨
  (is_ xa FLAG_COMMITTED = true ∧ commit_seq xa < prepare_seq xc) ∨
  (is_ xb FLAG_COMMITTED = true ∧ commit_seq xb < prepare_seq xc) ∨
  (is_ xa FLAG_READ_ONLY = true ∧ last_commit_before_snapshot xa < prepare_seq xc) ∨
  is_ xb FLAG_READ_ONLY = true.

Definition danger_ok (st : State) : Prop :=
  ∀ a b c xa xb xc, edge st a b → edge st b c →
    sxact st a = Some xa → sxact st b = Some xb → sxact st c = Some xc →
    is_ xc FLAG_PREPARED = true → harmless xa xb xc.

Record inv (ph : phase) (st : State) : Prop := {
  iv_graph : graph_ok st;
  iv_locks : locks_ok st;
  iv_registry : registry_ok ph st;
  iv_xmin : xmin_ok ph st;
  iv_flags : flags_ok ph st;
  iv_danger : danger_ok st }.

(** Between calls. *)
Definition inv0 (st : State) : Prop := inv Idle st ∧ (global_xmin st = None → finished_list st = []).

(** ** Frames *)

Lemma fmap_view {B} (f : Sxact → B) o o' : f <$> o' = f <$> o →
  ∀ x', o' = Some x' → ∃ x, o = Some x ∧ f x' = f x.
Proof. intros H x' ->. destruct o as [x|]; [|done]. cbn in H. exists x. split; [done|congruence]. Qed.

Lemma locks_ok_frame st st' : locks_ok st → targets st' = targets st →
  (∀ i, (λ x, (locks x, local x)) <$> sxact st' i = (λ x, (locks x, local x)) <$> sxact st i) → locks_ok st'.
Proof.
  intros [H1 H2 H3] Ht Hv. split.
  - intros t h. rewrite Ht. intros (? & ? & Hi)%H1. split_and!; [done..|]. intros i (x & Ex & Hx)%Hi.
    destruct (fmap_view _ _ _ (eq_sym (Hv i)) x Ex) as (x' & E' & [= El _]). exists x'.
    split; [done|]. by rewrite <- El.
  - intros i x' Ex'. destruct (fmap_view _ _ _ (Hv i) x' Ex') as (x & Ex & [= El _]).
    rewrite Ht, El. by apply (H2 i).
  - intros i x' t Ex'. destruct (fmap_view _ _ _ (Hv i) x' Ex') as (x & Ex & [= El Elo]).
    unfold is_held. rewrite Elo, El. by apply (H3 i).
Qed.

(** What the registries, counts and flags depend on, in a transaction. *)
Definition core (x : Sxact) :=
  (top_xid x, snap x, last_commit_before_snapshot x, prepare_seq x, commit_seq x,
   (is_ x FLAG_COMMITTED, is_ x FLAG_PREPARED, is_ x FLAG_ROLLED_BACK, is_ x FLAG_READ_ONLY),
   (is_ x FLAG_SUMMARY_CONFLICT_IN, is_ x FLAG_SUMMARY_CONFLICT_OUT)).

(** What they depend on outside the transactions, and the counters. *)
Definition registers (st : State) :=
  (active st, by_pid st, finished_list st, xids st, versions st,
   (global_xmin st, global_xmin_count st, last_commit_seq st)).

(** The same transactions, apart from their lists, their locks and [FLAG_DOOMED]. *)
Record same_tx (st st' : State) : Prop := {
  st_core i : core <$> sxact st' i = core <$> sxact st i;
  st_reg : registers st' = registers st }.

Lemma same_tx_refl st : same_tx st st.
Proof. by split. Qed.

Lemma same_tx_trans st1 st2 st3 : same_tx st1 st2 → same_tx st2 st3 → same_tx st1 st3.
Proof. intros [A1 A2] [B1 B2]. split; [intros i; by rewrite B1|by rewrite B2]. Qed.

Lemma same_tx_old st st' i x : same_tx st st' → sxact st i = Some x → ∃ x', sxact st' i = Some x' ∧ core x' = core x.
Proof.
  intros H E. destruct (fmap_view core _ _ (eq_sym (st_core _ _ H i)) x E) as (x' & ? & ?). eauto.
Qed.

Lemma same_tx_new st st' i x' : same_tx st st' → sxact st' i = Some x' → ∃ x, sxact st i = Some x ∧ core x' = core x.
Proof. intros H E. by apply (fmap_view core _ _ (st_core _ _ H i)). Qed.

Lemma core_runs x x' : core x' = core x → runs x' = runs x.
Proof. intros [=]. unfold runs. congruence. Qed.

Lemma registry_ok_same ph st st' : registry_ok ph st → same_tx st st' →
  (∀ i x x', sxact st i = Some x → sxact st' i = Some x' → Some i ≠ subject ph → runs x = false →
     possible_unsafe x = [] → possible_unsafe x' = []) → registry_ok ph st'.
Proof.
  intros [H1 H2 H3 H4 H5 H6 H7 H8 H9] Hs Hq. pose proof (st_reg _ _ Hs) as [= Ea Eb Ef Ex Ev _ _ _].
  assert (Hlive : ∀ i, is_Some (sxact st' i) ↔ is_Some (sxact st i)).
  { intros i. rewrite <- (fmap_is_Some core), (st_core _ _ Hs i). apply fmap_is_Some. }
  split.
  - rewrite Ea. split; [apply H1|]. intros i. by rewrite (proj2 H1 i), Hlive.
  - intros p i. rewrite Eb. intros (Hn & x & (x' & E' & Hc)%(same_tx_old _ _ _ _ Hs) & Hr)%H2.
    split; [done|]. exists x'. by rewrite (core_runs _ _ Hc).
  - intros p q i. rewrite Eb. apply H3.
  - by rewrite Ef.
  - intros i. rewrite Ef. intros (Hn & x & (x' & E' & [=])%(same_tx_old _ _ _ _ Hs) & Hr)%H5.
    split; [done|]. exists x'. split; [done|congruence].
  - intros i x' (x & E & Hc)%(same_tx_new _ _ _ _ Hs). rewrite Eb, Ef. by apply (H6 i x).
  - intros v i. rewrite Ex. intros (x & (x' & E' & [=])%(same_tx_old _ _ _ _ Hs) & Hr)%H7.
    exists x'. split; [done|congruence].
  - intros k m. rewrite Ev. intros (Hm & Hc)%H8. split; [done|]. intros c v (Hv & Hw)%Hc.
    split; [done|]. intros w (i & x & (x' & E' & [=])%(same_tx_old _ _ _ _ Hs) & Ht)%Hw.
    exists i, x'. split; [done|congruence].
  - intros i x' E' Hn Hr. destruct (same_tx_new _ _ _ _ Hs E') as (x & E & Hc).
    rewrite (core_runs _ _ Hc) in Hr. by eapply Hq, (H9 i).
Qed.

Lemma cnt_ext ph ph' st st' g l : (∀ i, i ∈ l → runs_at ph' st' g i = runs_at ph st g i) →
  cnt ph' st' g l = cnt ph st g l.
Proof.
  unfold cnt. induction l as [|i l IH]; intros H; [done|]. cbn. rewrite (H i) by left.
  destruct (runs_at ph st g i); cbn [length]; [|apply IH; intros; apply H; by right].
  rewrite !Nat2Z.inj_succ. f_equal. apply IH. intros. apply H. by right.
Qed.

Lemma xmin_ok_same ph st st' : xmin_ok ph st → same_tx st st' → xmin_ok ph st'.
Proof.
  unfold xmin_ok. intros H Hs. pose proof (st_reg _ _ Hs) as [= Ea _ _ _ _ Eg Ec _]. rewrite Eg, Ec, Ea.
  destruct (global_xmin st) as [g|].
  - erewrite cnt_ext; [done|]. intros i _. unfold runs_at. pose proof (st_core _ _ Hs i) as E.
    destruct (sxact st' i) as [x'|], (sxact st i) as [x|]; try done. cbn in E. apply (inj Some) in E.
    rewrite (core_runs _ _ E). by injection E as _ ->.
  - intros i x' (x & E & Hc)%(same_tx_new _ _ _ _ Hs). rewrite (core_runs _ _ Hc). by apply H.
Qed.

Lemma flags_ok_same ph st st' : flags_ok ph st → same_tx st st' →
  (∀ i x x', sxact st i = Some x → sxact st' i = Some x' → is_ x' FLAG_PREPARED = true →
     is_ x' FLAG_DOOMED = true → is_ x FLAG_DOOMED = true) → flags_ok ph st'.
Proof.
  intros [H1 H2 H3 H4 H5] Hs Hd. pose proof (st_reg _ _ Hs) as [= _ _ _ _ _ _ _ El].
  split; intros i x' E'; destruct (same_tx_new _ _ _ _ Hs E') as (x & E & Hc); injection Hc as Hc1 Hc2 Hc3 Hc4 Hc5 Hc6 Hc7 Hc8 Hc9 Hc10 Hc11;
    rewrite ?Hc3, ?Hc4, ?Hc5, ?Hc6, ?Hc7, ?Hc8, ?Hc10, ?Hc11, ?El; eauto.
  intros Hp. destruct (H1 i x E Hp) as [Hnd ?]. split; [|done].
  destruct (is_ x' FLAG_DOOMED) eqn:Ed; [|done]. rewrite <- Hnd. symmetry. eapply Hd; eauto.
Qed.

(** Flags only ever get closer to harmless. *)
Record flags_le (x x' : Sxact) : Prop := {
  le_doomed : is_ x FLAG_DOOMED = true → is_ x' FLAG_DOOMED = true;
  le_committed : is_ x FLAG_COMMITTED = true → is_ x' FLAG_COMMITTED = true ∧ commit_seq x' = commit_seq x;
  le_ro : is_ x FLAG_READ_ONLY = true → is_ x' FLAG_READ_ONLY = true;
  le_lcbs : last_commit_before_snapshot x' = last_commit_before_snapshot x;
  le_prepared : is_ x' FLAG_PREPARED = true → is_ x FLAG_PREPARED = true ∧ prepare_seq x' = prepare_seq x }.

Lemma flags_le_refl x : flags_le x x.
Proof. by split. Qed.

Lemma harmless_mono xa xb xc xa' xb' xc' : flags_le xa xa' → flags_le xb xb' → prepare_seq xc' = prepare_seq xc →
  harmless xa xb xc → harmless xa' xb' xc'.
Proof.
  intros [A1 A2 A3 A4 _] [B1 B2 B3 B4 _] Hc. unfold harmless. rewrite Hc, A4.
  intros [H|[H|[[H ?]|[[H ?]|[[H ?]|H]]]]].
  - left. auto.
  - right. left. auto.
  - right. right. left. destruct (A2 H) as [? ->]. done.
  - do 3 right. left. destruct (B2 H) as [? ->]. done.
  - do 4 right. left. auto.
  - do 5 right. auto.
Qed.

(** Fewer edges and better flags keep the structures harmless. *)
Lemma danger_ok_mono st st' : danger_ok st → (∀ a b, edge st' a b → edge st a b) →
  (∀ i x', sxact st' i = Some x' → ∃ x, sxact st i = Some x ∧ flags_le x x') → danger_ok st'.
Proof.
  intros H He Hx a b c xa' xb' xc' Hab%He Hbc%He Ea Eb Ec Hp.
  destruct (Hx _ _ Ea) as (xa & Ea0 & La). destruct (Hx _ _ Eb) as (xb & Eb0 & Lb).
  destruct (Hx _ _ Ec) as (xc & Ec0 & Lc). destruct (le_prepared _ _ Lc Hp) as [Hp' Hs].
  eapply (harmless_mono xa xb xc); [done|done|done|]. by apply (H a b c).
Qed.

(** The step lemma: the lists and locks are well formed again, the transactions
    are the same ones, and the dangerous structures are harmless. *)
Lemma inv_same ph st st' : inv ph st → same_tx st st' → graph_ok st' → locks_ok st' → danger_ok st' →
  (∀ i x x', sxact st i = Some x → sxact st' i = Some x' →
     (Some i ≠ subject ph → runs x = false → possible_unsafe x = [] → possible_unsafe x' = []) ∧
     (is_ x' FLAG_PREPARED = true → is_ x' FLAG_DOOMED = true → is_ x FLAG_DOOMED = true)) →
  inv ph st'.
Proof.
  intros [A1 A2 A3 A4 A5 A6] Hs Hg Hl Hd Hx. split; [done|done| | | |done].
  - eapply registry_ok_same; [done..|]. intros i x x' E E'. by apply (Hx i).
  - by eapply xmin_ok_same.
  - eapply flags_ok_same; [done..|]. intros i x x' E E'. by apply (Hx i).
Qed.

(** The whole view of a transaction: lists, locks and flags. *)
Definition view (x : Sxact) := (core x, lists x, (locks x, local x), is_ x FLAG_DOOMED).

Lemma view_parts x x' : view x' = view x → core x' = core x ∧ lists x' = lists x ∧
  (locks x', local x') = (locks x, local x) ∧ is_ x' FLAG_DOOMED = is_ x FLAG_DOOMED.
Proof.
  intros E. split_and!;
    [exact (f_equal (λ v, v.1.1.1) E)|exact (f_equal (λ v, v.1.1.2) E)|exact (f_equal (λ v, v.1.2) E)|
     exact (f_equal (λ v, v.2) E)].
Qed.

Lemma core_flags_le x x' : core x' = core x → (is_ x FLAG_DOOMED = true → is_ x' FLAG_DOOMED = true) → flags_le x x'.
Proof. intros [=] Hd. split; congruence || (intros; split; congruence) || done. Qed.

Lemma view_flags_le x x' : view x' = view x → flags_le x x'.
Proof. intros (? & _ & _ & ?)%view_parts. apply core_flags_le; [done|congruence]. Qed.

Lemma edge_lists st st' : (∀ i, lists <$> sxact st' i = lists <$> sxact st i) → conflicts st' = conflicts st →
  ∀ a b, edge st' a b → edge st a b.
Proof.
  intros Hl Hc a b (x' & c & cf & E & Hin & Hcf & Hb).
  destruct (fmap_view _ _ _ (Hl a) x' E) as (x & Ex & [= Ho _ _]). exists x, c, cf.
  unfold conflict_at in *. rewrite <- Hc. by rewrite Ho in Hin.
Qed.

(** Assignments to fields the invariant does not depend on. *)
Lemma inv_view ph st i x f : inv ph st → sxact st i = Some x → view (f x) = view x →
  inv ph (put_sxact i (Some (f x)) st) ∧ same_tx st (put_sxact i (Some (f x)) st).
Proof.
  intros Hi Hx Hv. set (st' := put_sxact i (Some (f x)) st).
  assert (Hs : ∀ j, sxact st' j = if decide (j = i) then Some (f x) else sxact st j)
    by (intros; apply sxact_put; by eapply sxact_slot).
  assert (Hvw : ∀ j, view <$> sxact st' j = view <$> sxact st j).
  { intros j. rewrite Hs. case_decide; [subst|done]. rewrite Hx. cbn. by f_equal. }
  assert (Hpr : ∀ {B} (g : Sxact → B), (∀ y y', view y' = view y → g y' = g y) → ∀ j, g <$> sxact st' j = g <$> sxact st j).
  { intros B g Hg j. rewrite Hs. case_decide; [subst|done]. rewrite Hx. cbn. by rewrite (Hg x). }
  assert (Hst : same_tx st st') by (split; [apply Hpr; by intros ?? (? & _)%view_parts|done]).
  split; [|done]. eapply inv_same; [done|done| | | |].
  - eapply graph_ok_frame; [apply Hi|done|done|]. apply Hpr. by intros ?? (_ & ? & _)%view_parts.
  - eapply locks_ok_frame; [apply Hi|done|]. apply Hpr. by intros ?? (_ & _ & ? & _)%view_parts.
  - eapply danger_ok_mono; [apply Hi| |].
    + apply edge_lists; [|done]. apply Hpr. by intros ?? (_ & ? & _)%view_parts.
    + intros j y' Ey. destruct (fmap_view _ _ _ (Hvw j) y' Ey) as (y & E & Hy). exists y.
      split; [done|]. by apply view_flags_le.
  - intros j y y' Ey Ey'. destruct (fmap_view _ _ _ (Hvw j) y' Ey') as (y0 & E & Hy).
    assert (y0 = y) as -> by congruence. apply view_parts in Hy as (_ & [= _ _ ->] & _ & ->). done.
Qed.
