(* ===== verification/SsiLocks.v ===== *)
(** * Serializable snapshot isolation: rw-conflicts and SIREAD locks

    Releasing, dooming and flagging keep the invariant, and a conflict is only
    recorded when the structures it completes are harmless.

    Acquiring a lock, promoting it to a coarser one and dropping the finer ones
    keep the invariant, and never lose what the transaction's locks cover. *)
From S2P Require Import Prelude RustM Vec Bson Meth Ssi SsiWf SsiInv.
Local Open Scope Z_scope.

(** ** Releasing conflicts *)

Lemma ssi_inv_released ph cs st st' : inv ph st → released cs st st' → inv ph st' ∧ same_tx st st'.
Proof.
  intros Hi [R1 R2 _ R4 R5]. injection R4 as Ra Rt Rx Rl _ _ Rg Rc _ Rf Rv Rb _.
  assert (Hst : same_tx st st').
  { split; [|unfold registers; congruence]. intros i. rewrite R1. by destruct (sxact st i). }
  split; [|done]. eapply inv_same; [done|done|done| | |].
  - eapply locks_ok_frame; [apply Hi|done|]. intros i. rewrite R1. by destruct (sxact st i).
  - eapply danger_ok_mono; [apply Hi| |].
    + intros a b (x' & c & cf & E & Hin & Hcf & Hb). rewrite R1 in E.
      apply fmap_Some in E as (x & Ex & ->). cbn in Hin. apply list_elem_of_filter in Hin as [Hn Hin].
      rewrite R2, decide_False in Hcf by done. by exists x, c, cf.
    + intros i x' E. rewrite R1 in E. apply fmap_Some in E as (x & Ex & ->). exists x. by split.
  - intros i x x' E E'. rewrite R1, E in E'. injection E' as <-. cbn. split; [|done].
    by intros _ _ ->.
Qed.

(** A doomed transaction that has not prepared makes nothing worse. *)
Lemma inv_doom ph st i x : inv ph st → sxact st i = Some x → is_ x FLAG_PREPARED = false →
  let st' := put_sxact i (Some (raise FLAG_DOOMED x)) st in inv ph st' ∧ same_tx st st'.
Proof.
  intros Hi Hx Hp st'.
  assert (Hs : ∀ j, sxact st' j = if decide (j = i) then Some (raise FLAG_DOOMED x) else sxact st j)
    by (intros; apply sxact_put; by eapply sxact_slot).
  assert (Hst : same_tx st st').
  { split; [|done]. intros j. rewrite Hs. case_decide; [subst|done]. rewrite Hx. cbn. unfold core. by flags. }
  assert (Hl : ∀ j, lists <$> sxact st' j = lists <$> sxact st j).
  { intros j. rewrite Hs. case_decide; [subst|done]. by rewrite Hx. }
  split; [|done]. eapply inv_same; [done|done| | | |].
  - eapply graph_ok_frame; [apply Hi|done|done|done].
  - eapply locks_ok_frame; [apply Hi|done|]. intros j. rewrite Hs. case_decide; [subst|done]. by rewrite Hx.
  - eapply danger_ok_mono; [apply Hi|by apply edge_lists|]. intros j y. rewrite Hs.
    case_decide; [subst|eauto using flags_le_refl]. intros [= <-]. exists x. split; [done|]. by split; flags.
  - intros j y y' E. rewrite Hs. case_decide; [subst|]; intros E'; simplify_eq; [|done]. split; [done|].
    flags. congruence.
Qed.

(** Each conflict of a snapshot of a list, released if [p] says so: loops that
    only release conflicts of one transaction's list. *)
Lemma conflict_live ph st i x c : inv ph st → sxact st i = Some x →
  c ∈ out_conflicts x ∨ c ∈ in_conflicts x ∨ c ∈ possible_unsafe x →
  ∃ cf xo xi, conflict_at st c = Some cf ∧ sxact st (out cf) = Some xo ∧ sxact st (in_ cf) = Some xi.
Proof.
  intros Hi Hx Hc. pose proof (iv_graph _ _ Hi) as Hg.
  assert (∃ cf, conflict_at st c = Some cf) as [cf Hcf].
  { destruct Hc as [Hc|[Hc|Hc]].
    - destruct (g_out _ Hg _ _ _ Hx Hc) as (cf & _ & ? & _). eauto.
    - destruct (g_in _ Hg _ _ _ Hx Hc) as (cf & _ & ? & _). eauto.
    - destruct (g_pos _ Hg _ _ _ Hx Hc) as (cf & _ & _ & ? & _). eauto. }
  destruct (g_used _ Hg _ _ Hcf) as (xo & xi & ? & ? & _). eauto 10.
Qed.

Lemma keep_release_all ph st i x cs (Q : Failure + () → State → Prop) : inv ph st → sxact st i = Some x →
  NoDup cs → (∀ c, c ∈ cs → c ∈ out_conflicts x ∨ c ∈ in_conflicts x ∨ c ∈ possible_unsafe x) →
  (∀ st', released cs st st' → inv ph st' → same_tx st st' → Q (inr ()) st') →
  wp (for_each cs release_conflict) Q st.
Proof.
  intros Hi Hx Hn Hc HQ. apply wp_release_all; [apply Hi|done| |].
  - intros c Hin. destruct (conflict_live _ _ _ _ _ Hi Hx (Hc c Hin)) as (cf & _ & _ & -> & _). by eexists.
  - intros st' Hr. destruct (ssi_inv_released _ _ _ _ Hi Hr). auto.
Qed.

(** ** Recording a conflict *)

(** The structures a new conflict [r -> w] completes are harmless. *)
Definition may_link (st : State) (r w : nat) : Prop := ∀ xr xw, sxact st r = Some xr → sxact st w = Some xw →
  (∀ c xc, edge st w c → sxact st c = Some xc → is_ xc FLAG_PREPARED = true → harmless xr xw xc) ∧
  (∀ a xa, edge st a r → sxact st a = Some xa → is_ xw FLAG_PREPARED = true → harmless xa xr xw).

Lemma linked_edge st st' c r w xr : graph_ok st → linked push_out push_in c r w st st' → sxact st r = Some xr →
  ∀ a b, edge st' a b ↔ edge st a b ∨ (a = r ∧ b = w).
Proof.
  intros Hg [L1 L2 L3 _ _] Hr a b. unfold edge.
  assert (Hco : conflict_at st' c = Some (MkConflict r w)) by (by rewrite L2, decide_True).
  split.
  - intros (x' & k & cf & E & Hin & Hcf & Hb). rewrite L3 in E. destruct (decide (k = c)) as [->|Hk].
    + right. rewrite Hco in Hcf. injection Hcf as <-. cbn in Hb. subst b. split; [|done].
      case_decide; [done|]. exfalso. case_decide.
      * apply fmap_Some in E as (x & Ex & ->). destruct (fresh_not_in _ _ _ _ Hg L1 Ex) as (? & _). done.
      * destruct (fresh_not_in _ _ _ _ Hg L1 E) as (? & _). done.
    + left. rewrite L2, decide_False in Hcf by done. case_decide; [subst a|].
      * apply fmap_Some in E as (x & Ex & ->). cbn in Hin. exists x, k, cf. split_and!; try done. set_solver.
      * case_decide; [subst a|by exists x', k, cf].
        apply fmap_Some in E as (x & Ex & ->). by exists x, k, cf.
  - intros [(x & k & cf & E & Hin & Hcf & Hb)|[-> ->]].
    + assert (Hk : k ≠ c) by congruence. assert (Hcf' : conflict_at st' k = Some cf) by (by rewrite L2, decide_False).
      case (decide (a = r)) as [->|Ha]; [|case (decide (a = w)) as [->|Ha']].
      * exists (push_out c x), k, cf. rewrite L3, decide_True, E by done. split_and!; try done. cbn. set_solver.
      * exists (push_in c x), k, cf. rewrite L3, decide_False, decide_True, E by done. done.
      * exists x, k, cf. by rewrite L3, !decide_False.
    + exists (push_out c xr), c, (MkConflict r w). rewrite L3, decide_True, Hr by done.
      split_and!; try done. cbn. set_solver.
Qed.

(** Pushing on a list changes nothing else. *)
Definition pushes (f : nat → Sxact → Sxact) : Prop := ∀ c x,
  core (f c x) = core x ∧ is_ (f c x) FLAG_DOOMED = is_ x FLAG_DOOMED ∧ flags_le x (f c x) ∧
  (locks (f c x), local (f c x)) = (locks x, local x).

Lemma pushes_out : pushes push_out.
Proof. by intros c x. Qed.
Lemma pushes_in : pushes push_in.
Proof. by intros c x. Qed.
Lemma pushes_possible : pushes push_possible.
Proof. by intros c x. Qed.

Lemma linked_tx fo fi c o i st st' j x' : pushes fo → pushes fi → linked fo fi c o i st st' →
  sxact st' j = Some x' → ∃ x, sxact st j = Some x ∧ (x' = x ∨ (j = o ∧ x' = fo c x) ∨ (j = i ∧ x' = fi c x)) ∧
    flags_le x x' ∧ is_ x' FLAG_DOOMED = is_ x FLAG_DOOMED.
Proof.
  intros Ho Hi L E. rewrite (lk_sxact _ _ _ _ _ _ _ L) in E. repeat case_decide; subst.
  - apply fmap_Some in E as (x & ? & ->). exists x. destruct (Ho c x) as (_ & ? & ? & _). eauto 10.
  - apply fmap_Some in E as (x & ? & ->). exists x. destruct (Hi c x) as (_ & ? & ? & _). eauto 10.
  - exists x'. eauto using flags_le_refl.
Qed.

Lemma linked_same fo fi c o i st st' : pushes fo → pushes fi → linked fo fi c o i st st' → locks_ok st →
  same_tx st st' ∧ locks_ok st'.
Proof.
  intros Ho Hi [_ _ L3 L4 _] Hl. injection L4 as Ra Rt Rx Rl _ _ Rg Rc _ Rf Rv Rb _. split.
  - split; [|unfold registers; congruence]. intros j. rewrite L3.
    case_decide as E1; [rewrite <- E1|case_decide as E2; [rewrite <- E2|done]];
      destruct (sxact st j) as [x|]; try done; cbn; f_equal; [apply (Ho c x)|apply (Hi c x)].
  - eapply locks_ok_frame; [done|done|]. intros j. rewrite L3.
    case_decide as E1; [rewrite <- E1|case_decide as E2; [rewrite <- E2|done]];
      destruct (sxact st j) as [x|]; try done; cbn; f_equal; [apply (Ho c x)|apply (Hi c x)].
Qed.

Lemma inv_linked ph st st' c r w xr : inv ph st → linked push_out push_in c r w st st' → sxact st r = Some xr → r ≠ w →
  may_link st r w → inv ph st' ∧ same_tx st st' ∧ edge st' r w.
Proof.
  intros Hi L Hr Hne Hm. pose proof (linked_edge _ _ _ _ _ _ (iv_graph _ _ Hi) L Hr) as He.
  destruct (linked_same _ _ _ _ _ _ _ pushes_out pushes_in L (iv_locks _ _ Hi)) as [Hst Hl].
  pose proof (λ j x', linked_tx _ _ _ _ _ _ _ j x' pushes_out pushes_in L) as Ht.
  split_and!; [|done|apply He; by right]. eapply inv_same; [done|done|apply L|done| |].
  - intros a b d xa' xb' xd' Hab%He Hbd%He Ea Eb Ed Hp.
    destruct (Ht _ _ Ea) as (xa & Ea0 & _ & La & _). destruct (Ht _ _ Eb) as (xb & Eb0 & _ & Lb & _).
    destruct (Ht _ _ Ed) as (xd & Ed0 & _ & Ld & _). destruct (le_prepared _ _ Ld Hp) as [Hp' Hs].
    eapply (harmless_mono xa xb xd); [done|done|done|].
    destruct Hab as [Hab|[-> ->]], Hbd as [Hbd|[Eq Eq']]; [|subst..].
    + by apply (iv_danger _ _ Hi a b d).
    + destruct (Hm xb xd Eb0 Ed0) as [_ M]. by eapply M.
    + destruct (Hm xa xb Ea0 Eb0) as [M _]. by eapply M.
    + done.
  - intros j x x' E E'. destruct (Ht _ _ E') as (x0 & E0 & Hx & _ & Hd). assert (x0 = x) as -> by congruence.
    split; [|congruence]. by destruct Hx as [-> |[(_ & ->)|(_ & ->)]].
Qed.

(** ** The check *)

Lemma edge_out ph st i x c cf : inv ph st → sxact st i = Some x → c ∈ out_conflicts x →
  conflict_at st c = Some cf → edge st i (in_ cf).
Proof. intros Hi Hx Hc Hcf. by exists x, c, cf. Qed.

Lemma edge_in ph st a i x : inv ph st → sxact st i = Some x → edge st a i →
  ∃ c cf, c ∈ in_conflicts x ∧ conflict_at st c = Some cf ∧ out cf = a.
Proof.
  intros Hi Hx (y & c & cf & Hy & Hc & Hcf & Hb).
  destruct (g_out _ (iv_graph _ _ Hi) _ _ _ Hy Hc) as (cf' & z & E & Ho & _ & Hz & Hin).
  exists c, cf. rewrite Hcf in E. injection E as <-. rewrite Hb, Hx in Hz. by injection Hz as <-.
Qed.

(** Asking a question of the far ends of a transaction's conflicts. *)
Lemma wp_any_far ph st i x (cs : list nat) (far : Conflict → nat) (p : Sxact → bool) (Q : Failure + bool → State → Prop) :
  inv ph st → sxact st i = Some x →
  (cs = out_conflicts x ∧ far = in_) ∨ (cs = in_conflicts x ∧ far = out) →
  (∀ b, (b = false → ∀ c cf y, c ∈ cs → conflict_at st c = Some cf → sxact st (far cf) = Some y → p y = false) →
     Q (inr b) st) →
  wp (any_of cs (λ c, cf ← conflict c; t ← sx (far cf); mret (p t))) Q st.
Proof.
  intros Hi Hx Hcs HQ.
  set (q := λ c, match conflict_at st c with
                 | Some cf => match sxact st (far cf) with Some t => p t | None => false end
                 | None => false end).
  apply (wp_any_of _ _ q).
  - intros c Hc. destruct (conflict_live ph st i x c Hi Hx) as (cf & xo & xi & Hcf & Ho & Hin).
    { destruct Hcs as [[-> _]|[-> _]]; auto. }
    assert (∃ t, sxact st (far cf) = Some t) as [t Ht] by (destruct Hcs as [[_ ->]|[_ ->]]; eauto).
    unfold q, conflict, sx, mbind, meth_bind, self, expect. by rewrite Hcf, Ht.
  - apply HQ. intros Hf c cf y Hc Hcf Hy. rewrite existsb_False in Hf. specialize (Hf c Hc).
    unfold q in Hf. by rewrite Hcf, Hy in Hf.
Qed.

Lemma out_danger_harmless r w t : out_danger r w t = false → is_ t FLAG_PREPARED = true → harmless r w t.
Proof.
  unfold out_danger, harmless. intros H Hp. rewrite Hp in H. cbn in H.
  destruct (is_ r FLAG_COMMITTED), (is_ w FLAG_COMMITTED), (is_ r FLAG_READ_ONLY); cbn in H; try done;
    rewrite ?andb_true_r, ?andb_false_iff, ?Z.leb_gt in H; intuition auto.
Qed.

Lemma in_danger_harmless a r w : in_danger w a = false → harmless a r w.
Proof.
  unfold in_danger, harmless. intros H.
  destruct (is_ a FLAG_DOOMED), (is_ a FLAG_COMMITTED), (is_ a FLAG_READ_ONLY); cbn in H; try done;
    rewrite ?andb_true_r, ?andb_false_iff, ?Z.leb_gt in H; intuition auto.
Qed.

Lemma harmless_doomed xa xb xc : is_ xb FLAG_DOOMED = true → harmless xa xb xc.
Proof. right. by left. Qed.

Lemma put_edges st i x x' : sxact st i = Some x → lists x' = lists x →
  ∀ a b, edge (put_sxact i (Some x') st) a b ↔ edge st a b.
Proof.
  intros Hx Hl. set (st' := put_sxact i (Some x') st).
  assert (Hs : ∀ j, lists <$> sxact st' j = lists <$> sxact st j).
  { intros j. unfold st'. rewrite sxact_put by (by eapply sxact_slot). case_decide; [subst|done].
    rewrite Hx. cbn. by f_equal. }
  intros a b. split; by apply edge_lists.
Qed.

Lemma wp_check_failure ph st r w me xr xw : inv ph st → sxact st r = Some xr → sxact st w = Some xw → r ≠ w →
  wp (check_failure r w me) (λ res st', inv ph st' ∧ same_tx st st' ∧ (∀ a b, edge st' a b ↔ edge st a b) ∧
    (me = w → st' = st) ∧ (res = inr () → may_link st' r w)) st.
Proof.
  intros Hi Hr Hw Hne. unfold check_failure. apply wp_bind. eapply wp_sx; [done|]. apply wp_bind.
  destruct (fl_summary _ _ (iv_flags _ _ Hi) _ _ Hw) as [_ Hso].
  destruct (fl_summary _ _ (iv_flags _ _ Hi) _ _ Hr) as [Hsi _]. rewrite Hso.
  set (safe_out := ∀ c xc, edge st w c → sxact st c = Some xc → is_ xc FLAG_PREPARED = true → harmless xr xw xc).
  set (safe_in := ∀ a xa, edge st a r → sxact st a = Some xa → is_ xw FLAG_PREPARED = true → harmless xa xr xw).
  eapply (wp_mono _ (λ res st', st' = st ∧ ∃ b, res = inr b ∧ (b = false → safe_out))).
  { destruct (is_ xw FLAG_COMMITTED && (is_ xw FLAG_CONFLICT_OUT || false)).
    { apply wp_ret. split; [done|]. by exists true. }
    apply wp_bind. eapply wp_sx; [done|]. eapply (wp_any_far ph st w xw _ in_); [done|done|by left|].
    intros b Hb. split; [done|]. exists b. split; [done|]. intros ->.
    intros c xc (y & k & cf & Hy & Hk & Hcf & <-) Hc Hp. apply out_danger_harmless; [|done].
    rewrite Hw in Hy. injection Hy as <-. by eapply Hb. }
  intros ? ? (-> & b & -> & Hb). apply wp_bind. eapply wp_sx; [done|]. apply wp_bind. rewrite Hsi.
  eapply (wp_mono _ (λ res st', st' = st ∧ ∃ b, res = inr b ∧ (b = false → safe_out ∧ safe_in))).
  { destruct (negb b && is_ xw FLAG_PREPARED && negb (is_ xr FLAG_READ_ONLY)) eqn:E.
    - apply andb_true_iff in E as [[E1%negb_true_iff _]%andb_true_iff _]. subst b.
      eapply (wp_any_far ph st r xr _ out); [done|done|by right|].
      intros b Hb'. split; [done|]. exists b. split; [done|]. intros ->. split; [by apply Hb|].
      intros a xa Hae Ha _. destruct (edge_in _ _ _ _ _ Hi Hr Hae) as (c & cf & Hc & Hcf & <-).
      apply in_danger_harmless. by eapply Hb'.
    - apply wp_ret. split; [done|]. exists b. split; [done|]. intros ->. split; [by apply Hb|].
      cbn in E. intros a xa _ _ Hp. rewrite Hp in E. cbn in E. apply negb_false_iff in E.
      unfold harmless. auto 10. }
  clear b Hb. intros ? ? (-> & b & -> & Hb).
  assert (Hkeep : ∀ res, (res = inr () → may_link st r w) → inv ph st ∧ same_tx st st ∧ (∀ a b, edge st a b ↔ edge st a b) ∧
    (me = w → st = st) ∧ (res = @inr Failure () () → may_link st r w)) by (intros; auto using same_tx_refl).
  destruct b.
  - case_decide as Hme; [apply wp_fail; by apply Hkeep|]. apply wp_bind. eapply wp_sx; [done|].
    destruct (is_ xw FLAG_PREPARED) eqn:Hp; [apply wp_fail; by apply Hkeep|].
    eapply wp_sx_mut; [done|]. destruct (inv_doom _ _ _ _ Hi Hw Hp) as [Hi' Hs'].
    pose proof (put_edges st w xw (raise FLAG_DOOMED xw) Hw eq_refl) as He.
    split_and!; [done|done|done|done|]. intros _ yr yw Er Ew.
    rewrite sxact_put, decide_True in Ew by (done || by eapply sxact_slot). injection Ew as <-. split.
    + intros. apply harmless_doomed. by flags.
    + intros a xa _ _. flags. congruence.
  - apply wp_ret, Hkeep. intros _ yr yw Er Ew. simplify_eq. destruct (Hb eq_refl) as [Ho Hin]. by split.
Qed.

Lemma may_link_edges st st' r w : (∀ a b, edge st' a b ↔ edge st a b) → (∀ i, sxact st' i = sxact st i) →
  may_link st r w → may_link st' r w.
Proof.
  intros He Hs H xr xw. rewrite !Hs. intros Er Ew. destruct (H xr xw Er Ew) as [A B]. split.
  - intros c xc. rewrite He, Hs. apply A.
  - intros a xa. rewrite He, Hs. apply B.
Qed.

Lemma wp_flag_conflict ph st r w me xr xw : inv ph st → sxact st r = Some xr → sxact st w = Some xw → r ≠ w →
  wp (flag_conflict r w me) (λ res st', inv ph st' ∧ same_tx st st' ∧ (∀ a b, edge st a b → edge st' a b) ∧
    (res = inr () → edge st' r w) ∧
    (me = w → ∀ i x', sxact st' i = Some x' → ∃ x, sxact st i = Some x ∧ is_ x' FLAG_DOOMED = is_ x FLAG_DOOMED ∧
        locks x' = locks x ∧ finished_before x' = finished_before x) ∧
    (me = w → targets st' = targets st)) st.
Proof.
  intros Hi Hr Hw Hne. unfold flag_conflict. apply wp_bind. eapply wp_mono; [by eapply wp_check_failure|].
  intros [e|[]] st1 (Hi1 & Hs1 & He1 & Hme & Hm).
  - split_and!; [done|done|intros; by apply He1|done| |].
    + intros Heq. rewrite (Hme Heq). eauto 10.
    + intros Heq. by rewrite (Hme Heq).
  - destruct (same_tx_old _ _ _ _ Hs1 Hr) as (yr & Er & _). destruct (same_tx_old _ _ _ _ Hs1 Hw) as (yw & Ew & _).
    eapply (wp_set_conflict _ _ _ yr yw); [apply Hi1|done..|]. intros c st2 L.
    destruct (inv_linked _ _ _ _ _ _ _ Hi1 L Er Hne (Hm eq_refl)) as (Hi2 & Hs2 & Hed).
    split_and!; [done|by eapply same_tx_trans| |done| |].
    + intros a b Hab%He1. eapply (linked_edge _ _ _ _ _ _ (iv_graph _ _ Hi1) L Er). by left.
    + intros Heq. rewrite <- (Hme Heq). intros i x' E.
      destruct (linked_tx _ _ _ _ _ _ _ _ _ pushes_out pushes_in L E) as (x & Ex & Hx & _ & Hd).
      exists x. split; [done|]. by destruct Hx as [-> |[(_ & ->)|(_ & ->)]].
    + intros Heq. rewrite <- (Hme Heq). by pose proof (lk_rest _ _ _ _ _ _ _ L) as [=].
Qed.

(** ** Serializable snapshot isolation: SIREAD locks *)

(** A transaction's locks cover a target: one is on it or on a coarser one. *)
Definition covers (x : Sxact) (t : Target) : Prop := ∃ u, u ∈ locks x ∧ (u = t ∨ covered_by t u = true).

Lemma covered_by_trans a b c : covered_by a b = true → covered_by b c = true → covered_by a c = true.
Proof.
  destruct a, b, c; cbn; try done; rewrite ?andb_true_iff, ?Z.eqb_eq; naive_solver.
Qed.

Lemma covered_by_irrefl t : covered_by t t = false.
Proof. by destruct t. Qed.

Lemma covers_mono x x' t : (∀ u, u ∈ locks x → covers x' u) → covers x t → covers x' t.
Proof.
  intros H (u & Hu & Ht). destruct (H u Hu) as (v & Hv & Huv). exists v. split; [done|].
  destruct Ht as [-> |Ht]; [done|]. right. destruct Huv as [-> |Huv]; [done|]. by eapply covered_by_trans.
Qed.

Lemma covers_in x t : t ∈ locks x → covers x t.
Proof. intros. exists t. auto. Qed.

(** ** Steps that only touch one transaction's locks *)

Record lock_step (i : nat) (st st' : State) : Prop := {
  ls_other j : j ≠ i → sxact st' j = sxact st j;
  ls_mine : (λ x, (set_locks [] (set_local ∅ x))) <$> sxact st' i = (λ x, (set_locks [] (set_local ∅ x))) <$> sxact st i;
  ls_conflicts : conflicts st' = conflicts st;
  ls_free : free_conflicts st' = free_conflicts st;
  ls_reg : registers st' = registers st }.

Lemma lock_step_refl i st : lock_step i st st.
Proof. by split. Qed.

Lemma lock_step_trans i st1 st2 st3 : lock_step i st1 st2 → lock_step i st2 st3 → lock_step i st1 st3.
Proof.
  intros [A1 A2 A3 A4 A5] [B1 B2 B3 B4 B5]. split; [|congruence..].
  intros j Hj. by rewrite B1, A1.
Qed.

Lemma unlocked_same {B} (f : Sxact → B) x x' : (∀ x, f (set_locks [] (set_local ∅ x)) = f x) →
  set_locks [] (set_local ∅ x') = set_locks [] (set_local ∅ x) → f x' = f x.
Proof. intros Hf E. by rewrite <- (Hf x'), <- (Hf x), E. Qed.

Lemma lock_step_view {B} (f : Sxact → B) i st st' : lock_step i st st' →
  (∀ x, f (set_locks [] (set_local ∅ x)) = f x) → ∀ j, f <$> sxact st' j = f <$> sxact st j.
Proof.
  intros [A1 A2 _ _ _] Hf j. destruct (decide (j = i)) as [->|Hj]; [|by rewrite A1].
  destruct (sxact st' i) as [x'|], (sxact st i) as [x|]; try done. cbn in A2 |- *. f_equal.
  apply (inj Some) in A2. by apply unlocked_same.
Qed.

Lemma lock_step_edges i st st' : lock_step i st st' → ∀ a b, edge st' a b ↔ edge st a b.
Proof.
  intros H a b. pose proof (lock_step_view lists i st st' H (λ x, eq_refl)) as Hl.
  pose proof (ls_conflicts _ _ _ H) as Hc. split; by apply edge_lists.
Qed.

Lemma inv_lock_step ph i st st' : inv ph st → lock_step i st st' → locks_ok st' → inv ph st' ∧ same_tx st st'.
Proof.
  intros Hi H Hl. assert (Hst : same_tx st st').
  { split; [by apply (lock_step_view core i)|apply H]. }
  split; [|done]. eapply inv_same; [done|done| |done| |].
  - eapply graph_ok_frame; [apply Hi|apply H|apply H|]. by apply (lock_step_view lists i).
  - eapply danger_ok_mono; [apply Hi|intros a b; apply (lock_step_edges i st st' H)|]. intros j x' E.
    pose proof (lock_step_view (λ x, (core x, is_ x FLAG_DOOMED)) i st st' H (λ x, eq_refl) j) as Hv.
    destruct (fmap_view _ _ _ Hv x' E) as (x & Ex & Hx). exists x. split; [done|].
    apply core_flags_le; [exact (f_equal fst Hx)|]. by rewrite (f_equal snd Hx : is_ x' _ = is_ x _).
  - intros j x x' E E'.
    pose proof (lock_step_view (λ x, (possible_unsafe x, is_ x FLAG_DOOMED)) i st st' H (λ x, eq_refl) j) as Hv.
    rewrite E, E' in Hv. injection Hv as -> ->. done.
Qed.

(** The lock table after a change to one transaction's locks. *)
Lemma locks_ok_put st st' i x' : locks_ok st → (∀ j, sxact st' j = if decide (j = i) then Some x' else sxact st j) →
  (∀ u h', targets st' !! u = Some h' → h' ≠ [] ∧ NoDup h' ∧ (i ∈ h' → u ∈ locks x') ∧
     ∀ j, j ≠ i → j ∈ h' → ∃ h, targets st !! u = Some h ∧ j ∈ h) →
  (∀ u h j, targets st !! u = Some h → j ∈ h → j ≠ i → ∃ h', targets st' !! u = Some h' ∧ j ∈ h') →
  NoDup (locks x') → (∀ u, u ∈ locks x' → ∃ h', targets st' !! u = Some h' ∧ i ∈ h') →
  (∀ u, is_held x' u = true → u ∈ locks x') → locks_ok st'.
Proof.
  intros [H1 H2 H3] Hs Ht Hold Hnd Hl Hh. split.
  - intros u h' (Hne & Hd & Hin & Hj)%Ht. split_and!; [done..|]. intros j Hjh. rewrite Hs.
    case_decide as E; [subst; eauto|]. destruct (Hj j E Hjh) as (h & Hh' & Hjh').
    destruct (H1 u h Hh') as (_ & _ & Hx). by apply Hx.
  - intros j x. rewrite Hs. case_decide as E; [intros [= <-]; subst; eauto|]. intros Ex.
    destruct (H2 j x Ex) as [Hn Hx]. split; [done|]. intros u Hu. destruct (Hx u Hu) as (h & Hh' & Hj). eauto.
  - intros j x u. rewrite Hs. case_decide as E; [intros [= <-]; auto|]. by apply H3.
Qed.

Lemma lock_step_put i x x' tg st : sxact st i = Some x →
  set_locks [] (set_local ∅ x') = set_locks [] (set_local ∅ x) →
  lock_step i st (put_sxact i (Some x') (set_targets tg st)).
Proof.
  intros Hx Hu. assert (Hsl : is_Some (sxacts (set_targets tg st) !! i)) by (by eapply (sxact_slot st)).
  split; try done.
  - intros j Hj. by rewrite sxact_put, decide_False.
  - rewrite sxact_put, decide_True by done. rewrite Hx. cbn. by rewrite Hu.
Qed.

Lemma put_targets st i x x' tg j : sxact st i = Some x →
  sxact (put_sxact i (Some x') (set_targets tg st)) j = if decide (j = i) then Some x' else sxact st j.
Proof. intros Hx. apply (sxact_put (set_targets tg st)). exact (sxact_slot st i x Hx). Qed.

(** Counts of children only. *)
Lemma locks_ok_local st i x x' : locks_ok st → sxact st i = Some x → locks x' = locks x →
  (∀ u, is_held x' u = true → is_held x u = true) → locks_ok (put_sxact i (Some x') st).
Proof.
  intros Hl Hx El Hh. pose proof Hl as [H1 H2 H3]. destruct (H2 i x Hx) as [Hn Hx2].
  eapply (locks_ok_put st _ i x'); [done|intros; by apply sxact_put, (sxact_slot _ _ x)| | |rewrite El; eauto..].
  - intros u h' Hu. destruct (H1 u h' Hu) as (? & ? & Hj). split_and!; [done|done| |eauto].
    intros Hi. destruct (Hj i Hi) as (y & Hy & ?). rewrite El. congruence.
  - eauto.
Qed.

(** A lock entered in the table, and in the locks of its holder. *)
Lemma locks_ok_add st i x x' t : locks_ok st → sxact st i = Some x →
  let h := default [] (targets st !! t) in
  (locks x' = if decide (i ∈ h) then locks x else locks x ++ [t]) →
  (∀ u, is_held x' u = true → u = t ∨ is_held x u = true) →
  locks_ok (put_sxact i (Some x') (set_targets (<[t := if decide (i ∈ h) then h else h ++ [i]]> (targets st)) st)).
Proof.
  intros Hl Hx h El Hh. pose proof Hl as [H1 H2 H3]. destruct (H2 i x Hx) as [Hn Hx2].
  assert (Hhd : NoDup h ∧ ∀ j, j ∈ h → ∃ y, sxact st j = Some y ∧ t ∈ locks y).
  { subst h. destruct (targets st !! t) as [h|] eqn:E; cbn; [destruct (H1 t h E) as (_ & ? & ?); auto|].
    split; [constructor|]. intros j Hj. elem_nil. }
  assert (Ht : t ∈ locks x → i ∈ h).
  { intros (h0 & E & Hi0)%Hx2. subst h. by rewrite E. }
  assert (Hin : t ∈ locks x' ∧ ∀ u, u ∈ locks x' → u = t ∨ u ∈ locks x).
  { rewrite El. case_decide as Hd; [|set_solver]. destruct (proj2 Hhd i Hd) as (y & Ey & Hy). simplify_eq. auto. }
  eapply (locks_ok_put st _ i x'); [done|intros; by eapply put_targets|..]; cbn [targets set_targets put_sxact set_sxacts].
  - intros u h'. destruct (decide (u = t)) as [->|Hu].
    + rewrite lookup_insert_eq. intros [= <-]. case_decide as Hd.
      * split_and!; [by intros E0; rewrite E0 in Hd; apply not_elem_of_nil in Hd|apply Hhd|by intros _; apply Hin|]. 
        intros j Hj Hjh. subst h. destruct (targets st !! t) as [h|]; cbn in *; [eauto|elem_nil].
      * split_and!; [by destruct h|by apply NoDup_snoc; [apply Hhd|]|by intros _; apply Hin|].
        intros j Hj [Hjh| ->%list_elem_of_singleton]%elem_of_app; [|done].
        subst h. destruct (targets st !! t) as [h|]; cbn in *; [eauto|elem_nil].
    + rewrite lookup_insert_ne by done. intros E. destruct (H1 u h' E) as (? & ? & Hj). split_and!; [done|done| |eauto].
      intros Hi. destruct (Hj i Hi) as (y & Hy & ?). assert (y = x) as -> by congruence. rewrite El. case_decide; [done|apply elem_of_app; by left].
  - intros u h0 j E Hj Hji. destruct (decide (u = t)) as [->|Hu]; [|rewrite lookup_insert_ne by done; eauto].
    rewrite lookup_insert_eq. eexists. split; [done|]. subst h. rewrite E. cbn. destruct (decide (i ∈ h0)); [done|apply elem_of_app; by left].
  - rewrite El. case_decide as Hd; [done|]. apply NoDup_app. split_and!; [done| |apply NoDup_singleton].
    intros u Hu ->%list_elem_of_singleton. auto.
  - intros u Hu. destruct (decide (u = t)) as [->|Hut].
    + rewrite lookup_insert_eq. eexists. split; [done|]. case_decide; [done|apply elem_of_app; right; by apply list_elem_of_singleton].
    + rewrite lookup_insert_ne by done. destruct (proj2 Hin u Hu); [done|]. by apply Hx2.
  - intros u [-> |Hu]%Hh; [apply Hin|]. apply (H3 i x) in Hu; [|done]. rewrite El. case_decide; [done|apply elem_of_app; by left].
Qed.

(** A lock taken off the table and off its holder. *)
Lemma unhold_targets i t st : ∃ tg, unhold i t st = set_targets tg st ∧
  (∀ u, u ≠ t → tg !! u = targets st !! u) ∧
  (∀ h', tg !! t = Some h' → h' ≠ [] ∧ ∃ h, targets st !! t = Some h ∧ h' = filter (λ x, x ≠ i) h) ∧
  (∀ h j, targets st !! t = Some h → j ∈ h → j ≠ i → ∃ h', tg !! t = Some h' ∧ j ∈ h').
Proof.
  unfold unhold. destruct (targets st !! t) as [h|] eqn:E.
  - eexists. split; [done|]. set (h' := filter (λ x, x ≠ i) h).
    assert (Hj : ∀ j, j ∈ h → j ≠ i → j ∈ h') by (intros; by apply list_elem_of_filter).
    split_and!.
    + intros u Hu. destruct h'; [by rewrite lookup_delete_ne|by rewrite lookup_insert_ne].
    + intros h0. destruct h' as [|a l] eqn:Eh; [by rewrite lookup_delete_eq|].
      rewrite lookup_insert_eq. intros [= <-]. split; [done|]. exists h. by rewrite <- Eh.
    + intros ? j [= <-] Hin Hne. specialize (Hj j Hin Hne). destruct h' as [|a l]; [elem_nil|].
      rewrite lookup_insert_eq. eauto.
  - exists (targets st). split_and!; [by destruct st|done|congruence|congruence].
Qed.

Lemma locks_ok_drop st i x x' t : locks_ok st → sxact st i = Some x → locks x' = filter (λ y, y ≠ t) (locks x) →
  (∀ u, is_held x' u = true → u ≠ t ∧ is_held x u = true) → locks_ok (put_sxact i (Some x') (unhold i t st)).
Proof.
  intros Hl Hx El Hh. pose proof Hl as [H1 H2 H3]. destruct (H2 i x Hx) as [Hn Hx2].
  destruct (unhold_targets i t st) as (tg & -> & Ho & Ht & Hold).
  eapply (locks_ok_put st _ i x'); [done|intros; by eapply put_targets|..]; cbn [targets set_targets put_sxact set_sxacts].
  - intros u h'. destruct (decide (u = t)) as [->|Hu].
    + intros (Hne & h & E & ->)%Ht. destruct (H1 t h E) as (_ & Hd & Hj). split_and!; [done|by apply NoDup_filter| |].
      * intros [? _]%list_elem_of_filter. done.
      * intros j Hji [_ Hjh]%list_elem_of_filter. eauto.
    + rewrite Ho by done. intros E. destruct (H1 u h' E) as (? & ? & Hj). split_and!; [done|done| |eauto].
      intros Hi. destruct (Hj i Hi) as (y & Hy & ?). rewrite El. apply list_elem_of_filter. by simplify_eq.
  - intros u h j E Hj Hji. destruct (decide (u = t)) as [->|Hu]; [by eapply Hold|rewrite Ho by done; eauto].
  - rewrite El. by apply NoDup_filter.
  - intros u. rewrite El. intros [Hu (h & E & Hi)%Hx2]%list_elem_of_filter. rewrite Ho by done. eauto.
  - intros u [Hu Hhe]%Hh. rewrite El. apply list_elem_of_filter. split; [done|]. by apply (H3 i x).
Qed.

(** ** The operations *)

Section ops.
Context (ph : phase) (i : nat).

Lemma wp_local f st x (Q : Failure + () → State → Prop) : inv ph st → sxact st i = Some x →
  set_locks [] (set_local ∅ (f x)) = set_locks [] (set_local ∅ x) → locks (f x) = locks x →
  (∀ u, is_held (f x) u = true → is_held x u = true) →
  (∀ st', inv ph st' → lock_step i st st' → sxact st' i = Some (f x) → Q (inr ()) st') → wp (sx_mut i f) Q st.
Proof.
  intros Hi Hx Hu Hl Hh HQ. eapply wp_sx_mut; [done|]. set (st' := put_sxact i (Some (f x)) st).
  assert (Hs : sxact st' i = Some (f x)).
  { unfold st'. rewrite sxact_put, decide_True; [done|done|]. by eapply sxact_slot. }
  assert (Hstep : lock_step i st st').
  { replace st' with (put_sxact i (Some (f x)) (set_targets (targets st) st)) by (by destruct st).
    by apply (lock_step_put i x). }
  assert (Hlk : locks_ok st') by (eapply locks_ok_local; [apply Hi|done..]).
  destruct (inv_lock_step _ _ _ _ Hi Hstep Hlk). auto.
Qed.

Lemma dec_child_local t x : set_locks [] (set_local ∅ (dec_child t x)) = set_locks [] (set_local ∅ x) ∧
  locks (dec_child t x) = locks x ∧ ∀ u, is_held (dec_child t x) u = true → is_held x u = true.
Proof.
  unfold dec_child. destruct (local x !! t) as [l|] eqn:E; [|done].
  destruct (_ && _); (split_and!; [done|done|]); intros u; unfold is_held; cbn;
    (destruct (decide (u = t)) as [->|Hu];
      [rewrite ?lookup_delete_eq, ?lookup_insert_eq, ?E; done|rewrite ?lookup_delete_ne, ?lookup_insert_ne by done; done]).
Qed.

Lemma inc_child_local t x : set_locks [] (set_local ∅ (inc_child t x)) = set_locks [] (set_local ∅ x) ∧
  locks (inc_child t x) = locks x ∧ ∀ u, is_held (inc_child t x) u = true → is_held x u = true.
Proof.
  unfold inc_child. split_and!; [done|done|]. intros u. unfold is_held. cbn.
  destruct (decide (u = t)) as [->|Hu]; [rewrite lookup_insert_eq|by rewrite lookup_insert_ne].
  by destruct (local x !! t).
Qed.

Lemma wp_decrement_parents t st x (Q : Failure + () → State → Prop) : inv ph st → sxact st i = Some x →
  (∀ st' x', inv ph st' → lock_step i st st' → sxact st' i = Some x' → locks x' = locks x →
     (∀ u, is_held x' u = true → is_held x u = true) → Q (inr ()) st') → wp (decrement_parents i t) Q st.
Proof.
  intros Hi Hx HQ. unfold decrement_parents.
  apply (wp_for_each _ _ (λ _ st', inv ph st' ∧ lock_step i st st' ∧ ∃ x', sxact st' i = Some x' ∧ locks x' = locks x ∧
    ∀ u, is_held x' u = true → is_held x u = true)).
  - eauto 10 using lock_step_refl.
  - intros p l st1 (Hi1 & Hs1 & x1 & E1 & El1 & Eh1). destruct (dec_child_local p x1) as (A & B & C).
    eapply wp_local; [done|done|done|done|done|]. intros st2 Hi2 Hs2 E2.
    split_and!; [done|by eapply lock_step_trans|]. exists (dec_child p x1). split_and!; [done|congruence|auto].
  - intros st' (? & ? & x' & ? & ? & ?). by eapply HQ.
Qed.

(** [remove_lock] with the local table, as every caller does. *)
Lemma wp_drop t st x (Q : Failure + () → State → Prop) : inv ph st → sxact st i = Some x →
  (∀ st' x', inv ph st' → lock_step i st st' → sxact st' i = Some x' → locks x' = filter (λ y, y ≠ t) (locks x) →
     (∀ u, is_held x' u = true → is_held x u = true) → Q (inr ()) st') →
  wp (_ ← remove_lock i t; _ ← sx_mut i (drop_local t); decrement_parents i t) Q st.
Proof.
  intros Hi Hx HQ. unfold remove_lock. apply wp_bind, wp_modify. apply wp_bind.
  set (x1 := drop_local t (drop_lock t x)).
  destruct (unhold_targets i t st) as (tg & Etg & _).
  assert (Hu : ∀ j, sxact (unhold i t st) j = sxact st j) by (intros; by rewrite Etg).
  assert (Ei : if_live i (drop_lock t) (unhold i t st) = put_sxact i (Some (drop_lock t x)) (unhold i t st)).
  { unfold if_live. by rewrite Hu, Hx. }
  rewrite Ei. assert (Hsl : is_Some (sxacts (unhold i t st) !! i)) by (eapply (sxact_slot _ _ x); by rewrite Hu).
  eapply (wp_sx_mut i (drop_lock t x)); [by rewrite sxact_put, decide_True|].
  set (st1 := put_sxact _ _ _).
  assert (E1 : st1 = put_sxact i (Some x1) (unhold i t st)).
  { unfold st1, put_sxact, set_sxacts. cbn. by rewrite list_insert_insert_eq. }
  assert (Hstep : lock_step i st st1) by (rewrite E1, Etg; by apply (lock_step_put i x)).
  assert (Hlk : locks_ok st1).
  { rewrite E1. eapply locks_ok_drop; [apply Hi|done|done|]. intros u. unfold is_held, x1. cbn.
    destruct (decide (u = t)) as [->|Hu']; [by rewrite lookup_delete_eq|by rewrite lookup_delete_ne]. }
  destruct (inv_lock_step _ _ _ _ Hi Hstep Hlk) as [Hi1 _].
  eapply (wp_decrement_parents t st1 x1); [done|by rewrite E1, sxact_put, decide_True|].
  intros st2 x2 Hi2 Hs2 E2 El2 Hh2. eapply (HQ st2 x2); [done|by eapply lock_step_trans|done|by rewrite El2|].
  intros u Hh%Hh2. revert Hh. unfold is_held, x1. cbn.
  destruct (decide (u = t)) as [->|Hu']; [by rewrite lookup_delete_eq|by rewrite lookup_delete_ne].
Qed.

(** Dropping the finer locks under a lock that is held loses nothing. *)
Lemma wp_delete_children t st x (Q : Failure + () → State → Prop) : inv ph st → sxact st i = Some x → t ∈ locks x →
  (∀ st' x', inv ph st' → lock_step i st st' → sxact st' i = Some x' → (∀ u, covers x u → covers x' u) →
     (∀ u, u ∈ locks x' → u ∈ locks x) → Q (inr ()) st') → wp (delete_children i t) Q st.
Proof.
  intros Hi Hx Ht HQ. unfold delete_children. apply wp_bind. eapply wp_sx; [done|].
  apply (wp_for_each _ _ (λ _ st', inv ph st' ∧ lock_step i st st' ∧ ∃ x', sxact st' i = Some x' ∧ t ∈ locks x' ∧
    (∀ u, u ∈ locks x → u ∈ locks x' ∨ covered_by u t = true) ∧ ∀ u, u ∈ locks x' → u ∈ locks x)).
  - split_and!; [done|apply lock_step_refl|]. exists x. auto.
  - intros old l st1 (Hi1 & Hs1 & x1 & E1 & Ht1 & Hc1 & Hb1). destruct (covered_by old t) eqn:Eo.
    + eapply wp_drop; [done|done|]. intros st2 x2 Hi2 Hs2 E2 El2 _.
      split_and!; [done|by eapply lock_step_trans|]. exists x2. split; [done|]. rewrite El2. split_and!.
      * apply list_elem_of_filter. split; [|done]. intros ->. by rewrite covered_by_irrefl in Eo.
      * intros u [Hu|Hu]%Hc1; [|by right]. destruct (decide (u = old)) as [->|Hne]; [by right|].
        left. by apply list_elem_of_filter.
      * intros u [_ Hu]%list_elem_of_filter. auto.
    + apply wp_ret. split_and!; [done|done|]. by exists x1.
  - intros st' (Hi' & Hs' & x' & E' & Ht' & Hc' & Hb'). eapply HQ; [done..| |done]. intros u Hu.
    apply (covers_mono x); [|done]. intros v [Hv|Hv]%Hc'; [by apply covers_in|]. exists t. auto.
Qed.

(** [create_lock], with the local table already updated or not. *)
Lemma wp_create_with t st x x1 (Q : Failure + () → State → Prop) : inv ph st → sxact st i = Some x →
  set_locks [] (set_local ∅ x1) = set_locks [] (set_local ∅ x) → locks x1 = locks x →
  (∀ u, is_held x1 u = true → u = t ∨ is_held x u = true) →
  (∀ st' x', inv ph st' → lock_step i st st' → sxact st' i = Some x' → t ∈ locks x' →
     (∀ u, u ∈ locks x → u ∈ locks x') → Q (inr ()) st') →
  wp (create_lock i t) Q (put_sxact i (Some x1) st).
Proof.
  intros Hi Hx Hu El Hh HQ. unfold create_lock. apply wp_bind, wp_self. cbn [targets put_sxact set_sxacts].
  set (h := default [] (targets st !! t)).
  set (x2 := if decide (i ∈ h) then x1 else set_locks (locks x1 ++ [t]) x1).
  set (st2 := put_sxact i (Some x2) (set_targets (<[t := if decide (i ∈ h) then h else h ++ [i]]> (targets st)) st)).
  assert (Hsl : is_Some (sxacts st !! i)) by (by eapply sxact_slot).
  assert (Hstep : lock_step i st st2).
  { apply (lock_step_put i x); [done|]. unfold x2. by case_decide. }
  assert (Hlk : locks_ok st2).
  { eapply (locks_ok_add st i x); [apply Hi|done| |].
    - unfold x2. fold h. case_decide; cbn; by rewrite El.
    - intros u. unfold x2. case_decide; apply Hh. }
  destruct (inv_lock_step _ _ _ _ Hi Hstep Hlk) as [Hi2 _].
  assert (Hs2 : sxact st2 i = Some x2) by (unfold st2; by erewrite put_targets, decide_True).
  assert (Ht : t ∈ locks x2).
  { unfold x2. case_decide as Hd; [|cbn; apply elem_of_app; right; by apply list_elem_of_singleton].
    rewrite El. unfold h in Hd. destruct (targets st !! t) as [h0|] eqn:E; [|elem_nil].
    destruct (l_targets _ (iv_locks _ _ Hi) _ _ E) as (_ & _ & Hj). destruct (Hj i Hd) as (y & Hy & ?). by simplify_eq. }
  assert (Hq : Q (inr ()) st2).
  { eapply HQ; [done..|]. intros u Hin. unfold x2. case_decide; cbn; rewrite El; [done|]. by apply elem_of_app_l. }
  unfold st2, x2 in Hq. clear -Hq Hsl. case_decide.
  - apply wp_modify. exact Hq.
  - apply wp_bind, wp_modify. eapply (wp_sx_mut i x1).
    + change (sxact (put_sxact i (Some x1) st) i = Some x1). by rewrite sxact_put, decide_True.
    + unfold put_sxact, set_sxacts in *. cbn in *. by rewrite list_insert_insert_eq.
Qed.

Lemma wp_create_lock t st x (Q : Failure + () → State → Prop) : inv ph st → sxact st i = Some x →
  (∀ st' x', inv ph st' → lock_step i st st' → sxact st' i = Some x' → t ∈ locks x' →
     (∀ u, u ∈ locks x → u ∈ locks x') → Q (inr ()) st') → wp (create_lock i t) Q st.
Proof.
  intros Hi Hx HQ. replace st with (put_sxact i (Some x) st); [by eapply wp_create_with; auto|].
  unfold put_sxact. rewrite list_insert_id by (by apply sxact_lookup). by destruct st.
Qed.

Lemma wp_count_children ts st x pr (Q : Failure + option Target → State → Prop) : inv ph st → sxact st i = Some x →
  (∀ st' x' o, inv ph st' → lock_step i st st' → sxact st' i = Some x' → locks x' = locks x →
     (o = pr ∨ ∃ p, o = Some p ∧ p ∈ ts) → Q (inr o) st') → wp (count_children i ts pr) Q st.
Proof.
  intros Hi Hx HQ. revert st x pr Hi Hx HQ. induction ts as [|t ts IH]; intros st x pr Hi Hx HQ; cbn [count_children].
  - apply wp_ret. eapply HQ; eauto using lock_step_refl.
  - apply wp_bind. destruct (inc_child_local t x) as (A & B & C). eapply wp_local; [done|done|done|done|done|].
    intros st1 Hi1 Hs1 E1. apply wp_bind. eapply wp_sx; [done|]. eapply IH; [done|done|].
    intros st2 x2 o Hi2 Hs2 E2 El2 Ho. eapply HQ; [done|by eapply lock_step_trans|done|congruence|].
    destruct Ho as [-> |(p & -> & Hp)].
    + destruct (_ <? _); [right; exists t; split; [done|]; by left|by left].
    + right. exists p. split; [done|]. by right.
Qed.

(** The depth of a target: a promotion always goes up. *)
Definition depth (t : Target) : nat := match t with TRelation _ _ => 0 | TPage _ _ _ => 1 | TTuple _ _ _ _ => 2 end.

Lemma ancestors_up t p : p ∈ ancestors t → (depth p < depth t)%nat ∧ covered_by t p = true.
Proof.
  destruct t; cbn; rewrite ?elem_of_cons; intros H; [elem_nil|..];
    repeat destruct H as [-> |H]; try (elem_nil); cbn; rewrite ?Z.eqb_refl; (split; [lia|done]).
Qed.

(** [PredicateLockAcquire]: the target is covered, and whatever was covered
    still is. *)
Lemma wp_acquire_fuel fuel t st x (Q : Failure + () → State → Prop) : inv ph st → sxact st i = Some x →
  (depth t < fuel)%nat →
  (∀ st' x', inv ph st' → lock_step i st st' → sxact st' i = Some x' → covers x' t → (∀ u, covers x u → covers x' u) →
     Q (inr ()) st') → wp (acquire_fuel fuel i t) Q st.
Proof.
  revert t st x. induction fuel as [|fuel IH]; intros t st x Hi Hx Hf HQ; [lia|]. cbn [acquire_fuel].
  apply wp_bind. unfold lock_exists at 1. apply wp_bind. eapply wp_sx; [done|]. apply wp_ret.
  pose proof (λ u, l_held _ (iv_locks _ _ Hi) i x u Hx) as Hheld.
  apply wp_bind. eapply (wp_mono _ (λ r st', st' = st ∧ ∃ b, r = inr b ∧ (b = true → covers x t))).
  { destruct (is_held x t) eqn:E.
    - apply wp_ret. split; [done|]. exists true. split; [done|]. intros _. by apply covers_in, Hheld.
    - unfold coarser_covers. apply (wp_any_of _ _ (is_held x)).
      + intros u _. unfold lock_exists, sx, mbind, meth_bind, self, expect. by rewrite Hx.
      + split; [done|]. eexists. split; [done|]. intros (u & Hu & Hh)%existsb_True.
        exists u. split; [by apply Hheld|]. right. by apply ancestors_up. }
  intros ? ? (-> & b & -> & Hb). destruct b; [apply wp_ret; eapply HQ; eauto using lock_step_refl|].
  apply wp_bind. eapply wp_sx_mut; [done|]. apply wp_bind.
  eapply (wp_create_with t st x (hold_local t x)); [done|done|done|done| |].
  { intros u. unfold is_held, hold_local. cbn. destruct (decide (u = t)) as [->|Hu]; [by left|].
    rewrite lookup_insert_ne by done. by right. }
  intros st1 x1 Hi1 Hs1 E1 Ht1 Hl1. apply wp_bind. eapply wp_count_children; [done|done|].
  intros st2 x2 o Hi2 Hs2 E2 El2 Ho.
  assert (Hc2 : covers x2 t ∧ ∀ u, covers x u → covers x2 u).
  { split; [apply covers_in; by rewrite El2|]. intros u. apply covers_mono. intros v Hv. apply covers_in. rewrite El2. auto. }
  assert (Hs02 : lock_step i st st2) by (by eapply lock_step_trans).
  destruct o as [p|].
  - destruct Ho as [?|(q & [= <-] & Hp)]; [done|]. apply ancestors_up in Hp as [Hd _].
    eapply (IH p st2 x2); [done|done|lia|]. intros st3 x3 Hi3 Hs3 E3 _ Hc3.
    eapply HQ; [done|by eapply lock_step_trans|done|apply Hc3, (proj1 Hc2)|]. intros u Hu. by apply Hc3, (proj2 Hc2).
  - destruct (is_tuple t); [apply wp_ret; eapply (HQ st2 x2); [done..|apply (proj1 Hc2)|apply (proj2 Hc2)]|].
    eapply (wp_delete_children t st2 x2); [done|done|by rewrite El2|]. intros st3 x3 Hi3 Hs3 E3 Hc3 _.
    eapply HQ; [done|by eapply lock_step_trans|done|apply Hc3, (proj1 Hc2)|]. intros u Hu. by apply Hc3, (proj2 Hc2).
Qed.

Lemma wp_acquire t st x (Q : Failure + () → State → Prop) : inv ph st → sxact st i = Some x →
  (∀ st' x', inv ph st' → lock_step i st st' → sxact st' i = Some x' → covers x' t → (∀ u, covers x u → covers x' u) →
     Q (inr ()) st') → wp (acquire i t) Q st.
Proof. intros. eapply wp_acquire_fuel; [done|done|destruct t; cbn; lia|done]. Qed.

End ops.
