(* ===== verification/SsiEnds.v ===== *)
(** * Serializable snapshot isolation: the ends of transactions

    [release_one], [new_global_xmin], [clear_old] and [release_at]: a finished
    transaction is forgotten with everything that refers to it.

    [ClearOldPredicateLocks] and [ReleasePredicateLocks]. *)
From S2P Require Import Prelude RustM Vec Bson Meth Ssi SsiWf SsiInv SsiLocks.
Local Open Scope Z_scope.

(** ** Forgetting a transaction *)

Lemma unhold_all i ts st : ∃ tg, foldl (λ st t, unhold i t st) st ts = set_targets tg st ∧
  (∀ u h', tg !! u = Some h' → ∃ h, targets st !! u = Some h ∧ (∀ j, j ∈ h' → j ∈ h) ∧ (u ∈ ts → i ∉ h') ∧
     (NoDup h → NoDup h') ∧ (h ≠ [] → h' ≠ [])) ∧
  (∀ u h j, targets st !! u = Some h → j ∈ h → j ≠ i → ∃ h', tg !! u = Some h' ∧ j ∈ h').
Proof.
  revert st. induction ts as [|t ts IH]; intros st; cbn [foldl].
  - exists (targets st). split_and!; [by destruct st| |eauto]. intros u h' E. exists h'.
    split_and!; [done|done|by intros ?%not_elem_of_nil|done|done].
  - destruct (unhold_targets i t st) as (tg1 & E1 & Ho & Ht & Hold).
    destruct (IH (unhold i t st)) as (tg & E & A & B). exists tg. rewrite E1 in *.
    split_and!; [by rewrite E| |].
    + intros u h' Hu. destruct (A u h' Hu) as (h & Hh & Hj & Hin & Hnd & Hne). cbn [targets set_targets] in Hh.
      destruct (decide (u = t)) as [->|Hut].
      * destruct (Ht h Hh) as (Hne1 & h0 & Hh0 & ->). exists h0. split_and!; [done| | | |].
        -- intros j [_ ?]%Hj%list_elem_of_filter. done.
        -- intros _ [? _]%Hj%list_elem_of_filter. done.
        -- intros. by apply Hnd, NoDup_filter.
        -- intros _. by apply Hne.
      * rewrite Ho in Hh by done. exists h. split_and!; [done..| |done|done]. intros [->|?]%elem_of_cons; [done|auto].
    + intros u h j Hh Hj Hji. destruct (decide (u = t)) as [->|Hut].
      * destruct (Hold h j Hh Hj Hji) as (h1 & Hh1 & Hj1). by apply (B t h1).
      * apply (B u h); [|done|done]. cbn. by rewrite Ho.
Qed.

Lemma wp_release_locks ph i x st (m : ssi ()) (Q : Failure + () → State → Prop) : inv ph st → sxact st i = Some x →
  (∀ st' x', inv ph st' → lock_step i st st' → sxact st' i = Some x' → locks x' = [] → lists x' = lists x → wp m Q st') →
  wp (_ ← sx_mut i (set_locks []); _ ← modify (λ st, foldl (λ st t, unhold i t st) st (locks x));
      _ ← sx_mut i (set_local ∅); m) Q st.
Proof.
  intros Hi Hx HQ. apply wp_bind. eapply wp_sx_mut; [done|]. apply wp_bind, wp_modify. apply wp_bind.
  set (st1 := put_sxact i _ st). destruct (unhold_all i (locks x) st1) as (tg & E & A & B). rewrite E.
  assert (Hsl : is_Some (sxacts st !! i)) by (by eapply sxact_slot).
  eapply (wp_sx_mut i (set_locks [] x)).
  { change (sxact st1 i = Some (set_locks [] x)). unfold st1. by rewrite sxact_put, decide_True. }
  set (x3 := set_local ∅ (set_locks [] x)). set (st3 := put_sxact _ _ _).
  assert (E3 : st3 = put_sxact i (Some x3) (set_targets tg st)).
  { unfold st3, st1, put_sxact, set_sxacts. cbn. by rewrite list_insert_insert_eq. }
  assert (Hstep : lock_step i st st3) by (rewrite E3; by apply (lock_step_put i x)).
  assert (Hlk : locks_ok st3).
  { pose proof (iv_locks _ _ Hi) as Hl. pose proof Hl as [H1 H2 _]. rewrite E3.
    eapply (locks_ok_put st _ i x3); [done|intros; by eapply put_targets|..]; cbn [targets set_targets put_sxact set_sxacts].
    - intros u h' (h & Hh & Hj & Hin & Hnd & Hne)%A. destruct (H1 u h Hh) as (? & ? & Hlv). split_and!; [auto|auto| |eauto].
      intros Hih. exfalso. destruct (Hlv i (Hj i Hih)) as (y & Hy & Hu). assert (y = x) as -> by congruence. by apply Hin.
    - apply B.
    - constructor.
    - intros u Hu. elem_nil.
    - intros u. unfold is_held. cbn. by rewrite lookup_empty. }
  destruct (inv_lock_step _ _ _ _ Hi Hstep Hlk) as [Hi3 _].
  eapply (HQ st3 x3); [done|done| |done|done]. rewrite E3. by erewrite put_targets, decide_True.
Qed.

(** The slot is freed. *)
Definition vacated (i : nat) (xid : option Z) (rolled_back : bool) (st st' : State) : Prop :=
  (∀ j, sxact st' j = if decide (j = i) then None else sxact st j) ∧
  conflicts st' = conflicts st ∧ free_conflicts st' = free_conflicts st ∧ targets st' = targets st ∧
  active st' = filter (λ y, y ≠ i) (active st) ∧ by_pid st' = by_pid st ∧ finished_list st' = finished_list st ∧
  global_xmin st' = global_xmin st ∧ global_xmin_count st' = global_xmin_count st ∧
  last_commit_seq st' = last_commit_seq st ∧
  xids st' = match xid with Some v => delete v (xids st) | None => xids st end ∧
  versions st' = match xid with Some v => forget_versions v rolled_back (versions st) | None => versions st end.

Lemma forget_versions_lookup xid rb vs k m : forget_versions xid rb vs !! k = Some m →
  m ≠ ∅ ∧ ∀ c v, m !! c = Some v → (is_Some (v_xmin v) ∨ is_Some (v_xmax v)) ∧
    ∃ m0 v0, vs !! k = Some m0 ∧ m0 !! c = Some v0 ∧
      ∀ w, v_xmin v = Some w ∨ v_xmax v = Some w → w ≠ xid ∧ (v_xmin v0 = Some w ∨ v_xmax v0 = Some w).
Proof.
  unfold forget_versions. rewrite map_lookup_filter_Some. cbn. intros [Hm Hne]. split; [done|].
  rewrite lookup_fmap in Hm. apply fmap_Some in Hm as (m0 & Hm0 & ->). intros c v Hv.
  rewrite lookup_omap in Hv. apply bind_Some in Hv as (v0 & Hv0 & Hf). revert Hf. unfold forget_version.
  destruct (_ && _); [done|].
  set (mn := if decide (v_xmin v0 = Some xid) then None else v_xmin v0).
  set (mx := if decide (v_xmax v0 = Some xid) then None else v_xmax v0).
  destruct (bool_decide (is_Some mn) || bool_decide (is_Some mx)) eqn:Eb; [|done]. intros [= <-]. cbn.
  split; [apply orb_true_iff in Eb; by rewrite !bool_decide_eq_true in Eb|].
  exists m0, v0. split_and!; [done|done|]. subst mn mx. intros w [Hw|Hw]; case_decide; naive_solver.
Qed.

Lemma cnt_drop ph ph' st st' g i l : runs_at ph st g i = false →
  (∀ j, j ≠ i → runs_at ph' st' g j = runs_at ph st g j) →
  cnt ph' st' g (filter (λ y, y ≠ i) l) = cnt ph st g l.
Proof.
  intros Hi Hj. unfold cnt. f_equal. induction l as [|j l IH]; [done|]. rewrite filter_cons. cbn.
  case_decide as E; cbn.
  - rewrite (Hj j E). destruct (runs_at ph st g j); cbn; by rewrite IH.
  - assert (j = i) as -> by (destruct (decide (j = i)); tauto). by rewrite Hi.
Qed.

Section vacated.
Context (ph : phase) (i : nat) (x : Sxact) (rb : bool) (st st' : State).
Context (Hph : ph = Ended i ∧ runs x = false ∨ ph = Starting i) (Hi : inv ph st) (Hx : sxact st i = Some x).
Context (Hlk : locks x = []) (Hlists : lists x = ([], [], [])) (Hvac : vacated i (top_xid x) rb st st').

Lemma vacated_subject : subject ph = Some i.
Proof. by destruct Hph as [[-> _]| ->]. Qed.

Lemma vacated_counts : counts ph i (runs x) = false ∧ ∀ j b, j ≠ i → counts ph j b = b.
Proof.
  destruct Hph as [[-> Hr]| ->]; cbn; [by rewrite Hr|].
  split; [rewrite bool_decide_true by done; apply andb_false_r|].
  intros j b Hj. by rewrite bool_decide_false, andb_true_r.
Qed.

(** The other transactions are those that were there. *)
Lemma vacated_old j y : sxact st' j = Some y → j ≠ i ∧ sxact st j = Some y.
Proof. rewrite (proj1 Hvac). by case_decide. Qed.

Lemma vacated_keeps j y : sxact st j = Some y → j ≠ i → sxact st' j = Some y.
Proof. intros E Hj. by rewrite (proj1 Hvac), decide_False. Qed.

Lemma vacated_conflict_at c : conflict_at st' c = conflict_at st c.
Proof. pose proof Hvac as (_ & Hc & _). unfold conflict_at. by rewrite Hc. Qed.

(** No conflict ends at the vacated slot. *)
Lemma vacated_ends c cf : conflict_at st c = Some cf → out cf ≠ i ∧ in_ cf ≠ i.
Proof.
  injection Hlists as Hout Hin Hpos.
  intros (y & z & Ey & Ez & _ & Hcase)%(g_used _ (iv_graph _ _ Hi)). split; intros E; subst i; simplify_eq;
    (destruct Hcase as [[H1 H2]|[H1 H2]]; rewrite ?Hout, ?Hin, ?Hpos in *; elem_nil || elem_nil).
Qed.

Lemma vacated_graph : graph_ok st'.
Proof.
  pose proof Hvac as (Hs & Hc & Hf & Ht & _).
  pose proof (iv_graph _ _ Hi) as [G1 G2 G3 G4 G5 G6 G7].
  split.
  + intros j y c [Hj Ey]%vacated_old Hcin. destruct (G1 j y c Ey Hcin) as (cf & z & E1 & E2 & E3 & E4 & E5).
    exists cf, z. rewrite vacated_conflict_at. split_and!; try done. apply vacated_keeps; [done|]. by apply (vacated_ends c).
  + intros j y c [Hj Ey]%vacated_old Hcin. destruct (G2 j y c Ey Hcin) as (cf & z & E1 & E2 & E3 & E4 & E5).
    exists cf, z. rewrite vacated_conflict_at. split_and!; try done. apply vacated_keeps; [done|]. by apply (vacated_ends c).
  + intros j y c [Hj Ey]%vacated_old Hcin. destruct (G3 j y c Ey Hcin) as (cf & k & z & E1 & E2 & E3 & E4 & E5).
    exists cf, k, z. rewrite vacated_conflict_at. split_and!; try done. apply vacated_keeps; [done|].
    destruct (vacated_ends c cf E1). destruct E2 as [[_ <-]|[_ <-]]; done.
  + intros c cf. rewrite vacated_conflict_at. intros E. destruct (vacated_ends c cf E). destruct (G4 c cf E) as (y & z & Ey & Ez & ? & ?).
    exists y, z. split_and!; auto using vacated_keeps.
  + intros j y [_ Ey]%vacated_old. by apply (G5 j).
  + intros c. rewrite Hf, Hc. apply G6.
  + by rewrite Hf.
Qed.

Lemma vacated_locks : locks_ok st'.
Proof.
  pose proof Hvac as (Hs & Hc & Hf & Ht & _).
  pose proof (iv_locks _ _ Hi) as [L1 L2 L3]. split.
  + intros u h. rewrite Ht. intros E. destruct (L1 u h E) as (? & ? & Hj). split_and!; [done..|].
    intros j Hjh. destruct (Hj j Hjh) as (y & Ey & Hy). exists y. split; [|done]. apply vacated_keeps; [done|].
    intros ->. simplify_eq. rewrite Hlk in Hy. elem_nil.
  + intros j y [_ Ey]%vacated_old. rewrite Ht. by apply (L2 j).
  + intros j y u [_ Ey]%vacated_old. by apply (L3 j).
Qed.

Lemma vacated_registry : registry_ok Idle st'.
Proof.
  pose proof Hvac as (Hs & Hc & Hf & Ht & Ha & Hb & Hfi & Hg & Hgc & Hl & Hxi & Hv).
  pose proof vacated_keeps as Hk. pose proof vacated_old as Hn. pose proof vacated_subject as Hsub. pose proof vacated_counts as Hcnt.
  pose proof (iv_registry _ _ Hi) as [R1 R2 R3 R4 R5 R6 R7 R8 R9]. rewrite Hsub in *. split; cbn [subject].
  + rewrite Ha. split; [apply NoDup_filter, R1|]. intros j. rewrite list_elem_of_filter, (proj2 R1 j), Hs.
    case_decide; [subst; split; [tauto|by intros [??]]|tauto].
  + intros p j. rewrite Hb. intros (Hj & y & Ey & Hy)%R2. split; [done|]. exists y. split; [|done].
    apply Hk; [done|congruence].
  + intros p q j. rewrite Hb. apply R3.
  + by rewrite Hfi.
  + intros j. rewrite Hfi. intros (Hj & y & Ey & Hy)%R5. split; [done|]. exists y. split; [|done].
    apply Hk; [done|congruence].
  + intros j y [Hj Ey]%Hn. rewrite Hb, Hfi. destruct (R6 j y Ey) as [?|[?|E]]; [by left|by right; left|congruence].
  + intros v j Hvj. assert (Hvj' : xids st !! v = Some j ∧ Some v ≠ top_xid x).
    { rewrite Hxi in Hvj. destruct (top_xid x) as [w|]; [|done].
      destruct (decide (v = w)) as [->|Hne]; [by rewrite lookup_delete_eq in Hvj|].
      rewrite lookup_delete_ne in Hvj by done. split; [done|congruence]. }
    destruct Hvj' as [(y & Ey & Hy)%R7 Hne]. exists y. split; [|done]. apply Hk; [done|]. intros ->. congruence.
  + intros k m. rewrite Hv. destruct (top_xid x) as [xid|] eqn:Et.
    * intros (Hm & Hcv)%forget_versions_lookup. split; [done|]. intros c v Hmc.
      destruct (Hcv c v Hmc) as (Hsome & m0 & v0 & Hm0 & Hv0 & Hw). split; [done|]. intros w Hww.
      destruct (Hw w Hww) as [Hne Hw0]. destruct (R8 k m0 Hm0) as [_ Hcv0]. destruct (Hcv0 c v0 Hv0) as [_ Hl0].
      destruct (Hl0 w Hw0) as (j & y & Ey & Hy). exists j, y. split; [|done]. apply Hk; [done|]. intros ->. congruence.
    * intros (Hm & Hcv)%R8. split; [done|]. intros c v (Hsome & Hw)%Hcv. split; [done|].
      intros w (j & y & Ey & Hy)%Hw. exists j, y. split; [|done]. apply Hk; [done|]. intros ->. congruence.
  + intros j y [Hj Ey]%Hn _ Hry. apply (R9 j y Ey); [congruence|done].
Qed.

Lemma vacated_xmin : xmin_ok Idle st'.
Proof.
  pose proof Hvac as (Hs & Hc & Hf & Ht & Ha & Hb & Hfi & Hg & Hgc & Hl & Hxi & Hv).
  pose proof vacated_subject as Hsub. pose proof vacated_counts as Hcnt.
  pose proof (iv_xmin _ _ Hi) as Hm. unfold xmin_ok in *. rewrite Hg. destruct (global_xmin st) as [g|].
  + rewrite Hgc, Ha, (cnt_drop ph Idle st st'); [done| |].
    * unfold runs_at. rewrite Hx. by rewrite (proj1 Hcnt).
    * intros j Hj. unfold runs_at. rewrite Hs, decide_False by done. destruct (sxact st j); [|done].
      cbn [counts]. by rewrite (proj2 Hcnt).
  + intros j y [Hj Ey]%vacated_old. cbn [counts]. rewrite <- (proj2 Hcnt j (runs y) Hj). by apply (Hm j).
Qed.

Lemma vacated_flags : flags_ok Idle st'.
Proof.
  pose proof Hvac as (Hs & Hc & Hf & Ht & Ha & Hb & Hfi & Hg & Hgc & Hl & Hxi & Hv).
  pose proof vacated_subject as Hsub. pose proof vacated_counts as Hcnt.
  pose proof (iv_flags _ _ Hi) as [F1 F2 F3 F4 F5]. split; rewrite ?Hl.
  + intros j y [_ Ey]%vacated_old. by apply (F1 j).
  + intros j y [_ Ey]%vacated_old. by apply (F2 j).
  + intros j y [_ Ey]%vacated_old. by apply (F3 j).
  + intros j y [Hj Ey]%vacated_old _. apply (F4 j y Ey). congruence.
  + intros j y [_ Ey]%vacated_old. by apply (F5 j).
Qed.

Lemma vacated_danger : danger_ok st'.
Proof.
  pose proof Hvac as (Hs & Hc & Hf & Ht & _).
  eapply danger_ok_mono; [apply Hi| |].
  + intros a b (y & c & cf & [_ Ey]%vacated_old & Hcin & Hcf & Hb'). rewrite vacated_conflict_at in Hcf. by exists y, c, cf.
  + intros j y [_ Ey]%vacated_old. eauto using flags_le_refl.
Qed.

Lemma inv_vacated : inv Idle st'.
Proof.
  split; auto using vacated_graph, vacated_locks, vacated_registry, vacated_xmin, vacated_flags, vacated_danger.
Qed.
End vacated.

Lemma filter_notin_all (l l' : list nat) : (∀ c, c ∈ l → c ∈ l') → filter (λ y, y ∉ l') l = [].
Proof.
  induction l as [|c l IH]; intros H; [done|]. rewrite filter_cons, decide_False.
  - apply IH. intros k Hk. apply H. by right.
  - intros Hn. apply Hn, H. by left.
Qed.

(** One of the lists of a transaction, all of it. *)
Lemma wp_release_list ph i x st (f : Sxact → list nat) (Q : Failure + () → State → Prop) : inv ph st → sxact st i = Some x →
  f = out_conflicts ∨ f = in_conflicts ∨ f = possible_unsafe →
  (∀ st' cs, inv ph st' → same_tx st st' → sxact st' i = Some (drop_all cs x) → f (drop_all cs x) = [] →
     released cs st st' → Q (inr ()) st') →
  wp (for_each (f x) release_conflict) Q st.
Proof.
  intros Hi Hx Hf HQ. destruct (g_nodup _ (iv_graph _ _ Hi) _ _ Hx) as (N1 & N2 & N3).
  eapply (keep_release_all ph st i x (f x)); [done|done| | |].
  - by destruct Hf as [-> |[-> | ->]].
  - intros c Hc. destruct Hf as [-> |[-> | ->]]; auto.
  - intros st' Hr Hi' Hs'. eapply HQ; [done|done| | |done].
    + by rewrite (r_sxact _ _ _ Hr), Hx.
    + destruct Hf as [-> |[-> | ->]]; cbn; by apply filter_notin_all.
Qed.

Definition gone (i : nat) (st st' : State) : Prop :=
  sxact st' i = None ∧ (∀ j, j ≠ i → core <$> sxact st' j = core <$> sxact st j) ∧
  by_pid st' = by_pid st ∧ finished_list st' = finished_list st ∧ global_xmin st' = global_xmin st ∧
  last_commit_seq st' = last_commit_seq st.

Lemma wp_release_one i x st (Q : Failure + () → State → Prop) : inv (Ended i) st → sxact st i = Some x →
  runs x = false → possible_unsafe x = [] →
  (∀ st', inv Idle st' → gone i st st' → Q (inr ()) st') → wp (release_one i false) Q st.
Proof.
  intros Hi Hx Hr Hp HQ. unfold release_one. apply wp_bind. eapply wp_sx; [done|].
  eapply wp_release_locks; [done|done|]. intros st1 x1 Hi1 Hs1 E1 El1 Ell1.
  destruct (inv_lock_step _ _ _ _ Hi Hs1 (iv_locks _ _ Hi1)) as [_ T1].
  apply wp_bind, wp_bind. eapply wp_sx; [done|].
  eapply (wp_release_list _ i x1 _ out_conflicts); [done|done|auto|]. intros st2 cs2 Hi2 T2 E2 Eo2 R2.
  apply wp_bind. eapply wp_sx; [done|]. apply wp_bind.
  eapply (wp_release_list _ i _ _ in_conflicts); [done|done|auto|]. intros st3 cs3 Hi3 T3 E3 Ei3 R3.
  set (x3 := drop_all cs3 (drop_all cs2 x1)) in *.
  apply wp_bind. eapply wp_sx; [done|].
  assert (Hp3 : possible_unsafe x3 = []).
  { injection Ell1 as _ _ Ep. subst x3. cbn. by rewrite Ep, Hp. }
  apply wp_bind, wp_modify. apply wp_bind, wp_modify. rewrite Hp3. cbn [for_each].
  apply wp_bind, wp_ret.
  assert (T : same_tx st st3) by (eapply same_tx_trans; [done|by eapply same_tx_trans]).
  assert (Hrun : runs x3 = false).
  { destruct (same_tx_new _ _ _ _ T E3) as (y & Ey & Hc). assert (y = x) as -> by congruence.
    by rewrite (core_runs _ _ Hc). }
  assert (Hsl : is_Some (sxacts st3 !! i)) by (by eapply sxact_slot).
  assert (Hfin : ∀ st', vacated i (top_xid x3) (is_ x3 FLAG_ROLLED_BACK) st3 st' → Q (inr ()) st').
  { intros st' Hv. apply HQ.
    - eapply (inv_vacated (Ended i) i x3); [by left|done|done|by subst x3| |done].
      unfold lists. rewrite Ei3, Hp3. subst x3. cbn in Eo2 |- *. by rewrite Eo2.
    - destruct Hv as (Hs & _ & _ & _ & _ & Hb & Hf & Hg & _ & Hl & _). pose proof (st_reg _ _ T) as [=].
      split_and!; try congruence; [by rewrite Hs, decide_True|]. intros j Hj. rewrite Hs, decide_False by done.
      apply (st_core _ _ T). }
  assert (Hs' : ∀ j, sxact (put_sxact i None st3) j = if decide (j = i) then None else sxact st3 j)
    by (intros; by apply sxact_put).
  destruct (top_xid x3) as [xid|].
  - apply wp_bind, wp_modify. apply wp_modify. apply Hfin. by split.
  - apply wp_ret. apply Hfin. by split.
Qed.

Lemma wp_release_partial ph i x st (Q : Failure + () → State → Prop) : inv ph st → sxact st i = Some x →
  (∀ st', inv ph st' → same_tx st st' → Q (inr ()) st') → wp (release_one i true) Q st.
Proof.
  intros Hi Hx HQ. unfold release_one. apply wp_bind. eapply wp_sx; [done|].
  eapply wp_release_locks; [done|done|]. intros st1 x1 Hi1 Hs1 E1 El1 Ell1.
  destruct (inv_lock_step _ _ _ _ Hi Hs1 (iv_locks _ _ Hi1)) as [_ T1].
  apply wp_bind, wp_ret. apply wp_bind. eapply wp_sx; [done|]. apply wp_bind.
  eapply (wp_release_list _ i _ _ in_conflicts); [done|done|auto|]. intros st2 cs2 Hi2 T2 E2 _ _.
  apply wp_ret. apply HQ; [done|by eapply same_tx_trans].
Qed.

(** ** The oldest snapshot *)

(** A recount from scratch, over the active transactions. *)
Definition recounted (st : State) (l : list nat) (g : option Z) (n : Z) : Prop :=
  match g with
  | None => ∀ i x, i ∈ l → sxact st i = Some x → runs x = false
  | Some g => n = cnt Idle st g l ∧ 0 < n ∧ ∀ i x, i ∈ l → sxact st i = Some x → runs x = true → g ≤ xmin (snap x)
  end.

Lemma cnt_snoc ph st g l i : cnt ph st g (l ++ [i]) = cnt ph st g l + (if runs_at ph st g i then 1 else 0).
Proof. unfold cnt. rewrite List.filter_app, length_app. cbn. destruct (runs_at ph st g i); cbn; lia. Qed.

Lemma cnt_none ph st g l : (∀ i, i ∈ l → runs_at ph st g i = false) → cnt ph st g l = 0.
Proof.
  unfold cnt. induction l as [|i l IH]; intros H; [done|]. cbn. rewrite (H i) by left.
  apply IH. intros. apply H. by right.
Qed.

Definition set_xmin (g : option Z) (n : Z) (st : State) : State := set_global_xmin_count n (set_global_xmin g st).

Lemma recounted_skip st l i x g n : recounted st l g n → sxact st i = Some x → runs x = false →
  recounted st (l ++ [i]) g n.
Proof.
  intros H Hx Hr. destruct g as [g|]; cbn in *.
  - destruct H as (-> & Hp & Hle). rewrite cnt_snoc. unfold runs_at. rewrite Hx. cbn. rewrite Hr. cbn.
    split_and!; [lia|lia|]. intros j y [Hj| ->%list_elem_of_singleton]%elem_of_app Ey Hy; [eauto|congruence].
  - intros j y [Hj| ->%list_elem_of_singleton]%elem_of_app Ey; [eauto|congruence].
Qed.

Lemma recounted_new st l i x : sxact st i = Some x → runs x = true →
  (∀ j y, j ∈ l → sxact st j = Some y → runs y = true → xmin (snap x) < xmin (snap y)) →
  recounted st (l ++ [i]) (Some (xmin (snap x))) 1.
Proof.
  intros Hx Hr Hlt. cbn. rewrite cnt_snoc, cnt_none.
  - unfold runs_at. rewrite Hx. cbn. rewrite Hr, Z.eqb_refl. split_and!; [done|done|].
    intros j y [Hj| ->%list_elem_of_singleton]%elem_of_app Ey Hy; [|simplify_eq; lia].
    specialize (Hlt j y Hj Ey Hy). lia.
  - intros j Hj. unfold runs_at. destruct (sxact st j) as [y|] eqn:Ey; [|done]. cbn.
    destruct (runs y) eqn:Hy; [|done]. specialize (Hlt j y Hj Ey Hy). cbn. apply Z.eqb_neq. lia.
Qed.

Lemma recounted_same st l i x n : recounted st l (Some (xmin (snap x))) n → sxact st i = Some x → runs x = true →
  recounted st (l ++ [i]) (Some (xmin (snap x))) (n + 1).
Proof.
  intros (-> & Hp & Hle) Hx Hr. cbn. rewrite cnt_snoc. unfold runs_at. rewrite Hx. cbn. rewrite Hr, Z.eqb_refl. cbn.
  split_and!; [done|lia|]. intros j y [Hj| ->%list_elem_of_singleton]%elem_of_app Ey Hy; [eauto|simplify_eq; lia].
Qed.

Lemma recounted_later st l i x g n : recounted st l (Some g) n → sxact st i = Some x → g < xmin (snap x) →
  recounted st (l ++ [i]) (Some g) n.
Proof.
  intros (-> & Hp & Hle) Hx Hlt. cbn. rewrite cnt_snoc. unfold runs_at. rewrite Hx. cbn.
  replace (xmin (snap x) =? g) with false by (symmetry; apply Z.eqb_neq; lia). rewrite andb_false_r.
  split_and!; [lia|lia|]. intros j y [Hj| ->%list_elem_of_singleton]%elem_of_app Ey Hy; [eauto|simplify_eq; lia].
Qed.

Lemma wp_new_global_xmin st (Q : Failure + () → State → Prop) : (∀ i, i ∈ active st → is_Some (sxact st i)) →
  (∀ g n, recounted st (active st) g n → Q (inr ()) (set_xmin g n st)) → wp new_global_xmin Q st.
Proof.
  intros Hlive HQ. unfold new_global_xmin. apply wp_bind, wp_modify. apply wp_bind, wp_self.
  apply (wp_for_each _ _ (λ l st', ∃ l' g n, active st = l' ++ l ∧ st' = set_xmin g n st ∧ recounted st l' g n)).
  - exists [], None, 0. split_and!; [done|done|]. intros i x Hi. elem_nil.
  - intros i l st1 (l' & g & n & Ea & -> & Hrec).
    assert (is_Some (sxact st i)) as [x Hx] by (apply Hlive; rewrite Ea; apply elem_of_mid).
    apply wp_bind. eapply (wp_sx i x); [exact Hx|].
    assert (Hnext : ∀ g n, recounted st (l' ++ [i]) g n → ∃ l'' g' n', active st = l'' ++ l ∧
      set_xmin g n st = set_xmin g' n' st ∧ recounted st l'' g' n').
    { intros g' n' H. exists (l' ++ [i]), g', n'. by rewrite <- app_assoc. }
    destruct (is_ x FLAG_ROLLED_BACK || is_ x FLAG_COMMITTED) eqn:Er.
    + apply wp_ret, Hnext. eapply recounted_skip; [done|done|]. unfold runs.
      destruct (is_ x FLAG_ROLLED_BACK), (is_ x FLAG_COMMITTED); done.
    + apply wp_modify. cbn [global_xmin set_xmin set_global_xmin_count set_global_xmin].
      assert (Hrun : runs x = true).
      { unfold runs. apply orb_false_iff in Er as [-> ->]. done. }
      destruct g as [g|].
      * destruct (g <? xmin (snap x)) eqn:Elt; [apply Hnext; eapply recounted_later; [done|done|lia]|].
        destruct (xmin (snap x) =? g) eqn:Eeq.
        -- apply Z.eqb_eq in Eeq as <-. apply (Hnext _ (n + 1)). by apply recounted_same.
        -- apply (Hnext (Some (xmin (snap x))) 1). apply recounted_new; [done|done|].
           intros j y Hj Ey Hy. destruct Hrec as (_ & _ & Hle). specialize (Hle j y Hj Ey Hy). lia.
      * apply (Hnext (Some (xmin (snap x))) 1). apply recounted_new; [done|done|].
        intros j y Hj Ey Hy. specialize (Hrec j y Hj Ey). congruence.
  - intros st' (l' & g & n & Ea & -> & Hrec). rewrite app_nil_r in Ea. subst l'. by apply HQ.
Qed.

(** ** Between the phases *)

(** A change outside the transactions, conflicts and locks. *)
Lemma inv_registers ph ph' st st' : inv ph st → sxacts st' = sxacts st → conflicts st' = conflicts st →
  free_conflicts st' = free_conflicts st → targets st' = targets st →
  registry_ok ph' st' → xmin_ok ph' st' → flags_ok ph' st' → inv ph' st'.
Proof.
  intros Hi Hs Hc Hf Ht Hr Hm Hfl.
  assert (Hsx : ∀ i, sxact st' i = sxact st i) by (intros; unfold sxact; by rewrite Hs).
  split; [|by eapply locks_ok_frame; [apply Hi|..]; intros; rewrite ?Hsx|done|done|done|].
  - eapply graph_ok_frame; [apply Hi|done|done|]. intros. by rewrite Hsx.
  - eapply danger_ok_mono; [apply Hi| |].
    + apply edge_lists; [|done]. intros. by rewrite Hsx.
    + intros i x'. rewrite Hsx. eauto using flags_le_refl.
Qed.

Lemma xmin_ok_counts ph ph' st st' : xmin_ok ph st → sxacts st' = sxacts st → active st' = active st →
  global_xmin st' = global_xmin st → global_xmin_count st' = global_xmin_count st →
  (∀ i x, sxact st i = Some x → counts ph' i (runs x) = counts ph i (runs x)) → xmin_ok ph' st'.
Proof.
  intros H Hs Ha Hg Hgc Hc. assert (Hsx : ∀ i, sxact st' i = sxact st i) by (intros; unfold sxact; by rewrite Hs).
  unfold xmin_ok in *. rewrite Hg. destruct (global_xmin st) as [g|].
  - rewrite Hgc, Ha. erewrite cnt_ext; [done|]. intros i _. unfold runs_at. rewrite Hsx.
    destruct (sxact st i) as [x|] eqn:E; [|done]. by rewrite (Hc i x).
  - intros i x. rewrite Hsx. intros E. rewrite (Hc i x E). by apply (H i).
Qed.

(** A finished transaction taken off the list. *)
Lemma inv_unfinish st k f : inv Idle st → finished_list st !! k = Some f →
  inv (Ended f) (set_finished_list (delete k (finished_list st)) st).
Proof.
  intros Hi Hk. pose proof (iv_registry _ _ Hi) as [R1 R2 R3 R4 R5 R6 R7 R8 R9]. cbn [subject] in *.
  destruct (R5 f) as (_ & x & Hx & Hcm); [by eapply list_elem_of_lookup_2|].
  assert (Hper : finished_list st ≡ₚ (f :: delete k (finished_list st))) by (by apply delete_Permutation).
  assert (Hnd : f ∉ delete k (finished_list st) ∧ NoDup (delete k (finished_list st))).
  { rewrite Hper in R4. by apply NoDup_cons in R4. }
  eapply inv_registers; [done..| | |].
  - split; cbn [subject]; try done.
    + intros p j E. destruct (R2 p j E) as (_ & y & Ey & Hy). split; [|by exists y]. intros [= ->]. simplify_eq.
      unfold runs in Hy. by rewrite Hcm in Hy.
    + apply Hnd.
    + cbn. intros j Hj. destruct (R5 j) as (_ & y & Ey & Hy); [rewrite Hper; by right|]. split; [|by exists y].
      intros [= ->]. by apply Hnd.
    + cbn. intros j y Ey. destruct (R6 j y Ey) as [Hj|[?|?]]; [|auto|done]. rewrite Hper in Hj.
      apply elem_of_cons in Hj as [->|?]; auto.
    + cbn. intros j y Ey _. by apply (R9 j).
  - eapply xmin_ok_counts; [apply Hi|done..].
  - pose proof (iv_flags _ _ Hi) as [F1 F2 F3 F4 F5]. split; try done. intros j y Ey _. by apply (F4 j).
Qed.

(** A backend's transaction starts to end. *)
Lemma inv_leave st pid me : inv Idle st → by_pid st !! pid = Some me →
  inv (Ending me) (set_by_pid (delete pid (by_pid st)) st).
Proof.
  intros Hi Hk. pose proof (iv_registry _ _ Hi) as [R1 R2 R3 R4 R5 R6 R7 R8 R9]. cbn [subject] in *.
  destruct (R2 pid me Hk) as (_ & x & Hx & Hrun). eapply inv_registers; [done..| | |].
  - split; cbn [subject]; try done; cbn.
    + intros p j [Hp E]%lookup_delete_Some. destruct (R2 p j E) as (_ & y & Ey & Hy). split; [|by exists y].
      intros [= ->]. apply Hp. by eapply R3.
    + intros p q j [_ E]%lookup_delete_Some [_ E']%lookup_delete_Some. by eapply R3.
    + intros j Hj. destruct (R5 j Hj) as (_ & y & Ey & Hy). split; [|by exists y]. intros [= ->]. simplify_eq.
      unfold runs in Hrun. by rewrite Hy in Hrun.
    + intros j y Ey. destruct (R6 j y Ey) as [?|[[p Hp]|?]]; [auto| |done].
      destruct (decide (p = pid)) as [->|Hne]; [right; right; congruence|].
      right. left. exists p. by rewrite lookup_delete_ne.
    + intros j y Ey _. by apply (R9 j).
  - eapply xmin_ok_counts; [apply Hi|done..|]. intros j y Ey. cbn. case_bool_decide; [|by rewrite orb_false_r].
    subst. simplify_eq. by rewrite Hrun.
  - pose proof (iv_flags _ _ Hi) as [F1 F2 F3 F4 F5]. split; try done. intros j y Ey _. by apply (F4 j).
Qed.

(** The last step of a commit. *)
Lemma inv_finish st me x : inv (Ended me) st → sxact st me = Some x → is_ x FLAG_COMMITTED = true →
  is_ x FLAG_ROLLED_BACK = false → possible_unsafe x = [] →
  inv Idle (set_finished_list (finished_list st ++ [me]) st).
Proof.
  intros Hi Hx Hc Hrb Hp. pose proof (iv_registry _ _ Hi) as [R1 R2 R3 R4 R5 R6 R7 R8 R9]. cbn [subject] in *.
  eapply inv_registers; [done..| | |].
  - split; cbn [subject]; try done; cbn.
    + intros p j E. destruct (R2 p j E) as (_ & Hy). split; [done|exact Hy].
    + apply NoDup_snoc; [done|]. intros Hin. by destruct (R5 me Hin) as [? _].
    + intros j [Hj| ->%list_elem_of_singleton]%elem_of_app; [destruct (R5 j Hj) as (_ & ?); by split|eauto].
    + intros j y Ey. rewrite elem_of_app, list_elem_of_singleton.
      destruct (R6 j y Ey) as [?|[?|[= ?]]]; auto.
    + intros j y Ey _ Hr. change (sxact st j = Some y) in Ey. destruct (decide (j = me)) as [->|Hj]; [congruence|].
      apply (R9 j); [done|congruence|done].
  - eapply xmin_ok_counts; [apply Hi|done..].
  - pose proof (iv_flags _ _ Hi) as [F1 F2 F3 F4 F5]. split; try done. intros j y Ey _.
    change (sxact st j = Some y) in Ey. destruct (decide (j = me)) as [->|Hj]; [congruence|]. apply (F4 j); [done|cbn; congruence].
Qed.

(** The flags of the transaction that ends. *)
Lemma inv_mark me x x' st n : inv (Ending me) st → sxact st me = Some x → last_commit_seq st ≤ n →
  lists x' = lists x → (locks x', local x') = (locks x, local x) → top_xid x' = top_xid x → snap x' = snap x →
  flags_le x x' →
  (is_ x' FLAG_PREPARED = true → is_ x' FLAG_DOOMED = false ∧ prepare_seq x' ≤ n) →
  (is_ x' FLAG_COMMITTED = true → is_ x' FLAG_PREPARED = true ∧ prepare_seq x' < commit_seq x' ≤ n) →
  is_ x' FLAG_SUMMARY_CONFLICT_IN = is_ x FLAG_SUMMARY_CONFLICT_IN →
  is_ x' FLAG_SUMMARY_CONFLICT_OUT = is_ x FLAG_SUMMARY_CONFLICT_OUT →
  inv (Ending me) (put_sxact me (Some x') (set_last_commit_seq n st)).
Proof.
  intros Hi Hx Hn Hli Hlk Ht Hsn Hle Hp Hcm Hs1 Hs2. set (st' := put_sxact me _ _).
  assert (Hs : ∀ j, sxact st' j = if decide (j = me) then Some x' else sxact st j).
  { intros j. apply (sxact_put (set_last_commit_seq n st)). exact (sxact_slot st me x Hx). }
  assert (Hold : ∀ j y, sxact st j = Some y → ∃ y', sxact st' j = Some y' ∧ top_xid y' = top_xid y).
  { intros j y E. rewrite Hs. case_decide; [subst; simplify_eq; exists x'; by rewrite Ht|eauto]. }
  assert (Hnew : ∀ j y', sxact st' j = Some y' → (j = me ∧ y' = x') ∨ (j ≠ me ∧ sxact st j = Some y')).
  { intros j y'. rewrite Hs. case_decide; naive_solver. }
  assert (Hlists : ∀ j, lists <$> sxact st' j = lists <$> sxact st j).
  { intros j. rewrite Hs. case_decide; [subst|done]. rewrite Hx. cbn. by rewrite Hli. }
  split.
  - eapply graph_ok_frame; [apply Hi|done|done|done].
  - eapply locks_ok_frame; [apply Hi|done|]. intros j. rewrite Hs. case_decide; [subst|done]. rewrite Hx. cbn. by rewrite Hlk.
  - pose proof (iv_registry _ _ Hi) as [R1 R2 R3 R4 R5 R6 R7 R8 R9]. cbn [subject] in *. split; cbn [subject]; try done.
    + split; [apply R1|]. intros j. change (active st') with (active st). rewrite (proj2 R1 j), Hs.
      case_decide; [subst|done]. rewrite Hx. split; by eexists.
    + intros p j E. destruct (R2 p j E) as (Hj & y & Ey & Hy). split; [done|].
      exists y. rewrite Hs, decide_False by congruence. done.
    + intros j E. destruct (R5 j E) as (Hj & y & Ey & Hy). split; [done|].
      exists y. rewrite Hs, decide_False by congruence. done.
    + intros j y' [[-> _]|[_ Ey]]%Hnew; [by right; right|by apply (R6 j y')].
    + intros v j (y & Ey & Hy)%R7. destruct (Hold j y Ey) as (y' & Ey' & Ht'). exists y'. by rewrite Ht'.
    + intros k m (Hm & Hcv)%R8. split; [done|]. intros c v (Hsome & Hw)%Hcv. split; [done|].
      intros w (j & y & Ey & Hy)%Hw. destruct (Hold j y Ey) as (y' & Ey' & Ht'). exists j, y'. by rewrite Ht'.
    + intros j y' [[-> _]|[_ Ey]]%Hnew Hj; [done|]. by apply (R9 j).
  - pose proof (iv_xmin _ _ Hi) as Hm. unfold xmin_ok in *. cbn. destruct (global_xmin st) as [g|].
    + erewrite cnt_ext; [done|]. intros j _. unfold runs_at. rewrite Hs. case_decide; [subst|done]. rewrite Hx. cbn.
      by rewrite !(bool_decide_true (me = me)), !orb_true_r, Hsn by done.
    + exfalso. specialize (Hm me x Hx). cbn in Hm. by rewrite bool_decide_true, orb_true_r in Hm.
  - pose proof (iv_flags _ _ Hi) as [F1 F2 F3 F4 F5]. cbn [subject] in *. split; cbn.
    + intros j y' [[-> ->]|[_ Ey]]%Hnew; [done|]. intros H. destruct (F1 j y' Ey H). split; [done|lia].
    + intros j y' [[-> ->]|[_ Ey]]%Hnew; [done|]. intros H. destruct (F2 j y' Ey H). split; [done|lia].
    + intros j y' [[-> ->]|[_ Ey]]%Hnew; [rewrite (le_lcbs _ _ Hle); specialize (F3 me x Hx); lia|].
      specialize (F3 j y' Ey). lia.
    + intros j y' [[-> _]|[_ Ey]]%Hnew Hj; [done|]. by apply (F4 j).
    + intros j y' [[-> ->]|[_ Ey]]%Hnew; [rewrite Hs1, Hs2; by apply (F5 me)|by apply (F5 j)].
  - eapply danger_ok_mono; [apply Hi|by apply edge_lists|].
    intros j y' [[-> ->]|[_ Ey]]%Hnew; [eauto|eauto using flags_le_refl].
Qed.

(** ** Serializable snapshot isolation: [release] *)

(** What other backends see of a call that ends transactions. *)
Definition others (st st' : State) : Prop :=
  global_xmin st' = global_xmin st ∧ by_pid st' = by_pid st ∧
  ∀ p i, by_pid st !! p = Some i → core <$> sxact st' i = core <$> sxact st i.

Lemma others_refl st : others st st.
Proof. done. Qed.

Lemma others_trans st1 st2 st3 : others st1 st2 → others st2 st3 → others st1 st3.
Proof.
  intros (A1 & A2 & A3) (B1 & B2 & B3). split_and!; [congruence|congruence|].
  intros p i Hp. rewrite <- (A3 p i Hp). apply (B3 p). by rewrite A2.
Qed.

Lemma others_same st st' : same_tx st st' → others st st'.
Proof. intros H. pose proof (st_reg _ _ H) as [=]. split_and!; [done|done|]. intros. apply H. Qed.

(** A finished transaction forgotten. *)
Lemma wp_gone st k f (Q : Failure + () → State → Prop) : inv Idle st → finished_list st !! k = Some f →
  (∀ st', inv Idle st' → others st st' → finished_list st' = delete k (finished_list st) → Q (inr ()) st') →
  wp (_ ← modify (λ st, set_finished_list (delete k (finished_list st)) st);
      _ ← sx_mut f (set_finished false); release_one f false) Q st.
Proof.
  intros Hi Hk HQ. pose proof (iv_registry _ _ Hi) as Hreg.
  destruct (rg_fin _ _ Hreg f) as (_ & x & Hx & Hcm); [by eapply list_elem_of_lookup_2|].
  assert (Hrun : runs x = false) by (unfold runs; by rewrite Hcm).
  assert (Hp : possible_unsafe x = []) by (by apply (rg_quiet _ _ Hreg f)).
  pose proof (inv_unfinish _ _ _ Hi Hk) as Hi1. apply wp_bind, wp_modify. apply wp_bind.
  set (st1 := set_finished_list _ st) in *. eapply (wp_sx_mut f x); [done|].
  destruct (inv_view _ _ _ _ (set_finished false) Hi1 (Hx : sxact st1 f = Some x) eq_refl) as [Hi2 T2].
  set (st2 := put_sxact f _ st1) in *.
  eapply (wp_release_one f (set_finished false x)); [done| |done|done|].
  { unfold st2. rewrite sxact_put, decide_True; [done|done|]. exact (sxact_slot st f x Hx). }
  intros st3 Hi3 (_ & Hj & Hb & Hf & Hg & _). apply HQ; [done| |done]. split_and!; [done|done|].
  intros p i E. destruct (rg_pid _ _ Hreg p i E) as (_ & y & Ey & Hy).
  assert (i ≠ f) by congruence. rewrite Hj by done. apply (st_core _ _ T2).
Qed.

Lemma wp_clear_old_loop fuel k st (Q : Failure + () → State → Prop) : inv Idle st →
  (length (finished_list st) - k < fuel)%nat →
  (∀ st', inv Idle st' → others st st' → (global_xmin st = None → k = O → finished_list st' = []) → Q (inr ()) st') →
  wp (clear_old_loop fuel k) Q st.
Proof.
  revert k st. induction fuel as [|fuel IH]; intros k st Hi Hf HQ; [lia|]. cbn [clear_old_loop].
  apply wp_bind, wp_self. destruct (finished_list st !! k) as [f|] eqn:Hk.
  2: { apply wp_ret, HQ; [done|apply others_refl|]. intros _ ->. by destruct (finished_list st). }
  pose proof (lookup_lt_Some _ _ _ Hk) as Hlt.
  destruct (rg_fin _ _ (iv_registry _ _ Hi) f) as (_ & x & Hx & Hcm); [by eapply list_elem_of_lookup_2|].
  apply wp_bind. eapply wp_sx; [done|].
  assert (Hlen : length (delete k (finished_list st)) = (length (finished_list st) - 1)%nat).
  { rewrite length_delete; [lia|by eexists]. }
  destruct (match global_xmin st with None => true | Some y => finished_before x <=? y end) eqn:Eg.
  - apply wp_bind. eapply wp_gone; [done|done|]. intros st1 Hi1 O1 Ef1. apply IH; [done|rewrite Ef1, Hlen; lia|].
    intros st2 Hi2 O2 Hn2. apply HQ; [done|by eapply others_trans|]. intros Hg. apply Hn2. destruct O1 as [-> _]. done.
  - destruct (_ && _); [|apply wp_ret, HQ; [done|apply others_refl|]; intros Hg; by rewrite Hg in Eg].
    apply wp_bind. eapply (wp_mono _ (λ r st1, ∃ j, r = inr j ∧ inv Idle st1 ∧ others st st1 ∧
      (length (finished_list st1) - j < fuel)%nat)).
    + destruct (is_ x FLAG_READ_ONLY).
      * apply wp_bind. eapply wp_gone; [done|done|]. intros st1 Hi1 O1 Ef1. apply wp_ret.
        exists k. split_and!; [done|done|done|]. rewrite Ef1, Hlen. lia.
      * apply wp_bind. eapply wp_release_partial; [done|done|]. intros st1 Hi1 T1. apply wp_ret.
        exists (k + 1)%nat. split_and!; [done|done|by apply others_same|].
        pose proof (st_reg _ _ T1) as [= _ _ -> _ _ _ _ _]. lia.
    + intros ? st1 (j & -> & Hi1 & O1 & Hl1). apply wp_bind, wp_modify.
      set (st2 := set_have_partial_cleared_through _ st1).
      assert (Hi2 : inv Idle st2).
      { eapply (inv_registers Idle); [done..| | |]; destruct Hi1 as [_ _ [] Hm [] _]; [by split| |by split].
        by eapply xmin_ok_counts. }
      apply IH; [done|done|]. intros st3 Hi3 O3 Hn3. apply HQ; [done| |].
      * eapply others_trans; [done|]. exact O3.
      * intros Hg. by rewrite Hg in Eg.
Qed.

Lemma wp_clear_old st (Q : Failure + () → State → Prop) : inv Idle st →
  (∀ st', inv0 st' → others st st' → Q (inr ()) st') → wp clear_old Q st.
Proof.
  intros Hi HQ. unfold clear_old. apply wp_bind, wp_self. eapply wp_clear_old_loop; [done|lia|].
  intros st' Hi' O Hn. apply HQ; [|done]. split; [done|]. intros Hg. apply Hn; [|done]. by destruct O as [<- _].
Qed.

(** ** The parts of [release_at] *)

(** Through the parts: the transactions stay, and a transaction that watches
    nobody does not start to. *)
Record during (ph : phase) (me : nat) (st st' : State) : Prop := {
  du_inv : inv ph st';
  du_same : same_tx st st';
  du_quiet x x' : sxact st me = Some x → sxact st' me = Some x' → possible_unsafe x = [] → possible_unsafe x' = [] }.

Lemma during_refl ph me st : inv ph st → during ph me st st.
Proof. intros H. split; [done|apply same_tx_refl|congruence]. Qed.

Lemma during_trans ph me st1 st2 st3 : during ph me st1 st2 → during ph me st2 st3 → during ph me st1 st3.
Proof.
  intros [A1 A2 A3] [B1 B2 B3]. split; [done|by eapply same_tx_trans|]. intros x x' Hx Hx' Hp.
  destruct (same_tx_old _ _ _ _ A2 Hx) as (y & Hy & _). by eapply (B3 y), (A3 x).
Qed.

Lemma during_released ph me cs st st' : inv ph st → released cs st st' → during ph me st st'.
Proof.
  intros Hi Hr. destruct (ssi_inv_released _ _ _ _ Hi Hr) as [Hi' T]. split; [done|done|]. intros x x' Hx Hx' Hp.
  rewrite (r_sxact _ _ _ Hr), Hx in Hx'. injection Hx' as <-. cbn. by rewrite Hp.
Qed.

Lemma during_view ph me st i x f : inv ph st → sxact st i = Some x → view (f x) = view x →
  during ph me st (put_sxact i (Some (f x)) st).
Proof.
  intros Hi Hx Hv. destruct (inv_view _ _ _ _ _ Hi Hx Hv) as [Hi' T]. split; [done|done|]. intros y y' Hy.
  rewrite sxact_put by (by eapply sxact_slot). case_decide as E; [subst|congruence]. intros [= <-].
  apply view_parts in Hv as (_ & [= _ _ ->] & _). congruence.
Qed.

(** Changes to the counters the invariant does not use. *)
Lemma during_counters ph me st st' : inv ph st → sxacts st' = sxacts st → conflicts st' = conflicts st →
  free_conflicts st' = free_conflicts st → targets st' = targets st → registers st' = registers st → during ph me st st'.
Proof.
  intros Hi Hs Hc Hf Ht Hr. assert (Hsx : ∀ i, sxact st' i = sxact st i) by (intros; unfold sxact; by rewrite Hs).
  assert (T : same_tx st st') by (split; [intros; by rewrite Hsx|done]).
  split; [|done|intros x x'; rewrite Hsx; congruence].
  eapply inv_registers; [done..| | |].
  - eapply registry_ok_same; [apply Hi|done|]. intros i x x'. rewrite Hsx. congruence.
  - eapply xmin_ok_same; [apply Hi|done].
  - eapply flags_ok_same; [apply Hi|done|]. intros i x x'. rewrite Hsx. congruence.
Qed.

(** The mark of a commit, and of an abort. *)
Lemma mark_committed me x1 st1 (write : bool) :
  inv (Ending me) st1 → sxact st1 me = Some x1 → is_ x1 FLAG_COMMITTED = false → is_ x1 FLAG_PREPARED = true →
  let n := last_commit_seq st1 + 1 in
  let x2 := set_commit_seq n (raise FLAG_COMMITTED x1) in
  let x3 := if write then x2 else raise FLAG_READ_ONLY x2 in
  inv (Ending me) (put_sxact me (Some x3) (set_last_commit_seq n st1)) ∧
  is_ x3 FLAG_COMMITTED = true ∧ is_ x3 FLAG_ROLLED_BACK = is_ x1 FLAG_ROLLED_BACK.
Proof.
  intros Hi1 Hx1 Hcm Hprep n x2 x3.
  assert (Hx3 : is_ x3 FLAG_PREPARED = is_ x1 FLAG_PREPARED ∧ is_ x3 FLAG_DOOMED = is_ x1 FLAG_DOOMED ∧
    is_ x3 FLAG_COMMITTED = true ∧ is_ x3 FLAG_ROLLED_BACK = is_ x1 FLAG_ROLLED_BACK ∧
    is_ x3 FLAG_SUMMARY_CONFLICT_IN = is_ x1 FLAG_SUMMARY_CONFLICT_IN ∧
    is_ x3 FLAG_SUMMARY_CONFLICT_OUT = is_ x1 FLAG_SUMMARY_CONFLICT_OUT ∧
    (is_ x1 FLAG_READ_ONLY = true → is_ x3 FLAG_READ_ONLY = true)).
  { unfold x3, x2. destruct write; flags; auto 10. }
  destruct Hx3 as (A1 & A2 & A3 & A4 & A5 & A6 & A7). split; [|done].
  assert (Hc3 : commit_seq x3 = n ∧ prepare_seq x3 = prepare_seq x1 ∧ lists x3 = lists x1 ∧
    (locks x3, local x3) = (locks x1, local x1) ∧ top_xid x3 = top_xid x1 ∧ snap x3 = snap x1 ∧
    last_commit_before_snapshot x3 = last_commit_before_snapshot x1) by (unfold x3; by destruct write).
  destruct Hc3 as (B1 & B2 & B3 & B4 & B5 & B6 & B7).
  destruct (fl_prepared _ _ (iv_flags _ _ Hi1) me x1 Hx1 Hprep) as [Hnd Hle].
  apply (inv_mark me x1); [exact Hi1|exact Hx1|lia|exact B3|exact B4|exact B5|exact B6|split|..|exact A5|exact A6].
  - by rewrite A2.
  - by rewrite Hcm.
  - exact A7.
  - exact B7.
  - rewrite A1, B2. done.
  - intros _. rewrite A2, B2. split; [done|]. unfold n. lia.
  - intros _. rewrite A1, B1, B2. split; [done|]. unfold n. lia.
Qed.

Lemma mark_aborted me x1 st1 :
  inv (Ending me) st1 → sxact st1 me = Some x1 → is_ x1 FLAG_COMMITTED = false →
  let x2 := lower FLAG_PREPARED (raise (Z.lor FLAG_DOOMED FLAG_ROLLED_BACK) x1) in
  inv (Ending me) (put_sxact me (Some x2) st1) ∧
  is_ x2 FLAG_COMMITTED = false ∧ is_ x2 FLAG_ROLLED_BACK = true.
Proof.
  intros Hi1 Hx1 Hcm x2.
  assert (Hx2 : is_ x2 FLAG_PREPARED = false ∧ is_ x2 FLAG_DOOMED = true ∧
    is_ x2 FLAG_COMMITTED = is_ x1 FLAG_COMMITTED ∧ is_ x2 FLAG_ROLLED_BACK = true ∧
    is_ x2 FLAG_SUMMARY_CONFLICT_IN = is_ x1 FLAG_SUMMARY_CONFLICT_IN ∧
    is_ x2 FLAG_SUMMARY_CONFLICT_OUT = is_ x1 FLAG_SUMMARY_CONFLICT_OUT ∧ is_ x2 FLAG_READ_ONLY = is_ x1 FLAG_READ_ONLY).
  { unfold x2. flags. auto 10. }
  destruct Hx2 as (A1 & A2 & A3 & A4 & A5 & A6 & A7). rewrite Hcm in A3. split; [|done].
  replace (put_sxact me (Some x2) st1) with (put_sxact me (Some x2) (set_last_commit_seq (last_commit_seq st1) st1))
    by (by destruct st1).
  apply (inv_mark me x1); [exact Hi1|exact Hx1|done|done|done|done|done|split|..|exact A5|exact A6].
  - done.
  - by rewrite Hcm.
  - by rewrite A7.
  - done.
  - by rewrite A1.
  - by rewrite A1.
  - by rewrite A3.
Qed.

Lemma wp_mark_ended me x st (commit write : bool) next (Q : Failure + () → State → Prop) :
  inv (Ending me) st → sxact st me = Some x → runs x = true → (commit = true → is_ x FLAG_PREPARED = true) →
  (∀ st' x', inv (Ending me) st' → sxact st' me = Some x' → is_ x' FLAG_COMMITTED = commit →
     is_ x' FLAG_ROLLED_BACK = negb commit →
     global_xmin st' = global_xmin st → by_pid st' = by_pid st → (∀ j, j ≠ me → sxact st' j = sxact st j) →
     Q (inr ()) st') → wp (mark_ended me commit write next) Q st.
Proof.
  intros Hi Hx Hrun Hprep HQ. unfold mark_ended. apply wp_bind. eapply wp_sx_mut; [done|].
  destruct (inv_view _ _ _ _ (set_finished_before next) Hi Hx eq_refl) as [Hi1 T1].
  set (x1 := set_finished_before next x) in *. set (st1 := put_sxact me (Some x1) st) in *.
  assert (Hsl : is_Some (sxacts st !! me)) by (by eapply sxact_slot).
  assert (Hx1 : sxact st1 me = Some x1) by (unfold st1; by rewrite sxact_put, decide_True).
  assert (Hoth : ∀ j, j ≠ me → sxact st1 j = sxact st j) by (intros; unfold st1; by rewrite sxact_put, decide_False).
  assert (Hrc : is_ x1 FLAG_COMMITTED = false ∧ is_ x1 FLAG_ROLLED_BACK = false ∧ is_ x1 FLAG_PREPARED = is_ x FLAG_PREPARED).
  { unfold runs in Hrun. unfold x1. flags. by destruct (is_ x FLAG_COMMITTED), (is_ x FLAG_ROLLED_BACK). }
  destruct Hrc as (Hcm & Hrb & Hpr). destruct commit.
  - apply wp_bind, wp_modify. apply wp_bind, wp_self.
    eapply (wp_sx_mut me x1); [exact Hx1|]. set (n := last_commit_seq st1 + 1).
    destruct (mark_committed me x1 st1 write Hi1 Hx1 Hcm) as (Hi3 & A3 & A4); [rewrite Hpr; auto|].
    fold n in Hi3, A3, A4. set (x3 := if write then _ else _) in *. set (st3 := put_sxact me (Some x3) (set_last_commit_seq n st1)) in *.
    assert (Hs3 : ∀ j, sxact st3 j = if decide (j = me) then Some x3 else sxact st1 j).
    { intros j. apply (sxact_put (set_last_commit_seq n st1)). exact (sxact_slot _ _ _ Hx1). }
    change (Q (inr ()) st3). eapply (HQ st3 x3); [done|by rewrite Hs3, decide_True|done|by rewrite A4|done|done|].
    intros j Hj. by rewrite Hs3, decide_False, Hoth.
  - eapply (wp_sx_mut me x1); [exact Hx1|].
    destruct (mark_aborted me x1 st1 Hi1 Hx1 Hcm) as (Hi3 & A3 & A4).
    set (x2 := lower _ _) in *. set (st3 := put_sxact me (Some x2) st1) in *.
    assert (Hs3 : ∀ j, sxact st3 j = if decide (j = me) then Some x2 else sxact st1 j).
    { intros j. apply (sxact_put st1). exact (sxact_slot _ _ _ Hx1). }
    eapply (HQ st3 x2); [done|by rewrite Hs3, decide_True|done|done|done|done|].
    intros j Hj. by rewrite Hs3, decide_False, Hoth.
Qed.

Section parts.
Context (me : nat).
Abbreviation ph := (Ending me).

Lemma wp_end_counts x st ro (Q : Failure + () → State → Prop) : inv ph st → sxact st me = Some x →
  (∀ st' x', during ph me st st' → sxact st' me = Some x' → (ro = true → possible_unsafe x' = []) → Q (inr ()) st') →
  wp (end_counts me ro) Q st.
Proof.
  intros Hi Hx HQ. unfold end_counts. destruct ro.
  - apply wp_bind. eapply wp_sx; [done|]. eapply (wp_release_list _ me x _ possible_unsafe); [done|done|auto|].
    intros st1 cs Hi1 T1 E1 Ep1 R1. eapply HQ; [by eapply during_released|done|done].
  - apply wp_bind, wp_modify. apply wp_modify. eapply (HQ _ x); [|by destruct (_ =? _)|done].
    destruct (_ =? _); by apply during_counters.
Qed.

(** A loop over one of the transaction's own lists, whose body releases at
    most the conflict it is at. *)
Lemma wp_own_list x st (f : Sxact → list nat) (body : nat → ssi ()) (Q : Failure + () → State → Prop) :
  f = out_conflicts ∨ f = in_conflicts → inv ph st → sxact st me = Some x →
  (∀ st1 x1 c cf xo xi (Q1 : Failure + () → State → Prop), inv ph st1 → same_tx st st1 → sxact st1 me = Some x1 →
     c ∈ f x1 → conflict_at st1 c = Some cf → sxact st1 (out cf) = Some xo → sxact st1 (in_ cf) = Some xi →
     (∀ st2 x2, during ph me st1 st2 → sxact st2 me = Some x2 → (∀ k, k ≠ c → k ∈ f x1 → k ∈ f x2) → Q1 (inr ()) st2) →
     wp (body c) Q1 st1) →
  (∀ st', during ph me st st' → Q (inr ()) st') → wp (for_each (f x) body) Q st.
Proof.
  intros Hf Hi Hx Hbody HQ.
  apply (wp_for_each _ _ (λ l st', during ph me st st' ∧ NoDup l ∧ ∃ x', sxact st' me = Some x' ∧ ∀ c, c ∈ l → c ∈ f x')).
  - split_and!; [by apply during_refl| |eauto].
    destruct (g_nodup _ (iv_graph _ _ Hi) _ _ Hx) as (? & ? & _). by destruct Hf as [-> | ->].
  - intros c l st1 (D1 & [Hc Hnd]%NoDup_cons & x1 & Hx1 & Hin). pose proof (du_inv _ _ _ _ D1) as Hi1.
    assert (Hcf : c ∈ f x1) by (apply Hin; left).
    destruct (conflict_live _ _ _ _ c Hi1 Hx1) as (cf & xo & xi & Hc1 & Ho & Hii); [destruct Hf as [-> | ->]; auto|].
    eapply Hbody; [done|apply D1|done|done|done|done|done|]. intros st2 x2 D2 Hx2 Hk.
    split_and!; [by eapply during_trans|done|]. exists x2. split; [done|]. intros k Hkl. apply Hk; [by intros ->|].
    apply Hin. by right.
  - intros st' [D _]. by apply HQ.
Qed.

(** Releasing the conflict the loop is at. *)
Lemma wp_release_own f st x c cf (Q : Failure + () → State → Prop) : f = out_conflicts ∨ f = in_conflicts →
  inv ph st → sxact st me = Some x → conflict_at st c = Some cf →
  (∀ st2 x2, during ph me st st2 → sxact st2 me = Some x2 → (∀ k, k ≠ c → k ∈ f x → k ∈ f x2) → Q (inr ()) st2) →
  wp (release_conflict c) Q st.
Proof.
  intros Hf Hi Hx Hc HQ. eapply wp_release_conflict; [apply Hi|done|]. intros st2 R2.
  eapply (HQ st2 (drop_all [c] x)); [by eapply during_released|by rewrite (r_sxact _ _ _ R2), Hx|].
  intros k Hk Hin. destruct Hf as [-> | ->]; cbn; apply list_elem_of_filter; (split; [|done]);
    by rewrite list_elem_of_singleton.
Qed.

Lemma wp_end_out_conflicts x st commit ro (Q : Failure + () → State → Prop) : inv ph st → sxact st me = Some x →
  (∀ st', during ph me st st' → Q (inr ()) st') → wp (end_out_conflicts me commit ro) Q st.
Proof.
  intros Hi Hx HQ. unfold end_out_conflicts. apply wp_bind. eapply wp_sx; [done|].
  eapply (wp_own_list x st out_conflicts); [auto|done|done| |done].
  intros st1 x1 c cf xo xi Q1 Hi1 T1 Hx1 Hc Hcf Ho Hii HQ1.
  apply wp_bind. eapply wp_conflict; [done|]. apply wp_bind. eapply wp_sx; [done|]. apply wp_bind.
  eapply (wp_mono _ (λ r st2, r = inr () ∧ during ph me st1 st2 ∧ conflict_at st2 c = Some cf ∧
    ∃ x2, sxact st2 me = Some x2 ∧ out_conflicts x2 = out_conflicts x1)).
  { destruct (_ && _).
    - eapply wp_sx_mut; [done|]. split_and!; [done| |done|].
      + apply during_view; [done|done|]. unfold note_out_conflict. by destruct (_ || _); unfold view, core; flags.
      + exists (note_out_conflict (prepare_seq xi) x1). rewrite sxact_put, decide_True by (done || by eapply sxact_slot).
        split; [done|]. unfold note_out_conflict. by destruct (_ || _).
    - apply wp_ret. split_and!; [done|by apply during_refl|done|eauto]. }
  intros ? st2 (-> & D2 & Hc2 & x2 & Hx2 & Eo2). apply wp_bind, wp_self. destruct (_ || _).
  - eapply (wp_release_own out_conflicts); [auto|apply D2|done|done|]. intros st3 x3 D3 Hx3 Hk.
    eapply HQ1; [by eapply during_trans|done|]. by rewrite <- Eo2.
  - apply wp_ret. eapply HQ1; [done|done|]. by rewrite Eo2.
Qed.

Lemma wp_end_in_conflicts x st commit (Q : Failure + () → State → Prop) : inv ph st → sxact st me = Some x →
  (∀ st', during ph me st st' → Q (inr ()) st') → wp (end_in_conflicts me commit) Q st.
Proof.
  intros Hi Hx HQ. unfold end_in_conflicts. apply wp_bind. eapply wp_sx; [done|].
  eapply (wp_own_list x st in_conflicts); [auto|done|done| |done].
  intros st1 x1 c cf xo xi Q1 Hi1 T1 Hx1 Hc Hcf Ho Hii HQ1.
  apply wp_bind. eapply wp_conflict; [done|]. apply wp_bind. eapply wp_sx; [done|]. destruct (_ || _).
  - by eapply (wp_release_own in_conflicts); [auto|..].
  - apply wp_ret. eapply HQ1; [by apply during_refl|done|done].
Qed.

Lemma wp_flag_unsafe i y x st (Q : Failure + () → State → Prop) : inv ph st → sxact st i = Some y →
  sxact st me = Some x →
  (∀ st' x', during ph me st st' → length (conflicts st') = length (conflicts st) → sxact st' me = Some x' →
     (∀ k, k ∈ possible_unsafe x' → k ∈ possible_unsafe x ∧ k ∉ possible_unsafe y) → Q (inr ()) st') →
  wp (flag_unsafe i) Q st.
Proof.
  intros Hi Hy Hx HQ. unfold flag_unsafe. apply wp_bind. eapply wp_sx_mut; [done|].
  set (y1 := raise FLAG_RO_UNSAFE y). set (st1 := put_sxact i (Some y1) st).
  assert (D1 : during ph me st st1) by (apply during_view; [done|done|unfold view, core; by flags]).
  assert (Hs1 : ∀ j, sxact st1 j = if decide (j = i) then Some y1 else sxact st j)
    by (intros; apply sxact_put; by eapply sxact_slot).
  apply wp_bind. eapply (wp_sx i y1); [by rewrite Hs1, decide_True|].
  destruct (g_nodup _ (iv_graph _ _ Hi) _ _ Hy) as (_ & _ & Hnd).
  eapply (keep_release_all ph st1 i y1 (possible_unsafe y1)); [apply D1|by rewrite Hs1, decide_True|done|auto|].
  intros st2 R2 Hi2 T2. assert (Hx1 : ∃ x1, sxact st1 me = Some x1 ∧ possible_unsafe x1 = possible_unsafe x).
  { rewrite Hs1. case_decide; [subst; simplify_eq; by exists y1|eauto]. }
  destruct Hx1 as (x1 & Hx1 & Ep). eapply (HQ st2 (drop_all (possible_unsafe y) x1)).
  - eapply during_trans; [done|]. by eapply during_released; [apply D1|].
  - apply (r_len _ _ _ R2).
  - by rewrite (r_sxact _ _ _ R2), Hx1.
  - intros k. cbn. rewrite list_elem_of_filter, Ep. tauto.
Qed.

(** Every possible conflict is gone at the end. *)
Lemma wp_end_possible x st commit write (Q : Failure + () → State → Prop) : inv ph st → sxact st me = Some x →
  (∀ st' x', during ph me st st' → sxact st' me = Some x' → possible_unsafe x' = [] → Q (inr ()) st') →
  wp (end_possible me commit write) Q st.
Proof.
  intros Hi Hx HQ. unfold end_possible. apply wp_bind. eapply wp_sx; [done|].
  apply (wp_for_each _ _ (λ l st', during ph me st st' ∧ (∀ c, c ∈ l → (c < length (conflicts st'))%nat) ∧
    ∃ x', sxact st' me = Some x' ∧ ∀ c, c ∈ possible_unsafe x' → c ∈ l)).
  - split_and!; [by apply during_refl| |eauto]. intros c Hc.
    destruct (g_pos _ (iv_graph _ _ Hi) _ _ _ Hx Hc) as (cf & _ & _ & Hcf & _).
    apply conflict_lookup in Hcf. by apply lookup_lt_Some in Hcf.
  - intros c l st1 (D1 & Hlen & x1 & Hx1 & Hin). pose proof (du_inv _ _ _ _ D1) as Hi1.
    assert (Hcl : (c < length (conflicts st1))%nat) by (apply Hlen; left).
    assert (Hnext : ∀ st2 x2, during ph me st1 st2 → length (conflicts st2) = length (conflicts st1) →
      sxact st2 me = Some x2 → (∀ k, k ∈ possible_unsafe x2 → k ≠ c ∧ k ∈ possible_unsafe x1) →
      during ph me st st2 ∧ (∀ k, k ∈ l → (k < length (conflicts st2))%nat) ∧
      ∃ x', sxact st2 me = Some x' ∧ ∀ k, k ∈ possible_unsafe x' → k ∈ l).
    { intros st2 x2 D2 El Hx2 Hk. split_and!; [by eapply during_trans|intros; rewrite El; apply Hlen; by right|].
      exists x2. split; [done|]. intros k [Hne [->|?]%Hin%elem_of_cons]%Hk; done. }
    apply wp_bind, wp_self. destruct (lookup_lt_is_Some_2 _ _ Hcl) as [slot Hslot].
    apply wp_bind. eapply wp_expect; [done|]. destruct slot as [cf|].
    2: { apply wp_ret. eapply (Hnext st1 x1); [by apply during_refl|done|done|]. intros k Hk. split; [|done]. intros ->.
         destruct (g_pos _ (iv_graph _ _ Hi1) _ _ _ Hx1 Hk) as (cf & _ & _ & Hcf & _).
         apply conflict_lookup in Hcf. congruence. }
    apply conflict_lookup in Hslot as Hcf. destruct (g_used _ (iv_graph _ _ Hi1) _ _ Hcf) as (yo & yi & Hyo & Hyi & _).
    apply wp_bind. eapply wp_conflict; [done|]. apply wp_bind. eapply wp_sx; [done|]. apply wp_bind.
    eapply (wp_mono _ (λ r st', st' = st1 ∧ ∃ b, r = inr b)).
    { destruct (_ && _); [apply wp_bind; eapply wp_sx; [done|]|]; apply wp_ret; eauto. }
    intros ? ? (-> & b & ->). destruct b.
    + eapply (wp_flag_unsafe (in_ cf) yi x1); [done|done|done|]. intros st2 x2 D2 El Hx2 Hk. eapply Hnext; [done..|].
      intros k [Hk1 Hk2]%Hk. split; [|done]. intros ->.
      destruct (g_pos _ (iv_graph _ _ Hi1) _ _ _ Hx1 Hk1) as (cf' & j & z & Hcf' & Hends & _ & Hz & Hcz).
      rewrite Hcf in Hcf'. injection Hcf' as <-. apply Hk2.
      destruct Hends as [[_ E]|[E _]]; [subst j|rewrite E in Hyi]; congruence.
    + apply wp_bind. eapply wp_release_conflict; [apply Hi1|done|]. intros st2 R2.
      pose proof (during_released _ me _ _ _ Hi1 R2) as D2.
      assert (Hyi2 : sxact st2 (in_ cf) = Some (drop_all [c] yi)) by (by rewrite (r_sxact _ _ _ R2), Hyi).
      assert (Hx2 : sxact st2 me = Some (drop_all [c] x1)) by (by rewrite (r_sxact _ _ _ R2), Hx1).
      assert (Hk2 : ∀ k, k ∈ possible_unsafe (drop_all [c] x1) → k ≠ c ∧ k ∈ possible_unsafe x1).
      { intros k. cbn. rewrite list_elem_of_filter, list_elem_of_singleton. tauto. }
      apply wp_bind. eapply wp_sx; [done|]. case_bool_decide.
      * eapply wp_sx_mut; [done|]. set (y3 := raise FLAG_RO_SAFE _). set (st3 := put_sxact _ _ st2).
        assert (D3 : during ph me st2 st3) by (apply during_view; [apply D2|done|unfold view, core; by flags]).
        assert (Hx3 : ∃ x3, sxact st3 me = Some x3 ∧ possible_unsafe x3 = possible_unsafe (drop_all [c] x1)).
        { unfold st3. rewrite sxact_put by (by eapply sxact_slot). case_decide as E; [|eauto].
          exists y3. split; [done|]. rewrite <- E, Hx1 in Hyi. injection Hyi as <-. done. }
        destruct Hx3 as (x3 & Hx3 & Ep3). eapply (Hnext st3 x3); [by eapply during_trans| |done|by rewrite Ep3].
        apply (r_len _ _ _ R2).
      * apply wp_ret. eapply Hnext; [done|apply (r_len _ _ _ R2)|done|done].
  - intros st' (D & _ & x' & Hx' & Hin). eapply HQ; [done|done|]. destruct (possible_unsafe x') as [|c l]; [done|].
    exfalso. eapply not_elem_of_nil, (Hin c). by left.
Qed.

Lemma cnt_one ph' st g l : NoDup l → me ∈ l → runs_at ph st g me = true → runs_at ph' st g me = false →
  (∀ j, j ≠ me → runs_at ph' st g j = runs_at ph st g j) → cnt ph st g l = cnt ph' st g l + 1.
Proof.
  intros Hnd Hin H1 H2 Hj. induction l as [|j l IH]; [elem_nil|].
  apply NoDup_cons in Hnd as [Hjl Hnd]. unfold cnt in *. cbn [List.filter]. destruct (decide (j = me)) as [->|Hne].
  - rewrite H1, H2. cbn [length]. pose proof (cnt_ext ph' ph st st g l) as E. unfold cnt in E. rewrite Nat2Z.inj_succ, E; [lia|].
    intros k Hk. symmetry. apply Hj. by intros ->.
  - apply elem_of_cons in Hin as [->|Hin]; [done|]. specialize (IH Hnd Hin). rewrite (Hj j Hne).
    destruct (runs_at ph st g j); cbn [length]; lia.
Qed.

Lemma wp_end_xmin x st (Q : Failure + bool → State → Prop) : inv ph st → sxact st me = Some x → runs x = false →
  (∀ st' b, inv (Ended me) st' → (∀ j, sxact st' j = sxact st j) → by_pid st' = by_pid st →
     (b = false → global_xmin st' ≠ None) → Q (inr b) st') →
  wp (end_xmin me) Q st.
Proof.
  intros Hi Hx Hr HQ. unfold end_xmin. apply wp_bind. eapply wp_sx; [done|]. apply wp_bind, wp_self.
  pose proof (iv_registry _ _ Hi) as Hreg. pose proof (rg_active _ _ Hreg) as [Hnd Hact].
  pose proof (iv_xmin _ _ Hi) as Hm. unfold xmin_ok in Hm.
  assert (Hoth : ∀ g j, j ≠ me → runs_at (Ended me) st g j = runs_at ph st g j).
  { intros g j Hj. unfold runs_at. destruct (sxact st j); [|done]. cbn. by rewrite bool_decide_false, orb_false_r. }
  assert (Hme : ∀ g, runs_at ph st g me = (xmin (snap x) =? g) ∧ runs_at (Ended me) st g me = false).
  { intros g. unfold runs_at. rewrite Hx. cbn. by rewrite bool_decide_true, orb_true_r, Hr. }
  assert (Hset : ∀ g n, xmin_ok (Ended me) (set_xmin g n st) → inv (Ended me) (set_xmin g n st)).
  { intros g n Hok. eapply inv_registers; [done..| |done|].
    - by destruct Hreg.
    - by destruct (iv_flags _ _ Hi). }
  destruct (global_xmin st) as [g|] eqn:Eg.
  2: { exfalso. specialize (Hm me x Hx). cbn in Hm. by rewrite bool_decide_true, orb_true_r in Hm. }
  destruct Hm as [Hcnt Hpos]. case_bool_decide as Eq.
  - injection Eq as ->. set (g := xmin (snap x)) in *.
    rewrite (cnt_one (Ended me)) in Hcnt; [|done|apply Hact; by eexists|destruct (Hme g) as [-> _]; apply Z.eqb_refl|apply Hme|apply Hoth].
    apply wp_bind, wp_modify. apply wp_bind, wp_self. set (st1 := set_global_xmin_count _ st).
    assert (Hc1 : global_xmin_count st1 = cnt (Ended me) st g (active st)) by (unfold st1; cbn; lia).
    destruct (global_xmin_count st1 =? 0) eqn:E0.
    + apply wp_bind. apply wp_new_global_xmin.
      { intros i Hin. by apply Hact. }
      intros g' n Hrec. apply wp_ret. apply (HQ _ true); [|done|done|done]. apply (Hset g' n).
      unfold xmin_ok. cbn. destruct g' as [g'|]; cbn in Hrec.
      * destruct Hrec as (-> & ? & _). split; [|done]. by apply cnt_ext.
      * intros i y Ey. eapply (Hrec i); [|done]. apply Hact. by eexists.
    + apply wp_ret. apply (HQ _ false); [|done|done|unfold st1; cbn; by rewrite Eg].
      replace st1 with (set_xmin (Some g) (global_xmin_count st1) st) by (unfold st1, set_xmin; rewrite <- Eg; by destruct st).
      apply Hset. unfold xmin_ok. cbn -[st1]. rewrite Hc1 in *. split; [by apply cnt_ext|]. apply Z.eqb_neq in E0.
      unfold cnt in *. lia.
  - apply wp_ret. apply (HQ _ false); [|done|done|by rewrite Eg].
    replace st with (set_xmin (Some g) (global_xmin_count st) st) at 1 by (unfold set_xmin; rewrite <- Eg; by destruct st).
    apply Hset. unfold xmin_ok. cbn. split; [|done]. rewrite Hcnt. apply cnt_ext. intros j _.
    destruct (decide (j = me)) as [->|Hj]; [|symmetry; by apply Hoth].
    destruct (Hme g) as [-> E]. transitivity false; [apply Z.eqb_neq; congruence|by rewrite <- E].
Qed.

End parts.

(** ** [release] *)

(** An ended transaction is kept as finished, or forgotten when it rolled back. *)
Lemma wp_retire st me x (commit : bool) (Q : Failure + () → State → Prop) : inv (Ended me) st →
  sxact st me = Some x → is_ x FLAG_COMMITTED = commit → is_ x FLAG_ROLLED_BACK = negb commit →
  possible_unsafe x = [] → (∀ p i, by_pid st !! p = Some i → i ≠ me) →
  (∀ st', inv Idle st' → others st st' → Q (inr ()) st') →
  wp (if commit then
        _ ← sx_mut me (set_finished true);
        modify (λ st, set_finished_list (finished_list st ++ [me]) st)
      else release_one me false) Q st.
Proof.
  intros Hi Hx Hc Hr Hp Hoth HQ. destruct commit.
  - apply wp_bind. eapply (wp_sx_mut me x); [done|].
    destruct (inv_view _ _ _ _ (set_finished true) Hi Hx eq_refl) as [Hi1 T1].
    set (st1 := put_sxact me _ st) in *. apply wp_modify.
    assert (Hx1 : sxact st1 me = Some (set_finished true x)).
    { unfold st1. rewrite sxact_put, decide_True; [done|done|]. by eapply (sxact_slot st me x). }
    apply HQ; [|exact (others_same _ _ T1)]. by eapply inv_finish.
  - eapply (wp_release_one me x); [done|done| |done|].
    { unfold runs. by rewrite Hr, andb_false_r. }
    intros st1 Hi1 (_ & Hj & Hb & _ & Hg & _). apply HQ; [done|]. split; [done|]. split; [done|].
    intros p i E. by apply Hj, (Hoth p).
Qed.

Lemma wp_release_at st pid me x commit safe next (Q : Failure + () → State → Prop) : inv Idle st →
  by_pid st !! pid = Some me → sxact st me = Some x → (commit = true → is_ x FLAG_PREPARED = true) →
  (∀ st', inv0 st' → by_pid st' = delete pid (by_pid st) →
     (∀ p i, p ≠ pid → by_pid st !! p = Some i → core <$> sxact st' i = core <$> sxact st i) →
     Q (inr ()) st') → wp (release_at pid commit safe next) Q st.
Proof.
  intros Hi Hp Hx Hprep HQ. unfold release_at. apply wp_bind, wp_self. unfold mine. rewrite Hp.
  apply wp_bind, wp_modify. pose proof (inv_leave _ _ _ Hi Hp) as Hi1. set (st1 := set_by_pid _ st) in *.
  pose proof (iv_registry _ _ Hi) as Hreg. destruct (rg_pid _ _ Hreg _ _ Hp) as (_ & x' & Hx' & Hrun).
  assert (x' = x) as -> by congruence. clear Hx'.
  assert (Hoth : ∀ p i, p ≠ pid → by_pid st !! p = Some i → i ≠ me).
  { intros p i Hne E ->. apply Hne. by eapply (rg_inj _ _ Hreg). }
  apply wp_bind. eapply (wp_sx me x); [done|]. apply wp_bind.
  eapply (wp_mark_ended me x); [done|done|done|done|]. intros st2 x2 Hi2 Hx2 Hc2 Hr2 _ Hb2 Ho2.
  apply wp_bind. eapply wp_end_counts; [done|done|]. intros st3 x3 D3 Hx3 Hq3.
  apply wp_bind. eapply wp_sx; [done|]. apply wp_bind.
  assert (Hs3 : is_ x3 FLAG_SUMMARY_CONFLICT_OUT = false) by (by apply (fl_summary _ _ (iv_flags _ _ (du_inv _ _ _ _ D3)) me)).
  rewrite Hs3, andb_false_r. apply wp_ret. apply wp_bind.
  eapply wp_end_out_conflicts; [apply D3|done|]. intros st4 D4.
  destruct (same_tx_old _ _ _ _ (du_same _ _ _ _ D4) Hx3) as (x4 & Hx4 & _).
  apply wp_bind. eapply wp_end_in_conflicts; [apply D4|done|]. intros st5 D5.
  destruct (same_tx_old _ _ _ _ (du_same _ _ _ _ D5) Hx4) as (x5 & Hx5 & _).
  apply wp_bind. eapply (wp_mono _ (λ r st6, r = inr () ∧ during (Ending me) me st5 st6 ∧
    ∃ x6, sxact st6 me = Some x6 ∧ possible_unsafe x6 = [])).
  { destruct (is_ x FLAG_READ_ONLY).
    - apply wp_ret. split_and!; [done|apply during_refl, D5|]. exists x5. split; [done|].
      eapply (du_quiet _ _ _ _ D5); [done..|]. eapply (du_quiet _ _ _ _ D4); [done..|]. by apply Hq3.
    - eapply wp_end_possible; [apply D5|done|]. eauto. }
  intros ? st6 (-> & D6 & x6 & Hx6 & Hp6).
  assert (D26 : during (Ending me) me st2 st6) by (do 3 (eapply during_trans; [done|]); done).
  destruct (same_tx_new _ _ _ _ (du_same _ _ _ _ D26) Hx6) as (x2' & E2 & Hcore). rewrite Hx2 in E2. injection E2 as <-.
  assert (Hc6 : is_ x6 FLAG_COMMITTED = commit ∧ is_ x6 FLAG_ROLLED_BACK = negb commit).
  { injection Hcore as _ _ _ _ _ ? _ ? _ _ _. split; congruence. }
  assert (Hr6 : runs x6 = false) by (unfold runs; destruct Hc6 as [-> ->]; by destruct commit).
  pose proof (st_reg _ _ (du_same _ _ _ _ D26)) as [= _ Hb6 _ _ _ _ _ _].
  apply wp_bind. eapply wp_end_xmin; [apply D26|done|done|]. intros st7 b Hi7 Hs7 Hb7 Hg7.
  assert (Hcore7 : ∀ p i, p ≠ pid → by_pid st !! p = Some i → core <$> sxact st7 i = core <$> sxact st i).
  { intros p i Hne E. rewrite Hs7, (st_core _ _ (du_same _ _ _ _ D26)), Ho2 by (by eapply Hoth). done. }
  assert (Hbp7 : by_pid st7 = delete pid (by_pid st)) by (by rewrite Hb7, Hb6, Hb2).
  apply wp_bind. eapply (wp_retire st7 me x6 commit); [done|by rewrite Hs7|apply Hc6|apply Hc6|done| |].
  { intros p i E. rewrite Hbp7 in E. apply lookup_delete_Some in E as [? E]. by eapply Hoth. }
  intros st8 Hi8 O8.
  assert (Hfin : ∀ st9, inv0 st9 → others st8 st9 → Q (inr ()) st9).
  { intros st9 Hi9 O9. destruct (others_trans _ _ _ O8 O9) as (_ & HB & HC). apply HQ; [done|congruence|].
    intros p i Hne E. rewrite (HC p), (Hcore7 p) by (done || by rewrite Hbp7, lookup_delete_ne). done. }
  destruct b.
  - eapply wp_clear_old; done.
  - apply wp_ret, Hfin; [|apply others_refl]. split; [done|]. destruct O8 as [-> _]. by intros ?%Hg7.
Qed.

(** A commit is always preceded by [pre_commit]: the transaction is prepared. *)
Definition may_release (st : State) (pid : Z) (commit : bool) : Prop :=
  commit = true → ∀ me x, by_pid st !! pid = Some me → sxact st me = Some x → is_ x FLAG_PREPARED = true.

Lemma wp_release st pid commit safe (Q : Failure + () → State → Prop) : inv0 st → may_release st pid commit →
  (∀ st', inv0 st' → by_pid st' = delete pid (by_pid st) →
     (∀ p i, p ≠ pid → by_pid st !! p = Some i → core <$> sxact st' i = core <$> sxact st i) → Q (inr ()) st') →
  wp (release pid commit safe) Q st.
Proof.
  intros [Hi Hn] Hm HQ. unfold release. apply wp_bind, wp_self. destruct (by_pid st !! pid) as [me|] eqn:Hp.
  - destruct (rg_pid _ _ (iv_registry _ _ Hi) _ _ Hp) as (_ & x & Hx & _).
    eapply wp_release_at; [done|done|done| |done]. intros E. by eapply Hm.
  - unfold release_at. apply wp_bind, wp_self. unfold mine. rewrite Hp. apply wp_ret, HQ; [done| |done].
    by rewrite delete_id.
Qed.
