(* ===== verification/SsiStart.v ===== *)
(** * Serializable snapshot isolation: [register], [set_xid] and [pre_commit]

    A new transaction takes a free slot, is counted against the oldest snapshot
    and, when it is read-only, watches the writers it runs beside.

    [PreCommit_CheckForSerializationFailure]: every structure the committing
    transaction would complete as its out end is made harmless, by dooming the
    pivot, before the transaction is marked prepared. *)
From S2P Require Import Prelude RustM Vec Bson Meth Ssi SsiWf SsiInv SsiLocks SsiEnds.
Local Open Scope Z_scope.

(** ** A slot *)

Lemma first_none_spec {A} (l : list (option A)) :
  match first_none l with Some i => l !! i = Some None | None => True end.
Proof. induction l as [|[a|] l IH]; cbn; [done| |done]. by destruct (first_none l). Qed.

(** Everything but the transactions. *)
Definition apart (st st' : State) : Prop :=
  conflicts st' = conflicts st ∧ free_conflicts st' = free_conflicts st ∧ targets st' = targets st ∧
  registers st' = registers st.

Lemma wp_alloc x st (Q : Failure + nat → State → Prop) :
  (∀ id st', sxact st id = None → (∀ j, sxact st' j = if decide (j = id) then Some x else sxact st j) → apart st st' →
     Q (inr id) st') → wp (alloc_sxact x) Q st.
Proof.
  intros HQ. unfold alloc_sxact. apply wp_bind, wp_self. pose proof (first_none_spec (sxacts st)) as Hf.
  destruct (first_none (sxacts st)) as [i|].
  - apply wp_bind, wp_modify. apply wp_ret. apply HQ; [unfold sxact; by rewrite Hf| |done].
    intros j. apply sxact_put. by eexists.
  - apply wp_bind, wp_modify. apply wp_ret. apply HQ; [unfold sxact; by rewrite lookup_ge_None_2| |done].
    intros j. unfold sxact. cbn. case_decide as E.
    + subst. by rewrite list_lookup_middle.
    + destruct (decide (j < length (sxacts st))%nat); [by rewrite lookup_app_l|].
      rewrite (lookup_ge_None_2 (sxacts st)) by lia. rewrite lookup_ge_None_2; [done|]. rewrite length_app. cbn. lia.
Qed.

(** ** A new transaction *)

Record fresh (st : State) (x : Sxact) : Prop := {
  fr_lists : lists x = ([], [], []);
  fr_locks : locks x = [] ∧ local x = ∅;
  fr_xid : top_xid x = None;
  fr_seq : last_commit_before_snapshot x ≤ last_commit_seq st;
  fr_flags : is_ x FLAG_COMMITTED = false ∧ is_ x FLAG_PREPARED = false ∧ is_ x FLAG_ROLLED_BACK = false ∧
    is_ x FLAG_SUMMARY_CONFLICT_IN = false ∧ is_ x FLAG_SUMMARY_CONFLICT_OUT = false }.

Lemma fresh_runs st x : fresh st x → runs x = true.
Proof. intros H. destruct (fr_flags _ _ H) as (H1 & _ & H2 & _). unfold runs. by rewrite H1, H2. Qed.

Lemma fresh_new st s : fresh st (new_sxact (last_commit_seq st) s).
Proof. by split. Qed.

Lemma fresh_read_only st s : fresh st (raise FLAG_READ_ONLY (new_sxact (last_commit_seq st) s)).
Proof. by split. Qed.

Section started.
Context (st st' : State) (id : nat) (x : Sxact).
Context (Hi : inv Idle st) (Hnone : sxact st id = None) (Hfr : fresh st x).
Context (Hs : ∀ j, sxact st' j = if decide (j = id) then Some x else sxact st j).
Context (Hc : conflicts st' = conflicts st) (Hf : free_conflicts st' = free_conflicts st).
Context (Ht : targets st' = targets st).
Context (Hreg : registers st' = registers (set_active (active st ++ [id]) st)).

Lemma started_keeps j y : sxact st j = Some y → sxact st' j = Some y.
Proof. intros E. rewrite Hs, decide_False; [done|congruence]. Qed.

Lemma started_new j y : sxact st' j = Some y → (j = id ∧ y = x) ∨ (j ≠ id ∧ sxact st j = Some y).
Proof. rewrite Hs. case_decide; naive_solver. Qed.

Lemma started_conflict_at c : conflict_at st' c = conflict_at st c.
Proof. unfold conflict_at. by rewrite Hc. Qed.

Lemma started_graph : graph_ok st'.
Proof.
  pose proof started_keeps as Hk. pose proof started_new as Hn. pose proof started_conflict_at as Hca.
  pose proof Hfr as [[= Hout Hin Hpos] _ _ _ _].
  assert (Hnil : ∀ c : nat, c ∉ []) by (intros c; apply not_elem_of_nil).
  pose proof (iv_graph _ _ Hi) as [G1 G2 G3 G4 G5 G6 G7]. split.
  + intros j y c [[-> ->]|[_ Ey]]%Hn; [rewrite Hout; by intros ?%Hnil|]. intros Hci.
    destruct (G1 j y c Ey Hci) as (cf & z & ? & ? & ? & ? & ?). exists cf, z. rewrite Hca. auto 10.
  + intros j y c [[-> ->]|[_ Ey]]%Hn; [rewrite Hin; by intros ?%Hnil|]. intros Hci.
    destruct (G2 j y c Ey Hci) as (cf & z & ? & ? & ? & ? & ?). exists cf, z. rewrite Hca. auto 10.
  + intros j y c [[-> ->]|[_ Ey]]%Hn; [rewrite Hpos; by intros ?%Hnil|]. intros Hci.
    destruct (G3 j y c Ey Hci) as (cf & k & z & ? & ? & ? & ? & ?). exists cf, k, z. rewrite Hca. auto 10.
  + intros c cf. rewrite Hca. intros (y & z & ? & ? & ? & ?)%G4. exists y, z. auto 10.
  + intros j y [[-> ->]|[_ Ey]]%Hn; [rewrite Hout, Hin, Hpos; split_and!; constructor|by apply (G5 j)].
  + intros c. rewrite Hf, Hc. apply G6.
  + by rewrite Hf.
Qed.

Lemma started_locks : locks_ok st'.
Proof.
  pose proof started_keeps as Hk. pose proof started_new as Hn.
  pose proof Hfr as [_ [Hlk Hlo] _ _ _].
  pose proof (iv_locks _ _ Hi) as [L1 L2 L3]. split.
  + intros u h. rewrite Ht. intros (? & ? & Hj)%L1. split_and!; [done..|]. intros j (y & Ey & ?)%Hj. eauto.
  + intros j y [[-> ->]|[_ Ey]]%Hn; [|rewrite Ht; by apply (L2 j)]. rewrite Hlk. split; [constructor|].
    intros t Hin'. elem_nil.
  + intros j y u [[-> ->]|[_ Ey]]%Hn; [unfold is_held; by rewrite Hlo, lookup_empty|by apply (L3 j)].
Qed.

Lemma started_registry : registry_ok (Starting id) st'.
Proof.
  pose proof started_keeps as Hk. pose proof started_new as Hn.
  pose proof Hfr as [_ _ Hxid _ _]. pose proof Hreg as [= Ha Hb Hfi Hxi Hv _ _ _].
  pose proof (iv_registry _ _ Hi) as [R1 R2 R3 R4 R5 R6 R7 R8 R9]. cbn [subject] in *. split; cbn [subject].
  + rewrite Ha. cbn. split.
    * apply NoDup_snoc; [apply R1|]. rewrite (proj2 R1 id), Hnone. by intros [??].
    * intros j. rewrite elem_of_app, list_elem_of_singleton, (proj2 R1 j), Hs. case_decide; subst; [|naive_solver].
      split; [by eexists|by right].
  + intros p j. rewrite Hb. intros E. destruct (R2 p j E) as (_ & y & Ey & Hy). split; [congruence|eauto].
  + intros p q j. rewrite Hb. apply R3.
  + by rewrite Hfi.
  + intros j. rewrite Hfi. intros (_ & y & Ey & Hy)%R5. split; [congruence|eauto].
  + intros j y [[-> ->]|[_ Ey]]%Hn; [auto|]. rewrite Hfi, Hb. destruct (R6 j y Ey) as [?|[?|?]]; auto. done.
  + intros v j. rewrite Hxi. intros (y & Ey & Hy)%R7. eauto.
  + intros k m. rewrite Hv. intros (Hm & Hcv)%R8. split; [done|]. intros c v (Hsome & Hw)%Hcv. split; [done|].
    intros w (j & y & Ey & Hy)%Hw. eauto.
  + intros j y [[-> ->]|[_ Ey]]%Hn; [done|]. intros _. by apply (R9 j).
Qed.

Lemma started_xmin : xmin_ok (Starting id) st'.
Proof.
  pose proof started_new as Hn. pose proof Hreg as [= Ha _ _ _ _ Hg Hgc _].
  pose proof (iv_xmin _ _ Hi) as Hm. unfold xmin_ok in *. rewrite Hg. cbn. 
  assert (Hra : ∀ g j, j ≠ id → runs_at (Starting id) st' g j = runs_at Idle st g j).
  { intros g j Hj. unfold runs_at. rewrite Hs, decide_False by done. destruct (sxact st j); [|done]. cbn.
    by rewrite bool_decide_false, andb_true_r. }
  destruct (global_xmin st) as [g|].
  + rewrite Hgc, Ha. cbn. rewrite cnt_snoc. unfold runs_at at 1. rewrite Hs, decide_True by done. cbn.
    rewrite bool_decide_true, andb_false_r, Z.add_0_r by done. cbn.
    rewrite (cnt_ext Idle _ st); [done|]. intros j Hj. apply Hra. intros ->.
    apply (proj2 (rg_active _ _ (iv_registry _ _ Hi))) in Hj. rewrite Hnone in Hj. by destruct Hj.
  + intros j y [[-> ->]|[Hj Ey]]%Hn; [by rewrite bool_decide_true, andb_false_r|].
    rewrite bool_decide_false, andb_true_r by done. by apply (Hm j).
Qed.

Lemma started_flags : flags_ok (Starting id) st'.
Proof.
  pose proof started_new as Hn. pose proof Hreg as [= _ _ _ _ _ _ _ Hl].
  pose proof Hfr as [_ _ _ Hseq (Hfl1 & Hfl2 & Hfl3 & Hfl4 & Hfl5)].
  pose proof (iv_flags _ _ Hi) as [F1 F2 F3 F4 F5]. cbn [subject] in *. split; rewrite ?Hl; cbn [last_commit_seq set_active].
  + intros j y [[-> ->]|[_ Ey]]%Hn; [by rewrite Hfl2|by apply (F1 j)].
  + intros j y [[-> ->]|[_ Ey]]%Hn; [by rewrite Hfl1|by apply (F2 j)].
  + intros j y [[-> ->]|[_ Ey]]%Hn; [done|by apply (F3 j)].
  + intros j y [[-> ->]|[_ Ey]]%Hn; [done|intros _; by apply (F4 j)].
  + intros j y [[-> ->]|[_ Ey]]%Hn; [done|by apply (F5 j)].
Qed.

Lemma started_danger : danger_ok st'.
Proof.
  pose proof started_new as Hn. pose proof started_conflict_at as Hca.
  pose proof Hfr as [[= Hout _ _] _ _ _ _].
  assert (Hnil : ∀ c : nat, c ∉ []) by (intros c; apply not_elem_of_nil).
  assert (He : ∀ a b, edge st' a b → edge st a b ∧ b ≠ id).
  { intros a b (y & c & cf & [[-> ->]|[_ Ey]]%Hn & Hci & Hcf & Hb'); [rewrite Hout in Hci; by apply Hnil in Hci|].
    rewrite Hca in Hcf. split; [by exists y, c, cf|]. destruct (g_used _ (iv_graph _ _ Hi) _ _ Hcf) as (? & ? & ? & E & _).
    intros ->. rewrite Hb', Hnone in E. done. }
  intros a b d xa xb xd [Hab Hb']%He [Hbd Hd']%He Ea Eb Ed Hp.
  assert (Hold : ∀ j y, sxact st' j = Some y → j ≠ id → sxact st j = Some y).
  { intros j y E Hj. by rewrite Hs, decide_False in E. }
  apply (iv_danger _ _ Hi a b d); auto. apply Hold; [done|]. intros ->.
  destruct Hab as (y & _ & _ & Ey & _). congruence.
Qed.

Lemma inv_started : inv (Starting id) st'.
Proof.
  split; auto using started_graph, started_locks, started_registry, started_xmin, started_flags, started_danger.
Qed.
End started.

(** ** Watching the writers *)

Lemma linked_possible_edges c o i st st' : linked push_possible push_possible c o i st st' → graph_ok st →
  ∀ a b, edge st' a b → edge st a b.
Proof.
  intros L Hg a b (x' & k & cf & E & Hin & Hcf & Hb).
  assert (Hx : ∃ x, sxact st a = Some x ∧ out_conflicts x' = out_conflicts x).
  { destruct (linked_tx _ _ _ _ _ _ _ _ _ pushes_possible pushes_possible L E) as (x & Ex & Hx & _).
    exists x. split; [done|]. by destruct Hx as [-> |[(_ & ->)|(_ & ->)]]. }
  destruct Hx as (x & Ex & Eo). rewrite Eo in Hin. exists x, k, cf. split_and!; [done|done| |done].
  rewrite (lk_conf _ _ _ _ _ _ _ L), decide_False in Hcf; [done|]. intros ->.
  destruct (fresh_not_in _ _ _ _ Hg (lk_fresh _ _ _ _ _ _ _ L) Ex). done.
Qed.

Lemma inv_possible ph c o i xo xi st st' : inv ph st → linked push_possible push_possible c o i st st' →
  sxact st o = Some xo → sxact st i = Some xi → runs xo = true → runs xi = true → inv ph st' ∧ same_tx st st'.
Proof.
  intros Hi L Ho Hii Hro Hri.
  destruct (linked_same _ _ _ _ _ _ _ pushes_possible pushes_possible L (iv_locks _ _ Hi)) as [T Hl].
  pose proof (λ j x', linked_tx _ _ _ _ _ _ _ j x' pushes_possible pushes_possible L) as Ht.
  split; [|done]. eapply inv_same; [done|done|apply L|done| |].
  - eapply danger_ok_mono; [apply Hi|by eapply linked_possible_edges; [|apply Hi]|].
    intros j x' E. destruct (Ht j x' E) as (x & ? & _ & ? & _). eauto.
  - intros j x x' E E'. destruct (Ht j x' E') as (x0 & E0 & Hx & _ & Hd). assert (x0 = x) as -> by congruence.
    split; [|congruence]. intros _ Hr. destruct Hx as [-> |[(-> & _)|(-> & _)]]; [done|congruence..].
Qed.

Lemma wp_watch_writers id x st (Q : Failure + () → State → Prop) : inv (Starting id) st → sxact st id = Some x →
  runs x = true →
  (∀ st' x', inv (Starting id) st' → same_tx st st' → sxact st' id = Some x' → out_conflicts x' = out_conflicts x →
     in_conflicts x' = in_conflicts x → locks x' = locks x → Q (inr ()) st') → wp (watch_writers id) Q st.
Proof.
  intros Hi Hx Hrun HQ. unfold watch_writers. apply wp_bind, wp_self.
  apply (wp_for_each _ _ (λ l st', inv (Starting id) st' ∧ same_tx st st' ∧ (∀ j, j ∈ l → is_Some (sxact st j)) ∧
    ∃ x', sxact st' id = Some x' ∧ out_conflicts x' = out_conflicts x ∧ in_conflicts x' = in_conflicts x ∧
      locks x' = locks x)).
  - split_and!; [done|apply same_tx_refl| |by exists x].
    intros j. by apply (rg_active _ _ (iv_registry _ _ Hi)).
  - intros j l st1 (Hi1 & T1 & Hl & x1 & Hx1 & Eo & Ei & El).
    assert (Hstay : ∀ st2 x2, inv (Starting id) st2 → same_tx st1 st2 → sxact st2 id = Some x2 →
      out_conflicts x2 = out_conflicts x → in_conflicts x2 = in_conflicts x → locks x2 = locks x →
      inv (Starting id) st2 ∧ same_tx st st2 ∧ (∀ k, k ∈ l → is_Some (sxact st k)) ∧
      ∃ x', sxact st2 id = Some x' ∧ out_conflicts x' = out_conflicts x ∧ in_conflicts x' = in_conflicts x ∧
        locks x' = locks x).
    { intros st2 x2 Hi2 T2 Hx2 ???. split_and!; [done|by eapply same_tx_trans|intros; apply Hl; by right|by exists x2]. }
    case_decide as Hj; [apply wp_ret; eapply (Hstay st1 x1); eauto using same_tx_refl|].
    destruct (Hl j) as [y Hy]; [left|]. destruct (same_tx_old _ _ _ _ T1 Hy) as (y1 & Hy1 & Hc1).
    apply wp_bind. eapply wp_sx; [done|].
    destruct (negb (is_ y1 FLAG_COMMITTED) && _ && _) eqn:Ew;
      [|apply wp_ret; eapply (Hstay st1 x1); eauto using same_tx_refl].
    apply andb_true_iff in Ew as [[Hcm%negb_true_iff _]%andb_true_iff _].
    assert (Hry : runs y1 = true).
    { unfold runs. rewrite Hcm, (fl_rolled _ _ (iv_flags _ _ Hi1) _ _ Hy1); [done|]. cbn. congruence. }
    assert (Hrx : runs x1 = true).
    { destruct (same_tx_old _ _ _ _ T1 Hx) as (x1' & E & Hc). rewrite Hx1 in E. injection E as <-.
      by rewrite (core_runs _ _ Hc). }
    eapply (wp_set_possible _ id j x1 y1); [apply Hi1|done|done|done|]. intros c st2 L.
    destruct (inv_possible _ _ _ _ _ _ _ _ Hi1 L Hy1 Hx1 Hry Hrx) as [Hi2 T2].
    eapply (Hstay st2 (push_possible c x1)); [done|done| |done|done|done].
    by rewrite (lk_sxact _ _ _ _ _ _ _ L), decide_False, decide_True, Hx1 by done.
  - intros st' (Hi' & T & _ & x' & Hx' & ? & ? & ?). by eapply HQ.
Qed.

(** ** Counted and registered *)

Definition join_xmin (v : Z) (st : State) : State :=
  match global_xmin st with
  | None => set_global_xmin_count 1 (set_global_xmin (Some v) st)
  | Some x => if x =? v then set_global_xmin_count (global_xmin_count st + 1) st else st
  end.

Lemma join_xmin_frame v st : sxacts (join_xmin v st) = sxacts st ∧ conflicts (join_xmin v st) = conflicts st ∧
  free_conflicts (join_xmin v st) = free_conflicts st ∧ targets (join_xmin v st) = targets st ∧
  active (join_xmin v st) = active st ∧ by_pid (join_xmin v st) = by_pid st ∧
  finished_list (join_xmin v st) = finished_list st ∧ xids (join_xmin v st) = xids st ∧
  versions (join_xmin v st) = versions st ∧ last_commit_seq (join_xmin v st) = last_commit_seq st ∧
  is_Some (global_xmin (join_xmin v st)).
Proof. unfold join_xmin. destruct (global_xmin st) eqn:E; [destruct (_ =? _)|]; rewrite ?E; cbn; rewrite ?E; auto 20. Qed.

Lemma join_xmin_ok id x st st' : inv (Starting id) st → sxact st id = Some x → runs x = true →
  sxacts st' = sxacts st → active st' = active st →
  global_xmin st' = global_xmin (join_xmin (xmin (snap x)) st) →
  global_xmin_count st' = global_xmin_count (join_xmin (xmin (snap x)) st) → xmin_ok Idle st'.
Proof.
  intros Hi Hx Hr Hs Ha Hg Hgc. assert (Hsx : ∀ i, sxact st' i = sxact st i) by (intros; unfold sxact; by rewrite Hs).
  pose proof (iv_xmin _ _ Hi) as Hm. pose proof (rg_active _ _ (iv_registry _ _ Hi)) as [Hnd Hact].
  assert (Hin : id ∈ active st) by (apply Hact; by eexists).
  assert (Hoth : ∀ g j, j ≠ id → runs_at (Starting id) st g j = runs_at Idle st g j).
  { intros g j Hj. unfold runs_at. destruct (sxact st j); [|done]. cbn. by rewrite bool_decide_false, andb_true_r. }
  assert (Hid : ∀ g, runs_at (Starting id) st g id = false ∧ runs_at Idle st g id = (xmin (snap x) =? g)).
  { intros g. unfold runs_at. rewrite Hx. cbn. by rewrite bool_decide_true, andb_false_r, Hr. }
  assert (Hext : ∀ g l, cnt Idle st' g l = cnt Idle st g l).
  { intros g l. apply cnt_ext. intros i _. unfold runs_at. by rewrite Hsx. }
  assert (Hone : ∀ g, (xmin (snap x) =? g) = true → cnt Idle st g (active st) = cnt (Starting id) st g (active st) + 1).
  { intros g Eg. assert (Hgen : ∀ l, NoDup l → id ∈ l → cnt Idle st g l = cnt (Starting id) st g l + 1).
    { induction l as [|j l IH]; intros Hn Hl; [elem_nil|]. apply NoDup_cons in Hn as [Hjl Hn].
      unfold cnt in *. cbn [List.filter]. destruct (decide (j = id)) as [->|Hj].
      - destruct (Hid g) as [-> ->]. rewrite Eg. cbn [length].
        pose proof (cnt_ext Idle (Starting id) st st g l) as E. unfold cnt in E. rewrite E; [lia|].
        intros k Hk. apply Hoth. by intros ->.
      - apply elem_of_cons in Hl as [->|Hl]; [done|]. specialize (IH Hn Hl). rewrite (Hoth g j Hj).
        destruct (runs_at Idle st g j); cbn [length]; lia. }
    by apply Hgen. }
  unfold xmin_ok in *. rewrite Hg, Hgc, Ha. unfold join_xmin. destruct (global_xmin st) as [g|] eqn:Eg; cbn.
  - destruct Hm as [Hc Hp]. destruct (g =? xmin (snap x)) eqn:Eq; cbn; rewrite ?Eg, Hext.
    + rewrite Hone by (by rewrite Z.eqb_sym). split; lia.
    + split; [|done]. rewrite Hc. apply cnt_ext. intros j _. destruct (decide (j = id)) as [->|Hj]; [|by apply Hoth].
      destruct (Hid g) as [-> ->]. by rewrite Z.eqb_sym, Eq.
  - split; [|done]. rewrite Hext, Hone by apply Z.eqb_refl. rewrite cnt_none; [done|].
    intros j _. unfold runs_at. destruct (sxact st j) as [y|] eqn:Ey; [|done]. by rewrite (Hm j y Ey).
Qed.

Lemma inv_join id x st pid : inv (Starting id) st → sxact st id = Some x → runs x = true → by_pid st !! pid = None →
  inv Idle (set_by_pid (<[pid := id]> (by_pid st)) (join_xmin (xmin (snap x)) st)).
Proof.
  intros Hi Hx Hr Hp. set (st1 := join_xmin _ st).
  destruct (join_xmin_frame (xmin (snap x)) st) as (E1 & E2 & E3 & E4 & E5 & E6 & E7 & E8 & E9 & E10 & _).
  fold st1 in E1, E2, E3, E4, E5, E6, E7, E8, E9, E10.
  set (st2 := set_by_pid _ st1). assert (Hsx : ∀ i, sxact st2 i = sxact st i) by (intros; unfold sxact; cbn; by rewrite E1).
  eapply (inv_registers (Starting id)); [done|done|done|done|done| |by eapply join_xmin_ok|].
  - pose proof (iv_registry _ _ Hi) as [R1 R2 R3 R4 R5 R6 R7 R8 R9]. cbn [subject] in *. split; cbn [subject].
    + cbn. rewrite E5. split; [apply R1|]. intros i. rewrite Hsx. apply R1.
    + cbn. intros p i [[-> ->]|[Hne E]]%lookup_insert_Some; (split; [done|]).
      * exists x. by rewrite Hsx.
      * destruct (R2 p i E) as (_ & y & Ey & Hy). exists y. by rewrite Hsx.
    + cbn. intros p q i [[-> ->]|[Hne E]]%lookup_insert_Some [[-> E']|[Hne' E']]%lookup_insert_Some; [done| | |by eapply R3].
      * by destruct (R2 q i E') as [? _].
      * subst. by destruct (R2 p i E) as [? _].
    + cbn. by rewrite E7.
    + cbn. rewrite E7. intros i Hin. destruct (R5 i Hin) as (_ & y & Ey & Hy). split; [done|]. exists y. by rewrite Hsx.
    + cbn. rewrite E7. intros i y. rewrite Hsx. intros Ey. destruct (R6 i y Ey) as [?|[[p Hq]|[= ->]]]; [by left|..]; right; left.
      * exists p. rewrite lookup_insert_ne; [done|congruence].
      * exists pid. by rewrite lookup_insert_eq.
    + cbn. rewrite E8. intros v i (y & Ey & Hy)%R7. exists y. by rewrite Hsx.
    + cbn. rewrite E9. intros k m (Hm & Hcv)%R8. split; [done|]. intros c v (Hsome & Hw)%Hcv. split; [done|].
      intros w (j & y & Ey & Hy)%Hw. exists j, y. by rewrite Hsx.
    + intros i y. rewrite Hsx. intros Ey _ Hry. apply (R9 i y Ey); [|done]. intros [= ->]. congruence.
  - pose proof (iv_flags _ _ Hi) as [F1 F2 F3 F4 F5]. cbn [subject] in *. split; cbn [last_commit_seq st2 set_by_pid]; rewrite ?E10.
    + intros i y. rewrite Hsx. apply F1.
    + intros i y. rewrite Hsx. apply F2.
    + intros i y. rewrite Hsx. apply F3.
    + intros i y. rewrite Hsx. intros Ey _. destruct (decide (i = id)) as [->|Hne].
      * rewrite Hx in Ey. injection Ey as <-. unfold runs in Hr. by destruct (is_ x FLAG_ROLLED_BACK), (is_ x FLAG_COMMITTED).
      * apply (F4 i y Ey). cbn. congruence.
    + intros i y. rewrite Hsx. apply F5.
Qed.

(** ** The operations *)

Lemma same_core_snap x x' : core x' = core x → snap x' = snap x.
Proof. by intros [=]. Qed.

(** Back to where it was when a read-only transaction opts out. *)
Lemma inv_opt_out id x st st' : inv (Starting id) st → sxact st id = Some x → locks x = [] → lists x = ([], [], []) →
  top_xid x = None → (∀ j, sxact st' j = if decide (j = id) then None else sxact st j) → conflicts st' = conflicts st →
  free_conflicts st' = free_conflicts st → targets st' = targets st →
  registers st' = registers (set_active (filter (λ y, y ≠ id) (active st)) st) → inv Idle st'.
Proof.
  intros Hi Hx Hlk Hl Ht Hs Hc Hf Htg [= ????????].
  eapply (inv_vacated (Starting id) id x false st); [by right|done..|]. rewrite Ht. by split_and!.
Qed.

(** What [register] leaves before it joins the oldest snapshot: the transaction
    opted out of tracking ([true]), or it is starting. *)
Definition entered (st : State) (id : nat) (s : Snap) (ro : bool) (r : Failure + bool) (st' : State) : Prop :=
  ∃ b : bool, r = inr b ∧ by_pid st' = by_pid st ∧
    (∀ p i, by_pid st !! p = Some i → core <$> sxact st' i = core <$> sxact st i) ∧
    if b then inv0 st' ∧ ro = true
    else inv (Starting id) st' ∧ ∃ x, sxact st' id = Some x ∧ runs x = true ∧ snap x = s.

Section entering.
Context (st st1 : State) (s : Snap) (id : nat) (Hi : inv0 st) (Hnone : sxact st id = None) (Hap : apart st st1).
Let x0 := new_sxact (last_commit_seq st) s.
Context (Hs1 : ∀ j, sxact st1 j = if decide (j = id) then Some x0 else sxact st j).
Let st2 := set_active (active st1 ++ [id]) st1.

Lemma entered_pid p i : by_pid st !! p = Some i → i ≠ id.
Proof.
  intros E ->. destruct (rg_pid _ _ (iv_registry _ _ (proj1 Hi)) p id E) as (_ & y & Ey & _). congruence.
Qed.

Lemma wp_enter_writer :
  wp (_ ← modify (λ st, set_writable_count (writable_count st + 1) st); mret false) (entered st id s false) st2.
Proof.
  destruct Hi as [Hi0 _]. destruct Hap as (Hc1 & Hf1 & Ht1 & [= Ra Rb Rf Rx Rv Rg Rgc Rl]).
  apply wp_bind, wp_modify. apply wp_ret. set (st3 := set_writable_count _ st2).
  exists false. split_and!; [done|exact Rb| | |].
  - intros p i E. change (sxact st3 i) with (sxact st1 i). rewrite Hs1, decide_False; [done|by eapply entered_pid].
  - eapply (inv_started st _ id x0); [done|done|apply fresh_new|done|done|done|done|].
    unfold st3, st2, registers. cbn. by rewrite Ra, Rb, Rf, Rx, Rv, Rg, Rgc, Rl.
  - exists x0. split_and!; [|done|done]. change (sxact st1 id = Some x0). by rewrite Hs1, decide_True.
Qed.

Let x1 := raise FLAG_READ_ONLY x0.
Let st3 := put_sxact id (Some x1) st2.

Lemma read_only_sxact j : sxact st3 j = if decide (j = id) then Some x1 else sxact st j.
Proof.
  unfold st3. rewrite sxact_put; [|apply (sxact_slot st1 id x0); by rewrite Hs1, decide_True].
  case_decide; [done|]. change (sxact st2 j) with (sxact st1 j). by rewrite Hs1, decide_False.
Qed.

Lemma read_only_inv : inv (Starting id) st3.
Proof.
  destruct Hi as [Hi0 _]. destruct Hap as (Hc1 & Hf1 & Ht1 & [= Ra Rb Rf Rx Rv Rg Rgc Rl]).
  eapply (inv_started st _ id x1); [done|done|apply fresh_read_only|apply read_only_sxact|done|done|done|].
  unfold st3, st2, registers. cbn. by rewrite Ra, Rb, Rf, Rx, Rv, Rg, Rgc, Rl.
Qed.

Lemma wp_enter_reader :
  wp (_ ← sx_mut id (raise FLAG_READ_ONLY);
      _ ← watch_writers id;
      x ← sx id;
      if bool_decide (possible_unsafe x = []) then
        _ ← modify (λ st, set_active (filter (λ y, y ≠ id) (active st)) st);
        _ ← modify (put_sxact id None);
        mret true
      else mret false) (entered st id s true) st2.
Proof.
  destruct Hi as [Hi0 Hfin]. pose proof Hap as (Hc1 & Hf1 & Ht1 & [= Ra Rb Rf Rx Rv Rg Rgc Rl]).
  apply wp_bind. eapply (wp_sx_mut id x0); [change (sxact st1 id = Some x0); by rewrite Hs1, decide_True|].
  fold x1. fold st3. assert (Hx3 : sxact st3 id = Some x1) by (by rewrite read_only_sxact, decide_True).
  apply wp_bind. eapply wp_watch_writers; [apply read_only_inv|done|apply (fresh_runs st), fresh_read_only|].
  intros st4 x4 Hi4 T4 Hx4 Eo Ei El.
  destruct (same_tx_new _ _ _ _ T4 Hx4) as (x1' & E & Hcore). rewrite Hx3 in E. injection E as <-.
  pose proof (st_reg _ _ T4) as [= Ua Ub Uf Ux Uv Ug Ugc Ul].
  assert (Hb4 : by_pid st4 = by_pid st) by (rewrite Ub; exact Rb).
  assert (Hco4 : ∀ p i, by_pid st !! p = Some i → core <$> sxact st4 i = core <$> sxact st i).
  { intros p i E. rewrite (st_core _ _ T4), read_only_sxact, decide_False; [done|by eapply entered_pid]. }
  apply wp_bind. eapply wp_sx; [done|]. case_bool_decide as Epos.
  - apply wp_bind, wp_modify. apply wp_bind, wp_modify. apply wp_ret. exists true.
    split; [done|]. split; [done|]. set (st5 := put_sxact id None _).
    assert (Hs5 : ∀ j, sxact st5 j = if decide (j = id) then None else sxact st4 j).
    { intros j. apply (sxact_put (set_active _ st4)). exact (sxact_slot _ _ _ Hx4). }
    split; [|split; [split|done]].
    + intros p i E. rewrite Hs5, decide_False; [by apply (Hco4 p)|by eapply entered_pid].
    + eapply (inv_opt_out id x4 st4); [done|done|by rewrite El| |by injection Hcore|done..].
      unfold lists. by rewrite Eo, Ei, Epos.
    + change (global_xmin st4 = None → finished_list st4 = []). rewrite Ug, Uf.
      change (global_xmin st1 = None → finished_list st1 = []). by rewrite Rg, Rf.
  - apply wp_ret. exists false. split_and!; [done|done|done|done|]. exists x4.
    rewrite (core_runs _ _ Hcore). split_and!; [done|done|]. by rewrite (same_core_snap _ _ Hcore).
Qed.
End entering.

Lemma wp_register st pid s ro (Q : Failure + option nat → State → Prop) : inv0 st →
  (∀ st' o, inv0 st' → (∀ p, p ≠ pid → by_pid st' !! p = by_pid st !! p) → by_pid st' !! pid = o →
     (∀ p i, by_pid st !! p = Some i → core <$> sxact st' i = core <$> sxact st i) →
     (o = None → ro = true) → Q (inr o) st') →
  wp (register pid s ro) Q st.
Proof.
  intros Hi HQ. unfold register. apply wp_bind, wp_self. unfold mine.
  destruct (by_pid st !! pid) as [i|] eqn:Hp; [by apply wp_ret, HQ|].
  destruct (ro && (writable_count st =? 0)) eqn:Ero.
  { apply wp_ret, HQ; [done..|]. intros _. by destruct ro. }
  apply wp_bind, wp_alloc. intros id st1 Hnone Hs1 Hap. apply wp_bind, wp_modify. apply wp_bind.
  eapply (wp_mono _ (entered st id s ro)).
  { destruct ro; [by apply wp_enter_reader|by apply wp_enter_writer]. }
  intros ? st4 (b & -> & Hb4 & Hco4 & Hcase). destruct b.
  - destruct Hcase as [Hi4 ->]. apply wp_ret, HQ; [done| | |done|done]; rewrite Hb4; [done|done].
  - destruct Hcase as (Hi4 & x4 & Hx4 & Hr4 & <-). apply wp_bind, wp_modify. apply wp_bind, wp_modify.
    destruct (join_xmin_frame (xmin (snap x4)) st4) as (E1 & E2 & E3 & E4 & E5 & E6 & E7 & E8 & E9 & E10 & [g Eg]).
    set (st5 := join_xmin (xmin (snap x4)) st4) in *. apply wp_ret.
    change (Q (inr (Some id)) (set_by_pid (<[pid := id]> (by_pid st5)) st5)).
    apply HQ; [split; [|change (global_xmin st5 = None → finished_list st5 = []); by rewrite Eg]| | | |done].
    + rewrite E6. apply inv_join; [done|done|done|by rewrite Hb4].
    + intros p Hne. cbn. rewrite lookup_insert_ne by done. by rewrite E6, Hb4.
    + cbn. by rewrite lookup_insert_eq.
    + intros p i E. rewrite <- (Hco4 p i E). unfold sxact. cbn. by rewrite E1.
Qed.

(** [set_xid] on a backend's own transaction. *)
Lemma inv_set_xid st me x xid : inv Idle st → sxact st me = Some x → top_xid x = None →
  inv Idle (set_xids (<[xid := me]> (xids st)) (put_sxact me (Some (set_top_xid (Some xid) x)) st)).
Proof.
  intros Hi Hx Hnone. set (x' := set_top_xid (Some xid) x). set (st' := set_xids _ _).
  assert (Hs : ∀ j, sxact st' j = if decide (j = me) then Some x' else sxact st j).
  { intros j. change (sxact st' j) with (sxact (put_sxact me (Some x') st) j). apply sxact_put. by eapply sxact_slot. }
  assert (Hnew : ∀ j y', sxact st' j = Some y' → ∃ y, sxact st j = Some y ∧ (y' = y ∨ (j = me ∧ y = x ∧ y' = x'))).
  { intros j y'. rewrite Hs. case_decide; [subst|eauto]. intros [= <-]. eauto 10. }
  assert (Hv : ∀ {B} (f : Sxact → B), f x' = f x → ∀ j, f <$> sxact st' j = f <$> sxact st j).
  { intros B f Ef j. rewrite Hs. case_decide; [subst|done]. rewrite Hx. cbn. by rewrite Ef. }
  split.
  - eapply graph_ok_frame; [apply Hi|done|done|]. by apply Hv.
  - eapply locks_ok_frame; [apply Hi|done|]. by apply (Hv _ (λ x, (locks x, local x))).
  - pose proof (iv_registry _ _ Hi) as [R1 R2 R3 R4 R5 R6 R7 R8 R9]. cbn [subject] in *.
    assert (Hkeep : ∀ j y, sxact st j = Some y → ∃ y', sxact st' j = Some y' ∧ runs y' = runs y ∧
      is_ y' FLAG_COMMITTED = is_ y FLAG_COMMITTED ∧ possible_unsafe y' = possible_unsafe y ∧
      (∀ w, top_xid y = Some w → top_xid y' = Some w)).
    { intros j y E. rewrite Hs. case_decide; [subst|exists y; auto]. exists x'. simplify_eq.
      split_and!; try done. congruence. }
    split; cbn [subject]; try done.
    + split; [apply R1|]. intros j. change (active st') with (active st). rewrite (proj2 R1 j), Hs.
      case_decide; [subst|done]. rewrite Hx. split; by eexists.
    + intros p i E. destruct (R2 p i E) as (_ & y & Ey & Hy). split; [done|].
      destruct (Hkeep i y Ey) as (y' & Ey' & Hy' & _). exists y'. by rewrite Hy'.
    + intros i E. destruct (R5 i E) as (_ & y & Ey & Hy). split; [done|].
      destruct (Hkeep i y Ey) as (y' & Ey' & _ & Hy' & _). exists y'. by rewrite Hy'.
    + intros i y' (y & Ey & _)%Hnew. by apply (R6 i y).
    + cbn. intros v i [[-> ->]|[Hne E]]%lookup_insert_Some.
      * exists x'. by rewrite Hs, decide_True.
      * destruct (R7 v i E) as (y & Ey & Hy). destruct (Hkeep i y Ey) as (y' & Ey' & _ & _ & _ & Hy'). eauto.
    + intros k m (Hm & Hcv)%R8. split; [done|]. intros c v (Hsome & Hw)%Hcv. split; [done|].
      intros w (j & y & Ey & Hy)%Hw. destruct (Hkeep j y Ey) as (y' & Ey' & _ & _ & _ & Hy'). eauto.
    + intros i y' Ey' Hn Hr. destruct (Hnew i y' Ey') as (y & Ey & [-> |(-> & -> & ->)]); [by apply (R9 i)|by apply (R9 me x)].
  - pose proof (iv_xmin _ _ Hi) as Hm. unfold xmin_ok in *. cbn. destruct (global_xmin st) as [g|].
    + erewrite cnt_ext; [done|]. intros j _. unfold runs_at. rewrite Hs. case_decide; [subst|done]. by rewrite Hx.
    + intros i y' (y & Ey & [-> |(-> & -> & ->)])%Hnew; [by apply (Hm i)|by apply (Hm me x)].
  - pose proof (iv_flags _ _ Hi) as [F1 F2 F3 F4 F5]. split; cbn;
      (intros i y' (y & Ey & [-> |(-> & -> & ->)])%Hnew; [eauto|]);
      [by apply (F1 me x)|by apply (F2 me x)|by apply (F3 me x)|by apply (F4 me x)|by apply (F5 me x)].
  - eapply danger_ok_mono; [apply Hi|apply edge_lists; [by apply Hv|done]|].
    intros i y' (y & Ey & [-> |(-> & -> & ->)])%Hnew; [eauto using flags_le_refl|]. exists x. by split.
Qed.

(** The call of [ssi_xid]: on [mine(pid)], when there is one. *)
Definition set_xid_of (pid xid : Z) : ssi () :=
  st ← self; match mine pid st with Some i => set_xid i xid | None => mret () end.

Lemma wp_set_xid_of st pid xid (Q : Failure + () → State → Prop) : inv0 st →
  (∀ st', inv0 st' → by_pid st' = by_pid st → Q (inr ()) st') → wp (set_xid_of pid xid) Q st.
Proof.
  intros [Hi Hfin] HQ. unfold set_xid_of. apply wp_bind, wp_self. unfold mine.
  destruct (by_pid st !! pid) as [me|] eqn:Hp; [|by apply wp_ret, HQ].
  destruct (rg_pid _ _ (iv_registry _ _ Hi) _ _ Hp) as (_ & x & Hx & _).
  unfold set_xid. apply wp_bind. eapply wp_sx; [done|]. destruct (top_xid x) eqn:Et; [by apply wp_ret, HQ|].
  apply wp_bind. eapply wp_sx_mut; [done|]. apply wp_modify. apply HQ; [|done]. split; [|done].
  exact (inv_set_xid st me x xid Hi Hx Et).
Qed.

(** ** Serializable snapshot isolation: [pre_commit] *)

(** [a -> me] needs no more work: no [t -> a] makes it dangerous. *)
Definition settled (me : nat) (st : State) (a : nat) : Prop :=
  ∀ xa, sxact st a = Some xa → is_ xa FLAG_COMMITTED = true ∨ is_ xa FLAG_DOOMED = true ∨
    ∀ t xt, edge st t a → sxact st t = Some xt → t ≠ me ∧
      (is_ xt FLAG_COMMITTED = true ∨ is_ xt FLAG_READ_ONLY = true ∨ is_ xt FLAG_DOOMED = true).

(** The prepared transaction is not the out end of a dangerous structure. *)
Definition prepare (n : Z) (x : Sxact) : Sxact := raise FLAG_PREPARED (set_prepare_seq n x).

Lemma prepare_view n x : lists (prepare n x) = lists x ∧ (locks (prepare n x), local (prepare n x)) = (locks x, local x) ∧
  top_xid (prepare n x) = top_xid x ∧ snap (prepare n x) = snap x ∧ runs (prepare n x) = runs x ∧
  is_ (prepare n x) FLAG_COMMITTED = is_ x FLAG_COMMITTED ∧ possible_unsafe (prepare n x) = possible_unsafe x.
Proof. unfold prepare, runs. by flags. Qed.

Lemma harmless_prepare_in n x xb xc : harmless x xb xc → harmless (prepare n x) xb xc.
Proof. unfold harmless, prepare. by flags. Qed.
Lemma harmless_prepare_mid n xa x xc : harmless xa x xc → harmless xa (prepare n x) xc.
Proof. unfold harmless, prepare. by flags. Qed.

(** Marking [me] prepared, part by part of the invariant. *)
Section prepared.
Context (st : State) (me : nat) (x : Sxact) (Hi : inv Idle st) (Hx : sxact st me = Some x).
Context (Hd : is_ x FLAG_DOOMED = false) (Hcm : is_ x FLAG_COMMITTED = false).
Context (Hset : ∀ a, edge st a me → settled me st a).
Let n := last_commit_seq st + 1.
Let x' := prepare n x.
Let st' := put_sxact me (Some x') (set_last_commit_seq n st).

Lemma prepared_sxact j : sxact st' j = if decide (j = me) then Some x' else sxact st j.
Proof. apply (sxact_put (set_last_commit_seq n st)). exact (sxact_slot st me x Hx). Qed.

Lemma prepared_view {B} (f : Sxact → B) : f x' = f x → ∀ j, f <$> sxact st' j = f <$> sxact st j.
Proof. intros Ef j. rewrite prepared_sxact. case_decide; [subst|done]. rewrite Hx. cbn. by rewrite Ef. Qed.

Lemma prepared_new j y' : sxact st' j = Some y' →
  ∃ y, sxact st j = Some y ∧ ((j ≠ me ∧ y' = y) ∨ (j = me ∧ y = x ∧ y' = x')).
Proof. rewrite prepared_sxact. case_decide; [subst|eauto 10]. intros [= <-]. eauto 10. Qed.

Lemma prepared_keep j y : sxact st j = Some y → ∃ y', sxact st' j = Some y' ∧ runs y' = runs y ∧
  is_ y' FLAG_COMMITTED = is_ y FLAG_COMMITTED ∧ top_xid y' = top_xid y.
Proof.
  intros E. rewrite prepared_sxact. case_decide; [subst|eauto]. exists x'. simplify_eq.
  destruct (prepare_view n x) as (V1 & V2 & V3 & V4 & V5 & V6 & V7). auto.
Qed.

Lemma prepared_registry : registry_ok Idle st'.
Proof.
  destruct (prepare_view n x) as (_ & _ & _ & _ & V5 & _ & V7). fold x' in V5, V7.
  pose proof (iv_registry _ _ Hi) as [R1 R2 R3 R4 R5 R6 R7 R8 R9]. cbn [subject] in *. split; cbn [subject]; try done.
  - split; [apply R1|]. intros j. change (active st') with (active st). rewrite (proj2 R1 j), prepared_sxact.
    case_decide; [subst|done]. rewrite Hx. split; by eexists.
  - intros p i E. destruct (R2 p i E) as (_ & y & Ey & Hy). split; [done|].
    destruct (prepared_keep i y Ey) as (y' & Ey' & Hy' & _). exists y'. by rewrite Hy'.
  - intros i E. destruct (R5 i E) as (_ & y & Ey & Hy). split; [done|].
    destruct (prepared_keep i y Ey) as (y' & Ey' & _ & Hy' & _). exists y'. by rewrite Hy'.
  - intros i y' (y & Ey & _)%prepared_new. by apply (R6 i y).
  - intros v i (y & Ey & Hy)%R7. destruct (prepared_keep i y Ey) as (y' & Ey' & _ & _ & Hy'). exists y'. by rewrite Hy'.
  - intros k m (Hm & Hcv)%R8. split; [done|]. intros c v (Hsome & Hw)%Hcv. split; [done|].
    intros w (j & y & Ey & Hy)%Hw. destruct (prepared_keep j y Ey) as (y' & Ey' & _ & _ & Hy'). exists j, y'. by rewrite Hy'.
  - intros i y' Ey' Hn Hr. destruct (prepared_new i y' Ey') as (y & Ey & [[_ ->]|(-> & -> & ->)]); [by apply (R9 i)|].
    rewrite V7. apply (R9 me x Hx); [done|congruence].
Qed.

Lemma prepared_xmin : xmin_ok Idle st'.
Proof.
  destruct (prepare_view n x) as (_ & _ & _ & V4 & V5 & _ & _). fold x' in V4, V5.
  pose proof (iv_xmin _ _ Hi) as Hm. unfold xmin_ok in *. cbn. destruct (global_xmin st) as [g|].
  - erewrite cnt_ext; [done|]. intros j _. unfold runs_at. rewrite prepared_sxact. case_decide; [subst|done].
    rewrite Hx. cbn [counts]. by rewrite V4, V5.
  - intros i y' (y & Ey & [[_ ->]|(-> & -> & ->)])%prepared_new; [by apply (Hm i)|]. rewrite V5. by apply (Hm me x).
Qed.

Lemma prepared_flags : flags_ok Idle st'.
Proof.
  destruct (prepare_view n x) as (_ & _ & _ & _ & _ & V6 & _). fold x' in V6.
  pose proof (iv_flags _ _ Hi) as [F1 F2 F3 F4 F5]. split; cbn.
  - intros i y' (y & Ey & [[_ ->]|(-> & -> & ->)])%prepared_new Hp.
    + destruct (F1 i y Ey Hp). split; [done|lia].
    + unfold x', prepare. flags. split; [done|cbn; lia].
  - intros i y' (y & Ey & [[_ ->]|(-> & -> & ->)])%prepared_new Hc; [|congruence]. destruct (F2 i y Ey Hc). split; [done|lia].
  - intros i y' (y & Ey & [[_ ->]|(-> & -> & ->)])%prepared_new; [specialize (F3 i y Ey); lia|].
    change (last_commit_before_snapshot x ≤ n). specialize (F3 me x Hx). lia.
  - intros i y' (y & Ey & [[_ ->]|(-> & -> & ->)])%prepared_new Hn; [by apply (F4 i)|]. unfold x', prepare. flags. by apply (F4 me).
  - intros i y' (y & Ey & [[_ ->]|(-> & -> & ->)])%prepared_new; [by apply (F5 i)|]. unfold x', prepare. flags. by apply (F5 me).
Qed.

(** A structure that ends in [me] was settled by the loop over the pivots. *)
Lemma prepared_ends a b xa xb :
  edge st a b → edge st b me → sxact st a = Some xa → sxact st b = Some xb → harmless xa xb x'.
Proof.
  intros Hab Hbc Ea Eb. pose proof (iv_flags _ _ Hi) as [F1 F2 F3 F4 F5]. unfold harmless.
  change (prepare_seq x') with n. destruct (Hset b Hbc xb Eb) as [Hcm'|[Hdm|Hall]].
  - destruct (F2 b xb Eb Hcm'). do 3 right. left. split; [done|lia].
  - auto.
  - destruct (Hall a xa Hab Ea) as [_ [Hc'|[Hro|Hdm]]].
    + destruct (F2 a xa Ea Hc'). do 2 right. left. split; [done|lia].
    + specialize (F3 a xa Ea). do 4 right. left. split; [done|lia].
    + auto.
Qed.

Lemma inv_prepare : inv Idle st'.
Proof.
  destruct (prepare_view n x) as (V1 & V2 & _). fold x' in V1, V2.
  pose proof (edge_lists st st' (prepared_view lists V1) eq_refl) as He. split.
  - eapply graph_ok_frame; [apply Hi|done|done|]. by apply prepared_view.
  - eapply locks_ok_frame; [apply Hi|done|]. by apply (prepared_view (λ x, (locks x, local x))).
  - apply prepared_registry.
  - apply prepared_xmin.
  - apply prepared_flags.
  - intros a b c xa' xb' xc' Hab%He Hbc%He Ea Eb Ec Hp.
    destruct (prepared_new _ _ Ea) as (xa & Ea0 & Ha). destruct (prepared_new _ _ Eb) as (xb & Eb0 & Hb).
    destruct (prepared_new _ _ Ec) as (xc & Ec0 & Hc).
    assert (Hold : harmless xa xb xc' → harmless xa' xb' xc').
    { intros H. destruct Ha as [[_ ->]|(_ & -> & ->)], Hb as [[_ ->]|(_ & -> & ->)]; [done|..];
        repeat first [done|apply harmless_prepare_in|apply harmless_prepare_mid]. }
    apply Hold. destruct Hc as [[_ ->]|(-> & -> & ->)]; [by apply (iv_danger _ _ Hi a b c)|].
    by apply (prepared_ends a b).
Qed.
End prepared.

(** ** The loop over the pivots *)

(** Dooming transactions other than [me], and nothing else. *)
Record doomed_some (me : nat) (st st' : State) : Prop := {
  do_inv : inv Idle st';
  do_same : same_tx st st';
  do_edges a b : edge st' a b ↔ edge st a b;
  do_lists i : lists <$> sxact st' i = lists <$> sxact st i;
  do_conf : conflicts st' = conflicts st;
  do_up i x x' : sxact st i = Some x → sxact st' i = Some x' → is_ x FLAG_DOOMED = true → is_ x' FLAG_DOOMED = true;
  do_me : sxact st' me = sxact st me }.

Lemma doomed_refl me st : inv Idle st → doomed_some me st st.
Proof. intros. split; try done; congruence. Qed.

Lemma doomed_trans me st1 st2 st3 : doomed_some me st1 st2 → doomed_some me st2 st3 → doomed_some me st1 st3.
Proof.
  intros [A1 A2 A3 A4 A5 A6 A7] [B1 B2 B3 B4 B5 B6 B7]. split; try congruence; [by eapply same_tx_trans|..].
  - intros a b. by rewrite B3.
  - intros i x x' Hx Hx' Hd. destruct (same_tx_old _ _ _ _ A2 Hx) as (y & Hy & _). eauto.
Qed.

Lemma settled_up me st st' a : doomed_some me st st' → settled me st a → settled me st' a.
Proof.
  intros [_ T He _ _ Hup _] Hs xa' Ea'. destruct (same_tx_new _ _ _ _ T Ea') as (xa & Ea & [=]).
  destruct (Hs xa Ea) as [H|[H|H]]; [left; congruence|right; left; eauto|right; right]. intros t xt' Hta%He Et'.
  destruct (same_tx_new _ _ _ _ T Et') as (xt & Et & [=]). destruct (H t xt Hta Et) as [Hne [H'|[H'|H']]];
    (split; [done|]); [left; congruence|right; left; congruence|right; right; eauto].
Qed.

Lemma wp_doom_pivot me pivot p fars st (Q : Failure + () → State → Prop) : inv Idle st → sxact st pivot = Some p →
  pivot ≠ me → (∀ c, c ∈ fars → c ∈ in_conflicts p) →
  (∀ e, Q (inl e) st) →
  (∀ st', doomed_some me st st' →
     (∀ p', sxact st' pivot = Some p' → is_ p' FLAG_DOOMED = true ∨
        ∀ c cf xt, c ∈ fars → conflict_at st c = Some cf → sxact st (out cf) = Some xt → out cf ≠ me ∧
          (is_ xt FLAG_COMMITTED = true ∨ is_ xt FLAG_READ_ONLY = true ∨ is_ xt FLAG_DOOMED = true)) →
     Q (inr ()) st') →
  wp (doom_pivot me pivot fars) Q st.
Proof.
  intros Hi Hp Hne Hin HE HQ. revert Hin HQ. induction fars as [|c fars IH]; intros Hin HQ; cbn [doom_pivot].
  - apply wp_ret, HQ; [by apply doomed_refl|]. intros ? _. right. intros c cf xt Hc. elem_nil.
  - destruct (conflict_live _ _ _ _ c Hi Hp) as (cf & xo & xi & Hcf & Ho & _); [right; left; apply Hin; left|].
    apply wp_bind. eapply wp_conflict; [done|]. apply wp_bind. eapply wp_sx; [done|].
    destruct (bool_decide (out cf = me) || _) eqn:Eb.
    + apply wp_bind. eapply wp_sx; [done|]. destruct (is_ p FLAG_PREPARED) eqn:Epr; [by apply wp_fail|].
      eapply wp_sx_mut; [done|]. destruct (inv_doom _ _ _ _ Hi Hp Epr) as [Hi' T'].
      set (st' := put_sxact _ _ st) in *.
      assert (Hs : ∀ j, sxact st' j = if decide (j = pivot) then Some (raise FLAG_DOOMED p) else sxact st j)
        by (intros; apply sxact_put; by eapply sxact_slot).
      apply HQ.
      * split; [done|done| | |done| |].
        -- by apply (put_edges st pivot p).
        -- intros i. rewrite Hs. destruct (decide (i = pivot)) as [->|]; [by rewrite Hp|done].
        -- intros i y y' Hy. rewrite Hs. destruct (decide (i = pivot)); [|congruence]. intros [= <-] _. by flags.
        -- by rewrite Hs, decide_False.
      * intros p' Ep'. rewrite Hs, decide_True in Ep' by done. injection Ep' as <-. left. by flags.
    + apply orb_false_iff in Eb as [Ene Eb]. apply bool_decide_eq_false in Ene. apply IH; [intros; apply Hin; by right|].
      intros st' D Hst'. apply HQ; [done|]. intros p' Ep'. destruct (Hst' p' Ep') as [?|Hall]; [by left|right].
      intros k cf' xt [->|Hk]%elem_of_cons Hcf' Hxt; [|by eapply Hall].
      rewrite Hcf in Hcf'. injection Hcf' as <-. rewrite Ho in Hxt. injection Hxt as <-. split; [done|].
      destruct (is_ xo FLAG_COMMITTED), (is_ xo FLAG_READ_ONLY), (is_ xo FLAG_DOOMED); auto.
Qed.

Lemma wp_pre_commit st pid (Q : Failure + () → State → Prop) : inv0 st →
  (∀ st' e, inv0 st' → by_pid st' = by_pid st → Q (inl e) st') →
  (∀ st', inv0 st' → by_pid st' = by_pid st →
     (∀ me x', by_pid st !! pid = Some me → sxact st' me = Some x' → is_ x' FLAG_PREPARED = true) → Q (inr ()) st') →
  wp (pre_commit pid) Q st.
Proof.
  intros [Hi Hfin] HE HQ. unfold pre_commit. apply wp_bind, wp_self. unfold mine.
  destruct (by_pid st !! pid) as [me|] eqn:Hp; [|apply wp_ret, HQ; done].
  destruct (rg_pid _ _ (iv_registry _ _ Hi) _ _ Hp) as (_ & x & Hx & Hrun).
  assert (H0 : ∀ st', doomed_some me st st' → inv0 st' ∧ by_pid st' = by_pid st).
  { intros st' D. pose proof (st_reg _ _ (do_same _ _ _ D)) as [= _ Eb Ef _ _ Eg _ _]. split; [|done].
    split; [apply D|]. by rewrite Eg, Ef. }
  apply wp_bind. eapply wp_sx; [done|]. destruct (is_ x FLAG_DOOMED) eqn:Ed; [by apply wp_fail, HE|]. apply wp_bind.
  apply (wp_for_each _ _ (λ l st', doomed_some me st st' ∧ (∀ c, c ∈ l → c ∈ in_conflicts x) ∧
    ∀ c cf, c ∈ in_conflicts x → c ∉ l → conflict_at st c = Some cf → settled me st' (out cf))).
  - split_and!; [by apply doomed_refl|done|]. done.
  - intros c l st1 (D1 & Hl & Hdone). pose proof (do_inv _ _ _ D1) as Hi1.
    destruct (g_in _ (iv_graph _ _ Hi) _ _ c Hx) as (cf & y & Hcf & Hcin & Hne & Hy & _); [apply Hl; left|].
    assert (Hcf1 : conflict_at st1 c = Some cf) by (unfold conflict_at; by rewrite (do_conf _ _ _ D1)).
    destruct (same_tx_old _ _ _ _ (do_same _ _ _ D1) Hy) as (y1 & Hy1 & _).
    apply wp_bind. eapply wp_conflict; [done|]. apply wp_bind. eapply wp_sx; [done|].
    assert (Hnext : ∀ st2, doomed_some me st1 st2 → settled me st2 (out cf) → doomed_some me st st2 ∧
      (∀ k, k ∈ l → k ∈ in_conflicts x) ∧
      ∀ k f, k ∈ in_conflicts x → k ∉ l → conflict_at st k = Some f → settled me st2 (out f)).
    { intros st2 D2 Hset. split_and!; [by eapply doomed_trans|intros; apply Hl; by right|]. intros k f Hk Hkl Hf.
      destruct (decide (k = c)) as [->|Hkc]; [by simplify_eq|]. eapply settled_up; [done|].
      eapply (Hdone k); [done| |done]. intros [?|?]%elem_of_cons; done. }
    destruct (is_ y1 FLAG_COMMITTED || is_ y1 FLAG_DOOMED) eqn:Ecd.
    + apply wp_ret, Hnext; [by apply doomed_refl|]. intros xa Exa. simplify_eq. apply orb_true_iff in Ecd. tauto.
    + eapply (wp_doom_pivot me _ y1); [done|done|done|done| |].
      * intros e e'. destruct (H0 st1 D1). by apply HE.
      * intros st2 D2 Hst2. apply Hnext; [done|]. intros p' Ep'. destruct (Hst2 p' Ep') as [?|Hall]; [auto|].
        right. right. intros t xt' Hta%(do_edges _ _ _ D2) Ext'.
        destruct (edge_in _ _ _ _ _ Hi1 Hy1 Hta) as (k & f & Hk & Hf & <-).
        destruct (same_tx_new _ _ _ _ (do_same _ _ _ D2) Ext') as (xt & Ext & [=]).
        destruct (Hall k f xt Hk Hf Ext) as [? [H'|[H'|H']]]; (split; [done|]); [left; congruence|right; left; congruence|].
        right. right. by eapply (do_up _ _ _ D2).
  - intros st1 (D1 & _ & Hdone). pose proof (do_inv _ _ _ D1) as Hi1. apply wp_bind, wp_modify. apply wp_bind, wp_self.
    pose proof (do_me _ _ _ D1) as Hme. rewrite Hx in Hme.
    eapply (wp_sx_mut me x); [exact Hme|]. cbn [last_commit_seq set_last_commit_seq].
    set (st2 := put_sxact _ _ _). destruct (H0 st1 D1) as [[_ Hfin1] Hb1].
    apply HQ; [split| |].
    + eapply (inv_prepare st1 me x); [done|done|done| |].
      * unfold runs in Hrun. by destruct (is_ x FLAG_COMMITTED).
      * intros a Ha%(do_edges _ _ _ D1). destruct (edge_in _ _ _ _ _ Hi Hx Ha) as (c & cf & Hc & Hcf & <-).
        eapply Hdone; [done|apply not_elem_of_nil|done].
    + exact Hfin1.
    + exact Hb1.
    + intros ? x' [= <-] Ex'. unfold st2 in Ex'. rewrite sxact_put, decide_True in Ex'; [|done|exact (sxact_slot _ _ _ Hme)].
      injection Ex' as <-. by flags.
Qed.
