(* ===== verification/SsiSteps.v ===== *)
(** * Serializable snapshot isolation: reads and writes

    What a backend calls while it runs: the locks and conflicts out of its
    reads, the conflicts in of its writes, and the queries. *)
From S2P Require Import Prelude RustM Vec Bson Meth Ssi SsiWf SsiInv SsiLocks SsiEnds.
Local Open Scope Z_scope.

Lemma inv0_same st st' : inv0 st → inv Idle st' → same_tx st st' → inv0 st' ∧ by_pid st' = by_pid st.
Proof.
  intros [_ Hf] Hi T. pose proof (st_reg _ _ T) as [= _ Eb Ef _ _ Eg _ _]. split; [|done]. split; [done|].
  by rewrite Eg, Ef.
Qed.

(** A backend's own transaction. *)
Lemma inv0_mine st pid me : inv0 st → by_pid st !! pid = Some me → ∃ x, sxact st me = Some x ∧ runs x = true.
Proof. intros [Hi _] Hp. destruct (rg_pid _ _ (iv_registry _ _ Hi) _ _ Hp) as (_ & x & ? & ?). eauto. Qed.

(** ** Reads *)

(** A read-only transaction whose snapshot has become safe stops being
    tracked; otherwise the read goes on. *)
Lemma wp_needed_for_read st pid (Q : Failure + option nat → State → Prop) : inv0 st →
  (∀ st', inv0 st' → Q (inr None) st') →
  (∀ me x, by_pid st !! pid = Some me → sxact st me = Some x → Q (inr (Some me)) st) →
  wp (needed_for_read pid) Q st.
Proof.
  intros Hi HN HS. unfold needed_for_read. apply wp_bind, wp_self. unfold mine.
  destruct (by_pid st !! pid) as [me|] eqn:Hp; [|by apply wp_ret, HN].
  destruct (inv0_mine _ _ _ Hi Hp) as (x & Hx & _). apply wp_bind. eapply wp_sx; [done|].
  destruct (is_ x FLAG_RO_SAFE); [|apply wp_ret; by eapply HS].
  apply wp_bind. apply wp_release; [done|done|]. intros st' Hi' _ _. by apply wp_ret, HN.
Qed.

Lemma wp_acquire0 st me x t (Q : Failure + () → State → Prop) : inv0 st → sxact st me = Some x →
  (∀ st' x', inv0 st' → by_pid st' = by_pid st → sxact st' me = Some x' → covers x' t →
     (∀ u, covers x u → covers x' u) → Q (inr ()) st') → wp (acquire me t) Q st.
Proof.
  intros H0 Hx HQ. eapply (wp_acquire Idle me t st x); [apply H0|done|]. intros st' x' Hi' Hs' Hx' Hc Hm.
  destruct (inv_lock_step _ _ _ _ (proj1 H0) Hs' (iv_locks _ _ Hi')) as [_ T].
  destruct (inv0_same _ _ H0 Hi' T). by eapply HQ.
Qed.

Lemma wp_lock_relation st pid db rel (Q : Failure + () → State → Prop) : inv0 st →
  (∀ st', inv0 st' → Q (inr ()) st') → wp (lock_relation pid db rel) Q st.
Proof.
  intros Hi HQ. unfold lock_relation. apply wp_bind. apply wp_needed_for_read; [done|intros; by apply wp_ret, HQ|].
  intros me x Hp Hx. eapply wp_acquire0; eauto.
Qed.

Lemma wp_lock_page st pid db rel blk (Q : Failure + () → State → Prop) : inv0 st →
  (∀ st', inv0 st' → Q (inr ()) st') → wp (lock_page pid db rel blk) Q st.
Proof.
  intros Hi HQ. unfold lock_page. apply wp_bind. apply wp_needed_for_read; [done|intros; by apply wp_ret, HQ|].
  intros me x Hp Hx. eapply wp_acquire0; eauto.
Qed.

Lemma wp_lock_tuple st pid db rel ctid w (Q : Failure + () → State → Prop) : inv0 st →
  (∀ st', inv0 st' → Q (inr ()) st') → wp (lock_tuple pid db rel ctid w) Q st.
Proof.
  intros Hi HQ. unfold lock_tuple. apply wp_bind. apply wp_needed_for_read; [done|intros; by apply wp_ret, HQ|].
  intros me x Hp Hx. apply wp_bind. eapply wp_sx; [done|]. destruct (_ && _); [by apply wp_ret, HQ|].
  unfold lock_exists. apply wp_bind, wp_bind. eapply wp_sx; [done|]. apply wp_ret.
  destruct (is_held x _); [by apply wp_ret, HQ|]. eapply wp_acquire0; eauto.
Qed.

(** ** Conflicts out *)

Lemma wp_conflict_exists ph st r w xr xw (Q : Failure + bool → State → Prop) : inv ph st → sxact st r = Some xr →
  sxact st w = Some xw → (∀ b, (b = true → edge st r w) → Q (inr b) st) → wp (conflict_exists r w) Q st.
Proof.
  intros Hi Hr Hw HQ. unfold conflict_exists. apply wp_bind. eapply wp_sx; [done|]. apply wp_bind. eapply wp_sx; [done|].
  destruct (_ || _); [by apply wp_ret, HQ|].
  set (q := λ c, match conflict_at st c with Some cf => bool_decide (in_ cf = w) | None => false end).
  apply (wp_any_of _ _ q).
  - intros c Hc. destruct (g_out _ (iv_graph _ _ Hi) _ _ _ Hr Hc) as (cf & _ & Hcf & _).
    unfold q, conflict, mbind, meth_bind, self, expect. by rewrite Hcf.
  - apply HQ. intros (c & Hc & Hq)%existsb_True. unfold q in Hq.
    destruct (conflict_at st c) as [cf|] eqn:Hcf; [|done]. apply bool_decide_eq_true in Hq. by exists xr, c, cf.
Qed.

Definition kept {A} (st : State) : Failure + A → State → Prop := λ _ st', inv Idle st' ∧ same_tx st st'.

Lemma kept_refl {A} st (r : Failure + A) : inv Idle st → kept st r st.
Proof. intros. split; [done|apply same_tx_refl]. Qed.

Lemma wp_conflict_out st me x xid : inv Idle st → sxact st me = Some x → wp (conflict_out me xid) (kept st) st.
Proof.
  intros Hi Hx. unfold conflict_out. apply wp_bind. eapply wp_sx; [done|].
  destruct (is_ x FLAG_DOOMED); [by apply wp_fail, kept_refl|]. case_decide; [by apply wp_ret, kept_refl|].
  apply wp_bind, wp_self. destruct (xids st !! xid) as [o|] eqn:Ex; [|by apply wp_ret, kept_refl].
  case_decide as Hne; [by apply wp_ret, kept_refl|].
  destruct (rg_xids _ _ (iv_registry _ _ Hi) _ _ Ex) as (y & Hy & _). apply wp_bind. eapply wp_sx; [done|].
  destruct (is_ y FLAG_DOOMED); [by apply wp_ret, kept_refl|].
  destruct (fl_summary _ _ (iv_flags _ _ Hi) _ _ Hy) as [_ ->].
  destruct (_ && _); [by apply wp_ret, kept_refl|]. unfold concurrent. apply wp_bind, wp_bind. eapply wp_sx; [done|].
  apply wp_ret. destruct (negb _); [by apply wp_ret, kept_refl|].
  apply wp_bind. eapply wp_conflict_exists; [done|done|done|]. intros b _. destruct b; [by apply wp_ret, kept_refl|].
  eapply wp_mono; [by eapply wp_flag_conflict; [..|intros ->]|]. intros r st' (? & ? & _). by split.
Qed.

(** The checks of a version only read. *)
Definition pure {A} (st : State) : Failure + A → State → Prop := λ r st', st' = st ∧ ∃ a, r = inr a.

Lemma pure_ret {A} st (a : A) : wp (mret a) (pure st) st.
Proof. apply wp_ret. split; eauto. Qed.

Lemma pure_bind {A B} st (m : ssi A) (f : A → ssi B) (Q : Failure + B → State → Prop) :
  wp m (pure st) st → (∀ a, wp (f a) Q st) → wp (m ≫= f) Q st.
Proof. intros Hm Hf. apply wp_bind. eapply wp_mono; [done|]. by intros ? ? (-> & a & ->). Qed.

Lemma pure_sx st i x : sxact st i = Some x → wp (sx i) (pure st) st.
Proof. intros. eapply wp_sx; [done|]. split; eauto. Qed.

Lemma pure_writer_state st x : inv Idle st → wp (writer_state x) (pure st) st.
Proof.
  intros Hi. unfold writer_state. apply wp_bind, wp_self. destruct (xids st !! x) as [o|] eqn:Ex; [|apply pure_ret].
  destruct (rg_xids _ _ (iv_registry _ _ Hi) _ _ Ex) as (y & Hy & _). apply wp_bind. eapply wp_sx; [done|]. apply pure_ret.
Qed.

Lemma pure_visible_xid st me m my x : inv Idle st → sxact st me = Some m → wp (visible_xid me my x) (pure st) st.
Proof.
  intros Hi Hm. unfold visible_xid. destruct x as [x|]; [|apply pure_ret]. case_decide; [apply pure_ret|].
  eapply pure_bind; [by apply pure_writer_state|]. intros [[]|]; [|apply pure_ret..].
  unfold concurrent. apply wp_bind, wp_bind. eapply wp_sx; [done|]. apply wp_ret. apply pure_ret.
Qed.

Lemma pure_version_writer st me m v : inv Idle st → sxact st me = Some m → wp (version_writer me v) (pure st) st.
Proof.
  intros Hi Hm. unfold version_writer. apply wp_bind. eapply wp_sx; [done|]. eapply pure_bind.
  { destruct (v_xmin v) as [x|]; [|apply pure_ret]. case_decide; [apply pure_ret|].
    eapply pure_bind; [by apply pure_writer_state|]. intros. apply pure_ret. }
  intros b. eapply pure_bind; [by eapply pure_visible_xid|]. intros iv. eapply pure_bind.
  { case_bool_decide; [by eapply pure_visible_xid|apply pure_ret]. }
  intros dv. destruct b; [apply pure_ret|]. destruct (v_xmax v) as [mx|]; [|apply pure_ret].
  eapply pure_bind.
  { case_decide; [apply pure_ret|by apply pure_writer_state]. }
  intros s. destruct (_ && _); apply pure_ret.
Qed.

Lemma wp_check_version st me m v : inv Idle st → sxact st me = Some m → wp (check_version me v) (kept st) st.
Proof.
  intros Hi Hm. unfold check_version. apply wp_bind. eapply wp_sx; [done|].
  eapply pure_bind; [by eapply pure_version_writer|]. intros [xid|]; [|by apply wp_ret, kept_refl].
  destruct (_ || _); [by apply wp_ret, kept_refl|]. by eapply wp_conflict_out.
Qed.

Lemma wp_scan_conflicts_out st pid db rel ex tuples (Q : Failure + () → State → Prop) : inv0 st →
  (∀ st' r, inv0 st' → Q r st') → wp (scan_conflicts_out pid db rel ex tuples) Q st.
Proof.
  intros H0 HQ. unfold scan_conflicts_out. destruct tuples; [|by apply wp_ret, HQ]. cbn [negb].
  unfold conflict_out_needed. apply wp_bind, wp_bind.
  apply wp_needed_for_read; [done|intros; by apply wp_ret, wp_ret, HQ|]. intros me x Hp Hx.
  apply wp_bind. eapply wp_sx; [done|]. destruct (is_ x FLAG_DOOMED); [by apply wp_fail, HQ|].
  apply wp_ret. apply wp_bind, wp_self.
  apply (wp_for_each _ _ (λ _ st', inv Idle st' ∧ same_tx st st')).
  - by apply (kept_refl (A := ()) st (inr ())), H0.
  - intros v l st1 [Hi1 T1]. destruct (same_tx_old _ _ _ _ T1 Hx) as (x1 & Hx1 & _).
    eapply wp_mono; [by eapply wp_check_version|]. intros [e|[]] st2 [Hi2 T2]; cbn.
    + intros e'. apply HQ. eapply inv0_same; [done|done|by eapply same_tx_trans].
    + split; [done|by eapply same_tx_trans].
  - intros st' [Hi' T']. apply HQ. by eapply inv0_same.
Qed.

(** ** Conflicts in *)

(** What a write leaves of the transactions: conflicts are added, and only the
    writer's own locks change. *)
Record wrote (me : nat) (st st' : State) : Prop := {
  wr_inv : inv Idle st';
  wr_same : same_tx st st';
  wr_edges a b : edge st a b → edge st' a b;
  wr_tx i x' : sxact st' i = Some x' → ∃ x, sxact st i = Some x ∧ is_ x' FLAG_DOOMED = is_ x FLAG_DOOMED ∧
    finished_before x' = finished_before x ∧ (i ≠ me → locks x' = locks x) }.

Lemma wrote_refl me st : inv Idle st → wrote me st st.
Proof. intros. split; [done|apply same_tx_refl|done|eauto]. Qed.

Lemma wrote_trans me st1 st2 st3 : wrote me st1 st2 → wrote me st2 st3 → wrote me st1 st3.
Proof.
  intros [A1 A2 A3 A4] [B1 B2 B3 B4]. split; [done|by eapply same_tx_trans|eauto|]. intros i x3 Hx3.
  destruct (B4 i x3 Hx3) as (x2 & Hx2 & E1 & E2 & E3). destruct (A4 i x2 Hx2) as (x1 & Hx1 & F1 & F2 & F3).
  exists x1. split_and!; [done|congruence..|]. intros Hi. rewrite E3, F3; done.
Qed.

(** A reader the writer has a conflict with. *)
Definition conflicts_with (st : State) (me : nat) (xm : Sxact) (i : nat) (t : Target) : Prop :=
  i ≠ me ∧ ∃ x, sxact st i = Some x ∧ t ∈ locks x ∧ is_ x FLAG_DOOMED = false ∧
    (is_ x FLAG_COMMITTED = false ∨ xmin (snap xm) < finished_before x).

Lemma conflicts_with_wrote me st st' xm i t : wrote me st st' → conflicts_with st me xm i t → conflicts_with st' me xm i t.
Proof.
  intros W (Hne & x & Hx & Ht & Hd & Hf). split; [done|].
  destruct (same_tx_old _ _ _ _ (wr_same _ _ _ W) Hx) as (x' & Hx' & Hc).
  destruct (wr_tx _ _ _ W i x' Hx') as (x0 & Hx0 & E1 & E2 & E3). assert (x0 = x) as -> by congruence.
  injection Hc as ???????????. exists x'. split_and!; [done|by rewrite E3|congruence|]. rewrite E2. destruct Hf; [left; congruence|by right].
Qed.

Lemma wp_flag_in st i me xi xm (Q : Failure + () → State → Prop) : inv Idle st → sxact st i = Some xi →
  sxact st me = Some xm → i ≠ me →
  (∀ st' e, wrote me st st' → Q (inl e) st') → (∀ st', wrote me st st' → edge st' i me → Q (inr ()) st') →
  wp (e ← conflict_exists i me; if (e : bool) then mret () else flag_conflict i me me) Q st.
Proof.
  intros Hi Hxi Hxm Hne HE HQ. apply wp_bind. eapply wp_conflict_exists; [done..|]. intros b Hb. destruct b.
  - apply wp_ret, HQ; [by apply wrote_refl|auto].
  - eapply wp_mono; [by eapply wp_flag_conflict|]. intros r st' (Hi' & T' & He' & Hedge & Htx & _).
    assert (W : wrote me st st').
    { split; [done..|]. intros j x' Hx'. destruct (Htx eq_refl j x' Hx') as (x & ? & ? & ? & ?). eauto 10. }
    destruct r as [e|[]]; auto.
Qed.

Lemma lock_step_wrote me st st' : inv Idle st → inv Idle st' → lock_step me st st' → wrote me st st'.
Proof.
  intros Hi Hi' L. destruct (inv_lock_step _ _ _ _ Hi L (iv_locks _ _ Hi')) as [_ T]. split; [done|done| |].
  - intros a b. apply (lock_step_edges _ _ _ L).
  - intros i x' Hx'.
    pose proof (lock_step_view (λ x, (is_ x FLAG_DOOMED, finished_before x)) me st st' L (λ x, eq_refl) i) as Hv.
    destruct (fmap_view _ _ _ Hv x' Hx') as (x & Hx & [= E1 E2]). exists x. split_and!; [done..|]. intros Hne.
    rewrite (ls_other _ _ _ L i Hne) in Hx'. congruence.
Qed.

Lemma wp_target_conflicts_in st me xm t (Q : Failure + () → State → Prop) : inv Idle st → sxact st me = Some xm →
  (∀ st' e, wrote me st st' → Q (inl e) st') →
  (∀ st', wrote me st st' → (∀ i, conflicts_with st me xm i t → edge st' i me) → Q (inr ()) st') →
  wp (target_conflicts_in me t) Q st.
Proof.
  intros Hi Hm HE HQ. unfold target_conflicts_in. apply wp_bind, wp_self.
  assert (Hholder : ∀ i x, sxact st i = Some x → t ∈ locks x → ∃ h, targets st !! t = Some h ∧ i ∈ h).
  { intros i x Hx. by apply (l_locks _ (iv_locks _ _ Hi) i x). }
  destruct (targets st !! t) as [h|] eqn:Et.
  2: { apply wp_ret, HQ; [by apply wrote_refl|]. intros i (_ & x & Hx & Ht & _). by destruct (Hholder i x Hx Ht) as (? & ? & _). }
  destruct (l_targets _ (iv_locks _ _ Hi) _ _ Et) as (_ & Hnd & Hlive).
  apply wp_bind. eapply wp_sx; [done|]. apply wp_bind.
  apply (wp_for_each _ _ (λ l st', wrote me st st' ∧ (∀ i, i ∈ l → i ∈ h) ∧
    ∀ i, i ∈ h → i ∉ l → conflicts_with st me xm i t → edge st' i me)).
  - split_and!; [by apply wrote_refl|done|done].
  - intros i l st1 (W1 & Hl & Hdone).
    assert (Hnext : ∀ st2, wrote me st1 st2 → (conflicts_with st me xm i t → edge st2 i me) → wrote me st st2 ∧
      (∀ j, j ∈ l → j ∈ h) ∧ ∀ j, j ∈ h → j ∉ l → conflicts_with st me xm j t → edge st2 j me).
    { intros st2 W2 He. split_and!; [by eapply wrote_trans|intros; apply Hl; by right|]. intros j Hj Hjl Hc.
      destruct (decide (j = i)) as [->|Hji]; [auto|]. apply (wr_edges _ _ _ W2), Hdone; [done| |done].
      intros [?|?]%elem_of_cons; done. }
    case_decide as Hne; [apply wp_ret, Hnext; [apply wrote_refl, W1|by intros [? _]]|].
    destruct (Hlive i) as (x & Hx & Ht); [apply Hl; left|].
    destruct (same_tx_old _ _ _ _ (wr_same _ _ _ W1) Hx) as (x1 & Hx1 & Hc1).
    destruct (wr_tx _ _ _ W1 i x1 Hx1) as (x' & E & D1 & D2 & _). assert (x' = x) as -> by congruence. clear E.
    destruct (same_tx_old _ _ _ _ (wr_same _ _ _ W1) Hm) as (m1 & Hm1 & _).
    apply wp_bind. eapply wp_sx; [done|]. destruct (negb (is_ x1 FLAG_DOOMED) && _) eqn:Ecase.
    + eapply (wp_flag_in st1 i me x1 m1); [apply W1|done|done|done| |].
      * intros st2 e W2 e'. by apply HE; eapply wrote_trans.
      * intros st2 W2 He. by apply Hnext.
    + apply wp_ret, Hnext; [apply wrote_refl, W1|]. intros (_ & y & Hy & _ & Hd & Hf). exfalso.
      assert (y = x) as -> by congruence. injection Hc1 as _ _ _ _ _ Ecm _ _ _ _ _. rewrite D1, Hd in Ecase. cbn in Ecase.
      rewrite Ecm, D2 in Ecase. apply orb_false_iff in Ecase as [?%negb_false_iff ?%Z.ltb_ge]. destruct Hf; [congruence|lia].
  - intros st1 (W1 & _ & Hdone).
    assert (Hall : ∀ i, conflicts_with st me xm i t → edge st1 i me).
    { intros i Hc. pose proof Hc as (_ & x & Hx & Ht & _). destruct (Hholder i x Hx Ht) as (h' & [= <-] & Hin).
      apply Hdone; [done|apply not_elem_of_nil|done]. }
    destruct (_ && _); [|by apply wp_ret, HQ].
    destruct (same_tx_old _ _ _ _ (wr_same _ _ _ W1) Hm) as (m1 & Hm1 & _).
    eapply (wp_drop Idle me t st1 m1); [apply W1|done|]. intros st2 x2 Hi2 L2 _ _ _.
    pose proof (lock_step_wrote _ _ _ (wr_inv _ _ _ W1) Hi2 L2) as W2. apply HQ; [by eapply wrote_trans|].
    intros i Hc. by apply (wr_edges _ _ _ W2), Hall.
Qed.

(** The targets a write is checked against. *)
Definition write_targets (db rel : Z) (ctid blk : option Z) : list Target :=
  (ctid_target db rel <$> option_list ctid) ++ (TPage db rel <$> option_list blk) ++ [TRelation db rel].

Lemma wp_check_target st me xm (o : option Z) (f : Z → Target) (Q : Failure + () → State → Prop) : inv Idle st →
  sxact st me = Some xm →
  (∀ st' e, wrote me st st' → Q (inl e) st') →
  (∀ st', wrote me st st' → (∀ i t, t ∈ f <$> option_list o → conflicts_with st me xm i t → edge st' i me) → Q (inr ()) st') →
  wp (match o with Some c => target_conflicts_in me (f c) | None => mret () end) Q st.
Proof.
  intros Hi Hm HE HQ. destruct o as [c|]; cbn.
  - eapply wp_target_conflicts_in; [done..|]. intros st' W He. apply HQ; [done|]. intros i t ->%list_elem_of_singleton. apply He.
  - apply wp_ret, HQ; [by apply wrote_refl|]. intros i t Ht. elem_nil.
Qed.

Lemma conflicts_with_snap st me xm xm' i t : snap xm' = snap xm → conflicts_with st me xm i t → conflicts_with st me xm' i t.
Proof. intros E (? & x & ?). split; [done|]. exists x. by rewrite E. Qed.

Lemma inv_did_write st me x : inv Idle st → sxact st me = Some x →
  wrote me st (put_sxact me (Some (set_did_write true x)) st).
Proof.
  intros Hi Hx. destruct (inv_view _ _ _ _ (set_did_write true) Hi Hx eq_refl) as [Hi' T]. split; [done|done| |].
  - intros a b. by apply (put_edges st me x).
  - intros i x'. rewrite sxact_put by (by eapply sxact_slot). case_decide; [subst|eauto 10]. intros [= <-]. exists x. auto 10.
Qed.

(** [CheckForSerializableConflictIn]: every reader the write conflicts with has
    its conflict recorded, or the writer is cancelled. *)
Lemma wp_conflict_in st pid db rel ctid blk (Q : Failure + () → State → Prop) : inv0 st →
  (∀ st' e, inv0 st' → Q (inl e) st') →
  (∀ st', inv0 st' → (∀ me xm, by_pid st !! pid = Some me → sxact st me = Some xm → wrote me st st' ∧
     ∀ i t, t ∈ write_targets db rel ctid blk → conflicts_with st me xm i t → edge st' i me) → Q (inr ()) st') →
  wp (conflict_in pid db rel ctid blk) Q st.
Proof.
  intros H0 HE HQ. unfold conflict_in. apply wp_bind, wp_self. unfold mine.
  destruct (by_pid st !! pid) as [me|] eqn:Hp; [|by apply wp_ret, HQ].
  destruct (inv0_mine _ _ _ H0 Hp) as (x & Hx & _). pose proof (proj1 H0) as Hi.
  apply wp_bind. eapply wp_sx; [done|]. destruct (is_ x FLAG_DOOMED); [by apply wp_fail, HE|].
  apply wp_bind. eapply wp_sx_mut; [done|]. pose proof (inv_did_write _ _ _ Hi Hx) as W1. set (st1 := put_sxact _ _ st) in *.
  assert (HE' : ∀ st' e, wrote me st st' → Q (inl e) st').
  { intros st' e W. apply HE. eapply inv0_same; [done|apply W..]. }
  assert (Hmine : ∀ st', wrote me st st' → ∃ x', sxact st' me = Some x' ∧ snap x' = snap x).
  { intros st' W. destruct (same_tx_old _ _ _ _ (wr_same _ _ _ W) Hx) as (x' & ? & [=]). eauto. }
  destruct (Hmine st1 W1) as (x1 & Hx1 & S1). apply wp_bind.
  eapply (wp_check_target st1 me x1); [apply W1|done|intros st' e W'; by apply HE'; eapply wrote_trans|].
  intros st2 W2 A2. assert (W02 : wrote me st st2) by (by eapply wrote_trans).
  destruct (Hmine st2 W02) as (x2 & Hx2 & S2). apply wp_bind.
  eapply (wp_check_target st2 me x2); [apply W2|done|intros st' e W'; by apply HE'; eapply wrote_trans|].
  intros st3 W3 A3. assert (W03 : wrote me st st3) by (by eapply wrote_trans).
  destruct (Hmine st3 W03) as (x3 & Hx3 & S3).
  eapply (wp_target_conflicts_in st3 me x3); [apply W3|done|intros st' e W'; by apply HE'; eapply wrote_trans|].
  intros st4 W4 A4. assert (W04 : wrote me st st4) by (by eapply wrote_trans).
  apply HQ; [eapply inv0_same; [done|apply W04..]|]. intros ? ? [= <-] Hxm. assert (xm = x) as -> by congruence.
  split; [done|]. intros i t. unfold write_targets. rewrite !elem_of_app, list_elem_of_singleton.
  intros [Ht|[Ht|Ht]] Hc.
  - apply (wr_edges _ _ _ W4), (wr_edges _ _ _ W3). eapply A2; [done|]. eapply conflicts_with_snap; [done|].
    by eapply conflicts_with_wrote.
  - apply (wr_edges _ _ _ W4). eapply A3; [done|]. eapply conflicts_with_snap; [done|]. by eapply conflicts_with_wrote.
  - subst t. apply A4. eapply conflicts_with_snap; [done|]. by eapply conflicts_with_wrote.
Qed.

(** [CheckTableForSerializableConflictIn] *)
Lemma wp_table_conflict_in st pid db rel (Q : Failure + () → State → Prop) : inv0 st →
  (∀ st' r, inv0 st' → Q r st') → wp (table_conflict_in pid db rel) Q st.
Proof.
  intros H0 HQ. unfold table_conflict_in. apply wp_bind, wp_self. unfold mine.
  destruct (global_xmin st) as [g|]; [|by apply wp_ret, HQ].
  destruct (by_pid st !! pid) as [me|] eqn:Hp; [|by apply wp_ret, HQ].
  destruct (inv0_mine _ _ _ H0 Hp) as (x & Hx & _). apply wp_bind. eapply wp_sx_mut; [done|].
  pose proof (inv_did_write _ _ _ (proj1 H0) Hx) as W1.
  assert (Hfin : ∀ st' r, wrote me st st' → Q r st').
  { intros st' r W. apply HQ. eapply inv0_same; [done|apply W..]. }
  apply (wp_for_each _ _ (λ _ st', wrote me st st')); [done| |intros; by apply Hfin].
  intros t ts st1 W2. apply wp_bind, wp_self. pose proof (wr_inv _ _ _ W2) as Hi1.
  apply (wp_for_each _ _ (λ l st', wrote me st st' ∧ wrote me st1 st' ∧ ∀ i, i ∈ l → is_Some (sxact st1 i))).
  - split_and!; [done|by apply wrote_refl|]. intros i. destruct (targets st1 !! t) as [h|] eqn:E; [|by intros ?%not_elem_of_nil].
    destruct (l_targets _ (iv_locks _ _ Hi1) _ _ E) as (_ & _ & Hl). intros (y & -> & _)%Hl. by eexists.
  - intros i l st2 (W3 & W13 & Hl). case_decide as Hne; [apply wp_ret; split_and!; [done..|intros; apply Hl; by right]|].
    destruct (Hl i) as [y Hy]; [left|]. destruct (same_tx_old _ _ _ _ (wr_same _ _ _ W13) Hy) as (y2 & Hy2 & _).
    destruct (same_tx_old _ _ _ _ (wr_same _ _ _ W3) Hx) as (x2 & Hx2 & _).
    eapply (wp_flag_in st2 i me y2 x2); [apply W3|done|done|done| |].
    + intros st3 e W4 e' e''. by apply Hfin; eapply wrote_trans.
    + intros st3 W4 _. split_and!; [by eapply wrote_trans|by eapply wrote_trans|intros; apply Hl; by right].
  - by intros st' [W _].
Qed.

(** ** Versions and page splits *)

Lemma wp_note_version st pid db rel ctid ins doc (Q : Failure + () → State → Prop) : inv0 st →
  (∀ st', inv0 st' → Q (inr ()) st') → wp (note_version pid db rel ctid ins doc) Q st.
Proof.
  intros H0 HQ. unfold note_version. apply wp_bind, wp_self. unfold mine.
  destruct (by_pid st !! pid) as [me|] eqn:Hp; [|by apply wp_ret, HQ].
  destruct (inv0_mine _ _ _ H0 Hp) as (x & Hx & _). apply wp_bind. eapply wp_sx; [done|].
  destruct (top_xid x) as [xid|] eqn:Et; [|by apply wp_ret, HQ]. apply wp_modify, HQ. destruct H0 as [Hi Hfin].
  split; [|exact Hfin]. eapply inv_registers; [done..| | |].
  - destruct (iv_registry _ _ Hi) as [R1 R2 R3 R4 R5 R6 R7 R8 R9]. split; try done. cbn [versions set_versions].
    intros k m [[<- <-]|[Hne E]]%lookup_insert_Some; [|by apply (R8 k m)]. split; [apply insert_non_empty|].
    assert (Hold : ∀ c v w, default ∅ (versions st !! (db, rel)) !! c = Some v →
      (is_Some (v_xmin v) ∨ is_Some (v_xmax v)) ∧
      (v_xmin v = Some w ∨ v_xmax v = Some w → ∃ i y, sxact st i = Some y ∧ top_xid y = Some w)).
    { intros c v w E. destruct (versions st !! (db, rel)) as [m0|] eqn:Em; cbn in E; [|by rewrite lookup_empty in E].
      destruct (R8 _ _ Em) as [_ Hc]. destruct (Hc c v E) as [? Hw]. split; [done|apply Hw]. }
    intros c v [[<- <-]|[Hne E]]%lookup_insert_Some.
    + cbn. split; [destruct ins; [left|right]; by eexists|]. intros w Hw.
      assert (Hmine : w = xid ∨ ∃ v0, default ∅ (versions st !! (db, rel)) !! ctid = Some v0 ∧ (v_xmin v0 = Some w ∨ v_xmax v0 = Some w)).
      { destruct (default ∅ (versions st !! (db, rel)) !! ctid) as [v0|]; cbn in Hw; destruct ins; naive_solver. }
      destruct Hmine as [->|(v0 & Hv0 & Hw0)]; [by exists me, x|]. by apply (Hold ctid v0 w Hv0).
    + split; [by destruct (Hold c v 0 E)|]. intros w Hw. by apply (Hold c v w E).
  - eapply xmin_ok_counts; [apply Hi|done..].
  - by destruct (iv_flags _ _ Hi).
Qed.

Lemma wp_page_split st db rel old new (Q : Failure + () → State → Prop) : inv0 st →
  (∀ st', inv0 st' → Q (inr ()) st') → wp (page_split db rel old new) Q st.
Proof.
  intros H0 HQ. unfold page_split. apply wp_bind, wp_self. destruct (global_xmin st); [|by apply wp_ret, HQ].
  apply (wp_for_each _ _ (λ l st', inv Idle st' ∧ same_tx st st' ∧ ∀ i, i ∈ l → is_Some (sxact st i))).
  - split_and!; [apply H0|apply same_tx_refl|]. intros i.
    destruct (targets st !! _) as [h|] eqn:E; [|by intros ?%not_elem_of_nil].
    destruct (l_targets _ (iv_locks _ _ (proj1 H0)) _ _ E) as (_ & _ & Hl). intros (y & -> & _)%Hl. by eexists.
  - intros i l st1 (Hi1 & T1 & Hl). destruct (Hl i) as [y Hy]; [left|]. destruct (same_tx_old _ _ _ _ T1 Hy) as (y1 & Hy1 & _).
    eapply (wp_create_lock Idle i _ st1 y1); [done|done|]. intros st2 x2 Hi2 L2 _ _ _.
    destruct (inv_lock_step _ _ _ _ Hi1 L2 (iv_locks _ _ Hi2)) as [_ T2].
    split_and!; [done|by eapply same_tx_trans|intros; apply Hl; by right].
  - intros st' (Hi' & T' & _). apply HQ. by eapply inv0_same.
Qed.

(** ** Queries *)

Lemma wp_set_deferrable_waiting st pid on (Q : Failure + () → State → Prop) : inv0 st →
  (∀ st', inv0 st' → Q (inr ()) st') → wp (set_deferrable_waiting pid on) Q st.
Proof.
  intros H0 HQ. unfold set_deferrable_waiting. apply wp_bind, wp_self. unfold mine.
  destruct (by_pid st !! pid) as [me|] eqn:Hp; [|by apply wp_ret, HQ].
  destruct (inv0_mine _ _ _ H0 Hp) as (x & Hx & _). eapply wp_sx_mut; [done|]. apply HQ.
  eapply inv0_same; [done|..]; eapply (inv_view Idle); [apply H0|done| |apply H0|done|];
    destruct on; unfold view, core; by flags.
Qed.

Lemma wp_deferrable_state st pid : inv0 st → wp (deferrable_state pid) (pure st) st.
Proof.
  intros H0. unfold deferrable_state. apply wp_bind, wp_self. unfold mine.
  destruct (by_pid st !! pid) as [me|] eqn:Hp; [|apply pure_ret].
  destruct (inv0_mine _ _ _ H0 Hp) as (x & Hx & _). apply wp_bind. eapply wp_sx; [done|]. apply pure_ret.
Qed.

Lemma wp_safe_snapshot_blocking_pids st pid : inv0 st → wp (safe_snapshot_blocking_pids pid) (pure st) st.
Proof.
  intros H0. unfold safe_snapshot_blocking_pids. apply wp_bind, wp_self. unfold mine.
  destruct (by_pid st !! pid) as [me|] eqn:Hp; [|apply pure_ret].
  destruct (inv0_mine _ _ _ H0 Hp) as (x & Hx & _). apply wp_bind. eapply wp_sx; [done|].
  destruct (negb _); [apply pure_ret|].
  assert (Hl : ∀ c, c ∈ possible_unsafe x → is_Some (conflict_at st c)).
  { intros c Hc. destruct (g_pos _ (iv_graph _ _ (proj1 H0)) _ _ _ Hx Hc) as (cf & _ & _ & -> & _). by eexists. }
  generalize (@nil Z). revert Hl. induction (possible_unsafe x) as [|c l IH]; intros Hl acc; cbn [blocking_pids]; [apply pure_ret|].
  destruct (Hl c) as [cf Hcf]; [left|]. apply wp_bind. eapply wp_conflict; [done|]. apply wp_bind, wp_self.
  apply IH. intros k Hk. apply Hl. by right.
Qed.
