(* ===== verification/SsiProps.v ===== *)
(** * Serializable snapshot isolation: the calls of the server

    The per-cluster states behind [ssi::with], the calls the server makes on
    them, and what holds in every state such calls reach. *)
From S2P Require Import Prelude RustM Vec Bson Meth Ssi SsiWf SsiInv SsiLocks SsiEnds SsiStart SsiSteps.
Local Open Scope Z_scope.

(** ** Clusters *)

(** [with(key, next_xid, f)]: the cluster's state, made on first use. *)
Definition cluster (all : gmap Z State) (key : Z) : State := default new_state (all !! key).
Definition with_ {A} (key next : Z) (f : ssi A) (all : gmap Z State) : run (gmap Z State * (Failure + A)) :=
  match f (set_next_xid next (cluster all key)) with
  | Ok (st, r) => Ok (<[key := st]> all, r)
  | Err e => Err e
  | Panic => Panic
  | NoFuel => NoFuel
  end.

Definition forget (key : Z) (all : gmap Z State) : gmap Z State := delete key all.

(** The calls of serializable.rs, one [ssi::with] each. *)
Inductive call :=
  | CRegister (pid : Z) (s : Snap) (ro : bool)
  | CSetXid (pid xid : Z)
  | CLockRelation (pid db rel : Z)
  | CLockPage (pid db rel blk : Z)
  | CLockTuple (pid db rel ctid : Z) (writer : option Z)
  | CScan (pid db rel : Z) (examined : Z → option Doc → bool) (tuples : bool)
  | CConflictIn (pid db rel : Z) (ctid blk : option Z)
  | CTableConflictIn (pid db rel : Z)
  | CNoteVersion (pid db rel ctid : Z) (inserted : bool) (doc : option Doc)
  | CPageSplit (db rel old new : Z)
  | CDeferrableWaiting (pid : Z) (on : bool)
  | CDeferrableState (pid : Z)
  | CBlockingPids (pid : Z)
  | CPreCommit (pid : Z)
  | CRelease (pid : Z) (commit safe : bool).

Definition exec (c : call) : ssi () :=
  match c with
  | CRegister pid s ro => _ ← register pid s ro; mret ()
  | CSetXid pid xid => set_xid_of pid xid
  | CLockRelation pid db rel => lock_relation pid db rel
  | CLockPage pid db rel blk => lock_page pid db rel blk
  | CLockTuple pid db rel ctid w => lock_tuple pid db rel ctid w
  | CScan pid db rel ex tuples => scan_conflicts_out pid db rel ex tuples
  | CConflictIn pid db rel ctid blk => conflict_in pid db rel ctid blk
  | CTableConflictIn pid db rel => table_conflict_in pid db rel
  | CNoteVersion pid db rel ctid ins doc => note_version pid db rel ctid ins doc
  | CPageSplit db rel old new => page_split db rel old new
  | CDeferrableWaiting pid on => set_deferrable_waiting pid on
  | CDeferrableState pid => _ ← deferrable_state pid; mret ()
  | CBlockingPids pid => _ ← safe_snapshot_blocking_pids pid; mret ()
  | CPreCommit pid => pre_commit pid
  | CRelease pid commit safe => release pid commit safe
  end.

(** [ssi_end(true)] only follows a successful [ssi_pre_commit]. *)
Definition allowed (st : State) (c : call) : Prop :=
  match c with CRelease pid commit _ => may_release st pid commit | _ => True end.

Inductive reachable : gmap Z State → Prop :=
  | reach_init : reachable ∅
  | reach_forget all key : reachable all → reachable (forget key all)
  | reach_call all key next c all' r : reachable all → allowed (cluster all key) c →
      with_ key next (exec c) all = Ok (all', r) → reachable all'.

(** ** The invariant *)

Lemma inv0_new : inv0 new_state.
Proof.
  assert (Hnil : ∀ n : nat, n ∉ []) by (intros; apply not_elem_of_nil).
  split; [|done]. split.
  - split; try done; try constructor; intros c; by intros ?%Hnil.
  - by split.
  - assert (Hact : NoDup (@nil nat) ∧ ∀ i, i ∈ (@nil nat) ↔ is_Some (sxact new_state i)).
    { split; [constructor|]. intros i. split; [by intros ?%Hnil|]. by intros [x Hx]. }
    split; try done; [constructor|]. intros i Hi. by apply Hnil in Hi.
  - intros i x. done.
  - split; done.
  - intros a b c xa xb xc (x & k & cf & Hx & _). done.
Qed.

Lemma inv0_next_xid n st : inv0 st → inv0 (set_next_xid n st).
Proof.
  intros [Hi Hf]. split; [|exact Hf]. by apply (during_counters Idle 0 st).
Qed.

Lemma exec_inv0 c st : inv0 st → allowed st c → wp (exec c) (λ _ st', inv0 st') st.
Proof.
  intros H0 Hal. destruct c; cbn [exec] in *.
  - apply wp_bind. apply wp_register; [done|]. intros. by apply wp_ret.
  - by apply wp_set_xid_of.
  - by apply wp_lock_relation.
  - by apply wp_lock_page.
  - by apply wp_lock_tuple.
  - by apply wp_scan_conflicts_out.
  - by apply wp_conflict_in.
  - by apply wp_table_conflict_in.
  - by apply wp_note_version.
  - by apply wp_page_split.
  - by apply wp_set_deferrable_waiting.
  - eapply pure_bind; [by apply wp_deferrable_state|]. intros. by apply wp_ret.
  - eapply pure_bind; [by apply wp_safe_snapshot_blocking_pids|]. intros. by apply wp_ret.
  - by apply wp_pre_commit.
  - by apply wp_release.
Qed.

Lemma allowed_next n st c : allowed st c → allowed (set_next_xid n st) c.
Proof. by destruct c. Qed.

Lemma reachable_inv0 all : reachable all → ∀ key, inv0 (cluster all key).
Proof.
  induction 1 as [|all k Hr IH|all k next c all' r Hr IH Hal Hc]; intros key; unfold cluster in *.
  - rewrite lookup_empty. apply inv0_new.
  - unfold forget. destruct (decide (key = k)) as [->|Hne]; [rewrite lookup_delete_eq; apply inv0_new|].
    rewrite lookup_delete_ne by done. apply IH.
  - unfold with_ in Hc. destruct (exec_inv0 c (set_next_xid next (cluster all k))) as (st' & r' & E & Hi').
    { apply inv0_next_xid, IH. }
    { by apply allowed_next. }
    rewrite E in Hc. injection Hc as <- <-.
    destruct (decide (key = k)) as [->|Hne]; [by rewrite lookup_insert_eq|]. rewrite lookup_insert_ne by done. apply IH.
Qed.

Lemma wp_run {A} (m : ssi A) Q st st' r : wp m Q st → m st = Ok (st', r) → Q r st'.
Proof. intros (st1 & r1 & E & HQ) E'. rewrite E in E'. by injection E' as <- <-. Qed.

(** ** The count of the read/write transactions *)

(** With no snapshot, none is counted. *)
Definition xmin_zero (st : State) : Prop := global_xmin st = None → global_xmin_count st = 0.

(** What a method leaves alone: the backends, the count, and the read-only flag
    of every slot but [P]'s that it does not vacate. *)
Record calm (P : nat → Prop) (st st' : State) : Prop := {
  cm_count : writable_count st' = writable_count st;
  cm_pids : by_pid st' = by_pid st;
  cm_zero : xmin_zero st → xmin_zero st';
  cm_flag i : P i ∨ sxact st' i = None ∨
    (λ x, is_ x FLAG_READ_ONLY) <$> sxact st' i = (λ x, is_ x FLAG_READ_ONLY) <$> sxact st i }.

Definition nobody (i : nat) : Prop := False.
Definition calm_m {A} (P : nat → Prop) (m : ssi A) : Prop :=
  ∀ st st' r, m st = Ok (st', r) → calm P st st'.

Lemma calm_refl P st : calm P st st.
Proof. split; auto. Qed.

Lemma calm_trans P st1 st2 st3 : calm P st1 st2 → calm P st2 st3 → calm P st1 st3.
Proof.
  intros [C1 B1 Z1 F1] [C2 B2 Z2 F2]. split; [congruence|congruence|auto|]. intros i.
  destruct (F2 i) as [?|[?|E2]]; [tauto|tauto|]. destruct (F1 i) as [?|[E1|E1]]; [tauto| |].
  - right. left. rewrite E1 in E2. by destruct (sxact st3 i).
  - right. right. congruence.
Qed.

Lemma bind_run {A B} (m : ssi A) (f : A → ssi B) st st' r : (m ≫= f) st = Ok (st', r) →
  (∃ e, m st = Ok (st', inl e)) ∨ ∃ st1 a, m st = Ok (st1, inr a) ∧ f a st1 = Ok (st', r).
Proof.
  unfold mbind, meth_bind. destruct (m st) as [[st1 [e|a]]| | |]; try done; [|eauto].
  intros [= <- <-]. eauto.
Qed.

Lemma bind_assoc {A B D} (m : ssi A) (f : A → ssi B) (g : B → ssi D) st :
  ((m ≫= f) ≫= g) st = (m ≫= (λ a, f a ≫= g)) st.
Proof. unfold mbind, meth_bind. by destruct (m st) as [[st1 [e|a]]| | |]. Qed.

Lemma calm_bind {A B} P (m : ssi A) (f : A → ssi B) : calm_m P m → (∀ a, calm_m P (f a)) → calm_m P (m ≫= f).
Proof.
  intros Hm Hf st st' r [[e E]|(st1 & a & E1 & E2)]%bind_run; [by eapply Hm|].
  eapply calm_trans; [by eapply Hm|by eapply Hf].
Qed.

Lemma calm_ret {A} P (a : A) : calm_m P (mret a).
Proof. intros st st' r [= <- <-]. apply calm_refl. Qed.
Lemma calm_fail {A} P e : calm_m P (fail e : ssi A).
Proof. intros st st' r [= <- <-]. apply calm_refl. Qed.
Lemma calm_self P : calm_m P self.
Proof. intros st st' r [= <- <-]. apply calm_refl. Qed.
Lemma calm_expect {A} P (o : option A) : calm_m P (expect o).
Proof. intros st st' r. unfold expect. destruct o; [|done]. intros [= <- <-]. apply calm_refl. Qed.
Lemma calm_nofuel {A} P : calm_m P ((λ _, NoFuel) : ssi A).
Proof. by intros st st' r. Qed.
Lemma calm_modify P f : (∀ st, calm P st (f st)) → calm_m P (modify f).
Proof. intros H st st' r [= <- <-]. apply H. Qed.

Lemma calm_for_each {A} P (l : list A) f : (∀ x, calm_m P (f x)) → calm_m P (for_each l f).
Proof. intros Hf. induction l; cbn; [apply calm_ret|]. by apply calm_bind. Qed.
Lemma calm_any_of {A} P (l : list A) f : (∀ x, calm_m P (f x)) → calm_m P (any_of l f).
Proof. intros Hf. induction l; cbn; [apply calm_ret|]. apply calm_bind; [done|]. intros []; [apply calm_ret|done]. Qed.

Lemma calm_xmin P st st' : writable_count st' = writable_count st → by_pid st' = by_pid st →
  sxacts st' = sxacts st → (xmin_zero st → xmin_zero st') → calm P st st'.
Proof. intros ? ? E ?. split; [done|done|done|]. intros i. right. right. unfold sxact. by rewrite E. Qed.

Lemma calm_same P st st' : writable_count st' = writable_count st → by_pid st' = by_pid st →
  sxacts st' = sxacts st → global_xmin st' = global_xmin st → global_xmin_count st' = global_xmin_count st →
  calm P st st'.
Proof. intros ? ? ? Eg Ec. apply calm_xmin; [done..|]. unfold xmin_zero. by rewrite Eg, Ec. Qed.

Lemma slot_put st i o j : sxact (put_sxact i o st) j =
  if decide (i = j ∧ (i < length (sxacts st))%nat) then o else sxact st j.
Proof.
  unfold sxact, put_sxact. cbn. destruct (decide (i = j)) as [<-|Hn].
  - destruct (decide (i < length (sxacts st))%nat) as [Hl|Hl].
    + rewrite list_lookup_insert_eq by done. rewrite decide_True by done. done.
    + rewrite decide_False by tauto. rewrite list_insert_ge by lia. done.
  - rewrite list_lookup_insert_ne by done. by rewrite decide_False by tauto.
Qed.

Lemma calm_put P st i x y : sxact st i = Some x → (P i ∨ is_ y FLAG_READ_ONLY = is_ x FLAG_READ_ONLY) →
  calm P st (put_sxact i (Some y) st).
Proof.
  intros Hx Hy. split; [done|done|done|]. intros j. rewrite slot_put. case_decide as E; [|auto].
  destruct E as [<- _]. destruct Hy as [?|Hy]; [auto|]. right. right. rewrite Hx. cbn. by rewrite Hy.
Qed.

Lemma calm_sx_mut P i f : (∀ x, P i ∨ is_ (f x) FLAG_READ_ONLY = is_ x FLAG_READ_ONLY) → calm_m P (sx_mut i f).
Proof.
  intros Hf st st' r [[e E]|(st1 & x & E1 & E2)]%bind_run.
  - apply bind_run in E as [[? [=]]|(? & ? & [= <- <-] & E)]. unfold expect in E. by destruct (sxact st i).
  - apply bind_run in E1 as [[? [=]]|(? & ? & [= <- <-] & E1)]. unfold expect in E1.
    destruct (sxact st i) as [y|] eqn:E; [|done]. injection E1 as <- <-. injection E2 as <- <-.
    by eapply calm_put.
Qed.

Lemma calm_if_live P i f st : (∀ x, is_ (f x) FLAG_READ_ONLY = is_ x FLAG_READ_ONLY) → calm P st (if_live i f st).
Proof.
  intros Hf. unfold if_live. destruct (sxact st i) as [x|] eqn:E; [|apply calm_refl].
  eapply calm_put; [done|]. right. apply Hf.
Qed.

Lemma calm_put_none P st i : calm P st (put_sxact i None st).
Proof. split; [done|done|done|]. intros j. rewrite slot_put. case_decide; auto. Qed.

Create HintDb calm.
#[export] Hint Resolve calm_ret calm_fail calm_self calm_expect calm_nofuel calm_put_none : calm.

(** Read-only flags under the updates of one transaction. *)
Ltac keep_flag :=
  intros; right;
  first [ reflexivity
        | rewrite ?is_raise, ?is_lower by reflexivity; reflexivity
        | unfold note_out_conflict, dec_child; repeat case_match; rewrite ?is_raise by reflexivity; reflexivity ].
Ltac calm :=
  repeat first
    [ progress intros | progress cbv beta | solve [eauto with calm] | apply calm_sx_mut; solve [keep_flag] | simple apply calm_bind | apply calm_for_each | apply calm_any_of
    | apply calm_modify; intros; solve [by apply calm_same | eauto with calm]
    | case_match ].

Lemma sx_calm P i : calm_m P (sx i).
Proof. unfold sx. calm. Qed.
Lemma conflict_calm P c : calm_m P (conflict c).
Proof. unfold conflict. calm. Qed.
#[export] Hint Resolve sx_calm conflict_calm : calm.
Lemma release_conflict_calm P c : calm_m P (release_conflict c).
Proof.
  unfold release_conflict. calm; apply calm_modify; intros; by apply calm_if_live.
Qed.
#[export] Hint Resolve release_conflict_calm : calm.
Lemma new_conflict_calm P o i : calm_m P (new_conflict o i).
Proof. unfold new_conflict. calm. Qed.
#[export] Hint Resolve new_conflict_calm : calm.
Lemma set_conflict_calm P o i : calm_m P (set_conflict o i).
Proof. unfold set_conflict. calm. Qed.
Lemma set_possible_calm P o i : calm_m P (set_possible o i).
Proof. unfold set_possible. calm. Qed.
Lemma flag_unsafe_calm P i : calm_m P (flag_unsafe i).
Proof. unfold flag_unsafe. calm. Qed.
Lemma conflict_exists_calm P o i : calm_m P (conflict_exists o i).
Proof. unfold conflict_exists. calm. Qed.
#[export] Hint Resolve set_conflict_calm set_possible_calm flag_unsafe_calm conflict_exists_calm : calm.

Lemma unhold_same i t st : sxacts (unhold i t st) = sxacts st ∧ writable_count (unhold i t st) = writable_count st ∧
  by_pid (unhold i t st) = by_pid st ∧ global_xmin (unhold i t st) = global_xmin st ∧
  global_xmin_count (unhold i t st) = global_xmin_count st.
Proof. unfold unhold. by destruct (targets st !! t). Qed.
Lemma unhold_calm P i ts st : calm P st (foldl (λ st t, unhold i t st) st ts).
Proof.
  revert st. induction ts as [|t ts IH]; intros st; [apply calm_refl|]. cbn.
  destruct (unhold_same i t st) as (? & ? & ? & ? & ?). eapply calm_trans; [|apply IH]. by apply calm_same.
Qed.
#[export] Hint Resolve unhold_calm : calm.

Lemma release_one_calm P i b : calm_m P (release_one i b).
Proof. unfold release_one. calm. Qed.
#[export] Hint Resolve release_one_calm : calm.
Lemma new_global_xmin_calm P : calm_m P new_global_xmin.
Proof.
  unfold new_global_xmin. calm; apply calm_modify; intros; repeat case_match; (apply calm_xmin; [done..|]); unfold xmin_zero; cbn; naive_solver.
Qed.
#[export] Hint Resolve new_global_xmin_calm : calm.
Lemma clear_old_loop_calm P fuel : ∀ i, calm_m P (clear_old_loop fuel i).
Proof. induction fuel as [|fuel IH]; intros i; cbn [clear_old_loop]; cbv zeta; calm. Qed.
#[export] Hint Resolve clear_old_loop_calm : calm.
Lemma clear_old_calm P : calm_m P clear_old.
Proof. unfold clear_old. calm. Qed.
#[export] Hint Resolve clear_old_calm : calm.
Lemma end_xmin_calm P i : calm_m P (end_xmin i).
Proof.
  unfold end_xmin. calm. apply calm_modify. intros. apply calm_xmin; [done..|].
  unfold xmin_zero. cbn. intros Hz ->%Hz. done.
Qed.
Lemma end_possible_calm P i c w : calm_m P (end_possible i c w).
Proof. unfold end_possible. calm. Qed.
Lemma end_in_conflicts_calm P i c : calm_m P (end_in_conflicts i c).
Proof. unfold end_in_conflicts. calm. Qed.
Lemma end_out_conflicts_calm P i c b : calm_m P (end_out_conflicts i c b).
Proof. unfold end_out_conflicts, note_out_conflict. calm. Qed.
Lemma mark_ended_calm me c w n : calm_m (λ i, i = me) (mark_ended me c w n).
Proof.
  unfold mark_ended. calm; try (apply calm_sx_mut; auto).
Qed.
#[export] Hint Resolve end_xmin_calm end_possible_calm end_in_conflicts_calm end_out_conflicts_calm mark_ended_calm : calm.

(** Reads and writes. *)
Lemma create_lock_calm P i t : calm_m P (create_lock i t).
Proof. unfold create_lock. calm. Qed.
Lemma remove_lock_calm P i t : calm_m P (remove_lock i t).
Proof.
  unfold remove_lock. apply calm_modify. intros st. destruct (unhold_same i t st) as (? & ? & ? & ? & ?).
  eapply calm_trans; [|by apply calm_if_live]. by apply calm_same.
Qed.
Lemma decrement_parents_calm P i t : calm_m P (decrement_parents i t).
Proof. unfold decrement_parents. calm. Qed.
#[export] Hint Resolve create_lock_calm remove_lock_calm decrement_parents_calm : calm.
Lemma delete_children_calm P i t : calm_m P (delete_children i t).
Proof. unfold delete_children. calm. Qed.
Lemma count_children_calm P i ts : ∀ o, calm_m P (count_children i ts o).
Proof. induction ts as [|t ts IH]; intros o; cbn [count_children]; calm. Qed.
Lemma lock_exists_calm P i t : calm_m P (lock_exists i t).
Proof. unfold lock_exists. calm. Qed.
#[export] Hint Resolve delete_children_calm count_children_calm lock_exists_calm : calm.
Lemma acquire_fuel_calm P fuel : ∀ i t, calm_m P (acquire_fuel fuel i t).
Proof. unfold coarser_covers. induction fuel as [|fuel IH]; intros i t; cbn [acquire_fuel]; unfold coarser_covers; calm. Qed.
Lemma acquire_calm P i t : calm_m P (acquire i t).
Proof. apply acquire_fuel_calm. Qed.
Lemma check_failure_calm P r w me : calm_m P (check_failure r w me).
Proof. unfold check_failure. calm. Qed.
#[export] Hint Resolve acquire_calm check_failure_calm : calm.
Lemma flag_conflict_calm P r w me : calm_m P (flag_conflict r w me).
Proof. unfold flag_conflict. calm. Qed.
Lemma doom_pivot_calm P me p l : calm_m P (doom_pivot me p l).
Proof. induction l as [|far l IH]; cbn [doom_pivot]; calm. Qed.
#[export] Hint Resolve flag_conflict_calm doom_pivot_calm : calm.
Lemma pre_commit_calm P pid : calm_m P (pre_commit pid).
Proof. unfold pre_commit. calm. Qed.
Lemma conflict_out_calm P me xid : calm_m P (conflict_out me xid).
Proof. unfold conflict_out, concurrent. calm. Qed.
Lemma version_writer_calm P me v : calm_m P (version_writer me v).
Proof. unfold version_writer, visible_xid, writer_state, concurrent. calm. Qed.
#[export] Hint Resolve conflict_out_calm version_writer_calm : calm.
Lemma check_version_calm P me v : calm_m P (check_version me v).
Proof. unfold check_version. calm. Qed.
Lemma target_conflicts_in_calm P me t : calm_m P (target_conflicts_in me t).
Proof. unfold target_conflicts_in. calm. Qed.
#[export] Hint Resolve check_version_calm target_conflicts_in_calm : calm.
Lemma conflict_in_calm P pid db rel c b : calm_m P (conflict_in pid db rel c b).
Proof. unfold conflict_in. calm. Qed.
Lemma table_conflict_in_calm P pid db rel : calm_m P (table_conflict_in pid db rel).
Proof. unfold table_conflict_in. calm. Qed.
Lemma note_version_calm P pid db rel c i d : calm_m P (note_version pid db rel c i d).
Proof. unfold note_version. calm. Qed.
Lemma page_split_calm P db rel o n : calm_m P (page_split db rel o n).
Proof. unfold page_split. calm. Qed.
Lemma set_xid_of_calm P pid xid : calm_m P (set_xid_of pid xid).
Proof. unfold set_xid_of, set_xid. calm. Qed.
Lemma set_deferrable_calm P pid on : calm_m P (set_deferrable_waiting pid on).
Proof. unfold set_deferrable_waiting. calm. Qed.
Lemma deferrable_state_calm P pid : calm_m P (deferrable_state pid).
Proof. unfold deferrable_state. calm. Qed.
Lemma blocking_pids_calm P cs : ∀ acc, calm_m P (blocking_pids cs acc).
Proof. induction cs as [|c cs IH]; intros acc; cbn [blocking_pids]; calm. Qed.
#[export] Hint Resolve blocking_pids_calm : calm.
Lemma safe_snapshot_calm P pid : calm_m P (safe_snapshot_blocking_pids pid).
Proof. unfold safe_snapshot_blocking_pids. calm. Qed.
Lemma watch_writers_calm P id : calm_m P (watch_writers id).
Proof. unfold watch_writers. calm. Qed.
#[export] Hint Resolve watch_writers_calm : calm.

Lemma calm_any P st st' : calm nobody st st' → calm P st st'.
Proof. intros [? ? ? F]. split; [done|done|done|]. intros i. destruct (F i) as [[]|?]; auto. Qed.

(** A method without a [return Err]. *)
Definition sure {A} (m : ssi A) : Prop := ∀ st st' e, m st ≠ Ok (st', inl e).

Lemma sure_bind {A B} (m : ssi A) (f : A → ssi B) : sure m → (∀ a, sure (f a)) → sure (m ≫= f).
Proof. intros Hm Hf st st' e [[e' E]|(st1 & a & _ & E)]%bind_run; [by eapply Hm|by eapply Hf]. Qed.
Lemma sure_for_each {A} (l : list A) f : (∀ x, sure (f x)) → sure (for_each l f).
Proof. intros Hf. induction l; cbn; [by intros st st' e|]. by apply sure_bind. Qed.
Lemma sure_expect {A} (o : option A) : sure (expect o).
Proof. intros st st' e. unfold expect. by destruct o. Qed.
Ltac sure := repeat first [ progress intros | done | apply sure_expect | apply sure_for_each | simple apply sure_bind | case_match ].

Lemma sx_sure i : sure (sx i).
Proof. unfold sx. sure. Qed.
Lemma release_conflict_sure c : sure (release_conflict c).
Proof. unfold release_conflict, conflict. sure. Qed.
Lemma mark_ended_sure me c w n : sure (mark_ended me c w n).
Proof. unfold mark_ended, sx_mut, sx. sure. Qed.

(** One more step of a run that got through. *)
Ltac ran H :=
  let e := fresh "e" in let E := fresh H in let st := fresh "st" in let a := fresh "a" in
  apply bind_run in H as [[e E]|(st & a & E & H)].

Lemma sx_run i st st' x : sx i st = Ok (st', inr x) → st' = st ∧ sxact st i = Some x.
Proof.
  intros E. apply bind_run in E as [[e [=]]|(? & ? & [= <- <-] & E)]. unfold expect in E.
  destruct (sxact st i); [|done]. by injection E as <- <-.
Qed.

Lemma end_counts_run me ro st st' r : end_counts me ro st = Ok (st', r) → (∃ a, r = inr a) ∧
  ∃ st1, calm nobody st st1 ∧ calm nobody (set_writable_count (if ro then writable_count st1 else Z.max 0 (writable_count st1 - 1)) st1) st'.
Proof.
  unfold end_counts. destruct ro; intros E.
  - split.
    + destruct r as [e|a]; [|by eexists]. exfalso. eapply (sure_bind _ _ (sx_sure me)); [|exact E].
      intros. apply sure_for_each, release_conflict_sure.
    + exists st'. split; [|by apply calm_same]. assert (C : calm_m nobody (x ← sx me; for_each (possible_unsafe x) release_conflict)) by calm.
      by eapply C.
  - apply bind_run in E as [[? [=]]|(? & ? & [= <- <-] & E)]. injection E as <- <-. split; [by eexists|].
    exists st. split; [apply calm_refl|]. cbn. case_match; by apply calm_same.
Qed.

(** [release_at] ends [pid]'s transaction and counts it out. *)
Lemma release_at_ends pid c s n st st' r : release_at pid c s n st = Ok (st', r) →
  match by_pid st !! pid with
  | None => st' = st
  | Some me => ∃ x, sxact st me = Some x ∧
      calm (λ i, i = me) (set_writable_count (if is_ x FLAG_READ_ONLY then writable_count st else Z.max 0 (writable_count st - 1))
          (set_by_pid (delete pid (by_pid st)) st)) st'
  end.
Proof.
  unfold release_at, mine. intros E. apply bind_run in E as [[? [=]]|(? & ? & [= <- <-] & E)].
  destruct (by_pid st !! pid) as [me|]; [|by injection E as <- <-].
  apply bind_run in E as [[? [=]]|(? & ? & [= <- <-] & E)]. set (st1 := set_by_pid _ st) in E.
  apply bind_run in E as [[e E]|(st2 & x & [-> Hx]%sx_run & E)]; [by apply sx_sure in E|]. cbv zeta in E.
  exists x. split; [exact Hx|].
  apply bind_run in E as [[e E]|(st3 & [] & E3 & E)]; [by apply mark_ended_sure in E|].
  apply bind_run in E as [[e E]|(st4 & [] & E4 & E)]; [by apply end_counts_run in E as [[? ?] _]|].
  apply mark_ended_calm in E3. apply end_counts_run in E4 as [_ (st5 & C5 & C4)].
  match type of E with ?m _ = _ => assert (C : calm_m nobody m) by calm end. apply C in E. clear C.
  assert (Hw : ∀ st st', calm nobody st st' → calm (λ i, i = me) st st').
  { intros u v. apply calm_any. }
  assert (Hset : ∀ P v st st', calm P st st' → calm P (set_writable_count v st) (set_writable_count v st')).
  { intros P v u w [? ? ? F]. by split. }
  eapply calm_trans; [|apply Hw, E]. eapply calm_trans; [|apply Hw, C4].
  assert (C15 : calm (λ i, i = me) st1 st5) by (eapply calm_trans; [exact E3|by apply Hw]).
  rewrite (cm_count _ _ _ C15). by apply Hset.
Qed.

(** The count is the number of backends whose transaction is not read-only. *)
Definition writes (st : State) (i : nat) : bool :=
  match sxact st i with Some x => negb (is_ x FLAG_READ_ONLY) | None => false end.
Definition counted (st : State) : Prop :=
  writable_count st = Z.of_nat (size (filter (λ e, writes st e.2 = true) (by_pid st))) ∧ xmin_zero st.
Definition tracked (st : State) : Prop := ∀ p i, by_pid st !! p = Some i → is_Some (sxact st i).

Lemma inv0_tracked st : inv0 st → tracked st.
Proof. intros [Hi _] p i Hp. destruct (rg_pid _ _ (iv_registry _ _ Hi) _ _ Hp) as (_ & x & Hx & _). by exists x. Qed.

Lemma calm_writes P st st' i : calm P st st' → ¬ P i → is_Some (sxact st' i) → writes st' i = writes st i.
Proof.
  intros [_ _ _ F] Hn [y Hy]. unfold writes. destruct (F i) as [?|[?|E]]; [done|congruence|]. rewrite Hy in E |- *.
  destruct (sxact st i) as [x|]; [|done]. cbn in E. by injection E as ->.
Qed.

Lemma calm_counted st st' : calm nobody st st' → tracked st' → counted st → counted st'.
Proof.
  intros C T [Hc Hz]. split; [|by eapply cm_zero].
  rewrite (cm_count _ _ _ C), (cm_pids _ _ _ C), Hc in *. do 2 f_equal.
  apply map_filter_ext. intros p i Hp. cbn. rewrite (calm_writes nobody st st'); [done|done|by intros []|].
  apply (T p). by rewrite (cm_pids _ _ _ C).
Qed.

Lemma release_counted pid c s n st st' r : release_at pid c s n st = Ok (st', r) → inv0 st → tracked st' →
  counted st → counted st'.
Proof.
  intros E Hi T Hc. apply release_at_ends in E. destruct (by_pid st !! pid) as [me|] eqn:Hp; [|by subst].
  destruct E as (x & Hx & C). destruct Hc as [Hc Hz]. split; [|by apply (cm_zero _ _ _ C)].
  rewrite (cm_count _ _ _ C), (cm_pids _ _ _ C) in *. cbn.
  assert (Hf : filter (λ e, writes st' e.2 = true) (delete pid (by_pid st)) =
               delete pid (filter (λ e, writes st e.2 = true) (by_pid st))).
  { rewrite <- map_filter_delete. apply map_filter_ext. intros p i [Hne Hpi]%lookup_delete_Some. cbn.
    rewrite (calm_writes _ _ _ i C); [done| |].
    - intros ->. apply Hne. by eapply (rg_inj _ _ (iv_registry _ _ (proj1 Hi))).
    - apply (T p). rewrite (cm_pids _ _ _ C). cbn. by rewrite lookup_delete_ne. }
  rewrite Hf. destruct (is_ x FLAG_READ_ONLY) eqn:Ero.
  - rewrite delete_id; [done|]. apply map_lookup_filter_None. right. intros i Hpi. cbn.
    unfold writes. assert (i = me) as -> by congruence. by rewrite Hx, Ero.
  - assert (Hin : filter (λ e, writes st e.2 = true) (by_pid st) !! pid = Some me).
    { apply map_lookup_filter_Some. split; [done|]. cbn. unfold writes. by rewrite Hx, Ero. }
    rewrite map_size_delete_Some by (by eexists).
    assert (size (filter (λ e, writes st e.2 = true) (by_pid st)) ≠ 0%nat).
    { intros H0%map_size_empty_inv. rewrite H0, lookup_empty in Hin. done. }
    lia.
Qed.

(** [register] counts the new transaction in, or leaves no trace of it. *)
Lemma first_none_free {A} (l : list (option A)) i : first_none l = Some i → l !! i = Some None.
Proof.
  revert i. induction l as [|[x|] l IH]; intros i; cbn; [done| |by intros [= <-]].
  intros (j & Hj & ->)%fmap_Some. by apply IH.
Qed.

Lemma alloc_run x st st' r : alloc_sxact x st = Ok (st', r) →
  ∃ id, r = inr id ∧ sxact st id = None ∧ sxact st' id = Some x ∧ calm (λ i, i = id) st st'.
Proof.
  unfold alloc_sxact. intros E. apply bind_run in E as [[? [=]]|(? & ? & [= <- <-] & E)].
  destruct (first_none (sxacts st)) as [k|] eqn:F.
  - apply first_none_free in F. apply bind_run in E as [[? [=]]|(? & ? & [= <- <-] & E)]. injection E as <- <-.
    exists k. assert (Hl : (k < length (sxacts st))%nat) by (by eapply lookup_lt_Some).
    split_and!; [done|by unfold sxact; rewrite F|rewrite slot_put; by rewrite decide_True|].
    split; [done|done|done|]. intros i. rewrite slot_put. case_decide as D; [|by auto]. left. by destruct D.
  - apply bind_run in E as [[? [=]]|(? & ? & [= <- <-] & E)]. injection E as <- <-.
    exists (length (sxacts st)). unfold sxact. cbn. split_and!; [done| | |].
    + by rewrite lookup_ge_None_2.
    + by rewrite lookup_app_r, Nat.sub_diag.
    + split; [done|done|done|]. intros i. destruct (decide (i = length (sxacts st))) as [->|Hn]; [by left|].
      right. right. unfold sxact. cbn. destruct (decide (i < length (sxacts st))%nat).
      * by rewrite lookup_app_l.
      * rewrite !lookup_ge_None_2; [done|lia|]. rewrite length_app. cbn. lia.
Qed.

Lemma watch_writers_sure id : sure (watch_writers id).
Proof. unfold watch_writers, set_possible, new_conflict, sx_mut, sx. sure. Qed.

Lemma sx_mut_run i f st st' r : sx_mut i f st = Ok (st', r) →
  ∃ x, r = inr () ∧ sxact st i = Some x ∧ st' = put_sxact i (Some (f x)) st.
Proof.
  intros E. apply bind_run in E as [[e E]|(? & x & [-> Hx]%sx_run & E)]; [by apply sx_sure in E|].
  injection E as <- <-. by exists x.
Qed.

(** How the new transaction is flagged read-only and looks at the writers. *)
Lemma watched_run id (ro : bool) st st' r :
  (if ro then
     _ ← sx_mut id (raise FLAG_READ_ONLY);
     _ ← watch_writers id;
     x ← sx id;
     if bool_decide (possible_unsafe x = []) then
       _ ← modify (λ st, set_active (filter (λ y, y ≠ id) (active st)) st);
       _ ← modify (put_sxact id None);
       mret true
     else mret false
   else
     _ ← modify (λ st, set_writable_count (writable_count st + 1) st);
     mret false) st = Ok (st', r) →
  writes st id = true →
  ∃ b : bool, r = inr b ∧ calm (λ i, i = id) (set_writable_count (writable_count st + (if ro then 0 else 1)) st) st' ∧
    (b = true → sxact st' id = None ∧ ro = true) ∧ (is_Some (sxact st' id) → writes st' id = negb ro).
Proof.
  intros E Hw. destruct ro.
  2: { injection E as <- <-. exists false. by split_and!; [|apply calm_refl| |]. }
  assert (C0 : calm (λ i, i = id) (set_writable_count (writable_count st + 0) st) st) by (apply calm_same; cbn; [lia|done..]).
  apply bind_run in E as [[e E]|(st1 & [] & (x & _ & Hx & ->)%sx_mut_run & E)].
  { by apply sx_mut_run in E as (? & ? & _). }
  assert (C1 : calm (λ i, i = id) st (put_sxact id (Some (raise FLAG_READ_ONLY x)) st)) by (eapply calm_put; [done|by left]).
  set (st1 := put_sxact _ _ st) in *.
  apply bind_run in E as [[e E]|(st2 & [] & C2%(watch_writers_calm nobody) & E)]; [by apply watch_writers_sure in E|].
  assert (Hid : is_Some (sxact st2 id) → writes st2 id = false).
  { intros Hs. rewrite (calm_writes _ _ _ id C2) by (done || intros []). unfold writes, st1. rewrite slot_put.
    rewrite decide_True.
    - by rewrite is_raise_eq.
    - split; [done|]. unfold sxact in Hx. destruct (sxacts st !! id) eqn:El; [|done]. by eapply lookup_lt_Some. }
  apply bind_run in E as [[e E]|(st3 & y & [-> Hy]%sx_run & E)]; [by apply sx_sure in E|].
  assert (C : calm (λ i, i = id) (set_writable_count (writable_count st + 0) st) st2).
  { eapply calm_trans; [exact C0|]. eapply calm_trans; [exact C1|by apply calm_any]. }
  case_bool_decide.
  - injection E as <- <-. exists true. set (st3 := set_active _ st2).
    assert (Hnone : sxact (put_sxact id None st3) id = None).
    { rewrite slot_put. case_decide as D; [done|]. unfold sxact. rewrite lookup_ge_None_2; [done|]. naive_solver lia. }
    split_and!; [done| |done|by rewrite Hnone; intros [? ?]].
    eapply calm_trans; [exact C|]. eapply calm_trans; [|apply calm_put_none]. by apply calm_same.
  - injection E as <- <-. exists false. by split_and!.
Qed.

Lemma register_counted pid s ro st st' r : register pid s ro st = Ok (st', r) → inv0 st → tracked st' →
  counted st → counted st'.
Proof.
  intros E Hi T Hc. unfold register, mine in E. apply bind_run in E as [[? [=]]|(? & ? & [= <- <-] & E)].
  destruct (by_pid st !! pid) as [me|] eqn:Hp; [by injection E as <- <-|].
  case_match; [by injection E as <- <-|].
  apply bind_run in E as [[e E]|(st1 & id & (id' & [= <-] & Hfree & Hnew & C1)%alloc_run & E)].
  { by apply alloc_run in E as (? & ? & _). }
  apply bind_run in E as [[? [=]]|(? & ? & [= <- <-] & E)]. set (st2 := set_active _ st1) in E.
  apply bind_run in E as [[e E]|(st3 & b & W & E)].
  { apply watched_run in E as (? & ? & _); [done|]. unfold writes. change (sxact st2 id) with (sxact st1 id). by rewrite Hnew. }
  apply watched_run in W as (b' & [= <-] & C3 & Hb & Hid).
  2: { unfold writes. change (sxact st2 id) with (sxact st1 id). by rewrite Hnew. }
  assert (Hno : ∀ p, by_pid st !! p ≠ Some id).
  { intros p Hpi. destruct (inv0_tracked st Hi p id Hpi) as [? ?]. congruence. }
  assert (Cs : calm (λ i, i = id) (set_writable_count (writable_count st + (if ro then 0 else 1)) st) st3).
  { eapply calm_trans; [|exact C3]. cbn. rewrite (cm_count _ _ _ C1). destruct C1 as [? ? ? F]. by split. }
  assert (Hw : ∀ st4, sxacts st4 = sxacts st3 → tracked st4 → by_pid st4 = <[pid := id]> (by_pid st) ∨ by_pid st4 = by_pid st →
    filter (λ e, writes st4 e.2 = true) (by_pid st) = filter (λ e, writes st e.2 = true) (by_pid st)).
  { intros st4 Es T4 Hb4. apply map_filter_ext. intros p i Hpi. cbn.
    assert (Hs : is_Some (sxact st3 i)).
    { unfold sxact. rewrite <- Es. apply (T4 p). destruct Hb4 as [-> | ->]; [|done]. rewrite lookup_insert_ne; [done|congruence]. }
    assert (writes st4 i = writes st3 i) as -> by (unfold writes, sxact; by rewrite Es).
    rewrite (calm_writes _ _ _ i Cs); [done| |done]. intros ->. by apply (Hno p). }
  destruct Hc as [Hc Hz]. assert (Hz3 : xmin_zero st3) by (by apply (cm_zero _ _ _ Cs)). split; [|].
  2: { destruct b; [by injection E as <- <-|]. injection E as <- <-. unfold xmin_zero in *. cbn. repeat case_match; naive_solver. }
  destruct b.
  - injection E as <- <-. destruct (Hb eq_refl) as [Hnone ->]. rewrite (cm_count _ _ _ Cs), (cm_pids _ _ _ Cs) in *. cbn.
    rewrite (Hw st3); [lia|done|done|by right; apply (cm_pids _ _ _ Cs)].
  - apply bind_run in E as [[? [=]]|(st4 & a4 & M & E)].
    assert (E4 : sxacts st4 = sxacts st3 ∧ by_pid st4 = by_pid st ∧
      writable_count st4 = writable_count st + (if ro then 0 else 1)).
    { pose proof (cm_pids _ _ _ Cs) as Eb. pose proof (cm_count _ _ _ Cs) as Ec. cbn in Eb, Ec.
      injection M as <- _. repeat case_match; done. }
    injection E as <- <-.
    destruct E4 as (Es & Eb & Ec). cbn. cbn in T. rewrite Ec, Eb in *.
    change (λ e : Z * nat, writes _ e.2 = true) with (λ e : Z * nat, writes st4 e.2 = true).
    assert (Hl : is_Some (sxact st3 id)).
    { unfold sxact. rewrite <- Es. apply (T pid). cbn. apply lookup_insert_eq. }
    assert (Hid4 : writes st4 id = negb ro).
    { rewrite <- Hid by done. unfold writes, sxact. by rewrite Es. }
    assert (Hf := Hw (set_by_pid (<[pid := id]> (by_pid st)) st4) Es T (or_introl eq_refl)).
    change (λ e : Z * nat, writes _ e.2 = true) with (λ e : Z * nat, writes st4 e.2 = true) in Hf at 1.
    destruct ro; cbn [negb] in Hid4.
    + rewrite map_filter_insert_not' by (cbn; rewrite ?Hid4; try done; intros y Hy; congruence). rewrite Hf. lia.
    + rewrite map_filter_insert_True by done. rewrite map_size_insert_None, Hf; [lia|].
      apply map_lookup_filter_None. by left.
Qed.

(** A read-only transaction found safe may end first. *)
Lemma needed_counted pid st st' r : needed_for_read pid st = Ok (st', r) → inv0 st → counted st →
  inv0 st' ∧ counted st'.
Proof.
  intros N Hi Hc.
  destruct (wp_needed_for_read st pid (λ r st', inv0 st' ∧ is_Some (match r with inl _ => None | inr a => Some a end)) Hi)
    as (st1 & r1 & E & Hi1 & Hr); [by eauto..|]. rewrite N in E. injection E as <- <-. split; [done|].
  unfold needed_for_read in N. apply bind_run in N as [[? [=]]|(? & ? & [= <- <-] & N)]. unfold mine in N.
  destruct (by_pid st !! pid) as [me|]; [|by injection N as <- <-].
  apply bind_run in N as [[e N]|(? & x & [-> Hx]%sx_run & N)]; [by apply sx_sure in N|].
  destruct (is_ x FLAG_RO_SAFE); [|by injection N as <- <-].
  assert (Rl : ∃ r', release pid false true st = Ok (st', r')).
  { apply bind_run in N as [[e N]|(st2 & [] & Rl & N)]; [by eexists|]. injection N as <- <-. by eexists. }
  destruct Rl as [r' Rl]. apply bind_run in Rl as [[? [=]]|(? & ? & [= <- <-] & Rl)].
  eapply release_counted; [exact Rl|done|by apply inv0_tracked|done].
Qed.

Lemma needed_run {B} pid (f : option nat → ssi B) st st' r : (o ← needed_for_read pid; f o) st = Ok (st', r) →
  inv0 st → tracked st' → counted st → (∀ o, calm_m nobody (f o)) → counted st'.
Proof.
  intros E Hi T Hc Hf. apply bind_run in E as [[e E]|(st1 & o & N & E)]; [by eapply needed_counted|].
  eapply calm_counted; [by eapply Hf|done|]. by eapply needed_counted.
Qed.

Lemma exec_counted c st st' r : exec c st = Ok (st', r) → inv0 st → allowed st c → counted st → counted st'.
Proof.
  intros E Hi Hal Hc.
  assert (T : tracked st').
  { apply inv0_tracked. exact (wp_run _ _ _ _ _ (exec_inv0 c st Hi Hal) E). }
  assert (Hcalm : calm_m nobody (exec c) → counted st') by (intros C; by eapply calm_counted; [eapply C|..]).
  destruct c; cbn [exec] in *.
  - apply bind_run in E as [[e E]|(st1 & o & E & E')]; [by eapply register_counted|]. injection E' as <- <-.
    by eapply register_counted.
  - apply Hcalm, set_xid_of_calm.
  - eapply needed_run; [exact E|done..|]. calm.
  - eapply needed_run; [exact E|done..|]. calm.
  - eapply needed_run; [exact E|done..|]. calm.
  - unfold scan_conflicts_out in E. case_match; [by injection E as <- <-|]. unfold conflict_out_needed in E.
    rewrite bind_assoc in E. eapply needed_run; [exact E|done..|]. calm.
  - apply Hcalm, conflict_in_calm.
  - apply Hcalm, table_conflict_in_calm.
  - apply Hcalm, note_version_calm.
  - apply Hcalm, page_split_calm.
  - apply Hcalm, set_deferrable_calm.
  - apply Hcalm. simple apply calm_bind; [apply deferrable_state_calm|calm].
  - apply Hcalm. simple apply calm_bind; [apply safe_snapshot_calm|calm].
  - apply Hcalm, pre_commit_calm.
  - apply bind_run in E as [[? [=]]|(? & ? & [= <- <-] & E)]. by eapply release_counted.
Qed.

Lemma reachable_counted all : reachable all → ∀ key, counted (cluster all key).
Proof.
  induction 1 as [|all k Hr IH|all k next c all' r Hr IH Hal Hc]; intros key; unfold cluster in *.
  - by rewrite lookup_empty.
  - unfold forget. destruct (decide (key = k)) as [->|Hne]; [by rewrite lookup_delete_eq|].
    rewrite lookup_delete_ne by done. apply IH.
  - unfold with_ in Hc. destruct (exec c (set_next_xid next (cluster all k))) as [[st' r']| | |] eqn:E; [|done..].
    injection Hc as <- <-. destruct (decide (key = k)) as [->|Hne]; [|rewrite lookup_insert_ne by done; apply IH].
    rewrite lookup_insert_eq. cbn. eapply exec_counted; [exact E| |by apply allowed_next|].
    + by apply inv0_next_xid, reachable_inv0.
    + exact (IH k).
Qed.

(** ** Sequences of calls *)

Definition allowed_b (st : State) (c : call) : bool :=
  match c with
  | CRelease pid true _ =>
      match mine pid st with
      | Some me => match sxact st me with Some x => is_ x FLAG_PREPARED | None => true end
      | None => true
      end
  | _ => true
  end.

Lemma allowed_b_ok st c : allowed_b st c = true → allowed st c.
Proof.
  destruct c as [| | | | | | | | | | | | | |pid [] safe]; try done. cbn. intros H _ me x Hp Hx.
  unfold mine in H. by rewrite Hp, Hx in H.
Qed.

(** The calls on cluster 0, each with the cluster's next xid. *)
Fixpoint run_calls (l : list (Z * call)) (all : gmap Z State) : option (gmap Z State) :=
  match l with
  | [] => Some all
  | (next, c) :: l =>
      if allowed_b (cluster all 0) c then
        match with_ 0 next (exec c) all with Ok (all', _) => run_calls l all' | _ => None end
      else None
  end.

Lemma run_calls_reachable l all all' : reachable all → run_calls l all = Some all' → reachable all'.
Proof.
  revert all. induction l as [|[next c] l IH]; intros all Hr; cbn; [by intros [= <-]|].
  destruct (allowed_b _ c) eqn:Ea; [|done]. destruct (with_ 0 next (exec c) all) as [[all1 r]| | |] eqn:Ew; [|done..].
  apply IH. eapply reach_call; [done|by apply allowed_b_ok|done].
Qed.

(** ** Theorems *)

(** C20. In every state the server's calls reach, every further call returns: no
    slot looked up is free ([expect] never panics), no index is out of range and
    the loops over the finished list and over the lock levels end; the calls
    that may fail do so with a serialization failure, in a state that is again
    a reachable one. *)
Theorem ssi_calls_total all key next c : reachable all → allowed (cluster all key) c →
  ∃ all' r, with_ key next (exec c) all = Ok (all', r) ∧ reachable all'.
Proof.
  intros Hr Hal. destruct (exec_inv0 c (set_next_xid next (cluster all key))) as (st' & r & E & _).
  { by apply inv0_next_xid, reachable_inv0. }
  { by apply allowed_next. }
  exists (<[key := st']> all), r. assert (Hw : with_ key next (exec c) all = Ok (<[key := st']> all, r)).
  { unfold with_. by rewrite E. }
  split; [done|]. by eapply reach_call.
Qed.

(** Two transactions with one snapshot, each writing what the other read. *)
Definition snap0 : Snap := {| xmin := 100; xmax := 100; xip := [] |}.
Definition write_skew : list (Z * call) :=
  [(100, CRegister 1 snap0 false); (100, CRegister 2 snap0 false);
   (100, CLockTuple 1 1 10 65537 None); (100, CLockTuple 2 1 10 65538 None);
   (101, CSetXid 1 100); (101, CConflictIn 1 1 10 (Some 65538) (Some 1)); (101, CNoteVersion 1 1 10 65538 false None);
   (102, CSetXid 2 101); (102, CConflictIn 2 1 10 (Some 65537) (Some 1)); (102, CNoteVersion 2 1 10 65537 false None)].

Definition skewed : gmap Z State := default ∅ (run_calls write_skew ∅).

Lemma skewed_reachable : reachable skewed.
Proof. eapply (run_calls_reachable write_skew ∅); [constructor|]. vm_compute. reflexivity. Qed.

Lemma ssi_calls_total_witness : ∃ all' r, with_ 0 102 (exec (CPreCommit 1)) skewed = Ok (all', r) ∧ reachable all'.
Proof. apply (ssi_calls_total skewed 0 102 (CPreCommit 1)); [exact skewed_reachable|exact I]. Defined.

(** The transaction will not commit: it is not prepared, and [pre_commit]
    refuses it without touching anything. *)
Definition cancelled (st : State) (i : nat) (x : Sxact) : Prop :=
  is_ x FLAG_DOOMED = true ∧ is_ x FLAG_PREPARED = false ∧
  ∀ pid, by_pid st !! pid = Some i → pre_commit pid st = Ok (st, inl PivotCommit).

Lemma doomed_cancelled st i x : inv0 st → sxact st i = Some x → is_ x FLAG_DOOMED = true → cancelled st i x.
Proof.
  intros [Hi _] Hx Hd. split_and!; [done| |].
  - destruct (is_ x FLAG_PREPARED) eqn:Hp; [|done]. destruct (fl_prepared _ _ (iv_flags _ _ Hi) _ _ Hx Hp). congruence.
  - intros pid Hp. unfold pre_commit, mbind, meth_bind, self, mine. cbn. rewrite Hp.
    unfold sx, mbind, meth_bind, self, expect. cbn. by rewrite Hx, Hd.
Qed.

(** C3. Dangerous structures do not commit: whenever two recorded conflicts
    [a -> b -> c] meet in [b] and [c] is prepared or committed, [a] or [b] is
    doomed and will be refused at commit, or one of them had committed before
    [c] prepared, or [a] is read-only and took its snapshot before [c]
    prepared, or [b] is itself read-only. *)
Theorem prepared_structures_harmless all key a b c xa xb xc : let st := cluster all key in
  reachable all → edge st a b → edge st b c →
  sxact st a = Some xa → sxact st b = Some xb → sxact st c = Some xc → is_ xc FLAG_PREPARED = true →
  cancelled st a xa ∨ cancelled st b xb ∨
  (is_ xa FLAG_COMMITTED = true ∧ commit_seq xa < prepare_seq xc) ∨
  (is_ xb FLAG_COMMITTED = true ∧ commit_seq xb < prepare_seq xc) ∨
  (is_ xa FLAG_READ_ONLY = true ∧ last_commit_before_snapshot xa < prepare_seq xc) ∨
  is_ xb FLAG_READ_ONLY = true.
Proof.
  intros st Hr Hab Hbc Ha Hb Hc Hp. pose proof (reachable_inv0 all Hr key) as Hi. fold st in Hi.
  destruct (iv_danger _ _ (proj1 Hi) a b c xa xb xc Hab Hbc Ha Hb Hc Hp) as [H|[H|H]]; [left|right; left|by do 2 right];
    by apply doomed_cancelled.
Qed.

(** The first writer of the skew prepares: the other one is its pivot. *)
Definition prepared_skew : gmap Z State := default ∅ (run_calls (write_skew ++ [(102, CPreCommit 1)]) ∅).

Lemma prepared_skew_reachable : reachable prepared_skew.
Proof. eapply (run_calls_reachable (write_skew ++ [(102, CPreCommit 1)]) ∅); [constructor|]. vm_compute. reflexivity. Qed.

Definition edge_b (st : State) (a b : nat) : bool :=
  match sxact st a with
  | Some x => existsb (λ c, match conflict_at st c with Some cf => bool_decide (in_ cf = b) | None => false end) (out_conflicts x)
  | None => false
  end.

Lemma edge_b_ok st a b : edge_b st a b = true → edge st a b.
Proof.
  unfold edge_b. destruct (sxact st a) as [x|] eqn:E; [|done]. intros (c & Hc & Hq)%existsb_True.
  destruct (conflict_at st c) as [cf|] eqn:Hcf; [|done]. apply bool_decide_eq_true in Hq. by exists x, c, cf.
Qed.

(** The transaction in a slot that is in use. *)
Definition tx (st : State) (i : nat) : Sxact := default (new_sxact 0 snap0) (sxact st i).

Lemma tx_ok st i : bool_decide (is_Some (sxact st i)) = true → sxact st i = Some (tx st i).
Proof. unfold tx. intros [x Hx]%bool_decide_eq_true. by rewrite Hx. Qed.

Lemma prepared_structures_harmless_witness : let st := cluster prepared_skew 0 in
  cancelled st 0 (tx st 0) ∨ cancelled st 1 (tx st 1) ∨
  (is_ (tx st 0) FLAG_COMMITTED = true ∧ commit_seq (tx st 0) < prepare_seq (tx st 0)) ∨
  (is_ (tx st 1) FLAG_COMMITTED = true ∧ commit_seq (tx st 1) < prepare_seq (tx st 0)) ∨
  (is_ (tx st 0) FLAG_READ_ONLY = true ∧ last_commit_before_snapshot (tx st 0) < prepare_seq (tx st 0)) ∨
  is_ (tx st 1) FLAG_READ_ONLY = true.
Proof.
  apply (prepared_structures_harmless prepared_skew 0 0 1 0).
  - exact prepared_skew_reachable.
  - apply edge_b_ok. vm_compute. reflexivity.
  - apply edge_b_ok. vm_compute. reflexivity.
  - apply tx_ok. vm_compute. reflexivity.
  - apply tx_ok. vm_compute. reflexivity.
  - apply tx_ok. vm_compute. reflexivity.
  - vm_compute. reflexivity.
Defined.

(** ** Nothing is left behind *)

Lemma no_backend_quiet st : inv0 st → by_pid st = ∅ → ∀ i, sxact st i = None.
Proof.
  intros [Hi Hf] Hb. pose proof (iv_registry _ _ Hi) as Hreg.
  assert (Hfin : ∀ i x, sxact st i = Some x → i ∈ finished_list st).
  { intros i x Hx. destruct (rg_live _ _ Hreg i x Hx) as [?|[[p Hp]|?]]; [done| |done]. by rewrite Hb, lookup_empty in Hp. }
  assert (Hquiet : ∀ i x, sxact st i = Some x → runs x = false).
  { intros i x Hx. destruct (rg_fin _ _ Hreg i (Hfin i x Hx)) as (_ & y & Hy & Hc). unfold runs.
    assert (y = x) as -> by congruence. by rewrite Hc. }
  assert (Hg : global_xmin st = None).
  { pose proof (iv_xmin _ _ Hi) as Hm. unfold xmin_ok in Hm. destruct (global_xmin st) as [g|]; [|done]. exfalso.
    destruct Hm as [Hc Hpos]. rewrite Hc, cnt_none in Hpos; [lia|]. intros i _. unfold runs_at.
    destruct (sxact st i) as [x|] eqn:Hx; [|done]. cbn. by rewrite (Hquiet i x Hx). }
  intros i. destruct (sxact st i) as [x|] eqn:Hx; [|done]. exfalso. pose proof (Hfin i x Hx) as Hin.
  rewrite (Hf Hg) in Hin. elem_nil.
Qed.

(** C27. Nothing leaks: in a reachable state in which no backend has a
    serializable transaction, every transaction and conflict slot is free and
    the active and finished lists, the lock table, the xid table, the tracked
    versions and the oldest snapshot are empty, and the counts of read/write
    transactions and of transactions with the oldest snapshot are zero. *)
Theorem ssi_no_leak all key : let st := cluster all key in reachable all → by_pid st = ∅ →
  (∀ i, sxact st i = None) ∧ (∀ c, conflict_at st c = None) ∧ active st = [] ∧ finished_list st = [] ∧
  targets st = ∅ ∧ xids st = ∅ ∧ versions st = ∅ ∧ global_xmin st = None ∧
  writable_count st = 0 ∧ global_xmin_count st = 0.
Proof.
  intros st Hr Hb. pose proof (reachable_inv0 all Hr key) as Hi0. fold st in Hi0.
  pose proof (no_backend_quiet st Hi0 Hb) as Hnone. destruct Hi0 as [Hi Hf]. pose proof (iv_registry _ _ Hi) as Hreg.
  assert (Hg : global_xmin st = None).
  { pose proof (iv_xmin _ _ Hi) as Hm. unfold xmin_ok in Hm. destruct (global_xmin st) as [g|]; [|done]. exfalso.
    destruct Hm as [Hc Hpos]. rewrite Hc, cnt_none in Hpos; [lia|]. intros i _. unfold runs_at. by rewrite Hnone. }
  destruct (reachable_counted all Hr key) as [Hcnt Hz]. fold st in Hcnt, Hz.
  split_and!; [done|..|done|by rewrite Hcnt, Hb|by apply Hz].
  - intros c. destruct (conflict_at st c) as [cf|] eqn:Hc; [|done].
    destruct (g_used _ (iv_graph _ _ Hi) c cf Hc) as (x & _ & Hx & _). congruence.
  - destruct (active st) as [|i l] eqn:Ea; [done|]. exfalso. destruct (proj2 (rg_active _ _ Hreg) i) as [H _].
    rewrite Ea, Hnone in H. destruct H; [by left|done].
  - destruct (finished_list st) as [|i l] eqn:Ea; [done|]. exfalso.
    destruct (rg_fin _ _ Hreg i) as (_ & x & Hx & _); [rewrite Ea; by left|congruence].
  - apply map_empty. intros t. destruct (targets st !! t) as [h|] eqn:Et; [|done]. exfalso.
    destruct (l_targets _ (iv_locks _ _ Hi) t h Et) as (Hne & _ & Hl). destruct h as [|i h]; [done|].
    destruct (Hl i) as (x & Hx & _); [by left|congruence].
  - apply map_empty. intros v. destruct (xids st !! v) as [i|] eqn:Ev; [|done].
    destruct (rg_xids _ _ Hreg v i Ev) as (x & Hx & _). congruence.
  - apply map_empty. intros k. destruct (versions st !! k) as [m|] eqn:Ev; [|done]. exfalso.
    destruct (rg_versions _ _ Hreg k m Ev) as [Hne Hv]. apply Hne, map_empty. intros c.
    destruct (m !! c) as [v|] eqn:Em; [|done]. destruct (Hv c v Em) as [Hs Hw].
    destruct Hs as [[w E]|[w E]]; (destruct (Hw w) as (i & x & Hx & _); [auto|congruence]).
Qed.

(** The skew to its end: one commit, one rollback. *)
Definition ended_skew : gmap Z State :=
  default ∅ (run_calls (write_skew ++ [(102, CPreCommit 1); (102, CRelease 1 true false); (102, CRelease 2 false false)]) ∅).

Lemma ssi_no_leak_witness : let st := cluster ended_skew 0 in
  (∀ i, sxact st i = None) ∧ (∀ c, conflict_at st c = None) ∧ active st = [] ∧ finished_list st = [] ∧
  targets st = ∅ ∧ xids st = ∅ ∧ versions st = ∅ ∧ global_xmin st = None ∧
  writable_count st = 0 ∧ global_xmin_count st = 0.
Proof.
  apply (ssi_no_leak ended_skew 0).
  - eapply (run_calls_reachable (write_skew ++ [(102, CPreCommit 1); (102, CRelease 1 true false); (102, CRelease 2 false false)]) ∅);
      [constructor|]. vm_compute. reflexivity.
  - vm_compute. reflexivity.
Defined.

(** ** Reads and writes *)

(** C28. A tuple read is covered: after [lock_tuple] by a transaction that stays
    tracked and did not write the tuple itself, its locks cover the tuple, on it
    or on its page or relation after a promotion, and everything its locks
    covered before they still cover. *)
Theorem lock_tuple_covers all key pid db rel ctid writer st' me x : let st := cluster all key in reachable all →
  lock_tuple pid db rel ctid writer st = Ok (st', inr ()) →
  by_pid st !! pid = Some me → sxact st me = Some x → is_ x FLAG_RO_SAFE = false →
  (writer = None ∨ writer ≠ top_xid x) →
  ∃ x', sxact st' me = Some x' ∧ covers x' (ctid_target db rel ctid) ∧ ∀ u, covers x u → covers x' u.
Proof.
  intros st Hr Hrun Hp Hx Hsafe Hw. pose proof (reachable_inv0 all Hr key) as Hi0. fold st in Hi0.
  enough (W : wp (lock_tuple pid db rel ctid writer) (λ _ st', ∃ x', sxact st' me = Some x' ∧
    covers x' (ctid_target db rel ctid) ∧ ∀ u, covers x u → covers x' u) st) by (exact (wp_run _ _ _ _ _ W Hrun)).
  unfold lock_tuple, needed_for_read. apply wp_bind, wp_bind, wp_self. unfold mine. rewrite Hp.
  apply wp_bind. eapply wp_sx; [done|]. rewrite Hsafe. apply wp_ret. apply wp_bind. eapply wp_sx; [done|].
  replace (bool_decide (is_Some writer) && bool_decide (writer = top_xid x)) with false.
  2: { symmetry. apply andb_false_iff. rewrite !bool_decide_eq_false. destruct Hw as [->|?]; [left; by intros [??]|by right]. }
  unfold lock_exists. apply wp_bind, wp_bind. eapply wp_sx; [done|]. apply wp_ret.
  destruct (is_held x (TRelation db rel)) eqn:Eh.
  - apply wp_ret. exists x. split_and!; [done| |done]. exists (TRelation db rel).
    split; [by apply (l_held _ (iv_locks _ _ (proj1 Hi0)) me)|]. right. unfold ctid_target. cbn. by rewrite !Z.eqb_refl.
  - eapply wp_acquire0; [done|done|]. intros st1 x' _ _ Hx' Hc Hm. eauto.
Qed.

(** The third tuple of a page promotes the lock to the page. *)
Definition two_reads : list (Z * call) :=
  [(100, CRegister 1 snap0 false); (100, CLockTuple 1 1 10 65537 None); (100, CLockTuple 1 1 10 65538 None)].
Definition after_reads : gmap Z State := default ∅ (run_calls two_reads ∅).

(** The state a method leaves. *)
Definition left_by {A} (m : ssi A) (st : State) : State := match m st with Ok (st', _) => st' | _ => st end.

Lemma lock_tuple_covers_witness : let st := cluster after_reads 0 in
  ∃ x', sxact (left_by (lock_tuple 1 1 10 65539 None) st) 0 = Some x' ∧ covers x' (ctid_target 1 10 65539) ∧
    ∀ u, covers (tx st 0) u → covers x' u.
Proof.
  apply (lock_tuple_covers after_reads 0 1 1 10 65539 None (left_by (lock_tuple 1 1 10 65539 None) (cluster after_reads 0)) 0
           (tx (cluster after_reads 0) 0)).
  - eapply (run_calls_reachable two_reads ∅); [constructor|]. vm_compute. reflexivity.
  - vm_compute. reflexivity.
  - vm_compute. reflexivity.
  - apply tx_ok. vm_compute. reflexivity.
  - vm_compute. reflexivity.
  - left. reflexivity.
Defined.

(** C29. A write meets its readers: when [conflict_in] lets a write of a tuple
    pass, every other transaction that holds a lock on the tuple, on its page
    or on its relation, is not doomed and has not committed before the
    writer's snapshot, has its conflict with the writer recorded; no conflict
    is lost, and nobody but the writer changes its locks. *)
Theorem conflict_in_records all key pid db rel ctid blk st' me xm i t : let st := cluster all key in reachable all →
  conflict_in pid db rel ctid blk st = Ok (st', inr ()) →
  by_pid st !! pid = Some me → sxact st me = Some xm →
  t ∈ write_targets db rel ctid blk → conflicts_with st me xm i t →
  edge st' i me ∧ (∀ a b, edge st a b → edge st' a b) ∧
  ∀ j y', j ≠ me → sxact st' j = Some y' → ∃ y, sxact st j = Some y ∧ locks y' = locks y.
Proof.
  intros st Hr Hrun Hp Hx Ht Hc. pose proof (reachable_inv0 all Hr key) as Hi0. fold st in Hi0.
  assert (W : wp (conflict_in pid db rel ctid blk) (λ r st', r = inr () → wrote me st st' ∧ edge st' i me) st).
  { apply wp_conflict_in; [done|done|]. intros st1 _ H _. destruct (H me xm Hp Hx) as [W He]. split; [done|]. by eapply He. }
  destruct (wp_run _ _ _ _ _ W Hrun eq_refl) as [Wr He]. split_and!; [done|apply Wr|].
  intros j y' Hj Hy'. destruct (wr_tx _ _ _ Wr j y' Hy') as (y & Hy & _ & _ & Hl). eauto.
Qed.

(** The skew before its last write. *)
Definition half_skew : list (Z * call) := take 8 write_skew.
Definition before_write : gmap Z State := default ∅ (run_calls half_skew ∅).

Lemma conflict_in_records_witness : let st := cluster before_write 0 in
  let st' := left_by (conflict_in 2 1 10 (Some 65537) (Some 1)) st in
  edge st' 0 1 ∧ (∀ a b, edge st a b → edge st' a b) ∧
  ∀ j y', j ≠ 1%nat → sxact st' j = Some y' → ∃ y, sxact st j = Some y ∧ locks y' = locks y.
Proof.
  apply (conflict_in_records before_write 0 2 1 10 (Some 65537) (Some 1)
           (left_by (conflict_in 2 1 10 (Some 65537) (Some 1)) (cluster before_write 0)) 1 (tx (cluster before_write 0) 1)
           0 (ctid_target 1 10 65537)).
  - eapply (run_calls_reachable half_skew ∅); [constructor|]. vm_compute. reflexivity.
  - vm_compute. reflexivity.
  - vm_compute. reflexivity.
  - apply tx_ok. vm_compute. reflexivity.
  - left.
  - split; [discriminate|]. exists (tx (cluster before_write 0) 0). split_and!.
    + apply tx_ok. vm_compute. reflexivity.
    + apply (bool_decide_eq_true _). vm_compute. reflexivity.
    + vm_compute. reflexivity.
    + left. vm_compute. reflexivity.
Defined.
