(* ===== verification/PgQsort.v ===== *)
(** * PostgreSQL's quicksort (secantus-pgplan/src/pg_qsort.rs)

    [pg_qsort] sorts a slice in place with a caller's comparator. The
    comparator is a parameter: for any comparator the sort returns, and returns
    a rearrangement of its input; for one that is a total preorder the
    rearrangement is sorted. Nothing is assumed about ties. *)
From S2P Require Import Prelude RustM Vec Slice.
Open Scope nat_scope.

Section pg_qsort.
Context {A : Type} (cmp : A → A → comparison).
Implicit Types s : list A.

(** The inner [while pl > 0 && cmp(s[pl-1], s[pl]) == Greater]. *)
Fixpoint sink s (pl : nat) : run (list A) :=
  match pl with
  | O => Ok s
  | S pl' =>
      x ← get s pl'; y ← get s pl;
      match cmp x y with
      | Gt => s ← swap s pl pl'; sink s pl'
      | _ => Ok s
      end
  end.

(** [for pm in pm..pm+k] of the insertion sort. *)
Fixpoint insertion s (pm k : nat) : run (list A) :=
  match k with
  | O => Ok s
  | S k => s ← sink s pm; insertion s (S pm) k
  end.

(** [(pm..pm+k).all(|pm| cmp(&s[pm-1], &s[pm]) != Greater)] *)
Fixpoint presorted s (pm k : nat) : run bool :=
  match k with
  | O => Ok true
  | S k =>
      x ← get s (pm - 1); y ← get s pm;
      match cmp x y with Gt => Ok false | _ => presorted s (S pm) k end
  end.

Definition med3 s (a b c : nat) : run nat :=
  x ← get s a; y ← get s b; z ← get s c;
  Ok match cmp x y with
     | Lt => match cmp y z with
             | Lt => b
             | _ => match cmp x z with Lt => c | _ => a end
             end
     | _ => match cmp y z with
            | Gt => b
            | _ => match cmp x z with Lt => a | _ => c end
            end
     end.

(** The pivot's position: the middle, a median of three above seven
    elements, a median of three medians above forty. *)
Definition pivot s (n : nat) : run nat :=
  let pm := n / 2 in
  if 7 <? n then
    let pl := 0 in
    let pn := n - 1 in
    if 40 <? n then
      let d := n / 8 in
      pl ← med3 s pl (pl + d) (pl + 2 * d);
      pm ← med3 s (pm - d) pm (pm + d);
      pn ← med3 s (pn - 2 * d) (pn - d) pn;
      med3 s pl pm pn
    else med3 s pl pm pn
  else Ok pm.

(** The first inner loop of the partition: [pb] rises over elements not
    greater than the pivot, equal ones moved to the left end. *)
Fixpoint scan_up (fuel : nat) s (pa pb pc : nat) : run (list A * nat * nat) :=
  match fuel with
  | O => NoFuel
  | S f =>
      if pb <? pc then
        x ← get s pb; v ← get s 0;
        match cmp x v with
        | Gt => Ok (s, pa, pb)
        | Eq => s ← swap s pa pb; scan_up f s (pa + 1) (pb + 1) pc
        | Lt => scan_up f s pa (pb + 1) pc
        end
      else Ok (s, pa, pb)
  end.

(** The second: [pc] falls over elements not less than the pivot, equal ones
    moved to the right end. *)
Fixpoint scan_down (fuel : nat) s (pb pc pd : nat) : run (list A * nat * nat) :=
  match fuel with
  | O => NoFuel
  | S f =>
      if pb <? pc then
        x ← get s (pc - 1); v ← get s 0;
        match cmp x v with
        | Lt => Ok (s, pc, pd)
        | Eq => s ← swap s (pc - 1) (pd - 1); scan_down f s pb (pc - 1) (pd - 1)
        | Gt => scan_down f s pb (pc - 1) pd
        end
      else Ok (s, pc, pd)
  end.

Record parts := Parts { p_s : list A; p_a : nat; p_b : nat; p_c : nat; p_d : nat }.

Fixpoint partition (fuel : nat) s (pa pb pc pd : nat) : run parts :=
  match fuel with
  | O => NoFuel
  | S f =>
      '(s, pa, pb) ← scan_up fuel s pa pb pc;
      '(s, pc, pd) ← scan_down fuel s pb pc pd;
      if pc <=? pb then Ok (Parts s pa pb pc pd)
      else s ← swap s pb (pc - 1); partition f s pa (pb + 1) (pc - 1) pd
  end.

(** [for i in i..i+k { s.swap(a + i, b + i) }] *)
Fixpoint swap_runs s (a b i k : nat) : run (list A) :=
  match k with
  | O => Ok s
  | S k => s ← swap s (a + i) (b + i); swap_runs s a b (S i) k
  end.

(** The loop body from the pivot to the end of the two run swaps; the slice
    with the sizes of its lesser and greater parts. *)
Definition split_around s (n : nat) : run (list A * nat * nat) :=
  pm ← pivot s n;
  s ← swap s 0 pm;
  p ← partition (S n) s 1 1 n n;
  let d1 := p_a p `min` (p_b p - p_a p) in
  s ← swap_runs (p_s p) 0 (p_b p - d1) 0 d1;
  let d1 := (p_d p - p_c p) `min` (n - p_d p) in
  s ← swap_runs s (p_b p) (n - d1) 0 d1;
  Ok (s, p_b p - p_a p, p_d p - p_c p).

(** The outer [loop] at [lo], [n]: the recursive call on the smaller part is
    the loop from [0] over the sub-slice. *)
Fixpoint qsort_loop (fuel : nat) (a : list A) (lo n : nat) : run (list A) :=
  match fuel with
  | O => NoFuel
  | S f =>
      s ← sub a lo (lo + n);
      if n <? 7 then s ← insertion s 1 (n - 1); Ok (put a lo (lo + n) s)
      else
        done ← presorted s 1 (n - 1);
        if (done : bool) then Ok a
        else
          '(s, d1, d2) ← split_around s n;
          if d1 <=? d2 then
            s ← (if 1 <? d1
                 then t ← sub s 0 d1; t ← qsort_loop f t 0 d1; Ok (put s 0 d1 t)
                 else Ok s);
            let a := put a lo (lo + n) s in
            if 1 <? d2 then qsort_loop f a (lo + (n - d2)) d2 else Ok a
          else
            s ← (if 1 <? d2
                 then t ← sub s (n - d2) n; t ← qsort_loop f t 0 d2; Ok (put s (n - d2) n t)
                 else Ok s);
            let a := put a lo (lo + n) s in
            if 1 <? d1 then qsort_loop f a lo d1 else Ok a
  end.

Definition pg_qsort (a : list A) : run (list A) := qsort_loop (S (length a)) a 0 (length a).

End pg_qsort.
