(* ===== verification/PgQsortFacts.v ===== *)
(** * Correctness of [pg_qsort]

    Each phase is specified by positions ([s !! i]); the lemmas hold for every
    comparator, and only the last step (sorted pieces around the pivot make a
    sorted slice) uses that it is a total preorder. *)
From S2P Require Import Prelude RustM Vec Slice PgQsort.
Open Scope nat_scope.

(** What [sort_by]-style callers promise of a comparator. *)
Class TotalCmp {A} (cmp : A → A → comparison) : Prop := {
  cmp_flip x y : cmp y x = CompOpp (cmp x y);
  cmp_le_trans x y z : cmp x y ≠ Gt → cmp y z ≠ Gt → cmp x z ≠ Gt }.

Section facts.
Context {A : Type} (cmp : A → A → comparison).
Implicit Types s t : list A.

Definition cle (x y : A) : Prop := cmp x y ≠ Gt.

Definition sorted_by s : Prop := StronglySorted cle s.

Lemma lookup_sorted s :
  (∀ i j x y, i < j → s !! i = Some x → s !! j = Some y → cle x y) → sorted_by s.
Proof.
  unfold sorted_by. induction s as [|a s IH]; intros H; constructor.
  - apply IH. intros i j x y Hij Hi Hj. apply (H (S i) (S j)); [lia|done..].
  - apply Forall_forall. intros y (j & Hj)%list_elem_of_lookup. apply (H 0 (S j)); [lia|done..].
Qed.

(** ** The insertion sort *)

(** Sorted up to [pm] but for the element at [pl], still above its place. *)
Definition sinking s (pm pl : nat) : Prop :=
  ∀ i j x y, i < j → j ≤ pm → j ≠ pl → s !! i = Some x → s !! j = Some y → cle x y.
Definition prefix_sorted s (pm : nat) : Prop :=
  ∀ i j x y, i < j → j < pm → s !! i = Some x → s !! j = Some y → cle x y.

Lemma sinking_step `{!TotalCmp cmp} s t pm pl x y :
  S pl ≤ pm → s !! pl = Some x → s !! S pl = Some y → cmp x y = Gt →
  swapped s (S pl) pl t → sinking s pm (S pl) → sinking t pm pl.
Proof.
  intros Hpm Hx Hy Hxy Hsw H i j x' y' Hij Hj Hjpl Hi' Hj'.
  rewrite (swapped_at _ _ _ _ i Hsw) in Hi'. rewrite (swapped_at _ _ _ _ j Hsw) in Hj'.
  repeat case_decide; subst; simplify_eq; try lia; try (by eapply H; [..|done|done]; lia).
  unfold cle. rewrite cmp_flip, Hxy. done.
Qed.

Lemma sinking_end `{!TotalCmp cmp} s pm pl :
  pl ≤ pm → sinking s pm pl →
  (∀ k x y, pl = S k → s !! k = Some x → s !! pl = Some y → cle x y) → prefix_sorted s (S pm).
Proof.
  intros Hpl H Hle i j x y Hij Hj Hi Hjy. destruct (decide (j = pl)) as [->|Hn].
  2: by eapply (H i j); [lia..|done|done].
  destruct pl as [|k]; [lia|].
  assert (Hkl : S k < length s) by (by apply lookup_lt_Some in Hjy).
  destruct (decide (i = k)) as [->|Hik]; [by eapply Hle|].
  destruct (lookup_lt_is_Some_2 s k ltac:(lia)) as (z & Hz).
  apply (cmp_le_trans x z y); [|by eapply Hle].
  by eapply (H i k); [lia..|done|done].
Qed.

Lemma sink_spec s pl : pl < length s →
  ∃ t, sink cmp s pl = Ok t ∧ t ≡ₚ s ∧
    (TotalCmp cmp → ∀ pm, pl ≤ pm → sinking s pm pl → prefix_sorted t (S pm)).
Proof.
  revert s. induction pl as [|k IH]; intros s Hl; cbn [sink].
  { exists s. split_and!; [done..|]. intros ? pm Hpm H. eapply sinking_end; [|done|]; [lia|]. lia. }
  destruct (get_lt s k ltac:(lia)) as (x & Hx & ->). destruct (get_lt s (S k) Hl) as (y & Hy & ->).
  cbn [mbind outcome_bind].
  assert (Hend : cmp x y ≠ Gt → TotalCmp cmp → ∀ pm, S k ≤ pm → sinking s pm (S k) →
            prefix_sorted s (S pm)).
  { intros Hxy ? pm Hpm H. eapply sinking_end; [done..|]. intros k' x' y' [= <-] Hx' Hy'.
    simplify_eq. done. }
  destruct (cmp x y) eqn:E; [exists s; split_and!; [done..|by apply Hend] | exists s; split_and!; [done..|by apply Hend] |].
  destruct (swap_spec s (S k) k ltac:(lia) ltac:(lia)) as (t & -> & Hsw). cbn.
  destruct (IH t) as (u & -> & Hu & Hs); [rewrite (swapped_length _ _ _ _ Hsw); lia|].
  exists u. split_and!; [done|by rewrite Hu, (swapped_perm _ _ _ _ Hsw)|].
  intros ? pm Hpm H. apply Hs; [done|lia|]. by eapply sinking_step.
Qed.

Lemma insertion_spec k s pm : 0 < pm → pm + k = length s →
  ∃ t, insertion cmp s pm k = Ok t ∧ t ≡ₚ s ∧ (TotalCmp cmp → prefix_sorted s pm → sorted_by t).
Proof.
  revert s pm. induction k as [|k IH]; intros s pm Hpm Hl; cbn [insertion].
  { exists s. split_and!; [done..|]. intros _ H. apply lookup_sorted. intros i j x y Hij Hi Hj.
    eapply (H i j); [done| |done|done]. apply lookup_lt_Some in Hj. lia. }
  destruct (sink_spec s pm ltac:(lia)) as (t & -> & Ht & Hs). cbn.
  destruct (IH t (S pm)) as (u & -> & Hu & Hsu); [lia|rewrite Ht; lia|].
  exists u. split_and!; [done|by rewrite Hu|]. intros ? H. apply Hsu; [done|].
  apply (Hs _ pm); [done|]. intros i j x y Hij Hj Hn. apply H; lia.
Qed.

Lemma presorted_spec k s pm : 0 < pm → pm + k = length s →
  ∃ b, presorted cmp s pm k = Ok b ∧
    (b = true → ∀ i x y, pm ≤ i → s !! (i - 1) = Some x → s !! i = Some y → cle x y).
Proof.
  revert pm. induction k as [|k IH]; intros pm Hpm Hl; cbn [presorted].
  { exists true. split; [done|]. intros _ i x y Hi _ Hy%lookup_lt_Some. lia. }
  destruct (get_lt s (pm - 1) ltac:(lia)) as (x & Hx & ->).
  destruct (get_lt s pm ltac:(lia)) as (y & Hy & ->). cbn [mbind outcome_bind].
  destruct (IH (S pm) ltac:(lia) ltac:(lia)) as (b & Eb & Hb).
  assert (Hne : cmp x y ≠ Gt → b = true →
            ∀ i x y, pm ≤ i → s !! (i - 1) = Some x → s !! i = Some y → cle x y).
  { intros Hxy Htrue i x' y' Hi. destruct (decide (i = pm)) as [->|]; [|apply Hb; [done|lia]].
    intros. by simplify_eq. }
  destruct (cmp x y) eqn:E; [exists b; split; [done|by apply Hne]..|by exists false].
Qed.

Lemma adjacent_sorted `{!TotalCmp cmp} s :
  (∀ i x y, 1 ≤ i → s !! (i - 1) = Some x → s !! i = Some y → cle x y) → sorted_by s.
Proof.
  intros H. apply Sorted_StronglySorted; [intros x y z; apply cmp_le_trans|].
  induction s as [|a s IH]; constructor.
  - apply IH. intros i x y Hi Hx Hy. apply (H (S i) x y); [lia| |done].
    destruct i as [|i]; [lia|]. by replace (S (S i) - 1) with (S (S i - 1)) by lia.
  - destruct s as [|b s]; constructor. by apply (H 1 a b).
Qed.

(** ** The partition *)

Definition eqv (v x : A) : Prop := x = v ∨ cmp x v = Eq.

(** The slice around the pivot [v]: equal, less, unknown, greater, equal. *)
Record part_inv (v : A) s (pa pb pc pd : nat) : Prop := {
  pi_bounds : 1 ≤ pa ≤ pb ∧ pb ≤ pc ≤ pd ∧ pd ≤ length s;
  pi_pivot : s !! 0 = Some v;
  pi_eq i x : i < pa → s !! i = Some x → eqv v x;
  pi_lt i x : pa ≤ i < pb → s !! i = Some x → cmp x v = Lt;
  pi_gt i x : pc ≤ i < pd → s !! i = Some x → cmp x v = Gt;
  pi_eq' i x : pd ≤ i → s !! i = Some x → eqv v x }.

(** A position of a slice after a swap, by cases. *)
Ltac part_at v Hsw :=
  intros ? ? ?; rewrite (swapped_at _ _ _ _ _ Hsw);
  repeat case_decide; intros; subst; try lia; simplify_eq; try (by right);
  match goal with
  | H : ∀ i x, _ → _ !! i = Some x → ?P v x, Hs : _ !! _ = Some ?y |- ?P v ?y => by eapply H; [|exact Hs]; lia
  | H : ∀ i x, _ → _ !! i = Some x → cmp x v = ?c, Hs : _ !! _ = Some ?y |- cmp ?y v = ?c =>
      by eapply H; [|exact Hs]; lia
  | _ => done
  end.

Lemma part_inv_lt v s pa pb pc pd x : part_inv v s pa pb pc pd → pb < pc →
  s !! pb = Some x → cmp x v = Lt → part_inv v s pa (pb + 1) pc pd.
Proof.
  intros [Hb Hp H1 H2 H3 H4] Hlt Hx Ex. split; [lia|done|done| |done|done].
  intros i y Hi Hy. destruct (decide (i = pb)) as [->|]; [by simplify_eq|apply (H2 i); [lia|done]].
Qed.

Lemma part_inv_gt v s pa pb pc pd x : part_inv v s pa pb pc pd → pb < pc →
  s !! (pc - 1) = Some x → cmp x v = Gt → part_inv v s pa pb (pc - 1) pd.
Proof.
  intros [Hb Hp H1 H2 H3 H4] Hlt Hx Ex. split; [lia|done|done|done| |done].
  intros i y Hi Hy. destruct (decide (i = pc - 1)) as [->|]; [by simplify_eq|apply (H3 i); [lia|done]].
Qed.

Lemma part_inv_eq_up v s t pa pb pc pd x : part_inv v s pa pb pc pd → pb < pc →
  s !! pb = Some x → cmp x v = Eq → swapped s pa pb t → part_inv v t (pa + 1) (pb + 1) pc pd.
Proof.
  intros [Hb Hp H1 H2 H3 H4] Hlt Hx Ex Hsw. pose proof (swapped_length _ _ _ _ Hsw).
  split; [lia| |part_at v Hsw..].
  rewrite (swapped_at _ _ _ _ 0 Hsw). rewrite !decide_False by lia. done.
Qed.

Lemma part_inv_eq_down v s t pa pb pc pd x : part_inv v s pa pb pc pd → pb < pc →
  s !! (pc - 1) = Some x → cmp x v = Eq → swapped s (pc - 1) (pd - 1) t →
  part_inv v t pa pb (pc - 1) (pd - 1).
Proof.
  intros [Hb Hp H1 H2 H3 H4] Hlt Hx Ex Hsw. pose proof (swapped_length _ _ _ _ Hsw).
  destruct (decide (pc = pd)) as [->|]; (split; [lia| |part_at v Hsw..]).
  all: rewrite (swapped_at _ _ _ _ 0 Hsw); rewrite !decide_False by lia; done.
Qed.

Lemma part_inv_swap v s t pa pb pc pd x y : part_inv v s pa pb pc pd → pb < pc →
  s !! pb = Some x → cmp x v = Gt → s !! (pc - 1) = Some y → cmp y v = Lt →
  swapped s pb (pc - 1) t → part_inv v t pa (pb + 1) (pc - 1) pd.
Proof.
  intros [Hb Hp H1 H2 H3 H4] Hlt Hx Ex Hy Ey Hsw. pose proof (swapped_length _ _ _ _ Hsw).
  assert (pb ≠ pc - 1) by (intros E; rewrite <- E in Hy; congruence).
  split; [lia| |part_at v Hsw..].
  rewrite (swapped_at _ _ _ _ 0 Hsw). rewrite !decide_False by lia. done.
Qed.

Lemma scan_up_spec fuel v s pa pb pc pd : pc - pb < fuel → part_inv v s pa pb pc pd →
  ∃ t pa' pb', scan_up cmp fuel s pa pb pc = Ok (t, pa', pb') ∧ t ≡ₚ s ∧ pb ≤ pb' ∧
    part_inv v t pa' pb' pc pd ∧ (pb' < pc → ∃ x, t !! pb' = Some x ∧ cmp x v = Gt).
Proof.
  revert s pa pb. induction fuel as [|f IH]; intros s pa pb Hf Hi; [lia|]. cbn [scan_up].
  pose proof (pi_bounds _ _ _ _ _ _ Hi) as Hb.
  destruct (Nat.ltb_spec pb pc) as [Hlt|Hge]; [|exists s, pa, pb; split_and!; [done..|lia]].
  destruct (get_lt s pb ltac:(lia)) as (x & Hx & ->).
  rewrite (get_Some _ _ _ (pi_pivot _ _ _ _ _ _ Hi)). cbn [mbind outcome_bind].
  destruct (cmp x v) eqn:E.
  - destruct (swap_spec s pa pb ltac:(lia) ltac:(lia)) as (t & -> & Hsw). cbn [mbind outcome_bind].
    destruct (IH t (pa + 1) (pb + 1)) as (u & pa' & pb' & Eu & Hu & Hle & Hi' & Hg);
      [lia|by eapply part_inv_eq_up|].
    exists u, pa', pb'. split_and!; [done|by rewrite Hu, (swapped_perm _ _ _ _ Hsw)|lia|done..].
  - destruct (IH s pa (pb + 1)) as (u & pa' & pb' & Eu & Hu & Hle & Hi' & Hg);
      [lia|by eapply part_inv_lt|].
    exists u, pa', pb'. split_and!; [done..|lia|done|done].
  - exists s, pa, pb. split_and!; eauto.
Qed.

Lemma scan_down_spec fuel v s pa pb pc pd : pc - pb < fuel → part_inv v s pa pb pc pd →
  ∃ t pc' pd', scan_down cmp fuel s pb pc pd = Ok (t, pc', pd') ∧ t ≡ₚ s ∧ pc' ≤ pc ∧
    part_inv v t pa pb pc' pd' ∧ (∀ i, i < pc' → t !! i = s !! i) ∧
    (pb < pc' → ∃ x, t !! (pc' - 1) = Some x ∧ cmp x v = Lt).
Proof.
  revert s pc pd. induction fuel as [|f IH]; intros s pc pd Hf Hi; [lia|]. cbn [scan_down].
  pose proof (pi_bounds _ _ _ _ _ _ Hi) as Hb.
  destruct (Nat.ltb_spec pb pc) as [Hlt|Hge]; [|exists s, pc, pd; split_and!; [done..|lia]].
  destruct (get_lt s (pc - 1) ltac:(lia)) as (x & Hx & ->).
  rewrite (get_Some _ _ _ (pi_pivot _ _ _ _ _ _ Hi)). cbn [mbind outcome_bind].
  destruct (cmp x v) eqn:E.
  - destruct (swap_spec s (pc - 1) (pd - 1) ltac:(lia) ltac:(lia)) as (t & -> & Hsw).
    cbn [mbind outcome_bind].
    destruct (IH t (pc - 1) (pd - 1)) as (u & pc' & pd' & Eu & Hu & Hle & Hi' & Hk & Hg);
      [lia|by eapply part_inv_eq_down|].
    exists u, pc', pd'. split_and!; [done|by rewrite Hu, (swapped_perm _ _ _ _ Hsw)|lia|done| |done].
    intros i Hlti. rewrite Hk by done. rewrite (swapped_at _ _ _ _ i Hsw). by rewrite !decide_False by lia.
  - exists s, pc, pd. split_and!; eauto.
  - destruct (IH s (pc - 1) pd) as (u & pc' & pd' & Eu & Hu & Hle & Hi' & Hk & Hg);
      [lia|by eapply part_inv_gt|].
    exists u, pc', pd'. split_and!; [done..|lia|done|done|done].
Qed.

Lemma partition_spec fuel v s pa pb pc pd : pc - pb < fuel → part_inv v s pa pb pc pd →
  ∃ p, partition cmp fuel s pa pb pc pd = Ok p ∧ p_s p ≡ₚ s ∧
    part_inv v (p_s p) (p_a p) (p_b p) (p_c p) (p_d p) ∧ p_b p = p_c p.
Proof.
  revert s pa pb pc pd. induction fuel as [|f IH]; intros s pa pb pc pd Hf Hi; [lia|].
  cbn [partition].
  destruct (scan_up_spec (S f) v s pa pb pc pd Hf Hi) as (t & pa' & pb' & -> & Ht & Hle & Hi1 & Hg).
  cbn [mbind outcome_bind].
  destruct (scan_down_spec (S f) v t pa' pb' pc pd ltac:(lia) Hi1)
    as (u & pc' & pd' & -> & Hu & Hle' & Hi2 & Hk & Hl).
  cbn [mbind outcome_bind]. pose proof (pi_bounds _ _ _ _ _ _ Hi2) as Hb.
  destruct (Nat.leb_spec pc' pb') as [Hge|Hlt].
  { eexists. split; [done|]. cbn. split_and!; [by rewrite Hu|done|lia]. }
  destruct (swap_spec u pb' (pc' - 1) ltac:(lia) ltac:(lia)) as (w & -> & Hsw).
  cbn [mbind outcome_bind].
  destruct (Hg ltac:(lia)) as (x & Hx & Ex). destruct (Hl Hlt) as (y & Hy & Ey).
  destruct (IH w pa' (pb' + 1) (pc' - 1) pd') as (p & Ep & Hp & Hi3 & He); [lia| |].
  { eapply part_inv_swap; [done..| |done|done|done|done]. by rewrite Hk by lia. }
  exists p. split_and!; [done| |done|done]. by rewrite Hp, (swapped_perm _ _ _ _ Hsw), Hu.
Qed.

Lemma swap_runs_spec k s a b i : a + k ≤ b → b + i + k ≤ length s →
  ∃ t, swap_runs s a b i k = Ok t ∧ t ≡ₚ s ∧
    ∀ j, t !! j = if decide (a + i ≤ j < a + i + k) then s !! (j - a + b)
                  else if decide (b + i ≤ j < b + i + k) then s !! (j - b + a) else s !! j.
Proof.
  revert s i. induction k as [|k IH]; intros s i Hab Hl; cbn [swap_runs].
  { exists s. split_and!; [done..|]. intros j. by rewrite !decide_False by lia. }
  destruct (swap_spec s (a + i) (b + i) ltac:(lia) ltac:(lia)) as (t & -> & Hsw).
  cbn [mbind outcome_bind]. pose proof (swapped_length _ _ _ _ Hsw).
  destruct (IH t (S i) ltac:(lia) ltac:(lia)) as (u & -> & Hu & Hat).
  exists u. split_and!; [done|by rewrite Hu, (swapped_perm _ _ _ _ Hsw)|].
  intros j. rewrite Hat, !(swapped_at _ _ _ _ _ Hsw).
  repeat case_decide; try lia; subst; try done; try (f_equal; lia).
Qed.

Lemma med3_in s a b c n : a < n → b < n → c < n → n ≤ length s → ∃ m, med3 cmp s a b c = Ok m ∧ m < n.
Proof.
  intros Ha Hb Hc Hn. unfold med3.
  destruct (get_lt s a ltac:(lia)) as (x & _ & ->). destruct (get_lt s b ltac:(lia)) as (y & _ & ->).
  destruct (get_lt s c ltac:(lia)) as (z & _ & ->). cbn [mbind outcome_bind]. eexists. split; [done|].
  by destruct (cmp x y), (cmp y z), (cmp x z).
Qed.

Lemma pivot_in s n : 7 ≤ n → length s = n → ∃ m, pivot cmp s n = Ok m ∧ m < n.
Proof.
  intros Hn Hl. unfold pivot. assert (n / 2 < n) by (apply Nat.div_lt; lia).
  destruct (Nat.ltb_spec 7 n); [|by eexists].
  destruct (Nat.ltb_spec 40 n); [|by apply med3_in; lia].
  pose proof (Nat.Div0.mul_div_le n 8). pose proof (Nat.Div0.mul_div_le n 2).
  assert (n < 2 * S (n / 2)) by (apply Nat.mul_succ_div_gt; lia).
  destruct (med3_in s 0 (0 + n / 8) (0 + 2 * (n / 8)) n) as (a & -> & Ha); [lia..|].
  destruct (med3_in s (n / 2 - n / 8) (n / 2) (n / 2 + n / 8) n) as (b & -> & Hb); [lia..|].
  destruct (med3_in s (n - 1 - 2 * (n / 8)) (n - 1 - n / 8) (n - 1) n) as (c & -> & Hc); [lia..|].
  by apply med3_in; lia.
Qed.

(** After the run swaps: less, equal, greater. *)
Record around (v : A) s (d1 d2 : nat) : Prop := {
  ar_bounds : d1 + d2 < length s;
  ar_lt i x : i < d1 → s !! i = Some x → cmp x v = Lt;
  ar_eq i x : d1 ≤ i < length s - d2 → s !! i = Some x → eqv v x;
  ar_gt i x : length s - d2 ≤ i → s !! i = Some x → cmp x v = Gt }.

(** Swapping the shorter of two adjacent blocks with the far end of the other
    exchanges the blocks (their order inside may change). *)
Lemma blocks_swapped (P Q : A → Prop) s a p q : a + p + q ≤ length s →
  (∀ i x, a ≤ i < a + p → s !! i = Some x → P x) →
  (∀ i x, a + p ≤ i < a + p + q → s !! i = Some x → Q x) →
  let d := p `min` q in
  ∃ t, swap_runs s a (a + p + q - d) 0 d = Ok t ∧ t ≡ₚ s ∧
    (∀ i x, a ≤ i < a + q → t !! i = Some x → Q x) ∧
    (∀ i x, a + q ≤ i < a + p + q → t !! i = Some x → P x) ∧
    (∀ i, i < a ∨ a + p + q ≤ i → t !! i = s !! i).
Proof.
  intros Hl HP HQ d. assert (Hd : d ≤ p ∧ d ≤ q ∧ (d = p ∨ d = q)) by lia. clearbody d.
  destruct (swap_runs_spec d s a (a + p + q - d) 0 ltac:(lia) ltac:(lia)) as (t & -> & Ht & Hat).
  exists t. split_and!; [done..| | |].
  - intros i x Hi. rewrite Hat. repeat case_decide; [apply HQ; lia|lia|].
    destruct (decide (i < a + p)); [lia|]. apply HQ. lia.
  - intros i x Hi. rewrite Hat. repeat case_decide; [lia|apply HP; lia|]. apply HP. lia.
  - intros i Hi. rewrite Hat. by rewrite !decide_False by lia.
Qed.

Lemma split_around_spec s n : 7 ≤ n → length s = n →
  ∃ v t d1 d2, split_around cmp s n = Ok (t, d1, d2) ∧ t ≡ₚ s ∧ around v t d1 d2.
Proof.
  intros Hn Hl. unfold split_around. destruct (pivot_in s n Hn Hl) as (pm & -> & Hpm).
  cbn [mbind outcome_bind]. destruct (swap_spec s 0 pm ltac:(lia) ltac:(lia)) as (t & -> & Hsw).
  cbn [mbind outcome_bind]. pose proof (swapped_length _ _ _ _ Hsw) as Hlt.
  destruct (lookup_lt_is_Some_2 t 0 ltac:(lia)) as (v & Hv).
  destruct (partition_spec (S n) v t 1 1 n n) as (p & -> & Hp & Hi & He); [lia| |].
  { split; [lia|done| |lia|lia|].
    - intros i x Hi Hx. replace i with 0 in Hx by lia. left. congruence.
    - intros i x Hi Hx%lookup_lt_Some. lia. }
  cbn [mbind outcome_bind]. pose proof (pi_bounds _ _ _ _ _ _ Hi) as Hb.
  pose proof (Permutation_length Hp) as Hlp.
  destruct p as [s' pa pb pc pd]; cbn [p_s p_a p_b p_c p_d] in *. subst pc.
  pose proof Hi as [_ _ H1 H2 H3 H4].
  destruct (blocks_swapped (eqv v) (λ x, cmp x v = Lt) s' 0 pa (pb - pa)) as (w & Ew & Hw & W1 & W2 & W3);
    [lia|intros i x ?; apply H1; lia|intros i x ?; apply H2; lia|].
  replace (0 + pa + (pb - pa)) with pb in * by lia. rewrite Ew. cbn [mbind outcome_bind].
  pose proof (Permutation_length Hw) as Hlw.
  destruct (blocks_swapped (λ x, cmp x v = Gt) (eqv v) w pb (pd - pb) (n - pd)) as (u & Eu & Hu & U1 & U2 & U3);
    [lia|intros i x ?; rewrite W3 by lia; apply H3; lia|intros i x ?; rewrite W3 by lia; apply H4; lia|].
  replace (pb + (pd - pb) + (n - pd)) with n in * by lia. rewrite Eu. cbn [mbind outcome_bind].
  pose proof (Permutation_length Hu) as Hlu.
  exists v, u, (pb - pa), (pd - pb). split; [done|].
  split; [by rewrite Hu, Hw, Hp, (swapped_perm _ _ _ _ Hsw)|]. split; [lia|..]; intros i x Hix Hx.
  - rewrite U3 in Hx by lia. apply (W1 i); [lia|done].
  - destruct (decide (i < pb)); [|apply (U1 i); [lia|done]].
    rewrite U3 in Hx by lia. apply (W2 i); [lia|done].
  - pose proof (lookup_lt_Some _ _ _ Hx). apply (U2 i); [lia|done].
Qed.

(** ** The whole sort *)

Lemma around_pieces v s d1 d2 : around v s d1 d2 → ∃ L M G, s = L ++ M ++ G ∧
  length L = d1 ∧ length G = d2 ∧ length L + length G < length s ∧
  Forall (λ x, cmp x v = Lt) L ∧ Forall (eqv v) M ∧ Forall (λ x, cmp x v = Gt) G.
Proof.
  intros [Hb H1 H2 H3]. set (m := length s - d2 - d1).
  exists (take d1 s), (take m (drop d1 s)), (drop m (drop d1 s)).
  rewrite !take_drop, !length_take, !length_drop. split_and!; [done|lia..| | |];
    apply Forall_lookup; intros i x.
  - intros Hx. pose proof (lookup_lt_Some _ _ _ Hx) as Hlt. rewrite length_take in Hlt.
    rewrite lookup_take in Hx by lia. apply (H1 i); [lia|]. by simplify_option_eq.
  - intros Hx. pose proof (lookup_lt_Some _ _ _ Hx) as Hlt. rewrite length_take in Hlt.
    rewrite lookup_take in Hx. case_decide; [|done]. rewrite lookup_drop in Hx.
    apply (H2 (d1 + i)); [lia|done].
  - rewrite !lookup_drop. apply H3. lia.
Qed.

Lemma sorted_around `{!TotalCmp cmp} v L M G :
  Forall (λ x, cmp x v = Lt) L → Forall (eqv v) M → Forall (λ x, cmp x v = Gt) G →
  sorted_by L → sorted_by G → sorted_by (L ++ M ++ G).
Proof.
  rewrite !Forall_forall. intros HL HM HG SL SG.
  assert (Hvv : cmp v v = Eq) by (pose proof (cmp_flip v v); by destruct (cmp v v)).
  assert (Hlv : ∀ x, x ∈ L ++ M → cle x v).
  { unfold cle. intros x [Hx|[->|Hx]%HM]%elem_of_app; [by rewrite (HL x Hx)|by rewrite Hvv|by rewrite Hx]. }
  assert (Hvg : ∀ x, x ∈ M ++ G → cle v x).
  { unfold cle. intros x [[->|Hx]%HM|Hx]%elem_of_app; [by rewrite Hvv| |]; rewrite cmp_flip.
    - by rewrite Hx.
    - by rewrite (HG x Hx). }
  assert (Hc : ∀ x y, x ∈ L ++ M → y ∈ M ++ G → cle x y).
  { intros x y Hx Hy. apply (cmp_le_trans x v y); [by apply Hlv|by apply Hvg]. }
  apply StronglySorted_app_2; [|done|].
  { intros x y Hx Hy. apply Hc; [by apply elem_of_app; left|done]. }
  apply StronglySorted_app_2; [| |done].
  { intros x y Hx Hy. apply Hc; by apply elem_of_app; right. }
  apply lookup_sorted. intros i j x y _ Hx%list_elem_of_lookup_2 Hy%list_elem_of_lookup_2.
  apply Hc; apply elem_of_app; [by right|by left].
Qed.

Lemma sorted_short s : length s ≤ 1 → sorted_by s.
Proof. destruct s as [|x [|y s]]; [constructor|repeat constructor|cbn; lia]. Qed.

(** What a run of the loop at a piece of a slice gives. *)
Definition sorts (r : run (list A)) (P s S : list A) : Prop :=
  ∃ t, r = Ok (P ++ t ++ S) ∧ t ≡ₚ s ∧ (TotalCmp cmp → sorted_by t).

Definition loop_ok (f : nat) : Prop :=
  ∀ P s S, length s < f → sorts (qsort_loop cmp f (P ++ s ++ S) (length P) (length s)) P s S.

Lemma loop_piece f P s S : loop_ok f → length s < f →
  sorts (if 1 <? length s then qsort_loop cmp f (P ++ s ++ S) (length P) (length s)
         else Ok (P ++ s ++ S)) P s S.
Proof.
  intros Hf Hl. destruct (Nat.ltb_spec 1 (length s)); [by apply Hf|].
  exists s. split_and!; [done..|]. intros _. by apply sorted_short.
Qed.

Lemma call_piece f P s S lo hi : loop_ok f → length s < f → lo = length P → hi = length P + length s →
  sorts (if 1 <? length s
         then t ← sub (P ++ s ++ S) lo hi; t ← qsort_loop cmp f t 0 (length s);
              Ok (put (P ++ s ++ S) lo hi t)
         else Ok (P ++ s ++ S)) P s S.
Proof.
  intros Hf Hl -> ->. destruct (loop_piece f [] s [] Hf Hl) as (t & Et & Ht & Hs).
  rewrite !app_nil_r in Et. cbn [app length] in Et. exists t. split_and!; [|done..].
  destruct (1 <? length s).
  - rewrite sub_app. cbn [mbind outcome_bind]. rewrite Et. cbn [mbind outcome_bind].
    by rewrite put_app.
  - by injection Et as ->.
Qed.

Lemma insertion_sorts s : ∃ t, insertion cmp s 1 (length s - 1) = Ok t ∧ t ≡ₚ s ∧
  (TotalCmp cmp → sorted_by t).
Proof.
  destruct s as [|x s]; [by exists []; split_and!; [..|intros _; constructor]|].
  destruct (insertion_spec (length (x :: s) - 1) (x :: s) 1) as (t & Et & Ht & Hs); [lia|cbn; lia|].
  exists t. split_and!; [done..|]. intros ?. apply Hs; [done|]. intros i j ? ? ? ?. lia.
Qed.

(** The two parts around the pivot, sorted in either order, sort the slice. *)
Lemma pieces_sorts v L M G L' G' :
  Forall (λ x, cmp x v = Lt) L → Forall (eqv v) M → Forall (λ x, cmp x v = Gt) G →
  L' ≡ₚ L → G' ≡ₚ G → (TotalCmp cmp → sorted_by L') → (TotalCmp cmp → sorted_by G') →
  L' ++ M ++ G' ≡ₚ L ++ M ++ G ∧ (TotalCmp cmp → sorted_by (L' ++ M ++ G')).
Proof.
  intros HL HM HG PL PG SL SG. split; [by rewrite PL, PG|]. intros ?.
  eapply sorted_around; [by rewrite PL|done|by rewrite PG|by apply SL|by apply SG].
Qed.

Lemma qsort_loop_ok f : loop_ok f.
Proof.
  induction f as [|f IH]; intros P s S Hf; [lia|]. cbn [qsort_loop]. rewrite sub_app.
  cbn [mbind outcome_bind]. destruct (Nat.ltb_spec (length s) 7) as [Hlt|Hge].
  { destruct (insertion_sorts s) as (t & -> & Ht & Hs). cbn [mbind outcome_bind].
    rewrite put_app. by exists t. }
  destruct (presorted_spec (length s - 1) s 1) as (b & -> & Hb); [lia..|]. cbn [mbind outcome_bind].
  destruct b.
  { exists s. split_and!; [done..|]. intros ?. apply adjacent_sorted. by apply Hb. }
  destruct (split_around_spec s (length s) Hge eq_refl) as (v & t & d1 & d2 & -> & Ht & Har).
  cbn [mbind outcome_bind].
  destruct (around_pieces _ _ _ _ Har) as (L & M & G & -> & <- & <- & Hlen & HL & HM & HG).
  apply Permutation_length in Ht as Hts. rewrite !length_app in Hts, Hlen.
  destruct (length L <=? length G).
  - destruct (call_piece f [] L (M ++ G) 0 (length L) IH) as (L' & EL & PL & SL); [lia|done..|].
    cbn [app] in EL. rewrite EL. cbn [mbind outcome_bind]. rewrite put_app.
    apply Permutation_length in PL as HlL.
    destruct (loop_piece f (P ++ L' ++ M) G S IH ltac:(lia)) as (G' & EG & PG & SG).
    rewrite !length_app, <- !app_assoc in EG. rewrite <- !app_assoc.
    replace (length P + (length s - length G)) with (length P + (length L' + length M)) by lia.
    rewrite EG. exists (L' ++ M ++ G'). rewrite <- !app_assoc, <- Ht. split; [done|].
    by eapply pieces_sorts.
  - destruct (call_piece f (L ++ M) G [] (length s - length G) (length s) IH) as (G' & EG & PG & SG);
      [lia|rewrite length_app; lia|rewrite length_app; lia|].
    rewrite !app_nil_r, <- !app_assoc in EG. rewrite EG. cbn [mbind outcome_bind]. rewrite put_app.
    destruct (loop_piece f P L (M ++ G' ++ S) IH ltac:(lia)) as (L' & EL & PL & SL).
    rewrite <- !app_assoc. rewrite EL. exists (L' ++ M ++ G'). rewrite <- !app_assoc, <- Ht.
    split; [done|]. by eapply pieces_sorts.
Qed.

(** C24. [pg_qsort] is a sort: for every comparator it returns (it neither
    panics nor runs on) with the input's elements in some order, and for a
    comparator that is a total preorder that order is sorted. *)
Theorem pg_qsort_sorts a : ∃ t, pg_qsort cmp a = Ok t ∧ t ≡ₚ a ∧ (TotalCmp cmp → sorted_by t).
Proof.
  destruct (qsort_loop_ok (S (length a)) [] a [] ltac:(lia)) as (t & Et & Ht).
  rewrite !app_nil_r in Et. cbn [app length] in Et. by exists t.
Qed.

End facts.

#[export] Instance Z_compare_total : TotalCmp Z.compare.
Proof.
  split; [intros x y; apply Z.compare_antisym|]. intros x y z.
  intros Hxy Hyz. apply (Z.le_trans x y z); done.
Qed.

(** Eight elements, so the partition runs. *)
Lemma pg_qsort_sorts_witness : ∃ t, pg_qsort Z.compare [3; 1; 4; 1; 5; 9; 2; 6]%Z = Ok t ∧
  t = [1; 1; 2; 3; 4; 5; 6; 9]%Z ∧ sorted_by Z.compare t.
Proof.
  destruct (pg_qsort_sorts Z.compare [3; 1; 4; 1; 5; 9; 2; 6]%Z) as (t & Et & _ & Hs).
  exists t. split; [done|]. split; [|by apply Hs, Z_compare_total].
  vm_compute in Et. congruence.
Defined.
