(* ===== verification/Heap.v ===== *)
(** * The priority queue (secantus-core/src/heap.rs)

    libc++'s binary heap over a vector: [push] sifts the new element up,
    [pop] moves the hole at the top down to a leaf (Floyd) and sifts the last
    element up from there. [HeapOrder] is the source's trait; [HeapLaws] is what
    an implementation of it owes the queue. *)
From S2P Require Import Prelude RustM Vec Slice.
Open Scope nat_scope.

(** [heap_less a b]: [a] belongs below [b]. *)
Class HeapOrder (T : Type) := heap_less : T → T → bool.

(** A strict weak order: [not_below] is transitive and [heap_less] asymmetric. *)
Definition not_below `{HeapOrder T} (a b : T) : Prop := heap_less a b = false.
Class HeapLaws T `{HeapOrder T} : Prop := {
  heap_asym (a b : T) : heap_less a b = true → not_below b a;
  heap_trans (a b c : T) : not_below a b → not_below b c → not_below a c }.

(** [impl<T> HeapOrder for (i32, T)] *)
#[export] Instance pair_heap_order {T} : HeapOrder (Z * T) := λ a b, (a.1 <? b.1)%Z.

#[export] Instance pair_heap_laws {T} : HeapLaws (Z * T).
Proof.
  split; unfold not_below, heap_less, pair_heap_order.
  - intros a b ?%Z.ltb_lt. apply Z.ltb_ge. lia.
  - intros a b c ?%Z.ltb_ge ?%Z.ltb_ge. apply Z.ltb_ge. lia.
Qed.

Section heap.
Context {T : Type} `{HeapOrder T}.
Implicit Types c : list T.

(** [Heap::top] *)
Definition top c : option T := head c.

(** The [loop] of [sift_up]. *)
Fixpoint sift_loop (fuel : nat) c (parent last : nat) : run (list T) :=
  match fuel with
  | O => NoFuel
  | S f =>
      c ← swap c parent last;
      let last := parent in
      if parent =? 0 then Ok c
      else
        let parent := (parent - 1) / 2 in
        x ← get c parent; y ← get c last;
        if heap_less x y then sift_loop f c parent last else Ok c
  end.

Definition sift_up c (len : nat) : run (list T) :=
  if len <=? 1 then Ok c
  else
    let last := len - 1 in
    let parent := (len - 2) / 2 in
    x ← get c parent; y ← get c last;
    if heap_less x y then sift_loop len c parent last else Ok c.

(** [Heap::push] *)
Definition push c (value : T) : run (list T) :=
  let c := c ++ [value] in
  sift_up c (length c).

(** [pop]'s loop: the hole sinks to a leaf, to the greater child each time
    (the right one only when strictly greater). *)
Fixpoint sink_hole (fuel : nat) c (len hole child : nat) : run (list T * nat) :=
  match fuel with
  | O => NoFuel
  | S f =>
      let child_i := 2 * child + 1 in
      right ← (if child_i + 1 <? len
               then x ← get c child_i; y ← get c (child_i + 1); Ok (heap_less x y)
               else Ok false);
      let child := if (right : bool) then child_i + 1 else child_i in
      c ← swap c hole child;
      if (len - 2) / 2 <? child then Ok (c, child) else sink_hole f c len child child
  end.

(** [Vec::pop] *)
Definition vec_pop c : option T * list T := (last c, take (length c - 1) c).

(** [Heap::pop] *)
Definition pop c : run (option T * list T) :=
  let len := length c in
  if len =? 0 then Ok (None, c)
  else if 1 <? len then
    '(c, hole) ← sink_hole len c len 0 0;
    let last := len - 1 in
    if hole =? last then Ok (vec_pop c)
    else
      c ← swap c hole last;
      t ← sub c 0 last;
      t ← sift_up t (hole + 1);
      Ok (vec_pop (put c 0 last t))
  else Ok (vec_pop c).

(** [std::iter::from_fn(|| h.pop()).collect()] *)
Fixpoint drain (fuel : nat) c : run (list T) :=
  match fuel with
  | O => NoFuel
  | S f =>
      '(o, c) ← pop c;
      match o with
      | None => Ok []
      | Some x => xs ← drain f c; Ok (x :: xs)
      end
  end.

Fixpoint push_all c (l : list T) : run (list T) :=
  match l with
  | [] => Ok c
  | x :: l => c ← push c x; push_all c l
  end.

(** A client's calls, in order, and what its pops return. *)
Inductive pq_op := Push (v : T) | Pop.

Fixpoint run_ops c (ops : list pq_op) : run (list (option T) * list T) :=
  match ops with
  | [] => Ok ([], c)
  | Push v :: ops => c ← push c v; run_ops c ops
  | Pop :: ops => '(o, c) ← pop c; '(os, c) ← run_ops c ops; Ok (o :: os, c)
  end.

End heap.
Arguments pq_op : clear implicits.
