(* ===== verification/HeapFacts.v ===== *)
(** * Correctness of the priority queue

    The heap invariant, that [push] and [pop] keep it, and that the queue is
    one: what [pop] removes is not below anything that was in it. *)
From S2P Require Import Prelude RustM Vec Slice Heap.
Open Scope nat_scope.

(** [i] is a child of [p] in the implicit binary tree. *)
Definition child_of (p i : nat) : Prop := i = 2 * p + 1 ∨ i = 2 * p + 2.

Lemma heap_parent_child i : 0 < i → child_of ((i - 1) / 2) i.
Proof.
  intros Hi. unfold child_of. pose proof (Nat.div_mod (i - 1) 2 ltac:(lia)).
  pose proof (Nat.mod_upper_bound (i - 1) 2 ltac:(lia)). lia.
Qed.

Lemma half_leaf len i : 1 < len → (len - 2) / 2 < i → len ≤ 2 * i + 1.
Proof.
  intros Hl Hi. pose proof (Nat.div_mod (len - 2) 2 ltac:(lia)).
  pose proof (Nat.mod_upper_bound (len - 2) 2 ltac:(lia)). lia.
Qed.

Lemma half_inner len i : i ≤ (len - 2) / 2 → 1 < len → 2 * i + 1 < len.
Proof.
  intros Hi Hl. pose proof (Nat.div_mod (len - 2) 2 ltac:(lia)).
  pose proof (Nat.mod_upper_bound (len - 2) 2 ltac:(lia)). lia.
Qed.

Section facts.
Context {T : Type} `{HeapLaws T}.
Implicit Types c t : list T.

Definition edge_ok c (p i : nat) : Prop :=
  ∀ x y, c !! p = Some x → c !! i = Some y → not_below x y.

Definition is_heap c : Prop := ∀ p i, child_of p i → edge_ok c p i.

(** A heap but for the element at [h], which may belong above its parent; the
    parent still covers the children of [h]. *)
Definition almost_heap c (h : nat) : Prop :=
  (∀ p i, child_of p i → i ≠ h → edge_ok c p i) ∧
  (∀ p i, child_of p h → child_of h i → edge_ok c p i).

Lemma almost_is_heap c p h : almost_heap c h → child_of p h → edge_ok c p h → is_heap c.
Proof.
  unfold child_of. intros [Ha _] Hp Hok q i Hq. destruct (decide (i = h)) as [->|]; [|by apply Ha].
  by replace q with p by (unfold child_of in *; lia).
Qed.

Lemma almost_root c : almost_heap c 0 → is_heap c.
Proof. intros [Ha _] q i Hq. apply Ha; [done|]. unfold child_of in Hq. lia. Qed.

(** Swapping an element with the parent it is above moves the exception up. *)
Lemma almost_heap_swap c t p h x y : child_of p h → c !! p = Some x → c !! h = Some y →
  heap_less x y = true → swapped c p h t → almost_heap c h → almost_heap t p.
Proof.
  intros Hph Hx Hy Hlt Hsw [H1 H2]. assert (p < h) by (unfold child_of in Hph; lia).
  assert (Hyx : not_below y x) by (by apply heap_asym).
  split.
  - intros q i Hqi Hn a b. rewrite !(swapped_at _ _ _ _ _ Hsw).
    assert (q < i) by (unfold child_of in Hqi; lia).
    rewrite (decide_False (P := i = p)) by done.
    destruct (decide (q = p)) as [->|]; [|destruct (decide (q = h)) as [->|]].
    + rewrite Hy. intros [= <-]. destruct (decide (i = h)) as [->|]; [by intros; simplify_eq|].
      intros Hb. apply (heap_trans y x b); [done|]. by apply (H1 p i).
    + rewrite decide_False by lia. intros Ha Hb. apply (H2 p i); congruence || done.
    + destruct (decide (i = h)) as [->|]; [|intros Ha Hb; by apply (H1 q i)].
      exfalso. unfold child_of in *. lia.
  - intros q i Hqp Hpi a b. rewrite !(swapped_at _ _ _ _ _ Hsw).
    assert (q < p ∧ p < i) by (unfold child_of in Hqp, Hpi; lia).
    rewrite !(decide_False (P := q = _)), (decide_False (P := i = p)) by lia. intros Ha Hb.
    assert (Hax : not_below a x) by (apply (H1 q p); done || lia).
    destruct (decide (i = h)) as [->|]; [by simplify_eq|].
    apply (heap_trans a x b); [done|]. by apply (H1 p i).
Qed.

Lemma sift_loop_spec fuel c p h x y : child_of p h → p < fuel → c !! p = Some x → c !! h = Some y →
  heap_less x y = true → almost_heap c h →
  ∃ t, sift_loop fuel c p h = Ok t ∧ t ≡ₚ c ∧ is_heap t.
Proof.
  revert c p h x y. induction fuel as [|f IH]; intros c p h x y Hph Hf Hx Hy Hlt Ha; [lia|].
  cbn [sift_loop].
  destruct (swap_spec c p h) as (t & -> & Hsw); [by eapply lookup_lt_Some..|].
  cbn [mbind outcome_bind].
  assert (Hat : almost_heap t p) by (by eapply almost_heap_swap).
  pose proof (swapped_perm _ _ _ _ Hsw) as Hpt. pose proof (swapped_length _ _ _ _ Hsw) as Hlen.
  pose proof (lookup_lt_Some _ _ _ Hx) as Hpl.
  destruct (Nat.eqb_spec p 0) as [->|Hp0]; [exists t; split_and!; [done..|by apply almost_root]|].
  pose proof (heap_parent_child p ltac:(lia)) as Hgp. set (g := (p - 1) / 2) in *.
  destruct (get_lt t g ltac:(unfold child_of in Hgp; lia)) as (a & Ha' & ->).
  destruct (get_lt t p ltac:(lia)) as (b & Hb' & ->). cbn [mbind outcome_bind].
  destruct (heap_less a b) eqn:E.
  - destruct (IH t g p a b) as (u & -> & Hu & Hheap); [done|unfold child_of in Hgp; lia|done..|].
    exists u. split_and!; [done|by rewrite Hu|done].
  - exists t. split_and!; [done..|]. eapply almost_is_heap; [done..|]. intros ? ? ? ?. by simplify_eq.
Qed.

Lemma sift_up_spec c len : 0 < len → len ≤ length c → almost_heap c (len - 1) →
  ∃ t, sift_up c len = Ok t ∧ t ≡ₚ c ∧ is_heap t.
Proof.
  intros Hl0 Hl Ha. unfold sift_up. destruct (Nat.leb_spec len 1).
  { exists c. split_and!; [done..|]. apply almost_root. by replace 0 with (len - 1) by lia. }
  pose proof (heap_parent_child (len - 1) ltac:(lia)) as Hph.
  replace (len - 1 - 1) with (len - 2) in Hph by lia. set (p := (len - 2) / 2) in *.
  assert (p < len - 1) by (unfold child_of in Hph; lia).
  destruct (get_lt c p ltac:(lia)) as (x & Hx & ->).
  destruct (get_lt c (len - 1) ltac:(lia)) as (y & Hy & ->). cbn [mbind outcome_bind].
  destruct (heap_less x y) eqn:E.
  - eapply sift_loop_spec; [done| |done..]. lia.
  - exists c. split_and!; [done..|]. eapply almost_is_heap; [done..|]. intros ? ? ? ?. by simplify_eq.
Qed.

(** A heap but for the hole at [h], whose content does not matter. *)
Definition hole_heap c (h : nat) : Prop :=
  (∀ p i, child_of p i → p ≠ h → i ≠ h → edge_ok c p i) ∧
  (∀ p i, child_of p h → child_of h i → edge_ok c p i).

Lemma hole_swap c t h k : child_of h k → swapped c h k t → hole_heap c h →
  (∀ i, child_of h i → i ≠ k → edge_ok c k i) → hole_heap t k.
Proof.
  intros Hhk Hsw [H1 H2] Hgr. assert (h < k) by (unfold child_of in Hhk; lia). split.
  - intros p i Hpi Hp Hi a b. rewrite !(swapped_at _ _ _ _ _ Hsw).
    rewrite (decide_False (P := p = k)), (decide_False (P := i = k)) by done.
    assert (p < i) by (unfold child_of in Hpi; lia).
    destruct (decide (p = h)) as [->|]; [rewrite decide_False by lia; by apply Hgr|].
    destruct (decide (i = h)) as [->|]; [by apply H2|by apply H1].
  - intros p i Hpk Hki a b. rewrite !(swapped_at _ _ _ _ _ Hsw).
    replace p with h by (unfold child_of in *; lia).
    assert (k < i) by (unfold child_of in Hki; lia).
    rewrite (decide_True (P := h = h)), !(decide_False (P := i = _)) by lia. apply H1; [done|lia..].
Qed.

(** The child the hole moves to covers its sibling. *)
Lemma greater_child c h : 2 * h + 1 < length c →
  ∃ r, (if 2 * h + 1 + 1 <? length c
        then x ← get c (2 * h + 1); y ← get c (2 * h + 1 + 1); Ok (heap_less x y)
        else Ok false) = (Ok r : run bool) ∧
    let k := if r : bool then 2 * h + 1 + 1 else 2 * h + 1 in
    child_of h k ∧ k < length c ∧ ∀ i, child_of h i → i ≠ k → edge_ok c k i.
Proof.
  intros Hl. destruct (Nat.ltb_spec (2 * h + 1 + 1) (length c)) as [Hlt|Hge].
  - destruct (get_lt c (2 * h + 1) Hl) as (x & Hx & ->).
    destruct (get_lt c (2 * h + 1 + 1) Hlt) as (y & Hy & ->). cbn [mbind outcome_bind].
    exists (heap_less x y). split; [done|]. destruct (heap_less x y) eqn:E; cbn zeta;
      (split_and!; [unfold child_of; lia|lia|]); intros i Hi Hn a b Ha Hb.
    + replace i with (2 * h + 1) in Hb by (unfold child_of in Hi; lia). simplify_eq.
      by apply heap_asym.
    + replace i with (2 * h + 1 + 1) in Hb by (unfold child_of in Hi; lia). by simplify_eq.
  - exists false. cbn zeta. split_and!; [done|unfold child_of; lia|lia|].
    intros i Hi Hn a b _ Hb%lookup_lt_Some. unfold child_of in Hi. lia.
Qed.

Lemma sink_hole_spec fuel c h m : length c - h ≤ fuel → 2 * h + 1 < length c → hole_heap c h →
  c !! h = Some m →
  ∃ t h', sink_hole fuel c (length c) h h = Ok (t, h') ∧ t ≡ₚ c ∧ hole_heap t h' ∧
    t !! h' = Some m ∧ length c ≤ 2 * h' + 1.
Proof.
  revert c h. induction fuel as [|f IH]; intros c h Hf Hl Hh Hm; [lia|]. cbn [sink_hole].
  destruct (greater_child c h Hl) as (r & -> & Hk). cbn [mbind outcome_bind].
  set (k := if r then _ else _) in *. cbn zeta in Hk. destruct Hk as (Hhk & Hkl & Hgr).
  clearbody k. assert (h < k) by (unfold child_of in Hhk; lia).
  destruct (swap_spec c h k ltac:(lia) Hkl) as (t & -> & Hsw). cbn [mbind outcome_bind].
  assert (Ht : hole_heap t k) by (by eapply hole_swap).
  assert (Htm : t !! k = Some m).
  { rewrite (swapped_at _ _ _ _ k Hsw). by rewrite decide_False, decide_True by lia. }
  pose proof (swapped_perm _ _ _ _ Hsw) as Hp. pose proof (swapped_length _ _ _ _ Hsw) as Hlen.
  destruct (Nat.ltb_spec ((length c - 2) / 2) k) as [Hlt|Hge].
  - exists t, k. split_and!; [done..|]. apply half_leaf; lia.
  - rewrite <- Hlen. destruct (IH t k) as (u & h' & -> & Hu & Hhu & Hum & Hlf);
      [lia|apply half_inner in Hge; lia|done..|].
    exists u, h'. split_and!; [done|by rewrite Hu|done..].
Qed.

(** ** The operations *)

Lemma push_spec c v : is_heap c → ∃ t, push c v = Ok t ∧ t ≡ₚ v :: c ∧ is_heap t.
Proof.
  intros Hc. unfold push.
  destruct (sift_up_spec (c ++ [v]) (length (c ++ [v]))) as (t & -> & Ht & Hh).
  - rewrite length_app; cbn; lia.
  - done.
  - rewrite length_app. cbn [length]. replace (length c + 1 - 1) with (length c) by lia. split.
    + intros p i Hpi Hi a b Ha Hb. apply lookup_lt_Some in Hb as Hlt.
      rewrite length_app in Hlt. cbn in Hlt. assert (p < i) by (unfold child_of in Hpi; lia).
      rewrite lookup_app_l in Ha, Hb by lia. by apply (Hc p i).
    + intros p i _ Hi a b _ Hb%lookup_lt_Some. rewrite length_app in Hb. cbn in Hb.
      unfold child_of in Hi. lia.
  - exists t. split_and!; [done| |done]. rewrite Ht. by rewrite Permutation_app_comm.
Qed.

Lemma not_below_refl x : not_below x x.
Proof. destruct (heap_less x x) eqn:E; [by apply heap_asym|done]. Qed.

Lemma heap_max c m i x : is_heap c → c !! 0 = Some m → c !! i = Some x → not_below m x.
Proof.
  intros Hc Hm. revert x. induction i as [i IH] using lt_wf_ind. intros x Hx.
  destruct (decide (i = 0)) as [->|Hi]; [simplify_eq; apply not_below_refl|].
  pose proof (heap_parent_child i ltac:(lia)) as Hp. set (p := (i - 1) / 2) in *.
  assert (p < i) by (unfold child_of in Hp; lia). apply lookup_lt_Some in Hx as Hl.
  destruct (lookup_lt_is_Some_2 c p ltac:(lia)) as (y & Hy).
  apply (heap_trans m y x); [by apply (IH p)|by apply (Hc p i)].
Qed.

Lemma snoc_at c n x : length c = S n → c !! n = Some x → c = take n c ++ [x].
Proof.
  intros Hl Hx. rewrite <- (take_drop n c) at 1. f_equal. apply list_eq. intros [|i].
  - rewrite lookup_drop. by replace (n + 0) with n by lia.
  - rewrite lookup_drop. rewrite lookup_ge_None_2 by lia. done.
Qed.

Lemma vec_pop_snoc c x : vec_pop (c ++ [x]) = (Some x, c).
Proof.
  unfold vec_pop. rewrite last_snoc, length_app. cbn. f_equal.
  replace (length c + 1 - 1) with (length c) by lia. apply take_app_length.
Qed.

Lemma edge_take c n p i : child_of p i → (i < n → edge_ok c p i) → edge_ok (take n c) p i.
Proof.
  intros Hpi Hok x y. rewrite !lookup_take. destruct (decide (i < n)) as [Hi|]; [|done].
  rewrite decide_True by (unfold child_of in Hpi; lia). by apply Hok.
Qed.

Lemma pop_hole c t h m n : length t = S n → t !! h = Some m → hole_heap t h → S n ≤ 2 * h + 1 →
  length c = S n → t ≡ₚ c →
  ∃ t', (if h =? n then Ok (vec_pop t)
         else t ← swap t h n; u ← sub t 0 n; u ← sift_up u (h + 1); Ok (vec_pop (put t 0 n u)))
        = (Ok (Some m, t') : run _) ∧ c ≡ₚ m :: t' ∧ is_heap t'.
Proof.
  intros Hl Hm [H1 _] Hlf Hc Hp. destruct (Nat.eqb_spec h n) as [->|Hn].
  { exists (take n t). pose proof (snoc_at t n m Hl Hm) as Et. split_and!.
    - rewrite Et at 1. by rewrite vec_pop_snoc.
    - rewrite <- Hp, Et at 1. by rewrite Permutation_app_comm.
    - intros p i Hpi. apply edge_take; [done|]. intros Hi. apply H1; [done| |lia].
      unfold child_of in Hpi. lia. }
  apply lookup_lt_Some in Hm as Hh.
  destruct (swap_spec t h n ltac:(lia) ltac:(lia)) as (u & -> & Hsw). cbn [mbind outcome_bind].
  pose proof (swapped_length _ _ _ _ Hsw) as Hlu. pose proof (swapped_perm _ _ _ _ Hsw) as Hpu.
  assert (Hun : u !! n = Some m).
  { rewrite (swapped_at _ _ _ _ n Hsw). by rewrite decide_False, decide_True by lia. }
  pose proof (snoc_at u n m ltac:(lia) Hun) as Eu. rewrite sub_ok by lia.
  rewrite drop_0, Nat.sub_0_r. cbn [mbind outcome_bind].
  assert (Hlt : length (take n u) = n) by (rewrite length_take; lia).
  destruct (sift_up_spec (take n u) (h + 1)) as (w & -> & Hw & Hheap); [lia..| |].
  { replace (h + 1 - 1) with h by lia. split.
    - intros p i Hpi Hi. apply edge_take; [done|]. intros Hin x y.
      rewrite !(swapped_at _ _ _ _ _ Hsw). unfold child_of in Hpi.
      rewrite !decide_False by lia. apply H1; [done|lia..].
    - intros p i _ Hi x y _ Hy%lookup_lt_Some. unfold child_of in Hi. lia. }
  cbn [mbind outcome_bind]. exists w. split_and!; [|by rewrite <- Hp, <- Hpu, Eu, Hw, Permutation_app_comm|done].
  unfold put. rewrite take_0, app_nil_l. rewrite Eu at 1.
  rewrite <- Hlt at 1. rewrite drop_app_length. by rewrite vec_pop_snoc.
Qed.

Lemma pop_spec c m : is_heap c → top c = Some m →
  ∃ t, pop c = Ok (Some m, t) ∧ c ≡ₚ m :: t ∧ is_heap t ∧ ∀ x, x ∈ c → not_below m x.
Proof.
  intros Hc Hm. assert (Hm0 : c !! 0 = Some m) by (by destruct c). unfold pop.
  assert (Hmax : ∀ x, x ∈ c → not_below m x).
  { intros x (i & Hi)%list_elem_of_lookup. by eapply heap_max. }
  destruct (Nat.eqb_spec (length c) 0) as [Hl|Hl]; [by destruct c|].
  destruct (Nat.ltb_spec 1 (length c)) as [Hn|Hn].
  - destruct (sink_hole_spec (length c) c 0 m) as (t & h & -> & Hp & Hh & Hmt & Hlf); [lia..| |done|].
    { split; intros p i Hpi; [by intros; apply Hc|]. unfold child_of in Hpi. lia. }
    cbn [mbind outcome_bind].
    destruct (pop_hole c t h m (length c - 1)) as (t' & -> & Hpt & Hht); [rewrite Hp; lia|done..|lia|lia|done|].
    by exists t'.
  - destruct c as [|x [|y c]]; [done| |cbn in Hn; lia]. injection Hm0 as <-. exists [].
    split_and!; [done..| |done]. intros p i _ ? ? ?. done.
Qed.

(** ** The queue as a bag

    What a priority queue promises, with the entries in no order: a pop takes
    out an entry that is not below any other, and says so when there is none. *)
Inductive pq_run : list T → list (pq_op T) → list (option T) → list T → Prop :=
  | pq_done q : pq_run q [] [] q
  | pq_push q v ops os q' : pq_run (v :: q) ops os q' → pq_run q (Push v :: ops) os q'
  | pq_empty ops os q' : pq_run [] ops os q' → pq_run [] (Pop :: ops) (None :: os) q'
  | pq_pop q m q1 ops os q' : q ≡ₚ m :: q1 → (∀ x, x ∈ q → not_below m x) →
      pq_run q1 ops os q' → pq_run q (Pop :: ops) (Some m :: os) q'
  | pq_bag q q1 ops os q' : q ≡ₚ q1 → pq_run q1 ops os q' → pq_run q ops os q'.

Lemma run_ops_refines ops c : is_heap c →
  ∃ os c', run_ops c ops = Ok (os, c') ∧ is_heap c' ∧ pq_run c ops os c'.
Proof.
  revert c. induction ops as [|[v|] ops IH]; intros c Hc; cbn [run_ops].
  - exists [], c. split_and!; [done..|constructor].
  - destruct (push_spec c v Hc) as (t & -> & Ht & Hh). cbn [mbind outcome_bind].
    destruct (IH t Hh) as (os & c' & -> & Hc' & Hr). exists os, c'. split_and!; [done..|].
    constructor. by eapply pq_bag.
  - destruct (top c) as [m|] eqn:Hm.
    + destruct (pop_spec c m Hc Hm) as (t & -> & Ht & Hh & Hmax). cbn [mbind outcome_bind].
      destruct (IH t Hh) as (os & c' & -> & Hc' & Hr). eexists _, _. split_and!; [done..|].
      by eapply pq_pop.
    + destruct c as [|x c]; [|done]. cbn [pop length Nat.eqb mbind outcome_bind].
      destruct (IH [] Hc) as (os & c' & E & Hc' & Hr). unfold pop. cbn. rewrite E.
      eexists _, _. split_and!; [done..|]. by constructor.
Qed.

Lemma nil_heap : is_heap [].
Proof. intros p i _ x y Hx. done. Qed.

(** C25. Whatever a client pushes and pops, every call returns, the vector stays
    a heap, and what the pops return is what a priority queue may return: an
    entry no other entry is above, or nothing when the queue is empty. *)
Theorem heap_is_priority_queue ops :
  ∃ os c, run_ops [] ops = Ok (os, c) ∧ is_heap c ∧ pq_run [] ops os c.
Proof. apply run_ops_refines, nil_heap. Qed.

Lemma push_all_spec l c : is_heap c → ∃ t, push_all c l = Ok t ∧ t ≡ₚ l ++ c ∧ is_heap t.
Proof.
  revert c. induction l as [|v l IH]; intros c Hc; cbn [push_all]; [by exists c|].
  destruct (push_spec c v Hc) as (t & -> & Ht & Hh). cbn [mbind outcome_bind].
  destruct (IH t Hh) as (u & -> & Hu & Hhu). exists u. split_and!; [done| |done].
  rewrite Hu, Ht. by rewrite <- Permutation_middle.
Qed.

Lemma drain_spec fuel c : length c < fuel → is_heap c →
  ∃ l, drain fuel c = Ok l ∧ l ≡ₚ c ∧ StronglySorted not_below l.
Proof.
  revert c. induction fuel as [|f IH]; intros c Hf Hc; [lia|]. cbn [drain].
  destruct (top c) as [m|] eqn:Hm.
  - destruct (pop_spec c m Hc Hm) as (t & -> & Ht & Hh & Hmax). cbn [mbind outcome_bind].
    apply Permutation_length in Ht as Hl. cbn in Hl.
    destruct (IH t ltac:(lia) Hh) as (l & -> & Hlt & Hs). cbn [mbind outcome_bind].
    exists (m :: l). split_and!; [done|by rewrite Hlt, Ht|]. constructor; [done|].
    apply Forall_forall. intros x Hx. apply Hmax. rewrite Ht, <- Hlt. by right.
  - destruct c as [|x c]; [|done]. cbn. exists []. split_and!; [done..|constructor].
Qed.

(** Pushing any entries and popping until the queue is empty gives all of
    them, greatest first. *)
Theorem heap_drain_sorted l :
  ∃ c out, push_all [] l = Ok c ∧ drain (S (length l)) c = Ok out ∧ out ≡ₚ l ∧
    StronglySorted not_below out.
Proof.
  destruct (push_all_spec l [] nil_heap) as (c & -> & Hc & Hh). rewrite app_nil_r in Hc.
  destruct (drain_spec (S (length l)) c) as (out & E & Ho & Hs); [rewrite Hc; lia|done|].
  exists c, out. split_and!; [done..|by rewrite Ho|done].
Qed.

End facts.

(** The queue of [(i32, T)] entries: equal priorities leave in heap order. *)
Lemma heap_is_priority_queue_witness :
  ∃ os c, run_ops [] [Push (1, 0); Push (1, 1); Pop; Push (2, 2); Pop; Pop; Pop]%Z = Ok (os, c) ∧
    os = [Some (1, 0); Some (2, 2); Some (1, 1); None]%Z ∧ is_heap c.
Proof.
  destruct (heap_is_priority_queue [Push (1, 0); Push (1, 1); Pop; Push (2, 2); Pop; Pop; Pop]%Z)
    as (os & c & E & Hh & _). exists os, c. split; [done|]. split; [|done].
  vm_compute in E. congruence.
Defined.

Lemma heap_drain_sorted_witness :
  ∃ c out, push_all [] [(1, 0); (1, 1); (1, 2); (1, 3)]%Z = Ok c ∧
    drain 5 c = Ok out ∧ out = [(1, 0); (1, 1); (1, 3); (1, 2)]%Z ∧ StronglySorted not_below out.
Proof.
  destruct (heap_drain_sorted [(1, 0); (1, 1); (1, 2); (1, 3)]%Z) as (c & out & E & E2 & _ & Hs).
  exists c, out. split; [done|]. split; [done|]. split; [|done].
  vm_compute in E. injection E as <-. vm_compute in E2. congruence.
Defined.
