(* ===== verification/RowLocks.v ===== *)
(** * Row locks (secantus-storage/src/share_locks.rs, the held-row sets of
    secantus-storage/src/lib.rs, secantus-pg/src/row_waits.rs)

    A transaction's written rows are in its [Held] set; its shared locks
    ([FOR SHARE], [FOR KEY SHARE]) are in that set and in a process-wide table
    keyed by store and row. A writer publishes its row and then reads the table
    ([note_row]); a sharer publishes its entry and then reads every session's
    held set ([share_selected_rows]).

    A [Held] is named by its address, the identity the table uses; the
    transactions of all threads share one [state], and what a thread keeps to
    itself (its thread-locals) is a [thread]. *)
From stdpp Require Import strings.
From S2P Require Import Prelude.
Local Open Scope Z_scope.

Definition WrittenRow : Type := string * string * Z.

Inductive ShareMode := KeyShare | Share.
#[export] Instance ShareMode_eq_dec : EqDecision ShareMode.
Proof. solve_decision. Defined.

#[export] Instance ShareMode_countable : Countable ShareMode.
Proof.
  refine (inj_countable' (λ m, match m with KeyShare => false | Share => true end)
    (λ b : bool, if b then Share else KeyShare) _). by intros [].
Defined.

(** [ShareMode]'s derived [Ord], and its [max]. *)
Definition mode_le (a b : ShareMode) : Prop := a = KeyShare ∨ b = Share.
Definition mode_max (a b : ShareMode) : ShareMode :=
  match a with KeyShare => b | Share => Share end.

(** [RowLockStrength] *)
Inductive Strength := StKeyShare | StShare | StNoKeyUpdate | StUpdate.

Record Held := MkHeld {
  rows : gset WrittenRow;
  collections : list (string * string);
  key_rows : gset WrittenRow;
  shared : gmap WrittenRow ShareMode;
  shared_log : list WrittenRow;
  moving : gset WrittenRow;
  store : Z }.

(** A [Held::default()] with its store set ([begin_user_transaction]). *)
Definition new_held (store : Z) : Held := MkHeld ∅ [] ∅ ∅ [] ∅ store.

(** [helds]: the sets that are alive, by address; [holders]: [row_waits]'s
    sessions; [table] and [COUNT]: [share_locks]'s. *)
Record state := MkState {
  helds : gmap Z Held;
  holders : gmap Z Z;
  table : gmap (Z * WrittenRow) (list (Z * ShareMode));
  COUNT : Z }.

Definition with_helds (f : gmap Z Held → gmap Z Held) (st : state) : state :=
  MkState (f (helds st)) (holders st) (table st) (COUNT st).
Definition set_held (a : Z) (h : Held) : state → state := with_helds (<[a := h]>).

Record thread := MkThread {
  th_session : bool;             (** [ACTIVE_TXN_SESSION] is not null *)
  th_rows : option Z;            (** [ACTIVE_ROWS] *)
  th_key : bool;                 (** [KEY_WRITE] *)
  th_last : option WrittenRow;   (** [LAST_ROW] *)
  th_stmt : list (string * string); (** [STMT_WRITTEN] *)
  th_wait : option Strength      (** [WAIT_STRENGTH] *) }.

(** [set_last_row], [set_wait_strength], [clear_wait_strength] *)
Definition set_last_row (th : thread) (row : WrittenRow) : thread :=
  MkThread (th_session th) (th_rows th) (th_key th) (Some row) (th_stmt th) (th_wait th).
Definition set_wait_strength (th : thread) (s : Strength) : thread :=
  MkThread (th_session th) (th_rows th) (th_key th) (th_last th) (th_stmt th) (Some s).
Definition clear_wait_strength (th : thread) : thread :=
  MkThread (th_session th) (th_rows th) (th_key th) (th_last th) (th_stmt th) None.

(** ** share_locks.rs *)

Definition mover_of (holder : Z) : Z := Z.lor holder 1.

(** [hs.iter_mut().find(|(h, _)| *h == holder)] strengthened in place. *)
Fixpoint strengthen (hs : list (Z * ShareMode)) (holder : Z) (mode : ShareMode) :
    option (list (Z * ShareMode)) :=
  match hs with
  | [] => None
  | (h, m) :: hs =>
      if decide (h = holder) then Some ((h, mode_max m mode) :: hs)
      else cons (h, m) <$> strengthen hs holder mode
  end.

Definition add (st : state) (s : Z) (row : WrittenRow) (holder : Z) (mode : ShareMode) :
    state * bool :=
  let hs := default [] (table st !! (s, row)) in
  match strengthen hs holder mode with
  | Some hs => (MkState (helds st) (holders st) (<[(s, row) := hs]> (table st)) (COUNT st), false)
  | None => (MkState (helds st) (holders st) (<[(s, row) := hs ++ [(holder, mode)]]> (table st))
               (COUNT st + 1), true)
  end.

Definition remove (st : state) (s : Z) (row : WrittenRow) (holder : Z) : state :=
  match table st !! (s, row) with
  | None => st
  | Some hs =>
      let hs' := filter (λ e, e.1 ≠ holder) hs in
      let t := match hs' with [] => delete (s, row) (table st) | _ => <[(s, row) := hs']> (table st) end in
      MkState (helds st) (holders st) t (COUNT st - (Z.of_nat (length hs) - Z.of_nat (length hs')))
  end.

(** [key]: this thread's [KEY_WRITE]. *)
Definition write_blocked (st : state) (key : bool) (s : Z) (row : WrittenRow) (me : Z) : bool :=
  if COUNT st =? 0 then false
  else
    match table st !! (s, row) with
    | None => false
    | Some hs =>
        existsb (λ e, bool_decide (e.1 ≠ me) && bool_decide (e.1 ≠ mover_of me) &&
                      (key || bool_decide (e.2 = Share))) hs
    end.

(** ** The held sets (secantus-storage/src/lib.rs) *)

Definition ID_KEY_ROW_SUFFIX : string := String Ascii.zero "_id".

Definition strip_suffix (s suffix : string) : option string :=
  let n := (String.length s - String.length suffix)%nat in
  if (String.length suffix <=? String.length s)%nat && String.eqb (String.substring n (String.length suffix) s) suffix
  then Some (String.substring 0 n s) else None.

Definition row_collection (coll : string) : string := default coll (strip_suffix coll ID_KEY_ROW_SUFFIX).

(** Push unless present. *)
Definition note_collection (l : list (string * string)) (dc : string * string) : list (string * string) :=
  if decide (dc ∈ l) then l else l ++ [dc].

Definition held_note (h : Held) (row : WrittenRow) (key : bool) : Held :=
  let '(db, coll, _) := row in
  MkHeld ({[row]} ∪ rows h) (note_collection (collections h) (db, row_collection coll))
    (if key then {[row]} ∪ key_rows h else key_rows h)
    (shared h) (shared_log h) (moving h) (store h).

(** The first half of [note_row]: the row enters the transaction's set, and
    the transaction's identity and store are read ([0], [0] outside one). *)
Definition note_publish (st : state) (th : thread) (row : WrittenRow) : state * thread * (Z * Z) :=
  let '(db, coll, _) := row in
  let outside := (st, MkThread (th_session th) (th_rows th) (th_key th) (th_last th)
                        (note_collection (th_stmt th) (db, row_collection coll)) (th_wait th), (0, 0)) in
  if th_session th then
    match th_rows th with
    | Some a =>
        match helds st !! a with
        | Some h => (set_held a (held_note h row (th_key th)) st, th, (a, store h))
        | None => outside
        end
    | None => outside
    end
  else outside.

Inductive StorageError := WriteConflict.

(** The second half: the shared-lock table is read and the row recorded. *)
Definition note_check (st : state) (th : thread) (row : WrittenRow) (me : Z * Z) :
    thread * (StorageError + unit) :=
  let blocked := bool_decide (me.2 ≠ 0) && write_blocked st (th_key th) me.2 row me.1 in
  (set_last_row th row, if blocked then inl WriteConflict else inr ()).

Definition note_row (st : state) (th : thread) (row : WrittenRow) :
    state * thread * (StorageError + unit) :=
  let '(st, th, me) := note_publish st th row in
  let '(th, r) := note_check st th row me in
  (st, th, r).

Definition share_row (st : state) (th : thread) (row : WrittenRow) (mode : ShareMode) : state * bool :=
  match th_rows th with
  | None => (st, false)
  | Some me =>
      match helds st !! me with
      | None => (st, false)
      | Some held =>
          let '(st, new) := add st (store held) row me mode in
          let prev := shared held !! row in
          let m := match prev with None => mode | Some p => mode_max p mode end in
          let log := match prev with None => shared_log held ++ [row] | Some _ => shared_log held end in
          (set_held me (MkHeld (rows held) (collections held) (key_rows held)
                          (<[row := m]> (shared held)) log (moving held) (store held)) st, new)
      end
  end.

Definition unshare_row (st : state) (th : thread) (row : WrittenRow) : state :=
  match th_rows th with
  | None => st
  | Some me =>
      match helds st !! me with
      | None => st
      | Some held =>
          set_held me (MkHeld (rows held) (collections held) (key_rows held)
                         (delete row (shared held)) (filter (λ r, r ≠ row) (shared_log held))
                         (moving held) (store held))
            (remove st (store held) row me)
      end
  end.

(** The loop of [release_shared_after] over the split-off rows. *)
Fixpoint release_rows (st : state) (me : Z) (held : Held) (rs : list WrittenRow) : state * Held :=
  match rs with
  | [] => (st, held)
  | row :: rs =>
      release_rows (remove st (store held) row me) me
        (MkHeld (rows held) (collections held) (key_rows held) (delete row (shared held))
           (shared_log held) (moving held) (store held)) rs
  end.

Definition release_shared_after (st : state) (me : Z) (keep : nat) : state :=
  match helds st !! me with
  | None => st
  | Some held =>
      if (length (shared_log held) <=? keep)%nat then st
      else
        let '(st, held') := release_rows st me held (drop keep (shared_log held)) in
        set_held me (MkHeld (rows held') (collections held') (key_rows held') (shared held')
                       (take keep (shared_log held)) (moving held') (store held')) st
  end.

Definition release_shared (st : state) (me : Z) : state := release_shared_after st me 0.

(** [Held::clear]: the writes are gone, the shared locks are not. *)
Definition held_clear (st : state) (me : Z) : state :=
  match helds st !! me with
  | None => st
  | Some h => set_held me (MkHeld ∅ [] ∅ (shared h) (shared_log h) (moving h) (store h)) st
  end.

Definition set_moving (me : Z) (mv : gset WrittenRow) (st : state) : state :=
  match helds st !! me with
  | None => st
  | Some h => set_held me (MkHeld (rows h) (collections h) (key_rows h) (shared h) (shared_log h) mv (store h)) st
  end.

(** The loop of [MoveGuard::new]: enter each row as the mover's, FOR SHARE. *)
Fixpoint guard_rows (st : state) (s mover : Z) (rs : list WrittenRow) : state * list WrittenRow :=
  match rs with
  | [] => (st, [])
  | row :: rs =>
      let '(st, new) := add st s row mover Share in
      let '(st, added) := guard_rows st s mover rs in
      (st, if (new : bool) then row :: added else added)
  end.

Definition move_guard_new (st : state) (me : Z) : state * list WrittenRow :=
  match helds st !! me with
  | None => (st, [])
  | Some h =>
      let rs := elements (rows h) in
      let '(st, added) := guard_rows st (store h) (mover_of me) rs in
      (set_moving me (list_to_set rs) st, added)
  end.

Definition remove_rows (st : state) (s x : Z) (rs : list WrittenRow) : state :=
  foldl (λ st row, remove st s row x) st rs.

(** [MoveGuard]'s [Drop] *)
Definition move_guard_drop (st : state) (me : Z) (added : list WrittenRow) : state :=
  match helds st !! me with
  | None => st
  | Some h => set_moving me ∅ (remove_rows st (store h) (mover_of me) added)
  end.

(** ** row_waits.rs *)

Definition register (st : state) (pid held : Z) : state :=
  MkState (helds st) (<[pid := held]> (holders st)) (table st) (COUNT st).
Definition forget (st : state) (pid : Z) : state :=
  MkState (helds st) (delete pid (holders st)) (table st) (COUNT st).

Definition conflicts (h : Held) (row : WrittenRow) (want : Strength) : bool :=
  let sh := shared h !! row in
  if bool_decide (row ∈ moving h) then true
  else
    match want with
    | StKeyShare => bool_decide (row ∈ key_rows h)
    | StShare => bool_decide (row ∈ rows h)
    | StNoKeyUpdate => bool_decide (row ∈ rows h) || bool_decide (sh = Some Share)
    | StUpdate => bool_decide (row ∈ rows h) || bool_decide (is_Some sh)
    end.

Definition holders_in_mode (st : state) (row : WrittenRow) (pid : Z) (want : Strength) : list Z :=
  let hs := filter (λ e, e.1 ≠ pid ∧
              match helds st !! e.2 with Some h => conflicts h row want | None => false end = true)
              (map_to_list (holders st)) in
  merge_sort Z.le (hs.*1).

(** [wait_strength]: what the wait was set for, else a write's strength. *)
Definition wait_strength (th : thread) : Strength :=
  match th_wait th with Some s => s | None => if th_key th then StUpdate else StNoKeyUpdate end.

Definition wrote_collection (st : state) (pid : Z) (pred : string → string → bool) : bool :=
  match holders st !! pid with
  | None => false
  | Some a => match helds st !! a with
              | None => false
              | Some h => existsb (λ dc, pred dc.1 dc.2) (collections h)
              end
  end.

(** ** [share_selected_rows] (secantus-pg/src/lib.rs)

    For each row: the publication ([share_row]), then the check. A row held in
    a conflicting mode is an error, and a new entry is backed out. *)
Inductive PgError :=
  | StorageFailed         (** "could not find a row" *)
  | LockNotAvailable      (** 55P03, under NOWAIT *)
  | SerializationFailure. (** waited for, and the statement run again *)

Definition share_mode_of (strength : Strength) : ShareMode :=
  match strength with StShare => Share | _ => KeyShare end.

Definition share_check (st : state) (th : thread) (pid : Z) (row : WrittenRow) (want : Strength)
    (nowait new : bool) : state * thread * (PgError + unit) :=
  match holders_in_mode st row pid want with
  | [] => (st, th, inr ())
  | _ =>
      let st := if new then unshare_row st th row else st in
      if nowait then (st, th, inl LockNotAvailable)
      else (st, set_wait_strength (set_last_row th row) want, inl SerializationFailure)
  end.

Definition share_one (st : state) (th : thread) (pid : Z) (row : WrittenRow) (want : Strength)
    (nowait : bool) : state * thread * (PgError + unit) :=
  let '(st, new) := share_row st th row (share_mode_of want) in
  share_check st th pid row want nowait new.

(** [row_of] is the document's [_id] looked up by the storage
    ([Storage::row_of_id]): a row, none (no [_id], or not found), an error. *)
Fixpoint share_selected_rows {Doc} (row_of : Doc → PgError + option WrittenRow) (st : state)
    (th : thread) (pid : Z) (docs : list Doc) (want : Strength) (nowait : bool) :
    state * thread * (PgError + unit) :=
  match docs with
  | [] => (st, th, inr ())
  | d :: docs =>
      match row_of d with
      | inl e => (st, th, inl e)
      | inr None => share_selected_rows row_of st th pid docs want nowait
      | inr (Some row) =>
          let '(st, th, r) := share_one st th pid row want nowait in
          match r with
          | inl e => (st, th, inl e)
          | inr _ => share_selected_rows row_of st th pid docs want nowait
          end
      end
  end.
