(* ===== verification/RowLockSystem.v ===== *)
(** * Row locks: the shared-lock table, and transactions interleaved

    [ent st s row x] is the mode [x] shares [row] of store [s] in. Every
    operation is characterised by what it does to [ent]; [table_ok] is the
    table's own invariant (no empty list, one entry a holder, [COUNT] exact).

    Every thread's transaction takes the atomic steps of RowLocks.v in any
    interleaving: a writer's publication and check, a sharer's publication and
    check, savepoint rollbacks, transaction ends and the move of a transaction
    onto a new snapshot. The state is extended with what has been granted, so
    that mutual exclusion can be stated. *)
From stdpp Require Import strings.
From S2P Require Import Prelude RowLocks.
Local Open Scope Z_scope.

Fixpoint assoc (x : Z) (hs : list (Z * ShareMode)) : option ShareMode :=
  match hs with
  | [] => None
  | (h, m) :: hs => if decide (h = x) then Some m else assoc x hs
  end.

Definition ent (st : state) (s : Z) (row : WrittenRow) (x : Z) : option ShareMode :=
  assoc x (default [] (table st !! (s, row))).

Definition total (t : gmap (Z * WrittenRow) (list (Z * ShareMode))) : Z :=
  map_fold (λ _ hs n, n + Z.of_nat (length hs)) 0 t.

Record table_ok (st : state) : Prop := {
  ok_entries k hs : table st !! k = Some hs → hs ≠ [] ∧ NoDup hs.*1;
  ok_count : COUNT st = total (table st) }.

(** ** Association lists *)

Lemma assoc_None x hs : assoc x hs = None ↔ x ∉ hs.*1.
Proof.
  induction hs as [|[h m] hs IH]; cbn; [set_solver|]. case_decide; set_solver.
Qed.

Lemma assoc_Some x m hs : NoDup hs.*1 → assoc x hs = Some m ↔ (x, m) ∈ hs.
Proof.
  induction hs as [|[h m'] hs IH]; cbn; [set_solver|].
  intros (Hh & Hd)%NoDup_cons. rewrite elem_of_cons. case_decide as Hx.
  - subst h. split; [intros [= ->]; by left|]. intros [[= ->]|Hin]; [done|].
    exfalso. apply Hh. by apply (list_elem_of_fmap_2 fst) in Hin.
  - rewrite IH by done. split; [by right|]. intros [[= ? ->]|]; done.
Qed.

Lemma strengthen_None hs x m : strengthen hs x m = None ↔ assoc x hs = None.
Proof.
  induction hs as [|[h m'] hs IH]; cbn; [done|]. case_decide; [done|].
  rewrite <- IH. by destruct (strengthen hs x m).
Qed.

Lemma strengthen_Some hs x m hs' : strengthen hs x m = Some hs' →
  hs'.*1 = hs.*1 ∧ ∃ p, assoc x hs = Some p ∧
    ∀ y, assoc y hs' = if decide (y = x) then Some (mode_max p m) else assoc y hs.
Proof.
  revert hs'. induction hs as [|[h m'] hs IH]; intros hs'; cbn; [done|]. case_decide as Hx.
  - subst h. intros [= <-]. cbn. split; [done|]. exists m'. split; [done|]. intros y.
    destruct (decide (x = y)); [subst; by rewrite decide_True|]. by rewrite decide_False by congruence.
  - destruct (strengthen hs x m) as [l|]; [|done]. intros [= <-]. cbn.
    destruct (IH l eq_refl) as (Hf & p & Hp & Hy). split; [by rewrite Hf|].
    exists p. split; [done|]. intros y. rewrite Hy. repeat case_decide; congruence.
Qed.

Lemma assoc_snoc y hs x m : assoc y (hs ++ [(x, m)]) =
  match assoc y hs with Some p => Some p | None => if decide (x = y) then Some m else None end.
Proof. induction hs as [|[h m'] hs IH]; cbn; [done|]. by destruct (decide (h = y)). Qed.

Lemma assoc_filter y hs x : assoc y (filter (λ e, e.1 ≠ x) hs) = if decide (y = x) then None else assoc y hs.
Proof.
  induction hs as [|[h m'] hs IH]; [by case_decide|]. rewrite filter_cons. cbn [fst].
  destruct (decide (h = x)) as [->|];
    [rewrite decide_False by tauto|rewrite decide_True by done]; cbn [assoc]; rewrite IH; repeat case_decide; congruence.
Qed.

Lemma fmap_filter_fst hs x :
  (filter (λ e : Z * ShareMode, e.1 ≠ x) hs).*1 = filter (λ y, y ≠ x) hs.*1.
Proof.
  induction hs as [|[h m'] hs IH]; [done|]. rewrite filter_cons. cbn [fst fmap list_fmap].
  rewrite filter_cons. destruct (decide (h ≠ x)); cbn [fst fmap list_fmap]; by rewrite IH.
Qed.

(** ** The table's size *)

Lemma total_delete t k hs : t !! k = Some hs → total (delete k t) = total t - Z.of_nat (length hs).
Proof.
  intros Hk. unfold total. rewrite (map_fold_delete_L _ _ k hs t); [lia| |done].
  intros. lia.
Qed.

Lemma total_insert t k hs :
  total (<[k := hs]> t) = total t - Z.of_nat (length (default [] (t !! k))) + Z.of_nat (length hs).
Proof.
  assert (Hn : ∀ t, t !! k = None → total (<[k := hs]> t) = total t + Z.of_nat (length hs)).
  { intros t' Ht'. unfold total. rewrite map_fold_insert_L; [lia|intros; lia|done]. }
  destruct (t !! k) as [l|] eqn:E; cbn [default length].
  - rewrite <- insert_delete_eq, Hn by apply lookup_delete_eq. rewrite (total_delete t k l) by done.
    cbn. lia.
  - rewrite Hn by done. cbn. lia.
Qed.

Lemma total_pos t : 0 ≤ total t.
Proof.
  unfold total. apply (map_fold_weak_ind (λ n _, 0 ≤ n)); intros; lia.
Qed.

Lemma total_zero t k hs : total t = 0 → t !! k = Some hs → hs = [].
Proof.
  intros Ht Hk. pose proof (total_delete t k hs Hk). pose proof (total_pos (delete k t)).
  destruct hs; [done|cbn in *; lia].
Qed.

(** ** [add] and [remove] *)

Lemma ent_lookup st s row x hs : table st !! (s, row) = Some hs → ent st s row x = assoc x hs.
Proof. unfold ent. by intros ->. Qed.

Lemma ent_insert t n hd ho s row l s' row' x :
  ent (MkState hd ho (<[(s, row) := l]> t) n) s' row' x =
    if decide ((s', row') = (s, row)) then assoc x l else assoc x (default [] (t !! (s', row'))).
Proof.
  unfold ent. cbn [table]. destruct (decide ((s', row') = (s, row))) as [->|Hn].
  - by rewrite lookup_insert_eq.
  - by rewrite lookup_insert_ne by congruence.
Qed.

Definition same_key (s' s : Z) (row' row : WrittenRow) (x' x : Z) : Prop :=
  s' = s ∧ row' = row ∧ x' = x.
#[export] Instance same_key_dec s' s row' row x' x : Decision (same_key s' s row' row x' x).
Proof. unfold same_key. apply _. Defined.

Lemma add_spec st s row x m : table_ok st →
  let '(st', new) := add st s row x m in
  table_ok st' ∧ helds st' = helds st ∧ holders st' = holders st ∧
  new = bool_decide (ent st s row x = None) ∧
  ∀ s' row' x', ent st' s' row' x' =
    if decide (same_key s' s row' row x' x)
    then Some match ent st s row x with Some p => mode_max p m | None => m end
    else ent st s' row' x'.
Proof.
  intros [Hok Hc]. unfold add. set (hs := default [] (table st !! (s, row))).
  assert (Hnd : NoDup hs.*1).
  { unfold hs. destruct (table st !! (s, row)) as [l|] eqn:E; cbn; [by apply (Hok _ _ E)|constructor]. }
  assert (He : ∀ x, ent st s row x = assoc x hs) by done.
  destruct (strengthen hs x m) as [hs'|] eqn:E.
  - destruct (strengthen_Some _ _ _ _ E) as (Hf & p & Hp & Hy). split_and!; [|done|done| |].
    + assert (Hl : length hs' = length hs).
      { rewrite <- (length_fmap fst hs'), <- (length_fmap fst hs). by rewrite Hf. }
      split; cbn [table COUNT].
      * intros k l [[<- <-]|[Hk Hl']]%lookup_insert_Some; [|by apply (Hok k)].
        rewrite Hf. split; [|done]. intros ->. cbn in Hf. destruct hs; [|done]. cbn in Hp. done.
      * rewrite total_insert. fold hs. lia.
    + rewrite He, Hp. done.
    + intros s' row' x'. rewrite ent_insert, !He, Hp. unfold same_key.
      destruct (decide ((s', row') = (s, row))) as [[= -> ->]|Hn].
      * rewrite Hy. repeat case_decide; naive_solver.
      * rewrite decide_False by naive_solver. done.
  - apply strengthen_None in E. split_and!; [|done|done| |].
    + split; cbn [table COUNT].
      * intros k l [[<- <-]|[Hk Hl']]%lookup_insert_Some; [|by apply (Hok k)].
        split; [by destruct hs|]. rewrite fmap_app. apply NoDup_app. split_and!; [done| |apply NoDup_singleton].
        apply assoc_None in E. set_solver.
      * rewrite total_insert. fold hs. rewrite length_app. cbn. lia.
    + rewrite He, E. done.
    + intros s' row' x'. rewrite ent_insert, !He, E. unfold same_key.
      destruct (decide ((s', row') = (s, row))) as [[= -> ->]|Hn].
      * rewrite assoc_snoc, ?He. destruct (decide (x' = x)) as [->|Hx].
        -- by rewrite E, !decide_True by done.
        -- rewrite !decide_False by naive_solver. by destruct (assoc x' hs).
      * rewrite decide_False by naive_solver. done.
Qed.

Lemma remove_spec st s row x : table_ok st →
  table_ok (remove st s row x) ∧ helds (remove st s row x) = helds st ∧
  holders (remove st s row x) = holders st ∧
  ∀ s' row' x', ent (remove st s row x) s' row' x' =
    if decide (same_key s' s row' row x' x) then None else ent st s' row' x'.
Proof.
  intros [Hok Hc]. unfold remove. destruct (table st !! (s, row)) as [hs|] eqn:E.
  2: { split_and!; [done..|]. intros s' row' x'. case_decide as Hk; [|done].
       destruct Hk as (-> & -> & ->). unfold ent. by rewrite E. }
  cbv zeta. set (hs' := filter (λ e : Z * ShareMode, e.1 ≠ x) hs).
  assert (Hnd : NoDup hs'.*1) by (unfold hs'; rewrite fmap_filter_fst; by apply NoDup_filter, (Hok _ _ E)).
  assert (He : ∀ y, assoc y hs' = if decide (y = x) then None else ent st s row y).
  { intros y. unfold hs'. rewrite assoc_filter. by rewrite (ent_lookup _ _ _ _ _ E). }
  assert (Ht : ∀ s' row' x', (s', row') ≠ (s, row) → ent st s' row' x' =
    if decide (same_key s' s row' row x' x) then None else ent st s' row' x').
  { intros s' row' x' Hn. rewrite decide_False; [done|]. unfold same_key. naive_solver. }
  clearbody hs'. split_and!; [|done|done|].
  - split; cbn [table COUNT].
    + intros k l Hkl. destruct hs' as [|e r] eqn:Ehs.
      * apply lookup_delete_Some in Hkl as [_ Hkl]. by apply (Hok k).
      * apply lookup_insert_Some in Hkl as [[<- <-]|[_ Hkl]]; [done|by apply (Hok k)].
    + destruct hs' as [|e r] eqn:Ehs.
      * rewrite (total_delete _ _ _ E). cbn. lia.
      * rewrite total_insert, E. cbn [default id]. lia.
  - intros s' row' x'. destruct (decide ((s', row') = (s, row))) as [[= -> ->]|Hn].
    + assert (Hl : ent (MkState (helds st) (holders st)
        match hs' with [] => delete (s, row) (table st) | _ => <[(s, row) := hs']> (table st) end
        (COUNT st - (Z.of_nat (length hs) - Z.of_nat (length hs')))) s row x' = assoc x' hs').
      { unfold ent. cbn [table]. destruct hs'; [by rewrite lookup_delete_eq|by rewrite lookup_insert_eq]. }
      rewrite Hl, He. unfold same_key. repeat case_decide; naive_solver.
    + rewrite <- Ht by done. unfold ent. cbn [table].
      destruct hs'; [by rewrite lookup_delete_ne by congruence|by rewrite lookup_insert_ne by congruence].
Qed.

(** ** [write_blocked] reads the table exactly *)

Lemma write_blocked_iff st key s row me : table_ok st →
  write_blocked st key s row me = true ↔
  ∃ x m, ent st s row x = Some m ∧ x ≠ me ∧ x ≠ mover_of me ∧ (key = true ∨ m = Share).
Proof.
  intros [Hok Hc]. unfold write_blocked. destruct (Z.eqb_spec (COUNT st) 0) as [H0|H0].
  - split; [done|]. intros (x & m & Hx & _). unfold ent in Hx.
    destruct (table st !! (s, row)) as [hs|] eqn:E; [|done].
    rewrite (total_zero (table st) _ _ ltac:(lia) E) in Hx. done.
  - unfold ent. destruct (table st !! (s, row)) as [hs|] eqn:E; cbn [default].
    2: { split; [done|]. by intros (? & ? & ? & _). }
    rewrite existsb_True. destruct (Hok _ _ E) as [_ Hnd]. split.
    + intros ([x m] & Hin & Hb). cbn in Hb. exists x, m. rewrite (assoc_Some _ _ _ Hnd).
      rewrite !andb_true_iff, orb_true_iff, !bool_decide_eq_true in Hb. naive_solver.
    + intros (x & m & Hx & H1 & H2 & H3). exists (x, m). rewrite (assoc_Some _ _ _ Hnd) in Hx.
      split; [done|]. cbn. rewrite !andb_true_iff, orb_true_iff, !bool_decide_eq_true. naive_solver.
Qed.

(** ** [holders_in_mode] *)

Lemma holders_in_mode_iff st row pid want p :
  p ∈ holders_in_mode st row pid want ↔
  p ≠ pid ∧ ∃ a h, holders st !! p = Some a ∧ helds st !! a = Some h ∧ conflicts h row want = true.
Proof.
  unfold holders_in_mode. rewrite merge_sort_Permutation, list_elem_of_fmap.
  setoid_rewrite list_elem_of_filter. split.
  - intros ([p' a] & -> & [Hn Hc] & Hin%elem_of_map_to_list). cbn in *.
    destruct (helds st !! a) as [h|] eqn:E; [|done]. split; [done|]. by exists a, h.
  - intros (Hn & a & h & Hp & Ha & Hc). exists (p, a). cbn. rewrite Ha. split_and!; [done..|].
    by apply elem_of_map_to_list.
Qed.

(** ** Row locks: transactions interleaved *)

(** What each operation does to its own held set and to [ent]. *)

Definition set_shared (h : Held) (sh : gmap WrittenRow ShareMode) (log : list WrittenRow) : Held :=
  MkHeld (rows h) (collections h) (key_rows h) sh log (moving h) (store h).

Lemma set_held_ent a h st s row x : ent (set_held a h st) s row x = ent st s row x.
Proof. done. Qed.

Lemma set_held_ok a h st : table_ok st → table_ok (set_held a h st).
Proof. intros [H1 H2]. by split. Qed.

Lemma share_row_spec st th a h row m st' new : table_ok st → th_rows th = Some a →
  helds st !! a = Some h → share_row st th row m = (st', new) →
  table_ok st' ∧ holders st' = holders st ∧
  helds st' = <[a := set_shared h
      (<[row := match shared h !! row with None => m | Some p => mode_max p m end]> (shared h))
      match shared h !! row with None => shared_log h ++ [row] | Some _ => shared_log h end]> (helds st) ∧
  new = bool_decide (ent st (store h) row a = None) ∧
  ∀ s' row' x', ent st' s' row' x' =
    if decide (same_key s' (store h) row' row x' a)
    then Some match ent st (store h) row a with Some p => mode_max p m | None => m end
    else ent st s' row' x'.
Proof.
  intros Hok Ha Hh. unfold share_row. rewrite Ha, Hh.
  pose proof (add_spec st (store h) row a m Hok) as Hadd.
  destruct (add st (store h) row a m) as [st1 new1]. intros [= <- <-].
  destruct Hadd as (Hok1 & Hd & Ho & Hn & He). cbn [holders helds set_held with_helds].
  rewrite Hd. split_and!; [by apply set_held_ok|done|done|done|]. intros s' row' x'.
  rewrite set_held_ent. apply He.
Qed.

Lemma unshare_row_spec st th a h row : table_ok st → th_rows th = Some a → helds st !! a = Some h →
  let st' := unshare_row st th row in
  table_ok st' ∧ holders st' = holders st ∧
  helds st' = <[a := set_shared h (delete row (shared h)) (filter (λ r, r ≠ row) (shared_log h))]> (helds st) ∧
  ∀ s' row' x', ent st' s' row' x' =
    if decide (same_key s' (store h) row' row x' a) then None else ent st s' row' x'.
Proof.
  intros Hok Ha Hh. unfold unshare_row. rewrite Ha, Hh. cbv zeta.
  destruct (remove_spec st (store h) row a Hok) as (Hok1 & Hd & Ho & He).
  cbn [holders helds set_held with_helds]. rewrite Hd.
  split_and!; [by apply set_held_ok|done|done|]. intros. rewrite set_held_ent. apply He.
Qed.

Lemma release_rows_spec rs st a h : table_ok st →
  let '(st', h') := release_rows st a h rs in
  table_ok st' ∧ holders st' = holders st ∧ helds st' = helds st ∧
  h' = set_shared h (shared h') (shared_log h) ∧
  (∀ row, shared h' !! row = if decide (row ∈ rs) then None else shared h !! row) ∧
  ∀ s' row' x', ent st' s' row' x' =
    if decide (s' = store h ∧ row' ∈ rs ∧ x' = a) then None else ent st s' row' x'.
Proof.
  revert st h. induction rs as [|row rs IH]; intros st h Hok; cbn [release_rows].
  { split_and!; [done|done|done|by destruct h|..].
    - intros row. by rewrite decide_False by set_solver.
    - intros. by rewrite decide_False by set_solver. }
  destruct (remove_spec st (store h) row a Hok) as (Hok1 & Hd & Ho & He).
  specialize (IH _ (set_shared h (delete row (shared h)) (shared_log h)) Hok1).
  fold (set_shared h (delete row (shared h)) (shared_log h)).
  destruct (release_rows _ _ _ rs) as [st' h']. destruct IH as (H1 & H2 & H3 & H4 & H5 & H6).
  split_and!; [done|by rewrite H2|by rewrite H3|by rewrite H4 at 1|..].
  - intros r. rewrite H5. cbn [set_shared shared]. destruct (decide (r = row)) as [->|Hn].
    + rewrite lookup_delete_eq, (decide_True (P := row ∈ row :: rs)) by set_solver. by case_decide.
    + rewrite lookup_delete_ne by done. repeat case_decide; set_solver.
  - intros s' row' x'. rewrite H6, He. cbn [set_shared store]. unfold same_key.
    repeat case_decide; set_solver.
Qed.

Lemma release_after_spec st a h keep : table_ok st → helds st !! a = Some h →
  let st' := release_shared_after st a keep in
  let out := drop keep (shared_log h) in
  table_ok st' ∧ holders st' = holders st ∧
  (∃ sh, helds st' = <[a := set_shared h sh (take keep (shared_log h))]> (helds st) ∧
     ∀ row, sh !! row = if decide (row ∈ out) then None else shared h !! row) ∧
  ∀ s' row' x', ent st' s' row' x' =
    if decide (s' = store h ∧ row' ∈ out ∧ x' = a) then None else ent st s' row' x'.
Proof.
  intros Hok Hh. unfold release_shared_after. rewrite Hh. cbv zeta.
  destruct (Nat.leb_spec (length (shared_log h)) keep) as [Hle|Hlt].
  { rewrite drop_ge, take_ge by done. split_and!; [done|done| |].
    - exists (shared h). split; [|intros; by rewrite decide_False by set_solver].
      rewrite insert_id; [done|]. by destruct h.
    - intros. by rewrite decide_False by set_solver. }
  pose proof (release_rows_spec (drop keep (shared_log h)) st a h Hok) as Hr.
  destruct (release_rows _ _ _ _) as [st1 h']. destruct Hr as (H1 & H2 & H3 & H4 & H5 & H6).
  split_and!; [by apply set_held_ok|done| |intros; rewrite set_held_ent; apply H6].
  exists (shared h'). split; [|done]. cbn [helds set_held with_helds]. rewrite H3. rewrite H4. done.
Qed.

Lemma guard_rows_spec rs st s x : table_ok st → NoDup rs →
  let '(st', added) := guard_rows st s x rs in
  table_ok st' ∧ holders st' = holders st ∧ helds st' = helds st ∧
  added = filter (λ row, ent st s row x = None) rs ∧
  ∀ s' row' x', ent st' s' row' x' =
    if decide (s' = s ∧ row' ∈ rs ∧ x' = x) then Some Share else ent st s' row' x'.
Proof.
  revert st. induction rs as [|row rs IH]; intros st Hok Hnd; cbn [guard_rows].
  { split_and!; [done..|]. intros. by rewrite decide_False by set_solver. }
  apply NoDup_cons in Hnd as [Hnin Hnd].
  pose proof (add_spec st s row x Share Hok) as Hadd.
  destruct (add st s row x Share) as [st1 new]. destruct Hadd as (Hok1 & Hd & Ho & Hn & He).
  specialize (IH st1 Hok1 Hnd). destruct (guard_rows st1 s x rs) as [st2 added].
  destruct IH as (H1 & H2 & H3 & H4 & H5).
  split_and!; [done|by rewrite H2|by rewrite H3|..].
  - rewrite filter_cons, H4, Hn. assert (Hf : filter (λ r, ent st1 s r x = None) rs = filter (λ r, ent st s r x = None) rs).
    { apply list_filter_ext_in. intros r Hr. rewrite He. unfold same_key. rewrite decide_False; [done|].
      intros (_ & -> & _). done. }
    rewrite Hf. case_decide; [by rewrite bool_decide_true|by rewrite bool_decide_false].
  - intros s' row' x'. rewrite H5, He. unfold same_key.
    destruct (decide (s' = s ∧ row' = row ∧ x' = x)) as [(-> & -> & ->)|Hne].
    + rewrite (decide_True (P := _ ∧ row ∈ row :: rs ∧ _)) by set_solver. case_decide; [done|].
      f_equal. destruct (ent st s row x) as [[]|]; done.
    + repeat case_decide; set_solver.
Qed.

Lemma remove_rows_spec rs st s x : table_ok st →
  let st' := remove_rows st s x rs in
  table_ok st' ∧ holders st' = holders st ∧ helds st' = helds st ∧
  ∀ s' row' x', ent st' s' row' x' =
    if decide (s' = s ∧ row' ∈ rs ∧ x' = x) then None else ent st s' row' x'.
Proof.
  cbv zeta. revert st. induction rs as [|row rs IH]; intros st Hok; cbn [remove_rows foldl].
  { split_and!; [done..|]. intros. by rewrite decide_False by set_solver. }
  destruct (remove_spec st s row x Hok) as (Hok1 & Hd & Ho & He).
  destruct (IH _ Hok1) as (H1 & H2 & H3 & H4). unfold remove_rows in *.
  split_and!; [done|by rewrite H2|by rewrite H3|]. intros s' row' x'. rewrite H4, He.
  unfold same_key. repeat case_decide; set_solver.
Qed.

(** ** The data invariant *)

Lemma mover_even a : Z.even a = true → mover_of a = a + 1.
Proof.
  intros He%Z.even_spec. destruct He as [k ->]. unfold mover_of.
  rewrite <- Z.add_lor_land. replace (Z.land (2 * k) 1) with 0; [lia|].
  change 1 with (Z.ones 1). rewrite Z.land_ones by lia. rewrite Z.pow_1_r, Z.mul_comm, Z.mod_mul; lia.
Qed.

Lemma mover_odd a : Z.even (mover_of a) = false.
Proof.
  rewrite <- Z.negb_odd, negb_false_iff. unfold mover_of. rewrite <- Z.bit0_odd, Z.lor_spec.
  by rewrite orb_true_r.
Qed.

Record held_ok (st : state) (a : Z) (h : Held) : Prop := {
  ho_addr : 0 < a ∧ Z.even a = true;
  ho_store : store h ≠ 0;
  ho_reg : ∃ p, holders st !! p = Some a;
  ho_shared row : shared h !! row = ent st (store h) row a;
  ho_log : NoDup (shared_log h) ∧ ∀ row, row ∈ shared_log h ↔ is_Some (shared h !! row);
  ho_moving row : ent st (store h) row (mover_of a) = if decide (row ∈ moving h) then Some Share else None }.

(** Every set is consistent with the table, and the table names live sets
    only: a transaction, or the mover of one, on a row it is moving. *)
Record data_ok (st : state) : Prop := {
  do_table : table_ok st;
  do_held a h : helds st !! a = Some h → held_ok st a h;
  do_live s row x m : ent st s row x = Some m →
    ∃ a h, helds st !! a = Some h ∧ store h = s ∧ (x = a ∨ (x = mover_of a ∧ row ∈ moving h)) }.

(** An operation of transaction [a] touches [a]'s set and the entries of [a]
    and of its mover in its own store. *)
Lemma data_ok_frame st st' a h h' : data_ok st → helds st !! a = Some h → table_ok st' →
  helds st' = <[a := h']> (helds st) → holders st' = holders st → store h' = store h →
  (∀ s row x, s ≠ store h ∨ (x ≠ a ∧ x ≠ mover_of a) → ent st' s row x = ent st s row x) →
  (∀ row, shared h' !! row = ent st' (store h) row a) →
  (NoDup (shared_log h') ∧ ∀ row, row ∈ shared_log h' ↔ is_Some (shared h' !! row)) →
  (∀ row, ent st' (store h) row (mover_of a) = if decide (row ∈ moving h') then Some Share else None) →
  data_ok st'.
Proof.
  intros [Ht Hh Hl] Ha Ht' Hd Ho Hs Hent Hsh Hlog Hmv.
  destruct (Hh a h Ha) as [Hadr Hsto Hreg _ _ _]. destruct Hadr as [Hpos Hev].
  split; [done| |].
  - intros b hb. rewrite Hd. intros [[<- <-]|[Hn Hb]]%lookup_insert_Some.
    + split; rewrite ?Ho, ?Hs; done.
    + destruct (Hh b hb Hb) as [Hadr' Hsto' Hreg' Hsh' Hlog' Hmv'].
      assert (b ≠ mover_of a) by (intros ->; rewrite mover_odd in Hadr'; naive_solver).
      assert (mover_of b ≠ a) by (intros <-; by rewrite mover_odd in Hev).
      assert (mover_of b ≠ mover_of a) by (rewrite !mover_even by tauto; lia).
      split; [done|done|by rewrite Ho| |done|]; intros row; rewrite Hent by auto; auto.
  - intros s row x m. rewrite Hd. destruct (decide (s ≠ store h ∨ (x ≠ a ∧ x ≠ mover_of a))) as [Hc|Hc].
    + rewrite Hent by done. intros (b & hb & Hb & Hst & Hx)%Hl.
      assert (b ≠ a) by (intros ->; simplify_eq; naive_solver).
      exists b, hb. by rewrite lookup_insert_ne.
    + assert (s = store h) as -> by (destruct (decide (s = store h)); tauto).
      intros Hm. exists a, h'. rewrite lookup_insert_eq. split_and!; [done..|].
      destruct (decide (x = a)) as [->|]; [by left|right].
      assert (x = mover_of a) as -> by (destruct (decide (x = mover_of a)); tauto).
      rewrite Hmv in Hm. by case_decide.
Qed.

(** ** The system *)

Record sys := Sys {
  st : state;
  wpend : gmap Z (WrittenRow * bool * (Z * Z)); (** between a writer's halves *)
  spend : gmap Z (WrittenRow * Strength * bool); (** between a sharer's halves *)
  mv : gmap Z (list WrittenRow);                 (** the live [MoveGuard]s *)
  wgrant : gset (Z * WrittenRow * bool);         (** writes let through *)
  sgrant : gset (Z * WrittenRow * ShareMode);    (** shared locks granted *)
  lost : gset (Z * WrittenRow * bool)            (** key-strength writes a move has unmarked *) }.

Definition idle (s : sys) (a : Z) : Prop := wpend s !! a = None ∧ spend s !! a = None.

(** The grants of [a] that satisfy [keep], and everyone else's. *)
Definition kept {B} `{Countable B} (a : Z) (keep : WrittenRow → B → bool)
    (g : gset (Z * WrittenRow * B)) : gset (Z * WrittenRow * B) :=
  filter (λ e, e.1.1 ≠ a ∨ keep e.1.2 e.2 = true) g.

Lemma elem_of_kept {B} `{Countable B} (a : Z) (keep : WrittenRow → B → bool) (g : gset (Z * WrittenRow * B)) b row x :
  (b, row, x) ∈ kept a keep g ↔ (b ≠ a ∨ keep row x = true) ∧ (b, row, x) ∈ g.
Proof. unfold kept. by rewrite elem_of_filter. Qed.

(** [a]'s key-strength writes of rows it has noted again, but without the key
    mark: [Held::clear] empties [key_rows] and [rebase_user_transaction_to]
    replays outside [with_key_write]. *)
Definition unmarked (a : Z) (h : Held) (g : gset (Z * WrittenRow * bool)) : gset (Z * WrittenRow * bool) :=
  filter (λ e, e.1.1 = a ∧ e.2 = true ∧ e.1.2 ∈ rows h ∧ e.1.2 ∉ key_rows h) g.

(** A key-strength write let through marks its row (again). *)
Definition relocked (a : Z) (row : WrittenRow) (key : bool) (l : gset (Z * WrittenRow * bool)) :
    gset (Z * WrittenRow * bool) :=
  if key then l ∖ {[(a, row, true)]} else l.

Lemma elem_of_relocked a row key l b r : (b, r, true) ∈ relocked a row key l ↔
  (b, r, true) ∈ l ∧ (key = false ∨ (b, r) ≠ (a, row)).
Proof. unfold relocked. destruct key; set_solver. Qed.

(** One atomic step of some thread. [step_move_clear] is the rollback of the
    moving transaction's old WiredTiger transaction, right after its guard was
    set; a write is still the transaction's after [step_move_end] if the replay
    noted its row again, with the key mark or without it. *)
Inductive step : sys → sys → Prop :=
  | step_begin s p a sto : helds (st s) !! a = None → 0 < a → Z.even a = true → sto ≠ 0 →
      holders (st s) !! p = None →
      step s (Sys (register (set_held a (new_held sto) (st s)) p a)
                (wpend s) (spend s) (mv s) (wgrant s) (sgrant s) (lost s))
  | step_write_publish s th a row st' th' me : th_session th = true → th_rows th = Some a →
      is_Some (helds (st s) !! a) → idle s a → note_publish (st s) th row = (st', th', me) →
      step s (Sys st' (<[a := (row, th_key th, me)]> (wpend s)) (spend s) (mv s) (wgrant s) (sgrant s) (lost s))
  | step_write_check s th a row me th' r : th_rows th = Some a →
      wpend s !! a = Some (row, th_key th, me) → note_check (st s) th row me = (th', r) →
      step s (Sys (st s) (delete a (wpend s)) (spend s) (mv s)
                match r with inr _ => {[(a, row, th_key th)]} ∪ wgrant s | inl _ => wgrant s end (sgrant s)
         match r with inr _ => relocked a row (th_key th) (lost s) | inl _ => lost s end)
  | step_share_publish s th a row want st' new : th_rows th = Some a → is_Some (helds (st s) !! a) →
      idle s a → want = StKeyShare ∨ want = StShare →
      share_row (st s) th row (share_mode_of want) = (st', new) →
      step s (Sys st' (wpend s) (<[a := (row, want, new)]> (spend s)) (mv s) (wgrant s) (sgrant s) (lost s))
  | step_share_check s th p a row want nowait new st' th' r : th_rows th = Some a →
      spend s !! a = Some (row, want, new) → holders (st s) !! p = Some a →
      share_check (st s) th p row want nowait new = (st', th', r) →
      step s (Sys st' (wpend s) (delete a (spend s)) (mv s) (wgrant s)
                match r with inr _ => {[(a, row, share_mode_of want)]} ∪ sgrant s | inl _ => sgrant s end (lost s))
  | step_rollback_to s a h keep : helds (st s) !! a = Some h → idle s a →
      step s (Sys (release_shared_after (st s) a keep) (wpend s) (spend s) (mv s) (wgrant s)
                (kept a (λ row _, bool_decide (row ∉ drop keep (shared_log h))) (sgrant s)) (lost s))
  | step_end s p a : holders (st s) !! p = Some a → is_Some (helds (st s) !! a) → idle s a →
      mv s !! a = None →
      step s (Sys (forget (with_helds (delete a) (release_shared (held_clear (st s) a) a)) p)
                (wpend s) (spend s) (mv s) (kept a (λ _ _, false) (wgrant s)) (kept a (λ _ _, false) (sgrant s))
         (kept a (λ _ _, false) (lost s)))
  | step_move_start s a st' added : is_Some (helds (st s) !! a) → idle s a → mv s !! a = None →
      move_guard_new (st s) a = (st', added) →
      step s (Sys st' (wpend s) (spend s) (<[a := added]> (mv s)) (wgrant s) (sgrant s) (lost s))
  | step_move_clear s a h : helds (st s) !! a = Some h → idle s a → is_Some (mv s !! a) →
      rows h ⊆ moving h →
      step s (Sys (held_clear (st s) a) (wpend s) (spend s) (mv s) (wgrant s) (sgrant s) (lost s))
  | step_move_end s a h added : helds (st s) !! a = Some h → idle s a → mv s !! a = Some added →
      step s (Sys (move_guard_drop (st s) a added) (wpend s) (spend s) (delete a (mv s))
                (kept a (λ row _, bool_decide (row ∈ rows h)) (wgrant s)) (sgrant s)
                (unmarked a h (wgrant s) ∪ lost s)).

Definition init : sys := Sys (MkState ∅ ∅ ∅ 0) ∅ ∅ ∅ ∅ ∅ ∅.
Definition reachable : sys → Prop := rtc step init.

(** ** The invariant *)

(** [h] accounts for a granted write, for a granted share. *)
Definition whold (h : Held) (row : WrittenRow) (key : bool) : Prop :=
  row ∈ moving h ∨ (row ∈ rows h ∧ (key = true → row ∈ key_rows h)).
Definition shold (h : Held) (row : WrittenRow) (m : ShareMode) : Prop :=
  ∃ m', shared h !! row = Some m' ∧ mode_le m m'.

Definition live (s : sys) (a : Z) (h : Held) : Prop := helds (st s) !! a = Some h.

(** The strength a granted write of [a] is still held in. *)
Definition held_key (s : sys) (a : Z) (row : WrittenRow) (key : bool) : bool :=
  key && bool_decide ((a, row, true) ∉ lost s).

Lemma held_key_true s a row key : held_key s a row key = true ↔ key = true ∧ (a, row, true) ∉ lost s.
Proof. unfold held_key. by rewrite andb_true_iff, bool_decide_eq_true. Qed.

Record ghost_ok (s : sys) : Prop := {
  g_write a row key : (a, row, key) ∈ wgrant s → ∃ h, live s a h ∧ whold h row (held_key s a row key);
  g_share a row m : (a, row, m) ∈ sgrant s → ∃ h, live s a h ∧ shold h row m;
  g_wpend a row key me : wpend s !! a = Some (row, key, me) →
    ∃ h, live s a h ∧ me = (a, store h) ∧ whold h row key;
  g_spend a row want new : spend s !! a = Some (row, want, new) →
    ∃ h, live s a h ∧ shold h row (share_mode_of want) ∧ (want = StKeyShare ∨ want = StShare) ∧
      (new = true → ∀ m, (a, row, m) ∉ sgrant s);
  g_mv a : match mv s !! a with
           | Some added => ∃ h, live s a h ∧ moving h = list_to_set added
           | None => ∀ h, live s a h → moving h = ∅
           end }.

(** No write is let through while another transaction shares the row in a
    conflicting mode, but for the key strength a move has lost. *)
Definition exclusive (s : sys) : Prop :=
  ∀ a b row key m ha hb, (a, row, key) ∈ wgrant s → (b, row, m) ∈ sgrant s → a ≠ b →
    live s a ha → live s b hb → store ha = store hb →
    m = KeyShare ∧ (key = true → (a, row, true) ∈ lost s).

Record inv (s : sys) : Prop := {
  inv_data : data_ok (st s);
  inv_ghost : ghost_ok s;
  inv_excl : exclusive s }.

Lemma whold_weaken h row k k' : whold h row k → (k' = true → k = true) → whold h row k'.
Proof. unfold whold. naive_solver. Qed.

(** A step that changes only [a]'s set and grants nothing. *)
Lemma ghost_update s s' a h h' : ghost_ok s → exclusive s → live s a h →
  helds (st s') = <[a := h']> (helds (st s)) → store h' = store h →
  wgrant s' ⊆ wgrant s → sgrant s' ⊆ sgrant s → lost s ⊆ lost s' →
  (∀ row key, (a, row, key) ∈ wgrant s' →
     whold h row (held_key s a row key) → whold h' row (held_key s' a row key)) →
  (∀ row m, (a, row, m) ∈ sgrant s' → shold h row m → shold h' row m) →
  (∀ b, b ≠ a → wpend s' !! b = wpend s !! b ∧ spend s' !! b = spend s !! b ∧ mv s' !! b = mv s !! b) →
  (∀ row key me, wpend s' !! a = Some (row, key, me) → me = (a, store h) ∧ whold h' row key) →
  (∀ row want new, spend s' !! a = Some (row, want, new) →
     shold h' row (share_mode_of want) ∧ (want = StKeyShare ∨ want = StShare) ∧
     (new = true → ∀ m, (a, row, m) ∉ sgrant s')) →
  moving h' = match mv s' !! a with Some added => list_to_set added | None => ∅ end →
  ghost_ok s' ∧ exclusive s'.
Proof.
  intros [G1 G2 G3 G4 G5] Hex Ha Hd Hst Hw Hs Hlost Hwh Hsh Hoth Hwp Hsp Hmv.
  assert (Hla : live s' a h') by (unfold live; by rewrite Hd, lookup_insert_eq).
  assert (Hlo : ∀ b hb, b ≠ a → live s' b hb ↔ live s b hb).
  { intros b hb Hb. unfold live. by rewrite Hd, lookup_insert_ne. }
  assert (Hlb : ∀ b hb, live s' b hb → ∃ hb', live s b hb' ∧ store hb' = store hb).
  { intros b hb Hb. destruct (decide (b = a)) as [->|Hn]; [|exists hb; by rewrite <- Hlo].
    unfold live in *. exists h. split; [done|]. congruence. }
  split; [split|].
  - intros b row key Hin. destruct (G1 b row key (Hw _ Hin)) as (hb & Hb & Hh).
    destruct (decide (b = a)) as [->|Hn].
    + unfold live in *. simplify_eq. exists h'. auto.
    + exists hb. rewrite Hlo by done. split; [done|]. apply (whold_weaken _ _ _ _ Hh).
      rewrite !held_key_true. set_solver.
  - intros b row m Hin. destruct (G2 b row m (Hs _ Hin)) as (hb & Hb & Hh).
    destruct (decide (b = a)) as [->|Hn]; [|exists hb; by rewrite Hlo].
    unfold live in *. simplify_eq. exists h'. auto.
  - intros b row key me. destruct (decide (b = a)) as [->|Hn].
    + intros (-> & Hh)%Hwp. exists h'. by rewrite Hst.
    + destruct (Hoth b Hn) as (-> & _). intros (hb & Hb & Hr)%G3. exists hb. by rewrite Hlo.
  - intros b row want new. destruct (decide (b = a)) as [->|Hn].
    + intros Hh%Hsp. exists h'. done.
    + destruct (Hoth b Hn) as (_ & -> & _). intros (hb & Hb & H1 & H2 & H3)%G4.
      exists hb. rewrite Hlo by done. split_and!; [done..|]. intros Hnew m Hin.
      by apply (H3 Hnew m), Hs.
  - intros b. destruct (decide (b = a)) as [->|Hn].
    + destruct (mv s' !! a); [by exists h'|]. unfold live in *. intros. by simplify_eq.
    + destruct (Hoth b Hn) as (_ & _ & ->). specialize (G5 b).
      destruct (mv s !! b); [destruct G5 as (hb & Hb & Hm); exists hb; by rewrite Hlo|].
      intros hb. rewrite Hlo by done. apply G5.
  - intros x y row key m hx hy Hx Hy Hn Hlx Hly Heq.
    destruct (Hlb x hx Hlx) as (hx' & Hlx' & Ex). destruct (Hlb y hy Hly) as (hy' & Hly' & Ey).
    destruct (Hex x y row key m hx' hy') as [? Hk]; [auto..|congruence|]. split; [done|].
    intros Hkt. by apply Hlost, Hk.
Qed.

Lemma mode_le_max m p q : mode_le m p ∨ mode_le m q → mode_le m (mode_max p q).
Proof. unfold mode_le. destruct m, p, q; cbn; intuition. Qed.

Lemma step_begin_inv s p a sto : inv s → helds (st s) !! a = None → 0 < a → Z.even a = true →
  sto ≠ 0 → holders (st s) !! p = None →
  inv (Sys (register (set_held a (new_held sto) (st s)) p a) (wpend s) (spend s) (mv s) (wgrant s) (sgrant s) (lost s)).
Proof.
  intros [[Ht Hh Hl] [G1 G2 G3 G4 G5] Hex] Ha Hpos Hev Hsto Hp.
  assert (Hlive : ∀ b hb, live s b hb → (<[a := new_held sto]> (helds (st s))) !! b = Some hb).
  { intros b hb Hb. unfold live in Hb. rewrite lookup_insert_ne; [done|congruence]. }
  assert (Hnone : ∀ row x, x = a ∨ x = mover_of a → ent (st s) sto row x = None).
  { intros row x Hx. destruct (ent (st s) sto row x) as [m|] eqn:E; [|done].
    destruct (Hl _ _ _ _ E) as (b & hb & Hb & _ & Hxb). destruct (Hh b hb Hb) as [[_ Hevb] _ _ _ _ _].
    assert (b ≠ a) by congruence. exfalso.
    assert (mover_of a = a + 1 ∧ mover_of b = b + 1) by (split; by apply mover_even).
    assert (Hpar : ∀ u v, Z.even u = true → Z.even v = true → u ≠ v + 1).
    { intros u v Hu Hv ->. rewrite Z.even_add, Hv in Hu. done. }
    pose proof (Hpar a b Hev Hevb). pose proof (Hpar b a Hevb Hev). lia. }
  split; [split|split|]; cbn [st wpend spend mv wgrant sgrant lost register helds holders set_held with_helds].
  - destruct Ht. by split.
  - intros b hb [[<- <-]|[Hn Hb]]%lookup_insert_Some.
    + split; cbn [new_held store shared shared_log moving holders].
      * done.
      * done.
      * exists p. apply lookup_insert_eq.
      * intros row. symmetry. apply (Hnone row a). by left.
      * split; [constructor|]. intros row. rewrite lookup_empty, elem_of_nil. split; [done|by intros []].
      * intros row. rewrite decide_False by set_solver. apply (Hnone row (mover_of a)). by right.
    + destruct (Hh b hb Hb) as [H1 H2 (q & Hq) H4 H5 H6]. split; try done.
      exists q. cbn. rewrite lookup_insert_ne; [done|congruence].
  - intros s' row x m He. destruct (Hl s' row x m He) as (b & hb & Hb & Hr).
    exists b, hb. split; [by apply Hlive|done].
  - intros b row key (hb & Hb & Hr)%G1. exists hb. split; [by apply Hlive|done].
  - intros b row m (hb & Hb & Hr)%G2. exists hb. split; [by apply Hlive|done].
  - intros b row key me (hb & Hb & Hr)%G3. exists hb. split; [by apply Hlive|done].
  - intros b row want new (hb & Hb & Hr)%G4. exists hb. split; [by apply Hlive|done].
  - intros b. specialize (G5 b). destruct (mv s !! b) as [added|].
    + destruct G5 as (hb & Hb & Hr). exists hb. split; [by apply Hlive|done].
    + unfold live. cbn. intros hb [[<- <-]|[Hn Hb]]%lookup_insert_Some; [done|by apply G5].
  - intros x y row key m hx hy Hx Hy Hn Hlx Hly Heq.
    destruct (G1 _ _ _ Hx) as (hx' & Hx' & _). destruct (G2 _ _ _ Hy) as (hy' & Hy' & _).
    pose proof (Hlive _ _ Hx'). pose proof (Hlive _ _ Hy'). unfold live in Hlx, Hly. cbn in Hlx, Hly.
    apply (Hex x y row key m hx' hy'); try done. congruence.
Qed.

Lemma inv_of s a h h' st' wp sp mv' wg sg lo : inv s → live s a h →
  data_ok st' → helds st' = <[a := h']> (helds (st s)) → store h' = store h →
  wg ⊆ wgrant s → sg ⊆ sgrant s → lost s ⊆ lo →
  (∀ row key, (a, row, key) ∈ wg → whold h row (held_key s a row key) →
     whold h' row (key && bool_decide ((a, row, true) ∉ lo))) →
  (∀ row m, (a, row, m) ∈ sg → shold h row m → shold h' row m) →
  (∀ b, b ≠ a → wp !! b = wpend s !! b ∧ sp !! b = spend s !! b ∧ mv' !! b = mv s !! b) →
  (∀ row key me, wp !! a = Some (row, key, me) → me = (a, store h) ∧ whold h' row key) →
  (∀ row want new, sp !! a = Some (row, want, new) →
     shold h' row (share_mode_of want) ∧ (want = StKeyShare ∨ want = StShare) ∧
     (new = true → ∀ m, (a, row, m) ∉ sg)) →
  moving h' = match mv' !! a with Some added => list_to_set added | None => ∅ end →
  inv (Sys st' wp sp mv' wg sg lo).
Proof.
  intros [Hd Hg Hx] Ha Hd' Hhd Hst Hw Hs Hlo H1 H2 H3 H4 H5 H6.
  destruct (ghost_update s (Sys st' wp sp mv' wg sg lo) a h h') as [? ?]; done.
Qed.

Lemma mv_moving s a h : ghost_ok s → live s a h →
  moving h = match mv s !! a with Some added => list_to_set added | None => ∅ end.
Proof.
  intros Hg Ha. pose proof (g_mv _ Hg a) as Hm. destruct (mv s !! a); [|by apply Hm].
  destruct Hm as (h' & Hh' & Hm). unfold live in *. by simplify_eq.
Qed.

Lemma step_write_publish_inv s th a row st' th' me : inv s → th_session th = true →
  th_rows th = Some a → is_Some (helds (st s) !! a) → idle s a →
  note_publish (st s) th row = (st', th', me) →
  inv (Sys st' (<[a := (row, th_key th, me)]> (wpend s)) (spend s) (mv s) (wgrant s) (sgrant s) (lost s)).
Proof.
  intros Hi Hses Hrows [h Hh] [_ Hsp]. unfold note_publish. destruct row as [[db coll] rid].
  rewrite Hses, Hrows, Hh. intros [= <- <- <-]. pose proof (inv_data _ Hi) as Hd.
  pose proof (do_held _ Hd a h Hh) as [? ? ? Hsh Hlog Hmv].
  eapply (inv_of s a h); [done|done| |cbn; reflexivity|done|done|done|done|..].
  - eapply (data_ok_frame (st s)); [done|done| |done|done|done|done|done|done|done].
    by apply set_held_ok, Hd.
  - intros r k _ [Hm|[Hr Hk]]; [by left|right]. cbn. split; [set_solver|].
    intros Hkt%Hk. destruct (th_key th); set_solver.
  - done.
  - intros b Hb. by rewrite lookup_insert_ne.
  - intros r k m. rewrite lookup_insert_eq. intros [= <- <- <-]. split; [done|]. right. cbn.
    split; [set_solver|]. intros ->. set_solver.
  - intros r w n. by rewrite Hsp.
  - cbn. by apply mv_moving; [apply Hi|].
Qed.

Lemma step_share_publish_inv s th a row want st' new : inv s → th_rows th = Some a →
  is_Some (helds (st s) !! a) → idle s a → want = StKeyShare ∨ want = StShare →
  share_row (st s) th row (share_mode_of want) = (st', new) →
  inv (Sys st' (wpend s) (<[a := (row, want, new)]> (spend s)) (mv s) (wgrant s) (sgrant s) (lost s)).
Proof.
  intros Hi Hrows [h Hh] [Hwp _] Hwant Hsr. pose proof (inv_data _ Hi) as Hd.
  pose proof (do_held _ Hd a h Hh) as [[_ Hev] ? ? Hsh Hlog Hmv].
  destruct (share_row_spec _ _ _ _ _ _ _ _ (do_table _ Hd) Hrows Hh Hsr) as (Ht & Ho & Hhd & Hnew & He).
  set (h' := set_shared _ _ _) in Hhd. set (m := share_mode_of want) in *.
  assert (Hmono : ∀ r k, shold h r k → shold h' r k).
  { intros r k (m' & Hm' & Hle). unfold shold, h'. cbn. destruct (decide (r = row)) as [->|Hn].
    - rewrite lookup_insert_eq, Hm'. eexists. split; [done|]. apply mode_le_max. by left.
    - rewrite lookup_insert_ne by done. by exists m'. }
  eapply (inv_of s a h); [done|done| |exact Hhd|done|done|done|done|..].
  - eapply (data_ok_frame (st s)); [done|done|done|exact Hhd|done|done|..].
    + intros s' r x Hc. rewrite He. rewrite decide_False; [done|]. unfold same_key. naive_solver.
    + intros r. rewrite He. unfold h'. cbn. unfold same_key. destruct (decide (r = row)) as [->|Hn].
      * rewrite lookup_insert_eq, decide_True, <- Hsh by done. by destruct (shared h !! row).
      * rewrite lookup_insert_ne, decide_False by naive_solver. apply Hsh.
    + unfold h'. cbn. destruct Hlog as [Hnd Hlog].
      split.
      * destruct (shared h !! row) eqn:E; [done|]. apply NoDup_app. split_and!; [done| |apply NoDup_singleton].
        intros r Hr ->%list_elem_of_singleton. apply Hlog in Hr. rewrite E in Hr. by destruct Hr.
      * intros r. destruct (decide (r = row)) as [->|Hn].
        -- rewrite lookup_insert_eq. split; [done|intros _].
           destruct (shared h !! row) eqn:E; [apply Hlog; by rewrite E|set_solver].
        -- rewrite lookup_insert_ne by done. rewrite <- Hlog. destruct (shared h !! row); set_solver.
    + intros r. rewrite He. unfold same_key. rewrite decide_False; [apply Hmv|].
      intros (_ & _ & E). rewrite <- E in Hev. by rewrite mover_odd in Hev.
  - intros r k _ Hk. exact Hk.
  - auto.
  - intros b Hb. by rewrite lookup_insert_ne.
  - intros r k me. by rewrite Hwp.
  - intros r w n. rewrite lookup_insert_eq. intros [= <- <- <-]. split_and!; [|done|].
    + fold m. unfold shold, h'. cbn. rewrite lookup_insert_eq. eexists. split; [done|].
      destruct (shared h !! row); [apply mode_le_max; right|]; unfold mode_le; destruct m; auto.
    + intros -> m' Hin. symmetry in Hnew. apply bool_decide_eq_true in Hnew.
      destruct (g_share _ (inv_ghost _ Hi) _ _ _ Hin) as (hb & Hb & m1 & Hm1 & _).
      unfold live in Hb. rewrite Hh in Hb. injection Hb as <-. rewrite Hsh in Hm1. congruence.
  - cbn. by apply mv_moving; [apply Hi|].
Qed.

(** Letting go of the shared locks on the rows [R]. *)
Lemma data_ok_release st st' a h sh log (R : WrittenRow → Prop) `{∀ r, Decision (R r)} :
  data_ok st → helds st !! a = Some h → table_ok st' → holders st' = holders st →
  helds st' = <[a := set_shared h sh log]> (helds st) →
  (∀ r, sh !! r = if decide (R r) then None else shared h !! r) →
  NoDup log → (∀ r, r ∈ log ↔ r ∈ shared_log h ∧ ¬ R r) →
  (∀ s' r x, ent st' s' r x = if decide (s' = store h ∧ R r ∧ x = a) then None else ent st s' r x) →
  data_ok st'.
Proof.
  intros Hd Ha Ht Ho Hhd Hsh Hnd Hlog He.
  pose proof (do_held _ Hd a h Ha) as [[_ Hev] ? ? Hs [_ Hl] Hmv].
  eapply (data_ok_frame st); [done|done|done|exact Hhd|done|done|..].
  - intros s' r x Hc. rewrite He, decide_False; [done|]. naive_solver.
  - intros r. cbn. rewrite Hsh, He, Hs. repeat case_decide; naive_solver.
  - cbn. split; [done|]. intros r. rewrite Hlog, Hl, Hsh.
    case_decide; [rewrite is_Some_alt|]; naive_solver.
  - intros r. cbn. rewrite He, decide_False; [apply Hmv|].
    intros (_ & _ & E). rewrite <- E in Hev. by rewrite mover_odd in Hev.
Qed.

Lemma step_rollback_to_inv s a h keep : inv s → helds (st s) !! a = Some h → idle s a →
  inv (Sys (release_shared_after (st s) a keep) (wpend s) (spend s) (mv s) (wgrant s)
         (kept a (λ row _, bool_decide (row ∉ drop keep (shared_log h))) (sgrant s)) (lost s)).
Proof.
  intros Hi Ha [Hwp Hsp]. pose proof (inv_data _ Hi) as Hd.
  pose proof (do_held _ Hd a h Ha) as [_ _ _ _ [Hnd _] _].
  destruct (release_after_spec (st s) a h keep (do_table _ Hd) Ha) as (Ht & Ho & (sh & Hhd & Hsh) & He).
  eapply (inv_of s a h); [done|done| |exact Hhd|done|done| |done|..].
  - eapply (data_ok_release (st s) _ a h sh (take keep (shared_log h)) (λ r, r ∈ drop keep (shared_log h)));
      [done|done|done|done|exact Hhd|exact Hsh| | |exact He].
    + rewrite <- (take_drop keep (shared_log h)) in Hnd. by apply NoDup_app in Hnd as [? _].
    + intros r. rewrite <- (take_drop keep (shared_log h)) in Hnd.
      apply NoDup_app in Hnd as (_ & Hdis & _). rewrite <- (take_drop keep (shared_log h)) at 2.
      rewrite elem_of_app. naive_solver.
  - intros [[b row] m]. rewrite elem_of_kept. tauto.
  - intros r k _ Hk. exact Hk.
  - intros r m [[?|Hk] _]%elem_of_kept (m' & Hm' & Hle); [done|]. apply bool_decide_eq_true in Hk.
    exists m'. cbn. by rewrite Hsh, decide_False.
  - done.
  - intros r k me. by rewrite Hwp.
  - intros r w n. by rewrite Hsp.
  - cbn. by apply mv_moving; [apply Hi|].
Qed.

(** A sharer that finds the row held backs out a new entry. *)
Lemma share_refused_inv s th a row want (new : bool) : inv s → th_rows th = Some a →
  spend s !! a = Some (row, want, new) →
  inv (Sys (if new then unshare_row (st s) th row else st s) (wpend s) (delete a (spend s)) (mv s)
         (wgrant s) (sgrant s) (lost s)).
Proof.
  intros Hi Hrows Hsp. pose proof (inv_data _ Hi) as Hd.
  destruct (g_spend _ (inv_ghost _ Hi) _ _ _ _ Hsp) as (h & Ha & Hsh & _ & Hnew). unfold live in Ha.
  pose proof (do_held _ Hd a h Ha) as [_ _ _ _ [Hnd Hlog] _].
  assert (Hwp : ∀ r k me, wpend s !! a = Some (r, k, me) → me = (a, store h) ∧ whold h r k).
  { intros r k me (h0 & Hh0 & Hr)%(g_wpend _ (inv_ghost _ Hi)). unfold live in Hh0. by simplify_eq. }
  destruct new.
  - destruct (unshare_row_spec (st s) th a h row (do_table _ Hd) Hrows Ha) as (Ht & Ho & Hhd & He).
    eapply (inv_of s a h); [done|done| |exact Hhd|done|done|done|done|..].
    + eapply (data_ok_release (st s) _ a h _ _ (λ r, r = row)); [done|done|done|done|exact Hhd|..].
      * intros r. case_decide as Hr; [subst; apply lookup_delete_eq|by apply lookup_delete_ne].
      * by apply NoDup_filter.
      * intros r. rewrite list_elem_of_filter. tauto.
      * intros s' r x. rewrite He. done.
    + intros r k _ Hk. exact Hk.
    + intros r m Hin (m' & Hm' & Hle). exists m'. cbn. rewrite lookup_delete_ne; [done|].
      intros <-. by apply (Hnew eq_refl m).
    + intros b Hb. by rewrite lookup_delete_ne.
    + exact Hwp.
    + intros r w n. by rewrite lookup_delete_eq.
    + cbn. by apply mv_moving; [apply Hi|].
  - eapply (inv_of s a h h); [done|done|done|by rewrite insert_id|done|done|done|done|auto|auto|..].
    + intros b Hb. by rewrite lookup_delete_ne.
    + exact Hwp.
    + intros r w n. by rewrite lookup_delete_eq.
    + by apply mv_moving; [apply Hi|].
Qed.

(** ** Granting *)

Lemma grant_write s a h row key : inv s → live s a h → whold h row key →
  (∀ b m hb, (b, row, m) ∈ sgrant s → b ≠ a → live s b hb → store h = store hb →
     key = false ∧ m = KeyShare) →
  inv (Sys (st s) (wpend s) (spend s) (mv s) ({[(a, row, key)]} ∪ wgrant s) (sgrant s)
         (relocked a row key (lost s))).
Proof.
  intros [Hd [G1 G2 G3 G4 G5] Hx] Ha Hw Hok. split; [done|split|]; try done.
  - cbn. intros b r k Hin.
    assert (Hold : (b, r, k) ∈ wgrant s → ∃ hb, live s b hb ∧ whold hb r (held_key s b r k)) by apply G1.
    destruct (decide ((b, r) = (a, row))) as [[= -> ->]|Hn].
    + exists h. split; [done|]. destruct key.
      { apply (whold_weaken _ _ _ _ Hw). done. }
      apply elem_of_union in Hin as [[= ->]%elem_of_singleton|(hb & Hb & Hr)%Hold].
      * apply (whold_weaken _ _ _ _ Hw). done.
      * unfold live in *. by simplify_eq.
    + apply elem_of_union in Hin as [[= -> -> ->]%elem_of_singleton|(hb & Hb & Hr)%Hold]; [done|].
      exists hb. split; [done|]. apply (whold_weaken _ _ _ _ Hr).
      rewrite !held_key_true. cbn [lost]. rewrite elem_of_relocked. naive_solver.
  - intros b c r k m hb hc. cbn. rewrite elem_of_relocked.
    intros [[= -> -> ->]%elem_of_singleton|Hin]%elem_of_union Hs Hn Hb Hc He.
    + unfold live in *. cbn in *. simplify_eq. destruct (Hok c m hc) as [-> ->]; done.
    + destruct (Hx b c r k m hb hc) as [-> Hk]; [done..|]. split; [done|]. intros Hkt.
      split; [by apply Hk|]. destruct key; [right|by left]. intros [= -> ->].
      unfold live in *. cbn in *. simplify_eq. by destruct (Hok c KeyShare hc).
Qed.

Lemma grant_share s a h row m : inv s → live s a h → shold h row m →
  (∀ b key hb, (b, row, key) ∈ wgrant s → b ≠ a → live s b hb →
     m = KeyShare ∧ (key = true → (b, row, true) ∈ lost s)) →
  spend s !! a = None →
  inv (Sys (st s) (wpend s) (spend s) (mv s) (wgrant s) ({[(a, row, m)]} ∪ sgrant s) (lost s)).
Proof.
  intros [Hd [G1 G2 G3 G4 G5] Hx] Ha Hw Hok Hsp. split; [done|split|]; try done.
  - cbn. intros b r k [[= -> -> ->]%elem_of_singleton|Hin]%elem_of_union; [by exists h|by apply G2].
  - cbn. intros b r w n Hb. assert (b ≠ a) by congruence.
    destruct (G4 _ _ _ _ Hb) as (hb & Hlb & H1 & H2 & H3). exists hb. split_and!; [done..|].
    intros Hn m' [[= -> -> ->]%elem_of_singleton|Hin]%elem_of_union; [done|]. by apply (H3 Hn m').
  - intros b c r k m' hb hc. cbn. intros Hb [[= -> -> ->]%elem_of_singleton|Hin]%elem_of_union Hn Hlb Hlc He.
    + by apply (Hok b k hb).
    + by apply (Hx b c r k m' hb hc).
Qed.

Lemma step_write_check_inv s th a row me th' r : inv s → th_rows th = Some a →
  wpend s !! a = Some (row, th_key th, me) → note_check (st s) th row me = (th', r) →
  inv (Sys (st s) (delete a (wpend s)) (spend s) (mv s)
         match r with inr _ => {[(a, row, th_key th)]} ∪ wgrant s | inl _ => wgrant s end (sgrant s)
         match r with inr _ => relocked a row (th_key th) (lost s) | inl _ => lost s end).
Proof.
  intros Hi Hrows Hwp. unfold note_check. intros [= _ <-]. pose proof (inv_data _ Hi) as Hd.
  destruct (g_wpend _ (inv_ghost _ Hi) _ _ _ _ Hwp) as (h & Ha & -> & Hw). cbn [fst snd].
  pose proof (do_held _ Hd a h Ha) as [[_ Hev] Hsto _ _ _ _].
  assert (Hi1 : inv (Sys (st s) (delete a (wpend s)) (spend s) (mv s) (wgrant s) (sgrant s) (lost s))).
  { eapply (inv_of s a h h); [done|done|done|by rewrite insert_id|done|done|done|done|auto|auto|..].
    - intros b Hb. by rewrite lookup_delete_ne.
    - intros r' k m. by rewrite lookup_delete_eq.
    - intros r' w n Hs. destruct (g_spend _ (inv_ghost _ Hi) _ _ _ _ Hs) as (h0 & Hh0 & Hr).
      unfold live in *. by simplify_eq.
    - by apply mv_moving; [apply Hi|]. }
  rewrite bool_decide_true by done. cbn [andb].
  destruct (write_blocked (st s) (th_key th) (store h) row a) eqn:E; [done|].
  apply (grant_write _ a h row (th_key th)) in Hi1; [done|done|done|]. cbn.
  intros b m hb Hin Hn Hb Hst. destruct (g_share _ (inv_ghost _ Hi) _ _ _ Hin) as (hb' & Hb' & m' & Hm' & Hle).
  unfold live in *. cbn in *. simplify_eq. pose proof (do_held _ Hd b hb Hb) as [[_ Hevb] _ _ Hsh _ _].
  rewrite Hsh, <- Hst in Hm'.
  assert (Hnb : ¬ (th_key th = true ∨ m = Share)).
  { intros Hc. apply not_true_iff_false in E. apply E. apply write_blocked_iff; [apply Hd|].
    exists b, m'. split_and!; [done|done| |].
    - intros ->. by rewrite mover_odd in Hevb.
    - destruct Hc as [->| ->]; [by left|right]. by destruct Hle. }
  destruct (th_key th), m; naive_solver.
Qed.

Lemma whold_conflicts h row key want : whold h row key → want = StKeyShare ∨ want = StShare →
  key = true ∨ want = StShare → conflicts h row want = true.
Proof.
  unfold conflicts. intros [Hm|[Hr Hk]] Hw Hc; [by rewrite bool_decide_true|]. case_bool_decide; [done|].
  destruct Hw as [-> | ->]; apply bool_decide_eq_true; [|done]. apply Hk. by destruct Hc.
Qed.

Lemma step_share_check_inv s th p a row want nowait new st' th' r : inv s → th_rows th = Some a →
  spend s !! a = Some (row, want, new) → holders (st s) !! p = Some a →
  share_check (st s) th p row want nowait new = (st', th', r) →
  inv (Sys st' (wpend s) (delete a (spend s)) (mv s) (wgrant s)
         match r with inr _ => {[(a, row, share_mode_of want)]} ∪ sgrant s | inl _ => sgrant s end (lost s)).
Proof.
  intros Hi Hrows Hsp Hp. unfold share_check.
  destruct (holders_in_mode (st s) row p want) as [|q qs] eqn:E.
  2: destruct nowait; intros [= <- _ <-]; by eapply share_refused_inv.
  intros [= <- _ <-].
  destruct (g_spend _ (inv_ghost _ Hi) _ _ _ _ Hsp) as (h & Ha & Hsh & Hwant & Hnew).
  assert (Hi1 : inv (Sys (st s) (wpend s) (delete a (spend s)) (mv s) (wgrant s) (sgrant s) (lost s))).
  { eapply (inv_of s a h h); [done|done|apply Hi|by rewrite insert_id|done|done|done|done|auto|auto|..].
    - intros b Hb. by rewrite lookup_delete_ne.
    - intros r' k me (h0 & Hh0 & Hr)%(g_wpend _ (inv_ghost _ Hi)). unfold live in *. by simplify_eq.
    - intros r' w n. by rewrite lookup_delete_eq.
    - by apply mv_moving; [apply Hi|]. }
  apply (grant_share _ a h row (share_mode_of want)) in Hi1; [done|done|done| |by apply lookup_delete_eq].
  cbn. intros b key hb Hin Hn Hb. unfold live in Hb. cbn in Hb.
  destruct (g_write _ (inv_ghost _ Hi) _ _ _ Hin) as (hb' & Hb' & Hw). unfold live in Hb'. simplify_eq.
  destruct (do_held _ (inv_data _ Hi) b hb Hb) as [_ _ (q & Hq) _ _ _].
  assert (Hnc : ¬ (held_key s b row key = true ∨ want = StShare)).
  { intros Hc. assert (Hqin : q ∈ holders_in_mode (st s) row p want).
    { apply holders_in_mode_iff. split; [congruence|]. exists b, hb. split_and!; [done..|].
      by eapply whold_conflicts. }
    rewrite E in Hqin. elem_nil. }
  rewrite held_key_true in Hnc. destruct Hwant as [-> | ->]; [split; [done|]|by destruct Hnc; right].
  intros ->. destruct (decide ((b, row, true) ∈ lost s)); [done|]. destruct Hnc. by left.
Qed.

(** ** The move of a transaction *)

Lemma step_move_start_inv s a st' added : inv s → is_Some (helds (st s) !! a) → idle s a →
  mv s !! a = None → move_guard_new (st s) a = (st', added) →
  inv (Sys st' (wpend s) (spend s) (<[a := added]> (mv s)) (wgrant s) (sgrant s) (lost s)).
Proof.
  intros Hi [h Ha] [Hwp Hsp] Hmv. unfold move_guard_new. rewrite Ha.
  pose proof (inv_data _ Hi) as Hd. pose proof (do_held _ Hd a h Ha) as [[_ Hev] ? ? Hsh Hlog Hm].
  assert (Hme : moving h = ∅).
  { rewrite (mv_moving s a h) by (done || apply Hi). by rewrite Hmv. }
  pose proof (guard_rows_spec (elements (rows h)) (st s) (store h) (mover_of a) (do_table _ Hd)
    (NoDup_elements _)) as Hg.
  destruct (guard_rows _ _ _ _) as [st1 add1]. destruct Hg as (Ht & Ho & Hhd & Hadd & He).
  unfold set_moving. rewrite Hhd, Ha. intros [= <- <-].
  assert (Hadd' : add1 = elements (rows h)).
  { rewrite Hadd. apply list_filter_id. intros r _. rewrite Hm, Hme. by rewrite decide_False by set_solver. }
  rewrite list_to_set_elements_L.
  assert (Ham : mover_of a ≠ a) by (intros E; rewrite <- E in Hev; by rewrite mover_odd in Hev).
  eapply (inv_of s a h); [done|done| |cbn; by rewrite Hhd|done|done|done|done|..].
  - eapply (data_ok_frame (st s)); [done|done|by apply set_held_ok|cbn; by rewrite Hhd|done|done|..].
    + intros s' r x Hc. rewrite set_held_ent, He, decide_False; [done|]. naive_solver.
    + intros r. rewrite set_held_ent, He, decide_False by naive_solver. apply Hsh.
    + done.
    + intros r. rewrite set_held_ent, He. cbn. rewrite Hm, Hme.
      repeat case_decide; set_solver.
  - intros r k _ [Hr|Hr]; [rewrite Hme in Hr; set_solver|left]. cbn. tauto.
  - done.
  - intros b Hb. by rewrite lookup_insert_ne.
  - intros r k me. by rewrite Hwp.
  - intros r w n. by rewrite Hsp.
  - cbn. rewrite lookup_insert_eq, Hadd'. by rewrite list_to_set_elements_L.
Qed.

Lemma clear_data_ok st a h : data_ok st → helds st !! a = Some h → data_ok (held_clear st a).
Proof.
  intros Hd Ha. unfold held_clear. rewrite Ha. pose proof (do_held _ Hd a h Ha) as [? ? ? Hsh Hlog Hm].
  eapply (data_ok_frame st); [done|done|by apply set_held_ok, Hd|done..].
Qed.

Lemma step_move_clear_inv s a h : inv s → helds (st s) !! a = Some h → idle s a →
  rows h ⊆ moving h →
  inv (Sys (held_clear (st s) a) (wpend s) (spend s) (mv s) (wgrant s) (sgrant s) (lost s)).
Proof.
  intros Hi Ha [Hwp Hsp] Hsub. pose proof (clear_data_ok _ a h (inv_data _ Hi) Ha) as Hd.
  unfold held_clear in *. rewrite Ha in *.
  eapply (inv_of s a h); [done|done|done|done|done|done|done|done|..].
  - intros r k _ [Hr|[Hr _]]; left; cbn; set_solver.
  - done.
  - done.
  - intros r k me. by rewrite Hwp.
  - intros r w n. by rewrite Hsp.
  - cbn. by apply mv_moving; [apply Hi|].
Qed.

Lemma step_move_end_inv s a h added : inv s → helds (st s) !! a = Some h → idle s a →
  mv s !! a = Some added →
  inv (Sys (move_guard_drop (st s) a added) (wpend s) (spend s) (delete a (mv s))
         (kept a (λ row _, bool_decide (row ∈ rows h)) (wgrant s)) (sgrant s)
         (unmarked a h (wgrant s) ∪ lost s)).
Proof.
  intros Hi Ha [Hwp Hsp] Hmv. unfold move_guard_drop. rewrite Ha.
  pose proof (inv_data _ Hi) as Hd. pose proof (do_held _ Hd a h Ha) as [[_ Hev] ? ? Hsh Hlog Hm].
  assert (Hme : moving h = list_to_set added).
  { rewrite (mv_moving s a h) by (done || apply Hi). by rewrite Hmv. }
  destruct (remove_rows_spec added (st s) (store h) (mover_of a) (do_table _ Hd)) as (Ht & Ho & Hhd & He).
  unfold set_moving. rewrite Hhd, Ha.
  assert (Ham : mover_of a ≠ a) by (intros E; rewrite <- E in Hev; by rewrite mover_odd in Hev).
  eapply (inv_of s a h); [done|done| |cbn; by rewrite Hhd|done| |done|set_solver|..].
  - eapply (data_ok_frame (st s)); [done|done|by apply set_held_ok|cbn; by rewrite Hhd|done|done|..].
    + intros s' r x Hc. rewrite set_held_ent, He, decide_False; [done|]. naive_solver.
    + intros r. rewrite set_held_ent, He, decide_False by naive_solver. apply Hsh.
    + done.
    + intros r. rewrite set_held_ent, He. cbn. rewrite Hm, Hme.
      repeat case_decide; set_solver.
  - intros [[b row] k]. rewrite elem_of_kept. tauto.
  - intros r k [[?|Hk%bool_decide_eq_true] Hin]%elem_of_kept _; [done|right]. cbn. split; [done|].
    rewrite andb_true_iff, bool_decide_eq_true. intros [-> Hl].
    destruct (decide (r ∈ key_rows h)); [done|]. destruct Hl. unfold unmarked.
    apply elem_of_union. left. by apply elem_of_filter.
  - done.
  - intros b Hb. by rewrite lookup_delete_ne.
  - intros r k me. by rewrite Hwp.
  - intros r w n. by rewrite Hsp.
  - cbn. by rewrite lookup_delete_eq.
Qed.

(** ** The end of a transaction *)

Lemma data_ok_delete st a h p : data_ok st → helds st !! a = Some h → (∀ r, shared h !! r = None) →
  moving h = ∅ → holders st !! p = Some a → data_ok (forget (with_helds (delete a) st) p).
Proof.
  intros [Ht Hh Hl] Ha Hs Hm Hp. destruct (Hh a h Ha) as [_ _ _ Hsh _ Hmv]. split.
  - destruct Ht. by split.
  - cbn. intros b hb [Hn Hb]%lookup_delete_Some. destruct (Hh b hb Hb) as [? ? (q & Hq) ? ? ?].
    split; try done. exists q. cbn. rewrite lookup_delete_ne; [done|congruence].
  - intros s row x m He. destruct (Hl s row x m He) as (b & hb & Hb & Hst & Hx). exists b, hb. cbn.
    destruct (decide (b = a)) as [->|]; [|by rewrite lookup_delete_ne].
    exfalso. simplify_eq. change (ent st (store h) row x = Some m) in He.
    destruct Hx as [->|[-> Hr]]; [rewrite <- Hsh, Hs in He; done|]. rewrite Hm in Hr. set_solver.
Qed.

Lemma step_end_inv s p a : inv s → holders (st s) !! p = Some a → is_Some (helds (st s) !! a) →
  idle s a → mv s !! a = None →
  inv (Sys (forget (with_helds (delete a) (release_shared (held_clear (st s) a) a)) p)
         (wpend s) (spend s) (mv s) (kept a (λ _ _, false) (wgrant s)) (kept a (λ _ _, false) (sgrant s))
         (kept a (λ _ _, false) (lost s))).
Proof.
  intros Hi Hp [h Ha] [Hwp Hsp] Hmv. pose proof (clear_data_ok _ a h (inv_data _ Hi) Ha) as Hd.
  set (h1 := MkHeld ∅ [] ∅ (shared h) (shared_log h) (moving h) (store h)).
  assert (Ha1 : helds (held_clear (st s) a) !! a = Some h1).
  { unfold held_clear. rewrite Ha. apply lookup_insert_eq. }
  pose proof (do_held _ Hd a h1 Ha1) as [_ _ _ _ [Hnd Hlog] _].
  destruct (release_after_spec _ a h1 0 (do_table _ Hd) Ha1) as (Ht & Ho & (sh & Hhd & Hsh) & He).
  rewrite drop_0 in Hsh, He. unfold release_shared.
  assert (Hhelds : delete a (helds (release_shared_after (held_clear (st s) a) a 0)) = delete a (helds (st s))).
  { rewrite Hhd, delete_insert_eq. unfold held_clear. rewrite Ha. cbn. by rewrite delete_insert_eq. }
  destruct Hi as [Hd0 [G1 G2 G3 G4 G5] Hx].
  assert (Hlive : ∀ b hb, b ≠ a → live s b hb → delete a (helds (st s)) !! b = Some hb).
  { intros b hb Hn Hb. by rewrite lookup_delete_ne. }
  split; [|split|]; cbn [st wpend spend mv wgrant sgrant lost]; unfold live; cbn [st helds forget with_helds];
    try rewrite Hhelds.
  - eapply (data_ok_delete _ a (set_shared h1 sh (take 0 (shared_log h1)))).
    + eapply (data_ok_release _ _ a h1 sh _ (λ r, r ∈ shared_log h1)); [done|done|done|done|exact Hhd|exact Hsh| | |exact He].
      * rewrite take_0. constructor.
      * intros r. rewrite take_0, elem_of_nil. tauto.
    + rewrite Hhd. apply lookup_insert_eq.
    + cbn. intros r. rewrite Hsh. case_decide as Hr; [done|]. rewrite Hlog in Hr.
      by apply eq_None_not_Some.
    + cbn. pose proof (G5 a) as Hg. rewrite Hmv in Hg. by apply Hg.
    + rewrite Ho. unfold held_clear. by rewrite Ha.
  - intros b row k [[Hn|?] (hb & Hb & Hr)%G1]%elem_of_kept; [|done]. exists hb. split; [auto|].
    apply (whold_weaken _ _ _ _ Hr). rewrite !held_key_true. cbn [lost]. rewrite elem_of_kept. naive_solver.
  - intros b row m [[Hn|?] (hb & Hb & Hr)%G2]%elem_of_kept; [|done]. exists hb. auto.
  - intros b row k me Hb. assert (b ≠ a) by congruence. destruct (G3 _ _ _ _ Hb) as (hb & Hl & Hr).
    exists hb. auto.
  - intros b row w n Hb. assert (b ≠ a) by congruence. destruct (G4 _ _ _ _ Hb) as (hb & Hl & H1 & H2 & H3).
    exists hb. split_and!; [auto|done|done|]. intros Hnew m [_ Hin]%elem_of_kept. by apply (H3 Hnew m).
  - intros b. specialize (G5 b). destruct (mv s !! b) as [l|] eqn:E.
    + destruct G5 as (hb & Hb & Hr). exists hb. split; [apply Hlive; congruence|done].
    + intros hb [_ Hb]%lookup_delete_Some. by apply G5.
  - intros b c row k m hb hc [_ Hb]%elem_of_kept [_ Hc]%elem_of_kept Hn Hlb Hlc Hst.
    unfold live in Hlb, Hlc. cbn in Hlb, Hlc. rewrite Hhelds in Hlb, Hlc.
    apply lookup_delete_Some in Hlb as [Hna Hlb], Hlc as [_ Hlc]. cbn [lost].
    rewrite elem_of_kept. destruct (Hx b c row k m hb hc) as [-> Hk]; [done..|]. naive_solver.
Qed.

Lemma step_inv s s' : inv s → step s s' → inv s'.
Proof.
  intros Hi. destruct 1.
  - by apply step_begin_inv.
  - by eapply step_write_publish_inv.
  - by eapply step_write_check_inv.
  - by eapply step_share_publish_inv.
  - by eapply step_share_check_inv.
  - by apply step_rollback_to_inv.
  - by apply step_end_inv.
  - by eapply step_move_start_inv.
  - by eapply step_move_clear_inv.
  - by apply step_move_end_inv.
Qed.

Lemma init_inv : inv init.
Proof.
  split; [split|split|]; cbn.
  - by split.
  - intros a h. by rewrite lookup_empty.
  - intros s row x m. unfold ent. cbn. by rewrite lookup_empty.
  - set_solver.
  - set_solver.
  - intros a row key me. by rewrite lookup_empty.
  - intros a row key me. by rewrite lookup_empty.
  - intros a. rewrite lookup_empty. unfold live. cbn. intros h. by rewrite lookup_empty.
  - intros a b row key m ha hb. cbn. set_solver.
Qed.

Lemma row_reachable_inv s : reachable s → inv s.
Proof.
  unfold reachable. assert (H : ∀ s1 s2, rtc step s1 s2 → inv s1 → inv s2).
  { induction 1; eauto using step_inv. }
  intros Hr. eapply H; [done|apply init_inv].
Qed.
