(* ===== verification/RowLockProps.v ===== *)
(** * Row locks: what they guarantee *)
From stdpp Require Import strings.
From S2P Require Import Prelude RowLocks RowLockSystem.
Local Open Scope Z_scope.

(** C4. Mutual exclusion of writers and sharers, in every interleaving of their
    halves: when a write of a row has been let through and another transaction
    of the store has been granted a shared lock on it, the shared lock is [FOR
    KEY SHARE], and the write does not take the key-strength lock unless a move
    of its transaction to a new snapshot has lost the key mark since. *)
Theorem row_locks_exclusive s a b row key m ha hb : reachable s →
  (a, row, key) ∈ wgrant s → (b, row, m) ∈ sgrant s → a ≠ b →
  live s a ha → live s b hb → store ha = store hb →
  m = KeyShare ∧ (key = true → (a, row, true) ∈ lost s).
Proof. intros Hr. exact (inv_excl _ (row_reachable_inv s Hr) a b row key m ha hb). Qed.

(** The check a writer makes is exact: it is refused if and only if another
    live transaction of its store shares the row in a conflicting mode or is
    moving it. The shortcut on [COUNT] never hides an entry, no entry is stale
    and a transaction is never refused on its own account. *)
Theorem write_blocked_exact s key row a h : reachable s → live s a h →
  write_blocked (st s) key (store h) row a = true ↔
  ∃ b hb, b ≠ a ∧ live s b hb ∧ store hb = store h ∧
    (row ∈ moving hb ∨ ∃ m, shared hb !! row = Some m ∧ (key = true ∨ m = Share)).
Proof.
  intros Hr Ha. pose proof (inv_data _ (row_reachable_inv s Hr)) as Hd.
  rewrite write_blocked_iff by apply Hd. split.
  - intros (x & m & He & Hxa & Hxm & Hc). destruct (do_live _ Hd _ _ _ _ He) as (b & hb & Hb & Hst & Hx).
    exists b, hb. assert (b ≠ a) by (intros ->; destruct Hx as [?|[? _]]; done).
    split_and!; [done..|]. destruct Hx as [->|[-> Hm]]; [right|by left]. exists m. split; [|done].
    rewrite (ho_shared _ _ _ (do_held _ Hd b hb Hb)). by rewrite Hst.
  - intros (b & hb & Hn & Hb & Hst & Hc). pose proof (do_held _ Hd b hb Hb) as [[_ Hevb] _ _ Hsh _ Hmv].
    pose proof (do_held _ Hd a h Ha) as [[_ Heva] _ _ _ _ _].
    destruct Hc as [Hm|(m & Hm & Hk)].
    + exists (mover_of b), Share. rewrite <- Hst, Hmv, decide_True by done. split_and!; [done| | |by right].
      * intros <-. by rewrite mover_odd in Heva.
      * rewrite !mover_even by done. lia.
    + exists b, m. rewrite <- Hst, <- Hsh. split_and!; [done..| |done].
      intros ->. by rewrite mover_odd in Hevb.
Qed.

(** Nothing leaks: once every transaction has ended the table is empty and
    its counter is zero, whatever was shared, moved or rolled back. *)
Theorem shared_table_no_leak s : reachable s → helds (st s) = ∅ → table (st s) = ∅ ∧ COUNT (st s) = 0.
Proof.
  intros Hr Hh. pose proof (inv_data _ (row_reachable_inv s Hr)) as Hd.
  assert (Ht : table (st s) = ∅).
  { apply map_empty. intros [sto row]. destruct (table (st s) !! (sto, row)) as [hs|] eqn:E; [|done].
    destruct (ok_entries _ (do_table _ Hd) _ _ E) as [Hne Hnd]. destruct hs as [|[x m] hs]; [done|].
    destruct (do_live _ Hd sto row x m) as (a & h & Ha & _).
    - rewrite (ent_lookup _ _ _ _ _ E). cbn. by rewrite decide_True.
    - by rewrite Hh, lookup_empty in Ha. }
  split; [done|]. rewrite (ok_count _ (do_table _ Hd)), Ht. done.
Qed.

(** C36. [FOR SHARE] refused after [FOR KEY SHARE] on a row another transaction
    has written: the refusal leaves the sharer's entry strengthened to [Share]
    (only a new entry is backed out), and the writer's next write of the row
    it already holds is refused in turn. *)
Theorem refused_upgrade_blocks_holder s tha thb a b ha hb pb row nowait : reachable s →
  th_session tha = true → th_rows tha = Some a → th_rows thb = Some b → a ≠ b →
  live s a ha → live s b hb → store ha = store hb → holders (st s) !! pb = Some b →
  row ∈ rows ha → shared hb !! row = Some KeyShare →
  let '(st1, _, r1) := share_one (st s) thb pb row StShare nowait in
  let '(_, _, r2) := note_row st1 tha row in
  r1 = inl (if nowait then LockNotAvailable else SerializationFailure) ∧ r2 = inl WriteConflict ∧
  ∃ hb', helds st1 !! b = Some hb' ∧ shared hb' !! row = Some Share.
Proof.
  intros Hr Hses Hra Hrb Hn Ha Hb Hst Hpb Hrow Hks. pose proof (inv_data _ (row_reachable_inv s Hr)) as Hd.
  pose proof (do_held _ Hd b hb Hb) as [[_ Hevb] Hsto _ Hsh _ _].
  pose proof (do_held _ Hd a ha Ha) as [_ _ (pa & Hpa) _ _ _].
  unfold share_one. cbn [share_mode_of].
  destruct (share_row (st s) thb row Share) as [st1 new] eqn:E.
  destruct (share_row_spec _ _ _ _ _ _ _ _ (do_table _ Hd) Hrb Hb E) as (Ht & Ho & Hhd & Hnew & He).
  rewrite Hks in Hhd. cbn [mode_max] in Hhd.
  assert (Ha1 : helds st1 !! a = Some ha) by (rewrite Hhd, lookup_insert_ne; done).
  unfold share_check. assert (Hin : pa ∈ holders_in_mode st1 row pb StShare).
  { apply holders_in_mode_iff. rewrite Ho. split; [congruence|]. exists a, ha. split_and!; [done..|].
    eapply (whold_conflicts ha row false); [|tauto..]. right. done. }
  destruct (holders_in_mode st1 row pb StShare); [elem_nil|].
  assert (new = false) as ->.
  { rewrite Hnew. apply bool_decide_eq_false. rewrite <- Hsh, Hks. done. }
  assert (Hnote : (note_row st1 tha row).2 = inl WriteConflict).
  { unfold note_row, note_publish, note_check. destruct row as [[db coll] rid].
    rewrite Hses, Hra, Ha1. cbn [fst snd]. rewrite bool_decide_true by congruence. cbn [andb].
    rewrite (proj2 (write_blocked_iff _ _ _ _ _ (set_held_ok _ _ _ Ht))); [done|].
    exists b, Share. rewrite set_held_ent, He. unfold same_key. rewrite decide_True by done.
    rewrite <- Hsh, Hks. split_and!; [done|done| |by right].
    intros ->. by rewrite mover_odd in Hevb. }
  assert (Hup : ∃ hb', helds st1 !! b = Some hb' ∧ shared hb' !! row = Some Share).
  { eexists. rewrite Hhd, lookup_insert_eq. split; [done|]. cbn. by rewrite lookup_insert_eq. }
  destruct nowait; destruct (note_row st1 tha row) as [[? ?] ?]; done.
Qed.

(** ** A move loses the key-strength lock *)

Definition thread_of (a : Z) (key : bool) : thread := MkThread true (Some a) key None [] None.

(** The other transactions neither share [row], nor write it at key strength,
    nor move it. *)
Definition unshared (s : sys) (a : Z) (row : WrittenRow) : Prop :=
  ∀ c hc, c ≠ a → live s c hc → shared hc !! row = None ∧ row ∉ key_rows hc ∧ row ∉ moving hc.

(** A write of the replay, which is not under [with_key_write]: nobody else
    holds the row, so it is let through. *)
Lemma replay_write s a h row : reachable s → live s a h → idle s a → unshared s a row →
  ∃ s', rtc step s s' ∧ live s' a (held_note h row false) ∧ mv s' = mv s ∧ idle s' a ∧
    wgrant s ⊆ wgrant s' ∧ lost s' = lost s ∧ holders (st s') = holders (st s) ∧ spend s' = spend s ∧
    (∀ c, c ≠ a → helds (st s') !! c = helds (st s) !! c ∧ wpend s' !! c = wpend s !! c).
Proof.
  intros Hr Ha Hi Hu. pose proof (do_held _ (inv_data _ (row_reachable_inv s Hr)) a h Ha) as [[_ Hev] Hsto _ _ _ _].
  destruct (note_publish (st s) (thread_of a false) row) as [[st1 th1] me] eqn:E1.
  assert (Hp : st1 = set_held a (held_note h row false) (st s) ∧ me = (a, store h)).
  { unfold note_publish in E1. destruct row as [[db coll] rid]. cbn [thread_of th_session th_rows th_key] in E1.
    unfold live in Ha. rewrite Ha in E1. by injection E1 as <- <- <-. }
  destruct Hp as [Est ->].
  pose (s1 := Sys st1 (<[a := (row, false, (a, store h))]> (wpend s)) (spend s) (mv s) (wgrant s) (sgrant s) (lost s)).
  assert (H1 : step s s1) by (eapply (step_write_publish s (thread_of a false) a row); done).
  assert (Hr1 : reachable s1) by (eapply rtc_r; done).
  assert (Hlive : ∀ c, c ≠ a → helds st1 !! c = helds (st s) !! c).
  { intros c Hc. rewrite Est. cbn. by rewrite lookup_insert_ne. }
  assert (Hfree : write_blocked st1 false (store h) row a = false).
  { pose proof (inv_data _ (row_reachable_inv s1 Hr1)) as Hd1. cbn in Hd1.
    apply not_true_iff_false. rewrite write_blocked_iff by apply Hd1. intros (x & m & He & Hxa & Hxm & _).
    destruct (do_live _ Hd1 _ _ _ _ He) as (c & hc & Hc & Hst & Hx).
    assert (Hca : c ≠ a) by (intros ->; destruct Hx as [?|[? _]]; done).
    rewrite Hlive in Hc by done. destruct (Hu c hc Hca Hc) as (Hns & _ & Hnm).
    destruct Hx as [->|[_ Hm]]; [|done].
    rewrite <- Hlive in Hc by done. rewrite (ho_shared _ _ _ (do_held _ Hd1 c hc Hc)), Hst, He in Hns. done. }
  exists (Sys st1 (delete a (wpend s1)) (spend s) (mv s) ({[(a, row, false)]} ∪ wgrant s) (sgrant s) (lost s)).
  split.
  { eapply rtc_l; [exact H1|]. apply rtc_once.
    eapply (step_write_check s1 (thread_of a false) a row (a, store h) _ (inr ())); [done|apply lookup_insert_eq|].
    unfold note_check. cbn [fst snd thread_of th_key]. cbn [s1 st]. rewrite Hfree. by rewrite andb_false_r. }
  cbn. split_and!; [unfold live; cbn; rewrite Est; apply lookup_insert_eq|done|..].
  - split; cbn; [apply lookup_delete_eq|apply Hi].
  - set_solver.
  - done.
  - by rewrite Est.
  - done.
  - intros c Hc. split; [by apply Hlive|]. by rewrite lookup_delete_ne, lookup_insert_ne.
Qed.

Definition with_moving (h : Held) (mv : gset WrittenRow) : Held :=
  MkHeld (rows h) (collections h) (key_rows h) (shared h) (shared_log h) mv (store h).

Lemma guard_new_held st a h st' added : table_ok st → helds st !! a = Some h →
  move_guard_new st a = (st', added) →
  helds st' = <[a := with_moving h (rows h)]> (helds st) ∧ holders st' = holders st.
Proof.
  intros Hok Ha. unfold move_guard_new. rewrite Ha.
  pose proof (guard_rows_spec (elements (rows h)) st (store h) (mover_of a) Hok (NoDup_elements _)) as Hs.
  destruct (guard_rows _ _ _ _) as [st2 add2]. destruct Hs as (_ & Ho & Hhd & _).
  unfold set_moving. rewrite Hhd, Ha. intros [= <- <-]. cbn. rewrite Hhd, list_to_set_elements_L. done.
Qed.

Lemma guard_drop_held st a h added : table_ok st → helds st !! a = Some h →
  helds (move_guard_drop st a added) = <[a := with_moving h ∅]> (helds st) ∧
  holders (move_guard_drop st a added) = holders st.
Proof.
  intros Hok Ha. unfold move_guard_drop. rewrite Ha.
  destruct (remove_rows_spec added st (store h) (mover_of a) Hok) as (_ & Ho & Hhd & _).
  unfold set_moving. rewrite Hhd, Ha. cbn. rewrite Hhd. done.
Qed.

(** The guard is set and the old transaction rolled back. *)
Lemma move_starts s a h : reachable s → live s a h → idle s a → mv s !! a = None →
  ∃ s', rtc step s s' ∧ live s' a (MkHeld ∅ [] ∅ (shared h) (shared_log h) (rows h) (store h)) ∧
    idle s' a ∧ is_Some (mv s' !! a) ∧ wgrant s' = wgrant s ∧ holders (st s') = holders (st s) ∧
    wpend s' = wpend s ∧ spend s' = spend s ∧ ∀ c, c ≠ a → helds (st s') !! c = helds (st s) !! c.
Proof.
  intros Hr Ha Hi Hmv. destruct (move_guard_new (st s) a) as [st1 added] eqn:E.
  destruct (guard_new_held _ a h _ _ (do_table _ (inv_data _ (row_reachable_inv s Hr))) Ha E) as [Hd Ho].
  pose (s1 := Sys st1 (wpend s) (spend s) (<[a := added]> (mv s)) (wgrant s) (sgrant s) (lost s)).
  assert (La : helds (st s1) !! a = Some (with_moving h (rows h))) by (cbn; rewrite Hd; apply lookup_insert_eq).
  assert (H1 : step s s1) by (eapply step_move_start; done).
  assert (H2 : step s1 (Sys (held_clear st1 a) (wpend s) (spend s) (<[a := added]> (mv s)) (wgrant s) (sgrant s) (lost s))).
  { eapply (step_move_clear s1 a); [exact La|done| |done]. cbn. rewrite lookup_insert_eq. by eexists. }
  eexists. split; [eapply rtc_l; [exact H1|by apply rtc_once]|]. unfold live, held_clear. cbn in La |- *.
  rewrite La. cbn. rewrite !lookup_insert_eq. split_and!; [done|done|by eexists|done|done|done|done|].
  intros c Hc. by rewrite lookup_insert_ne, Hd, lookup_insert_ne.
Qed.

(** The snapshot move of a transaction that has written [row] and nothing else,
    as [rebase_user_transaction_to] makes it: the guard, the rollback, the
    replay of the write, the guard dropped. *)
Lemma move_unmarks s a h row : reachable s → live s a h → idle s a → mv s !! a = None →
  rows h = {[row]} → (a, row, true) ∈ wgrant s → unshared s a row →
  ∃ s' h', rtc step s s' ∧ live s' a h' ∧ rows h' = {[row]} ∧ key_rows h' = ∅ ∧ moving h' = ∅ ∧
    store h' = store h ∧ (a, row, true) ∈ wgrant s' ∧ holders (st s') = holders (st s) ∧
    (∀ c, c ≠ a → helds (st s') !! c = helds (st s) !! c ∧
       wpend s' !! c = wpend s !! c ∧ spend s' !! c = spend s !! c).
Proof.
  intros Hr Ha Hi Hmv Hrows Hg Hu.
  destruct (move_starts s a h) as (s2 & H02 & La2 & Hi2 & [added Hmv2] & Hw2 & Ho2 & Hwp2 & Hsp2 & Hoth2); [done..|].
  assert (Hr2 : reachable s2) by (by eapply rtc_trans).
  destruct (replay_write s2 a _ row Hr2 La2 Hi2) as (s3 & H23 & La3 & Hmv3 & Hi3 & Hw3 & _ & Ho3 & Hsp3 & Hoth3).
  { intros c hc Hc Hlc. apply (Hu c hc Hc). unfold live in *. by rewrite <- Hoth2. }
  set (h3 := held_note _ row false) in La3.
  assert (R : rows h3 = {[row]} ∧ key_rows h3 = ∅ ∧ store h3 = store h).
  { unfold h3. destruct row as [[db coll] rid]. cbn. split_and!; [set_solver|done|done]. }
  destruct R as (R1 & R2 & R3). rewrite <- Hmv3 in Hmv2.
  pose proof (step_move_end s3 a h3 added La3 Hi3 Hmv2) as H34.
  destruct (guard_drop_held (st s3) a h3 added) as [Hd4 Ho4]; [|done|].
  { apply inv_data, row_reachable_inv. by eapply rtc_trans. }
  eexists _, (with_moving h3 ∅). split; [eapply rtc_trans; [exact H02|eapply rtc_r; [exact H23|exact H34]]|].
  unfold live. cbn. rewrite Hd4, lookup_insert_eq, Ho4, Ho3, Ho2. split_and!; [done..| |done|].
  - rewrite elem_of_kept. split; [right; apply bool_decide_eq_true; set_solver|]. apply Hw3. by rewrite Hw2.
  - intros c Hc. destruct (Hoth3 c Hc) as [Hh3 Hp3].
    rewrite lookup_insert_ne, Hh3, Hoth2, Hp3, Hsp3, Hwp2, Hsp2 by done. done.
Qed.

(** [FOR KEY SHARE] on a row no transaction holds at key strength or moves. *)
Lemma key_share_granted s b hb p row : reachable s → live s b hb → idle s b →
  holders (st s) !! p = Some b → (∀ c hc, live s c hc → row ∉ key_rows hc ∧ row ∉ moving hc) →
  ∃ s' hb', rtc step s s' ∧ live s' b hb' ∧ store hb' = store hb ∧ wgrant s' = wgrant s ∧
    (b, row, KeyShare) ∈ sgrant s' ∧ ∀ c, c ≠ b → helds (st s') !! c = helds (st s) !! c.
Proof.
  intros Hr Hb Hi Hp Hfree. pose proof (inv_data _ (row_reachable_inv s Hr)) as Hd.
  destruct (share_row (st s) (thread_of b false) row KeyShare) as [st2 new] eqn:E.
  destruct (share_row_spec _ (thread_of b false) b hb _ _ _ _ (do_table _ Hd) eq_refl Hb E) as (_ & Ho & Hhd & _).
  pose (s2 := Sys st2 (wpend s) (<[b := (row, StKeyShare, new)]> (spend s)) (mv s) (wgrant s) (sgrant s) (lost s)).
  assert (Hst : step s s2).
  { eapply (step_share_publish s (thread_of b false) b row StKeyShare); [done|by eexists|done|by left|exact E]. }
  assert (Hnone : holders_in_mode st2 row p StKeyShare = []).
  { destruct (holders_in_mode st2 row p StKeyShare) as [|q l] eqn:Eq; [done|]. exfalso.
    assert (Hin : q ∈ holders_in_mode st2 row p StKeyShare) by (rewrite Eq; left).
    apply holders_in_mode_iff in Hin as (_ & c & hc & _ & Hc & Hcf). unfold conflicts in Hcf.
    rewrite Hhd in Hc. apply lookup_insert_Some in Hc as [[<- <-]|[_ Hc]];
      [destruct (Hfree b hb Hb) as [Hk Hm]|destruct (Hfree c hc Hc) as [Hk Hm]];
      cbn in Hcf; rewrite !bool_decide_false in Hcf; done. }
  eexists (Sys st2 (wpend s2) (delete b (spend s2)) (mv s2) (wgrant s2) ({[(b, row, KeyShare)]} ∪ sgrant s2) (lost s2)), _.
  split.
  { eapply rtc_l; [exact Hst|]. apply rtc_once.
    eapply (step_share_check s2 (thread_of b false) p b row StKeyShare true new _ _ (inr ())); [done|apply lookup_insert_eq| |].
    - cbn. by rewrite Ho.
    - unfold share_check. cbn [s2 st]. by rewrite Hnone. }
  unfold live. cbn. rewrite Hhd. split_and!; [apply lookup_insert_eq|done|done|set_solver|].
  intros c Hc. by rewrite lookup_insert_ne.
Qed.

(** ... and on a row another transaction holds at key strength. *)
Lemma key_share_refused s a b ha hb p row nowait : reachable s → live s a ha → live s b hb → a ≠ b →
  holders (st s) !! p = Some b → (a, row, true) ∈ wgrant s → (a, row, true) ∉ lost s →
  (share_one (st s) (thread_of b false) p row StKeyShare nowait).2 ≠ inr ().
Proof.
  intros Hr Ha Hb Hn Hp Hg Hnl. pose proof (row_reachable_inv s Hr) as Hinv.
  pose proof (inv_data _ Hinv) as Hd. unfold share_one.
  destruct (share_row (st s) (thread_of b false) row (share_mode_of StKeyShare)) as [st1 new] eqn:E.
  destruct (share_row_spec _ (thread_of b false) b hb _ _ _ _ (do_table _ Hd) eq_refl Hb E) as (_ & Ho & Hhd & _).
  destruct (do_held _ Hd a ha Ha) as [_ _ (q & Hq) _ _ _].
  destruct (g_write _ (inv_ghost _ Hinv) _ _ _ Hg) as (h & Hh & Hw). unfold live in *. simplify_eq.
  assert (Hin : q ∈ holders_in_mode st1 row p StKeyShare).
  { apply holders_in_mode_iff. rewrite Ho, Hhd. split; [congruence|]. exists a, ha.
    rewrite lookup_insert_ne by done. split_and!; [done..|]. eapply whold_conflicts; [exact Hw|by left|].
    left. by apply held_key_true. }
  unfold share_check. destruct (holders_in_mode st1 row p StKeyShare); [elem_nil|]. by destruct nowait.
Qed.

(** C33. A transaction that has written a row at key strength (a DELETE, say)
    and nothing else, in any reachable state where no other transaction has a
    lock on that row and neither it nor the session that asks is in the middle of a
    call or a move: [FOR KEY SHARE] on the row is refused to every other
    session, but once the transaction has been moved to a new snapshot, which
    replays the write without its key mark, it is granted, while the write is
    still the transaction's. *)
Theorem move_loses_key_lock s a b ha hb p row : reachable s → live s a ha → live s b hb → a ≠ b →
  store ha = store hb → idle s a → idle s b → mv s !! a = None → holders (st s) !! p = Some b →
  rows ha = {[row]} → (a, row, true) ∈ wgrant s → (a, row, true) ∉ lost s → unshared s a row →
  (∀ nowait, (share_one (st s) (thread_of b false) p row StKeyShare nowait).2 ≠ inr ()) ∧
  ∃ s' ha' hb', rtc step s s' ∧ live s' a ha' ∧ live s' b hb' ∧ store ha' = store hb' ∧
    (a, row, true) ∈ wgrant s' ∧ row ∈ rows ha' ∧ (b, row, KeyShare) ∈ sgrant s'.
Proof.
  intros Hr Ha Hb Hn Hsto Hia Hib Hmv Hp Hrows Hg Hnl Hu. split.
  { intros nowait. by eapply (key_share_refused s a b ha hb). }
  destruct (move_unmarks s a ha row) as (s1 & h1 & H01 & La & R1 & R2 & R3 & R4 & Hg1 & Ho1 & Hoth); [done..|].
  destruct (Hoth b) as (Hb1 & Hwb & Hsb); [done|]. unfold live in *. rewrite Hb in Hb1.
  destruct (key_share_granted s1 b hb p row) as (s2 & hb2 & H12 & Lb2 & Hst2 & Hw2 & Hs2 & Hoth2).
  - by eapply rtc_trans.
  - done.
  - split; [rewrite Hwb|rewrite Hsb]; apply Hib.
  - by rewrite Ho1.
  - intros c hc Hc. unfold live in Hc. destruct (decide (c = a)) as [->|Hca].
    + simplify_eq. rewrite R2, R3. set_solver.
    + rewrite (proj1 (Hoth c Hca)) in Hc. by destruct (Hu c hc Hca Hc) as (_ & ? & ?).
  - exists s2, h1, hb2. rewrite Hoth2, Hw2 by done.
    split_and!; [by eapply rtc_trans|done|done|congruence|done|set_solver|done].
Qed.

(** ** Witnesses *)

Definition row0 : WrittenRow := ("d", "t", 1)%string.

(** Both halves of a call with no other thread's step in between. *)
Definition do_begin (s : sys) (p a : Z) : sys :=
  Sys (register (set_held a (new_held 8) (st s)) p a) (wpend s) (spend s) (mv s) (wgrant s) (sgrant s) (lost s).
Definition do_share (s : sys) (a p : Z) (w : Strength) : sys :=
  let '(st1, new) := share_row (st s) (thread_of a false) row0 (share_mode_of w) in
  let '(st2, _, r) := share_check st1 (thread_of a false) p row0 w true new in
  Sys st2 (wpend s) (delete a (<[a := (row0, w, new)]> (spend s))) (mv s) (wgrant s)
    match r with inr _ => {[(a, row0, share_mode_of w)]} ∪ sgrant s | inl _ => sgrant s end (lost s).
Definition do_write (s : sys) (a : Z) (k : bool) : sys :=
  let '(st1, _, me) := note_publish (st s) (thread_of a k) row0 in
  let '(_, r) := note_check st1 (thread_of a k) row0 me in
  Sys st1 (delete a (<[a := (row0, k, me)]> (wpend s))) (spend s) (mv s)
    match r with inr _ => {[(a, row0, k)]} ∪ wgrant s | inl _ => wgrant s end (sgrant s)
    match r with inr _ => relocked a row0 k (lost s) | inl _ => lost s end.

Lemma do_share_steps s a p w : is_Some (helds (st s) !! a) → idle s a → holders (st s) !! p = Some a →
  w = StKeyShare ∨ w = StShare → rtc step s (do_share s a p w).
Proof.
  intros Ha Hi Hp Hw. unfold do_share.
  destruct (share_row (st s) (thread_of a false) row0 (share_mode_of w)) as [st1 new] eqn:E1.
  destruct (share_check st1 (thread_of a false) p row0 w true new) as [[st2 th2] r] eqn:E2.
  eapply rtc_l; [by eapply (step_share_publish _ (thread_of a false) a row0 w)|].
  apply rtc_once. apply (step_share_check (Sys _ _ _ _ _ _ _) (thread_of a false) p a row0 w true new st2 th2 r);
    [done|apply lookup_insert_eq| |done].
  cbn [st]. unfold share_row in E1. cbn [thread_of th_rows] in E1. destruct Ha as [h Hh].
  rewrite Hh in E1. unfold add in E1. destruct (strengthen _ _ _); by injection E1 as <- <-.
Qed.

Lemma do_write_steps s a k : is_Some (helds (st s) !! a) → idle s a → rtc step s (do_write s a k).
Proof.
  intros Ha Hi. unfold do_write.
  destruct (note_publish (st s) (thread_of a k) row0) as [[st1 th1] me] eqn:E1.
  destruct (note_check st1 (thread_of a k) row0 me) as [th2 r] eqn:E2.
  eapply rtc_l; [by eapply (step_write_publish _ (thread_of a k) a row0)|].
  apply rtc_once. apply (step_write_check (Sys _ _ _ _ _ _ _) (thread_of a k) a row0 me th2 r);
    [done|apply lookup_insert_eq|done].
Qed.

(** The grants and the sets of a state that was computed. *)
Ltac granted :=
  match goal with
  | |- ?e ∈ wgrant ?s => change (mapset.mapset_car (wgrant s) !! e = Some ()); vm_compute; reflexivity
  | |- ?e ∈ rows ?h => change (mapset.mapset_car (rows h) !! e = Some ()); vm_compute; reflexivity
  | |- ?e ∈ sgrant ?s => change (mapset.mapset_car (sgrant s) !! e = Some ()); vm_compute; reflexivity
  end.

(** Transaction 2 has written [row0], transaction 4 shares it FOR KEY SHARE. *)
Definition both_granted (s : sys) (ha hb : Held) : Prop :=
  (2, row0, false) ∈ wgrant s ∧ (4, row0, KeyShare) ∈ sgrant s ∧ live s 2 ha ∧ live s 4 hb ∧
  store ha = store hb ∧ row0 ∈ rows ha ∧ shared hb !! row0 = Some KeyShare ∧
  holders (st s) !! 2 = Some 4.

Definition w_two : sys := do_begin (do_begin init 1 2) 2 4.
Definition w_shared : sys := do_share w_two 4 2 StKeyShare.
Definition w_both : sys := do_write w_shared 2 false.

Lemma w_two_reachable : reachable w_two.
Proof.
  eapply rtc_l; [apply (step_begin _ 1 2 8); done|]. apply rtc_once. apply step_begin; done.
Qed.

Lemma both_granted_reachable : ∃ s ha hb, reachable s ∧ both_granted s ha hb.
Proof.
  exists w_both. eexists _, _. split.
  { eapply rtc_trans; [apply w_two_reachable|]. eapply rtc_trans; [apply do_share_steps|apply do_write_steps];
      vm_compute; eauto. }
  split; [granted|]. split; [granted|]. split; [vm_compute; reflexivity|].
  split; [vm_compute; reflexivity|]. split; [reflexivity|].
  split; [granted|].
  split; vm_compute; reflexivity.
Qed.

Lemma row_locks_exclusive_witness : ∃ s ha hb, reachable s ∧ both_granted s ha hb ∧
  KeyShare = KeyShare ∧ (false = true → (2, row0, true) ∈ lost s).
Proof.
  destruct both_granted_reachable as (s & ha & hb & Hr & Hg). exists s, ha, hb.
  split; [done|]. split; [done|]. destruct Hg as (Hw & Hs & Ha & Hb & Hst & _).
  by apply (row_locks_exclusive s 2 4 row0 false KeyShare ha hb).
Defined.

(** In that state a key-strength write of transaction 2 is refused. *)
Lemma write_blocked_exact_witness : ∃ s ha hb, reachable s ∧ both_granted s ha hb ∧
  write_blocked (st s) true (store ha) row0 2 = true.
Proof.
  destruct both_granted_reachable as (s & ha & hb & Hr & Hg). exists s, ha, hb.
  split; [done|]. split; [done|]. destruct Hg as (Hw & Hs & Ha & Hb & Hst & _ & Hsh & _).
  apply (write_blocked_exact s true row0 2 ha Hr Ha). exists 4, hb. split; [done|]. split; [done|].
  split; [done|]. right. exists KeyShare. auto.
Defined.

Lemma refused_upgrade_blocks_holder_witness : ∃ s ha hb, reachable s ∧ both_granted s ha hb ∧
  let '(st1, _, r1) := share_one (st s) (thread_of 4 false) 2 row0 StShare true in
  let '(_, _, r2) := note_row st1 (thread_of 2 false) row0 in
  r1 = inl LockNotAvailable ∧ r2 = inl WriteConflict ∧
  ∃ hb', helds st1 !! 4 = Some hb' ∧ shared hb' !! row0 = Some Share.
Proof.
  destruct both_granted_reachable as (s & ha & hb & Hr & Hg). exists s, ha, hb.
  split; [done|]. split; [done|]. destruct Hg as (Hw & Hs & Ha & Hb & Hst & Hrow & Hsh & Hp).
  by apply (refused_upgrade_blocks_holder s (thread_of 2 false) (thread_of 4 false) 2 4 ha hb 2 row0 true).
Defined.

(** A transaction shares a row and ends. *)
Lemma share_end_reachable : ∃ s, reachable s ∧ helds (st s) = ∅.
Proof.
  eexists. split.
  { eapply rtc_l; [apply (step_begin _ 1 2 8); done|].
    eapply rtc_trans; [apply (do_share_steps _ 2 1 StShare); vm_compute; eauto|].
    apply rtc_once. apply (step_end _ 1 2); vm_compute; eauto. }
  vm_compute. reflexivity.
Qed.

Lemma shared_table_no_leak_witness : ∃ s, reachable s ∧ table (st s) = ∅ ∧ COUNT (st s) = 0.
Proof.
  destruct share_end_reachable as (s & Hr & Hh). exists s. split; [done|].
  by apply (shared_table_no_leak s).
Defined.

(** Transaction 2 has written [row0] at key strength, transaction 4 nothing. *)
Definition w_deleted : sys := do_write w_two 2 true.

Lemma move_loses_key_lock_witness : reachable w_deleted ∧ (2, row0, true) ∈ wgrant w_deleted ∧
  (∀ nowait, (share_one (st w_deleted) (thread_of 4 false) 2 row0 StKeyShare nowait).2 ≠ inr ()) ∧
  ∃ s' ha' hb', rtc step w_deleted s' ∧ live s' 2 ha' ∧ live s' 4 hb' ∧ store ha' = store hb' ∧
    (2, row0, true) ∈ wgrant s' ∧ row0 ∈ rows ha' ∧ (4, row0, KeyShare) ∈ sgrant s'.
Proof.
  assert (Hr : reachable w_deleted).
  { eapply rtc_trans; [apply w_two_reachable|]. apply do_write_steps; vm_compute; eauto. }
  assert (Hg : (2, row0, true) ∈ wgrant w_deleted) by granted.
  split; [done|]. split; [done|].
  eapply (move_loses_key_lock w_deleted 2 4 (held_note (new_held 8) row0 true) (new_held 8) 2 row0).
  - exact Hr.
  - vm_compute. reflexivity.
  - vm_compute. reflexivity.
  - done.
  - reflexivity.
  - vm_compute. eauto.
  - vm_compute. eauto.
  - vm_compute. reflexivity.
  - vm_compute. reflexivity.
  - vm_compute. reflexivity.
  - exact Hg.
  - change (mapset.mapset_car (lost w_deleted) !! (2, row0, true) ≠ Some ()). vm_compute. done.
  - intros c hc Hc Hlc.
    assert (Hh : helds (st w_deleted) = {[2 := held_note (new_held 8) row0 true; 4 := new_held 8]}) by (vm_compute; reflexivity).
    unfold live in Hlc. rewrite Hh, lookup_insert_ne in Hlc by done.
    apply lookup_singleton_Some in Hlc as [<- <-]. split; [apply lookup_empty|]. split; apply not_elem_of_empty.
Defined.
