(* ===== verification/Fsm.v ===== *)
(** * The free space map: secantus-pg/src/fsm.rs

    A relation's free space map as PostgreSQL keeps it: pages that are binary
    trees of one-byte categories, in three levels, found by logical address. A
    page's node tree is a vector of bytes, the fork a map from physical block
    numbers; [touched] records every page read. *)
From S2P Require Import Prelude RustM Vec.
Open Scope Z_scope.

Definition NODES_PER_PAGE : Z := 8164.
Definition NON_LEAF_NODES_PER_PAGE : Z := 4095.
Definition SLOTS_PER_PAGE : Z := 4069.
Definition TREE_DEPTH : nat := 3.
Definition ROOT_LEVEL : Z := 2.
Definition BOTTOM_LEVEL : Z := 0.
Definition CAT_STEP : Z := 32.
Definition MAX_REQUEST : Z := 8160.

Definition leftchild (x : Z) : Z := 2 * x + 1.

Definition parentof (x : Z) : run Z := y ← usize_sub x 1; Ok (y / 2).

Definition rightneighbor (x : Z) : run Z :=
  let x := x + 1 in
  if Z.land (x + 1) x =? 0 then parentof x else Ok x.

Definition avail_to_cat (avail : Z) : Z :=
  if MAX_REQUEST <=? avail then 255 else Z.min (avail / CAT_STEP) 254.

(** [needed.div_ceil(32).min(255)] *)
Definition needed_to_cat (needed : Z) : Z :=
  if needed =? 0 then 1 else Z.min ((needed + CAT_STEP - 1) / CAT_STEP) 255.

(** ** Pages *)

Record FsmPage := { nodes : bytes; next_slot : Z }.

Definition with_nodes (ns : bytes) (p : FsmPage) : FsmPage := {| nodes := ns; next_slot := next_slot p |}.

Definition new_page : FsmPage := {| nodes := replicate (Z.to_nat NODES_PER_PAGE) 0; next_slot := 0 |}.

(** The larger child's category, as [set_avail] and [rebuild] compute it. *)
Definition child_max (ns : bytes) (nodeno : Z) : run Z :=
  let l := leftchild nodeno in
  let r := l + 1 in
  new ← index ns l;
  if r <? NODES_PER_PAGE then x ← index ns r; Ok (Z.max new x) else Ok new.

Definition rebuild_max (ns : bytes) (nodeno : Z) : run Z :=
  let l := leftchild nodeno in
  let r := l + 1 in
  new ← (if l <? NODES_PER_PAGE then index ns l else Ok 0);
  if r <? NODES_PER_PAGE then x ← index ns r; Ok (Z.max new x) else Ok new.

(** [for nodeno in (0..NON_LEAF_NODES_PER_PAGE).rev()], [count] rounds left. *)
Fixpoint rebuild_loop (count : nat) (ns : bytes) : run bytes :=
  match count with
  | O => Ok ns
  | S count =>
      let nodeno := Z.of_nat count in
      new ← rebuild_max ns nodeno;
      ns ← store ns nodeno new;
      rebuild_loop count ns
  end.

Definition rebuild (p : FsmPage) : run FsmPage :=
  ns ← rebuild_loop (Z.to_nat NON_LEAF_NODES_PER_PAGE) (nodes p); Ok (with_nodes ns p).

(** The climb of [set_avail]; every round goes to a parent. *)
Fixpoint set_avail_loop (fuel : nat) (nodeno : Z) (ns : bytes) : run bytes :=
  match fuel with
  | O => NoFuel
  | S fuel =>
      nodeno ← parentof nodeno;
      new ← child_max ns nodeno;
      cur ← index ns nodeno;
      if cur =? new then Ok ns else
      ns ← store ns nodeno new;
      if nodeno =? 0 then Ok ns else set_avail_loop fuel nodeno ns
  end.

Definition set_avail (slot value : Z) (p : FsmPage) : run (bool * FsmPage) :=
  let nodeno := NON_LEAF_NODES_PER_PAGE + slot in
  old ← index (nodes p) nodeno;
  root ← index (nodes p) 0;
  if (old =? value) && (value <=? root) then Ok (false, p) else
  ns ← store (nodes p) nodeno value;
  ns ← set_avail_loop (Z.to_nat nodeno) nodeno ns;
  root ← index ns 0;
  p ← (if root <? value then rebuild (with_nodes ns p) else Ok (with_nodes ns p));
  Ok (true, p).

Definition get_avail (slot : Z) (p : FsmPage) : run Z := index (nodes p) (NON_LEAF_NODES_PER_PAGE + slot).

(** [while nodeno > 0 { if nodes[nodeno] >= minvalue { break; } ... }] *)
Fixpoint climb (fuel : nat) (ns : bytes) (minvalue nodeno : Z) : run Z :=
  match fuel with
  | O => NoFuel
  | S fuel =>
      if 0 <? nodeno then
        x ← index ns nodeno;
        if minvalue <=? x then Ok nodeno
        else y ← rightneighbor nodeno; nodeno ← parentof y; climb fuel ns minvalue nodeno
      else Ok nodeno
  end.

(** [child < NODES_PER_PAGE && self.nodes[child] >= minvalue] *)
Definition reaches (ns : bytes) (minvalue child : Z) : run bool :=
  if child <? NODES_PER_PAGE then x ← index ns child; Ok (minvalue <=? x) else Ok false.

(** The descent to a leaf; [None]: the page is corrupt. *)
Fixpoint descend (fuel : nat) (ns : bytes) (minvalue nodeno : Z) : run (option Z) :=
  match fuel with
  | O => NoFuel
  | S fuel =>
      if nodeno <? NON_LEAF_NODES_PER_PAGE then
        let child := leftchild nodeno in
        l ← reaches ns minvalue child;
        if l : bool then descend fuel ns minvalue child else
        let child := child + 1 in
        r ← reaches ns minvalue child;
        if r : bool then descend fuel ns minvalue child else Ok None
      else Ok (Some nodeno)
  end.

Fixpoint search_avail_loop (fuel : nat) (minvalue : Z) (advancenext : bool) (p : FsmPage) : run (option Z * FsmPage) :=
  match fuel with
  | O => NoFuel
  | S fuel =>
      root ← index (nodes p) 0;
      if root <? minvalue then Ok (None, p) else
      let target := if (next_slot p <? 0) || (SLOTS_PER_PAGE <=? next_slot p) then 0 else next_slot p in
      let nodeno := target + NON_LEAF_NODES_PER_PAGE in
      nodeno ← climb (S (Z.to_nat nodeno)) (nodes p) minvalue nodeno;
      found ← descend (S (Z.to_nat NODES_PER_PAGE)) (nodes p) minvalue nodeno;
      match found with
      | None => p ← rebuild p; search_avail_loop fuel minvalue advancenext p
      | Some nodeno =>
          let slot := nodeno - NON_LEAF_NODES_PER_PAGE in
          Ok (Some slot, {| nodes := nodes p; next_slot := slot + (if advancenext then 1 else 0) |})
      end
  end.

(** A rebuilt page is never corrupt, so two rounds are enough. *)
Definition search_avail (minvalue : Z) (advancenext : bool) (p : FsmPage) : run (option Z * FsmPage) :=
  search_avail_loop 2 minvalue advancenext p.

Definition truncate_avail (nslots : Z) (p : FsmPage) : run FsmPage :=
  let from := NON_LEAF_NODES_PER_PAGE + nslots in
  rest ← slice (nodes p) from (blen (nodes p));
  let p' := with_nodes (take (Z.to_nat from) (nodes p) ++ replicate (length rest) 0) p in
  if existsb (λ n, negb (n =? 0)) rest then rebuild p' else Ok p'.

(** ** Addresses *)

Record Addr := { level : Z; logpageno : Z }.

Definition ROOT : Addr := {| level := ROOT_LEVEL; logpageno := 0 |}.

(** [for _ in 0..addr.level { leafno *= SLOTS_PER_PAGE; }] *)
Definition first_leaf (addr : Addr) : Z := logpageno addr * SLOTS_PER_PAGE ^ level addr.

Fixpoint pages_before (count : nat) (leafno pages : Z) : Z :=
  match count with
  | O => pages
  | S count => pages_before count (leafno / SLOTS_PER_PAGE) (pages + (leafno + 1))
  end.

Definition physical (addr : Addr) : Z := pages_before TREE_DEPTH (first_leaf addr) 0 - level addr - 1.

Definition location (heapblk : Z) : Addr * Z :=
  ({| level := BOTTOM_LEVEL; logpageno := heapblk / SLOTS_PER_PAGE |}, heapblk mod SLOTS_PER_PAGE).

(** [u32] in the source. A slot that [location] gives stands for its block, so the result
    fits; the slots past block [2^32 - 1] on the last page, which no call can set, are
    told apart here by results over [2^32]. *)
Definition heap_blk (addr : Addr) (slot : Z) : Z := logpageno addr * SLOTS_PER_PAGE + slot.

Definition parent (child : Addr) : Addr * Z :=
  ({| level := level child + 1; logpageno := logpageno child / SLOTS_PER_PAGE |},
   logpageno child mod SLOTS_PER_PAGE).

Definition child (parent : Addr) (slot : Z) : Addr :=
  {| level := level parent - 1; logpageno := logpageno parent * SLOTS_PER_PAGE + slot |}.

(** ** The fork *)

Record Fsm := { pages : gmap Z FsmPage; nblocks : Z; touched : list Z }.

(** [Fsm::page]: the page and its block, if the fork reaches it (or [extend]);
    reading a page that was never written creates it empty. *)
Definition page (addr : Addr) (extend : bool) (f : Fsm) : option (Z * FsmPage) * Fsm :=
  let blkno := physical addr in
  if (nblocks f <=? blkno) && negb extend then (None, f) else
  let nb := if nblocks f <=? blkno then blkno + 1 else nblocks f in
  let p := default new_page (pages f !! blkno) in
  (Some (blkno, p), {| pages := <[blkno := p]> (pages f); nblocks := nb; touched := touched f ++ [blkno] |}).

(** The change made through the [&mut FsmPage] that [page] returned. *)
Definition put (blkno : Z) (p : FsmPage) (f : Fsm) : Fsm :=
  {| pages := <[blkno := p]> (pages f); nblocks := nblocks f; touched := touched f |}.

Definition set_and_search (addr : Addr) (slot value min : Z) (f : Fsm) : run (option Z * Fsm) :=
  match page addr true f with
  | (None, _) => Panic
  | (Some (blkno, p), f) =>
      r ← set_avail slot value p;
      if negb (min =? 0) then
        s ← search_avail min (level addr =? BOTTOM_LEVEL) r.2;
        Ok (s.1, put blkno s.2 f)
      else Ok (None, put blkno r.2 f)
  end.

(** One round of [search]'s loop: the answer, or the next address and the
    restarts so far. *)
Inductive search_step := Done (r : option Z) | Again (addr : Addr) (restarts : Z).

Definition restart (restarts : Z) : search_step :=
  if 10000 <? restarts + 1 then Done None else Again ROOT (restarts + 1).

(** A block past the relation's end: forget it. *)
Definition forget_slot (addr : Addr) (slot : Z) (f : Fsm) : run Fsm :=
  match page addr false f with
  | (Some (b, p), f) => r ← set_avail slot 0 p; Ok (put b r.2 f)
  | (None, f) => Ok f
  end.

Definition search_next (heap_blocks : Z) (addr : Addr) (restarts : Z) (slot : option Z) (max_avail : Z) (f : Fsm)
    : run (search_step * Fsm) :=
  match slot with
  | Some slot =>
      if level addr =? BOTTOM_LEVEL then
        let blkno := heap_blk addr slot in
        if blkno <? heap_blocks then Ok (Done (Some blkno), f)
        else f ← forget_slot addr slot f; Ok (restart restarts, f)
      else Ok (Again (child addr slot) restarts, f)
  | None =>
      if level addr =? ROOT_LEVEL then Ok (Done None, f) else
      let p := parent addr in
      r ← set_and_search p.1 p.2 max_avail 0 f;
      Ok (restart restarts, r.2)
  end.

Definition search_round (min heap_blocks : Z) (addr : Addr) (restarts : Z) (f : Fsm) : run (search_step * Fsm) :=
  match page addr false f with
  | (Some (blkno, p), f) =>
      s ← search_avail min (level addr =? BOTTOM_LEVEL) p;
      max_avail ← index (nodes s.2) 0;
      search_next heap_blocks addr restarts s.1 max_avail (put blkno s.2 f)
  | (None, f) => search_next heap_blocks addr restarts None 0 f
  end.

Fixpoint search_loop (fuel : nat) (min heap_blocks : Z) (addr : Addr) (restarts : Z) (f : Fsm) : run (option Z * Fsm) :=
  match fuel with
  | O => NoFuel
  | S fuel =>
      r ← search_round min heap_blocks addr restarts f;
      match r.1 with
      | Done b => Ok (b, r.2)
      | Again addr restarts => search_loop fuel min heap_blocks addr restarts r.2
      end
  end.

(** Three levels between restarts, and 10001 restarts. *)
Definition search (min heap_blocks : Z) (f : Fsm) : run (option Z * Fsm) :=
  search_loop (Z.to_nat (3 * (10001 + 1))) min heap_blocks ROOT 0 f.

Definition get_page (needed heap_blocks : Z) (f : Fsm) : run (option Z * Fsm) :=
  search (needed_to_cat needed) heap_blocks f.

Definition record_and_get (old_page old_avail needed heap_blocks : Z) (f : Fsm) : run (option Z * Fsm) :=
  let l := location old_page in
  let search_cat := needed_to_cat needed in
  r ← set_and_search l.1 l.2 (avail_to_cat old_avail) search_cat f;
  match r.1 with
  | Some found =>
      let blkno := heap_blk l.1 found in
      if blkno <? heap_blocks then Ok (Some blkno, r.2) else search search_cat heap_blocks r.2
  | None => search search_cat heap_blocks r.2
  end.

Definition record (heapblk avail : Z) (f : Fsm) : run Fsm :=
  let l := location heapblk in
  r ← set_and_search l.1 l.2 (avail_to_cat avail) 0 f; Ok r.2.

Definition truncate (nblocks' : Z) (f : Fsm) : run Fsm :=
  let l := location nblocks' in
  let addr := l.1 in
  let slot := l.2 in
  r ← (if 0 <? slot then
         f ← match page addr false f with
             | (Some (b, p), f) => p ← truncate_avail slot p; Ok (put b p f)
             | (None, f) => Ok f
             end;
         Ok (physical addr + 1, f)
       else Ok (physical addr, f));
  let '(keep, f) := r in
  Ok (if keep <? nblocks f
      then {| pages := filter (λ bp, bp.1 < keep) (pages f); nblocks := keep; touched := touched f |}
      else f).

(** ** VACUUM *)

Fixpoint climb_to (fuel : nat) (lvl : Z) (fs fe : Addr * Z) : (Addr * Z) * (Addr * Z) :=
  match fuel with
  | O => (fs, fe)
  | S fuel => if level fs.1 <? lvl then climb_to fuel lvl (parent fs.1) (parent fe.1) else (fs, fe)
  end.

(** The range of slots of [addr] that [start..end] touches. *)
Definition slot_range (addr : Addr) (start end_ : Z) : Z * Z :=
  let '((fs, fs_slot), (fe, fe_slot)) :=
    climb_to 3 (level addr) (location start) (location (end_ - 1)) in
  (match logpageno fs ?= logpageno addr with Eq => fs_slot | Gt => SLOTS_PER_PAGE | Lt => 0 end,
   match logpageno fe ?= logpageno addr with Eq => fe_slot | Gt => SLOTS_PER_PAGE - 1 | Lt => -1 end).

(** The loop over the slots of one page; [vacuum_child] is the recursive call. *)
Section vacuum_slots.
Context (vacuum_child : Addr → Fsm → run (Z * bool * Fsm)).

Fixpoint vacuum_slots (fuel : nat) (addr : Addr) (slot end_slot : Z) (child_eof : bool) (f : Fsm) : run Fsm :=
  match fuel with
  | O => if slot <=? end_slot then NoFuel else Ok f
  | S fuel =>
      if slot <=? end_slot then
        r ← (if child_eof then Ok (0, true, f)
             else x ← vacuum_child (child addr slot) f; Ok (x.1.1, x.1.2, x.2));
        let '(avail, child_eof, f) := r in
        match page addr false f with
        | (None, _) => Panic
        | (Some (b, p), f) =>
            cur ← get_avail slot p;
            f ← (if negb (cur =? avail) then r ← set_avail slot avail p; Ok (put b r.2 f) else Ok f);
            vacuum_slots fuel addr (slot + 1) end_slot child_eof f
        end
      else Ok f
  end.
End vacuum_slots.

(** [fsm_vacuum_page]: the page's root category, whether the fork ended before
    it, and the fork. *)
Fixpoint vacuum_page (fuel : nat) (addr : Addr) (start end_ : Z) (f : Fsm) : run (Z * bool * Fsm) :=
  match fuel with
  | O => NoFuel
  | S fuel =>
      match page addr false f with
      | (None, f) => Ok (0, true, f)
      | (Some _, f) =>
          f ← (if BOTTOM_LEVEL <? level addr then
                 let r := slot_range addr start end_ in
                 vacuum_slots (λ a f, vacuum_page fuel a start end_ f)
                   (Z.to_nat SLOTS_PER_PAGE) addr r.1 r.2 false f
               else Ok f);
          match page addr false f with
          | (None, _) => Panic
          | (Some (b, p), f) =>
              root ← index (nodes p) 0;
              Ok (root, false, put b {| nodes := nodes p; next_slot := 0 |} f)
          end
      end
  end.

Definition vacuum_range (start end_ : Z) (f : Fsm) : run Fsm :=
  if start <? end_ then r ← vacuum_page 3 ROOT start end_ f; Ok r.2 else Ok f.

(** [Fsm::default()] *)
Definition empty_fsm : Fsm := {| pages := ∅; nblocks := 0; touched := [] |}.

(** The unit test [the_upper_levels_wait_for_vacuum]. *)
Definition upper_levels_test : run (option Z * option Z * option Z) :=
  a ← record_and_get 0 44 140 1 empty_fsm;
  b ← get_page 32 2 a.2;
  f ← vacuum_range 0 2 b.2;
  c ← get_page 32 2 f;
  Ok (a.1, b.1, c.1).

Example the_upper_levels_wait_for_vacuum : upper_levels_test = Ok (None, None, Some 0).
Proof. vm_compute. reflexivity. Qed.
