(* ===== verification/FsmFacts.v ===== *)
(** * The free space map: one page, and the fork

    A page is a tree of maxima over its leaves. [rebuild] makes any page one;
    [set_avail] keeps it one, although it stops climbing at the first ancestor
    that does not change; [search_avail] finds a leaf that is large enough
    whenever there is one, and repairs a corrupt page on the way.

    The abstract state of a map is the category recorded for every heap block
    ([fsm_cat]). The operations implement it: [record] sets one block,
    [truncate] clears the blocks past an end, [vacuum_range] and the searches
    change nothing below the relation's end, and a search returns only a block
    with the category it was asked for. Distinct logical addresses have distinct
    physical pages, so no operation disturbs another page. *)
From S2P Require Import Prelude RustM Vec Fsm.
Open Scope Z_scope.

Definition nodes_ok (ns : bytes) : Prop := blen ns = NODES_PER_PAGE ∧ all_bytes ns.

(** Node [n] is the larger of its children; a child past the page counts 0. *)
Definition node_ok (ns : bytes) (n : Z) : Prop :=
  at_or0 ns n = Z.max (at_or0 ns (2 * n + 1)) (at_or0 ns (2 * n + 2)).

Definition tree (ns : bytes) : Prop := ∀ n, 0 ≤ n < NON_LEAF_NODES_PER_PAGE → node_ok ns n.

Definition leaf (ns : bytes) (slot : Z) : Z := at_or0 ns (NON_LEAF_NODES_PER_PAGE + slot).

Definition same_leaves (ns ns' : bytes) : Prop :=
  ∀ i, NON_LEAF_NODES_PER_PAGE ≤ i → at_or0 ns' i = at_or0 ns i.

Ltac fsm_consts := unfold NODES_PER_PAGE, NON_LEAF_NODES_PER_PAGE, SLOTS_PER_PAGE, leftchild in *.

Lemma at_byte ns i : all_bytes ns → is_byte (at_or0 ns i).
Proof. intros. by apply at_range. Qed.

Lemma at_nonneg ns i : all_bytes ns → 0 ≤ at_or0 ns i.
Proof. intros H. pose proof (at_byte ns i H) as Hb. unfold is_byte in Hb. lia. Qed.

Lemma parentof_spec x : 1 ≤ x → parentof x = Ok ((x - 1) / 2) ∧ 0 ≤ (x - 1) / 2 < x.
Proof.
  intros Hx. unfold parentof, usize_sub. destruct (Z.ltb_spec x 1); [lia|]. split; [done|].
  Z.to_euclidean_division_equations; lia.
Qed.

Lemma children_max ns n :
  nodes_ok ns → 0 ≤ n → 2 * n + 1 < NODES_PER_PAGE →
  child_max ns n = Ok (Z.max (at_or0 ns (2 * n + 1)) (at_or0 ns (2 * n + 2))).
Proof.
  intros [Hl Hb] Hn Hlt. unfold child_max. fsm_consts. rewrite (index_at ns (2 * n + 1)) by lia. cbn [mbind outcome_bind].
  replace (2 * n + 1 + 1) with (2 * n + 2) by lia. destruct (Z.ltb_spec (2 * n + 2) 8164).
  - rewrite index_at by lia. done.
  - rewrite (at_out ns (2 * n + 2)) by lia. pose proof (at_nonneg ns (2 * n + 1) Hb). by rewrite Z.max_l by lia.
Qed.

Lemma rebuild_max_spec ns n :
  nodes_ok ns → 0 ≤ n → rebuild_max ns n = Ok (Z.max (at_or0 ns (2 * n + 1)) (at_or0 ns (2 * n + 2))).
Proof.
  intros [Hl Hb] Hn. unfold rebuild_max. fsm_consts. replace (2 * n + 1 + 1) with (2 * n + 2) by lia.
  pose proof (at_nonneg ns (2 * n + 1) Hb).
  destruct (Z.ltb_spec (2 * n + 1) 8164), (Z.ltb_spec (2 * n + 2) 8164); try lia;
    rewrite ?index_at by lia; cbn [mbind outcome_bind]; rewrite ?index_at by lia; cbn [mbind outcome_bind]; try done.
  - rewrite (at_out ns (2 * n + 2)) by lia. by rewrite Z.max_l by lia.
  - by rewrite !at_out by lia.
Qed.

Lemma max_byte a b : is_byte a → is_byte b → is_byte (Z.max a b).
Proof. unfold is_byte. lia. Qed.

Lemma nodes_ok_upd ns i v : nodes_ok ns → is_byte v → nodes_ok (upd ns i v).
Proof. intros [Hl Hb] Hv. split; [by rewrite blen_upd|by apply upd_Forall]. Qed.

(** Writing node [p] changes whether nodes other than [p] and its parent are
    maxima of nothing. *)
Lemma node_ok_upd ns p v n :
  0 ≤ p < blen ns → 0 ≤ n → n ≠ p → 2 * n + 1 ≠ p → 2 * n + 2 ≠ p → node_ok ns n → node_ok (upd ns p v) n.
Proof. intros Hp Hn H1 H2 H3 Hok. unfold node_ok in *. by rewrite !at_upd_ne by lia. Qed.

Lemma node_ok_write ns n :
  0 ≤ n < blen ns →
  node_ok (upd ns n (Z.max (at_or0 ns (2 * n + 1)) (at_or0 ns (2 * n + 2)))) n.
Proof. intros Hn. unfold node_ok. rewrite at_upd_eq, !at_upd_ne by lia. done. Qed.

(** ** [rebuild] *)

Lemma rebuild_loop_spec count ns :
  nodes_ok ns → Z.of_nat count ≤ NON_LEAF_NODES_PER_PAGE →
  (∀ n, Z.of_nat count ≤ n < NON_LEAF_NODES_PER_PAGE → node_ok ns n) →
  ∃ ns', rebuild_loop count ns = Ok ns' ∧ nodes_ok ns' ∧ tree ns' ∧ same_leaves ns ns'.
Proof.
  revert ns. induction count as [|count IH]; intros ns Hok Hc Ht.
  { exists ns. split_and!; done. }
  pose proof Hok as [Hl Hb]. cbn [rebuild_loop]. rewrite rebuild_max_spec by (done || lia). cbn [mbind outcome_bind].
  rewrite store_at by (fsm_consts; lia). cbn [mbind outcome_bind]. set (v := Z.max _ _).
  destruct (IH (upd ns (Z.of_nat count) v)) as (ns' & He & Hok' & Ht' & Hs').
  - apply nodes_ok_upd; [done|]. apply max_byte; by apply at_byte.
  - lia.
  - intros n Hn. destruct (decide (n = Z.of_nat count)) as [->|Hne].
    + apply node_ok_write. fsm_consts. lia.
    + apply node_ok_upd; fsm_consts; try lia. apply Ht. lia.
  - exists ns'. split_and!; try done. intros i Hi. rewrite Hs' by done. apply at_upd_ne; fsm_consts; lia.
Qed.

Lemma rebuild_spec p :
  nodes_ok (nodes p) →
  ∃ p', rebuild p = Ok p' ∧ nodes_ok (nodes p') ∧ tree (nodes p') ∧ same_leaves (nodes p) (nodes p') ∧
    next_slot p' = next_slot p.
Proof.
  intros Hok. unfold rebuild.
  destruct (rebuild_loop_spec (Z.to_nat NON_LEAF_NODES_PER_PAGE) (nodes p)) as (ns' & -> & Hok' & Ht & Hs).
  - done.
  - fsm_consts. lia.
  - intros n Hn. fsm_consts. lia.
  - eexists. split; [done|]. by split_and!.
Qed.

(** ** The root is the largest leaf *)

Lemma tree_child ns n i :
  nodes_ok ns → tree ns → 0 ≤ n < NON_LEAF_NODES_PER_PAGE → i = 2 * n + 1 ∨ i = 2 * n + 2 → at_or0 ns i ≤ at_or0 ns n.
Proof. intros _ Ht Hn Hi. rewrite (Ht n Hn). destruct Hi as [-> | ->]; lia. Qed.

Lemma tree_root ns i : nodes_ok ns → tree ns → 0 ≤ i → at_or0 ns i ≤ at_or0 ns 0.
Proof.
  intros Hok Ht Hi. enough (∀ k i, 0 ≤ i < Z.of_nat k → at_or0 ns i ≤ at_or0 ns 0) as H
    by (apply (H (S (Z.to_nat i))); lia).
  clear i Hi. intros k. induction k as [|k IH]; [lia|]. intros i Hi.
  destruct (Z.eq_dec i 0) as [->|Hn]; [lia|].
  destruct (Z.le_gt_cases NODES_PER_PAGE i) as [Hout|Hin].
  { rewrite at_out by (destruct Hok; lia). apply at_nonneg. apply Hok. }
  set (n := (i - 1) / 2). assert (i = 2 * n + 1 ∨ i = 2 * n + 2) as Hc
    by (unfold n; Z.to_euclidean_division_equations; lia).
  etrans; [apply (tree_child ns n i Hok Ht); [fsm_consts; lia|done]|]. apply IH. lia.
Qed.

(** ** [set_avail] *)

Lemma set_avail_loop_spec fuel nodeno ns :
  nodes_ok ns → 1 ≤ nodeno < NODES_PER_PAGE → nodeno ≤ Z.of_nat fuel →
  (∀ n, 0 ≤ n < NON_LEAF_NODES_PER_PAGE → n ≠ (nodeno - 1) / 2 → node_ok ns n) →
  ∃ ns', set_avail_loop fuel nodeno ns = Ok ns' ∧ nodes_ok ns' ∧ tree ns' ∧ same_leaves ns ns'.
Proof.
  revert nodeno ns. induction fuel as [|fuel IH]; intros nodeno ns Hok Hn Hf Ht; [lia|].
  destruct (parentof_spec nodeno) as [Hp Hpr]; [lia|]. set (p := (nodeno - 1) / 2) in *.
  assert (2 * p + 1 ≤ nodeno) by (unfold p; Z.to_euclidean_division_equations; lia).
  pose proof Hok as [Hl Hb].
  cbn [set_avail_loop]. rewrite Hp. cbn [mbind outcome_bind]. rewrite children_max by (done || lia).
  cbn [mbind outcome_bind]. rewrite index_at by lia. cbn [mbind outcome_bind]. set (v := Z.max _ _).
  destruct (Z.eqb_spec (at_or0 ns p) v) as [Ev|Hv].
  { exists ns. split_and!; try done. intros n Hr. destruct (decide (n = p)) as [->|]; [exact Ev|by apply Ht]. }
  rewrite store_at by lia. cbn [mbind outcome_bind].
  assert (nodes_ok (upd ns p v)) as Hok' by (apply nodes_ok_upd; [done|]; apply max_byte; by apply at_byte).
  assert (∀ n, 0 ≤ n < NON_LEAF_NODES_PER_PAGE → (1 ≤ p → n ≠ (p - 1) / 2) → node_ok (upd ns p v) n) as Ht'.
  { intros n Hr Hne. destruct (decide (n = p)) as [->|Hnp]; [apply node_ok_write; lia|].
    apply node_ok_upd; try lia; [..|by apply Ht]; intros E; apply Hne; try lia;
      rewrite <- E; Z.to_euclidean_division_equations; lia. }
  assert (same_leaves ns (upd ns p v)) as Hs.
  { intros i Hi. apply at_upd_ne; fsm_consts; lia. }
  destruct (Z.eqb_spec p 0) as [E0|H0].
  - eexists. split_and!; try done. intros n Hr. apply Ht'; [done|lia].
  - destruct (IH p (upd ns p v)) as (ns' & -> & Hok'' & Ht'' & Hs'); [done|lia|lia|auto with lia|].
    exists ns'. split_and!; try done. intros i Hi. rewrite Hs' by done. by apply Hs.
Qed.

Lemma set_avail_spec slot value p :
  nodes_ok (nodes p) → tree (nodes p) → 0 ≤ slot < SLOTS_PER_PAGE → is_byte value →
  ∃ changed p', set_avail slot value p = Ok (changed, p') ∧ nodes_ok (nodes p') ∧ tree (nodes p') ∧
    next_slot p' = next_slot p ∧
    ∀ s, 0 ≤ s → leaf (nodes p') s = if s =? slot then value else leaf (nodes p) s.
Proof.
  intros Hok Ht Hs Hv. unfold set_avail. set (nodeno := NON_LEAF_NODES_PER_PAGE + slot).
  assert (4095 ≤ nodeno < NODES_PER_PAGE) as Hn by (unfold nodeno; fsm_consts; lia).
  pose proof Hok as [Hl Hb]. rewrite !index_at by lia. cbn [mbind outcome_bind].
  destruct (Z.eqb_spec (at_or0 (nodes p) nodeno) value) as [Ev|Hv'], (Z.leb_spec value (at_or0 (nodes p) 0)); cbn [andb].
  1: { exists false, p. split_and!; try done. intros s Hs'. destruct (Z.eqb_spec s slot) as [->|]; [exact Ev|done]. }
  all: rewrite store_at by lia; cbn [mbind outcome_bind].
  all: destruct (set_avail_loop_spec (Z.to_nat nodeno) nodeno (upd (nodes p) nodeno value)) as (ns & -> & Hok' & Ht' & Hs');
    [by apply nodes_ok_upd|fsm_consts; lia|lia| |].
  all: try (intros n Hr Hne; apply node_ok_upd; try (fsm_consts; lia); [..|by apply Ht]; intros E; apply Hne; rewrite <- E;
    Z.to_euclidean_division_equations; lia).
  all: cbn [mbind outcome_bind]; rewrite index_at by (destruct Hok' as [-> _]; fsm_consts; lia); cbn [mbind outcome_bind];
    pose proof (tree_root ns nodeno Hok' Ht' ltac:(lia)) as Hroot;
    rewrite Hs', at_upd_eq in Hroot by (unfold NON_LEAF_NODES_PER_PAGE; lia);
    rewrite (proj2 (Z.ltb_ge (at_or0 ns 0) value)) by lia; eexists _, _; split; [done|]; cbn [nodes with_nodes next_slot];
    split_and!; try done; intros s Hs0; unfold leaf; rewrite Hs' by lia;
    destruct (Z.eqb_spec s slot) as [->|]; [by rewrite at_upd_eq by lia|]; rewrite at_upd_ne; unfold nodeno; fsm_consts; lia || done.
Qed.

(** ** [search_avail] *)

(** The next node of the climb lies strictly above. *)
Lemma climb_step x :
  1 ≤ x < NODES_PER_PAGE → ∃ y, rightneighbor x = Ok y ∧ ∃ z, parentof y = Ok z ∧ 0 ≤ z < x.
Proof.
  intros Hx. unfold rightneighbor. cbv zeta. destruct (Z.eqb_spec (Z.land (x + 1 + 1) (x + 1)) 0) as [E|_].
  - assert (x ≠ 1) by (intros ->; done).
    destruct (parentof_spec (x + 1)) as [-> Hp]; [lia|]. eexists. split; [done|].
    destruct (parentof_spec ((x + 1 - 1) / 2)) as [-> Hp']; [Z.to_euclidean_division_equations; lia|].
    eexists. split; [done|]. Z.to_euclidean_division_equations; lia.
  - eexists. split; [done|]. destruct (parentof_spec (x + 1)) as [-> Hp]; [lia|]. eexists. split; [done|].
    Z.to_euclidean_division_equations; lia.
Qed.

Lemma climb_spec fuel ns minv nodeno :
  nodes_ok ns → 0 ≤ nodeno < NODES_PER_PAGE → nodeno < Z.of_nat fuel →
  ∃ m, climb fuel ns minv nodeno = Ok m ∧ 0 ≤ m < NODES_PER_PAGE ∧ (m = 0 ∨ minv ≤ at_or0 ns m).
Proof.
  intros Hok. revert nodeno. induction fuel as [|fuel IH]; intros nodeno Hn Hf; [lia|]. cbn [climb].
  destruct (Z.ltb_spec 0 nodeno); [|eexists; split_and!; [done|lia..|left; lia]].
  rewrite index_at by (destruct Hok; lia). cbn [mbind outcome_bind].
  destruct (Z.leb_spec minv (at_or0 ns nodeno)); [eexists; split_and!; [done|lia..|by right]|].
  destruct (climb_step nodeno) as (y & -> & z & Hz & Hzr); [lia|]. cbn [mbind outcome_bind]. rewrite Hz.
  cbn [mbind outcome_bind]. apply IH; lia.
Qed.

Lemma reaches_spec ns minv c :
  nodes_ok ns → 0 ≤ c →
  reaches ns minv c = Ok (bool_decide (c < NODES_PER_PAGE ∧ minv ≤ at_or0 ns c)).
Proof.
  intros [Hl Hb] Hc. unfold reaches. destruct (Z.ltb_spec c NODES_PER_PAGE).
  - rewrite index_at by lia. cbn [mbind outcome_bind]. f_equal.
    destruct (Z.leb_spec minv (at_or0 ns c)); symmetry; [by apply bool_decide_true|apply bool_decide_false; lia].
  - by rewrite bool_decide_false by lia.
Qed.

(** From a node that promises enough the descent reaches a leaf that has it,
    or a node that breaks its promise; in a tree none does. *)
Lemma descend_spec fuel ns minv n :
  nodes_ok ns → 0 ≤ n < NODES_PER_PAGE → NODES_PER_PAGE ≤ n + Z.of_nat fuel → n = 0 ∨ minv ≤ at_or0 ns n →
  ∃ r, descend fuel ns minv n = Ok r ∧
    (∀ l, r = Some l → NON_LEAF_NODES_PER_PAGE ≤ l < NODES_PER_PAGE ∧ minv ≤ at_or0 ns l) ∧
    (1 ≤ minv → tree ns → minv ≤ at_or0 ns n → r ≠ None).
Proof.
  intros Hok. revert n. induction fuel as [|fuel IH]; intros n Hn Hf Hp; [fsm_consts; lia|]. cbn [descend].
  destruct (Z.ltb_spec n NON_LEAF_NODES_PER_PAGE) as [Hlt|Hge].
  2: { eexists. split_and!; [done| |done]. intros l [= <-]. split; [lia|]. fsm_consts. destruct Hp; [lia|done]. }
  unfold leftchild. rewrite !reaches_spec by (done || lia). cbn [mbind outcome_bind].
  replace (2 * n + 1 + 1) with (2 * n + 2) by lia.
  case_bool_decide as Hl.
  { destruct (IH (2 * n + 1)) as (r & -> & H1 & H2); [lia|lia|tauto|]. eexists. split_and!; [done..|].
    intros Hm Ht _. apply H2; tauto. }
  cbn [mbind outcome_bind]. case_bool_decide as Hr.
  { destruct (IH (2 * n + 2)) as (r & -> & H1 & H2); [lia|lia|tauto|]. eexists. split_and!; [done..|].
    intros Hm Ht _. apply H2; tauto. }
  eexists. split_and!; [done|done|]. intros Hm Ht Hv. exfalso. rewrite (Ht n ltac:(lia)) in Hv.
  destruct (Z.lt_ge_cases (2 * n + 1) NODES_PER_PAGE), (Z.lt_ge_cases (2 * n + 2) NODES_PER_PAGE);
    try (rewrite (at_out ns (2 * n + 1)) in * by (destruct Hok; lia));
    try (rewrite (at_out ns (2 * n + 2)) in * by (destruct Hok; lia)); lia.
Qed.

(** What a search of a page returns: on every page of the right size an answer,
    the leaves untouched; a slot it returns has enough; on a tree, [None] means
    that no leaf has. *)
Record search_result (minv : Z) (advance : bool) (p : FsmPage) (r : option Z) (p' : FsmPage) : Prop := {
  sr_ok : nodes_ok (nodes p');
  sr_leaves : same_leaves (nodes p) (nodes p');
  sr_slot : ∀ s, r = Some s → 0 ≤ s < SLOTS_PER_PAGE ∧ minv ≤ leaf (nodes p) s ∧
              next_slot p' = s + (if advance then 1 else 0);
  sr_tree : tree (nodes p) → nodes p' = nodes p;
  sr_none : tree (nodes p) → r = None → ∀ i, 0 ≤ i → at_or0 (nodes p) i < minv }.

Lemma search_avail_loop_spec fuel minv advance p :
  nodes_ok (nodes p) → 1 ≤ minv → (2 ≤ fuel)%nat ∨ (1 ≤ fuel)%nat ∧ tree (nodes p) →
  ∃ r p', search_avail_loop fuel minv advance p = Ok (r, p') ∧ search_result minv advance p r p'.
Proof.
  revert p. induction fuel as [|fuel IH]; intros p Hok Hm Hf; [lia|]. cbn [search_avail_loop].
  rewrite index_at by (destruct Hok; fsm_consts; lia). cbn [mbind outcome_bind].
  destruct (Z.ltb_spec (at_or0 (nodes p) 0) minv) as [Hroot|Hroot].
  { eexists _, _. split; [done|]. split; try done. intros Ht _ i Hi.
    pose proof (tree_root (nodes p) i Hok Ht Hi). lia. }
  set (target := if _ || _ then 0 else next_slot p).
  assert (0 ≤ target < SLOTS_PER_PAGE) as Htar.
  { unfold target. destruct (Z.ltb_spec (next_slot p) 0), (Z.leb_spec SLOTS_PER_PAGE (next_slot p)); simpl; fsm_consts; lia. }
  destruct (climb_spec (S (Z.to_nat (target + NON_LEAF_NODES_PER_PAGE))) (nodes p) minv (target + NON_LEAF_NODES_PER_PAGE))
    as (m & -> & Hmr & Hmp); [done|fsm_consts; lia..|]. cbn [mbind outcome_bind].
  destruct (descend_spec (S (Z.to_nat NODES_PER_PAGE)) (nodes p) minv m) as (r & -> & Hd1 & Hd2);
    [done|done|fsm_consts; lia|done|]. cbn [mbind outcome_bind].
  destruct r as [l|].
  { eexists _, _. split; [done|]. destruct (Hd1 l eq_refl) as [Hlr Hlv]. split; try done.
    intros s [= <-]. unfold leaf. split_and!; [fsm_consts; lia..| |done].
    by replace (NON_LEAF_NODES_PER_PAGE + (l - NON_LEAF_NODES_PER_PAGE)) with l by lia. }
  assert (¬ tree (nodes p)) as Hnt.
  { intros Ht. apply (Hd2 Hm Ht); [|done]. destruct Hmp as [-> |]; done. }
  destruct Hf as [Hf|[_ Ht]]; [|done].
  destruct (rebuild_spec p Hok) as (q & -> & Hqok & Hqt & Hqs & _). cbn [mbind outcome_bind].
  destruct (IH q Hqok Hm) as (r & p' & -> & [H1 H2 H3 H4 H5]); [right; split; [lia|done]|].
  eexists _, _. split; [done|]. split; try done.
  - intros i Hi. rewrite H2 by done. by apply Hqs.
  - intros s Hs. destruct (H3 s Hs) as (Hr1 & Hr2 & Hr3). split_and!; try done; try lia.
    unfold leaf in *. by rewrite <- Hqs by (fsm_consts; lia).
Qed.

Lemma search_avail_spec minv advance p :
  nodes_ok (nodes p) → 1 ≤ minv →
  ∃ r p', search_avail minv advance p = Ok (r, p') ∧ search_result minv advance p r p'.
Proof. intros Hok Hm. apply search_avail_loop_spec; [done..|]. left. lia. Qed.

(** ** [truncate_avail] *)

Lemma at_truncated ns k i :
  0 ≤ k ≤ blen ns → 0 ≤ i →
  at_or0 (take (Z.to_nat k) ns ++ replicate (length ns - Z.to_nat k) 0) i = if i <? k then at_or0 ns i else 0.
Proof.
  intros Hk Hi. unfold at_or0, blen in *. rewrite bool_decide_true by done.
  destruct (Z.ltb_spec i k).
  - rewrite lookup_app_l by (rewrite length_take; lia). by rewrite lookup_take_lt by lia.
  - rewrite lookup_app_r by (rewrite length_take; lia). rewrite length_take.
    destruct (replicate _ _ !! _) eqn:E; [|done]. apply lookup_replicate in E as [-> _]. done.
Qed.

Lemma truncate_avail_spec nslots p :
  nodes_ok (nodes p) → tree (nodes p) → 0 ≤ nslots ≤ SLOTS_PER_PAGE →
  ∃ p', truncate_avail nslots p = Ok p' ∧ nodes_ok (nodes p') ∧ tree (nodes p') ∧
    ∀ s, 0 ≤ s → leaf (nodes p') s = if s <? nslots then leaf (nodes p) s else 0.
Proof.
  intros Hok Ht Hs. pose proof Hok as [Hl Hb]. unfold truncate_avail.
  set (from := NON_LEAF_NODES_PER_PAGE + nslots).
  assert (0 ≤ from ≤ blen (nodes p)) as Hfrom by (unfold from; fsm_consts; lia).
  rewrite slice_sub by lia. cbn [mbind outcome_bind]. cbv zeta. set (rest := sub (nodes p) from (blen (nodes p))).
  assert (length rest = (length (nodes p) - Z.to_nat from)%nat) as Hrl.
  { unfold rest, sub, blen. rewrite length_take, length_drop. unfold blen in Hfrom. lia. }
  rewrite Hrl. set (ns := take (Z.to_nat from) (nodes p) ++ replicate (length (nodes p) - Z.to_nat from) 0).
  assert (∀ i, 0 ≤ i → at_or0 ns i = if i <? from then at_or0 (nodes p) i else 0) as Hat
    by (intros; by apply at_truncated).
  assert (nodes_ok ns) as Hnok.
  { split.
    - unfold ns, blen. rewrite length_app, length_take, length_replicate. unfold blen in *. fsm_consts. lia.
    - apply Forall_app. split; [by apply Forall_take|]. apply Forall_replicate. done. }
  assert (∀ s, 0 ≤ s → leaf ns s = if s <? nslots then leaf (nodes p) s else 0) as Hleaf.
  { intros s Hs0. unfold leaf. rewrite Hat by (fsm_consts; lia).
    destruct (Z.ltb_spec (NON_LEAF_NODES_PER_PAGE + s) from), (Z.ltb_spec s nslots); unfold from in *; lia || done. }
  destruct (existsb (λ n, negb (n =? 0)) rest) eqn:E.
  - destruct (rebuild_spec (with_nodes ns p) Hnok) as (p' & -> & Hpok & Hpt & Hps & _).
    exists p'. split_and!; try done. intros s Hs0. unfold leaf in *. rewrite Hps by (fsm_consts; lia). by apply Hleaf.
  - assert (∀ i, 0 ≤ i → at_or0 ns i = at_or0 (nodes p) i) as Hsame.
    { intros i Hi. rewrite Hat by done. destruct (Z.ltb_spec i from); [done|].
      destruct (Z.lt_ge_cases i (blen (nodes p))) as [Hi'|]; [|by rewrite at_out].
      rewrite existsb_False in E. symmetry.
      assert (rest !! Z.to_nat (i - from) = nodes p !! Z.to_nat i) as Hlk.
      { unfold rest, sub, blen in *. rewrite lookup_take_lt by lia. rewrite lookup_drop. f_equal. lia. }
      unfold at_or0. rewrite bool_decide_true by done. rewrite <- Hlk.
      destruct (rest !! Z.to_nat (i - from)) as [x|] eqn:Ex; [|done]. apply list_elem_of_lookup_2, E in Ex. simpl.
      by apply negb_false_iff, Z.eqb_eq in Ex. }
    eexists. split; [done|]. cbn [nodes with_nodes]. split_and!; try done.
    intros n Hn. unfold node_ok. rewrite !Hsame by lia. by apply Ht.
Qed.

(** ** The free space map: the fork *)

(** ** Addresses *)

Definition valid_addr (a : Addr) : Prop :=
  (level a = 0 ∧ 0 ≤ logpageno a < SLOTS_PER_PAGE ^ 2) ∨
  (level a = 1 ∧ 0 ≤ logpageno a < SLOTS_PER_PAGE) ∨
  (level a = 2 ∧ logpageno a = 0).

Lemma physical_level0 l : physical {| level := 0; logpageno := l |} = l + l / SLOTS_PER_PAGE + l / SLOTS_PER_PAGE / SLOTS_PER_PAGE + 2.
Proof. unfold physical, first_leaf. cbn -[SLOTS_PER_PAGE Z.add Z.div Z.mul Z.pow Z.sub]. rewrite Z.mul_1_r. lia. Qed.

Lemma physical_level1 l : 0 ≤ l < SLOTS_PER_PAGE →
  physical {| level := 1; logpageno := l |} = l * SLOTS_PER_PAGE + l + 1.
Proof.
  intros Hl. unfold physical, first_leaf. cbn -[SLOTS_PER_PAGE Z.add Z.div Z.mul Z.pow Z.sub].
  rewrite Z.pow_1_r, Z.div_mul by done. rewrite (Z.div_small l) by done. lia.
Qed.

Lemma physical_root : physical ROOT = 0.
Proof. done. Qed.

Lemma physical_inj a b : valid_addr a → valid_addr b → physical a = physical b → a = b.
Proof.
  assert (∀ l m, 0 ≤ l < m → l + l / SLOTS_PER_PAGE + l / SLOTS_PER_PAGE / SLOTS_PER_PAGE <
    m + m / SLOTS_PER_PAGE + m / SLOTS_PER_PAGE / SLOTS_PER_PAGE) as Hmono.
  { intros l m Hlm. pose proof (Z.div_le_mono l m SLOTS_PER_PAGE ltac:(done) ltac:(lia)).
    pose proof (Z.div_le_mono _ _ SLOTS_PER_PAGE ltac:(done) H). lia. }
  assert (∀ l q, 0 ≤ l < SLOTS_PER_PAGE ^ 2 → 0 ≤ q < SLOTS_PER_PAGE →
    l + l / SLOTS_PER_PAGE + l / SLOTS_PER_PAGE / SLOTS_PER_PAGE + 2 ≠ q * SLOTS_PER_PAGE + q + 1) as H01.
  { intros l q Hl Hq. rewrite (Z.div_small (l / SLOTS_PER_PAGE)).
    - pose proof (Z.div_mod l SLOTS_PER_PAGE ltac:(done)). pose proof (Z.mod_pos_bound l SLOTS_PER_PAGE ltac:(done)).
      fsm_consts. set (d := l / 4069) in *. intros E. lia.
    - split; [apply Z.div_pos; [lia|done]|]. apply Z.div_lt_upper_bound; [done|]. lia. }
  destruct a as [la a], b as [lb b]. unfold valid_addr. cbn [level logpageno].
  intros [[-> Ha]|[[-> Ha]|[-> ->]]] [[-> Hb]|[[-> Hb]|[-> ->]]];
    rewrite ?physical_level0, ?physical_level1 by done; change {| level := 2; logpageno := 0 |} with ROOT;
    rewrite ?physical_root; intros E.
  - f_equal. destruct (Z.lt_trichotomy a b) as [H|[H|H]]; [pose proof (Hmono a b)|done|pose proof (Hmono b a)]; lia.
  - by apply H01 in E.
  - pose proof (Z.div_pos a SLOTS_PER_PAGE). pose proof (Z.div_pos (a / SLOTS_PER_PAGE) SLOTS_PER_PAGE). fsm_consts. lia.
  - symmetry in E. by apply H01 in E.
  - f_equal. fsm_consts. lia.
  - fsm_consts. lia.
  - pose proof (Z.div_pos b SLOTS_PER_PAGE). pose proof (Z.div_pos (b / SLOTS_PER_PAGE) SLOTS_PER_PAGE). fsm_consts. lia.
  - fsm_consts. lia.
  - done.
Qed.

Lemma physical_nonneg a : valid_addr a → 0 ≤ physical a.
Proof.
  destruct a as [la a]. unfold valid_addr. cbn [level logpageno].
  intros [[-> Ha]|[[-> Ha]|[-> ->]]]; rewrite ?physical_level0, ?physical_level1 by done; [|fsm_consts; lia|done].
  pose proof (Z.div_pos a SLOTS_PER_PAGE). pose proof (Z.div_pos (a / SLOTS_PER_PAGE) SLOTS_PER_PAGE). fsm_consts. lia.
Qed.

Lemma location_valid b : u32_ok b → valid_addr (location b).1 ∧ 0 ≤ (location b).2 < SLOTS_PER_PAGE.
Proof.
  unfold u32_ok. intros Hb. split.
  - left. cbn [location fst level logpageno]. split; [done|]. fsm_consts. Z.to_euclidean_division_equations. lia.
  - cbn [location snd]. by apply Z.mod_pos_bound.
Qed.

Lemma heap_blk_location b : heap_blk (location b).1 (location b).2 = b.
Proof. unfold heap_blk, location. cbn [fst snd logpageno]. fsm_consts. Z.to_euclidean_division_equations. lia. Qed.

Lemma location_heap_blk l s :
  0 ≤ s < SLOTS_PER_PAGE → location (heap_blk {| level := 0; logpageno := l |} s) = ({| level := 0; logpageno := l |}, s).
Proof.
  intros Hs. unfold heap_blk, location. cbn [logpageno]. f_equal; [f_equal|].
  - rewrite Z.add_comm, Z.div_add, Z.div_small by done. done.
  - rewrite Z.add_comm, Z.mod_add, Z.mod_small by done. done.
Qed.

Lemma parent_valid a : valid_addr a → level a ≠ 2 → valid_addr (parent a).1 ∧ 0 ≤ (parent a).2 < SLOTS_PER_PAGE.
Proof.
  destruct a as [l n]. unfold valid_addr. cbn [parent fst snd level logpageno]. intros Hv Hl. split.
  - destruct Hv as [[-> Hv]|[[-> Hv]|[-> _]]]; [| |done].
    + right. left. split; [done|]. fsm_consts. Z.to_euclidean_division_equations. lia.
    + right. right. split; [done|]. by apply Z.div_small.
  - by apply Z.mod_pos_bound.
Qed.

Lemma child_valid a s : valid_addr a → level a ≠ 0 → 0 ≤ s < SLOTS_PER_PAGE → valid_addr (child a s).
Proof.
  destruct a as [l n]. unfold valid_addr. cbn [child level logpageno]. intros [[-> Hv]|[[-> Hv]|[-> ->]]] Hl Hs; [done| |].
  - left. split; [done|]. fsm_consts. nia.
  - right. left. split; [done|]. lia.
Qed.

(** [child] and [parent] are inverse, so the page [search] corrects is the one
    it came from. *)
Lemma parent_child a s : 0 ≤ s < SLOTS_PER_PAGE → parent (child a s) = (a, s).
Proof.
  intros Hs. destruct a as [l n]. unfold parent, child. cbn [level logpageno]. f_equal; [f_equal|].
  - lia.
  - rewrite Z.add_comm, Z.div_add, Z.div_small by done. done.
  - rewrite Z.add_comm, Z.mod_add, Z.mod_small by done. done.
Qed.

(** ** The abstract state *)

Definition page_ok (p : FsmPage) : Prop := nodes_ok (nodes p) ∧ tree (nodes p).

Definition fsm_ok (f : Fsm) : Prop :=
  0 ≤ nblocks f ∧ ∀ b p, pages f !! b = Some p → b < nblocks f ∧ page_ok p.

(** The leaf of a page, 0 where the fork has no page. *)
Definition slot_of (f : Fsm) (b s : Z) : Z := from_option (λ p, leaf (nodes p) s) 0 (pages f !! b).

(** The category recorded for a heap block. *)
Definition fsm_cat (f : Fsm) (heapblk : Z) : Z :=
  slot_of f (physical (location heapblk).1) (location heapblk).2.

Lemma new_page_ok : page_ok new_page.
Proof.
  split; [split|].
  - unfold blen. cbn [new_page nodes]. rewrite length_replicate. fsm_consts. lia.
  - cbn [new_page nodes]. apply Forall_replicate. done.
  - intros n Hn. unfold node_ok. cbn [new_page nodes]. by rewrite !at_replicate.
Qed.

Lemma leaf_new_page s : leaf (nodes new_page) s = 0.
Proof. apply at_replicate. Qed.

(** [f'] has the leaves of [f] except at slot [s] of page [b], which is [v]. *)
Definition updates (f f' : Fsm) (b s v : Z) : Prop :=
  ∀ b' s', 0 ≤ s' → slot_of f' b' s' = if (b' =? b) && (s' =? s) then v else slot_of f b' s'.

Definition same_slots (f f' : Fsm) : Prop := ∀ b s, 0 ≤ s → slot_of f' b s = slot_of f b s.

#[export] Instance same_slots_equiv : PreOrder same_slots.
Proof. split; [done|]. intros f g h H1 H2 b s Hs. by rewrite H2, H1. Qed.

Lemma page_spec a ext f :
  valid_addr a → fsm_ok f →
  match page a ext f with
  | (None, f') => f' = f ∧ ext = false ∧ nblocks f ≤ physical a
  | (Some (b, p), f') => b = physical a ∧ page_ok p ∧ fsm_ok f' ∧ b < nblocks f' ∧ pages f' !! b = Some p ∧
      (∀ s, leaf (nodes p) s = slot_of f b s) ∧ same_slots f f' ∧ nblocks f ≤ nblocks f'
  end.
Proof.
  intros Ha [Hnb Hf]. pose proof (physical_nonneg a Ha) as Hp. unfold page.
  destruct (Z.leb_spec (nblocks f) (physical a)) as [Hle|Hgt], ext; cbn [andb negb]; try done.
  all: set (p := default new_page (pages f !! physical a)); assert (page_ok p) as Hpok
    by (unfold p; destruct (pages f !! physical a) eqn:E; [by apply (Hf _ _ E)|apply new_page_ok]).
  all: split_and!; cbn [nblocks pages]; try done; try lia; try (by rewrite lookup_insert_eq).
  all: try (split; cbn [nblocks pages]; [lia|]; intros b q; rewrite lookup_insert; case_decide; [intros [= <-]; subst b; split; [lia|done]|];
    intros Hq; destruct (Hf _ _ Hq); split; [lia|done]).
  all: try (intros s; unfold slot_of, p; destruct (pages f !! physical a); [done|apply leaf_new_page]).
  all: intros b s _; unfold slot_of; cbn [pages]; rewrite lookup_insert; case_decide as E; [subst b|done].
  all: unfold p; destruct (pages f !! physical a); [done|apply leaf_new_page].
Qed.

Lemma put_spec b p q f :
  fsm_ok f → b < nblocks f → pages f !! b = Some p → page_ok q →
  fsm_ok (put b q f) ∧ nblocks (put b q f) = nblocks f ∧
  ∀ b' s, slot_of (put b q f) b' s = if b' =? b then leaf (nodes q) s else slot_of f b' s.
Proof.
  intros [Hnb Hf] Hb Hp Hq. split_and!; [split; [done|]|done|].
  - intros b' q'. cbn [pages nblocks put]. rewrite lookup_insert. case_decide as E; [intros [= <-]; by subst|apply Hf].
  - intros b' s. unfold slot_of. cbn [pages put]. rewrite lookup_insert.
    destruct (Z.eqb_spec b' b) as [->|Hn]; [by rewrite decide_True|by rewrite decide_False].
Qed.

(** A page read and put back with one slot set. *)
Lemma put_page_spec a ext f b p f1 q s v :
  valid_addr a → fsm_ok f → page a ext f = (Some (b, p), f1) → page_ok q →
  (∀ s', 0 ≤ s' → leaf (nodes q) s' = if s' =? s then v else leaf (nodes p) s') →
  fsm_ok (put b q f1) ∧ nblocks f ≤ nblocks (put b q f1) ∧ updates f (put b q f1) (physical a) s v.
Proof.
  intros Ha Hf Ep Hq Hs. pose proof (page_spec a ext f Ha Hf) as Hp. rewrite Ep in Hp.
  destruct Hp as (-> & Hpok & Hf1 & Hb & Hlk & Hleaf & Hsame & Hnb).
  destruct (put_spec (physical a) p q f1 Hf1 Hb Hlk Hq) as (H1 & H2 & H3). split_and!; [done|lia|].
  intros b' s' Hs'. rewrite H3. destruct (Z.eqb_spec b' (physical a)) as [->|]; cbn [andb].
  - rewrite Hs by done. by rewrite Hleaf.
  - by apply Hsame.
Qed.

(** A page read and put back with the leaves it had. *)
Lemma put_same_spec a ext f b p f1 q :
  valid_addr a → fsm_ok f → page a ext f = (Some (b, p), f1) → page_ok q → nodes q = nodes p →
  fsm_ok (put b q f1) ∧ nblocks f ≤ nblocks (put b q f1) ∧ same_slots f (put b q f1) ∧
  ∀ s, slot_of (put b q f1) (physical a) s = leaf (nodes p) s.
Proof.
  intros Ha Hf Ep Hq Hn. pose proof (page_spec a ext f Ha Hf) as Hp. rewrite Ep in Hp.
  destruct Hp as (-> & Hpok & Hf1 & Hb & Hlk & Hleaf & Hsame & Hnb).
  destruct (put_spec (physical a) p q f1 Hf1 Hb Hlk Hq) as (H1 & H2 & H3). split_and!; [done|lia| |].
  - intros b' s' Hs'. rewrite H3, Hn. destruct (Z.eqb_spec b' (physical a)) as [->|]; [apply Hleaf|by apply Hsame].
  - intros s. by rewrite H3, Z.eqb_refl, Hn.
Qed.

(** ** Setting a slot *)

(** [page_ok] pages keep their nodes when searched. *)
Lemma search_result_ok minv adv p r p' : page_ok p → search_result minv adv p r p' → page_ok p' ∧ nodes p' = nodes p.
Proof. intros [Hok Ht] [H1 _ _ H4 _]. unfold page_ok. by rewrite H4. Qed.

Lemma set_page_avail s v p :
  page_ok p → 0 ≤ s < SLOTS_PER_PAGE → is_byte v →
  ∃ c q, set_avail s v p = Ok (c, q) ∧ page_ok q ∧ next_slot q = next_slot p ∧
    ∀ s', 0 ≤ s' → leaf (nodes q) s' = if s' =? s then v else leaf (nodes p) s'.
Proof.
  intros [Hok Ht] Hs Hv. destruct (set_avail_spec s v p Hok Ht Hs Hv) as (c & q & E & H1 & H2 & H3 & H4).
  by exists c, q.
Qed.

Lemma set_and_search_spec a s v minv f :
  valid_addr a → 0 ≤ s < SLOTS_PER_PAGE → is_byte v → 0 ≤ minv → fsm_ok f →
  ∃ r f', set_and_search a s v minv f = Ok (r, f') ∧ fsm_ok f' ∧ nblocks f ≤ nblocks f' ∧
    updates f f' (physical a) s v ∧ (minv = 0 → r = None) ∧
    ∀ s', r = Some s' → 0 ≤ s' < SLOTS_PER_PAGE ∧ minv ≤ slot_of f' (physical a) s'.
Proof.
  intros Ha Hs Hv Hm Hf. unfold set_and_search. pose proof (page_spec a true f Ha Hf) as Hp.
  destruct (page a true f) as [[[b p]|] f1] eqn:Ep; [|by destruct Hp as (_ & [=] & _)].
  destruct Hp as (-> & Hpok & Hf1 & Hb & Hlk & _).
  destruct (set_page_avail s v p Hpok Hs Hv) as (c & q & -> & Hq & _ & Hqs). cbn [mbind outcome_bind snd].
  destruct (Z.eqb_spec minv 0) as [->|Hm0]; cbn [negb].
  - destruct (put_page_spec a true f _ p f1 q s v Ha Hf Ep Hq Hqs) as (H1 & H2 & H3). by eexists _, _.
  - destruct (search_avail_spec minv (level a =? BOTTOM_LEVEL) q (proj1 Hq) ltac:(lia)) as (r & q' & -> & Hr).
    cbn [mbind outcome_bind fst snd]. destruct (search_result_ok _ _ _ _ _ Hq Hr) as [Hq'p Hq'n].
    destruct (put_page_spec a true f _ p f1 q' s v Ha Hf Ep Hq'p ltac:(by rewrite Hq'n)) as (H1 & H2 & H3).
    eexists _, _. split; [done|]. split_and!; try done.
    intros s' Es. destruct (sr_slot _ _ _ _ _ Hr s' Es) as (Hs1 & Hs2 & _). split; [done|].
    destruct (put_spec (physical a) p q' f1 Hf1 Hb Hlk Hq'p) as (_ & _ & H4). by rewrite H4, Z.eqb_refl, Hq'n.
Qed.

(** Setting a slot of an upper level leaves the recorded categories. *)
Lemma updates_upper f f' a s v :
  valid_addr a → level a ≠ 0 → updates f f' (physical a) s v → ∀ b, u32_ok b → fsm_cat f' b = fsm_cat f b.
Proof.
  intros Ha Hl Hu b Hb. unfold fsm_cat. destruct (location_valid b Hb) as [Hv Hs].
  rewrite Hu by lia. destruct (Z.eqb_spec (physical (location b).1) (physical a)) as [E|]; [|done].
  apply physical_inj in E; [|done..]. by rewrite <- E in Hl.
Qed.

(** Setting a slot of the bottom level sets the category of its block. *)
Lemma updates_bottom f f' n s v :
  let a := {| level := 0; logpageno := n |} in
  valid_addr a → 0 ≤ s < SLOTS_PER_PAGE → updates f f' (physical a) s v →
  ∀ b, u32_ok b → fsm_cat f' b = if b =? heap_blk a s then v else fsm_cat f b.
Proof.
  cbv zeta. intros Ha Hs Hu b Hb. unfold fsm_cat. destruct (location_valid b Hb) as [Hv Hsl].
  rewrite Hu by lia. destruct (Z.eqb_spec b (heap_blk {| level := 0; logpageno := n |} s)) as [->|Hn].
  - rewrite location_heap_blk by done. cbn [fst snd]. by rewrite !Z.eqb_refl.
  - destruct (Z.eqb_spec (physical (location b).1) (physical {| level := 0; logpageno := n |})) as [E|]; [|done].
    apply physical_inj in E; [|done..]. cbn [andb]. destruct (Z.eqb_spec (location b).2 s) as [E2|]; [|done].
    exfalso. apply Hn. rewrite <- (heap_blk_location b). by rewrite E, E2.
Qed.

Lemma same_slots_cat f f' : same_slots f f' → ∀ b, u32_ok b → fsm_cat f' b = fsm_cat f b.
Proof. intros H b Hb. unfold fsm_cat. apply H. pose proof (location_valid b Hb). lia. Qed.

(** ** Searching *)

(** The categories below the relation's end are kept. *)
Definition keeps (heap_blocks : Z) (f f' : Fsm) : Prop :=
  fsm_ok f' ∧ nblocks f ≤ nblocks f' ∧ ∀ b, u32_ok b → b < heap_blocks → fsm_cat f' b = fsm_cat f b.

Lemma keeps_refl hb f : fsm_ok f → keeps hb f f.
Proof. intros. by split_and!. Qed.

Lemma keeps_trans hb f g h : keeps hb f g → keeps hb g h → keeps hb f h.
Proof. intros (_ & H1 & H2) (H3 & H4 & H5). split_and!; [done|lia|]. intros b Hb Hlt. by rewrite H5, H2. Qed.

Lemma forget_slot_spec n s hb f :
  let a := {| level := 0; logpageno := n |} in
  valid_addr a → 0 ≤ s < SLOTS_PER_PAGE → hb ≤ heap_blk a s → fsm_ok f →
  ∃ f', forget_slot a s f = Ok f' ∧ keeps hb f f'.
Proof.
  cbv zeta. intros Ha Hs Hge Hf. unfold forget_slot. pose proof (page_spec _ false f Ha Hf) as Hp.
  destruct (page {| level := 0; logpageno := n |} false f) as [[[b p]|] f1] eqn:Ep.
  - destruct Hp as (-> & Hpok & _). destruct (set_page_avail s 0 p Hpok Hs ltac:(done)) as (c & q & -> & Hq & _ & Hqs).
    cbn [mbind outcome_bind snd]. destruct (put_page_spec _ false f _ p f1 q s 0 Ha Hf Ep Hq Hqs) as (H1 & H2 & H3).
    eexists. split; [done|]. split_and!; [done..|]. intros b Hb Hlt.
    rewrite (updates_bottom f _ n s 0 Ha Hs H3 b Hb). destruct (Z.eqb_spec b (heap_blk {| level := 0; logpageno := n |} s)); [lia|done].
  - destruct Hp as (-> & _ & _). eexists. split; [done|by apply keeps_refl].
Qed.

Definition restarts_left (restarts : Z) (addr : Addr) : Z := 3 * (10000 - restarts) + level addr.

(** What a round may do: answer a block that has the category asked for, give
    up, go a level down, or start again with one restart less. *)
Definition step_ok (minv hb : Z) (a : Addr) (restarts : Z) (f : Fsm) (st : search_step) : Prop :=
  match st with
  | Done (Some b) => 0 ≤ b < hb ∧ minv ≤ fsm_cat f b
  | Done None => True
  | Again a' restarts' => valid_addr a' ∧ 0 ≤ restarts' ≤ 10000 ∧ restarts_left restarts' a' < restarts_left restarts a
  end.

Lemma restart_ok minv hb a restarts f :
  valid_addr a → 0 ≤ restarts ≤ 10000 → step_ok minv hb a restarts f (restart restarts).
Proof.
  intros Ha Hr. unfold restart. destruct (Z.ltb_spec 10000 (restarts + 1)); [done|].
  cbn [step_ok]. split_and!; [right; right; done|lia..|]. unfold restarts_left. cbn [ROOT level].
  unfold ROOT_LEVEL. unfold valid_addr in Ha. lia.
Qed.

Lemma search_next_spec minv hb a restarts r mx f :
  valid_addr a → fsm_ok f → 0 ≤ restarts ≤ 10000 → is_byte mx →
  (∀ s, r = Some s → 0 ≤ s < SLOTS_PER_PAGE ∧ minv ≤ slot_of f (physical a) s) →
  ∃ st f', search_next hb a restarts r mx f = Ok (st, f') ∧ keeps hb f f' ∧ step_ok minv hb a restarts f' st.
Proof.
  intros Ha Hf Hr Hmx Hs. unfold search_next. destruct r as [s|].
  - destruct (Hs s eq_refl) as [Hsr Hv]. unfold BOTTOM_LEVEL. destruct (Z.eqb_spec (level a) 0) as [Hl|Hl].
    + destruct a as [la n]. cbn [level] in Hl. subst la. cbv zeta.
      destruct (Z.ltb_spec (heap_blk {| level := 0; logpageno := n |} s) hb) as [Hlt|Hge].
      * eexists _, _. split; [done|]. split; [by apply keeps_refl|]. split.
        { split; [|done]. unfold heap_blk. cbn [logpageno]. unfold valid_addr in Ha. cbn [level logpageno] in Ha. fsm_consts. lia. }
        unfold fsm_cat. by rewrite location_heap_blk.
      * destruct (forget_slot_spec n s hb f Ha Hsr Hge Hf) as (f' & -> & Hk). eexists _, _. split; [done|].
        split; [done|]. by apply restart_ok.
    + eexists _, _. split; [done|]. split; [by apply keeps_refl|]. cbn [step_ok].
      split_and!; [by apply child_valid|lia..|]. unfold restarts_left. cbn [child level]. lia.
  - unfold ROOT_LEVEL. destruct (Z.eqb_spec (level a) 2) as [Hl|Hl].
    { eexists _, _. split; [done|]. split; [by apply keeps_refl|done]. }
    cbv zeta. destruct (parent_valid a Ha Hl) as [Hpv Hps].
    destruct (set_and_search_spec (parent a).1 (parent a).2 mx 0 f Hpv Hps Hmx ltac:(lia) Hf)
      as (r & f2 & -> & Hf2 & Hnb2 & Hu & _).
    cbn [mbind outcome_bind snd]. eexists _, _. split; [done|]. split; [|by apply restart_ok].
    split_and!; [done..|]. intros b Hb _. apply (updates_upper f f2 (parent a).1 (parent a).2 mx); [done| |done|done].
    cbn [parent fst level]. unfold valid_addr in Ha. lia.
Qed.

Lemma search_round_spec minv hb a restarts f :
  1 ≤ minv → valid_addr a → fsm_ok f → 0 ≤ restarts ≤ 10000 →
  ∃ st f', search_round minv hb a restarts f = Ok (st, f') ∧ keeps hb f f' ∧ step_ok minv hb a restarts f' st.
Proof.
  intros Hm Ha Hf Hr. unfold search_round. pose proof (page_spec a false f Ha Hf) as Hp.
  destruct (page a false f) as [[[b p]|] f1] eqn:Ep.
  - destruct Hp as (-> & Hpok & _).
    destruct (search_avail_spec minv (level a =? BOTTOM_LEVEL) p (proj1 Hpok) Hm) as (r & q & -> & Hq).
    cbn [mbind outcome_bind fst snd]. destruct (search_result_ok _ _ _ _ _ Hpok Hq) as [Hqok Hqn].
    destruct (put_same_spec a false f _ p f1 q Ha Hf Ep Hqok Hqn) as (H1 & H2 & H3 & H4).
    rewrite index_at by (destruct Hqok as [[-> _] _]; fsm_consts; lia). cbn [mbind outcome_bind].
    destruct (search_next_spec minv hb a restarts r (at_or0 (nodes q) 0) (put (physical a) q f1))
      as (st & f' & -> & Hk & Hst); [done..| | |].
    + apply at_byte. apply Hqok.
    + intros s Hs. destruct (sr_slot _ _ _ _ _ Hq s Hs) as (Hs1 & Hs2 & _). by rewrite H4.
    + exists st, f'. split_and!; try done; apply (keeps_trans hb f (put (physical a) q f1)); try done;
        (split_and!; [done..|]; intros; by apply same_slots_cat).
  - destruct Hp as (-> & _ & _). apply search_next_spec; done.
Qed.

Lemma search_loop_spec fuel minv hb a restarts f :
  1 ≤ minv → valid_addr a → fsm_ok f → 0 ≤ restarts ≤ 10000 → restarts_left restarts a < Z.of_nat fuel →
  ∃ r f', search_loop fuel minv hb a restarts f = Ok (r, f') ∧ keeps hb f f' ∧
    ∀ b, r = Some b → 0 ≤ b < hb ∧ minv ≤ fsm_cat f' b.
Proof.
  intros Hm. revert a restarts f. induction fuel as [|fuel IH]; intros a restarts f Ha Hf Hr Hfuel.
  { unfold restarts_left, valid_addr in *. lia. }
  cbn [search_loop]. destruct (search_round_spec minv hb a restarts f Hm Ha Hf Hr) as (st & f1 & -> & Hk & Hst).
  cbn [mbind outcome_bind fst snd]. destruct st as [r|a' restarts'].
  - exists r, f1. split_and!; try done; try apply Hk. all: intros b ->; apply Hst.
  - destruct Hst as (Ha' & Hr' & Hlt). destruct (IH a' restarts' f1 Ha' (proj1 Hk) Hr') as (r & f' & -> & Hk' & Hres); [lia|].
    exists r, f'. split; [done|]. split; [by apply (keeps_trans hb f f1)|done].
Qed.

Lemma search_spec minv hb f :
  1 ≤ minv → fsm_ok f →
  ∃ r f', search minv hb f = Ok (r, f') ∧ keeps hb f f' ∧ ∀ b, r = Some b → 0 ≤ b < hb ∧ minv ≤ fsm_cat f' b.
Proof.
  intros Hm Hf. apply search_loop_spec; [done| |done|lia|].
  - right. right. done.
  - unfold restarts_left. cbn [ROOT level]. unfold ROOT_LEVEL. lia.
Qed.

(** ** VACUUM *)

(** Every recorded category is kept. *)
Definition keeps_all (f f' : Fsm) : Prop :=
  fsm_ok f' ∧ nblocks f ≤ nblocks f' ∧ ∀ b, u32_ok b → fsm_cat f' b = fsm_cat f b.

Lemma keeps_all_refl f : fsm_ok f → keeps_all f f.
Proof. intros. by split_and!. Qed.

Lemma keeps_all_trans f g h : keeps_all f g → keeps_all g h → keeps_all f h.
Proof. intros (_ & H1 & H2) (H3 & H4 & H5). split_and!; [done|lia|]. intros b Hb. by rewrite H5, H2. Qed.

Lemma climb_to_slots fuel lvl fs fe :
  0 ≤ fs.2 < SLOTS_PER_PAGE → 0 ≤ fe.2 < SLOTS_PER_PAGE →
  0 ≤ (climb_to fuel lvl fs fe).1.2 < SLOTS_PER_PAGE ∧ 0 ≤ (climb_to fuel lvl fs fe).2.2 < SLOTS_PER_PAGE.
Proof.
  revert fs fe. induction fuel as [|fuel IH]; intros fs fe H1 H2; cbn [climb_to]; [done|].
  destruct (level fs.1 <? lvl); [|done]. apply IH; cbn [parent snd]; by apply Z.mod_pos_bound.
Qed.

Lemma slot_range_bounds a start end_ :
  0 ≤ (slot_range a start end_).1 ∧ (slot_range a start end_).2 < SLOTS_PER_PAGE.
Proof.
  unfold slot_range.
  destruct (climb_to_slots 3 (level a) (location start) (location (end_ - 1))) as [H1 H2];
    [by apply Z.mod_pos_bound..|].
  destruct (climb_to _ _ _ _) as [[fs s1] [fe s2]]. cbn [fst snd] in *. split.
  - destruct (logpageno fs ?= logpageno a); fsm_consts; lia.
  - destruct (logpageno fe ?= logpageno a); fsm_consts; lia.
Qed.

Lemma vacuum_slots_spec vc fuel a slot end_slot eof f :
  (∀ c g, valid_addr c → level c = level a - 1 → fsm_ok g →
    ∃ x e g', vc c g = Ok (x, e, g') ∧ is_byte x ∧ keeps_all g g') →
  valid_addr a → level a ≠ 0 → fsm_ok f → physical a < nblocks f → 0 ≤ slot → end_slot < SLOTS_PER_PAGE →
  end_slot - slot < Z.of_nat fuel →
  ∃ f', vacuum_slots vc fuel a slot end_slot eof f = Ok f' ∧ keeps_all f f'.
Proof.
  intros Hvc Ha Hl. revert slot eof f. induction fuel as [|fuel IH]; intros slot eof f Hf Hp Hs He Hfuel;
    cbn [vacuum_slots]; (destruct (Z.leb_spec slot end_slot); [|eexists; split; [done|by apply keeps_all_refl]]); [lia|].
  assert (∃ x e g, (if eof then Ok (0, true, f) else x ← vc (child a slot) f; Ok (x.1.1, x.1.2, x.2)) = @Ok Empty_set _ (x, e, g) ∧
    is_byte x ∧ keeps_all f g) as (x & e & g & -> & Hx & Hk).
  { destruct eof; [eexists _, _, _; split; [done|]; split; [done|by apply keeps_all_refl]|].
    destruct (Hvc (child a slot) f) as (x & e & g & -> & Hx & Hk);
      [apply child_valid; try done; lia|done|done|]. by exists x, e, g. }
  cbn [mbind outcome_bind]. pose proof Hk as (Hg & Hnb & _). pose proof (page_spec a false g Ha Hg) as Hpg.
  destruct (page a false g) as [[[b p]|] g1] eqn:Ep; [|lia].
  destruct Hpg as (-> & Hpok & Hg1 & Hb & _ & _ & Hsame & Hnb1).
  assert (keeps_all g g1) as Hk1 by (split_and!; [done..|]; intros; by apply same_slots_cat).
  unfold get_avail. rewrite index_at by (destruct Hpok as [[-> _] _]; fsm_consts; lia). cbn [mbind outcome_bind].
  destruct (Z.eqb_spec (at_or0 (nodes p) (NON_LEAF_NODES_PER_PAGE + slot)) x) as [Ex|Hne]; cbn [negb].
  - cbn [mbind outcome_bind]. destruct (IH (slot + 1) e g1 Hg1) as (f' & Ef & Hk'); [lia..|].
    exists f'. split; [exact Ef|]. eauto using keeps_all_trans.
  - destruct (set_page_avail slot x p Hpok ltac:(lia) Hx) as (c & q & -> & Hq & _ & Hqs). cbn [mbind outcome_bind snd].
    destruct (put_page_spec a false g _ p g1 q slot x Ha Hg Ep Hq Hqs) as (H1 & H2 & H3).
    destruct (IH (slot + 1) e (put (physical a) q g1) H1) as (f' & Ef & Hk'); [cbn [nblocks put] in *; lia..|].
    exists f'. split; [exact Ef|]. apply (keeps_all_trans f g); [done|].
    apply (keeps_all_trans g (put (physical a) q g1)); [|done]. split_and!; [done..|].
    intros b Hb'. by apply (updates_upper g (put (physical a) q g1) a slot x).
Qed.

Lemma vacuum_page_spec fuel a start end_ f :
  valid_addr a → level a < Z.of_nat fuel → fsm_ok f →
  ∃ x e f', vacuum_page fuel a start end_ f = Ok (x, e, f') ∧ is_byte x ∧ keeps_all f f'.
Proof.
  revert a f. induction fuel as [|fuel IH]; intros a f Ha Hl Hf; [unfold valid_addr in Ha; lia|].
  cbn [vacuum_page]. pose proof (page_spec a false f Ha Hf) as Hp.
  destruct (page a false f) as [[[b p]|] f1] eqn:Ep.
  2: { destruct Hp as (-> & _ & _). eexists _, _, _. split; [done|]. split; [done|by apply keeps_all_refl]. }
  destruct Hp as (-> & Hpok & Hf1 & Hb & _ & _ & Hsame & Hnb).
  assert (keeps_all f f1) as Hk1 by (split_and!; [done..|]; intros; by apply same_slots_cat).
  assert (∃ f2, (if BOTTOM_LEVEL <? level a then
      vacuum_slots (λ a f, vacuum_page fuel a start end_ f) (Z.to_nat SLOTS_PER_PAGE) a
        (slot_range a start end_).1 (slot_range a start end_).2 false f1
      else Ok f1) = Ok f2 ∧ keeps_all f1 f2) as (f2 & E2 & Hk2).
  { unfold BOTTOM_LEVEL. destruct (Z.ltb_spec 0 (level a)); [|eexists; split; [done|by apply keeps_all_refl]].
    pose proof (slot_range_bounds a start end_).
    apply vacuum_slots_spec; try done; try lia.
    intros c g Hc Hlc Hg. apply IH; [done|lia|done]. }
  cbv zeta. rewrite E2. cbn [mbind outcome_bind]. pose proof Hk2 as (Hf2 & Hnb2 & _).
  pose proof (page_spec a false f2 Ha Hf2) as Hp2. destruct (page a false f2) as [[[b' p']|] f3] eqn:Ep2; [|lia].
  destruct Hp2 as (-> & Hpok2 & _). rewrite index_at by (destruct Hpok2 as [[-> _] _]; fsm_consts; lia). cbn [mbind outcome_bind].
  destruct (put_same_spec a false f2 _ p' f3 {| nodes := nodes p'; next_slot := 0 |} Ha Hf2 Ep2 Hpok2 eq_refl) as (H1 & H2 & H3 & _).
  eexists _, _, _. split; [done|]. split; [apply at_byte, Hpok2|].
  apply (keeps_all_trans f f1); [done|]. apply (keeps_all_trans f1 f2); [done|]. split_and!; [done..|].
  intros; by apply same_slots_cat.
Qed.

(** ** Truncation *)

Lemma physical_bottom_mono l m :
  0 ≤ l < m → physical {| level := 0; logpageno := l |} < physical {| level := 0; logpageno := m |}.
Proof.
  intros Hlm. rewrite !physical_level0. pose proof (Z.div_le_mono l m SLOTS_PER_PAGE ltac:(done) ltac:(lia)) as H.
  pose proof (Z.div_le_mono _ _ SLOTS_PER_PAGE ltac:(done) H). lia.
Qed.

(** Where a block lies from the block [n] on. *)
Lemma location_order b n :
  u32_ok b → u32_ok n →
  let pb := physical (location b).1 in let pn := physical (location n).1 in
  (b < n → pb < pn ∨ (pb = pn ∧ (location b).2 < (location n).2)) ∧
  (n ≤ b → pn < pb ∨ (pb = pn ∧ (location n).2 ≤ (location b).2)).
Proof.
  unfold u32_ok. intros Hb Hn. cbv zeta. unfold location. cbn [fst snd].
  pose proof (Z.div_mod b SLOTS_PER_PAGE ltac:(done)). pose proof (Z.div_mod n SLOTS_PER_PAGE ltac:(done)).
  pose proof (Z.mod_pos_bound b SLOTS_PER_PAGE ltac:(done)). pose proof (Z.mod_pos_bound n SLOTS_PER_PAGE ltac:(done)).
  pose proof (Z.div_pos b SLOTS_PER_PAGE ltac:(lia) ltac:(done)). pose proof (Z.div_pos n SLOTS_PER_PAGE ltac:(lia) ltac:(done)).
  unfold BOTTOM_LEVEL. set (lb := b / SLOTS_PER_PAGE) in *. set (ln := n / SLOTS_PER_PAGE) in *.
  split; intros Hlt; (destruct (Z.lt_trichotomy lb ln) as [H'|[H'|H']]; [pose proof (physical_bottom_mono lb ln)|rewrite H'|pose proof (physical_bottom_mono ln lb)]; fsm_consts; lia).
Qed.

Lemma truncate_page_spec n f :
  u32_ok n → fsm_ok f →
  ∃ f', (f ← match page (location n).1 false f with
             | (Some (b, p), f) => p ← truncate_avail (location n).2 p; Ok (put b p f)
             | (None, f) => Ok f
             end; Ok (physical (location n).1 + 1, f)) = @Ok Empty_set _ (physical (location n).1 + 1, f') ∧ fsm_ok f' ∧
    ∀ b, u32_ok b → fsm_cat f' b =
      if bool_decide (physical (location b).1 = physical (location n).1 ∧ (location n).2 ≤ (location b).2) then 0 else fsm_cat f b.
Proof.
  intros Hn Hf. destruct (location_valid n Hn) as [Ha Hs]. set (a := (location n).1) in *. set (s := (location n).2) in *.
  pose proof (page_spec a false f Ha Hf) as Hp. destruct (page a false f) as [[[b p]|] f1] eqn:Ep.
  - destruct Hp as (-> & Hpok & Hf1 & Hb & Hlk & Hleaf & Hsame & _).
    destruct (truncate_avail_spec s p) as (q & -> & Hq1 & Hq2 & Hq); [apply Hpok..|lia|]. cbn [mbind outcome_bind].
    destruct (put_spec (physical a) p q f1 Hf1 Hb Hlk (conj Hq1 Hq2)) as (H1 & _ & H3).
    eexists. split_and!; [done..|]. intros b Hb'. unfold fsm_cat. pose proof (location_valid b Hb') as [_ Hbs].
    rewrite H3. destruct (Z.eqb_spec (physical (location b).1) (physical a)) as [E|E].
    + rewrite Hq by lia. destruct (Z.ltb_spec (location b).2 s).
      * rewrite bool_decide_false by lia. by rewrite Hleaf, E.
      * by rewrite bool_decide_true.
    + rewrite bool_decide_false by tauto. apply Hsame. lia.
  - destruct Hp as (-> & _ & Hle). eexists. split_and!; [done..|]. intros b Hb'. case_bool_decide as E; [|done].
    unfold fsm_cat, slot_of. destruct E as [-> _]. destruct (pages f !! physical a) as [p|] eqn:Hlk; [|done].
    apply (proj2 Hf) in Hlk. lia.
Qed.

Lemma truncate_spec n f :
  u32_ok n → fsm_ok f →
  ∃ f', truncate n f = Ok f' ∧ fsm_ok f' ∧ ∀ b, u32_ok b → fsm_cat f' b = if b <? n then fsm_cat f b else 0.
Proof.
  intros Hn Hf. unfold truncate. destruct (location_valid n Hn) as [Ha Hs]. cbv zeta.
  pose proof (physical_nonneg _ Ha) as Hphys.
  assert (∃ keep f1, (if 0 <? (location n).2 then
      f ← match page (location n).1 false f with
          | (Some (b, p), f) => p ← truncate_avail (location n).2 p; Ok (put b p f) | (None, f) => Ok f end;
      Ok (physical (location n).1 + 1, f)
    else Ok (physical (location n).1, f)) = @Ok Empty_set _ (keep, f1) ∧ 0 ≤ keep ∧ fsm_ok f1 ∧
    ∀ b, u32_ok b → (if physical (location b).1 <? keep then fsm_cat f1 b else 0) = if b <? n then fsm_cat f b else 0)
    as (keep & f1 & -> & Hkeep & Hf1 & Hcat).
  { destruct (Z.ltb_spec 0 (location n).2).
    - destruct (truncate_page_spec n f Hn Hf) as (f1 & -> & Hf1 & Hcat). eexists _, _. split_and!; [done|lia|done|].
      intros b Hb. rewrite Hcat by done. destruct (location_order b n Hb Hn) as [H1 H2].
      destruct (Z.ltb_spec b n) as [Hlt|Hge].
      + destruct (Z.ltb_spec (physical (location b).1) (physical (location n).1 + 1)); [|lia].
        rewrite bool_decide_false by lia. done.
      + destruct (Z.ltb_spec (physical (location b).1) (physical (location n).1 + 1)); [|done].
        rewrite bool_decide_true by lia. done.
    - eexists _, _. split_and!; [done|lia|done|]. intros b Hb. destruct (location_order b n Hb Hn) as [H1 H2].
      pose proof (location_valid b Hb).
      destruct (Z.ltb_spec b n), (Z.ltb_spec (physical (location b).1) (physical (location n).1)); try done; lia. }
  cbn [mbind outcome_bind]. destruct (Z.ltb_spec keep (nblocks f1)) as [Hlt|Hge].
  - eexists. split_and!; [done|split; cbn [nblocks pages]|].
    + done.
    + intros b p [Hl Hb]%map_lookup_filter_Some. split; [done|]. by apply (proj2 Hf1 b).
    + intros b Hb. rewrite <- Hcat by done. unfold fsm_cat, slot_of. cbn [pages].
      destruct (Z.ltb_spec (physical (location b).1) keep) as [Hk|Hk].
      * destruct (pages f1 !! physical (location b).1) as [p|] eqn:E.
        -- by rewrite (proj2 (map_lookup_filter_Some _ _ _ p)) by done.
        -- rewrite (proj2 (map_lookup_filter_None _ _ _)); [done|]. by left.
      * rewrite (proj2 (map_lookup_filter_None _ _ _)); [done|]. right. intros p _. cbn [fst]. lia.
  - eexists. split_and!; [done..|]. intros b Hb. rewrite <- Hcat by done.
    destruct (Z.ltb_spec (physical (location b).1) keep) as [Hk|Hk]; [done|].
    unfold fsm_cat, slot_of. destruct (pages f1 !! physical (location b).1) as [p|] eqn:E; [|done].
    apply (proj2 Hf1) in E. lia.
Qed.
