(* ===== verification/FsmProps.v ===== *)
(** * The free space map: properties

    The operations as a step function with its abstract specification, and what
    an insert relies on: a block the map returns has the space asked for. *)
From S2P Require Import Prelude RustM Vec Fsm FsmFacts.
Open Scope Z_scope.

(** ** Categories *)

Lemma avail_to_cat_byte avail : 0 ≤ avail → is_byte (avail_to_cat avail).
Proof.
  intros Ha. unfold avail_to_cat, is_byte, MAX_REQUEST, CAT_STEP. destruct (Z.leb_spec 8160 avail); [lia|].
  Z.to_euclidean_division_equations. lia.
Qed.

Lemma needed_to_cat_range needed : 0 ≤ needed → 1 ≤ needed_to_cat needed ≤ 255.
Proof.
  intros Hn. unfold needed_to_cat, CAT_STEP. destruct (Z.eqb_spec needed 0); [lia|].
  Z.to_euclidean_division_equations. lia.
Qed.

(** A block of category [avail_to_cat avail] satisfies every request whose
    category it reaches. *)
Lemma cat_sound avail needed :
  0 ≤ avail → 0 ≤ needed ≤ MAX_REQUEST → needed_to_cat needed ≤ avail_to_cat avail → needed ≤ avail.
Proof.
  unfold needed_to_cat, avail_to_cat, MAX_REQUEST, CAT_STEP. intros Ha Hn.
  destruct (Z.eqb_spec needed 0), (Z.leb_spec 8160 avail); try lia.
  Z.to_euclidean_division_equations. lia.
Qed.

Lemma avail_to_cat_mono a b : 0 ≤ a ≤ b → avail_to_cat a ≤ avail_to_cat b.
Proof.
  unfold avail_to_cat, MAX_REQUEST, CAT_STEP. intros H.
  destruct (Z.leb_spec 8160 a), (Z.leb_spec 8160 b); try lia; Z.to_euclidean_division_equations; lia.
Qed.

(** ** Operations *)

Inductive fsm_op :=
  | Record (heapblk avail : Z)
  | Truncate (nblocks : Z)
  | Vacuum (start end_ : Z)
  | Get (needed heap_blocks : Z)
  | RecordAndGet (old_page old_avail needed heap_blocks : Z).

Definition op_ok (op : fsm_op) : Prop :=
  match op with
  | Record b a => u32_ok b ∧ 0 ≤ a
  | Truncate n => u32_ok n
  | Vacuum _ _ => True
  | Get n _ => 0 ≤ n
  | RecordAndGet b a n _ => u32_ok b ∧ 0 ≤ a ∧ 0 ≤ n
  end.

Definition run_op (op : fsm_op) (f : Fsm) : run (option Z * Fsm) :=
  match op with
  | Record b a => f ← record b a f; Ok (None, f)
  | Truncate n => f ← truncate n f; Ok (None, f)
  | Vacuum s e => f ← vacuum_range s e f; Ok (None, f)
  | Get n hb => get_page n hb f
  | RecordAndGet b a n hb => record_and_get b a n hb f
  end.

(** What an operation promises about the recorded categories [c] before and
    [c'] after, and its answer. *)
Definition op_spec (op : fsm_op) (c : Z → Z) (r : option Z) (c' : Z → Z) : Prop :=
  match op with
  | Record b a => r = None ∧ ∀ x, u32_ok x → c' x = if x =? b then avail_to_cat a else c x
  | Truncate n => r = None ∧ ∀ x, u32_ok x → c' x = if x <? n then c x else 0
  | Vacuum _ _ => r = None ∧ ∀ x, u32_ok x → c' x = c x
  | Get n hb => (∀ x, u32_ok x → x < hb → c' x = c x) ∧
      ∀ b, r = Some b → 0 ≤ b < hb ∧ needed_to_cat n ≤ c' b
  | RecordAndGet old a n hb =>
      (∀ x, u32_ok x → x < hb → c' x = if x =? old then avail_to_cat a else c x) ∧
      ∀ b, r = Some b → 0 ≤ b < hb ∧ needed_to_cat n ≤ c' b
  end.

Lemma record_cat b v f r f' minv :
  u32_ok b → updates f f' (physical (location b).1) (location b).2 v →
  set_and_search (location b).1 (location b).2 v minv f = Ok (r, f') →
  ∀ x, u32_ok x → fsm_cat f' x = if x =? b then v else fsm_cat f x.
Proof.
  intros Hb Hu _ x Hx. destruct (location_valid b Hb) as [Hv Hs].
  rewrite (updates_bottom f f' _ (location b).2 v Hv Hs Hu x Hx).
  change {| level := 0; logpageno := b / SLOTS_PER_PAGE |} with (location b).1. by rewrite heap_blk_location.
Qed.

Lemma record_and_get_spec old a n hb f :
  op_ok (RecordAndGet old a n hb) → fsm_ok f →
  ∃ r f', record_and_get old a n hb f = Ok (r, f') ∧ fsm_ok f' ∧
    op_spec (RecordAndGet old a n hb) (fsm_cat f) r (fsm_cat f').
Proof.
  intros (Hb & Ha & Hn) Hf. unfold record_and_get. cbv zeta. pose proof (needed_to_cat_range n Hn) as Hc.
  destruct (location_valid old Hb) as [Hv Hs].
  destruct (set_and_search_spec (location old).1 (location old).2 (avail_to_cat a) (needed_to_cat n) f Hv Hs
    (avail_to_cat_byte a Ha) ltac:(lia) Hf) as (r & f1 & E & Hf1 & _ & Hu & _ & Hr).
  pose proof (record_cat old (avail_to_cat a) f r f1 (needed_to_cat n) Hb Hu E) as Hcat. rewrite E.
  cbn [mbind outcome_bind fst snd].
  assert (∃ r' f', search (needed_to_cat n) hb f1 = Ok (r', f') ∧ fsm_ok f' ∧
    op_spec (RecordAndGet old a n hb) (fsm_cat f) r' (fsm_cat f')) as Hsearch.
  { destruct (search_spec (needed_to_cat n) hb f1 ltac:(lia) Hf1) as (r' & f' & -> & Hk & Hr').
    exists r', f'. split_and!; [done|apply Hk|]. split; [|done]. intros x Hx Hlt.
    rewrite <- Hcat by done. by apply Hk. }
  destruct r as [found|]; [|exact Hsearch].
  destruct (Z.ltb_spec (heap_blk (location old).1 found) hb) as [Hlt|]; [|exact Hsearch].
  destruct (Hr found eq_refl) as [Hfr Hfv]. eexists _, _. split_and!; [done..|]. split; [auto|].
  intros b [= <-]. unfold u32_ok in Hb. split; [split; [|done]|].
  - unfold heap_blk, location. cbn [fst logpageno]. pose proof (Z.div_pos old SLOTS_PER_PAGE ltac:(lia) ltac:(done)).
    fsm_consts. lia.
  - unfold fsm_cat. change (location old).1 with {| level := 0; logpageno := old / SLOTS_PER_PAGE |} in *.
    by rewrite location_heap_blk.
Qed.

Lemma run_op_spec op f :
  op_ok op → fsm_ok f →
  ∃ r f', run_op op f = Ok (r, f') ∧ fsm_ok f' ∧ op_spec op (fsm_cat f) r (fsm_cat f').
Proof.
  intros Hop Hf. destruct op as [b a|n|s e|n hb|old a n hb]; cbn [run_op].
  - destruct Hop as [Hb Ha]. destruct (location_valid b Hb) as [Hv Hs]. unfold record. cbv zeta.
    destruct (set_and_search_spec (location b).1 (location b).2 (avail_to_cat a) 0 f Hv Hs
      (avail_to_cat_byte a Ha) ltac:(lia) Hf) as (r & f1 & E & Hf1 & _ & Hu & _).
    rewrite E. cbn [mbind outcome_bind snd]. eexists _, _. split_and!; [done..|]. split; [done|].
    by apply (record_cat b (avail_to_cat a) f r f1 0).
  - destruct (truncate_spec n f Hop Hf) as (f' & -> & Hf' & Hc). cbn [mbind outcome_bind]. by eexists _, _.
  - unfold vacuum_range. destruct (s <? e); [|cbn [mbind outcome_bind]; by eexists _, _].
    destruct (vacuum_page_spec 3 ROOT s e f) as (x & eof & f' & -> & _ & Hk);
      [right; right; done|done|done|]. cbn [mbind outcome_bind snd]. eexists _, _.
    split_and!; [done|apply Hk|]. split; [done|apply Hk].
  - unfold get_page. pose proof (needed_to_cat_range n Hop).
    destruct (search_spec (needed_to_cat n) hb f ltac:(lia) Hf) as (r & f' & -> & Hk & Hr).
    eexists _, _. split_and!; [done|apply Hk|]. split; [apply Hk|done].
  - by apply record_and_get_spec.
Qed.

(** ** Histories *)

(** The space last recorded for each block: what a caller said, forgotten when
    the block is truncated. *)
Definition ghost_step (op : fsm_op) (g : Z → Z) : Z → Z :=
  match op with
  | Record b a | RecordAndGet b a _ _ => λ x, if x =? b then a else g x
  | Truncate n => λ x, if x <? n then g x else 0
  | Vacuum _ _ | Get _ _ => g
  end.

(** Blocks the operation can name. *)
Definition within (limit : Z) (op : fsm_op) : Prop :=
  match op with Get _ hb | RecordAndGet _ _ _ hb => limit ≤ hb | _ => True end.

Fixpoint run_all (ops : list fsm_op) (f : Fsm) (g : Z → Z) : run (Fsm * (Z → Z)) :=
  match ops with
  | [] => Ok (f, g)
  | op :: ops => r ← run_op op f; run_all ops r.2 (ghost_step op g)
  end.

Definition recorded (limit : Z) (f : Fsm) (g : Z → Z) : Prop :=
  fsm_ok f ∧ ∀ x, u32_ok x → 0 ≤ g x ∧ (x < limit → fsm_cat f x = avail_to_cat (g x)).

Lemma recorded_step limit op f g r f' :
  op_ok op → within limit op → recorded limit f g → fsm_ok f' → op_spec op (fsm_cat f) r (fsm_cat f') →
  recorded limit f' (ghost_step op g).
Proof.
  intros Hop Hw [Hf Hg] Hf' Hs. split; [done|]. intros x Hx. destruct (Hg x Hx) as [Hx0 Hxc].
  destruct op as [b a|n|s e|n hb|old a n hb]; cbn [op_ok within op_spec ghost_step] in *.
  - destruct Hs as [_ Hs]. rewrite Hs by done. destruct (x =? b); [tauto|done].
  - destruct Hs as [_ Hs]. rewrite Hs by done. destruct (x <? n); [done|]. by split.
  - destruct Hs as [_ Hs]. by rewrite Hs.
  - destruct Hs as [Hs _]. split; [done|]. intros Hlt. rewrite Hs by (done || lia). auto.
  - destruct Hs as [Hs _]. split; [destruct (x =? old); tauto|]. intros Hlt. rewrite Hs by (done || lia).
    destruct (x =? old); auto.
Qed.

Lemma run_all_recorded limit ops f g :
  Forall op_ok ops → Forall (within limit) ops → recorded limit f g →
  ∃ f' g', run_all ops f g = Ok (f', g') ∧ recorded limit f' g'.
Proof.
  intros Hops. revert f g. induction Hops as [|op ops Hop Hops IH]; intros f g Hw Hr; [by eexists _, _|].
  apply Forall_cons in Hw as [Hwo Hw]. destruct (run_op_spec op f Hop (proj1 Hr)) as (r & f1 & E & Hf1 & Hs).
  cbn [run_all]. rewrite E. cbn [mbind outcome_bind snd]. apply IH; [done|].
  by apply (recorded_step limit op f g r f1).
Qed.

Lemma empty_recorded limit : recorded limit empty_fsm (λ _, 0).
Proof. split; [by split|]. intros x Hx. split; [done|]. intros _. done. Qed.

(** ** Properties *)

(** C19. The map refines its specification: every operation on a well-formed
    map returns (the search terminates within its fuel, no index is out of
    range, no page is found corrupt), leaves it well formed, and has exactly the
    specified effect on the category of every heap block: [record] sets one,
    [truncate] clears those past the end, VACUUM and the searches change none
    below the relation's end, and an answer has the category asked for. *)
Theorem fsm_refines op f :
  op_ok op → fsm_ok f →
  ∃ r f', run_op op f = Ok (r, f') ∧ fsm_ok f' ∧ op_spec op (fsm_cat f) r (fsm_cat f').
Proof. intros Hop Hf. by apply run_op_spec. Qed.

Lemma fsm_refines_witness :
  ∃ r f', run_op (RecordAndGet 0 188 32 4) empty_fsm = Ok (r, f') ∧ fsm_ok f' ∧
    op_spec (RecordAndGet 0 188 32 4) (fsm_cat empty_fsm) r (fsm_cat f').
Proof. apply (fsm_refines (RecordAndGet 0 188 32 4) empty_fsm); [by repeat split|by split]. Defined.

(** An insert gets the space it asks for: after any history of operations
    on an empty map whose searches see a relation of at least [limit] blocks,
    [get_page] for up to [MAX_REQUEST] bytes in a relation of that size answers
    only blocks whose last recorded free space is at least what was asked. *)
Theorem get_page_enough_space limit ops needed :
  Forall op_ok ops → Forall (within limit) ops → 0 ≤ needed ≤ MAX_REQUEST → 0 ≤ limit ≤ 2 ^ 32 →
  ∃ f g r f', run_all ops empty_fsm (λ _, 0) = Ok (f, g) ∧ get_page needed limit f = Ok (r, f') ∧
    ∀ b, r = Some b → 0 ≤ b < limit ∧ needed ≤ g b.
Proof.
  intros Hops Hw Hn Hlim.
  destruct (run_all_recorded limit ops empty_fsm (λ _, 0) Hops Hw (empty_recorded limit)) as (f & g & E & Hf & Hg).
  destruct (run_op_spec (Get needed limit) f (proj1 Hn) Hf) as (r & f' & Er & _ & [Hc Hr]).
  exists f, g, r, f'. split_and!; [done..|]. intros b Hb. destruct (Hr b Hb) as [Hrange Hcat]. split; [done|].
  assert (u32_ok b) as Hub by (unfold u32_ok; lia). destruct (Hg b Hub) as [Hg0 Hgc].
  apply cat_sound; [done..|]. by rewrite <- Hgc, <- Hc by (done || lia).
Qed.

Lemma get_page_enough_space_witness :
  ∃ f g r f', run_all [Record 0 188; Record 1 44; Vacuum 0 2; Get 100 2] empty_fsm (λ _, 0) = Ok (f, g) ∧
    get_page 100 2 f = Ok (r, f') ∧ ∀ b, r = Some b → 0 ≤ b < 2 ∧ 100 ≤ g b.
Proof.
  apply (get_page_enough_space 2 [Record 0 188; Record 1 44; Vacuum 0 2; Get 100 2] 100);
    [repeat apply Forall_cons_2; try apply Forall_nil_2; unfold op_ok, u32_ok; lia
    |repeat apply Forall_cons_2; try apply Forall_nil_2; unfold within; lia|unfold MAX_REQUEST; lia|lia].
Defined.

(** Searching one page: on every page of the right size [search_avail]
    returns, having rebuilt the page if it was corrupt, and a slot it answers
    holds at least the category asked for. On a page that is a tree of maxima it
    answers [None] only when no leaf is large enough, and leaves the nodes as
    they were. *)
Theorem search_avail_exact minvalue advancenext p :
  nodes_ok (nodes p) → 1 ≤ minvalue →
  ∃ r p', search_avail minvalue advancenext p = Ok (r, p') ∧ nodes_ok (nodes p') ∧
    (∀ s, r = Some s → 0 ≤ s < SLOTS_PER_PAGE ∧ minvalue ≤ leaf (nodes p) s) ∧
    (∀ s, 0 ≤ s → leaf (nodes p') s = leaf (nodes p) s) ∧
    (tree (nodes p) → nodes p' = nodes p ∧ (r = None ↔ ∀ s, 0 ≤ s < SLOTS_PER_PAGE → leaf (nodes p) s < minvalue)).
Proof.
  intros Hok Hm. destruct (search_avail_spec minvalue advancenext p Hok Hm) as (r & p' & E & [H1 H2 H3 H4 H5]).
  exists r, p'. split_and!; try done; try apply H1.
  - intros s Hs. destruct (H3 s Hs) as (? & ? & _). done.
  - intros s Hs. apply H2. lia.
  - intros Ht. split; [auto|]. split.
    + intros -> s Hs. apply (H5 Ht eq_refl). fsm_consts. lia.
    + intros Hall. destruct r as [s|]; [|done]. destruct (H3 s eq_refl) as (Hs & Hv & _).
      specialize (Hall s Hs). lia.
Qed.

Lemma search_avail_exact_witness :
  ∃ r p', search_avail 1 true new_page = Ok (r, p') ∧ nodes_ok (nodes p') ∧
    (∀ s, r = Some s → 0 ≤ s < SLOTS_PER_PAGE ∧ 1 ≤ leaf (nodes new_page) s) ∧
    (∀ s, 0 ≤ s → leaf (nodes p') s = leaf (nodes new_page) s) ∧
    (tree (nodes new_page) → nodes p' = nodes new_page ∧
      (r = None ↔ ∀ s, 0 ≤ s < SLOTS_PER_PAGE → leaf (nodes new_page) s < 1)).
Proof. apply (search_avail_exact 1 true new_page); [apply new_page_ok|lia]. Defined.

(** Distinct addresses, distinct pages: the physical block number of a
    logical address determines it, stays within [u32], and [location] and
    [heap_blk], [child] and [parent] are inverse on the addresses a heap of at
    most 2^32 blocks uses. *)
Theorem physical_injective a b heapblk slot :
  valid_addr a → valid_addr b → u32_ok heapblk → 0 ≤ slot < SLOTS_PER_PAGE →
  (physical a = physical b → a = b) ∧ u32_ok (physical a) ∧
  valid_addr (location heapblk).1 ∧ heap_blk (location heapblk).1 (location heapblk).2 = heapblk ∧
  parent (child a slot) = (a, slot).
Proof.
  intros Ha Hb Hh Hs. split_and!; [by apply physical_inj| | |apply heap_blk_location|by apply parent_child].
  - pose proof (physical_nonneg a Ha). unfold u32_ok. split; [done|]. destruct a as [la l].
    unfold valid_addr in Ha. cbn [level logpageno] in Ha.
    destruct Ha as [[-> Ha]|[[-> Ha]|[-> ->]]]; [rewrite physical_level0|rewrite physical_level1 by done|done]; fsm_consts.
    + Z.to_euclidean_division_equations. lia.
    + lia.
  - by apply location_valid.
Qed.

Lemma physical_injective_witness :
  (physical ROOT = physical (location 4069).1 → ROOT = (location 4069).1) ∧ u32_ok (physical ROOT) ∧
  valid_addr (location 4069).1 ∧ heap_blk (location 4069).1 (location 4069).2 = 4069 ∧
  parent (child ROOT 7) = (ROOT, 7).
Proof.
  apply (physical_injective ROOT (location 4069).1 4069 7);
    [right; right; done|left; done|unfold u32_ok; lia|unfold SLOTS_PER_PAGE; lia].
Defined.
