(* ===== verification/MongoLocks.v ===== *)
(** * The MongoDB lock manager: resources, modes, heads and the atomic sections

    Models the data of [secantus-commands/src/lock_manager.rs] and every section
    it runs under its mutexes.  A wait ([Condvar::wait_timeout]) gives the mutex
    up, so [acquire] is split there: [acquire_start] up to the wait,
    [acquire_pass] one pass of its loop, [count] the counting after the mutex is
    dropped.  [MongoProg] composes them into the code's functions.

    The clock and the kill flag the loop polls are the booleans and
    microseconds the sections take as arguments; names are byte strings. *)
From stdpp Require Import strings.
From S2P Require Import Prelude RustM Bson Docs.
Local Open Scope Z_scope.
Local Open Scope secantus_scope.

(** ** Modes *)

Inductive Mode := Is | Ix | S_ | X.

#[export] Instance Mode_eq_dec : EqDecision Mode.
Proof. solve_decision. Defined.
#[export] Instance Mode_countable : Countable Mode.
Proof.
  refine (inj_countable' (λ m, match m with Is => 0 | Ix => 1 | S_ => 2 | X => 3 end)%nat
            (λ n, match n with O => Is | S O => Ix | S (S O) => S_ | _ => X end) _).
  by intros [].
Defined.

Definition mode_name (m : Mode) : bytes :=
  lit match m with Is => "IS" | Ix => "IX" | S_ => "S" | X => "X" end.

Definition letter (m : Mode) : bytes :=
  lit match m with Is => "r" | Ix => "w" | S_ => "R" | X => "W" end.

(** The derived order, weakest first. *)
Definition mode_rank (m : Mode) : Z := match m with Is => 0 | Ix => 1 | S_ => 2 | X => 3 end.

Definition conflicts_with (m held : Mode) : bool :=
  match m, held with
  | Is, X | S_, Ix | S_, X | X, Is | X, Ix | X, S_ | X, X | Ix, S_ | Ix, X => true
  | _, _ => false
  end.

(** ** Resources and owners *)

Inductive Resource :=
  | Global
  | Database (db : bytes)
  | Collection (ns : bytes)
  | MutexRes
  | Metadata
  | Oplog
  | ReplicationStateTransition
  | MdtBarrier.

#[export] Instance Resource_eq_dec : EqDecision Resource.
Proof. solve_decision. Defined.

(** As a tag and a name. *)
Definition resource_tag (r : Resource) : nat * bytes :=
  match r with
  | ReplicationStateTransition => (0, []) | Global => (1, []) | Database db => (2, db)
  | Collection ns => (3, ns) | MutexRes => (4, []) | Metadata => (5, []) | Oplog => (6, [])
  | MdtBarrier => (7, [])
  end%nat.

Definition resource_of_tag (t : nat * bytes) : Resource :=
  match t with
  | (0, _) => ReplicationStateTransition | (1, _) => Global | (2, db) => Database db
  | (3, ns) => Collection ns | (4, _) => MutexRes | (5, _) => Metadata | (6, _) => Oplog
  | (_, _) => MdtBarrier
  end%nat.

#[export] Instance Resource_countable : Countable Resource.
Proof. refine (inj_countable' resource_tag resource_of_tag _). by intros []. Defined.

(** The resource kind, as [serverStatus.locks] keys it. *)
Definition kind (r : Resource) : bytes :=
  lit match r with
      | Global => "Global"
      | Database _ => "Database"
      | Collection _ => "Collection"
      | MutexRes => "Mutex"
      | Metadata => "Metadata"
      | Oplog => "oplog"
      | ReplicationStateTransition => "ReplicationStateTransition"
      | MdtBarrier => "MultiDocumentTransactionsBarrier"
      end.

Definition described (r : Resource) : bytes :=
  match r with
  | Collection ns => lit "{Collection : " ++ ns ++ lit "}"
  | Database db => lit "{Database : " ++ db ++ lit "}"
  | Global => lit "{Global : 0}"
  | other => lit "{" ++ kind other ++ lit " : " ++ kind other ++ lit "}"
  end.

Inductive Owner := Transaction (n : Z) | Statement (n : Z).

#[export] Instance Owner_eq_dec : EqDecision Owner.
Proof. solve_decision. Defined.
#[export] Instance Owner_countable : Countable Owner.
Proof.
  refine (inj_countable' (λ o, match o with Transaction n => (true, n) | Statement n => (false, n) end)
            (λ p : bool * Z, if p.1 then Transaction p.2 else Statement p.2) _).
  by intros [].
Defined.

Abbreviation Chain := (list (Resource * Mode)).

(** ** Heads *)

Record Head := mkHead {
  holders : list (Owner * Mode);
  queue : list (Z * Owner * Mode);
}.

#[export] Instance Head_eq_dec : EqDecision Head.
Proof. solve_decision. Defined.

Definition head_default : Head := mkHead [] [].

(** Some pair of another owner has a mode that rejects [mode]. *)
Definition conflicting (owner : Owner) (mode : Mode) (l : list (Owner * Mode)) : bool :=
  existsb (λ p : Owner * Mode, ⌊p.1 ≠ owner⌋ && conflicts_with mode p.2) l.

Definition blocks (h : Head) (owner : Owner) (mode : Mode) : bool :=
  conflicting owner mode (holders h).

Definition holds (h : Head) (owner : Owner) : bool :=
  existsb (λ p : Owner * Mode, ⌊p.1 = owner⌋) (holders h).

Fixpoint grantable_loop (h : Head) (ticket : Z) (granted : list (Owner * Mode))
    (q : list (Z * Owner * Mode)) : bool :=
  match q with
  | [] => false
  | (t, owner, mode) :: q =>
      let blocked := blocks h owner mode || conflicting owner mode granted in
      if blocked then false
      else if ⌊t = ticket⌋ then true
      else grantable_loop h ticket (granted ++ [(owner, mode)]) q
  end.

Definition grantable (h : Head) (ticket : Z) : bool := grantable_loop h ticket [] (queue h).

(** ** The manager's state *)

Record Stats := mkStats {
  acquire_count : gmap Mode Z;
  acquire_wait_count : gmap Mode Z;
  time_acquiring_micros : gmap Mode Z;
}.

Definition stats_default : Stats := mkStats ∅ ∅ ∅.

(** [fsync_busy]: some thread is inside the [fsync] mutex, which [fsync_lock]
    keeps across its wait. *)
Record LockManager := mkLM {
  heads : gmap Resource Head;
  stats : gmap bytes Stats;
  next_owner : Z;
  next_ticket : Z;
  fsync : Z * option Owner;
  fsync_busy : bool;
}.

Definition lm_new : LockManager := mkLM ∅ ∅ 1 1 (0, None) false.

Definition with_heads (lm : LockManager) (hs : gmap Resource Head) : LockManager :=
  mkLM hs (stats lm) (next_owner lm) (next_ticket lm) (fsync lm) (fsync_busy lm).

Definition head_of (lm : LockManager) (r : Resource) : Head := default head_default (heads lm !! r).

(** [next_owner.fetch_add(1)] *)
Definition fresh_owner (lm : LockManager) : Z * LockManager :=
  (next_owner lm,
   mkLM (heads lm) (stats lm) (wrap 64 (next_owner lm + 1)) (next_ticket lm) (fsync lm) (fsync_busy lm)).

Definition statement_owner (lm : LockManager) : Owner * LockManager :=
  let '(n, lm) := fresh_owner lm in (Statement n, lm).

Definition transaction_owner (lm : LockManager) : Owner * LockManager :=
  let '(n, lm) := fresh_owner lm in (Transaction n, lm).

Definition takes_flow_control_ticket (lm : LockManager) (owner : Owner) (r : Resource) (m : Mode) : bool :=
  ⌊r = Global⌋ && ⌊m = Ix⌋
  && match owner with Statement _ => true | Transaction _ => false end
  && negb match heads lm !! r with Some h => holds h owner | None => false end.

(** ** [acquire], up to its wait

    [Granted tf]: the lock is held, [tf] a flow control ticket was taken first.
    [Queued ticket converting tf]: the request waits; an owner that holds the
    resource already waits outside the queue. *)
Inductive Start := Granted (tf : bool) | Queued (ticket : Z) (converting tf : bool).

Definition push_holder (h : Head) (o : Owner) (m : Mode) : Head := mkHead (holders h ++ [(o, m)]) (queue h).

Definition retain_queue (ticket : Z) (h : Head) : Head :=
  mkHead (holders h) (filter (λ e : Z * Owner * Mode, e.1.1 ≠ ticket) (queue h)).

Definition acquire_start (owner : Owner) (r : Resource) (m : Mode) (lm : LockManager) :
    Start * LockManager :=
  let tf := takes_flow_control_ticket lm owner r m in
  let head := head_of lm r in
  if negb (blocks head owner m) && (⌊queue head = []⌋ || holds head owner) then
    (Granted tf, with_heads lm (<[r := push_holder head owner m]> (heads lm)))
  else
    let converting := holds head owner in
    let ticket := next_ticket lm in
    let head := if converting then head else mkHead (holders head) (queue head ++ [(ticket, owner, m)]) in
    (Queued ticket converting tf,
     mkLM (<[r := head]> (heads lm)) (stats lm) (next_owner lm) (wrap 64 (next_ticket lm + 1))
       (fsync lm) (fsync_busy lm)).

(** One pass of the loop: [Some true] granted, [Some false] given up on the
    spent budget or the kill ([expired]), [None] wait again. *)
Definition ready (head : Head) (owner : Owner) (m : Mode) (ticket : Z) (converting : bool) : bool :=
  if converting then negb (blocks head owner m) else grantable head ticket.

Definition acquire_pass (owner : Owner) (r : Resource) (m : Mode) (ticket : Z) (converting expired : bool)
    (lm : LockManager) : option bool * LockManager :=
  let head := head_of lm r in
  if ready head owner m ticket converting then
    (Some true, with_heads lm (<[r := push_holder (retain_queue ticket head) owner m]> (heads lm)))
  else if expired then
    (Some false, with_heads lm (<[r := retain_queue ticket head]> (heads lm)))
  else (None, with_heads lm (<[r := head]> (heads lm))).

(** ** Counting *)

Definition bump (m : Mode) (d : Z) (c : gmap Mode Z) : gmap Mode Z :=
  <[m := wrap 64 (default 0 (c !! m) + d)]> c.

(** [count]'s section: [waited] the microseconds of the wait there was. *)
Definition count (r : Resource) (m : Mode) (waited : option Z) (lm : LockManager) : LockManager :=
  let s := default stats_default (stats lm !! kind r) in
  let s := mkStats (bump m 1 (acquire_count s)) (acquire_wait_count s) (time_acquiring_micros s) in
  let s := match waited with
           | None => s
           | Some d => mkStats (acquire_count s) (bump m 1 (acquire_wait_count s))
                         (bump m d (time_acquiring_micros s))
           end in
  mkLM (heads lm) (<[kind r := s]> (stats lm)) (next_owner lm) (next_ticket lm) (fsync lm) (fsync_busy lm).

(** ** Releasing *)

(** [heads.retain(..)]: a head with no hold and no waiter is dropped. *)
Definition live (h : Head) : bool := negb (⌊holders h = [] ∧ queue h = []⌋).

Definition retain_live (hs : gmap Resource Head) : gmap Resource Head :=
  filter (λ p : Resource * Head, live p.2 = true) hs.

Definition drop_owner (owner : Owner) (h : Head) : Head :=
  mkHead (filter (λ p : Owner * Mode, p.1 ≠ owner) (holders h)) (queue h).

Definition release (owner : Owner) (lm : LockManager) : LockManager :=
  with_heads lm (retain_live (drop_owner owner <$> heads lm)).

(** [rposition] and [remove]: the last pair equal to [p] goes. *)
Fixpoint remove_last {A} `{EqDecision A} (p : A) (l : list A) : list A :=
  match l with
  | [] => []
  | q :: l => if ⌊q = p⌋ && negb (⌊p ∈ l⌋) then l else q :: remove_last p l
  end.

Definition drop_hold (owner : Owner) (hs : gmap Resource Head) (rm : Resource * Mode) : gmap Resource Head :=
  match hs !! rm.1 with
  | Some h => <[rm.1 := mkHead (remove_last (owner, rm.2) (holders h)) (queue h)]> hs
  | None => hs
  end.

Definition release_holds (owner : Owner) (chain : Chain) (lm : LockManager) : LockManager :=
  with_heads lm (retain_live (foldl (drop_hold owner) (heads lm) chain)).

(** ** The [serverStatus.locks] report *)

Definition KIND_ORDER : list bytes :=
  lit <$> ["MultiDocumentTransactionsBarrier"; "ReplicationStateTransition"; "Global"; "Database";
           "Collection"; "Metadata"; "Mutex"; "oplog"].

Definition position_of (k : bytes) : nat :=
  default (length KIND_ORDER) (fst <$> list_find (λ o, o = k) KIND_ORDER).

Definition by_kind (a b : bytes) : Prop := (position_of a ≤ position_of b)%nat.
Definition by_mode (a b : Mode) : Prop := mode_rank a ≤ mode_rank b.

#[export] Instance by_kind_dec : RelDecision by_kind.
Proof. intros a b. unfold by_kind. apply _. Defined.
#[export] Instance by_mode_dec : RelDecision by_mode.
Proof. intros a b. unfold by_mode. apply _. Defined.

Record ResourceReport := mkReport {
  rr_kind : bytes;
  rr_acquire_count : list (bytes * Z);
  rr_acquire_wait_count : list (bytes * Z);
  rr_time_acquiring_micros : list (bytes * Z);
}.

(** The counter of each mode of [modes] that has one. *)
Definition counts (modes : list Mode) (c : gmap Mode Z) : list (bytes * Z) :=
  omap (λ m, (λ n, (letter m, n)) <$> c !! m) modes.

Definition report (k : bytes) (s : Stats) : ResourceReport :=
  let modes := merge_sort by_mode (fst <$> map_to_list (acquire_count s)) in
  mkReport k (counts modes (acquire_count s)) (counts modes (acquire_wait_count s))
    (counts modes (time_acquiring_micros s)).

Definition server_status_locks (lm : LockManager) : list ResourceReport :=
  let kinds := merge_sort by_kind (fst <$> map_to_list (stats lm)) in
  omap (λ k, report k <$> stats lm !! k) kinds.
