(* ===== verification/MongoRounds.v ===== *)
(** * Which locks a MongoDB statement takes

    The classification of a command, its lock chain and its measured rounds, as
    [secantus-commands/src/lock_manager.rs] reads them off the command document
    and the store.  The store is a parameter ([Facts]); so is the equality of
    documents of the [bson] crate, which [createIndexes] compares key patterns
    with. *)
From stdpp Require Import strings.
From S2P Require Import Prelude RustM Bson Docs MongoLocks.
Local Open Scope Z_scope.
Local Open Scope secantus_scope.

(** ** Reading a command document *)

(** [doc.keys().next()] *)
Definition first_key (doc : Doc) : option bytes := fst <$> head doc.

(** [matches!(name, "a" | "b" | ..)] *)
Definition named (name : bytes) (names : list string) : bool := ⌊name ∈ lit <$> names⌋.

(** [s.split('.').next()], which always yields. *)
Fixpoint before_dot (s : bytes) : bytes :=
  match s with
  | [] => []
  | c :: s => if c =? 46 then [] else c :: before_dot s
  end.

(** [format!("{db}.{c}")] *)
Definition dotted (db c : bytes) : bytes := db ++ [46] ++ c.

Definition nonempty (s : bytes) : option bytes := if ⌊s = []⌋ then None else Some s.

(** ** Classification and the chain *)

Inductive Class := Read | Write | Ddl.

#[export] Instance Class_eq_dec : EqDecision Class.
Proof. solve_decision. Defined.

Definition classify (name : bytes) : Class :=
  if named name ["find"; "getMore"; "count"; "distinct"; "aggregate"; "collStats"; "dbStats";
              "listCollections"; "listIndexes"; "indexStats"; "dataSize"; "storageDetails"] then Read
  else if named name ["drop"; "create"; "collMod"; "renameCollection"; "dropDatabase"; "dropIndexes";
                   "dropIndexesForUUID"; "convertToCapped"; "createIndexes"] then Ddl
  else Write.

Definition GLOBAL_ONLY : list string :=
  ["hello"; "isMaster"; "ismaster"; "serverStatus"; "ping"; "whatsmyuri"; "features"; "hostInfo";
   "connectionStatus"; "logout"; "saslStart"; "saslContinue"; "authenticate"; "listDatabases";
   "replSetGetStatus"; "replSetGetConfig"].

Definition statement_chain (doc : Doc) (db : bytes) : Chain :=
  match first_key doc with
  | None => [(Global, Is)]
  | Some name =>
      let class := classify name in
      let intent := match class with Read => Is | Write | Ddl => Ix end in
      let chain := [(Global, intent)] in
      if named name GLOBAL_ONLY then chain
      else
        let coll := get_str doc name ≫= nonempty in
        let ns_of c := if named name ["renameCollection"] then c else dotted db c in
        let db_mode := if named name ["createDatabase"; "dropDatabase"] then X else intent in
        let db_level := match coll with Some c => before_dot (ns_of c) | None => db end in
        let chain := chain ++ [(Database db_level, db_mode)] in
        let chain := match coll with
                     | Some c => chain ++ [(Collection (ns_of c), if ⌊class = Ddl⌋ then X else intent)]
                     | None => chain
                     end in
        if named name ["renameCollection"] then
          match get_str doc (lit "to") with
          | Some to => chain ++ [(Collection to, X)]
          | None => chain
          end
        else chain
  end.

(** ** What the rounds read from the store *)

Record Facts := mkFacts {
  exists_ : bytes → bool;
  is_empty : bytes → bool;
  index_keys : bytes → list Doc;
  collections : list bytes;
}.

(** What [StorageFacts] asks of the storage; [None] is an error of its. *)
Record Storage := mkStorage {
  collection_exists : bytes → bytes → option bool;
  collection_count_at_most : bytes → bytes → Z → option (option Z);
  list_indexes : bytes → bytes → option (list Doc);
  list_collections : bytes → option (list bytes);
}.

Definition StorageFacts (storage : option Storage) (db : bytes) : Facts := {|
  exists_ coll := match storage with
                  | None => true
                  | Some s => default true (collection_exists s db coll)
                  end;
  is_empty coll := match storage with
                   | None => true
                   | Some s => ⌊collection_count_at_most s db coll 0 = Some (Some 0)⌋
                   end;
  index_keys coll := omap (λ ix, get_document ix (lit "key"))
                       (default [] (storage ≫= λ s, list_indexes s db coll));
  collections := default [] (storage ≫= λ s, list_collections s db);
|}.

(** ** The rounds *)

Section rounds.
Context (doc_eq : Doc → Doc → bool).

Definition write_round (db : bytes) (coll : option bytes) : Chain :=
  [(ReplicationStateTransition, Ix); (Global, Ix); (Database db, Ix)]
  ++ match coll with Some c => [(Collection (dotted db c), Ix)] | None => [] end.

Definition read_round (db c : bytes) : Chain :=
  [(ReplicationStateTransition, Ix); (Global, Is); (Database db, Is); (Collection (dotted db c), Is)].

(** [exclusive]: the write round with the collection in X. *)
Definition x_round (db c : bytes) : Chain := write_round db None ++ [(Collection (dotted db c), X)].

Definition statements (doc : Doc) (key : bytes) : nat :=
  match doc_get doc key with Some (Array items) => Nat.max (length items) 1 | _ => 1%nat end.

Definition read : option (list Chain) := Some [[(Global, Is)]].

(** [stages.iter().any(.. "$out" .. "$merge" ..)] *)
Definition pipeline_writes (doc : Doc) : bool :=
  match doc_get doc (lit "pipeline") with
  | Some (Array stages) =>
      existsb (λ s, match as_document s with
                    | Some d => contains_key d (lit "$out") || contains_key d (lit "$merge")
                    | None => false
                    end) stages
  | _ => false
  end.

Definition pipeline_merges (doc : Doc) : bool :=
  match doc_get doc (lit "pipeline") with
  | Some (Array stages) =>
      match last stages ≫= as_document with Some d => contains_key d (lit "$merge") | None => false end
  | _ => false
  end.

Definition out_rounds (doc : Doc) (db : bytes) (source : option bytes) (facts : Facts) :
    option (list Chain) :=
  stages ← get_array doc (lit "pipeline");
  final ← last stages ≫= as_document;
  out ← doc_get final (lit "$out");
  '(out_db, target) ← match out with
                      | String t => Some (db, t)
                      | Document d => coll ← get_str d (lit "coll");
                                      Some (default db (get_str d (lit "db")), coll)
                      | _ => None
                      end;
  src ← source;
  let target_res := Collection (dotted out_db target) in
  let write mode := [(ReplicationStateTransition, Ix); (Global, Ix); (Database out_db, Ix);
                     (target_res, mode)] in
  let replaced := ⌊out_db = db⌋ && exists_ facts target in
  Some ([read_round db src]
        ++ replicate 6 [(Global, Is)]
        ++ replicate (if replaced then 3 else 2) (write X)
        ++ replicate 2 (write Ix)).

Definition asked_keys (doc : Doc) : list Doc :=
  match doc_get doc (lit "indexes") with
  | Some (Array specs) => omap (λ s, d ← as_document s; get_document d (lit "key")) specs
  | _ => []
  end.

Definition create_indexes_rounds (doc : Doc) (db c : bytes) (facts : Facts) : list Chain :=
  let global := [(Global, Is)] in
  if negb (exists_ facts c) then [global; write_round db (Some c); write_round db (Some c)]
  else
    let have := index_keys facts c in
    let asked := asked_keys doc in
    if negb (⌊length asked = 0%nat⌋)
       && forallb (λ k, existsb (doc_eq k) have) asked then [global; write_round db (Some c)]
    else
      let rounds := [global; global] ++ replicate 2 [(ReplicationStateTransition, Ix)] in
      if is_empty facts c then rounds ++ [x_round db c; write_round db (Some c)]
      else rounds ++ [x_round db c] ++ replicate 4 (write_round db (Some c))
             ++ [[(Collection (dotted db c), Ix)]; write_round db None].

Definition statement_rounds (doc : Doc) (db : bytes) (facts : Facts) : option (list Chain) :=
  name ← first_key doc;
  let coll := get_str doc name ≫= nonempty in
  if named name ["hello"; "isMaster"; "ismaster"; "ping"; "serverStatus"; "killCursors"; "fsync";
              "fsyncUnlock"] then Some []
  else if named name ["buildInfo"; "buildinfo"; "connPoolStats"; "connectionStatus"; "dropConnections";
                   "features"; "getClusterParameter"; "getCmdLineOpts"; "getDefaultRWConcern";
                   "getLog"; "getParameter"; "hostInfo"; "listCommands"; "top"; "whatsmyuri"] then Some []
  else if named name ["find"; "getMore"; "count"; "distinct"; "listCollections"; "listIndexes";
                   "listDatabases"; "collStats"; "rolesInfo"; "usersInfo"] then read
  else if named name ["dataSize"; "planCacheClear"; "planCacheClearFilters"; "planCacheListFilters";
                   "planCacheSetFilter"] then
    let ns := if named name ["dataSize"] then coll else dotted db <$> coll in
    let round := [(ReplicationStateTransition, Ix); (Global, Is)] in
    Some [match ns with
          | Some ns => round ++ [(Database (before_dot ns), Is); (Collection ns, Is)]
          | None => round
          end]
  else if named name ["filemd5"] then
    let root := default (lit "fs") (get_str doc (lit "root")) in
    Some [[(ReplicationStateTransition, Ix); (Global, Is); (Database db, Is);
           (Collection (dotted db (root ++ lit ".chunks")), Is)]]
  else if named name ["explain"] then
    inner ← get_document doc (lit "explain");
    verb ← first_key inner;
    let target := get_str inner verb ≫= nonempty in
    if named verb ["update"; "delete"; "findAndModify"; "findandmodify"]
    then Some [write_round db target] else read
  else if named name ["dbHash"] then
    let opening := [(ReplicationStateTransition, Ix); (Global, Is)] in
    Some [opening; opening ++ [(Database db, S_)]
                     ++ map (λ c, (Collection (dotted db c), Is)) (collections facts)]
  else if named name ["aggregate"] then
    if negb (pipeline_writes doc) then read
    else if pipeline_merges doc then Some [[(Global, Is)]; [(Global, Is)]]
    else out_rounds doc db coll facts
  else if named name ["insert"] then
    c ← coll;
    Some (replicate (if exists_ facts c then 1 else 3) (write_round db (Some c)))
  else if named name ["update"; "delete"] then
    c ← coll;
    let key := if named name ["update"] then lit "updates" else lit "deletes" in
    Some (replicate (statements doc key) (write_round db (Some c)))
  else if named name ["findAndModify"; "findandmodify"] then
    c ← coll;
    Some [write_round db None ++ write_round db (Some c)]
  else if named name ["create"] then
    c ← coll;
    Some ([write_round db (Some c)] ++ (if exists_ facts c then [read_round db c] else []))
  else if named name ["drop"; "dropIndexes"; "deleteIndexes"] then
    c ← coll;
    if negb (exists_ facts c) then Some [write_round db None]
    else Some [write_round db (Some c); x_round db c]
  else if named name ["dropDatabase"] then
    Some [[(ReplicationStateTransition, Ix); (Global, Ix); (Database db, X)]]
  else if named name ["createIndexes"] then
    c ← coll;
    Some (create_indexes_rounds doc db c facts)
  else if named name ["dbStats"] then
    Some [[(ReplicationStateTransition, Ix); (Global, Is); (Database db, Is)]
          ++ map (λ c, (Collection (dotted db c), Is)) (collections facts)]
  else None.

(** The rounds [Guard::statement] takes. *)
Definition rounds_of (doc : Doc) (db : bytes) (facts : Facts) : list Chain :=
  match statement_rounds doc db facts with
  | Some rounds => rounds
  | None => [statement_chain doc db]
  end.
End rounds.

(** ** A transaction's statement (session.rs)

    The chain of the statement, with the collection of a [create] or
    [createIndexes] in IX. *)
Definition txn_chain (doc : Doc) (db : bytes) : Chain :=
  let chain := statement_chain doc db in
  match first_key doc with
  | Some name =>
      if named name ["create"; "createIndexes"] then
        (λ rm : Resource * Mode,
           match rm with (Collection ns, X) => (Collection ns, Ix) | rm => rm end) <$> chain
      else chain
  | None => chain
  end.
