(* ===== verification/MongoProg.v ===== *)
(** * The MongoDB lock manager's functions, as programs of a thread

    A thread of the server runs the functions of
    [secantus-commands/src/lock_manager.rs]: each is a program over the atomic
    sections of [MongoLocks] and the thread's locals.  [Acquire] stands for the
    whole call of [LockManager::acquire]; what it does step by step, and how the
    threads interleave, is [MongoSystem].

    One server and so one lock manager: the [Arc<LockManager>] a guard carries
    is left out, and [CURRENT] is whether it is set. *)
From stdpp Require Import strings.
From S2P Require Import Prelude RustM Bson Docs MongoLocks MongoRounds.
Local Open Scope Z_scope.
Local Open Scope secantus_scope.

(** ** The thread locals *)

Record Locals := mkLocals {
  TOOK_GLOBAL : bool;
  FLOW_CONTROL : Z;
  OP_LOCKS : list (bytes * Mode * Z * Z);
  CURRENT : bool;
  STATEMENT_OWNER : option Owner;
  HELD_TO_END : option (list Owner);
}.

Definition locals_new : Locals := mkLocals false 0 [] false None None.

Definition set_current (c : bool) (l : Locals) : Locals :=
  mkLocals (TOOK_GLOBAL l) (FLOW_CONTROL l) (OP_LOCKS l) c (STATEMENT_OWNER l) (HELD_TO_END l).
Definition set_statement_owner (o : option Owner) (l : Locals) : Locals :=
  mkLocals (TOOK_GLOBAL l) (FLOW_CONTROL l) (OP_LOCKS l) (CURRENT l) o (HELD_TO_END l).
Definition set_held (h : option (list Owner)) (l : Locals) : Locals :=
  mkLocals (TOOK_GLOBAL l) (FLOW_CONTROL l) (OP_LOCKS l) (CURRENT l) (STATEMENT_OWNER l) h.

(** [begin_operation] *)
Definition begin_operation (l : Locals) : Locals :=
  mkLocals false 0 [] (CURRENT l) (STATEMENT_OWNER l) (HELD_TO_END l).

Definition note_taken (r : Resource) (l : Locals) : Locals :=
  if ⌊r = Global⌋
  then mkLocals true (FLOW_CONTROL l) (OP_LOCKS l) (CURRENT l) (STATEMENT_OWNER l) (HELD_TO_END l)
  else l.

Definition note_flow_control_ticket (l : Locals) : Locals :=
  mkLocals (TOOK_GLOBAL l) (signed 64 (wrap 64 (FLOW_CONTROL l + 1))) (OP_LOCKS l) (CURRENT l)
    (STATEMENT_OWNER l) (HELD_TO_END l).

Fixpoint note_row (k : bytes) (m : Mode) (waited : bool) (rows : list (bytes * Mode * Z * Z)) :
    list (bytes * Mode * Z * Z) :=
  match rows with
  | [] => [(k, m, 1, Z.b2z waited)]
  | (k', m', n, w) :: rows =>
      if ⌊k' = k ∧ m' = m⌋
      then (k', m', wrap 64 (n + 1), wrap 64 (w + Z.b2z waited)) :: rows
      else (k', m', n, w) :: note_row k m waited rows
  end.

Definition note_operation_lock (k : bytes) (m : Mode) (waited : bool) (l : Locals) : Locals :=
  mkLocals (TOOK_GLOBAL l) (FLOW_CONTROL l) (note_row k m waited (OP_LOCKS l)) (CURRENT l)
    (STATEMENT_OWNER l) (HELD_TO_END l).

(** ** [operation_locks]: the locks document of the operation *)

Fixpoint bump_global (rows : list (bytes * Mode * Z * Z)) : list (bytes * Mode * Z * Z) :=
  match rows with
  | [] => [(lit "Global", Is, 1, 0)]
  | (k, m, n, w) :: rows =>
      if ⌊k = lit "Global" ∧ m = Is⌋ then (k, m, wrap 64 (n + 1), w) :: rows
      else (k, m, n, w) :: bump_global rows
  end.

Fixpoint dedup_kinds (l : list bytes) : list bytes :=
  match l with
  | k :: (k' :: _) as rest => if ⌊k = k'⌋ then dedup_kinds rest else k :: dedup_kinds rest
  | l => l
  end.

Definition row_mode_le (a b : bytes * Mode * Z * Z) : Prop := by_mode a.1.1.2 b.1.1.2.
#[export] Instance row_mode_le_dec : RelDecision row_mode_le.
Proof. intros a b. unfold row_mode_le. apply _. Defined.

Definition kind_locks (rows : list (bytes * Mode * Z * Z)) (k : bytes) : Bson :=
  let modes := merge_sort row_mode_le (filter (λ r : bytes * Mode * Z * Z, r.1.1.1 = k) rows) in
  let acquire := foldl (λ d (r : bytes * Mode * Z * Z),
                          doc_insert d (letter r.1.1.2) (Int64 (signed 64 r.1.2))) [] modes in
  let waits := foldl (λ d (r : bytes * Mode * Z * Z),
                        if ⌊0 < r.2⌋ then doc_insert d (letter r.1.1.2) (Int64 (signed 64 r.2))
                        else d) [] modes in
  Document ([(lit "acquireCount", Document acquire)]
            ++ match waits with [] => [] | _ => [(lit "acquireWaitCount", Document waits)] end).

Definition operation_locks (extra_global_is : bool) (l : Locals) : Doc :=
  let rows := if extra_global_is then bump_global (OP_LOCKS l) else OP_LOCKS l in
  let kinds := dedup_kinds (merge_sort by_kind ((λ r : bytes * Mode * Z * Z, r.1.1.1) <$> rows)) in
  foldl (λ d k, doc_insert d k (kind_locks rows k)) [] kinds.

(** ** Programs

    [Work chain] is the statement's own work, done under the locks of [chain]. *)
Inductive prog (A : Type) :=
  | Ret (a : A)
  | NewOwner (txn : bool) (k : Owner → prog A)
  | Acquire (o : Owner) (r : Resource) (m : Mode) (k : bool → prog A)
  | Release (o : Owner) (k : prog A)
  | ReleaseHolds (o : Owner) (chain : Chain) (k : prog A)
  | Get (k : Locals → prog A)
  | Put (f : Locals → Locals) (k : prog A)
  | FsyncEnter (k : Z * option Owner → prog A)
  | FsyncLeave (v : Z * option Owner) (k : prog A)
  | Work (chain : Chain) (k : prog A).
Arguments Ret {A} a.
Arguments NewOwner {A} txn k.
Arguments Acquire {A} o r m k.
Arguments Release {A} o k.
Arguments ReleaseHolds {A} o chain k.
Arguments Get {A} k.
Arguments Put {A} f k.
Arguments FsyncEnter {A} k.
Arguments FsyncLeave {A} v k.
Arguments Work {A} chain k.

#[export] Instance prog_ret : MRet prog := λ A a, Ret a.

#[export] Instance prog_bind : MBind prog := λ A B f,
  fix go p :=
    match p with
    | Ret a => f a
    | NewOwner t k => NewOwner t (λ o, go (k o))
    | Acquire o r m k => Acquire o r m (λ b, go (k b))
    | Release o k => Release o (go k)
    | ReleaseHolds o c k => ReleaseHolds o c (go k)
    | Get k => Get (λ l, go (k l))
    | Put g k => Put g (go k)
    | FsyncEnter k => FsyncEnter (λ v, go (k v))
    | FsyncLeave v k => FsyncLeave v (go k)
    | Work c k => Work c (go k)
    end.

Definition new_owner : prog Owner := NewOwner false Ret.
Definition new_transaction_owner : prog Owner := NewOwner true Ret.
Definition acquire (o : Owner) (r : Resource) (m : Mode) : prog bool := Acquire o r m Ret.
Definition release_ (o : Owner) : prog unit := Release o (Ret tt).
Definition release_holds_ (o : Owner) (chain : Chain) : prog unit := ReleaseHolds o chain (Ret tt).
Definition get : prog Locals := Get Ret.
Definition put (f : Locals → Locals) : prog unit := Put f (Ret tt).
Definition work (chain : Chain) : prog unit := Work chain (Ret tt).

(** ** Chains and guards; [false] and [None] are [Err(MaxTimeMsExpired)] *)

Fixpoint acquire_chain (owner : Owner) (chain : Chain) : prog bool :=
  match chain with
  | [] => mret true
  | (res, mode) :: chain =>
      ok ← acquire owner res mode;
      if ok : bool then acquire_chain owner chain
      else release_ owner;; mret false
  end.

(** A round taken and let go. *)
Definition pass_round (round : Chain) : prog bool :=
  owner ← new_owner;
  ok ← acquire_chain owner round;
  if ok : bool then release_ owner;; mret true else mret false.

Fixpoint pass_rounds (rounds : list Chain) : prog bool :=
  match rounds with
  | [] => mret true
  | round :: rounds =>
      ok ← pass_round round;
      if ok : bool then pass_rounds rounds else mret false
  end.

Record Guard := mkGuard { g_owner : Owner; previous_owner : option Owner }.

(** [Guard::statement], its rounds computed by [rounds_of]. *)
Definition guard_statement (rounds : list Chain) : prog (option Guard) :=
  let chain := default [] (last rounds) in
  ok ← pass_rounds (removelast rounds);
  if ok : bool then
    owner ← new_owner;
    ok ← acquire_chain owner chain;
    if ok : bool then
      l ← get;
      put (set_statement_owner (Some owner));;
      mret (Some (mkGuard owner (STATEMENT_OWNER l)))
    else mret None
  else mret None.

(** [impl Drop for Guard] *)
Definition guard_drop (g : Guard) : prog unit :=
  put (set_statement_owner (previous_owner g));;
  l ← get;
  match HELD_TO_END l with
  | Some held => put (set_held (Some (held ++ [g_owner g])))
  | None => release_ (g_owner g)
  end.

(** [enter], and the [Drop] of its scope. *)
Definition enter (lm : bool) : prog bool :=
  l ← get;
  put (set_current lm);;
  mret (CURRENT l).

Definition leave (previous : bool) : prog unit := put (set_current previous).

(** ** Locks taken partway through a statement *)

Definition merge_round (db coll : bytes) : Chain :=
  [(ReplicationStateTransition, Ix); (Global, Ix); (Database db, Ix); (Collection (dotted db coll), Ix)].

Definition x_chain (db coll : bytes) : Chain :=
  [(ReplicationStateTransition, Ix); (Global, Ix); (Database db, Ix); (Collection (dotted db coll), X)].

Fixpoint global_reads_loop (n : nat) : prog unit :=
  match n with
  | O => mret tt
  | S n =>
      owner ← new_owner;
      ok ← acquire owner Global Is;
      if ok : bool then release_ owner;; global_reads_loop n else mret tt
  end.

Definition global_reads (n : nat) : prog unit :=
  l ← get;
  if CURRENT l then global_reads_loop n else mret tt.

Definition write_rounds (db coll : bytes) (n : nat) : prog (option Guard) :=
  l ← get;
  if CURRENT l then
    match n with
    | O => mret None
    | S n =>
        ok ← pass_rounds (replicate n (merge_round db coll));
        if ok : bool then
          owner ← new_owner;
          ok ← acquire_chain owner (merge_round db coll);
          if ok : bool then
            l ← get;
            mret (Some (mkGuard owner (STATEMENT_OWNER l)))
          else mret None
        else mret None
    end
  else mret None.

Record ExtraHold := mkExtra { e_owner : Owner; e_chain : Chain }.

(** [exclusive_round]'s loop, [taken] the links taken so far. *)
Fixpoint exclusive_loop (owner : Owner) (taken chain : Chain) : prog bool :=
  match chain with
  | [] => mret true
  | (res, mode) :: chain =>
      ok ← acquire owner res mode;
      if ok : bool then exclusive_loop owner (taken ++ [(res, mode)]) chain
      else release_holds_ owner taken;; mret false
  end.

(** [None]: no statement is running; [Some None]: the error. *)
Definition exclusive_round (db coll : bytes) : prog (option (option ExtraHold)) :=
  l ← get;
  if CURRENT l then
    match STATEMENT_OWNER l with
    | None => mret None
    | Some owner =>
        ok ← exclusive_loop owner [] (x_chain db coll);
        mret (Some (if ok : bool then Some (mkExtra owner (x_chain db coll)) else None))
    end
  else mret None.

Definition extra_drop (e : ExtraHold) : prog unit := release_holds_ (e_owner e) (e_chain e).

(** ** Holds kept past the statement *)

Definition hold_to_end : prog (option (list Owner)) :=
  l ← get;
  put (set_held (Some []));;
  mret (HELD_TO_END l).

Fixpoint write_round_loop (owner : Owner) (round : Chain) : prog bool :=
  match round with
  | [] => mret true
  | (res, mode) :: round =>
      ok ← acquire owner res mode;
      if ok : bool then write_round_loop owner round else mret false
  end.

(** [HeldToEnd::write_round] *)
Definition held_write_round (db coll : bytes) : prog bool :=
  l ← get;
  match HELD_TO_END l ≫= last with
  | None => mret true
  | Some owner => write_round_loop owner (merge_round db coll)
  end.

Fixpoint release_all (owners : list Owner) : prog unit :=
  match owners with
  | [] => mret tt
  | owner :: owners => release_ owner;; release_all owners
  end.

(** [impl Drop for HeldToEnd] *)
Definition held_drop (previous : option (list Owner)) : prog unit :=
  l ← get;
  put (set_held previous);;
  release_all (reverse (default [] (HELD_TO_END l))).

(** ** Locks beside a statement *)

Definition take_and_release (r : Resource) (m : Mode) : prog unit :=
  owner ← new_owner;
  ok ← acquire owner r m;
  if ok : bool then release_ owner else mret tt.

Definition log_lock : prog unit := take_and_release Global Is.

Definition retryable_write_transition_lock : prog unit := take_and_release ReplicationStateTransition Ix.

Definition journal_chain : Chain := [(ReplicationStateTransition, Ix); (Global, Is)].

Definition journal_wait : prog (option Owner) :=
  owner ← new_owner;
  ok ← acquire_chain owner journal_chain;
  mret (if ok : bool then Some owner else None).

(** [drop(wait_locks)] *)
Definition journal_drop (w : option Owner) : prog unit :=
  match w with Some owner => release_ owner | None => mret tt end.

(** ** [fsync] *)

Definition fsync_lock : prog Z :=
  FsyncEnter (λ held,
    held ← (if ⌊held.1 = 0⌋ then
              owner ← new_owner;
              _ ← acquire owner Global S_;
              mret (held.1, Some owner)
            else mret held);
    let n := wrap 32 (held.1 + 1) in
    FsyncLeave (n, held.2) (mret n)).

Definition fsync_unlock : prog (option Z) :=
  FsyncEnter (λ held,
    if ⌊held.1 = 0⌋ then FsyncLeave held (mret None)
    else
      let n := held.1 - 1 in
      if ⌊n = 0⌋ then
        match held.2 with
        | Some owner => release_ owner;; FsyncLeave (n, None) (mret (Some n))
        | None => FsyncLeave (n, None) (mret (Some n))
        end
      else FsyncLeave (n, held.2) (mret (Some n))).

(** ** A statement of a transaction (session.rs)

    The links are taken under the transaction's owner, which keeps them; the
    first that fails ends the transaction, whose abort lets its locks go once
    more. *)
Fixpoint txn_links (owner : Owner) (chain : Chain) : prog (option (Resource * Mode)) :=
  match chain with
  | [] => mret None
  | (res, mode) :: chain =>
      ok ← acquire owner res mode;
      if ok : bool then txn_links owner chain else mret (Some (res, mode))
  end.

Definition txn_statement (owner : Owner) (doc : Doc) (db : bytes) : prog bool :=
  failed ← txn_links owner (txn_chain doc db);
  match failed with
  | None => mret true
  | Some _ => release_ owner;; release_ owner;; mret false
  end.

(** ** What a handler does under its locks

    The lock calls the command handlers make while they run; the rest of their
    work is [HWork]. *)
Inductive act :=
  | HWork                                  (** work under the statement's own locks *)
  | HGlobalReads (n : nat)                 (** [listDatabases], a global IS per database *)
  | HMerge (db coll : bytes) (n : nat)     (** a batch of [$merge], under its write rounds *)
  | HBuild (db coll : bytes)               (** [run_index_build], its two exclusive rounds *)
  | HLog                                   (** [statement_line]'s lock *)
  | HFsyncLock                             (** the [fsync] command with [lock: true] *)
  | HFsyncUnlock.                          (** the [fsyncUnlock] command *)

(** One exclusive section of [run_index_build]; [false] when the handler
    returns the error. *)
Definition exclusive_section (db coll : bytes) : prog bool :=
  e ← exclusive_round db coll;
  match e with
  | None => mret true
  | Some None => mret false
  | Some (Some e) => work (x_chain db coll);; extra_drop e;; mret true
  end.

Definition run_act (chain : Chain) (a : act) : prog unit :=
  match a with
  | HWork => work chain
  | HGlobalReads n => global_reads n
  | HMerge db coll n =>
      g ← write_rounds db coll n;
      match g with
      | Some g => work (merge_round db coll);; guard_drop g
      | None => mret tt
      end
  | HBuild db coll =>
      ok ← exclusive_section db coll;
      if ok : bool then work chain;; _ ← exclusive_section db coll; mret tt else mret tt
  | HLog => log_lock
  | HFsyncLock => _ ← fsync_lock; mret tt
  | HFsyncUnlock => _ ← fsync_unlock; mret tt
  end.

Fixpoint run_acts (chain : Chain) (acts : list act) : prog unit :=
  match acts with
  | [] => mret tt
  | a :: acts => run_act chain a;; run_acts chain acts
  end.

(** The statement's work in [run_handler], the locks taken. *)
Definition handler_body (chain : Chain) (acts : list act) : prog unit :=
  previous ← enter true;
  work chain;;
  run_acts chain acts;;
  leave previous.

(** [run_handler] outside a transaction. *)
Definition run_handler (rounds : list Chain) (acts : list act) : prog unit :=
  g ← guard_statement rounds;
  match g with
  | None => mret tt
  | Some g => handler_body (default [] (last rounds)) acts;; guard_drop g
  end.

(** A retryable write: its handler runs once, under [hold_to_end], or not at all
    when every statement was applied before, and the session's row is kept under
    the same locks when something was written. *)
Definition retryable (run : option (list Chain * list act)) (wrote : bool) : prog unit :=
  retryable_write_transition_lock;;
  previous ← hold_to_end;
  match run with Some (rounds, acts) => run_handler rounds acts | None => mret tt end;;
  (if wrote then _ ← held_write_round (lit "config") (lit "transactions"); mret tt else mret tt);;
  held_drop previous.

(** A transaction's statements, then its end. *)
Fixpoint txn_statements (owner : Owner) (held : Chain) (stmts : list (Doc * bytes * list act)) : prog unit :=
  match stmts with
  | [] => release_ owner
  | (doc, db, acts) :: stmts =>
      ok ← txn_statement owner doc db;
      if ok : bool then
        let held := held ++ txn_chain doc db in
        handler_body held acts;; txn_statements owner held stmts
      else mret tt
  end.

Definition transaction (stmts : list (Doc * bytes * list act)) : prog unit :=
  owner ← new_transaction_owner;
  txn_statements owner [] stmts.

Inductive request :=
  | RStatement (rounds : list Chain) (acts : list act)
  | RRetryable (run : option (list Chain * list act)) (wrote : bool)
  | RTransaction (stmts : list (Doc * bytes * list act)).

Definition run_request (r : request) : prog unit :=
  match r with
  | RStatement rounds acts => run_handler rounds acts
  | RRetryable run wrote => retryable run wrote
  | RTransaction stmts => transaction stmts
  end.

(** A command: its request, the wait for the journal, the slow-operation line. *)
Record command := mkCommand { c_request : request; c_journal : bool; c_slow : bool }.

Definition run_command (c : command) : prog unit :=
  put begin_operation;;
  run_request (c_request c);;
  (if c_journal c then
     w ← journal_wait;
     work (match w with Some _ => journal_chain | None => [] end);;
     journal_drop w
   else mret tt);;
  if c_slow c then
    l ← get;
    if TOOK_GLOBAL l then log_lock else mret tt
  else mret tt.

(** A connection's thread. *)
Fixpoint serve (cs : list command) : prog unit :=
  match cs with
  | [] => mret tt
  | c :: cs => run_command c;; serve cs
  end.
