(* ===== verification/MongoSystem.v ===== *)
(** * The threads of the MongoDB server and their interleavings

    Every thread runs a program of [MongoProg].  A step of a thread is one
    section the code runs under a mutex: the call of [acquire] takes its start,
    the passes of its wait and its counting in separate steps, between which the
    other threads run.  What the clock and the kill flag say at a pass, and how
    long a wait took, comes with the step. *)
From S2P Require Import Prelude RustM Docs MongoLocks MongoProg.
Local Open Scope Z_scope.

(** Where a thread is: at a program, inside [acquire]'s wait, or before its
    counting ([Counting r m waited tf granted k]). *)
Inductive ctl :=
  | At (p : prog unit)
  | Waiting (o : Owner) (r : Resource) (m : Mode) (ticket : Z) (converting tf : bool) (k : bool → prog unit)
  | Counting (r : Resource) (m : Mode) (waited tf granted : bool) (k : bool → prog unit).

Record thread := mkThread { t_ctl : ctl; t_locals : Locals }.

(** What a pass finds: the budget spent or the operation killed, and the
    microseconds since the call. *)
Record event := mkEvent { expired : bool; micros : Z }.

(** [acquire] after the mutex is dropped. *)
Definition after_acquire (r : Resource) (m : Mode) (waited tf granted : bool) (l : Locals) : Locals :=
  let l := if tf then note_flow_control_ticket l else l in
  let l := note_operation_lock (kind r) m waited l in
  if granted then note_taken r l else l.

Definition set_fsync (v : Z * option Owner) (busy : bool) (lm : LockManager) : LockManager :=
  mkLM (heads lm) (stats lm) (next_owner lm) (next_ticket lm) v busy.

Definition tstep (ev : event) (t : thread) (lm : LockManager) : option (thread * LockManager) :=
  let l := t_locals t in
  match t_ctl t with
  | At (Ret _) => None
  | At (NewOwner txn k) =>
      let '(o, lm) := (if txn then transaction_owner else statement_owner) lm in
      Some (mkThread (At (k o)) l, lm)
  | At (Acquire o r m k) =>
      match acquire_start o r m lm with
      | (Granted tf, lm) => Some (mkThread (Counting r m false tf true k) l, lm)
      | (Queued ticket converting tf, lm) => Some (mkThread (Waiting o r m ticket converting tf k) l, lm)
      end
  | At (Release o k) => Some (mkThread (At k) l, release o lm)
  | At (ReleaseHolds o c k) => Some (mkThread (At k) l, release_holds o c lm)
  | At (Get k) => Some (mkThread (At (k l)) l, lm)
  | At (Put f k) => Some (mkThread (At k) (f l), lm)
  | At (FsyncEnter k) =>
      if fsync_busy lm then None
      else Some (mkThread (At (k (fsync lm))) l, set_fsync (fsync lm) true lm)
  | At (FsyncLeave v k) => Some (mkThread (At k) l, set_fsync v false lm)
  | At (Work _ k) => Some (mkThread (At k) l, lm)
  | Waiting o r m ticket converting tf k =>
      match acquire_pass o r m ticket converting (expired ev) lm with
      | (Some true, lm) => Some (mkThread (Counting r m true tf true k) l, lm)
      | (Some false, lm) => Some (mkThread (Counting r m true false false k) l, lm)
      | (None, lm) => Some (t, lm)
      end
  | Counting r m waited tf granted k =>
      Some (mkThread (At (k granted)) (after_acquire r m waited tf granted l),
            count r m (if waited then Some (micros ev) else None) lm)
  end.

Record sys := mkSys { s_lm : LockManager; s_threads : list thread }.

(** Thread [i] takes a step. *)
Definition sys_step (i : nat) (ev : event) (s : sys) : option sys :=
  t ← s_threads s !! i;
  '(t', lm') ← tstep ev t (s_lm s);
  Some (mkSys lm' (<[i := t']> (s_threads s))).

Definition step (s s' : sys) : Prop := ∃ i ev, sys_step i ev s = Some s'.

(** The threads of a server serving [cs], one list of commands per connection. *)
Definition start (cs : list (list command)) : sys :=
  mkSys lm_new ((λ c, mkThread (At (serve c)) locals_new) <$> cs).

(** A schedule: which thread steps, and what it finds. *)
Fixpoint run (sched : list (nat * event)) (s : sys) : option sys :=
  match sched with
  | [] => Some s
  | (i, ev) :: sched => sys_step i ev s ≫= run sched
  end.

Lemma run_app a b s : run (a ++ b) s = run a s ≫= run b.
Proof. revert s. induction a as [|[i ev] a IH]; intros s; [done|]. simpl. destruct (sys_step i ev s); simpl; auto. Qed.

Lemma run_snoc a i ev s s' : run (a ++ [(i, ev)]) s = Some s' → ∃ s1, run a s = Some s1 ∧ sys_step i ev s1 = Some s'.
Proof.
  rewrite run_app. destruct (run a s) as [s1|] eqn:E; [|done]. cbn.
  destruct (sys_step i ev s1) eqn:E2; [|done]. cbn. intros [= ->]. eauto.
Qed.

(** The thread has served all its commands. *)
Definition done_ (t : thread) : bool := match t_ctl t with At (Ret _) => true | _ => false end.

(** The quiet event: neither the budget nor a kill ends the wait. *)
Definition quiet : event := mkEvent false 0.

(** A pass of [acquire]'s loop that finds the lock still taken and waits on. *)
Definition vain (i : nat) (ev : event) (s : sys) : bool :=
  match t_ctl <$> s_threads s !! i with
  | Some (Waiting o r m ticket converting _ _) =>
      match (acquire_pass o r m ticket converting (expired ev) (s_lm s)).1 with None => true | Some _ => false end
  | _ => false
  end.

(** A schedule without such a pass: every step of it moves its thread. *)
Fixpoint run_busy (sched : list (nat * event)) (s : sys) : option sys :=
  match sched with
  | [] => Some s
  | (i, ev) :: sched => if vain i ev s then None else sys_step i ev s ≫= run_busy sched
  end.

Lemma vain_stays i ev s s' t t' :
  vain i ev s = true → sys_step i ev s = Some s' →
  s_threads s !! i = Some t → s_threads s' !! i = Some t' → t' = t.
Proof.
  unfold vain, sys_step. intros Hv Hstep Hi Hi'. rewrite Hi in Hv, Hstep. cbn [option_fmap option_map fmap] in Hv.
  cbn [mbind option_bind] in Hstep. unfold tstep in Hstep.
  destruct (t_ctl t) as [|o r m tk cv tf k|]; [done| |done].
  destruct (acquire_pass o r m tk cv (expired ev) (s_lm s)) as [[[]|] lm]; [done..|].
  cbn in Hstep. injection Hstep as <-. cbn in Hi'. rewrite list_insert_id in Hi' by done. congruence.
Qed.
