(* ===== verification/MongoHeads.v ===== *)
(** * The lock manager's sections, as effects on holders and queues

    For every section of [MongoLocks]: the holders and the queue of each resource
    afterwards, and what an owner holds of it. *)
From S2P Require Import Prelude RustM Docs MongoLocks MongoSystem.
Local Open Scope Z_scope.

Definition hol (lm : LockManager) (r : Resource) : list (Owner * Mode) := holders (head_of lm r).
Definition que (lm : LockManager) (r : Resource) : list (Z * Owner * Mode) := queue (head_of lm r).

(** ** What one key has in a list of pairs *)

Definition proj {A B} `{EqDecision A} (a : A) (l : list (A * B)) : list B :=
  snd <$> filter (λ p : A * B, p.1 = a) l.

Section proj.
Context {A B : Type} `{EqDecision A, EqDecision B}.
Implicit Types (l : list (A * B)) (a : A) (b : B).

Lemma proj_app a l l' : proj a (l ++ l') = proj a l ++ proj a l'.
Proof. unfold proj. by rewrite filter_app, fmap_app. Qed.

Lemma proj_cons_eq a b l : proj a ((a, b) :: l) = b :: proj a l.
Proof. unfold proj. by rewrite filter_cons_True. Qed.

Lemma proj_cons_ne a a' b l : a' ≠ a → proj a ((a', b) :: l) = proj a l.
Proof. intros. unfold proj. by rewrite filter_cons_False. Qed.

Lemma elem_of_proj a b l : b ∈ proj a l ↔ (a, b) ∈ l.
Proof.
  unfold proj. rewrite list_elem_of_fmap. split.
  - intros ([a' b'] & -> & [Ha Hin]%list_elem_of_filter). simpl in *. by subst.
  - intros H. exists (a, b). split; [done|]. by apply list_elem_of_filter.
Qed.

Lemma proj_push a b l : proj a (l ++ [(a, b)]) = proj a l ++ [b].
Proof. rewrite proj_app. f_equal. apply proj_cons_eq. Qed.

Lemma proj_push_ne a a' b l : a' ≠ a → proj a (l ++ [(a', b)]) = proj a l.
Proof. intros. rewrite proj_app, proj_cons_ne by done. apply app_nil_r. Qed.

Lemma proj_filter_ne a l : proj a (filter (λ p : A * B, p.1 ≠ a) l) = [].
Proof.
  unfold proj. rewrite list_filter_filter.
  rewrite (list_filter_ext_in _ (λ _, False)) by tauto. by induction l.
Qed.

Lemma proj_filter_other a a' l : a' ≠ a → proj a' (filter (λ p : A * B, p.1 ≠ a) l) = proj a' l.
Proof.
  intros Hne. unfold proj. rewrite list_filter_filter. f_equal.
  apply list_filter_ext_in. intros [x y] _. simpl. split; [tauto|]. intros ->. done.
Qed.

Lemma proj_remove_last a b l : proj a (remove_last (a, b) l) = remove_last b (proj a l).
Proof.
  induction l as [|[x y] l IH]; [done|]. cbn [remove_last].
  destruct (decide (x = a)) as [->|Hne].
  - rewrite proj_cons_eq. cbn [remove_last].
    rewrite (bool_decide_ext (b ∈ proj a l) ((a, b) ∈ l)) by apply elem_of_proj.
    rewrite (bool_decide_ext ((a, y) = (a, b)) (y = b)) by naive_solver.
    destruct (bool_decide (y = b) && _); [done|]. by rewrite proj_cons_eq, IH.
  - rewrite (bool_decide_eq_false_2 ((x, y) = (a, b))) by naive_solver. cbn [andb].
    by rewrite !proj_cons_ne, IH by done.
Qed.

Lemma proj_remove_last_ne a a' b l : a' ≠ a → proj a (remove_last (a', b) l) = proj a l.
Proof.
  intros Hne. induction l as [|[x y] l IH]; [done|]. cbn [remove_last].
  destruct (bool_decide ((x, y) = (a', b)) && _) eqn:E.
  - apply andb_true_iff in E as [[= -> ->]%bool_decide_eq_true _]. by rewrite proj_cons_ne.
  - destruct (decide (x = a)) as [->|]; [by rewrite !proj_cons_eq, IH|by rewrite !proj_cons_ne, IH].
Qed.
End proj.

Section remove_last.
Context {A : Type} `{EqDecision A}.

Lemma elem_of_remove_last (x p : A) l : x ∈ remove_last p l → x ∈ l.
Proof.
  induction l as [|q l IH]; [done|]. cbn [remove_last].
  destruct (_ && _); [by right|]. rewrite !elem_of_cons. tauto.
Qed.

Lemma remove_last_snoc (p : A) l : remove_last p (l ++ [p]) = l.
Proof.
  induction l as [|q l IH]; cbn [remove_last app].
  - by rewrite bool_decide_true, bool_decide_false by (done || apply not_elem_of_nil).
  - assert (Hin : p ∈ l ++ [p]) by (apply elem_of_app; right; by apply list_elem_of_singleton).
    rewrite (bool_decide_eq_true_2 _ Hin), andb_false_r. by rewrite IH.
Qed.

Lemma remove_last_app (p : A) l l' : p ∈ l' → remove_last p (l ++ l') = l ++ remove_last p l'.
Proof.
  intros Hin. induction l as [|q l IH]; cbn [remove_last app]; [done|].
  assert (Hin' : p ∈ l ++ l') by (apply elem_of_app; by right).
  by rewrite (bool_decide_eq_true_2 _ Hin'), andb_false_r, IH.
Qed.

Lemma remove_last_notin (p : A) l : p ∉ l → remove_last p l = l.
Proof.
  induction l as [|q l IH]; [done|]. intros [Hne Hl]%not_elem_of_cons. cbn [remove_last].
  rewrite bool_decide_false by done. cbn. by rewrite IH.
Qed.

Lemma remove_last_head (p : A) l : p ∉ l → remove_last p (p :: l) = l.
Proof. intros H. cbn [remove_last]. by rewrite bool_decide_true, (bool_decide_eq_false_2 _ H) by done. Qed.

(** Pushing a duplicate-free list and removing its members in order is undone. *)
Lemma remove_last_all (l c : list A) :
  NoDup c → foldl (λ l p, remove_last p l) (l ++ c) c = l.
Proof.
  induction 1 as [|p c Hp Hc IH]; cbn [foldl]; [apply app_nil_r|].
  rewrite remove_last_app by left. by rewrite remove_last_head.
Qed.
End remove_last.

(** ** Heads after an update *)

Lemma head_of_insert lm hs r h r' :
  heads lm = <[r := h]> hs → head_of lm r' = if decide (r' = r) then h else default head_default (hs !! r').
Proof.
  intros E. unfold head_of. rewrite E. case_decide as D; subst.
  - by rewrite lookup_insert_eq.
  - by rewrite lookup_insert_ne by congruence.
Qed.

Lemma head_of_with lm r h r' :
  head_of (with_heads lm (<[r := h]> (heads lm))) r' = if decide (r' = r) then h else head_of lm r'.
Proof. by erewrite head_of_insert. Qed.

(** Dropping dead heads changes no holder and no queue. *)
Lemma lookup_retain_live hs r :
  default head_default (retain_live hs !! r) = default head_default (hs !! r).
Proof.
  unfold retain_live. rewrite map_lookup_filter.
  destruct (hs !! r) as [[hs' qs]|] eqn:E; [|done]. cbn. unfold live. cbn.
  destruct (bool_decide (hs' = [] ∧ qs = [])) eqn:D; cbn.
  - apply bool_decide_eq_true in D as [-> ->]. by case_guard.
  - by case_guard.
Qed.

Lemma head_of_release o lm r : head_of (release o lm) r = drop_owner o (head_of lm r).
Proof.
  unfold head_of, release. cbn. rewrite lookup_retain_live, lookup_fmap.
  by destruct (heads lm !! r).
Qed.

Lemma hol_release o lm r : hol (release o lm) r = filter (λ p : Owner * Mode, p.1 ≠ o) (hol lm r).
Proof. unfold hol. by rewrite head_of_release. Qed.

Lemma que_release o lm r : que (release o lm) r = que lm r.
Proof. unfold que. by rewrite head_of_release. Qed.

(** What [release_holds] leaves in the list of resource [r]. *)
Definition undo (o : Owner) (r : Resource) (l : list (Owner * Mode)) (rm : Resource * Mode) :=
  if decide (rm.1 = r) then remove_last (o, rm.2) l else l.

Lemma drop_holds_lookup o c hs r :
  let h := default head_default (hs !! r) in
  default head_default (foldl (drop_hold o) hs c !! r) = mkHead (foldl (undo o r) (holders h) c) (queue h).
Proof.
  revert hs. induction c as [|[r' m] c IH]; intros hs; cbn [foldl].
  - by destruct (hs !! r) as [[]|].
  - rewrite IH. unfold drop_hold, undo at 3; cbn [fst snd].
    destruct (hs !! r') as [h'|] eqn:E.
    + destruct (decide (r' = r)) as [->|Hne].
      * by rewrite lookup_insert_eq, E.
      * by rewrite lookup_insert_ne by done.
    + destruct (decide (r' = r)) as [->|Hne]; [|done]. by rewrite E.
Qed.

Lemma hol_release_holds o c lm r : hol (release_holds o c lm) r = foldl (undo o r) (hol lm r) c.
Proof. unfold hol, head_of, release_holds. cbn. by rewrite lookup_retain_live, drop_holds_lookup. Qed.

Lemma que_release_holds o c lm r : que (release_holds o c lm) r = que lm r.
Proof. unfold que, head_of, release_holds. cbn. by rewrite lookup_retain_live, drop_holds_lookup. Qed.

Lemma elem_of_undo o r l c p : p ∈ foldl (undo o r) l c → p ∈ l.
Proof.
  revert l. induction c as [|rm c IH]; intros l; [done|]. cbn [foldl]. intros H%IH.
  unfold undo in H. case_decide; [|done]. by eapply elem_of_remove_last.
Qed.

(** The chain an owner is left with. *)
Definition undo_chain (L c : Chain) : Chain := foldl (λ L rm, remove_last rm L) L c.

Lemma proj_undo o r l L c :
  proj o l = proj r L → proj o (foldl (undo o r) l c) = proj r (undo_chain L c).
Proof.
  revert l L. induction c as [|[r' m] c IH]; intros l L E; [done|]. cbn [foldl undo_chain].
  apply IH. unfold undo. cbn [fst snd]. case_decide as D; subst.
  - by rewrite !proj_remove_last, E.
  - by rewrite proj_remove_last_ne.
Qed.

Lemma proj_undo_ne o o' r l c : o ≠ o' → proj o' (foldl (undo o r) l c) = proj o' l.
Proof.
  intros Hne. revert l. induction c as [|rm c IH]; intros l; [done|]. cbn [foldl]. rewrite IH.
  unfold undo. case_decide; [|done]. by rewrite proj_remove_last_ne.
Qed.

(** ** Conflicts *)

Lemma conflicts_sym m m' : conflicts_with m m' = conflicts_with m' m.
Proof. by destruct m, m'. Qed.

Lemma conflicting_false o m l :
  conflicting o m l = false ↔ ∀ o' m', (o', m') ∈ l → o' ≠ o → conflicts_with m m' = false.
Proof.
  unfold conflicting. rewrite existsb_False. split.
  - intros H o' m' Hin Hne. specialize (H _ Hin). cbn in H. by rewrite bool_decide_true in H.
  - intros H [o' m'] Hin. cbn. destruct (decide (o' = o)) as [->|Hne].
    + by rewrite bool_decide_false by tauto.
    + rewrite bool_decide_true by done. cbn. eauto.
Qed.

Lemma conflicting_true o m l :
  conflicting o m l = true ↔ ∃ o' m', (o', m') ∈ l ∧ o' ≠ o ∧ conflicts_with m m' = true.
Proof.
  unfold conflicting. rewrite existsb_True. split.
  - intros ([o' m'] & Hin & [Hne%bool_decide_eq_true Hc]%andb_true_iff). eauto.
  - intros (o' & m' & Hin & Hne & Hc). exists (o', m'). cbn. by rewrite bool_decide_true, Hc.
Qed.

Lemma holds_iff lm r o : holds (head_of lm r) o = true ↔ ∃ m, (o, m) ∈ hol lm r.
Proof.
  unfold holds, hol. rewrite existsb_True. split.
  - intros ([o' m] & Hin & E%bool_decide_eq_true). cbn in E. subst. eauto.
  - intros [m Hin]. exists (o, m). by rewrite bool_decide_true.
Qed.

(** ** Granting in order *)

(** A granted ticket stands in the queue, compatible with the holders and with
    every request before it; and so is each of those. *)
Lemma grantable_loop_spec h t granted q :
  grantable_loop h t granted q = true →
  ∃ q1 o m q2, q = q1 ++ (t, o, m) :: q2 ∧
    blocks h o m = false ∧
    conflicting o m (granted ++ ((λ e : Z * Owner * Mode, (e.1.2, e.2)) <$> q1)) = false ∧
    (∀ t' o' m', (t', o', m') ∈ q1 → t' ≠ t ∧ blocks h o' m' = false ∧ grantable_loop h t' granted q = true).
Proof.
  revert granted. induction q as [|[[t' o'] m'] q IH]; intros granted; [done|]. cbn [grantable_loop].
  destruct (blocks h o' m') eqn:Eb; [done|]. cbn [orb].
  destruct (conflicting o' m' granted) eqn:Ec; [done|].
  case_bool_decide as D.
  - intros _. subst. exists [], o', m', q. cbn. rewrite app_nil_r.
    split_and!; try done. intros ??? Hin. elem_nil.
  - intros (q1 & o & m & q2 & -> & Hb & Hc & Hq)%IH. exists ((t', o', m') :: q1), o, m, q2.
    rewrite <- app_assoc in Hc. split_and!; [done|done|done|]. intros t1 o1 m1 [E|Hin]%elem_of_cons.
    + injection E as -> -> ->. split_and!; [done|done|]. by rewrite bool_decide_true.
    + destruct (Hq _ _ _ Hin) as (Hne & Hb1 & Hg). split_and!; [done|done|].
      by destruct (bool_decide (t' = t1)).
Qed.

Lemma grantable_in h t : grantable h t = true → ∃ o m, (t, o, m) ∈ queue h.
Proof.
  intros (q1 & o & m & q2 & -> & _)%grantable_loop_spec. exists o, m.
  apply elem_of_mid.
Qed.
