(* ===== verification/MongoLogic.v ===== *)
(** * A logic for the threads of the MongoDB server

    A thread owns the owners it made: nobody else takes or lets go a lock for
    them.  [wp p l H ins Q] says that [p], run with the locals [l] by a thread
    whose owners hold exactly [H] (and which is inside the [fsync] mutex when
    [ins]), uses only owners of its own, works only under locks it holds, and ends
    in [Q] -- whatever the other threads do in between.  With [strict] it also
    takes its locks in the order [key], and never [fsync]'s. *)
From stdpp Require Import strings.
From S2P Require Import Prelude RustM Lex Bson Docs MongoLocks MongoRounds MongoProg MongoSystem MongoHeads.
Local Open Scope Z_scope.

Abbreviation heap := (gmap Owner Chain).

(** ** The order of resources

    The global and state transition locks come first; then the databases and the
    collections, those of [config] (where a retryable write keeps its session's
    row) last. *)
Definition contended (r : Resource) : bool :=
  match r with Global | ReplicationStateTransition => false | _ => true end.

Definition in_config (ns : bytes) : bool := bool_decide (before_dot ns = lit "config").

Definition key (r : Resource) : bytes :=
  match r with
  | Database db => [Z.b2z (in_config db); 0] ++ db
  | Collection ns => [Z.b2z (in_config ns); 1] ++ ns
  | r => [2; Z.of_nat (resource_tag r).1]
  end.

Definition res_lt (r r' : Resource) : Prop := bcmp (key r) (key r') = Lt.

#[export] Instance res_lt_dec : RelDecision res_lt.
Proof. intros r r'. unfold res_lt. apply _. Defined.

Lemma res_lt_irrefl r : ¬ res_lt r r.
Proof. unfold res_lt. by rewrite bcmp_refl. Qed.

Lemma res_lt_trans r1 r2 r3 : res_lt r1 r2 → res_lt r2 r3 → res_lt r1 r3.
Proof. apply bcmp_trans_lt. Qed.

(** The modes the uncontended resources are taken in. *)
Definition intent (r : Resource) (m : Mode) : Prop :=
  match r with Global => m = Is ∨ m = Ix | _ => m = Ix end.

#[export] Instance intent_dec r m : Decision (intent r m).
Proof. destruct r; simpl; apply _. Defined.

Definition below (H : heap) (r : Resource) : Prop :=
  ∀ o L r' m', H !! o = Some L → (r', m') ∈ L → contended r' = true → res_lt r' r.

Definition same_scope (l l' : Locals) : Prop :=
  CURRENT l' = CURRENT l ∧ STATEMENT_OWNER l' = STATEMENT_OWNER l ∧ HELD_TO_END l' = HELD_TO_END l.

Lemma same_scope_refl l : same_scope l l.
Proof. done. Qed.

Section logic.
Context (strict : bool).

(** A request in order: an uncontended one in an intent mode, one for a lock the
    owner has already, or one above everything the thread holds. *)
Definition may_acquire (H : heap) (L : Chain) (r : Resource) (m : Mode) : Prop :=
  strict = true →
  if contended r then (r, m) ∈ L ∨ below H r else intent r m.

Fixpoint wp {A} (p : prog A) (l : Locals) (H : heap) (ins : bool)
    (Q : A → Locals → heap → bool → Prop) : Prop :=
  match p with
  | Ret a => Q a l H ins
  | NewOwner _ k => ∀ o, H !! o = None → wp (k o) l (<[o := []]> H) ins Q
  | Acquire o r m k => ∃ L, H !! o = Some L ∧ may_acquire H L r m ∧
      ∀ l', same_scope l l' →
        wp (k true) l' (<[o := L ++ [(r, m)]]> H) ins Q ∧ wp (k false) l' H ins Q
  | Release o k => is_Some (H !! o) ∧ wp k l (<[o := []]> H) ins Q
  | ReleaseHolds o c k => ∃ L, H !! o = Some L ∧ wp k l (<[o := undo_chain L c]> H) ins Q
  | Get k => wp (k l) l H ins Q
  | Put f k => wp k (f l) H ins Q
  | FsyncEnter k => strict = false ∧ ins = false ∧
      ∀ v, match v.2 with
           | None => wp (k v) l H true Q
           | Some o => ∀ L, H !! o = None → wp (k v) l (<[o := L]> H) true Q
           end
  | FsyncLeave v k => ins = true ∧
      match v.2 with
      | None => wp k l H false Q
      | Some o => is_Some (H !! o) ∧ wp k l (delete o H) false Q
      end
  | Work c k => (∀ r m, (r, m) ∈ c → ∃ o L, H !! o = Some L ∧ (r, m) ∈ L) ∧ wp k l H ins Q
  end.

Lemma prog_mono {A} (p : prog A) l H ins (Q Q' : A → Locals → heap → bool → Prop) :
  (∀ a l H ins, Q a l H ins → Q' a l H ins) → wp p l H ins Q → wp p l H ins Q'.
Proof.
  intros HQ. revert l H ins.
  induction p as [a|t k IH|o r m k IH|o k IH|o c k IH|k IH|f k IH|k IH|v k IH|c k IH];
    intros l H ins; cbn [wp]; eauto.
  - intros (L & HL & Hm & Hk). exists L. do 2 (split; [done|]).
    intros l' Hl. destruct (Hk l' Hl). eauto.
  - intros [? ?]. eauto.
  - intros (L & ? & ?). eauto.
  - intros (? & ? & Hk). do 2 (split; [done|]). intros v. specialize (Hk v).
    destruct v.2; eauto.
  - intros [? Hk]. split; [done|]. destruct v.2; [destruct Hk|]; eauto.
  - intros [? ?]. eauto.
Qed.

Lemma prog_bind_wp {A B} (p : prog A) (f : A → prog B) l H ins (Q : B → Locals → heap → bool → Prop) :
  wp p l H ins (λ a l H ins, wp (f a) l H ins Q) → wp (p ≫= f) l H ins Q.
Proof.
  revert l H ins.
  induction p as [a|t k IH|o r m k IH|o k IH|o c k IH|k IH|g k IH|k IH|v k IH|c k IH];
    intros l H ins; cbn [wp mbind prog_bind]; eauto.
  - intros (L & HL & Hm & Hk). exists L. do 2 (split; [done|]).
    intros l' Hl. destruct (Hk l' Hl). split; by apply IH.
  - intros [? ?]. split; [done|]. by apply IH.
  - intros (L & ? & ?). exists L. split; [done|]. by apply IH.
  - intros (? & ? & Hk). do 2 (split; [done|]). intros v. specialize (Hk v).
    destruct v.2; [intros L HL|]; apply IH; eauto.
  - intros [? Hk]. split; [done|]. destruct v.2; [destruct Hk; split; [done|]|]; by apply IH.
  - intros [? ?]. split; [done|]. by apply IH.
Qed.

(** ** The threads' invariant *)

Definition all_empty (H : heap) : Prop := ∀ o L, H !! o = Some L → L = [].

(** A thread that has served everything holds nothing (in a strict system). *)
Definition finished (_ : unit) (_ : Locals) (H : heap) (ins : bool) : Prop :=
  ins = false ∧ (strict = true → all_empty H).

Definition tsafe (t : thread) (H : heap) (ins : bool) : Prop :=
  let l := t_locals t in
  match t_ctl t with
  | At p => wp p l H ins finished
  | Waiting o r m ticket converting tf k => ∃ L, H !! o = Some L ∧
      (converting = true ↔ ∃ m', (r, m') ∈ L) ∧
      (strict = true → contended r = true ∧ below H r) ∧
      ∀ l', same_scope l l' →
        wp (k true) l' (<[o := L ++ [(r, m)]]> H) ins finished ∧ wp (k false) l' H ins finished
  | Counting r m waited tf granted k =>
      ∀ l', same_scope l l' → wp (k granted) l' H ins finished
  end.

Lemma after_acquire_scope r m w tf g l : same_scope l (after_acquire r m w tf g l).
Proof.
  unfold after_acquire, note_taken, note_operation_lock, note_flow_control_ticket, same_scope.
  destruct tf, g; try case_bool_decide; done.
Qed.
End logic.
