(* ===== verification/MongoInv.v ===== *)
(** * The invariant of the MongoDB server's threads, and that every step keeps it

    The heaps of the threads, and of the [fsync] lock, account for every hold;
    holders of one resource are compatible; the queues are the waiting threads.
    Every step of a thread that satisfies its [wp] keeps it. *)
From S2P Require Import Prelude RustM Docs MongoLocks MongoProg MongoSystem MongoHeads MongoLogic.
Local Open Scope Z_scope.

Definition owner_id (o : Owner) : Z := match o with Transaction n | Statement n => n end.

(** Heap [i] of the system has owner [o], holding [L]. *)
Definition owns (Hs : list heap) (i : nat) (o : Owner) (L : Chain) : Prop :=
  ∃ H, Hs !! i = Some H ∧ H !! o = Some L.

Record holds_ok (lm : LockManager) (Hs : list heap) : Prop := {
  hk_disj i j o L L' : owns Hs i o L → owns Hs j o L' → i = j;
  hk_held i o L : owns Hs i o L → ∀ r, proj o (hol lm r) = proj r L;
  hk_own r o m : (o, m) ∈ hol lm r → ∃ i L, owns Hs i o L;
  hk_fresh i o L : owns Hs i o L → owner_id o < next_owner lm;
  hk_compat r o m o' m' : (o, m) ∈ hol lm r → (o', m') ∈ hol lm r → o ≠ o' → conflicts_with m m' = false;
}.

Definition ticket_of (t : thread) : option Z :=
  match t_ctl t with Waiting _ _ _ ticket _ _ _ => Some ticket | _ => None end.

Record queue_ok (lm : LockManager) (ts : list thread) : Prop := {
  qk_entry r t o m : (t, o, m) ∈ que lm r →
    ∃ i th tf k, ts !! i = Some th ∧ t_ctl th = Waiting o r m t false tf k;
  qk_wait i th o r m t conv tf k : ts !! i = Some th → t_ctl th = Waiting o r m t conv tf k →
    t < next_ticket lm ∧ (conv = false → (t, o, m) ∈ que lm r);
  qk_uniq i j th th' t : ts !! i = Some th → ts !! j = Some th' →
    ticket_of th = Some t → ticket_of th' = Some t → i = j;
  qk_sorted r : StronglySorted Z.lt ((λ e : Z * Owner * Mode, e.1.1) <$> que lm r);
}.

Definition fsync_ok (lm : LockManager) (Hs : list heap) (ins : option nat) : Prop :=
  (fsync_busy lm = bool_decide (is_Some ins)) ∧
  ∃ Hf, Hs !! 0%nat = Some Hf ∧
    if fsync_busy lm then Hf = ∅
    else match (fsync lm).2 with None => Hf = ∅ | Some o => ∃ L, Hf = {[o := L]} end.

(** After [n] steps. *)
Definition bounds_ok (n : Z) (lm : LockManager) : Prop :=
  0 ≤ next_owner lm ≤ n + 1 ∧ 0 ≤ next_ticket lm ≤ n + 1.

Section inv.
Context (strict : bool).

Definition strict_ok (lm : LockManager) : Prop :=
  strict = true → ∀ r, contended r = false →
  que lm r = [] ∧ ∀ o m, (o, m) ∈ hol lm r → intent r m.

Definition threads_ok (ts : list thread) (Hs : list heap) (ins : option nat) : Prop :=
  ∀ i th, ts !! i = Some th → ∃ H, Hs !! S i = Some H ∧ tsafe strict th H (bool_decide (ins = Some i)).

Record inv (n : Z) (s : sys) (Hs : list heap) (ins : option nat) : Prop := {
  i_holds : holds_ok (s_lm s) Hs;
  i_queue : queue_ok (s_lm s) (s_threads s);
  i_fsync : fsync_ok (s_lm s) Hs ins;
  i_bounds : bounds_ok n (s_lm s);
  i_length : length Hs = S (length (s_threads s));
  i_strict : strict_ok (s_lm s);
  i_unlocked : strict = true → (fsync (s_lm s)).2 = None ∧ fsync_busy (s_lm s) = false;
  i_threads : threads_ok (s_threads s) Hs ins;
}.
End inv.

(** ** Ownership *)

Lemma owns_insert Hs j H o L i o' L' :
  Hs !! j = Some H →
  owns (<[j := <[o := L]> H]> Hs) i o' L' ↔
  (i = j ∧ o' = o ∧ L' = L) ∨ ((i ≠ j ∨ o' ≠ o) ∧ owns Hs i o' L').
Proof.
  intros Hj. assert (Hlt : (j < length Hs)%nat) by (by eapply lookup_lt_Some).
  unfold owns. destruct (decide (i = j)) as [->|Hne].
  - rewrite list_lookup_insert_eq by done. destruct (decide (o' = o)) as [->|Ho].
    + split.
      * intros (H' & [= <-] & E). rewrite lookup_insert_eq in E. left. naive_solver.
      * intros [(_ & _ & ->)|[[?|?] _]]; [|done|done]. eexists; split; [done|]. apply lookup_insert_eq.
    + split.
      * intros (H' & [= <-] & E). rewrite lookup_insert_ne in E by done. right. eauto.
      * intros [(_ & ? & _)|[_ (H' & E & E')]]; [done|]. rewrite Hj in E. injection E as <-.
        eexists; split; [done|]. by rewrite lookup_insert_ne.
  - rewrite list_lookup_insert_ne by done. split; [intros; right; eauto|]. naive_solver.
Qed.

(** Nobody holds a lock for an owner that does not exist. *)
Lemma unowned_proj lm Hs o r : holds_ok lm Hs → (∀ i L, ¬ owns Hs i o L) → proj o (hol lm r) = [].
Proof.
  intros Hok Hno. destruct (proj o (hol lm r)) as [|m l] eqn:E; [done|]. exfalso.
  assert (Hin : m ∈ proj o (hol lm r)) by (rewrite E; left).
  apply elem_of_proj in Hin. destruct (hk_own _ _ Hok _ _ _ Hin) as (i & L & HL). by eapply Hno.
Qed.

(** One owner of heap [j] now holds [L'], and the others what they held. *)
Lemma holds_ok_update lm lm' Hs j H o L L' :
  holds_ok lm Hs → Hs !! j = Some H → H !! o = Some L →
  next_owner lm' = next_owner lm →
  (∀ r, proj o (hol lm' r) = proj r L') →
  (∀ r o', o' ≠ o → proj o' (hol lm' r) = proj o' (hol lm r)) →
  (∀ r m o' m', (o, m) ∈ hol lm' r → (o', m') ∈ hol lm r → o ≠ o' → conflicts_with m m' = false) →
  holds_ok lm' (<[j := <[o := L']> H]> Hs).
Proof.
  intros Hok Hj Ho Hn Hnew Hold Hc.
  assert (Hown : owns Hs j o L) by (exists H; done).
  assert (Hin : ∀ r o' m, o' ≠ o → (o', m) ∈ hol lm' r ↔ (o', m) ∈ hol lm r).
  { intros r o' m Hne. rewrite <- !elem_of_proj, Hold; done. }
  split.
  - intros i i' o' L1 L2 H1 H2. rewrite owns_insert in H1, H2 by done.
    destruct H1 as [(-> & -> & ->)|[N1 H1]], H2 as [(-> & ? & ->)|[N2 H2]]; subst; try done.
    + by eapply (hk_disj _ _ Hok).
    + by eapply (hk_disj _ _ Hok).
    + by eapply (hk_disj _ _ Hok).
  - intros i o' L1 H1 r. rewrite owns_insert in H1 by done.
    destruct H1 as [(-> & -> & ->)|[N1 H1]]; [done|].
    destruct (decide (o' = o)) as [->|Hne].
    + destruct N1 as [N1|]; [|done]. destruct N1. by eapply (hk_disj _ _ Hok).
    + rewrite Hold by done. by eapply (hk_held _ _ Hok).
  - intros r o' m Hm. destruct (decide (o' = o)) as [->|Hne].
    + exists j, L'. apply owns_insert; auto.
    + rewrite Hin in Hm by done. destruct (hk_own _ _ Hok _ _ _ Hm) as (i & L1 & H1).
      exists i, L1. apply owns_insert; auto.
  - intros i o' L1 H1. rewrite Hn. rewrite owns_insert in H1 by done.
    destruct H1 as [(-> & -> & ->)|[_ H1]]; by eapply (hk_fresh _ _ Hok).
  - intros r o1 m1 o2 m2 H1 H2 Hne.
    destruct (decide (o1 = o)) as [->|N1], (decide (o2 = o)) as [->|N2]; try done.
    + eapply Hc; [done|by apply Hin|done].
    + rewrite conflicts_sym. eapply Hc; [done|by apply Hin|done].
    + rewrite Hin in H1, H2 by done. by eapply (hk_compat _ _ Hok).
Qed.

(** A fresh owner, holding nothing. *)
Lemma holds_ok_new lm lm' Hs j H o :
  holds_ok lm Hs → Hs !! j = Some H → (∀ r, hol lm' r = hol lm r) →
  (∀ i L, ¬ owns Hs i o L) → owner_id o < next_owner lm' → next_owner lm ≤ next_owner lm' →
  holds_ok lm' (<[j := <[o := []]> H]> Hs).
Proof.
  intros Hok Hj Hh Hno Hid Hle. split.
  - intros i i' o' L1 L2 H1 H2. rewrite owns_insert in H1, H2 by done.
    destruct H1 as [(-> & -> & ->)|[N1 H1]], H2 as [(-> & ? & ->)|[N2 H2]]; subst; try done.
    + by destruct (Hno _ _ H2).
    + by destruct (Hno _ _ H1).
    + by eapply (hk_disj _ _ Hok).
  - intros i o' L1 H1 r. rewrite owns_insert in H1 by done. rewrite Hh.
    destruct H1 as [(-> & -> & ->)|[N1 H1]]; [by apply (unowned_proj _ Hs)|].
    by eapply (hk_held _ _ Hok).
  - intros r o' m Hm. rewrite Hh in Hm. destruct (hk_own _ _ Hok _ _ _ Hm) as (i & L1 & H1).
    exists i, L1. apply owns_insert; [done|]. right. split; [|done].
    destruct (decide (o' = o)) as [->|]; [|auto]. by destruct (Hno _ _ H1).
  - intros i o' L1 H1. rewrite owns_insert in H1 by done.
    destruct H1 as [(-> & -> & ->)|[_ H1]]; [done|].
    eapply Z.lt_le_trans; [by eapply (hk_fresh _ _ Hok)|done].
  - intros r o1 m1 o2 m2. rewrite Hh. apply (hk_compat _ _ Hok).
Qed.

(** The same owners, handed over between heaps. *)
Lemma holds_ok_reshuffle lm lm' Hs Hs' :
  holds_ok lm Hs → (∀ r, hol lm' r = hol lm r) → next_owner lm' = next_owner lm →
  (∀ o L, (∃ i, owns Hs' i o L) ↔ ∃ i, owns Hs i o L) →
  (∀ i j o L L', owns Hs' i o L → owns Hs' j o L' → i = j) →
  holds_ok lm' Hs'.
Proof.
  intros Hok Hh Hn Hiff Hd. split; [done|..].
  - intros i o L Ho r. rewrite Hh. destruct (proj1 (Hiff o L)) as [i' Ho']; [eauto|].
    by eapply (hk_held _ _ Hok).
  - intros r o m Hm. rewrite Hh in Hm. destruct (hk_own _ _ Hok _ _ _ Hm) as (i & L & Ho).
    destruct (proj2 (Hiff o L)) as [i' Ho']; eauto.
  - intros i o L Ho. rewrite Hn. destruct (proj1 (Hiff o L)) as [i' Ho']; [eauto|].
    by eapply (hk_fresh _ _ Hok).
  - intros r o1 m1 o2 m2. rewrite Hh. apply (hk_compat _ _ Hok).
Qed.

Lemma holds_ok_same lm lm' Hs :
  holds_ok lm Hs → (∀ r, hol lm' r = hol lm r) → next_owner lm' = next_owner lm → holds_ok lm' Hs.
Proof. intros Hok Hh Hn. eapply holds_ok_reshuffle; eauto. apply (hk_disj _ _ Hok). Qed.

(** ** Queues *)

Lemma sorted_snoc (l : list Z) x :
  StronglySorted Z.lt l → (∀ y, y ∈ l → y < x) → StronglySorted Z.lt (l ++ [x]).
Proof.
  intros Hl Hx. apply StronglySorted_app. split_and!; [|done|repeat constructor].
  intros y z Hy Hz%list_elem_of_singleton. subst. auto.
Qed.

Lemma sorted_filter {A} (f : A → Z) (P : A → Prop) `{∀ x, Decision (P x)} l :
  StronglySorted Z.lt (f <$> l) → StronglySorted Z.lt (f <$> filter P l).
Proof.
  induction l as [|x l IH]; [done|]. rewrite fmap_cons. intros Hs. inversion Hs as [|? ? Hl Hx]; subst.
  rewrite filter_cons. case_decide; [|by apply IH]. rewrite fmap_cons. constructor; [by apply IH|].
  rewrite Forall_forall in Hx |- *. intros y (z & -> & [_ Hz]%list_elem_of_filter)%list_elem_of_fmap.
  apply Hx. apply list_elem_of_fmap. eauto.
Qed.

(** A thread that waits neither before nor after. *)
Lemma queue_ok_keep lm lm' ts i th th' :
  queue_ok lm ts → ts !! i = Some th → ticket_of th = None → ticket_of th' = None →
  (∀ r, que lm' r = que lm r) → next_ticket lm' = next_ticket lm →
  queue_ok lm' (<[i := th']> ts).
Proof.
  intros Hok Hi Ht Ht' Hq Hn.
  assert (Hlt : (i < length ts)%nat) by (by eapply lookup_lt_Some).
  assert (Hw : ∀ j u, <[i := th']> ts !! j = Some u → is_Some (ticket_of u) → ts !! j = Some u).
  { intros j u Hj Hu. destruct (decide (j = i)) as [->|Hne].
    - rewrite list_lookup_insert_eq in Hj by done. injection Hj as <-. rewrite Ht' in Hu. by destruct Hu.
    - by rewrite list_lookup_insert_ne in Hj. }
  split.
  - intros r t o m Hin. rewrite Hq in Hin.
    destruct (qk_entry _ _ Hok _ _ _ _ Hin) as (j & u & tf & k & Hj & Hc).
    exists j, u, tf, k. split; [|done]. rewrite list_lookup_insert_ne; [done|].
    intros <-. rewrite Hi in Hj. injection Hj as <-. unfold ticket_of in Ht. by rewrite Hc in Ht.
  - intros j u o r m t conv tf k Hj Hc. rewrite Hn, Hq. eapply (qk_wait _ _ Hok); [|done].
    apply Hw; [done|]. unfold ticket_of. rewrite Hc. eauto.
  - intros j j' u u' t Hj Hj' Hu Hu'. eapply (qk_uniq _ _ Hok); eauto.
  - intros r. rewrite Hq. apply (qk_sorted _ _ Hok).
Qed.

(** A thread begins to wait. *)
Lemma queue_ok_enqueue lm lm' ts i th o r m conv tf k l :
  queue_ok lm ts → ts !! i = Some th → ticket_of th = None →
  (∀ r', que lm' r' = if decide (r' = r) then
                        (if conv : bool then que lm r else que lm r ++ [(next_ticket lm, o, m)])
                      else que lm r') →
  next_ticket lm' = next_ticket lm + 1 →
  queue_ok lm' (<[i := mkThread (Waiting o r m (next_ticket lm) conv tf k) l]> ts).
Proof.
  intros Hok Hi Ht Hq Hn. set (th' := mkThread _ _).
  assert (Hlt : (i < length ts)%nat) by (by eapply lookup_lt_Some).
  assert (Hsub : ∀ r' e, e ∈ que lm r' → e ∈ que lm' r').
  { intros r' e He. rewrite Hq. case_decide; [|done]. subst. destruct conv; [done|].
    by apply elem_of_app_l. }
  assert (Hold : ∀ j u t, <[i := th']> ts !! j = Some u → j ≠ i → ticket_of u = Some t →
            ts !! j = Some u ∧ t < next_ticket lm).
  { intros j u t Hj Hne Hu. rewrite list_lookup_insert_ne in Hj by done. split; [done|].
    unfold ticket_of in Hu. destruct (t_ctl u) eqn:Ec; try done. injection Hu as ->.
    by destruct (qk_wait _ _ Hok _ _ _ _ _ _ _ _ _ Hj Ec). }
  split.
  - intros r' t o' m' Hin. rewrite Hq in Hin.
    assert (Hcase : (t, o', m') ∈ que lm r' ∨ (r' = r ∧ conv = false ∧ (t, o', m') = (next_ticket lm, o, m))).
    { case_decide as D; [|by left]. subst. destruct conv; [by left|].
      apply elem_of_app in Hin as [?|Hin]; [by left|]. apply list_elem_of_singleton in Hin. by right. }
    destruct Hcase as [Hin'|(-> & -> & [= -> -> ->])].
    + destruct (qk_entry _ _ Hok _ _ _ _ Hin') as (j & u & tf' & k' & Hj & Hc).
      exists j, u, tf', k'. split; [|done]. rewrite list_lookup_insert_ne; [done|].
      intros <-. rewrite Hi in Hj. injection Hj as <-. unfold ticket_of in Ht. by rewrite Hc in Ht.
    + exists i, th', tf, k. by rewrite list_lookup_insert_eq.
  - intros j u o' r' m' t conv' tf' k' Hj Hc. rewrite Hn. destruct (decide (j = i)) as [->|Hne].
    + rewrite list_lookup_insert_eq in Hj by done. injection Hj as <-. cbn in Hc. injection Hc; intros; subst.
      split; [lia|]. intros ->. rewrite Hq, decide_True by done. apply elem_of_app. right.
      by apply list_elem_of_singleton.
    + rewrite list_lookup_insert_ne in Hj by done.
      destruct (qk_wait _ _ Hok _ _ _ _ _ _ _ _ _ Hj Hc) as [? Hin]. split; [lia|]. eauto.
  - intros j j' u u' t Hj Hj' Hu Hu'.
    destruct (decide (j = i)) as [->|N], (decide (j' = i)) as [->|N']; [done|..].
    + rewrite list_lookup_insert_eq in Hj by done. injection Hj as <-. injection Hu as <-.
      destruct (Hold _ _ _ Hj' N' Hu'). lia.
    + rewrite list_lookup_insert_eq in Hj' by done. injection Hj' as <-. injection Hu' as <-.
      destruct (Hold _ _ _ Hj N Hu). lia.
    + destruct (Hold _ _ _ Hj N Hu), (Hold _ _ _ Hj' N' Hu'). by eapply (qk_uniq _ _ Hok).
  - intros r'. rewrite Hq. destruct (decide (r' = r)) as [->|]; [|apply (qk_sorted _ _ Hok)].
    destruct conv; [apply (qk_sorted _ _ Hok)|]. rewrite fmap_app. cbn.
    apply sorted_snoc; [apply (qk_sorted _ _ Hok)|]. intros t ([[t' o'] m'] & -> & Hin)%list_elem_of_fmap.
    destruct (qk_entry _ _ Hok _ _ _ _ Hin) as (j & u & tf' & k' & Hj & Hc).
    by destruct (qk_wait _ _ Hok _ _ _ _ _ _ _ _ _ Hj Hc).
Qed.

(** A thread's wait ends: its ticket leaves the queue. *)
Lemma queue_ok_dequeue lm lm' ts i th o r m t conv tf k th' :
  queue_ok lm ts → ts !! i = Some th → t_ctl th = Waiting o r m t conv tf k → ticket_of th' = None →
  (∀ r', que lm' r' = if decide (r' = r) then filter (λ e : Z * Owner * Mode, e.1.1 ≠ t) (que lm r)
                      else que lm r') →
  next_ticket lm' = next_ticket lm →
  queue_ok lm' (<[i := th']> ts).
Proof.
  intros Hok Hi Hth Ht' Hq Hn.
  assert (Hlt : (i < length ts)%nat) by (by eapply lookup_lt_Some).
  assert (Hti : ticket_of th = Some t) by (unfold ticket_of; by rewrite Hth).
  assert (Hw : ∀ j u t', <[i := th']> ts !! j = Some u → ticket_of u = Some t' → ts !! j = Some u ∧ t' ≠ t).
  { intros j u t' Hj Hu. destruct (decide (j = i)) as [->|Hne].
    - rewrite list_lookup_insert_eq in Hj by done. injection Hj as <-. by rewrite Ht' in Hu.
    - rewrite list_lookup_insert_ne in Hj by done. split; [done|]. intros ->.
      destruct Hne. by eapply (qk_uniq _ _ Hok). }
  assert (Hin : ∀ r' e, e ∈ que lm' r' → e ∈ que lm r' ∧ (r' = r → e.1.1 ≠ t)).
  { intros r' e. rewrite Hq. case_decide; subst; [|done]. intros [? ?]%list_elem_of_filter. done. }
  split.
  - intros r' t' o' m' He. destruct (Hin _ _ He) as [He' Hne].
    destruct (qk_entry _ _ Hok _ _ _ _ He') as (j & u & tf' & k' & Hj & Hc).
    exists j, u, tf', k'. split; [|done]. rewrite list_lookup_insert_ne; [done|].
    intros <-. rewrite Hi in Hj. injection Hj as <-. rewrite Hth in Hc.
    injection Hc; intros; subst. by apply Hne.
  - intros j u o' r' m' t' conv' tf' k' Hj Hc. rewrite Hn.
    destruct (Hw j u t' Hj) as [Hj' Hne]; [unfold ticket_of; by rewrite Hc|].
    destruct (qk_wait _ _ Hok _ _ _ _ _ _ _ _ _ Hj' Hc) as [? He]. split; [done|].
    intros E. specialize (He E). rewrite Hq. case_decide; subst; [|done].
    by apply list_elem_of_filter.
  - intros j j' u u' t' Hj Hj' Hu Hu'. destruct (Hw _ _ _ Hj Hu), (Hw _ _ _ Hj' Hu').
    by eapply (qk_uniq _ _ Hok).
  - intros r'. rewrite Hq. destruct (decide (r' = r)) as [->|]; [|apply (qk_sorted _ _ Hok)].
    apply sorted_filter, (qk_sorted _ _ Hok).
Qed.

(** ** Every step of a thread keeps the invariant of the system *)

(** ** What [acquire]'s sections do *)

Definition same_counters (lm lm' : LockManager) : Prop :=
  next_owner lm' = next_owner lm ∧ fsync lm' = fsync lm ∧ fsync_busy lm' = fsync_busy lm.

Lemma acquire_start_granted o r m lm tf lm' :
  acquire_start o r m lm = (Granted tf, lm') →
  blocks (head_of lm r) o m = false ∧ (que lm r = [] ∨ holds (head_of lm r) o = true) ∧
  (∀ r', hol lm' r' = if decide (r' = r) then hol lm r ++ [(o, m)] else hol lm r') ∧
  (∀ r', que lm' r' = que lm r') ∧ same_counters lm lm' ∧ next_ticket lm' = next_ticket lm.
Proof.
  unfold acquire_start. destruct (negb _ && _) eqn:E; [|done]. intros [= <- <-].
  apply andb_true_iff in E as [E1 E2]. apply negb_true_iff in E1.
  split_and!; try done.
  - apply orb_true_iff in E2 as [E2|E2]; [|by right]. left. by apply bool_decide_eq_true in E2.
  - intros r'. unfold hol. rewrite head_of_with. by case_decide.
  - intros r'. unfold que. rewrite head_of_with. by case_decide; subst.
Qed.

Lemma acquire_start_queued o r m lm t conv tf lm' :
  acquire_start o r m lm = (Queued t conv tf, lm') →
  (blocks (head_of lm r) o m = true ∨ (que lm r ≠ [] ∧ holds (head_of lm r) o = false)) ∧
  conv = holds (head_of lm r) o ∧ t = next_ticket lm ∧
  (∀ r', hol lm' r' = hol lm r') ∧
  (∀ r', que lm' r' = if decide (r' = r) then
                        (if conv : bool then que lm r else que lm r ++ [(next_ticket lm, o, m)])
                      else que lm r') ∧
  same_counters lm lm' ∧ next_ticket lm' = wrap 64 (next_ticket lm + 1).
Proof.
  unfold acquire_start. destruct (negb _ && _) eqn:E; [done|]. intros [= <- <- <- <-].
  split_and!; try done.
  - apply andb_false_iff in E as [E|E]; [left; by apply negb_false_iff|].
    apply orb_false_iff in E as [E1 E2]. right. by apply bool_decide_eq_false in E1.
  - intros r'. unfold hol. erewrite head_of_insert by done. case_decide; [|done]. subst.
    by destruct (holds _ _).
  - intros r'. unfold que. erewrite head_of_insert by done. case_decide; [|done]. subst.
    by destruct (holds _ _).
Qed.

Definition dequeued (lm lm' : LockManager) (r : Resource) (t : Z) : Prop :=
  ∀ r', que lm' r' = if decide (r' = r) then filter (λ e : Z * Owner * Mode, e.1.1 ≠ t) (que lm r)
                     else que lm r'.

Lemma acquire_pass_granted o r m t conv e lm lm' :
  acquire_pass o r m t conv e lm = (Some true, lm') →
  ready (head_of lm r) o m t conv = true ∧
  (∀ r', hol lm' r' = if decide (r' = r) then hol lm r ++ [(o, m)] else hol lm r') ∧
  dequeued lm lm' r t ∧ same_counters lm lm' ∧ next_ticket lm' = next_ticket lm.
Proof.
  unfold acquire_pass. destruct (ready _ _ _ _ _) eqn:E; [|by destruct e]. intros [= <-].
  split_and!; try done.
  - intros r'. unfold hol. rewrite head_of_with. by case_decide.
  - intros r'. unfold que. rewrite head_of_with. by case_decide.
Qed.

Lemma acquire_pass_expired o r m t conv e lm lm' :
  acquire_pass o r m t conv e lm = (Some false, lm') →
  e = true ∧ ready (head_of lm r) o m t conv = false ∧ (∀ r', hol lm' r' = hol lm r') ∧
  dequeued lm lm' r t ∧ same_counters lm lm' ∧ next_ticket lm' = next_ticket lm.
Proof.
  unfold acquire_pass. destruct (ready _ _ _ _ _) eqn:E; [done|]. destruct e; [|done]. intros [= <-].
  split_and!; try done.
  - intros r'. unfold hol. rewrite head_of_with. by case_decide; subst.
  - intros r'. unfold que. rewrite head_of_with. by case_decide.
Qed.

Lemma acquire_pass_wait o r m t conv e lm lm' :
  acquire_pass o r m t conv e lm = (None, lm') →
  e = false ∧ ready (head_of lm r) o m t conv = false ∧ (∀ r', hol lm' r' = hol lm r') ∧
  (∀ r', que lm' r' = que lm r') ∧ same_counters lm lm' ∧ next_ticket lm' = next_ticket lm.
Proof.
  unfold acquire_pass. destruct (ready _ _ _ _ _) eqn:E; [done|]. destruct e; [done|]. intros [= <-].
  split_and!; try done.
  - intros r'. unfold hol. rewrite head_of_with. by case_decide; subst.
  - intros r'. unfold que. rewrite head_of_with. by case_decide; subst.
Qed.

Lemma intent_compatible r m m' :
  intent r m → intent r m' → conflicts_with m m' = false.
Proof. destruct r; simpl; intros; destruct_or?; by subst. Qed.

(** A ready waiter is compatible with the other holders. *)
Lemma ready_compatible lm ts i th o r m t conv tf k :
  queue_ok lm ts → ts !! i = Some th → t_ctl th = Waiting o r m t conv tf k →
  ready (head_of lm r) o m t conv = true → blocks (head_of lm r) o m = false.
Proof.
  intros Hok Hi Hth. unfold ready. destruct conv; [by intros ?%negb_true_iff|].
  intros (q1 & o' & m' & q2 & Hq & Hb & _)%grantable_loop_spec.
  assert (Hin : (t, o', m') ∈ que lm r).
  { unfold que. rewrite Hq. apply elem_of_mid. }
  destruct (qk_entry _ _ Hok _ _ _ _ Hin) as (j & u & tf' & k' & Hj & Hc).
  assert (j = i) as ->.
  { eapply (qk_uniq _ _ Hok); [done|done| |]; unfold ticket_of; [by rewrite Hc|by rewrite Hth]. }
  rewrite Hi in Hj. injection Hj as <-. rewrite Hth in Hc. by injection Hc as -> -> _ _.
Qed.

(** ** The parts of the invariant *)

Lemma fsync_ok_other lm lm' Hs ins i H :
  fsync_ok lm Hs ins → same_counters lm lm' → fsync_ok lm' (<[S i := H]> Hs) ins.
Proof.
  intros [Hb (Hf & H0 & Hm)] (_ & E1 & E2). unfold fsync_ok. rewrite E1, E2. split; [done|].
  exists Hf. by rewrite list_lookup_insert_ne.
Qed.

Lemma strict_ok_sub strict lm lm' :
  strict_ok strict lm →
  (strict = true → ∀ r, contended r = false →
     (que lm r = [] → que lm' r = []) ∧ ∀ o m, (o, m) ∈ hol lm' r → (o, m) ∈ hol lm r ∨ intent r m) →
  strict_ok strict lm'.
Proof.
  intros Hok Hsub Hs r Hr. destruct (Hok Hs r Hr) as [Hq Hh], (Hsub Hs r Hr) as [Hq' Hh'].
  split; [auto|]. intros o m Hin. destruct (Hh' _ _ Hin); eauto.
Qed.

Lemma threads_ok_update strict ts Hs Hs' ins ins' i th H' :
  threads_ok strict ts Hs ins → (i < length ts)%nat →
  tsafe strict th H' (bool_decide (ins' = Some i)) →
  (∀ j, j ≠ i → is_Some (ts !! j) → bool_decide (ins' = Some j) = bool_decide (ins = Some j)) →
  Hs' !! S i = Some H' → (∀ j, j ≠ i → Hs' !! S j = Hs !! S j) →
  threads_ok strict (<[i := th]> ts) Hs' ins'.
Proof.
  intros Hok Hlt Hs1 Hins HH Hothers j u Hj. destruct (decide (j = i)) as [->|Hne].
  - rewrite list_lookup_insert_eq in Hj by done. injection Hj as <-. eauto.
  - rewrite list_lookup_insert_ne in Hj by done. destruct (Hok _ _ Hj) as (H & HH' & Hsafe).
    exists H. rewrite Hothers, Hins by eauto. done.
Qed.

Lemma threads_ok_one strict ts Hs ins i th H H' :
  threads_ok strict ts Hs ins → (i < length ts)%nat → Hs !! S i = Some H →
  tsafe strict th H' (bool_decide (ins = Some i)) →
  threads_ok strict (<[i := th]> ts) (<[S i := H']> Hs) ins.
Proof.
  intros Hok Hlt HH Hs1. eapply threads_ok_update; [done..| |].
  - apply list_lookup_insert_eq. by eapply lookup_lt_Some.
  - intros j Hne. apply list_lookup_insert_ne. congruence.
Qed.

(** A step that changes only one thread, its heap, the holders and the queues. *)
Lemma inv_one strict n s Hs ins i th H th' H' lm' :
  inv strict n s Hs ins → s_threads s !! i = Some th → Hs !! S i = Some H →
  holds_ok lm' (<[S i := H']> Hs) → queue_ok lm' (<[i := th']> (s_threads s)) →
  fsync lm' = fsync (s_lm s) → fsync_busy lm' = fsync_busy (s_lm s) →
  bounds_ok (n + 1) lm' → strict_ok strict lm' →
  tsafe strict th' H' (bool_decide (ins = Some i)) →
  inv strict (n + 1) (mkSys lm' (<[i := th']> (s_threads s))) (<[S i := H']> Hs) ins.
Proof.
  intros Hinv Hi HH Hho Hqu Hf Hb Hbo Hst Hts. split; cbn; try done.
  - destruct (i_fsync _ _ _ _ _ Hinv) as [Hb0 (Hf0 & H0 & Hm)]. unfold fsync_ok.
    rewrite Hf, Hb. split; [done|]. exists Hf0. by rewrite list_lookup_insert_ne.
  - rewrite !length_insert. apply (i_length _ _ _ _ _ Hinv).
  - rewrite Hf, Hb. apply (i_unlocked _ _ _ _ _ Hinv).
  - eapply threads_ok_one; [apply (i_threads _ _ _ _ _ Hinv)|by eapply lookup_lt_Some|done|done].
Qed.

(** ** One lemma per kind of step *)

Section steps.
Context (strict : bool) (n : Z) (s : sys) (Hs : list heap) (ins : option nat).
Context (i : nat) (th : thread) (H : heap).
Context (Hinv : inv strict n s Hs ins) (Hi : s_threads s !! i = Some th) (HH : Hs !! S i = Some H).
Context (Hn : 0 ≤ n < 2 ^ 64 - 2).

Local Abbreviation lm := (s_lm s).
Local Abbreviation ts := (s_threads s).
Local Abbreviation flag := (bool_decide (ins = Some i)).

Lemma bounds_same lm' :
  next_owner lm' = next_owner lm → next_ticket lm' = next_ticket lm → bounds_ok (n + 1) lm'.
Proof.
  intros E1 E2. destruct (i_bounds _ _ _ _ _ Hinv) as [? ?].
  unfold bounds_ok. rewrite E1, E2. lia.
Qed.

Lemma wrap_next z : 0 ≤ z ≤ n + 1 → wrap 64 (z + 1) = z + 1.
Proof. intros. unfold wrap. apply Z.mod_small. lia. Qed.

(** Nothing but the thread and the statistics changes. *)
Lemma step_quiet th' lm' :
  (∀ r, hol lm' r = hol lm r) → (∀ r, que lm' r = que lm r) → same_counters lm lm' →
  next_ticket lm' = next_ticket lm →
  ticket_of th = None → ticket_of th' = None → tsafe strict th' H flag →
  ∃ Hs' ins', inv strict (n + 1) (mkSys lm' (<[i := th']> ts)) Hs' ins'.
Proof.
  intros Eh Eq (Eo & Ef & Eb) Et Ht Ht' Hsafe. exists (<[S i := H]> Hs), ins.
  eapply inv_one; try done.
  - rewrite list_insert_id by done. eapply holds_ok_same; [apply (i_holds _ _ _ _ _ Hinv)|done..].
  - eapply queue_ok_keep; [apply (i_queue _ _ _ _ _ Hinv)|done..].
  - by apply bounds_same.
  - eapply strict_ok_sub; [apply (i_strict _ _ _ _ _ Hinv)|]. intros _ r _. rewrite Eq, Eh. auto.
Qed.

(** The owner's hold is pushed; the thread goes on to its counting. *)
Lemma push_holds o r m L lm' :
  H !! o = Some L → blocks (head_of lm r) o m = false →
  (∀ r', hol lm' r' = if decide (r' = r) then hol lm r ++ [(o, m)] else hol lm r') →
  next_owner lm' = next_owner lm →
  holds_ok lm' (<[S i := <[o := L ++ [(r, m)]]> H]> Hs).
Proof.
  intros Ho Hb Eh En. pose proof (i_holds _ _ _ _ _ Hinv) as Hok.
  assert (Hheld : ∀ r', proj o (hol lm r') = proj r' L).
  { eapply (hk_held _ _ Hok). exists H. eauto. }
  eapply holds_ok_update; try done.
  - intros r'. rewrite Eh. case_decide as D; subst.
    + by rewrite !proj_push, Hheld.
    + by rewrite proj_push_ne by congruence.
  - intros r' o' Hne. rewrite Eh. case_decide; subst; [by rewrite proj_push_ne by congruence|done].
  - intros r' m1 o' m' H1 H2 Hne. rewrite Eh in H1.
    assert (Hold : (o, m1) ∈ hol lm r' → conflicts_with m1 m' = false) by (intros; by eapply (hk_compat _ _ Hok)).
    case_decide as D; [subst|by apply Hold].
    apply elem_of_app in H1 as [H1|H1]; [by apply Hold|].
    apply list_elem_of_singleton in H1 as [= ->].
    eapply conflicting_false; [exact Hb|exact H2|congruence].
Qed.

Lemma push_strict o r m L lm' :
  H !! o = Some L → may_acquire strict H L r m →
  (∀ r', hol lm' r' = if decide (r' = r) then hol lm r ++ [(o, m)] else hol lm r') →
  (∀ r', contended r' = false → que lm r' = [] → que lm' r' = []) →
  strict_ok strict lm'.
Proof.
  intros Ho Hm Eh Eq. eapply strict_ok_sub; [apply (i_strict _ _ _ _ _ Hinv)|].
  intros Hst r' Hr. split; [by apply Eq|]. intros o' m'. rewrite Eh. destruct (decide (r' = r)) as [->|]; [|by left].
  intros [?|E]%elem_of_app; [by left|]. apply list_elem_of_singleton in E as [= -> ->].
  right. specialize (Hm Hst). by rewrite Hr in Hm.
Qed.

(** In a strict system a request that waits is for a contended resource, above
    everything the thread holds. *)
Lemma queued_below o r m L t conv tf lm' :
  H !! o = Some L → may_acquire strict H L r m → acquire_start o r m lm = (Queued t conv tf, lm') →
  strict = true → contended r = true ∧ below H r.
Proof.
  intros Ho Hm Eq Hst. destruct (acquire_start_queued _ _ _ _ _ _ _ _ Eq) as (Hwhy & _).
  pose proof (i_holds _ _ _ _ _ Hinv) as Hok.
  specialize (Hm Hst). destruct (contended r) eqn:Hc.
  - split; [done|]. destruct Hm as [Hin|]; [exfalso|done].
    assert (Hin' : (o, m) ∈ hol lm r).
    { apply elem_of_proj. erewrite (hk_held _ _ Hok) by (exists H; eauto). by apply elem_of_proj. }
    destruct Hwhy as [(o' & m' & Hin2 & Hne & Hcf)%conflicting_true|[_ Hnh]].
    + rewrite (hk_compat _ _ Hok r o m o' m') in Hcf; [done..|congruence].
    + enough (holds (head_of lm r) o = true) by congruence. apply holds_iff. eauto.
  - exfalso. destruct (i_strict _ _ _ _ _ Hinv Hst r Hc) as [Hq Hh].
    destruct Hwhy as [(o' & m' & Hin2 & _ & Hcf)%conflicting_true|[? _]]; [|done].
    rewrite (intent_compatible r m m') in Hcf; [done|done|by eapply Hh].
Qed.

Lemma step_acquire o r m k ev th' lm' :
  t_ctl th = At (Acquire o r m k) → tsafe strict th H flag →
  tstep ev th lm = Some (th', lm') →
  ∃ Hs' ins', inv strict (n + 1) (mkSys lm' (<[i := th']> ts)) Hs' ins'.
Proof.
  intros Hc Hsafe Hstep. unfold tstep, tsafe in *. rewrite Hc in *. cbn [wp] in Hsafe.
  destruct Hsafe as (L & Ho & Hm & Hk).
  pose proof (i_holds _ _ _ _ _ Hinv) as Hok.
  destruct (acquire_start o r m lm) as [[tf|t conv tf] lm1] eqn:E; injection Hstep as <- <-.
  - destruct (acquire_start_granted _ _ _ _ _ _ E) as (Hb & _ & Eh & Eq & (Eo & Ef & Eb) & Et).
    exists (<[S i := <[o := L ++ [(r, m)]]> H]> Hs), ins. eapply inv_one; try done.
    + by eapply push_holds.
    + eapply queue_ok_keep; [apply (i_queue _ _ _ _ _ Hinv)|done| |done..]. unfold ticket_of. by rewrite Hc.
    + by apply bounds_same.
    + eapply push_strict; try done. intros r' _. by rewrite Eq.
    + intros l' Hl. by apply Hk.
  - pose proof (queued_below _ _ _ _ _ _ _ _ Ho Hm E) as Hbelow.
    destruct (acquire_start_queued _ _ _ _ _ _ _ _ E) as (_ & Hconv & -> & Eh & Eq & (Eo & Ef & Eb) & Et).
    destruct (i_bounds _ _ _ _ _ Hinv) as [Hb1 Hb2].
    rewrite wrap_next in Et by done.
    exists (<[S i := H]> Hs), ins. eapply inv_one; try done.
    + rewrite list_insert_id by done. eapply holds_ok_same; eauto.
    + eapply queue_ok_enqueue; [apply (i_queue _ _ _ _ _ Hinv)|done| |done..]. unfold ticket_of. by rewrite Hc.
    + unfold bounds_ok. rewrite Eo, Et. lia.
    + eapply strict_ok_sub; [apply (i_strict _ _ _ _ _ Hinv)|].  intros Hst r' Hr. rewrite Eh.
      split; [|by left]. rewrite Eq. destruct (decide (r' = r)) as [->|]; [|done].
      destruct (Hbelow Hst) as [Hc' _]. congruence.
    + cbn. exists L. split; [done|]. split_and!; [|done|done].
      rewrite Hconv, holds_iff.
      pose proof (hk_held _ _ Hok _ _ _ (ex_intro _ H (conj HH Ho)) r) as Hp.
      split; intros [m' Hm']; exists m'; apply elem_of_proj; [rewrite <- Hp|rewrite Hp]; by apply elem_of_proj.
Qed.
Lemma step_pass o r m t conv tf k ev th' lm' :
  t_ctl th = Waiting o r m t conv tf k → tsafe strict th H flag →
  tstep ev th lm = Some (th', lm') →
  ∃ Hs' ins', inv strict (n + 1) (mkSys lm' (<[i := th']> ts)) Hs' ins'.
Proof.
  intros Hc Hsafe Hstep. pose proof Hsafe as Hsafe0.
  unfold tstep in Hstep. unfold tsafe in Hsafe. rewrite Hc in Hstep, Hsafe.
  destruct Hsafe as (L & Ho & Hcv & Hm & Hk).
  pose proof (i_queue _ _ _ _ _ Hinv) as Hq.
  pose proof (i_holds _ _ _ _ _ Hinv) as Hok.
  assert (Hde : ∀ lm1 r', dequeued lm lm1 r t → que lm r' = [] → que lm1 r' = []).
  { intros lm1 r' Hd E. rewrite Hd. destruct (decide (r' = r)) as [->|]; [|done]. by rewrite E. }
  destruct (acquire_pass o r m t conv (expired ev) lm) as [[[]|] lm1] eqn:E; injection Hstep as <- <-.
  - destruct (acquire_pass_granted _ _ _ _ _ _ _ _ E) as (Hr & Eh & Eq & (Eo & Ef & Eb) & Et).
    exists (<[S i := <[o := L ++ [(r, m)]]> H]> Hs), ins. eapply inv_one; try done.
    + eapply push_holds; try done. by eapply ready_compatible.
    + by eapply queue_ok_dequeue.
    + by apply bounds_same.
    + eapply (push_strict o r m L); [done| |done|eauto].
      intros Hst. destruct (Hm Hst) as [-> ?]. by right.
    + intros l' Hl. by apply Hk.
  - destruct (acquire_pass_expired _ _ _ _ _ _ _ _ E) as (_ & _ & Eh & Eq & (Eo & Ef & Eb) & Et).
    exists (<[S i := H]> Hs), ins. eapply inv_one; try done.
    + rewrite list_insert_id by done. by eapply holds_ok_same.
    + by eapply queue_ok_dequeue.
    + by apply bounds_same.
    + eapply strict_ok_sub; [apply (i_strict _ _ _ _ _ Hinv)|]. intros _ r' _. rewrite Eh. eauto.
    + intros l' Hl. by apply Hk.
  - destruct (acquire_pass_wait _ _ _ _ _ _ _ _ E) as (_ & _ & Eh & Eq & (Eo & Ef & Eb) & Et).
    exists (<[S i := H]> Hs), ins. eapply inv_one; try done.
    + rewrite list_insert_id by done. by eapply holds_ok_same.
    + rewrite list_insert_id by done. destruct Hq as [Q1 Q2 Q3 Q4]. split; [| |done|].
      * intros r' t' o' m'. rewrite Eq. apply Q1.
      * intros j u o' r' m' t' conv' tf' k' ? ?. rewrite Eq, Et. by eapply Q2.
      * intros r'. rewrite Eq. apply Q4.
    + by apply bounds_same.
    + eapply strict_ok_sub; [apply (i_strict _ _ _ _ _ Hinv)|]. intros _ r' _. rewrite Eq, Eh. auto.
Qed.

(** An owner's holds shrink; the thread was and is not waiting. *)
Lemma step_shrink o L L' th' lm' :
  H !! o = Some L →
  (∀ r, proj o (hol lm' r) = proj r L') → (∀ r o', o' ≠ o → proj o' (hol lm' r) = proj o' (hol lm r)) →
  (∀ r p, p ∈ hol lm' r → p ∈ hol lm r) →
  (∀ r, que lm' r = que lm r) → same_counters lm lm' → next_ticket lm' = next_ticket lm →
  ticket_of th = None → ticket_of th' = None → tsafe strict th' (<[o := L']> H) flag →
  ∃ Hs' ins', inv strict (n + 1) (mkSys lm' (<[i := th']> ts)) Hs' ins'.
Proof.
  intros Ho E1 E2 Hsub Eq (Eo & Ef & Eb) Et Ht Ht' Hsafe.
  pose proof (i_holds _ _ _ _ _ Hinv) as Hok.
  exists (<[S i := <[o := L']> H]> Hs), ins. eapply inv_one; try done.
  - eapply holds_ok_update; try done. intros r m o' m' H1 H2 Hne.
    eapply (hk_compat _ _ Hok); [by apply Hsub|done|done].
  - eapply queue_ok_keep; [apply (i_queue _ _ _ _ _ Hinv)|done..].
  - by apply bounds_same.
  - eapply strict_ok_sub; [apply (i_strict _ _ _ _ _ Hinv)|]. intros _ r _. rewrite Eq. eauto.
Qed.

Lemma step_release o k ev th' lm' :
  t_ctl th = At (Release o k) → tsafe strict th H flag →
  tstep ev th lm = Some (th', lm') →
  ∃ Hs' ins', inv strict (n + 1) (mkSys lm' (<[i := th']> ts)) Hs' ins'.
Proof.
  intros Hc Hsafe Hstep. unfold tstep, tsafe in *. rewrite Hc in *. cbn [wp] in Hsafe.
  destruct Hsafe as [[L Ho] Hk]. injection Hstep as <- <-.
  eapply (step_shrink o L []); try done.
  - intros r. by rewrite hol_release, proj_filter_ne.
  - intros r o' Hne. by rewrite hol_release, proj_filter_other.
  - intros r p. rewrite hol_release. by intros [_ ?]%list_elem_of_filter.
  - intros r. apply que_release.
  - unfold ticket_of. by rewrite Hc.
Qed.

Lemma step_release_holds o c k ev th' lm' :
  t_ctl th = At (ReleaseHolds o c k) → tsafe strict th H flag →
  tstep ev th lm = Some (th', lm') →
  ∃ Hs' ins', inv strict (n + 1) (mkSys lm' (<[i := th']> ts)) Hs' ins'.
Proof.
  intros Hc Hsafe Hstep. unfold tstep, tsafe in *. rewrite Hc in *. cbn [wp] in Hsafe.
  destruct Hsafe as (L & Ho & Hk). injection Hstep as <- <-.
  eapply (step_shrink o L (undo_chain L c)); try done.
  - intros r. rewrite hol_release_holds. apply proj_undo.
    eapply (hk_held _ _ (i_holds _ _ _ _ _ Hinv)). exists H. eauto.
  - intros r o' Hne. rewrite hol_release_holds. by apply proj_undo_ne.
  - intros r p. rewrite hol_release_holds. apply elem_of_undo.
  - intros r. apply que_release_holds.
  - unfold ticket_of. by rewrite Hc.
Qed.

Lemma step_new_owner txn k ev th' lm' :
  t_ctl th = At (NewOwner txn k) → tsafe strict th H flag →
  tstep ev th lm = Some (th', lm') →
  ∃ Hs' ins', inv strict (n + 1) (mkSys lm' (<[i := th']> ts)) Hs' ins'.
Proof.
  intros Hc Hsafe Hstep. unfold tstep, tsafe in *. rewrite Hc in *. cbn [wp] in Hsafe.
  set (o := if txn then Transaction (next_owner lm) else Statement (next_owner lm)).
  assert (Hid : owner_id o = next_owner lm) by (by destruct txn).
  pose proof (i_holds _ _ _ _ _ Hinv) as Hok.
  assert (Hno : ∀ j L, ¬ owns Hs j o L).
  { intros j L Hown. apply (hk_fresh _ _ Hok) in Hown. lia. }
  destruct (i_bounds _ _ _ _ _ Hinv) as [Hb1 Hb2]. pose proof (wrap_next _ Hb1) as Hw.
  assert (Estep : Some (mkThread (At (k o)) (t_locals th), (fresh_owner lm).2) = Some (th', lm')).
  { rewrite <- Hstep. by destruct txn. }
  injection Estep as <- <-.
  exists (<[S i := <[o := []]> H]> Hs), ins. eapply inv_one; try done.
  - eapply holds_ok_new; try done; cbn; rewrite Hw; lia.
  - eapply queue_ok_keep; [apply (i_queue _ _ _ _ _ Hinv)|done| |done..]. unfold ticket_of. by rewrite Hc.
  - unfold bounds_ok. cbn. rewrite Hw. lia.
  - eapply strict_ok_sub; [apply (i_strict _ _ _ _ _ Hinv)|]. cbn. auto.
  - apply Hsafe. destruct (H !! o) as [L|] eqn:EL; [|done]. destruct (Hno (S i) L). exists H. eauto.
Qed.
(** *** The [fsync] mutex *)

(** An owner is handed from heap [a] to heap [b]. *)
Definition move (a b : nat) (Ha Hb : heap) (o : Owner) (L : Chain) : list heap :=
  <[a := delete o Ha]> (<[b := <[o := L]> Hb]> Hs).

Lemma owns_move a b Ha Hb o L j o' L' :
  a ≠ b → Hs !! a = Some Ha → Hs !! b = Some Hb → Ha !! o = Some L →
  owns (move a b Ha Hb o L) j o' L' ↔ (j = b ∧ o' = o ∧ L' = L) ∨ (o' ≠ o ∧ owns Hs j o' L').
Proof.
  intros Hab HHa HHb Ho. pose proof (i_holds _ _ _ _ _ Hinv) as Hok.
  assert (Hown : owns Hs a o L) by (exists Ha; done).
  assert (Hlt : (a < length (<[b := <[o := L]> Hb]> Hs))%nat).
  { rewrite length_insert. by eapply lookup_lt_Some. }
  unfold move. destruct (decide (j = a)) as [->|Hja].
  - unfold owns at 1. rewrite list_lookup_insert_eq by done. split.
    + intros (H' & [= <-] & E). apply lookup_delete_Some in E as [Hne E]. right. split; [congruence|].
      exists Ha. done.
    + intros [(? & _)|[Hne (H' & E1 & E2)]]; [done|]. rewrite HHa in E1. injection E1 as <-.
      eexists; split; [done|]. rewrite lookup_delete_ne by congruence. done.
  - unfold owns at 1. rewrite list_lookup_insert_ne by done. change (owns (<[b := <[o := L]> Hb]> Hs) j o' L' ↔
      (j = b ∧ o' = o ∧ L' = L) ∨ (o' ≠ o ∧ owns Hs j o' L')).
    rewrite owns_insert by done. split.
    + intros [?|[Hne Hj]]; [by left|]. right. split; [|done]. intros ->.
      destruct Hja. by eapply (hk_disj _ _ Hok).
    + intros [?|[Hne Hj]]; [by left|]. right. auto.
Qed.

Lemma holds_ok_move a b Ha Hb o L lm' :
  a ≠ b → Hs !! a = Some Ha → Hs !! b = Some Hb → Ha !! o = Some L →
  (∀ r, hol lm' r = hol lm r) → next_owner lm' = next_owner lm →
  holds_ok lm' (move a b Ha Hb o L).
Proof.
  intros Hab HHa HHb Ho Hh Hno. pose proof (i_holds _ _ _ _ _ Hinv) as Hok.
  eapply holds_ok_reshuffle; try done.
  - intros o' L'. split.
    + intros [j Hj]. rewrite owns_move in Hj by done.
      destruct Hj as [(-> & -> & ->)|[_ Hj]]; [exists a, Ha; done|eauto].
    + intros [j Hj]. destruct (decide (o' = o)) as [->|Hne].
      * assert (j = a) as -> by (eapply (hk_disj _ _ Hok); [done|exists Ha; done]).
        destruct Hj as (H' & E1 & E2). exists b. rewrite owns_move by done. left. naive_solver.
      * exists j. rewrite owns_move by done. auto.
  - intros j j' o' L1 L2 H1 H2. rewrite owns_move in H1, H2 by done.
    destruct H1 as [(-> & -> & ->)|[N1 H1]], H2 as [(-> & ? & ->)|[N2 H2]]; try done.
    by eapply (hk_disj _ _ Hok).
Qed.

(** A step on the [fsync] mutex: the thread's heap and the lock's. *)
Lemma inv_fsync th' v busy Hs' ins' H' Hf' :
  strict = false → length Hs' = length Hs → ticket_of th = None → ticket_of th' = None →
  holds_ok (set_fsync v busy lm) Hs' → busy = bool_decide (is_Some ins') →
  Hs' !! 0%nat = Some Hf' →
  (if busy then Hf' = ∅ else match v.2 with None => Hf' = ∅ | Some o => ∃ L, Hf' = {[o := L]} end) →
  Hs' !! S i = Some H' → (∀ j, j ≠ i → Hs' !! S j = Hs !! S j) →
  (∀ j, j ≠ i → bool_decide (ins' = Some j) = bool_decide (ins = Some j)) →
  tsafe strict th' H' (bool_decide (ins' = Some i)) →
  inv strict (n + 1) (mkSys (set_fsync v busy lm) (<[i := th']> ts)) Hs' ins'.
Proof.
  intros Hns Hlen Ht Ht' Hho Hbusy H0 HHf HH' Hoth Hins Hsafe. split; cbn; try done.
  - eapply queue_ok_keep; [apply (i_queue _ _ _ _ _ Hinv)|done..].
  - split; [done|]. exists Hf'. done.
  - by apply bounds_same.
  - rewrite length_insert, Hlen. apply (i_length _ _ _ _ _ Hinv).
  - eapply strict_ok_sub; [apply (i_strict _ _ _ _ _ Hinv)|]. cbn. auto.
  - congruence.
  - eapply threads_ok_update; [apply (i_threads _ _ _ _ _ Hinv)|by eapply lookup_lt_Some|done|auto|done|done].
Qed.

Lemma step_fsync_enter k ev th' lm' :
  t_ctl th = At (FsyncEnter k) → tsafe strict th H flag →
  tstep ev th lm = Some (th', lm') →
  ∃ Hs' ins', inv strict (n + 1) (mkSys lm' (<[i := th']> ts)) Hs' ins'.
Proof.
  intros Hc Hsafe Hstep. unfold tstep, tsafe in *. rewrite Hc in *. cbn [wp] in Hsafe.
  destruct Hsafe as (Hns & _ & Hk). destruct (fsync_busy lm) eqn:Hbusy; [done|]. injection Hstep as <- <-.
  pose proof (i_holds _ _ _ _ _ Hinv) as Hok.
  destruct (i_fsync _ _ _ _ _ Hinv) as [Hb (Hf & H0 & HHf)]. rewrite Hbusy in Hb, HHf.
  assert (ins = None) as Hnone by (destruct ins; [done|done]).
  assert (Hother : ∀ j, j ≠ i → bool_decide (Some i = Some j) = bool_decide (ins = Some j)).
  { intros j Hj. rewrite Hnone, !bool_decide_false; congruence. }
  specialize (Hk (fsync lm)). destruct (fsync lm).2 as [o|] eqn:Ev.
  - destruct HHf as [L ->].
    assert (HoH : H !! o = None).
    { destruct (H !! o) as [L'|] eqn:E; [|done].
      assert (0%nat = S i) by (eapply (hk_disj _ _ Hok); [exists {[o := L]}; split; [done|apply lookup_singleton_eq]|by exists H]).
      done. }
    exists (move 0 (S i) {[o := L]} H o L), (Some i). eapply inv_fsync; try done.
    + unfold move. by rewrite !length_insert.
    + unfold ticket_of. by rewrite Hc.
    + eapply holds_ok_move; try done. apply lookup_singleton_eq.
    + unfold move. rewrite delete_singleton_eq. apply list_lookup_insert_eq.
      rewrite length_insert. by eapply lookup_lt_Some.
    + unfold move. rewrite list_lookup_insert_ne by done. apply list_lookup_insert_eq. by eapply lookup_lt_Some.
    + intros j Hj. unfold move. rewrite !list_lookup_insert_ne by congruence. done.
    + rewrite bool_decide_true by done. by apply Hk.
  - subst Hf. exists Hs, (Some i). eapply inv_fsync; try done.
    + unfold ticket_of. by rewrite Hc.
    + by eapply holds_ok_same.
    + rewrite bool_decide_true by done. apply Hk.
Qed.

Lemma step_fsync_leave v k ev th' lm' :
  t_ctl th = At (FsyncLeave v k) → tsafe strict th H flag →
  tstep ev th lm = Some (th', lm') →
  ∃ Hs' ins', inv strict (n + 1) (mkSys lm' (<[i := th']> ts)) Hs' ins'.
Proof.
  intros Hc Hsafe Hstep. unfold tstep, tsafe in *. rewrite Hc in *. cbn [wp] in Hsafe.
  destruct Hsafe as (Hflag & Hk). injection Hstep as <- <-.
  apply bool_decide_eq_true in Hflag.
  pose proof (i_holds _ _ _ _ _ Hinv) as Hok.
  destruct (i_fsync _ _ _ _ _ Hinv) as [Hb (Hf & H0 & HHf)].
  rewrite bool_decide_true in Hb by (rewrite Hflag; eauto). rewrite Hb in HHf. subst Hf.
  assert (Hns : strict = false).
  { apply not_true_iff_false. intros Hst. destruct (i_unlocked _ _ _ _ _ Hinv Hst). congruence. }
  assert (Hother : ∀ j, j ≠ i → bool_decide (None = Some j) = bool_decide (ins = Some j)).
  { intros j Hj. rewrite Hflag, !bool_decide_false; congruence. }
  destruct v.2 as [o|] eqn:Ev.
  - destruct Hk as [[L Ho] Hk]. exists (move (S i) 0 H ∅ o L), None.
    eapply inv_fsync; try done.
    + unfold move. by rewrite !length_insert.
    + unfold ticket_of. by rewrite Hc.
    + eapply holds_ok_move; done.
    + unfold move. rewrite list_lookup_insert_ne by done. apply list_lookup_insert_eq. by eapply lookup_lt_Some.
    + cbn. rewrite Ev. exists L. apply insert_empty.
    + unfold move. apply list_lookup_insert_eq. rewrite length_insert. by eapply lookup_lt_Some.
    + intros j Hj. unfold move. rewrite !list_lookup_insert_ne by congruence. done.
    + by rewrite bool_decide_false.
  - exists Hs, None. eapply inv_fsync; try done.
    + unfold ticket_of. by rewrite Hc.
    + by eapply holds_ok_same.
    + cbn. by rewrite Ev.
Qed.

(** ** Any step *)
Lemma tstep_inv ev th' lm' :
  tsafe strict th H flag → tstep ev th lm = Some (th', lm') →
  ∃ Hs' ins', inv strict (n + 1) (mkSys lm' (<[i := th']> ts)) Hs' ins'.
Proof.
  intros Hsafe Hstep. destruct (t_ctl th) as [p|o r m t conv tf k|r m w tf g k] eqn:Hc.
  - assert (Ht : ticket_of th = None) by (unfold ticket_of; by rewrite Hc).
    destruct p as [[]|t k|o r m k|o k|o c k|k|f k|k|v k|c k].
    + unfold tstep in Hstep. by rewrite Hc in Hstep.
    + by eapply step_new_owner.
    + by eapply step_acquire.
    + by eapply step_release.
    + by eapply step_release_holds.
    + unfold tstep, tsafe in *. rewrite Hc in *. injection Hstep as <- <-. by apply step_quiet.
    + unfold tstep, tsafe in *. rewrite Hc in *. injection Hstep as <- <-. by apply step_quiet.
    + by eapply step_fsync_enter.
    + by eapply step_fsync_leave.
    + unfold tstep, tsafe in *. rewrite Hc in *. injection Hstep as <- <-. destruct Hsafe. by apply step_quiet.
  - by eapply step_pass.
  - unfold tstep, tsafe in *. rewrite Hc in *. injection Hstep as <- <-. apply step_quiet; try done.
    + unfold ticket_of. by rewrite Hc.
    + apply Hsafe, after_acquire_scope.
Qed.
End steps.

Lemma mongo_step_inv strict n s Hs ins i ev s' :
  inv strict n s Hs ins → 0 ≤ n < 2 ^ 64 - 2 → sys_step i ev s = Some s' →
  ∃ Hs' ins', inv strict (n + 1) s' Hs' ins'.
Proof.
  intros Hinv Hn Hstep. unfold sys_step in Hstep.
  apply bind_Some in Hstep as (th & Hi & Hstep). apply bind_Some in Hstep as ([th' lm'] & Ht & [= <-]).
  destruct (i_threads _ _ _ _ _ Hinv _ _ Hi) as (H & HH & Hsafe). by eapply tstep_inv.
Qed.

Lemma run_inv strict n s Hs ins sched s' :
  inv strict n s Hs ins → 0 ≤ n → n + Z.of_nat (length sched) < 2 ^ 64 - 2 → run sched s = Some s' →
  ∃ Hs' ins', inv strict (n + Z.of_nat (length sched)) s' Hs' ins'.
Proof.
  revert n s Hs ins. induction sched as [|[i ev] sched IH]; intros n s Hs ins Hinv H0 Hn Hrun; cbn in *.
  - injection Hrun as <-. rewrite Z.add_0_r. eauto.
  - apply bind_Some in Hrun as (s1 & Hstep & Hrun).
    destruct (mongo_step_inv _ _ _ _ _ _ _ _ Hinv ltac:(lia) Hstep) as (Hs1 & ins1 & Hinv1).
    destruct (IH _ _ _ _ Hinv1 ltac:(lia) ltac:(lia) Hrun) as (Hs' & ins' & Hinv').
    exists Hs', ins'. by replace (n + Z.of_nat (S (length sched))) with (n + 1 + Z.of_nat (length sched)) by lia.
Qed.

(** The start, its threads' programs satisfying [wp] with nothing held. *)
Lemma start_inv strict cs :
  (∀ c, c ∈ cs → wp strict (serve c) locals_new ∅ false (finished strict)) →
  inv strict 0 (start cs) (replicate (S (length cs)) ∅) None.
Proof.
  intros Hwp.
  assert (Hno : ∀ i o L, ¬ owns (replicate (S (length cs)) (∅ : heap)) i o L).
  { intros i o L (H & E & Ho). apply lookup_replicate in E as [-> _]. by rewrite lookup_empty in Ho. }
  split; cbn.
  - split; [intros i j o L L' HL; by destruct (Hno _ _ _ HL)|intros i o L HL; by destruct (Hno _ _ _ HL)
           |intros r o m Hin; elem_nil|intros i o L HL; by destruct (Hno _ _ _ HL)
           |intros r o m o' m' Hin; elem_nil].
  - split; [intros r t o m Hin; elem_nil|..].
    + intros i th o r m t conv tf k Hi Hc. rewrite list_lookup_fmap in Hi.
      apply fmap_Some in Hi as (c & _ & ->). done.
    + intros i j th th' t Hi _ Ht. rewrite list_lookup_fmap in Hi.
      apply fmap_Some in Hi as (c & _ & ->). done.
    + constructor.
  - split; [done|]. by exists ∅.
  - unfold bounds_ok. cbn. lia.
  - by rewrite length_replicate, length_fmap.
  - intros _ r _. split; [done|]. intros o m Hin. elem_nil.
  - done.
  - intros i th Hi. rewrite list_lookup_fmap in Hi. apply fmap_Some in Hi as (c & Hc & ->).
    exists ∅. split.
    + change ((replicate (S (length cs)) (∅ : heap)) !! S i = Some ∅). apply lookup_replicate_2.
      apply lookup_lt_Some in Hc. lia.
    + cbn. rewrite bool_decide_false by done. apply Hwp. by eapply list_elem_of_lookup_2.
Qed.
