(* ===== verification/MongoSpecs.v ===== *)
(** * What the lock manager's functions, handlers and connections do to a thread's holds

    For every function of [MongoProg] its [wp]: which holds it leaves, on success
    and on a spent budget, and that it works only under locks it has. *)
From stdpp Require Import strings.
From S2P Require Import Prelude RustM Lex Bson Docs MongoLocks MongoRounds MongoProg MongoSystem MongoHeads.
From S2P Require Import MongoLogic.
Local Open Scope Z_scope.

(** ** Chains in order *)

(** The link [(r, m)] after [L], when nothing else contended is held. *)
Definition ascends_link (L : Chain) (r : Resource) (m : Mode) : Prop :=
  if contended r then (r, m) ∈ L ∨ Forall (λ p : Resource * Mode, contended p.1 = true → res_lt p.1 r) L
  else intent r m.

#[export] Instance ascends_link_dec L r m : Decision (ascends_link L r m).
Proof. unfold ascends_link. destruct (contended r); apply _. Defined.

Fixpoint ascends (L chain : Chain) : Prop :=
  match chain with
  | [] => True
  | (r, m) :: chain => ascends_link L r m ∧ ascends (L ++ [(r, m)]) chain
  end.

#[export] Instance ascends_dec L chain : Decision (ascends L chain).
Proof. revert L. induction chain as [|[r m] chain IH]; intros L; cbn; apply _. Defined.

Lemma ascends_app L c1 c2 : ascends L (c1 ++ c2) ↔ ascends L c1 ∧ ascends (L ++ c1) c2.
Proof.
  revert L. induction c1 as [|[r m] c1 IH]; intros L; cbn.
  - rewrite app_nil_r. tauto.
  - rewrite IH, <- app_assoc. tauto.
Qed.

Lemma before_dot_idem s : before_dot (before_dot s) = before_dot s.
Proof.
  induction s as [|c s IH]; [done|]. cbn. destruct (c =? 46) eqn:E; [done|]. cbn. by rewrite E, IH.
Qed.

Lemma before_dot_dotted db c : before_dot (dotted db c) = before_dot db.
Proof.
  unfold dotted. induction db as [|x db IH]; [done|]. cbn. destruct (x =? 46); [done|]. by rewrite <- IH.
Qed.

(** A database comes before its collections. *)
Lemma db_lt_ns db ns : in_config ns = in_config db → res_lt (Database db) (Collection ns).
Proof. intros E. unfold res_lt. cbn [key app]. rewrite E, !bcmp_cons, Z.compare_refl. done. Qed.

Lemma in_config_dotted db c : in_config (dotted db c) = in_config db.
Proof. unfold in_config. by rewrite before_dot_dotted. Qed.

Lemma db_lt_coll db coll : res_lt (Database db) (Collection (dotted db coll)).
Proof. apply db_lt_ns, in_config_dotted. Qed.

(** The usual rounds: the two global levels, a database, a collection. *)
Lemma ascends_db gm db dm : gm = Is ∨ gm = Ix →
  ascends [] [(ReplicationStateTransition, Ix); (Global, gm); (Database db, dm)].
Proof.
  intros Hg. cbn. unfold ascends_link; cbn. split_and!; auto. right. by repeat constructor.
Qed.

Lemma ascends_two gm db dm ns cm : gm = Is ∨ gm = Ix → res_lt (Database db) (Collection ns) →
  ascends [] [(ReplicationStateTransition, Ix); (Global, gm); (Database db, dm); (Collection ns, cm)].
Proof.
  intros Hg Hlt. change (ascends [] ([(ReplicationStateTransition, Ix); (Global, gm); (Database db, dm)]
                                       ++ [(Collection ns, cm)])).
  apply ascends_app. split; [by apply ascends_db|]. cbn. split; [|done]. unfold ascends_link; cbn.
  right. by repeat constructor.
Qed.

(** A chain of uncontended links only. *)
Definition intents (chain : Chain) : Prop :=
  Forall (λ p : Resource * Mode, contended p.1 = false ∧ intent p.1 p.2) chain.

#[export] Instance intents_dec chain : Decision (intents chain).
Proof. unfold intents. apply _. Defined.

Lemma same_scope_trans l1 l2 l3 : same_scope l1 l2 → same_scope l2 l3 → same_scope l1 l3.
Proof. unfold same_scope. intuition congruence. Qed.

Section specs.
Context (strict : bool).
Implicit Types (H : heap) (l : Locals) (o : Owner) (L c : Chain) (ins : bool).

(** More owners; in a strict system the new ones hold nothing. *)
Definition ext H H' : Prop :=
  (∀ o L, H !! o = Some L → H' !! o = Some L) ∧
  (strict = true → ∀ o L, H' !! o = Some L → H !! o = Some L ∨ L = []).

Lemma ext_refl H : ext H H.
Proof. split; auto. Qed.

Lemma ext_trans H1 H2 H3 : ext H1 H2 → ext H2 H3 → ext H1 H3.
Proof.
  intros [A1 B1] [A2 B2]. split; [auto|]. intros Hs o L HL.
  destruct (B2 Hs _ _ HL) as [HL2|]; [|auto]. by apply B1.
Qed.

Lemma ext_new H o : H !! o = None → ext H (<[o := []]> H).
Proof.
  intros Ho. split.
  - intros o' L HL. rewrite lookup_insert_ne; [done|]. congruence.
  - intros _ o' L. insert_case o' o; [intros [= <-]|]; auto.
Qed.

(** What a scope leaves behind: the locals it found, the holds it found. *)
Definition after l H l' H' : Prop :=
  CURRENT l' = CURRENT l ∧ STATEMENT_OWNER l' = STATEMENT_OWNER l ∧ ext H H' ∧
  match HELD_TO_END l with
  | None => HELD_TO_END l' = None
  | Some h => ∃ e, HELD_TO_END l' = Some (h ++ e) ∧ (∀ o, o ∈ e → is_Some (H' !! o)) ∧ (strict = true → e = [])
  end.

Lemma after_scope l H l' H' : same_scope l l' → ext H H' → after l H l' H'.
Proof.
  intros (E1 & E2 & E3) Hx. split_and!; try done. rewrite E3. destruct (HELD_TO_END l) as [h|]; [|done].
  exists []. rewrite app_nil_r. split_and!; [done| |done]. intros o Ho. elem_nil.
Qed.

Lemma after_refl l H : after l H l H.
Proof. apply after_scope; [apply same_scope_refl|apply ext_refl]. Qed.

Lemma after_trans l1 H1 l2 H2 l3 H3 : after l1 H1 l2 H2 → after l2 H2 l3 H3 → after l1 H1 l3 H3.
Proof.
  intros (C1 & S1 & X1 & D1) (C2 & S2 & X2 & D2). split; [congruence|]. split; [congruence|].
  split; [by eapply ext_trans|]. destruct (HELD_TO_END l1) as [h|].
  - destruct D1 as (e1 & E1 & I1 & N1). rewrite E1 in D2. destruct D2 as (e2 & E2 & I2 & N2).
    exists (e1 ++ e2). split; [rewrite E2; by rewrite app_assoc|]. split.
    + intros o [Ho|Ho]%elem_of_app; [|by apply I2]. destruct (I1 _ Ho) as [L HL]. exists L. by apply X2.
    + intros Hs. by rewrite N1, N2.
  - by rewrite D1 in D2.
Qed.

Abbreviation leaves l H ins := (λ _ l' H' ins', ins' = ins ∧ after l H l' H').

(** ** Chains *)

(** Every link of [chain] may be taken in its turn by [o]. *)
Definition chain_may H o L chain : Prop :=
  ∀ c1 r m c2, chain = c1 ++ (r, m) :: c2 → may_acquire strict (<[o := L ++ c1]> H) (L ++ c1) r m.

Lemma chain_may_cons H o L r m chain :
  H !! o = Some L → chain_may H o L ((r, m) :: chain) →
  may_acquire strict H L r m ∧ chain_may (<[o := L ++ [(r, m)]]> H) o (L ++ [(r, m)]) chain.
Proof.
  intros Ho Hc. split.
  - specialize (Hc [] r m chain eq_refl). rewrite app_nil_r in Hc. by rewrite insert_id in Hc.
  - intros c1 r' m' c2 ->. rewrite insert_insert_eq, <- app_assoc. by apply (Hc ((r, m) :: c1) r' m' c2).
Qed.

Lemma chain_may_intents H o L chain : intents chain → chain_may H o L chain.
Proof.
  intros Hi c1 r m c2 ->. unfold intents in Hi. rewrite Forall_app, Forall_cons in Hi.
  destruct Hi as (_ & [Hc Hm] & _). intros _. cbn in *. by rewrite Hc.
Qed.

(** Nothing contended is held but by [o]. *)
Definition sole H o : Prop :=
  strict = true → ∀ o' L, o' ≠ o → H !! o' = Some L → Forall (λ p : Resource * Mode, contended p.1 = false) L.

Lemma chain_may_ascends H o L chain :
  sole H o → (strict = true → ascends L chain) → chain_may H o L chain.
Proof.
  intros Hsole Ha c1 r m c2 -> Hs. specialize (Ha Hs). apply ascends_app in Ha as (_ & Ha & _).
  unfold ascends_link in Ha. destruct (contended r); [|done].
  destruct Ha as [?|Hf]; [by left|]. right. intros o' L' r' m' HL Hin Hc.
  destruct (decide (o' = o)) as [->|Hne].
  - rewrite lookup_insert_eq in HL. injection HL as <-. rewrite Forall_forall in Hf. by apply (Hf (r', m')).
  - rewrite lookup_insert_ne in HL by congruence. specialize (Hsole Hs _ _ Hne HL).
    rewrite Forall_forall in Hsole. specialize (Hsole _ Hin). cbn in Hsole. congruence.
Qed.

Lemma wp_acquire_chain o chain l H ins (Q : bool → Locals → heap → bool → Prop) L :
  H !! o = Some L → chain_may H o L chain →
  (∀ l', same_scope l l' → Q true l' (<[o := L ++ chain]> H) ins) →
  (∀ l', same_scope l l' → Q false l' (<[o := []]> H) ins) →
  wp strict (acquire_chain o chain) l H ins Q.
Proof.
  revert l H L. induction chain as [|[r m] chain IH]; intros l H L Ho Hmay Hok Herr.
  - cbn. specialize (Hok l (same_scope_refl l)). rewrite app_nil_r in Hok. by rewrite insert_id in Hok.
  - apply chain_may_cons in Hmay as [Hm Hmay]; [|done]. cbn [acquire_chain].
    apply prog_bind_wp. cbn. exists L. do 2 (split; [done|]). intros l1 Hl1. split.
    + apply (IH l1 (<[o := L ++ [(r, m)]]> H) (L ++ [(r, m)])); [by rewrite lookup_insert_eq|done|..].
      * intros l' Hl'. rewrite insert_insert_eq, <- app_assoc. apply Hok. by eapply same_scope_trans.
      * intros l' Hl'. rewrite insert_insert_eq. apply Herr. by eapply same_scope_trans.
    + split; [eauto|]. by apply Herr.
Qed.

(** Rounds before the last: fit to be taken by any fresh owner. *)
Definition round_may H (round : Chain) : Prop := ∀ o, H !! o = None → chain_may (<[o := []]> H) o [] round.

Lemma round_may_nil H : round_may H [].
Proof. intros o _ [|? ?] r m c2; done. Qed.

Lemma round_may_ext H H' round : ext H H' → round_may H round → round_may H' round.
Proof.
  intros [X1 X2] Hr o Ho c1 r m c2 -> Hs.
  assert (Ho' : H !! o = None). { destruct (H !! o) eqn:E; [|done]. apply X1 in E. congruence. }
  specialize (Hr o Ho' c1 r m c2 eq_refl Hs). destruct (contended r); [|done].
  destruct Hr as [?|Hb]; [by left|]. right. intros o' L' r' m' HL. rewrite insert_insert_eq in HL.
  destruct (decide (o' = o)) as [->|Hne].
  - rewrite lookup_insert_eq in HL. injection HL as <-. apply (Hb o). by rewrite lookup_insert_eq.
  - rewrite lookup_insert_ne in HL by congruence.
    destruct (X2 Hs _ _ HL) as [HL'| ->]; [|intros Hin; elem_nil].
    apply (Hb o' L'). by rewrite !lookup_insert_ne by congruence.
Qed.

Lemma wp_pass_round round l H ins :
  round_may H round → wp strict (pass_round round) l H ins (leaves l H ins).
Proof.
  intros Hmay. unfold pass_round. apply prog_bind_wp. cbn. intros o Ho.
  assert (Hx : ∀ l', same_scope l l' → after l H l' (<[o := []]> H)).
  { intros l' Hl. apply after_scope; [done|by apply ext_new]. }
  apply prog_bind_wp, (wp_acquire_chain _ _ _ _ _ _ []); [by rewrite lookup_insert_eq|by apply Hmay|..].
  - intros l' Hl. cbn. rewrite !insert_insert_eq. split; [by rewrite lookup_insert_eq|auto].
  - intros l' Hl. cbn. rewrite !insert_insert_eq. auto.
Qed.

Lemma wp_pass_rounds rounds l H ins :
  Forall (round_may H) rounds → wp strict (pass_rounds rounds) l H ins (leaves l H ins).
Proof.
  revert l H. induction rounds as [|round rounds IH]; intros l H Hr; [by split; [|apply after_refl]|].
  apply Forall_cons in Hr as [Hr Hrs]. cbn [pass_rounds]. apply prog_bind_wp.
  eapply prog_mono; [|by apply wp_pass_round]. intros [] l1 H1 ins1 [-> Ha]; [|by split].
  eapply prog_mono; [|apply IH].
  - intros b l2 H2 ins2 [-> Ha2]. split; [done|]. by eapply after_trans.
  - eapply Forall_impl; [exact Hrs|]. intros round' Hr'. eapply round_may_ext; [apply Ha|done].
Qed.

(** ** Guards *)

(** The guard's owner is new and holds the chain. *)
Definition guarded l H (g : Guard) chain l' H' : Prop :=
  previous_owner g = STATEMENT_OWNER l ∧ CURRENT l' = CURRENT l ∧ HELD_TO_END l' = HELD_TO_END l ∧
  H !! g_owner g = None ∧ H' !! g_owner g = Some chain ∧ ext H (<[g_owner g := []]> H').

Lemma guarded_ext l H l1 H1 g chain l' H' :
  after l H l1 H1 → same_scope l l1 → guarded l1 H1 g chain l' H' → guarded l H g chain l' H'.
Proof.
  intros Ha (E1 & E2 & E3) (G1 & G2 & G3 & G4 & G5 & G6). destruct Ha as (_ & _ & X & _).
  split_and!; try congruence; [|by eapply ext_trans].
  destruct (H !! g_owner g) eqn:E; [|done]. apply X in E. congruence.
Qed.

(** The last round: taken under a fresh owner, and kept. *)
Lemma wp_last_round chain l H ins (Q : bool → Locals → heap → bool → Prop) o :
  H !! o = None → round_may H chain →
  (∀ l', same_scope l l' → Q true l' (<[o := chain]> H) ins) →
  (∀ l', same_scope l l' → Q false l' (<[o := []]> H) ins) →
  wp strict (acquire_chain o chain) l (<[o := []]> H) ins Q.
Proof.
  intros Ho Hmay Hok Herr. apply (wp_acquire_chain _ _ _ _ _ _ []);
    [by rewrite lookup_insert_eq|by apply Hmay|..]; intros l' Hl; rewrite insert_insert_eq; auto.
Qed.

Lemma wp_guard_statement rounds l H ins :
  Forall (round_may H) rounds →
  wp strict (guard_statement rounds) l H ins
    (λ res l' H' ins', ins' = ins ∧
       match res with
       | None => after l H l' H'
       | Some g => ∃ l0 H0, after l H l0 H0 ∧ guarded l0 H0 g (default [] (last rounds)) l' H' ∧
                     STATEMENT_OWNER l' = Some (g_owner g)
       end).
Proof.
  intros Hr. unfold guard_statement.
  assert (Hlast : round_may H (default [] (last rounds))).
  { destruct (last rounds) as [c|] eqn:E; [|apply round_may_nil]. cbn. rewrite Forall_forall in Hr. apply Hr.
    apply last_Some in E as [l0 ->]. apply elem_of_mid. }
  apply prog_bind_wp. eapply prog_mono; [|apply wp_pass_rounds].
  2:{ destruct (last rounds) as [c|] eqn:E.
      - apply last_Some in E as [l0 ->]. rewrite removelast_last. by apply Forall_app in Hr as [? _].
      - apply last_None in E. by subst. }
  intros [] l1 H1 ins1 [-> Ha]; [|by split].
  apply prog_bind_wp. cbn. intros o Ho. apply prog_bind_wp, wp_last_round.
  - done.
  - eapply round_may_ext; [apply Ha|done].
  - intros l' (E1 & E2 & E3). cbn. split; [done|]. exists l1, H1. split; [done|]. split; [|done].
    split_and!; cbn; try done; [by rewrite lookup_insert_eq|]. rewrite insert_insert_eq. by apply ext_new.
  - intros l' Hl. cbn. split; [done|]. eapply after_trans; [done|]. apply after_scope; [done|by apply ext_new].
Qed.

(** [Drop for Guard], when no scope keeps the holds. *)
Lemma wp_guard_drop g chain l0 H0 l1 H1 l2 H2 ins :
  guarded l0 H0 g chain l1 H1 → after l1 H1 l2 H2 → HELD_TO_END l0 = None →
  wp strict (guard_drop g) l2 H2 ins (leaves l0 H0 ins).
Proof.
  intros (G1 & G2 & G3 & G4 & G5 & [G6 G7]) (A1 & A2 & [A3 A4] & A5) Hheld.
  rewrite G3, Hheld in A5. unfold guard_drop. apply prog_bind_wp. cbn. rewrite A5. cbn.
  split; [eauto|]. split; [done|]. split_and!; cbn; try congruence.
  - split.
    + intros o L HL. destruct (decide (o = g_owner g)) as [->|Hne]; [congruence|].
      rewrite lookup_insert_ne by congruence. apply A3.
      specialize (G6 _ _ HL). by rewrite lookup_insert_ne in G6 by congruence.
    + intros Hs o L HL. destruct (decide (o = g_owner g)) as [->|Hne].
      * rewrite lookup_insert_eq in HL. injection HL as <-. by right.
      * rewrite lookup_insert_ne in HL by congruence. destruct (A4 Hs _ _ HL) as [HL'|]; [|by right].
        apply (G7 Hs o L). by rewrite lookup_insert_ne by congruence.
  - by rewrite Hheld.
Qed.

(** ... and when one does. *)
Lemma wp_guard_kept g chain l0 H0 l1 H1 l2 H2 ins h (Q : unit → Locals → heap → bool → Prop) :
  guarded l0 H0 g chain l1 H1 → after l1 H1 l2 H2 → HELD_TO_END l2 = Some h →
  (∀ l', CURRENT l' = CURRENT l2 → STATEMENT_OWNER l' = STATEMENT_OWNER l0 →
         HELD_TO_END l' = Some (h ++ [g_owner g]) → Q tt l' H2 ins) →
  wp strict (guard_drop g) l2 H2 ins Q.
Proof.
  intros (G1 & _) _ Hheld HQ. unfold guard_drop. apply prog_bind_wp. cbn. rewrite Hheld. cbn.
  by apply HQ.
Qed.

(** ** Locks beside a statement *)

Lemma wp_take_and_release r m l H ins :
  intents [(r, m)] → wp strict (take_and_release r m) l H ins (leaves l H ins).
Proof.
  intros Hi. unfold take_and_release. apply prog_bind_wp. cbn. intros o Ho.
  exists []. rewrite lookup_insert_eq. split; [done|]. split.
  { unfold intents in Hi. rewrite Forall_singleton in Hi. destruct Hi as [Hc Hm]. intros _. cbn in *. by rewrite Hc. }
  intros l' Hl. rewrite insert_insert_eq. cbn. split.
  - split; [by rewrite lookup_insert_eq|]. rewrite insert_insert_eq. split; [done|].
    apply after_scope; [done|by apply ext_new].
  - split; [done|]. apply after_scope; [done|by apply ext_new].
Qed.

Lemma wp_global_reads n l H ins : wp strict (global_reads n) l H ins (leaves l H ins).
Proof.
  unfold global_reads. apply prog_bind_wp. cbn. destruct (CURRENT l); [|by split; [|apply after_refl]].
  revert l H. induction n as [|n IH]; intros l H; [by split; [|apply after_refl]|].
  cbn [global_reads_loop]. apply prog_bind_wp. cbn. intros o Ho. exists []. rewrite lookup_insert_eq.
  split; [done|]. split; [intros _; cbn; by left|]. intros l' Hl. rewrite insert_insert_eq.
  assert (Ha : after l H l' (<[o := []]> H)) by (apply after_scope; [done|by apply ext_new]).
  split; [|by split]. cbn. split; [by rewrite lookup_insert_eq|]. rewrite insert_insert_eq.
  eapply prog_mono; [|apply IH]. intros _ l2 H2 ins2 [-> Ha2]. split; [done|]. by eapply after_trans.
Qed.

Lemma journal_intents : intents journal_chain.
Proof. unfold intents, journal_chain. repeat constructor; cbn; auto. Qed.

(** ** Work under a statement's locks *)

Definition covers H (chain : Chain) : Prop :=
  ∀ r m, (r, m) ∈ chain → ∃ o L, H !! o = Some L ∧ (r, m) ∈ L.

Lemma covers_ext H H' chain : covers H chain → ext H H' → covers H' chain.
Proof. intros Hc [X _] r m Hin. destruct (Hc _ _ Hin) as (o & L & Ho & HL). eauto. Qed.

(** While the statement runs: its chain is held, and in a strict system nothing
    else is. *)
Definition running H l chain : Prop :=
  covers H chain ∧ (∀ o, STATEMENT_OWNER l = Some o → is_Some (H !! o)) ∧
  (strict = true → ∀ o L, H !! o = Some L → L = [] ∨ (STATEMENT_OWNER l = Some o ∧ L = chain)).

Lemma running_after H l chain l' H' : running H l chain → after l H l' H' → running H' l' chain.
Proof.
  intros (R1 & R2 & R3) (A1 & A2 & A3 & _). split; [by eapply covers_ext|]. destruct A3 as [X1 X2]. split.
  - intros o. rewrite A2. intros [L HL]%R2. exists L. by apply X1.
  - intros Hs o L HL. rewrite A2. destruct (X2 Hs _ _ HL); auto.
Qed.

(** The acts a strict system allows under [chain]; [kept]: inside a
    [hold_to_end] scope. *)
Definition act_ok (kept : bool) (chain : Chain) (a : act) : Prop :=
  match a with
  | HWork | HGlobalReads _ | HLog => True
  | HMerge db coll n => kept = false ∧ Forall (λ p : Resource * Mode, contended p.1 = false) chain
  | HBuild db coll => ascends chain (x_chain db coll)
  | HFsyncLock | HFsyncUnlock => False
  end.

Lemma merge_ascends db coll : ascends [] (merge_round db coll).
Proof. apply (ascends_two Ix db Ix (dotted db coll) Ix); [by right|apply db_lt_coll]. Qed.

Lemma merge_round_may H l chain db coll :
  running H l chain → (strict = true → Forall (λ p : Resource * Mode, contended p.1 = false) chain) →
  round_may H (merge_round db coll).
Proof.
  intros (_ & _ & R3) Hc o Ho. apply chain_may_ascends; [|intros; apply merge_ascends].
  intros Hs o' L Hne HL. rewrite lookup_insert_ne in HL by congruence.
  destruct (R3 Hs _ _ HL) as [->|[_ ->]]; [constructor|auto].
Qed.
End specs.

(** ** Handlers, requests and connections satisfy the threads' logic *)

Section serve.
Context (strict : bool).
Implicit Types (H : heap) (l : Locals) (o : Owner) (L chain : Chain) (ins : bool).

Abbreviation ext := (ext strict).
Abbreviation after := (after strict).
Abbreviation running := (running strict).
Abbreviation wp := (wp strict).
Abbreviation leaves l H ins := (λ _ l' H' ins', ins' = ins ∧ after l H l' H').

(** ** The exclusive sections of an index build *)

Lemma wp_exclusive_loop o taken chain l H L (Q : bool → Locals → heap → bool → Prop) ins :
  H !! o = Some (L ++ taken) → NoDup taken → chain_may strict H o (L ++ taken) chain →
  NoDup (taken ++ chain) →
  (∀ l', same_scope l l' → Q true l' (<[o := L ++ taken ++ chain]> H) ins) →
  (∀ l', same_scope l l' → Q false l' (<[o := L]> H) ins) →
  wp (exclusive_loop o taken chain) l H ins Q.
Proof.
  revert l H taken. induction chain as [|[r m] chain IH]; intros l H taken Ho Hnd Hmay Hnd2 Hok Herr.
  - cbn. specialize (Hok l (same_scope_refl l)). rewrite app_nil_r in Hok. by rewrite insert_id in Hok.
  - apply chain_may_cons in Hmay as [Hm Hmay]; [|done]. cbn [exclusive_loop].
    apply prog_bind_wp. cbn. exists (L ++ taken). do 2 (split; [done|]). intros l1 Hl1. split.
    + rewrite <- !(app_assoc L) in Hmay |- *. rewrite cons_middle, app_assoc in Hnd2.
      apply (IH l1 _ (taken ++ [(r, m)])); try done.
      * by rewrite lookup_insert_eq.
      * by apply NoDup_app in Hnd2 as [? _].
      * intros l' Hl'. rewrite insert_insert_eq, <- app_assoc. apply Hok. by eapply same_scope_trans.
      * intros l' Hl'. rewrite insert_insert_eq. apply Herr. by eapply same_scope_trans.
    + cbn. exists (L ++ taken). split; [done|]. unfold undo_chain. rewrite remove_last_all by done.
      by apply Herr.
Qed.

Lemma x_chain_nodup db coll : NoDup (x_chain db coll).
Proof. unfold x_chain. repeat constructor; set_solver. Qed.

Lemma wp_exclusive_section chain db coll l H ins :
  running H l chain → (strict = true → ascends chain (x_chain db coll)) →
  wp (exclusive_section db coll) l H ins (leaves l H ins).
Proof.
  intros Hrun Hasc. pose proof Hrun as (_ & R2 & R3).
  unfold exclusive_section. apply prog_bind_wp. unfold exclusive_round. apply prog_bind_wp. cbn [wp get].
  destruct (CURRENT l); [|cbn; split; [done|apply after_refl]].
  destruct (STATEMENT_OWNER l) as [o|] eqn:Eo; [|cbn; split; [done|apply after_refl]].
  destruct (R2 o eq_refl) as [L Ho].
  assert (Hid : ∀ l', same_scope l l' → after l H l' (<[o := L]> H)).
  { intros l' Hl. rewrite insert_id by done. apply after_scope; [done|apply ext_refl]. }
  apply prog_bind_wp, (wp_exclusive_loop o [] _ l H L); rewrite ?app_nil_r; try done.
  - constructor.
  - apply chain_may_ascends.
    + intros Hs o' L' Hne HL'. destruct (R3 Hs _ _ HL') as [->|[[= ->] _]]; [constructor|done].
    + intros Hs. destruct (R3 Hs _ _ Ho) as [->|[_ ->]]; [|by apply Hasc].
      apply (ascends_two Ix db Ix (dotted db coll) X); [by right|apply db_lt_coll].
  - apply x_chain_nodup.
  - intros l' Hl. cbn [app]. cbn -[x_chain]. split.
    + intros r m Hin. exists o, (L ++ x_chain db coll). rewrite lookup_insert_eq. split; [done|].
      by apply elem_of_app_r.
    + exists (L ++ x_chain db coll). rewrite lookup_insert_eq. split; [done|]. rewrite insert_insert_eq.
      unfold undo_chain. rewrite remove_last_all by apply x_chain_nodup. auto.
  - intros l' Hl. cbn. auto.
Qed.

(** ** [$merge]'s batches *)

Lemma wp_merge db coll n chain l H ins :
  running H l chain → (strict = true → HELD_TO_END l = None) →
  (strict = true → Forall (λ p : Resource * Mode, contended p.1 = false) chain) →
  wp (run_act chain (HMerge db coll n)) l H ins (leaves l H ins).
Proof.
  intros Hrun Hheld Hchain. pose proof (merge_round_may _ _ _ _ db coll Hrun Hchain) as Hmay.
  cbn [run_act]. apply prog_bind_wp. unfold write_rounds. apply prog_bind_wp. cbn [MongoLogic.wp get].
  destruct (CURRENT l) eqn:Ecur; [|cbn; split; [done|apply after_refl]].
  destruct n as [|n]; [cbn; split; [done|apply after_refl]|].
  apply prog_bind_wp. eapply prog_mono; [|apply wp_pass_rounds; by apply Forall_replicate].
  intros [] l1 H1 ins1 [-> Ha1]; [|by split].
  apply prog_bind_wp. cbn [MongoLogic.wp new_owner]. intros o Ho.
  apply prog_bind_wp, wp_last_round; [done|by eapply round_may_ext; [apply Ha1|]|..].
  2:{ intros l' Hl. cbn. split; [done|]. eapply after_trans; [done|]. apply after_scope; [done|by apply ext_new]. }
  intros l2 Hl2. cbn [MongoLogic.wp mbind prog_bind get].
  assert (Hg : guarded strict l1 H1 (mkGuard o (STATEMENT_OWNER l2)) (merge_round db coll) l2
                 (<[o := merge_round db coll]> H1)).
  { destruct Hl2 as (E1 & E2 & E3). split_and!; cbn; try done; [by rewrite lookup_insert_eq|].
    rewrite insert_insert_eq. by apply ext_new. }
  split; [intros r m Hin; exists o, (merge_round db coll); by rewrite lookup_insert_eq|].
  destruct (HELD_TO_END l1) as [h|] eqn:Eh.
  - eapply wp_guard_kept; [exact Hg|apply after_refl|destruct Hl2 as (_ & _ & ->); exact Eh|].
    intros l3 C3 S3 D3. split; [done|]. eapply after_trans; [exact Ha1|].
    assert (Hns : strict ≠ true).
    { intros Hs. destruct Ha1 as (_ & _ & _ & Hd). rewrite (Hheld Hs) in Hd. congruence. }
    split; [rewrite C3; by destruct Hl2|]. split; [done|]. split.
    + split; [|done]. intros o' L HL. rewrite lookup_insert_ne; [done|congruence].
    + rewrite Eh, D3. exists [o]. split_and!; [done| |done].
      intros o' Ho'%list_elem_of_singleton. subst. by rewrite lookup_insert_eq.
  - eapply prog_mono; [|eapply wp_guard_drop; [exact Hg|apply after_refl|done]].
    intros _ l3 H3 ins3 [-> Ha3]. split; [done|]. by eapply after_trans.
Qed.

(** ** [fsync] *)

Lemma wp_fsync_lock l H : strict = false → wp fsync_lock l H false (leaves l H false).
Proof.
  intros Hns. unfold fsync_lock. cbn [MongoLogic.wp]. do 2 (split; [done|]). intros [n ow].
  assert (Hgo : ∀ l0 H0, same_scope l l0 → (∀ o L, H !! o = Some L → H0 !! o = Some L) →
            after l H l0 H0).
  { intros l0 H0 Hl HH. apply after_scope; [done|]. split; [done|congruence]. }
  assert (Hacq : ∀ H0, (∀ o L, H !! o = Some L → H0 !! o = Some L) →
     wp (NewOwner false (λ o, Acquire o Global S_ (λ _, FsyncLeave (wrap 32 (0 + 1), Some o) (mret (wrap 32 (0 + 1))))))
       l H0 true (leaves l H false)).
  { intros H0 HH. cbn [MongoLogic.wp snd mret prog_ret]. intros o Ho. exists []. rewrite lookup_insert_eq.
    split; [done|]. split; [congruence|]. intros l' Hl. rewrite insert_insert_eq.
    split; (split; [done|]); rewrite ?lookup_insert_eq, delete_insert_id by done; auto. }
  destruct ow as [o|]; cbn [snd fst]; [intros L Ho|]; case_bool_decide as D; subst.
  - apply Hacq. intros o' L' HL'. rewrite lookup_insert_ne; [done|congruence].
  - cbn. split; [done|]. rewrite lookup_insert_eq, delete_insert_id by done. split; [done|].
    split; [done|]. apply after_refl.
  - apply Hacq. auto.
  - cbn. split; [done|]. split; [done|]. apply after_refl.
Qed.

Lemma wp_fsync_unlock l H : strict = false → wp fsync_unlock l H false (leaves l H false).
Proof.
  intros Hns. unfold fsync_unlock. cbn [MongoLogic.wp]. do 2 (split; [done|]). intros [n ow].
  destruct ow as [o|]; cbn [snd fst]; [intros L Ho|];
    (case_bool_decide as D; [|case_bool_decide as D2]); subst; cbn [MongoLogic.wp snd fst mbind prog_bind mret prog_ret release_].
  - split; [done|]. rewrite lookup_insert_eq, delete_insert_id by done. do 2 (split; [done|]). apply after_refl.
  - rewrite lookup_insert_eq, insert_insert_eq. do 3 (split; [done|]). apply after_scope; [apply same_scope_refl|].
    split; [|congruence]. intros o' L' HL'. rewrite lookup_insert_ne; [done|congruence].
  - split; [done|]. rewrite lookup_insert_eq, delete_insert_id by done. do 2 (split; [done|]). apply after_refl.
  - do 2 (split; [done|]). apply after_refl.
  - do 2 (split; [done|]). apply after_refl.
  - do 2 (split; [done|]). apply after_refl.
Qed.

(** ** A handler *)

Lemma wp_run_act kept chain a l H :
  running H l chain → (strict = true → act_ok kept chain a) →
  (strict = true → kept = false → HELD_TO_END l = None) →
  wp (run_act chain a) l H false (leaves l H false).
Proof.
  intros Hrun Hok Hheld. destruct a as [|n|db coll n|db coll| | |].
  - cbn. split; [apply Hrun|]. split; [done|apply after_refl].
  - apply wp_global_reads.
  - eapply wp_merge; [exact Hrun|..]; intros Hs; destruct (Hok Hs); auto.
  - cbn [run_act]. apply prog_bind_wp.
    eapply prog_mono; [|by eapply wp_exclusive_section]. intros [] l1 H1 ins1 [-> Ha1]; [|by split].
    pose proof (running_after _ _ _ _ _ _ Hrun Ha1) as Hrun1.
    cbn [MongoLogic.wp work mbind prog_bind]. split; [apply Hrun1|]. apply prog_bind_wp. eapply prog_mono; [|by eapply wp_exclusive_section].
    intros b l2 H2 ins2 [-> Ha2]. split; [done|]. by eapply after_trans.
  - apply wp_take_and_release. unfold intents. repeat constructor.
  - cbn [run_act]. apply prog_bind_wp. eapply prog_mono; [|apply wp_fsync_lock, not_true_iff_false; exact Hok]. done.
  - cbn [run_act]. apply prog_bind_wp. eapply prog_mono; [|apply wp_fsync_unlock, not_true_iff_false; exact Hok]. done.
Qed.

Lemma wp_run_acts kept chain acts l H :
  running H l chain → (strict = true → Forall (act_ok kept chain) acts) →
  (strict = true → kept = false → HELD_TO_END l = None) →
  wp (run_acts chain acts) l H false (leaves l H false).
Proof.
  revert l H. induction acts as [|a acts IH]; intros l H Hrun Hok Hheld; [split; [done|apply after_refl]|].
  cbn [run_acts]. apply prog_bind_wp. eapply prog_mono; [|eapply (wp_run_act kept); [done| |done]].
  2:{ intros Hs. specialize (Hok Hs). by inversion Hok. }
  intros _ l1 H1 ins1 [-> Ha1]. eapply prog_mono; [|apply IH].
  - intros _ l2 H2 ins2 [-> Ha2]. split; [done|]. by eapply after_trans.
  - by eapply running_after.
  - intros Hs. specialize (Hok Hs). by inversion Hok.
  - intros Hs Hk. destruct Ha1 as (_ & _ & _ & Hd). by rewrite (Hheld Hs Hk) in Hd.
Qed.

Lemma wp_handler_body kept chain acts l H :
  running H l chain → (strict = true → Forall (act_ok kept chain) acts) →
  (strict = true → kept = false → HELD_TO_END l = None) →
  wp (handler_body chain acts) l H false (leaves l H false).
Proof.
  intros Hrun Hok Hheld. unfold handler_body. apply prog_bind_wp. cbn [MongoLogic.wp enter mbind prog_bind get put mret prog_ret].
  cbn [MongoLogic.wp work mbind prog_bind]. split; [apply Hrun|].
  set (l1 := set_current true l). change (running H l1 chain) in Hrun.
  apply prog_bind_wp. eapply prog_mono; [|by eapply wp_run_acts].
  intros _ l2 H2 ins2 [-> Ha2]. cbn. split; [done|].
  destruct Ha2 as (A1 & A2 & A3 & A4). split_and!; done.
Qed.

Lemma round_may_empty H round :
  (strict = true → all_empty H) → (strict = true → ascends [] round) → round_may strict H round.
Proof.
  intros He Ha o Ho. apply chain_may_ascends; [|done]. intros Hs o' L Hne HL.
  rewrite lookup_insert_ne in HL by congruence. rewrite (He Hs _ _ HL). constructor.
Qed.

Lemma all_empty_ext H H' : (strict = true → all_empty H) → ext H H' → strict = true → all_empty H'.
Proof. intros He [_ X] Hs o L HL. destruct (X Hs _ _ HL); [by eapply He|done]. Qed.

(** [run_handler]: it fails and leaves what it found, or it runs and comes to
    drop its guard. *)
Lemma wp_run_handler kept rounds acts l H (Q : unit → Locals → heap → bool → Prop) :
  let chain := default [] (last rounds) in
  (strict = true → all_empty H) →
  (strict = true → Forall (ascends []) rounds ∧ Forall (act_ok kept chain) acts) →
  (strict = true → kept = false → HELD_TO_END l = None) →
  (∀ l' H', after l H l' H' → Q tt l' H' false) →
  (∀ g l0 H0 l1 H1 l2 H2, after l H l0 H0 → guarded strict l0 H0 g chain l1 H1 → after l1 H1 l2 H2 →
     wp (guard_drop g) l2 H2 false Q) →
  wp (run_handler rounds acts) l H false Q.
Proof.
  intros chain He Hok Hheld Hfail Hrun. unfold run_handler. apply prog_bind_wp.
  eapply prog_mono; [|apply wp_guard_statement].
  2:{ apply Forall_forall. intros round Hin. apply round_may_empty; [done|]. intros Hs.
      destruct (Hok Hs) as [Ha _]. rewrite Forall_forall in Ha. auto. }
  intros [g|] l1 H1 ins1 [-> Hg]; [|by apply Hfail].
  destruct Hg as (l0 & H0 & Ha0 & Hg & Hso). fold chain in Hg |- *. apply prog_bind_wp.
  eapply prog_mono; [|eapply (wp_handler_body kept)].
  - intros _ l2 H2 ins2 [-> Ha2]. by eapply Hrun.
  - destruct Hg as (G1 & G2 & G3 & G4 & G5 & [G6 G7]). split_and!.
    + intros r m Hin. eauto.
    + intros o. rewrite Hso. intros [= <-]. eauto.
    + intros Hs o L HL. rewrite Hso. destruct (decide (o = g_owner g)) as [->|Hne].
      * right. split; congruence.
      * left. destruct (G7 Hs o L) as [HL0|]; [by rewrite lookup_insert_ne by congruence| |done].
        eapply (all_empty_ext H H0 He); [apply Ha0|done|done].
  - intros Hs. by apply Hok.
  - intros Hs Hk. destruct Hg as (_ & _ & -> & _). destruct Ha0 as (_ & _ & _ & Hd).
    by rewrite (Hheld Hs Hk) in Hd.
Qed.

(** ** Between commands *)

Definition idle l H : Prop :=
  STATEMENT_OWNER l = None ∧ HELD_TO_END l = None ∧ (strict = true → all_empty H).

Lemma idle_after l H l' H' : idle l H → after l H l' H' → idle l' H'.
Proof.
  intros (I1 & I2 & I3) (A1 & A2 & A3 & A4). rewrite I2 in A4. split_and!; [congruence|done|].
  by eapply all_empty_ext.
Qed.

Abbreviation idles := (λ _ l' H' ins', ins' = false ∧ idle l' H').

Lemma wp_statement rounds acts l H :
  idle l H →
  (strict = true → Forall (ascends []) rounds ∧ Forall (act_ok false (default [] (last rounds))) acts) →
  wp (run_handler rounds acts) l H false idles.
Proof.
  intros Hi Hok. pose proof Hi as (I1 & I2 & I3). apply (wp_run_handler false); try done.
  - intros l' H' Ha. split; [done|]. by eapply idle_after.
  - intros g l0 H0 l1 H1 l2 H2 Ha0 Hg Ha2. eapply prog_mono; [|eapply wp_guard_drop; [done|done|]].
    + intros _ l3 H3 ins3 [-> Ha3]. split; [done|]. eapply idle_after; [done|]. by eapply after_trans.
    + destruct Ha0 as (_ & _ & _ & Hd). by rewrite I2 in Hd.
Qed.

(** *** Retryable writes *)

Lemma wp_release_kept os l H ins :
  (∀ o, o ∈ os → is_Some (H !! o)) →
  wp (release_all os) l H ins (λ _ l' H' ins', l' = l ∧ ins' = ins ∧
    ∀ o L, H' !! o = Some L → L = [] ∨ (o ∉ os ∧ H !! o = Some L)).
Proof.
  revert H. induction os as [|o os IH]; intros H Hin; cbn [release_all].
  - cbn. split_and!; try done. intros o L HL. right. split; [apply not_elem_of_nil|done].
  - cbn [MongoLogic.wp release_ mbind prog_bind]. split; [apply Hin; left|]. eapply prog_mono; [|apply IH].
    + intros _ l' H' ins' (-> & -> & HH). split_and!; try done. intros o' L HL.
      destruct (HH _ _ HL) as [?|[Hn HL']]; [by left|].
      insert_case o' o; [injection HL' as <-; by left|].
      right. split; [|done]. by apply not_elem_of_cons.
    + intros o' Ho'. insert_case o' o; [done|]. apply Hin. by right.
Qed.

(** Inside a [hold_to_end] scope: everything held is kept by it. *)
Definition keeping (e : list Owner) l H : Prop :=
  STATEMENT_OWNER l = None ∧ HELD_TO_END l = Some e ∧ (∀ o, o ∈ e → is_Some (H !! o)) ∧
  (strict = true → ∀ o L, H !! o = Some L → L = [] ∨ o ∈ e).

Lemma wp_held_drop e l H :
  keeping e l H → wp (held_drop None) l H false idles.
Proof.
  intros (K1 & K2 & K3 & K4). unfold held_drop. apply prog_bind_wp. cbn [MongoLogic.wp get].
  cbn [MongoLogic.wp put mbind prog_bind]. rewrite K2. cbn [default].
  eapply prog_mono; [|apply wp_release_kept].
  - intros _ l' H' ins' (-> & -> & HH). split; [done|]. split_and!; try done.
    intros Hs o L HL. destruct (HH _ _ HL) as [?|[Hn HL']]; [done|].
    destruct (K4 Hs _ _ HL') as [?|Hin]; [done|]. destruct Hn. by apply elem_of_reverse.
  - intros o Ho. apply K3. by apply elem_of_reverse.
Qed.

Lemma wp_write_round_loop o round l H ins (Q : bool → Locals → heap → bool → Prop) L :
  H !! o = Some L → chain_may strict H o L round →
  (∀ b l' L', same_scope l l' → Q b l' (<[o := L']> H) ins) →
  wp (write_round_loop o round) l H ins Q.
Proof.
  revert l H L. induction round as [|[r m] round IH]; intros l H L Ho Hmay HQ.
  - cbn. specialize (HQ true l L (same_scope_refl l)). by rewrite insert_id in HQ.
  - apply chain_may_cons in Hmay as [Hm Hmay]; [|done]. cbn [write_round_loop].
    apply prog_bind_wp. cbn. exists L. do 2 (split; [done|]). intros l1 Hl1. split.
    + eapply IH; [by rewrite lookup_insert_eq|done|]. intros b l' L' Hl'. rewrite insert_insert_eq.
      apply HQ. by eapply same_scope_trans.
    + specialize (HQ false l1 L Hl1). by rewrite insert_id in HQ.
Qed.

(** The chain the kept statement holds. *)
Definition kept_chain (e : list Owner) H chain : Prop :=
  strict = true → e = [] ∨ ∃ o, e = [o] ∧ H !! o = Some chain.

Lemma wp_held_write_round e chain l H :
  let round := merge_round (lit "config") (lit "transactions") in
  keeping e l H → kept_chain e H chain → (strict = true → ascends chain round) →
  wp (held_write_round (lit "config") (lit "transactions")) l H false
    (λ _ l' H' ins', ins' = false ∧ keeping e l' H').
Proof.
  intros round (K1 & K2 & K3 & K4) Hkc Hasc. unfold held_write_round. apply prog_bind_wp. cbn [MongoLogic.wp get].
  rewrite K2. cbn [mbind option_bind]. destruct (last e) as [o|] eqn:El; [|done].
  assert (Hoe : o ∈ e) by (apply last_Some in El as [e' ->]; apply elem_of_mid).
  destruct (K3 o Hoe) as [L Ho]. eapply wp_write_round_loop; [done|..].
  - apply chain_may_ascends.
    + intros Hs o' L' Hne HL'. destruct (K4 Hs _ _ HL') as [->|Hin]; [constructor|].
      destruct (Hkc Hs) as [->|(o1 & -> & _)]; [elem_nil|].
      apply list_elem_of_singleton in Hin, Hoe. congruence.
    + intros Hs. destruct (Hkc Hs) as [->|(o1 & -> & Ho1)]; [elem_nil|].
      apply list_elem_of_singleton in Hoe. subst. rewrite Ho in Ho1. injection Ho1 as ->. auto.
  - intros b l' L' (E1 & E2 & E3). split; [done|]. split_and!; try congruence.
    + intros o' Ho'. insert_case o' o; eauto.
    + intros Hs o' L1 HL1. insert_case o' o; eauto.
Qed.

(** The handler of a retryable write leaves its holds to the scope. *)
Lemma wp_handler_kept rounds acts l H :
  let chain := default [] (last rounds) in
  STATEMENT_OWNER l = None → HELD_TO_END l = Some [] → (strict = true → all_empty H) →
  (strict = true → Forall (ascends []) rounds ∧ Forall (act_ok true chain) acts) →
  wp (run_handler rounds acts) l H false
    (λ _ l' H' ins', ins' = false ∧ ∃ e, keeping e l' H' ∧ kept_chain e H' chain).
Proof.
  intros chain Hso Hheld He Hok. apply (wp_run_handler true); try done.
  - intros l' H' (A1 & A2 & A3 & A4). rewrite Hheld in A4. destruct A4 as (e & E1 & E2 & E3).
    split; [done|]. exists e. split; [|intros Hs; left; auto]. split_and!; [congruence|done|done|].
    intros Hs o L HL. left. by eapply (all_empty_ext H H' He).
  - intros g l0 H0 l1 H1 l2 H2 Ha0 Hg Ha2. pose proof Hg as (G1 & G2 & G3 & G4 & G5 & [G6 G7]).
    destruct Ha0 as (A1 & A2 & A3 & A4). rewrite Hheld in A4. destruct A4 as (e & E1 & E2 & E3).
    pose proof Ha2 as (B1 & B2 & [X1 X2] & B4). rewrite G3, E1 in B4. destruct B4 as (e' & F1 & F2 & F3).
    eapply wp_guard_kept; [exact Hg|exact Ha2|exact F1|]. intros l' L1 L2 L3. split; [done|].
    exists ((([] ++ e) ++ e') ++ [g_owner g]). split.
    + split_and!; [congruence|done|..].
      * intros o [[Ho|Ho]%elem_of_app|Ho]%elem_of_app; [|by apply F2|].
        -- destruct (E2 _ Ho) as [L HL]. specialize (G6 _ _ HL).
           rewrite lookup_insert_ne in G6 by congruence. eauto.
        -- apply list_elem_of_singleton in Ho. subst. eauto.
      * intros Hs o L HL. destruct (decide (o = g_owner g)) as [->|Hne].
        { right. apply elem_of_mid. }
        left. destruct (X2 Hs _ _ HL) as [HL1|]; [|done].
        destruct (G7 Hs o L) as [HL0|]; [by rewrite lookup_insert_ne by congruence| |done].
        by eapply (all_empty_ext H H0 He).
    + intros Hs. right. exists (g_owner g). rewrite (E3 Hs), (F3 Hs). split; [done|]. by apply X1.
Qed.

(** What a strict system asks of a request. *)
Definition request_ok (r : request) : Prop :=
  match r with
  | RStatement rounds acts =>
      Forall (ascends []) rounds ∧ Forall (act_ok false (default [] (last rounds))) acts
  | RRetryable (Some (rounds, acts)) _ =>
      Forall (ascends []) rounds ∧ Forall (act_ok true (default [] (last rounds))) acts ∧
      ascends (default [] (last rounds)) (merge_round (lit "config") (lit "transactions"))
  | RRetryable None _ => True
  | RTransaction _ => False
  end.

Lemma wp_retryable run wrote l H :
  idle l H → (strict = true → request_ok (RRetryable run wrote)) →
  wp (retryable run wrote) l H false idles.
Proof.
  intros Hi Hok. unfold retryable. apply prog_bind_wp. eapply prog_mono.
  2:{ apply wp_take_and_release. unfold intents. by repeat constructor. }
  intros _ l1 H1 ins1 [-> Ha1]. pose proof (idle_after _ _ _ _ Hi Ha1) as (I1 & I2 & I3).
  apply prog_bind_wp. cbn [MongoLogic.wp hold_to_end mbind prog_bind get put mret prog_ret]. rewrite I2.
  set (l2 := set_held (Some []) l1). set (chain := match run with Some (rounds, _) => default [] (last rounds) | None => [] end).
  apply prog_bind_wp. eapply (prog_mono strict _ _ _ _
    (λ _ l' H' ins', ins' = false ∧ ∃ e, keeping e l' H' ∧ kept_chain e H' chain)).
  2:{ destruct run as [[rounds acts]|].
      - apply wp_handler_kept; [done..|]. intros Hs. destruct (Hok Hs) as (? & ? & _). done.
      - cbn. split; [done|]. exists []. split; [|by left]. split_and!; [done|done| |].
        + intros o Ho. elem_nil.
        + intros Hs o L HL. left. by eapply I3. }
  intros _ l3 H3 ins3 (-> & e & Hk & Hkc). apply prog_bind_wp. destruct wrote; [|by eapply wp_held_drop].
  apply prog_bind_wp. eapply prog_mono; [|eapply wp_held_write_round; [done|done|]].
  - intros b l4 H4 ins4 [-> Hk4]. by eapply wp_held_drop.
  - intros Hs. specialize (Hok Hs). subst chain. destruct run as [[rounds acts]|]; [by apply Hok|].
    apply merge_ascends.
Qed.

(** *** Transactions: any chains, so only in a system that may block *)

Lemma chain_may_lax H o L chain : strict = false → chain_may strict H o L chain.
Proof. intros E c1 r m c2 _ Hs. congruence. Qed.

Lemma wp_txn_links o chain l H ins L (Q : option (Resource * Mode) → Locals → heap → bool → Prop) :
  strict = false → H !! o = Some L →
  (∀ l', same_scope l l' → Q None l' (<[o := L ++ chain]> H) ins) →
  (∀ l' L' rm, same_scope l l' → Q (Some rm) l' (<[o := L']> H) ins) →
  wp (txn_links o chain) l H ins Q.
Proof.
  intros Hns. revert l H L. induction chain as [|[r m] chain IH]; intros l H L Ho Hok Herr.
  - cbn. specialize (Hok l (same_scope_refl l)). rewrite app_nil_r in Hok. by rewrite insert_id in Hok.
  - cbn [txn_links]. apply prog_bind_wp. cbn. exists L. split; [done|]. split; [congruence|]. intros l1 Hl1. split.
    + apply (IH l1 (<[o := L ++ [(r, m)]]> H) (L ++ [(r, m)])); [by rewrite lookup_insert_eq|..].
      * intros l' Hl'. rewrite insert_insert_eq, <- app_assoc. apply Hok. by eapply same_scope_trans.
      * intros l' L' rm Hl'. rewrite insert_insert_eq. apply Herr. by eapply same_scope_trans.
    + specialize (Herr l1 L (r, m) Hl1). by rewrite insert_id in Herr.
Qed.

Lemma wp_txn_statements o stmts held l H :
  strict = false → idle l H → (∃ L, H !! o = Some L ∧ ∀ p, p ∈ held → p ∈ L) →
  wp (txn_statements o held stmts) l H false idles.
Proof.
  intros Hns. revert held l H. induction stmts as [|[[doc db] acts] stmts IH]; intros held l H Hi (L & Ho & Hsub).
  - cbn. split; [eauto|]. split; [done|]. destruct Hi as (? & ? & _). split_and!; [done|done|congruence].
  - assert (Hidle : ∀ l' H', same_scope l l' → idle l' H').
    { intros l' H' (E1 & E2 & E3). destruct Hi as (? & ? & _). split_and!; congruence. }
    cbn [txn_statements]. apply prog_bind_wp. unfold txn_statement. apply prog_bind_wp.
    eapply wp_txn_links; [done|done|..].
    + intros l1 Hl1. cbn [MongoLogic.wp mret prog_ret]. set (H1 := <[o := L ++ txn_chain doc db]> H).
      assert (Hall : ∃ L1, H1 !! o = Some L1 ∧ ∀ p, p ∈ held ++ txn_chain doc db → p ∈ L1).
      { exists (L ++ txn_chain doc db). split; [apply lookup_insert_eq|]. intros p.
        rewrite !elem_of_app. intros [?|?]; auto. }
      apply prog_bind_wp. eapply prog_mono; [|eapply (wp_handler_body false)]; [|..|congruence|congruence].
      * intros _ l2 H2 ins2 [-> Ha2]. apply IH; [by eapply idle_after; [apply Hidle|]|].
        destruct Hall as (L1 & HL1 & ?). exists L1. split; [by apply Ha2|done].
      * destruct Hall as (L1 & HL1 & Hin). split_and!; [|..|congruence].
        -- intros r m Hrm. eauto.
        -- intros o'. destruct (Hidle l1 H1 Hl1) as (-> & _). done.
    + intros l1 L' rm Hl1. cbn. rewrite !lookup_insert_eq. do 2 (split; [eauto|]).
      split; [done|]. by apply Hidle.
Qed.

Lemma wp_run_request r l H :
  idle l H → (strict = true → request_ok r) → wp (run_request r) l H false idles.
Proof.
  intros Hi Hok. destruct r as [rounds acts|run wrote|stmts]; cbn [run_request].
  - by apply wp_statement.
  - by apply wp_retryable.
  - assert (Hns : strict = false) by (apply not_true_iff_false; exact Hok).
    unfold transaction. apply prog_bind_wp. cbn. intros o Ho. apply wp_txn_statements; [done|..].
    + destruct Hi as (? & ? & _). split_and!; [done|done|congruence].
    + exists []. split; [apply lookup_insert_eq|done].
Qed.

Definition command_ok (c : command) : Prop := request_ok (c_request c).

Lemma wp_run_command c l H :
  idle l H → (strict = true → command_ok c) → wp (run_command c) l H false idles.
Proof.
  intros Hi Hok. unfold run_command. cbn [MongoLogic.wp put mbind prog_bind].
  assert (Hi' : idle (begin_operation l) H) by exact Hi.
  apply prog_bind_wp. eapply prog_mono; [|by apply wp_run_request]. intros _ l1 H1 ins1 [-> Hi1].
  assert (Hend : ∀ l2 H2, idle l2 H2 →
    wp (if c_slow c then l ← get; if TOOK_GLOBAL l then log_lock else mret tt else mret tt) l2 H2 false idles).
  { intros l2 H2 Hi2. destruct (c_slow c); [|by split]. cbn [MongoLogic.wp get mbind prog_bind].
    destruct (TOOK_GLOBAL l2); [|by split]. eapply prog_mono.
    2:{ apply wp_take_and_release. unfold intents. by repeat constructor. }
    intros _ l3 H3 ins3 [-> Ha3]. split; [done|]. by eapply idle_after. }
  apply prog_bind_wp. destruct (c_journal c); [|by apply Hend].
  unfold journal_wait. apply prog_bind_wp, prog_bind_wp. cbn [MongoLogic.wp new_owner]. intros o Ho.
  assert (Hidle : ∀ l', same_scope l1 l' → idle l' (<[o := []]> H1)).
  { intros l' Hl. eapply idle_after; [done|]. apply after_scope; [done|by apply ext_new]. }
  apply prog_bind_wp, wp_last_round; [done|intros o' _; apply chain_may_intents, journal_intents|..].
  - intros l' Hl. cbn [MongoLogic.wp mret prog_ret work mbind prog_bind journal_drop release_]. split.
    + intros r m Hin. exists o, journal_chain. by rewrite lookup_insert_eq.
    + split; [by rewrite lookup_insert_eq|]. rewrite insert_insert_eq. by apply Hend, Hidle.
  - intros l' Hl. cbn [MongoLogic.wp mret prog_ret work mbind prog_bind journal_drop]. split.
    + intros r m Hin. elem_nil.
    + by apply Hend, Hidle.
Qed.

(** A connection's thread. *)
Lemma wp_serve cs l H :
  idle l H → (strict = true → Forall command_ok cs) → wp (serve cs) l H false (finished strict).
Proof.
  revert l H. induction cs as [|c cs IH]; intros l H Hi Hok.
  - cbn. split; [done|]. apply Hi.
  - cbn [serve]. apply prog_bind_wp. eapply prog_mono; [|apply wp_run_command; [done|]].
    + intros _ l1 H1 ins1 [-> Hi1]. apply IH; [done|]. intros Hs. specialize (Hok Hs). by inversion Hok.
    + intros Hs. specialize (Hok Hs). by inversion Hok.
Qed.

Lemma idle_start : idle locals_new ∅.
Proof. by split_and!. Qed.
End serve.
