(* ===== verification/MongoOrder.v ===== *)
(** * The order and the hierarchy of a statement's locks

    Every round a statement takes, [renameCollection]'s apart, takes its locks in
    one order of resources; the round it holds while it runs locks every
    collection under its database and the global lock. *)
From stdpp Require Import strings.
From S2P Require Import Prelude RustM Lex Bson Docs MongoLocks MongoRounds MongoProg MongoSystem MongoHeads.
From S2P Require Import MongoLogic MongoSpecs.
Local Open Scope Z_scope.

(** ** Ascending rounds *)

Lemma ascends_write_round db coll : ascends [] (write_round db coll).
Proof.
  destruct coll as [c|]; cbn [write_round app]; [apply ascends_two|apply ascends_db]; auto. apply db_lt_coll.
Qed.

Lemma ascends_read_round db c : ascends [] (read_round db c).
Proof. apply ascends_two; auto. apply db_lt_coll. Qed.

Lemma ascends_x_round db c : ascends [] (x_round db c).
Proof. apply (ascends_two Ix db Ix (dotted db c) X); auto. apply db_lt_coll. Qed.

(** Links held already may be taken again. *)
Lemma ascends_again L c1 c2 :
  (∀ r m, (r, m) ∈ c1 → if contended r then (r, m) ∈ L else intent r m) → ascends (L ++ c1) c2 →
  ascends L (c1 ++ c2).
Proof.
  intros Hin Ha. apply ascends_app. split; [|done]. clear Ha. revert L Hin.
  induction c1 as [|[r m] c1 IH]; intros L Hin; [done|]. cbn. split.
  - unfold ascends_link. specialize (Hin r m (list_elem_of_here _ _)). destruct (contended r); auto.
  - apply IH. intros r' m' Hin'. specialize (Hin r' m' (list_elem_of_further _ _ _ Hin')).
    destruct (contended r'); [|done]. by apply elem_of_app_l.
Qed.

Lemma ascends_find_and_modify db c : ascends [] (write_round db None ++ write_round db (Some c)).
Proof.
  apply ascends_app. split; [apply ascends_write_round|].
  change (write_round db (Some c)) with (write_round db None ++ [(Collection (dotted db c), Ix)]).
  apply ascends_again.
  - intros r m. cbn [write_round app]. intros Hin. rewrite !elem_of_cons in Hin.
    destruct Hin as [[= -> ->]|[[= -> ->]|[[= -> ->]|Hin]]]; cbn; auto; [by do 2 right; left|].
    elem_nil.
  - cbn. split; [|done]. unfold ascends_link. cbn. right. pose proof (db_lt_coll db c). by repeat constructor.
Qed.

(** Database and collections of one database, in the order of their names. *)
Lemma coll_lt db c c' : bcmp c c' = Lt → res_lt (Collection (dotted db c)) (Collection (dotted db c')).
Proof.
  intros E. unfold res_lt. cbn [key app]. rewrite !in_config_dotted, !bcmp_cons, Z.compare_refl. cbn.
  unfold dotted. by rewrite !bcmp_app_same.
Qed.

Lemma ascends_collections db cs L :
  StronglySorted (λ a b, bcmp a b = Lt) cs →
  (∀ c r m, c ∈ cs → (r, m) ∈ L → contended r = true → res_lt r (Collection (dotted db c))) →
  ascends L (map (λ c, (Collection (dotted db c), Is)) cs).
Proof.
  intros Hs. revert L. induction Hs as [|c cs Hs IH Hc]; intros L HL; [done|]. cbn [map ascends]. split.
  - unfold ascends_link. cbn. right. apply Forall_forall. intros [r m] Hin Hr. eapply HL; [left|done|done].
  - apply IH. intros c' r m Hc' [Hin|Hin]%elem_of_app Hr.
    + eapply HL; [by right|done|done].
    + apply list_elem_of_singleton in Hin as [= -> ->]. apply coll_lt. rewrite Forall_forall in Hc. auto.
Qed.

Lemma ascends_db_collections dm db cs :
  StronglySorted (λ a b, bcmp a b = Lt) cs →
  ascends [] ([(ReplicationStateTransition, Ix); (Global, Is); (Database db, dm)]
              ++ map (λ c, (Collection (dotted db c), Is)) cs).
Proof.
  intros Hs. apply ascends_app. split; [apply ascends_db; auto|]. apply ascends_collections; [done|].
  intros c r m _ Hin Hr. cbn [app] in Hin. rewrite !elem_of_cons in Hin. destruct Hin as [[= -> ->]|[[= -> ->]|[[= -> ->]|Hin]]]; try done.
  - apply db_lt_coll.
  - elem_nil.
Qed.

Lemma ascends_create_indexes doc_eq doc db c facts :
  Forall (ascends []) (create_indexes_rounds doc_eq doc db c facts).
Proof.
  assert (Hg : ascends [] [(Global, Is)]) by (cbn; unfold ascends_link; cbn; auto).
  assert (Hr : ascends [] [(ReplicationStateTransition, Ix)]) by (cbn; unfold ascends_link; cbn; auto).
  assert (Hc : ascends [] [(Collection (dotted db c), Ix)]).
  { cbn. split; [|done]. right. constructor. }
  pose proof (ascends_write_round db (Some c)) as Hw. pose proof (ascends_write_round db None) as Hn.
  pose proof (ascends_x_round db c) as Hx. unfold create_indexes_rounds.
  destruct (exists_ facts c); cbn [negb]; [|auto].
  destruct (_ && _); [auto|]. destruct (is_empty facts c); cbn [app replicate]; auto 20.
Qed.

Lemma ascends_out_rounds doc db source facts rounds :
  out_rounds doc db source facts = Some rounds → Forall (ascends []) rounds.
Proof.
  unfold out_rounds. intros E. repeat (apply bind_Some in E as (? & _ & E)).
  case_match; simplify_eq. apply bind_Some in E as (? & _ & [= <-]).
  assert (Hg : ascends [] [(Global, Is)]) by (cbn; unfold ascends_link; cbn; auto).
  assert (Hw : ∀ m, ascends [] [(ReplicationStateTransition, Ix); (Global, Ix); (Database l, Ix);
                                (Collection (dotted l l0), m)]).
  { intros m. apply ascends_two; auto. apply db_lt_coll. }
  constructor; [apply ascends_read_round|]. do 6 (constructor; [done|]).
  apply Forall_app. split; [by apply Forall_replicate|auto].
Qed.

(** ** The rounds of any statement but [renameCollection] *)

Lemma ascends_statement_chain doc db :
  first_key doc ≠ Some (lit "renameCollection") → ascends [] (statement_chain doc db).
Proof.
  intros Hne. unfold statement_chain. destruct (first_key doc) as [name|] eqn:En.
  2:{ cbn. unfold ascends_link. cbn. auto. }
  assert (Hname : named name ["renameCollection"] = false).
  { unfold named. apply bool_decide_eq_false. intros Hin%list_elem_of_singleton. by subst. }
  set (intent := match classify name with Read => Is | _ => Ix end).
  assert (Hi : intent = Is ∨ intent = Ix) by (subst intent; destruct (classify name); auto).
  assert (Hg : ascends_link [] Global intent) by (unfold ascends_link; cbn; auto).
  destruct (named name GLOBAL_ONLY); [by split|]. rewrite Hname.
  destruct (get_str doc name ≫= nonempty) as [c|]; cbn [app ascends].
  - split_and!; [done|..|done]; unfold ascends_link; cbn; right; repeat constructor; try done.
    cbn. intros _. apply db_lt_ns. unfold in_config. by rewrite before_dot_idem.
  - split_and!; [done|..|done]. unfold ascends_link; cbn; right. by repeat constructor.
Qed.

Definition listed (facts : Facts) : Prop := StronglySorted (λ a b, bcmp a b = Lt) (collections facts).

Lemma ascends_statement_rounds doc_eq doc db facts rounds :
  listed facts → statement_rounds doc_eq doc db facts = Some rounds → Forall (ascends []) rounds.
Proof.
  intros Hl E. unfold statement_rounds in E. apply bind_Some in E as (name & _ & E).
  set (coll := get_str doc name ≫= nonempty) in E. clearbody coll.
  pose proof (ascends_write_round db) as Hw.
  assert (Hg : ascends [] [(Global, Is)]) by (cbn; unfold ascends_link; cbn; auto).
  assert (Ho : ascends [] [(ReplicationStateTransition, Ix); (Global, Is)])
    by (cbn; unfold ascends_link; cbn; auto).
  repeat match type of E with
  | (if named ?n ?l then _ else _) = _ => destruct (named n l)
  end; try (injection E as <-); auto; try done.
  - repeat constructor. destruct (if named name ["dataSize"] then coll else dotted db <$> coll) as [ns|]; [|done].
    apply ascends_two; auto. apply db_lt_ns. unfold in_config. by rewrite before_dot_idem.
  - constructor; [|done]. apply ascends_two; auto. apply db_lt_coll.
  - apply bind_Some in E as (inner & _ & E). apply bind_Some in E as (verb & _ & E).
    destruct (named verb _); injection E as <-; auto.
  - constructor; [done|]. constructor; [|done]. by apply ascends_db_collections.
  - destruct (negb _); [injection E as <-; auto|]. destruct (pipeline_merges doc); [injection E as <-; auto|].
    by eapply ascends_out_rounds.
  - apply bind_Some in E as (c & _ & [= <-]). by apply Forall_replicate.
  - apply bind_Some in E as (c & _ & [= <-]). by apply Forall_replicate.
  - apply bind_Some in E as (c & _ & [= <-]). constructor; [|done]. apply ascends_find_and_modify.
  - apply bind_Some in E as (c & _ & [= <-]). pose proof (ascends_read_round db c).
    constructor; [done|]. destruct (exists_ facts c); auto.
  - apply bind_Some in E as (c & _ & E). pose proof (ascends_x_round db c).
    destruct (negb _); injection E as <-; auto.
  - constructor; [|done]. apply ascends_db. auto.
  - apply bind_Some in E as (c & _ & [= <-]). apply ascends_create_indexes.
  - constructor; [|done]. by apply ascends_db_collections.
Qed.

Lemma ascends_rounds_of doc_eq doc db facts :
  listed facts → first_key doc ≠ Some (lit "renameCollection") →
  Forall (ascends []) (rounds_of doc_eq doc db facts).
Proof.
  intros Hl Hne. unfold rounds_of. destruct (statement_rounds doc_eq doc db facts) as [rounds|] eqn:E.
  - by eapply ascends_statement_rounds.
  - constructor; [|done]. by apply ascends_statement_chain.
Qed.

(** ** A retryable write outside [config] *)

Definition outside_config (p : Resource * Mode) : Prop :=
  match p.1 with
  | Global | ReplicationStateTransition => True
  | Database n | Collection n => in_config n = false
  | _ => False
  end.

Lemma outside_lt p n :
  outside_config p → in_config n = true → contended p.1 = true → res_lt p.1 (Database n).
Proof.
  destruct p as [[|d|c| | | | |] md]; cbn; try done; intros E1 E2 _; unfold res_lt; cbn [key app];
    by rewrite E1, E2.
Qed.

Lemma ascends_config chain :
  Forall outside_config chain → ascends chain (merge_round (lit "config") (lit "transactions")).
Proof.
  intros Ho. set (db := lit "config"). set (ns := dotted db (lit "transactions")).
  assert (Hdb : Forall (λ p : Resource * Mode, contended p.1 = true → res_lt p.1 (Database db)) chain).
  { eapply Forall_impl; [exact Ho|]. intros p Hp Hc. by apply outside_lt. }
  assert (Hns : Forall (λ p : Resource * Mode, contended p.1 = true → res_lt p.1 (Collection ns)) chain).
  { eapply Forall_impl; [exact Hdb|]. intros p Hp Hc. eapply res_lt_trans; [by apply Hp|]. apply db_lt_coll. }
  unfold merge_round. cbn [ascends]. split; [done|]. split; [by right|].
  unfold ascends_link; cbn [contended]. split_and!; [right|right|done]; rewrite !Forall_app.
  - by repeat constructor.
  - by repeat constructor.
Qed.

Definition RETRYABLE : list string :=
  ["insert"; "update"; "delete"; "findAndModify"; "findandmodify"; "bulkWrite"].

(** Decide the comparisons of a known command name with the literals. *)
Ltac decide_named :=
  repeat match goal with
  | |- context [named (lit ?s) ?l] =>
      let b := eval vm_compute in (named (lit s) l) in
      replace (named (lit s) l) with b by (vm_compute; reflexivity); cbv iota
  end.

Lemma outside_write_round db c : in_config db = false → Forall outside_config (write_round db c).
Proof.
  intros E. unfold write_round. destruct c; cbn; repeat constructor; cbn; rewrite ?in_config_dotted; done.
Qed.

Lemma last_replicate_Forall {A} (P : A → Prop) n x d : P x → P d → P (default d (last (replicate n x))).
Proof.
  intros Hx Hd. destruct (last (replicate n x)) as [y|] eqn:E; [|done]. cbn.
  apply last_Some in E as [l' E]. assert (Hin : y ∈ replicate n x) by (rewrite E; apply elem_of_mid).
  by apply elem_of_replicate_inv in Hin as ->.
Qed.

Lemma retryable_outside doc_eq doc db facts name :
  first_key doc = Some name → named name RETRYABLE = true → in_config db = false →
  Forall outside_config (default [] (last (rounds_of doc_eq doc db facts))).
Proof.
  intros En Hname Hdb. apply bool_decide_eq_true in Hname.
  pose proof (outside_write_round db) as Hw.
  assert (Hnil : Forall outside_config []) by done.
  assert (Hchain : ∀ s, first_key doc = Some (lit s) → named (lit s) GLOBAL_ONLY = false →
            named (lit s) ["renameCollection"] = false → Forall outside_config (statement_chain doc db)).
  { intros s Es Eg Er. unfold statement_chain. rewrite Es, Eg, Er.
    destruct (get_str doc (lit s) ≫= nonempty) as [c|]; cbn [app]; repeat constructor; cbn.
    - unfold in_config. by rewrite before_dot_idem, before_dot_dotted.
    - by rewrite in_config_dotted.
    - done. }
  assert (Hbound : ∀ s (f : bytes → list Chain), first_key doc = Some (lit s) →
    named (lit s) GLOBAL_ONLY = false → named (lit s) ["renameCollection"] = false →
    (∀ c, Forall outside_config (default [] (last (f c)))) →
    Forall outside_config (default [] (last
      match (c ← get_str doc (lit s) ≫= nonempty; Some (f c)) with
      | Some rounds => rounds | None => [statement_chain doc db] end))).
  { intros s f Es Eg Er Hf. destruct (get_str doc (lit s) ≫= nonempty) as [c|]; [apply Hf|].
    by apply (Hchain s). }
  unfold RETRYABLE in Hname. rewrite !fmap_cons, !elem_of_cons in Hname.
  destruct Hname as [->|[->|[->|[->|[->|[->|Hin]]]]]]; [..|elem_nil];
    unfold rounds_of, statement_rounds; rewrite En; cbn [mbind option_bind]; decide_named.
  - apply Hbound; [done|by vm_compute..|]. intros c. apply last_replicate_Forall; auto.
  - apply Hbound; [done|by vm_compute..|]. intros c. apply last_replicate_Forall; auto.
  - apply Hbound; [done|by vm_compute..|]. intros c. apply last_replicate_Forall; auto.
  - apply Hbound; [done|by vm_compute..|]. intros c. apply (Forall_app_2 _ (write_round db None)); auto.
  - apply Hbound; [done|by vm_compute..|]. intros c. apply (Forall_app_2 _ (write_round db None)); auto.
  - apply (Hchain "bulkWrite"); [done|by vm_compute..].
Qed.

(** ** The hierarchy

    The collection [ns] may be locked in [m] after [pre]: the global lock and its
    database are locked there, exclusively in intent if [m] is for writing. *)
Definition parent (pre : Chain) (ns : bytes) (m : Mode) : Prop :=
  ∃ gm db dm, (Global, gm) ∈ pre ∧ (Database db, dm) ∈ pre ∧ before_dot ns = before_dot db ∧
    (m = Ix ∨ m = X → gm = Ix ∧ (dm = Ix ∨ dm = X)).

Fixpoint top_down (pre chain : Chain) : Prop :=
  match chain with
  | [] => True
  | (r, m) :: chain =>
      match r with Collection ns => parent pre ns m | _ => True end ∧ top_down (pre ++ [(r, m)]) chain
  end.

Lemma parent_more pre pre' ns m : parent pre ns m → parent (pre ++ pre') ns m.
Proof.
  intros (gm & db & dm & H1 & H2 & H3). exists gm, db, dm. rewrite !elem_of_app. auto.
Qed.

Lemma top_down_more pre pre' c : top_down pre c → top_down (pre' ++ pre) c.
Proof.
  revert pre. induction c as [|[r m] c IH]; intros pre; [done|]. cbn. rewrite <- app_assoc. intros [Hp Ht]. split; [|auto].
  destruct r; try done. destruct Hp as (gm & db & dm & H1 & H2 & H3). exists gm, db, dm. rewrite !elem_of_app. auto.
Qed.

Lemma top_down_app pre c1 c2 : top_down pre (c1 ++ c2) ↔ top_down pre c1 ∧ top_down (pre ++ c1) c2.
Proof.
  revert pre. induction c1 as [|[r m] c1 IH]; intros pre; cbn.
  - rewrite app_nil_r. tauto.
  - rewrite IH, <- app_assoc. tauto.
Qed.

Lemma top_down_round gm dm db ns m :
  before_dot ns = before_dot db → (m = Ix ∨ m = X → gm = Ix ∧ (dm = Ix ∨ dm = X)) →
  top_down [] [(ReplicationStateTransition, Ix); (Global, gm); (Database db, dm); (Collection ns, m)].
Proof.
  intros E Hm. cbn. split_and!; try done. exists gm, db, dm. split_and!; [right; left|do 2 right; left|done|done].
Qed.

Lemma top_down_write_round db c : top_down [] (write_round db c).
Proof. destruct c; [|done]. apply top_down_round; [apply before_dot_dotted|auto]. Qed.

Lemma top_down_read_round db c : top_down [] (read_round db c).
Proof. apply top_down_round; [apply before_dot_dotted|]. by intros [|]. Qed.

Lemma top_down_x_round db c : top_down [] (x_round db c).
Proof. apply (top_down_round Ix Ix db (dotted db c) X); [apply before_dot_dotted|auto]. Qed.

Lemma top_down_collections dm db cs :
  top_down [] ([(ReplicationStateTransition, Ix); (Global, Is); (Database db, dm)]
               ++ map (λ c, (Collection (dotted db c), Is)) cs).
Proof.
  apply top_down_app. split; [done|]. cbn [app].
  assert (Hp : ∀ pre, (Global, Is) ∈ pre → (Database db, dm) ∈ pre →
    top_down pre (map (λ c, (Collection (dotted db c), Is)) cs)).
  { induction cs as [|c cs IH]; intros pre H1 H2; [done|]. cbn. split.
    - exists Is, db, dm. split_and!; [done|done|apply before_dot_dotted|by intros [|]].
    - apply IH; apply elem_of_app; by left. }
  apply Hp; [right; left|do 2 right; left].
Qed.

Lemma top_down_find_and_modify db c : top_down [] (write_round db None ++ write_round db (Some c)).
Proof.
  cbn. split_and!; try done. exists Ix, db, Ix.
  split_and!; [right; left|do 2 right; left|apply before_dot_dotted|auto].
Qed.

(** A [renameCollection], if it is one, stays within one database. *)
Definition one_database (doc : Doc) : Prop :=
  first_key doc = Some (lit "renameCollection") →
  ∃ src, get_str doc (lit "renameCollection") ≫= nonempty = Some src ∧
    ∀ to, get_str doc (lit "to") = Some to → before_dot to = before_dot src.

Lemma top_down_statement_chain doc db : one_database doc → top_down [] (statement_chain doc db).
Proof.
  intros Hone. unfold statement_chain. destruct (first_key doc) as [name|] eqn:En; [|done].
  destruct (named name GLOBAL_ONLY); [done|].
  destruct (named name ["renameCollection"]) eqn:Hname.
  - apply bool_decide_eq_true, list_elem_of_singleton in Hname as ->.
    destruct (Hone En) as (src & Hsrc & Hto). rewrite Hsrc. cbn [app].
    assert (Hp : ∀ ns, before_dot ns = before_dot src →
      parent [(Global, Ix); (Database (before_dot src), Ix)] ns X).
    { intros ns E. exists Ix, (before_dot src), Ix. split_and!; [left|right; left|by rewrite before_dot_idem|auto]. }
    destruct (get_str doc (lit "to")) as [to|] eqn:Eto; cbn; split_and!; try done; [by apply Hp| |by apply Hp].
    apply (parent_more [_; _] [_]). by apply Hp, Hto.
  - destruct (get_str doc name ≫= nonempty) as [c|]; cbn [app top_down]; [|done].
    split_and!; try done. eexists _, _, _. split_and!; [left|right; left|by rewrite before_dot_idem|].
    destruct (classify name); [by intros [|]|destruct (named name ["createDatabase"; "dropDatabase"])..]; auto.
Qed.

(** The rounds [out_rounds] and [createIndexes] end with. *)
Lemma top_down_out_rounds doc db source facts rounds :
  out_rounds doc db source facts = Some rounds → top_down [] (default [] (last rounds)).
Proof.
  unfold out_rounds. intros E. repeat (apply bind_Some in E as (? & _ & E)).
  case_match; simplify_eq. apply bind_Some in E as (? & _ & E).
  injection E as <-. rewrite !app_comm_cons, last_app_cons. apply top_down_round; [apply before_dot_dotted|auto].
Qed.

Lemma top_down_create_indexes doc_eq doc db c facts :
  top_down [] (default [] (last (create_indexes_rounds doc_eq doc db c facts))).
Proof.
  unfold create_indexes_rounds. destruct (negb _); [apply top_down_write_round|].
  destruct (_ && _); [apply top_down_write_round|].
  destruct (is_empty facts c); [apply top_down_write_round|]. apply (top_down_write_round db None).
Qed.

(** The round held while the statement runs. *)
Lemma top_down_rounds_of doc_eq doc db facts :
  one_database doc →
  top_down [] (default [] (last (rounds_of doc_eq doc db facts))).
Proof.
  intros Hone. unfold rounds_of.
  destruct (statement_rounds doc_eq doc db facts) as [rounds|] eqn:E; [|by apply top_down_statement_chain].
  unfold statement_rounds in E. apply bind_Some in E as (name & _ & E).
  set (coll := get_str doc name ≫= nonempty) in E. clearbody coll.
  pose proof (top_down_write_round db) as Hw.
  repeat match type of E with
  | (if named ?n ?l then _ else _) = _ => destruct (named n l)
  end; try (injection E as <-); try done.
  - cbn. destruct (if named name ["dataSize"] then coll else dotted db <$> coll) as [ns|]; [|done].
    apply top_down_round; [by rewrite before_dot_idem|by intros [|]].
  - apply top_down_round; [apply before_dot_dotted|by intros [|]].
  - apply bind_Some in E as (inner & _ & E). apply bind_Some in E as (verb & _ & E).
    destruct (named verb _); injection E as <-; [apply Hw|done].
  - apply top_down_collections.
  - destruct (negb _); [by injection E as <-|]. destruct (pipeline_merges doc); [by injection E as <-|].
    by eapply top_down_out_rounds.
  - apply bind_Some in E as (c & _ & [= <-]). by apply last_replicate_Forall.
  - apply bind_Some in E as (c & _ & [= <-]). by apply last_replicate_Forall.
  - apply bind_Some in E as (c & _ & [= <-]). apply top_down_find_and_modify.
  - apply bind_Some in E as (c & _ & [= <-]).
    destruct (exists_ facts c); [apply top_down_read_round|apply Hw].
  - apply bind_Some in E as (c & _ & E).
    destruct (negb _); injection E as <-; [apply (Hw None)|apply top_down_x_round].
  - apply bind_Some in E as (c & _ & [= <-]). apply top_down_create_indexes.
  - apply top_down_collections.
Qed.

(** A transaction's statement, whose [create] locks the collection in IX. *)
Definition weaken_create (rm : Resource * Mode) : Resource * Mode :=
  match rm with (Collection ns, X) => (Collection ns, Ix) | rm => rm end.

Lemma top_down_weaken pre pre' c :
  (∀ r m, contended r = false ∨ (∃ db, r = Database db) → (r, m) ∈ pre → (r, m) ∈ pre') →
  top_down pre c → top_down pre' (weaken_create <$> c).
Proof.
  revert pre pre'. induction c as [|[r m] c IH]; intros pre pre' Hsub; [done|]. cbn [fmap list_fmap top_down].
  intros [Hp Ht]. assert (Hrest : top_down (pre' ++ [weaken_create (r, m)]) (weaken_create <$> c)).
  { apply (IH (pre ++ [(r, m)])); [|done]. intros r' m' Hr. rewrite !elem_of_app, !list_elem_of_singleton.
    intros [?|[= -> ->]]; [left; auto|right]. destruct Hr as [Hr|[db ->]]; [|done]. by destruct r. }
  destruct r as [|db|ns| | | | |]; try (split; [done|exact Hrest]).
  assert (Hp' : ∀ m', (m' = Ix ∨ m' = X → m = Ix ∨ m = X) → parent pre' ns m').
  { intros m' Hm'. destruct Hp as (gm & db & dm & H1 & H2 & H3 & H4). exists gm, db, dm.
    split_and!; [apply Hsub; auto|apply Hsub; eauto|done|auto]. }
  destruct m; (split; [|exact Hrest]); apply Hp'; naive_solver.
Qed.

Lemma top_down_txn_chain doc db : one_database doc → top_down [] (txn_chain doc db).
Proof.
  intros Hone. pose proof (top_down_statement_chain doc db Hone) as Ht. unfold txn_chain.
  destruct (first_key doc) as [name|]; [|done]. destruct (named name _); [|done].
  by eapply (top_down_weaken [] []).
Qed.
