(* ===== verification/MongoLive.v ===== *)
(** * Progress of the MongoDB server's threads

    A thread's control only moves forward, so it takes finitely many steps that
    are not a wait; and in a strict system, where every thread takes its locks in
    one order, some thread can always take such a step. *)
From S2P Require Import Prelude RustM Lex Docs MongoLocks MongoProg MongoSystem MongoHeads MongoLogic MongoInv.
Local Open Scope Z_scope.

(** ** Controls move forward *)

Inductive forward : ctl → ctl → Prop :=
  | fw_new t k o : forward (At (k o)) (At (NewOwner t k))
  | fw_wait o r m tk cv tf k : forward (Waiting o r m tk cv tf k) (At (Acquire o r m k))
  | fw_grant o r m tf k : forward (Counting r m false tf true k) (At (Acquire o r m k))
  | fw_end o r m tk cv tf tf' g k : forward (Counting r m true tf' g k) (Waiting o r m tk cv tf k)
  | fw_count r m w tf g k : forward (At (k g)) (Counting r m w tf g k)
  | fw_release o k : forward (At k) (At (Release o k))
  | fw_holds o c k : forward (At k) (At (ReleaseHolds o c k))
  | fw_get k l : forward (At (k l)) (At (Get k))
  | fw_put f k : forward (At k) (At (Put f k))
  | fw_enter k v : forward (At (k v)) (At (FsyncEnter k))
  | fw_leave v k : forward (At k) (At (FsyncLeave v k))
  | fw_work c k : forward (At k) (At (Work c k)).

Lemma counting_acc r m w tf g k : (∀ b, Acc forward (At (k b))) → Acc forward (Counting r m w tf g k).
Proof. intros Hk. constructor. intros c Hc. inversion Hc; subst. apply Hk. Qed.

Lemma waiting_acc o r m tk cv tf k :
  (∀ b, Acc forward (At (k b))) → Acc forward (Waiting o r m tk cv tf k).
Proof. intros Hk. constructor. intros c Hc. inversion Hc; subst. by apply counting_acc. Qed.

Lemma forward_wf : well_founded forward.
Proof.
  assert (Hat : ∀ p, Acc forward (At p)).
  { induction p as [a|t k IH|o r m k IH|o k IH|o c k IH|k IH|f k IH|k IH|v k IH|c k IH];
      constructor; intros x Hx; inversion Hx; subst; auto using counting_acc, waiting_acc. }
  intros [p|o r m tk cv tf k|r m w tf g k]; auto using counting_acc, waiting_acc.
Qed.

(** One thread of several moves forward. *)
Definition some_forward (cs' cs : list ctl) : Prop :=
  ∃ i c c', cs !! i = Some c ∧ forward c' c ∧ cs' = <[i := c']> cs.

Lemma some_forward_wf : well_founded some_forward.
Proof.
  intros cs. induction cs as [|c cs IH].
  { constructor. intros cs' (i & c & c' & Hi & _). by rewrite lookup_nil in Hi. }
  revert cs IH. induction (forward_wf c) as [c _ IHc]. intros cs Hcs. pose proof Hcs as Hcs0. revert Hcs0.
  induction Hcs as [cs _ IHcs]. intros Hcs. constructor. intros cs' ([|i] & x & x' & Hi & Hx & ->); cbn in *.
  - injection Hi as ->. by apply IHc.
  - assert (Hf : some_forward (<[i := x']> cs) cs) by (exists i, x, x'; done).
    apply IHcs; [done|]. by apply Hcs.
Qed.

(** ** The greatest resource waited for *)

Lemma maximal_exists {A} (R : A → A → Prop) `{∀ x y, Decision (R x y)} (l : list A) :
  (∀ x, ¬ R x x) → (∀ x y z, R x y → R y z → R x z) → l ≠ [] →
  ∃ x, x ∈ l ∧ ∀ y, y ∈ l → ¬ R x y.
Proof.
  intros Hirr Htr. induction l as [|x l IH]; [done|]. intros _. destruct l as [|y l].
  - exists x. split; [left|]. intros y ->%list_elem_of_singleton. auto.
  - destruct IH as (m & Hm & Hmax); [done|]. destruct (decide (R m x)) as [Hmx|Hmx].
    + exists x. split; [left|]. intros z [->|Hz]%elem_of_cons; [auto|]. intros Hxz. eapply Hmax; eauto.
    + exists m. split; [by right|]. intros z [->|Hz]%elem_of_cons; auto.
Qed.

Definition waits_for (t : thread) : option Resource :=
  match t_ctl t with Waiting _ r _ _ _ _ _ => Some r | _ => None end.

(** ** Some thread moves forward *)

Definition productive (s : sys) : Prop :=
  ∃ i t s' t', s_threads s !! i = Some t ∧ sys_step i quiet s = Some s' ∧
    s_threads s' = <[i := t']> (s_threads s) ∧ forward (t_ctl t') (t_ctl t).

Lemma tstep_productive s i t t' lm' :
  s_threads s !! i = Some t → tstep quiet t (s_lm s) = Some (t', lm') →
  forward (t_ctl t') (t_ctl t) → productive s.
Proof.
  intros Hi Ht Hf. exists i, t, (mkSys lm' (<[i := t']> (s_threads s))), t'. split; [done|]. split; [|done].
  unfold sys_step. rewrite Hi. cbn. by rewrite Ht.
Qed.

Section progress.
Context (n : Z) (s : sys) (Hs : list heap) (ins : option nat) (Hinv : inv true n s Hs ins).

(** A thread that neither waits nor is done. *)
Lemma unblocked_productive i t :
  s_threads s !! i = Some t → waits_for t = None → done_ t = false → productive s.
Proof.
  intros Hi Hw Hd. destruct (i_threads _ _ _ _ _ Hinv _ _ Hi) as (H & HH & Hsafe).
  unfold waits_for, done_, tsafe in *. destruct (t_ctl t) as [p|o r m tk cv tf k|r m w tf g k] eqn:Hc; [|done|].
  - destruct p as [a|tx k|o r m k|o k|o c k|k|f k|k|v k|c k]; [done|..].
    + destruct tx; (eapply tstep_productive; [done|unfold tstep; by rewrite Hc|]); rewrite Hc; constructor.
    + destruct (acquire_start o r m (s_lm s)) as [[tf|tk cv tf] lm'] eqn:E.
      * eapply tstep_productive; [done|unfold tstep; by rewrite Hc, E|]. rewrite Hc. constructor.
      * eapply tstep_productive; [done|unfold tstep; by rewrite Hc, E|]. rewrite Hc. constructor.
    + eapply tstep_productive; [done|unfold tstep; by rewrite Hc|]. rewrite Hc. constructor.
    + eapply tstep_productive; [done|unfold tstep; by rewrite Hc|]. rewrite Hc. constructor.
    + eapply tstep_productive; [done|unfold tstep; by rewrite Hc|]. rewrite Hc. constructor.
    + eapply tstep_productive; [done|unfold tstep; by rewrite Hc|]. rewrite Hc. constructor.
    + by destruct Hsafe as [? _].
    + eapply tstep_productive; [done|unfold tstep; by rewrite Hc|]. rewrite Hc. constructor.
    + eapply tstep_productive; [done|unfold tstep; by rewrite Hc|]. rewrite Hc. constructor.
  - eapply tstep_productive; [done|unfold tstep; by rewrite Hc|]. rewrite Hc. constructor.
Qed.

(** Every thread waits or is done: the front of the queue of the greatest
    resource waited for has no conflicting holder. *)
Lemma front_ready r :
  que (s_lm s) r ≠ [] → (∀ i t r', s_threads s !! i = Some t → waits_for t = Some r' → ¬ res_lt r r') →
  (∀ i t, s_threads s !! i = Some t → done_ t = true ∨ is_Some (waits_for t)) →
  productive s.
Proof.
  intros Hq Hmax Hall. destruct (que (s_lm s) r) as [|[[t o] m] q] eqn:Eq; [done|]. clear Hq.
  assert (Hin : (t, o, m) ∈ que (s_lm s) r) by (rewrite Eq; left).
  destruct (qk_entry _ _ (i_queue _ _ _ _ _ Hinv) _ _ _ _ Hin) as (j & u & tf & k & Hj & Hc).
  pose proof (i_holds _ _ _ _ _ Hinv) as Hok.
  destruct (i_threads _ _ _ _ _ Hinv _ _ Hj) as (H & HH & Hsafe). unfold tsafe in Hsafe. rewrite Hc in Hsafe.
  destruct Hsafe as (L & Ho & _ & Hbelow & _). destruct (Hbelow eq_refl) as [Hcont Hb].
  assert (Hblk : blocks (head_of (s_lm s) r) o m = false).
  { apply conflicting_false. intros o' m' Hm' Hne.
    destruct (conflicts_with m m') eqn:Ecf; [exfalso|done].
    destruct (hk_own _ _ Hok _ _ _ Hm') as ([|i] & L' & (H' & HH' & Ho')).
    { destruct (i_fsync _ _ _ _ _ Hinv) as [_ (Hf & H0 & HHf)].
      destruct (i_unlocked _ _ _ _ _ Hinv eq_refl) as [Ef Eb]. rewrite Ef, Eb in HHf. subst Hf.
      rewrite H0 in HH'. injection HH' as <-. by rewrite lookup_empty in Ho'. }
    assert (Hlt : (i < length (s_threads s))%nat).
    { apply lookup_lt_Some in HH'. rewrite (i_length _ _ _ _ _ Hinv) in HH'. lia. }
    destruct (lookup_lt_is_Some_2 _ _ Hlt) as [v Hv].
    destruct (i_threads _ _ _ _ _ Hinv _ _ Hv) as (H2 & HH2 & Hsafe2). rewrite HH' in HH2. injection HH2 as <-.
    assert (HL' : (r, m') ∈ L').
    { apply elem_of_proj. erewrite <- (hk_held _ _ Hok) by (exists H'; eauto). by apply elem_of_proj. }
    destruct (Hall _ _ Hv) as [Hd|[r' Hw]].
    - unfold done_, tsafe in *. destruct (t_ctl v) as [[]| |]; try done.
      destruct Hsafe2 as [_ He]. rewrite (He eq_refl _ _ Ho') in HL'. elem_nil.
    - destruct (Hmax _ _ _ Hv Hw). unfold waits_for, tsafe in *.
      destruct (t_ctl v) as [|o1 r1 m1 t1 cv1 tf1 k1|]; try done. injection Hw as ->.
      destruct Hsafe2 as (L1 & _ & _ & Hb1 & _). destruct (Hb1 eq_refl) as [_ Hb2].
      by eapply (Hb2 o' L'). }
  assert (Hg : grantable (head_of (s_lm s) r) t = true).
  { unfold grantable. change (queue (head_of (s_lm s) r)) with (que (s_lm s) r). rewrite Eq. cbn.
    rewrite Hblk. cbn. by rewrite bool_decide_true. }
  eapply tstep_productive; [exact Hj| |].
  - unfold tstep. rewrite Hc. unfold acquire_pass, ready. by rewrite Hg.
  - rewrite Hc. constructor.
Qed.

Lemma progress :
  (∃ i t, s_threads s !! i = Some t ∧ done_ t = false) → productive s.
Proof.
  intros (i0 & t0 & Hi0 & Hd0).
  destruct (decide (Exists (λ t, waits_for t = None ∧ done_ t = false) (s_threads s))) as [Hex|Hno].
  { apply Exists_exists in Hex as (t & (i & Hi)%list_elem_of_lookup & Hw & Hd). by eapply unblocked_productive. }
  assert (Hall : ∀ i t, s_threads s !! i = Some t → done_ t = true ∨ is_Some (waits_for t)).
  { intros i t Hi. destruct (done_ t) eqn:Ed; [by left|right].
    destruct (waits_for t) as [r|] eqn:Ew; [eauto|]. destruct Hno. apply Exists_exists.
    exists t. split; [by eapply list_elem_of_lookup_2|done]. }
  destruct (maximal_exists res_lt (omap waits_for (s_threads s))) as (r & Hr & Hmax).
  - apply res_lt_irrefl.
  - apply res_lt_trans.
  - destruct (Hall _ _ Hi0) as [|[r Hr]]; [congruence|].
    assert (Hin : r ∈ omap waits_for (s_threads s)).
    { apply list_elem_of_omap. exists t0. split; [by eapply list_elem_of_lookup_2|done]. }
    intros E. rewrite E in Hin. elem_nil.
  - apply list_elem_of_omap in Hr as (t & (i & Hi)%list_elem_of_lookup & Hw).
    apply (front_ready r); [|..|done].
    + pose proof Hw as Hw0. unfold waits_for in Hw. destruct (t_ctl t) as [|o r1 m tk cv tf k|] eqn:Hc; try done.
      injection Hw as ->. destruct (i_threads _ _ _ _ _ Hinv _ _ Hi) as (H & HH & Hsafe).
      unfold tsafe in Hsafe. rewrite Hc in Hsafe. destruct Hsafe as (L & Ho & Hcv & Hb & _).
      destruct (Hb eq_refl) as [Hcont Hbelow].
      destruct (qk_wait _ _ (i_queue _ _ _ _ _ Hinv) _ _ _ _ _ _ _ _ _ Hi Hc) as [_ Hq].
      assert (cv = false) as ->.
      { apply not_true_iff_false. intros Ecv. destruct (proj1 Hcv Ecv) as [m' Hm'].
        destruct (res_lt_irrefl r). by eapply (Hbelow o L). }
      specialize (Hq eq_refl). intros E. rewrite E in Hq. elem_nil.
    + intros i' t' r' Hi' Hw'. apply Hmax. apply list_elem_of_omap. exists t'.
      split; [by eapply list_elem_of_lookup_2|done].
Qed.

(** When every thread is done nothing is held and nobody waits. *)
Lemma all_done_free :
  (∀ i t, s_threads s !! i = Some t → done_ t = true) → ∀ r, hol (s_lm s) r = [] ∧ que (s_lm s) r = [].
Proof.
  intros Hd r. pose proof (i_holds _ _ _ _ _ Hinv) as Hok. split.
  - destruct (hol (s_lm s) r) as [|[o m] l] eqn:E; [done|]. exfalso.
    assert (Hin : (o, m) ∈ hol (s_lm s) r) by (rewrite E; left).
    destruct (hk_own _ _ Hok _ _ _ Hin) as ([|i] & L & (H & HH & Ho)).
    { destruct (i_fsync _ _ _ _ _ Hinv) as [_ (Hf & H0 & HHf)].
      destruct (i_unlocked _ _ _ _ _ Hinv eq_refl) as [Ef Eb]. rewrite Ef, Eb in HHf. subst Hf.
      rewrite H0 in HH. injection HH as <-. by rewrite lookup_empty in Ho. }
    assert (Hlt : (i < length (s_threads s))%nat).
    { apply lookup_lt_Some in HH. rewrite (i_length _ _ _ _ _ Hinv) in HH. lia. }
    destruct (lookup_lt_is_Some_2 _ _ Hlt) as [v Hv]. specialize (Hd _ _ Hv).
    destruct (i_threads _ _ _ _ _ Hinv _ _ Hv) as (H2 & HH2 & Hsafe2). rewrite HH in HH2. injection HH2 as <-.
    assert (HL : (r, m) ∈ L).
    { apply elem_of_proj. erewrite <- (hk_held _ _ Hok) by (exists H; eauto). by apply elem_of_proj. }
    unfold done_, tsafe in *. destruct (t_ctl v) as [[]| |]; try done.
    destruct Hsafe2 as [_ He]. rewrite (He eq_refl _ _ Ho) in HL. elem_nil.
  - destruct (que (s_lm s) r) as [|[[t o] m] q] eqn:E; [done|]. exfalso.
    assert (Hin : (t, o, m) ∈ que (s_lm s) r) by (rewrite E; left).
    destruct (qk_entry _ _ (i_queue _ _ _ _ _ Hinv) _ _ _ _ Hin) as (j & u & tf & k & Hj & Hc).
    specialize (Hd _ _ Hj). unfold done_ in Hd. by rewrite Hc in Hd.
Qed.
End progress.

(** Every thread done, nothing held, nobody waiting. *)
Definition all_served (s : sys) : Prop :=
  (∀ i t, s_threads s !! i = Some t → done_ t = true) ∧ ∀ r, hol (s_lm s) r = [] ∧ que (s_lm s) r = [].

Lemma forward_not_vain i s s' t t' :
  s_threads s !! i = Some t → sys_step i quiet s = Some s' → s_threads s' = <[i := t']> (s_threads s) →
  forward (t_ctl t') (t_ctl t) → vain i quiet s = false.
Proof.
  intros Hi Hstep Hts Hf. apply not_true_is_false. intros Hv.
  assert (Hi' : s_threads s' !! i = Some t').
  { rewrite Hts. apply list_lookup_insert_eq. by eapply lookup_lt_Some. }
  rewrite (vain_stays _ _ _ _ _ _ Hv Hstep Hi Hi') in Hf.
  induction (forward_wf (t_ctl t)) as [c _ IH] in Hf. by eapply IH.
Qed.

(** From any state a schedule without a spent budget and without a vain pass
    serves everything, unless the work itself takes the counters to their end. *)
Lemma completes n s Hs ins :
  inv true n s Hs ins → 0 ≤ n ≤ 2 ^ 64 - 2 →
  ∃ sched s', Forall (λ e : nat * event, e.2 = quiet) sched ∧ run_busy sched s = Some s' ∧
    (all_served s' ∨ n + Z.of_nat (length sched) = 2 ^ 64 - 2).
Proof.
  remember (t_ctl <$> s_threads s) as cs eqn:Ecs. revert n s Hs ins Ecs.
  induction (some_forward_wf cs) as [cs _ IH]. intros n s Hs ins -> Hinv Hn.
  destruct (decide (n = 2 ^ 64 - 2)) as [Hend|Hlt].
  { exists [], s. split_and!; [done|done|]. right. cbn. lia. }
  destruct (decide (Forall (λ t, done_ t = true) (s_threads s))) as [Hd|Hnd].
  { assert (Hd' : ∀ i t, s_threads s !! i = Some t → done_ t = true).
    { intros i t Hi. rewrite Forall_forall in Hd. apply Hd. by eapply list_elem_of_lookup_2. }
    exists [], s. split_and!; [done|done|]. left. split; [done|]. by eapply all_done_free. }
  destruct (progress n s Hs ins Hinv) as (i & t & s1 & t' & Hi & Hstep & Hts & Hf).
  { apply not_Forall_Exists in Hnd; [|apply _]. apply Exists_exists in Hnd as (t & (i & Hi)%list_elem_of_lookup & Hd).
    exists i, t. split; [done|]. by apply not_true_is_false. }
  destruct (mongo_step_inv _ _ _ _ _ _ _ _ Hinv ltac:(lia) Hstep) as (Hs1 & ins1 & Hinv1).
  destruct (IH (t_ctl <$> s_threads s1)) with (n := n + 1) (s := s1) (Hs := Hs1) (ins := ins1)
    as (sched & s' & Hq & Hrun & Hend); [|done|done|lia|].
  { exists i, (t_ctl t), (t_ctl t'). rewrite list_lookup_fmap, Hi, Hts, list_fmap_insert. done. }
  exists ((i, quiet) :: sched), s'. split_and!; [by constructor| |].
  { cbn [run_busy]. erewrite forward_not_vain by done. by rewrite Hstep. }
  destruct Hend as [|Hend]; [by left|right]. cbn [length]. lia.
Qed.
