(* ===== verification/MongoProps.v ===== *)
(** * What the MongoDB lock manager guarantees *)
From stdpp Require Import strings.
From S2P Require Import Prelude RustM Lex Bson Docs MongoLocks MongoRounds MongoProg MongoSystem MongoHeads.
From S2P Require Import MongoLogic MongoInv MongoSpecs MongoOrder MongoLive.
Local Open Scope Z_scope.

(** A state reached by threads serving [cs]; a run of 2^64 - 2 steps could wrap
    the owner counter. *)
Definition reached (cs : list (list command)) (sched : list (nat * event)) (s : sys) : Prop :=
  Z.of_nat (length sched) < 2 ^ 64 - 2 ∧ run sched (start cs) = Some s.

Lemma reached_inv strict cs sched s :
  (strict = true → Forall (Forall command_ok) cs) → reached cs sched s →
  ∃ Hs ins, inv strict (Z.of_nat (length sched)) s Hs ins.
Proof.
  intros Hok [Hlen Hrun]. eapply (run_inv strict 0); [|lia|lia|done]. apply start_inv.
  intros c Hc. apply wp_serve; [apply idle_start|]. intros Hs. specialize (Hok Hs).
  rewrite Forall_forall in Hok. auto.
Qed.

(** The lock [(r, m)] a working thread relies on is held by an owner of its. *)
Lemma working_holds strict n s Hs ins i t c k r m :
  inv strict n s Hs ins → s_threads s !! i = Some t → t_ctl t = At (Work c k) → (r, m) ∈ c →
  ∃ o L, owns Hs (S i) o L ∧ (o, m) ∈ hol (s_lm s) r.
Proof.
  intros Hinv Hi Hc Hin. destruct (i_threads _ _ _ _ _ Hinv _ _ Hi) as (H & HH & Hsafe).
  unfold tsafe in Hsafe. rewrite Hc in Hsafe. destruct Hsafe as [Hcov _].
  destruct (Hcov _ _ Hin) as (o & L & Ho & HL). exists o, L. split; [by exists H|].
  apply elem_of_proj. erewrite (hk_held _ _ (i_holds _ _ _ _ _ Hinv)) by (exists H; eauto). by apply elem_of_proj.
Qed.

Lemma working_compatible strict n s Hs ins i j t u c d kt ku r m m' :
  inv strict n s Hs ins → i ≠ j →
  s_threads s !! i = Some t → t_ctl t = At (Work c kt) → (r, m) ∈ c →
  s_threads s !! j = Some u → t_ctl u = At (Work d ku) → (r, m') ∈ d →
  conflicts_with m m' = false.
Proof.
  intros Hinv Hij Hi Hc Hin Hj Hd Hjn. pose proof (i_holds _ _ _ _ _ Hinv) as Hok.
  destruct (working_holds _ _ _ _ _ _ _ _ _ _ _ Hinv Hi Hc Hin) as (o & L & Ho & Hm).
  destruct (working_holds _ _ _ _ _ _ _ _ _ _ _ Hinv Hj Hd Hjn) as (o' & L' & Ho' & Hm').
  eapply (hk_compat _ _ Hok); [done|done|]. intros <-.
  apply Hij. enough (S i = S j) by congruence. by eapply (hk_disj _ _ Hok).
Qed.

(** In a queue sorted by ticket an earlier ticket stands before. *)
Lemma sorted_before (q q1 q2 : list (Z * Owner * Mode)) e e' :
  StronglySorted Z.lt ((λ e : Z * Owner * Mode, e.1.1) <$> q) → q = q1 ++ e :: q2 →
  e' ∈ q → e'.1.1 < e.1.1 → e' ∈ q1.
Proof.
  intros Hs -> [Hin|[->|Hin]%elem_of_cons]%elem_of_app Hlt; [done|lia|exfalso].
  rewrite fmap_app, fmap_cons in Hs. apply StronglySorted_app in Hs as (_ & _ & Hs).
  inversion Hs as [|? ? _ Hf]; subst. rewrite Forall_forall in Hf.
  specialize (Hf e'.1.1 (list_elem_of_fmap_2 _ _ _ Hin)). lia.
Qed.

(** C5. Whatever commands the connections serve -- statements, retryable writes,
    transactions, [fsync] -- and however their threads interleave, two threads
    never work at once under locks of one resource in conflicting modes. *)
Theorem running_statements_compatible cs sched s i j t u c d kt ku r m m' :
  reached cs sched s → i ≠ j →
  s_threads s !! i = Some t → t_ctl t = At (Work c kt) → (r, m) ∈ c →
  s_threads s !! j = Some u → t_ctl u = At (Work d ku) → (r, m') ∈ d →
  conflicts_with m m' = false.
Proof.
  intros Hr Hij. destruct (reached_inv false cs sched s) as (Hs & ins & Hinv); [done|done|].
  by eapply working_compatible.
Qed.

(** C30. The queue of a resource is fair.  A queued request is granted only when every
    request that was queued before it and still waits could be granted too, beside it;
    and a request is granted as it comes only when the queue is empty or its owner
    holds the resource already.  A waiter whose owner holds the resource already (a
    conversion) stands outside the queue: nothing is said of it, and new requests are
    granted past it. *)
Theorem no_overtaking cs sched s i j ev s' t t' u o r m k o' m' tk' tf' k' w tf :
  reached cs sched s → sys_step i ev s = Some s' →
  s_threads s !! i = Some t → s_threads s' !! i = Some t' → t_ctl t' = Counting r m w tf true k →
  s_threads s !! j = Some u → t_ctl u = Waiting o' r m' tk' false tf' k' →
  (t_ctl t = At (Acquire o r m k) → holds (head_of (s_lm s) r) o = true) ∧
  (∀ tk tf0, t_ctl t = Waiting o r m tk false tf0 k → tk' < tk →
     grantable (head_of (s_lm s) r) tk' = true ∧ (o' ≠ o → conflicts_with m m' = false)).
Proof.
  intros Hr Hstep Hi Hi' Hc' Hj Hu.
  destruct (reached_inv false cs sched s) as (Hs & ins & Hinv); [done|done|].
  pose proof (i_queue _ _ _ _ _ Hinv) as Hq.
  destruct (qk_wait _ _ Hq _ _ _ _ _ _ _ _ _ Hj Hu) as [_ Hin]. specialize (Hin eq_refl).
  unfold sys_step in Hstep. rewrite Hi in Hstep. cbn in Hstep.
  apply bind_Some in Hstep as ([t1 lm1] & Hts & [= <-]). cbn in Hi'.
  rewrite list_lookup_insert_eq in Hi' by (by eapply lookup_lt_Some). injection Hi' as ->. split.
  - intros Hc. unfold tstep in Hts. rewrite Hc in Hts.
    destruct (acquire_start o r m (s_lm s)) as [[tf1|tk1 cv1 tf1] lm2] eqn:E; injection Hts as <- <-; [|done].
    destruct (acquire_start_granted _ _ _ _ _ _ E) as (_ & [Hnil|] & _); [|done].
    rewrite Hnil in Hin. elem_nil.
  - intros tk tf0 Hc Hlt. unfold tstep in Hts. rewrite Hc in Hts.
    destruct (acquire_pass o r m tk false (expired ev) (s_lm s)) as [[[]|] lm2] eqn:E; injection Hts as <- <-.
    + destruct (acquire_pass_granted _ _ _ _ _ _ _ _ E) as (Hg & _).
      destruct (grantable_loop_spec _ _ _ _ Hg) as (q1 & o1 & m1 & q2 & Eq & _ & Hcf & Hbefore).
      assert (Hown : o1 = o ∧ m1 = m).
      { assert (Hin1 : (tk, o1, m1) ∈ que (s_lm s) r) by (unfold que; rewrite Eq; apply elem_of_mid).
        destruct (qk_entry _ _ Hq _ _ _ _ Hin1) as (j1 & u1 & tf1 & k1 & Hj1 & Hc1).
        assert (j1 = i) as ->.
        { eapply (qk_uniq _ _ Hq); [done|done| |]; unfold ticket_of; [by rewrite Hc1|by rewrite Hc]. }
        rewrite Hi in Hj1. injection Hj1 as <-. rewrite Hc in Hc1. by injection Hc1. }
      destruct Hown as [-> ->].
      assert (Hpre : (tk', o', m') ∈ q1) by (eapply sorted_before; [apply (qk_sorted _ _ Hq r)|exact Eq|exact Hin|done]).
      destruct (Hbefore _ _ _ Hpre) as (_ & _ & Hg'). split; [done|]. intros Hne.
      rewrite conflicting_false in Hcf. apply (Hcf o' m'); [|done]. cbn.
      apply list_elem_of_fmap. by exists (tk', o', m').
    + done.
    + rewrite Hc in Hc'. done.
Qed.

(** ** Deadlock freedom *)

(** The commands covered: any statement but [renameCollection], and retryable
    writes outside [config], whose handlers take no [fsync] lock and build an
    index only under a round that does not lock the collection ([act_ok]). *)
Inductive served (doc_eq : Doc → Doc → bool) : command → Prop :=
  | served_statement doc db facts acts j sl :
      listed facts → first_key doc ≠ Some (lit "renameCollection") →
      Forall (act_ok false (default [] (last (rounds_of doc_eq doc db facts)))) acts →
      served doc_eq (mkCommand (RStatement (rounds_of doc_eq doc db facts) acts) j sl)
  | served_retryable doc db facts name acts wrote j sl :
      listed facts → first_key doc = Some name → named name RETRYABLE = true → in_config db = false →
      Forall (act_ok true (default [] (last (rounds_of doc_eq doc db facts)))) acts →
      served doc_eq (mkCommand (RRetryable (Some (rounds_of doc_eq doc db facts, acts)) wrote) j sl).

Lemma retryable_not_rename name :
  named name RETRYABLE = true → name ≠ lit "renameCollection".
Proof. intros Hn ->. by vm_compute in Hn. Qed.

Lemma served_ok doc_eq c : served doc_eq c → command_ok c.
Proof.
  destruct 1 as [doc db facts acts j sl Hl Hne Ha|doc db facts name acts wrote j sl Hl En Hn Hdb Ha];
    unfold command_ok; cbn [c_request request_ok].
  - split; [by apply ascends_rounds_of|done].
  - split; [|split; [done|]].
    + apply ascends_rounds_of; [done|]. rewrite En. intros [= E]. by eapply retryable_not_rename.
    + by eapply ascends_config, retryable_outside.
Qed.

(** C6. The commands of [served] never deadlock each other: from every state their
    threads can reach, whatever waits and spent budgets led there, some interleaving
    serves every command to its end without any budget running out, every step of it
    moving its thread forward, and leaves nothing held and nobody waiting --
    unless that work itself takes so many steps that the counters are used up.
    Served are the statements other than [renameCollection] and the retryable writes
    outside [config], whose handlers take no [fsync] lock and build an index only
    where their round does not lock the collection, over a store that lists a
    database's collections in the order of their names; transactions are not. What
    is left out can deadlock (see [crossed_waits_stuck]). *)
Theorem statements_complete doc_eq cs sched s :
  Forall (Forall (served doc_eq)) cs → reached cs sched s →
  ∃ sched' s', Forall (λ e : nat * event, e.2 = quiet) sched' ∧ run_busy sched' s = Some s' ∧
    (all_served s' ∨ Z.of_nat (length sched) + Z.of_nat (length sched') = 2 ^ 64 - 2).
Proof.
  intros Hcs Hr. destruct (reached_inv true cs sched s) as (Hs & ins & Hinv); [|done|].
  - intros _. eapply Forall_impl; [exact Hcs|]. intros c Hc. eapply Forall_impl; [exact Hc|]. apply served_ok.
  - eapply completes; [done|]. destruct Hr. lia.
Qed.

(** ** Locks on a database cover its collections *)

Lemma top_down_parent pre chain ns m :
  top_down pre chain → (Collection ns, m) ∈ chain →
  ∃ db dm, (Database db, dm) ∈ pre ++ chain ∧ before_dot ns = before_dot db ∧
    (m = Ix ∨ m = X → dm = Ix ∨ dm = X).
Proof.
  revert pre. induction chain as [|[r m1] chain IH]; intros pre; [by intros _ ?%not_elem_of_nil|].
  intros [Hp Ht] [[= <- <-]|Hin]%elem_of_cons.
  - destruct Hp as (gm & db & dm & _ & Hdb & E & Hm). exists db, dm. split_and!; [|done|].
    + by apply elem_of_app_l.
    + intros H. by apply Hm.
  - destruct (IH _ Ht Hin) as (db & dm & Hdb & ?). exists db, dm. split; [|done].
    by rewrite <- app_assoc in Hdb.
Qed.

(** Every chain a program works under satisfies [T]. *)
Fixpoint works {A} (T : Chain → Prop) (p : prog A) : Prop :=
  match p with
  | Ret _ => True
  | NewOwner _ k => ∀ o, works T (k o)
  | Acquire _ _ _ k => ∀ b, works T (k b)
  | Release _ k | ReleaseHolds _ _ k | Put _ k | FsyncLeave _ k => works T k
  | Get k => ∀ l, works T (k l)
  | FsyncEnter k => ∀ v, works T (k v)
  | Work c k => T c ∧ works T k
  end.

Lemma works_bind {A B} T (p : prog A) (f : A → prog B) :
  works T p → (∀ a, works T (f a)) → works T (p ≫= f).
Proof.
  intros Hp Hf. induction p as [a|t k IH|o r m k IH|o k IH|o c k IH|k IH|f' k IH|k IH|v k IH|c k IH];
    cbn [mbind prog_bind works] in *; auto. destruct Hp. auto.
Qed.

Create HintDb works.
Ltac works := repeat first [ progress intros | progress cbv beta | solve [eauto with works] | done | apply works_bind
                           | progress cbn [works mret prog_ret] | case_match | split ].

Section works.
Context (T : Chain → Prop).

Lemma acquire_chain_works o c : works T (acquire_chain o c).
Proof. induction c as [|[r m] c IH]; cbn [acquire_chain]; works. Qed.
Hint Resolve acquire_chain_works : works.
Lemma pass_rounds_works l : works T (pass_rounds l).
Proof. induction l as [|c l IH]; cbn [pass_rounds]; unfold pass_round, new_owner, release_; works. Qed.
Hint Resolve pass_rounds_works : works.
Lemma guard_statement_works l : works T (guard_statement l).
Proof. unfold guard_statement, new_owner, get, put. works. Qed.
Lemma guard_drop_works g : works T (guard_drop g).
Proof. unfold guard_drop, get, put, release_. works. Qed.
Lemma global_reads_works n : works T (global_reads n).
Proof.
  unfold global_reads, get. assert (works T (global_reads_loop n)); [|works].
  induction n as [|n IH]; cbn [global_reads_loop]; unfold new_owner, acquire, release_; works.
Qed.
Lemma write_rounds_works db coll n : works T (write_rounds db coll n).
Proof. unfold write_rounds, get, new_owner. works. Qed.
Lemma exclusive_loop_works o taken c : works T (exclusive_loop o taken c).
Proof. revert taken. induction c as [|[r m] c IH]; intros taken; cbn [exclusive_loop]; unfold acquire, release_holds_; works. Qed.
Hint Resolve exclusive_loop_works : works.
Lemma exclusive_round_works db coll : works T (exclusive_round db coll).
Proof. unfold exclusive_round, get. works. Qed.
Lemma txn_links_works o c : works T (txn_links o c).
Proof. induction c as [|[r m] c IH]; cbn [txn_links]; unfold acquire; works. Qed.
Hint Resolve txn_links_works : works.
Lemma txn_statement_works o doc db : works T (txn_statement o doc db).
Proof. unfold txn_statement, release_. works. Qed.
Lemma held_write_round_works db coll : works T (held_write_round db coll).
Proof.
  unfold held_write_round, get. assert (∀ o c, works T (write_round_loop o c)); [|works].
  intros o. induction c as [|[r m] c IH]; cbn [write_round_loop]; unfold acquire; works.
Qed.
Lemma held_drop_works p : works T (held_drop p).
Proof.
  unfold held_drop, get, put. assert (∀ os, works T (release_all os)); [|works].
  induction os as [|o os IH]; cbn [release_all]; unfold release_; works.
Qed.
Lemma take_and_release_works r m : works T (take_and_release r m).
Proof. unfold take_and_release, new_owner, acquire, release_. works. Qed.
Lemma journal_wait_works : works T journal_wait.
Proof. unfold journal_wait, new_owner. works. Qed.
Lemma fsync_lock_works : works T fsync_lock.
Proof. unfold fsync_lock, new_owner, acquire. works. Qed.
Lemma fsync_unlock_works : works T fsync_unlock.
Proof. unfold fsync_unlock, release_. works. Qed.
Hint Resolve guard_statement_works guard_drop_works global_reads_works write_rounds_works exclusive_round_works
  txn_statement_works held_write_round_works held_drop_works take_and_release_works journal_wait_works
  fsync_lock_works fsync_unlock_works : works.

Context (Tx : ∀ db coll, T (x_chain db coll)) (Tmerge : ∀ db coll, T (merge_round db coll)) (Tnil : T [])
  (Tjournal : T journal_chain).

Lemma run_acts_works c acts : T c → works T (run_acts c acts).
Proof.
  intros Hc. assert (He : ∀ db coll, works T (exclusive_section db coll)).
  { intros. unfold exclusive_section, work, extra_drop, release_holds_. works. }
  induction acts as [|a acts IH]; cbn [run_acts]; [done|]. apply works_bind; [|works].
  destruct a; cbn [run_act]; unfold work, log_lock; works.
Qed.
Hint Resolve run_acts_works : works.
Lemma handler_body_works c acts : T c → works T (handler_body c acts).
Proof. intros Hc. unfold handler_body, enter, leave, work, get, put. works. Qed.
Hint Resolve handler_body_works : works.
Lemma run_handler_works rounds acts : T (default [] (last rounds)) → works T (run_handler rounds acts).
Proof. intros Hc. unfold run_handler. works. Qed.
Hint Resolve run_handler_works : works.
Lemma retryable_works run wrote :
  (∀ rounds acts, run = Some (rounds, acts) → T (default [] (last rounds))) → works T (retryable run wrote).
Proof.
  intros Hc. unfold retryable, retryable_write_transition_lock, hold_to_end, get, put.
  apply works_bind; [works|]. intros _. apply works_bind; [works|]. intros prev.
  apply works_bind; [|works]. destruct run as [[rounds acts]|]; [|done]. eauto with works.
Qed.
Lemma transaction_works stmts :
  (∀ pre, Forall (λ s, T pre → T (pre ++ txn_chain s.1.1 s.1.2)) stmts) → works T (transaction stmts).
Proof.
  intros Hs. unfold transaction, new_transaction_owner. apply works_bind; [done|]. intros o.
  generalize Tnil. generalize (@nil (Resource * Mode)) as held.
  induction stmts as [|[[doc db] acts] stmts IH]; intros held Hh; cbn [txn_statements]; [done|].
  assert (Hn : T (held ++ txn_chain doc db)) by (specialize (Hs held); inversion Hs; auto).
  apply works_bind; [works|]. intros []; [|done]. apply works_bind; [by apply handler_body_works|].
  intros _. apply IH; [|done]. intros pre. specialize (Hs pre). by inversion Hs.
Qed.
Lemma run_command_works c : works T (run_request (c_request c)) → works T (run_command c).
Proof. intros Hr. unfold run_command, put, get, work, journal_drop, release_, log_lock. works. Qed.
Lemma serve_works cs : Forall (λ c, works T (run_request (c_request c))) cs → works T (serve cs).
Proof.
  induction 1 as [|c cs Hc _ IH]; cbn [serve]; [done|]. apply works_bind; [by apply run_command_works|done].
Qed.
End works.

(** ... and so does every chain a thread works under later. *)
Definition tworks (T : Chain → Prop) (t : thread) : Prop :=
  match t_ctl t with
  | At p => works T p
  | Waiting _ _ _ _ _ _ k | Counting _ _ _ _ _ k => ∀ b, works T (k b)
  end.

Lemma tstep_works T ev t lm t' lm' : tstep ev t lm = Some (t', lm') → tworks T t → tworks T t'.
Proof.
  unfold tstep, tworks. intros E Ht. destruct (t_ctl t) as [p|o r m tk cv tf k|r m w tf g k] eqn:Ec.
  - destruct p as [a|x k|o r m k|o k|o c k|k|f k|k|v k|c k]; cbn [works] in Ht.
    + done.
    + destruct ((if x then _ else _) lm) as [o lm1]. injection E as <- <-. cbn. auto.
    + destruct (acquire_start o r m lm) as [[tf|tk cv tf] lm1]; injection E as <- <-; cbn; auto.
    + by injection E as <- <-.
    + by injection E as <- <-.
    + injection E as <- <-. cbn. auto.
    + by injection E as <- <-.
    + destruct (fsync_busy lm); [done|]. injection E as <- <-. cbn. auto.
    + by injection E as <- <-.
    + injection E as <- <-. by destruct Ht.
  - destruct (acquire_pass o r m tk cv (expired ev) lm) as [[[]|] lm1]; injection E as <- <-; cbn; auto. rewrite Ec. auto.
  - injection E as <- <-. cbn. auto.
Qed.

Lemma run_works T sched s s' : Forall (tworks T) (s_threads s) → run sched s = Some s' → Forall (tworks T) (s_threads s').
Proof.
  revert s. induction sched as [|[i ev] sched IH]; intros s Hs; cbn [run]; [by intros [= <-]|].
  intros (s1 & Hstep & Hr)%bind_Some. eapply IH; [|exact Hr]. unfold sys_step in Hstep.
  apply bind_Some in Hstep as (t & Hi & Hstep). apply bind_Some in Hstep as ([t1 lm1] & Hts & [= <-]). cbn.
  apply Forall_insert; [done|]. eapply tstep_works; [exact Hts|]. by eapply (Forall_lookup_1 _ _ i).
Qed.

(** The commands covered: statements, retryable writes and transactions, none a
    [renameCollection] to another database. *)
Inductive homed (doc_eq : Doc → Doc → bool) : command → Prop :=
  | homed_statement doc db facts acts j sl : one_database doc →
      homed doc_eq (mkCommand (RStatement (rounds_of doc_eq doc db facts) acts) j sl)
  | homed_retryable doc db facts acts wrote j sl : one_database doc →
      homed doc_eq (mkCommand (RRetryable (Some (rounds_of doc_eq doc db facts, acts)) wrote) j sl)
  | homed_replayed wrote j sl : homed doc_eq (mkCommand (RRetryable None wrote) j sl)
  | homed_transaction stmts j sl : Forall (λ s : Doc * bytes * list act, one_database s.1.1) stmts →
      homed doc_eq (mkCommand (RTransaction stmts) j sl).

Lemma top_down_x_chain db coll : top_down [] (x_chain db coll).
Proof. apply top_down_x_round. Qed.
Lemma top_down_merge_round db coll : top_down [] (merge_round db coll).
Proof. apply (top_down_write_round db (Some coll)). Qed.

Lemma homed_works doc_eq c : homed doc_eq c → works (top_down []) (run_request (c_request c)).
Proof.
  pose proof top_down_x_chain as Hx. pose proof top_down_merge_round as Hm.
  destruct 1 as [doc db facts acts j sl Hone|doc db facts acts wrote j sl Hone|wrote j sl|stmts j sl Hs]; cbn [c_request run_request].
  - by apply run_handler_works, top_down_rounds_of.
  - apply retryable_works; [done|done|]. intros ? ? [= <- <-]. by apply top_down_rounds_of.
  - by apply retryable_works.
  - apply transaction_works; [done..|]. intros pre. eapply Forall_impl; [exact Hs|]. intros [[doc db] acts] Hone Hpre.
    apply top_down_app. split; [done|]. rewrite <- (app_nil_r ([] ++ pre)). by apply top_down_more, top_down_txn_chain.
Qed.

(** C31. While a thread works under a lock on a database, no other thread works
    under a conflicting lock on one of its collections: none at all when the
    database is locked in X ([dropDatabase]), and no writer when it is locked in
    S ([dbHash]). The threads serve any statements, retryable writes (with any
    handler: [$merge], index builds, [fsync]) and transactions but a
    [renameCollection] to another database, and the names of the databases they
    lock have no dot. *)
Theorem database_lock_covers doc_eq cs sched s i j t u c d kt ku db dm ns m :
  Forall (Forall (homed doc_eq)) cs → reached cs sched s → i ≠ j →
  s_threads s !! i = Some t → t_ctl t = At (Work c kt) → (Database db, dm) ∈ c →
  s_threads s !! j = Some u → t_ctl u = At (Work d ku) → (Collection ns, m) ∈ d →
  before_dot ns = db → (∀ d' dm', (Database d', dm') ∈ d → before_dot d' = d') →
  dm ≠ X ∧ (dm = S_ → m ≠ Ix ∧ m ≠ X).
Proof.
  intros Hcs Hr Hij Hi Hc Hin Hj Hd Hcoll Hns Hdots.
  destruct (reached_inv false cs sched s) as (Hs & ins & Hinv); [done|done|].
  assert (Hw : Forall (tworks (top_down [])) (s_threads s)).
  { eapply run_works; [|apply Hr]. cbn. apply Forall_fmap. eapply Forall_impl; [exact Hcs|]. intros l Hl.
    apply serve_works; [done|done|]. eapply Forall_impl; [exact Hl|]. apply homed_works. }
  assert (Htd : top_down [] d).
  { pose proof (Forall_lookup_1 _ _ _ _ Hw Hj) as Hu. unfold tworks in Hu. rewrite Hd in Hu. apply Hu. }
  destruct (top_down_parent [] _ ns m Htd Hcoll) as (d' & dm' & Hdb & E & Hm). cbn [app] in Hdb.
  assert (d' = db) as -> by (rewrite <- (Hdots _ _ Hdb); congruence).
  pose proof (working_compatible _ _ _ _ _ _ _ _ _ _ _ _ _ _ _ _ Hinv Hij Hi Hc Hin Hj Hd Hdb) as Hcf.
  split; [intros ->; by destruct dm'|]. intros ->.
  assert (dm' ≠ Ix ∧ dm' ≠ X) by (by destruct dm'). split; intros ->; destruct Hm; auto; tauto.
Qed.

(** ** Crossed waits *)

(** A step of thread [k] takes nothing from an owner of another thread. *)
Lemma step_keeps_hold strict n s Hs ins k t ev t' lm' i o h r :
  inv strict n s Hs ins → s_threads s !! k = Some t → tstep ev t (s_lm s) = Some (t', lm') →
  k ≠ i → (∃ L, owns Hs (S i) o L) → (o, h) ∈ hol (s_lm s) r → (o, h) ∈ hol lm' r.
Proof.
  intros Hinv Hk Hts Hne [L Ho] Hin.
  destruct (i_threads _ _ _ _ _ Hinv _ _ Hk) as (H & HH & Hsafe).
  assert (Hnot : ∀ o1, is_Some (H !! o1) → o1 ≠ o).
  { intros o1 [L1 H1] ->. apply Hne. enough (S k = S i) by congruence.
    eapply (hk_disj _ _ (i_holds _ _ _ _ _ Hinv)); [exists H; eauto|exact Ho]. }
  assert (Happ : ∀ r1 o1 m1, (∀ r', hol lm' r' = if decide (r' = r1) then hol (s_lm s) r1 ++ [(o1, m1)] else hol (s_lm s) r') →
    (o, h) ∈ hol lm' r).
  { intros r1 o1 m1 E. rewrite E. destruct (decide (r = r1)) as [->|]; [by apply elem_of_app_l|done]. }
  unfold tsafe, tstep in *. destruct (t_ctl t) as [p|o1 r1 m1 tk cv tf k1|].
  - destruct p as [a|x k1|o1 r1 m1 k1|o1 k1|o1 c k1|k1|f k1|k1|v k1|c k1]; try (by injection Hts as <- <-); [done|..].
    + destruct x; by injection Hts as <- <-.
    + destruct (acquire_start o1 r1 m1 (s_lm s)) as [[tf|tk cv tf] lm1] eqn:E; injection Hts as <- <-.
      * apply acquire_start_granted in E as (_ & _ & E & _). by eapply Happ.
      * apply acquire_start_queued in E as (_ & _ & _ & E & _). by rewrite E.
    + injection Hts as <- <-. destruct Hsafe as [Hs1 _]. rewrite hol_release. apply list_elem_of_filter.
      split; [|done]. cbn. intros ->. by apply (Hnot o1).
    + injection Hts as <- <-. destruct Hsafe as (L1 & H1 & _). rewrite hol_release_holds, <- elem_of_proj.
      rewrite proj_undo_ne by (apply Hnot; eauto). by rewrite elem_of_proj.
    + destruct (fsync_busy (s_lm s)); [done|]. by injection Hts as <- <-.
  - destruct (acquire_pass o1 r1 m1 tk cv (expired ev) (s_lm s)) as [[[]|] lm1] eqn:E; injection Hts as <- <-.
    + apply acquire_pass_granted in E as (_ & E & _). by eapply Happ.
    + apply acquire_pass_expired in E as (_ & _ & E & _). by rewrite E.
    + apply acquire_pass_wait in E as (_ & _ & E & _). by rewrite E.
  - by injection Hts as <- <-.
Qed.

(** Thread [i] waits, for its owner [o], for [r'] in mode [m]; [o] holds [r] in
    mode [h]. *)
Definition waits_holding (s : sys) (i : nat) (t : thread) (o : Owner) (r' : Resource) (m : Mode) (r : Resource) (h : Mode) : Prop :=
  s_threads s !! i = Some t ∧ (∃ tk cv tf k, t_ctl t = Waiting o r' m tk cv tf k) ∧ (o, h) ∈ hol (s_lm s) r.

Lemma waiting_owns strict n s Hs ins i t o r' m r h :
  inv strict n s Hs ins → waits_holding s i t o r' m r h → ∃ L, owns Hs (S i) o L.
Proof.
  intros Hinv (Hi & (tk & cv & tf & k & Hc) & _). destruct (i_threads _ _ _ _ _ Hinv _ _ Hi) as (H & HH & Hsafe).
  unfold tsafe in Hsafe. rewrite Hc in Hsafe. destruct Hsafe as (L & HL & _). exists L, H. done.
Qed.

(** A pass over a lock another owner holds in a conflicting mode is in vain. *)
Lemma blocked_pass strict n s Hs ins i t ev o r' m r h o' h' s' :
  inv strict n s Hs ins → waits_holding s i t o r' m r h → (o', h') ∈ hol (s_lm s) r' → o' ≠ o →
  conflicts_with m h' = true → expired ev = false → sys_step i ev s = Some s' →
  s_threads s' = s_threads s ∧ ∀ q, hol (s_lm s') q = hol (s_lm s) q.
Proof.
  intros Hinv (Hi & (tk & cv & tf & k & Hc) & _) Hh' Hno Hcf Hev Hstep. unfold sys_step in Hstep. rewrite Hi in Hstep.
  cbn in Hstep. apply bind_Some in Hstep as ([t1 lm1] & Hts & [= <-]). unfold tstep in Hts. rewrite Hc in Hts.
  assert (Hb : blocks (head_of (s_lm s) r') o m = true) by (apply conflicting_true; eauto).
  destruct (acquire_pass o r' m tk cv (expired ev) (s_lm s)) as [[[]|] lm2] eqn:E; injection Hts as <- <-.
  - apply acquire_pass_granted in E as (Hr & _).
    by rewrite (ready_compatible _ _ _ _ _ _ _ _ _ _ _ (i_queue _ _ _ _ _ Hinv) Hi Hc Hr) in Hb.
  - apply acquire_pass_expired in E as (He & _). congruence.
  - apply acquire_pass_wait in E as (_ & _ & E & _). cbn. split; [by apply list_insert_id|done].
Qed.

(** Another thread's step leaves a waiting one and its holds alone. *)
Lemma other_step strict n s Hs ins k ev s' i t o r' m r h :
  inv strict n s Hs ins → sys_step k ev s = Some s' → k ≠ i →
  waits_holding s i t o r' m r h → waits_holding s' i t o r' m r h.
Proof.
  intros Hinv Hstep Hne Hw. pose proof (waiting_owns _ _ _ _ _ _ _ _ _ _ _ _ Hinv Hw) as Ho.
  destruct Hw as (Hi & Hc & Hin). unfold sys_step in Hstep. apply bind_Some in Hstep as (tk & Hk & Hstep).
  apply bind_Some in Hstep as ([t1 lm1] & Hts & [= <-]). split_and!; cbn.
  - by rewrite list_lookup_insert_ne.
  - done.
  - eapply step_keeps_hold; [exact Hinv|exact Hk|exact Hts|exact Hne|exact Ho|exact Hin].
Qed.

(** C32. Crossed waits last: when two threads each wait for a resource that an owner
    of the other holds in a conflicting mode, then whatever the other threads
    do, both still wait in the same place in every state reached from there
    without a spent budget or a kill of one of the two. *)
Theorem crossed_waits_stuck cs sched s sched' s' i j t u o o' r r' m m' h h' :
  reached cs sched s → reached cs (sched ++ sched') s' → run sched' s = Some s' → i ≠ j →
  waits_holding s i t o r' m r h → waits_holding s j u o' r m' r' h' →
  conflicts_with m h' = true → conflicts_with m' h = true →
  Forall (λ e : nat * event, e.1 = i ∨ e.1 = j → expired e.2 = false) sched' →
  waits_holding s' i t o r' m r h ∧ waits_holding s' j u o' r m' r' h'.
Proof.
  intros Hr [Hlen _] Hrun Hij Hi Hj Hc Hc' Hev. destruct (reached_inv false cs sched s) as (Hs & ins & Hinv); [done|done|].
  rewrite length_app, Nat2Z.inj_add in Hlen. clear Hr. revert Hlen Hinv. generalize (Nat2Z.is_nonneg (length sched)).
  generalize (Z.of_nat (length sched)) as n. revert s Hs ins Hi Hj Hrun.
  induction Hev as [|[k ev] sched' Hev _ IH]; intros s Hs ins Hi Hj Hrun n Hn Hlen Hinv; cbn [run] in Hrun.
  { by injection Hrun as <-. }
  apply bind_Some in Hrun as (s1 & Hstep & Hrun). cbn [length] in Hlen.
  destruct (mongo_step_inv _ _ _ _ _ _ _ _ Hinv ltac:(lia) Hstep) as (Hs1 & ins1 & Hinv1).
  assert (Hoo : o' ≠ o).
  { intros ->. destruct (waiting_owns _ _ _ _ _ _ _ _ _ _ _ _ Hinv Hi) as [L1 O1].
    destruct (waiting_owns _ _ _ _ _ _ _ _ _ _ _ _ Hinv Hj) as [L2 O2]. apply Hij.
    enough (S i = S j) by congruence. by eapply (hk_disj _ _ (i_holds _ _ _ _ _ Hinv)). }
  assert (Hsame : s_threads s1 = s_threads s ∧ (∀ q, hol (s_lm s1) q = hol (s_lm s) q) →
    waits_holding s1 i t o r' m r h ∧ waits_holding s1 j u o' r m' r' h').
  { intros [Et El]. unfold waits_holding in *. by rewrite Et, !El. }
  enough (waits_holding s1 i t o r' m r h ∧ waits_holding s1 j u o' r m' r' h') as [? ?].
  { eapply (IH s1 Hs1 ins1); [done|done|done| | |exact Hinv1]; lia. }
  cbn in Hev. destruct (decide (k = i)) as [->|Hki]; [|destruct (decide (k = j)) as [->|Hkj]].
  - apply Hsame. eapply (blocked_pass _ _ _ _ _ i t ev o r' m r h o' h'); eauto. apply Hj.
  - apply Hsame. eapply (blocked_pass _ _ _ _ _ j u ev o' r m' r' h' o h); eauto. apply Hi.
  - split; [eapply (other_step _ _ s); [exact Hinv|exact Hstep|done|exact Hi]|eapply (other_step _ _ s); [exact Hinv|exact Hstep|done|exact Hj]].
Qed.

(** ** Concrete runs *)

Definition w_facts : Facts := mkFacts (λ _, true) (λ _, true) (λ _, []) [lit "c"; lit "d"].
Definition w_eq : Doc → Doc → bool := λ _ _, false.
Definition w_doc (name coll : string) : Doc := [(lit name, String (lit coll))].
Definition w_rounds (doc : Doc) : list Chain := rounds_of w_eq doc (lit "a") w_facts.
Definition w_command (doc : Doc) (acts : list act) : command :=
  mkCommand (RStatement (w_rounds doc) acts) false false.
Definition w_steps (n i : nat) : list (nat * event) := replicate n (i, quiet).
Definition w_state (cs : list (list command)) (sched : list (nat * event)) : sys :=
  default (start cs) (run sched (start cs)).

(** Two inserts into one collection, both at work. *)
Definition w_inserts : list (list command) :=
  [[w_command (w_doc "insert" "c") []]; [w_command (w_doc "insert" "c") []]].
Definition w_inserts_sched := w_steps 14 0 ++ w_steps 14 1.

(** Discharge the hypotheses about a concrete run. *)
Ltac by_run :=
  lazymatch goal with
  | |- reached _ _ _ => split; [vm_compute; reflexivity|vm_compute; reflexivity]
  | |- _ => vm_compute; reflexivity
  end.

Lemma running_statements_compatible_witness :
  reached w_inserts w_inserts_sched (w_state w_inserts w_inserts_sched) ∧ conflicts_with Ix Ix = false.
Proof.
  split; [by_run|].
  eapply (running_statements_compatible w_inserts w_inserts_sched (w_state w_inserts w_inserts_sched) 0 1
            _ _ _ _ _ _ (Collection (lit "a.c")) Ix Ix);
    [by_run|done|by_run|by_run|do 3 right; left|by_run|by_run|do 3 right; left].
Defined.

(** A drop at work, two inserts waiting behind it; the drop ends, and the later
    insert passes first. *)
Definition w_drop : list (list command) :=
  [[w_command (w_doc "drop" "c") []]; [w_command (w_doc "insert" "c") []]; [w_command (w_doc "insert" "c") []]].
Definition w_drop_sched := w_steps 24 0 ++ w_steps 9 1 ++ w_steps 9 2 ++ w_steps 5 0.

Lemma no_overtaking_witness :
  grantable (head_of (s_lm (w_state w_drop w_drop_sched)) (Collection (lit "a.c"))) 1 = true.
Proof.
  edestruct (no_overtaking w_drop w_drop_sched (w_state w_drop w_drop_sched) 2 1 quiet
               (w_state w_drop (w_drop_sched ++ w_steps 1 2))) as [_ Hw]; [by_run..|].
  eapply Hw; [by_run|done].
Defined.

(** The drop and the inserts, from the state where the inserts wait. *)
Lemma w_drop_served : Forall (Forall (served w_eq)) w_drop.
Proof.
  assert (Hl : listed w_facts) by (unfold listed; repeat constructor).
  unfold w_drop. repeat constructor; try done; vm_compute; congruence.
Qed.

Lemma statements_complete_witness :
  ∃ sched' s', Forall (λ e : nat * event, e.2 = quiet) sched' ∧
    run_busy sched' (w_state w_drop (w_steps 24 0 ++ w_steps 9 1 ++ w_steps 9 2)) = Some s' ∧
    (all_served s' ∨ 42 + Z.of_nat (length sched') = 2 ^ 64 - 2).
Proof.
  apply (statements_complete w_eq w_drop (w_steps 24 0 ++ w_steps 9 1 ++ w_steps 9 2));
    [apply w_drop_served|by_run].
Defined.

(** [dbHash] at work beside [dbStats] of the same database. *)
Definition w_hash : list (list command) :=
  [[w_command (w_doc "dbHash" "x") []]; [w_command (w_doc "dbStats" "x") []]].
Definition w_hash_sched := w_steps 22 0 ++ w_steps 16 1.

Lemma w_hash_homed : Forall (Forall (homed w_eq)) w_hash.
Proof. unfold w_hash. repeat constructor; intros E; vm_compute in E; discriminate. Qed.

Lemma database_lock_covers_witness : S_ ≠ X ∧ (S_ = S_ → Is ≠ Ix ∧ Is ≠ X).
Proof.
  eapply (database_lock_covers w_eq w_hash w_hash_sched (w_state w_hash w_hash_sched) 0 1 _ _ _ _ _ _
            (lit "a") S_ (lit "a.c") Is);
    [apply w_hash_homed|by_run|done|by_run|by_run|do 2 right; left|by_run|by_run|do 3 right; left|by_run|].
  intros d dm'. rewrite !elem_of_cons.
  intros Hin. repeat destruct Hin as [[= -> ->]|Hin]; [done|]. elem_nil.
Defined.

(** ** Two deadlocks outside the order

    Opposite renames, and two-phase index builds under an IX hold of the
    collection, reach crossed waits. *)

Definition w_rename (a b : string) : Doc :=
  [(lit "renameCollection", String (lit a)); (lit "to", String (lit b))].
Definition w_renames : list (list command) :=
  [[w_command (w_rename "a.x" "a.y") []]; [w_command (w_rename "a.y" "a.x") []]].
Definition w_renames_sched := w_steps 8 0 ++ w_steps 8 1 ++ w_steps 2 0 ++ w_steps 2 1.

Definition w_thread (s : sys) (i : nat) : thread := default (mkThread (At (Ret tt)) locals_new) (s_threads s !! i).

Ltac by_wait :=
  split; [vm_compute; reflexivity|split; [do 4 eexists; vm_compute; reflexivity|]];
  vm_compute; repeat first [left | right].

Lemma w_renames_cross :
  waits_holding (w_state w_renames w_renames_sched) 0 (w_thread (w_state w_renames w_renames_sched) 0)
    (Statement 1) (Collection (lit "a.y")) X (Collection (lit "a.x")) X ∧
  waits_holding (w_state w_renames w_renames_sched) 1 (w_thread (w_state w_renames w_renames_sched) 1)
    (Statement 2) (Collection (lit "a.x")) X (Collection (lit "a.y")) X.
Proof. split; by_wait. Qed.

Lemma crossed_waits_stuck_witness :
  let s := w_state w_renames w_renames_sched in
  let s' := w_state w_renames (w_renames_sched ++ w_steps 3 0 ++ w_steps 2 1) in
  waits_holding s' 0 (w_thread s 0) (Statement 1) (Collection (lit "a.y")) X (Collection (lit "a.x")) X ∧
  waits_holding s' 1 (w_thread s 1) (Statement 2) (Collection (lit "a.x")) X (Collection (lit "a.y")) X.
Proof.
  intros s s'. destruct w_renames_cross as [Hi Hj].
  eapply (crossed_waits_stuck w_renames w_renames_sched s (w_steps 3 0 ++ w_steps 2 1) s' 0 1);
    [by_run|by_run|by_run|done|exact Hi|exact Hj|done|done|]. repeat constructor.
Defined.

Definition w_builds : list (list command) :=
  [[w_command (w_doc "createIndexes" "c") [HBuild (lit "a") (lit "c")]];
   [w_command (w_doc "createIndexes" "c") [HBuild (lit "a") (lit "c")]]].
Definition w_builds_sched :=
  w_steps 27 0 ++ w_steps 27 1 ++ w_steps 13 0 ++ w_steps 13 1 ++ w_steps 9 0 ++ w_steps 9 1.

(** Two [createIndexes] that found the collection empty hold it in IX; a document
    inserted meanwhile makes both run a two-phase build, whose exclusive round
    each waits for the other's IX. *)
Lemma w_builds_cross : ∃ o o',
  waits_holding (w_state w_builds w_builds_sched) 0 (w_thread (w_state w_builds w_builds_sched) 0)
    o (Collection (lit "a.c")) X (Collection (lit "a.c")) Ix ∧
  waits_holding (w_state w_builds w_builds_sched) 1 (w_thread (w_state w_builds w_builds_sched) 1)
    o' (Collection (lit "a.c")) X (Collection (lit "a.c")) Ix.
Proof.
  eexists _, _. split.
  - by_wait.
  - by_wait.
Qed.
